(* ===== verification/_CoqProject ===== *)
-Q . S2P
Prelude.v
Bytes.v
KeyValue.v
NodeEntries.v
ObjectGraph.v
ObjectTar.v
ObjectSample.v
PkgSpec.v
PkgFields.v
PkgNodes.v
PkgNodesData.v
PkgNode.v
PkgLeaves.v
PkgTree.v
PkgViews.v
PkgProps.v
PkgPackage.v
PkgImport.v
PkgPropTree.v
PkgRoundtrip.v
CouncilNode.v
CouncilGraph.v
CouncilServer.v
CouncilJobs.v
LinesCodec.v
DalContext.v
DalUnits.v
NodeMenu.v
AttributeContext.v
StatusUpdates.v
IndexMap.v
AttributeView.v
ViewJson.v
ViewTree.v
ViewForest.v
ViewSample.v
VariantDefinition.v
VariantMeaning.v
NodeOrder.v
ActionOrder.v
Redaction.v
CycloneSecrets.v
CycloneSample.v
CycloneMessages.v
CycloneServer.v
CycloneClient.v
Veritech.v
FunctionRun.v
FunctionSample.v
Validations.v
Addresses.v
ValidationChecks.v
ValidationSample.v
ConfigSer.v
ConfigFind.v
PropTree.v
PropertyEditor.v
EditorTheorems.v
Secrets.v
SecretFlow.v
SecretSample.v
Fixes.v
FixTheorems.v
FixOutcome.v
FixSample.v
StandardModel.v
ModelViews.v
ChangeSets.v
Associations.v
ModelSample.v
Components.v
ComponentTheorems.v
ComponentSample.v
