(* ===== verification/Prelude.v ===== *)
(** * System Initiative: verification of the core of the engine

    System Initiative is a set of Rust services around a data access layer (the
    "dal"). This library models the parts of it whose logic is in Rust, and proves
    what they promise. It reads like the code: one file or Module per component,
    records for structs, inductive types for enums, one definition per function,
    with the names of the source where Rocq allows them.

    ** The program

    - [src/lib/council-server]: a service that coordinates jobs. It hands out the
      permission to create attribute values to one job at a time, and keeps, per
      change set, a graph of values to be updated, granting every value whose
      dependencies are done to one of the jobs that want it.
    - [src/lib/dal/src/job/definition/dependent_values_update.rs]: the job that
      talks to the council through [council-server/src/client.rs].
    - [src/lib/dal/src/context.rs]: the contexts through which everything in the
      dal reaches the database, the message broker and the job queue.
    - [src/lib/dal/src/standard_model.rs], [change_set.rs] and the functions of the
      database that they call ([dal/src/migrations]): the rows of objects in head and
      in change sets, what contexts show of them, and applying a change set.
    - [src/lib/dal/src/component.rs]: deleting a component with its node and its
      edges in a change set, and restoring it.
    - [src/lib/object-tree]: trees of nodes, written as hashed objects into a tar
      archive and read back.
    - [src/lib/si-pkg]: packages. A specification (functions, schemas, variants,
      props, change sets) becomes a tree of nodes, the tree an archive, and the
      archive a package from which the specification is made again.
    - [src/lib/bytes-lines-codec]: the framing of lines that the services use on
      their sockets.
    - [src/lib/dal/src/node_menu.rs], [attribute/context.rs]: the menu of schemas,
      and what an attribute value belongs to.
    - [src/lib/dal/src/index_map.rs], [attribute/value/view.rs]: the order of the
      values below an array or a map, and the JSON value that is put together
      from the rows of attribute values.
    - [src/lib/dal/src/schema/variant/definition.rs]: what the author of an asset
      writes, which becomes the specification of a schema variant.
    - [src/lib/dal/src/node.rs], [action.rs]: the order of the nodes of a diagram,
      and of the actions of a change set.
    - [src/lib/dal/src/status.rs]: what the frontend is told of the values that a
      job updates.
    - [src/lib/dal/src/validation.rs], [func/backend], [func/binding.rs],
      [component/validation.rs]: functions that run in the dal, and the validations
      of the values of a component.
    - [src/lib/cyclone-server], [cyclone-client], [cyclone-core]: a function is run
      in a child process; its request is decrypted, and what it writes and returns
      is redacted and sent over a websocket.
    - [src/lib/config-file], [si-settings]: configuration from defaults, files, the
      environment and the program.
    - [src/lib/dal/src/prop_tree.rs], [property_editor]: the props of schema variants
      as trees, and the props, values and validations that the frontend edits.
    - [src/lib/si-crypto], [dal/src/key_pair.rs], [secret.rs], [component/view.rs]:
      secrets, encrypted in the database, on their way to functions.
    - [src/lib/dal/src/fix.rs], [fix], [job/definition/fix.rs],
      [pinga-server/src/server.rs], [sdf-server/src/server/service/fix]: batches of
      actions on real resources, run one after the other by a chain of jobs.
    - [src/lib/veritech-server], [veritech-client], [veritech-core],
      [nats-subscriber]: requests for functions and their output and results over
      NATS.

    The council calls its graph; the job sends the council requests and reads its
    responses; packages are trees of object-tree nodes, and asset definitions
    become packages; contexts own transactions and share a job queue, and read the
    standard model with their visibility; actions are
    ordered by the order of the nodes; the veritech server is a client of cyclone. The same composition is in the model.

    ** The files

    - [Prelude]: results and faults, runs that may use up their fuel, list lemmas,
      stable sorting, trees, the [si] hint database. [Bytes]: UTF-8, decimal numbers, splitting.
    - [CouncilNode], [CouncilGraph], [CouncilServer]: [server/graph/node_metadata.rs]
      and the value creation queue, [server/graph.rs], and [Server::run] of
      [server.rs] as [iteration] with a step relation over events. State: the
      queue and a map of maps of node metadata. [CouncilJobs]: the client and the
      job, cut at its awaits, and the system of any number of jobs with the
      council, as a step relation ([sys_step]).
    - [DalContext]: [Visibility], the PostgreSQL and NATS transactions, the job
      queue and processor, [ConnectionState] and [DalContext], in a state monad
      over a store that holds the shared cells. [DalUnits]: its theorems.
    - [StandardModel]: tables with their constraints (columns, checks and unique
      indexes), their views and the operations on their rows.
      [ModelViews]: its theorems. [ChangeSets]: [ChangeSet] and applying.
      [Associations]: belongs to and many to many. [ModelSample]: the witnesses.
    - [Components]: [Component::delete_and_propagate] and [restore_and_propagate] on
      the tables of edges, nodes and components. [ComponentTheorems]: that restoring
      undoes deleting; [ComponentSample]: the witness.
    - [KeyValue], [NodeEntries]: the line format and the bytes of a node
      ([object-tree/src/graph.rs]). [ObjectGraph]: [HashingTree] and [ObjectTree].
      [ObjectTar]: [TarWriter] and [read_from_tar]. [ObjectSample]: concrete
      instances of the parameters, and the witnesses.
    - [PkgSpec], [PkgFields], [PkgNodes], [PkgNodesData], [PkgNode]: the
      enumerations, and the 24 kinds of package node with their bytes
      ([si-pkg/src/node]). [PkgLeaves]: validations and function inputs.
      [PkgTree]: specifications and [as_node_with_children] ([si-pkg/src/spec]).
      [PkgViews], [PkgProps], [PkgPackage]: the [SiPkg..] views and the way back
      to specifications ([si-pkg/src/pkg]), with the visit of the prop tree and
      its rebuilding from a stack. [PkgImport], [PkgPropTree], [PkgRoundtrip]: the
      theorems on the whole round trip.
    - [LinesCodec]: [BytesLinesCodec]. [NodeMenu]: [MenuItems] and
      [GenerateMenuItem]. [AttributeContext]: contexts, builder and order.
    - [IndexMap]. [AttributeView]: [AttributeView::new], its loops as a queue, a
      stack and a map of pointers. [ViewJson]: the JSON crate and the places its
      pointers lead to. [ViewTree], [ViewForest]: the reference value of a tree of
      rows, and that the loops compute it. [ViewSample]: a JSON crate and the
      witnesses.
    - [VariantDefinition]: [SchemaVariantDefinitionJson] and its parts, as they are
      converted to specifications; [VariantMeaning]: what they stand for. [NodeOrder]: [Node::list_topologically_sorted_..].
      [ActionOrder]: [Action::sort_of_change_set].
    - [StatusUpdates]: [StatusUpdate], [StatusUpdaterInner] and [StatusUpdater], as
      operations on the object in memory, its row and the messages.
    - [Validations]: [Validation], the inline functions, and addresses as the
      standard library parses them. [Addresses]: the grammar of addresses and what
      each validation asks for. [ValidationChecks]: [FuncBinding] execution,
      [Component::check_validations] and [ValidationResolver::find_status] on tables;
      [ValidationSample]: the witnesses.
    - [Redaction]: the replacement of credentials in texts and JSON values
      ([cyclone-server/src/execution.rs]). [CycloneSecrets]: the secrets of a
      request ([request.rs]); [CycloneSample] has a concrete JSON pointer.
      [CycloneMessages]: the messages of the protocol and of the language server, and
      [Await], for what is waited for without a timeout.
      [CycloneServer], [CycloneClient]: both sides of the websocket. [Veritech]:
      the subscriber, the server and the client over NATS. [FunctionRun]: all of
      them composed, with their theorems; [FunctionSample]: the witnesses.
    - [ConfigSer]: the [Serializer] that flattens default configuration
      ([config-file/src/layered_load/ser.rs]). [ConfigFind]: the search for a
      configuration file and the layers of a configuration.
    - [PropTree]: [PropTree::new] and the types of TypeScript. [PropertyEditor]:
      props, values and validations; [EditorTheorems]: its theorems.
    - [Secrets]: [SymmetricCryptoService], [KeyPair] and [EncryptedSecret] over the
      tables of the database. [SecretFlow]: [ComponentView::reencrypt_secrets],
      composed with [CycloneSecrets]; [SecretSample]: the witnesses.
    - [Fixes]: [Fix], [FixBatch], [FixesJob], their routes and the execution of jobs,
      as programs: trees of statements, commits, actions and jobs for the shared queue,
      all of which can fail. [FixTheorems]: any number of programs, interleaved in any
      way ([transition]); [FixOutcome]: a batch whose jobs run one after the other when
      nothing is refused; [FixSample]: the witnesses.

    ** What the theorems show

    - The council: the creation permission is a first-in first-out lock
      (refinement of an abstract lock), and with the jobs of [CouncilJobs] at most
      one job creates values in any interleaving, with failures; every operation on
      the graph has a full specification; a nonempty graph without cycles and
      dangling dependencies always has a value being processed, unless the clock gave
      one instant twice, for which a value can be forgotten; when an iteration
      panics; and runs that strand a job or stop the server.
    - Contexts: they implement units of work (refinement of a contract with
      buffers); nothing is published before its transaction is committed; an
      operation fails exactly if its context becomes unusable; jobs are neither
      lost without a trace nor duplicated (those that cannot be sent are given up), but
      are not part of their transaction.
    - Change sets: a context shows head with its change set on top; writes are read
      back, unless a constraint of the table refuses them, and are seen in no other
      change set; applying makes head show what the change set showed, and succeeds if
      no row that it writes breaks a constraint. Associations are found when they are
      set, which is refused for objects that do not exist; unsetting one of head in a
      change set is not seen.
    - Components: what a change set shows after deleting a component of head is all
      but the component, its node and its edges, and restoring it leaves the tables as
      they were.
    - Trees and packages: bytes of nodes read back and do not depend on the order
      of children; trees get their Merkle hashes; archives are content addressed,
      read back and written again alike; specifications come back from packages
      less what the code loses, which is spelled out; visits end and are
      depth-first walks.
    - Codec, menu, attribute contexts: framing equals a reference that sees one
      byte at a time, however the stream is cut, in bounded memory; the menu lists
      every schema where it belongs; contexts are well formed by construction, and
      the order of specificity is what it is.
    - Attribute views: they are always built or fail with an error, and for rows
      that form a forest they are the value a plain recursion gives, in whatever
      order the rows come, with arrays in the order of their index maps.
    - Asset definitions: the variant that they become is the one that was written, less
      its table of links, and comes back from a package. Nodes and actions: every node that can be
      reached without a cycle is listed once, after its sources, in an order that
      does not depend on hash maps, and actions follow it.
    - Status updates: memory has every call, the row lags behind it only when a
      statement was refused, and when the end is announced: every value whose metadata
      was found was completed, and no other one was spoken of; the kinds of values are
      what their contexts say.
    - Configuration: the keys of flattened defaults are exactly the paths of their
      values; a file that the environment names is used or refused; otherwise the
      first place with a file wins.
    - Prop trees and the property editor have exactly the rows of the database, each
      below its parent and in the given order.
    - Secrets come back from the database after any rotation of keys that keeps the
      old ones, and reach the function that a credential is given to.
    - Fixes: whatever is refused and however jobs are interleaved, the actions of a
      batch are run in order and at most once each; if nothing is refused, the batch ends
      with the worst outcome and every row is as the results say; a destroyed component
      leaves it without an end.
    - Validations accept exactly what an independent specification asks for (for
      colors, that of the regular expression, which is more than hex colors); the checks of a component keep
      the last verdict of each function on each value.
    - Functions: every string that decryption brings into a request is listed as a
      credential; no listed credential occurs in the lines of output and the strings of
      results that the server sends; the output and the result of a function reach the
      caller through both servers; a request for a resolver function is answered, and the
      other kinds are answered exactly when their execution does not fail, unless
      something is waited for that never answers, for there are no timeouts.

    Theorems named after a defect ([.._panics_reader], [.._escape_..],
    [.._strands_..] and the like) prove that the code does what it should not on a
    concrete input.

    ** Parameters

    Code that is not in the repository is a class of operations with the laws its
    documentation gives: [Blake3] (hashing), [Petgraph] (graphs with numbered
    nodes), [TarArchive] (archives), [Externals] (JSON, URLs, dates and their
    texts), [SerdeJson] and [JsonPointer] (JSON values and pointers into them),
    [SerdeValue] and [FuncArgsJson] (numbers and arguments), [UnicodeDigits],
    [SealedBox] (decryption), [Sodium] (encryption, with hashes and texts), [MessageJson], [PayloadJson] and [RequestJson] (JSON
    texts of messages), [Env] (the clock and the order of hash maps). The files that use a
    class have concrete instances of it, with which the witnesses evaluate. In
    [DalContext] the database, the broker and the jobs answer through an argument
    of every operation; in [Fixes] the record [World] has the statements and commits that
    are refused and what actions and refreshes return, in [Components] it has the types and
    sockets of components; in [CycloneServer] the record
    [World] says what the websocket and the child process do, and in [CycloneClient] and
    [Veritech] a stream is the list of what polling it answers and whether it is closed
    then. What never answers is [Never]; a websocket and a child process give finitely
    many messages before they end or hang. The further constraints of a table of a model
    are an argument ([Constraints]); those of associations, edges, nodes and components
    are written out.

    ** Bounds and fuel

    Loops that are not structural take fuel and return [None] when it is used up
    ([run]); every theorem about such a loop proves that the given fuel is enough,
    from a measure: the nodes left to visit, the bytes left to read ([decode] takes
    a byte per turn), the dependents left to remove. Lengths and counters of
    machine width are [N] with their wrap or overflow written out where the code
    can reach it (declared lengths of lines, [saturating_add] of the codec).

    ** Not modelled

    Most of the dal is SQL behind PostgreSQL, reached by thin Rust functions, of which
    those of the standard model, of change sets and of deleting components are modelled; sdf,
    pinga, module-index, the CLI, telemetry and the connection wrappers move messages
    between such services. Of veritech and cyclone, start-up, shutdown,
    process management, probes and the HTTP layer. Of the modelled
    components: tracing, the text of errors, field accessors, conversion to SQL
    parameters, and serde derivations (the JSON of a value is a codec parameter). Of
    fixes, the bindings of functions, jobs of other kinds and the values that depend on a
    resource.

    What is left in Rust is mostly the writing side of the dal: the import and export
    of packages ([dal/src/pkg]), attribute values and prototypes ([dal/src/attribute])
    and the routes of sdf. *)

From stdpp Require Import base tactics list gmap strings sorting.

(** ** Results *)

(** Rust's [Result<A, E>], as the monad [result E]. *)
Inductive result (E A : Type) : Type :=
| Ok (a : A)
| Err (e : E).
Arguments Ok {E A} a.
Arguments Err {E A} e.

#[export] Instance result_ret {E} : MRet (result E) := λ A a, Ok a.
#[export] Instance result_bind {E} : MBind (result E) := λ A B f m,
  match m with Ok a => f a | Err e => Err e end.
#[export] Instance result_fmap {E} : FMap (result E) := λ A B f m,
  match m with Ok a => Ok (f a) | Err e => Err e end.

Definition is_ok {E A} (r : result E A) : bool :=
  match r with Ok _ => true | Err _ => false end.

(** [Option::ok_or]. *)
Definition ok_or {E A} (o : option A) (e : E) : result E A :=
  match o with Some a => Ok a | None => Err e end.

(** The value of a result, with a default. *)
Definition ok_default {E A} (d : A) (r : result E A) : A :=
  match r with Ok a => a | Err _ => d end.

#[export] Instance result_eq_dec {E A} `{EqDecision E, EqDecision A} :
  EqDecision (result E A).
Proof. solve_decision. Defined.

Lemma result_bind_ok {E A B} (m : result E A) (f : A → result E B) b :
  (m ≫= f) = Ok b ↔ ∃ a, m = Ok a ∧ f a = Ok b.
Proof. destruct m; cbn; naive_solver. Qed.

(** ** Lists *)

Lemma Forall2_impl_in {A B} (P Q : A → B → Prop) l k :
  Forall2 P l k → (∀ x y, x ∈ l → y ∈ k → P x y → Q x y) → Forall2 Q l k.
Proof.
  induction 1 as [|x y l k Hxy _ IH]; intros HPQ; constructor.
  - apply HPQ; [by left|by left|done].
  - apply IH. intros x' y' Hx Hy. apply HPQ; by right.
Qed.

Lemma Forall_impl_in {A} (P Q : A → Prop) l :
  Forall P l → (∀ x, x ∈ l → P x → Q x) → Forall Q l.
Proof. rewrite !Forall_forall. auto. Qed.

Lemma sum_list_app l k : sum_list (l ++ k) = sum_list l + sum_list k.
Proof. induction l as [|n l IH]; [done|]. simpl. rewrite IH. lia. Qed.

Lemma filter_all {A} (P : A → Prop) `{∀ x, Decision (P x)} l : Forall P l → filter P l = l.
Proof. induction 1 as [|x l Hx _ IH]; [done|]. rewrite filter_cons_True by done. by rewrite IH. Qed.

Lemma filter_none {A} (P : A → Prop) `{∀ x, Decision (P x)} l : Forall (λ x, ¬ P x) l → filter P l = [].
Proof. induction 1 as [|x l Hx _ IH]; [done|]. by rewrite filter_cons_False by done. Qed.

Lemma choose_all {A B} (R : A → B → Prop) l : (∀ a, a ∈ l → ∃ b, R a b) → ∃ k, Forall2 R l k.
Proof.
  induction l as [|a l IH]; intros H; [by exists []|]. destruct (H a) as [b Hb]; [by left|].
  destruct IH as [k Hk]; [intros; apply H; by right|]. exists (b :: k). by constructor.
Qed.

(** ** Sorting *)

Section stable_sort.
Context {A : Type} (le : A → A → bool).

Fixpoint insert_sorted (a : A) (l : list A) : list A :=
  match l with
  | [] => [a]
  | a' :: l' => if le a a' then a :: l else a' :: insert_sorted a l'
  end.

(** The stable sort of the Rust standard library. *)
Definition stable_sort (l : list A) : list A := foldr insert_sorted [] l.

Lemma insert_sorted_perm a l : insert_sorted a l ≡ₚ a :: l.
Proof.
  induction l as [|a' l IH]; simpl; [done|]. destruct (le a a'); [done|].
  rewrite IH. apply Permutation_swap.
Qed.

Lemma stable_sort_perm l : stable_sort l ≡ₚ l.
Proof. induction l as [|a l IH]; simpl; [done|]. by rewrite insert_sorted_perm, IH. Qed.

End stable_sort.

(** By a total order, the result is sorted. *)
Lemma stable_sort_sorted {A} (le : A → A → bool) (R : A → A → Prop) `{!Transitive R} l :
  (∀ a b, reflect (R a b) (le a b)) → (∀ a b, R a b ∨ R b a) → StronglySorted R (stable_sort le l).
Proof.
  intros Hle Htot. induction l as [|a l IH]; simpl; [constructor|]. revert IH.
  generalize (stable_sort le l). clear l. intros s IH.
  induction IH as [|b s Hs IH Hb]; simpl; [by repeat constructor|].
  destruct (Hle a b) as [Hab|Hab].
  - constructor; [by constructor|]. constructor; [done|].
    eapply Forall_impl; [done|]. intros c Hc. by transitivity b.
  - constructor; [done|]. rewrite insert_sorted_perm. constructor; [|done]. by destruct (Htot a b).
Qed.

Lemma stable_sort_by_nat {A} (key : A → nat) l :
  StronglySorted (λ a b, key a ≤ key b) (stable_sort (λ a b, key a <=? key b) l).
Proof.
  apply stable_sort_sorted.
  - intros a b c. lia.
  - intros a b. apply Nat.leb_spec0.
  - intros a b. lia.
Qed.

(** Sorted lists. *)
Lemma StronglySorted_filter {A} (R : A → A → Prop) (P : A → Prop) `{∀ x, Decision (P x)} l :
  StronglySorted R l → StronglySorted R (filter P l).
Proof.
  induction 1 as [|x l _ IH Hx]; [constructor|]. rewrite filter_cons. case_decide; [|done].
  constructor; [done|]. rewrite Forall_forall in *. intros y [_ Hy]%list_elem_of_filter. auto.
Qed.

Lemma StronglySorted_reverse {A} (R : A → A → Prop) l :
  StronglySorted R l → StronglySorted (flip R) (reverse l).
Proof.
  induction 1 as [|x l _ IH Hx]; [constructor|]. rewrite reverse_cons. apply StronglySorted_app_2; [|done|].
  - intros a b Ha Hb. rewrite elem_of_reverse in Ha. apply list_elem_of_singleton in Hb as ->.
    rewrite Forall_forall in Hx. by apply Hx.
  - repeat constructor.
Qed.

Lemma StronglySorted_lookup {A} (R : A → A → Prop) l i j a b :
  StronglySorted R l → l !! i = Some a → l !! j = Some b → i < j → R a b.
Proof.
  intros Hs Hi Hj Hlt. rewrite <-(take_drop (S i) l) in Hs.
  eapply StronglySorted_app_1_elem_of; [done| |].
  - apply list_elem_of_lookup. exists i. rewrite lookup_take_lt by lia. done.
  - apply list_elem_of_lookup. exists (j - S i). rewrite lookup_drop. by replace (S i + (j - S i)) with j by lia.
Qed.

(** A list of lists is sorted if an earlier list goes before itself and the later ones. *)
Lemma StronglySorted_bind {A B} (R : B → B → Prop) (f : A → list B) l :
  (∀ before a after, l = before ++ a :: after → ∀ a', a' ∈ a :: after →
    ∀ b b', b ∈ f a → b' ∈ f a' → R b b') →
  StronglySorted R (l ≫= f).
Proof.
  induction l as [|a l IH]; intros Hl; [constructor|]. rewrite bind_cons. apply StronglySorted_app_2.
  - intros b b' Hb (a' & Hb' & Ha')%list_elem_of_bind. eapply (Hl []); [done| |done|done]. set_solver.
  - assert (∀ b b', b ∈ f a → b' ∈ f a → R b b') as Hall.
    { intros b b'. apply (Hl [] a l eq_refl). set_solver. }
    clear -Hall. induction (f a) as [|b k IHk]; constructor.
    + apply IHk. set_solver.
    + apply Forall_forall. set_solver.
  - apply IH. intros before x after ->. by apply (Hl (a :: before)).
Qed.

(** ** Failures *)

(** How an operation fails: with an error value, or by panicking. *)
Inductive fault (E : Type) : Type :=
| Fault (e : E)
| Panic.
Arguments Fault {E} e.
Arguments Panic {E}.

#[export] Instance fault_eq_dec {E} `{EqDecision E} : EqDecision (fault E).
Proof. solve_decision. Defined.

(** ** Runs *)

(** A result that may not be there: [None] when a loop used up its fuel. *)
Abbreviation run E A := (option (result E A)) (only parsing).

Definition run_then {E A B} (m : run E A) (f : A → run E B) : run E B :=
  match m with
  | None => None
  | Some (Err e) => Some (Err e)
  | Some (Ok a) => f a
  end.

Declare Scope run_scope.
Notation "'let!' x ':=' m 'in' f" := (run_then m (λ x, f))
  (at level 10, x pattern, m at level 100, f at level 200) : run_scope.

(** A loop over a list that collects the results, stopping at the first
    error. *)
Fixpoint run_map {E A B} (f : A → run E B) (l : list A) : run E (list B) :=
  match l with
  | [] => Some (Ok [])
  | a :: l => run_then (f a) (λ b, run_then (run_map f l) (λ bs, Some (Ok (b :: bs))))
  end.

Lemma run_map_ok {E A B} (f : A → run E B) (l : list A) bs :
  Forall2 (λ a b, f a = Some (Ok b)) l bs → run_map f l = Some (Ok bs).
Proof. induction 1 as [|a b l bs Hab _ IH]; [done|]. cbn. by rewrite Hab, IH. Qed.

(** ** Trees of labels *)

Inductive tree (A : Type) : Type :=
| TNode (a : A) (ts : list (tree A)).
Arguments TNode {A} a ts.

Definition label {A} (t : tree A) : A := match t with TNode a _ => a end.
Definition subtrees {A} (t : tree A) : list (tree A) := match t with TNode _ ts => ts end.

Fixpoint tree_size {A} (t : tree A) : nat :=
  match t with TNode _ ts => S (sum_list (tree_size <$> ts)) end.

(** The nodes of a tree, each with what is below it. *)
Fixpoint descendants {A} (t : tree A) : list (tree A) :=
  t :: match t with TNode _ ts => mjoin (descendants <$> ts) end.

(** A property of every node of a tree. *)
Definition everywhere {A} (Q : tree A → Prop) (t : tree A) : Prop :=
  ∀ s, s ∈ descendants t → Q s.

(** Induction with the hypothesis for every child. *)
Lemma tree_children_ind {A} (Q : tree A → Prop) :
  (∀ a ts, Forall Q ts → Q (TNode a ts)) → ∀ t, Q t.
Proof.
  intros H. fix IH 1. intros [a ts]. apply H.
  induction ts as [|t ts IHts]; constructor; [apply IH|apply IHts].
Qed.

Lemma descendants_self {A} (t : tree A) : t ∈ descendants t.
Proof. destruct t. simpl. by left. Qed.

Lemma descendants_eq {A} (t : tree A) : descendants t = t :: mjoin (descendants <$> subtrees t).
Proof. by destruct t. Qed.

Lemma descendants_child {A} (t c s : tree A) :
  c ∈ subtrees t → s ∈ descendants c → s ∈ descendants t.
Proof.
  destruct t as [a ts]. simpl. intros Hc Hs. right.
  apply list_elem_of_join. exists (descendants c). split; [done|].
  by apply list_elem_of_fmap_2.
Qed.

Lemma everywhere_inv {A} (Q : tree A → Prop) t :
  everywhere Q t → Q t ∧ ∀ c, c ∈ subtrees t → everywhere Q c.
Proof.
  intros H. split; [apply H, descendants_self|].
  intros c Hc s Hs. apply H. by apply (descendants_child t c).
Qed.

Lemma everywhere_intro {A} (Q : tree A → Prop) t :
  Q t → (∀ c, c ∈ subtrees t → everywhere Q c) → everywhere Q t.
Proof.
  intros Ht Hc s. rewrite descendants_eq.
  intros [->|(l & Hs & (c & -> & Hin)%list_elem_of_fmap)%list_elem_of_join]%elem_of_cons; [done|].
  by apply (Hc c).
Qed.

Lemma everywhere_below {A} (Q : tree A → Prop) t s :
  everywhere Q t → s ∈ descendants t → everywhere Q s.
Proof.
  intros H Hd s' Hs'. apply H. clear H. revert Hd.
  induction t as [a ts IH] using tree_children_ind. simpl.
  intros [->|(l & Hl & (c & -> & Hc)%list_elem_of_fmap)%list_elem_of_join]%elem_of_cons; [done|].
  rewrite Forall_forall in IH. apply (descendants_child (TNode a ts) c); auto.
Qed.

(** ** Evaluation *)

(** Closes [l = r] between closed terms by evaluating both sides. *)
Ltac evaluate :=
  match goal with |- ?l = ?r => vm_cast_no_check (@eq_refl _ r) end.

(** ** Hint database of the development *)

Create HintDb si discriminated.
