(* ===== verification/Bytes.v ===== *)
(** * Bytes, UTF-8 text and numbers in decimal

    What the package format uses of Rust's [str] and of the standard readers:
    bytes, the UTF-8 check of [str::from_utf8], [split_once], [chars().next_back()],
    [trim_end().is_empty()], the decimal [Display] and [FromStr] of the integer
    types, and [FromStr] of [bool]. A [str] is a list of bytes that is valid
    UTF-8 ([utf8]). *)

From S2P Require Import Prelude.
From Stdlib Require Import NArith ZArith Lia Init.Byte Strings.String.
From stdpp Require Import base tactics list sets strings.

Abbreviation byte := Byte.byte (only parsing).
Abbreviation bytes := (list Byte.byte) (only parsing).

#[export] Instance byte_eq_dec : EqDecision Byte.byte := Byte.byte_eq_dec.

(** A literal. *)
Definition str (s : string) : bytes := list_byte_of_string s.

Definition NL : byte := x0a.
Definition CR : byte := x0d.
Definition SPACE : byte := x20.
Definition COLON : byte := x3a.
Definition EQUALS : byte := x3d.

(** ** UTF-8 *)

Definition code (b : byte) : N := Byte.to_N b.

Definition in_range (lo hi : N) (b : byte) : bool := (lo <=? code b)%N && (code b <=? hi)%N.

(** Where the decoder is inside a code point: at its start, or with one, two or
    three continuation bytes to come; the second byte after [E0], [ED], [F0] and
    [F4] is restricted (no overlong forms, no surrogates, nothing above
    U+10FFFF). *)
Inductive utf8_state : Set :=
| Start | More1 | More2 | More3 | AfterE0 | AfterED | AfterF0 | AfterF4.

#[export] Instance utf8_state_eq_dec : EqDecision utf8_state.
Proof. solve_decision. Defined.

Definition utf8_step (s : utf8_state) (b : byte) : option utf8_state :=
  match s with
  | Start =>
      if in_range 0 127 b then Some Start
      else if in_range 194 223 b then Some More1
      else if in_range 224 224 b then Some AfterE0
      else if in_range 237 237 b then Some AfterED
      else if in_range 225 239 b then Some More2
      else if in_range 240 240 b then Some AfterF0
      else if in_range 241 243 b then Some More3
      else if in_range 244 244 b then Some AfterF4
      else None
  | More1 => if in_range 128 191 b then Some Start else None
  | More2 => if in_range 128 191 b then Some More1 else None
  | More3 => if in_range 128 191 b then Some More2 else None
  | AfterE0 => if in_range 160 191 b then Some More1 else None
  | AfterED => if in_range 128 159 b then Some More1 else None
  | AfterF0 => if in_range 144 191 b then Some More2 else None
  | AfterF4 => if in_range 128 143 b then Some More2 else None
  end.

Arguments utf8_step : simpl never.

Fixpoint utf8_run (s : utf8_state) (bs : bytes) : option utf8_state :=
  match bs with
  | [] => Some s
  | b :: bs => match utf8_step s b with Some s => utf8_run s bs | None => None end
  end.

(** [str::from_utf8] succeeds. *)
Definition is_utf8 (bs : bytes) : bool := bool_decide (utf8_run Start bs = Some Start).

(** The text is valid UTF-8, as every Rust [String] is. *)
Definition utf8 (bs : bytes) : Prop := is_utf8 bs = true.

#[export] Instance utf8_dec bs : Decision (utf8 bs) := decide (is_utf8 bs = true).

Definition ascii_byte (b : byte) : bool := (code b <? 128)%N.

(** [chars().next_back()] and what is left: the last code point is dropped. *)
Fixpoint drop_back (rbs : bytes) : bytes :=
  match rbs with
  | [] => []
  | b :: rbs => if in_range 128 191 b then drop_back rbs else rbs
  end.

Definition drop_last_char (bs : bytes) : bytes := reverse (drop_back (reverse bs)).

(** ** Searching *)

(** [split_once(c)] for an ASCII character. *)
Fixpoint split_once (c : byte) (bs : bytes) : option (bytes * bytes) :=
  match bs with
  | [] => None
  | b :: bs =>
      if decide (b = c) then Some ([], bs)
      else match split_once c bs with
           | Some (l, r) => Some (b :: l, r)
           | None => None
           end
  end.

(** [splitn(n, c)], collected: at most [n] pieces. *)
Fixpoint splitn (n : nat) (c : byte) (bs : bytes) : list bytes :=
  match n with
  | O => []
  | S O => [bs]
  | S n => match split_once c bs with
           | Some (l, r) => l :: splitn n c r
           | None => [bs]
           end
  end.

(** The line [read_line] takes, its newline included, and what follows it. *)
Fixpoint take_line (bs : bytes) : bytes * bytes :=
  match bs with
  | [] => ([], [])
  | b :: bs => if decide (b = NL) then ([NL], bs)
               else let '(l, r) := take_line bs in (b :: l, r)
  end.

(** The code points with the [White_Space] property, in UTF-8. *)
Definition white_space : list bytes :=
  [[x09]; [x0a]; [x0b]; [x0c]; [x0d]; [x20]; [xc2; x85]; [xc2; xa0]; [xe1; x9a; x80];
   [xe2; x80; x80]; [xe2; x80; x81]; [xe2; x80; x82]; [xe2; x80; x83]; [xe2; x80; x84];
   [xe2; x80; x85]; [xe2; x80; x86]; [xe2; x80; x87]; [xe2; x80; x88]; [xe2; x80; x89];
   [xe2; x80; x8a]; [xe2; x80; xa8]; [xe2; x80; xa9]; [xe2; x80; xaf]; [xe2; x81; x9f];
   [xe3; x80; x80]].

(** [trim_end().is_empty()]: nothing but white space. *)
Fixpoint blank (fuel : nat) (bs : bytes) : bool :=
  match bs with
  | [] => true
  | _ =>
      match fuel with
      | O => false
      | S fuel =>
          match find (λ w, bool_decide (take (length w) bs = w)) white_space with
          | Some w => blank fuel (drop (length w) bs)
          | None => false
          end
      end
  end.

Definition trim_end_is_empty (bs : bytes) : bool := blank (length bs) bs.

(** ** Integers *)

(** [std::num::IntErrorKind]. *)
Inductive IntErrorKind : Set :=
| EmptyInt | InvalidDigit | PosOverflow | NegOverflow.

#[export] Instance IntErrorKind_eq_dec : EqDecision IntErrorKind.
Proof. solve_decision. Defined.

Definition usize_max : N := 18446744073709551615.
Definition isize_max : N := 9223372036854775807.
Definition i64_min : Z := -9223372036854775808.
Definition i64_max : Z := 9223372036854775807.

Definition digit_of (b : byte) : option N :=
  if in_range 48 57 b then Some (code b - 48)%N else None.

Definition digit_byte (d : N) : byte :=
  match Byte.of_N (48 + d) with Some b => b | None => x30 end.

(** The digits of [n] in front of [acc], most significant first. *)
Fixpoint print_digits (fuel : nat) (n : N) (acc : bytes) : bytes :=
  match fuel with
  | O => acc
  | S fuel =>
      let acc := digit_byte (n mod 10) :: acc in
      if (n <? 10)%N then acc else print_digits fuel (n / 10) acc
  end.

(** [Display] of an unsigned integer; a number has at most as many decimal as
    binary digits. *)
Definition print_N (n : N) : bytes := print_digits (S (N.size_nat n)) n [].

(** The loop of [from_str_radix] with checked arithmetic: a bad digit is
    reported before an overflow at the same place. *)
Fixpoint parse_digits (max acc : N) (bs : bytes) : result IntErrorKind N :=
  match bs with
  | [] => Ok acc
  | b :: bs =>
      match digit_of b with
      | None => Err InvalidDigit
      | Some d =>
          if (max <? acc * 10 + d)%N then Err PosOverflow
          else parse_digits max (acc * 10 + d) bs
      end
  end.

(** [usize::from_str]: an optional sign [+], then at least one digit. *)
Definition parse_usize (bs : bytes) : result IntErrorKind N :=
  match bs with
  | [] => Err EmptyInt
  | b :: rest =>
      if decide (b = x2b)
      then match rest with [] => Err InvalidDigit | _ => parse_digits usize_max 0 rest end
      else parse_digits usize_max 0 bs
  end.

Definition print_Z (z : Z) : bytes :=
  if (z <? 0)%Z then x2d :: print_N (Z.abs_N z) else print_N (Z.abs_N z).

(** [i64::from_str]. *)
Definition parse_i64 (bs : bytes) : result IntErrorKind Z :=
  match bs with
  | [] => Err EmptyInt
  | b :: rest =>
      if decide (b = x2d) then
        match rest with
        | [] => Err InvalidDigit
        | _ => match parse_digits (Z.abs_N i64_min) 0 rest with
               | Ok n => Ok (- Z.of_N n)%Z
               | Err PosOverflow => Err NegOverflow
               | Err e => Err e
               end
        end
      else if decide (b = x2b) then
        match rest with
        | [] => Err InvalidDigit
        | _ => Z.of_N <$> parse_digits (Z.to_N i64_max) 0 rest
        end
      else Z.of_N <$> parse_digits (Z.to_N i64_max) 0 bs
  end.

(** [Display] and [FromStr] of [bool]. *)
Definition print_bool (b : bool) : bytes := str (if b then "true" else "false").

Definition parse_bool (bs : bytes) : option bool :=
  if decide (bs = str "true") then Some true
  else if decide (bs = str "false") then Some false
  else None.

(** ** Facts about UTF-8 *)

Lemma utf8_run_app s a b :
  utf8_run s (a ++ b) = match utf8_run s a with Some s' => utf8_run s' b | None => None end.
Proof.
  revert s. induction a as [|x a IH]; intros s; simpl; [done|].
  destruct (utf8_step s x); [apply IH|done].
Qed.

Lemma utf8_alt bs : utf8 bs ↔ utf8_run Start bs = Some Start.
Proof. unfold utf8, is_utf8. apply bool_decide_eq_true. Qed.

Lemma utf8_nil : utf8 [].
Proof. done. Qed.

Lemma utf8_app a b : utf8 a → utf8 b → utf8 (a ++ b).
Proof. rewrite !utf8_alt, utf8_run_app. by intros ->. Qed.

Lemma code_bound b : (code b < 256)%N.
Proof. unfold code. pose proof (Byte.to_N_bounded b). lia. Qed.

Lemma in_range_spec lo hi b : in_range lo hi b = true ↔ (lo ≤ code b ≤ hi)%N.
Proof. unfold in_range. rewrite andb_true_iff, !N.leb_le. done. Qed.

(** An ASCII byte only occurs at the start of a code point. *)
Lemma utf8_step_ascii s b :
  ascii_byte b = true → utf8_step s b = if decide (s = Start) then Some Start else None.
Proof.
  unfold ascii_byte. rewrite N.ltb_lt. intros Hb.
  assert (Hr : ∀ lo hi, (128 ≤ lo)%N → in_range lo hi b = false).
  { intros lo hi Hlo. apply not_true_iff_false. rewrite in_range_spec. lia. }
  assert (in_range 0 127 b = true) by (apply in_range_spec; lia).
  destruct s; unfold utf8_step; rewrite ?Hr by done; [by rewrite H|done..].
Qed.

Lemma utf8_ascii b : ascii_byte b = true → utf8 [b].
Proof. intros Hb. apply utf8_alt. simpl. by rewrite utf8_step_ascii. Qed.

(** A text splits at an ASCII byte into two texts. *)
Lemma utf8_split a c b : ascii_byte c = true → utf8 (a ++ c :: b) ↔ utf8 a ∧ utf8 b.
Proof.
  intros Hc. rewrite !utf8_alt, utf8_run_app.
  destruct (utf8_run Start a) as [s|]; simpl; [|naive_solver].
  rewrite utf8_step_ascii by done. case_decide; naive_solver.
Qed.

Lemma utf8_snoc a c : ascii_byte c = true → utf8 (a ++ [c]) ↔ utf8 a.
Proof. intros Hc. rewrite utf8_split by done. naive_solver. Qed.

Lemma forallb_ascii_utf8 bs : forallb ascii_byte bs = true → utf8 bs.
Proof.
  induction bs as [|b bs IH]; simpl; [done|]. intros [Hb Hbs]%andb_true_iff.
  apply (utf8_app [b]); [by apply utf8_ascii|auto].
Qed.

Lemma drop_last_char_ascii a c : ascii_byte c = true → drop_last_char (a ++ [c]) = a.
Proof.
  unfold ascii_byte, drop_last_char. rewrite N.ltb_lt. intros Hc.
  rewrite reverse_app. simpl. destruct (in_range 128 191 c) eqn:Hr.
  { apply in_range_spec in Hr. lia. }
  by rewrite reverse_involutive.
Qed.

(** ** Facts about searching *)

Lemma split_once_app c l r : c ∉ l → split_once c (l ++ c :: r) = Some (l, r).
Proof.
  induction l as [|b l IH]; intros Hc; simpl; [by rewrite decide_True|].
  rewrite decide_False by set_solver. by rewrite IH by set_solver.
Qed.

Lemma split_once_None c bs : c ∉ bs → split_once c bs = None.
Proof.
  induction bs as [|b bs IH]; intros Hc; simpl; [done|].
  rewrite decide_False by set_solver. by rewrite IH by set_solver.
Qed.

Lemma split_once_Some c bs l r : split_once c bs = Some (l, r) → bs = l ++ c :: r ∧ c ∉ l.
Proof.
  revert l r. induction bs as [|b bs IH]; intros l r; simpl; [done|].
  case_decide; [intros [= <- <-]; set_solver|].
  destruct (split_once c bs) as [[l' r']|]; [|done]. intros [= <- <-].
  destruct (IH l' r' eq_refl) as [-> ?]. set_solver.
Qed.

Lemma take_line_app l r : NL ∉ l → take_line (l ++ NL :: r) = (l ++ [NL], r).
Proof.
  induction l as [|b l IH]; intros Hl; simpl; [done|].
  rewrite decide_False by set_solver. by rewrite IH by set_solver.
Qed.

Lemma take_line_last l : NL ∉ l → take_line l = (l, []).
Proof.
  induction l as [|b l IH]; intros Hl; simpl; [done|].
  rewrite decide_False by set_solver. by rewrite IH by set_solver.
Qed.

(** Nothing is lost or added by reading a line. *)
Lemma take_line_concat bs : (take_line bs).1 ++ (take_line bs).2 = bs.
Proof.
  induction bs as [|b bs IH]; simpl; [done|]. case_decide; [by subst|].
  destruct (take_line bs); simpl in *. by rewrite IH.
Qed.

(** Every text either has no newline or splits at its first one. *)
Lemma first_line bs : NL ∉ bs ∨ ∃ l r, bs = l ++ NL :: r ∧ NL ∉ l.
Proof.
  destruct (decide (NL ∈ bs)) as [Hin|]; [right|by left].
  destruct (split_once NL bs) as [[l r]|] eqn:Hs.
  - apply split_once_Some in Hs. eauto.
  - exfalso. induction bs as [|b bs IH]; simpl in Hs; [set_solver|].
    case_decide; [done|]. destruct (split_once NL bs) as [[]|]; [done|]. set_solver.
Qed.

(** ** Facts about numbers *)

Lemma code_digit_byte d : (d < 10)%N → code (digit_byte d) = (48 + d)%N.
Proof.
  intros Hd. unfold digit_byte, code.
  destruct (Byte.of_N (48 + d)) as [b|] eqn:Hb; [by apply Byte.to_of_N|].
  apply Byte.of_N_None_iff in Hb. lia.
Qed.

Lemma digit_of_byte d : (d < 10)%N → digit_of (digit_byte d) = Some d.
Proof.
  intros Hd. unfold digit_of. rewrite (proj2 (in_range_spec _ _ _));
    rewrite code_digit_byte by done; [f_equal|]; lia.
Qed.

Lemma digit_byte_ascii d : (d < 10)%N → ascii_byte (digit_byte d) = true.
Proof. intros Hd. unfold ascii_byte. rewrite code_digit_byte by done. apply N.ltb_lt. lia. Qed.

Lemma parse_print_digits max fuel n acc :
  (n ≤ max)%N → (n < 2 ^ N.of_nat fuel)%N → fuel ≠ 0 →
  parse_digits max 0 (print_digits fuel n acc) = parse_digits max n acc.
Proof.
  revert n acc. induction fuel as [|fuel IH]; intros n acc Hmax Hn Hf; [done|].
  assert (Hmod : (n mod 10 < 10)%N) by (apply N.mod_lt; lia).
  cbn [print_digits]. destruct (N.ltb_spec n 10) as [Hlt|Hge].
  - simpl. rewrite digit_of_byte by done. rewrite N.mod_small by done.
    rewrite N.mul_0_l, N.add_0_l. by rewrite (proj2 (N.ltb_ge _ _)) by done.
  - assert (Hpow : (2 ^ N.of_nat (S fuel) = 2 * 2 ^ N.of_nat fuel)%N).
    { rewrite Nat2N.inj_succ, N.pow_succ_r'. done. }
    rewrite IH.
    + cbn [parse_digits]. rewrite digit_of_byte by done.
      pose proof (N.div_mod n 10) as Hdiv.
      destruct (N.ltb_spec max (n / 10 * 10 + n mod 10)); [lia|]. f_equal. lia.
    + pose proof (N.Div0.div_le_upper_bound n 10 max). lia.
    + apply N.Div0.div_lt_upper_bound. lia.
    + intros ->. simpl in Hn. lia.
Qed.

Lemma size_nat_size n : N.of_nat (N.size_nat n) = N.size n.
Proof. destruct n as [|p]; simpl; [done|]. induction p; simpl in *; lia. Qed.

Lemma size_nat_bound n : (n < 2 ^ N.of_nat (S (N.size_nat n)))%N.
Proof.
  rewrite Nat2N.inj_succ, size_nat_size, N.pow_succ_r'. pose proof (N.size_gt n). lia.
Qed.

Lemma parse_print_N max n : (n ≤ max)%N → parse_digits max 0 (print_N n) = Ok n.
Proof.
  intros Hn. unfold print_N. rewrite parse_print_digits; [done|done| |done].
  apply size_nat_bound.
Qed.

(** Printed numbers consist of digits, and of at least one. *)
Lemma print_digits_digits fuel n acc b :
  b ∈ print_digits fuel n acc → b ∈ acc ∨ ∃ d, (d < 10)%N ∧ b = digit_byte d.
Proof.
  revert n acc. induction fuel as [|fuel IH]; intros n acc; simpl; [by left|].
  assert ((n mod 10 < 10)%N) by (apply N.mod_lt; lia).
  destruct (n <? 10)%N; [|intros [Hin|?]%IH; [|by right]]; set_solver.
Qed.

Lemma print_N_digits n b : b ∈ print_N n → ∃ d, (d < 10)%N ∧ b = digit_byte d.
Proof. intros [H|H]%print_digits_digits; [by apply not_elem_of_nil in H|done]. Qed.

Lemma print_digits_nonempty fuel n acc : fuel ≠ 0 → print_digits fuel n acc ≠ [].
Proof.
  destruct fuel as [|fuel]; [done|intros _]. cbn [print_digits]. destruct (n <? 10)%N; [done|].
  generalize (n / 10)%N. generalize (digit_byte (n mod 10)). clear n.
  revert acc. induction fuel as [|fuel IH]; intros acc b n; simpl; [done|].
  destruct (n <? 10)%N; [done|]. apply IH.
Qed.

Lemma print_N_nonempty n : print_N n ≠ [].
Proof. by apply print_digits_nonempty. Qed.

Lemma print_N_not_in n b : in_range 48 57 b = false → b ∉ print_N n.
Proof.
  intros Hr (d & Hd & ->)%print_N_digits. apply not_true_iff_false in Hr. apply Hr.
  apply in_range_spec. rewrite code_digit_byte by done. lia.
Qed.

Lemma parse_print_usize n : (n ≤ usize_max)%N → parse_usize (print_N n) = Ok n.
Proof.
  intros Hn. pose proof (print_N_nonempty n). pose proof (print_N_not_in n x2b eq_refl).
  pose proof (parse_print_N usize_max n Hn) as Hp. unfold parse_usize.
  destruct (print_N n) as [|b rest]; [done|]. rewrite decide_False by set_solver. done.
Qed.

Lemma parse_print_i64 z : (i64_min ≤ z ≤ i64_max)%Z → parse_i64 (print_Z z) = Ok z.
Proof.
  unfold i64_min, i64_max. intros Hz. unfold print_Z, parse_i64.
  pose proof (print_N_nonempty (Z.abs_N z)) as Hne.
  destruct (Z.ltb_spec z 0) as [Hneg|Hpos].
  - rewrite decide_True by done. destruct (print_N (Z.abs_N z)) as [|b rest] eqn:Hp; [done|].
    rewrite <- Hp, parse_print_N by (unfold i64_min; lia). f_equal. lia.
  - pose proof (print_N_not_in (Z.abs_N z) x2b eq_refl).
    pose proof (print_N_not_in (Z.abs_N z) x2d eq_refl).
    destruct (print_N (Z.abs_N z)) as [|b rest] eqn:Hp; [done|].
    rewrite !decide_False by set_solver.
    rewrite <- Hp, parse_print_N by (unfold i64_max; lia). cbn. f_equal. lia.
Qed.

Lemma print_Z_nonempty z : print_Z z ≠ [].
Proof. unfold print_Z. destruct (z <? 0)%Z; [done|apply print_N_nonempty]. Qed.

Lemma print_N_utf8 n : utf8 (print_N n).
Proof.
  apply forallb_ascii_utf8, forallb_forall. intros b Hb%list_elem_of_In.
  apply print_N_digits in Hb as (d & Hd & ->). by apply digit_byte_ascii.
Qed.

Lemma print_Z_utf8 z : utf8 (print_Z z).
Proof.
  unfold print_Z. destruct (z <? 0)%Z; [|apply print_N_utf8].
  apply (utf8_app [x2d]); [done|apply print_N_utf8].
Qed.

Lemma print_digits_length fuel n acc : length (print_digits fuel n acc) ≤ length acc + fuel.
Proof.
  revert n acc. induction fuel as [|fuel IH]; intros n acc; simpl; [lia|].
  destruct (n <? 10)%N; simpl; [lia|].
  pose proof (IH (n / 10)%N (digit_byte (n mod 10) :: acc)) as H. simpl in H. lia.
Qed.

Lemma print_Z_length z : (i64_min ≤ z ≤ i64_max)%Z → length (print_Z z) ≤ 70.
Proof.
  unfold i64_min, i64_max. intros Hz.
  assert (Hs : (N.size (Z.abs_N z) < 65)%N).
  { apply (N.pow_lt_mono_r_iff 2); [lia|]. pose proof (N.size_le (Z.abs_N z)).
    rewrite N.succ_double_spec in H. change (2 ^ 65)%N with 36893488147419103232%N. lia. }
  rewrite <- size_nat_size in Hs. unfold print_Z, print_N.
  pose proof (print_digits_length (S (N.size_nat (Z.abs_N z))) (Z.abs_N z) []) as Hl. simpl in Hl.
  assert (N.size_nat (Z.abs_N z) < 65) by lia.
  set (l := length _) in Hl. assert (l ≤ 66) by lia.
  destruct (z <? 0)%Z; [change (S l ≤ 70)|change (l ≤ 70)]; lia.
Qed.

Lemma parse_print_bool b : parse_bool (print_bool b) = Some b.
Proof. by destruct b. Qed.

Lemma print_bool_utf8 b : utf8 (print_bool b).
Proof. by destruct b. Qed.

Lemma print_bool_nonempty b : print_bool b ≠ [].
Proof. by destruct b. Qed.

#[export] Hint Resolve utf8_nil utf8_app print_N_utf8 print_Z_utf8 print_bool_utf8
  print_bool_nonempty print_Z_nonempty : si.
