(* ===== verification/KeyValue.v ===== *)
(** * Key/value lines

    The line format of serialized nodes, from [src/lib/object-tree/src/graph.rs]:
    [write_key_value_line] writes [key:len=value] and a newline, where [len] is
    the number of bytes of the value, so that a value may contain newlines;
    [read_key_value_line] and [read_key_value_line_opt] read it back. Every
    reader of the program is a [Cursor] over a byte vector ([from_bytes]): its
    [fill_buf] is all the remaining input, and it fails only at its end. *)

From S2P Require Import Prelude Bytes.
From Stdlib Require Import NArith Init.Byte.
From stdpp Require Import base tactics list sets strings.

(** ** Hashes *)

(** BLAKE3, as wrapped by [si_hash::Hash]: the type of hash values, [Hash::new],
    [Display] and [FromStr]. *)
Class Blake3 := {
  Hash : Type;
  Hash_eq_dec :: EqDecision Hash;
  hash_new : list Byte.byte → Hash;
  hash_to_string : Hash → list Byte.byte;
  hash_from_str : list Byte.byte → option Hash;
}.

(** Their documented behaviour: the text of a hash is its 64 lower-case hex
    digits, and parsing gives the hash back. *)
Class Blake3Ok (B : Blake3) : Prop := {
  hash_roundtrip h : hash_from_str (hash_to_string h) = Some h;
  hash_hex h : forallb (λ b, in_range 48 57 b || in_range 97 102 b) (hash_to_string h) = true;
  hash_length h : length (hash_to_string h) = 64;
}.

(** ** Errors *)

(** [std::io::Error] of a [Cursor]. *)
Inductive IoError : Set :=
| InvalidData
| UnexpectedEof.

(** What [GraphError::Parse] boxes. *)
Inductive ParseError : Set :=
| ParseIntError (kind : IntErrorKind)
| ParseBoolError
| Utf8Error
| VariantNotFound
| HashParseError
| JsonError
| UrlError
| TimeError.

Inductive GraphError `{B : Blake3} : Type :=
| BufReadRangeError
| CheckedArithmeticFailure (msg : string)
| InvalidNodeVersion (version : list Byte.byte)
| IoRead (e : IoError)
| IoWrite (e : IoError)
| MissingRootNode
| MultipleRootNode
| NodeWeightNotFound (idx : nat) (msg : string)
| Parse (e : ParseError)
| ParseCustom (msg : list Byte.byte)
| ParseLineBlank (line : list Byte.byte)
| ParseLineExpectedKey (expected got : list Byte.byte)
| ParseLineKeyValueFormat (line : list Byte.byte)
| UnhashedChild (parent child : list Byte.byte)
| UnhashedNode (name : list Byte.byte)
| Verify (expected computed : Hash).

(** ** Readers and writers *)

Section monads.
Context `{B : Blake3}.

(** A reader consumes a prefix of the input or fails. *)
Definition reader (A : Type) : Type :=
  list Byte.byte → result (fault GraphError) (A * list Byte.byte).

#[global] Instance reader_ret : MRet reader := λ A a input, Ok (a, input).
#[global] Instance reader_bind : MBind reader := λ A C f m input,
  match m input with
  | Ok (a, rest) => f a rest
  | Err e => Err e
  end.

Definition fail {A} (e : GraphError) : reader A := λ _, Err (Fault e).

(** [value.map_err(GraphError::parse)?]. *)
Definition parsed {A} (e : ParseError) (o : option A) : reader A :=
  match o with Some a => mret a | None => fail (Parse e) end.

(** What a [write_bytes] writes, unless it fails. *)
Definition writer : Type := result (fault GraphError) (list Byte.byte).

(** Two writes, one after the other. *)
Definition then_write (w1 w2 : writer) : writer :=
  b1 ← w1; b2 ← w2; Ok (b1 ++ b2).

End monads.

Declare Scope writer_scope.
Delimit Scope writer_scope with writer.
Infix "+++" := then_write (at level 60, right associativity) : writer_scope.
Open Scope writer_scope.

Section lines.
Context `{B : Blake3}.

(** ** Standard readers *)

Definition read_line : reader (list Byte.byte) := λ input,
  let '(line, rest) := take_line input in
  if is_utf8 line then Ok (line, rest) else Err (Fault (IoRead InvalidData)).

Definition read_exact (n : N) : reader (list Byte.byte) := λ input,
  if (N.of_nat (length input) <? n)%N then Err (Fault (IoRead UnexpectedEof))
  else Ok (take (N.to_nat n) input, drop (N.to_nat n) input).

(** [vec![0; n]]: a capacity above [isize::MAX] panics. *)
Definition vec_zeroed (n : N) : reader () := λ input,
  if (isize_max <? n)%N then Err Panic else Ok ((), input).

(** ** Key/value lines *)

Definition write_key_value_line (key value : list Byte.byte) : writer :=
  Ok (key ++ [COLON] ++ print_N (N.of_nat (length value)) ++ [EQUALS] ++ value ++ [NL]).

Definition write_key_value_line_opt (key : list Byte.byte) (value : option (list Byte.byte)) :
    writer :=
  match value with
  | Some value => write_key_value_line key value
  | None => Ok []
  end.

Definition parse_key_line (line : list Byte.byte) :
    reader (list Byte.byte * N * list Byte.byte) :=
  match split_once EQUALS line with
  | None => fail (ParseLineKeyValueFormat line)
  | Some (line_key_and_len, line_value) =>
      match split_once COLON line_key_and_len with
      | None => fail (ParseLineKeyValueFormat line)
      | Some (line_key, len_str) =>
          match parse_usize len_str with
          | Err kind => fail (Parse (ParseIntError kind))
          | Ok len => mret (line_key, len, line_value)
          end
      end
  end.

Definition read_key_value_line (key : list Byte.byte) : reader (list Byte.byte) :=
  line ← read_line;
  '(line_key, len, line_value) ← parse_key_line line;
  if decide (line_key ≠ key) then fail (ParseLineExpectedKey key line_key) else
  let value_len := N.of_nat (length line_value) in
  if (value_len - 1 =? len)%N then mret (drop_last_char line_value)
  else if (len <? value_len)%N then
    fail (ParseCustom (str "Expected at most " ++ print_N len ++ str " characters, got " ++
                       print_N value_len ++ str " characters in " ++ line_value))
  else
    let remaining_bytes := (len - value_len)%N in
    if (usize_max <? remaining_bytes + 1)%N
    then fail (CheckedArithmeticFailure "could not compute length for remaining vec")
    else
      vec_zeroed (remaining_bytes + 1);;
      remaining ← read_exact (remaining_bytes + 1);
      if is_utf8 remaining then mret (line_value ++ drop_last_char remaining)
      else fail (Parse Utf8Error).

Definition read_key_value_line_opt (key : list Byte.byte) :
    reader (option (list Byte.byte)) := λ current_buf,
  if (length current_buf <? length key + 1)%nat then Ok (None, current_buf) else
  let current_buf_key := take (length key) current_buf in
  if is_utf8 current_buf_key &&
     bool_decide (current_buf_key = key ∧ current_buf !! length key = Some COLON)
  then (value ← read_key_value_line key; mret (Some value)) current_buf
  else Ok (None, current_buf).

Definition read_empty_line : reader () :=
  line ← read_line;
  if trim_end_is_empty line then mret () else fail (ParseLineBlank line).

Definition write_separator_bytes : writer := Ok [NL].

End lines.

(** ** Vocabulary *)

(** What every Rust [String] is: valid UTF-8 of at most [isize::MAX] bytes. *)
Definition text (v : list Byte.byte) : Prop :=
  utf8 v ∧ (N.of_nat (length v) ≤ isize_max)%N.

(** A usable key: UTF-8 without [:], [=] and newline. *)
Definition is_key (key : list Byte.byte) : bool :=
  is_utf8 key && bool_decide ((COLON ∉ key) ∧ (EQUALS ∉ key) ∧ (NL ∉ key)).

(** What may follow a node's lines: the end of the input, or a blank line. *)
Definition ends_node (rest : list Byte.byte) : Prop := rest = [] ∨ head rest = Some NL.

(** The bytes of a line. *)
Definition kv_bytes (key value : list Byte.byte) : list Byte.byte :=
  key ++ [COLON] ++ print_N (N.of_nat (length value)) ++ [EQUALS] ++ value ++ [NL].

Lemma text_nil : text [].
Proof. split; [done|]. unfold isize_max. simpl. lia. Qed.

Lemma text_short v : forallb ascii_byte v = true → length v < 1000 → text v.
Proof.
  intros Hv Hl. split; [by apply forallb_ascii_utf8|]. unfold isize_max. lia.
Qed.

Lemma is_key_spec key :
  is_key key = true ↔ utf8 key ∧ (COLON ∉ key) ∧ (EQUALS ∉ key) ∧ (NL ∉ key).
Proof. unfold is_key. rewrite andb_true_iff, bool_decide_eq_true. done. Qed.

Section facts.
Context `{B : Blake3}.

(** The header of a line, up to its equals sign. *)
Definition kv_header (key : list Byte.byte) (len : N) : list Byte.byte :=
  key ++ COLON :: print_N len.

Lemma kv_bytes_header key v rest :
  kv_bytes key v ++ rest =
  kv_header key (N.of_nat (length v)) ++ EQUALS :: v ++ NL :: rest.
Proof. unfold kv_bytes, kv_header. by rewrite <- !(assoc_L (++)). Qed.

Lemma kv_header_utf8 key n : is_key key = true → utf8 (kv_header key n).
Proof.
  intros [? _]%is_key_spec. unfold kv_header. apply utf8_app; [done|].
  apply (utf8_app [COLON]); [done|apply print_N_utf8].
Qed.

Lemma kv_header_no key n b :
  is_key key = true → b = EQUALS ∨ b = NL → b ∉ kv_header key n.
Proof.
  intros (_ & _ & ? & ?)%is_key_spec Hb. unfold kv_header.
  rewrite not_elem_of_app, not_elem_of_cons.
  destruct Hb as [-> | ->]; (split_and!; [done|done|]); by apply print_N_not_in.
Qed.

(** A line that starts with a written header parses into its parts. *)
Lemma parse_key_line_header key n value input :
  is_key key = true → (n ≤ usize_max)%N →
  parse_key_line (kv_header key n ++ EQUALS :: value) input = Ok (key, n, value, input).
Proof.
  intros Hk Hn. unfold parse_key_line.
  rewrite split_once_app by (apply kv_header_no; auto).
  apply is_key_spec in Hk as (_ & Hc & _). unfold kv_header.
  rewrite split_once_app by done. by rewrite parse_print_usize by done.
Qed.

Lemma read_line_text l rest :
  NL ∉ l → utf8 l → read_line (l ++ NL :: rest) = Ok (l ++ [NL], rest).
Proof.
  intros Hl Hu. unfold read_line. rewrite take_line_app by done.
  assert (Hu' : is_utf8 (l ++ [NL]) = true) by by apply (utf8_snoc l NL).
  by rewrite Hu'.
Qed.

Lemma header_line_utf8 key n l :
  is_key key = true → utf8 l → utf8 (kv_header key n ++ EQUALS :: l).
Proof. intros. apply utf8_split; [done|]. split; [by apply kv_header_utf8|done]. Qed.

Lemma header_line_no_NL key n l :
  is_key key = true → NL ∉ l → NL ∉ kv_header key n ++ EQUALS :: l.
Proof.
  intros Hk Hl. rewrite not_elem_of_app, not_elem_of_cons.
  split_and!; [apply kv_header_no; auto|done|done].
Qed.

(** Reading a written line gives the value and leaves the rest. *)
Lemma read_key_value_line_bytes key v rest :
  is_key key = true → text v →
  read_key_value_line key (kv_bytes key v ++ rest) = Ok (v, rest).
Proof.
  intros Hk [Hu Hlen]. unfold isize_max in Hlen. rewrite kv_bytes_header.
  unfold read_key_value_line, mbind, reader_bind.
  assert (Hn : (N.of_nat (length v) ≤ usize_max)%N) by (unfold usize_max; lia).
  destruct (first_line v) as [Hv|(l & r & -> & Hl)].
  - replace (kv_header key (N.of_nat (length v)) ++ EQUALS :: v ++ NL :: rest) with
      ((kv_header key (N.of_nat (length v)) ++ EQUALS :: v) ++ NL :: rest)
      by by rewrite <- (assoc_L (++)).
    rewrite read_line_text by (auto using header_line_no_NL, header_line_utf8).
    rewrite <- (assoc_L (++)). cbn [app]. rewrite parse_key_line_header by done.
    rewrite decide_False by naive_solver. rewrite length_app. simpl.
    replace (N.of_nat (length v + 1) - 1)%N with (N.of_nat (length v)) by lia.
    rewrite N.eqb_refl. unfold mret, reader_ret. by rewrite drop_last_char_ascii.
  - apply utf8_split in Hu as [Hul Hur]; [|done]. set (n := N.of_nat _) in *.
    replace (kv_header key n ++ EQUALS :: (l ++ NL :: r) ++ NL :: rest) with
      ((kv_header key n ++ EQUALS :: l) ++ NL :: (r ++ NL :: rest))
      by by rewrite <- !(assoc_L (++)); simpl; rewrite <- ?(assoc_L (++)).
    rewrite read_line_text by (auto using header_line_no_NL, header_line_utf8).
    rewrite <- (assoc_L (++)). cbn [app]. rewrite parse_key_line_header by done.
    rewrite decide_False by naive_solver. rewrite length_app. simpl.
    assert (Hlen' : n = (N.of_nat (length l) + N.of_nat (length r) + 1)%N).
    { unfold n. rewrite length_app. simpl. lia. }
    rewrite (proj2 (N.eqb_neq _ _)) by lia. rewrite (proj2 (N.ltb_ge _ _)) by lia.
    replace (n - N.of_nat (length l + 1) + 1)%N with (N.of_nat (length (r ++ [NL])))
      by (rewrite length_app; simpl; lia).
    unfold vec_zeroed, read_exact, isize_max, usize_max.
    rewrite !(proj2 (N.ltb_ge _ _)) by (rewrite ?length_app; simpl; lia).
    rewrite Nat2N.id.
    replace (r ++ NL :: rest) with ((r ++ [NL]) ++ rest) by by rewrite <- (assoc_L (++)).
    rewrite take_app_length, drop_app_length.
    assert (Hur' : is_utf8 (r ++ [NL]) = true) by by apply (utf8_snoc r NL).
    rewrite Hur'. unfold mret, reader_ret. rewrite drop_last_char_ascii by done.
    by rewrite <- (assoc_L (++)).
Qed.

(** An optional line that is there. *)
Lemma read_opt_bytes key v rest :
  is_key key = true → text v →
  read_key_value_line_opt key (kv_bytes key v ++ rest) = Ok (Some v, rest).
Proof.
  intros Hk Hv. unfold read_key_value_line_opt.
  assert (Hl : length key + 1 ≤ length (kv_bytes key v ++ rest)).
  { unfold kv_bytes. rewrite !length_app. simpl. lia. }
  rewrite (proj2 (Nat.ltb_ge _ _)) by done.
  assert (Ht : take (length key) (kv_bytes key v ++ rest) = key).
  { unfold kv_bytes. by rewrite <- !(assoc_L (++)), take_app_length. }
  assert (Hc : (kv_bytes key v ++ rest) !! length key = Some COLON).
  { unfold kv_bytes. rewrite <- !(assoc_L (++)). by apply list_lookup_middle. }
  rewrite Ht, Hc, bool_decide_eq_true_2 by done.
  replace (is_utf8 key) with true by (apply is_key_spec in Hk as [? _]; done).
  unfold mbind, reader_bind. simpl. by rewrite read_key_value_line_bytes.
Qed.

(** An optional line that is not there: nothing is consumed. *)
Lemma read_opt_miss key input :
  (¬ ∃ rest, input = key ++ COLON :: rest) →
  read_key_value_line_opt key input = Ok (None, input).
Proof.
  intros Hno. unfold read_key_value_line_opt.
  destruct (Nat.ltb_spec (length input) (length key + 1)); [done|].
  destruct (is_utf8 _); simpl; [|done].
  rewrite bool_decide_eq_false_2; [done|]. intros [Ht Hc]. apply Hno.
  exists (drop (S (length key)) input). rewrite <- (take_drop (length key) input) at 1.
  rewrite Ht. f_equal. by apply drop_S.
Qed.

Lemma read_opt_other key key' v rest :
  is_key key = true → is_key key' = true → key ≠ key' →
  read_key_value_line_opt key (kv_bytes key' v ++ rest) = Ok (None, kv_bytes key' v ++ rest).
Proof.
  intros (_ & Hk & _)%is_key_spec (_ & Hk' & _)%is_key_spec Hne.
  apply read_opt_miss. intros [rest' Heq]. unfold kv_bytes in Heq.
  rewrite <- (assoc_L (++)) in Heq. cbn [app] in Heq.
  assert (Hs : split_once COLON (key ++ COLON :: rest') = Some (key, rest'))
    by by apply split_once_app.
  rewrite <- Heq, split_once_app in Hs by done. naive_solver.
Qed.

Lemma read_opt_end key rest :
  is_key key = true → ends_node rest → read_key_value_line_opt key rest = Ok (None, rest).
Proof.
  intros (_ & _ & _ & Hnl)%is_key_spec Hr. apply read_opt_miss. intros [rest' ->].
  destruct key as [|b key]; destruct Hr as [Hr|[= Hr]]; set_solver.
Qed.

(** A separator is an empty line, and so is the end of the input. *)
Lemma read_empty_line_NL rest : read_empty_line (NL :: rest) = Ok ((), rest).
Proof. done. Qed.

Lemma read_empty_line_end : read_empty_line [] = Ok ((), []).
Proof. done. Qed.

(** A reader only looks ahead and consumes: what it leaves is the end of its
    input. *)
Definition consumes {A} (m : reader A) : Prop :=
  ∀ input a rest, m input = Ok (a, rest) → ∃ used, input = used ++ rest.

Lemma read_line_consumes : consumes read_line.
Proof.
  intros input a rest. unfold read_line. pose proof (take_line_concat input) as Hc.
  destruct (take_line input) as [l r]; simpl in Hc. destruct (is_utf8 l); [|done].
  intros [= <- <-]. eauto.
Qed.

Lemma bind_consumes {A C} (m : reader A) (f : A → reader C) :
  consumes m → (∀ a, consumes (f a)) → consumes (m ≫= f).
Proof.
  intros Hm Hf input c rest. unfold mbind, reader_bind.
  destruct (m input) as [[a rest1]|] eqn:H1; [|done]. intros H2.
  apply Hm in H1 as [u1 ->]. apply Hf in H2 as [u2 ->]. exists (u1 ++ u2).
  by rewrite (assoc_L (++)).
Qed.

Lemma ret_consumes {A} (a : A) : consumes (mret a).
Proof. intros input ? ? [= <- <-]. by exists []. Qed.

Lemma fail_consumes {A} e : consumes (fail (A := A) e).
Proof. by intros input ? ?. Qed.

Lemma parse_key_line_consumes line : consumes (parse_key_line line).
Proof.
  unfold parse_key_line. repeat case_match; (apply fail_consumes || apply ret_consumes).
Qed.

Lemma read_exact_consumes n : consumes (read_exact n).
Proof.
  intros input a rest. unfold read_exact. destruct (_ <? _)%N; [done|].
  intros [= <- <-]. exists (take (N.to_nat n) input). by rewrite take_drop.
Qed.

Lemma vec_zeroed_consumes n : consumes (vec_zeroed n).
Proof. intros input a rest. unfold vec_zeroed. destruct (_ <? _)%N; [done|]. intros [= _ <-]. by exists []. Qed.

Lemma read_key_value_line_consumes key : consumes (read_key_value_line key).
Proof.
  apply bind_consumes; [apply read_line_consumes|intros line].
  apply bind_consumes; [apply parse_key_line_consumes|intros [[k n] v]].
  case_decide; [apply fail_consumes|]. cbv zeta.
  do 3 (case_match; [apply ret_consumes || apply fail_consumes|]).
  apply bind_consumes; [apply vec_zeroed_consumes|intros []].
  apply bind_consumes; [apply read_exact_consumes|intros r].
  destruct (is_utf8 r); [apply ret_consumes|apply fail_consumes].
Qed.

End facts.

#[export] Hint Resolve text_nil : si.

(** ** A concrete hash, for evaluation *)

(** Hash values as texts of 64 binary digits; not cryptographic. *)
Definition sample_hash : Type := { bits : list bool | bool_decide (length bits = 64) }.

Definition sample_bits (n : N) : sample_hash :=
  let bits := (λ i, N.testbit n (N.of_nat i)) <$> seq 0 64 in
  bits ↾ bool_decide_pack (length bits = 64) (length_fmap _ _).

Definition sample_checksum (bs : list Byte.byte) : N :=
  foldl (λ acc b, (acc + 2 * acc + code b)%N) 1%N bs.

Definition sample_parse (s : list Byte.byte) : option sample_hash :=
  let bits : list bool := (λ b, bool_decide (b = x31)) <$> s in
  if forallb (λ b, bool_decide (b = x30 ∨ b = x31)) s then
    match decide (bool_decide (length bits = 64)) with
    | left H => Some (exist (λ bits, Is_true (bool_decide (length bits = 64))) bits H)
    | right _ => None
    end
  else None.

Definition sample_blake3 : Blake3 := {|
  Hash := sample_hash;
  Hash_eq_dec := _;
  hash_new := λ bs, sample_bits (sample_checksum bs);
  hash_to_string := λ h, (λ b : bool, if b then x31 else x30) <$> `h;
  hash_from_str := sample_parse;
|}.

Lemma sample_parse_print (h : sample_hash) :
  sample_parse ((λ b : bool, if b then x31 else x30) <$> `h) = Some h.
Proof.
  unfold sample_parse. replace (forallb _ _) with true.
  - assert (Hb : ((λ b, bool_decide (b = x31)) <$> ((λ b : bool, if b then x31 else x30) <$> `h))
                 = `h).
    { rewrite <- list_fmap_compose. rewrite <- (list_fmap_id (`h)) at 2.
      apply list_fmap_ext. by intros _ [] _. }
    rewrite Hb. destruct (decide _) as [H|[]]; [|by destruct h].
    f_equal. by apply (sig_eq_pi _).
  - symmetry. apply forallb_forall. intros b (x & -> & _)%list_elem_of_In%list_elem_of_fmap.
    by destruct x.
Qed.

Lemma sample_blake3_ok : Blake3Ok sample_blake3.
Proof.
  split.
  - exact sample_parse_print.
  - intros h. apply forallb_forall. intros b (x & -> & _)%list_elem_of_In%list_elem_of_fmap.
    by destruct x.
  - intros [bits H]. cbn. rewrite length_fmap. by apply bool_decide_unpack in H.
Qed.

(** ** Theorems *)

Section theorems.
Context `{B : Blake3}.

(** A written line reads back: for every key and every string, with
    newlines or without, reading returns exactly the value and leaves exactly
    what was written after it, both for required and for optional lines. *)
Theorem key_value_line_roundtrip key v rest :
  is_key key = true → text v →
  ∃ line, write_key_value_line key v = Ok line ∧
    read_key_value_line key (line ++ rest) = Ok (v, rest) ∧
    read_key_value_line_opt key (line ++ rest) = Ok (Some v, rest).
Proof.
  intros Hk Hv. exists (kv_bytes key v). split; [done|].
  split; [by apply read_key_value_line_bytes|by apply read_opt_bytes].
Qed.

(** An optional line that was not written is recognised as absent without
    consuming anything, before a line with another key, before a blank line
    and at the end of the input. *)
Theorem optional_line_absent key rest :
  is_key key = true →
  (ends_node rest ∨ ∃ key' v line rest', is_key key' = true ∧ key ≠ key' ∧
     write_key_value_line key' v = Ok line ∧ rest = line ++ rest') →
  write_key_value_line_opt key None = Ok [] ∧
  read_key_value_line_opt key rest = Ok (None, rest).
Proof.
  intros Hk [Hr|(key' & v & line & rest' & Hk' & Hne & [= <-] & ->)]; split; try done.
  - by apply read_opt_end.
  - by apply (read_opt_other key key').
Qed.

(** A line with the wrong key is an error that names both keys. *)
Theorem wrong_key_is_reported key key' v rest :
  is_key key' = true → key ≠ key' → utf8 v → NL ∉ v → (N.of_nat (length v) ≤ isize_max)%N →
  ∃ line, write_key_value_line key' v = Ok line ∧
    read_key_value_line key (line ++ rest) = Err (Fault (ParseLineExpectedKey key key')).
Proof.
  intros Hk Hne Hu Hnl Hl. exists (kv_bytes key' v). split; [done|].
  rewrite kv_bytes_header. unfold read_key_value_line, mbind, reader_bind.
  replace (kv_header key' (N.of_nat (length v)) ++ EQUALS :: v ++ NL :: rest) with
    ((kv_header key' (N.of_nat (length v)) ++ EQUALS :: v) ++ NL :: rest)
    by by rewrite <- (assoc_L (++)).
  rewrite read_line_text by (auto using header_line_no_NL, header_line_utf8).
  rewrite <- (assoc_L (++)). cbn [app].
  rewrite parse_key_line_header by (unfold usize_max, isize_max in *; (done || lia)).
  by rewrite decide_True by naive_solver.
Qed.

(** A line can make the reader panic: a declared length near the largest
    machine word passes the checked arithmetic and the allocation of the
    missing bytes panics. *)
Theorem declared_length_panics_reader :
  read_key_value_line (str "name") (str "name:18446744073709551614=x") = Err Panic.
Proof. vm_compute. reflexivity. Qed.

End theorems.

(** ** Witnesses *)

Lemma key_value_line_roundtrip_witness :
  let B := sample_blake3 in
  ∃ line, write_key_value_line (str "code") (str "a" ++ [NL] ++ str "b=c:d") = Ok line ∧
    read_key_value_line (str "code") (line ++ [NL]) =
      Ok (str "a" ++ [NL] ++ str "b=c:d", [NL]) ∧
    read_key_value_line_opt (str "code") (line ++ [NL]) =
      Ok (Some (str "a" ++ [NL] ++ str "b=c:d"), [NL]).
Proof.
  intros B. apply key_value_line_roundtrip; [done|]. apply text_short; [done|simpl; lia].
Defined.

Lemma optional_line_absent_witness :
  let B := sample_blake3 in
  write_key_value_line_opt (str "link") None = Ok [] ∧
  read_key_value_line_opt (str "link") [NL] = Ok (None, [NL]).
Proof. intros B. apply optional_line_absent; [done|]. by left; right. Defined.

Lemma wrong_key_is_reported_witness :
  let B := sample_blake3 in
  ∃ line, write_key_value_line (str "kind") (str "x") = Ok line ∧
    read_key_value_line (str "name") (line ++ []) =
      Err (Fault (ParseLineExpectedKey (str "name") (str "kind"))).
Proof.
  intros B. apply wrong_key_is_reported; [done|done|done| |].
  - vm_compute. intros H. apply list_elem_of_In in H. by destruct H.
  - by vm_compute.
Defined.
