(* ===== verification/NodeEntries.v ===== *)
(** * Serialized nodes with the entries of their children

    Model of [NodeKind], [NodeEntry], [NodeWithEntriesRef], [NodeWithEntries]
    and [VerifyHash] of [src/lib/object-tree/src/graph.rs]: a node is written
    as a header, its own lines, and one line [kind hash name] for every child,
    sorted by name. What a node type promises to this layer is the class
    [NodeFormat]. *)

From S2P Require Import Prelude Bytes KeyValue.
From Stdlib Require Import NArith Init.Byte Sorting.Sorted.
From stdpp Require Import base tactics list sets strings.

(** ** Order of names *)

(** Rust's order of [String]: lexicographic on the bytes. *)
Fixpoint bytes_le (a b : list Byte.byte) : bool :=
  match a, b with
  | [], _ => true
  | _ :: _, [] => false
  | x :: a, y :: b =>
      (code x <? code y)%N || ((code x =? code y)%N && bytes_le a b)
  end.

Inductive NodeKind : Set := Leaf | Tree.

#[export] Instance NodeKind_eq_dec : EqDecision NodeKind.
Proof. solve_decision. Defined.

(** The strum names, in camel case. *)
Definition NodeKind_as_ref (k : NodeKind) : list Byte.byte :=
  match k with Leaf => str "leaf" | Tree => str "tree" end.

Definition NodeKind_from_str (s : list Byte.byte) : option NodeKind :=
  if decide (s = str "leaf") then Some Leaf
  else if decide (s = str "tree") then Some Tree
  else None.

Section entries.
Context `{B : Blake3}.

(** ** Entries *)

Record NodeEntry := {
  entry_kind : NodeKind;
  entry_hash : Hash;
  entry_name : list Byte.byte;
}.

Definition NodeEntry_write_bytes (e : NodeEntry) : writer :=
  Ok (NodeKind_as_ref (entry_kind e) ++ [SPACE] ++ hash_to_string (entry_hash e) ++
      [SPACE] ++ entry_name e ++ [NL]).

(** [sort_by_key(|k| &k.name)], a stable sort. *)
Fixpoint insert_entry (e : NodeEntry) (es : list NodeEntry) : list NodeEntry :=
  match es with
  | [] => [e]
  | e' :: es' => if bytes_le (entry_name e) (entry_name e') then e :: es
                 else e' :: insert_entry e es'
  end.

Definition sort_entries (es : list NodeEntry) : list NodeEntry := foldr insert_entry [] es.

Fixpoint write_all (ws : list writer) : writer :=
  match ws with
  | [] => Ok []
  | w :: ws => w +++ write_all ws
  end.

(** The lines [BufRead::lines] yields, with their newlines. *)
Fixpoint split_inclusive (bs : list Byte.byte) : list (list Byte.byte) :=
  match bs with
  | [] => []
  | b :: bs =>
      if decide (b = NL) then [NL] :: split_inclusive bs
      else match split_inclusive bs with
           | [] => [[b]]
           | l :: ls => (b :: l) :: ls
           end
  end.

(** [lines] removes a newline, and a carriage return in front of it. *)
Definition strip_newline (line : list Byte.byte) : list Byte.byte :=
  match reverse line with
  | b :: r =>
      if decide (b = NL) then
        match r with
        | b' :: r' => if decide (b' = CR) then reverse r' else reverse r
        | [] => []
        end
      else line
  | [] => []
  end.

Definition parse_entry (line : list Byte.byte) : result (fault GraphError) NodeEntry :=
  let parts := reverse (splitn 3 SPACE line) in
  match parts with
  | [] => Err (Fault (ParseCustom (str "missing name field in entry line")))
  | name :: parts =>
      match parts with
      | [] => Err (Fault (ParseCustom (str "missing hash field in entry line")))
      | hash_str :: parts =>
          match hash_from_str hash_str with
          | None => Err (Fault (Parse HashParseError))
          | Some hash =>
              match parts with
              | [] => Err (Fault (ParseCustom (str "missing kind field in entry line")))
              | kind_str :: parts =>
                  match NodeKind_from_str kind_str with
                  | None => Err (Fault (Parse VariantNotFound))
                  | Some kind =>
                      match parts with
                      | [] => Ok {| entry_kind := kind; entry_hash := hash; entry_name := name |}
                      | _ => Err (Fault (ParseCustom
                               (str "entry line has more than 3 fields: " ++ line)))
                      end
                  end
              end
          end
      end
  end.

Fixpoint read_entry_lines (lines : list (list Byte.byte)) :
    result (fault GraphError) (list NodeEntry) :=
  match lines with
  | [] => Ok []
  | line :: lines =>
      if is_utf8 line then
        e ← parse_entry (strip_newline line);
        es ← read_entry_lines lines;
        Ok (e :: es)
      else Err (Fault (IoRead InvalidData))
  end.

(** Reads to the end of the input. *)
Definition read_node_entry_lines : reader (list NodeEntry) := λ input,
  es ← read_entry_lines (split_inclusive input); Ok (es, []).

End entries.

(** ** The interface of node types *)

(** [WriteBytes], [ReadBytes] and [NameStr] of the inner type. *)
Class NodeFormat `{B : Blake3} (T : Type) := {
  inner_write_bytes : T → writer;
  inner_read_bytes : reader (option T);
  inner_name : T → list Byte.byte;
}.

(** What the layer needs of them: whatever is written for a good value reads
    back as the value it stands for, in front of the end of a node. [canon]
    is that value: a node type may have values its format cannot tell apart. *)
Class NodeFormatOk `{B : Blake3} (T : Type) `{F : !NodeFormat T}
    (good : T → Prop) (canon : T → T) : Prop := {
  inner_roundtrip t rest :
    good t → ends_node rest →
    ∃ bs, inner_write_bytes t = Ok bs ∧
      inner_read_bytes (bs ++ rest) = Ok (Some (canon t), rest);
  inner_canon_bytes t : good t → inner_write_bytes (canon t) = inner_write_bytes t;
  inner_canon_name t : good t → inner_name (canon t) = inner_name t;
}.

Section nodes.
Context `{B : Blake3} {T : Type} `{F : !NodeFormat T}.

(** [NodeWithEntriesRef] and [NodeWithEntries]. *)
Record NodeWithEntries := {
  node_kind : NodeKind;
  node_inner : T;
  node_entries : list NodeEntry;
}.

Definition KEY_VERSION_STR : list Byte.byte := str "version".
Definition KEY_NODE_KIND_STR : list Byte.byte := str "node_kind".
Definition VAL_VERSION_STR : list Byte.byte := str "1".

Definition write_header_bytes (kind : NodeKind) : writer :=
  write_key_value_line KEY_VERSION_STR VAL_VERSION_STR +++
  write_key_value_line KEY_NODE_KIND_STR (NodeKind_as_ref kind).

Definition NodeWithEntries_write_bytes (n : NodeWithEntries) : writer :=
  write_header_bytes (node_kind n) +++
  write_separator_bytes +++
  inner_write_bytes (node_inner n) +++
  match node_entries n with
  | [] => Ok []
  | _ => write_separator_bytes +++
         write_all (NodeEntry_write_bytes <$> sort_entries (node_entries n))
  end.

Definition NodeWithEntries_read_bytes : reader (option NodeWithEntries) :=
  version_str ← read_key_value_line KEY_VERSION_STR;
  if decide (version_str ≠ VAL_VERSION_STR) then fail (InvalidNodeVersion version_str) else
  kind_str ← read_key_value_line KEY_NODE_KIND_STR;
  kind ← parsed VariantNotFound (NodeKind_from_str kind_str);
  read_empty_line;;
  node ← inner_read_bytes;
  match node with
  | Some node =>
      entries ←
        match kind with
        | Leaf => mret []
        | Tree => read_empty_line;; read_node_entry_lines
        end;
      mret (Some {| node_kind := kind; node_inner := node; node_entries := entries |})
  | None => mret None
  end.

(** [VerifyHash::verify_hash]: the stored hash against the bytes. *)
Definition verify_hash (hash : Hash) (n : NodeWithEntries) : result (fault GraphError) () :=
  input ← NodeWithEntries_write_bytes n;
  let computed := hash_new input in
  if decide (hash = computed) then Ok () else Err (Fault (Verify hash computed)).

End nodes.
Arguments NodeWithEntries {B} T.

(** ** Facts about the order of names *)

Lemma bytes_le_refl a : bytes_le a a = true.
Proof. induction a; simpl; [done|]. rewrite N.eqb_refl, IHa. apply orb_true_r. Qed.

Lemma bytes_le_total a b : bytes_le a b = true ∨ bytes_le b a = true.
Proof.
  revert b. induction a as [|x a IH]; intros [|y b]; simpl; auto.
  destruct (N.ltb_spec (code x) (code y)); [by left|].
  destruct (N.ltb_spec (code y) (code x)); [by right|].
  rewrite (proj2 (N.eqb_eq (code x) (code y))) by lia.
  rewrite (proj2 (N.eqb_eq (code y) (code x))) by lia. apply IH.
Qed.

Lemma code_inj a b : code a = code b → a = b.
Proof.
  unfold code. intros H. pose proof (Byte.of_to_N a) as Ha. pose proof (Byte.of_to_N b) as Hb.
  congruence.
Qed.

Lemma bytes_le_antisym a b : bytes_le a b = true → bytes_le b a = true → a = b.
Proof.
  revert b. induction a as [|x a IH]; intros [|y b]; simpl; try done.
  rewrite !orb_true_iff, !andb_true_iff, !N.ltb_lt, !N.eqb_eq.
  intros [?|[Hxy ?]] [?|[Hyx ?]]; try lia. f_equal; [by apply code_inj|auto].
Qed.

Lemma bytes_le_trans a b c : bytes_le a b = true → bytes_le b c = true → bytes_le a c = true.
Proof.
  revert b c. induction a as [|x a IH]; intros [|y b] [|z c]; simpl; try done.
  rewrite !orb_true_iff, !andb_true_iff, !N.ltb_lt, !N.eqb_eq.
  intros [?|[Hxy ?]] [?|[Hyz ?]]; [left; lia|left; lia|left; lia|right].
  split; [lia|eauto].
Qed.

Lemma NodeKind_roundtrip k : NodeKind_from_str (NodeKind_as_ref k) = Some k.
Proof. by destruct k. Qed.

Section entry_facts.
Context `{B : Blake3}.

(** ** Facts about sorting *)

Definition entry_le (e1 e2 : NodeEntry) : Prop :=
  bytes_le (entry_name e1) (entry_name e2) = true.

Lemma insert_entry_perm e es : insert_entry e es ≡ₚ e :: es.
Proof.
  induction es as [|e' es IH]; simpl; [done|]. destruct (bytes_le _ _); [done|].
  rewrite IH. constructor.
Qed.

Lemma sort_entries_perm es : sort_entries es ≡ₚ es.
Proof. induction es as [|e es IH]; simpl; [done|]. by rewrite insert_entry_perm, IH. Qed.

Lemma insert_entry_sorted e es :
  StronglySorted entry_le es → StronglySorted entry_le (insert_entry e es).
Proof.
  induction 1 as [|e' es Hs IH Hall]; simpl; [by repeat constructor|].
  destruct (bytes_le (entry_name e) (entry_name e')) eqn:Hle.
  - constructor; [by constructor|]. constructor; [done|].
    eapply Forall_impl; [exact Hall|]. intros x Hx. by eapply bytes_le_trans.
  - constructor; [done|]. rewrite insert_entry_perm. constructor; [|done].
    destruct (bytes_le_total (entry_name e) (entry_name e')); [congruence|done].
Qed.

Lemma sort_entries_sorted es : StronglySorted entry_le (sort_entries es).
Proof. induction es; simpl; [constructor|by apply insert_entry_sorted]. Qed.

Lemma sort_entries_id es : StronglySorted entry_le es → sort_entries es = es.
Proof.
  induction 1 as [|e es Hs IH Hall]; simpl; [done|]. rewrite IH.
  destruct es as [|e' es]; simpl; [done|]. inversion Hall as [|? ? Hle]; subst.
  by rewrite Hle.
Qed.

(** With distinct names, sorting forgets the order. *)
Lemma sorted_unique es1 es2 :
  StronglySorted entry_le es1 → StronglySorted entry_le es2 →
  NoDup (entry_name <$> es1) → es1 ≡ₚ es2 → es1 = es2.
Proof.
  intros Hs1. revert es2. induction Hs1 as [|e1 es1 Hs1 IH Hall1]; intros es2 Hs2 Hnd Hp.
  { symmetry. by apply Permutation_nil. }
  destruct es2 as [|e2 es2]; [by apply Permutation_nil_r in Hp|].
  inversion Hs2 as [|? ? Hs2' Hall2]; subst. rewrite fmap_cons, NoDup_cons in Hnd.
  destruct Hnd as [Hni Hnd].
  assert (e1 = e2) as <-.
  { assert (H1 : e1 ∈ e2 :: es2) by (rewrite <- Hp; constructor).
    assert (H2 : e2 ∈ e1 :: es1) by (rewrite Hp; constructor).
    apply elem_of_cons in H1 as [->|H1]; [done|].
    apply elem_of_cons in H2 as [->|H2]; [done|]. exfalso. apply Hni.
    rewrite Forall_forall in Hall1, Hall2.
    rewrite (bytes_le_antisym (entry_name e1) (entry_name e2) (Hall1 e2 H2) (Hall2 e1 H1)).
    by apply list_elem_of_fmap_2. }
  f_equal. apply IH; [done|done|]. by eapply Permutation_cons_inv.
Qed.

Lemma sort_entries_order_independent es1 es2 :
  NoDup (entry_name <$> es1) → es1 ≡ₚ es2 → sort_entries es1 = sort_entries es2.
Proof.
  intros Hnd Hp. apply sorted_unique; [apply sort_entries_sorted..| |].
  - by rewrite sort_entries_perm.
  - by rewrite !sort_entries_perm.
Qed.

(** ** Facts about entry lines *)

(** A name that survives a line: no newline, no carriage return at its end. *)
Definition entry_good (e : NodeEntry) : Prop :=
  utf8 (entry_name e) ∧ (NL ∉ entry_name e) ∧ last (entry_name e) ≠ Some CR.

Lemma split_inclusive_line l rest :
  NL ∉ l → split_inclusive (l ++ NL :: rest) = (l ++ [NL]) :: split_inclusive rest.
Proof.
  induction l as [|b l IH]; intros Hl; simpl; [done|].
  rewrite decide_False by set_solver. by rewrite IH by set_solver.
Qed.

Lemma strip_newline_line l : last l ≠ Some CR → strip_newline (l ++ [NL]) = l.
Proof.
  intros Hcr. unfold strip_newline. rewrite reverse_app. simpl.
  destruct (reverse l) as [|b r] eqn:Hr.
  - apply (f_equal reverse) in Hr. by rewrite reverse_involutive in Hr.
  - assert (Hl : l = reverse r ++ [b]) by (rewrite <- (reverse_involutive l), Hr; apply reverse_cons).
    rewrite Hl in Hcr |- *. rewrite last_snoc in Hcr. case_decide; [congruence|].
    by rewrite reverse_cons.
Qed.

Context `{BO : !Blake3Ok B}.

Lemma hash_ascii h b : b ∈ hash_to_string h → (48 ≤ code b < 128)%N.
Proof.
  pose proof (hash_hex h) as Hh. rewrite forallb_forall in Hh.
  intros Hb%list_elem_of_In%Hh. apply orb_true_iff in Hb.
  rewrite !in_range_spec in Hb. lia.
Qed.

Lemma hash_not_in h b : (code b < 48)%N → b ∉ hash_to_string h.
Proof. intros Hb Hin%hash_ascii. lia. Qed.

Lemma hash_utf8 h : utf8 (hash_to_string h).
Proof.
  apply forallb_ascii_utf8, forallb_forall. intros b Hb%list_elem_of_In%hash_ascii.
  unfold ascii_byte. apply N.ltb_lt. lia.
Qed.

(** The text of an entry line, without its newline. *)
Definition entry_text (e : NodeEntry) : list Byte.byte :=
  NodeKind_as_ref (entry_kind e) ++ SPACE :: hash_to_string (entry_hash e) ++
  SPACE :: entry_name e.

Lemma entry_write_text e : NodeEntry_write_bytes e = Ok (entry_text e ++ [NL]).
Proof. unfold NodeEntry_write_bytes, entry_text. simpl. by rewrite <- !(assoc_L (++)); simpl; rewrite <- (assoc_L (++)). Qed.

Lemma kind_no_space k : SPACE ∉ NodeKind_as_ref k.
Proof. by destruct k; apply (bool_decide_unpack _). Qed.

Lemma entry_text_line e :
  entry_good e → (NL ∉ entry_text e) ∧ utf8 (entry_text e) ∧ last (entry_text e) ≠ Some CR.
Proof.
  intros (Hu & Hnl & Hcr). unfold entry_text. split_and!.
  - rewrite !not_elem_of_app, !not_elem_of_cons, !not_elem_of_app, !not_elem_of_cons.
    split_and!; [|done|by apply hash_not_in|done|done].
    by destruct (entry_kind e); apply (bool_decide_unpack _).
  - apply utf8_split; [done|]. split; [by destruct (entry_kind e)|].
    apply utf8_split; [done|]. split; [apply hash_utf8|done].
  - rewrite !last_app_cons, !last_cons, last_app_cons, last_cons.
    destruct (last (entry_name e)); [congruence|by vm_compute].
Qed.

Lemma parse_entry_text e : parse_entry (entry_text e) = Ok e.
Proof.
  unfold parse_entry, entry_text, splitn. rewrite split_once_app by apply kind_no_space.
  rewrite split_once_app by by apply hash_not_in. simpl.
  rewrite hash_roundtrip, NodeKind_roundtrip. by destruct e.
Qed.

Definition entries_bytes (es : list NodeEntry) : list Byte.byte :=
  concat ((λ e, entry_text e ++ [NL]) <$> es).

Lemma write_entries es : write_all (NodeEntry_write_bytes <$> es) = Ok (entries_bytes es).
Proof.
  induction es as [|e es IH]; [done|]. cbn [fmap list_fmap write_all].
  change (map NodeEntry_write_bytes es) with (NodeEntry_write_bytes <$> es) in *.
  rewrite IH, entry_write_text. done.
Qed.

Lemma read_entries es :
  Forall entry_good es → read_entry_lines (split_inclusive (entries_bytes es)) = Ok es.
Proof.
  induction 1 as [|e es He Hes IH]; [done|].
  destruct (entry_text_line e He) as (Hnl & Hu & Hcr).
  change (entries_bytes (e :: es)) with ((entry_text e ++ [NL]) ++ entries_bytes es).
  rewrite <- (assoc_L (++)). cbn [app].
  rewrite split_inclusive_line by done. cbn [read_entry_lines].
  assert (Hu' : is_utf8 (entry_text e ++ [NL]) = true) by by apply (utf8_snoc _ NL).
  rewrite Hu', strip_newline_line, parse_entry_text by done. cbn.
  by rewrite IH.
Qed.

End entry_facts.

(** ** Theorems *)

Section theorems.
Context `{BO : Blake3Ok} {T : Type} `{F : !NodeFormat T}.
Context (good : T → Prop) (canon : T → T) `{FO : !NodeFormatOk T good canon}.

(** A node that can be stored: a good inner value, entries with usable names,
    none at all for a leaf. *)
Definition node_good (n : NodeWithEntries T) : Prop :=
  good (node_inner n) ∧ Forall entry_good (node_entries n) ∧
  (node_kind n = Leaf → node_entries n = []).

(** The node that is read back. *)
Definition node_canon (n : NodeWithEntries T) : NodeWithEntries T :=
  {| node_kind := node_kind n; node_inner := canon (node_inner n);
     node_entries := sort_entries (node_entries n) |}.

(** The entries of a node, with their separator. *)
Definition entries_part (es : list NodeEntry) : list Byte.byte :=
  match es with [] => [] | _ => NL :: entries_bytes (sort_entries es) end.

Lemma node_write_parts n bs :
  inner_write_bytes (node_inner n) = Ok bs →
  NodeWithEntries_write_bytes n =
  Ok (kv_bytes KEY_VERSION_STR VAL_VERSION_STR ++
      kv_bytes KEY_NODE_KIND_STR (NodeKind_as_ref (node_kind n)) ++
      NL :: bs ++ entries_part (node_entries n)).
Proof.
  intros Hbs. unfold NodeWithEntries_write_bytes, write_header_bytes. rewrite Hbs.
  unfold entries_part. destruct (node_entries n) as [|e es] eqn:He.
  - cbn -[kv_bytes]. by rewrite <- !(assoc_L (++)).
  - rewrite write_entries. cbn -[kv_bytes sort_entries entries_bytes].
    by rewrite <- !(assoc_L (++)).
Qed.

Lemma entries_part_ends es : ends_node (entries_part es).
Proof. destruct es; [by left|by right]. Qed.

Lemma entries_part_sort es : entries_part (sort_entries es) = entries_part es.
Proof using Type.
  unfold entries_part. rewrite (sort_entries_id (sort_entries es)) by apply sort_entries_sorted.
  pose proof (sort_entries_perm es) as Hp. destruct es as [|e es]; [done|].
  destruct (sort_entries (e :: es)); [|done]. by apply Permutation_nil_l in Hp.
Qed.

Lemma read_entries_part es :
  Forall entry_good es →
  (read_empty_line ;; read_node_entry_lines) (entries_part es) = Ok (sort_entries es, []).
Proof using BO.
  intros Hes. destruct es as [|e es]; [done|].
  unfold entries_part, mbind, reader_bind. rewrite read_empty_line_NL.
  unfold read_node_entry_lines. rewrite read_entries; [done|].
  by rewrite sort_entries_perm.
Qed.

Lemma read_written_node n :
  node_good n →
  ∃ bs, NodeWithEntries_write_bytes n = Ok bs ∧
    NodeWithEntries_read_bytes bs = Ok (Some (node_canon n), []).
Proof using BO FO.
  intros (Hg & He & Hleaf).
  destruct (inner_roundtrip (node_inner n) (entries_part (node_entries n)) Hg)
    as (bs & Hw & Hr); [apply entries_part_ends|].
  eexists. split; [by apply node_write_parts|].
  unfold NodeWithEntries_read_bytes, mbind, reader_bind.
  rewrite read_key_value_line_bytes by (done || by apply text_short; [|simpl; lia]).
  rewrite decide_False by naive_solver.
  rewrite read_key_value_line_bytes
    by (done || (destruct (node_kind n); by apply text_short; [|simpl; lia])).
  rewrite NodeKind_roundtrip. cbn [parsed]. unfold mret, reader_ret.
  rewrite read_empty_line_NL, Hr. unfold node_canon.
  destruct (node_kind n).
  - rewrite Hleaf by done. done.
  - pose proof (read_entries_part (node_entries n) He) as Hp.
    unfold mbind, reader_bind in Hp. by rewrite Hp.
Qed.

(** What is read writes the same bytes again. *)
Lemma canon_writes n bs :
  node_good n → NodeWithEntries_write_bytes n = Ok bs →
  NodeWithEntries_write_bytes (node_canon n) = Ok bs.
Proof using FO.
  intros (Hg & _) Hw. destruct (inner_roundtrip (node_inner n) [] Hg) as (ibs & Hi & _);
    [by left|].
  rewrite (node_write_parts n ibs) in Hw by done. rewrite (node_write_parts _ ibs).
  - rewrite <- Hw. unfold node_canon. cbn [node_entries node_kind]. by rewrite entries_part_sort.
  - simpl. by rewrite inner_canon_bytes.
Qed.

Lemma verify_hash_own n bs :
  NodeWithEntries_write_bytes n = Ok bs → verify_hash (hash_new bs) n = Ok ().
Proof using Type. intros Hw. unfold verify_hash. rewrite Hw. cbn. by rewrite decide_True. Qed.

(** A stored node reads back: for every node with entries that can be
    stored, the bytes written parse into the same kind, the same inner value
    (up to what its format cannot tell apart) and the same entries in name
    order, with nothing left over; the value that is read verifies against
    the hash of the bytes it was read from. *)
Theorem node_with_entries_roundtrip n :
  node_good n →
  ∃ bs, NodeWithEntries_write_bytes n = Ok bs ∧
    NodeWithEntries_read_bytes bs = Ok (Some (node_canon n), []) ∧
    verify_hash (hash_new bs) (node_canon n) = Ok ().
Proof using BO FO.
  intros Hg. destruct (read_written_node n Hg) as (bs & Hw & Hr).
  exists bs. split_and!; [done|done|]. by apply verify_hash_own, canon_writes.
Qed.

Lemma write_same_entries k (i1 i2 : T) es1 es2 :
  inner_write_bytes i1 = inner_write_bytes i2 → es1 ≡ₚ es2 → NoDup (entry_name <$> es1) →
  NodeWithEntries_write_bytes {| node_kind := k; node_inner := i1; node_entries := es1 |} =
  NodeWithEntries_write_bytes {| node_kind := k; node_inner := i2; node_entries := es2 |}.
Proof using Type.
  intros Hi Hp Hnd. unfold NodeWithEntries_write_bytes. simpl.
  rewrite Hi, (sort_entries_order_independent es1 es2) by done.
  destruct es1, es2; try done; [by apply Permutation_nil_l in Hp|by apply Permutation_nil_r in Hp].
Qed.

(** The bytes of a node, and so its hash, do not depend on the order in
    which its children are listed, as long as their names differ. *)
Theorem node_bytes_order_independent kind inner es1 es2 :
  NoDup (entry_name <$> es1) → es1 ≡ₚ es2 →
  NodeWithEntries_write_bytes {| node_kind := kind; node_inner := inner; node_entries := es1 |} =
  NodeWithEntries_write_bytes {| node_kind := kind; node_inner := inner; node_entries := es2 |}.
Proof using Type. intros Hnd Hp. by apply write_same_entries. Qed.

End theorems.

(** ** A small node type, for evaluation *)

Section sample.
#[local] Existing Instance sample_blake3.
#[local] Existing Instance sample_blake3_ok.

(** Nodes that carry one string. *)
#[local] Instance sample_format : NodeFormat (list Byte.byte) := {|
  inner_write_bytes := write_key_value_line (str "value");
  inner_read_bytes := value ← read_key_value_line (str "value"); mret (Some value);
  inner_name := id;
|}.

#[local] Instance sample_format_ok : NodeFormatOk (list Byte.byte) text id.
Proof.
  split; [|done..]. intros t rest Ht _. exists (kv_bytes (str "value") t). split; [done|].
  cbn -[kv_bytes read_key_value_line]. unfold mbind, reader_bind.
  by rewrite read_key_value_line_bytes.
Qed.

Definition sample_node (name : list Byte.byte) : NodeWithEntries (list Byte.byte) :=
  {| node_kind := Tree; node_inner := str "x";
     node_entries := [{| entry_kind := Leaf; entry_hash := sample_bits 1; entry_name := name |};
                      {| entry_kind := Tree; entry_hash := sample_bits 2; entry_name := str "a" |}] |}.

Lemma node_with_entries_roundtrip_witness :
  ∃ bs, NodeWithEntries_write_bytes (sample_node (str "b c")) = Ok bs ∧
    NodeWithEntries_read_bytes bs = Ok (Some (node_canon id (sample_node (str "b c"))), []) ∧
    verify_hash (hash_new bs) (node_canon id (sample_node (str "b c"))) = Ok ().
Proof.
  apply (node_with_entries_roundtrip text id). split_and!; [| |done].
  - apply text_short; [done|simpl; lia].
  - repeat constructor; by apply (bool_decide_unpack _).
Defined.

Lemma node_bytes_order_independent_witness :
  NodeWithEntries_write_bytes {| node_kind := Tree; node_inner := str "x";
    node_entries := node_entries (sample_node (str "b")) |} =
  NodeWithEntries_write_bytes {| node_kind := Tree; node_inner := str "x";
    node_entries := reverse (node_entries (sample_node (str "b"))) |}.
Proof.
  apply node_bytes_order_independent; [by apply (bool_decide_unpack _)|].
  by rewrite reverse_Permutation.
Defined.

(** A child whose name contains a newline is written without an error, and
    the node that is written can then not be read. *)
Theorem newline_in_name_breaks_node :
  ∃ bs, NodeWithEntries_write_bytes (sample_node (str "b" ++ [NL] ++ str "c")) = Ok bs ∧
    NodeWithEntries_read_bytes (T := list Byte.byte) bs =
      Err (Fault (ParseCustom (str "missing hash field in entry line"))).
Proof.
  exists (ok_default [] (NodeWithEntries_write_bytes (sample_node (str "b" ++ [NL] ++ str "c")))).
  split; evaluate.
Qed.

End sample.
