(* ===== verification/ObjectGraph.v ===== *)
(** * Hashed object trees

    Model of the tree types of [src/lib/object-tree/src/graph.rs]: a tree of
    nodes with children is copied into a graph ([HashingTree]), every node is
    hashed over its bytes, which contain the hashes of its children, and the
    hashed nodes are copied into the final graph ([ObjectTree]). The graph
    crate is the class [Petgraph]. *)

From S2P Require Import Prelude Bytes KeyValue NodeEntries.
From Stdlib Require Import NArith Init.Byte.
From stdpp Require Import base tactics list sets gmap relations strings.

(** ** The graph crate *)

(** [petgraph::Graph<N, ()>], directed, with [u32] indices. [add_node] and
    [add_edge] are [None] when they panic; [neighbors_outgoing g i] is
    [neighbors_directed(i, Outgoing)] and [dfs_post_order g i] what
    [DfsPostOrder::new(g, i)] visits. *)
Class Petgraph := {
  Graph : Type → Type;
  graph_new {N} : Graph N;
  node_count {N} : Graph N → nat;
  edge_count {N} : Graph N → nat;
  add_node {N} : Graph N → N → option (nat * Graph N);
  add_edge {N} : Graph N → nat → nat → option (Graph N);
  node_weight {N} : Graph N → nat → option N;
  neighbors_outgoing {N} : Graph N → nat → list nat;
  dfs_post_order {N} : Graph N → nat → list nat;
}.

(** [i] has an edge to [j]. *)
Definition edge `{Petgraph} {N} (g : Graph N) (i j : nat) : Prop :=
  j ∈ neighbors_outgoing g i.

(** The number of indices below [NodeIndex::end()] and [EdgeIndex::end()]. *)
Definition index_end : N := 4294967295.

(** Its documented behaviour: a new node gets a new index and has no
    neighbors; the neighbors of a node are listed with the most recently added
    edge first; both additions panic only when the index type is exhausted, or
    on a missing node; on an acyclic graph a depth-first post-order visits what
    is reachable from the start, once, and every node after its neighbors. *)
Class PetgraphOk (P : Petgraph) : Prop := {
  new_node_weight {N} i : node_weight (graph_new (N := N)) i = None;
  new_node_count {N} : node_count (graph_new (N := N)) = 0;
  new_edge_count {N} : edge_count (graph_new (N := N)) = 0;
  add_node_some {N} (g : Graph N) w :
    (N.of_nat (node_count g) < index_end)%N → is_Some (add_node g w);
  add_node_spec {N} (g g' : Graph N) w i :
    add_node g w = Some (i, g') →
    node_weight g i = None ∧ node_weight g' i = Some w ∧ neighbors_outgoing g' i = [] ∧
    (∀ j, j ≠ i → node_weight g' j = node_weight g j ∧
                  neighbors_outgoing g' j = neighbors_outgoing g j) ∧
    node_count g' = S (node_count g) ∧ edge_count g' = edge_count g;
  add_edge_some {N} (g : Graph N) a b :
    is_Some (node_weight g a) → is_Some (node_weight g b) →
    (N.of_nat (edge_count g) < index_end)%N → is_Some (add_edge g a b);
  add_edge_spec {N} (g g' : Graph N) a b :
    add_edge g a b = Some g' →
    (∀ j, node_weight g' j = node_weight g j) ∧
    neighbors_outgoing g' a = b :: neighbors_outgoing g a ∧
    (∀ j, j ≠ a → neighbors_outgoing g' j = neighbors_outgoing g j) ∧
    node_count g' = node_count g ∧ edge_count g' = S (edge_count g);
  dfs_post_order_visits {N} (g : Graph N) root :
    is_Some (node_weight g root) →
    (∀ k, rtc (edge g) root k → ¬ tc (edge g) k k) →
    NoDup (dfs_post_order g root) ∧
    ∀ i, i ∈ dfs_post_order g root ↔ rtc (edge g) root i;
  dfs_post_order_post {N} (g : Graph N) root l1 i l2 j :
    is_Some (node_weight g root) →
    (∀ k, rtc (edge g) root k → ¬ tc (edge g) k k) →
    dfs_post_order g root = l1 ++ i :: l2 → edge g i j → j ∈ l1;
}.

(** ** Building a graph from a stack *)

Section build.
Context `{P : Petgraph} {X N E : Type}.

(** The loop shared by [HashingTree::create_from_root],
    [HashingTree::create_hashed_tree] and [ObjectTree::read_from_tar]: pop an
    item and the index of its parent, add its node, attach it to its parent or
    make it the root, and push its children ([push] lists them in the order
    they are pushed). *)
Variables (weight : X → N) (push : X → result (fault E) (list X)) (multiple_root : E).

(** One turn of the loop: the new node's index and the pushed children. *)
Definition build_step (x : X) (parent_idx : option nat) (g : Graph N) (root_idx : option nat) :
    result (fault E) (nat * list X * Graph N * option nat) :=
  match add_node g (weight x) with
  | None => Err Panic
  | Some (node_idx, g) =>
      '(g, root_idx) ←
        match parent_idx with
        | Some parent_idx =>
            match add_edge g parent_idx node_idx with
            | Some g => Ok (g, root_idx)
            | None => Err Panic
            end
        | None =>
            match root_idx with
            | None => Ok (g, Some node_idx)
            | Some _ => Err (Fault multiple_root)
            end
        end;
      children ← push x;
      Ok (node_idx, children, g, root_idx)
  end.

(** [None] when the fuel is used up before the stack is empty. *)
Fixpoint build_loop (fuel : nat) (stack : list (X * option nat)) (g : Graph N)
    (root_idx : option nat) : option (result (fault E) (Graph N * option nat)) :=
  match stack with
  | [] => Some (Ok (g, root_idx))
  | (x, parent_idx) :: stack =>
      match fuel with
      | O => None
      | S fuel =>
          match build_step x parent_idx g root_idx with
          | Err e => Some (Err e)
          | Ok (node_idx, children, g, root_idx) =>
              build_loop fuel (foldl (λ stack c, (c, Some node_idx) :: stack) stack children)
                g root_idx
          end
      end
  end.

End build.

(** ** Nodes and trees *)

Section trees.
Context `{B : Blake3} `{P : Petgraph} {T : Type} `{F : !NodeFormat T}.

Record Node := {
  kind : NodeKind;
  inner : T;
}.

(** An un-hashed node with its children, each already turned into a node by
    its [as_node_with_children]. *)
Inductive NodeWithChildren : Type :=
| NodeWithChildren_new (kind : NodeKind) (inner : T) (children : list NodeWithChildren).

Definition into_parts (n : NodeWithChildren) : Node * list NodeWithChildren :=
  match n with
  | NodeWithChildren_new kind inner children => ({| kind := kind; inner := inner |}, children)
  end.

(** The number of nodes of a tree. *)
Fixpoint nodes_of (n : NodeWithChildren) : nat :=
  match n with
  | NodeWithChildren_new _ _ children => S (sum_list (nodes_of <$> children))
  end.

Record HashingTree := {
  hashing_graph : Graph Node;
  hashing_root_idx : nat;
  hashes : gmap nat Hash;
}.

(** Every turn of the loop adds a node of the tree: [nodes_of node] turns. *)
Definition HashingTree_create_from_root (node : NodeWithChildren) :
    option (result (fault GraphError) HashingTree) :=
  match build_loop (λ n, (into_parts n).1) (λ n, Ok (reverse (into_parts n).2))
          MultipleRootNode (nodes_of node) [(node, None)] graph_new None with
  | None => None
  | Some (Err e) => Some (Err e)
  | Some (Ok (graph, Some root_idx)) =>
      Some (Ok {| hashing_graph := graph; hashing_root_idx := root_idx; hashes := ∅ |})
  | Some (Ok (_, None)) => Some (Err (Fault MissingRootNode))
  end.

Definition child_entry (g : Graph Node) (hashes : gmap nat Hash) (node : Node) (child_idx : nat) :
    result (fault GraphError) NodeEntry :=
  child_node ← ok_or (node_weight g child_idx)
    (Fault (NodeWeightNotFound child_idx "could not find child weight for index"));
  child_hash ← ok_or (hashes !! child_idx)
    (Fault (UnhashedChild (inner_name (inner node)) (inner_name (inner child_node))));
  Ok {| entry_kind := kind child_node; entry_hash := child_hash;
        entry_name := inner_name (inner child_node) |}.

(** [iter().map(f)] with [?]: the first failure in list order. *)
Fixpoint try_map {A C Er} (f : A → result Er C) (l : list A) : result Er (list C) :=
  match l with
  | [] => Ok []
  | a :: l => c ← f a; cs ← try_map f l; Ok (c :: cs)
  end.

Definition compute_hash (g : Graph Node) (hashes : gmap nat Hash) (node_idx : nat) :
    result (fault GraphError) (gmap nat Hash) :=
  node ← ok_or (node_weight g node_idx)
    (Fault (NodeWeightNotFound node_idx "could not find node for next item in dfspo"));
  entries ← try_map (child_entry g hashes node) (neighbors_outgoing g node_idx);
  bytes ← NodeWithEntries_write_bytes
    {| node_kind := kind node; node_inner := inner node; node_entries := entries |};
  Ok (<[node_idx := hash_new bytes]> hashes).

Fixpoint compute_hashes_loop (g : Graph Node) (order : list nat) (hashes : gmap nat Hash) :
    result (fault GraphError) (gmap nat Hash) :=
  match order with
  | [] => Ok hashes
  | node_idx :: order =>
      hashes ← compute_hash g hashes node_idx;
      compute_hashes_loop g order hashes
  end.

Definition compute_hashes (t : HashingTree) : result (fault GraphError) HashingTree :=
  hashes ← compute_hashes_loop (hashing_graph t)
    (dfs_post_order (hashing_graph t) (hashing_root_idx t)) (hashes t);
  Ok {| hashing_graph := hashing_graph t; hashing_root_idx := hashing_root_idx t;
        hashes := hashes |}.

(** [HashedNode]; [kind()], [hash()] and [inner()] are its fields. *)
Record HashedNode := {
  hashed_kind : NodeKind;
  hashed_hash : Hash;
  hashed_inner : T;
}.

Definition HashedNode_new (node : Node) (hash : Hash) : HashedNode :=
  {| hashed_kind := kind node; hashed_hash := hash; hashed_inner := inner node |}.

Record ObjectTree := {
  graph : Graph HashedNode;
  root_idx : nat;
}.

(** A hashed copy of the node at [other_idx], with that index. *)
Definition hashed_copy (t : HashingTree) (msg : string) (other_idx : nat) :
    result (fault GraphError) (HashedNode * nat) :=
  other_node ← ok_or (node_weight (hashing_graph t) other_idx)
    (Fault (NodeWeightNotFound other_idx msg));
  other_hash ← ok_or (hashes t !! other_idx) (Fault (UnhashedNode (inner_name (inner other_node))));
  Ok (HashedNode_new other_node other_hash, other_idx).

(** Every turn copies a node of the tree: [node_count] turns. *)
Definition create_hashed_tree (t : HashingTree) : option (result (fault GraphError) ObjectTree) :=
  match hashed_copy t "could not find weight for other root node" (hashing_root_idx t) with
  | Err e => Some (Err e)
  | Ok root =>
      match build_loop fst
              (λ entry, try_map (hashed_copy t "could not find other child node for index")
                          (neighbors_outgoing (hashing_graph t) entry.2))
              MultipleRootNode (node_count (hashing_graph t)) [(root, None)] graph_new None with
      | None => None
      | Some (Err e) => Some (Err e)
      | Some (Ok (graph, Some root_idx)) => Some (Ok {| graph := graph; root_idx := root_idx |})
      | Some (Ok (_, None)) => Some (Err (Fault MissingRootNode))
      end
  end.

Definition hash_tree (t : HashingTree) : option (result (fault GraphError) ObjectTree) :=
  match compute_hashes t with
  | Err e => Some (Err e)
  | Ok t => create_hashed_tree t
  end.

Definition ObjectTree_create_from_root (node : NodeWithChildren) :
    option (result (fault GraphError) ObjectTree) :=
  match HashingTree_create_from_root node with
  | None => None
  | Some (Err e) => Some (Err e)
  | Some (Ok t) => hash_tree t
  end.

End trees.
Arguments Node T : clear implicits.
Arguments NodeWithChildren T : clear implicits.
Arguments HashedNode {B} T.
Arguments HashingTree {B P} T.
Arguments ObjectTree {B P} T.

(** ** The tree of a graph *)

(** [t] is what the graph [g] holds below the node [i]. The last edge added
    comes first among the neighbors, so they are the children in reverse. *)
Inductive represents `{Petgraph} {N} (g : Graph N) : nat → tree N → Prop :=
| represents_node i a ks ts :
    node_weight g i = Some a →
    neighbors_outgoing g i = reverse ks →
    Forall2 (represents g) ks ts →
    represents g i (TNode a ts).

(** [t] is what the loop builds for the item [x]. *)
Inductive unfolds {X N E} (weight : X → N) (push : X → result (fault E) (list X)) :
    X → tree N → Prop :=
| unfolds_node x xs ts :
    push x = Ok xs →
    Forall2 (unfolds weight push) (reverse xs) ts →
    unfolds weight push x (TNode (weight x) ts).

(** [g'] is [g] with the new nodes [ks] below [p], and what is below them. *)
Record extends `{Petgraph} {N} (g g' : Graph N) (p : option nat) (ks : list nat) : Prop := {
  extends_weight i a : node_weight g i = Some a → node_weight g' i = Some a;
  extends_neighbors i :
    is_Some (node_weight g i) →
    neighbors_outgoing g' i =
      (if decide (p = Some i) then reverse ks else []) ++ neighbors_outgoing g i;
  extends_fresh i : i ∈ ks → node_weight g i = None ∧ is_Some (node_weight g' i);
  extends_closed i j :
    node_weight g i = None → is_Some (node_weight g' i) → edge g' i j →
    node_weight g j = None ∧ is_Some (node_weight g' j);
}.

Section build_facts.
Context `{P : Petgraph} `{PO : !PetgraphOk P} {X N E : Type}.
Variables (weight : X → N) (push : X → result (fault E) (list X)) (multiple_root : E).

Lemma represents_agree (D : nat → Prop) (g g' : Graph N) :
  (∀ k, D k → node_weight g' k = node_weight g k ∧
              neighbors_outgoing g' k = neighbors_outgoing g k) →
  (∀ k j, D k → edge g k j → D j) →
  ∀ t i, D i → represents g i t → represents g' i t.
Proof.
  intros Hag Hcl t. induction t as [a ts IH] using tree_children_ind. intros i Hi Hr.
  inversion Hr as [? ? ks ? Hw Hn Hc]; subst.
  destruct (Hag i Hi) as [Hw' Hn']. econstructor; [by rewrite Hw'|by rewrite Hn', Hn|].
  assert (HD : Forall D ks).
  { apply Forall_forall. intros j Hj. apply (Hcl i); [done|]. unfold edge. rewrite Hn.
    by rewrite elem_of_reverse. }
  clear Hn Hn' Hr. induction Hc; inversion IH; inversion HD; subst; constructor; auto.
Qed.

Lemma extends_app (g g1 g2 : Graph N) q i ks t :
  is_Some (node_weight g q) →
  extends g g1 (Some q) [i] → represents g1 i t →
  extends g1 g2 (Some q) ks →
  extends g g2 (Some q) (i :: ks) ∧ represents g2 i t.
Proof using Type.
  intros Hq H1 Hr H2.
  assert (Hfr : ∀ k, node_weight g k = None → is_Some (node_weight g1 k) →
            node_weight g2 k = node_weight g1 k ∧
            neighbors_outgoing g2 k = neighbors_outgoing g1 k).
  { intros k Hk [a Ha]. split; [by rewrite Ha, (extends_weight _ _ _ _ H2 k a)|].
    rewrite (extends_neighbors _ _ _ _ H2 k) by done. rewrite decide_False; [done|].
    intros [= ->]. rewrite Hk in Hq. by destruct Hq. }
  split; [split|].
  - intros k a Hk. eauto using extends_weight.
  - intros k Hk. assert (Hk1 : is_Some (node_weight g1 k)).
    { destruct Hk as [a Ha]. exists a. by apply (extends_weight _ _ _ _ H1). }
    rewrite (extends_neighbors _ _ _ _ H2 k Hk1), (extends_neighbors _ _ _ _ H1 k Hk).
    case_decide; [|done]. by rewrite reverse_singleton, reverse_cons, <- (assoc_L (++)).
  - intros k [->|Hk]%elem_of_cons.
    + destruct (extends_fresh _ _ _ _ H1 i) as [Hn [a Ha]]; [by left|].
      split; [done|]. exists a. by apply (extends_weight _ _ _ _ H2).
    + destruct (extends_fresh _ _ _ _ H2 k Hk) as [Hn Hs]. split; [|done].
      destruct (node_weight g k) as [a|] eqn:Ha; [|done].
      by rewrite (extends_weight _ _ _ _ H1 k a Ha) in Hn.
  - intros k j Hk Hk2 He. destruct (node_weight g1 k) as [a|] eqn:Hk1.
    + unfold edge in He. destruct (Hfr k Hk) as [_ Hn]; [by eexists|]. rewrite Hn in He.
      destruct (extends_closed _ _ _ _ H1 k j Hk) as [Hj [b Hb]]; [by eexists|done|].
      split; [done|]. exists b. by apply (extends_weight _ _ _ _ H2).
    + destruct (extends_closed _ _ _ _ H2 k j Hk1 Hk2 He) as [Hj Hs]. split; [|done].
      destruct (node_weight g j) as [b|] eqn:Hb; [|done].
      by rewrite (extends_weight _ _ _ _ H1 j b Hb) in Hj.
  - apply (represents_agree
      (λ k, node_weight g k = None ∧ is_Some (node_weight g1 k)) g1 g2); [| | |done].
    + intros k [Hk Hk1]. by apply Hfr.
    + intros k j [Hk Hk1] He. by apply (extends_closed _ _ _ _ H1 k j).
    + apply (extends_fresh _ _ _ _ H1). by left.
Qed.

(** The parent [p] of a new node exists, and there is no root yet if it is the
    root. *)
Definition attachable (g : Graph N) (root p : option nat) : Prop :=
  match p with Some q => is_Some (node_weight g q) | None => root = None end.

(** There are indices for [n] more nodes and edges. *)
Definition room (g : Graph N) (n : nat) : Prop :=
  (N.of_nat (node_count g + n) ≤ index_end ∧ N.of_nat (edge_count g + n) ≤ index_end)%N.

(** The root once a node [i] with parent [p] has been added. *)
Definition root_after (root p : option nat) (i : nat) : option nat :=
  match p with Some _ => root | None => Some i end.

Lemma push_stack i (st : list (X * option nat)) xs :
  foldl (λ st c, (c, Some i) :: st) st xs = ((λ c, (c, Some i)) <$> reverse xs) ++ st.
Proof using Type.
  revert st. induction xs as [|x xs IH]; intros st; [done|]. simpl.
  by rewrite IH, reverse_cons, fmap_app, <- (assoc_L (++)).
Qed.

Lemma extends_add_node (g g1 : Graph N) w i :
  add_node g w = Some (i, g1) → extends g g1 None [i].
Proof using PO.
  intros (Hf & Hw & Hn & Ho & _)%add_node_spec.
  assert (Hne : ∀ k a, node_weight g k = Some a → k ≠ i) by (intros k a Hk ->; congruence).
  split.
  - intros k a Hk. destruct (Ho k) as [-> _]; eauto.
  - intros k [a Hk]. destruct (Ho k) as [_ ->]; eauto.
  - intros k ->%list_elem_of_singleton. split; [done|by eexists].
  - intros k j Hk Hk1 He. unfold edge in He. destruct (decide (k = i)) as [->|Hki].
    + rewrite Hn in He. by apply elem_of_nil in He.
    + destruct (Ho k Hki) as [Hw' _]. rewrite Hw', Hk in Hk1. by destruct Hk1.
Qed.

Lemma extends_add_edge (g g1 g2 : Graph N) q i :
  extends g g1 None [i] → is_Some (node_weight g q) →
  add_edge g1 q i = Some g2 → extends g g2 (Some q) [i].
Proof using PO.
  intros H1 Hq (Hw & Hn & Ho & _)%add_edge_spec. split.
  - intros k a Hk. rewrite Hw. by apply (extends_weight _ _ _ _ H1).
  - intros k Hk. case_decide as Hd.
    + simplify_eq. by rewrite Hn, (extends_neighbors _ _ _ _ H1 k Hk).
    + rewrite Ho by congruence. by rewrite (extends_neighbors _ _ _ _ H1 k Hk).
  - intros k Hk. rewrite Hw. by apply (extends_fresh _ _ _ _ H1).
  - intros k j Hk Hk2 He. rewrite Hw in Hk2 |- *. unfold edge in He.
    apply (extends_closed _ _ _ _ H1 k); [done|done|]. unfold edge.
    rewrite Ho in He; [done|]. intros ->. rewrite Hk in Hq. by destruct Hq.
Qed.

Lemma build_step_spec x p g root xs :
  push x = Ok xs → attachable g root p → room g 1 →
  ∃ i g1,
    build_step weight push multiple_root x p g root = Ok (i, xs, g1, root_after root p i) ∧
    extends g g1 p [i] ∧ node_weight g1 i = Some (weight x) ∧ neighbors_outgoing g1 i = [] ∧
    (∀ k, is_Some (node_weight g1 k) → k = i ∨ is_Some (node_weight g k)) ∧
    (∀ n, room g (S n) → room g1 n) ∧ node_count g1 = S (node_count g).
Proof using PO.
  intros Hx Hp [Hrn Hre]. unfold room, build_step. rewrite Hx.
  destruct (add_node_some g (weight x)) as [[i g1] Ha]; [lia|]. rewrite Ha.
  pose proof (extends_add_node _ _ _ _ Ha) as He1.
  destruct (add_node_spec _ _ _ _ Ha) as (Hf & Hw & Hn & Ho & Hc & Hec).
  assert (Hnew : ∀ k, is_Some (node_weight g1 k) → k = i ∨ is_Some (node_weight g k)).
  { intros k Hk. destruct (decide (k = i)) as [|Hki]; [by left|right].
    by destruct (Ho k Hki) as [<- _]. }
  destruct p as [q|]; simpl in Hp.
  - destruct (add_edge_some g1 q i) as [g2 Hg2].
    { destruct Hp as [a Hq]. exists a. by apply (extends_weight _ _ _ _ He1). }
    { by eexists. } { lia. }
    rewrite Hg2. pose proof (extends_add_edge _ _ _ _ _ He1 Hp Hg2) as He2.
    destruct (add_edge_spec _ _ _ _ Hg2) as (Hw2 & Hn2 & Ho2 & Hc2 & Hec2).
    exists i, g2. cbn. split_and!; [done|done|by rewrite Hw2| | | |congruence].
    + rewrite Ho2; [done|]. intros ->. rewrite Hf in Hp. by destruct Hp.
    + intros k. rewrite Hw2. apply Hnew.
    + lia.
  - subst root. exists i, g1. cbn. split_and!; [done..|lia|done].
Qed.

(** A new node [i] and then the nodes [ks] below it. *)
Lemma extends_below (g g1 g2 : Graph N) p i ks :
  extends g g1 p [i] → neighbors_outgoing g1 i = [] →
  (∀ k, is_Some (node_weight g1 k) → k = i ∨ is_Some (node_weight g k)) →
  extends g1 g2 (Some i) ks →
  extends g g2 p [i] ∧ neighbors_outgoing g2 i = reverse ks.
Proof using Type.
  intros H1 Hn Hnew H2.
  destruct (extends_fresh _ _ _ _ H1 i) as [Hi [w Hw]]; [by left|].
  assert (Hup : ∀ k, is_Some (node_weight g k) → is_Some (node_weight g1 k)).
  { intros k [a Hk]. exists a. by apply (extends_weight _ _ _ _ H1). }
  assert (Hi2 : neighbors_outgoing g2 i = reverse ks).
  { rewrite (extends_neighbors _ _ _ _ H2 i) by eauto. rewrite decide_True by done.
    by rewrite Hn, (right_id_L [] (++)). }
  assert (Hdown : ∀ k, node_weight g1 k = None → node_weight g k = None).
  { intros k Hk. destruct (node_weight g k) as [a|] eqn:Ha; [|done].
    by rewrite (extends_weight _ _ _ _ H1 k a Ha) in Hk. }
  split; [split|done].
  - intros k a Hk. eauto using extends_weight.
  - intros k Hk. rewrite (extends_neighbors _ _ _ _ H2 k) by auto.
    rewrite decide_False; [by apply (extends_neighbors _ _ _ _ H1)|].
    intros [= ->]. rewrite Hi in Hk. by destruct Hk.
  - intros k ->%list_elem_of_singleton. split; [done|]. exists w.
    by apply (extends_weight _ _ _ _ H2).
  - intros k j Hk Hk2 He. destruct (decide (k = i)) as [->|Hki].
    + unfold edge in He. rewrite Hi2, elem_of_reverse in He.
      destruct (extends_fresh _ _ _ _ H2 j He). auto.
    + destruct (node_weight g1 k) as [a|] eqn:Hk1.
      { destruct (Hnew k) as [|Hs]; [by eexists|done|]. rewrite Hk in Hs. by destruct Hs. }
      destruct (extends_closed _ _ _ _ H2 k j Hk1 Hk2 He). auto.
Qed.

(** The loop builds the subtree of the item on top of the stack and goes on
    with the rest of the stack. *)
Definition grafts (t : tree N) : Prop := ∀ x p st g root fuel,
  unfolds weight push x t → attachable g root p → room g (tree_size t) →
  ∃ i g', build_loop weight push multiple_root (tree_size t + fuel) ((x, p) :: st) g root =
            build_loop weight push multiple_root fuel st g' (root_after root p i) ∧
          extends g g' p [i] ∧ represents g' i t ∧
          (∀ n, room g (tree_size t + n) → room g' n) ∧
          node_count g' = node_count g + tree_size t.

Lemma grafts_children ts xs q st g root fuel :
  Forall grafts ts →
  Forall2 (unfolds weight push) xs ts →
  is_Some (node_weight g q) → room g (sum_list (tree_size <$> ts)) →
  ∃ ks g', build_loop weight push multiple_root (sum_list (tree_size <$> ts) + fuel)
             (((λ c, (c, Some q)) <$> xs) ++ st) g root =
             build_loop weight push multiple_root fuel st g' root ∧
           extends g g' (Some q) ks ∧ Forall2 (represents g') ks ts ∧
           (∀ n, room g (sum_list (tree_size <$> ts) + n) → room g' n) ∧
           node_count g' = node_count g + sum_list (tree_size <$> ts).
Proof using PO.
  intros Hts Hxs. revert g. induction Hxs as [|x t xs ts Hx Hxs IH]; intros g Hq Hroom.
  - exists [], g. simpl. split_and!; [done| |done|done|lia]. split; [done|..].
    + intros i Hi. by case_decide.
    + intros i Hi. by apply elem_of_nil in Hi.
    + intros i j Hi [a Ha]. congruence.
  - inversion Hts as [|? ? Ht Hts']; subst.
    change (sum_list (tree_size <$> t :: ts)) with (tree_size t + sum_list (tree_size <$> ts)) in *.
    rewrite <- Nat.add_assoc. cbn [fmap list_fmap app].
    destruct (Ht x (Some q) (((λ c, (c, Some q)) <$> xs) ++ st) g root
                (sum_list (tree_size <$> ts) + fuel) Hx Hq)
      as (i & g1 & -> & He1 & Hr1 & Hroom1 & Hc1).
    { unfold room in *. lia. }
    destruct (IH Hts' g1) as (ks & g2 & Hl2 & He2 & Hr2 & Hroom2 & Hc2).
    { destruct Hq as [a Hq]. exists a. by apply (extends_weight _ _ _ _ He1). }
    { apply Hroom1. unfold room in *. lia. }
    destruct (extends_app g g1 g2 q i ks t Hq He1 Hr1 He2) as [He Hr].
    exists (i :: ks), g2. split_and!; [exact Hl2|done|by constructor| |lia].
    intros n Hn. apply Hroom2, Hroom1. unfold room in *. lia.
Qed.

Lemma build_loop_grafts t : grafts t.
Proof using PO.
  induction t as [a ts IH] using tree_children_ind. intros x p st g root fuel Hx Hp Hroom.
  inversion Hx as [? xs ? Hpush Hts]; subst.
  destruct (build_step_spec x p g root xs Hpush Hp) as (i & g1 & Hs & He1 & Hw & Hn & Hnew & Hr1 & Hc1).
  { unfold room in *. simpl in Hroom. lia. }
  destruct (grafts_children ts (reverse xs) i st g1 (root_after root p i) fuel IH Hts)
    as (ks & g2 & Hloop & He2 & Hrep & Hr2 & Hc2).
  { by eexists. } { by apply Hr1. }
  destruct (extends_below g g1 g2 p i ks He1 Hn Hnew He2) as [He Hk].
  exists i, g2. split_and!.
  - simpl. rewrite Hs, push_stack. apply Hloop.
  - done.
  - econstructor; [by apply (extends_weight _ _ _ _ He2)|done|done].
  - intros n Hroom'. apply Hr2, Hr1. unfold room in *. simpl in Hroom'. lia.
  - simpl. lia.
Qed.

(** A finite tree is built completely, from the empty graph. *)
Lemma build_loop_tree t x fuel :
  unfolds weight push x t → tree_size t ≤ fuel → (N.of_nat (tree_size t) ≤ index_end)%N →
  ∃ g i, build_loop weight push multiple_root fuel [(x, None)] graph_new None =
           Some (Ok (g, Some i)) ∧ represents g i t ∧ node_count g = tree_size t.
Proof using PO.
  intros Hx Hf Hsz.
  destruct (build_loop_grafts t x None [] graph_new None (fuel - tree_size t) Hx)
    as (i & g & Hl & _ & Hr & _ & Hc); [done| |].
  { unfold room. rewrite new_node_count, new_edge_count. simpl. lia. }
  rewrite new_node_count in Hc. exists g, i. split_and!; [|done|done].
  replace fuel with (tree_size t + (fuel - tree_size t)) by lia. rewrite Hl.
  by destruct (fuel - tree_size t).
Qed.

End build_facts.

Section represents_facts.
Context `{P : Petgraph} `{PO : !PetgraphOk P} {N : Type} (g : Graph N).

Lemma represents_functional t : ∀ i t', represents g i t → represents g i t' → t = t'.
Proof using Type.
  induction t as [a ts IH] using tree_children_ind. intros i t' Ht Ht'.
  inversion Ht as [? ? ks ? Hw Hn Hc]; subst. inversion Ht' as [? a' ks' ts' Hw' Hn' Hc']; subst.
  assert (ks' = ks) as -> by (apply (inj reverse); congruence).
  assert (a' = a) as -> by congruence. f_equal. clear Hn Hn' Ht Ht'.
  revert ts' Hc'. induction Hc as [|i' t ks ts Hi Hc IHc]; intros ts' Hc';
    inversion Hc'; subst; [done|]. inversion IH; subst. f_equal; eauto.
Qed.

Lemma represents_edge i t j :
  represents g i t → edge g i j → ∃ c, c ∈ subtrees t ∧ represents g j c.
Proof using Type.
  intros Hr He. inversion Hr as [? a ks ts Hw Hn Hc]; subst. unfold edge in He.
  rewrite Hn, elem_of_reverse in He. apply list_elem_of_lookup_1 in He as [n Hj].
  destruct (Forall2_lookup_l _ _ _ _ _ Hc Hj) as (c & Hts & Hjc).
  exists c. split; [|done]. by eapply list_elem_of_lookup_2.
Qed.

Lemma child_size (t c : tree N) : c ∈ subtrees t → tree_size c < tree_size t.
Proof using Type.
  destruct t as [a ts]. simpl. induction 1 as [c ts|c t ts Hc IH]; csimpl; lia.
Qed.

Lemma represents_tc i j :
  tc (edge g) i j → ∀ t, represents g i t →
  ∃ c, represents g j c ∧ tree_size c < tree_size t.
Proof using Type.
  induction 1 as [i j He|i j k He _ IH]; intros t Ht;
    destruct (represents_edge _ _ _ Ht He) as (c & Hc & Hjc); pose proof (child_size t c Hc).
  - by exists c.
  - destruct (IH c Hjc) as (c' & Hk & Hlt). exists c'. split; [done|lia].
Qed.

Lemma represents_rtc i j :
  rtc (edge g) i j → ∀ t, represents g i t → ∃ c, represents g j c ∧ c ∈ descendants t.
Proof using Type.
  induction 1 as [i|i j k He _ IH]; intros t Ht.
  - exists t. split; [done|apply descendants_self].
  - destruct (represents_edge _ _ _ Ht He) as (c & Hc & Hjc).
    destruct (IH c Hjc) as (s & Hs & Hd). exists s. split; [done|].
    by apply (descendants_child t c).
Qed.

(** The nodes of a represented tree are reached from its root. *)
Lemma represents_reaches t i s :
  represents g i t → s ∈ descendants t → ∃ j, rtc (edge g) i j ∧ represents g j s.
Proof using Type.
  revert i. induction t as [a ts IH] using tree_children_ind. intros i Hr Hs.
  simpl in Hs. apply elem_of_cons in Hs as [->|Hs]; [by exists i|].
  apply list_elem_of_join in Hs as (l & Hs & Hl). apply list_elem_of_fmap in Hl as (c & -> & Hc).
  inversion Hr as [? ? ks ? Hw Hn Hch]; subst.
  apply list_elem_of_lookup_1 in Hc as [n Hc].
  destruct (Forall2_lookup_r _ _ _ _ _ Hch Hc) as (j & Hj & Hjc).
  rewrite Forall_lookup in IH. destruct (IH n c Hc j Hjc Hs) as (k & Hk & Hks).
  exists k. split; [|done]. apply rtc_l with j; [|done]. unfold edge. rewrite Hn.
  rewrite elem_of_reverse. by eapply list_elem_of_lookup_2.
Qed.

Lemma represents_acyclic i t :
  represents g i t → ∀ k, rtc (edge g) i k → ¬ tc (edge g) k k.
Proof using Type.
  intros Ht k Hik Hkk. destruct (represents_rtc _ _ Hik t Ht) as (s & Hs & _).
  destruct (represents_tc _ _ Hkk s Hs) as (s' & Hs' & Hlt).
  rewrite (represents_functional _ _ _ Hs Hs') in Hlt. lia.
Qed.

Lemma represents_weight i t : represents g i t → node_weight g i = Some (label t).
Proof using Type. by inversion 1. Qed.

(** The order in which the nodes of a represented tree are visited. *)
Lemma represents_dfs i t :
  represents g i t →
  (∀ j, j ∈ dfs_post_order g i ↔ rtc (edge g) i j) ∧
  (∀ l1 k l2 j, dfs_post_order g i = l1 ++ k :: l2 → edge g k j → j ∈ l1).
Proof using PO.
  intros Hr. assert (Hi : is_Some (node_weight g i)) by (eexists; by apply represents_weight).
  split; [by apply (dfs_post_order_visits g i Hi (represents_acyclic i t Hr))|]. intros l1 k l2 j Hl He.
  by apply (dfs_post_order_post g i l1 k l2 j Hi (represents_acyclic i t Hr)).
Qed.

End represents_facts.

(** ** What the hashes are *)

Section merkle.
Context `{B : Blake3} {T : Type} `{F : !NodeFormat T}.

(** The tree a node with children stands for. *)
Fixpoint node_tree (n : NodeWithChildren T) : tree (Node T) :=
  match n with
  | NodeWithChildren_new kind inner children =>
      TNode {| kind := kind; inner := inner |} (node_tree <$> children)
  end.

Definition entry_of (h : Hash) (n : Node T) : NodeEntry :=
  {| entry_kind := kind n; entry_hash := h; entry_name := inner_name (inner n) |}.

(** A node of the tree as it is stored, given the hash of its subtrees. *)
Definition stored_node (hash : tree (Node T) → Hash) (t : tree (Node T)) : NodeWithEntries T :=
  {| node_kind := kind (label t); node_inner := inner (label t);
     node_entries := reverse ((λ c, entry_of (hash c) (label c)) <$> subtrees t) |}.

(** The Merkle hash: a node is hashed over its bytes, which contain the hashes
    of its children. *)
Fixpoint merkle (t : tree (Node T)) : Hash :=
  match t with
  | TNode n ts =>
      hash_new (ok_default [] (NodeWithEntries_write_bytes
        {| node_kind := kind n; node_inner := inner n;
           node_entries := reverse ((λ c, entry_of (merkle c) (label c)) <$> ts) |}))
  end.

Definition merkle_node : tree (Node T) → NodeWithEntries T := stored_node merkle.
Definition merkle_bytes (t : tree (Node T)) : list Byte.byte :=
  ok_default [] (NodeWithEntries_write_bytes (merkle_node t)).

(** The hashed tree. *)
Fixpoint hashed (t : tree (Node T)) : tree (HashedNode T) :=
  match t with TNode n ts => TNode (HashedNode_new n (merkle t)) (hashed <$> ts) end.

(** Every node of the tree can be written. *)
Definition writable : tree (Node T) → Prop :=
  everywhere (λ s, is_ok (inner_write_bytes (inner (label s))) = true).

Lemma merkle_eq t : merkle t = hash_new (merkle_bytes t).
Proof. by destruct t. Qed.

Lemma hashed_label t : label (hashed t) = HashedNode_new (label t) (merkle t).
Proof. by destruct t. Qed.

Lemma hashed_inj t1 : ∀ t2, hashed t1 = hashed t2 → t1 = t2.
Proof using Type.
  induction t1 as [[k1 i1] ts1 IH] using tree_children_ind. intros [[k2 i2] ts2] [= -> _ -> Hts].
  f_equal. revert ts2 Hts.
  induction IH as [|t ts1 Ht _ IHts]; intros [|t2 ts2] Hts; csimpl in Hts; simplify_eq; [done|].
  f_equal; eauto.
Qed.

Lemma merkle_bytes_ok t :
  writable t → NodeWithEntries_write_bytes (merkle_node t) = Ok (merkle_bytes t).
Proof.
  intros [Hw _]%everywhere_inv. unfold merkle_bytes.
  destruct (inner_write_bytes (inner (label t))) as [bs|] eqn:Hbs; [|done].
  by rewrite (node_write_parts _ bs).
Qed.

Lemma tree_size_hashed t : tree_size (hashed t) = tree_size t.
Proof.
  induction t as [n ts IH] using tree_children_ind. simpl. do 2 f_equal.
  rewrite <- list_fmap_compose. by apply Forall_fmap_ext_1.
Qed.

End merkle.

Section create_facts.
Context `{B : Blake3} `{P : Petgraph} `{PO : !PetgraphOk P} {T : Type} `{F : !NodeFormat T}.

Lemma try_map_Forall2 {A C Er} (f : A → result Er C) l cs :
  Forall2 (λ a c, f a = Ok c) l cs → try_map f l = Ok cs.
Proof using Type. induction 1 as [|a c l cs Ha _ IH]; [done|]. simpl. by rewrite Ha, IH. Qed.

Lemma nodes_of_tree (n : NodeWithChildren T) : tree_size (node_tree n) = nodes_of n.
Proof using Type.
  revert n. fix IH 1. intros [k i cs]. simpl. f_equal. f_equal.
  induction cs as [|c cs IHcs]; [done|]. simpl. f_equal; [apply IH|apply IHcs].
Qed.

Lemma node_tree_unfolds (n : NodeWithChildren T) :
  unfolds (E := GraphError) (λ n, (into_parts n).1) (λ n, Ok (reverse (into_parts n).2)) n
    (node_tree n).
Proof using Type.
  revert n. fix IH 1. intros [k i cs].
  apply (unfolds_node (λ n, (into_parts n).1) (λ n, Ok (reverse (into_parts n).2))
           (NodeWithChildren_new k i cs) (reverse cs) (node_tree <$> cs)); [done|].
  rewrite reverse_involutive. induction cs as [|c cs IHcs]; constructor; [apply IH|apply IHcs].
Qed.

Lemma HashingTree_create_from_root_spec (n : NodeWithChildren T) :
  (N.of_nat (nodes_of n) ≤ index_end)%N →
  ∃ g i, HashingTree_create_from_root n =
           Some (Ok {| hashing_graph := g; hashing_root_idx := i; hashes := ∅ |}) ∧
         represents g i (node_tree n) ∧ node_count g = nodes_of n.
Proof using PO.
  intros Hn. rewrite <- nodes_of_tree in Hn.
  destruct (build_loop_tree _ _ MultipleRootNode _ _ _ (node_tree_unfolds n) (reflexivity _) Hn)
    as (g & i & Hl & Hr & Hc).
  rewrite nodes_of_tree in Hl, Hc. exists g, i. split_and!; [|done|done].
  unfold HashingTree_create_from_root. by rewrite Hl.
Qed.

(** The hashes of the nodes [l] have been computed. *)
Definition hashed_at (g : Graph (Node T)) (hs : gmap nat Hash) (l : list nat) : Prop :=
  ∀ k s, k ∈ l → represents g k s → hs !! k = Some (merkle s).

Lemma child_entries_spec g hs node ks ts :
  Forall2 (represents g) ks ts → hashed_at g hs ks →
  try_map (child_entry g hs node) (reverse ks) =
    Ok (reverse ((λ c, entry_of (merkle c) (label c)) <$> ts)).
Proof using Type.
  intros Hc Hh. apply try_map_Forall2, Forall2_reverse, Forall2_fmap_r.
  induction Hc as [|k t ks ts Hk Hc IH]; constructor.
  - unfold child_entry. rewrite (represents_weight g k t Hk), (Hh k t) by (done || by left).
    done.
  - apply IH. intros k' s Hk'. apply Hh. by right.
Qed.

Lemma compute_hash_spec g hs k s :
  represents g k s → writable s → hashed_at g hs (neighbors_outgoing g k) →
  compute_hash g hs k = Ok (<[k := merkle s]> hs).
Proof using Type.
  intros Hr Hw Hh. unfold compute_hash. rewrite (represents_weight g k s Hr). simpl.
  inversion Hr as [? a ks ts Hwt Hn Hc]; subst. rewrite Hn in Hh |- *.
  rewrite (child_entries_spec _ _ _ ks ts Hc).
  2:{ intros j t' Hj. apply Hh. by rewrite elem_of_reverse. }
  cbn -[NodeWithEntries_write_bytes merkle insert].
  pose proof (merkle_bytes_ok _ Hw) as Hb. unfold merkle_node, stored_node in Hb. simpl in Hb.
  by rewrite Hb, merkle_eq.
Qed.

Lemma hashed_at_insert g hs l k s :
  represents g k s → hashed_at g hs l → hashed_at g (<[k := merkle s]> hs) (l ++ [k]).
Proof using Type.
  intros Hr Hh j t Hj Ht. destruct (decide (j = k)) as [->|Hne].
  - rewrite lookup_insert_eq. by rewrite (represents_functional g s k t Hr Ht).
  - rewrite lookup_insert_ne by done. apply Hh; [|done].
    apply elem_of_app in Hj as [Hj|Hj]; [done|]. by apply list_elem_of_singleton in Hj.
Qed.

Lemma compute_hashes_loop_spec g i t l1 l2 hs :
  represents g i t → writable t → dfs_post_order g i = l1 ++ l2 → hashed_at g hs l1 →
  ∃ hs', compute_hashes_loop g l2 hs = Ok hs' ∧ hashed_at g hs' (l1 ++ l2).
Proof using PO.
  intros Hr Hw. destruct (represents_dfs g i t Hr) as [Hv Hpost].
  revert l1 hs. induction l2 as [|k l2 IH]; intros l1 hs Hl Hh.
  { exists hs. by rewrite (right_id_L [] (++)). }
  assert (Hk : rtc (edge g) i k).
  { apply Hv. rewrite Hl, elem_of_app. right. by left. }
  destruct (represents_rtc g i k Hk t Hr) as (s & Hs & Hd).
  simpl. rewrite (compute_hash_spec g hs k s Hs (everywhere_below _ _ _ Hw Hd)).
  2:{ intros j c Hj. apply Hh. by apply (Hpost l1 k l2). }
  destruct (IH (l1 ++ [k]) (<[k := merkle s]> hs)) as (hs' & Hc & Hh').
  { by rewrite <- (assoc_L (++)). }
  { by apply hashed_at_insert. }
  exists hs'. split; [exact Hc|]. by rewrite <- (assoc_L (++)) in Hh'.
Qed.

Lemma hashed_copy_spec g i hs msg k s l :
  represents g k s → hashed_at g hs l → k ∈ l →
  hashed_copy {| hashing_graph := g; hashing_root_idx := i; hashes := hs |} msg k =
    Ok (HashedNode_new (label s) (merkle s), k).
Proof using Type.
  intros Hr Hh Hk. unfold hashed_copy. simpl.
  by rewrite (represents_weight g k s Hr), (Hh k s).
Qed.

Lemma hashed_unfolds g i hs msg l s : ∀ k,
  represents g k s → hashed_at g hs l → k ∈ l →
  (∀ k j, k ∈ l → edge g k j → j ∈ l) →
  let t := {| hashing_graph := g; hashing_root_idx := i; hashes := hs |} in
  unfolds fst (λ entry, try_map (hashed_copy t msg) (neighbors_outgoing g entry.2))
    (HashedNode_new (label s) (merkle s), k) (hashed s).
Proof using Type.
  induction s as [n ts IH] using tree_children_ind. intros k Hr Hh Hk Hcl t.
  inversion Hr as [? ? ks ? Hw Hn Hc]; subst.
  assert (Hks : Forall (λ j, j ∈ l) ks).
  { apply Forall_forall. intros j Hj. apply (Hcl k); [done|]. unfold edge.
    by rewrite Hn, elem_of_reverse. }
  set (copies := zip_with (λ j c, (HashedNode_new (label c) (merkle c), j)) ks ts).
  apply (unfolds_node fst _ (HashedNode_new n (merkle (TNode n ts)), k) (reverse copies)
           (hashed <$> ts)).
  - simpl. rewrite Hn. apply try_map_Forall2, Forall2_reverse. unfold copies.
    clear Hn IH Hr copies. induction Hc as [|j c ks ts Hj Hc IHc]; constructor.
    + inversion Hks; subst. by eapply hashed_copy_spec.
    + inversion Hks; subst. by apply IHc.
  - rewrite reverse_involutive. unfold copies. clear Hn Hr copies.
    induction Hc as [|j c ks ts Hj Hc IHc]; constructor.
    + inversion Hks; inversion IH; subst. auto.
    + inversion Hks; inversion IH; subst. by apply IHc.
Qed.

Lemma create_hashed_tree_spec g i t hs :
  represents g i t → hashed_at g hs (dfs_post_order g i) →
  node_count g = tree_size t → (N.of_nat (tree_size t) ≤ index_end)%N →
  ∃ o, create_hashed_tree {| hashing_graph := g; hashing_root_idx := i; hashes := hs |} =
         Some (Ok o) ∧ represents (graph o) (root_idx o) (hashed t).
Proof using PO.
  intros Hr Hh Hc Hsz. destruct (represents_dfs g i t Hr) as [Hv _].
  assert (Hi : i ∈ dfs_post_order g i) by by apply Hv.
  unfold create_hashed_tree. rewrite (hashed_copy_spec g i hs _ i t _ Hr Hh Hi).
  rewrite <- tree_size_hashed in Hsz.
  destruct (build_loop_tree _ _ MultipleRootNode _ _ _
    (hashed_unfolds g i hs "could not find other child node for index" _ t i Hr Hh Hi
       (λ k j Hk He, proj2 (Hv j) (rtc_r _ _ _ (proj1 (Hv k) Hk) He))) (reflexivity _) Hsz)
    as (g' & i' & Hl & Hr' & _).
  rewrite tree_size_hashed, <- Hc in Hl. cbn [hashing_graph].
  exists {| graph := g'; root_idx := i' |}. split; [|done]. by rewrite Hl.
Qed.

Lemma create_from_root_spec (n : NodeWithChildren T) :
  writable (node_tree n) → (N.of_nat (nodes_of n) ≤ index_end)%N →
  ∃ o, ObjectTree_create_from_root n = Some (Ok o) ∧
    represents (graph o) (root_idx o) (hashed (node_tree n)).
Proof using PO.
  intros Hw Hsz. destruct (HashingTree_create_from_root_spec n Hsz) as (g & i & Hc & Hr & Hn).
  destruct (compute_hashes_loop_spec g i _ [] (dfs_post_order g i) ∅ Hr Hw)
    as (hs & Hhs & Hh); [done| |].
  { intros k s Hk. by apply elem_of_nil in Hk. }
  unfold ObjectTree_create_from_root. rewrite Hc. unfold hash_tree, compute_hashes. simpl.
  rewrite Hhs. simpl. rewrite <- nodes_of_tree in Hn, Hsz.
  by apply create_hashed_tree_spec.
Qed.

(** Creating an object tree from a tree of nodes whose values can be
    serialized terminates and succeeds, and the graph holds exactly that tree
    below its root, children in the same order, every node with its Merkle
    hash. *)
Theorem create_from_root_correct (n : NodeWithChildren T) :
  writable (node_tree n) → (N.of_nat (nodes_of n) ≤ index_end)%N →
  ∃ o, ObjectTree_create_from_root n = Some (Ok o) ∧
    ∀ t, represents (graph o) (root_idx o) t ↔ t = hashed (node_tree n).
Proof using PO.
  intros Hw Hsz. destruct (create_from_root_spec n Hw Hsz) as (o & Ho & Hr).
  exists o. split; [done|]. intros t. split; [|by intros ->].
  intros Ht. by apply (represents_functional (graph o) t (root_idx o)).
Qed.

End create_facts.
