(* ===== verification/ObjectTar.v ===== *)
(** * Object trees in tar archives

    Model of [src/lib/object-tree/src/tar.rs], [tar/write.rs] and
    [tar/read.rs]: every node of an object tree is stored under its hash, next
    to a reference to the root; reading follows the hashes from the root. The
    archive crate is the class [TarArchive]. *)

From S2P Require Import Prelude Bytes KeyValue NodeEntries ObjectGraph.
From Stdlib Require Import NArith Init.Byte.
From stdpp Require Import base tactics list sets gmap relations strings.

#[export] Instance byte_countable : Countable Byte.byte :=
  inj_countable code Byte.of_N Byte.of_to_N.

(** [PathBuf]: its components. *)
Abbreviation path := (list (list Byte.byte)) (only parsing).

(** ** The archive crate *)

(** A [tar::Builder] over a byte vector: [tar_append] writes a GNU header with
    the path and the size and then the data; [tar_finish] is [finish] and
    [into_inner]. [tar_unpack] lists the paths and the data of an archive, in
    order. They fail with an I/O error. *)
Class TarArchive := {
  TarIoError : Type;
  TarBuilder : Type;
  tar_new : TarBuilder;
  tar_append : TarBuilder → path → list Byte.byte → result TarIoError TarBuilder;
  tar_finish : TarBuilder → result TarIoError (list Byte.byte);
  tar_unpack : list Byte.byte → result TarIoError (list (path * list Byte.byte));
}.

(** Their documented behaviour, with the entries that have been appended: a
    path of at most 100 bytes fits into a header, nothing else fails on a byte
    vector, and unpacking lists what was appended. *)
Class TarArchiveOk (A : TarArchive) := {
  tar_appended : TarBuilder → list (path * list Byte.byte);
  tar_new_appended : tar_appended tar_new = [];
  tar_append_ok b p data :
    sum_list (S ∘ length <$> p) ≤ 100 →
    ∃ b', tar_append b p data = Ok b' ∧ tar_appended b' = tar_appended b ++ [(p, data)];
  tar_finish_ok b :
    ∃ bytes, tar_finish b = Ok bytes ∧ tar_unpack bytes = Ok (tar_appended b);
}.

Inductive TarWriterError `{Blake3, TarArchive} : Type :=
| WriteGraph (e : GraphError)
| WriteIo (e : TarIoError)
| TryFromInt.

Inductive TarReadError `{Blake3, TarArchive} : Type :=
| ReadHash
| TarIoRead (e : TarIoError)
| NodeNotFound (p : path)
| NodeWithEntriesParse (e : GraphError)
| ReadTree (e : GraphError)
| RootNodeError
| StringParse.

Section tar.
Context `{B : Blake3} `{P : Petgraph} `{A : TarArchive} {T : Type} `{F : !NodeFormat T}.

Definition object_path (hash : Hash) : path := [str "objects"; hash_to_string hash].
Definition ref_path (name : list Byte.byte) : path := [str "refs"; name].

(** [map_err]. *)
Definition map_err {E E' C} (f : E → E') (r : result E C) : result E' C :=
  match r with Ok c => Ok c | Err e => Err (f e) end.

Definition map_fault {E E' : Type} (f : E → E') (e : fault E) : fault E' :=
  match e with Fault e => Fault (f e) | Panic => Panic end.

(** ** Writing *)

Definition write_tar_entry (b : TarBuilder) (p : path) (entry : list Byte.byte) :
    result (fault TarWriterError) TarBuilder :=
  map_err (Fault ∘ WriteIo) (tar_append b p entry).

Definition tar_child_entry (g : Graph (HashedNode T)) (child_idx : nat) :
    result (fault TarWriterError) NodeEntry :=
  child_node ← ok_or (node_weight g child_idx)
    (Fault (WriteGraph (NodeWeightNotFound child_idx
      "tar writer: could not find child node for index")));
  Ok {| entry_kind := hashed_kind child_node; entry_hash := hashed_hash child_node;
        entry_name := inner_name (hashed_inner child_node) |}.

Definition write_node (g : Graph (HashedNode T)) (b : TarBuilder) (node_idx : nat) :
    result (fault TarWriterError) TarBuilder :=
  node ← ok_or (node_weight g node_idx)
    (Fault (WriteGraph (NodeWeightNotFound node_idx
      "tar writer: could not find next node for index for dfspo")));
  entries ← try_map (tar_child_entry g) (neighbors_outgoing g node_idx);
  bytes ← map_err (map_fault WriteGraph) (NodeWithEntries_write_bytes
    {| node_kind := hashed_kind node; node_inner := hashed_inner node; node_entries := entries |});
  write_tar_entry b (object_path (hashed_hash node)) bytes.

Fixpoint write_nodes (g : Graph (HashedNode T)) (order : list nat) (b : TarBuilder) :
    result (fault TarWriterError) TarBuilder :=
  match order with
  | [] => Ok b
  | node_idx :: order => b ← write_node g b node_idx; write_nodes g order b
  end.

(** [TarWriter::new] and [bytes]. *)
Definition TarWriter_new (t : ObjectTree T) : result (fault TarWriterError) (list Byte.byte) :=
  b ← write_nodes (graph t) (dfs_post_order (graph t) (root_idx t)) tar_new;
  root_node ← ok_or (node_weight (graph t) (root_idx t))
    (Fault (WriteGraph (NodeWeightNotFound (root_idx t)
      "tar writer: could not find root node for index")));
  b ← write_tar_entry b (ref_path (str "root")) (hash_to_string (hashed_hash root_node));
  map_err (Fault ∘ WriteIo) (tar_finish b).

(** ** Reading *)

(** [HashedNodeWithEntries]. *)
Record HashedNodeWithEntries := {
  hnwe_kind : NodeKind;
  hnwe_hash : Hash;
  hnwe_inner : T;
  hnwe_entries : list NodeEntry;
}.

Definition from_node_with_entries_and_hash (n : NodeWithEntries T) (hash : Hash) :
    HashedNodeWithEntries :=
  {| hnwe_kind := node_kind n; hnwe_hash := hash; hnwe_inner := node_inner n;
     hnwe_entries := node_entries n |}.

(** [into()]: the hashed node and its entries. *)
Definition hnwe_node (n : HashedNodeWithEntries) : HashedNode T :=
  {| hashed_kind := hnwe_kind n; hashed_hash := hnwe_hash n; hashed_inner := hnwe_inner n |}.

(** [NodeWithEntries::from_bytes]: what follows the node is ignored. *)
Definition from_bytes (buf : list Byte.byte) :
    result (fault GraphError) (option (NodeWithEntries T)) :=
  match NodeWithEntries_read_bytes buf with Ok (n, _) => Ok n | Err e => Err e end.

Definition get_node (tar_data : gmap path (list Byte.byte)) (hash : Hash) :
    result (fault TarReadError) (option HashedNodeWithEntries) :=
  let dst_path := object_path hash in
  buf ← ok_or (tar_data !! dst_path) (Fault (NodeNotFound dst_path));
  node_with_entries ← map_err (map_fault NodeWithEntriesParse) (from_bytes buf);
  Ok (option_map (λ nwe, from_node_with_entries_and_hash nwe hash) node_with_entries).

Definition get_root_ref (tar_data : gmap path (list Byte.byte)) :
    result (fault TarReadError) Hash :=
  let dst_path := ref_path (str "root") in
  buf ← ok_or (tar_data !! dst_path) (Fault (NodeNotFound dst_path));
  if is_utf8 buf then ok_or (hash_from_str buf) (Fault ReadHash) else Err (Fault StringParse).

(** The children of a node, in the order they are pushed: the entries from the
    last to the first, without the nodes that are not recognised. *)
Definition read_children (tar_data : gmap path (list Byte.byte)) (n : HashedNodeWithEntries) :
    result (fault TarReadError) (list HashedNodeWithEntries) :=
  children ← try_map (λ e, get_node tar_data (entry_hash e)) (reverse (hnwe_entries n));
  Ok (omap (M := list) id children).

(** The archive as a map from paths; a later entry replaces an earlier one. *)
Definition tar_map (entries : list (path * list Byte.byte)) : gmap path (list Byte.byte) :=
  foldl (λ m e, <[e.1 := e.2]> m) ∅ entries.

(** [fuel] bounds the number of nodes read: an archive is untrusted input, and
    reading it need not terminate. *)
Definition read_from_tar (fuel : nat) (bytes : list Byte.byte) :
    option (result (fault TarReadError) (ObjectTree T)) :=
  match tar_unpack bytes with
  | Err e => Some (Err (Fault (TarIoRead e)))
  | Ok entries =>
      let tar_data := tar_map entries in
      match
        root_hash ← get_root_ref tar_data;
        root_node ← get_node tar_data root_hash;
        ok_or root_node (Fault RootNodeError)
      with
      | Err e => Some (Err e)
      | Ok root_node =>
          match build_loop hnwe_node (read_children tar_data) (ReadTree MultipleRootNode)
                  fuel [(root_node, None)] graph_new None with
          | None => None
          | Some (Err e) => Some (Err e)
          | Some (Ok (graph, Some root_idx)) => Some (Ok {| graph := graph; root_idx := root_idx |})
          | Some (Ok (_, None)) => Some (Err (Fault (ReadTree MissingRootNode)))
          end
      end
  end.

End tar.

(** ** What reading gives back *)

(** By name, of anything. *)
Definition sort_by {A} (name : A → list Byte.byte) : list A → list A :=
  stable_sort (λ a a', bytes_le (name a) (name a')).

Lemma sort_by_perm {A} (name : A → list Byte.byte) l : sort_by name l ≡ₚ l.
Proof. apply stable_sort_perm. Qed.

Lemma sort_by_cons {A} (name : A → list Byte.byte) a l :
  sort_by name (a :: l) = insert_sorted (λ a a', bytes_le (name a) (name a')) a (sort_by name l).
Proof. done. Qed.

Lemma sort_by_fmap {A C} (name : A → list Byte.byte) (name' : C → list Byte.byte) (f : A → C) l :
  Forall (λ a, name' (f a) = name a) l → sort_by name' (f <$> l) = f <$> sort_by name l.
Proof.
  induction 1 as [|a l Ha Hl IH]; [done|].
  rewrite fmap_cons, !sort_by_cons, IH. clear IH.
  assert (Hs : Forall (λ a, name' (f a) = name a) (sort_by name l)) by by rewrite sort_by_perm.
  induction Hs as [|b s Hb Hs IH]; [done|]. csimpl. rewrite Ha, Hb.
  destruct (bytes_le _ _); [done|]. csimpl. by rewrite <- IH.
Qed.

Lemma sort_entries_sort_by `{Blake3} es : sort_entries es = sort_by entry_name es.
Proof.
  induction es as [|e es IH]; [done|].
  change (insert_entry e (sort_entries es) = sort_by entry_name (e :: es)).
  rewrite sort_by_cons, IH. clear IH.
  induction (sort_by entry_name es) as [|e' l IH]; [done|]. simpl.
  destruct (bytes_le _ _); [done|]. by rewrite IH.
Qed.

Section read_back.
Context `{B : Blake3} {T : Type} `{F : !NodeFormat T} (good : T → Prop) (canon : T → T).

Definition node_name (t : tree (Node T)) : list Byte.byte := inner_name (inner (label t)).

Definition hashed_name (t : tree (HashedNode T)) : list Byte.byte :=
  inner_name (hashed_inner (label t)).

(** The tree that is read: the same hashes, the values their format reads back,
    and the children of every node by name (those with the same name in
    reverse). *)
Fixpoint read_back (t : tree (Node T)) : tree (HashedNode T) :=
  match t with
  | TNode n ts =>
      TNode {| hashed_kind := kind n; hashed_hash := merkle t; hashed_inner := canon (inner n) |}
        (sort_by hashed_name (reverse (read_back <$> ts)))
  end.

(** The trees that can be stored: good values, names that fit on an entry
    line, and no children below a leaf. *)
Definition storable : tree (Node T) → Prop :=
  everywhere (λ s, good (inner (label s)) ∧
    (utf8 (node_name s) ∧ (NL ∉ node_name s) ∧ last (node_name s) ≠ Some CR) ∧
    (kind (label s) = Leaf → subtrees s = [])).

(** No two different nodes have the same hash. *)
Definition collision_free (t1 t2 : tree (Node T)) : Prop :=
  ∀ s1 s2, s1 ∈ descendants t1 → s2 ∈ descendants t2 →
    merkle s1 = merkle s2 → merkle_bytes s1 = merkle_bytes s2.

(** The archive entry of a node. *)
Definition object (t : tree (Node T)) : path * list Byte.byte :=
  (object_path (merkle t), merkle_bytes t).

(** A node as it is read. *)
Definition read_node (t : tree (Node T)) : HashedNodeWithEntries :=
  from_node_with_entries_and_hash (node_canon canon (merkle_node t)) (merkle t).

(** The archive data holds every node of the tree. *)
Definition holds (m : gmap path (list Byte.byte)) (t : tree (Node T)) : Prop :=
  everywhere (λ s, m !! object_path (merkle s) = Some (merkle_bytes s)) t.

End read_back.

Section tar_facts.
Context `{B : Blake3} `{BO : !Blake3Ok B} `{P : Petgraph} `{PO : !PetgraphOk P}.
Context `{A : TarArchive} `{AO : !TarArchiveOk A} {T : Type} `{F : !NodeFormat T}.
Context (good : T → Prop) (canon : T → T) `{FO : !NodeFormatOk T good canon}.

(** *** Storable trees *)

Lemma storable_node t : storable good t → node_good good (merkle_node t).
Proof using Type.
  intros Ht. destruct (everywhere_inv _ _ Ht) as [(Hg & _ & Hl) Hc]. split_and!; [done| |].
  - simpl. apply Forall_reverse, Forall_fmap, Forall_forall. intros c Hin.
    by destruct (everywhere_inv _ _ (Hc c Hin)) as [(_ & Hn & _) _].
  - simpl. intros Hk. by rewrite (Hl Hk).
Qed.

Lemma storable_writable t : storable good t → writable t.
Proof using FO.
  intros Ht s Hs. destruct (Ht s Hs) as (Hg & _).
  destruct (inner_roundtrip _ [] Hg) as (bs & -> & _); [by left|done].
Qed.

Lemma node_entries_sorted t :
  node_entries (node_canon canon (merkle_node t)) =
    (λ c, entry_of (merkle c) (label c)) <$> sort_by node_name (reverse (subtrees t)).
Proof using Type.
  simpl. rewrite sort_entries_sort_by, <- fmap_reverse. apply sort_by_fmap.
  by apply Forall_true.
Qed.

Lemma read_back_children t :
  storable good t →
  subtrees (read_back canon t) =
    read_back canon <$> sort_by node_name (reverse (subtrees t)).
Proof using FO.
  intros Ht. destruct (everywhere_inv _ _ Ht) as [_ Hc]. destruct t as [n ts]. simpl.
  rewrite <- fmap_reverse. apply sort_by_fmap, Forall_reverse, Forall_forall. intros c Hin.
  destruct (everywhere_inv _ _ (Hc c Hin)) as [(Hg & _) _]. destruct c as [m cs].
  by apply (inner_canon_name m.(inner)).
Qed.

Lemma read_back_label t :
  label (read_back canon t) =
    {| hashed_kind := kind (label t); hashed_hash := merkle t;
       hashed_inner := canon (inner (label t)) |}.
Proof using Type. by destruct t. Qed.

Lemma read_back_eq t : read_back canon t =
  TNode (hnwe_node (read_node canon t)) (subtrees (read_back canon t)).
Proof using Type. by destruct t. Qed.

(** *** Reading *)

Lemma get_node_stored m s :
  storable good s → m !! object_path (merkle s) = Some (merkle_bytes s) →
  get_node m (merkle s) = Ok (Some (read_node canon s)).
Proof using BO FO.
  intros Hs Hm. unfold get_node. rewrite Hm. simpl.
  destruct (read_written_node good canon _ (storable_node s Hs)) as (bs & Hw & Hr).
  pose proof (merkle_bytes_ok s (storable_writable s Hs)) as Hb.
  assert (bs = merkle_bytes s) as -> by congruence. unfold from_bytes. by rewrite Hr.
Qed.

Lemma read_children_stored m t :
  storable good t → holds m t →
  read_children m (read_node canon t) =
    Ok (reverse (read_node canon <$> sort_by node_name (reverse (subtrees t)))).
Proof using BO FO.
  intros Ht Hm. destruct (everywhere_inv _ _ Ht) as [_ Hc].
  destruct (everywhere_inv _ _ Hm) as [_ Hmc]. unfold read_children.
  change (hnwe_entries (read_node canon t)) with (node_entries (node_canon canon (merkle_node t))).
  rewrite node_entries_sorted, <- fmap_reverse.
  rewrite (try_map_Forall2 _ _
    ((λ c, Some (read_node canon c)) <$> reverse (sort_by node_name (reverse (subtrees t))))).
  - cbn. rewrite <- fmap_reverse. f_equal.
    induction (reverse (sort_by node_name (reverse (subtrees t)))); csimpl; congruence.
  - apply Forall2_fmap_2, Forall_Forall2_diag, Forall_reverse.
    rewrite sort_by_perm, Forall_reverse. apply Forall_forall. intros c Hin. simpl.
    destruct (everywhere_inv _ _ (Hmc c Hin)) as [Hmc' _].
    by apply get_node_stored; [apply Hc|].
Qed.

Lemma read_unfolds m t :
  storable good t → holds m t →
  unfolds hnwe_node (read_children m) (read_node canon t) (read_back canon t).
Proof using BO FO.
  induction t as [n ts IH] using tree_children_ind. intros Ht Hm. rewrite read_back_eq.
  econstructor; [by apply read_children_stored|]. rewrite reverse_involutive.
  rewrite (read_back_children _ Ht).
  destruct (everywhere_inv _ _ Ht) as [_ Hc]. destruct (everywhere_inv _ _ Hm) as [_ Hmc].
  apply Forall2_fmap_2, Forall_Forall2_diag. rewrite sort_by_perm, Forall_reverse. simpl.
  rewrite Forall_forall in IH |- *. intros c Hin. by apply IH; [|apply Hc|apply Hmc].
Qed.

Lemma tree_size_read_back t : storable good t → tree_size (read_back canon t) = tree_size t.
Proof using FO.
  induction t as [n ts IH] using tree_children_ind. intros Ht. rewrite read_back_eq.
  cbn [tree_size]. rewrite (read_back_children _ Ht). destruct (everywhere_inv _ _ Ht) as [_ Hc].
  f_equal. rewrite sort_by_perm. cbn [subtrees]. rewrite reverse_Permutation.
  f_equal. rewrite <- list_fmap_compose. apply Forall_fmap_ext_1.
  rewrite Forall_forall in IH |- *. intros c Hin. by apply IH; [|apply Hc].
Qed.

(** *** Writing *)

Lemma descendants_hashed (t : tree (Node T)) : descendants (hashed t) = hashed <$> descendants t.
Proof using Type.
  induction t as [n ts IH] using tree_children_ind. csimpl. f_equal.
  induction IH as [|t ts Ht _ IHts]; [done|]. csimpl. by rewrite Ht, IHts, fmap_app.
Qed.

Lemma hash_to_string_inj : Inj (=) (=) hash_to_string.
Proof using BO.
  intros h1 h2 H. apply (inj Some). by rewrite <- !hash_roundtrip, H.
Qed.

Lemma object_path_inj h1 h2 : object_path h1 = object_path h2 → h1 = h2.
Proof using BO. unfold object_path. intros [= H]. by apply hash_to_string_inj. Qed.

Lemma tar_child_entries (g : Graph (HashedNode T)) ks ts :
  Forall2 (represents g) ks (hashed <$> ts) →
  try_map (tar_child_entry g) (reverse ks) =
    Ok (reverse ((λ c, entry_of (merkle c) (label c)) <$> ts)).
Proof using Type.
  intros Hc. apply try_map_Forall2, Forall2_reverse, Forall2_fmap_r.
  rewrite Forall2_fmap_r in Hc. eapply Forall2_impl; [exact Hc|]. intros k c Hk. simpl in Hk.
  unfold tar_child_entry. rewrite (represents_weight g k _ Hk), hashed_label. done.
Qed.

Lemma append_object b t data :
  ∃ b', tar_append b (object_path (merkle t)) data = Ok b' ∧
    tar_appended b' = tar_appended b ++ [(object_path (merkle t), data)].
Proof using BO AO.
  apply tar_append_ok. unfold object_path. csimpl. rewrite hash_length. simpl. lia.
Qed.

Lemma write_node_spec g b k s :
  represents g k (hashed s) → writable s →
  ∃ b', write_node g b k = Ok b' ∧ tar_appended b' = tar_appended b ++ [object s].
Proof using BO AO.
  intros Hr Hw. destruct (append_object b s (merkle_bytes s)) as (b' & Hb & Happ).
  exists b'. split; [|done]. unfold write_node.
  rewrite (represents_weight g k _ Hr), hashed_label. simpl.
  destruct s as [n ts]. inversion Hr as [? ? ks ? Hwt Hn Hc Hi Heq]; subst.
  rewrite Hn, (tar_child_entries g ks ts Hc).
  cbn [mbind result_bind HashedNode_new hashed_kind hashed_inner hashed_hash label].
  pose proof (merkle_bytes_ok _ Hw) as Hmb. unfold merkle_node, stored_node in Hmb. simpl in Hmb.
  rewrite Hmb. cbn [map_err mbind result_bind]. unfold write_tar_entry. by rewrite Hb.
Qed.

Lemma write_nodes_spec g t order b :
  writable t →
  Forall (λ k, ∃ s, s ∈ descendants t ∧ represents g k (hashed s)) order →
  ∃ b' ss, write_nodes g order b = Ok b' ∧ tar_appended b' = tar_appended b ++ (object <$> ss) ∧
    Forall2 (λ k s, represents g k (hashed s)) order ss ∧ Forall (λ s, s ∈ descendants t) ss.
Proof using BO AO.
  intros Hw Hord. revert b. induction Hord as [|k order (s & Hs & Hk) Hord IH]; intros b.
  - exists b, []. csimpl. by rewrite app_nil_r.
  - destruct (write_node_spec g b k s Hk (everywhere_below _ _ _ Hw Hs)) as (b1 & Hb1 & Ha1).
    destruct (IH b1) as (b2 & ss & Hb2 & Ha2 & Hss & Hd). exists b2, (s :: ss).
    split_and!; [| |by constructor|by constructor].
    + simpl. by rewrite Hb1.
    + rewrite Ha2, Ha1, <- (assoc_L (++)). done.
Qed.

(** The archive of a hashed tree holds its nodes and the reference to the
    root. *)
Lemma TarWriter_new_spec o t :
  writable t → represents (graph o) (root_idx o) (hashed t) →
  ∃ bytes ss, TarWriter_new o = Ok bytes ∧
    tar_unpack bytes =
      Ok ((object <$> ss) ++ [(ref_path (str "root"), hash_to_string (merkle t))]) ∧
    ∀ s, s ∈ ss ↔ s ∈ descendants t.
Proof using BO AO PO.
  intros Hw Hr. destruct (represents_dfs _ _ _ Hr) as [Hv _].
  destruct (write_nodes_spec (graph o) t (dfs_post_order (graph o) (root_idx o)) tar_new Hw)
    as (b & ss & Hb & Ha & Hss & Hd).
  { apply Forall_forall. intros k Hk%Hv. destruct (represents_rtc _ _ _ Hk _ Hr) as (c & Hc & Hin).
    rewrite descendants_hashed in Hin. apply list_elem_of_fmap in Hin as (s & -> & Hs). eauto. }
  destruct (tar_append_ok b (ref_path (str "root")) (hash_to_string (merkle t)))
    as (b1 & Hb1 & Ha1); [by apply (bool_decide_unpack _)|].
  destruct (tar_finish_ok b1) as (bytes & Hf & Hu). exists bytes, ss. split_and!.
  - unfold TarWriter_new. rewrite Hb, (represents_weight _ _ _ Hr), hashed_label.
    cbn [mbind result_bind ok_or HashedNode_new hashed_hash].
    unfold write_tar_entry. rewrite Hb1. cbn [mbind result_bind map_err]. by rewrite Hf.
  - by rewrite Hu, Ha1, Ha, tar_new_appended.
  - intros s. split; [by rewrite Forall_forall in Hd; auto|]. intros Hs.
    destruct (represents_reaches _ _ _ (hashed s) Hr) as (j & Hj & Hjs).
    { rewrite descendants_hashed. by apply list_elem_of_fmap_2. }
    apply Hv, list_elem_of_lookup_1 in Hj as [n Hn].
    destruct (Forall2_lookup_l _ _ _ _ _ Hss Hn) as (s' & Hs' & Hjs').
    rewrite (hashed_inj _ _ (represents_functional _ _ _ _ Hjs Hjs')).
    by eapply list_elem_of_lookup_2.
Qed.

(** *** The archive as a map *)

Lemma tar_map_lookup es p data :
  (∃ e, e ∈ es ∧ e.1 = p) → (∀ e, e ∈ es → e.1 = p → e.2 = data) →
  tar_map es !! p = Some data.
Proof using Type.
  induction es as [|[p' d] es IH] using rev_ind; intros (e & He & Hp) Hall.
  { by apply elem_of_nil in He. }
  unfold tar_map. rewrite foldl_snoc. simpl. destruct (decide (p' = p)) as [->|Hne].
  - rewrite lookup_insert_eq. f_equal. apply (Hall (p, d)); [|done].
    rewrite elem_of_app. right. by left.
  - rewrite lookup_insert_ne by done. apply IH.
    + exists e. split; [|done]. rewrite elem_of_app, list_elem_of_singleton in He.
      destruct He as [He|He]; [done|]. by subst e.
    + intros e' He'. apply Hall. rewrite elem_of_app. by left.
Qed.

(** The archive of a tree without hash collisions holds every node. *)
Lemma archive_holds t ss :
  collision_free t t →
  (∀ s, s ∈ ss ↔ s ∈ descendants t) →
  let m := tar_map ((object <$> ss) ++
             [(ref_path (str "root"), hash_to_string (merkle t))]) in
  holds m t ∧ m !! ref_path (str "root") = Some (hash_to_string (merkle t)).
Proof using BO.
  intros Hcf Hss m. split.
  - intros s Hs. apply tar_map_lookup.
    + exists (object s). rewrite elem_of_app. split; [|done]. left.
      by apply list_elem_of_fmap_2, Hss.
    + intros e [(s' & -> & Hs')%list_elem_of_fmap|He%list_elem_of_singleton]%elem_of_app Hp.
      * by apply Hcf; [apply Hss|done|apply object_path_inj].
      * by subst e.
  - apply tar_map_lookup.
    + eexists. rewrite elem_of_app, list_elem_of_singleton. by split; [right|].
    + intros e [(s' & -> & Hs')%list_elem_of_fmap|He%list_elem_of_singleton]%elem_of_app Hp;
        [done|by subst e].
Qed.

Lemma read_archive m bytes entries t fuel :
  tar_unpack bytes = Ok entries → m = tar_map entries →
  storable good t → holds m t →
  m !! ref_path (str "root") = Some (hash_to_string (merkle t)) →
  tree_size t ≤ fuel → (N.of_nat (tree_size t) ≤ index_end)%N →
  ∃ o, read_from_tar fuel bytes = Some (Ok o) ∧
    represents (graph o) (root_idx o) (read_back canon t).
Proof using BO FO PO.
  intros Hu -> Ht Hm Hroot Hf Hsz. unfold read_from_tar. rewrite Hu. cbn zeta.
  unfold get_root_ref. rewrite Hroot. cbn [ok_or mbind result_bind].
  rewrite hash_utf8, hash_roundtrip. cbn [ok_or mbind result_bind].
  destruct (everywhere_inv _ _ Hm) as [Hmt _]. rewrite (get_node_stored _ t Ht Hmt).
  cbn [ok_or mbind result_bind].
  rewrite <- (tree_size_read_back t Ht) in Hf, Hsz.
  destruct (build_loop_tree hnwe_node (read_children (tar_map entries))
              (ReadTree MultipleRootNode) _ _ fuel (read_unfolds _ t Ht Hm) Hf Hsz)
    as (g & i & -> & Hr & _).
  by exists {| graph := g; root_idx := i |}.
Qed.

Lemma export_import (n : NodeWithChildren T) fuel :
  storable good (node_tree n) → collision_free (node_tree n) (node_tree n) →
  (N.of_nat (nodes_of n) ≤ index_end)%N → nodes_of n ≤ fuel →
  ∃ o bytes o',
    ObjectTree_create_from_root n = Some (Ok o) ∧ TarWriter_new o = Ok bytes ∧
    read_from_tar fuel bytes = Some (Ok o') ∧
    represents (graph o') (root_idx o') (read_back canon (node_tree n)).
Proof using BO AO PO FO.
  intros Ht Hcf Hsz Hf. pose proof (storable_writable _ Ht) as Hw.
  destruct (create_from_root_spec n Hw Hsz) as (o & Ho & Hr).
  destruct (TarWriter_new_spec o _ Hw Hr) as (bytes & ss & Hb & Hu & Hss).
  destruct (archive_holds _ ss Hcf Hss) as [Hm Hroot].
  rewrite <- nodes_of_tree in Hsz, Hf.
  destruct (read_archive _ bytes _ _ fuel Hu eq_refl Ht Hm Hroot Hf Hsz) as (o' & Ho' & Hr').
  eauto 10.
Qed.

(** C8: Exporting and importing an object tree: a tree of storable nodes
    without hash collisions is created, written and read back without an
    error, with any fuel that allows as many nodes as the tree has; the tree
    that is read has the same hash and the same value at every node, the
    children of every node ordered by name. *)
Theorem tar_roundtrip (n : NodeWithChildren T) fuel :
  storable good (node_tree n) → collision_free (node_tree n) (node_tree n) →
  (N.of_nat (nodes_of n) ≤ index_end)%N → nodes_of n ≤ fuel →
  ∃ o bytes o',
    ObjectTree_create_from_root n = Some (Ok o) ∧ TarWriter_new o = Ok bytes ∧
    read_from_tar fuel bytes = Some (Ok o') ∧
    ∀ t, represents (graph o') (root_idx o') t ↔ t = read_back canon (node_tree n).
Proof using BO AO PO FO.
  intros Ht Hcf Hsz Hf.
  destruct (export_import n fuel Ht Hcf Hsz Hf) as (o & bytes & o' & Ho & Hb & Ho' & Hr).
  exists o, bytes, o'. split_and!; [done..|]. intros t. split; [|by intros ->].
  intros Hr'. by apply (represents_functional _ _ _ _ Hr').
Qed.

(** Archives are content addressed: whatever is written for an object tree
    is a list of objects, each stored under the hash of its own bytes and
    readable as a node, and a reference to the hash of the root; every node of
    the tree is there. *)
Theorem archive_is_content_addressed (n : NodeWithChildren T) :
  storable good (node_tree n) → (N.of_nat (nodes_of n) ≤ index_end)%N →
  ∃ o bytes objects,
    ObjectTree_create_from_root n = Some (Ok o) ∧ TarWriter_new o = Ok bytes ∧
    tar_unpack bytes =
      Ok (objects ++ [(ref_path (str "root"), hash_to_string (merkle (node_tree n)))]) ∧
    Forall (λ e, e.1 = object_path (hash_new e.2) ∧
                 ∃ node, from_bytes (T := T) e.2 = Ok (Some node) ∧
                         verify_hash (hash_new e.2) node = Ok ()) objects ∧
    ∀ s, s ∈ descendants (node_tree n) → (object_path (merkle s), merkle_bytes s) ∈ objects.
Proof using BO AO PO FO.
  intros Ht Hsz. pose proof (storable_writable _ Ht) as Hw.
  destruct (create_from_root_spec n Hw Hsz) as (o & Ho & Hr).
  destruct (TarWriter_new_spec o _ Hw Hr) as (bytes & ss & Hb & Hu & Hss).
  exists o, bytes, (object <$> ss). split_and!; [done..| |].
  - apply Forall_fmap, Forall_forall. intros s Hs%Hss. simpl.
    split; [by rewrite merkle_eq|].
    pose proof (storable_node s (everywhere_below _ _ _ Ht Hs)) as Hg.
    destruct (read_written_node good canon _ Hg) as (bs & Hbs & Hrd).
    pose proof (merkle_bytes_ok s (everywhere_below _ _ _ Hw Hs)) as Hmb.
    assert (bs = merkle_bytes s) as -> by congruence.
    exists (node_canon canon (merkle_node s)). split; [unfold from_bytes; by rewrite Hrd|].
    by apply verify_hash_own, (canon_writes good).
  - intros s Hs. by apply (list_elem_of_fmap_2 object), Hss.
Qed.

Lemma merkle_nodes_equal s1 s2 :
  storable good s1 → storable good s2 → merkle_bytes s1 = merkle_bytes s2 →
  node_canon canon (merkle_node s1) = node_canon canon (merkle_node s2).
Proof using BO FO.
  intros H1 H2 Hb.
  destruct (read_written_node good canon _ (storable_node s1 H1)) as (b1 & Hw1 & Hr1).
  destruct (read_written_node good canon _ (storable_node s2 H2)) as (b2 & Hw2 & Hr2).
  rewrite (merkle_bytes_ok _ (storable_writable _ H1)) in Hw1.
  rewrite (merkle_bytes_ok _ (storable_writable _ H2)) in Hw2. congruence.
Qed.

(** Two trees with the same root hash are the same tree: if no two nodes
    of them collide, the trees that are read back are equal. *)
Theorem equal_hashes_equal_trees (t1 t2 : tree (Node T)) :
  storable good t1 → storable good t2 → collision_free t1 t2 →
  merkle t1 = merkle t2 → read_back canon t1 = read_back canon t2.
Proof using BO FO.
  revert t2. induction t1 as [n1 ts1 IH] using tree_children_ind. intros t2 H1 H2 Hcf Hm.
  pose proof (Hcf _ _ (descendants_self _) (descendants_self _) Hm) as Hb.
  pose proof (merkle_nodes_equal _ _ H1 H2 Hb) as Hn.
  rewrite (read_back_eq (TNode n1 ts1)), (read_back_eq t2). f_equal.
  { unfold read_node. by rewrite Hn, Hm. }
  apply (f_equal node_entries) in Hn. rewrite !node_entries_sorted in Hn.
  rewrite !read_back_children by done.
  destruct (everywhere_inv _ _ H1) as [_ Hc1]. destruct (everywhere_inv _ _ H2) as [_ Hc2].
  apply list_eq_Forall2 in Hn. rewrite Forall2_fmap in Hn.
  apply list_eq_Forall2, Forall2_fmap_2.
  apply (Forall2_impl_in _ _ _ _ Hn). intros c1 c2 Hin1 Hin2 He.
  rewrite sort_by_perm, elem_of_reverse in Hin1, Hin2.
  rewrite Forall_forall in IH. apply (IH c1 Hin1); [by apply Hc1|by apply Hc2| |].
  - intros s1 s2 Hs1 Hs2. by apply Hcf; eapply descendants_child.
  - by apply (f_equal entry_hash) in He.
Qed.

(** *** Writing what was read *)

(** The tree whose hashed version is read back, if the names of siblings
    differ. *)
Fixpoint canonical (t : tree (Node T)) : tree (Node T) :=
  match t with
  | TNode n ts =>
      TNode {| kind := kind n; inner := canon (inner n) |}
        (sort_by node_name (reverse (canonical <$> ts)))
  end.

Definition distinct_names : tree (Node T) → Prop :=
  everywhere (λ s, NoDup (node_name <$> subtrees s)).

Lemma canonical_name t : storable good t → node_name (canonical t) = node_name t.
Proof using FO.
  intros [(Hg & _) _]%everywhere_inv. destruct t as [n ts].
  by apply (inner_canon_name n.(inner)).
Qed.

Lemma canonical_children t :
  storable good t →
  subtrees (canonical t) = canonical <$> sort_by node_name (reverse (subtrees t)).
Proof using FO.
  intros Ht. destruct (everywhere_inv _ _ Ht) as [_ Hc]. destruct t as [n ts]. simpl.
  rewrite <- fmap_reverse. apply sort_by_fmap, Forall_reverse, Forall_forall. intros c Hin.
  by apply canonical_name, Hc.
Qed.

Lemma canonical_eq t :
  canonical t = TNode {| kind := kind (label t); inner := canon (inner (label t)) |}
                  (subtrees (canonical t)).
Proof using Type. by destruct t. Qed.

Lemma canonical_bytes t :
  storable good t → distinct_names t →
  Forall (λ c, merkle (canonical c) = merkle c) (subtrees t) →
  merkle_bytes (canonical t) = merkle_bytes t.
Proof using FO.
  intros Ht [Hd _]%everywhere_inv Hm.
  destruct (everywhere_inv _ _ Ht) as [(Hg & _) Hc].
  unfold merkle_bytes, merkle_node, stored_node. f_equal. rewrite canonical_eq. simpl.
  rewrite (canonical_children _ Ht). symmetry. apply write_same_entries.
  - symmetry. by apply inner_canon_bytes.
  - rewrite !reverse_Permutation, sort_by_perm, reverse_Permutation, <- list_fmap_compose.
    erewrite Forall_fmap_ext_1; [done|]. eapply Forall_impl_in; [exact Hm|]. simpl.
    intros c Hin Hmc. unfold entry_of. rewrite Hmc.
    pose proof (canonical_name c (Hc c Hin)) as Hn. unfold node_name in Hn. rewrite Hn.
    by destruct c.
  - rewrite fmap_reverse, reverse_Permutation, <- list_fmap_compose. exact Hd.
Qed.

Lemma merkle_canonical t :
  storable good t → distinct_names t → merkle (canonical t) = merkle t.
Proof using FO.
  induction t as [n ts IH] using tree_children_ind. intros Ht Hd.
  rewrite !merkle_eq. f_equal. apply canonical_bytes; [done|done|].
  destruct (everywhere_inv _ _ Ht) as [_ Hc]. destruct (everywhere_inv _ _ Hd) as [_ Hdc].
  rewrite Forall_forall in IH |- *. intros c Hin. by apply IH; [|apply Hc|apply Hdc].
Qed.

Lemma canonical_object t : storable good t → distinct_names t → object (canonical t) = object t.
Proof using FO.
  intros Ht Hd. unfold object. rewrite merkle_canonical by done. f_equal.
  destruct (everywhere_inv _ _ Ht) as [_ Hc]. destruct (everywhere_inv _ _ Hd) as [_ Hdc].
  apply canonical_bytes; [done|done|]. apply Forall_forall. intros c Hin.
  by apply merkle_canonical; [apply Hc|apply Hdc].
Qed.

Lemma hashed_canonical t :
  storable good t → distinct_names t → hashed (canonical t) = read_back canon t.
Proof using FO.
  induction t as [n ts IH] using tree_children_ind. intros Ht Hd.
  rewrite (canonical_eq (TNode n ts)), (read_back_eq (TNode n ts)), read_back_children by done.
  cbn [hashed]. f_equal.
  - rewrite <- canonical_eq, merkle_canonical by done. done.
  - destruct (everywhere_inv _ _ Ht) as [_ Hc]. destruct (everywhere_inv _ _ Hd) as [_ Hdc].
    rewrite canonical_children, <- list_fmap_compose by done. apply Forall_fmap_ext_1.
    rewrite sort_by_perm, Forall_reverse. rewrite Forall_forall in IH |- *. intros c Hin.
    by apply IH; [|apply Hc|apply Hdc].
Qed.

Lemma descendants_canonical t :
  storable good t → descendants (canonical t) ≡ₚ canonical <$> descendants t.
Proof using FO.
  induction t as [n ts IH] using tree_children_ind. intros Ht.
  rewrite !descendants_eq, canonical_children, fmap_cons by done. apply perm_skip.
  destruct (everywhere_inv _ _ Ht) as [_ Hc]. rewrite sort_by_perm, reverse_Permutation.
  simpl in *. clear Ht. induction IH as [|t ts Ht _ IHts]; [done|]. csimpl.
  rewrite fmap_app. f_equiv; [by apply Ht, Hc; left|]. apply IHts.
  intros c Hin. apply Hc. by right.
Qed.

Lemma storable_canonical_writable t : storable good t → writable (canonical t).
Proof using FO.
  intros Ht s Hs. rewrite descendants_canonical in Hs by done.
  apply list_elem_of_fmap in Hs as (s' & -> & Hs').
  rewrite canonical_eq. simpl. destruct (everywhere_inv _ _ (everywhere_below _ _ _ Ht Hs'))
    as [(Hg & _) _].
  rewrite inner_canon_bytes by done. by apply (storable_writable _ Ht).
Qed.

(** Importing an archive and exporting it again changes nothing, as long as
    siblings have different names: the second archive has the same entries as
    the first. *)
Theorem reexport_same_objects (t : tree (Node T)) (o o' : ObjectTree T) :
  storable good t → distinct_names t →
  represents (graph o) (root_idx o) (hashed t) →
  represents (graph o') (root_idx o') (read_back canon t) →
  ∃ bytes bytes' entries entries',
    TarWriter_new o = Ok bytes ∧ tar_unpack bytes = Ok entries ∧
    TarWriter_new o' = Ok bytes' ∧ tar_unpack bytes' = Ok entries' ∧
    ∀ e, e ∈ entries ↔ e ∈ entries'.
Proof using BO AO PO FO.
  intros Ht Hd Hr Hr'. rewrite <- hashed_canonical in Hr' by done.
  destruct (TarWriter_new_spec o t (storable_writable _ Ht) Hr) as (b & ss & Hb & Hu & Hss).
  destruct (TarWriter_new_spec o' _ (storable_canonical_writable t Ht) Hr')
    as (b' & ss' & Hb' & Hu' & Hss').
  eexists b, b', _, _. split_and!; [exact Hb|exact Hu|exact Hb'|exact Hu'|]. intros e.
  rewrite !elem_of_app, (merkle_canonical t Ht Hd). f_equiv. rewrite !list_elem_of_fmap.
  setoid_rewrite Hss. setoid_rewrite Hss'. setoid_rewrite (descendants_canonical t Ht).
  setoid_rewrite list_elem_of_fmap. split.
  - intros (s & -> & Hs). exists (canonical s). split; [|eauto].
    symmetry. by apply canonical_object; eapply everywhere_below.
  - intros (? & -> & s & -> & Hs). exists s. split; [|done].
    by apply canonical_object; eapply everywhere_below.
Qed.

(** *** Archives nobody wrote *)

Lemma build_loop_cycle (m : gmap path (list Byte.byte)) n fuel : ∀ p g root,
  read_children m n = Ok [n] → (p = None → root = None) →
  build_loop (E := TarReadError) hnwe_node (read_children m) (ReadTree MultipleRootNode)
    fuel [(n, p)] g root = None ∨
  build_loop (E := TarReadError) hnwe_node (read_children m) (ReadTree MultipleRootNode)
    fuel [(n, p)] g root = Some (Err Panic).
Proof using Type.
  induction fuel as [|fuel IH]; intros p g root Hn Hp; [by left|]. simpl. unfold build_step.
  destruct (add_node g (hnwe_node n)) as [[i g1]|]; [|by right].
  destruct p as [q|]; simpl.
  - destruct (add_edge g1 q i) as [g2|]; [|by right]. rewrite Hn. simpl. by apply IH.
  - rewrite (Hp eq_refl), Hn. simpl. by apply IH.
Qed.

(** An archive whose root lists itself as its child is never read: however
    many nodes are allowed, reading neither succeeds nor reports an error, it
    adds nodes until the indices are exhausted. Nothing of it is checked
    against its hash. *)
Theorem self_reference_is_never_read bytes entries hash n e fuel :
  tar_unpack bytes = Ok entries →
  get_root_ref (tar_map entries) = Ok hash →
  get_node (T := T) (tar_map entries) hash = Ok (Some n) →
  hnwe_entries n = [e] → entry_hash e = hash →
  read_from_tar (T := T) fuel bytes = None ∨
  read_from_tar (T := T) fuel bytes = Some (Err Panic).
Proof using Type.
  intros Hu Hroot Hn He Hh. unfold read_from_tar. rewrite Hu. cbn zeta. rewrite Hroot.
  cbn [mbind result_bind]. rewrite Hn. cbn [mbind result_bind ok_or].
  assert (Hc : read_children (tar_map entries) n = Ok [n]).
  { unfold read_children. rewrite He. cbn. by rewrite Hh, Hn. }
  destruct (build_loop_cycle _ _ fuel None graph_new None Hc (λ _, eq_refl)) as [->| ->]; auto.
Qed.

(** Reading takes hashes on trust: a leaf stored under any hash at all is
    read as a node with that hash, whatever its bytes are. *)
Theorem stored_hash_is_trusted bytes hash (t : T) data fuel :
  good t →
  NodeWithEntries_write_bytes {| node_kind := Leaf; node_inner := t; node_entries := [] |} =
    Ok data →
  tar_unpack bytes = Ok [(object_path hash, data); (ref_path (str "root"), hash_to_string hash)] →
  ∃ o, read_from_tar (S fuel) bytes = Some (Ok o) ∧
    node_weight (graph o) (root_idx o) =
      Some {| hashed_kind := Leaf; hashed_hash := hash; hashed_inner := canon t |}.
Proof using BO PO FO.
  intros Ht Hw Hu. unfold read_from_tar. rewrite Hu. cbn zeta.
  set (m := tar_map _).
  assert (Hroot : m !! ref_path (str "root") = Some (hash_to_string hash)).
  { unfold m, tar_map. simpl. by rewrite lookup_insert_eq. }
  assert (Hobj : m !! object_path hash = Some data).
  { unfold m, tar_map. simpl. rewrite lookup_insert_ne by done. by rewrite lookup_insert_eq. }
  unfold get_root_ref. rewrite Hroot. cbn [ok_or mbind result_bind].
  rewrite hash_utf8, hash_roundtrip. cbn [ok_or mbind result_bind].
  unfold get_node. rewrite Hobj. cbn [ok_or mbind result_bind].
  destruct (read_written_node good canon
    {| node_kind := Leaf; node_inner := t; node_entries := [] |}) as (bs & Hbs & Hr); [done|].
  assert (bs = data) as -> by congruence. unfold from_bytes. rewrite Hr.
  cbn [ok_or mbind result_bind map_err option_map].
  set (n := from_node_with_entries_and_hash _ _).
  destruct (build_loop_tree hnwe_node (read_children m) (ReadTree MultipleRootNode)
    (TNode (hnwe_node n) []) n (S fuel)) as (g & i & -> & Hg & _).
  { by apply (unfolds_node _ _ n []). } { simpl. lia. } { done. }
  exists {| graph := g; root_idx := i |}. split; [done|]. by apply represents_weight in Hg.
Qed.

End tar_facts.
