(* ===== verification/ObjectSample.v ===== *)
(** * A graph and an archive format, for evaluation

    Concrete functions that behave as the classes [Petgraph] and [TarArchive]
    require, a small node type, and the object trees of the examples. *)

From S2P Require Import Prelude Bytes KeyValue NodeEntries ObjectGraph ObjectTar.
From Stdlib Require Import NArith Init.Byte.
From stdpp Require Import base tactics list sets gmap relations strings.

(** ** Graphs as lists of weights with their neighbors *)

Abbreviation list_graph N := (list (N * list nat)) (only parsing).

Definition lg_neighbors {N} (g : list_graph N) (i : nat) : list nat :=
  match g !! i with Some (_, ks) => ks | None => [] end.

Definition lg_weight {N} (g : list_graph N) (i : nat) : option N := fst <$> g !! i.

Definition lg_edge_count {N} (g : list_graph N) : nat := sum_list (length ∘ snd <$> g).

Definition lg_add_node {N} (g : list_graph N) (w : N) : option (nat * list_graph N) :=
  if (N.of_nat (length g) <? index_end)%N then Some (length g, g ++ [(w, [])]) else None.

Definition lg_add_edge {N} (g : list_graph N) (a b : nat) : option (list_graph N) :=
  match g !! a, g !! b with
  | Some (w, ks), Some _ =>
      if (N.of_nat (lg_edge_count g) <? index_end)%N then Some (<[a := (w, b :: ks)]> g) else None
  | _, _ => None
  end.

(** The nodes below [i] and then [i], repeated along every path. *)
Fixpoint lg_paths {N} (g : list_graph N) (fuel i : nat) : list nat :=
  match fuel with
  | O => []
  | S fuel => mjoin (lg_paths g fuel <$> lg_neighbors g i) ++ [i]
  end.

Definition keep_first (l : list nat) : list nat :=
  foldl (λ acc k, if decide (k ∈ acc) then acc else acc ++ [k]) [] l.

Definition list_petgraph : Petgraph := {|
  Graph N := list_graph N;
  graph_new N := [];
  node_count N := length;
  edge_count N := lg_edge_count;
  add_node N := lg_add_node;
  add_edge N := lg_add_edge;
  node_weight N := lg_weight;
  neighbors_outgoing N := lg_neighbors;
  dfs_post_order N g root := keep_first (lg_paths g (S (length g)) root);
|}.

(** *** Its traversal *)

Section traversal.
Context {N : Type} (g : list_graph N).
#[local] Existing Instance list_petgraph.

(** Every node comes after its neighbors. *)
Definition children_first (l : list nat) : Prop :=
  ∀ n k j, l !! n = Some k → j ∈ lg_neighbors g k → j ∈ take n l.

Lemma children_first_app l l' : children_first l → children_first l' → children_first (l ++ l').
Proof.
  intros Hl Hl' n k j [Hn|[Hle Hn]]%lookup_app_Some Hj.
  - rewrite take_app_le by (apply Nat.lt_le_incl; by eapply lookup_lt_Some). by apply (Hl n k).
  - rewrite take_app_ge by done. apply elem_of_app. right. by apply (Hl' _ k).
Qed.

Lemma children_first_snoc l k :
  children_first (l ++ [k]) ↔ children_first l ∧ ∀ j, j ∈ lg_neighbors g k → j ∈ l.
Proof.
  split.
  - intros H. split.
    + intros n i j Hn Hj. rewrite <- (take_app_le l [k]).
      * apply (H n i); [|done]. by apply lookup_app_l_Some.
      * apply Nat.lt_le_incl. by eapply lookup_lt_Some.
    + intros j Hj. rewrite <- (take_app_length l [k]). apply (H (length l) k); [|done].
      by apply list_lookup_middle.
  - intros [H Hk] n i j [Hn|[Hle Hn]]%lookup_app_Some Hj.
    + rewrite take_app_le by (apply Nat.lt_le_incl; by eapply lookup_lt_Some). by apply (H n i).
    + apply list_lookup_singleton_Some in Hn as [Hn <-].
      rewrite take_app_ge by done. apply elem_of_app. left. by apply Hk.
Qed.

Lemma keep_first_snoc l k :
  keep_first (l ++ [k]) = if decide (k ∈ keep_first l) then keep_first l else keep_first l ++ [k].
Proof. unfold keep_first. by rewrite foldl_snoc. Qed.

Lemma elem_of_keep_first l k : k ∈ keep_first l ↔ k ∈ l.
Proof.
  revert k. induction l as [|i l IH] using rev_ind; intros k; [done|].
  rewrite keep_first_snoc. case_decide as Hi; rewrite !elem_of_app, ?IH, list_elem_of_singleton;
    [|done]. rewrite IH in Hi. split; [by left|]. by intros [?| ->].
Qed.

Lemma NoDup_keep_first l : NoDup (keep_first l).
Proof.
  induction l as [|i l IH] using rev_ind; [constructor|]. rewrite keep_first_snoc.
  case_decide; [done|]. apply NoDup_app. split_and!; [done| |apply NoDup_singleton].
  intros k Hk ->%list_elem_of_singleton. done.
Qed.

Lemma children_first_keep_first l : children_first l → children_first (keep_first l).
Proof.
  induction l as [|i l IH] using rev_ind; [done|]. intros [Hl Hi]%children_first_snoc.
  rewrite keep_first_snoc. case_decide; [by apply IH|]. apply children_first_snoc.
  split; [by apply IH|]. intros j Hj. apply elem_of_keep_first. by apply Hi.
Qed.

(** Paths in an acyclic graph are not longer than the graph has nodes. *)
Lemma path_nodes n i j :
  (∀ k, rtc (edge g) i k → ¬ tc (edge g) k k) →
  nsteps (edge g) n i j →
  ∃ l, length l = n ∧ NoDup l ∧ Forall (λ k, rtc (edge g) i k ∧ k < length g) l.
Proof.
  intros Hac Hp. induction Hp as [i|n i i' j He Hp IH].
  { exists []. split_and!; [done|constructor|done]. }
  destruct IH as (l & Hlen & Hnd & Hall).
  { intros k Hk. apply Hac. by eapply rtc_l. }
  exists (i :: l). split_and!; [simpl; lia| |].
  - constructor; [|done]. intros Hin. rewrite Forall_forall in Hall.
    destruct (Hall i Hin) as [Hr _]. by apply (Hac i (rtc_refl _ _)), (tc_rtc_r _ i'); [constructor|].
  - constructor.
    + split; [done|]. unfold edge in He. simpl in He. unfold lg_neighbors in He.
      destruct (g !! i) eqn:Hi; [by eapply lookup_lt_Some|by apply elem_of_nil in He].
    + eapply Forall_impl; [exact Hall|]. intros k [Hk Hlt]. split; [by eapply rtc_l|done].
Qed.

Lemma path_bound n i j :
  (∀ k, rtc (edge g) i k → ¬ tc (edge g) k k) → nsteps (edge g) n i j → n ≤ length g.
Proof.
  intros Hac (l & <- & Hnd & Hall)%path_nodes; [|done].
  rewrite <- (length_seq (length g) 0). apply submseteq_length, NoDup_submseteq; [done|].
  rewrite Forall_forall in Hall. intros k [_ Hk]%Hall. apply elem_of_seq. lia.
Qed.

Lemma lg_paths_spec fuel i :
  (∀ n j, nsteps (edge g) n i j → n < fuel) →
  children_first (lg_paths g fuel i) ∧ ∀ k, k ∈ lg_paths g fuel i ↔ rtc (edge g) i k.
Proof.
  revert i. induction fuel as [|fuel IH]; intros i Hb.
  { specialize (Hb 0 i (nsteps_O _ i)). lia. }
  assert (Hnb : ∀ j, j ∈ lg_neighbors g i → children_first (lg_paths g fuel j) ∧
                  ∀ k, k ∈ lg_paths g fuel j ↔ rtc (edge g) j k).
  { intros j Hj. apply IH. intros n k Hn.
    pose proof (Hb (S n) k (nsteps_l _ _ _ _ _ Hj Hn)). lia. }
  simpl. split.
  - apply children_first_snoc. split.
    + clear Hb IH. induction (lg_neighbors g i) as [|j ks IHks]; [done|].
      csimpl. apply children_first_app; [apply Hnb; by left|].
      apply IHks. intros j' Hj'. apply Hnb. by right.
    + intros j Hj. apply list_elem_of_join. eexists. split; [|by apply list_elem_of_fmap_2].
      by apply Hnb.
  - intros k. rewrite elem_of_app, list_elem_of_singleton, list_elem_of_join. split.
    + intros [(l & Hk & (j & -> & Hj)%list_elem_of_fmap)| ->]; [|done].
      apply rtc_l with j; [done|]. by apply (Hnb j Hj).
    + intros Hr. inversion Hr as [|? j ? He Hj]; subst; [by right|]. left.
      eexists. split; [|by apply list_elem_of_fmap_2]. by apply (Hnb j He).
Qed.

End traversal.

(** *** Its updates *)

Lemma lg_edge_count_snoc {N} (g : list_graph N) w :
  lg_edge_count (g ++ [(w, [])]) = lg_edge_count g.
Proof. unfold lg_edge_count. induction g; csimpl; lia. Qed.

Lemma lg_edge_count_insert {N} (g : list_graph N) a w ks b :
  g !! a = Some (w, ks) → lg_edge_count (<[a := (w, b :: ks)]> g) = S (lg_edge_count g).
Proof.
  unfold lg_edge_count. revert a.
  induction g as [|x g IH]; intros [|a] Ha; simplify_eq/=; [done|].
  rewrite (IH a Ha). lia.
Qed.

Lemma lg_add_node_spec {N} (g g' : list_graph N) w i :
  lg_add_node g w = Some (i, g') →
  lg_weight g i = None ∧ lg_weight g' i = Some w ∧ lg_neighbors g' i = [] ∧
  (∀ j, j ≠ i → lg_weight g' j = lg_weight g j ∧ lg_neighbors g' j = lg_neighbors g j) ∧
  length g' = S (length g) ∧ lg_edge_count g' = lg_edge_count g.
Proof.
  unfold lg_add_node. case_match; [|done]. intros [= <- <-].
  unfold lg_weight, lg_neighbors. split_and!.
  - by rewrite lookup_ge_None_2.
  - by rewrite list_lookup_middle.
  - by rewrite list_lookup_middle.
  - intros j Hj. destruct (decide (j < length g)) as [Hlt|Hge].
    + by rewrite lookup_app_l.
    + rewrite (lookup_ge_None_2 g j), (lookup_ge_None_2 (g ++ _) j); [done| |lia].
      rewrite length_app. simpl. lia.
  - rewrite length_app. simpl. lia.
  - apply lg_edge_count_snoc.
Qed.

Lemma lg_add_edge_spec {N} (g g' : list_graph N) a b :
  lg_add_edge g a b = Some g' →
  (∀ j, lg_weight g' j = lg_weight g j) ∧
  lg_neighbors g' a = b :: lg_neighbors g a ∧
  (∀ j, j ≠ a → lg_neighbors g' j = lg_neighbors g j) ∧
  length g' = length g ∧ lg_edge_count g' = S (lg_edge_count g).
Proof.
  unfold lg_add_edge. destruct (g !! a) as [[w ks]|] eqn:Ha; [|done].
  destruct (g !! b); [|done]. case_match; [|done]. intros [= <-].
  assert (Hlt : a < length g) by (by eapply lookup_lt_Some).
  unfold lg_weight, lg_neighbors. split_and!.
  - intros j. destruct (decide (j = a)) as [->|Hne].
    + by rewrite list_lookup_insert_eq, Ha.
    + by rewrite list_lookup_insert_ne.
  - by rewrite list_lookup_insert_eq, Ha.
  - intros j Hj. by rewrite list_lookup_insert_ne.
  - apply length_insert.
  - by apply lg_edge_count_insert.
Qed.

Lemma list_dfs_visits {N} (g : list_graph N) root :
  (∀ k, rtc (edge (H := list_petgraph) g) root k → ¬ tc (edge (H := list_petgraph) g) k k) →
  children_first g (lg_paths g (S (length g)) root) ∧
  ∀ k, k ∈ lg_paths g (S (length g)) root ↔ rtc (edge (H := list_petgraph) g) root k.
Proof.
  intros Hac. apply lg_paths_spec. intros n j Hn. pose proof (path_bound g n root j Hac Hn). lia.
Qed.

#[export] Instance list_petgraph_ok : PetgraphOk list_petgraph.
Proof.
  split; [done|done|done|..].
  - intros N g w Hlt%N.ltb_lt. change (is_Some (lg_add_node g w)). unfold lg_add_node.
    change (node_count g) with (length g) in Hlt. rewrite Hlt. by eexists.
  - intros N. apply lg_add_node_spec.
  - intros N g a b Ha Hb Hlt%N.ltb_lt. change (is_Some (lg_add_edge g a b)).
    change (edge_count g) with (lg_edge_count g) in Hlt. unfold lg_add_edge.
    apply fmap_is_Some in Ha as [[w ks] ->], Hb as [? ->]. rewrite Hlt. by eexists.
  - intros N. apply lg_add_edge_spec.
  - intros N g root _ Hac. destruct (list_dfs_visits g root Hac) as [_ Hv].
    split; [apply NoDup_keep_first|]. intros i. rewrite <- Hv. apply elem_of_keep_first.
  - intros N g root l1 i l2 j _ Hac Hl Hj. destruct (list_dfs_visits g root Hac) as [Hcf _].
    apply children_first_keep_first in Hcf.
    change (keep_first (lg_paths g (S (length g)) root) = l1 ++ i :: l2) in Hl.
    rewrite Hl in Hcf. rewrite <- (take_app_length l1 (i :: l2)).
    apply (Hcf (length l1) i); [by apply list_lookup_middle|done].
Qed.

(** ** Archives as marked bytes *)

(** Every byte after [x01], the end of a path component as [x02] and the end
    of the data of an entry as [x04]. *)
Definition mark (end_ : Byte.byte) (bs : list Byte.byte) : list Byte.byte :=
  foldr (λ b rest, x01 :: b :: rest) [end_] bs.

Definition mark_entry (e : path * list Byte.byte) : list Byte.byte :=
  mjoin (mark x02 <$> e.1) ++ mark x04 e.2.

Fixpoint unmark (l cur : list Byte.byte) (comps : path) (acc : list (path * list Byte.byte)) :
    option (list (path * list Byte.byte)) :=
  match l with
  | [] => Some (reverse acc)
  | x01 :: b :: l => unmark l (b :: cur) comps acc
  | x02 :: l => unmark l [] (reverse cur :: comps) acc
  | x04 :: l => unmark l [] [] ((reverse comps, reverse cur) :: acc)
  | _ => None
  end.

Definition list_tar : TarArchive := {|
  TarIoError := ();
  TarBuilder := list (path * list Byte.byte);
  tar_new := [];
  tar_append b p data :=
    if decide (sum_list (S ∘ length <$> p) ≤ 100) then Ok (b ++ [(p, data)]) else Err ();
  tar_finish b := Ok (mjoin (mark_entry <$> b));
  tar_unpack bytes :=
    match unmark bytes [] [] [] with Some es => Ok es | None => Err () end;
|}.

Lemma unmark_mark end_ bs rest cur comps acc :
  unmark (mark end_ bs ++ rest) cur comps acc =
  unmark (end_ :: rest) (reverse bs ++ cur) comps acc.
Proof.
  revert cur. induction bs as [|b bs IH]; intros cur; [done|].
  change (mark end_ (b :: bs)) with (x01 :: b :: mark end_ bs). cbn [app unmark].
  by rewrite IH, reverse_cons, <- (assoc_L (++)).
Qed.

Lemma unmark_path (p : path) rest comps acc :
  unmark (mjoin (mark x02 <$> p) ++ rest) [] comps acc = unmark rest [] (reverse p ++ comps) acc.
Proof.
  revert comps. induction p as [|c p IH]; intros comps; [done|]. csimpl.
  rewrite <- (assoc_L (++)), unmark_mark. cbn [unmark].
  by rewrite IH, (right_id_L [] (++)), reverse_involutive, reverse_cons, <- (assoc_L (++)).
Qed.

Lemma unmark_entries b acc :
  unmark (mjoin (mark_entry <$> b)) [] [] acc = Some (reverse acc ++ b).
Proof.
  revert acc. induction b as [|[p data] b IH]; intros acc; csimpl.
  - by rewrite (right_id_L [] (++)).
  - unfold mark_entry at 1. simpl.
    rewrite <- !(assoc_L (++)), unmark_path, unmark_mark. cbn [unmark].
    rewrite IH, !(right_id_L [] (++)), !reverse_involutive, reverse_cons, <- (assoc_L (++)). done.
Qed.

#[export] Instance list_tar_ok : TarArchiveOk list_tar.
Proof.
  refine {| tar_appended := (λ b, b) : TarBuilder (TarArchive := list_tar) → _ |}.
  - done.
  - intros b p data Hp. exists (b ++ [(p, data)]). split; [|done]. simpl. by rewrite decide_True.
  - intros b. eexists. split; [done|]. simpl. by rewrite unmark_entries.
Qed.

(** ** Examples *)

Section examples.
#[local] Existing Instances sample_blake3 sample_blake3_ok sample_format sample_format_ok.
#[local] Existing Instances list_petgraph list_tar.

Abbreviation sample_tree := (NodeWithChildren (list Byte.byte)).

Definition leaf (name : string) : sample_tree := NodeWithChildren_new Leaf (str name) [].
Definition branch (name : string) (children : list sample_tree) : sample_tree :=
  NodeWithChildren_new Tree (str name) children.

(** A package with two kinds of children and a shared leaf. *)
Definition sample_object : sample_tree :=
  branch "package" [branch "schemas" [leaf "b"; leaf "a"]; branch "funcs" [leaf "a"]].

(** Two children with the same name. *)
Definition sample_twins : sample_tree :=
  branch "edges" [branch "edge" [leaf "x"]; branch "edge" [leaf "y"]].

(** The entries of the archive that is written for a tree, and of the one that
    is written for the tree read from it. *)
Definition exported (o : option (result (fault GraphError) (ObjectTree (list Byte.byte)))) :
    option (list Byte.byte) :=
  match o with
  | Some (Ok o) => match TarWriter_new o with Ok bytes => Some bytes | Err _ => None end
  | _ => None
  end.

Definition reexported (bytes : list Byte.byte) : option (list Byte.byte) :=
  match read_from_tar (T := list Byte.byte) 100 bytes with
  | Some (Ok o) => match TarWriter_new o with Ok bytes => Some bytes | Err _ => None end
  | _ => None
  end.

(** Every object of an archive is stored under the hash of its bytes. *)
Definition content_addressed (bytes : list Byte.byte) : bool :=
  match tar_unpack bytes with
  | Ok entries =>
      forallb (λ e, bool_decide (e.1 = object_path (hash_new e.2) ∨ e.1 = ref_path (str "root")))
        entries
  | Err _ => false
  end.

(** Siblings with the same name break the archive on the second export:
    the first archive stores every object under the hash of its bytes, it is
    read without an error, and the archive written for the tree that was read
    holds an object under the hash of other bytes. *)
Theorem equal_names_break_reexport :
  ∃ bytes bytes',
    exported (ObjectTree_create_from_root sample_twins) = Some bytes ∧
    content_addressed bytes = true ∧
    reexported bytes = Some bytes' ∧
    content_addressed bytes' = false.
Proof.
  assert (H : match exported (ObjectTree_create_from_root sample_twins) with
              | Some bytes => content_addressed bytes &&
                  match reexported bytes with
                  | Some bytes' => negb (content_addressed bytes')
                  | None => false
                  end
              | None => false
              end = true) by (vm_compute; reflexivity).
  destruct (exported _) as [bytes|]; [|done]. apply andb_true_iff in H as [Hc H].
  destruct (reexported bytes) as [bytes'|] eqn:Hr; [|done].
  exists bytes, bytes'. split_and!; [done..|]. by apply negb_true_iff.
Qed.

(** *** The examples satisfy the hypotheses *)

Lemma sample_storable (n : sample_tree) :
  forallb (λ s, forallb ascii_byte (node_name s) && (length (node_name s) <? 100) &&
                bool_decide (NL ∉ node_name s) && bool_decide (last (node_name s) ≠ Some CR) &&
                bool_decide (kind (label s) = Leaf → length (subtrees s) = 0))
    (descendants (node_tree n)) = true →
  storable text (node_tree n).
Proof.
  intros H s Hs. apply list_elem_of_In in Hs. rewrite forallb_forall in H.
  specialize (H s Hs). rewrite !andb_true_iff, !bool_decide_eq_true, Nat.ltb_lt in H.
  destruct H as ((((Ha & Hlen) & Hnl) & Hcr) & Hk).
  assert (Ht : text (node_name s)) by (apply text_short; [done|lia]).
  split_and!; [exact Ht|apply Ht|done|done|].
  intros Hl. by apply length_zero_iff_nil, Hk.
Qed.

Definition digests (t : tree (Node (list Byte.byte))) : list (Hash * list Byte.byte) :=
  (λ s, (merkle s, merkle_bytes s)) <$> descendants t.

Lemma sample_collision_free (t1 t2 : tree (Node (list Byte.byte))) :
  (let d2 := digests t2 in
   forallb (λ d1, forallb (λ d, bool_decide (d1.1 = d.1 → d1.2 = d.2)) d2) (digests t1)) = true →
  collision_free t1 t2.
Proof.
  cbn zeta. rewrite forallb_forall. intros H s1 s2 H1 H2.
  assert (Hd : ∀ s t, s ∈ descendants t → In (merkle s, merkle_bytes s) (digests t)).
  { intros s t Hs. apply list_elem_of_In. unfold digests. by apply (list_elem_of_fmap_2 (λ s, (merkle s, merkle_bytes s))). }
  specialize (H _ (Hd _ _ H1)). rewrite forallb_forall in H. specialize (H _ (Hd _ _ H2)).
  by apply bool_decide_eq_true in H.
Qed.

Lemma create_from_root_correct_witness :
  ∃ o, ObjectTree_create_from_root sample_object = Some (Ok o) ∧
    ∀ t, represents (graph o) (root_idx o) t ↔ t = hashed (node_tree sample_object).
Proof.
  apply create_from_root_correct; [|done].
  by apply (storable_writable text id), sample_storable; vm_compute.
Defined.

Lemma tar_roundtrip_witness :
  ∃ o bytes o',
    ObjectTree_create_from_root sample_object = Some (Ok o) ∧ TarWriter_new o = Ok bytes ∧
    read_from_tar 7 bytes = Some (Ok o') ∧
    ∀ t, represents (graph o') (root_idx o') t ↔ t = read_back id (node_tree sample_object).
Proof.
  apply (tar_roundtrip text id); [| |done|vm_compute; lia].
  - by apply sample_storable; vm_compute.
  - by apply sample_collision_free; vm_compute.
Defined.

Lemma archive_is_content_addressed_witness :
  ∃ o bytes objects,
    ObjectTree_create_from_root sample_twins = Some (Ok o) ∧ TarWriter_new o = Ok bytes ∧
    tar_unpack bytes =
      Ok (objects ++ [(ref_path (str "root"), hash_to_string (merkle (node_tree sample_twins)))]) ∧
    Forall (λ e, e.1 = object_path (hash_new e.2) ∧
                 ∃ node, from_bytes (T := list Byte.byte) e.2 = Ok (Some node) ∧
                         verify_hash (hash_new e.2) node = Ok ()) objects ∧
    ∀ s, s ∈ descendants (node_tree sample_twins) →
      (object_path (merkle s), merkle_bytes s) ∈ objects.
Proof.
  apply (archive_is_content_addressed text id); [|done].
  by apply sample_storable; vm_compute.
Defined.

(** The same children in another order. *)
Definition sample_object' : sample_tree :=
  branch "package" [branch "funcs" [leaf "a"]; branch "schemas" [leaf "a"; leaf "b"]].

Lemma equal_hashes_equal_trees_witness :
  merkle (node_tree sample_object) = merkle (node_tree sample_object') ∧
  read_back id (node_tree sample_object) = read_back id (node_tree sample_object').
Proof.
  assert (Hm : merkle (node_tree sample_object) = merkle (node_tree sample_object')).
  { apply (bool_decide_eq_true _). vm_compute. reflexivity. }
  split; [exact Hm|]. apply (equal_hashes_equal_trees text id); [..|exact Hm].
  - by apply sample_storable; vm_compute.
  - by apply sample_storable; vm_compute.
  - by apply sample_collision_free; vm_compute.
Defined.

Lemma reexport_same_objects_witness :
  ∃ (o o' : ObjectTree (list Byte.byte)) bytes bytes' entries entries',
    TarWriter_new o = Ok bytes ∧ tar_unpack bytes = Ok entries ∧
    TarWriter_new o' = Ok bytes' ∧ tar_unpack bytes' = Ok entries' ∧
    ∀ e, e ∈ entries ↔ e ∈ entries'.
Proof.
  assert (Hs : storable text (node_tree sample_object)) by by apply sample_storable; vm_compute.
  destruct (create_from_root_spec sample_object (storable_writable text id _ Hs))
    as (o & _ & Hr); [done|].
  destruct (export_import text id sample_object 7) as (_ & _ & o' & _ & _ & _ & Hr');
    [done|by apply sample_collision_free; vm_compute|done|vm_compute; lia|].
  exists o, o'. apply (reexport_same_objects text id (node_tree sample_object)); [done| |done|done].
  intros s Hs'. apply list_elem_of_In in Hs'. revert s Hs'. apply List.Forall_forall.
  by apply (bool_decide_unpack _); vm_compute.
Defined.

Definition invented : Hash := default (sample_bits 5) (hash_from_str (repeat x31 64)).

(** A node that lists itself, under an invented hash. *)
Definition sample_self : list Byte.byte :=
  ok_default [] (NodeWithEntries_write_bytes
    {| node_kind := Tree; node_inner := str "x";
       node_entries := [{| entry_kind := Tree; entry_hash := invented;
                           entry_name := str "x" |}] |}).

Definition sample_loop : list (path * list Byte.byte) :=
  [(object_path invented, sample_self);
   (ref_path (str "root"), hash_to_string invented)].

Lemma self_reference_is_never_read_witness :
  read_from_tar (T := list Byte.byte) 1000 (mjoin (mark_entry <$> sample_loop)) = None ∨
  read_from_tar (T := list Byte.byte) 1000 (mjoin (mark_entry <$> sample_loop)) = Some (Err Panic).
Proof.
  apply (self_reference_is_never_read _ sample_loop invented
    {| hnwe_kind := Tree; hnwe_hash := invented; hnwe_inner := str "x";
       hnwe_entries := [{| entry_kind := Tree; entry_hash := invented;
                           entry_name := str "x" |}] |}
    {| entry_kind := Tree; entry_hash := invented; entry_name := str "x" |});
    [evaluate|evaluate|evaluate|done|done].
Defined.

Lemma stored_hash_is_trusted_witness :
  ∃ o, read_from_tar (T := list Byte.byte) 1 (mjoin (mark_entry <$>
      [(object_path invented, ok_default [] (NodeWithEntries_write_bytes
          {| node_kind := Leaf; node_inner := str "x"; node_entries := [] |}));
       (ref_path (str "root"), hash_to_string invented)])) = Some (Ok o) ∧
    node_weight (graph o) (root_idx o) =
      Some {| hashed_kind := Leaf; hashed_hash := invented; hashed_inner := str "x" |}.
Proof.
  apply (stored_hash_is_trusted text id _ invented (str "x")
    (ok_default [] (NodeWithEntries_write_bytes
       {| node_kind := Leaf; node_inner := str "x"; node_entries := [] |})) 0);
    [by apply text_short; [|simpl; lia]|evaluate|evaluate].
Defined.

End examples.
