(* ===== verification/PkgSpec.v ===== *)
(** * Package specifications

    The data of [src/lib/si-pkg/src/spec]: enumerations with their strum names,
    the records a package is described with, and the external text formats
    (serde_json, [Url], RFC 3339 times) as codecs. *)

From S2P Require Import Prelude Bytes KeyValue.
From Stdlib Require Import NArith ZArith Init.Byte.
From stdpp Require Import base tactics list sets strings.

(** ** Enumerations *)

(** What strum derives: the variants in order, [Display] (and [AsRef]), and the
    texts [FromStr] accepts for a variant. *)
Class Strum (T : Type) := {
  variants : list T;
  to_string : T → list Byte.byte;
  accepted : T → list (list Byte.byte);
}.

(** The derived [FromStr]: the first variant that accepts the text. *)
Definition from_str {T} `{Strum T} (s : list Byte.byte) : option T :=
  find (λ v, bool_decide (s ∈ accepted v)) variants.

(** Display and [FromStr] agree, and no variant is displayed as the empty text. *)
Class StrumOk (T : Type) `{S : Strum T} : Prop := {
  from_str_to_string (t : T) : from_str (to_string t) = Some t;
  to_string_ascii (t : T) :
    forallb ascii_byte (to_string t) && (length (to_string t) <? 1000) = true;
  to_string_nonempty (t : T) : to_string t ≠ [];
}.

Lemma to_string_text {T} `{StrumOk T} (t : T) : text (to_string t).
Proof.
  pose proof (to_string_ascii t) as [Ha Hl]%andb_true_iff. apply Nat.ltb_lt in Hl.
  by apply text_short.
Qed.

#[export] Hint Resolve @to_string_text : si.

Module FuncArgumentKind.

Inductive t : Set :=
| Any | Array | Boolean | Integer | Map | Object | String_.

#[global] Instance eq_dec : EqDecision t.
Proof. solve_decision. Defined.

Definition display (k : t) : list Byte.byte :=
  match k with
  | Any => str "Any"
  | Array => str "Array"
  | Boolean => str "Boolean"
  | Integer => str "Integer"
  | Map => str "Map"
  | Object => str "Object"
  | String_ => str "String"
  end.

#[global] Instance strum : Strum t :=
  {| variants := [Any; Array; Boolean; Integer; Map; Object; String_];
     to_string := display; accepted := λ k, [display k] |}.

#[global] Instance strum_ok : StrumOk t.
Proof. by split; intros []. Qed.

End FuncArgumentKind.

Module FuncSpecBackendKind.

Inductive t : Set :=
| Array | Boolean | Diff | Identity | Integer | JsAction | JsAttribute |
JsReconciliation | JsSchemaVariantDefinition | JsValidation | Map | Object |
String_ | Unset | Validation.

#[global] Instance eq_dec : EqDecision t.
Proof. solve_decision. Defined.

Definition display (k : t) : list Byte.byte :=
  match k with
  | Array => str "Array"
  | Boolean => str "Boolean"
  | Diff => str "Diff"
  | Identity => str "Identity"
  | Integer => str "Integer"
  | JsAction => str "JsAction"
  | JsAttribute => str "JsAttribute"
  | JsReconciliation => str "JsReconciliation"
  | JsSchemaVariantDefinition => str "JsSchemaVariantDefinition"
  | JsValidation => str "JsValidation"
  | Map => str "Map"
  | Object => str "Object"
  | String_ => str "String"
  | Unset => str "Unset"
  | Validation => str "Validation"
  end.

#[global] Instance strum : Strum t :=
  {| variants := [Array; Boolean; Diff; Identity; Integer; JsAction; JsAttribute; JsReconciliation; JsSchemaVariantDefinition; JsValidation; Map; Object; String_; Unset; Validation];
     to_string := display; accepted := λ k, [display k] |}.

#[global] Instance strum_ok : StrumOk t.
Proof. by split; intros []. Qed.

End FuncSpecBackendKind.

Module FuncSpecBackendResponseType.

Inductive t : Set :=
| Action | Array | Boolean | CodeGeneration | Identity | Integer | Json | Map |
Object | Qualification | Reconciliation | SchemaVariantDefinition | String_ |
Unset | Validation.

#[global] Instance eq_dec : EqDecision t.
Proof. solve_decision. Defined.

Definition display (k : t) : list Byte.byte :=
  match k with
  | Action => str "Action"
  | Array => str "Array"
  | Boolean => str "Boolean"
  | CodeGeneration => str "CodeGeneration"
  | Identity => str "Identity"
  | Integer => str "Integer"
  | Json => str "Json"
  | Map => str "Map"
  | Object => str "Object"
  | Qualification => str "Qualification"
  | Reconciliation => str "Reconciliation"
  | SchemaVariantDefinition => str "SchemaVariantDefinition"
  | String_ => str "String"
  | Unset => str "Unset"
  | Validation => str "Validation"
  end.

#[global] Instance strum : Strum t :=
  {| variants := [Action; Array; Boolean; CodeGeneration; Identity; Integer; Json; Map; Object; Qualification; Reconciliation; SchemaVariantDefinition; String_; Unset; Validation];
     to_string := display; accepted := λ k, [display k] |}.

#[global] Instance strum_ok : StrumOk t.
Proof. by split; intros []. Qed.

End FuncSpecBackendResponseType.

Module AttrFuncInputSpecKind.

Inductive t : Set :=
| InputSocket | OutputSocket | Prop_.

#[global] Instance eq_dec : EqDecision t.
Proof. solve_decision. Defined.

Definition display (k : t) : list Byte.byte :=
  match k with
  | InputSocket => str "InputSocket"
  | OutputSocket => str "OutputSocket"
  | Prop_ => str "Prop"
  end.

#[global] Instance strum : Strum t :=
  {| variants := [InputSocket; OutputSocket; Prop_];
     to_string := display; accepted := λ k, [display k] |}.

#[global] Instance strum_ok : StrumOk t.
Proof. by split; intros []. Qed.

End AttrFuncInputSpecKind.

Module ActionFuncSpecKind.

Inductive t : Set :=
| Create | Refresh | Other | Delete.

#[global] Instance eq_dec : EqDecision t.
Proof. solve_decision. Defined.

Definition display (k : t) : list Byte.byte :=
  match k with
  | Create => str "Create"
  | Refresh => str "Refresh"
  | Other => str "Other"
  | Delete => str "Delete"
  end.

#[global] Instance strum : Strum t :=
  {| variants := [Create; Refresh; Other; Delete];
     to_string := display; accepted := λ k, [display k] |}.

#[global] Instance strum_ok : StrumOk t.
Proof. by split; intros []. Qed.

End ActionFuncSpecKind.

Module ChangeSetSpecStatus.

Inductive t : Set :=
| Abandoned | Applied | Closed | Failed | Open.

#[global] Instance eq_dec : EqDecision t.
Proof. solve_decision. Defined.

Definition display (k : t) : list Byte.byte :=
  match k with
  | Abandoned => str "Abandoned"
  | Applied => str "Applied"
  | Closed => str "Closed"
  | Failed => str "Failed"
  | Open => str "Open"
  end.

#[global] Instance strum : Strum t :=
  {| variants := [Abandoned; Applied; Closed; Failed; Open];
     to_string := display; accepted := λ k, [display k] |}.

#[global] Instance strum_ok : StrumOk t.
Proof. by split; intros []. Qed.

End ChangeSetSpecStatus.

Module EdgeSpecKind.

Inductive t : Set :=
| Configuration | Symbolic.

#[global] Instance eq_dec : EqDecision t.
Proof. solve_decision. Defined.

Definition display (k : t) : list Byte.byte :=
  match k with
  | Configuration => str "Configuration"
  | Symbolic => str "Symbolic"
  end.

#[global] Instance strum : Strum t :=
  {| variants := [Configuration; Symbolic];
     to_string := display; accepted := λ k, [display k] |}.

#[global] Instance strum_ok : StrumOk t.
Proof. by split; intros []. Qed.

End EdgeSpecKind.

Module LeafKind.

Inductive t : Set :=
| CodeGeneration | Qualification.

#[global] Instance eq_dec : EqDecision t.
Proof. solve_decision. Defined.

Definition display (k : t) : list Byte.byte :=
  match k with
  | CodeGeneration => str "CodeGeneration"
  | Qualification => str "Qualification"
  end.

#[global] Instance strum : Strum t :=
  {| variants := [CodeGeneration; Qualification];
     to_string := display; accepted := λ k, [display k] |}.

#[global] Instance strum_ok : StrumOk t.
Proof. by split; intros []. Qed.

End LeafKind.

Module LeafInputLocation.

Inductive t : Set :=
| Code | DeletedAt | Domain | Resource.

#[global] Instance eq_dec : EqDecision t.
Proof. solve_decision. Defined.

Definition display (k : t) : list Byte.byte :=
  match k with
  | Code => str "Code"
  | DeletedAt => str "DeletedAt"
  | Domain => str "Domain"
  | Resource => str "Resource"
  end.

#[global] Instance strum : Strum t :=
  {| variants := [Code; DeletedAt; Domain; Resource];
     to_string := display; accepted := λ k, [display k] |}.

#[global] Instance strum_ok : StrumOk t.
Proof. by split; intros []. Qed.

End LeafInputLocation.

Module SiPropFuncSpecKind.

Inductive t : Set :=
| Color | Name | ResourcePayload.

#[global] Instance eq_dec : EqDecision t.
Proof. solve_decision. Defined.

Definition display (k : t) : list Byte.byte :=
  match k with
  | Color => str "Color"
  | Name => str "Name"
  | ResourcePayload => str "ResourcePayload"
  end.

#[global] Instance strum : Strum t :=
  {| variants := [Color; Name; ResourcePayload];
     to_string := display; accepted := λ k, [display k] |}.

#[global] Instance strum_ok : StrumOk t.
Proof. by split; intros []. Qed.

End SiPropFuncSpecKind.

Module SocketSpecKind.

Inductive t : Set :=
| Input | Output.

#[global] Instance eq_dec : EqDecision t.
Proof. solve_decision. Defined.

Definition display (k : t) : list Byte.byte :=
  match k with
  | Input => str "Input"
  | Output => str "Output"
  end.

#[global] Instance strum : Strum t :=
  {| variants := [Input; Output];
     to_string := display; accepted := λ k, [display k] |}.

#[global] Instance strum_ok : StrumOk t.
Proof. by split; intros []. Qed.

End SocketSpecKind.

Module SocketSpecArity.

Inductive t : Set :=
| Many | One.

#[global] Instance eq_dec : EqDecision t.
Proof. solve_decision. Defined.

Definition display (k : t) : list Byte.byte :=
  match k with
  | Many => str "Many"
  | One => str "One"
  end.

#[global] Instance strum : Strum t :=
  {| variants := [Many; One];
     to_string := display; accepted := λ k, [display k] |}.

#[global] Instance strum_ok : StrumOk t.
Proof. by split; intros []. Qed.

End SocketSpecArity.

Module PropSpecWidgetKind.

Inductive t : Set :=
| Array | Checkbox | Color | ComboBox | Header | Map | Secret | Select | Text |
TextArea.

#[global] Instance eq_dec : EqDecision t.
Proof. solve_decision. Defined.

Definition display (k : t) : list Byte.byte :=
  match k with
  | Array => str "Array"
  | Checkbox => str "Checkbox"
  | Color => str "Color"
  | ComboBox => str "ComboBox"
  | Header => str "Header"
  | Map => str "Map"
  | Secret => str "Secret"
  | Select => str "Select"
  | Text => str "Text"
  | TextArea => str "TextArea"
  end.

#[global] Instance strum : Strum t :=
  {| variants := [Array; Checkbox; Color; ComboBox; Header; Map; Secret; Select; Text; TextArea];
     to_string := display; accepted := λ k, [display k] |}.

#[global] Instance strum_ok : StrumOk t.
Proof. by split; intros []. Qed.

End PropSpecWidgetKind.

Module ValidationSpecKind.

Inductive t : Set :=
| CustomValidation | IntegerIsBetweenTwoIntegers | IntegerIsNotEmpty |
StringEquals | StringHasPrefix | StringInStringArray | StringIsHexColor |
StringIsNotEmpty | StringIsValidIpAddr.

#[global] Instance eq_dec : EqDecision t.
Proof. solve_decision. Defined.

Definition display (k : t) : list Byte.byte :=
  match k with
  | CustomValidation => str "CustomValidation"
  | IntegerIsBetweenTwoIntegers => str "IntegerIsBetweenTwoIntegers"
  | IntegerIsNotEmpty => str "IntegerIsNotEmpty"
  | StringEquals => str "StringEquals"
  | StringHasPrefix => str "StringHasPrefix"
  | StringInStringArray => str "StringInStringArray"
  | StringIsHexColor => str "StringIsHexColor"
  | StringIsNotEmpty => str "StringIsNotEmpty"
  | StringIsValidIpAddr => str "StringIsValidIpAddr"
  end.

#[global] Instance strum : Strum t :=
  {| variants := [CustomValidation; IntegerIsBetweenTwoIntegers; IntegerIsNotEmpty; StringEquals; StringHasPrefix; StringInStringArray; StringIsHexColor; StringIsNotEmpty; StringIsValidIpAddr];
     to_string := display; accepted := λ k, [display k] |}.

#[global] Instance strum_ok : StrumOk t.
Proof. by split; intros []. Qed.

End ValidationSpecKind.

Module SiPkgKind.

Inductive t : Set :=
| Module_ | WorkspaceBackup.

#[global] Instance eq_dec : EqDecision t.
Proof. solve_decision. Defined.

Definition display (k : t) : list Byte.byte :=
  match k with
  | Module_ => str "module"
  | WorkspaceBackup => str "workspaceBackup"
  end.

#[global] Instance strum : Strum t :=
  {| variants := [Module_; WorkspaceBackup];
     to_string := display; accepted := λ k, [display k] |}.

#[global] Instance strum_ok : StrumOk t.
Proof. by split; intros []. Qed.

End SiPkgKind.

Module SchemaVariantSpecComponentType.

Inductive t : Set := AggregationFrame | Component | ConfigurationFrame.

#[global] Instance eq_dec : EqDecision t.
Proof. solve_decision. Defined.

(** Both spellings of a variant are accepted. *)
Definition spellings (k : t) : list (list Byte.byte) :=
  match k with
  | AggregationFrame => [str "AggregationFrame"; str "aggregationFrame"]
  | Component => [str "Component"; str "component"]
  | ConfigurationFrame => [str "ConfigurationFrame"; str "configurationFrame"]
  end.

(** Which of the two strum displays, [first] or [second], is up to it: both
    have the same length. *)
Definition display (second : bool) (k : t) : list Byte.byte :=
  match k with
  | AggregationFrame => str (if second then "aggregationFrame" else "AggregationFrame")
  | Component => str (if second then "component" else "Component")
  | ConfigurationFrame => str (if second then "configurationFrame" else "ConfigurationFrame")
  end.

Definition strum (second : bool) : Strum t :=
  {| variants := [AggregationFrame; Component; ConfigurationFrame];
     to_string := display second; accepted := spellings |}.

Lemma strum_ok second : StrumOk t (S := strum second).
Proof. by destruct second; split; intros []. Qed.

End SchemaVariantSpecComponentType.

(** ** Paths and variants *)

Inductive AttributeValuePath : Type :=
| PathProp (path : list Byte.byte) (key : option (list Byte.byte)) (index : option Z)
| PathInputSocket (name : list Byte.byte)
| PathOutputSocket (name : list Byte.byte).

Inductive ComponentSpecVariant : Type :=
| BuiltinVariant (schema_name variant_name : list Byte.byte)
| WorkspaceVariant (variant_unique_id : list Byte.byte).

(** ** External text formats *)

(** A text format of another crate: writing may fail, reading may fail. *)
Class Codec (A : Type) := {
  encode : A → option (list Byte.byte);
  decode : list Byte.byte → option A;
}.

(** The text of [a] is a nonempty [String] that reads back as [a]. *)
Definition codec_ok {A} `{Codec A} (a : A) : Prop :=
  ∃ s, encode a = Some s ∧ text s ∧ s ≠ [] ∧ decode s = Some a.

(** The formats the package nodes use: [serde_json] for JSON values and for the
    two types above and lists of strings, [Url::as_str] with [Url::parse],
    [to_rfc3339] with [parse::<DateTime<Utc>>]; which of its two names strum
    displays for a component type. *)
Class Externals := {
  Json : Type;
  json_codec :: Codec Json;
  json_is_null : Json → bool;
  path_codec :: Codec AttributeValuePath;
  variant_codec :: Codec ComponentSpecVariant;
  strings_codec :: Codec (list (list Byte.byte));
  Url : Type;
  url_as_str : Url → list Byte.byte;
  url_parse : list Byte.byte → option Url;
  DateTime : Type;
  to_rfc3339 : DateTime → list Byte.byte;
  parse_datetime : list Byte.byte → option DateTime;
  component_type_second : bool;
}.

#[export] Instance url_codec `{X : Externals} : Codec Url :=
  {| encode := λ u, Some (url_as_str u); decode := url_parse |}.
#[export] Instance datetime_codec `{X : Externals} : Codec DateTime :=
  {| encode := λ d, Some (to_rfc3339 d); decode := parse_datetime |}.

#[export] Instance component_type_strum `{X : Externals} :
  Strum SchemaVariantSpecComponentType.t :=
  SchemaVariantSpecComponentType.strum component_type_second.
#[export] Instance component_type_strum_ok `{X : Externals} :
  StrumOk SchemaVariantSpecComponentType.t.
Proof. apply SchemaVariantSpecComponentType.strum_ok. Qed.

(** [serde_json::from_str::<Option<Value>>]: [null] is [None]. *)
Definition decode_option `{X : Externals} (s : list Byte.byte) : option (option Json) :=
  match decode s with
  | Some v => Some (if json_is_null v then None else Some v)
  | None => None
  end.
