(* ===== verification/PkgFields.v ===== *)
(** * Fields of package nodes

    The ways in which the [write_bytes] and [read_bytes] of
    [src/lib/si-pkg/src/node] write and read one field, the fields all nodes
    share ([write_common_fields], [read_common_fields] of [node/mod.rs]), and
    the rewriting rules that run a reader over what a writer wrote. *)

From S2P Require Import Prelude Bytes KeyValue PkgSpec.
From Stdlib Require Import NArith ZArith Init.Byte.
From stdpp Require Import base tactics list sets strings.

(** ** Fields *)

(** [as_deref().unwrap_or("")]. *)
Definition or_empty (o : option (list Byte.byte)) : list Byte.byte := from_option id [] o.

(** [if s.is_empty() { None } else { Some(s) }]. *)
Definition none_if_empty (s : list Byte.byte) : option (list Byte.byte) :=
  match s with [] => None | _ => Some s end.

(** An empty text stands for no text. *)
Definition canon_opt (o : option (list Byte.byte)) : option (list Byte.byte) :=
  o ≫= none_if_empty.

Section fields.
Context `{B : Blake3}.

(** [serde_json::to_string(..).map_err(GraphError::parse)?] as a line. *)
Definition write_encoded {A} `{Codec A} (key : list Byte.byte) (a : A) : writer :=
  match encode a with
  | Some s => write_key_value_line key s
  | None => Err (Fault (Parse JsonError))
  end.

(** The same for an optional value, an empty text when it is absent. *)
Definition write_encoded_or_empty {A} `{Codec A} (key : list Byte.byte) (o : option A) : writer :=
  match o with
  | Some a => write_encoded key a
  | None => write_key_value_line key []
  end.

(** The same, no line at all when it is absent. *)
Definition write_encoded_opt {A} `{Codec A} (key : list Byte.byte) (o : option A) : writer :=
  match o with
  | Some a => write_encoded key a
  | None => Ok []
  end.

(** A value parsed from a text, [None] from the empty text. *)
Definition parsed_unless_empty {A} (e : ParseError) (parse : list Byte.byte → option A)
    (s : list Byte.byte) : reader (option A) :=
  match s with
  | [] => mret None
  | _ => a ← parsed e (parse s); mret (Some a)
  end.

Definition read_bool (key : list Byte.byte) : reader bool :=
  s ← read_key_value_line key; parsed ParseBoolError (parse_bool s).

Definition read_variant {T} `{Strum T} (key : list Byte.byte) : reader T :=
  s ← read_key_value_line key; parsed VariantNotFound (from_str s).

Definition read_decoded {A} `{Codec A} (e : ParseError) (key : list Byte.byte) : reader A :=
  s ← read_key_value_line key; parsed e (decode s).

Definition read_or_none (key : list Byte.byte) : reader (option (list Byte.byte)) :=
  s ← read_key_value_line key; mret (none_if_empty s).

Definition read_decoded_or_none {A} `{Codec A} (e : ParseError) (key : list Byte.byte) :
    reader (option A) :=
  s ← read_key_value_line key; parsed_unless_empty e decode s.

Definition read_variant_or_none {T} `{Strum T} (key : list Byte.byte) : reader (option T) :=
  s ← read_key_value_line key; parsed_unless_empty VariantNotFound from_str s.

(** ** Common fields *)

Definition KEY_UNIQUE_ID_STR : list Byte.byte := str "unique_id".
Definition KEY_DELETED_STR : list Byte.byte := str "deleted".

Definition read_unique_id : reader (option (list Byte.byte)) :=
  unique_id_opt ← read_key_value_line_opt KEY_UNIQUE_ID_STR;
  mret (unique_id_opt ≫= none_if_empty).

Definition read_common_fields : reader (option (list Byte.byte) * bool) :=
  unique_id ← read_unique_id;
  deleted_opt ← read_key_value_line_opt KEY_DELETED_STR;
  deleted ← match deleted_opt with
            | None => mret false
            | Some deleted_str => parsed ParseBoolError (parse_bool deleted_str)
            end;
  mret (unique_id, deleted).

Definition write_unique_id (unique_id : option (list Byte.byte)) : writer :=
  write_key_value_line KEY_UNIQUE_ID_STR (or_empty unique_id).

Definition write_common_fields (unique_id : option (list Byte.byte)) (deleted : bool) : writer :=
  write_unique_id unique_id +++
  write_key_value_line KEY_DELETED_STR (print_bool deleted).

End fields.

(** ** Running readers over written lines *)

Definition opt_text (o : option (list Byte.byte)) : Prop :=
  match o with Some s => text s | None => True end.

Definition opt_codec_ok {A} `{Codec A} (o : option A) : Prop :=
  match o with Some a => codec_ok a | None => True end.

Lemma or_empty_text o : opt_text o → text (or_empty o).
Proof. destruct o; simpl; [done|]. intros _. apply text_nil. Qed.

Lemma none_if_empty_or_empty o : none_if_empty (or_empty o) = canon_opt o.
Proof. by destruct o as [[]|]. Qed.

Lemma or_empty_canon o : or_empty (canon_opt o) = or_empty o.
Proof. by destruct o as [[]|]. Qed.

Lemma print_bool_text b : text (print_bool b).
Proof. by destruct b; apply text_short; [|simpl; lia|..]; simpl; lia. Qed.

Lemma opt_text_Some s : text s → opt_text (Some s).
Proof. done. Qed.

#[export] Hint Resolve or_empty_text print_bool_text opt_text_Some : si.

Section running.
Context `{B : Blake3} {A : Type}.
Implicit Types (key v rest : list Byte.byte).

Lemma run_ret {C} (a : C) (f : C → reader A) rest : (mret a ≫= f) rest = f a rest.
Proof. done. Qed.

Lemma run_bind {C D} (m : reader C) (g : C → reader D) (f : D → reader A) rest :
  ((m ≫= g) ≫= f) rest = (m ≫= λ c, g c ≫= f) rest.
Proof. unfold mbind, reader_bind. by destruct (m rest) as [[c r]|]. Qed.

Lemma run_parsed {C} e o (a : C) (f : C → reader A) rest :
  o = Some a → (parsed e o ≫= f) rest = f a rest.
Proof. by intros ->. Qed.

Lemma run_line key v rest (f : list Byte.byte → reader A) :
  is_key key = true → text v →
  (read_key_value_line key ≫= f) (kv_bytes key v ++ rest) = f v rest.
Proof. intros. unfold mbind, reader_bind. by rewrite read_key_value_line_bytes. Qed.

Lemma run_opt_hit key v rest (f : option (list Byte.byte) → reader A) :
  is_key key = true → text v →
  (read_key_value_line_opt key ≫= f) (kv_bytes key v ++ rest) = f (Some v) rest.
Proof. intros. unfold mbind, reader_bind. by rewrite read_opt_bytes. Qed.

Lemma run_opt_other key key' v rest (f : option (list Byte.byte) → reader A) :
  is_key key = true → is_key key' = true → key ≠ key' →
  (read_key_value_line_opt key ≫= f) (kv_bytes key' v ++ rest) =
  f None (kv_bytes key' v ++ rest).
Proof. intros. unfold mbind, reader_bind. by rewrite read_opt_other. Qed.

Lemma run_opt_end key rest (f : option (list Byte.byte) → reader A) :
  is_key key = true → ends_node rest →
  (read_key_value_line_opt key ≫= f) rest = f None rest.
Proof. intros. unfold mbind, reader_bind. by rewrite read_opt_end. Qed.

Lemma run_bool key b rest (f : bool → reader A) :
  is_key key = true →
  (read_bool key ≫= f) (kv_bytes key (print_bool b) ++ rest) = f b rest.
Proof.
  intros. unfold read_bool. rewrite run_bind, run_line by auto with si.
  apply run_parsed, parse_print_bool.
Qed.

Lemma run_variant {T} `{StrumOk T} key (t : T) rest (f : T → reader A) :
  is_key key = true →
  (read_variant key ≫= f) (kv_bytes key (to_string t) ++ rest) = f t rest.
Proof.
  intros. unfold read_variant. rewrite run_bind, run_line by eauto with si.
  apply run_parsed, from_str_to_string.
Qed.

Lemma run_or_none key o rest (f : option (list Byte.byte) → reader A) :
  is_key key = true → opt_text o →
  (read_or_none key ≫= f) (kv_bytes key (or_empty o) ++ rest) = f (canon_opt o) rest.
Proof.
  intros. unfold read_or_none. rewrite run_bind, run_line by eauto with si.
  by rewrite run_ret, none_if_empty_or_empty.
Qed.

Lemma run_decoded {D} `{Codec D} e key (d : D) s rest (f : D → reader A) :
  is_key key = true → text s → decode s = Some d →
  (read_decoded e key ≫= f) (kv_bytes key s ++ rest) = f d rest.
Proof.
  intros. unfold read_decoded. rewrite run_bind, run_line by done. by apply run_parsed.
Qed.

(** The text of an optional encoded value. *)
Definition encoded_text {D} `{Codec D} (o : option D) : list Byte.byte :=
  match o with Some d => from_option id [] (encode d) | None => [] end.

Lemma encoded_text_text {D} `{Codec D} (o : option D) : opt_codec_ok o → text (encoded_text o).
Proof.
  destruct o as [d|]; simpl; [|intros; apply text_nil]. intros (s & -> & ? & _). done.
Qed.

Lemma write_encoded_text {D} `{Codec D} key (d : D) :
  codec_ok d → write_encoded key d = Ok (kv_bytes key (encoded_text (Some d))).
Proof. unfold write_encoded. simpl. by intros (s & -> & _). Qed.

Lemma write_encoded_or_empty_text {D} `{Codec D} key (o : option D) :
  opt_codec_ok o → write_encoded_or_empty key o = Ok (kv_bytes key (encoded_text o)).
Proof. destruct o; [apply write_encoded_text|done]. Qed.

Lemma run_decoded_ok {D} `{Codec D} e key (d : D) rest (f : D → reader A) :
  is_key key = true → codec_ok d →
  (read_decoded e key ≫= f) (kv_bytes key (encoded_text (Some d)) ++ rest) = f d rest.
Proof. intros ? (s & He & ? & _ & ?). simpl. rewrite He. by apply run_decoded. Qed.

Lemma run_decoded_or_none {D} `{Codec D} e key (o : option D) rest (f : option D → reader A) :
  is_key key = true → opt_codec_ok o →
  (read_decoded_or_none e key ≫= f) (kv_bytes key (encoded_text o) ++ rest) = f o rest.
Proof.
  intros Hk Ho. unfold read_decoded_or_none.
  rewrite run_bind, run_line by auto using encoded_text_text.
  destruct o as [d|]; simpl; [|done]. destruct Ho as (s & He & Ht & Hne & Hd). rewrite He.
  simpl. destruct s; [done|]. unfold parsed_unless_empty.
  rewrite run_bind. by rewrite (run_parsed e _ d).
Qed.

Lemma run_unless_empty {C} e (parse : list Byte.byte → option C) s c rest
    (f : option C → reader A) :
  s ≠ [] → parse s = Some c →
  (parsed_unless_empty e parse s ≫= f) rest = f (Some c) rest.
Proof.
  intros. destruct s; [done|]. unfold parsed_unless_empty. rewrite run_bind.
  by rewrite (run_parsed e _ c).
Qed.

Lemma run_variant_or_none {T} `{StrumOk T} key (o : option T) rest (f : option T → reader A) :
  is_key key = true →
  (read_variant_or_none key ≫= f) (kv_bytes key (or_empty (to_string <$> o)) ++ rest) = f o rest.
Proof.
  intros. unfold read_variant_or_none.
  destruct o as [x|]; simpl; rewrite run_bind, run_line by eauto with si; [|done].
  apply run_unless_empty; [apply to_string_nonempty|apply from_str_to_string].
Qed.

Lemma run_unique_id o rest (f : option (list Byte.byte) → reader A) :
  opt_text o →
  (read_unique_id ≫= f) (kv_bytes KEY_UNIQUE_ID_STR (or_empty o) ++ rest) = f (canon_opt o) rest.
Proof.
  intros. unfold read_unique_id. rewrite run_bind, run_opt_hit by eauto with si.
  rewrite run_ret. simpl. by rewrite none_if_empty_or_empty.
Qed.

Lemma run_common_fields o b rest (f : option (list Byte.byte) * bool → reader A) :
  opt_text o →
  (read_common_fields ≫= f)
    (kv_bytes KEY_UNIQUE_ID_STR (or_empty o) ++
     kv_bytes KEY_DELETED_STR (print_bool b) ++ rest) = f (canon_opt o, b) rest.
Proof.
  intros. unfold read_common_fields. rewrite run_bind, run_unique_id by done.
  rewrite run_bind, run_opt_hit by eauto with si.
  rewrite run_bind, (run_parsed _ _ b) by apply parse_print_bool. apply run_ret.
Qed.

Lemma then_write_Ok (a b : list Byte.byte) : (Ok a +++ Ok b)%writer = Ok (a ++ b).
Proof. done. Qed.

Lemma write_kv key v : write_key_value_line key v = Ok (kv_bytes key v).
Proof. done. Qed.

Lemma write_common o b :
  write_common_fields o b =
  Ok (kv_bytes KEY_UNIQUE_ID_STR (or_empty o) ++ kv_bytes KEY_DELETED_STR (print_bool b)).
Proof. done. Qed.

Lemma write_kv_Some key v : write_key_value_line_opt key (Some v) = Ok (kv_bytes key v).
Proof. done. Qed.

Lemma write_kv_None key : write_key_value_line_opt key None = Ok [].
Proof. done. Qed.

Lemma write_unique_id_bytes o :
  write_unique_id o = Ok (kv_bytes KEY_UNIQUE_ID_STR (or_empty o)).
Proof. done. Qed.

Lemma write_unique_id_canon o : write_unique_id (canon_opt o) = write_unique_id o.
Proof. unfold write_unique_id. by rewrite or_empty_canon. Qed.

Lemma write_common_canon o b : write_common_fields (canon_opt o) b = write_common_fields o b.
Proof. unfold write_common_fields. by rewrite write_unique_id_canon. Qed.

Lemma run_final {C} (a : C) rest : (mret a : reader C) rest = Ok (a, rest).
Proof. done. Qed.

End running.

(** ** What every node format has to satisfy *)

Section formats.
Context `{B : Blake3} {T : Type}.

(** Whatever is written for a good value reads back as [canon] of it, in front
    of the end of a node. *)
Definition roundtrips (write : T → writer) (read : reader (option T))
    (good : T → Prop) (canon : T → T) : Prop :=
  ∀ t rest, good t → ends_node rest →
    ∃ bs, write t = Ok bs ∧ read (bs ++ rest) = Ok (Some (canon t), rest).

(** The value that is read is written as the same bytes. *)
Definition canonical (write : T → writer) (good : T → Prop) (canon : T → T) : Prop :=
  ∀ t, good t → write (canon t) = write t.

End formats.

(** ** Automation *)

#[global] Arguments write_key_value_line : simpl never.
#[global] Arguments write_key_value_line_opt : simpl never.
#[global] Arguments write_common_fields : simpl never.
#[global] Arguments write_unique_id : simpl never.
#[global] Arguments write_encoded : simpl never.
#[global] Arguments write_encoded_or_empty : simpl never.
#[global] Arguments write_encoded_opt : simpl never.
#[global] Arguments then_write : simpl never.
#[global] Arguments kv_bytes : simpl never.
#[global] Arguments str : simpl never.
#[global] Arguments print_bool : simpl never.
#[global] Arguments or_empty : simpl never.
#[global] Arguments canon_opt : simpl never.
#[global] Arguments encoded_text : simpl never.
#[global] Arguments to_string : simpl never.
#[global] Arguments from_str : simpl never.

Ltac key_ne := let H := fresh in intros H; vm_compute in H; discriminate H.

(** The side conditions of the rules: usable keys, different keys, texts. *)
Ltac side :=
  lazymatch goal with
  | |- is_key _ = true => vm_compute; reflexivity
  | |- _ ≠ _ => key_ne
  | |- text _ => solve [assumption | apply to_string_text
                       | apply encoded_text_text; assumption | eauto with si]
  | |- _ => assumption
  end.

(** Turns a writer into the bytes it writes. *)
Ltac written :=
  cbn beta iota zeta;
  repeat first
    [ rewrite write_encoded_text by assumption
    | rewrite write_encoded_or_empty_text by assumption ];
  rewrite ?write_common, ?write_unique_id_bytes, ?write_kv_Some, ?write_kv_None, ?write_kv,
    ?then_write_Ok.

(** One step of a reader over written lines. *)
Ltac run_step :=
  lazymatch goal with
  | |- (read_bool _ ≫= _) _ = _ => rewrite run_bool by side
  | |- (read_variant _ ≫= _) _ = _ => rewrite run_variant by side
  | |- (read_variant_or_none _ ≫= _) _ = _ => rewrite run_variant_or_none by side
  | |- (read_or_none _ ≫= _) _ = _ => rewrite run_or_none by side
  | |- (read_decoded _ _ ≫= _) _ = _ => rewrite run_decoded_ok by side
  | |- (read_decoded_or_none _ _ ≫= _) _ = _ =>
      rewrite run_decoded_or_none by side
  | |- (read_common_fields ≫= _) _ = _ => rewrite run_common_fields by side
  | |- (read_unique_id ≫= _) _ = _ => rewrite run_unique_id by side
  | |- (read_key_value_line _ ≫= _) _ = _ => rewrite run_line by side
  | |- (read_key_value_line_opt _ ≫= _) _ = _ =>
      first [ rewrite run_opt_hit by side
            | rewrite run_opt_other by side
            | rewrite run_opt_end by side ]
  | |- (mret _ ≫= _) _ = _ => rewrite run_ret
  | |- ((_ ≫= _) ≫= _) _ = _ => rewrite run_bind
  end; cbv beta iota.

(** Runs a reader over everything that was written. *)
Ltac run_reader := rewrite <- ?(assoc_L (++)), ?app_nil_l; repeat run_step; try reflexivity.

(** The value that is read is written as the same bytes. *)
Ltac same_bytes :=
  unfold canonical; intros [] ?; cbn beta iota zeta; simpl;
  rewrite ?or_empty_canon, ?write_common_canon, ?write_unique_id_canon; reflexivity.
