(* ===== verification/PkgNodes.v ===== *)
(** * Package nodes without optional groups of fields

    One module per node type of [src/lib/si-pkg/src/node]: the node, its
    [write_bytes] and [read_bytes], the values it can store ([good]), the value
    that is read back ([canon]) and the round trip. *)

From S2P Require Import Prelude Bytes KeyValue PkgSpec PkgFields.
From Stdlib Require Import NArith ZArith Init.Byte.
From stdpp Require Import base tactics list sets strings.

Module MapKeyFuncNode.
Section node.
Context `{B : Blake3}.

Record t := { key : list Byte.byte; func_unique_id : list Byte.byte }.

Definition KEY_KEY_STR : list Byte.byte := str "key".
Definition KEY_FUNC_UNIQUE_ID_STR : list Byte.byte := str "func_unique_id".

Definition write_bytes (n : t) : writer :=
  write_key_value_line KEY_KEY_STR (key n) +++
  write_key_value_line KEY_FUNC_UNIQUE_ID_STR (func_unique_id n).

Definition read_bytes : reader (option t) :=
  key ← read_key_value_line KEY_KEY_STR;
  func_unique_id ← read_key_value_line KEY_FUNC_UNIQUE_ID_STR;
  mret (Some {| key := key; func_unique_id := func_unique_id |}).

Definition good (n : t) : Prop := text (key n) ∧ text (func_unique_id n).

Lemma MapKeyFunc_roundtrip : roundtrips write_bytes read_bytes good id.
Proof.
  intros [k f] rest (? & ?) Hend; simpl in *. eexists. unfold write_bytes, read_bytes; simpl.
  split; [written; reflexivity|]. run_reader.
Qed.

End node.
End MapKeyFuncNode.

Module SiPropFuncNode.
Section node.
Context `{B : Blake3}.

Record t := {
  kind : SiPropFuncSpecKind.t;
  func_unique_id : list Byte.byte;
  unique_id : option (list Byte.byte);
  deleted : bool;
}.

Definition KEY_KIND_STR : list Byte.byte := str "kind".
Definition KEY_FUNC_UNIQUE_ID_STR : list Byte.byte := str "func_unique_id".

Definition write_bytes (n : t) : writer :=
  write_key_value_line KEY_KIND_STR (to_string (kind n)) +++
  write_key_value_line KEY_FUNC_UNIQUE_ID_STR (func_unique_id n) +++
  write_common_fields (unique_id n) (deleted n).

Definition read_bytes : reader (option t) :=
  kind ← read_variant KEY_KIND_STR;
  func_unique_id ← read_key_value_line KEY_FUNC_UNIQUE_ID_STR;
  '(unique_id, deleted) ← read_common_fields;
  mret (Some {| kind := kind; func_unique_id := func_unique_id;
                unique_id := unique_id; deleted := deleted |}).

Definition good (n : t) : Prop := text (func_unique_id n) ∧ opt_text (unique_id n).

Definition canon (n : t) : t :=
  {| kind := kind n; func_unique_id := func_unique_id n;
     unique_id := canon_opt (unique_id n); deleted := deleted n |}.

Lemma SiPropFunc_roundtrip : roundtrips write_bytes read_bytes good canon.
Proof.
  intros [k f u d] rest (? & ?) Hend; simpl in *. eexists.
  unfold write_bytes, read_bytes; simpl. split; [written; reflexivity|]. run_reader.
Qed.

Lemma SiPropFunc_canon_bytes : canonical write_bytes good canon.
Proof. unfold write_bytes, canon. same_bytes. Qed.

End node.
End SiPropFuncNode.

Module LeafFunctionNode.
Section node.
Context `{B : Blake3}.

Record t := {
  func_unique_id : list Byte.byte;
  leaf_kind : LeafKind.t;
  input_code : bool;
  input_deleted_at : bool;
  input_domain : bool;
  input_resource : bool;
  unique_id : option (list Byte.byte);
  deleted : bool;
}.

Definition FUNC_UNIQUE_ID_STR : list Byte.byte := str "func_unique_id".
Definition LEAF_KIND_STR : list Byte.byte := str "leaf_kind".
Definition INPUT_DOMAIN_STR : list Byte.byte := str "input_domain".
Definition INPUT_DELETED_AT_STR : list Byte.byte := str "input_deleted_at".
Definition INPUT_CODE_STR : list Byte.byte := str "input_code".
Definition INPUT_RESOURCE_STR : list Byte.byte := str "input_resource".

Definition write_bytes (n : t) : writer :=
  write_key_value_line LEAF_KIND_STR (to_string (leaf_kind n)) +++
  write_key_value_line FUNC_UNIQUE_ID_STR (func_unique_id n) +++
  write_key_value_line INPUT_CODE_STR (print_bool (input_code n)) +++
  write_key_value_line INPUT_DOMAIN_STR (print_bool (input_domain n)) +++
  write_key_value_line INPUT_DELETED_AT_STR (print_bool (input_deleted_at n)) +++
  write_key_value_line INPUT_RESOURCE_STR (print_bool (input_resource n)) +++
  write_common_fields (unique_id n) (deleted n).

Definition read_bytes : reader (option t) :=
  leaf_kind ← read_variant LEAF_KIND_STR;
  func_unique_id ← read_key_value_line FUNC_UNIQUE_ID_STR;
  input_code ← read_bool INPUT_CODE_STR;
  input_domain ← read_bool INPUT_DOMAIN_STR;
  input_deleted_at ← read_bool INPUT_DELETED_AT_STR;
  input_resource ← read_bool INPUT_RESOURCE_STR;
  '(unique_id, deleted) ← read_common_fields;
  mret (Some {| func_unique_id := func_unique_id; leaf_kind := leaf_kind;
                input_code := input_code; input_deleted_at := input_deleted_at;
                input_domain := input_domain; input_resource := input_resource;
                unique_id := unique_id; deleted := deleted |}).

Definition good (n : t) : Prop := text (func_unique_id n) ∧ opt_text (unique_id n).

Definition canon (n : t) : t :=
  {| func_unique_id := func_unique_id n; leaf_kind := leaf_kind n;
     input_code := input_code n; input_deleted_at := input_deleted_at n;
     input_domain := input_domain n; input_resource := input_resource n;
     unique_id := canon_opt (unique_id n); deleted := deleted n |}.

Lemma LeafFunction_roundtrip : roundtrips write_bytes read_bytes good canon.
Proof.
  intros [] rest (? & ?) Hend; simpl in *. eexists.
  unfold write_bytes, read_bytes; simpl. split; [written; reflexivity|]. run_reader.
Qed.

Lemma LeafFunction_canon_bytes : canonical write_bytes good canon.
Proof. unfold write_bytes, canon. same_bytes. Qed.

End node.
End LeafFunctionNode.

Module PositionNode.
Section node.
Context `{B : Blake3}.

Record t := {
  x : list Byte.byte;
  y : list Byte.byte;
  width : option (list Byte.byte);
  height : option (list Byte.byte);
}.

Definition KEY_X_STR : list Byte.byte := str "x".
Definition KEY_Y_STR : list Byte.byte := str "y".
Definition KEY_WIDTH_STR : list Byte.byte := str "width".
Definition KEY_HEIGHT_STR : list Byte.byte := str "height".

Definition write_bytes (n : t) : writer :=
  write_key_value_line KEY_X_STR (x n) +++
  write_key_value_line KEY_Y_STR (y n) +++
  write_key_value_line KEY_WIDTH_STR (or_empty (width n)) +++
  write_key_value_line KEY_HEIGHT_STR (or_empty (height n)).

Definition read_bytes : reader (option t) :=
  x ← read_key_value_line KEY_X_STR;
  y ← read_key_value_line KEY_Y_STR;
  width ← read_or_none KEY_WIDTH_STR;
  height ← read_or_none KEY_HEIGHT_STR;
  mret (Some {| x := x; y := y; width := width; height := height |}).

Definition good (n : t) : Prop :=
  text (x n) ∧ text (y n) ∧ opt_text (width n) ∧ opt_text (height n).

Definition canon (n : t) : t :=
  {| x := x n; y := y n; width := canon_opt (width n); height := canon_opt (height n) |}.

Lemma Position_roundtrip : roundtrips write_bytes read_bytes good canon.
Proof.
  intros [] rest (? & ? & ? & ?) Hend; simpl in *. eexists.
  unfold write_bytes, read_bytes; simpl. split; [written; reflexivity|]. run_reader.
Qed.

Lemma Position_canon_bytes : canonical write_bytes good canon.
Proof. unfold write_bytes, canon. same_bytes. Qed.

End node.
End PositionNode.

Module FuncArgumentNode.
Section node.
Context `{B : Blake3}.

Record t := {
  name : list Byte.byte;
  kind : FuncArgumentKind.t;
  element_kind : option FuncArgumentKind.t;
  unique_id : option (list Byte.byte);
  deleted : bool;
}.

Definition KEY_NAME_STR : list Byte.byte := str "name".
Definition KEY_KIND_STR : list Byte.byte := str "kind".
Definition KEY_ELEMENT_KIND_STR : list Byte.byte := str "element_kind".

Definition write_bytes (n : t) : writer :=
  write_key_value_line KEY_NAME_STR (name n) +++
  write_key_value_line KEY_KIND_STR (to_string (kind n)) +++
  write_key_value_line KEY_ELEMENT_KIND_STR (or_empty (to_string <$> element_kind n)) +++
  write_common_fields (unique_id n) (deleted n).

Definition read_bytes : reader (option t) :=
  name ← read_key_value_line KEY_NAME_STR;
  kind ← read_variant KEY_KIND_STR;
  element_kind ← read_variant_or_none KEY_ELEMENT_KIND_STR;
  '(unique_id, deleted) ← read_common_fields;
  mret (Some {| name := name; kind := kind; element_kind := element_kind;
                unique_id := unique_id; deleted := deleted |}).

Definition good (n : t) : Prop := text (name n) ∧ opt_text (unique_id n).

Definition canon (n : t) : t :=
  {| name := name n; kind := kind n; element_kind := element_kind n;
     unique_id := canon_opt (unique_id n); deleted := deleted n |}.

Lemma FuncArgument_roundtrip : roundtrips write_bytes read_bytes good canon.
Proof.
  intros [] rest (? & ?) Hend; simpl in *. eexists.
  unfold write_bytes, read_bytes; simpl. split; [written; reflexivity|]. run_reader.
Qed.

Lemma FuncArgument_canon_bytes : canonical write_bytes good canon.
Proof. unfold write_bytes, canon. same_bytes. Qed.

End node.
End FuncArgumentNode.

Module ActionFuncNode.
Section node.
Context `{B : Blake3}.

Record t := {
  name : option (list Byte.byte);
  func_unique_id : list Byte.byte;
  kind : ActionFuncSpecKind.t;
  unique_id : option (list Byte.byte);
  deleted : bool;
}.

Definition KEY_KIND_STR : list Byte.byte := str "kind".
Definition KEY_FUNC_UNIQUE_ID_STR : list Byte.byte := str "func_unique_id".
Definition KEY_NAME_STR : list Byte.byte := str "name".

Definition write_bytes (n : t) : writer :=
  write_key_value_line KEY_KIND_STR (to_string (kind n)) +++
  write_key_value_line KEY_FUNC_UNIQUE_ID_STR (func_unique_id n) +++
  write_key_value_line_opt KEY_NAME_STR (name n) +++
  write_common_fields (unique_id n) (deleted n).

Definition read_bytes : reader (option t) :=
  kind ← read_variant KEY_KIND_STR;
  func_unique_id ← read_key_value_line KEY_FUNC_UNIQUE_ID_STR;
  name ← read_key_value_line_opt KEY_NAME_STR;
  '(unique_id, deleted) ← read_common_fields;
  mret (Some {| name := name; func_unique_id := func_unique_id; kind := kind;
                unique_id := unique_id; deleted := deleted |}).

Definition good (n : t) : Prop :=
  opt_text (name n) ∧ text (func_unique_id n) ∧ opt_text (unique_id n).

Definition canon (n : t) : t :=
  {| name := name n; func_unique_id := func_unique_id n; kind := kind n;
     unique_id := canon_opt (unique_id n); deleted := deleted n |}.

Lemma ActionFunc_roundtrip : roundtrips write_bytes read_bytes good canon.
Proof.
  intros [[name0|] f k u d] rest (? & ? & ?) Hend; simpl in *; eexists;
    unfold write_bytes, read_bytes; simpl; (split; [written; reflexivity|]); run_reader.
Qed.

Lemma ActionFunc_canon_bytes : canonical write_bytes good canon.
Proof. unfold write_bytes, canon. same_bytes. Qed.

End node.
End ActionFuncNode.

Module EdgeNode.
Section node.
Context `{B : Blake3}.

Record t := {
  edge_kind : EdgeSpecKind.t;
  from_component_unique_id : list Byte.byte;
  from_socket_name : list Byte.byte;
  to_component_unique_id : list Byte.byte;
  to_socket_name : list Byte.byte;
  creation_user_pk : option (list Byte.byte);
  deletion_user_pk : option (list Byte.byte);
  deleted_implicitly : bool;
  unique_id : list Byte.byte;
  deleted : bool;
}.

Definition KEY_EDGE_KIND_STR : list Byte.byte := str "edge_kind".
Definition KEY_FROM_COMPONENT_UNIQUE_ID_STR : list Byte.byte := str "from_component_unique_id".
Definition KEY_FROM_SOCKET_NAME_STR : list Byte.byte := str "from_socket_name".
Definition KEY_TO_COMPONENT_UNIQUE_ID_STR : list Byte.byte := str "to_component_unique_id".
Definition KEY_TO_SOCKET_NAME_STR : list Byte.byte := str "to_socket_name".
Definition KEY_DELETION_USER_PK_STR : list Byte.byte := str "deletion_user_pk".
Definition KEY_CREATION_USER_PK_STR : list Byte.byte := str "creation_user_pk".
Definition KEY_DELETED_IMPLICITLY_STR : list Byte.byte := str "deleted_implicitly".

Definition write_bytes (n : t) : writer :=
  write_key_value_line KEY_EDGE_KIND_STR (to_string (edge_kind n)) +++
  write_key_value_line KEY_FROM_COMPONENT_UNIQUE_ID_STR (from_component_unique_id n) +++
  write_key_value_line KEY_FROM_SOCKET_NAME_STR (from_socket_name n) +++
  write_key_value_line KEY_TO_COMPONENT_UNIQUE_ID_STR (to_component_unique_id n) +++
  write_key_value_line KEY_TO_SOCKET_NAME_STR (to_socket_name n) +++
  write_key_value_line KEY_CREATION_USER_PK_STR (or_empty (creation_user_pk n)) +++
  write_key_value_line KEY_DELETION_USER_PK_STR (or_empty (deletion_user_pk n)) +++
  write_key_value_line KEY_DELETED_IMPLICITLY_STR (print_bool (deleted_implicitly n)) +++
  write_key_value_line KEY_UNIQUE_ID_STR (unique_id n) +++
  write_key_value_line KEY_DELETED_STR (print_bool (deleted n)).

Definition read_bytes : reader (option t) :=
  edge_kind ← read_variant KEY_EDGE_KIND_STR;
  from_component_unique_id ← read_key_value_line KEY_FROM_COMPONENT_UNIQUE_ID_STR;
  from_socket_name ← read_key_value_line KEY_FROM_SOCKET_NAME_STR;
  to_component_unique_id ← read_key_value_line KEY_TO_COMPONENT_UNIQUE_ID_STR;
  to_socket_name ← read_key_value_line KEY_TO_SOCKET_NAME_STR;
  creation_user_pk ← read_or_none KEY_CREATION_USER_PK_STR;
  deletion_user_pk ← read_or_none KEY_DELETION_USER_PK_STR;
  deleted_implicitly ← read_bool KEY_DELETED_IMPLICITLY_STR;
  unique_id ← read_key_value_line KEY_UNIQUE_ID_STR;
  deleted ← read_bool KEY_DELETED_STR;
  mret (Some {| edge_kind := edge_kind;
                from_component_unique_id := from_component_unique_id;
                from_socket_name := from_socket_name;
                to_component_unique_id := to_component_unique_id;
                to_socket_name := to_socket_name;
                creation_user_pk := creation_user_pk;
                deletion_user_pk := deletion_user_pk;
                deleted_implicitly := deleted_implicitly;
                unique_id := unique_id; deleted := deleted |}).

Definition good (n : t) : Prop :=
  text (from_component_unique_id n) ∧ text (from_socket_name n) ∧
  text (to_component_unique_id n) ∧ text (to_socket_name n) ∧
  opt_text (creation_user_pk n) ∧ opt_text (deletion_user_pk n) ∧ text (unique_id n).

Definition canon (n : t) : t :=
  {| edge_kind := edge_kind n;
     from_component_unique_id := from_component_unique_id n;
     from_socket_name := from_socket_name n;
     to_component_unique_id := to_component_unique_id n;
     to_socket_name := to_socket_name n;
     creation_user_pk := canon_opt (creation_user_pk n);
     deletion_user_pk := canon_opt (deletion_user_pk n);
     deleted_implicitly := deleted_implicitly n;
     unique_id := unique_id n; deleted := deleted n |}.

Lemma Edge_roundtrip : roundtrips write_bytes read_bytes good canon.
Proof.
  intros [] rest (? & ? & ? & ? & ? & ? & ?) Hend; simpl in *. eexists.
  unfold write_bytes, read_bytes; simpl. split; [written; reflexivity|]. run_reader.
Qed.

Lemma Edge_canon_bytes : canonical write_bytes good canon.
Proof. unfold write_bytes, canon. same_bytes. Qed.

End node.
End EdgeNode.

Module ComponentNode.
Section node.
Context `{B : Blake3} {X : Externals}.

Record t := {
  name : list Byte.byte;
  variant : ComponentSpecVariant;
  needs_destroy : bool;
  deletion_user_pk : option (list Byte.byte);
  unique_id : list Byte.byte;
  deleted : bool;
}.

Definition KEY_NAME_STR : list Byte.byte := str "name".
Definition KEY_VARIANT_STR : list Byte.byte := str "variant".
Definition KEY_NEEDS_DESTROY_STR : list Byte.byte := str "needs_destroy".
Definition KEY_DELETION_USER_PK_STR : list Byte.byte := str "deletion_user_pk".

Definition write_bytes (n : t) : writer :=
  write_key_value_line KEY_NAME_STR (name n) +++
  write_encoded KEY_VARIANT_STR (variant n) +++
  write_key_value_line KEY_NEEDS_DESTROY_STR (print_bool (needs_destroy n)) +++
  write_key_value_line KEY_DELETION_USER_PK_STR (or_empty (deletion_user_pk n)) +++
  write_key_value_line KEY_UNIQUE_ID_STR (unique_id n) +++
  write_key_value_line KEY_DELETED_STR (print_bool (deleted n)).

Definition read_bytes : reader (option t) :=
  name ← read_key_value_line KEY_NAME_STR;
  variant ← read_decoded JsonError KEY_VARIANT_STR;
  needs_destroy ← read_bool KEY_NEEDS_DESTROY_STR;
  deletion_user_pk ← read_or_none KEY_DELETION_USER_PK_STR;
  unique_id ← read_key_value_line KEY_UNIQUE_ID_STR;
  deleted ← read_bool KEY_DELETED_STR;
  mret (Some {| name := name; variant := variant; needs_destroy := needs_destroy;
                deletion_user_pk := deletion_user_pk; unique_id := unique_id;
                deleted := deleted |}).

Definition good (n : t) : Prop :=
  text (name n) ∧ codec_ok (variant n) ∧ opt_text (deletion_user_pk n) ∧ text (unique_id n).

Definition canon (n : t) : t :=
  {| name := name n; variant := variant n; needs_destroy := needs_destroy n;
     deletion_user_pk := canon_opt (deletion_user_pk n); unique_id := unique_id n;
     deleted := deleted n |}.

Lemma Component_roundtrip : roundtrips write_bytes read_bytes good canon.
Proof.
  intros [] rest (? & ? & ? & ?) Hend; simpl in *. eexists.
  unfold write_bytes, read_bytes; simpl. split; [written; reflexivity|]. run_reader.
Qed.

Lemma Component_canon_bytes : canonical write_bytes good canon.
Proof. unfold write_bytes, canon. same_bytes. Qed.

End node.
End ComponentNode.

Module ChangeSetNode.
Section node.
Context `{B : Blake3}.

Record t := {
  name : list Byte.byte;
  based_on_change_set : option (list Byte.byte);
  status : ChangeSetSpecStatus.t;
}.

Definition KEY_NAME_STR : list Byte.byte := str "name".
Definition KEY_BASED_ON_CHANGE_SET : list Byte.byte := str "based_on_change_set".
Definition KEY_STATUS : list Byte.byte := str "status".

Definition write_bytes (n : t) : writer :=
  write_key_value_line KEY_NAME_STR (name n) +++
  write_key_value_line KEY_BASED_ON_CHANGE_SET (or_empty (based_on_change_set n)) +++
  write_key_value_line KEY_STATUS (to_string (status n)).

Definition read_bytes : reader (option t) :=
  name ← read_key_value_line KEY_NAME_STR;
  based_on_change_set ← read_or_none KEY_BASED_ON_CHANGE_SET;
  status ← read_variant KEY_STATUS;
  mret (Some {| name := name; based_on_change_set := based_on_change_set; status := status |}).

Definition good (n : t) : Prop := text (name n) ∧ opt_text (based_on_change_set n).

Definition canon (n : t) : t :=
  {| name := name n; based_on_change_set := canon_opt (based_on_change_set n);
     status := status n |}.

Lemma ChangeSet_roundtrip : roundtrips write_bytes read_bytes good canon.
Proof.
  intros [] rest (? & ?) Hend; simpl in *. eexists.
  unfold write_bytes, read_bytes; simpl. split; [written; reflexivity|]. run_reader.
Qed.

Lemma ChangeSet_canon_bytes : canonical write_bytes good canon.
Proof. unfold write_bytes, canon. same_bytes. Qed.

End node.
End ChangeSetNode.

Module AttributeValueNode.
Section node.
Context `{B : Blake3} {X : Externals}.

Record t := {
  backend_kind : FuncSpecBackendKind.t;
  code_base64 : option (list Byte.byte);
  func_binding_args : Json;
  func_unique_id : list Byte.byte;
  handler : option (list Byte.byte);
  output_stream : option Json;
  parent_path : option AttributeValuePath;
  path : AttributeValuePath;
  response_type : FuncSpecBackendResponseType.t;
  is_proxy : bool;
  sealed_proxy : bool;
  component_specific : bool;
  unprocessed_value : option Json;
  value : option Json;
  implicit_value : option Json;
}.

Definition KEY_BACKEND_KIND_STR : list Byte.byte := str "backend_kind".
Definition KEY_RESPONSE_TYPE_STR : list Byte.byte := str "response_type".
Definition KEY_CODE_STR : list Byte.byte := str "code".
Definition KEY_FUNC_BINDING_ARGS_STR : list Byte.byte := str "func_binding_args".
Definition KEY_FUNC_UNIQUE_ID_STR : list Byte.byte := str "func_unique_id".
Definition KEY_HANDLER_STR : list Byte.byte := str "handler".
Definition KEY_OUTPUT_STREAM_STR : list Byte.byte := str "output_stream".
Definition KEY_PARENT_PATH_STR : list Byte.byte := str "parent_path".
Definition KEY_PATH_STR : list Byte.byte := str "path".
Definition KEY_IS_PROXY_STR : list Byte.byte := str "is_proxy".
Definition KEY_SEALED_PROXY_STR : list Byte.byte := str "sealed_proxy".
Definition KEY_UNPROCESSED_VALUE_STR : list Byte.byte := str "unprocessed_value".
Definition KEY_VALUE_STR : list Byte.byte := str "value".
Definition KEY_COMPONENT_SPECIFIC_STR : list Byte.byte := str "component_specific".
Definition KEY_IMPLICIT_VALUE_STR : list Byte.byte := str "implicit_value".

Definition write_bytes (n : t) : writer :=
  write_key_value_line KEY_BACKEND_KIND_STR (to_string (backend_kind n)) +++
  write_key_value_line KEY_CODE_STR (or_empty (code_base64 n)) +++
  write_encoded KEY_FUNC_BINDING_ARGS_STR (func_binding_args n) +++
  write_key_value_line KEY_FUNC_UNIQUE_ID_STR (func_unique_id n) +++
  write_key_value_line KEY_HANDLER_STR (or_empty (handler n)) +++
  write_encoded_or_empty KEY_OUTPUT_STREAM_STR (output_stream n) +++
  write_encoded_or_empty KEY_PARENT_PATH_STR (parent_path n) +++
  write_encoded KEY_PATH_STR (path n) +++
  write_key_value_line KEY_RESPONSE_TYPE_STR (to_string (response_type n)) +++
  write_key_value_line KEY_IS_PROXY_STR (print_bool (is_proxy n)) +++
  write_key_value_line KEY_SEALED_PROXY_STR (print_bool (sealed_proxy n)) +++
  write_key_value_line KEY_COMPONENT_SPECIFIC_STR (print_bool (component_specific n)) +++
  write_encoded_or_empty KEY_UNPROCESSED_VALUE_STR (unprocessed_value n) +++
  write_encoded_or_empty KEY_VALUE_STR (value n) +++
  write_encoded_opt KEY_IMPLICIT_VALUE_STR (implicit_value n).

Definition read_bytes : reader (option t) :=
  backend_kind ← read_variant KEY_BACKEND_KIND_STR;
  code_base64 ← read_or_none KEY_CODE_STR;
  func_binding_args ← read_decoded JsonError KEY_FUNC_BINDING_ARGS_STR;
  func_unique_id ← read_key_value_line KEY_FUNC_UNIQUE_ID_STR;
  handler ← read_or_none KEY_HANDLER_STR;
  output_stream ← read_decoded_or_none JsonError KEY_OUTPUT_STREAM_STR;
  parent_path ← read_decoded_or_none JsonError KEY_PARENT_PATH_STR;
  path ← read_decoded JsonError KEY_PATH_STR;
  response_type ← read_variant KEY_RESPONSE_TYPE_STR;
  is_proxy ← read_bool KEY_IS_PROXY_STR;
  sealed_proxy ← read_bool KEY_SEALED_PROXY_STR;
  component_specific ← read_bool KEY_COMPONENT_SPECIFIC_STR;
  unprocessed_value ← read_decoded_or_none JsonError KEY_UNPROCESSED_VALUE_STR;
  value ← read_decoded_or_none JsonError KEY_VALUE_STR;
  implicit_value_str ← read_key_value_line_opt KEY_IMPLICIT_VALUE_STR;
  implicit_value ← match implicit_value_str with
                   | Some s => v ← parsed JsonError (decode s); mret (Some v)
                   | None => mret None
                   end;
  mret (Some {| backend_kind := backend_kind; code_base64 := code_base64;
                func_binding_args := func_binding_args; func_unique_id := func_unique_id;
                handler := handler; output_stream := output_stream;
                parent_path := parent_path; path := path; response_type := response_type;
                is_proxy := is_proxy; sealed_proxy := sealed_proxy;
                component_specific := component_specific;
                unprocessed_value := unprocessed_value; value := value;
                implicit_value := implicit_value |}).

Definition good (n : t) : Prop :=
  opt_text (code_base64 n) ∧ codec_ok (func_binding_args n) ∧ text (func_unique_id n) ∧
  opt_text (handler n) ∧ opt_codec_ok (output_stream n) ∧ opt_codec_ok (parent_path n) ∧
  codec_ok (path n) ∧ opt_codec_ok (unprocessed_value n) ∧ opt_codec_ok (value n) ∧
  opt_codec_ok (implicit_value n).

Definition canon (n : t) : t :=
  {| backend_kind := backend_kind n; code_base64 := canon_opt (code_base64 n);
     func_binding_args := func_binding_args n; func_unique_id := func_unique_id n;
     handler := canon_opt (handler n); output_stream := output_stream n;
     parent_path := parent_path n; path := path n; response_type := response_type n;
     is_proxy := is_proxy n; sealed_proxy := sealed_proxy n;
     component_specific := component_specific n;
     unprocessed_value := unprocessed_value n; value := value n;
     implicit_value := implicit_value n |}.

Lemma AttributeValue_roundtrip : roundtrips write_bytes read_bytes good canon.
Proof.
  intros [] rest (? & ? & ? & ? & ? & ? & ? & ? & ? & Hi) Hend; simpl in *.
  destruct implicit_value0 as [iv|]; simpl in Hi; eexists; unfold write_bytes, read_bytes; simpl.
  - unfold write_encoded_opt. split; [written; reflexivity|]. run_reader.
    rewrite (run_parsed _ _ iv); [done|].
    destruct Hi as (s & He & _ & _ & Hd). unfold encoded_text. by rewrite He.
  - unfold write_encoded_opt. split; [written; reflexivity|]. run_reader.
Qed.

Lemma AttributeValue_canon_bytes : canonical write_bytes good canon.
Proof. unfold write_bytes, canon. same_bytes. Qed.

End node.
End AttributeValueNode.

Module AttributeValueChildNode.
Section node.
Context `{B : Blake3}.

Inductive t : Set :=
| AttrFuncInputs.

#[global] Instance eq_dec : EqDecision t.
Proof. solve_decision. Defined.

Definition KEY_KIND_STR : list Byte.byte := str "kind".

(** The kind string, and the name. *)
Definition kind_str (n : t) : list Byte.byte :=
  match n with
  | AttrFuncInputs => str "attr_func_inputs"
  end.

Definition write_bytes (n : t) : writer := write_key_value_line KEY_KIND_STR (kind_str n).

(** An unknown kind is no node, not an error. *)
Definition read_bytes : reader (option t) :=
  kind_str ← read_key_value_line KEY_KIND_STR;
  mret (
    if decide (kind_str = str "attr_func_inputs") then Some AttrFuncInputs
    else None).

Lemma AttributeValueChild_roundtrip : roundtrips write_bytes read_bytes (λ _, True) id.
Proof.
  intros n rest _ _. eexists. unfold write_bytes, read_bytes. split; [written; reflexivity|].
  rewrite run_line by (done || (destruct n; by apply text_short; [|vm_compute; lia])).
  by destruct n.
Qed.

End node.
End AttributeValueChildNode.

Module CategoryNode.
Section node.
Context `{B : Blake3}.

Inductive t : Set :=
| ChangeSets | Funcs | Schemas.

#[global] Instance eq_dec : EqDecision t.
Proof. solve_decision. Defined.

Definition KEY_KIND_STR : list Byte.byte := str "kind".

(** The kind string, and the name. *)
Definition kind_str (n : t) : list Byte.byte :=
  match n with
  | ChangeSets => str "change_sets"
  | Funcs => str "funcs"
  | Schemas => str "schemas"
  end.

Definition write_bytes (n : t) : writer := write_key_value_line KEY_KIND_STR (kind_str n).

(** An unknown kind is no node, not an error. *)
Definition read_bytes : reader (option t) :=
  kind_str ← read_key_value_line KEY_KIND_STR;
  mret (
    if decide (kind_str = str "change_sets") then Some ChangeSets
    else if decide (kind_str = str "funcs") then Some Funcs
    else if decide (kind_str = str "schemas") then Some Schemas
    else None).

Lemma Category_roundtrip : roundtrips write_bytes read_bytes (λ _, True) id.
Proof.
  intros n rest _ _. eexists. unfold write_bytes, read_bytes. split; [written; reflexivity|].
  rewrite run_line by (done || (destruct n; by apply text_short; [|vm_compute; lia])).
  by destruct n.
Qed.

End node.
End CategoryNode.

Module ChangeSetChildNode.
Section node.
Context `{B : Blake3}.

Inductive t : Set :=
| Components | Edges | Funcs | Schemas.

#[global] Instance eq_dec : EqDecision t.
Proof. solve_decision. Defined.

Definition KEY_KIND_STR : list Byte.byte := str "kind".

(** The kind string, and the name. *)
Definition kind_str (n : t) : list Byte.byte :=
  match n with
  | Components => str "components"
  | Edges => str "edges"
  | Funcs => str "funcs"
  | Schemas => str "schemas"
  end.

Definition write_bytes (n : t) : writer := write_key_value_line KEY_KIND_STR (kind_str n).

(** An unknown kind is no node, not an error. *)
Definition read_bytes : reader (option t) :=
  kind_str ← read_key_value_line KEY_KIND_STR;
  mret (
    if decide (kind_str = str "components") then Some Components
    else if decide (kind_str = str "edges") then Some Edges
    else if decide (kind_str = str "funcs") then Some Funcs
    else if decide (kind_str = str "schemas") then Some Schemas
    else None).

Lemma ChangeSetChild_roundtrip : roundtrips write_bytes read_bytes (λ _, True) id.
Proof.
  intros n rest _ _. eexists. unfold write_bytes, read_bytes. split; [written; reflexivity|].
  rewrite run_line by (done || (destruct n; by apply text_short; [|vm_compute; lia])).
  by destruct n.
Qed.

End node.
End ChangeSetChildNode.

Module ComponentChildNode.
Section node.
Context `{B : Blake3}.

Inductive t : Set :=
| Attributes | InputSockets | OutputSockets | Position.

#[global] Instance eq_dec : EqDecision t.
Proof. solve_decision. Defined.

Definition KEY_KIND_STR : list Byte.byte := str "kind".

(** The kind string, and the name. *)
Definition kind_str (n : t) : list Byte.byte :=
  match n with
  | Attributes => str "attributes"
  | InputSockets => str "input_sockets"
  | OutputSockets => str "output_sockets"
  | Position => str "position"
  end.

Definition write_bytes (n : t) : writer := write_key_value_line KEY_KIND_STR (kind_str n).

(** An unknown kind is no node, not an error. *)
Definition read_bytes : reader (option t) :=
  kind_str ← read_key_value_line KEY_KIND_STR;
  mret (
    if decide (kind_str = str "attributes") then Some Attributes
    else if decide (kind_str = str "input_sockets") then Some InputSockets
    else if decide (kind_str = str "output_sockets") then Some OutputSockets
    else if decide (kind_str = str "position") then Some Position
    else None).

Lemma ComponentChild_roundtrip : roundtrips write_bytes read_bytes (λ _, True) id.
Proof.
  intros n rest _ _. eexists. unfold write_bytes, read_bytes. split; [written; reflexivity|].
  rewrite run_line by (done || (destruct n; by apply text_short; [|vm_compute; lia])).
  by destruct n.
Qed.

End node.
End ComponentChildNode.

Module PropChildNode.
Section node.
Context `{B : Blake3}.

Inductive t : Set :=
| AttrFuncInputs | MapKeyFuncs | Props | Validations.

#[global] Instance eq_dec : EqDecision t.
Proof. solve_decision. Defined.

Definition KEY_KIND_STR : list Byte.byte := str "kind".

(** The kind string, and the name. *)
Definition kind_str (n : t) : list Byte.byte :=
  match n with
  | AttrFuncInputs => str "attr_func_inputs"
  | MapKeyFuncs => str "map_key_funcs"
  | Props => str "props"
  | Validations => str "validations"
  end.

Definition write_bytes (n : t) : writer := write_key_value_line KEY_KIND_STR (kind_str n).

(** An unknown kind is no node, not an error. *)
Definition read_bytes : reader (option t) :=
  kind_str ← read_key_value_line KEY_KIND_STR;
  mret (
    if decide (kind_str = str "attr_func_inputs") then Some AttrFuncInputs
    else if decide (kind_str = str "map_key_funcs") then Some MapKeyFuncs
    else if decide (kind_str = str "props") then Some Props
    else if decide (kind_str = str "validations") then Some Validations
    else None).

Lemma PropChild_roundtrip : roundtrips write_bytes read_bytes (λ _, True) id.
Proof.
  intros n rest _ _. eexists. unfold write_bytes, read_bytes. split; [written; reflexivity|].
  rewrite run_line by (done || (destruct n; by apply text_short; [|vm_compute; lia])).
  by destruct n.
Qed.

End node.
End PropChildNode.

Module SchemaVariantChildNode.
Section node.
Context `{B : Blake3}.

Inductive t : Set :=
| ActionFuncs | Domain | LeafFunctions | ResourceValue | SecretDefinition |
Secrets | SiPropFuncs | Sockets.

#[global] Instance eq_dec : EqDecision t.
Proof. solve_decision. Defined.

Definition KEY_KIND_STR : list Byte.byte := str "kind".

(** The kind string, and the name. *)
Definition kind_str (n : t) : list Byte.byte :=
  match n with
  | ActionFuncs => str "action_funcs"
  | Domain => str "domain"
  | LeafFunctions => str "leaf_functions"
  | ResourceValue => str "resource_value"
  | SecretDefinition => str "secret_definition"
  | Secrets => str "secrets"
  | SiPropFuncs => str "si_prop_funcs"
  | Sockets => str "sockets"
  end.

Definition write_bytes (n : t) : writer := write_key_value_line KEY_KIND_STR (kind_str n).

(** An unknown kind is no node, not an error. *)
Definition read_bytes : reader (option t) :=
  kind_str ← read_key_value_line KEY_KIND_STR;
  mret (
    if decide (kind_str = str "action_funcs") then Some ActionFuncs
    else if decide (kind_str = str "domain") then Some Domain
    else if decide (kind_str = str "leaf_functions") then Some LeafFunctions
    else if decide (kind_str = str "resource_value") then Some ResourceValue
    else if decide (kind_str = str "secret_definition") then Some SecretDefinition
    else if decide (kind_str = str "secrets") then Some Secrets
    else if decide (kind_str = str "si_prop_funcs") then Some SiPropFuncs
    else if decide (kind_str = str "sockets") then Some Sockets
    else None).

Lemma SchemaVariantChild_roundtrip : roundtrips write_bytes read_bytes (λ _, True) id.
Proof.
  intros n rest _ _. eexists. unfold write_bytes, read_bytes. split; [written; reflexivity|].
  rewrite run_line by (done || (destruct n; by apply text_short; [|vm_compute; lia])).
  by destruct n.
Qed.

End node.
End SchemaVariantChildNode.
