(* ===== verification/PkgNodesData.v ===== *)
(** * Package nodes with optional groups of fields

    The node types of [src/lib/si-pkg/src/node] whose lines depend on what the
    node holds: an optional group of data, optional trailing lines, or lines
    that depend on the kind of the node. Same layout as in [PkgNodes]. *)

From S2P Require Import Prelude Bytes KeyValue PkgSpec PkgFields.
From Stdlib Require Import NArith ZArith Init.Byte.
From stdpp Require Import base tactics list sets strings.

(** [data.link.as_ref().map(|l| l.as_str()).unwrap_or("")]. *)
Definition url_or_empty `{X : Externals} (o : option Url) : list Byte.byte :=
  or_empty (url_as_str <$> o).

Lemma url_or_empty_encoded `{X : Externals} (o : option Url) :
  url_or_empty o = encoded_text o.
Proof. by destruct o. Qed.

Module AttrFuncInputNode.
Section node.
Context `{B : Blake3}.

Inductive t : Type :=
| InputSocket (name socket_name : list Byte.byte) (unique_id : option (list Byte.byte))
    (deleted : bool)
| OutputSocket (name socket_name : list Byte.byte) (unique_id : option (list Byte.byte))
    (deleted : bool)
| Prop_ (name prop_path : list Byte.byte) (unique_id : option (list Byte.byte))
    (deleted : bool).

Definition KEY_KIND_STR : list Byte.byte := str "kind".
Definition KEY_NAME_STR : list Byte.byte := str "name".
Definition KEY_PROP_PATH_STR : list Byte.byte := str "prop_path".
Definition KEY_SOCKET_NAME_STR : list Byte.byte := str "socket_name".

Definition name (n : t) : list Byte.byte :=
  match n with
  | Prop_ name _ _ _ | InputSocket name _ _ _ | OutputSocket name _ _ _ => name
  end.

Definition kind_str (n : t) : list Byte.byte :=
  match n with
  | Prop_ _ _ _ _ => to_string AttrFuncInputSpecKind.Prop_
  | InputSocket _ _ _ _ => to_string AttrFuncInputSpecKind.InputSocket
  | OutputSocket _ _ _ _ => to_string AttrFuncInputSpecKind.OutputSocket
  end.

Definition write_bytes (n : t) : writer :=
  write_key_value_line KEY_NAME_STR (name n) +++
  write_key_value_line KEY_KIND_STR (kind_str n) +++
  match n with
  | OutputSocket _ socket_name _ _ | InputSocket _ socket_name _ _ =>
      write_key_value_line KEY_SOCKET_NAME_STR socket_name
  | Prop_ _ prop_path _ _ => write_key_value_line KEY_PROP_PATH_STR prop_path
  end +++
  match n with
  | InputSocket _ _ unique_id deleted | OutputSocket _ _ unique_id deleted
  | Prop_ _ _ unique_id deleted => write_common_fields unique_id deleted
  end.

Definition read_bytes : reader (option t) :=
  name ← read_key_value_line KEY_NAME_STR;
  kind ← read_variant KEY_KIND_STR;
  match kind with
  | AttrFuncInputSpecKind.Prop_ =>
      prop_path ← read_key_value_line KEY_PROP_PATH_STR;
      '(unique_id, deleted) ← read_common_fields;
      mret (Some (Prop_ name prop_path unique_id deleted))
  | AttrFuncInputSpecKind.InputSocket =>
      socket_name ← read_key_value_line KEY_SOCKET_NAME_STR;
      '(unique_id, deleted) ← read_common_fields;
      mret (Some (InputSocket name socket_name unique_id deleted))
  | AttrFuncInputSpecKind.OutputSocket =>
      socket_name ← read_key_value_line KEY_SOCKET_NAME_STR;
      '(unique_id, deleted) ← read_common_fields;
      mret (Some (OutputSocket name socket_name unique_id deleted))
  end.

Definition good (n : t) : Prop :=
  match n with
  | InputSocket name s u _ | OutputSocket name s u _ | Prop_ name s u _ =>
      text name ∧ text s ∧ opt_text u
  end.

Definition canon (n : t) : t :=
  match n with
  | InputSocket name s u d => InputSocket name s (canon_opt u) d
  | OutputSocket name s u d => OutputSocket name s (canon_opt u) d
  | Prop_ name s u d => Prop_ name s (canon_opt u) d
  end.

Lemma AttrFuncInput_roundtrip : roundtrips write_bytes read_bytes good canon.
Proof.
  intros [] rest (? & ? & ?) Hend; eexists; unfold write_bytes, read_bytes; simpl;
    (split; [written; reflexivity|]); run_reader.
Qed.

Lemma AttrFuncInput_canon_bytes : canonical write_bytes good canon.
Proof. unfold write_bytes, canon. same_bytes. Qed.

End node.
End AttrFuncInputNode.

Module FuncNode.
Section node.
Context `{B : Blake3} {X : Externals}.

Record FuncData := {
  data_name : list Byte.byte;
  display_name : option (list Byte.byte);
  description : option (list Byte.byte);
  handler : list Byte.byte;
  code_base64 : list Byte.byte;
  backend_kind : FuncSpecBackendKind.t;
  response_type : FuncSpecBackendResponseType.t;
  hidden : bool;
  link : option Url;
}.

Record t := {
  name : list Byte.byte;
  data : option FuncData;
  unique_id : list Byte.byte;
  deleted : bool;
  is_from_builtin : option bool;
}.

Definition KEY_NAME_STR : list Byte.byte := str "name".
Definition KEY_DISPLAY_NAME_STR : list Byte.byte := str "display_name".
Definition KEY_DESCRIPTION_STR : list Byte.byte := str "description".
Definition KEY_HANDLER_STR : list Byte.byte := str "handler".
Definition KEY_CODE_STR : list Byte.byte := str "code_base64".
Definition KEY_BACKEND_KIND_STR : list Byte.byte := str "backend_kind".
Definition KEY_RESPONSE_TYPE_STR : list Byte.byte := str "response_type".
Definition KEY_HIDDEN_STR : list Byte.byte := str "hidden".
Definition KEY_LINK_STR : list Byte.byte := str "link".
Definition KEY_IS_FROM_BUILTIN : list Byte.byte := str "is_from_builtin".

Definition write_bytes (n : t) : writer :=
  write_key_value_line KEY_NAME_STR (name n) +++
  match data n with
  | Some data =>
      write_key_value_line KEY_DISPLAY_NAME_STR (or_empty (display_name data)) +++
      write_key_value_line KEY_DESCRIPTION_STR (or_empty (description data)) +++
      write_key_value_line KEY_HANDLER_STR (handler data) +++
      write_key_value_line KEY_CODE_STR (code_base64 data) +++
      write_key_value_line KEY_BACKEND_KIND_STR (to_string (backend_kind data)) +++
      write_key_value_line KEY_RESPONSE_TYPE_STR (to_string (response_type data)) +++
      write_key_value_line KEY_HIDDEN_STR (print_bool (hidden data)) +++
      write_key_value_line KEY_LINK_STR (url_or_empty (link data))
  | None => Ok []
  end +++
  write_common_fields (Some (unique_id n)) (deleted n) +++
  write_key_value_line_opt KEY_IS_FROM_BUILTIN (print_bool <$> is_from_builtin n).

Definition read_bytes : reader (option t) :=
  name ← read_key_value_line KEY_NAME_STR;
  display_name_opt ← read_key_value_line_opt KEY_DISPLAY_NAME_STR;
  data ←
    match display_name_opt with
    | None => mret None
    | Some display_name_str =>
        description ← read_or_none KEY_DESCRIPTION_STR;
        handler ← read_key_value_line KEY_HANDLER_STR;
        code_base64 ← read_key_value_line KEY_CODE_STR;
        backend_kind ← read_variant KEY_BACKEND_KIND_STR;
        response_type ← read_variant KEY_RESPONSE_TYPE_STR;
        hidden ← read_bool KEY_HIDDEN_STR;
        link ← read_decoded_or_none UrlError KEY_LINK_STR;
        mret (Some {| data_name := name; display_name := none_if_empty display_name_str;
                      description := description; handler := handler;
                      code_base64 := code_base64; backend_kind := backend_kind;
                      response_type := response_type; hidden := hidden; link := link |})
    end;
  '(unique_id, deleted) ← read_common_fields;
  is_from_builtin_str ← read_key_value_line_opt KEY_IS_FROM_BUILTIN;
  is_from_builtin ←
    match is_from_builtin_str with
    | Some s => b ← parsed ParseBoolError (parse_bool s); mret (Some b)
    | None => mret None
    end;
  mret (Some {| name := name; data := data; unique_id := from_option id [] unique_id;
                deleted := deleted; is_from_builtin := is_from_builtin |}).

Definition good_data (d : FuncData) : Prop :=
  opt_text (display_name d) ∧ opt_text (description d) ∧ text (handler d) ∧
  text (code_base64 d) ∧ opt_codec_ok (link d).

Definition good (n : t) : Prop :=
  text (name n) ∧ match data n with Some d => good_data d | None => True end ∧
  text (unique_id n).

Definition canon (n : t) : t :=
  {| name := name n;
     data := (λ d, {| data_name := name n; display_name := canon_opt (display_name d);
                      description := canon_opt (description d); handler := handler d;
                      code_base64 := code_base64 d; backend_kind := backend_kind d;
                      response_type := response_type d; hidden := hidden d;
                      link := link d |}) <$> data n;
     unique_id := unique_id n; deleted := deleted n; is_from_builtin := is_from_builtin n |}.

Lemma or_empty_canon_Some (s : list Byte.byte) : from_option id [] (canon_opt (Some s)) = s.
Proof. by destruct s. Qed.

Lemma Func_roundtrip : roundtrips write_bytes read_bytes good canon.
Proof.
  intros [n [d|] u del b] rest (? & Hd & ?) Hend; simpl in *; [destruct Hd as (? & ? & ? & ? & ?)|];
    destruct b as [b|]; eexists; unfold write_bytes, read_bytes; simpl;
    rewrite ?url_or_empty_encoded; (split; [written; reflexivity|]); run_reader.
  all: rewrite ?run_bind, ?(run_parsed _ _ b) by apply parse_print_bool; try done.
  all: unfold mret, reader_ret, canon; simpl; rewrite ?or_empty_canon_Some; try done.
  all: by rewrite none_if_empty_or_empty.
Qed.

Lemma Func_canon_bytes : canonical write_bytes good canon.
Proof.
  intros [n [d|] u del b] ?; unfold write_bytes, canon; simpl; by rewrite ?or_empty_canon.
Qed.

End node.
End FuncNode.

Module PackageNode.
Section node.
Context `{B : Blake3} {X : Externals}.

Record t := {
  kind : SiPkgKind.t;
  name : list Byte.byte;
  version : list Byte.byte;
  description : list Byte.byte;
  created_at : DateTime;
  created_by : list Byte.byte;
  default_change_set : option (list Byte.byte);
  workspace_pk : option (list Byte.byte);
  workspace_name : option (list Byte.byte);
}.

Definition KEY_CREATED_AT_STR : list Byte.byte := str "created_at".
Definition KEY_CREATED_BY_STR : list Byte.byte := str "created_by".
Definition KEY_DEFAULT_CHANGE_SET : list Byte.byte := str "default_change_set".
Definition KEY_DESCRIPTION_STR : list Byte.byte := str "description".
Definition KEY_KIND_STR : list Byte.byte := str "kind".
Definition KEY_NAME_STR : list Byte.byte := str "name".
Definition KEY_VERSION_STR : list Byte.byte := str "version".
Definition KEY_WORKSPACE_PK_STR : list Byte.byte := str "workspace_pk".
Definition KEY_WORKSPACE_NAME_STR : list Byte.byte := str "workspace_name".

Definition write_bytes (n : t) : writer :=
  write_key_value_line KEY_KIND_STR (to_string (kind n)) +++
  write_key_value_line KEY_NAME_STR (name n) +++
  write_key_value_line KEY_VERSION_STR (version n) +++
  write_key_value_line KEY_DESCRIPTION_STR (description n) +++
  write_key_value_line KEY_CREATED_AT_STR (to_rfc3339 (created_at n)) +++
  write_key_value_line KEY_CREATED_BY_STR (created_by n) +++
  write_key_value_line_opt KEY_DEFAULT_CHANGE_SET (default_change_set n) +++
  write_key_value_line_opt KEY_WORKSPACE_PK_STR (workspace_pk n) +++
  write_key_value_line_opt KEY_WORKSPACE_NAME_STR (workspace_name n).

Definition read_bytes : reader (option t) :=
  kind_opt ← read_key_value_line_opt KEY_KIND_STR;
  kind ← match kind_opt with
         | None => mret SiPkgKind.Module_
         | Some kind_str => parsed VariantNotFound (from_str kind_str)
         end;
  name ← read_key_value_line KEY_NAME_STR;
  version ← read_key_value_line KEY_VERSION_STR;
  description ← read_key_value_line KEY_DESCRIPTION_STR;
  created_at ← read_decoded TimeError KEY_CREATED_AT_STR;
  created_by ← read_key_value_line KEY_CREATED_BY_STR;
  default_change_set ← read_key_value_line_opt KEY_DEFAULT_CHANGE_SET;
  workspace_pk ← read_key_value_line_opt KEY_WORKSPACE_PK_STR;
  workspace_name ← read_key_value_line_opt KEY_WORKSPACE_NAME_STR;
  mret (Some {| kind := kind; name := name; version := version; description := description;
                created_at := created_at; created_by := created_by;
                default_change_set := default_change_set; workspace_pk := workspace_pk;
                workspace_name := workspace_name |}).

Definition good (n : t) : Prop :=
  text (name n) ∧ text (version n) ∧ text (description n) ∧ codec_ok (created_at n) ∧
  text (created_by n) ∧ opt_text (default_change_set n) ∧ opt_text (workspace_pk n) ∧
  opt_text (workspace_name n).

Lemma Package_roundtrip : roundtrips write_bytes read_bytes good id.
Proof.
  intros [k n v d ca cb c p w] rest (? & ? & ? & ? & ? & ? & ? & ?) Hend; simpl in *.
  change (to_rfc3339 ca) with (encoded_text (Some ca)).
  destruct c as [c|], p as [p|], w as [w|]; eexists; unfold write_bytes, read_bytes; simpl;
    change (to_rfc3339 ca) with (encoded_text (Some ca));
    (split; [written; reflexivity|]).
  all: run_reader.
  all: rewrite (run_parsed _ _ k) by apply from_str_to_string; run_reader.
Qed.

End node.
End PackageNode.

Module PropNode.
Section node.
Context `{B : Blake3} {X : Externals}.

Record PropNodeData := {
  data_name : list Byte.byte;
  func_unique_id : option (list Byte.byte);
  default_value : option Json;
  widget_kind : PropSpecWidgetKind.t;
  widget_options : option Json;
  doc_link : option Url;
  hidden : bool;
}.

Inductive t : Type :=
| Array (name : list Byte.byte) (data : option PropNodeData) (unique_id : option (list Byte.byte))
| Boolean (name : list Byte.byte) (data : option PropNodeData) (unique_id : option (list Byte.byte))
| Integer (name : list Byte.byte) (data : option PropNodeData) (unique_id : option (list Byte.byte))
| Map (name : list Byte.byte) (data : option PropNodeData) (unique_id : option (list Byte.byte))
| Object (name : list Byte.byte) (data : option PropNodeData) (unique_id : option (list Byte.byte))
| String_ (name : list Byte.byte) (data : option PropNodeData) (unique_id : option (list Byte.byte)).

Definition KEY_KIND_STR : list Byte.byte := str "kind".
Definition KEY_NAME_STR : list Byte.byte := str "name".
Definition KEY_FUNC_UNIQUE_ID_STR : list Byte.byte := str "func_unique_id".
Definition KEY_DEFAULT_VALUE_STR : list Byte.byte := str "default_value".
Definition KEY_WIDGET_KIND_STR : list Byte.byte := str "widget_kind".
Definition KEY_WIDGET_OPTIONS_STR : list Byte.byte := str "widget_options".
Definition KEY_HIDDEN_STR : list Byte.byte := str "hidden".
Definition KEY_DOC_LINK_STR : list Byte.byte := str "doc_link".

Definition kind_str (n : t) : list Byte.byte :=
  match n with
  | String_ _ _ _ => str "string"
  | Integer _ _ _ => str "integer"
  | Boolean _ _ _ => str "boolean"
  | Map _ _ _ => str "map"
  | Array _ _ _ => str "array"
  | Object _ _ _ => str "object"
  end.

Definition name (n : t) : list Byte.byte :=
  match n with
  | String_ name _ _ | Integer name _ _ | Boolean name _ _
  | Map name _ _ | Array name _ _ | Object name _ _ => name
  end.

Definition data (n : t) : option PropNodeData :=
  match n with
  | String_ _ data _ | Integer _ data _ | Boolean _ data _
  | Map _ data _ | Array _ data _ | Object _ data _ => data
  end.

Definition unique_id (n : t) : option (list Byte.byte) :=
  match n with
  | String_ _ _ u | Integer _ _ u | Boolean _ _ u
  | Map _ _ u | Array _ _ u | Object _ _ u => u
  end.

(** The constructor the kind string selects. *)
Definition of_kind_str (kind : list Byte.byte) :
    option (list Byte.byte → option PropNodeData → option (list Byte.byte) → t) :=
  if decide (kind = str "string") then Some String_
  else if decide (kind = str "integer") then Some Integer
  else if decide (kind = str "boolean") then Some Boolean
  else if decide (kind = str "map") then Some Map
  else if decide (kind = str "array") then Some Array
  else if decide (kind = str "object") then Some Object
  else None.

Definition write_bytes (n : t) : writer :=
  write_key_value_line KEY_KIND_STR (kind_str n) +++
  write_key_value_line KEY_NAME_STR (name n) +++
  match data n with
  | Some data =>
      write_key_value_line KEY_FUNC_UNIQUE_ID_STR (or_empty (func_unique_id data)) +++
      write_encoded_or_empty KEY_DEFAULT_VALUE_STR (default_value data) +++
      write_key_value_line KEY_WIDGET_KIND_STR (to_string (widget_kind data)) +++
      write_encoded_or_empty KEY_WIDGET_OPTIONS_STR (widget_options data) +++
      write_key_value_line KEY_HIDDEN_STR (print_bool (hidden data)) +++
      write_key_value_line KEY_DOC_LINK_STR (url_or_empty (doc_link data))
  | None => Ok []
  end +++
  write_key_value_line_opt KEY_UNIQUE_ID_STR (unique_id n).

Definition read_bytes : reader (option t) :=
  kind_str ← read_key_value_line KEY_KIND_STR;
  name ← read_key_value_line KEY_NAME_STR;
  func_unique_id_opt ← read_key_value_line_opt KEY_FUNC_UNIQUE_ID_STR;
  data ←
    match func_unique_id_opt with
    | None => mret None
    | Some func_unique_id_str =>
        default_value ← read_decoded_or_none JsonError KEY_DEFAULT_VALUE_STR;
        widget_kind ← read_variant KEY_WIDGET_KIND_STR;
        widget_options_str ← read_key_value_line KEY_WIDGET_OPTIONS_STR;
        widget_options ←
          match widget_options_str with
          | [] => mret None
          | _ => parsed JsonError (decode_option widget_options_str)
          end;
        hidden ← read_bool KEY_HIDDEN_STR;
        doc_link ← read_decoded_or_none UrlError KEY_DOC_LINK_STR;
        mret (Some {| data_name := name; func_unique_id := none_if_empty func_unique_id_str;
                      default_value := default_value; widget_kind := widget_kind;
                      widget_options := widget_options; doc_link := doc_link;
                      hidden := hidden |})
    end;
  unique_id ← read_key_value_line_opt KEY_UNIQUE_ID_STR;
  match of_kind_str kind_str with
  | Some make => mret (Some (make name data unique_id))
  | None => fail (ParseCustom (str "invalid prop node kind: " ++ kind_str))
  end.

(** Widget options that are JSON [null] read back as no options. *)
Definition good_data (d : PropNodeData) : Prop :=
  opt_text (func_unique_id d) ∧ opt_codec_ok (default_value d) ∧
  opt_codec_ok (widget_options d) ∧
  (match widget_options d with Some v => json_is_null v = false | None => True end) ∧
  opt_codec_ok (doc_link d).

Definition good (n : t) : Prop :=
  text (name n) ∧ match data n with Some d => good_data d | None => True end ∧
  opt_text (unique_id n).

Definition canon_data (name : list Byte.byte) (d : PropNodeData) : PropNodeData :=
  {| data_name := name; func_unique_id := canon_opt (func_unique_id d);
     default_value := default_value d; widget_kind := widget_kind d;
     widget_options := widget_options d; doc_link := doc_link d; hidden := hidden d |}.

Definition canon (n : t) : t :=
  match n with
  | Array name data u => Array name (canon_data name <$> data) u
  | Boolean name data u => Boolean name (canon_data name <$> data) u
  | Integer name data u => Integer name (canon_data name <$> data) u
  | Map name data u => Map name (canon_data name <$> data) u
  | Object name data u => Object name (canon_data name <$> data) u
  | String_ name data u => String_ name (canon_data name <$> data) u
  end.

Lemma kind_str_text n : text (kind_str n).
Proof. destruct n; by apply text_short; [|vm_compute; lia]. Qed.

Lemma of_kind_str_kind n :
  ∃ make, of_kind_str (kind_str n) = Some make ∧
    make (name n) (canon_data (name n) <$> data n) (unique_id n) = canon n.
Proof. destruct n; eexists; (split; [vm_compute; reflexivity|done]). Qed.

(** The widget options line of a good value. *)
Lemma run_widget_options {A} (o : option Json) rest (f : option Json → reader A) :
  opt_codec_ok o → (match o with Some v => json_is_null v = false | None => True end) →
  (match encoded_text o with
   | [] => mret None
   | _ => parsed JsonError (decode_option (encoded_text o))
   end ≫= f) rest = f o rest.
Proof.
  destruct o as [v|]; simpl; [|done]. intros (s & He & _ & Hne & Hd) Hnull.
  unfold encoded_text. rewrite He. simpl. destruct s as [|b s]; [done|].
  apply run_parsed. unfold decode_option. by rewrite Hd, Hnull.
Qed.

(** The widget options line of a null value. *)
Lemma run_widget_options_null {A} (v : Json) rest (f : option Json → reader A) :
  codec_ok v → json_is_null v = true →
  (match encoded_text (Some v) with
   | [] => mret None
   | _ => parsed JsonError (decode_option (encoded_text (Some v)))
   end ≫= f) rest = f None rest.
Proof.
  intros (s & He & _ & Hne & Hd) Hnull. unfold encoded_text. rewrite He. simpl.
  destruct s as [|b s]; [done|]. apply run_parsed. unfold decode_option. by rewrite Hd, Hnull.
Qed.

Lemma Prop_roundtrip : roundtrips write_bytes read_bytes good canon.
Proof.
  intros n rest (? & Hd & Hu) Hend. pose proof (kind_str_text n).
  destruct (of_kind_str_kind n) as (make & Hmake & Hcanon).
  unfold write_bytes, read_bytes.
  destruct (data n) as [d|]; [destruct Hd as (? & ? & ? & ? & ?)|];
    (destruct (unique_id n) as [u|]; simpl in Hu); rewrite ?url_or_empty_encoded;
    eexists; (split; [written; reflexivity|]).
  all: run_reader; rewrite ?run_widget_options by done; run_reader.
  all: rewrite Hmake, <- Hcanon; unfold mret, reader_ret; simpl; try done.
  all: unfold canon_data; by rewrite none_if_empty_or_empty.
Qed.

Lemma Prop_canon_bytes : canonical write_bytes good canon.
Proof.
  intros n ?. unfold write_bytes.
  destruct n as [m d u|m d u|m d u|m d u|m d u|m d u]; destruct d as [d|]; simpl;
    by rewrite ?or_empty_canon.
Qed.

End node.
End PropNode.

Module SchemaNode.
Section node.
Context `{B : Blake3}.

Record SchemaData := {
  data_name : list Byte.byte;
  category : list Byte.byte;
  category_name : option (list Byte.byte);
  ui_hidden : bool;
  default_schema_variant : option (list Byte.byte);
}.

Record t := {
  name : list Byte.byte;
  data : option SchemaData;
  unique_id : option (list Byte.byte);
  deleted : bool;
}.

Definition KEY_CATEGORY_STR : list Byte.byte := str "category".
Definition KEY_CATEGORY_NAME_STR : list Byte.byte := str "category_name".
Definition KEY_NAME_STR : list Byte.byte := str "name".
Definition KEY_UI_HIDDEN_STR : list Byte.byte := str "ui_hidden".
Definition KEY_DEFAULT_SCHEMA_VARIANT_STR : list Byte.byte := str "default_schema_variant".

Definition write_bytes (n : t) : writer :=
  write_key_value_line KEY_NAME_STR (name n) +++
  match data n with
  | Some data =>
      write_key_value_line KEY_CATEGORY_STR (category data) +++
      write_key_value_line KEY_CATEGORY_NAME_STR (or_empty (category_name data)) +++
      write_key_value_line KEY_UI_HIDDEN_STR (print_bool (ui_hidden data)) +++
      write_key_value_line_opt KEY_DEFAULT_SCHEMA_VARIANT_STR (default_schema_variant data)
  | None => Ok []
  end +++
  write_common_fields (unique_id n) (deleted n).

Definition read_bytes : reader (option t) :=
  name ← read_key_value_line KEY_NAME_STR;
  category_opt ← read_key_value_line_opt KEY_CATEGORY_STR;
  data ←
    match category_opt with
    | None => mret None
    | Some category =>
        category_name ← read_or_none KEY_CATEGORY_NAME_STR;
        ui_hidden ← read_bool KEY_UI_HIDDEN_STR;
        default_schema_variant ← read_key_value_line_opt KEY_DEFAULT_SCHEMA_VARIANT_STR;
        mret (Some {| data_name := name; category := category; category_name := category_name;
                      ui_hidden := ui_hidden;
                      default_schema_variant := default_schema_variant |})
    end;
  '(unique_id, deleted) ← read_common_fields;
  mret (Some {| name := name; data := data; unique_id := unique_id; deleted := deleted |}).

Definition good (n : t) : Prop :=
  text (name n) ∧
  match data n with
  | Some d => text (category d) ∧ opt_text (category_name d) ∧ opt_text (default_schema_variant d)
  | None => True
  end ∧ opt_text (unique_id n).

Definition canon (n : t) : t :=
  {| name := name n;
     data := (λ d, {| data_name := name n; category := category d;
                      category_name := canon_opt (category_name d); ui_hidden := ui_hidden d;
                      default_schema_variant := default_schema_variant d |}) <$> data n;
     unique_id := canon_opt (unique_id n); deleted := deleted n |}.

Lemma Schema_roundtrip : roundtrips write_bytes read_bytes good canon.
Proof.
  intros [n [[dn c cn h [v|]]|] u del] rest (? & Hd & ?) Hend; simpl in *;
    [destruct Hd as (? & ? & ?)..|]; eexists; unfold write_bytes, read_bytes; simpl;
    (split; [written; reflexivity|]); run_reader.
Qed.

Lemma Schema_canon_bytes : canonical write_bytes good canon.
Proof.
  intros [n [d|] u del] ?; unfold write_bytes, canon; simpl;
    by rewrite ?or_empty_canon, write_common_canon.
Qed.

End node.
End SchemaNode.

Module SchemaVariantNode.
Section node.
Context `{B : Blake3} {X : Externals}.

Record SchemaVariantData := {
  data_name : list Byte.byte;
  link : option Url;
  color : option (list Byte.byte);
  component_type : SchemaVariantSpecComponentType.t;
  func_unique_id : list Byte.byte;
}.

Record t := {
  name : list Byte.byte;
  data : option SchemaVariantData;
  unique_id : option (list Byte.byte);
  deleted : bool;
}.

Definition KEY_COLOR_STR : list Byte.byte := str "color".
Definition KEY_LINK_STR : list Byte.byte := str "link".
Definition KEY_NAME_STR : list Byte.byte := str "name".
Definition KEY_COMPONENT_TYPE_STR : list Byte.byte := str "component_type".
Definition KEY_FUNC_UNIQUE_ID_STR : list Byte.byte := str "func_unique_id".

Definition write_bytes (n : t) : writer :=
  write_key_value_line KEY_NAME_STR (name n) +++
  match data n with
  | Some data =>
      write_key_value_line KEY_LINK_STR (url_or_empty (link data)) +++
      write_key_value_line KEY_COLOR_STR (or_empty (color data)) +++
      write_key_value_line KEY_COMPONENT_TYPE_STR (to_string (component_type data)) +++
      write_key_value_line KEY_FUNC_UNIQUE_ID_STR (func_unique_id data)
  | None => Ok []
  end +++
  write_common_fields (unique_id n) (deleted n).

Definition read_bytes : reader (option t) :=
  name ← read_key_value_line KEY_NAME_STR;
  link_opt ← read_key_value_line_opt KEY_LINK_STR;
  data ←
    match link_opt with
    | Some link_str =>
        link ← parsed_unless_empty UrlError url_parse link_str;
        color ← read_or_none KEY_COLOR_STR;
        component_type ← read_variant KEY_COMPONENT_TYPE_STR;
        func_unique_id ← read_key_value_line KEY_FUNC_UNIQUE_ID_STR;
        mret (Some {| data_name := name; link := link; color := color;
                      component_type := component_type; func_unique_id := func_unique_id |})
    | None => mret None
    end;
  '(unique_id, deleted) ← read_common_fields;
  mret (Some {| name := name; data := data; unique_id := unique_id; deleted := deleted |}).

Definition good (n : t) : Prop :=
  text (name n) ∧
  match data n with
  | Some d => opt_codec_ok (link d) ∧ opt_text (color d) ∧ text (func_unique_id d)
  | None => True
  end ∧ opt_text (unique_id n).

Definition canon (n : t) : t :=
  {| name := name n;
     data := (λ d, {| data_name := name n; link := link d; color := canon_opt (color d);
                      component_type := component_type d;
                      func_unique_id := func_unique_id d |}) <$> data n;
     unique_id := canon_opt (unique_id n); deleted := deleted n |}.

Lemma run_link {A} (o : option Url) rest (f : option Url → reader A) :
  opt_codec_ok o →
  (parsed_unless_empty UrlError url_parse (encoded_text o) ≫= f) rest = f o rest.
Proof.
  destruct o as [u|]; simpl; [|done]. intros (s & He & _ & Hne & Hd).
  unfold encoded_text. rewrite He. by apply run_unless_empty.
Qed.

Lemma SchemaVariant_roundtrip : roundtrips write_bytes read_bytes good canon.
Proof.
  intros [n [d|] u del] rest (? & Hd & ?) Hend; simpl in *;
    [destruct Hd as (? & ? & ?)|]; eexists; unfold write_bytes, read_bytes; simpl;
    rewrite ?url_or_empty_encoded; (split; [written; reflexivity|]); run_reader.
  rewrite run_link by done. run_reader.
Qed.

Lemma SchemaVariant_canon_bytes : canonical write_bytes good canon.
Proof.
  intros [n [d|] u del] ?; unfold write_bytes, canon; simpl;
    by rewrite ?or_empty_canon, write_common_canon.
Qed.

End node.
End SchemaVariantNode.

Module SocketNode.
Section node.
Context `{B : Blake3}.

Record SocketData := {
  data_name : list Byte.byte;
  kind : SocketSpecKind.t;
  arity : SocketSpecArity.t;
  func_unique_id : option (list Byte.byte);
  ui_hidden : bool;
}.

Record t := {
  name : list Byte.byte;
  data : option SocketData;
  unique_id : option (list Byte.byte);
}.

Definition KEY_KIND_STR : list Byte.byte := str "kind".
Definition KEY_NAME_STR : list Byte.byte := str "name".
Definition KEY_ARITY_STR : list Byte.byte := str "arity".
Definition KEY_FUNC_UNIQUE_ID_STR : list Byte.byte := str "func_unique_id".
Definition KEY_UI_HIDDEN_STR : list Byte.byte := str "ui_hidden".

Definition write_bytes (n : t) : writer :=
  write_key_value_line KEY_NAME_STR (name n) +++
  match data n with
  | Some data =>
      write_key_value_line KEY_KIND_STR (to_string (kind data)) +++
      write_key_value_line KEY_ARITY_STR (to_string (arity data)) +++
      write_key_value_line KEY_FUNC_UNIQUE_ID_STR (or_empty (func_unique_id data)) +++
      write_key_value_line KEY_UI_HIDDEN_STR (print_bool (ui_hidden data))
  | None => Ok []
  end +++
  write_unique_id (unique_id n).

Definition read_bytes : reader (option t) :=
  name ← read_key_value_line KEY_NAME_STR;
  kind_opt ← read_key_value_line_opt KEY_KIND_STR;
  data ←
    match kind_opt with
    | None => mret None
    | Some kind_str =>
        kind ← parsed VariantNotFound (from_str kind_str);
        arity ← read_variant KEY_ARITY_STR;
        func_unique_id ← read_or_none KEY_FUNC_UNIQUE_ID_STR;
        ui_hidden ← read_bool KEY_UI_HIDDEN_STR;
        mret (Some {| data_name := name; kind := kind; arity := arity;
                      func_unique_id := func_unique_id; ui_hidden := ui_hidden |})
    end;
  unique_id ← read_unique_id;
  mret (Some {| name := name; data := data; unique_id := unique_id |}).

Definition good (n : t) : Prop :=
  text (name n) ∧
  match data n with Some d => opt_text (func_unique_id d) | None => True end ∧
  opt_text (unique_id n).

Definition canon (n : t) : t :=
  {| name := name n;
     data := (λ d, {| data_name := name n; kind := kind d; arity := arity d;
                      func_unique_id := canon_opt (func_unique_id d);
                      ui_hidden := ui_hidden d |}) <$> data n;
     unique_id := canon_opt (unique_id n) |}.

Lemma Socket_roundtrip : roundtrips write_bytes read_bytes good canon.
Proof.
  intros [n [d|] u] rest (? & Hd & ?) Hend; simpl in *; eexists;
    unfold write_bytes, read_bytes; simpl; (split; [written; reflexivity|]); run_reader.
  rewrite (run_parsed _ _ (kind d)) by apply from_str_to_string. run_reader.
Qed.

Lemma Socket_canon_bytes : canonical write_bytes good canon.
Proof.
  intros [n [d|] u] ?; unfold write_bytes, canon; simpl;
    by rewrite ?or_empty_canon, write_unique_id_canon.
Qed.

End node.
End SocketNode.

Module ValidationNode.
Section node.
Context `{B : Blake3} {X : Externals}.
Import ValidationSpecKind.

Record t := {
  kind : ValidationSpecKind.t;
  upper_bound : option Z;
  lower_bound : option Z;
  expected_string : option (list Byte.byte);
  expected_string_array : option (list (list Byte.byte));
  display_expected : option bool;
  func_unique_id : option (list Byte.byte);
  unique_id : option (list Byte.byte);
  deleted : bool;
}.

(** [ValidationNode::default] with the given kind and common fields. *)
Definition default (kind : ValidationSpecKind.t) (unique_id : option (list Byte.byte))
    (deleted : bool) : t :=
  {| kind := kind; upper_bound := None; lower_bound := None; expected_string := None;
     expected_string_array := None; display_expected := None; func_unique_id := None;
     unique_id := unique_id; deleted := deleted |}.

Definition KEY_KIND_STR : list Byte.byte := str "kind".
Definition KEY_UPPER_BOUND_STR : list Byte.byte := str "upper_bound".
Definition KEY_LOWER_BOUND_STR : list Byte.byte := str "lower_bound".
Definition KEY_EXPECTED_STRING_STR : list Byte.byte := str "expected_string".
Definition KEY_EXPECTED_STRING_ARRAY_STR : list Byte.byte := str "expected_string_array".
Definition KEY_DISPLAY_EXPECTED_STR : list Byte.byte := str "display_expected".
Definition KEY_FUNC_UNIQUE_ID_STR : list Byte.byte := str "func_unique_id".

Definition write_bytes (n : t) : writer :=
  write_key_value_line KEY_KIND_STR (to_string (kind n)) +++
  match kind n with
  | IntegerIsBetweenTwoIntegers =>
      write_key_value_line KEY_UPPER_BOUND_STR (or_empty (print_Z <$> upper_bound n)) +++
      write_key_value_line KEY_LOWER_BOUND_STR (or_empty (print_Z <$> lower_bound n))
  | StringEquals | StringHasPrefix =>
      write_key_value_line KEY_EXPECTED_STRING_STR (or_empty (expected_string n))
  | StringInStringArray =>
      write_encoded KEY_EXPECTED_STRING_ARRAY_STR
        (from_option id [] (expected_string_array n)) +++
      write_key_value_line KEY_DISPLAY_EXPECTED_STR (or_empty (print_bool <$> display_expected n))
  | CustomValidation =>
      write_key_value_line KEY_FUNC_UNIQUE_ID_STR (or_empty (func_unique_id n))
  | IntegerIsNotEmpty | StringIsValidIpAddr | StringIsHexColor | StringIsNotEmpty => Ok []
  end +++
  write_common_fields (unique_id n) (deleted n).

Definition parsed_i64 (s : list Byte.byte) : reader Z :=
  match parse_i64 s with
  | Ok z => mret z
  | Err e => fail (Parse (ParseIntError e))
  end.

(** The mutable fields the reader starts from, and what the kind sets. *)
Definition read_kind_fields (kind : ValidationSpecKind.t) : reader t :=
  match kind with
  | IntegerIsBetweenTwoIntegers =>
      upper_bound_str ← read_key_value_line KEY_UPPER_BOUND_STR;
      upper_bound ← parsed_i64 upper_bound_str;
      lower_bound_str ← read_key_value_line KEY_LOWER_BOUND_STR;
      lower_bound ← parsed_i64 lower_bound_str;
      mret {| kind := kind; upper_bound := Some upper_bound; lower_bound := Some lower_bound;
              expected_string := None; expected_string_array := None;
              display_expected := None; func_unique_id := None; unique_id := None;
              deleted := false |}
  | StringEquals | StringHasPrefix =>
      expected_string ← read_or_none KEY_EXPECTED_STRING_STR;
      mret {| kind := kind; upper_bound := None; lower_bound := None;
              expected_string := expected_string; expected_string_array := None;
              display_expected := None; func_unique_id := None; unique_id := None;
              deleted := false |}
  | StringInStringArray =>
      expected_string_array ← read_decoded JsonError KEY_EXPECTED_STRING_ARRAY_STR;
      display_expected_str ← read_key_value_line KEY_DISPLAY_EXPECTED_STR;
      display_expected ← parsed_unless_empty ParseBoolError parse_bool display_expected_str;
      mret {| kind := kind; upper_bound := None; lower_bound := None; expected_string := None;
              expected_string_array :=
                match expected_string_array with [] => None | _ => Some expected_string_array end;
              display_expected := display_expected; func_unique_id := None; unique_id := None;
              deleted := false |}
  | CustomValidation =>
      func_unique_id ← read_key_value_line KEY_FUNC_UNIQUE_ID_STR;
      mret {| kind := kind; upper_bound := None; lower_bound := None; expected_string := None;
              expected_string_array := None; display_expected := None;
              func_unique_id := Some func_unique_id; unique_id := None; deleted := false |}
  | IntegerIsNotEmpty | StringIsValidIpAddr | StringIsHexColor | StringIsNotEmpty =>
      mret (default kind None false)
  end.

Definition set_common (n : t) (unique_id : option (list Byte.byte)) (deleted : bool) : t :=
  {| kind := kind n; upper_bound := upper_bound n; lower_bound := lower_bound n;
     expected_string := expected_string n; expected_string_array := expected_string_array n;
     display_expected := display_expected n; func_unique_id := func_unique_id n;
     unique_id := unique_id; deleted := deleted |}.

Definition read_bytes : reader (option t) :=
  kind ← read_variant KEY_KIND_STR;
  fields ← read_kind_fields kind;
  '(unique_id, deleted) ← read_common_fields;
  mret (Some (set_common fields unique_id deleted)).

Definition bound_ok (o : option Z) : Prop :=
  match o with Some z => (i64_min ≤ z ≤ i64_max)%Z | None => False end.

(** A bounds validation needs both bounds: the empty text is not a number. *)
Definition good (n : t) : Prop :=
  match kind n with
  | IntegerIsBetweenTwoIntegers => bound_ok (upper_bound n) ∧ bound_ok (lower_bound n)
  | StringEquals | StringHasPrefix => opt_text (expected_string n)
  | StringInStringArray => codec_ok (from_option id [] (expected_string_array n))
  | CustomValidation => opt_text (func_unique_id n)
  | _ => True
  end ∧ opt_text (unique_id n).

(** What the kind does not use is not stored. *)
Definition canon (n : t) : t :=
  let d := default (kind n) (canon_opt (unique_id n)) (deleted n) in
  match kind n with
  | IntegerIsBetweenTwoIntegers =>
      {| kind := kind n; upper_bound := upper_bound n; lower_bound := lower_bound n;
         expected_string := None; expected_string_array := None; display_expected := None;
         func_unique_id := None; unique_id := unique_id d; deleted := deleted d |}
  | StringEquals | StringHasPrefix =>
      {| kind := kind n; upper_bound := None; lower_bound := None;
         expected_string := canon_opt (expected_string n); expected_string_array := None;
         display_expected := None; func_unique_id := None;
         unique_id := unique_id d; deleted := deleted d |}
  | StringInStringArray =>
      {| kind := kind n; upper_bound := None; lower_bound := None; expected_string := None;
         expected_string_array :=
           match from_option id [] (expected_string_array n) with [] => None | l => Some l end;
         display_expected := display_expected n; func_unique_id := None;
         unique_id := unique_id d; deleted := deleted d |}
  | CustomValidation =>
      {| kind := kind n; upper_bound := None; lower_bound := None; expected_string := None;
         expected_string_array := None; display_expected := None;
         func_unique_id := Some (or_empty (func_unique_id n));
         unique_id := unique_id d; deleted := deleted d |}
  | _ => d
  end.

Lemma print_Z_text z : (i64_min ≤ z ≤ i64_max)%Z → text (print_Z z).
Proof.
  intros Hz. split; [apply print_Z_utf8|]. pose proof (print_Z_length z Hz). unfold isize_max. lia.
Qed.

Lemma run_i64 {A} z rest (f : Z → reader A) :
  (i64_min ≤ z ≤ i64_max)%Z → (parsed_i64 (print_Z z) ≫= f) rest = f z rest.
Proof. intros. unfold parsed_i64. by rewrite parse_print_i64. Qed.

Lemma run_display_expected {A} (o : option bool) rest (f : option bool → reader A) :
  (parsed_unless_empty ParseBoolError parse_bool (or_empty (print_bool <$> o)) ≫= f) rest =
  f o rest.
Proof.
  destruct o as [b|]; simpl; [|done].
  apply run_unless_empty; [apply print_bool_nonempty|apply parse_print_bool].
Qed.

Lemma display_expected_text (o : option bool) : text (or_empty (print_bool <$> o)).
Proof. destruct o; simpl; eauto with si. Qed.

Lemma Validation_roundtrip : roundtrips write_bytes read_bytes good canon.
Proof.
  intros n rest (Hk & ?) Hend. unfold write_bytes, read_bytes, canon, read_kind_fields.
  destruct (kind n); cbv iota; simpl in Hk.
  all: try (eexists; (split; [written; reflexivity|]); run_reader; done).
  - destruct Hk as [Hub Hlb]. destruct (upper_bound n) as [ub|], (lower_bound n) as [lb|];
      try done. simpl in Hub, Hlb. pose proof (print_Z_text ub Hub).
    pose proof (print_Z_text lb Hlb).
    change (or_empty (print_Z <$> Some ub)) with (print_Z ub).
    change (or_empty (print_Z <$> Some lb)) with (print_Z lb).
    eexists. split; [written; reflexivity|].
    run_reader. rewrite run_i64 by done. run_reader. rewrite run_i64 by done. run_reader.
  - pose proof (display_expected_text (display_expected n)).
    eexists. split; [written; reflexivity|]. run_reader.
    rewrite run_display_expected. run_reader.
    by destruct (from_option id [] (expected_string_array n)).
Qed.

Lemma Validation_canon_bytes : canonical write_bytes good canon.
Proof.
  intros n (Hk & _). unfold write_bytes, canon. destruct (kind n) eqn:Hkind; simpl;
    rewrite ?Hkind, ?write_common_canon, ?or_empty_canon; try done.
  by destruct (expected_string_array n) as [[]|].
Qed.

End node.
End ValidationNode.
