(* ===== verification/PkgNode.v ===== *)
(** * Package nodes

    [PkgNode] of [src/lib/si-pkg/src/node/mod.rs]: the node types of a package
    under one roof, told apart by a first line [node_kind]. It is the inner
    type of the object tree: this file shows that it keeps the promises of
    [NodeEntries.NodeFormatOk]. *)

From S2P Require Import Prelude Bytes KeyValue NodeEntries PkgSpec PkgFields PkgNodes PkgNodesData.
From Stdlib Require Import NArith ZArith Init.Byte.
From stdpp Require Import base tactics list sets strings.

Section node.
Context `{B : Blake3} {X : Externals}.

Inductive PkgNode : Type :=
| ActionFunc (node : ActionFuncNode.t)
| AttrFuncInput (node : AttrFuncInputNode.t)
| AttributeValue (node : AttributeValueNode.t)
| AttributeValueChild (node : AttributeValueChildNode.t)
| Category (node : CategoryNode.t)
| ChangeSet (node : ChangeSetNode.t)
| ChangeSetChild (node : ChangeSetChildNode.t)
| Component (node : ComponentNode.t)
| ComponentChild (node : ComponentChildNode.t)
| Edge (node : EdgeNode.t)
| Func (node : FuncNode.t)
| FuncArgument (node : FuncArgumentNode.t)
| LeafFunction (node : LeafFunctionNode.t)
| MapKeyFunc (node : MapKeyFuncNode.t)
| Package (node : PackageNode.t)
| Position (node : PositionNode.t)
| Prop_ (node : PropNode.t)
| PropChild (node : PropChildNode.t)
| Schema (node : SchemaNode.t)
| SchemaVariant (node : SchemaVariantNode.t)
| SchemaVariantChild (node : SchemaVariantChildNode.t)
| SiPropFunc (node : SiPropFuncNode.t)
| Socket (node : SocketNode.t)
| Validation (node : ValidationNode.t).

Definition PKG_KEY_NODE_KIND_STR : list Byte.byte := str "node_kind".

Definition node_kind_str (n : PkgNode) : list Byte.byte :=
  match n with
  | ActionFunc _ => str "action_func"
  | AttrFuncInput _ => str "attr_func_input"
  | AttributeValue _ => str "attribute_value"
  | AttributeValueChild _ => str "attribute_value_child"
  | Category _ => str "category"
  | ChangeSet _ => str "change_set"
  | ChangeSetChild _ => str "change_set_child"
  | Component _ => str "component"
  | ComponentChild _ => str "component_child"
  | Edge _ => str "edge"
  | Func _ => str "func"
  | FuncArgument _ => str "func_argument"
  | LeafFunction _ => str "leaf_function"
  | MapKeyFunc _ => str "map_key_func"
  | Package _ => str "package"
  | Position _ => str "position"
  | Prop_ _ => str "prop"
  | PropChild _ => str "prop_child"
  | Schema _ => str "schema"
  | SchemaVariant _ => str "schema_variant"
  | SchemaVariantChild _ => str "schema_variant_child"
  | SiPropFunc _ => str "si_prop_func"
  | Socket _ => str "socket"
  | Validation _ => str "validation"
  end.

(** The name under which the node is an entry of its parent. *)
Definition PkgNode_name (n : PkgNode) : list Byte.byte :=
  match n with
  | ActionFunc _ => str "action_func"
  | AttrFuncInput node => AttrFuncInputNode.name node
  | AttributeValue _ => str "attribute_value"
  | AttributeValueChild node => AttributeValueChildNode.kind_str node
  | Category node => CategoryNode.kind_str node
  | ChangeSet node => ChangeSetNode.name node
  | ChangeSetChild node => ChangeSetChildNode.kind_str node
  | Component node => ComponentNode.name node
  | ComponentChild node => ComponentChildNode.kind_str node
  | Edge _ => str "edge"
  | Func node => FuncNode.name node
  | FuncArgument node => FuncArgumentNode.name node
  | LeafFunction _ => str "leaf_function"
  | MapKeyFunc _ => str "map_key_func"
  | Package node => PackageNode.name node
  | Position _ => str "position"
  | Prop_ node => PropNode.name node
  | PropChild node => PropChildNode.kind_str node
  | Schema node => SchemaNode.name node
  | SchemaVariant node => SchemaVariantNode.name node
  | SchemaVariantChild node => SchemaVariantChildNode.kind_str node
  | SiPropFunc _ => str "si_prop_func"
  | Socket node => SocketNode.name node
  | Validation _ => str "validation"
  end.

(** The lines after the first one. *)
Definition write_inner (n : PkgNode) : writer :=
  match n with
  | ActionFunc node => ActionFuncNode.write_bytes node
  | AttrFuncInput node => AttrFuncInputNode.write_bytes node
  | AttributeValue node => AttributeValueNode.write_bytes node
  | AttributeValueChild node => AttributeValueChildNode.write_bytes node
  | Category node => CategoryNode.write_bytes node
  | ChangeSet node => ChangeSetNode.write_bytes node
  | ChangeSetChild node => ChangeSetChildNode.write_bytes node
  | Component node => ComponentNode.write_bytes node
  | ComponentChild node => ComponentChildNode.write_bytes node
  | Edge node => EdgeNode.write_bytes node
  | Func node => FuncNode.write_bytes node
  | FuncArgument node => FuncArgumentNode.write_bytes node
  | LeafFunction node => LeafFunctionNode.write_bytes node
  | MapKeyFunc node => MapKeyFuncNode.write_bytes node
  | Package node => PackageNode.write_bytes node
  | Position node => PositionNode.write_bytes node
  | Prop_ node => PropNode.write_bytes node
  | PropChild node => PropChildNode.write_bytes node
  | Schema node => SchemaNode.write_bytes node
  | SchemaVariant node => SchemaVariantNode.write_bytes node
  | SchemaVariantChild node => SchemaVariantChildNode.write_bytes node
  | SiPropFunc node => SiPropFuncNode.write_bytes node
  | Socket node => SocketNode.write_bytes node
  | Validation node => ValidationNode.write_bytes node
  end.

Definition PkgNode_write_bytes (n : PkgNode) : writer :=
  write_key_value_line PKG_KEY_NODE_KIND_STR (node_kind_str n) +++ write_inner n.

(** [T::read_bytes(reader)?.map(wrap)]. *)
Definition read_as {T} (read : reader (option T)) (wrap : T → PkgNode) : reader (option PkgNode) :=
  node ← read; mret (wrap <$> node).

(** An unknown kind is no node, not an error. *)
Definition read_inner (kind : list Byte.byte) : reader (option PkgNode) :=
  if decide (kind = str "action_func") then read_as ActionFuncNode.read_bytes ActionFunc
  else if decide (kind = str "attr_func_input") then read_as AttrFuncInputNode.read_bytes AttrFuncInput
  else if decide (kind = str "attribute_value") then read_as AttributeValueNode.read_bytes AttributeValue
  else if decide (kind = str "attribute_value_child") then read_as AttributeValueChildNode.read_bytes AttributeValueChild
  else if decide (kind = str "category") then read_as CategoryNode.read_bytes Category
  else if decide (kind = str "change_set") then read_as ChangeSetNode.read_bytes ChangeSet
  else if decide (kind = str "change_set_child") then read_as ChangeSetChildNode.read_bytes ChangeSetChild
  else if decide (kind = str "component") then read_as ComponentNode.read_bytes Component
  else if decide (kind = str "component_child") then read_as ComponentChildNode.read_bytes ComponentChild
  else if decide (kind = str "edge") then read_as EdgeNode.read_bytes Edge
  else if decide (kind = str "func") then read_as FuncNode.read_bytes Func
  else if decide (kind = str "func_argument") then read_as FuncArgumentNode.read_bytes FuncArgument
  else if decide (kind = str "leaf_function") then read_as LeafFunctionNode.read_bytes LeafFunction
  else if decide (kind = str "map_key_func") then read_as MapKeyFuncNode.read_bytes MapKeyFunc
  else if decide (kind = str "package") then read_as PackageNode.read_bytes Package
  else if decide (kind = str "position") then read_as PositionNode.read_bytes Position
  else if decide (kind = str "prop") then read_as PropNode.read_bytes Prop_
  else if decide (kind = str "prop_child") then read_as PropChildNode.read_bytes PropChild
  else if decide (kind = str "schema") then read_as SchemaNode.read_bytes Schema
  else if decide (kind = str "schema_variant") then read_as SchemaVariantNode.read_bytes SchemaVariant
  else if decide (kind = str "schema_variant_child") then read_as SchemaVariantChildNode.read_bytes SchemaVariantChild
  else if decide (kind = str "si_prop_func") then read_as SiPropFuncNode.read_bytes SiPropFunc
  else if decide (kind = str "socket") then read_as SocketNode.read_bytes Socket
  else if decide (kind = str "validation") then read_as ValidationNode.read_bytes Validation
  else mret None.

Definition PkgNode_read_bytes : reader (option PkgNode) :=
  node_kind_str ← read_key_value_line PKG_KEY_NODE_KIND_STR;
  read_inner node_kind_str.

#[export] Instance PkgNode_format : NodeFormat PkgNode := {|
  inner_write_bytes := PkgNode_write_bytes;
  inner_read_bytes := PkgNode_read_bytes;
  inner_name := PkgNode_name;
|}.

(** The nodes that can be stored, and what is read back for them. *)
Definition pkg_good (n : PkgNode) : Prop :=
  match n with
  | ActionFunc node => ActionFuncNode.good node
  | AttrFuncInput node => AttrFuncInputNode.good node
  | AttributeValue node => AttributeValueNode.good node
  | AttributeValueChild node => True
  | Category node => True
  | ChangeSet node => ChangeSetNode.good node
  | ChangeSetChild node => True
  | Component node => ComponentNode.good node
  | ComponentChild node => True
  | Edge node => EdgeNode.good node
  | Func node => FuncNode.good node
  | FuncArgument node => FuncArgumentNode.good node
  | LeafFunction node => LeafFunctionNode.good node
  | MapKeyFunc node => MapKeyFuncNode.good node
  | Package node => PackageNode.good node
  | Position node => PositionNode.good node
  | Prop_ node => PropNode.good node
  | PropChild node => True
  | Schema node => SchemaNode.good node
  | SchemaVariant node => SchemaVariantNode.good node
  | SchemaVariantChild node => True
  | SiPropFunc node => SiPropFuncNode.good node
  | Socket node => SocketNode.good node
  | Validation node => ValidationNode.good node
  end.

Definition pkg_canon (n : PkgNode) : PkgNode :=
  match n with
  | ActionFunc node => ActionFunc (ActionFuncNode.canon node)
  | AttrFuncInput node => AttrFuncInput (AttrFuncInputNode.canon node)
  | AttributeValue node => AttributeValue (AttributeValueNode.canon node)
  | AttributeValueChild node => AttributeValueChild node
  | Category node => Category node
  | ChangeSet node => ChangeSet (ChangeSetNode.canon node)
  | ChangeSetChild node => ChangeSetChild node
  | Component node => Component (ComponentNode.canon node)
  | ComponentChild node => ComponentChild node
  | Edge node => Edge (EdgeNode.canon node)
  | Func node => Func (FuncNode.canon node)
  | FuncArgument node => FuncArgument (FuncArgumentNode.canon node)
  | LeafFunction node => LeafFunction (LeafFunctionNode.canon node)
  | MapKeyFunc node => MapKeyFunc node
  | Package node => Package node
  | Position node => Position (PositionNode.canon node)
  | Prop_ node => Prop_ (PropNode.canon node)
  | PropChild node => PropChild node
  | Schema node => Schema (SchemaNode.canon node)
  | SchemaVariant node => SchemaVariant (SchemaVariantNode.canon node)
  | SchemaVariantChild node => SchemaVariantChild node
  | SiPropFunc node => SiPropFunc (SiPropFuncNode.canon node)
  | Socket node => Socket (SocketNode.canon node)
  | Validation node => Validation (ValidationNode.canon node)
  end.

Lemma node_kind_str_text n : text (node_kind_str n).
Proof. destruct n; by apply text_short; [|vm_compute; lia]. Qed.

Lemma read_as_roundtrip {T} (write : T → writer) (read : reader (option T)) good canon
    (wrap : T → PkgNode) t rest :
  roundtrips write read good canon → good t → ends_node rest →
  ∃ bs, write t = Ok bs ∧ read_as read wrap (bs ++ rest) = Ok (Some (wrap (canon t)), rest).
Proof.
  intros Hr Hg Hend. destruct (Hr t rest Hg Hend) as (bs & Hw & Hb). exists bs.
  split; [done|]. unfold read_as, mbind, reader_bind. by rewrite Hb.
Qed.

Lemma write_inner_roundtrip n rest :
  pkg_good n → ends_node rest →
  ∃ bs, write_inner n = Ok bs ∧
    read_inner (node_kind_str n) (bs ++ rest) = Ok (Some (pkg_canon n), rest).
Proof.
  intros Hg Hend.
  destruct n as [n|n|n|n|n|n|n|n|n|n|n|n|n|n|n|n|n|n|n|n|n|n|n|n];
    cbn [write_inner node_kind_str pkg_canon pkg_good] in *.
  - exact (read_as_roundtrip _ _ _ _ ActionFunc n rest ActionFuncNode.ActionFunc_roundtrip Hg Hend).
  - exact (read_as_roundtrip _ _ _ _ AttrFuncInput n rest AttrFuncInputNode.AttrFuncInput_roundtrip Hg Hend).
  - exact (read_as_roundtrip _ _ _ _ AttributeValue n rest AttributeValueNode.AttributeValue_roundtrip Hg Hend).
  - exact (read_as_roundtrip _ _ _ _ AttributeValueChild n rest AttributeValueChildNode.AttributeValueChild_roundtrip I Hend).
  - exact (read_as_roundtrip _ _ _ _ Category n rest CategoryNode.Category_roundtrip I Hend).
  - exact (read_as_roundtrip _ _ _ _ ChangeSet n rest ChangeSetNode.ChangeSet_roundtrip Hg Hend).
  - exact (read_as_roundtrip _ _ _ _ ChangeSetChild n rest ChangeSetChildNode.ChangeSetChild_roundtrip I Hend).
  - exact (read_as_roundtrip _ _ _ _ Component n rest ComponentNode.Component_roundtrip Hg Hend).
  - exact (read_as_roundtrip _ _ _ _ ComponentChild n rest ComponentChildNode.ComponentChild_roundtrip I Hend).
  - exact (read_as_roundtrip _ _ _ _ Edge n rest EdgeNode.Edge_roundtrip Hg Hend).
  - exact (read_as_roundtrip _ _ _ _ Func n rest FuncNode.Func_roundtrip Hg Hend).
  - exact (read_as_roundtrip _ _ _ _ FuncArgument n rest FuncArgumentNode.FuncArgument_roundtrip Hg Hend).
  - exact (read_as_roundtrip _ _ _ _ LeafFunction n rest LeafFunctionNode.LeafFunction_roundtrip Hg Hend).
  - exact (read_as_roundtrip _ _ _ _ MapKeyFunc n rest MapKeyFuncNode.MapKeyFunc_roundtrip Hg Hend).
  - exact (read_as_roundtrip _ _ _ _ Package n rest PackageNode.Package_roundtrip Hg Hend).
  - exact (read_as_roundtrip _ _ _ _ Position n rest PositionNode.Position_roundtrip Hg Hend).
  - exact (read_as_roundtrip _ _ _ _ Prop_ n rest PropNode.Prop_roundtrip Hg Hend).
  - exact (read_as_roundtrip _ _ _ _ PropChild n rest PropChildNode.PropChild_roundtrip I Hend).
  - exact (read_as_roundtrip _ _ _ _ Schema n rest SchemaNode.Schema_roundtrip Hg Hend).
  - exact (read_as_roundtrip _ _ _ _ SchemaVariant n rest SchemaVariantNode.SchemaVariant_roundtrip Hg Hend).
  - exact (read_as_roundtrip _ _ _ _ SchemaVariantChild n rest SchemaVariantChildNode.SchemaVariantChild_roundtrip I Hend).
  - exact (read_as_roundtrip _ _ _ _ SiPropFunc n rest SiPropFuncNode.SiPropFunc_roundtrip Hg Hend).
  - exact (read_as_roundtrip _ _ _ _ Socket n rest SocketNode.Socket_roundtrip Hg Hend).
  - exact (read_as_roundtrip _ _ _ _ Validation n rest ValidationNode.Validation_roundtrip Hg Hend).
Qed.

Lemma PkgNode_roundtrips :
  roundtrips PkgNode_write_bytes PkgNode_read_bytes pkg_good pkg_canon.
Proof.
  intros n rest Hg Hend. destruct (write_inner_roundtrip n rest Hg Hend) as (bs & Hw & Hr).
  exists (kv_bytes PKG_KEY_NODE_KIND_STR (node_kind_str n) ++ bs).
  unfold PkgNode_write_bytes, PkgNode_read_bytes. rewrite Hw. split; [done|].
  rewrite <- (assoc_L (++)). rewrite run_line by (done || apply node_kind_str_text). done.
Qed.

Lemma PkgNode_canonical : canonical PkgNode_write_bytes pkg_good pkg_canon.
Proof.
  intros n Hg. unfold PkgNode_write_bytes.
  destruct n as [n|n|n|n|n|n|n|n|n|n|n|n|n|n|n|n|n|n|n|n|n|n|n|n]; cbn [write_inner node_kind_str pkg_canon pkg_good] in *.
  - by rewrite ActionFuncNode.ActionFunc_canon_bytes.
  - by rewrite AttrFuncInputNode.AttrFuncInput_canon_bytes.
  - by rewrite AttributeValueNode.AttributeValue_canon_bytes.
  - done.
  - done.
  - by rewrite ChangeSetNode.ChangeSet_canon_bytes.
  - done.
  - by rewrite ComponentNode.Component_canon_bytes.
  - done.
  - by rewrite EdgeNode.Edge_canon_bytes.
  - by rewrite FuncNode.Func_canon_bytes.
  - by rewrite FuncArgumentNode.FuncArgument_canon_bytes.
  - by rewrite LeafFunctionNode.LeafFunction_canon_bytes.
  - done.
  - done.
  - by rewrite PositionNode.Position_canon_bytes.
  - by rewrite PropNode.Prop_canon_bytes.
  - done.
  - by rewrite SchemaNode.Schema_canon_bytes.
  - by rewrite SchemaVariantNode.SchemaVariant_canon_bytes.
  - done.
  - by rewrite SiPropFuncNode.SiPropFunc_canon_bytes.
  - by rewrite SocketNode.Socket_canon_bytes.
  - by rewrite ValidationNode.Validation_canon_bytes.
Qed.

Lemma pkg_canon_name n : pkg_good n → PkgNode_name (pkg_canon n) = PkgNode_name n.
Proof.
  intros Hg. destruct n as [n|n|n|n|n|n|n|n|n|n|n|n|n|n|n|n|n|n|n|n|n|n|n|n]; try reflexivity;
    by destruct n.
Qed.

#[export] Instance PkgNode_format_ok : NodeFormatOk PkgNode pkg_good pkg_canon.
Proof.
  split; [apply PkgNode_roundtrips|apply PkgNode_canonical|apply pkg_canon_name].
Qed.

Lemma canon_opt_idem o : canon_opt (canon_opt o) = canon_opt o.
Proof. by destruct o as [[]|]. Qed.

Lemma pkg_canon_idem n : pkg_canon (pkg_canon n) = pkg_canon n.
Proof.
  destruct n as [n|n|n|n|n|n|n|n|n|n|n|n|n|n|n|n|n|n|n|n|n|n|n|n]; cbn [pkg_canon]; try done; f_equal; destruct n.
  all: unfold ActionFuncNode.canon, AttrFuncInputNode.canon, AttributeValueNode.canon,
    ChangeSetNode.canon, ComponentNode.canon, EdgeNode.canon, FuncNode.canon,
    FuncArgumentNode.canon, LeafFunctionNode.canon, PositionNode.canon, PropNode.canon,
    PropNode.canon_data, SchemaNode.canon, SchemaVariantNode.canon, SiPropFuncNode.canon,
    SocketNode.canon; simpl; rewrite ?canon_opt_idem; try reflexivity.
  all: try (match goal with |- context [_ <$> ?d] => is_var d; destruct d end; simpl;
    rewrite ?canon_opt_idem; reflexivity).
  destruct kind; unfold ValidationNode.canon; simpl; rewrite ?canon_opt_idem; try reflexivity.
  by destruct expected_string_array as [[]|].
Qed.

(** The kinds of nodes there are. *)
Definition node_kinds : list (list Byte.byte) :=
  [str "action_func"; str "attr_func_input"; str "attribute_value"; str
   "attribute_value_child"; str "category"; str "change_set"; str "change_set_child";
   str "component"; str "component_child"; str "edge"; str "func"; str "func_argument";
   str "leaf_function"; str "map_key_func"; str "package"; str "position"; str "prop";
   str "prop_child"; str "schema"; str "schema_variant"; str "schema_variant_child"; str
   "si_prop_func"; str "socket"; str "validation"].

Lemma node_kind_str_known n : node_kind_str n ∈ node_kinds.
Proof. destruct n; cbn [node_kind_str]; by apply (bool_decide_unpack _); vm_compute. Qed.

Lemma read_inner_unknown kind rest :
  kind ∉ node_kinds → read_inner kind rest = Ok (None, rest).
Proof.
  unfold node_kinds. rewrite !not_elem_of_cons. intros Hk. unfold read_inner.
  rewrite !decide_False by tauto. done.
Qed.

End node.

(** ** A concrete choice of the external formats, for evaluation *)

(** JSON values are [true] and [null]; the other formats store one value each. *)
Definition sample_externals : Externals := {|
  Json := bool;
  json_codec := {| encode := λ v : bool, Some (str (if v then "true" else "null"));
                   decode := λ s, if decide (s = str "true") then Some true
                                  else if decide (s = str "null") then Some false else None |};
  json_is_null := negb;
  path_codec := {| encode := λ _, Some (str "{}");
                   decode := λ s, if decide (s = str "{}") then Some (PathInputSocket []) else None |};
  variant_codec := {| encode := λ _, Some (str "{}");
                      decode := λ s, if decide (s = str "{}") then Some (WorkspaceVariant []) else None |};
  strings_codec := {| encode := λ l, Some (str "[" ++ concat l ++ str "]");
                      decode := λ s, if decide (s = str "[a]") then Some [str "a"]
                                     else if decide (s = str "[]") then Some [] else None |};
  Url := list Byte.byte;
  url_as_str := id;
  url_parse := Some;
  DateTime := list Byte.byte;
  to_rfc3339 := id;
  parse_datetime := Some;
  component_type_second := true;
|}.

(** ** Theorems *)

Section theorems.
Context `{B : Blake3} {X : Externals}.

(** Every package node that can be stored reads back: what is written
    parses, in front of a blank line or at the end of the input, into the same
    node with empty optional texts read as absent ones and nothing else
    changed; the node that is read is written as the same bytes again and
    reads back as itself. *)
Theorem package_node_roundtrip n rest :
  pkg_good n → ends_node rest →
  ∃ bs, PkgNode_write_bytes n = Ok bs ∧
    PkgNode_read_bytes (bs ++ rest) = Ok (Some (pkg_canon n), rest) ∧
    PkgNode_write_bytes (pkg_canon n) = Ok bs ∧
    pkg_canon (pkg_canon n) = pkg_canon n.
Proof.
  intros Hg Hend. destruct (PkgNode_roundtrips n rest Hg Hend) as (bs & Hw & Hr).
  exists bs. split_and!; [done|done| |apply pkg_canon_idem]. by rewrite PkgNode_canonical.
Qed.

(** A node of an unknown kind is not an error: reading it gives no node and
    leaves the rest of the lines. *)
Theorem unknown_node_kind_is_no_node kind rest :
  text kind → kind ∉ node_kinds →
  PkgNode_read_bytes (kv_bytes PKG_KEY_NODE_KIND_STR kind ++ rest) = Ok (None, rest).
Proof.
  intros Ht Hk. unfold PkgNode_read_bytes. rewrite run_line by done.
  by rewrite read_inner_unknown.
Qed.

(** Widget options that are JSON null are lost: the node is written with
    them and read back without any. *)
Theorem null_widget_options_are_lost name (v : Json) (k : PropSpecWidgetKind.t) :
  text name → codec_ok v → json_is_null v = true →
  ∃ bs, PkgNode_write_bytes (Prop_ (PropNode.String_ name
            (Some (PropNode.Build_PropNodeData name None None k (Some v) None false)) None)) = Ok bs ∧
    PkgNode_read_bytes bs = Ok (Some (Prop_ (PropNode.String_ name
            (Some (PropNode.Build_PropNodeData name None None k None None false)) None)), []).
Proof.
  intros Hn Hv Hnull. assert (Hv' : opt_codec_ok (Some v)) by done.
  assert (Hno : opt_codec_ok (A := Json) None) by done.
  assert (Hnl : opt_codec_ok (A := Url) None) by done.
  assert (Hs : text (str "string")) by by apply text_short; [|vm_compute; lia].
  assert (Hp : text (str "prop")) by by apply text_short; [|vm_compute; lia].
  eexists. unfold PkgNode_write_bytes, write_inner, PropNode.write_bytes; simpl.
  rewrite url_or_empty_encoded. split; [written; reflexivity|].
  rewrite <- (app_nil_r (_ ++ _)). unfold PkgNode_read_bytes. run_reader.
  change (read_inner (str "prop")) with (read_as PropNode.read_bytes Prop_).
  unfold read_as, PropNode.read_bytes. run_reader.
  rewrite PropNode.run_widget_options_null by done. run_reader.
Qed.

End theorems.

(** ** Witnesses *)

Section witnesses.
#[local] Existing Instance sample_blake3.
#[local] Existing Instance sample_externals.

Definition sample_prop : PkgNode :=
  Prop_ (PropNode.Object (str "domain")
    (Some (PropNode.Build_PropNodeData [] (Some []) (Some true) PropSpecWidgetKind.Header
             None (Some (str "https://si.dev")) false)) (Some (str "u"))).

Lemma sample_prop_good : pkg_good sample_prop.
Proof.
  split; [by apply text_short; [|vm_compute; lia]|]. split; [|by apply text_short; [|vm_compute; lia]].
  split_and!; [apply text_nil| |done|done|].
  - exists (str "true"). split_and!; [done|by apply text_short; [|vm_compute; lia]|done|done].
  - exists (str "https://si.dev").
    split_and!; [done|by apply text_short; [|vm_compute; lia]|done|done].
Qed.

Lemma package_node_roundtrip_witness :
  ∃ bs, PkgNode_write_bytes sample_prop = Ok bs ∧
    PkgNode_read_bytes (bs ++ [NL]) = Ok (Some (pkg_canon sample_prop), [NL]) ∧
    PkgNode_write_bytes (pkg_canon sample_prop) = Ok bs ∧
    pkg_canon (pkg_canon sample_prop) = pkg_canon sample_prop.
Proof. apply package_node_roundtrip; [apply sample_prop_good|by right]. Defined.

Lemma unknown_node_kind_is_no_node_witness :
  PkgNode_read_bytes (kv_bytes PKG_KEY_NODE_KIND_STR (str "widget") ++ []) = Ok (None, []).
Proof.
  apply unknown_node_kind_is_no_node; [by apply text_short; [|vm_compute; lia]|].
  by apply (bool_decide_unpack _); vm_compute.
Defined.

Lemma null_widget_options_are_lost_witness :
  ∃ bs, PkgNode_write_bytes (Prop_ (PropNode.String_ (str "p")
            (Some (PropNode.Build_PropNodeData (str "p") None None PropSpecWidgetKind.Text
                     (Some (false : Json)) None false)) None)) = Ok bs ∧
    PkgNode_read_bytes bs = Ok (Some (Prop_ (PropNode.String_ (str "p")
            (Some (PropNode.Build_PropNodeData (str "p") None None PropSpecWidgetKind.Text
                     None None false)) None)), []).
Proof.
  apply null_widget_options_are_lost; [by apply text_short; [|vm_compute; lia]| |done].
  exists (str "null"). split_and!; [done|by apply text_short; [|vm_compute; lia]|done|done].
Defined.

End witnesses.
