(* ===== verification/PkgLeaves.v ===== *)
(** * Validations and function inputs of a package

    The specifications of [src/lib/si-pkg/src/spec/validation.rs] and
    [spec/attr_func_input.rs] with their builders, how they become package
    nodes ([as_node_with_children] in [node]) and how a package hands them out
    again ([from_graph] and [TryFrom] in [pkg]). The hash and the source a
    [SiPkg..] value carries along are not modelled: nothing here reads them. *)

From S2P Require Import Prelude Bytes KeyValue NodeEntries ObjectGraph ObjectTar ObjectSample.
From S2P Require Import PkgSpec PkgFields PkgNodes PkgNodesData PkgNode.
From Stdlib Require Import NArith ZArith Init.Byte.
From stdpp Require Import base tactics list sets strings.

(** ** Errors *)

(** [SpecError]. [serde_json] errors carry no data here. *)
Inductive SpecError : Type :=
| LeafInputLocationConversionError (location : list Byte.byte)
| SpecSerdeJson
| UninitializedField (field : string)
| ValidationError (msg : list Byte.byte).

(** The roots of the prop trees of a schema variant. *)
Inductive SchemaVariantSpecPropRoot : Set :=
| Domain | ResourceValue | SecretDefinition | Secrets.

#[export] Instance SchemaVariantSpecPropRoot_eq_dec : EqDecision SchemaVariantSpecPropRoot.
Proof. solve_decision. Defined.

(** [SiPkgError], without the wrapper of visitors' errors. *)
Inductive SiPkgError `{B : Blake3} `{A : TarArchive} : Type :=
| ComponentMissingPosition (name : list Byte.byte)
| PkgGraph (e : GraphError)
| PkgIo
| Memory (e : TarWriterError)
| NodeWithHashNotFound (hash : Hash)
| NodeWithNameNotFound (name : list Byte.byte)
| PropRootMultipleFound (root : SchemaVariantSpecPropRoot) (hash : Hash)
| PropRootNotFound (root : SchemaVariantSpecPropRoot) (hash : Hash)
| PropTreeInvalid (msg : string)
| SchemaVariantChildNotFound (child : list Byte.byte)
| PkgSerdeJson
| Spec (e : SpecError)
| TarRead (e : TarReadError)
| UnexpectedPkgNodeType (expected actual : list Byte.byte)
| ValidationMissingField (field : string).

Definition spec_result `{B : Blake3} `{A : TarArchive} {C} (r : result SpecError C) :
    result SiPkgError C :=
  match r with Ok c => Ok c | Err e => Err (Spec e) end.

Definition required {C} (o : option C) (field : string) : result SpecError C :=
  match o with Some c => Ok c | None => Err (UninitializedField field) end.

(** ** Validations *)

Module ValidationSpec.

Inductive t : Type :=
| CustomValidation (func_unique_id : list Byte.byte) (unique_id : option (list Byte.byte))
    (deleted : bool)
| IntegerIsBetweenTwoIntegers (lower_bound upper_bound : Z)
    (unique_id : option (list Byte.byte)) (deleted : bool)
| IntegerIsNotEmpty (unique_id : option (list Byte.byte)) (deleted : bool)
| StringEquals (expected : list Byte.byte) (unique_id : option (list Byte.byte)) (deleted : bool)
| StringHasPrefix (expected : list Byte.byte) (unique_id : option (list Byte.byte))
    (deleted : bool)
| StringInStringArray (expected : list (list Byte.byte)) (display_expected : bool)
    (unique_id : option (list Byte.byte)) (deleted : bool)
| StringIsHexColor (unique_id : option (list Byte.byte)) (deleted : bool)
| StringIsNotEmpty (unique_id : option (list Byte.byte)) (deleted : bool)
| StringIsValidIpAddr (unique_id : option (list Byte.byte)) (deleted : bool).

Definition unique_id (s : t) : option (list Byte.byte) :=
  match s with
  | CustomValidation _ u _ | IntegerIsBetweenTwoIntegers _ _ u _ | IntegerIsNotEmpty u _
  | StringEquals _ u _ | StringHasPrefix _ u _ | StringInStringArray _ _ u _
  | StringIsHexColor u _ | StringIsNotEmpty u _ | StringIsValidIpAddr u _ => u
  end.

Definition deleted (s : t) : bool :=
  match s with
  | CustomValidation _ _ d | IntegerIsBetweenTwoIntegers _ _ _ d | IntegerIsNotEmpty _ d
  | StringEquals _ _ d | StringHasPrefix _ _ d | StringInStringArray _ _ _ d
  | StringIsHexColor _ d | StringIsNotEmpty _ d | StringIsValidIpAddr _ d => d
  end.

(** [ValidationSpecBuilder]. *)
Record builder := {
  b_kind : option ValidationSpecKind.t;
  b_upper_bound : option Z;
  b_lower_bound : option Z;
  b_expected_string : option (list Byte.byte);
  b_expected_string_array : option (list (list Byte.byte));
  b_display_expected : option bool;
  b_func_unique_id : option (list Byte.byte);
  b_unique_id : option (list Byte.byte);
  b_deleted : bool;
}.

Definition build (b : builder) : result SpecError t :=
  match b_kind b with
  | Some ValidationSpecKind.IntegerIsBetweenTwoIntegers =>
      lower_bound ← required (b_lower_bound b) "lower_bound";
      upper_bound ← required (b_upper_bound b) "lower_bound";
      Ok (IntegerIsBetweenTwoIntegers lower_bound upper_bound (b_unique_id b) (b_deleted b))
  | Some ValidationSpecKind.IntegerIsNotEmpty =>
      Ok (IntegerIsNotEmpty (b_unique_id b) (b_deleted b))
  | Some ValidationSpecKind.StringEquals =>
      expected ← required (b_expected_string b) "expected_string";
      Ok (StringEquals expected (b_unique_id b) (b_deleted b))
  | Some ValidationSpecKind.StringHasPrefix =>
      expected ← required (b_expected_string b) "expected_string";
      Ok (StringHasPrefix expected (b_unique_id b) (b_deleted b))
  | Some ValidationSpecKind.StringInStringArray =>
      display_expected ← required (b_display_expected b) "display_expected";
      expected ← required (b_expected_string_array b) "expected_string";
      Ok (StringInStringArray expected display_expected (b_unique_id b) (b_deleted b))
  | Some ValidationSpecKind.StringIsValidIpAddr =>
      Ok (StringIsValidIpAddr (b_unique_id b) (b_deleted b))
  | Some ValidationSpecKind.StringIsHexColor =>
      Ok (StringIsHexColor (b_unique_id b) (b_deleted b))
  | Some ValidationSpecKind.StringIsNotEmpty =>
      Ok (StringIsNotEmpty (b_unique_id b) (b_deleted b))
  | Some ValidationSpecKind.CustomValidation =>
      func_unique_id ← required (b_func_unique_id b) "func_unique_id";
      Ok (CustomValidation func_unique_id (b_unique_id b) (b_deleted b))
  | None => Err (UninitializedField "kind")
  end.

(** The node of [as_node_with_children]; a leaf without children. *)
Definition as_node (s : t) : ValidationNode.t :=
  let d k := ValidationNode.default k (unique_id s) (deleted s) in
  match s with
  | IntegerIsBetweenTwoIntegers lower_bound upper_bound u del =>
      {| ValidationNode.kind := ValidationSpecKind.IntegerIsBetweenTwoIntegers;
         ValidationNode.upper_bound := Some upper_bound;
         ValidationNode.lower_bound := Some lower_bound;
         ValidationNode.expected_string := None;
         ValidationNode.expected_string_array := None;
         ValidationNode.display_expected := None;
         ValidationNode.func_unique_id := None;
         ValidationNode.unique_id := u; ValidationNode.deleted := del |}
  | IntegerIsNotEmpty _ _ => d ValidationSpecKind.IntegerIsNotEmpty
  | StringEquals expected u del =>
      {| ValidationNode.kind := ValidationSpecKind.StringEquals;
         ValidationNode.upper_bound := None; ValidationNode.lower_bound := None;
         ValidationNode.expected_string := Some expected;
         ValidationNode.expected_string_array := None;
         ValidationNode.display_expected := None;
         ValidationNode.func_unique_id := None;
         ValidationNode.unique_id := u; ValidationNode.deleted := del |}
  | StringHasPrefix expected u del =>
      {| ValidationNode.kind := ValidationSpecKind.StringHasPrefix;
         ValidationNode.upper_bound := None; ValidationNode.lower_bound := None;
         ValidationNode.expected_string := Some expected;
         ValidationNode.expected_string_array := None;
         ValidationNode.display_expected := None;
         ValidationNode.func_unique_id := None;
         ValidationNode.unique_id := u; ValidationNode.deleted := del |}
  | StringInStringArray expected display_expected u del =>
      {| ValidationNode.kind := ValidationSpecKind.StringInStringArray;
         ValidationNode.upper_bound := None; ValidationNode.lower_bound := None;
         ValidationNode.expected_string := None;
         ValidationNode.expected_string_array := Some expected;
         ValidationNode.display_expected := Some display_expected;
         ValidationNode.func_unique_id := None;
         ValidationNode.unique_id := u; ValidationNode.deleted := del |}
  | StringIsValidIpAddr _ _ => d ValidationSpecKind.StringIsValidIpAddr
  | StringIsHexColor _ _ => d ValidationSpecKind.StringIsHexColor
  | StringIsNotEmpty _ _ => d ValidationSpecKind.StringIsNotEmpty
  | CustomValidation func_unique_id u del =>
      {| ValidationNode.kind := ValidationSpecKind.CustomValidation;
         ValidationNode.upper_bound := None; ValidationNode.lower_bound := None;
         ValidationNode.expected_string := None;
         ValidationNode.expected_string_array := None;
         ValidationNode.display_expected := None;
         ValidationNode.func_unique_id := Some func_unique_id;
         ValidationNode.unique_id := u; ValidationNode.deleted := del |}
  end.

End ValidationSpec.

Module SiPkgValidation.

Inductive t : Type :=
| CustomValidation (func_unique_id : list Byte.byte) (unique_id : option (list Byte.byte))
    (deleted : bool)
| IntegerIsBetweenTwoIntegers (lower_bound upper_bound : Z)
    (unique_id : option (list Byte.byte)) (deleted : bool)
| IntegerIsNotEmpty (unique_id : option (list Byte.byte)) (deleted : bool)
| StringEquals (expected : list Byte.byte) (unique_id : option (list Byte.byte)) (deleted : bool)
| StringHasPrefix (expected : list Byte.byte) (unique_id : option (list Byte.byte))
    (deleted : bool)
| StringInStringArray (expected : list (list Byte.byte)) (display_expected : bool)
    (unique_id : option (list Byte.byte)) (deleted : bool)
| StringIsHexColor (unique_id : option (list Byte.byte)) (deleted : bool)
| StringIsNotEmpty (unique_id : option (list Byte.byte)) (deleted : bool)
| StringIsValidIpAddr (unique_id : option (list Byte.byte)) (deleted : bool).

Definition missing `{B : Blake3} `{A : TarArchive} {C} (o : option C) (field : string) :
    result SiPkgError C :=
  match o with Some c => Ok c | None => Err (ValidationMissingField field) end.

Definition from_graph `{B : Blake3} `{A : TarArchive} {X : Externals} (n : PkgNode) :
    result SiPkgError t :=
  match n with
  | Validation node =>
      let unique_id := ValidationNode.unique_id node in
      let deleted := ValidationNode.deleted node in
      match ValidationNode.kind node with
      | ValidationSpecKind.IntegerIsBetweenTwoIntegers =>
          upper_bound ← missing (ValidationNode.upper_bound node) "upper_bound";
          lower_bound ← missing (ValidationNode.lower_bound node) "upper_bound";
          Ok (IntegerIsBetweenTwoIntegers lower_bound upper_bound unique_id deleted)
      | ValidationSpecKind.IntegerIsNotEmpty => Ok (IntegerIsNotEmpty unique_id deleted)
      | ValidationSpecKind.StringEquals =>
          expected ← missing (ValidationNode.expected_string node) "expected_string";
          Ok (StringEquals expected unique_id deleted)
      | ValidationSpecKind.StringHasPrefix =>
          expected ← missing (ValidationNode.expected_string node) "expected_string";
          Ok (StringHasPrefix expected unique_id deleted)
      | ValidationSpecKind.StringInStringArray =>
          expected ← missing (ValidationNode.expected_string_array node) "expected_string_array";
          display_expected ← missing (ValidationNode.display_expected node) "display_expected";
          Ok (StringInStringArray expected display_expected unique_id deleted)
      | ValidationSpecKind.StringIsValidIpAddr => Ok (StringIsValidIpAddr unique_id deleted)
      | ValidationSpecKind.StringIsHexColor => Ok (StringIsHexColor unique_id deleted)
      | ValidationSpecKind.StringIsNotEmpty => Ok (StringIsNotEmpty unique_id deleted)
      | ValidationSpecKind.CustomValidation =>
          func_unique_id ← missing (ValidationNode.func_unique_id node) "func_unique_id";
          Ok (CustomValidation func_unique_id unique_id deleted)
      end
  | unexpected => Err (UnexpectedPkgNodeType (str "validation") (node_kind_str unexpected))
  end.

(** A builder with the common fields and a kind. *)
Definition base (k : ValidationSpecKind.t) (u : option (list Byte.byte)) (d : bool) :
    ValidationSpec.builder :=
  {| ValidationSpec.b_kind := Some k; ValidationSpec.b_upper_bound := None;
     ValidationSpec.b_lower_bound := None; ValidationSpec.b_expected_string := None;
     ValidationSpec.b_expected_string_array := None; ValidationSpec.b_display_expected := None;
     ValidationSpec.b_func_unique_id := None; ValidationSpec.b_unique_id := u;
     ValidationSpec.b_deleted := d |}.

(** [ValidationSpec::try_from]: the builder calls and [build]. *)
Definition to_builder (v : t) : ValidationSpec.builder :=
  match v with
  | IntegerIsBetweenTwoIntegers lower_bound upper_bound u d =>
      {| ValidationSpec.b_kind := Some ValidationSpecKind.IntegerIsBetweenTwoIntegers;
         ValidationSpec.b_upper_bound := Some upper_bound;
         ValidationSpec.b_lower_bound := Some lower_bound;
         ValidationSpec.b_expected_string := None;
         ValidationSpec.b_expected_string_array := None;
         ValidationSpec.b_display_expected := None;
         ValidationSpec.b_func_unique_id := None; ValidationSpec.b_unique_id := u;
         ValidationSpec.b_deleted := d |}
  | IntegerIsNotEmpty u d => base ValidationSpecKind.IntegerIsNotEmpty u d
  | StringEquals expected u d =>
      {| ValidationSpec.b_kind := Some ValidationSpecKind.StringEquals;
         ValidationSpec.b_upper_bound := None; ValidationSpec.b_lower_bound := None;
         ValidationSpec.b_expected_string := Some expected;
         ValidationSpec.b_expected_string_array := None;
         ValidationSpec.b_display_expected := None;
         ValidationSpec.b_func_unique_id := None; ValidationSpec.b_unique_id := u;
         ValidationSpec.b_deleted := d |}
  | StringHasPrefix expected u d =>
      {| ValidationSpec.b_kind := Some ValidationSpecKind.StringHasPrefix;
         ValidationSpec.b_upper_bound := None; ValidationSpec.b_lower_bound := None;
         ValidationSpec.b_expected_string := Some expected;
         ValidationSpec.b_expected_string_array := None;
         ValidationSpec.b_display_expected := None;
         ValidationSpec.b_func_unique_id := None; ValidationSpec.b_unique_id := u;
         ValidationSpec.b_deleted := d |}
  | CustomValidation func_unique_id u d =>
      {| ValidationSpec.b_kind := Some ValidationSpecKind.CustomValidation;
         ValidationSpec.b_upper_bound := None; ValidationSpec.b_lower_bound := None;
         ValidationSpec.b_expected_string := None;
         ValidationSpec.b_expected_string_array := None;
         ValidationSpec.b_display_expected := None;
         ValidationSpec.b_func_unique_id := Some func_unique_id;
         ValidationSpec.b_unique_id := u; ValidationSpec.b_deleted := d |}
  | StringInStringArray expected display_expected u d =>
      {| ValidationSpec.b_kind := Some ValidationSpecKind.StringInStringArray;
         ValidationSpec.b_upper_bound := None; ValidationSpec.b_lower_bound := None;
         ValidationSpec.b_expected_string := None;
         ValidationSpec.b_expected_string_array := Some expected;
         ValidationSpec.b_display_expected := Some display_expected;
         ValidationSpec.b_func_unique_id := None; ValidationSpec.b_unique_id := u;
         ValidationSpec.b_deleted := d |}
  | StringIsValidIpAddr u d => base ValidationSpecKind.StringIsValidIpAddr u d
  | StringIsHexColor u d => base ValidationSpecKind.StringIsHexColor u d
  | StringIsNotEmpty u d => base ValidationSpecKind.StringIsNotEmpty u d
  end.

Definition try_into_spec `{B : Blake3} `{A : TarArchive} (v : t) : result SiPkgError ValidationSpec.t :=
  spec_result (ValidationSpec.build (to_builder v)).

End SiPkgValidation.

(** ** Function inputs *)

Module AttrFuncInputSpec.

Inductive t : Type :=
| InputSocket (name socket_name : list Byte.byte) (unique_id : option (list Byte.byte))
    (deleted : bool)
| OutputSocket (name socket_name : list Byte.byte) (unique_id : option (list Byte.byte))
    (deleted : bool)
| Prop_ (name prop_path : list Byte.byte) (unique_id : option (list Byte.byte))
    (deleted : bool).

(** [AttrFuncInputSpecBuilder]. *)
Record builder := {
  b_kind : option AttrFuncInputSpecKind.t;
  b_name : option (list Byte.byte);
  b_prop_path : option (list Byte.byte);
  b_socket_name : option (list Byte.byte);
  b_unique_id : option (list Byte.byte);
  b_deleted : bool;
}.

Definition build (b : builder) : result SpecError t :=
  match b_kind b with
  | Some AttrFuncInputSpecKind.Prop_ =>
      name ← required (b_name b) "name";
      prop_path ← required (b_prop_path b) "prop_path";
      Ok (Prop_ name prop_path (b_unique_id b) (b_deleted b))
  | Some AttrFuncInputSpecKind.InputSocket =>
      name ← required (b_name b) "name";
      socket_name ← required (b_socket_name b) "socket_name";
      Ok (InputSocket name socket_name (b_unique_id b) (b_deleted b))
  | Some AttrFuncInputSpecKind.OutputSocket =>
      name ← required (b_name b) "name";
      socket_name ← required (b_socket_name b) "socket_name";
      Ok (OutputSocket name socket_name (b_unique_id b) (b_deleted b))
  | None => Err (UninitializedField "kind")
  end.

(** The node of [as_node_with_children]; a leaf without children. *)
Definition as_node (s : t) : AttrFuncInputNode.t :=
  match s with
  | Prop_ name prop_path u d => AttrFuncInputNode.Prop_ name prop_path u d
  | InputSocket name socket_name u d => AttrFuncInputNode.InputSocket name socket_name u d
  | OutputSocket name socket_name u d => AttrFuncInputNode.OutputSocket name socket_name u d
  end.

End AttrFuncInputSpec.

Module SiPkgAttrFuncInput.

Inductive t : Type :=
| InputSocket (name socket_name : list Byte.byte) (unique_id : option (list Byte.byte))
    (deleted : bool)
| OutputSocket (name socket_name : list Byte.byte) (unique_id : option (list Byte.byte))
    (deleted : bool)
| Prop_ (name prop_path : list Byte.byte) (unique_id : option (list Byte.byte))
    (deleted : bool).

Definition from_graph `{B : Blake3} `{A : TarArchive} {X : Externals} (n : PkgNode) :
    result SiPkgError t :=
  match n with
  | AttrFuncInput node =>
      Ok match node with
         | AttrFuncInputNode.Prop_ name prop_path u d => Prop_ name prop_path u d
         | AttrFuncInputNode.InputSocket name socket_name u d => InputSocket name socket_name u d
         | AttrFuncInputNode.OutputSocket name socket_name u d =>
             OutputSocket name socket_name u d
         end
  | unexpected => Err (UnexpectedPkgNodeType (str "attr_func_input") (node_kind_str unexpected))
  end.

(** [AttrFuncInputSpec::try_from]: the builder calls and [build]. *)
Definition to_builder (v : t) : AttrFuncInputSpec.builder :=
  match v with
  | Prop_ name prop_path u d =>
      {| AttrFuncInputSpec.b_kind := Some AttrFuncInputSpecKind.Prop_;
         AttrFuncInputSpec.b_name := Some name;
         AttrFuncInputSpec.b_prop_path := Some prop_path;
         AttrFuncInputSpec.b_socket_name := None;
         AttrFuncInputSpec.b_unique_id := u; AttrFuncInputSpec.b_deleted := d |}
  | InputSocket name socket_name u d =>
      {| AttrFuncInputSpec.b_kind := Some AttrFuncInputSpecKind.InputSocket;
         AttrFuncInputSpec.b_name := Some name; AttrFuncInputSpec.b_prop_path := None;
         AttrFuncInputSpec.b_socket_name := Some socket_name;
         AttrFuncInputSpec.b_unique_id := u; AttrFuncInputSpec.b_deleted := d |}
  | OutputSocket name socket_name u d =>
      {| AttrFuncInputSpec.b_kind := Some AttrFuncInputSpecKind.OutputSocket;
         AttrFuncInputSpec.b_name := Some name; AttrFuncInputSpec.b_prop_path := None;
         AttrFuncInputSpec.b_socket_name := Some socket_name;
         AttrFuncInputSpec.b_unique_id := u; AttrFuncInputSpec.b_deleted := d |}
  end.

Definition try_into_spec `{B : Blake3} `{A : TarArchive} (v : t) : result SiPkgError AttrFuncInputSpec.t :=
  spec_result (AttrFuncInputSpec.build (to_builder v)).

End SiPkgAttrFuncInput.

(** ** Vocabulary *)

Section vocabulary.
Context `{X : Externals}.

(** The validations a package can carry: [String]s, 64-bit bounds, an expected
    text or list that is not empty. *)
Definition validation_good (s : ValidationSpec.t) : Prop :=
  opt_text (ValidationSpec.unique_id s) ∧
  match s with
  | ValidationSpec.CustomValidation f _ _ => text f
  | ValidationSpec.IntegerIsBetweenTwoIntegers l u _ _ =>
      (i64_min ≤ l ≤ i64_max)%Z ∧ (i64_min ≤ u ≤ i64_max)%Z
  | ValidationSpec.StringEquals e _ _ | ValidationSpec.StringHasPrefix e _ _ => text e ∧ e ≠ []
  | ValidationSpec.StringInStringArray e _ _ _ => codec_ok e ∧ e ≠ []
  | _ => True
  end.

Definition validation_canon (s : ValidationSpec.t) : ValidationSpec.t :=
  match s with
  | ValidationSpec.CustomValidation f u d => ValidationSpec.CustomValidation f (canon_opt u) d
  | ValidationSpec.IntegerIsBetweenTwoIntegers l h u d =>
      ValidationSpec.IntegerIsBetweenTwoIntegers l h (canon_opt u) d
  | ValidationSpec.IntegerIsNotEmpty u d => ValidationSpec.IntegerIsNotEmpty (canon_opt u) d
  | ValidationSpec.StringEquals e u d => ValidationSpec.StringEquals e (canon_opt u) d
  | ValidationSpec.StringHasPrefix e u d => ValidationSpec.StringHasPrefix e (canon_opt u) d
  | ValidationSpec.StringInStringArray e b u d =>
      ValidationSpec.StringInStringArray e b (canon_opt u) d
  | ValidationSpec.StringIsHexColor u d => ValidationSpec.StringIsHexColor (canon_opt u) d
  | ValidationSpec.StringIsNotEmpty u d => ValidationSpec.StringIsNotEmpty (canon_opt u) d
  | ValidationSpec.StringIsValidIpAddr u d => ValidationSpec.StringIsValidIpAddr (canon_opt u) d
  end.

Definition input_good (s : AttrFuncInputSpec.t) : Prop :=
  match s with
  | AttrFuncInputSpec.InputSocket n p u _ | AttrFuncInputSpec.OutputSocket n p u _
  | AttrFuncInputSpec.Prop_ n p u _ => text n ∧ text p ∧ opt_text u
  end.

Definition input_canon (s : AttrFuncInputSpec.t) : AttrFuncInputSpec.t :=
  match s with
  | AttrFuncInputSpec.InputSocket n p u d => AttrFuncInputSpec.InputSocket n p (canon_opt u) d
  | AttrFuncInputSpec.OutputSocket n p u d => AttrFuncInputSpec.OutputSocket n p (canon_opt u) d
  | AttrFuncInputSpec.Prop_ n p u d => AttrFuncInputSpec.Prop_ n p (canon_opt u) d
  end.

Lemma validation_node_good `{B : Blake3} s :
  validation_good s → pkg_good (Validation (ValidationSpec.as_node s)).
Proof. intros [Hu Hs]. destruct s; simpl in *; unfold ValidationNode.good; simpl; naive_solver. Qed.

(** What a package hands out for the node that is read back. *)
Lemma validation_import `{B : Blake3} `{A : TarArchive} s :
  validation_good s →
  ∃ v, SiPkgValidation.from_graph (pkg_canon (Validation (ValidationSpec.as_node s))) = Ok v ∧
       SiPkgValidation.try_into_spec v = Ok (validation_canon s).
Proof.
  intros [_ Hs]. destruct s; simpl in Hs; try by (eexists; split; reflexivity).
  - destruct Hs as [_ Hne]. destruct expected; [done|]. eexists; split; reflexivity.
  - destruct Hs as [_ Hne]. destruct expected; [done|]. eexists; split; reflexivity.
  - destruct Hs as [_ Hne]. destruct expected; [done|]. eexists; split; reflexivity.
Qed.

End vocabulary.

(** ** Theorems *)

Section theorems.
Context `{B : Blake3} `{A : TarArchive} {X : Externals}.

(** A validation survives export and import: its specification becomes a
    node, the node's bytes are read back, and the package hands out the same
    specification, kind and operands unchanged. *)
Theorem validation_export_import s :
  validation_good s →
  ∃ bs n v, PkgNode_write_bytes (Validation (ValidationSpec.as_node s)) = Ok bs ∧
    PkgNode_read_bytes bs = Ok (Some n, []) ∧
    SiPkgValidation.from_graph n = Ok v ∧
    SiPkgValidation.try_into_spec v = Ok (validation_canon s).
Proof.
  intros Hs. destruct (PkgNode_roundtrips _ [] (validation_node_good s Hs)) as (bs & Hw & Hr);
    [by left|]. rewrite app_nil_r in Hr.
  destruct (validation_import s Hs) as (v & Hf & Hv). eauto 10.
Qed.

(** A function input survives export and import. *)
Theorem attr_func_input_export_import s :
  input_good s →
  ∃ bs n v, PkgNode_write_bytes (AttrFuncInput (AttrFuncInputSpec.as_node s)) = Ok bs ∧
    PkgNode_read_bytes bs = Ok (Some n, []) ∧
    SiPkgAttrFuncInput.from_graph n = Ok v ∧
    SiPkgAttrFuncInput.try_into_spec v = Ok (input_canon s).
Proof.
  intros Hs.
  destruct (PkgNode_roundtrips (AttrFuncInput (AttrFuncInputSpec.as_node s)) []) as (bs & Hw & Hr);
    [by destruct s|by left|]. rewrite app_nil_r in Hr.
  eexists bs, _, _. split; [done|]. split; [exact Hr|].
  destruct s; split; reflexivity.
Qed.

(** An expected text that is empty is not importable: the validation is
    exported without an error, read back as a node without an expected text,
    and the package then refuses it as incomplete. *)
Theorem empty_expected_string_is_refused u d :
  opt_text u →
  ∃ bs n,
    PkgNode_write_bytes (Validation (ValidationSpec.as_node (ValidationSpec.StringEquals [] u d))) = Ok bs ∧
    PkgNode_read_bytes bs = Ok (Some n, []) ∧
    SiPkgValidation.from_graph n = Err (ValidationMissingField "expected_string").
Proof.
  intros Hu.
  destruct (PkgNode_roundtrips
    (Validation (ValidationSpec.as_node (ValidationSpec.StringEquals [] u d))) [])
    as (bs & Hw & Hr); [|by left|].
  { split; [apply text_nil|done]. }
  rewrite app_nil_r in Hr. eexists bs, _. split; [done|]. split; [exact Hr|]. reflexivity.
Qed.

End theorems.

(** ** Witnesses *)

Section witnesses.
#[local] Existing Instance sample_blake3.
#[local] Existing Instance sample_externals.
#[local] Existing Instance list_tar.

Lemma validation_export_import_witness :
  ∃ bs n v, PkgNode_write_bytes (Validation (ValidationSpec.as_node
      (ValidationSpec.IntegerIsBetweenTwoIntegers (-5) 7 (Some []) false))) = Ok bs ∧
    PkgNode_read_bytes bs = Ok (Some n, []) ∧
    SiPkgValidation.from_graph n = Ok v ∧
    SiPkgValidation.try_into_spec v =
      Ok (ValidationSpec.IntegerIsBetweenTwoIntegers (-5) 7 None false).
Proof.
  apply (validation_export_import
    (ValidationSpec.IntegerIsBetweenTwoIntegers (-5) 7 (Some []) false)).
  split; [apply text_nil|]. simpl. unfold i64_min, i64_max. lia.
Defined.

Lemma attr_func_input_export_import_witness :
  ∃ bs n v, PkgNode_write_bytes (AttrFuncInput (AttrFuncInputSpec.as_node
      (AttrFuncInputSpec.Prop_ (str "a") (str "/root") None true))) = Ok bs ∧
    PkgNode_read_bytes bs = Ok (Some n, []) ∧
    SiPkgAttrFuncInput.from_graph n = Ok v ∧
    SiPkgAttrFuncInput.try_into_spec v =
      Ok (AttrFuncInputSpec.Prop_ (str "a") (str "/root") None true).
Proof.
  apply (attr_func_input_export_import (AttrFuncInputSpec.Prop_ (str "a") (str "/root") None true)).
  split; [by apply text_short; [|vm_compute; lia]|].
  split; [by apply text_short; [|vm_compute; lia]|done].
Defined.

Lemma empty_expected_string_is_refused_witness :
  ∃ bs n,
    PkgNode_write_bytes (Validation (ValidationSpec.as_node
      (ValidationSpec.StringEquals [] None false))) = Ok bs ∧
    PkgNode_read_bytes bs = Ok (Some n, []) ∧
    SiPkgValidation.from_graph n = Err (ValidationMissingField "expected_string").
Proof. by apply empty_expected_string_is_refused. Defined.

End witnesses.
