(* ===== verification/PkgTree.v ===== *)
(** * From package specifications to trees of package nodes

    The specification records of [src/lib/si-pkg/src/spec.rs] and [spec/*.rs],
    and how each becomes a node with children: the implementations of
    [NodeChild::as_node_with_children] in [src/lib/si-pkg/src/node/*.rs]. *)

From S2P Require Import Prelude Bytes KeyValue NodeEntries ObjectGraph.
From S2P Require Import PkgSpec PkgFields PkgNodes PkgNodesData PkgNode PkgLeaves.
From Stdlib Require Import NArith ZArith Init.Byte.
From stdpp Require Import base tactics list strings.

Abbreviation pkg_tree := (NodeWithChildren PkgNode) (only parsing).

Section leaves.
Context {X : Externals}.

(** [ValidationSpec] and [AttrFuncInputSpec]. *)
Definition validation_node (s : ValidationSpec.t) : pkg_tree :=
  NodeWithChildren_new Leaf (Validation (ValidationSpec.as_node s)) [].

Definition attr_func_input_node (s : AttrFuncInputSpec.t) : pkg_tree :=
  NodeWithChildren_new Leaf (AttrFuncInput (AttrFuncInputSpec.as_node s)) [].

End leaves.

(** ** Functions *)

Module FuncArgumentSpec.

Record t := {
  name : list Byte.byte;
  kind : FuncArgumentKind.t;
  element_kind : option FuncArgumentKind.t;
  unique_id : option (list Byte.byte);
  deleted : bool;
}.

Definition as_node_with_children {X : Externals} (s : t) : pkg_tree :=
  NodeWithChildren_new Leaf
    (FuncArgument
       {| FuncArgumentNode.name := name s; FuncArgumentNode.kind := kind s;
          FuncArgumentNode.element_kind := element_kind s;
          FuncArgumentNode.unique_id := unique_id s; FuncArgumentNode.deleted := deleted s |}) [].

End FuncArgumentSpec.

Module FuncSpec.
Section spec.
Context {X : Externals}.

Record FuncSpecData := {
  data_name : list Byte.byte;
  display_name : option (list Byte.byte);
  description : option (list Byte.byte);
  handler : list Byte.byte;
  code_base64 : list Byte.byte;
  backend_kind : FuncSpecBackendKind.t;
  response_type : FuncSpecBackendResponseType.t;
  hidden : bool;
  link : option Url;
}.

Record t := {
  name : list Byte.byte;
  unique_id : list Byte.byte;
  data : option FuncSpecData;
  deleted : bool;
  is_from_builtin : option bool;
  arguments : list FuncArgumentSpec.t;
}.

(** The name inside [data] is the function's name. *)
Definition as_node_with_children (s : t) : pkg_tree :=
  NodeWithChildren_new Tree
    (Func
       {| FuncNode.name := name s;
          FuncNode.data :=
            (λ d, {| FuncNode.data_name := name s; FuncNode.display_name := display_name d;
                     FuncNode.description := description d; FuncNode.handler := handler d;
                     FuncNode.code_base64 := code_base64 d;
                     FuncNode.backend_kind := backend_kind d;
                     FuncNode.response_type := response_type d; FuncNode.hidden := hidden d;
                     FuncNode.link := link d |}) <$> data s;
          FuncNode.unique_id := unique_id s; FuncNode.deleted := deleted s;
          FuncNode.is_from_builtin := is_from_builtin s |})
    (FuncArgumentSpec.as_node_with_children <$> arguments s).

End spec.
End FuncSpec.

(** ** Parts of a schema variant *)

Module ActionFuncSpec.

Record t := {
  func_unique_id : list Byte.byte;
  name : option (list Byte.byte);
  kind : ActionFuncSpecKind.t;
  unique_id : option (list Byte.byte);
  deleted : bool;
}.

Definition as_node_with_children {X : Externals} (s : t) : pkg_tree :=
  NodeWithChildren_new Leaf
    (ActionFunc
       {| ActionFuncNode.name := name s; ActionFuncNode.func_unique_id := func_unique_id s;
          ActionFuncNode.kind := kind s; ActionFuncNode.unique_id := unique_id s;
          ActionFuncNode.deleted := deleted s |}) [].

End ActionFuncSpec.

Module LeafFunctionSpec.

Record t := {
  func_unique_id : list Byte.byte;
  leaf_kind : LeafKind.t;
  unique_id : option (list Byte.byte);
  deleted : bool;
  inputs : list LeafInputLocation.t;
}.

Definition as_node_with_children {X : Externals} (s : t) : pkg_tree :=
  let contains l := bool_decide (l ∈ inputs s) in
  NodeWithChildren_new Leaf
    (LeafFunction
       {| LeafFunctionNode.func_unique_id := func_unique_id s;
          LeafFunctionNode.leaf_kind := leaf_kind s;
          LeafFunctionNode.input_code := contains LeafInputLocation.Code;
          LeafFunctionNode.input_deleted_at := contains LeafInputLocation.DeletedAt;
          LeafFunctionNode.input_domain := contains LeafInputLocation.Domain;
          LeafFunctionNode.input_resource := contains LeafInputLocation.Resource;
          LeafFunctionNode.unique_id := unique_id s; LeafFunctionNode.deleted := deleted s |}) [].

End LeafFunctionSpec.

Module MapKeyFuncSpec.

Record t := {
  key : list Byte.byte;
  func_unique_id : list Byte.byte;
  inputs : list AttrFuncInputSpec.t;
}.

Definition as_node_with_children {X : Externals} (s : t) : pkg_tree :=
  NodeWithChildren_new Tree
    (MapKeyFunc {| MapKeyFuncNode.key := key s;
                   MapKeyFuncNode.func_unique_id := func_unique_id s |})
    (attr_func_input_node <$> inputs s).

End MapKeyFuncSpec.

Module SiPropFuncSpec.

Record t := {
  kind : SiPropFuncSpecKind.t;
  func_unique_id : list Byte.byte;
  unique_id : option (list Byte.byte);
  deleted : bool;
  inputs : list AttrFuncInputSpec.t;
}.

Definition as_node_with_children {X : Externals} (s : t) : pkg_tree :=
  NodeWithChildren_new Tree
    (SiPropFunc
       {| SiPropFuncNode.kind := kind s; SiPropFuncNode.func_unique_id := func_unique_id s;
          SiPropFuncNode.unique_id := unique_id s; SiPropFuncNode.deleted := deleted s |})
    (attr_func_input_node <$> inputs s).

End SiPropFuncSpec.

Module SocketSpec.

Record SocketSpecData := {
  func_unique_id : option (list Byte.byte);
  kind : SocketSpecKind.t;
  data_name : list Byte.byte;
  arity : SocketSpecArity.t;
  ui_hidden : bool;
}.

Record t := {
  name : list Byte.byte;
  data : option SocketSpecData;
  inputs : list AttrFuncInputSpec.t;
  unique_id : option (list Byte.byte);
}.

Definition as_node_with_children {X : Externals} (s : t) : pkg_tree :=
  NodeWithChildren_new Tree
    (Socket
       {| SocketNode.name := name s;
          SocketNode.data :=
            (λ d, {| SocketNode.data_name := name s; SocketNode.kind := kind d;
                     SocketNode.arity := arity d;
                     SocketNode.func_unique_id := func_unique_id d;
                     SocketNode.ui_hidden := ui_hidden d |}) <$> data s;
          SocketNode.unique_id := unique_id s |})
    (attr_func_input_node <$> inputs s).

End SocketSpec.

(** ** Props *)

Module PropSpec.
Section spec.
Context {X : Externals}.

Record PropSpecData := {
  data_name : list Byte.byte;
  default_value : option Json;
  validations : option (list ValidationSpec.t);
  func_unique_id : option (list Byte.byte);
  inputs : option (list AttrFuncInputSpec.t);
  widget_kind : option PropSpecWidgetKind.t;
  widget_options : option Json;
  hidden : option bool;
  doc_link : option Url;
}.

Inductive t : Type :=
| Array (name : list Byte.byte) (data : option PropSpecData)
    (unique_id : option (list Byte.byte)) (type_prop : t)
| Boolean (name : list Byte.byte) (data : option PropSpecData)
    (unique_id : option (list Byte.byte))
| Map (name : list Byte.byte) (data : option PropSpecData)
    (unique_id : option (list Byte.byte)) (type_prop : t)
    (map_key_funcs : option (list MapKeyFuncSpec.t))
| Number (name : list Byte.byte) (data : option PropSpecData)
    (unique_id : option (list Byte.byte))
| Object (name : list Byte.byte) (data : option PropSpecData)
    (unique_id : option (list Byte.byte)) (entries : list t)
| String_ (name : list Byte.byte) (data : option PropSpecData)
    (unique_id : option (list Byte.byte)).

Definition name (s : t) : list Byte.byte :=
  match s with
  | Array n _ _ _ | Boolean n _ _ | Map n _ _ _ _ | Number n _ _ | Object n _ _ _
  | String_ n _ _ => n
  end.

Definition data (s : t) : option PropSpecData :=
  match s with
  | Array _ d _ _ | Boolean _ d _ | Map _ d _ _ _ | Number _ d _ | Object _ d _ _
  | String_ _ d _ => d
  end.

(** [PropSpecWidgetKind::from(&PropSpec)]. *)
Definition default_widget_kind (s : t) : PropSpecWidgetKind.t :=
  match s with
  | Array _ _ _ _ => PropSpecWidgetKind.Array
  | Boolean _ _ _ => PropSpecWidgetKind.Checkbox
  | String_ _ _ _ | Number _ _ _ => PropSpecWidgetKind.Text
  | Object _ _ _ _ => PropSpecWidgetKind.Header
  | Map _ _ _ _ _ => PropSpecWidgetKind.Map
  end.

Definition node_data (s : t) : option PropNode.PropNodeData :=
  (λ d, {| PropNode.data_name := data_name d; PropNode.func_unique_id := func_unique_id d;
           PropNode.default_value := default_value d;
           PropNode.widget_kind := default (default_widget_kind s) (widget_kind d);
           PropNode.widget_options := widget_options d; PropNode.doc_link := doc_link d;
           PropNode.hidden := default false (hidden d) |}) <$> data s.

(** [PropChild::as_node_with_children]. *)
Definition prop_child (c : PropChildNode.t) (children : list pkg_tree) : pkg_tree :=
  NodeWithChildren_new Tree (PropChild c) children.

(** The children every prop has. *)
Definition common_children (s : t) : list pkg_tree :=
  [prop_child PropChildNode.Validations
     (validation_node <$> default [] (data s ≫= validations));
   prop_child PropChildNode.AttrFuncInputs
     (attr_func_input_node <$> default [] (data s ≫= inputs))].

Fixpoint as_node_with_children (s : t) : pkg_tree :=
  match s with
  | String_ name _ u =>
      NodeWithChildren_new Tree (Prop_ (PropNode.String_ name (node_data s) u)) (common_children s)
  | Number name _ u =>
      NodeWithChildren_new Tree (Prop_ (PropNode.Integer name (node_data s) u)) (common_children s)
  | Boolean name _ u =>
      NodeWithChildren_new Tree (Prop_ (PropNode.Boolean name (node_data s) u)) (common_children s)
  | Map name _ u type_prop map_key_funcs =>
      NodeWithChildren_new Tree (Prop_ (PropNode.Map name (node_data s) u))
        (prop_child PropChildNode.MapKeyFuncs
           (MapKeyFuncSpec.as_node_with_children <$> default [] map_key_funcs) ::
         prop_child PropChildNode.Props [as_node_with_children type_prop] ::
         common_children s)
  | Array name _ u type_prop =>
      NodeWithChildren_new Tree (Prop_ (PropNode.Array name (node_data s) u))
        (prop_child PropChildNode.Props [as_node_with_children type_prop] :: common_children s)
  | Object name _ u entries =>
      NodeWithChildren_new Tree (Prop_ (PropNode.Object name (node_data s) u))
        (prop_child PropChildNode.Props (as_node_with_children <$> entries) :: common_children s)
  end.

End spec.
End PropSpec.

(** ** Schemas *)

Module SchemaVariantSpec.
Section spec.
Context {X : Externals}.

Record SchemaVariantSpecData := {
  data_name : list Byte.byte;
  link : option Url;
  color : option (list Byte.byte);
  component_type : SchemaVariantSpecComponentType.t;
  func_unique_id : list Byte.byte;
}.

Record t := {
  name : list Byte.byte;
  data : option SchemaVariantSpecData;
  unique_id : option (list Byte.byte);
  deleted : bool;
  action_funcs : list ActionFuncSpec.t;
  leaf_functions : list LeafFunctionSpec.t;
  sockets : list SocketSpec.t;
  si_prop_funcs : list SiPropFuncSpec.t;
  domain : PropSpec.t;
  secrets : PropSpec.t;
  secret_definition : option PropSpec.t;
  resource_value : PropSpec.t;
}.

(** [SchemaVariantChild::as_node_with_children]. *)
Definition variant_child (c : SchemaVariantChildNode.t) (children : list pkg_tree) : pkg_tree :=
  NodeWithChildren_new Tree (SchemaVariantChild c) children.

Definition children (s : t) : list pkg_tree :=
  [variant_child SchemaVariantChildNode.ActionFuncs
     (ActionFuncSpec.as_node_with_children <$> action_funcs s);
   variant_child SchemaVariantChildNode.Domain [PropSpec.as_node_with_children (domain s)];
   variant_child SchemaVariantChildNode.ResourceValue
     [PropSpec.as_node_with_children (resource_value s)];
   variant_child SchemaVariantChildNode.LeafFunctions
     (LeafFunctionSpec.as_node_with_children <$> leaf_functions s);
   variant_child SchemaVariantChildNode.Sockets
     (SocketSpec.as_node_with_children <$> sockets s);
   variant_child SchemaVariantChildNode.SiPropFuncs
     (SiPropFuncSpec.as_node_with_children <$> si_prop_funcs s);
   variant_child SchemaVariantChildNode.Secrets [PropSpec.as_node_with_children (secrets s)]] ++
  match secret_definition s with
  | Some secret_definition =>
      [variant_child SchemaVariantChildNode.SecretDefinition
         [PropSpec.as_node_with_children secret_definition]]
  | None => []
  end.

Definition as_node_with_children (s : t) : pkg_tree :=
  NodeWithChildren_new Tree
    (SchemaVariant
       {| SchemaVariantNode.name := name s;
          SchemaVariantNode.data :=
            (λ d, {| SchemaVariantNode.data_name := name s; SchemaVariantNode.link := link d;
                     SchemaVariantNode.color := color d;
                     SchemaVariantNode.component_type := component_type d;
                     SchemaVariantNode.func_unique_id := func_unique_id d |}) <$> data s;
          SchemaVariantNode.unique_id := unique_id s;
          SchemaVariantNode.deleted := deleted s |})
    (children s).

End spec.
End SchemaVariantSpec.

Module SchemaSpec.
Section spec.
Context {X : Externals}.

Record SchemaSpecData := {
  data_name : list Byte.byte;
  category : list Byte.byte;
  category_name : option (list Byte.byte);
  ui_hidden : bool;
  default_schema_variant : option (list Byte.byte);
}.

Record t := {
  name : list Byte.byte;
  data : option SchemaSpecData;
  unique_id : option (list Byte.byte);
  deleted : bool;
  variants : list SchemaVariantSpec.t;
}.

Definition as_node_with_children (s : t) : pkg_tree :=
  NodeWithChildren_new Tree
    (Schema
       {| SchemaNode.name := name s;
          SchemaNode.data :=
            (λ d, {| SchemaNode.data_name := data_name d; SchemaNode.category := category d;
                     SchemaNode.category_name := category_name d;
                     SchemaNode.ui_hidden := ui_hidden d;
                     SchemaNode.default_schema_variant := default_schema_variant d |}) <$> data s;
          SchemaNode.unique_id := unique_id s; SchemaNode.deleted := deleted s |})
    (SchemaVariantSpec.as_node_with_children <$> variants s).

End spec.
End SchemaSpec.

(** ** Components *)

Module PositionSpec.

Record t := {
  x : list Byte.byte;
  y : list Byte.byte;
  width : option (list Byte.byte);
  height : option (list Byte.byte);
}.

Definition as_node_with_children {X : Externals} (s : t) : pkg_tree :=
  NodeWithChildren_new Leaf
    (Position {| PositionNode.x := x s; PositionNode.y := y s; PositionNode.width := width s;
                 PositionNode.height := height s |}) [].

End PositionSpec.

Module AttributeValueSpec.
Section spec.
Context {X : Externals}.

Record t := {
  parent_path : option AttributeValuePath;
  path : AttributeValuePath;
  func_unique_id : list Byte.byte;
  func_binding_args : Json;
  handler : option (list Byte.byte);
  backend_kind : FuncSpecBackendKind.t;
  response_type : FuncSpecBackendResponseType.t;
  code_base64 : option (list Byte.byte);
  unprocessed_value : option Json;
  value : option Json;
  output_stream : option Json;
  is_proxy : bool;
  sealed_proxy : bool;
  component_specific : bool;
  inputs : list AttrFuncInputSpec.t;
  implicit_value : option Json;
}.

Definition as_node_with_children (s : t) : pkg_tree :=
  NodeWithChildren_new Tree
    (AttributeValue
       {| AttributeValueNode.backend_kind := backend_kind s;
          AttributeValueNode.code_base64 := code_base64 s;
          AttributeValueNode.func_binding_args := func_binding_args s;
          AttributeValueNode.func_unique_id := func_unique_id s;
          AttributeValueNode.handler := handler s;
          AttributeValueNode.output_stream := output_stream s;
          AttributeValueNode.parent_path := parent_path s; AttributeValueNode.path := path s;
          AttributeValueNode.response_type := response_type s;
          AttributeValueNode.is_proxy := is_proxy s;
          AttributeValueNode.sealed_proxy := sealed_proxy s;
          AttributeValueNode.component_specific := component_specific s;
          AttributeValueNode.unprocessed_value := unprocessed_value s;
          AttributeValueNode.value := value s;
          AttributeValueNode.implicit_value := implicit_value s |})
    [NodeWithChildren_new Tree (AttributeValueChild AttributeValueChildNode.AttrFuncInputs)
       (attr_func_input_node <$> inputs s)].

End spec.
End AttributeValueSpec.

Module ComponentSpec.
Section spec.
Context {X : Externals}.

Record t := {
  name : list Byte.byte;
  position : PositionSpec.t;
  variant : ComponentSpecVariant;
  needs_destroy : bool;
  deletion_user_pk : option (list Byte.byte);
  unique_id : list Byte.byte;
  deleted : bool;
  attributes : list AttributeValueSpec.t;
  input_sockets : list AttributeValueSpec.t;
  output_sockets : list AttributeValueSpec.t;
}.

(** [ComponentChild::as_node_with_children]. *)
Definition component_child (c : ComponentChildNode.t) (children : list pkg_tree) : pkg_tree :=
  NodeWithChildren_new Tree (ComponentChild c) children.

Definition as_node_with_children (s : t) : pkg_tree :=
  NodeWithChildren_new Tree
    (Component
       {| ComponentNode.name := name s; ComponentNode.variant := variant s;
          ComponentNode.needs_destroy := needs_destroy s;
          ComponentNode.deletion_user_pk := deletion_user_pk s;
          ComponentNode.unique_id := unique_id s; ComponentNode.deleted := deleted s |})
    [component_child ComponentChildNode.Attributes
       (AttributeValueSpec.as_node_with_children <$> attributes s);
     component_child ComponentChildNode.InputSockets
       (AttributeValueSpec.as_node_with_children <$> input_sockets s);
     component_child ComponentChildNode.OutputSockets
       (AttributeValueSpec.as_node_with_children <$> output_sockets s);
     component_child ComponentChildNode.Position
       [PositionSpec.as_node_with_children (position s)]].

End spec.
End ComponentSpec.

Module EdgeSpec.

Record t := {
  edge_kind : EdgeSpecKind.t;
  from_component_unique_id : list Byte.byte;
  from_socket_name : list Byte.byte;
  to_component_unique_id : list Byte.byte;
  to_socket_name : list Byte.byte;
  creation_user_pk : option (list Byte.byte);
  deletion_user_pk : option (list Byte.byte);
  deleted_implicitly : bool;
  unique_id : list Byte.byte;
  deleted : bool;
}.

Definition as_node_with_children {X : Externals} (s : t) : pkg_tree :=
  NodeWithChildren_new Leaf
    (Edge
       {| EdgeNode.edge_kind := edge_kind s;
          EdgeNode.from_component_unique_id := from_component_unique_id s;
          EdgeNode.from_socket_name := from_socket_name s;
          EdgeNode.to_component_unique_id := to_component_unique_id s;
          EdgeNode.to_socket_name := to_socket_name s;
          EdgeNode.creation_user_pk := creation_user_pk s;
          EdgeNode.deletion_user_pk := deletion_user_pk s;
          EdgeNode.deleted_implicitly := deleted_implicitly s;
          EdgeNode.unique_id := unique_id s; EdgeNode.deleted := deleted s |}) [].

End EdgeSpec.

(** ** Change sets and packages *)

Module ChangeSetSpec.
Section spec.
Context {X : Externals}.

Record t := {
  name : list Byte.byte;
  based_on_change_set : option (list Byte.byte);
  status : ChangeSetSpecStatus.t;
  components : list ComponentSpec.t;
  schemas : list SchemaSpec.t;
  funcs : list FuncSpec.t;
  edges : list EdgeSpec.t;
}.

(** [ChangeSetChild::as_node_with_children]. *)
Definition change_set_child (c : ChangeSetChildNode.t) (children : list pkg_tree) : pkg_tree :=
  NodeWithChildren_new Tree (ChangeSetChild c) children.

Definition as_node_with_children (s : t) : pkg_tree :=
  NodeWithChildren_new Tree
    (ChangeSet {| ChangeSetNode.name := name s; ChangeSetNode.status := status s;
                  ChangeSetNode.based_on_change_set := based_on_change_set s |})
    [change_set_child ChangeSetChildNode.Components
       (ComponentSpec.as_node_with_children <$> components s);
     change_set_child ChangeSetChildNode.Edges (EdgeSpec.as_node_with_children <$> edges s);
     change_set_child ChangeSetChildNode.Funcs (FuncSpec.as_node_with_children <$> funcs s);
     change_set_child ChangeSetChildNode.Schemas
       (SchemaSpec.as_node_with_children <$> schemas s)].

End spec.
End ChangeSetSpec.

Module PackageSpec.
Section spec.
Context {X : Externals}.

(** [PkgSpec]. *)
Record t := {
  kind : SiPkgKind.t;
  name : list Byte.byte;
  version : list Byte.byte;
  description : list Byte.byte;
  created_at : DateTime;
  created_by : list Byte.byte;
  default_change_set : option (list Byte.byte);
  workspace_pk : option (list Byte.byte);
  workspace_name : option (list Byte.byte);
  schemas : list SchemaSpec.t;
  funcs : list FuncSpec.t;
  change_sets : list ChangeSetSpec.t;
}.

(** [PackageCategory::as_node_with_children]. *)
Definition category (c : CategoryNode.t) (children : list pkg_tree) : pkg_tree :=
  NodeWithChildren_new Tree (Category c) children.

Definition package_node (s : t) : PackageNode.t :=
  {| PackageNode.kind := kind s; PackageNode.name := name s; PackageNode.version := version s;
     PackageNode.description := description s; PackageNode.created_at := created_at s;
     PackageNode.created_by := created_by s;
     PackageNode.default_change_set := default_change_set s;
     PackageNode.workspace_pk := workspace_pk s;
     PackageNode.workspace_name := workspace_name s |}.

Definition as_node_with_children (s : t) : pkg_tree :=
  NodeWithChildren_new Tree (Package (package_node s))
    match kind s with
    | SiPkgKind.Module_ =>
        [category CategoryNode.Schemas (SchemaSpec.as_node_with_children <$> schemas s);
         category CategoryNode.Funcs (FuncSpec.as_node_with_children <$> funcs s)]
    | SiPkgKind.WorkspaceBackup =>
        [category CategoryNode.ChangeSets
           (ChangeSetSpec.as_node_with_children <$> change_sets s)]
    end.

End spec.
End PackageSpec.
