(* ===== verification/PkgViews.v ===== *)
(** * What a package hands out

    Model of the [SiPkg..] values of [src/lib/si-pkg/src/pkg/*.rs]: each is a
    view of a node of the package's graph, finds its parts among the neighbors
    of that node, and is turned back into a specification. The values of this
    file are functions, edges, components and the parts of a schema variant
    other than its props. *)

From S2P Require Import Prelude Bytes KeyValue NodeEntries ObjectGraph ObjectTar.
From S2P Require Import PkgSpec PkgFields PkgNodes PkgNodesData PkgNode PkgLeaves PkgTree.
From Stdlib Require Import NArith ZArith Init.Byte.
From stdpp Require Import base tactics list strings.

(** ** Views of nodes *)

Section views.
Context `{B : Blake3} `{P : Petgraph} `{A : TarArchive} {X : Externals}.

Abbreviation pkg_result C := (result (fault SiPkgError) C) (only parsing).
Abbreviation pkg_graph := (Graph (HashedNode PkgNode)) (only parsing).

(** [graph[idx]] panics when there is no such node. *)
Definition graph_index (g : pkg_graph) (idx : nat) : pkg_result (HashedNode PkgNode) :=
  ok_or (node_weight g idx) Panic.

(** A view: the fields of the node, copied, its hash, and the [Source] (the
    graph is an argument of everything that follows the source). *)
Record view (N : Type) := {
  node : N;
  view_hash : Hash;
  source : nat;
}.

(** The [from_graph] functions. *)
Definition view_from_graph {N} (expected : list Byte.byte) (select : PkgNode → option N)
    (g : pkg_graph) (node_idx : nat) : pkg_result (view N) :=
  hashed_node ← graph_index g node_idx;
  match select (hashed_inner hashed_node) with
  | Some n => Ok {| node := n; view_hash := hashed_hash hashed_node; source := node_idx |}
  | None => Err (Fault (UnexpectedPkgNodeType expected
                          (node_kind_str (hashed_inner hashed_node))))
  end.

(** [neighbors_directed(idx, Outgoing).find(..)]. *)
Fixpoint find_node (g : pkg_graph) (p : PkgNode → bool) (idxs : list nat) :
    pkg_result (option nat) :=
  match idxs with
  | [] => Ok None
  | idx :: idxs =>
      hashed_node ← graph_index g idx;
      if p (hashed_inner hashed_node) then Ok (Some idx) else find_node g p idxs
  end.

(** What the [impl_.._from_graph] macros generate: the entries below the first
    child of the given kind, none if there is no such child. *)
Definition entries_below {C} (g : pkg_graph) (p : PkgNode → bool) (from : nat → pkg_result C)
    (node_idx : nat) : pkg_result (list C) :=
  child ← find_node g p (neighbors_outgoing g node_idx);
  match child with
  | Some child_idx => try_map from (neighbors_outgoing g child_idx)
  | None => Ok []
  end.

(** A [PkgResult] that does not panic. *)
Definition no_panic {C} (r : result SiPkgError C) : pkg_result C := map_err Fault r.

(** ** Inputs of functions *)

(** [SiPkgAttrFuncInput::from_graph] at a node. *)
Definition attr_func_input_from_graph (g : pkg_graph) (idx : nat) :
    pkg_result SiPkgAttrFuncInput.t :=
  hashed_node ← graph_index g idx;
  no_panic (SiPkgAttrFuncInput.from_graph (hashed_inner hashed_node)).

Definition attr_func_inputs_into_specs (inputs : list SiPkgAttrFuncInput.t) :
    pkg_result (list AttrFuncInputSpec.t) :=
  try_map (λ input, no_panic (SiPkgAttrFuncInput.try_into_spec input)) inputs.

(** The inputs that are direct children of a node, as specifications. *)
Definition child_inputs (g : pkg_graph) (node_idx : nat) : pkg_result (list AttrFuncInputSpec.t) :=
  inputs ← try_map (attr_func_input_from_graph g) (neighbors_outgoing g node_idx);
  attr_func_inputs_into_specs inputs.

End views.
Arguments node {B N} _.
Arguments view_hash {B N} _.
Arguments source {B N} _.

Module SiPkgFunc.
Section pkg.
Context `{B : Blake3} `{P : Petgraph} `{A : TarArchive} {X : Externals}.

Definition argument_from_graph := view_from_graph (str "func_argument")
  (λ n, match n with FuncArgument node => Some node | _ => None end).

Definition argument_into_spec (v : view FuncArgumentNode.t) : FuncArgumentSpec.t :=
  {| FuncArgumentSpec.name := FuncArgumentNode.name (node v);
     FuncArgumentSpec.kind := FuncArgumentNode.kind (node v);
     FuncArgumentSpec.element_kind := FuncArgumentNode.element_kind (node v);
     FuncArgumentSpec.unique_id := None; FuncArgumentSpec.deleted := false |}.

Definition from_graph := view_from_graph (str "func")
  (λ n, match n with Func node => Some node | _ => None end).

Definition arguments (g : Graph (HashedNode PkgNode)) (v : view FuncNode.t) :=
  try_map (argument_from_graph g) (neighbors_outgoing g (source v)).

(** [FuncSpec::try_from]. *)
Definition try_into_spec (g : Graph (HashedNode PkgNode)) (v : view FuncNode.t) :
    result (fault SiPkgError) FuncSpec.t :=
  arguments ← arguments g v;
  Ok {| FuncSpec.name := FuncNode.name (node v); FuncSpec.unique_id := FuncNode.unique_id (node v);
        FuncSpec.data :=
          (λ d, {| FuncSpec.data_name := FuncNode.data_name d;
                   FuncSpec.display_name := FuncNode.display_name d;
                   FuncSpec.description := FuncNode.description d;
                   FuncSpec.handler := FuncNode.handler d;
                   FuncSpec.code_base64 := FuncNode.code_base64 d;
                   FuncSpec.backend_kind := FuncNode.backend_kind d;
                   FuncSpec.response_type := FuncNode.response_type d;
                   FuncSpec.hidden := FuncNode.hidden d; FuncSpec.link := FuncNode.link d |})
            <$> FuncNode.data (node v);
        FuncSpec.deleted := FuncNode.deleted (node v); FuncSpec.is_from_builtin := None;
        FuncSpec.arguments := argument_into_spec <$> arguments |}.

End pkg.
End SiPkgFunc.

(** ** Parts of a schema variant *)

Module SiPkgActionFunc.
Section pkg.
Context `{B : Blake3} `{P : Petgraph} `{A : TarArchive} {X : Externals}.

Definition from_graph := view_from_graph (str "action_func")
  (λ n, match n with ActionFunc node => Some node | _ => None end).

Definition try_into_spec (v : view ActionFuncNode.t) : ActionFuncSpec.t :=
  {| ActionFuncSpec.func_unique_id := ActionFuncNode.func_unique_id (node v);
     ActionFuncSpec.name := None; ActionFuncSpec.kind := ActionFuncNode.kind (node v);
     ActionFuncSpec.unique_id := ActionFuncNode.unique_id (node v);
     ActionFuncSpec.deleted := ActionFuncNode.deleted (node v) |}.

End pkg.
End SiPkgActionFunc.

Module SiPkgLeafFunction.
Section pkg.
Context `{B : Blake3} `{P : Petgraph} `{A : TarArchive} {X : Externals}.

Definition from_graph := view_from_graph (str "leaf_function")
  (λ n, match n with LeafFunction node => Some node | _ => None end).

(** The [inputs] of [from_graph]. *)
Definition inputs (n : LeafFunctionNode.t) : list LeafInputLocation.t :=
  (if LeafFunctionNode.input_domain n then [LeafInputLocation.Domain] else []) ++
  (if LeafFunctionNode.input_resource n then [LeafInputLocation.Resource] else []) ++
  (if LeafFunctionNode.input_code n then [LeafInputLocation.Code] else []) ++
  (if LeafFunctionNode.input_deleted_at n then [LeafInputLocation.DeletedAt] else []).

Definition try_into_spec (v : view LeafFunctionNode.t) : LeafFunctionSpec.t :=
  {| LeafFunctionSpec.func_unique_id := LeafFunctionNode.func_unique_id (node v);
     LeafFunctionSpec.leaf_kind := LeafFunctionNode.leaf_kind (node v);
     LeafFunctionSpec.unique_id := LeafFunctionNode.unique_id (node v);
     LeafFunctionSpec.deleted := LeafFunctionNode.deleted (node v);
     LeafFunctionSpec.inputs := inputs (node v) |}.

End pkg.
End SiPkgLeafFunction.

Module SiPkgMapKeyFunc.
Section pkg.
Context `{B : Blake3} `{P : Petgraph} `{A : TarArchive} {X : Externals}.

Definition from_graph := view_from_graph (str "map_key_func")
  (λ n, match n with MapKeyFunc node => Some node | _ => None end).

Definition try_into_spec (g : Graph (HashedNode PkgNode)) (v : view MapKeyFuncNode.t) :
    result (fault SiPkgError) MapKeyFuncSpec.t :=
  inputs ← child_inputs g (source v);
  Ok {| MapKeyFuncSpec.key := MapKeyFuncNode.key (node v);
        MapKeyFuncSpec.func_unique_id := MapKeyFuncNode.func_unique_id (node v);
        MapKeyFuncSpec.inputs := inputs |}.

End pkg.
End SiPkgMapKeyFunc.

Module SiPkgSiPropFunc.
Section pkg.
Context `{B : Blake3} `{P : Petgraph} `{A : TarArchive} {X : Externals}.

Definition from_graph := view_from_graph (str "si_prop_func")
  (λ n, match n with SiPropFunc node => Some node | _ => None end).

Definition try_into_spec (g : Graph (HashedNode PkgNode)) (v : view SiPropFuncNode.t) :
    result (fault SiPkgError) SiPropFuncSpec.t :=
  inputs ← child_inputs g (source v);
  Ok {| SiPropFuncSpec.kind := SiPropFuncNode.kind (node v);
        SiPropFuncSpec.func_unique_id := SiPropFuncNode.func_unique_id (node v);
        SiPropFuncSpec.unique_id := SiPropFuncNode.unique_id (node v);
        SiPropFuncSpec.deleted := SiPropFuncNode.deleted (node v);
        SiPropFuncSpec.inputs := inputs |}.

End pkg.
End SiPkgSiPropFunc.

Module SiPkgSocket.
Section pkg.
Context `{B : Blake3} `{P : Petgraph} `{A : TarArchive} {X : Externals}.

Definition from_graph := view_from_graph (str "socket")
  (λ n, match n with Socket node => Some node | _ => None end).

(** The data are put into a builder of their own, which is then dropped. *)
Definition try_into_spec (g : Graph (HashedNode PkgNode)) (v : view SocketNode.t) :
    result (fault SiPkgError) SocketSpec.t :=
  inputs ← child_inputs g (source v);
  Ok {| SocketSpec.name := SocketNode.name (node v); SocketSpec.data := None;
        SocketSpec.inputs := inputs; SocketSpec.unique_id := SocketNode.unique_id (node v) |}.

End pkg.
End SiPkgSocket.

(** ** Components and edges *)

Module SiPkgPosition.
Section pkg.
Context `{B : Blake3} `{P : Petgraph} `{A : TarArchive} {X : Externals}.

Definition from_graph := view_from_graph (str "position")
  (λ n, match n with Position node => Some node | _ => None end).

Definition try_into_spec (v : view PositionNode.t) : PositionSpec.t :=
  {| PositionSpec.x := PositionNode.x (node v); PositionSpec.y := PositionNode.y (node v);
     PositionSpec.width := PositionNode.width (node v);
     PositionSpec.height := PositionNode.height (node v) |}.

End pkg.
End SiPkgPosition.

Module SiPkgAttributeValue.
Section pkg.
Context `{B : Blake3} `{P : Petgraph} `{A : TarArchive} {X : Externals}.

Definition from_graph := view_from_graph (str "attribute_value")
  (λ n, match n with AttributeValue node => Some node | _ => None end).

Definition is_child (c : AttributeValueChildNode.t) (n : PkgNode) : bool :=
  match n with AttributeValueChild c' => bool_decide (c' = c) | _ => false end.

Definition inputs (g : Graph (HashedNode PkgNode)) (v : view AttributeValueNode.t) :=
  entries_below g (is_child AttributeValueChildNode.AttrFuncInputs)
    (attr_func_input_from_graph g) (source v).

(** [is_proxy] and [implicit_value] keep the builder's defaults. *)
Definition try_into_spec (g : Graph (HashedNode PkgNode)) (v : view AttributeValueNode.t) :
    result (fault SiPkgError) AttributeValueSpec.t :=
  inputs ← inputs g v;
  inputs ← attr_func_inputs_into_specs inputs;
  Ok {| AttributeValueSpec.parent_path := AttributeValueNode.parent_path (node v);
        AttributeValueSpec.path := AttributeValueNode.path (node v);
        AttributeValueSpec.func_unique_id := AttributeValueNode.func_unique_id (node v);
        AttributeValueSpec.func_binding_args := AttributeValueNode.func_binding_args (node v);
        AttributeValueSpec.handler := AttributeValueNode.handler (node v);
        AttributeValueSpec.backend_kind := AttributeValueNode.backend_kind (node v);
        AttributeValueSpec.response_type := AttributeValueNode.response_type (node v);
        AttributeValueSpec.code_base64 := AttributeValueNode.code_base64 (node v);
        AttributeValueSpec.unprocessed_value := AttributeValueNode.unprocessed_value (node v);
        AttributeValueSpec.value := AttributeValueNode.value (node v);
        AttributeValueSpec.output_stream := AttributeValueNode.output_stream (node v);
        AttributeValueSpec.is_proxy := false;
        AttributeValueSpec.sealed_proxy := AttributeValueNode.sealed_proxy (node v);
        AttributeValueSpec.component_specific := AttributeValueNode.component_specific (node v);
        AttributeValueSpec.inputs := inputs; AttributeValueSpec.implicit_value := None |}.

End pkg.
End SiPkgAttributeValue.

Module SiPkgComponent.
Section pkg.
Context `{B : Blake3} `{P : Petgraph} `{A : TarArchive} {X : Externals}.

Definition from_graph := view_from_graph (str "component")
  (λ n, match n with Component node => Some node | _ => None end).

Definition is_child (c : ComponentChildNode.t) (n : PkgNode) : bool :=
  match n with ComponentChild c' => bool_decide (c' = c) | _ => false end.

(** The attribute values below one of the children. *)
Definition values_below (g : Graph (HashedNode PkgNode)) (c : ComponentChildNode.t)
    (v : view ComponentNode.t) : result (fault SiPkgError) (list AttributeValueSpec.t) :=
  values ← entries_below g (is_child c) (SiPkgAttributeValue.from_graph g) (source v);
  try_map (SiPkgAttributeValue.try_into_spec g) values.

Definition position (g : Graph (HashedNode PkgNode)) (v : view ComponentNode.t) :=
  entries_below g (is_child ComponentChildNode.Position) (SiPkgPosition.from_graph g) (source v).

(** Sockets are added to the attributes; [unique_id] keeps the builder's
    default. *)
Definition try_into_spec (g : Graph (HashedNode PkgNode)) (v : view ComponentNode.t) :
    result (fault SiPkgError) ComponentSpec.t :=
  attributes ← values_below g ComponentChildNode.Attributes v;
  input_sockets ← values_below g ComponentChildNode.InputSockets v;
  output_sockets ← values_below g ComponentChildNode.OutputSockets v;
  positions ← position g v;
  position ← ok_or (last positions)
    (Fault (ComponentMissingPosition (ComponentNode.name (node v))));
  Ok {| ComponentSpec.name := ComponentNode.name (node v);
        ComponentSpec.position := SiPkgPosition.try_into_spec position;
        ComponentSpec.variant := ComponentNode.variant (node v);
        ComponentSpec.needs_destroy := ComponentNode.needs_destroy (node v);
        ComponentSpec.deletion_user_pk := ComponentNode.deletion_user_pk (node v);
        ComponentSpec.unique_id := []; ComponentSpec.deleted := ComponentNode.deleted (node v);
        ComponentSpec.attributes := attributes ++ input_sockets ++ output_sockets;
        ComponentSpec.input_sockets := []; ComponentSpec.output_sockets := [] |}.

End pkg.
End SiPkgComponent.

Module SiPkgEdge.
Section pkg.
Context `{B : Blake3} `{P : Petgraph} `{A : TarArchive} {X : Externals}.

Definition from_graph := view_from_graph (str "edge")
  (λ n, match n with Edge node => Some node | _ => None end).

(** [EdgeSpecBuilder]: what has been set. *)
Record builder := {
  b_edge_kind : option EdgeSpecKind.t;
  b_from_component_unique_id : option (list Byte.byte);
  b_from_socket_name : option (list Byte.byte);
  b_to_component_unique_id : option (list Byte.byte);
  b_to_socket_name : option (list Byte.byte);
  b_creation_user_pk : option (option (list Byte.byte));
  b_deletion_user_pk : option (option (list Byte.byte));
  b_deleted_implicitly : option bool;
  b_unique_id : option (list Byte.byte);
  b_deleted : option bool;
}.

(** The derived [build]: [unique_id] and [deleted] have defaults, the other
    fields must have been set. *)
Definition build (b : builder) : result SpecError EdgeSpec.t :=
  edge_kind ← required (b_edge_kind b) "edge_kind";
  from_component_unique_id ← required (b_from_component_unique_id b) "from_component_unique_id";
  from_socket_name ← required (b_from_socket_name b) "from_socket_name";
  to_component_unique_id ← required (b_to_component_unique_id b) "to_component_unique_id";
  to_socket_name ← required (b_to_socket_name b) "to_socket_name";
  creation_user_pk ← required (b_creation_user_pk b) "creation_user_pk";
  deletion_user_pk ← required (b_deletion_user_pk b) "deletion_user_pk";
  deleted_implicitly ← required (b_deleted_implicitly b) "deleted_implicitly";
  Ok {| EdgeSpec.edge_kind := edge_kind;
        EdgeSpec.from_component_unique_id := from_component_unique_id;
        EdgeSpec.from_socket_name := from_socket_name;
        EdgeSpec.to_component_unique_id := to_component_unique_id;
        EdgeSpec.to_socket_name := to_socket_name;
        EdgeSpec.creation_user_pk := creation_user_pk;
        EdgeSpec.deletion_user_pk := deletion_user_pk;
        EdgeSpec.deleted_implicitly := deleted_implicitly;
        EdgeSpec.unique_id := default [] (b_unique_id b);
        EdgeSpec.deleted := default false (b_deleted b) |}.

Definition try_into_spec (v : view EdgeNode.t) : result (fault SiPkgError) EdgeSpec.t :=
  no_panic (spec_result (build
    {| b_edge_kind := None;
       b_from_component_unique_id := Some (EdgeNode.from_component_unique_id (node v));
       b_from_socket_name := Some (EdgeNode.from_socket_name (node v));
       b_to_component_unique_id := Some (EdgeNode.to_component_unique_id (node v));
       b_to_socket_name := Some (EdgeNode.to_socket_name (node v));
       b_creation_user_pk := None; b_deletion_user_pk := None; b_deleted_implicitly := None;
       b_unique_id := None; b_deleted := None |})).

End pkg.
End SiPkgEdge.
