(* ===== verification/PkgProps.v ===== *)
(** * Props and schema variants of a package

    Model of [src/lib/si-pkg/src/pkg/prop.rs] and [pkg/variant.rs] with the
    builders of [spec/prop.rs] and [spec/variant.rs]: the props below a schema
    variant are visited in depth-first order, put on a stack with their paths,
    and put together again from the leaves up. *)

From S2P Require Import Prelude Bytes KeyValue NodeEntries ObjectGraph ObjectTar.
From S2P Require Import PkgSpec PkgFields PkgNodes PkgNodesData PkgNode PkgLeaves PkgTree PkgViews.
From Stdlib Require Import NArith ZArith Init.Byte.
From stdpp Require Import base tactics list gmap strings.
Open Scope run_scope.

(** ** The builder of a prop *)

Module PropSpecKind.

Inductive t : Set :=
| Array | Boolean | Map | Number | Object | String_.

End PropSpecKind.

Module PropSpecBuilder.
Section builder.
Context {X : Externals}.

Record t := Mk {
  b_default_value : option Json;
  b_doc_link : option Url;
  b_entries : list PropSpec.t;
  b_func_unique_id : option (list Byte.byte);
  b_hidden : bool;
  b_inputs : list AttrFuncInputSpec.t;
  b_kind : option PropSpecKind.t;
  b_map_key_funcs : list MapKeyFuncSpec.t;
  b_name : option (list Byte.byte);
  b_type_prop : option PropSpec.t;
  b_validations : list ValidationSpec.t;
  b_widget_kind : option PropSpecWidgetKind.t;
  b_widget_options : option Json;
  b_unique_id : option (list Byte.byte);
  b_has_data : bool;
}.

(** [PropSpecBuilder::default]. *)
Definition new : t := Mk None None [] None false [] None [] None None [] None None None true.

Definition default_value (v : Json) (b : t) : t :=
  let '(Mk _ dl es f h i k mk n tp vs wk wo u _) := b in
  Mk (Some v) dl es f h i k mk n tp vs wk wo u true.

Definition kind (v : PropSpecKind.t) (b : t) : t :=
  let '(Mk dv dl es f h i _ mk n tp vs wk wo u hd) := b in
  Mk dv dl es f h i (Some v) mk n tp vs wk wo u hd.

Definition name (v : list Byte.byte) (b : t) : t :=
  let '(Mk dv dl es f h i k mk _ tp vs wk wo u hd) := b in
  Mk dv dl es f h i k mk (Some v) tp vs wk wo u hd.

Definition type_prop (v : PropSpec.t) (b : t) : t :=
  let '(Mk dv dl es f h i k mk n _ vs wk wo u hd) := b in
  Mk dv dl es f h i k mk n (Some v) vs wk wo u hd.

Definition entry (v : PropSpec.t) (b : t) : t :=
  let '(Mk dv dl es f h i k mk n tp vs wk wo u hd) := b in
  Mk dv dl (es ++ [v]) f h i k mk n tp vs wk wo u hd.

Definition entries (v : list PropSpec.t) (b : t) : t :=
  let '(Mk dv dl _ f h i k mk n tp vs wk wo u hd) := b in
  Mk dv dl v f h i k mk n tp vs wk wo u hd.

Definition validation (v : ValidationSpec.t) (b : t) : t :=
  let '(Mk dv dl es f h i k mk n tp vs wk wo u _) := b in
  Mk dv dl es f h i k mk n tp (vs ++ [v]) wk wo u true.

Definition func_unique_id (v : list Byte.byte) (b : t) : t :=
  let '(Mk dv dl es _ h i k mk n tp vs wk wo u _) := b in
  Mk dv dl es (Some v) h i k mk n tp vs wk wo u true.

Definition input (v : AttrFuncInputSpec.t) (b : t) : t :=
  let '(Mk dv dl es f h i k mk n tp vs wk wo u _) := b in
  Mk dv dl es f h (i ++ [v]) k mk n tp vs wk wo u true.

Definition widget_kind (v : PropSpecWidgetKind.t) (b : t) : t :=
  let '(Mk dv dl es f h i k mk n tp vs _ wo u hd) := b in
  Mk dv dl es f h i k mk n tp vs (Some v) wo u hd.

Definition widget_options (v : Json) (b : t) : t :=
  let '(Mk dv dl es f h i k mk n tp vs wk _ u hd) := b in
  Mk dv dl es f h i k mk n tp vs wk (Some v) u hd.

Definition hidden (v : bool) (b : t) : t :=
  let '(Mk dv dl es f _ i k mk n tp vs wk wo u hd) := b in
  Mk dv dl es f v i k mk n tp vs wk wo u hd.

Definition doc_link (v : Url) (b : t) : t :=
  let '(Mk dv _ es f h i k mk n tp vs wk wo u hd) := b in
  Mk dv (Some v) es f h i k mk n tp vs wk wo u hd.

Definition map_key_func (v : MapKeyFuncSpec.t) (b : t) : t :=
  let '(Mk dv dl es f h i k mk n tp vs wk wo u _) := b in
  Mk dv dl es f h i k (mk ++ [v]) n tp vs wk wo u true.

Definition has_data (v : bool) (b : t) : t :=
  let '(Mk dv dl es f h i k mk n tp vs wk wo u _) := b in
  Mk dv dl es f h i k mk n tp vs wk wo u v.

Definition unique_id (v : list Byte.byte) (b : t) : t :=
  let '(Mk dv dl es f h i k mk n tp vs wk wo _ hd) := b in
  Mk dv dl es f h i k mk n tp vs wk wo (Some v) hd.

(** The data of the built prop. *)
Definition build_data (b : t) (name : list Byte.byte) : option PropSpec.PropSpecData :=
  if b_has_data b then
    Some {| PropSpec.data_name := name; PropSpec.default_value := b_default_value b;
            PropSpec.validations := Some (b_validations b);
            PropSpec.func_unique_id := b_func_unique_id b;
            PropSpec.inputs := Some (b_inputs b); PropSpec.widget_kind := b_widget_kind b;
            PropSpec.widget_options := b_widget_options b;
            PropSpec.hidden := Some (b_hidden b); PropSpec.doc_link := b_doc_link b |}
  else None.

Definition build (b : t) : result SpecError PropSpec.t :=
  name ← required (b_name b) "name";
  match b_kind b with
  | Some PropSpecKind.String_ => Ok (PropSpec.String_ name (build_data b name) (b_unique_id b))
  | Some PropSpecKind.Number => Ok (PropSpec.Number name (build_data b name) (b_unique_id b))
  | Some PropSpecKind.Boolean => Ok (PropSpec.Boolean name (build_data b name) (b_unique_id b))
  | Some PropSpecKind.Map =>
      type_prop ← required (b_type_prop b) "type_prop";
      Ok (PropSpec.Map name (build_data b name) (b_unique_id b) type_prop
            (Some (b_map_key_funcs b)))
  | Some PropSpecKind.Array =>
      type_prop ← required (b_type_prop b) "type_prop";
      Ok (PropSpec.Array name (build_data b name) (b_unique_id b) type_prop)
  | Some PropSpecKind.Object =>
      Ok (PropSpec.Object name (build_data b name) (b_unique_id b) (b_entries b))
  | None => Err (UninitializedField "kind")
  end.

End builder.
End PropSpecBuilder.

(** ** The builder of a schema variant *)

Module SchemaVariantSpecBuilder.
Section builder.
Context {X : Externals}.

(** [None]: the field has not been set. *)
Record t := {
  b_name : option (list Byte.byte);
  b_data : option (option SchemaVariantSpec.SchemaVariantSpecData);
  b_unique_id : option (option (list Byte.byte));
  b_deleted : option bool;
  b_action_funcs : option (list ActionFuncSpec.t);
  b_leaf_functions : option (list LeafFunctionSpec.t);
  b_sockets : option (list SocketSpec.t);
  b_si_prop_funcs : option (list SiPropFuncSpec.t);
  b_domain : option PropSpec.t;
  b_secrets : option PropSpec.t;
  b_secret_definition : option (option PropSpec.t);
  b_resource_value : option PropSpec.t;
}.

(** The object with a name and no entries that [default_domain],
    [default_secrets], [default_secret_definition] and
    [default_resource_value] make. *)
Definition default_root (name : list Byte.byte) : PropSpec.t :=
  PropSpec.Object name
    (Some {| PropSpec.data_name := name; PropSpec.default_value := None;
             PropSpec.validations := None; PropSpec.func_unique_id := None;
             PropSpec.inputs := None;
             PropSpec.widget_kind := Some PropSpecWidgetKind.Header;
             PropSpec.widget_options := None; PropSpec.hidden := Some false;
             PropSpec.doc_link := None |}) None [].

Definition default_domain : PropSpec.t := default_root (str "domain").
Definition default_secrets : PropSpec.t := default_root (str "secrets").
Definition default_secret_definition : option PropSpec.t :=
  Some (default_root (str "secret_definition")).
Definition default_resource_value : PropSpec.t := default_root (str "value").

(** [entries.push(converted)]; anything but an object is [unreachable!]. *)
Definition push_entry {E} (item p : PropSpec.t) : result (fault E) PropSpec.t :=
  match p with
  | PropSpec.Object name data unique_id entries =>
      Ok (PropSpec.Object name data unique_id (entries ++ [item]))
  | _ => Err Panic
  end.

Definition prop {E} (root : SchemaVariantSpecPropRoot) (item : PropSpec.t) (b : t) :
    result (fault E) t :=
  let '(Build_t n d u de af lf so sp domain secrets secret_definition resource_value) := b in
  match root with
  | Domain =>
      p ← push_entry item (default default_domain domain);
      Ok (Build_t n d u de af lf so sp (Some p) secrets secret_definition resource_value)
  | ResourceValue =>
      p ← push_entry item (default default_resource_value resource_value);
      Ok (Build_t n d u de af lf so sp domain secrets secret_definition (Some p))
  | SecretDefinition =>
      p ← ok_or (default default_secret_definition secret_definition) Panic;
      p ← push_entry item p;
      Ok (Build_t n d u de af lf so sp domain secrets (Some (Some p)) resource_value)
  | Secrets =>
      p ← push_entry item (default default_secrets secrets);
      Ok (Build_t n d u de af lf so sp domain (Some p) secret_definition resource_value)
  end.

(** The derived [build]. *)
Definition build (b : t) : result SpecError SchemaVariantSpec.t :=
  name ← required (b_name b) "name";
  Ok {| SchemaVariantSpec.name := name;
        SchemaVariantSpec.data := default None (b_data b);
        SchemaVariantSpec.unique_id := default None (b_unique_id b);
        SchemaVariantSpec.deleted := default false (b_deleted b);
        SchemaVariantSpec.action_funcs := default [] (b_action_funcs b);
        SchemaVariantSpec.leaf_functions := default [] (b_leaf_functions b);
        SchemaVariantSpec.sockets := default [] (b_sockets b);
        SchemaVariantSpec.si_prop_funcs := default [] (b_si_prop_funcs b);
        SchemaVariantSpec.domain := default default_domain (b_domain b);
        SchemaVariantSpec.secrets := default default_secrets (b_secrets b);
        SchemaVariantSpec.secret_definition := default None (b_secret_definition b);
        SchemaVariantSpec.resource_value := default default_resource_value (b_resource_value b) |}.

End builder.
End SchemaVariantSpecBuilder.

(** ** Props *)

Module SiPkgProp.
Section pkg.
Context `{B : Blake3} `{P : Petgraph} `{A : TarArchive} {X : Externals}.

Record SiPkgPropData := {
  data_name : list Byte.byte;
  default_value : option Json;
  func_unique_id : option (list Byte.byte);
  widget_kind : PropSpecWidgetKind.t;
  widget_options : option Json;
  doc_link : option Url;
  hidden : bool;
}.

Inductive t : Type :=
| Array (name : list Byte.byte) (data : option SiPkgPropData)
    (unique_id : option (list Byte.byte)) (hash : Hash) (source : nat)
| Boolean (name : list Byte.byte) (data : option SiPkgPropData)
    (unique_id : option (list Byte.byte)) (hash : Hash) (source : nat)
| Map (name : list Byte.byte) (data : option SiPkgPropData)
    (unique_id : option (list Byte.byte)) (hash : Hash) (source : nat)
| Number (name : list Byte.byte) (data : option SiPkgPropData)
    (unique_id : option (list Byte.byte)) (hash : Hash) (source : nat)
| Object (name : list Byte.byte) (data : option SiPkgPropData)
    (unique_id : option (list Byte.byte)) (hash : Hash) (source : nat)
| String_ (name : list Byte.byte) (data : option SiPkgPropData)
    (unique_id : option (list Byte.byte)) (hash : Hash) (source : nat).

Definition name (p : t) : list Byte.byte :=
  match p with
  | Array n _ _ _ _ | Boolean n _ _ _ _ | Map n _ _ _ _ | Number n _ _ _ _
  | Object n _ _ _ _ | String_ n _ _ _ _ => n
  end.

Definition data (p : t) : option SiPkgPropData :=
  match p with
  | Array _ d _ _ _ | Boolean _ d _ _ _ | Map _ d _ _ _ | Number _ d _ _ _
  | Object _ d _ _ _ | String_ _ d _ _ _ => d
  end.

Definition source (p : t) : nat :=
  match p with
  | Array _ _ _ _ s | Boolean _ _ _ _ s | Map _ _ _ _ s | Number _ _ _ _ s
  | Object _ _ _ _ s | String_ _ _ _ _ s => s
  end.

Definition from_data (d : PropNode.PropNodeData) : SiPkgPropData :=
  {| data_name := PropNode.data_name d; default_value := PropNode.default_value d;
     func_unique_id := PropNode.func_unique_id d; widget_kind := PropNode.widget_kind d;
     widget_options := PropNode.widget_options d; doc_link := PropNode.doc_link d;
     hidden := PropNode.hidden d |}.

Definition of_node (n : PropNode.t) (hash : Hash) (node_idx : nat) : t :=
  let data := from_data <$> PropNode.data n in
  match n with
  | PropNode.String_ name _ u => String_ name data u hash node_idx
  | PropNode.Integer name _ u => Number name data u hash node_idx
  | PropNode.Boolean name _ u => Boolean name data u hash node_idx
  | PropNode.Map name _ u => Map name data u hash node_idx
  | PropNode.Array name _ u => Array name data u hash node_idx
  | PropNode.Object name _ u => Object name data u hash node_idx
  end.

Definition from_graph (g : Graph (HashedNode PkgNode)) (node_idx : nat) :
    result (fault SiPkgError) t :=
  hashed_node ← graph_index g node_idx;
  match hashed_inner hashed_node with
  | Prop_ node => Ok (of_node node (hashed_hash hashed_node) node_idx)
  | unexpected => Err (Fault (UnexpectedPkgNodeType (str "prop") (node_kind_str unexpected)))
  end.

Definition is_child (c : PropChildNode.t) (n : PkgNode) : bool :=
  match n with PropChild c' => bool_decide (c' = c) | _ => false end.

Definition validation_from_graph (g : Graph (HashedNode PkgNode)) (idx : nat) :
    result (fault SiPkgError) SiPkgValidation.t :=
  hashed_node ← graph_index g idx;
  no_panic (SiPkgValidation.from_graph (hashed_inner hashed_node)).

Definition validations (g : Graph (HashedNode PkgNode)) (p : t) :=
  entries_below g (is_child PropChildNode.Validations) (validation_from_graph g) (source p).

Definition inputs (g : Graph (HashedNode PkgNode)) (p : t) :=
  entries_below g (is_child PropChildNode.AttrFuncInputs) (attr_func_input_from_graph g) (source p).

Definition map_key_funcs (g : Graph (HashedNode PkgNode)) (p : t) :=
  entries_below g (is_child PropChildNode.MapKeyFuncs) (SiPkgMapKeyFunc.from_graph g) (source p).

End pkg.
End SiPkgProp.

(** ** Schema variants *)

Module SiPkgSchemaVariant.
Section pkg.
Context `{B : Blake3} `{P : Petgraph} `{A : TarArchive} {X : Externals}.

Abbreviation pkg_graph := (Graph (HashedNode PkgNode)) (only parsing).
Abbreviation pkg_result C := (result (fault SiPkgError) C) (only parsing).

(** The name in the data is the node's name. *)
Definition from_graph := view_from_graph (str "schema_variant")
  (λ n, match n with
        | SchemaVariant node =>
            Some {| SchemaVariantNode.name := SchemaVariantNode.name node;
                    SchemaVariantNode.data :=
                      (λ d, {| SchemaVariantNode.data_name := SchemaVariantNode.name node;
                               SchemaVariantNode.link := SchemaVariantNode.link d;
                               SchemaVariantNode.color := SchemaVariantNode.color d;
                               SchemaVariantNode.component_type :=
                                 SchemaVariantNode.component_type d;
                               SchemaVariantNode.func_unique_id :=
                                 SchemaVariantNode.func_unique_id d |})
                        <$> SchemaVariantNode.data node;
                    SchemaVariantNode.unique_id := SchemaVariantNode.unique_id node;
                    SchemaVariantNode.deleted := SchemaVariantNode.deleted node |}
        | _ => None
        end).

Definition is_child (c : SchemaVariantChildNode.t) (n : PkgNode) : bool :=
  match n with SchemaVariantChild c' => bool_decide (c' = c) | _ => false end.

Definition sockets (g : pkg_graph) (v : view SchemaVariantNode.t) :=
  entries_below g (is_child SchemaVariantChildNode.Sockets) (SiPkgSocket.from_graph g) (source v).
Definition leaf_functions (g : pkg_graph) (v : view SchemaVariantNode.t) :=
  entries_below g (is_child SchemaVariantChildNode.LeafFunctions)
    (SiPkgLeafFunction.from_graph g) (source v).
Definition action_funcs (g : pkg_graph) (v : view SchemaVariantNode.t) :=
  entries_below g (is_child SchemaVariantChildNode.ActionFuncs)
    (SiPkgActionFunc.from_graph g) (source v).
Definition si_prop_funcs (g : pkg_graph) (v : view SchemaVariantNode.t) :=
  entries_below g (is_child SchemaVariantChildNode.SiPropFuncs)
    (SiPkgSiPropFunc.from_graph g) (source v).
Definition secrets (g : pkg_graph) (v : view SchemaVariantNode.t) :=
  entries_below g (is_child SchemaVariantChildNode.Secrets) (SiPkgProp.from_graph g) (source v).
Definition secret_definitions (g : pkg_graph) (v : view SchemaVariantNode.t) :=
  entries_below g (is_child SchemaVariantChildNode.SecretDefinition)
    (SiPkgProp.from_graph g) (source v).

(** The child below which the props of a root are. *)
Definition root_child (root : SchemaVariantSpecPropRoot) : SchemaVariantChildNode.t :=
  match root with
  | Domain => SchemaVariantChildNode.Domain
  | ResourceValue => SchemaVariantChildNode.ResourceValue
  | Secrets => SchemaVariantChildNode.Secrets
  | SecretDefinition => SchemaVariantChildNode.SecretDefinition
  end.

(** Only [Secrets] may be missing. *)
Definition get_prop_root_idx (g : pkg_graph) (v : view SchemaVariantNode.t)
    (prop_root : SchemaVariantSpecPropRoot) : pkg_result (option nat) :=
  maybe_node_index ← find_node g (is_child (root_child prop_root)) (neighbors_outgoing g (source v));
  match maybe_node_index, prop_root with
  | Some idx, _ => Ok (Some idx)
  | None, Secrets => Ok None
  | None, _ =>
      Err (Fault (SchemaVariantChildNotFound (SchemaVariantChildNode.kind_str (root_child prop_root))))
  end.

Section visit.
Context {I C E : Type} (from_error : SiPkgError → E).

(** [process_prop_fn], with what its context holds as a state. *)
Context (process : SiPkgProp.t → option I → C → result (fault E) (option I * C)).

Definition prop_stack_from_source (g : pkg_graph) (node_idx : nat) (parent_info : option I) :
    pkg_result (list (SiPkgProp.t * option I)) :=
  props ← entries_below g (SiPkgProp.is_child PropChildNode.Props) (SiPkgProp.from_graph g) node_idx;
  Ok ((λ prop : SiPkgProp.t, (prop, parent_info)) <$> (props : list _)).

(** The loop, with the top of the stack first; [None] when the fuel is used
    up. *)
Fixpoint visit_loop (g : pkg_graph) (fuel : nat) (stack : list (SiPkgProp.t * option I)) (c : C) :
    run (fault E) C :=
  match stack with
  | [] => Some (Ok c)
  | (prop, parent_info) :: stack =>
      match fuel with
      | O => None
      | S fuel =>
          let! (new_parent_info, c) := Some (process prop parent_info c) in
          let! entries := Some (map_err (map_fault from_error)
            (prop_stack_from_source g (SiPkgProp.source prop) new_parent_info)) in
          visit_loop g fuel (reverse entries ++ stack) c
      end
  end.

(** The root prop itself is not visited. *)
Definition visit_prop_tree (fuel : nat) (g : pkg_graph) (v : view SchemaVariantNode.t)
    (prop_root : SchemaVariantSpecPropRoot) (parent_info : option I) (c : C) : run (fault E) C :=
  let! root := Some (map_err (map_fault from_error) (get_prop_root_idx g v prop_root)) in
  match root with
  | None => Some (Ok c)
  | Some prop_root_idx =>
      match reverse (neighbors_outgoing g prop_root_idx) with
      | [] => Some (Err (Fault (from_error (PropRootNotFound prop_root (view_hash v)))))
      | [prop_root_node_idx] =>
          let! stack := Some (map_err (map_fault from_error)
            (prop_stack_from_source g prop_root_node_idx parent_info)) in
          visit_loop g fuel (reverse stack) c
      | _ => Some (Err (Fault (from_error (PropRootMultipleFound prop_root (view_hash v)))))
      end
  end.

End visit.

Definition PROP_PATH_SEPARATOR : list Byte.byte := [x0b].

Record PropSpecVisitContext := {
  prop_stack : list (list Byte.byte * PropSpecBuilder.t);
  prop_parents : gmap (list Byte.byte) (list Byte.byte);
}.

Definition prop_path (parent_path : option (list Byte.byte)) (name : list Byte.byte) :
    list Byte.byte :=
  match parent_path with
  | Some parent_path => parent_path ++ PROP_PATH_SEPARATOR ++ name
  | None => name
  end.

(** The kind, default value and map key functions of the builder. The default
    value is looked up for arrays, booleans and numbers and set for booleans
    and numbers (and for strings, for which it is never looked up). *)
Definition builder_kind (g : pkg_graph) (spec : SiPkgProp.t) (b : PropSpecBuilder.t) :
    pkg_result PropSpecBuilder.t :=
  let default_value :=
    match spec with
    | SiPkgProp.Array _ data _ _ _ | SiPkgProp.Boolean _ data _ _ _
    | SiPkgProp.Number _ data _ _ _ => data ≫= SiPkgProp.default_value
    | _ => None
    end in
  let set_default b :=
    match default_value with Some dv => PropSpecBuilder.default_value dv b | None => b end in
  match spec with
  | SiPkgProp.String_ _ _ _ _ _ => Ok (set_default (PropSpecBuilder.kind PropSpecKind.String_ b))
  | SiPkgProp.Boolean _ _ _ _ _ => Ok (set_default (PropSpecBuilder.kind PropSpecKind.Boolean b))
  | SiPkgProp.Number _ _ _ _ _ => Ok (set_default (PropSpecBuilder.kind PropSpecKind.Number b))
  | SiPkgProp.Object _ _ _ _ _ => Ok (PropSpecBuilder.kind PropSpecKind.Object b)
  | SiPkgProp.Array _ _ _ _ _ => Ok (PropSpecBuilder.kind PropSpecKind.Array b)
  | SiPkgProp.Map _ _ _ _ _ =>
      map_key_funcs ← SiPkgProp.map_key_funcs g spec;
      map_key_funcs ← try_map (SiPkgMapKeyFunc.try_into_spec g) map_key_funcs;
      Ok (foldl (λ b m, PropSpecBuilder.map_key_func m b) (PropSpecBuilder.kind PropSpecKind.Map b)
            map_key_funcs)
  end.

(** The data of the builder; inputs are looked up for a prop with a function
    only. *)
Definition builder_data (g : pkg_graph) (spec : SiPkgProp.t) (b : PropSpecBuilder.t) :
    pkg_result PropSpecBuilder.t :=
  match SiPkgProp.data spec with
  | None => Ok b
  | Some data =>
      let b := PropSpecBuilder.widget_kind (SiPkgProp.widget_kind data)
        (PropSpecBuilder.hidden (SiPkgProp.hidden data) (PropSpecBuilder.has_data true b)) in
      let b := match SiPkgProp.widget_options data with
               | Some widget_options => PropSpecBuilder.widget_options widget_options b
               | None => b
               end in
      match SiPkgProp.func_unique_id data with
      | None => Ok b
      | Some func_unique_id =>
          inputs ← SiPkgProp.inputs g spec;
          inputs ← attr_func_inputs_into_specs inputs;
          Ok (foldl (λ b i, PropSpecBuilder.input i b)
                (PropSpecBuilder.func_unique_id func_unique_id b) inputs)
      end
  end.

Definition create_prop_stack (g : pkg_graph) (spec : SiPkgProp.t)
    (parent_path : option (list Byte.byte)) (ctx : PropSpecVisitContext) :
    pkg_result (option (list Byte.byte) * PropSpecVisitContext) :=
  let path := prop_path parent_path (SiPkgProp.name spec) in
  builder ← builder_kind g spec (PropSpecBuilder.has_data false PropSpecBuilder.new);
  builder ← builder_data g spec (PropSpecBuilder.name (SiPkgProp.name spec) builder);
  let stack := (path, builder) :: prop_stack ctx in
  match parent_path with
  | None => Ok (Some path, {| prop_stack := stack; prop_parents := prop_parents ctx |})
  | Some parent_path =>
      match prop_parents ctx !! path with
      | Some _ => Err (Fault (PropTreeInvalid "Prop has more than one parent"))
      | None =>
          Ok (Some path, {| prop_stack := stack;
                            prop_parents := <[path := parent_path]> (prop_parents ctx) |})
      end
  end.

(** The children found for a prop are put into its builder. *)
Definition attach_children (children : list PropSpec.t) (prop : PropSpecBuilder.t) :
    pkg_result PropSpecBuilder.t :=
  match PropSpecBuilder.b_kind prop with
  | None => Err (Fault (PropTreeInvalid "Prop missing a kind"))
  | Some PropSpecKind.Array | Some PropSpecKind.Map =>
      match children with
      | _ :: _ :: _ => Err (Fault (PropTreeInvalid "Array or map has more than one direct child"))
      | [] => Err (Fault (PropTreeInvalid "Array or map prop missing type prop"))
      | [type_prop] => Ok (PropSpecBuilder.type_prop type_prop prop)
      end
  | Some PropSpecKind.Object => Ok (PropSpecBuilder.entries children prop)
  | Some _ =>
      Err (Fault (PropTreeInvalid "Leaf prop (String, Number, Boolean) cannot have children"))
  end.

(** The loop over the stack of [build_prop_specs]. *)
Fixpoint rebuild_loop (prop_root : SchemaVariantSpecPropRoot)
    (prop_parents : gmap (list Byte.byte) (list Byte.byte))
    (stack : list (list Byte.byte * PropSpecBuilder.t))
    (prop_children : gmap (list Byte.byte) (list PropSpec.t)) (b : SchemaVariantSpecBuilder.t) :
    pkg_result SchemaVariantSpecBuilder.t :=
  match stack with
  | [] => Ok b
  | (path, prop) :: stack =>
      prop ← match prop_children !! path with
             | Some children => attach_children children prop
             | None => Ok prop
             end;
      spec ← no_panic (spec_result (PropSpecBuilder.build prop));
      match prop_parents !! path with
      | Some parent_path =>
          rebuild_loop prop_root prop_parents stack
            (<[parent_path := default [] (prop_children !! parent_path) ++ [spec]]> prop_children) b
      | None =>
          b ← SchemaVariantSpecBuilder.prop prop_root spec b;
          rebuild_loop prop_root prop_parents stack prop_children b
      end
  end.

Definition build_prop_specs (fuel : nat) (g : pkg_graph) (v : view SchemaVariantNode.t)
    (prop_root : SchemaVariantSpecPropRoot) (b : SchemaVariantSpecBuilder.t) :
    run (fault SiPkgError) SchemaVariantSpecBuilder.t :=
  let! context := visit_prop_tree id (create_prop_stack g) fuel g v prop_root None
                    {| prop_stack := []; prop_parents := ∅ |} in
  Some (rebuild_loop prop_root (prop_parents context) (prop_stack context) ∅ b).

(** What [to_spec] puts into the builder before it looks at the props. *)
Definition to_builder (g : pkg_graph) (v : view SchemaVariantNode.t) :
    pkg_result SchemaVariantSpecBuilder.t :=
  action_funcs ← action_funcs g v;
  sockets ← sockets g v;
  sockets ← try_map (SiPkgSocket.try_into_spec g) sockets;
  si_prop_funcs ← si_prop_funcs g v;
  si_prop_funcs ← try_map (SiPkgSiPropFunc.try_into_spec g) si_prop_funcs;
  let set {Y} (l : list Y) := match l with [] => None | _ => Some l end in
  Ok {| SchemaVariantSpecBuilder.b_name := Some (SchemaVariantNode.name (node v));
        SchemaVariantSpecBuilder.b_data :=
          (λ d, Some {| SchemaVariantSpec.data_name := SchemaVariantNode.name (node v);
                        SchemaVariantSpec.link := SchemaVariantNode.link d;
                        SchemaVariantSpec.color := SchemaVariantNode.color d;
                        SchemaVariantSpec.component_type := SchemaVariantNode.component_type d;
                        SchemaVariantSpec.func_unique_id := SchemaVariantNode.func_unique_id d |})
            <$> SchemaVariantNode.data (node v);
        SchemaVariantSpecBuilder.b_unique_id := Some <$> SchemaVariantNode.unique_id (node v);
        SchemaVariantSpecBuilder.b_deleted := Some (SchemaVariantNode.deleted (node v));
        SchemaVariantSpecBuilder.b_action_funcs :=
          set (SiPkgActionFunc.try_into_spec <$> action_funcs);
        SchemaVariantSpecBuilder.b_leaf_functions := None;
        SchemaVariantSpecBuilder.b_sockets := set sockets;
        SchemaVariantSpecBuilder.b_si_prop_funcs := set si_prop_funcs;
        SchemaVariantSpecBuilder.b_domain := None; SchemaVariantSpecBuilder.b_secrets := None;
        SchemaVariantSpecBuilder.b_secret_definition := None;
        SchemaVariantSpecBuilder.b_resource_value := None |}.

(** Only the domain and the resource value are looked at. *)
Definition to_spec (fuel : nat) (g : pkg_graph) (v : view SchemaVariantNode.t) :
    run (fault SiPkgError) SchemaVariantSpec.t :=
  let! builder := Some (to_builder g v) in
  let! builder := build_prop_specs fuel g v Domain builder in
  let! builder := build_prop_specs fuel g v ResourceValue builder in
  Some (no_panic (spec_result (SchemaVariantSpecBuilder.build builder))).

End pkg.
End SiPkgSchemaVariant.
