(* ===== verification/PkgPackage.v ===== *)
(** * Packages

    Model of [src/lib/si-pkg/src/pkg.rs], [pkg/schema.rs] and
    [pkg/change_set.rs]: a package is an object tree of package nodes, made
    from a specification or read from an archive, written to an archive,
    searched, and turned back into a specification. *)

From S2P Require Import Prelude Bytes KeyValue NodeEntries ObjectGraph ObjectTar.
From S2P Require Import PkgSpec PkgFields PkgNodes PkgNodesData PkgNode PkgLeaves PkgTree PkgViews.
From S2P Require Import PkgProps.
From Stdlib Require Import NArith ZArith Init.Byte.
From stdpp Require Import base tactics list gmap strings.
Open Scope run_scope.

(** ** Schemas *)

Module SiPkgSchema.
Section pkg.
Context `{B : Blake3} `{P : Petgraph} `{A : TarArchive} {X : Externals}.

Abbreviation pkg_graph := (Graph (HashedNode PkgNode)) (only parsing).

Definition from_graph := view_from_graph (str "schema")
  (λ n, match n with Schema node => Some node | _ => None end).

Definition variants (g : pkg_graph) (v : view SchemaNode.t) :=
  try_map (SiPkgSchemaVariant.from_graph g) (neighbors_outgoing g (source v)).

(** The name in the data is the schema's; [deleted] keeps the builder's
    default. *)
Definition to_spec (fuel : nat) (g : pkg_graph) (v : view SchemaNode.t) :
    run (fault SiPkgError) SchemaSpec.t :=
  let! variants := Some (variants g v) in
  let! variants := run_map (SiPkgSchemaVariant.to_spec fuel g) variants in
  Some (Ok
    {| SchemaSpec.name := SchemaNode.name (node v);
       SchemaSpec.data :=
         (λ d, {| SchemaSpec.data_name := SchemaNode.name (node v);
                  SchemaSpec.category := SchemaNode.category d;
                  SchemaSpec.category_name := SchemaNode.category_name d;
                  SchemaSpec.ui_hidden := SchemaNode.ui_hidden d;
                  SchemaSpec.default_schema_variant := SchemaNode.default_schema_variant d |})
           <$> SchemaNode.data (node v);
       SchemaSpec.unique_id := SchemaNode.unique_id (node v); SchemaSpec.deleted := false;
       SchemaSpec.variants := variants |}).

End pkg.
End SiPkgSchema.

(** ** Change sets *)

Module SiPkgChangeSet.
Section pkg.
Context `{B : Blake3} `{P : Petgraph} `{A : TarArchive} {X : Externals}.

Abbreviation pkg_graph := (Graph (HashedNode PkgNode)) (only parsing).

Definition from_graph := view_from_graph (str "change_set")
  (λ n, match n with ChangeSet node => Some node | _ => None end).

Definition is_child (c : ChangeSetChildNode.t) (n : PkgNode) : bool :=
  match n with ChangeSetChild c' => bool_decide (c' = c) | _ => false end.

Definition components (g : pkg_graph) (v : view ChangeSetNode.t) :=
  entries_below g (is_child ChangeSetChildNode.Components) (SiPkgComponent.from_graph g) (source v).
Definition edges (g : pkg_graph) (v : view ChangeSetNode.t) :=
  entries_below g (is_child ChangeSetChildNode.Edges) (SiPkgEdge.from_graph g) (source v).
Definition funcs (g : pkg_graph) (v : view ChangeSetNode.t) :=
  entries_below g (is_child ChangeSetChildNode.Funcs) (SiPkgFunc.from_graph g) (source v).
Definition schemas (g : pkg_graph) (v : view ChangeSetNode.t) :=
  entries_below g (is_child ChangeSetChildNode.Schemas) (SiPkgSchema.from_graph g) (source v).

(** Components and edges are not looked at. *)
Definition to_spec (fuel : nat) (g : pkg_graph) (v : view ChangeSetNode.t) :
    run (fault SiPkgError) ChangeSetSpec.t :=
  let! funcs := Some (funcs g v) in
  let! funcs := Some (try_map (SiPkgFunc.try_into_spec g) funcs) in
  let! schemas := Some (schemas g v) in
  let! schemas := run_map (SiPkgSchema.to_spec fuel g) schemas in
  Some (Ok
    {| ChangeSetSpec.name := ChangeSetNode.name (node v);
       ChangeSetSpec.based_on_change_set := ChangeSetNode.based_on_change_set (node v);
       ChangeSetSpec.status := ChangeSetNode.status (node v);
       ChangeSetSpec.components := []; ChangeSetSpec.schemas := schemas;
       ChangeSetSpec.funcs := funcs; ChangeSetSpec.edges := [] |}).

End pkg.
End SiPkgChangeSet.

(** ** Packages *)

Module SiPkg.
Section pkg.
Context `{B : Blake3} `{P : Petgraph} `{A : TarArchive} {X : Externals}.

Abbreviation pkg_graph := (Graph (HashedNode PkgNode)) (only parsing).
Abbreviation pkg_result C := (result (fault SiPkgError) C) (only parsing).

(** [SiPkg]: the object tree. *)
Record t := { tree : ObjectTree PkgNode }.

Definition as_petgraph (p : t) : pkg_graph * nat := (graph (tree p), root_idx (tree p)).

(** [fuel] bounds the number of nodes read. *)
Definition load_from_bytes (fuel : nat) (bytes : list Byte.byte) : run (fault SiPkgError) t :=
  option_map (λ r, map_err (map_fault TarRead) r ≫= λ tree, Ok {| tree := tree |})
    (read_from_tar fuel bytes).

Definition load_from_spec (spec : PackageSpec.t) : run (fault SiPkgError) t :=
  option_map (λ r, map_err (map_fault PkgGraph) r ≫= λ tree, Ok {| tree := tree |})
    (ObjectTree_create_from_root (PackageSpec.as_node_with_children spec)).

Definition write_to_bytes (p : t) : pkg_result (list Byte.byte) :=
  map_err (map_fault Memory) (TarWriter_new (tree p)).

(** [SiPkgMetadata::from_graph] at the root. *)
Definition metadata (p : t) : pkg_result (view PackageNode.t) :=
  let '(g, root_idx) := as_petgraph p in
  view_from_graph (str "package") (λ n, match n with Package node => Some node | _ => None end)
    g root_idx.

Definition hash (p : t) : pkg_result Hash :=
  metadata ← metadata p;
  Ok (view_hash metadata).

Definition is_category (c : CategoryNode.t) (n : PkgNode) : bool :=
  match n with Category c' => bool_decide (c' = c) | _ => false end.

Definition category_node_idxs (c : CategoryNode.t) (g : pkg_graph) (root_idx : nat) :
    pkg_result (list nat) :=
  node_idxs ← find_node g (is_category c) (neighbors_outgoing g root_idx);
  Ok match node_idxs with
     | Some node_idx => neighbors_outgoing g node_idx
     | None => []
     end.

Definition funcs (p : t) :=
  let '(g, root_idx) := as_petgraph p in
  node_idxs ← category_node_idxs CategoryNode.Funcs g root_idx;
  try_map (SiPkgFunc.from_graph g) node_idxs.

Definition schemas (p : t) :=
  let '(g, root_idx) := as_petgraph p in
  node_idxs ← category_node_idxs CategoryNode.Schemas g root_idx;
  try_map (SiPkgSchema.from_graph g) node_idxs.

Definition change_sets (p : t) :=
  let '(g, root_idx) := as_petgraph p in
  node_idxs ← category_node_idxs CategoryNode.ChangeSets g root_idx;
  try_map (SiPkgChangeSet.from_graph g) node_idxs.

(** Collected into a map in order: the last function with an id wins. *)
Definition funcs_by_unique_id (p : t) : pkg_result (gmap (list Byte.byte) (view FuncNode.t)) :=
  funcs ← funcs p;
  Ok (foldl (λ m f, <[FuncNode.unique_id (node f) := f]> m) ∅ funcs).

(** The first index whose node satisfies a test. *)
Definition idx_for (test : HashedNode PkgNode → bool) (e : SiPkgError) (g : pkg_graph) :
    list nat → pkg_result nat :=
  fix go idxs :=
    match idxs with
    | [] => Err (Fault e)
    | idx :: idxs =>
        hashed_node ← graph_index g idx;
        if test hashed_node then Ok idx else go idxs
    end.

Definition idx_for_name (g : pkg_graph) (idxs : list nat) (name : list Byte.byte) :
    pkg_result nat :=
  idx_for (λ n, bool_decide (PkgNode_name (hashed_inner n) = name)) (NodeWithNameNotFound name)
    g idxs.

Definition idx_for_hash (g : pkg_graph) (idxs : list nat) (hash : Hash) : pkg_result nat :=
  idx_for (λ n, bool_decide (hashed_hash n = hash)) (NodeWithHashNotFound hash) g idxs.

Definition schema_by_name (p : t) (name : list Byte.byte) : pkg_result (view SchemaNode.t) :=
  let '(g, root_idx) := as_petgraph p in
  idxs ← category_node_idxs CategoryNode.Schemas g root_idx;
  node_idx ← idx_for_name g idxs name;
  SiPkgSchema.from_graph g node_idx.

Definition schema_by_hash (p : t) (hash : Hash) : pkg_result (view SchemaNode.t) :=
  let '(g, root_idx) := as_petgraph p in
  idxs ← category_node_idxs CategoryNode.Schemas g root_idx;
  node_idx ← idx_for_hash g idxs hash;
  SiPkgSchema.from_graph g node_idx.

(** The change sets of a backup; a module has none. *)
Definition backup_change_sets (fuel : nat) (p : t) (kind : SiPkgKind.t) :
    run (fault SiPkgError) (list ChangeSetSpec.t) :=
  match kind with
  | SiPkgKind.Module_ => Some (Ok [])
  | SiPkgKind.WorkspaceBackup =>
      let! change_sets := Some (change_sets p) in
      run_map (SiPkgChangeSet.to_spec fuel (as_petgraph p).1) change_sets
  end.

Definition to_spec (fuel : nat) (p : t) : run (fault SiPkgError) PackageSpec.t :=
  let! metadata := Some (metadata p) in
  let! funcs := Some (funcs p) in
  let! funcs := Some (try_map (SiPkgFunc.try_into_spec (as_petgraph p).1) funcs) in
  let! schemas := Some (schemas p) in
  let! schemas := run_map (SiPkgSchema.to_spec fuel (as_petgraph p).1) schemas in
  let! change_sets := backup_change_sets fuel p (PackageNode.kind (node metadata)) in
  let n := node metadata in
  Some (Ok
    {| PackageSpec.kind := PackageNode.kind n; PackageSpec.name := PackageNode.name n;
       PackageSpec.version := PackageNode.version n;
       PackageSpec.description := PackageNode.description n;
       PackageSpec.created_at := PackageNode.created_at n;
       PackageSpec.created_by := PackageNode.created_by n;
       PackageSpec.default_change_set :=
         match PackageNode.kind n with
         | SiPkgKind.Module_ => None
         | SiPkgKind.WorkspaceBackup => PackageNode.default_change_set n
         end;
       PackageSpec.workspace_pk := PackageNode.workspace_pk n;
       PackageSpec.workspace_name := PackageNode.workspace_name n;
       PackageSpec.schemas := schemas; PackageSpec.funcs := funcs;
       PackageSpec.change_sets := change_sets |}).

End pkg.
End SiPkg.
