(* ===== verification/PkgImport.v ===== *)
(** * Importing what a package shows

    The views of [PkgViews] look at a graph only through the weight and the
    neighbors of its nodes. This file says when a graph shows the tree of a
    specification, and what each view then hands out: [imported_func] and the
    other [imported_..] functions are the specifications that come back. *)

From S2P Require Import Prelude Bytes KeyValue NodeEntries ObjectGraph ObjectTar.
From S2P Require Import PkgSpec PkgFields PkgNodes PkgNodesData PkgNode PkgLeaves PkgTree PkgViews.
From Stdlib Require Import NArith ZArith Init.Byte.
From stdpp Require Import base tactics list gmap strings.

Abbreviation pkg_tree := (NodeWithChildren PkgNode) (only parsing).

(** ** Graphs that show a tree *)

(** The nodes whose children are told apart by their kinds, so that their order
    does not matter. *)
Definition structural {X : Externals} (n : PkgNode) : bool :=
  match n with
  | AttributeValue _ | ChangeSet _ | Component _ | Package _ | Prop_ _ | SchemaVariant _ => true
  | _ => false
  end.

Definition root_inner {X : Externals} (n : pkg_tree) : PkgNode :=
  match n with NodeWithChildren_new _ inner _ => inner end.

Section shows.
Context `{B : Blake3} `{P : Petgraph} {X : Externals}.

(** Neighbors are listed in the reverse order of the children. *)
Inductive shows (g : Graph (HashedNode PkgNode)) : nat → pkg_tree → Prop :=
| shows_node i hn kind inner children ks :
    node_weight g i = Some hn →
    hashed_inner hn = inner →
    (if structural inner then neighbors_outgoing g i ≡ₚ ks
     else neighbors_outgoing g i = reverse ks) →
    Forall2 (shows g) ks children →
    shows g i (NodeWithChildren_new kind inner children).

(** The graph made from a tree shows it. *)
Lemma represents_shows `{F : !NodeFormat PkgNode} g n : ∀ i,
  represents g i (hashed (node_tree n)) → shows g i n.
Proof using Type.
  revert n. fix IH 1. intros [k a cs] i Hr. simpl in Hr.
  inversion Hr as [i' hn ks ts Hw Hn Hts]; subst; clear Hr.
  apply (shows_node g i _ k a cs ks Hw); [done| |].
  - rewrite Hn. destruct (structural a); [by rewrite reverse_Permutation|done].
  - clear Hn Hw. revert ks Hts.
    induction cs as [|c cs IHcs]; intros ks Hts; csimpl in Hts;
      inversion Hts as [|k' t' ks' ts' Hk Hks]; subst; constructor; [by apply IH|by apply IHcs].
Qed.

End shows.

(** ** What comes back *)

Section imported.
Context {X : Externals}.

Definition imported_argument (s : FuncArgumentSpec.t) : FuncArgumentSpec.t :=
  {| FuncArgumentSpec.name := FuncArgumentSpec.name s;
     FuncArgumentSpec.kind := FuncArgumentSpec.kind s;
     FuncArgumentSpec.element_kind := FuncArgumentSpec.element_kind s;
     FuncArgumentSpec.unique_id := None; FuncArgumentSpec.deleted := false |}.

Definition imported_func (s : FuncSpec.t) : FuncSpec.t :=
  {| FuncSpec.name := FuncSpec.name s; FuncSpec.unique_id := FuncSpec.unique_id s;
     FuncSpec.data :=
       (λ d, {| FuncSpec.data_name := FuncSpec.name s;
                FuncSpec.display_name := FuncSpec.display_name d;
                FuncSpec.description := FuncSpec.description d;
                FuncSpec.handler := FuncSpec.handler d;
                FuncSpec.code_base64 := FuncSpec.code_base64 d;
                FuncSpec.backend_kind := FuncSpec.backend_kind d;
                FuncSpec.response_type := FuncSpec.response_type d;
                FuncSpec.hidden := FuncSpec.hidden d; FuncSpec.link := FuncSpec.link d |})
         <$> FuncSpec.data s;
     FuncSpec.deleted := FuncSpec.deleted s; FuncSpec.is_from_builtin := None;
     FuncSpec.arguments := reverse (imported_argument <$> FuncSpec.arguments s) |}.

Definition imported_action_func (s : ActionFuncSpec.t) : ActionFuncSpec.t :=
  {| ActionFuncSpec.func_unique_id := ActionFuncSpec.func_unique_id s;
     ActionFuncSpec.name := None; ActionFuncSpec.kind := ActionFuncSpec.kind s;
     ActionFuncSpec.unique_id := ActionFuncSpec.unique_id s;
     ActionFuncSpec.deleted := ActionFuncSpec.deleted s |}.

(** The input locations, each once and in a fixed order. *)
Definition imported_leaf_function (s : LeafFunctionSpec.t) : LeafFunctionSpec.t :=
  {| LeafFunctionSpec.func_unique_id := LeafFunctionSpec.func_unique_id s;
     LeafFunctionSpec.leaf_kind := LeafFunctionSpec.leaf_kind s;
     LeafFunctionSpec.unique_id := LeafFunctionSpec.unique_id s;
     LeafFunctionSpec.deleted := LeafFunctionSpec.deleted s;
     LeafFunctionSpec.inputs :=
       filter (.∈ LeafFunctionSpec.inputs s)
         [LeafInputLocation.Domain; LeafInputLocation.Resource; LeafInputLocation.Code;
          LeafInputLocation.DeletedAt] |}.

Definition imported_map_key_func (s : MapKeyFuncSpec.t) : MapKeyFuncSpec.t :=
  {| MapKeyFuncSpec.key := MapKeyFuncSpec.key s;
     MapKeyFuncSpec.func_unique_id := MapKeyFuncSpec.func_unique_id s;
     MapKeyFuncSpec.inputs := reverse (MapKeyFuncSpec.inputs s) |}.

Definition imported_si_prop_func (s : SiPropFuncSpec.t) : SiPropFuncSpec.t :=
  {| SiPropFuncSpec.kind := SiPropFuncSpec.kind s;
     SiPropFuncSpec.func_unique_id := SiPropFuncSpec.func_unique_id s;
     SiPropFuncSpec.unique_id := SiPropFuncSpec.unique_id s;
     SiPropFuncSpec.deleted := SiPropFuncSpec.deleted s;
     SiPropFuncSpec.inputs := reverse (SiPropFuncSpec.inputs s) |}.

Definition imported_socket (s : SocketSpec.t) : SocketSpec.t :=
  {| SocketSpec.name := SocketSpec.name s; SocketSpec.data := None;
     SocketSpec.inputs := reverse (SocketSpec.inputs s);
     SocketSpec.unique_id := SocketSpec.unique_id s |}.

Definition imported_attribute_value (s : AttributeValueSpec.t) : AttributeValueSpec.t :=
  {| AttributeValueSpec.parent_path := AttributeValueSpec.parent_path s;
     AttributeValueSpec.path := AttributeValueSpec.path s;
     AttributeValueSpec.func_unique_id := AttributeValueSpec.func_unique_id s;
     AttributeValueSpec.func_binding_args := AttributeValueSpec.func_binding_args s;
     AttributeValueSpec.handler := AttributeValueSpec.handler s;
     AttributeValueSpec.backend_kind := AttributeValueSpec.backend_kind s;
     AttributeValueSpec.response_type := AttributeValueSpec.response_type s;
     AttributeValueSpec.code_base64 := AttributeValueSpec.code_base64 s;
     AttributeValueSpec.unprocessed_value := AttributeValueSpec.unprocessed_value s;
     AttributeValueSpec.value := AttributeValueSpec.value s;
     AttributeValueSpec.output_stream := AttributeValueSpec.output_stream s;
     AttributeValueSpec.is_proxy := false;
     AttributeValueSpec.sealed_proxy := AttributeValueSpec.sealed_proxy s;
     AttributeValueSpec.component_specific := AttributeValueSpec.component_specific s;
     AttributeValueSpec.inputs := reverse (AttributeValueSpec.inputs s);
     AttributeValueSpec.implicit_value := None |}.

(** The values of the sockets come back among the attributes. *)
Definition imported_component (s : ComponentSpec.t) : ComponentSpec.t :=
  let values l := reverse (imported_attribute_value <$> l) in
  {| ComponentSpec.name := ComponentSpec.name s;
     ComponentSpec.position := ComponentSpec.position s;
     ComponentSpec.variant := ComponentSpec.variant s;
     ComponentSpec.needs_destroy := ComponentSpec.needs_destroy s;
     ComponentSpec.deletion_user_pk := ComponentSpec.deletion_user_pk s;
     ComponentSpec.unique_id := []; ComponentSpec.deleted := ComponentSpec.deleted s;
     ComponentSpec.attributes :=
       values (ComponentSpec.attributes s) ++ values (ComponentSpec.input_sockets s) ++
       values (ComponentSpec.output_sockets s);
     ComponentSpec.input_sockets := []; ComponentSpec.output_sockets := [] |}.

End imported.

(** ** Views of a shown tree *)

Section views.
Context `{B : Blake3} `{P : Petgraph} `{A : TarArchive} {X : Externals}.
Implicit Types g : Graph (HashedNode PkgNode).

Lemma shows_index g i n :
  shows g i n → ∃ hn, graph_index g i = Ok hn ∧ hashed_inner hn = root_inner n.
Proof. intros [i' hn k a cs ks Hw Ha _ _]. exists hn. unfold graph_index. by rewrite Hw. Qed.

(** A node of the expected type is viewed. *)
Lemma view_shown {N} e (select : PkgNode → option N) g i n a :
  shows g i n → select (root_inner n) = Some a →
  ∃ v, view_from_graph e select g i = Ok v ∧ node v = a ∧ source v = i.
Proof.
  intros (hn & Hi & Ha)%shows_index Hs. unfold view_from_graph. rewrite Hi. simpl.
  rewrite Ha, Hs. by eexists.
Qed.

(** [from] views what is shown for [s], and the view is related to [s]. *)
Definition views {S V} g (as_node : S → pkg_tree) (from : nat → result (fault SiPkgError) V)
    (R : V → S → Prop) (ok : S → Prop) : Prop :=
  ∀ i s, ok s → shows g i (as_node s) → ∃ v, from i = Ok v ∧ R v s.

(** [from] and then [into] turn what is shown for [s] into [imp s]. *)
Definition imports {S V I} g (as_node : S → pkg_tree)
    (from : nat → result (fault SiPkgError) V) (into : V → result (fault SiPkgError) I)
    (imp : S → I) : (S → Prop) → Prop :=
  views g as_node from (λ v s, into v = Ok (imp s)).

(** What is to be shown for a view of one type of node. *)
Lemma views_node {S N} g e (select : PkgNode → option N) (as_node : S → pkg_tree)
    (R : view N → S → Prop) ok (proj : S → N) :
  (∀ s, select (root_inner (as_node s)) = Some (proj s)) →
  (∀ v s, ok s → shows g (source v) (as_node s) → node v = proj s → R v s) →
  views g as_node (view_from_graph e select g) R ok.
Proof.
  intros Hsel Hinto i s Hok Hs.
  destruct (view_shown e select g i _ _ Hs (Hsel s)) as (v & Hv & Hn & Hi).
  exists v. split; [done|]. apply Hinto; [done| |done]. by rewrite Hi.
Qed.

(** A list of children is viewed and imported in the reverse order. *)
Lemma views_list {S V} g (as_node : S → pkg_tree) from (R : V → S → Prop) ok l ks :
  views g as_node from R ok → Forall ok l →
  Forall2 (shows g) ks (as_node <$> l) →
  ∃ vs, try_map from (reverse ks) = Ok vs ∧ Forall2 R vs (reverse l).
Proof.
  intros Himp Hok Hks. rewrite Forall2_fmap_r in Hks. apply Forall2_reverse in Hks.
  rewrite <- Forall_reverse in Hok. revert Hok Hks. generalize (reverse ks) (reverse l).
  clear ks l. intros ks l Hok Hks.
  induction Hks as [|i s ks l His _ IH]; [by exists []|].
  inversion_clear Hok as [|? ? Hs Hss].
  destruct (Himp i s Hs His) as (v & Hv & Hi), (IH Hss) as (vs & Hvs & His').
  exists (v :: vs). simpl. rewrite Hv. simpl. rewrite Hvs. by split; [|constructor].
Qed.

Lemma try_map_into {S V I} (into : V → result (fault SiPkgError) I) (imp : S → I) vs l :
  Forall2 (λ v s, into v = Ok (imp s)) vs l → try_map into vs = Ok (imp <$> l).
Proof. intros H. apply try_map_Forall2. by rewrite Forall2_fmap_r. Qed.

Lemma fmap_into {S V I} (into : V → I) (imp : S → I) vs l :
  Forall2 (λ v s, Ok (E := fault SiPkgError) (into v) = Ok (imp s)) vs (reverse l) →
  into <$> vs = reverse (imp <$> l).
Proof.
  intros H. rewrite <- fmap_reverse.
  induction H as [|v s vs ss Hv _ IH]; [done|]. csimpl. by injection Hv as ->; f_equal.
Qed.

(** The neighbors of a node whose children are in order. *)
Lemma children_viewed {S V} g (as_node : S → pkg_tree) from (R : V → S → Prop) ok k a l i :
  views g as_node from R ok →
  shows g i (NodeWithChildren_new k a (as_node <$> l)) → Forall ok l → structural a = false →
  ∃ vs, try_map from (neighbors_outgoing g i) = Ok vs ∧ Forall2 R vs (reverse l).
Proof.
  intros Himp Hs Hok Ha. inversion Hs as [i' hn k' a' cs ks Hw Hi Hn Hks]; subst.
  rewrite Ha in Hn. rewrite Hn. by eapply views_list.
Qed.

(** [find_node] on nodes that are there. *)
Lemma find_node_spec g (p : PkgNode → bool) ks ns :
  Forall2 (shows g) ks ns →
  ∃ o, find_node g p ks = Ok o ∧
    match o with
    | Some k => ∃ n, k ∈ ks ∧ shows g k n ∧ n ∈ ns ∧ p (root_inner n) = true
    | None => ∀ n, n ∈ ns → p (root_inner n) = false
    end.
Proof.
  induction 1 as [|k n ks ns Hk _ IH]; [exists None; split; [done|by intros n ?%elem_of_nil]|].
  destruct (shows_index _ _ _ Hk) as (hn & Hi & Ha). simpl. rewrite Hi. simpl. rewrite Ha.
  destruct (p (root_inner n)) eqn:Hp.
  - exists (Some k). split; [done|]. exists n. split_and!; [by left|done|by left|done].
  - destruct IH as (o & Ho & Hso). exists o. split; [done|]. destruct o as [k'|].
    + destruct Hso as (n' & ? & ? & ? & ?). exists n'. split_and!; [by right|done|by right|done].
    + intros n' [->|Hn']%elem_of_cons; auto.
Qed.

(** The child of a kind is found wherever it is among the neighbors. *)
Lemma child_found g (p : PkgNode → bool) i k a cs c :
  shows g i (NodeWithChildren_new k a cs) → structural a = true →
  c ∈ cs → p (root_inner c) = true → (∀ c', c' ∈ cs → p (root_inner c') = true → c' = c) →
  ∃ j, find_node g p (neighbors_outgoing g i) = Ok (Some j) ∧ shows g j c.
Proof.
  intros Hs Ha Hc Hp Hone. inversion Hs as [i' hn k' a' cs' ks Hw Hi Hn Hks]; subst.
  rewrite Ha in Hn. symmetry in Hn.
  destruct (Permutation_Forall2 Hn Hks) as (ns & Hns & Hall).
  destruct (find_node_spec g p _ _ Hall) as ([j|] & Ho & Hj).
  - destruct Hj as (n & _ & Hjn & Hin & Hpn). exists j. split; [done|].
    rewrite <- (Hone n); [done| |done]. by rewrite Hns.
  - rewrite Hns in Hc. by rewrite (Hj c Hc) in Hp.
Qed.

(** What the [impl_.._from_graph] macros list. *)
Lemma below_viewed (p : PkgNode → bool) {S V} g (as_node : S → pkg_tree) from (R : V → S → Prop)
    ok i k a cs k' c l :
  views g as_node from R ok →
  shows g i (NodeWithChildren_new k a cs) → Forall ok l → structural a = true →
  structural c = false → p c = true → NodeWithChildren_new k' c (as_node <$> l) ∈ cs →
  (∀ c', c' ∈ cs → p (root_inner c') = true → c' = NodeWithChildren_new k' c (as_node <$> l)) →
  ∃ vs, entries_below g p from i = Ok vs ∧ Forall2 R vs (reverse l).
Proof.
  intros Himp Hs Hok Ha Hc Hp Hin Hone.
  destruct (child_found g p i k a cs (NodeWithChildren_new k' c (as_node <$> l))) as (j & Hj & Hsj);
    [done..|]. unfold entries_below. rewrite Hj. simpl. by eapply children_viewed.
Qed.

(** A node without a child of the kind lists nothing. *)
Lemma below_none {C} (p : PkgNode → bool) g (from : nat → result (fault SiPkgError) C) i k a cs :
  shows g i (NodeWithChildren_new k a cs) → structural a = true →
  (∀ c, c ∈ cs → p (root_inner c) = false) → entries_below g p from i = Ok [].
Proof.
  intros Hs Ha Hno. inversion Hs as [i' hn k' a' cs' ks Hw Hi Hn Hks]; subst.
  rewrite Ha in Hn. symmetry in Hn. destruct (Permutation_Forall2 Hn Hks) as (ns & Hns & Hall).
  destruct (find_node_spec g p _ _ Hall) as ([j|] & Ho & Hj); unfold entries_below; rewrite Ho;
    [|done].
  destruct Hj as (n & _ & _ & Hin & Hp). rewrite <- Hns in Hin. by rewrite (Hno n Hin) in Hp.
Qed.

End views.

(** Finds the child of a kind in an explicit list of children. *)
Ltac in_children := repeat first [apply list_elem_of_here | apply list_elem_of_further].

Ltac only_child :=
  let c := fresh in let Hc := fresh in intros c Hc;
  repeat (apply elem_of_cons in Hc as [->|Hc]; [first [done | by intros ?]|]);
  by apply elem_of_nil in Hc.

(** The entries below the child [c] of the node shown by [Hs]. *)
Ltac below Himp Hs p c l Hok vs Hvs Hin :=
  destruct (below_viewed p _ _ _ _ _ _ _ _ _ Tree c l Himp Hs Hok) as (vs & Hvs & Hin);
  [done|done|done|in_children|only_child|].

(** ** What each view hands out *)

Section import.
Context `{B : Blake3} `{P : Petgraph} `{A : TarArchive} {X : Externals}.
Context (g : Graph (HashedNode PkgNode)).

Abbreviation always := (λ _, True) (only parsing).

Lemma Forall_always {S} (l : list S) : Forall always l.
Proof using Type. by apply Forall_true. Qed.
Local Hint Resolve Forall_always : core.

Lemma input_imports :
  imports g attr_func_input_node (attr_func_input_from_graph g)
    (λ input, no_panic (SiPkgAttrFuncInput.try_into_spec input)) id always.
Proof using Type.
  intros i s _ (hn & Hi & Ha)%shows_index. unfold attr_func_input_from_graph. rewrite Hi. simpl.
  rewrite Ha. by destruct s; eexists.
Qed.

Lemma child_inputs_import k a l i :
  shows g i (NodeWithChildren_new k a (attr_func_input_node <$> l)) → structural a = false →
  child_inputs g i = Ok (reverse l).
Proof using Type.
  intros Hs Ha. destruct (children_viewed g _ _ _ _ k a l i input_imports Hs) as (vs & Hvs & Hin);
    [done..|]. unfold child_inputs, attr_func_inputs_into_specs. rewrite Hvs. simpl.
  rewrite (try_map_into _ _ _ _ Hin). by rewrite list_fmap_id.
Qed.

Lemma argument_imports :
  imports g FuncArgumentSpec.as_node_with_children (SiPkgFunc.argument_from_graph g)
    (λ v, Ok (SiPkgFunc.argument_into_spec v)) imported_argument always.
Proof using Type.
  eapply views_node; [done|]. intros v s _ _ Hn. unfold SiPkgFunc.argument_into_spec.
  by rewrite Hn.
Qed.

Lemma func_imports :
  imports g FuncSpec.as_node_with_children (SiPkgFunc.from_graph g) (SiPkgFunc.try_into_spec g)
    imported_func always.
Proof using Type.
  eapply views_node; [done|]. intros v s _ Hs Hn.
  destruct (children_viewed g _ _ _ _ _ _ _ _ argument_imports Hs) as (vs & Hvs & Hin%fmap_into);
    [done..|]. unfold SiPkgFunc.try_into_spec, SiPkgFunc.arguments. rewrite Hvs. simpl.
  rewrite Hn, Hin. unfold imported_func. simpl. by destruct (FuncSpec.data s).
Qed.

Lemma action_func_imports :
  imports g ActionFuncSpec.as_node_with_children (SiPkgActionFunc.from_graph g)
    (λ v, Ok (SiPkgActionFunc.try_into_spec v)) imported_action_func always.
Proof using Type.
  eapply views_node; [done|]. intros v s _ _ Hn. unfold SiPkgActionFunc.try_into_spec.
  by rewrite Hn.
Qed.

Lemma leaf_function_imports :
  imports g LeafFunctionSpec.as_node_with_children (SiPkgLeafFunction.from_graph g)
    (λ v, Ok (SiPkgLeafFunction.try_into_spec v)) imported_leaf_function always.
Proof using Type.
  eapply views_node; [done|]. intros v s _ _ Hn. unfold SiPkgLeafFunction.try_into_spec.
  rewrite Hn. unfold imported_leaf_function, SiPkgLeafFunction.inputs. simpl. do 2 f_equal.
  rewrite !filter_cons, filter_nil. unfold bool_decide. by repeat case_decide.
Qed.

Lemma map_key_func_imports :
  imports g MapKeyFuncSpec.as_node_with_children (SiPkgMapKeyFunc.from_graph g)
    (SiPkgMapKeyFunc.try_into_spec g) imported_map_key_func always.
Proof using Type.
  eapply views_node; [done|]. intros v s _ Hs Hn. unfold SiPkgMapKeyFunc.try_into_spec.
  by rewrite (child_inputs_import _ _ _ _ Hs), Hn.
Qed.

Lemma si_prop_func_imports :
  imports g SiPropFuncSpec.as_node_with_children (SiPkgSiPropFunc.from_graph g)
    (SiPkgSiPropFunc.try_into_spec g) imported_si_prop_func always.
Proof using Type.
  eapply views_node; [done|]. intros v s _ Hs Hn. unfold SiPkgSiPropFunc.try_into_spec.
  by rewrite (child_inputs_import _ _ _ _ Hs), Hn.
Qed.

Lemma socket_imports :
  imports g SocketSpec.as_node_with_children (SiPkgSocket.from_graph g)
    (SiPkgSocket.try_into_spec g) imported_socket always.
Proof using Type.
  eapply views_node; [done|]. intros v s _ Hs Hn. unfold SiPkgSocket.try_into_spec.
  by rewrite (child_inputs_import _ _ _ _ Hs), Hn.
Qed.

Lemma position_imports :
  imports g PositionSpec.as_node_with_children (SiPkgPosition.from_graph g)
    (λ v, Ok (SiPkgPosition.try_into_spec v)) id always.
Proof using Type.
  eapply views_node; [done|]. intros v s _ _ Hn. unfold SiPkgPosition.try_into_spec.
  rewrite Hn. by destruct s.
Qed.

Lemma attribute_value_imports :
  imports g AttributeValueSpec.as_node_with_children (SiPkgAttributeValue.from_graph g)
    (SiPkgAttributeValue.try_into_spec g) imported_attribute_value always.
Proof using Type.
  eapply views_node; [done|]. intros v s _ Hs Hn.
  unfold SiPkgAttributeValue.try_into_spec, SiPkgAttributeValue.inputs.
  below input_imports Hs (SiPkgAttributeValue.is_child AttributeValueChildNode.AttrFuncInputs)
    (AttributeValueChild AttributeValueChildNode.AttrFuncInputs) (AttributeValueSpec.inputs s)
    (Forall_always (AttributeValueSpec.inputs s)) vs Hvs Hin. apply try_map_into in Hin.
  rewrite Hvs. simpl. unfold attr_func_inputs_into_specs. rewrite Hin, list_fmap_id. simpl.
  by rewrite Hn.
Qed.

(** One of the lists of attribute values of a component. *)
Lemma values_below_import v s c l :
  shows g (source v) (ComponentSpec.as_node_with_children s) →
  (c, l) ∈ [(ComponentChildNode.Attributes, ComponentSpec.attributes s);
            (ComponentChildNode.InputSockets, ComponentSpec.input_sockets s);
            (ComponentChildNode.OutputSockets, ComponentSpec.output_sockets s)] →
  SiPkgComponent.values_below g c v = Ok (reverse (imported_attribute_value <$> l)).
Proof using Type.
  intros Hs Hin. assert (∃ vs, entries_below g (SiPkgComponent.is_child c)
      (SiPkgAttributeValue.from_graph g) (source v) = Ok vs ∧
      Forall2 (λ v s, SiPkgAttributeValue.try_into_spec g v = Ok (imported_attribute_value s))
        vs (reverse l)) as (vs & Hvs & Hi%try_map_into).
  { repeat (apply elem_of_cons in Hin as [[= -> ->]|Hin];
      [eapply (below_viewed _ _ _ _ _ _ _ _ _ _ Tree); [exact attribute_value_imports|exact Hs|
        done|done|..|in_children|only_child]; done|]).
    by apply elem_of_nil in Hin. }
  unfold SiPkgComponent.values_below. rewrite Hvs. simpl. by rewrite Hi, fmap_reverse.
Qed.

Lemma component_imports :
  imports g ComponentSpec.as_node_with_children (SiPkgComponent.from_graph g)
    (SiPkgComponent.try_into_spec g) imported_component always.
Proof using Type.
  eapply views_node; [done|]. intros v s _ Hs Hn.
  unfold SiPkgComponent.try_into_spec, SiPkgComponent.position.
  rewrite (values_below_import v s ComponentChildNode.Attributes (ComponentSpec.attributes s))
    by (done || in_children). simpl.
  rewrite (values_below_import v s ComponentChildNode.InputSockets (ComponentSpec.input_sockets s))
    by (done || in_children). simpl.
  rewrite (values_below_import v s ComponentChildNode.OutputSockets (ComponentSpec.output_sockets s))
    by (done || in_children). simpl.
  below position_imports Hs (SiPkgComponent.is_child ComponentChildNode.Position)
    (ComponentChild ComponentChildNode.Position) [ComponentSpec.position s]
    (Forall_always [ComponentSpec.position s]) vs Hvs Hin.
  rewrite Hvs. simpl. apply Forall2_cons_inv_r in Hin as (p & vs' & [= Hp] & Hvs' & ->).
  apply Forall2_nil_inv_r in Hvs' as ->. simpl. by rewrite Hn, Hp.
Qed.

End import.
