(* ===== verification/PkgPropTree.v ===== *)
(** * Rebuilding the props of a schema variant

    What [visit_prop_tree] and [build_prop_specs] of
    [src/lib/si-pkg/src/pkg/variant.rs] compute: the visit is a depth-first
    walk of the tree of props, and the stack of paths and builders it leaves is
    put together into the props the package was made from. *)

From S2P Require Import Prelude Bytes KeyValue NodeEntries ObjectGraph ObjectTar.
From S2P Require Import PkgSpec PkgFields PkgNodes PkgNodesData PkgNode PkgLeaves PkgTree PkgViews.
From S2P Require Import PkgProps PkgImport.
From Stdlib Require Import NArith ZArith Init.Byte.
From stdpp Require Import base tactics list gmap strings.
Import SiPkgSchemaVariant.
Open Scope run_scope.

(** ** The visit is a walk *)

Section walk.
Context `{B : Blake3} `{P : Petgraph} `{A : TarArchive} {X : Externals}.
Context {I C E : Type} (from_error : SiPkgError → E).
Context (process : SiPkgProp.t → option I → C → result (fault E) (option I * C)).

(** The abstract visit: a prop, with what its parent handed down, before the
    props below it, the last of them first. *)
Fixpoint walk (t : tree SiPkgProp.t) (info : option I) (c : C) : result (fault E) C :=
  match t with
  | TNode prop ts =>
      '(info, c) ← process prop info c;
      foldr (λ t rest, rest ≫= walk t info) (Ok c) ts
  end.

Definition walk_forest (ts : list (tree SiPkgProp.t)) (info : option I) (c : C) :
    result (fault E) C :=
  foldr (λ t rest, rest ≫= walk t info) (Ok c) ts.

Lemma walk_eq t info c :
  walk t info c = '(info, c) ← process (label t) info c; walk_forest (subtrees t) info c.
Proof using Type. by destruct t. Qed.

Lemma walk_forest_snoc ts t info c :
  walk_forest (ts ++ [t]) info c = c ← walk t info c; walk_forest ts info c.
Proof using Type.
  unfold walk_forest. rewrite foldr_app. simpl.
  induction ts as [|t' ts IH]; simpl; [by destruct (walk t info c)|].
  rewrite IH. by destruct (walk t info c).
Qed.

(** The stack holds what is listed for a prop. *)
Definition listed (g : Graph (HashedNode PkgNode)) (t : tree SiPkgProp.t) : Prop :=
  entries_below g (SiPkgProp.is_child PropChildNode.Props) (SiPkgProp.from_graph g)
    (SiPkgProp.source (label t)) = Ok (label <$> subtrees t).

(** The tree of props that the graph lists. *)
Definition lists (g : Graph (HashedNode PkgNode)) : tree SiPkgProp.t → Prop :=
  everywhere (listed g).

Lemma prop_stack_listed g t (info : option I) :
  listed g t →
  prop_stack_from_source g (SiPkgProp.source (label t)) info =
    Ok ((λ t, (label t, info)) <$> subtrees t).
Proof using Type.
  intros Hl. unfold prop_stack_from_source. rewrite Hl. simpl. by rewrite <- list_fmap_compose.
Qed.

(** The loop works off the top of the stack as the walk does. *)
Definition walks (g : Graph (HashedNode PkgNode)) (t : tree SiPkgProp.t) : Prop :=
  ∀ info st c fuel,
    visit_loop from_error process g (tree_size t + fuel) ((label t, info) :: st) c =
    run_then (Some (walk t info c)) (visit_loop from_error process g fuel st).

Lemma visit_loop_forest g ts info st c fuel :
  Forall (walks g) ts →
  visit_loop from_error process g (sum_list (tree_size <$> ts) + fuel)
    (reverse ((λ t, (label t, info)) <$> ts) ++ st) c =
  run_then (Some (walk_forest ts info c)) (visit_loop from_error process g fuel st).
Proof using Type.
  revert st c fuel. induction ts as [|t ts IH] using rev_ind; intros st c fuel Hts; [done|].
  apply Forall_app in Hts as [Hts Ht]. rewrite Forall_singleton in Ht.
  unfold walks in Ht. rewrite walk_forest_snoc, !fmap_app, sum_list_app, reverse_app. csimpl.
  replace (_ + fuel) with (tree_size t + (sum_list (tree_size <$> ts) + fuel)) by lia.
  rewrite Ht. destruct (walk t info c) as [c'|e]; simpl; [|done]. by apply IH.
Qed.

Lemma visit_loop_walks g t : lists g t → walks g t.
Proof using Type.
  induction t as [prop ts IH] using tree_children_ind. intros [Hl Hts]%everywhere_inv.
  intros info st c fuel. rewrite walk_eq. simpl.
  destruct (process prop info c) as [[info' c']|e]; [|done]. simpl.
  rewrite (prop_stack_listed g (TNode prop ts)) by done. simpl. rewrite visit_loop_forest; [done|].
  apply Forall_forall. intros t Ht. rewrite Forall_forall in IH. by apply IH, Hts.
Qed.

(** The visit of what is below a root prop. *)
Lemma visit_loop_walk_forest g t info c fuel :
  lists g t → tree_size t ≤ S fuel →
  visit_loop from_error process g fuel (reverse ((λ t, (label t, info)) <$> subtrees t)) c =
  Some (walk_forest (subtrees t) info c).
Proof using Type.
  intros [_ Hts]%everywhere_inv Hf. destruct t as [prop ts]. simpl in *.
  replace fuel with (sum_list (tree_size <$> ts) + (fuel - sum_list (tree_size <$> ts))) by lia.
  rewrite <- (app_nil_r (reverse _)), visit_loop_forest.
  - destruct (walk_forest ts info c); [|done]. simpl. by destruct (fuel - _).
  - apply Forall_forall. intros t Ht. by apply visit_loop_walks, Hts.
Qed.

End walk.

(** ** What comes back of a prop *)

Section imported.
Context {X : Externals}.

(** The props directly below a prop. *)
Definition entries_of (s : PropSpec.t) : list PropSpec.t :=
  match s with
  | PropSpec.Array _ _ _ t | PropSpec.Map _ _ _ t _ => [t]
  | PropSpec.Object _ _ _ entries => entries
  | _ => []
  end.

Definition kind_of (s : PropSpec.t) : PropSpecKind.t :=
  match s with
  | PropSpec.Array _ _ _ _ => PropSpecKind.Array
  | PropSpec.Boolean _ _ _ => PropSpecKind.Boolean
  | PropSpec.Map _ _ _ _ _ => PropSpecKind.Map
  | PropSpec.Number _ _ _ => PropSpecKind.Number
  | PropSpec.Object _ _ _ _ => PropSpecKind.Object
  | PropSpec.String_ _ _ _ => PropSpecKind.String_
  end.

Definition keys_of (s : PropSpec.t) : list MapKeyFuncSpec.t :=
  match s with PropSpec.Map _ _ _ _ keys => default [] keys | _ => [] end.

(** Only booleans and numbers keep their default value. *)
Definition kept_default (s : PropSpec.t) : option Json :=
  match s with
  | PropSpec.Boolean _ _ _ | PropSpec.Number _ _ _ =>
      PropSpec.data s ≫= PropSpec.default_value
  | _ => None
  end.

(** Inputs come back with a function only. *)
Definition kept_inputs (s : PropSpec.t) : list AttrFuncInputSpec.t :=
  match PropSpec.data s ≫= PropSpec.func_unique_id with
  | Some _ => reverse (default [] (PropSpec.data s ≫= PropSpec.inputs))
  | None => []
  end.

(** A map with key functions comes back with data even if it had none. *)
Definition keeps_data (s : PropSpec.t) : bool :=
  match PropSpec.data s, keys_of s with None, [] => false | _, _ => true end.

Definition kept_widget (s : PropSpec.t) : option PropSpecWidgetKind.t :=
  (λ d, default (PropSpec.default_widget_kind s) (PropSpec.widget_kind d)) <$> PropSpec.data s.

Definition kept_hidden (s : PropSpec.t) : bool :=
  default false (PropSpec.data s ≫= PropSpec.hidden).

(** The builder the visit leaves on the stack. *)
Definition builder_of (s : PropSpec.t) : PropSpecBuilder.t :=
  PropSpecBuilder.Mk (kept_default s) None [] (PropSpec.data s ≫= PropSpec.func_unique_id)
    (kept_hidden s) (kept_inputs s) (Some (kind_of s))
    (reverse (imported_map_key_func <$> keys_of s)) (Some (PropSpec.name s)) None []
    (kept_widget s) (PropSpec.data s ≫= PropSpec.widget_options) None (keeps_data s).

Definition imported_prop_data (s : PropSpec.t) : option PropSpec.PropSpecData :=
  if keeps_data s then
    Some {| PropSpec.data_name := PropSpec.name s; PropSpec.default_value := kept_default s;
            PropSpec.validations := Some [];
            PropSpec.func_unique_id := PropSpec.data s ≫= PropSpec.func_unique_id;
            PropSpec.inputs := Some (kept_inputs s); PropSpec.widget_kind := kept_widget s;
            PropSpec.widget_options := PropSpec.data s ≫= PropSpec.widget_options;
            PropSpec.hidden := Some (kept_hidden s); PropSpec.doc_link := None |}
  else None.

(** The prop that is rebuilt: the same kind and name, the entries in reverse
    order, no validations, no unique id and no link. *)
Fixpoint imported_prop (s : PropSpec.t) : PropSpec.t :=
  match s with
  | PropSpec.Array name _ _ t =>
      PropSpec.Array name (imported_prop_data s) None (imported_prop t)
  | PropSpec.Boolean name _ _ => PropSpec.Boolean name (imported_prop_data s) None
  | PropSpec.Map name _ _ t _ =>
      PropSpec.Map name (imported_prop_data s) None (imported_prop t)
        (Some (reverse (imported_map_key_func <$> keys_of s)))
  | PropSpec.Number name _ _ => PropSpec.Number name (imported_prop_data s) None
  | PropSpec.Object name _ _ entries =>
      PropSpec.Object name (imported_prop_data s) None (reverse (imported_prop <$> entries))
  | PropSpec.String_ name _ _ => PropSpec.String_ name (imported_prop_data s) None
  end.

Definition imported_entries (s : PropSpec.t) : list PropSpec.t :=
  reverse (imported_prop <$> entries_of s).

(** Props are told apart by their paths: siblings have different names, and no
    name contains the separator. *)
Inductive rebuildable : PropSpec.t → Prop :=
| rebuildable_prop s :
    NoDup (PropSpec.name <$> entries_of s) →
    Forall (λ c, x0b ∉ PropSpec.name c) (entries_of s) →
    Forall rebuildable (entries_of s) →
    rebuildable s.

Lemma prop_entries_ind (Q : PropSpec.t → Prop) :
  (∀ s, Forall Q (entries_of s) → Q s) → ∀ s, Q s.
Proof.
  intros H. fix IH 1. intros s. apply H. destruct s; simpl;
    try (by constructor); try (constructor; [apply IH|constructor]).
  induction entries as [|e entries IHe]; constructor; [apply IH|apply IHe].
Qed.

(** The stack for a prop, with the path of the parent of each entry. *)
Record stacked := Stacked {
  st_path : list Byte.byte;
  st_parent : option (list Byte.byte);
  st_builder : PropSpecBuilder.t;
}.

Fixpoint stack_of (parent : option (list Byte.byte)) (s : PropSpec.t) : list stacked :=
  let path := prop_path parent (PropSpec.name s) in
  match s with
  | PropSpec.Array _ _ _ t | PropSpec.Map _ _ _ t _ => stack_of (Some path) t
  | PropSpec.Object _ _ _ entries => mjoin (reverse (stack_of (Some path) <$> entries))
  | _ => []
  end ++ [Stacked path parent (builder_of s)].

Definition stack_of_list (parent : option (list Byte.byte)) (l : list PropSpec.t) : list stacked :=
  mjoin (stack_of parent <$> l).

Lemma stack_of_eq parent s :
  stack_of parent s =
    stack_of_list (Some (prop_path parent (PropSpec.name s))) (reverse (entries_of s)) ++
    [Stacked (prop_path parent (PropSpec.name s)) parent (builder_of s)].
Proof.
  unfold stack_of_list. rewrite fmap_reverse. destruct s; csimpl; try done.
  - by rewrite app_nil_r.
  - by rewrite app_nil_r.
Qed.

Lemma stack_of_list_cons parent s l :
  stack_of_list parent (s :: l) = stack_of parent s ++ stack_of_list parent l.
Proof. done. Qed.

(** Building a prop from its builder and the props below it. *)
Definition with_children {B : Blake3} {A : TarArchive} (cs : list PropSpec.t)
    (b : PropSpecBuilder.t) : result (fault SiPkgError) PropSpecBuilder.t :=
  match cs with [] => Ok b | _ => attach_children cs b end.

Lemma builder_builds {B : Blake3} {A : TarArchive} s :
  ∃ b, with_children (imported_entries s) (builder_of s) = Ok b ∧
       PropSpecBuilder.build b = Ok (imported_prop s).
Proof.
  destruct s as [n d u t|n d u|n d u t mk|n d u|n d u es|n d u];
    try by (eexists; split; reflexivity).
  unfold imported_entries. simpl entries_of.
  destruct (reverse (imported_prop <$> es)) as [|e l] eqn:He; eexists; (split; [reflexivity|]);
    simpl; by rewrite He.
Qed.

End imported.

(** ** Paths *)

Section paths.
Context {X : Externals}.

(** [q] is the path [p] or the path of something below it. *)
Definition below (p q : list Byte.byte) : Prop := ∃ r, q = p ++ r ∧ (r = [] ∨ head r = Some x0b).

Lemma below_refl p : below p p.
Proof. exists []. by rewrite app_nil_r; auto. Qed.

Lemma below_child p name q :
  below (prop_path (Some p) name) q → below p q ∧ q ≠ p.
Proof.
  intros (r & -> & _). unfold prop_path, PROP_PATH_SEPARATOR. split.
  - exists ([x0b] ++ name ++ r). split; [by rewrite <- !(assoc_L (++))|by right].
  - intros H%(f_equal length). rewrite !length_app in H. simpl in H. lia.
Qed.

(** Names without a separator end where the path goes on. *)
Lemma first_name_unique n1 n2 r1 r2 :
  x0b ∉ n1 → x0b ∉ n2 → n1 ++ r1 = n2 ++ r2 →
  (r1 = [] ∨ head r1 = Some x0b) → (r2 = [] ∨ head r2 = Some x0b) → n1 = n2.
Proof.
  revert n2. induction n1 as [|b n1 IH]; intros [|b' n2] Hn1 Hn2 Heq Hr1 Hr2; simpl in Heq; subst.
  - done.
  - destruct Hr1 as [?|[= ->]]; [done|]. exfalso. apply Hn2. by left.
  - destruct Hr2 as [?|[= ->]]; [done|]. exfalso. apply Hn1. by left.
  - injection Heq as -> Heq. f_equal. rewrite not_elem_of_cons in Hn1, Hn2. apply IH; naive_solver.
Qed.

Lemma siblings_apart parent n1 n2 q :
  x0b ∉ n1 → x0b ∉ n2 → below (prop_path parent n1) q → below (prop_path parent n2) q → n1 = n2.
Proof.
  intros Hn1 Hn2 (r1 & -> & Hr1) (r2 & Heq & Hr2). apply (first_name_unique n1 n2 r1 r2); try done.
  destruct parent as [p|]; [|done]. unfold prop_path in Heq.
  rewrite <- !(assoc_L (++)) in Heq. by apply (inj (app p)), (inj (app PROP_PATH_SEPARATOR)) in Heq.
Qed.

Definition paths (l : list stacked) : list (list Byte.byte) := st_path <$> l.

Lemma paths_app l k : paths (l ++ k) = paths l ++ paths k.
Proof. apply fmap_app. Qed.

Lemma elem_of_stack_of_list parent l e :
  e ∈ stack_of_list parent l ↔ ∃ s, s ∈ l ∧ e ∈ stack_of parent s.
Proof.
  unfold stack_of_list. rewrite list_elem_of_join. split.
  - intros (k & He & (s & -> & Hs)%list_elem_of_fmap). eauto.
  - intros (s & Hs & He). exists (stack_of parent s). split; [done|]. by apply list_elem_of_fmap_2.
Qed.

Lemma stack_of_below parent s q :
  q ∈ paths (stack_of parent s) → below (prop_path parent (PropSpec.name s)) q.
Proof.
  revert parent q. induction s as [s IH] using prop_entries_ind. intros parent q.
  rewrite stack_of_eq, paths_app, elem_of_app. intros [Hq|Hq].
  - apply list_elem_of_fmap in Hq as (e & -> & (c & Hc & He)%elem_of_stack_of_list).
    rewrite elem_of_reverse in Hc. rewrite Forall_forall in IH.
    apply (below_child _ (PropSpec.name c)), (IH c Hc). by apply list_elem_of_fmap_2.
  - apply list_elem_of_singleton in Hq as ->. apply below_refl.
Qed.

(** No path is on the stack twice. *)
Definition apart (parent : option (list Byte.byte)) (l : list PropSpec.t) : Prop :=
  NoDup (PropSpec.name <$> l) ∧ Forall (λ c, x0b ∉ PropSpec.name c) l ∧
  Forall (λ s, NoDup (paths (stack_of parent s))) l.

Lemma stack_of_list_NoDup parent l :
  apart parent l → NoDup (paths (stack_of_list parent l)).
Proof.
  intros (Hnd & Hsep & Hl). induction l as [|s l IH]; [by apply NoDup_nil|].
  csimpl in Hnd. apply NoDup_cons in Hnd as [Hs Hnd].
  apply Forall_cons in Hsep as [Hss Hsep], Hl as [Hls Hl].
  rewrite stack_of_list_cons, paths_app. apply NoDup_app. split_and!; [done| |by apply IH].
  intros q Hq%stack_of_below (e & -> & (c & Hc & He)%elem_of_stack_of_list)%list_elem_of_fmap.
  apply Hs, list_elem_of_fmap. exists c. split; [|done]. rewrite Forall_forall in Hsep.
  apply (siblings_apart parent _ _ (st_path e)); [done|by apply Hsep|done|].
  apply stack_of_below. by apply list_elem_of_fmap_2.
Qed.

Lemma apart_reverse parent l : apart parent l → apart parent (reverse l).
Proof. intros (? & ? & ?). unfold apart. by rewrite (reverse_Permutation l). Qed.

Lemma rebuildable_NoDup s : rebuildable s → ∀ parent, NoDup (paths (stack_of parent s)).
Proof.
  induction s as [s IH] using prop_entries_ind. intros Hs parent.
  inversion_clear Hs as [? Hnd Hsep Hes].
  rewrite stack_of_eq, paths_app. apply NoDup_app. split_and!.
  - apply stack_of_list_NoDup, apart_reverse. split_and!; [done|done|].
    rewrite Forall_forall in IH, Hes |- *. auto.
  - intros q (e & -> & (c & Hc & He)%elem_of_stack_of_list)%list_elem_of_fmap Hq.
    apply list_elem_of_singleton in Hq.
    apply (list_elem_of_fmap_2 st_path), stack_of_below, below_child in He as [_ He]. by apply He.
  - apply NoDup_singleton.
Qed.

Lemma rebuildable_entries parent s : rebuildable s → apart parent (entries_of s).
Proof.
  intros [s' Hnd Hsep Hes]. split_and!; [done|done|]. eapply Forall_impl; [exact Hes|].
  intros c Hc. by apply rebuildable_NoDup.
Qed.

End paths.

(** ** Props of a shown tree *)

Section shown.
Context `{B : Blake3} `{P : Petgraph} `{A : TarArchive} {X : Externals}.
Context (g : Graph (HashedNode PkgNode)).

(** The node of a prop. *)
Definition prop_node (s : PropSpec.t) : PropNode.t :=
  match s with
  | PropSpec.String_ name _ u => PropNode.String_ name (PropSpec.node_data s) u
  | PropSpec.Number name _ u => PropNode.Integer name (PropSpec.node_data s) u
  | PropSpec.Boolean name _ u => PropNode.Boolean name (PropSpec.node_data s) u
  | PropSpec.Map name _ u _ _ => PropNode.Map name (PropSpec.node_data s) u
  | PropSpec.Array name _ u _ => PropNode.Array name (PropSpec.node_data s) u
  | PropSpec.Object name _ u _ => PropNode.Object name (PropSpec.node_data s) u
  end.

(** [p] is a view of the prop [s]. *)
Definition views_prop (p : SiPkgProp.t) (s : PropSpec.t) : Prop :=
  (∃ h, p = SiPkgProp.of_node (prop_node s) h (SiPkgProp.source p)) ∧
  shows g (SiPkgProp.source p) (PropSpec.as_node_with_children s).

Lemma prop_views :
  views g PropSpec.as_node_with_children (SiPkgProp.from_graph g)
    views_prop (λ _, True).
Proof using Type.
  intros i s _ Hs. destruct (shows_index _ _ _ Hs) as (hn & Hi & Ha).
  exists (SiPkgProp.of_node (prop_node s) (hashed_hash hn) i). unfold SiPkgProp.from_graph.
  rewrite Hi. simpl. rewrite Ha. split; [by destruct s|].
  split; [exists (hashed_hash hn)|]; by destruct s.
Qed.

Lemma prop_entries_listed p s :
  views_prop p s →
  ∃ ps, entries_below g (SiPkgProp.is_child PropChildNode.Props) (SiPkgProp.from_graph g)
          (SiPkgProp.source p) = Ok ps ∧ Forall2 views_prop ps (reverse (entries_of s)).
Proof using Type.
  intros [_ Hs]. assert (∀ s, Forall (λ _, True) (entries_of s)) as Hall.
  { intros s'. by apply Forall_true. }
  destruct s; cbn [PropSpec.as_node_with_children entries_of] in *.
  2,4,6: exists []; split; [eapply below_none; [exact Hs|done|only_child]|constructor].
  all: eapply (below_viewed _ _ _ _ _ _ _ _ _ _ Tree (PropChild PropChildNode.Props));
    [exact prop_views|exact Hs|exact (Hall (PropSpec.Object [] None None _))|done..| |];
    [in_children|only_child].
Qed.

Lemma views_prop_name p s : views_prop p s → SiPkgProp.name p = PropSpec.name s.
Proof using Type. intros [[h ->] _]. by destruct s. Qed.

(** The inputs and key functions of a prop. *)
Lemma prop_inputs_import p s :
  views_prop p s →
  (inputs ← SiPkgProp.inputs g p; attr_func_inputs_into_specs inputs) =
    Ok (reverse (default [] (PropSpec.data s ≫= PropSpec.inputs))).
Proof using Type.
  intros [_ Hs]. unfold SiPkgProp.inputs, attr_func_inputs_into_specs.
  assert (∃ vs, entries_below g (SiPkgProp.is_child PropChildNode.AttrFuncInputs)
    (attr_func_input_from_graph g) (SiPkgProp.source p) = Ok vs ∧
    Forall2 (λ v s, no_panic (SiPkgAttrFuncInput.try_into_spec v) = Ok (id s)) vs
      (reverse (default [] (PropSpec.data s ≫= PropSpec.inputs)))) as (vs & -> & Hin%try_map_into).
  { destruct s.
    all: eapply (below_viewed _ _ _ _ _ _ _ _ _ _ Tree (PropChild PropChildNode.AttrFuncInputs));
      [exact (input_imports g)|exact Hs|by apply Forall_true|done..| |];
      [in_children|only_child]. }
  simpl. by rewrite Hin, list_fmap_id.
Qed.

Lemma prop_keys_import p name d u t mk :
  views_prop p (PropSpec.Map name d u t mk) →
  (keys ← SiPkgProp.map_key_funcs g p; try_map (SiPkgMapKeyFunc.try_into_spec g) keys) =
    Ok (reverse (imported_map_key_func <$> default [] mk)).
Proof using Type.
  intros [_ Hs]. unfold SiPkgProp.map_key_funcs. cbn [PropSpec.as_node_with_children] in Hs.
  below (map_key_func_imports g) Hs (SiPkgProp.is_child PropChildNode.MapKeyFuncs)
    (PropChild PropChildNode.MapKeyFuncs) (default [] mk)
    (Forall_always (default [] mk)) vs Hvs Hin.
  rewrite Hvs. simpl. by rewrite (try_map_into _ _ _ _ Hin), fmap_reverse.
Qed.

(** Collecting into the builder. *)
Lemma foldl_keys l b :
  foldl (λ b m, PropSpecBuilder.map_key_func m b) b l =
  match b with
  | PropSpecBuilder.Mk dv dl es f h i k mk n tp vs wk wo u hd =>
      PropSpecBuilder.Mk dv dl es f h i k (mk ++ l) n tp vs wk wo u
        (match l with [] => hd | _ => true end)
  end.
Proof using Type.
  revert b. induction l as [|m l IH]; intros []; simpl; [by rewrite app_nil_r|].
  rewrite IH. simpl. rewrite <- (assoc_L (++)). by destruct l.
Qed.

Lemma foldl_inputs l b :
  foldl (λ b i, PropSpecBuilder.input i b) b l =
  match b with
  | PropSpecBuilder.Mk dv dl es f h i k mk n tp vs wk wo u hd =>
      PropSpecBuilder.Mk dv dl es f h (i ++ l) k mk n tp vs wk wo u
        (match l with [] => hd | _ => true end)
  end.
Proof using Type.
  revert b. induction l as [|m l IH]; intros []; simpl; [by rewrite app_nil_r|].
  rewrite IH. simpl. rewrite <- (assoc_L (++)). by destruct l.
Qed.

(** The data of a viewed prop. *)
Lemma views_prop_data p s :
  views_prop p s → SiPkgProp.data p = SiPkgProp.from_data <$> PropSpec.node_data s.
Proof using Type. intros [[h ->] _]. by destruct s. Qed.

Definition keys_and_default (s : PropSpec.t) : bool :=
  match kept_default s, keys_of s with None, [] => false | _, _ => true end.

Lemma builder_kind_of p s :
  views_prop p s →
  builder_kind g p (PropSpecBuilder.has_data false PropSpecBuilder.new) =
    Ok (PropSpecBuilder.Mk (kept_default s) None [] None false [] (Some (kind_of s))
          (reverse (imported_map_key_func <$> keys_of s)) None None [] None None None
          (keys_and_default s)).
Proof using Type.
  intros Hv. destruct (proj1 Hv) as [h Hp].
  destruct s as [n d u t|n d u|n d u t mk|n d u|n d u es|n d u]; unfold keys_and_default;
    rewrite Hp; simpl; try done.
  - by destruct d as [[? [] ]|].
  - pose proof (prop_keys_import _ _ _ _ _ _ Hv) as Hkeys. rewrite Hp in Hkeys. simpl in Hkeys.
    apply result_bind_ok in Hkeys as (ks & -> & Hks). simpl. rewrite Hks. simpl.
    rewrite foldl_keys. simpl. unfold keys_of. do 2 f_equal.
    destruct (default [] mk) as [|m l]; [done|]. csimpl. rewrite reverse_cons.
    by destruct (reverse (imported_map_key_func <$> l)).
  - by destruct d as [[? [] ]|].
Qed.

Lemma builder_data_of p s dv k mk n hd :
  views_prop p s →
  builder_data g p (PropSpecBuilder.Mk dv None [] None false [] k mk n None [] None None None hd) =
    Ok (PropSpecBuilder.Mk dv None [] (PropSpec.data s ≫= PropSpec.func_unique_id)
          (kept_hidden s) (kept_inputs s) k mk n None [] (kept_widget s)
          (PropSpec.data s ≫= PropSpec.widget_options) None
          (match PropSpec.data s with Some _ => true | None => hd end)).
Proof using Type.
  intros Hv. unfold builder_data. rewrite (views_prop_data _ _ Hv).
  unfold PropSpec.node_data, kept_hidden, kept_inputs, kept_widget.
  pose proof (prop_inputs_import _ _ Hv) as Hin. destruct (PropSpec.data s) as [d|]; [|done].
  simpl in *. destruct (PropSpec.widget_options d), (PropSpec.func_unique_id d); simpl; try done.
  all: apply result_bind_ok in Hin as (is_ & -> & His); simpl; rewrite His; simpl.
  all: rewrite foldl_inputs; simpl; do 2 f_equal; by destruct (reverse _).
Qed.

(** The builder that [create_prop_stack] fills. *)
Lemma create_builder p s :
  views_prop p s →
  (b ← builder_kind g p (PropSpecBuilder.has_data false PropSpecBuilder.new);
   builder_data g p (PropSpecBuilder.name (SiPkgProp.name p) b)) = Ok (builder_of s).
Proof using Type.
  intros Hv. rewrite (views_prop_name _ _ Hv), (builder_kind_of _ _ Hv). simpl.
  rewrite (builder_data_of _ _ _ _ _ _ _ Hv). unfold builder_of. do 2 f_equal.
  unfold keys_and_default, keeps_data, kept_default.
  destruct s; simpl; by destruct data.
Qed.

(** One visited prop is pushed, and linked to its parent. *)
Lemma create_prop_stack_pushes p s parent ctx :
  views_prop p s →
  (∀ q, parent = Some q → prop_parents ctx !! prop_path parent (PropSpec.name s) = None) →
  create_prop_stack g p parent ctx =
    Ok (Some (prop_path parent (PropSpec.name s)),
        {| prop_stack := (prop_path parent (PropSpec.name s), builder_of s) :: prop_stack ctx;
           prop_parents :=
             match parent with
             | Some q => <[prop_path parent (PropSpec.name s) := q]> (prop_parents ctx)
             | None => prop_parents ctx
             end |}).
Proof using Type.
  intros Hv Hnone. pose proof (create_builder _ _ Hv) as Hb. unfold create_prop_stack.
  apply result_bind_ok in Hb as (b & -> & Hb). simpl. rewrite Hb. simpl.
  rewrite (views_prop_name _ _ Hv). destruct parent as [q|]; [|done]. by rewrite (Hnone q).
Qed.

End shown.

(** ** The stack of a visit *)

Section stack.
Context `{B : Blake3} `{P : Petgraph} `{A : TarArchive} {X : Externals}.
Context (g : Graph (HashedNode PkgNode)).

Inductive tree_views : tree SiPkgProp.t → PropSpec.t → Prop :=
| tree_views_node t s :
    views_prop g (label t) s →
    Forall2 tree_views (subtrees t) (reverse (entries_of s)) →
    tree_views t s.

Lemma nodes_of_entries s :
  sum_list (nodes_of ∘ PropSpec.as_node_with_children <$> entries_of s) <
  nodes_of (PropSpec.as_node_with_children s).
Proof using Type.
  destruct s; simpl; try lia. rewrite <- (list_fmap_compose PropSpec.as_node_with_children). lia.
Qed.

(** The graph lists the props of a shown tree. *)
Definition listed_as (p : SiPkgProp.t) (s : PropSpec.t) : Prop :=
  ∃ t, label t = p ∧ tree_views t s ∧ lists g t ∧
       tree_size t ≤ nodes_of (PropSpec.as_node_with_children s).

Lemma forest_shown ps l :
  Forall2 listed_as ps l →
  ∃ ts, label <$> ts = ps ∧ Forall2 tree_views ts l ∧ Forall (lists g) ts ∧
    sum_list (tree_size <$> ts) ≤ sum_list (nodes_of ∘ PropSpec.as_node_with_children <$> l).
Proof using Type.
  induction 1 as [|p s ps l (t & <- & Hv & Hl & Hsz) _ (ts & <- & Hvs & Hls & Hszs)].
  - by exists [].
  - exists (t :: ts). csimpl. split_and!; [done|by constructor|by constructor|].
    simpl in *. lia.
Qed.

Lemma tree_shown p s : views_prop g p s → listed_as p s.
Proof using Type.
  revert p. induction s as [s IH] using prop_entries_ind. intros p Hv.
  destruct (prop_entries_listed g p s Hv) as (ps & Hps & Hall).
  destruct (forest_shown ps (reverse (entries_of s))) as (ts & <- & Hvs & Hls & Hsz).
  { eapply Forall2_impl_in; [exact Hall|]. intros p' s' _ Hs'. rewrite elem_of_reverse in Hs'.
    rewrite Forall_forall in IH. by apply IH. }
  exists (TNode p ts). split_and!; [done| | |].
  - by constructor.
  - apply everywhere_intro; [done|]. intros t Ht. rewrite Forall_forall in Hls. by apply Hls.
  - pose proof (nodes_of_entries s) as Hn. rewrite reverse_Permutation in Hsz. simpl. lia.
Qed.

(** What pushing does to the context. *)
Definition pushes (l : list stacked) : list (list Byte.byte * PropSpecBuilder.t) :=
  (λ e, (st_path e, st_builder e)) <$> l.

Definition links (l : list stacked) (m : gmap (list Byte.byte) (list Byte.byte)) :
    gmap (list Byte.byte) (list Byte.byte) :=
  foldr (λ e m, match st_parent e with Some q => <[st_path e := q]> m | None => m end) m l.

Definition pushed (l : list stacked) (ctx : PropSpecVisitContext) : PropSpecVisitContext :=
  {| prop_stack := pushes l ++ prop_stack ctx; prop_parents := links l (prop_parents ctx) |}.

Lemma pushed_app l k ctx : pushed (l ++ k) ctx = pushed l (pushed k ctx).
Proof using Type.
  unfold pushed, pushes, links. simpl. by rewrite fmap_app, <- (assoc_L (++)), foldr_app.
Qed.

Lemma links_other l m q : q ∉ paths l → links l m !! q = m !! q.
Proof using Type.
  induction l as [|e l IH]; [done|]. csimpl. rewrite not_elem_of_cons. intros [Hq Hl]. simpl.
  destruct (st_parent e); [rewrite lookup_insert_ne by done|]; auto.
Qed.

Lemma links_own l m e :
  NoDup (paths l) → (∀ q, q ∈ paths l → m !! q = None) → e ∈ l →
  links l m !! st_path e = st_parent e.
Proof using Type.
  intros Hnd Hm. induction l as [|e' l IH]; [by intros ?%elem_of_nil|].
  csimpl in *. apply NoDup_cons in Hnd as [He' Hnd]. intros [->|He]%elem_of_cons.
  - destruct (st_parent e') as [q|]; [by rewrite lookup_insert_eq|].
    rewrite links_other by done. apply Hm. by left.
  - assert (st_path e ≠ st_path e').
    { intros Heq. apply He'. rewrite <- Heq. by apply list_elem_of_fmap_2. }
    destruct (st_parent e'); [rewrite lookup_insert_ne by done|];
      (apply IH; [done| |done]; intros q Hq; apply Hm; by right).
Qed.

(** The context has no parent for the paths to be pushed. *)
Definition free (l : list stacked) (ctx : PropSpecVisitContext) : Prop :=
  ∀ q, q ∈ paths l → prop_parents ctx !! q = None.

Definition walk_pushes (t : tree SiPkgProp.t) (s : PropSpec.t) : Prop := ∀ parent ctx,
  NoDup (paths (stack_of parent s)) → free (stack_of parent s) ctx →
  walk (create_prop_stack g) t parent ctx = Ok (pushed (stack_of parent s) ctx).

Lemma walk_forest_pushes ts l parent ctx :
  Forall2 walk_pushes ts l →
  NoDup (paths (stack_of_list parent l)) → free (stack_of_list parent l) ctx →
  walk_forest (create_prop_stack g) ts parent ctx = Ok (pushed (stack_of_list parent l) ctx).
Proof using Type.
  intros Hts. revert ctx. induction Hts as [|t s ts l Ht _ IH]; intros ctx; [by destruct ctx|].
  rewrite stack_of_list_cons, paths_app, NoDup_app, pushed_app. intros (Hnd & Hd & Hnds) Hf. simpl.
  rewrite IH; [|done|].
  - simpl. apply Ht; [done|]. intros q Hq. simpl. rewrite links_other by auto. apply Hf.
    rewrite paths_app. apply elem_of_app. by left.
  - intros q Hq. apply Hf. rewrite paths_app. apply elem_of_app. by right.
Qed.

Lemma tree_walk_pushes t s : tree_views t s → walk_pushes t s.
Proof using Type.
  revert t. induction s as [s IH] using prop_entries_ind. intros t Ht.
  inversion_clear Ht as [? ? Hv Hts]. intros parent ctx. rewrite stack_of_eq, paths_app, NoDup_app.
  intros (Hnd & Hd & _) Hf. rewrite walk_eq, (create_prop_stack_pushes g _ _ _ _ Hv).
  - simpl. rewrite (walk_forest_pushes _ (reverse (entries_of s))); [|..|].
    + rewrite pushed_app. unfold pushed at 3. simpl. by destruct parent.
    + eapply Forall2_impl_in; [exact Hts|]. intros t' s' _ Hs'. rewrite elem_of_reverse in Hs'.
      rewrite Forall_forall in IH. by apply IH.
    + done.
    + intros q Hq. simpl. assert (q ≠ prop_path parent (PropSpec.name s)) as Hne.
      { intros ->. by apply (Hd _ Hq), list_elem_of_singleton. }
      assert (prop_parents ctx !! q = None) as Hnone.
      { apply Hf. rewrite paths_app. apply elem_of_app. by left. }
      destruct parent; [by rewrite lookup_insert_ne|done].
  - intros q _. apply Hf. rewrite paths_app. apply elem_of_app. right.
    by apply list_elem_of_singleton.
Qed.

End stack.

(** ** Rebuilding from the stack *)

Section rebuild.
Context `{B : Blake3} `{P : Petgraph} `{A : TarArchive} {X : Externals}.
Context (root : SchemaVariantSpecPropRoot) (parents : gmap (list Byte.byte) (list Byte.byte)).

Abbreviation children := (gmap (list Byte.byte) (list PropSpec.t)) (only parsing).

(** What is found for a prop with these children, all of them rebuilt. *)
Definition found (l : list PropSpec.t) : option (list PropSpec.t) :=
  match l with [] => None | _ => Some l end.

(** One entry of the stack. *)
Lemma rebuild_entry path s parent rest ch b :
  parents !! path = parent → ch !! path = found (imported_entries s) →
  rebuild_loop root parents ((path, builder_of s) :: rest) ch b =
    match parent with
    | Some q =>
        rebuild_loop root parents rest
          (<[q := default [] (ch !! q) ++ [imported_prop s]]> ch) b
    | None =>
        b ← SchemaVariantSpecBuilder.prop root (imported_prop s) b;
        rebuild_loop root parents rest ch b
    end.
Proof using Type.
  intros Hp Hch. destruct (builder_builds s) as (b' & Hb' & Hbuild).
  simpl. rewrite Hch, Hp. unfold found. unfold with_children in Hb'.
  destruct (imported_entries s); [injection Hb' as <-|rewrite Hb']; simpl; rewrite Hbuild; simpl;
    by destruct parent.
Qed.

(** The stack of a prop, and the props below [parent], are rebuilt. *)
Definition known (l : list stacked) : Prop := ∀ e, e ∈ l → parents !! st_path e = st_parent e.
Definition unseen (l : list stacked) (ch : children) : Prop :=
  ∀ q, q ∈ paths l → ch !! q = None.

Definition rebuilds (s : PropSpec.t) : Prop := ∀ parent rest ch b,
  NoDup (paths (stack_of parent s)) → known (stack_of parent s) →
  unseen (stack_of parent s) ch →
  ∃ ch', rebuild_loop root parents (pushes (stack_of parent s) ++ rest) ch b =
      match parent with
      | Some q =>
          rebuild_loop root parents rest
            (<[q := default [] (ch !! q) ++ [imported_prop s]]> ch') b
      | None =>
          b ← SchemaVariantSpecBuilder.prop root (imported_prop s) b;
          rebuild_loop root parents rest ch' b
      end ∧
    ∀ q, q ∉ paths (stack_of parent s) → ch' !! q = ch !! q.

Lemma parent_not_below q l : q ∉ paths (stack_of_list (Some q) l).
Proof using Type.
  intros (e & -> & (s & _ & He)%elem_of_stack_of_list)%list_elem_of_fmap.
  apply (list_elem_of_fmap_2 st_path), stack_of_below, below_child in He as [_ He]. by apply He.
Qed.

Lemma rebuild_siblings q l rest ch b :
  Forall rebuilds l → NoDup (paths (stack_of_list (Some q) l)) →
  known (stack_of_list (Some q) l) → unseen (stack_of_list (Some q) l) ch →
  ∃ ch', rebuild_loop root parents (pushes (stack_of_list (Some q) l) ++ rest) ch b =
      rebuild_loop root parents rest ch' b ∧
    ch' !! q = match l with
               | [] => ch !! q
               | _ => Some (default [] (ch !! q) ++ (imported_prop <$> l))
               end ∧
    ∀ q', q' ∉ paths (stack_of_list (Some q) l) → q' ≠ q → ch' !! q' = ch !! q'.
Proof using Type.
  intros Hl. revert ch. induction Hl as [|s l Hs _ IH]; intros ch; [by exists ch|].
  rewrite stack_of_list_cons, paths_app, NoDup_app. intros (Hnd & Hd & Hnds) Hk Hu.
  destruct (Hs (Some q) (pushes (stack_of_list (Some q) l) ++ rest) ch b) as (ch1 & Hch1 & Hout1).
  { done. } { intros e He. apply Hk, elem_of_app. by left. }
  { intros q' Hq'. apply Hu. rewrite paths_app. apply elem_of_app. by left. }
  assert (q ∉ paths (stack_of (Some q) s)) as Hq.
  { pose proof (parent_not_below q [s]) as Hq. unfold stack_of_list in Hq. csimpl in Hq.
    by rewrite app_nil_r in Hq. }
  destruct (IH (<[q := default [] (ch !! q) ++ [imported_prop s]]> ch1)) as (ch2 & Hch2 & Hq2 & Hout2).
  { done. } { intros e He. apply Hk, elem_of_app. by right. }
  { intros q' Hq'. rewrite lookup_insert_ne by (intros ->; by apply parent_not_below in Hq').
    rewrite Hout1 by (intros Hq1; by apply (Hd _ Hq1)). apply Hu. rewrite paths_app.
    apply elem_of_app. by right. }
  exists ch2. split_and!.
  - unfold pushes in *. rewrite fmap_app, <- (assoc_L (++)). by rewrite Hch1, Hch2.
  - rewrite Hq2, lookup_insert_eq. destruct l; [done|]. simpl. by rewrite <- (assoc_L (++)).
  - intros q' [Hq1 Hql]%not_elem_of_app Hne. rewrite Hout2 by done.
    rewrite lookup_insert_ne by done. by apply Hout1.
Qed.

Lemma rebuilds_all s : rebuilds s.
Proof using Type.
  induction s as [s IH] using prop_entries_ind. intros parent rest ch b.
  rewrite stack_of_eq, paths_app, NoDup_app. intros (Hnd & Hd & _) Hk Hu.
  set (path := prop_path parent (PropSpec.name s)) in *.
  assert (parents !! path = parent) as Hpar.
  { apply (Hk (Stacked path parent (builder_of s))), elem_of_app. right.
    by apply list_elem_of_singleton. }
  assert (ch !! path = None) as Hpath.
  { apply Hu. rewrite paths_app. apply elem_of_app. right. by apply list_elem_of_singleton. }
  destruct (rebuild_siblings path (reverse (entries_of s))
    ((path, builder_of s) :: rest) ch b) as (ch1 & Hch1 & Hp1 & Hout1).
  { by rewrite Forall_reverse. } { done. } { intros e He. apply Hk, elem_of_app. by left. }
  { intros q Hq. apply Hu. rewrite paths_app. apply elem_of_app. by left. }
  exists ch1. split.
  - unfold pushes in *. rewrite fmap_app, <- (assoc_L (++)). csimpl. rewrite Hch1.
    rewrite (rebuild_entry path s parent); [|done|].
    + destruct parent as [q|]; [|done]. rewrite Hout1; [done| |].
      * intros Hq. apply (parent_not_below q [s]). rewrite stack_of_list_cons, stack_of_eq.
        rewrite !paths_app. apply elem_of_app. left. apply elem_of_app. by left.
      * intros Heq. apply (parent_not_below q [s]). rewrite stack_of_list_cons, stack_of_eq.
        rewrite !paths_app. apply elem_of_app. left. apply elem_of_app. right.
        apply list_elem_of_singleton. by rewrite Heq at 1.
    + rewrite Hp1, Hpath. unfold imported_entries, found. rewrite fmap_reverse.
      destruct (reverse (entries_of s)) eqn:Hr; rewrite <- fmap_reverse, Hr; done.
  - intros q [Hq Hne]%not_elem_of_app. apply Hout1; [done|].
    intros ->. apply Hne. by apply list_elem_of_singleton.
Qed.

(** The props of a root, one after the other. *)
Definition add_props {E} (l : list PropSpec.t) (b : SchemaVariantSpecBuilder.t) :
    result (fault E) SchemaVariantSpecBuilder.t :=
  foldl (λ b s, b ← b; SchemaVariantSpecBuilder.prop root s b) (Ok b) l.

Lemma add_props_cons {E} s l b :
  add_props (E := E) (s :: l) b = b ← SchemaVariantSpecBuilder.prop root s b; add_props l b.
Proof using Type.
  unfold add_props. simpl. destruct (SchemaVariantSpecBuilder.prop root s b); [done|]. simpl.
  clear. induction l; [done|]. done.
Qed.

Lemma rebuild_roots l ch b :
  NoDup (paths (stack_of_list None l)) → known (stack_of_list None l) →
  unseen (stack_of_list None l) ch →
  rebuild_loop root parents (pushes (stack_of_list None l)) ch b =
    add_props (imported_prop <$> l) b.
Proof using Type.
  revert ch b. induction l as [|s l IH]; intros ch b; [done|]. csimpl.
  rewrite stack_of_list_cons, paths_app, NoDup_app. intros (Hnd & Hd & Hnds) Hk Hu.
  destruct (rebuilds_all s None (pushes (stack_of_list None l)) ch b) as (ch1 & Hch1 & Hout1).
  { done. } { intros e He. apply Hk, elem_of_app. by left. }
  { intros q Hq. apply Hu. rewrite paths_app. apply elem_of_app. by left. }
  unfold pushes in *. rewrite fmap_app, Hch1, add_props_cons.
  destruct (SchemaVariantSpecBuilder.prop root (imported_prop s) b) as [b'|]; [|done]. simpl.
  apply IH; [done| |].
  - intros e He. apply Hk, elem_of_app. by right.
  - intros q Hq. rewrite Hout1 by (intros Hq1; by apply (Hd _ Hq1)). apply Hu.
    rewrite paths_app. apply elem_of_app. by right.
Qed.

End rebuild.
