(* ===== verification/PkgRoundtrip.v ===== *)
(** * From a specification to a package and back

    A package made from a specification ([SiPkg::load_from_spec]) is turned
    back into one ([SiPkg::to_spec]): what comes back, for every part of the
    specification. *)

From S2P Require Import Prelude Bytes KeyValue NodeEntries ObjectGraph ObjectTar.
From S2P Require Import PkgSpec PkgFields PkgNodes PkgNodesData PkgNode PkgLeaves PkgTree PkgViews.
From S2P Require Import PkgProps PkgPackage PkgImport PkgPropTree ObjectSample.
From Stdlib Require Import NArith ZArith Init.Byte.
From stdpp Require Import base tactics list gmap strings.
Open Scope run_scope.

(** ** What comes back *)

Section imported.
Context {X : Externals}.

(** The prop below which the props of a root are. *)
Definition root_prop (s : SchemaVariantSpec.t) (root : SchemaVariantSpecPropRoot) :
    option PropSpec.t :=
  match root with
  | Domain => Some (SchemaVariantSpec.domain s)
  | ResourceValue => Some (SchemaVariantSpec.resource_value s)
  | Secrets => Some (SchemaVariantSpec.secrets s)
  | SecretDefinition => SchemaVariantSpec.secret_definition s
  end.

(** The builder's own root with the entries of [s]. *)
Definition imported_root (name : string) (s : PropSpec.t) : PropSpec.t :=
  PropSpec.Object (str name) (PropSpec.data (SchemaVariantSpecBuilder.default_root (str name))) None
    (imported_entries s).

(** Leaf functions and secrets do not come back, and neither do the root props
    themselves. *)
Definition imported_variant (s : SchemaVariantSpec.t) : SchemaVariantSpec.t :=
  {| SchemaVariantSpec.name := SchemaVariantSpec.name s;
     SchemaVariantSpec.data :=
       (λ d, {| SchemaVariantSpec.data_name := SchemaVariantSpec.name s;
                SchemaVariantSpec.link := SchemaVariantSpec.link d;
                SchemaVariantSpec.color := SchemaVariantSpec.color d;
                SchemaVariantSpec.component_type := SchemaVariantSpec.component_type d;
                SchemaVariantSpec.func_unique_id := SchemaVariantSpec.func_unique_id d |})
         <$> SchemaVariantSpec.data s;
     SchemaVariantSpec.unique_id := SchemaVariantSpec.unique_id s;
     SchemaVariantSpec.deleted := SchemaVariantSpec.deleted s;
     SchemaVariantSpec.action_funcs :=
       reverse (imported_action_func <$> SchemaVariantSpec.action_funcs s);
     SchemaVariantSpec.leaf_functions := [];
     SchemaVariantSpec.sockets := reverse (imported_socket <$> SchemaVariantSpec.sockets s);
     SchemaVariantSpec.si_prop_funcs :=
       reverse (imported_si_prop_func <$> SchemaVariantSpec.si_prop_funcs s);
     SchemaVariantSpec.domain := imported_root "domain" (SchemaVariantSpec.domain s);
     SchemaVariantSpec.secrets := SchemaVariantSpecBuilder.default_secrets;
     SchemaVariantSpec.secret_definition := None;
     SchemaVariantSpec.resource_value :=
       imported_root "value" (SchemaVariantSpec.resource_value s) |}.

Definition imported_schema (s : SchemaSpec.t) : SchemaSpec.t :=
  {| SchemaSpec.name := SchemaSpec.name s;
     SchemaSpec.data :=
       (λ d, {| SchemaSpec.data_name := SchemaSpec.name s;
                SchemaSpec.category := SchemaSpec.category d;
                SchemaSpec.category_name := SchemaSpec.category_name d;
                SchemaSpec.ui_hidden := SchemaSpec.ui_hidden d;
                SchemaSpec.default_schema_variant := SchemaSpec.default_schema_variant d |})
         <$> SchemaSpec.data s;
     SchemaSpec.unique_id := SchemaSpec.unique_id s; SchemaSpec.deleted := false;
     SchemaSpec.variants := reverse (imported_variant <$> SchemaSpec.variants s) |}.

(** Components and edges do not come back. *)
Definition imported_change_set (s : ChangeSetSpec.t) : ChangeSetSpec.t :=
  {| ChangeSetSpec.name := ChangeSetSpec.name s;
     ChangeSetSpec.based_on_change_set := ChangeSetSpec.based_on_change_set s;
     ChangeSetSpec.status := ChangeSetSpec.status s; ChangeSetSpec.components := [];
     ChangeSetSpec.schemas := reverse (imported_schema <$> ChangeSetSpec.schemas s);
     ChangeSetSpec.funcs := reverse (imported_func <$> ChangeSetSpec.funcs s);
     ChangeSetSpec.edges := [] |}.

(** A module has schemas and functions, a backup has change sets. *)
Definition imported_package (s : PackageSpec.t) : PackageSpec.t :=
  let module {Y} (y : list Y) :=
    match PackageSpec.kind s with SiPkgKind.Module_ => y | SiPkgKind.WorkspaceBackup => [] end in
  {| PackageSpec.kind := PackageSpec.kind s; PackageSpec.name := PackageSpec.name s;
     PackageSpec.version := PackageSpec.version s;
     PackageSpec.description := PackageSpec.description s;
     PackageSpec.created_at := PackageSpec.created_at s;
     PackageSpec.created_by := PackageSpec.created_by s;
     PackageSpec.default_change_set :=
       match PackageSpec.kind s with
       | SiPkgKind.Module_ => None
       | SiPkgKind.WorkspaceBackup => PackageSpec.default_change_set s
       end;
     PackageSpec.workspace_pk := PackageSpec.workspace_pk s;
     PackageSpec.workspace_name := PackageSpec.workspace_name s;
     PackageSpec.schemas := module (reverse (imported_schema <$> PackageSpec.schemas s));
     PackageSpec.funcs := module (reverse (imported_func <$> PackageSpec.funcs s));
     PackageSpec.change_sets :=
       match PackageSpec.kind s with
       | SiPkgKind.Module_ => []
       | SiPkgKind.WorkspaceBackup =>
           reverse (imported_change_set <$> PackageSpec.change_sets s)
       end |}.

(** The props of a variant that [to_spec] looks at can be told apart. *)
Definition variant_ok (s : SchemaVariantSpec.t) : Prop :=
  rebuildable (SchemaVariantSpec.domain s) ∧ rebuildable (SchemaVariantSpec.resource_value s).

Definition schema_ok (s : SchemaSpec.t) : Prop := Forall variant_ok (SchemaSpec.variants s).
Definition change_set_ok (s : ChangeSetSpec.t) : Prop := Forall schema_ok (ChangeSetSpec.schemas s).
Definition package_ok (s : PackageSpec.t) : Prop :=
  Forall schema_ok (PackageSpec.schemas s) ∧ Forall change_set_ok (PackageSpec.change_sets s).

(** Every part of a tree is smaller than the tree. *)
Lemma nodes_of_child {T} (c : NodeWithChildren T) k a cs :
  c ∈ cs → nodes_of c < nodes_of (NodeWithChildren_new k a cs).
Proof.
  intros Hc. simpl. induction Hc as [|c c' cs _ IH]; csimpl; lia.
Qed.

End imported.

(** ** Schema variants *)

Section variants.
Context `{B : Blake3} `{P : Petgraph} `{A : TarArchive} {X : Externals}.
Context (g : Graph (HashedNode PkgNode)).

Lemma prop_from_graph_source i p : SiPkgProp.from_graph g i = Ok p → SiPkgProp.source p = i.
Proof using Type.
  unfold SiPkgProp.from_graph. intros (hn & _ & H)%result_bind_ok.
  destruct (hashed_inner hn) as [| | | | | | | | | | | | | | | |n| | | | | | |]; try done.
  destruct n; by simplify_eq/=.
Qed.

(** The child of a variant that holds a root prop. *)
Lemma root_child_unique s root r :
  root_prop s root = Some r →
  let c := SchemaVariantSpec.variant_child (SiPkgSchemaVariant.root_child root)
             [PropSpec.as_node_with_children r] in
  c ∈ SchemaVariantSpec.children s ∧
  ∀ c', c' ∈ SchemaVariantSpec.children s →
    SiPkgSchemaVariant.is_child (SiPkgSchemaVariant.root_child root) (root_inner c') = true → c' = c.
Proof using Type.
  intros Hr. unfold SchemaVariantSpec.children.
  destruct root, (SchemaVariantSpec.secret_definition s) as [sd|] eqn:Hsd; simpl in Hr;
    rewrite ?Hsd in Hr; simplify_eq; simpl; (split; [in_children|only_child]).
Qed.

(** Whatever is done at each prop, the visit of a root does it in the order of
    a depth-first walk, and ends. *)
Lemma visit_root v s root r :
  shows g (source v) (SchemaVariantSpec.as_node_with_children s) → root_prop s root = Some r →
  ∃ t, tree_views g t r ∧
    ∀ I C E (from_error : SiPkgError → E)
      (process : SiPkgProp.t → option I → C → result (fault E) (option I * C)) fuel info c,
      nodes_of (PropSpec.as_node_with_children r) ≤ S fuel →
      SiPkgSchemaVariant.visit_prop_tree from_error process fuel g v root info c =
        Some (walk_forest process (subtrees t) info c).
Proof using Type.
  intros Hs Hr. destruct (root_child_unique s root r Hr) as [Hin Hone].
  destruct (child_found g (SiPkgSchemaVariant.is_child (SiPkgSchemaVariant.root_child root))
    _ _ _ _ _ Hs eq_refl Hin) as (j & Hj & Hsj); [by apply bool_decide_eq_true|done|].
  inversion Hsj as [j' hn k a cs ks Hw Hi Hn Hks]; subst. simpl in Hn.
  apply Forall2_cons_inv_r in Hks as (i & ks' & Hsi & Hks' & ->).
  apply Forall2_nil_inv_r in Hks' as ->.
  destruct (prop_views g i r I Hsi) as (p & Hp & Hv).
  apply prop_from_graph_source in Hp as Hpi.
  destruct (tree_shown g p r Hv) as (t & <- & Ht & Hl & Hsz). exists t. split; [done|].
  intros ? ? ? from_error process fuel info c Hf. unfold SiPkgSchemaVariant.visit_prop_tree.
  unfold SiPkgSchemaVariant.get_prop_root_idx. rewrite Hj. cbn [mbind result_bind].
  replace (match root with Secrets => _ | _ => _ end) with
    (Ok (E := fault SiPkgError) (Some j)) by (by destruct root).
  simpl. rewrite Hn. simpl. rewrite <- Hpi.
  apply everywhere_inv in Hl as Hl'. rewrite (prop_stack_listed g t) by apply Hl'. simpl.
  apply visit_loop_walk_forest; [done|lia].
Qed.

(** The props of a root are rebuilt. *)
Lemma build_root v s root r fuel b :
  shows g (source v) (SchemaVariantSpec.as_node_with_children s) → root_prop s root = Some r →
  rebuildable r → nodes_of (PropSpec.as_node_with_children r) ≤ S fuel →
  SiPkgSchemaVariant.build_prop_specs fuel g v root b = Some (add_props root (imported_entries r) b).
Proof using Type.
  intros Hs Hr Hrb Hf. destruct (visit_root v s root r Hs Hr) as (t & Ht & Hvisit).
  apply (rebuildable_entries None), apart_reverse, stack_of_list_NoDup in Hrb.
  inversion_clear Ht as [? ? Hv Hts].
  unfold SiPkgSchemaVariant.build_prop_specs. rewrite Hvisit by done.
  rewrite (walk_forest_pushes g _ (reverse (entries_of r))); [|..|done|].
  - simpl. f_equal. rewrite app_nil_r. unfold imported_entries. rewrite <- fmap_reverse.
    apply rebuild_roots; [done|..].
    + intros e He. apply links_own; [done| |done]. intros q _. apply lookup_empty.
    + intros q _. apply lookup_empty.
  - eapply Forall2_impl; [exact Hts|]. apply tree_walk_pushes.
  - intros q _. apply lookup_empty.
Qed.

(** Adding props to a root that has not been set. *)
Definition set_root (root : SchemaVariantSpecPropRoot) (p : PropSpec.t)
    (b : SchemaVariantSpecBuilder.t) : SchemaVariantSpecBuilder.t :=
  let '(SchemaVariantSpecBuilder.Build_t n d u de af lf so sp dom sec sd rv) := b in
  match root with
  | Domain => SchemaVariantSpecBuilder.Build_t n d u de af lf so sp (Some p) sec sd rv
  | ResourceValue => SchemaVariantSpecBuilder.Build_t n d u de af lf so sp dom sec sd (Some p)
  | Secrets => SchemaVariantSpecBuilder.Build_t n d u de af lf so sp dom (Some p) sd rv
  | SecretDefinition => SchemaVariantSpecBuilder.Build_t n d u de af lf so sp dom sec (Some (Some p)) rv
  end.

Lemma add_props_set {E} root n d u es l b :
  add_props (E := E) root l (set_root root (PropSpec.Object n d u es) b) =
    Ok (set_root root (PropSpec.Object n d u (es ++ l)) b).
Proof using Type.
  revert es. induction l as [|s l IH]; intros es; [by rewrite app_nil_r|].
  rewrite add_props_cons. destruct root, b; simpl in *; by rewrite IH, <- (assoc_L (++)).
Qed.

Lemma domain_added {E} n d u de af lf so sp sec sd rv s :
  ∃ dom, add_props (E := E) Domain (imported_entries s)
      (SchemaVariantSpecBuilder.Build_t n d u de af lf so sp None sec sd rv) =
    Ok (SchemaVariantSpecBuilder.Build_t n d u de af lf so sp dom sec sd rv) ∧
  default SchemaVariantSpecBuilder.default_domain dom = imported_root "domain" s.
Proof using Type.
  unfold imported_root. simpl. destruct (imported_entries s) as [|e l]; [by exists None|].
  rewrite add_props_cons. simpl. eexists (Some _). split; [|reflexivity].
  by apply (add_props_set Domain _ _ _ [e] l
    (SchemaVariantSpecBuilder.Build_t n d u de af lf so sp None sec sd rv)).
Qed.

Lemma resource_value_added {E} n d u de af lf so sp dom sec sd s :
  ∃ rv, add_props (E := E) ResourceValue (imported_entries s)
      (SchemaVariantSpecBuilder.Build_t n d u de af lf so sp dom sec sd None) =
    Ok (SchemaVariantSpecBuilder.Build_t n d u de af lf so sp dom sec sd rv) ∧
  default SchemaVariantSpecBuilder.default_resource_value rv = imported_root "value" s.
Proof using Type.
  unfold imported_root. simpl. destruct (imported_entries s) as [|e l]; [by exists None|].
  rewrite add_props_cons. simpl. eexists (Some _). split; [|reflexivity].
  by apply (add_props_set ResourceValue _ _ _ [e] l
    (SchemaVariantSpecBuilder.Build_t n d u de af lf so sp dom sec sd None)).
Qed.

(** A list of parts of a variant. *)
Lemma variant_part {S V} (as_node : S → NodeWithChildren PkgNode) from (R : V → S → Prop) c l i s :
  views g as_node from R (λ _, True) →
  shows g i (SchemaVariantSpec.as_node_with_children s) →
  SchemaVariantSpec.variant_child c (as_node <$> l) ∈ SchemaVariantSpec.children s →
  (∀ c', c' ∈ SchemaVariantSpec.children s →
    SiPkgSchemaVariant.is_child c (root_inner c') = true →
    c' = SchemaVariantSpec.variant_child c (as_node <$> l)) →
  ∃ vs, entries_below g (SiPkgSchemaVariant.is_child c) from i = Ok vs ∧ Forall2 R vs (reverse l).
Proof using Type.
  intros Hv Hs Hin Hone.
  apply (below_viewed _ g _ _ _ _ _ _ _ _ Tree (SchemaVariantChild c) l Hv Hs); try done.
  - by apply Forall_true.
  - by apply bool_decide_eq_true.
Qed.

Ltac part Himp Hs c l vs Hvs Hin :=
  destruct (variant_part _ _ _ c l _ _ Himp Hs) as (vs & Hvs & Hin);
  [unfold SchemaVariantSpec.children; case_match; in_children
  |unfold SchemaVariantSpec.children; case_match; only_child|].

Lemma variant_action_funcs v s :
  shows g (source v) (SchemaVariantSpec.as_node_with_children s) →
  ∃ vs, SiPkgSchemaVariant.action_funcs g v = Ok vs ∧
    SiPkgActionFunc.try_into_spec <$> vs =
      reverse (imported_action_func <$> SchemaVariantSpec.action_funcs s).
Proof using Type.
  intros Hs. part (action_func_imports g) Hs SchemaVariantChildNode.ActionFuncs
    (SchemaVariantSpec.action_funcs s) vs Hvs Hin. apply fmap_into in Hin. eauto.
Qed.

Lemma variant_sockets v s :
  shows g (source v) (SchemaVariantSpec.as_node_with_children s) →
  ∃ vs, SiPkgSchemaVariant.sockets g v = Ok vs ∧
    try_map (SiPkgSocket.try_into_spec g) vs =
      Ok (reverse (imported_socket <$> SchemaVariantSpec.sockets s)).
Proof using Type.
  intros Hs. part (socket_imports g) Hs SchemaVariantChildNode.Sockets
    (SchemaVariantSpec.sockets s) vs Hvs Hin.
  apply try_map_into in Hin. rewrite fmap_reverse in Hin. eauto.
Qed.

Lemma variant_si_prop_funcs v s :
  shows g (source v) (SchemaVariantSpec.as_node_with_children s) →
  ∃ vs, SiPkgSchemaVariant.si_prop_funcs g v = Ok vs ∧
    try_map (SiPkgSiPropFunc.try_into_spec g) vs =
      Ok (reverse (imported_si_prop_func <$> SchemaVariantSpec.si_prop_funcs s)).
Proof using Type.
  intros Hs. part (si_prop_func_imports g) Hs SchemaVariantChildNode.SiPropFuncs
    (SchemaVariantSpec.si_prop_funcs s) vs Hvs Hin.
  apply try_map_into in Hin. rewrite fmap_reverse in Hin. eauto.
Qed.

Lemma default_set {Y} (l : list Y) : default [] (match l with [] => None | _ => Some l end) = l.
Proof using Type. by destruct l. Qed.

(** A variant comes back, with enough fuel for its props. *)
Lemma variant_imports fuel :
  views g SchemaVariantSpec.as_node_with_children (SiPkgSchemaVariant.from_graph g)
    (λ v s, SiPkgSchemaVariant.to_spec fuel g v = Some (Ok (imported_variant s)))
    (λ s, variant_ok s ∧ nodes_of (SchemaVariantSpec.as_node_with_children s) ≤ fuel).
Proof using Type.
  eapply views_node; [done|]. intros v s [[Hd Hr] Hf] Hs Hn.
  assert (∀ root r, root_prop s root = Some r → nodes_of (PropSpec.as_node_with_children r) ≤ S fuel)
    as Hfuel.
  { intros root r Hroot. destruct (root_child_unique s root r Hroot) as [Hin _].
    apply (nodes_of_child _ Tree (root_inner (SchemaVariantSpec.as_node_with_children s))) in Hin.
    simpl in Hf, Hin. lia. }
  unfold SiPkgSchemaVariant.to_spec, SiPkgSchemaVariant.to_builder.
  destruct (variant_action_funcs v s Hs) as (vs1 & -> & H1).
  destruct (variant_sockets v s Hs) as (vs2 & -> & H2).
  destruct (variant_si_prop_funcs v s Hs) as (vs3 & -> & H3).
  simpl. rewrite H2. simpl. rewrite H3, H1, Hn. cbn [run_then mbind result_bind].
  rewrite (build_root v s Domain _ fuel _ Hs eq_refl Hd (Hfuel Domain _ eq_refl)).
  edestruct (domain_added (E := SiPkgError)) as (dom & -> & Hdom). cbn [run_then].
  rewrite (build_root v s ResourceValue _ fuel _ Hs eq_refl Hr (Hfuel ResourceValue _ eq_refl)).
  edestruct (resource_value_added (E := SiPkgError)) as (rv & -> & Hrv). simpl.
  unfold imported_variant. rewrite Hdom, Hrv, !default_set. simpl.
  by destruct (SchemaVariantSpec.data s), (SchemaVariantSpec.unique_id s).
Qed.

End variants.

(** ** Schemas, change sets and packages *)

Section packages.
Context `{B : Blake3} `{P : Petgraph} `{A : TarArchive} {X : Externals}.
Context (g : Graph (HashedNode PkgNode)) (fuel : nat).

Lemma run_map_into {S V I} (into : V → run (fault SiPkgError) I) (imp : S → I) vs l :
  Forall2 (λ v s, into v = Some (Ok (imp s))) vs (reverse l) →
  run_map into vs = Some (Ok (reverse (imp <$> l))).
Proof using Type. intros H. apply run_map_ok. rewrite <- fmap_reverse. by rewrite Forall2_fmap_r. Qed.

(** The fuel for a tree is enough for its parts. *)
Lemma parts_fuel {S} (as_node : S → NodeWithChildren PkgNode) (ok : S → Prop) k a l :
  Forall ok l → nodes_of (NodeWithChildren_new k a (as_node <$> l)) ≤ fuel →
  Forall (λ s, ok s ∧ nodes_of (as_node s) ≤ fuel) l.
Proof using Type.
  rewrite !Forall_forall. intros Hok Hf s Hs. split; [by apply Hok|].
  apply (list_elem_of_fmap_2 as_node), (nodes_of_child _ k a) in Hs. lia.
Qed.

Lemma schema_imports :
  views g SchemaSpec.as_node_with_children (SiPkgSchema.from_graph g)
    (λ v s, SiPkgSchema.to_spec fuel g v = Some (Ok (imported_schema s)))
    (λ s, schema_ok s ∧ nodes_of (SchemaSpec.as_node_with_children s) ≤ fuel).
Proof using Type.
  eapply views_node; [done|]. intros v s [Hok Hf] Hs Hn.
  destruct (children_viewed g _ _ _ _ _ _ _ _ (variant_imports g fuel) Hs) as (vs & Hvs & Hin);
    [by eapply parts_fuel|done|]. apply run_map_into in Hin.
  unfold SiPkgSchema.to_spec, SiPkgSchema.variants. rewrite Hvs. cbn [run_then].
  rewrite Hin. simpl. rewrite Hn. unfold imported_schema. simpl.
  by destruct (SchemaSpec.data s).
Qed.

Lemma change_set_imports :
  views g ChangeSetSpec.as_node_with_children (SiPkgChangeSet.from_graph g)
    (λ v s, SiPkgChangeSet.to_spec fuel g v = Some (Ok (imported_change_set s)))
    (λ s, change_set_ok s ∧ nodes_of (ChangeSetSpec.as_node_with_children s) ≤ fuel).
Proof using Type.
  eapply views_node; [done|]. intros v s [Hok Hf] Hs Hn.
  below (func_imports g) Hs (SiPkgChangeSet.is_child ChangeSetChildNode.Funcs)
    (ChangeSetChild ChangeSetChildNode.Funcs) (ChangeSetSpec.funcs s)
    (Forall_always (ChangeSetSpec.funcs s)) vs Hvs Hin.
  apply try_map_into in Hin. rewrite fmap_reverse in Hin.
  assert (Forall (λ s, schema_ok s ∧ nodes_of (SchemaSpec.as_node_with_children s) ≤ fuel)
    (ChangeSetSpec.schemas s)) as Hoks.
  { eapply (parts_fuel _ _ Tree (ChangeSetChild ChangeSetChildNode.Schemas)); [exact Hok|].
    etrans; [|exact Hf]. apply Nat.lt_le_incl, nodes_of_child. in_children. }
  below schema_imports Hs (SiPkgChangeSet.is_child ChangeSetChildNode.Schemas)
    (ChangeSetChild ChangeSetChildNode.Schemas) (ChangeSetSpec.schemas s) Hoks vs' Hvs' Hin'.
  apply run_map_into in Hin'.
  unfold SiPkgChangeSet.to_spec, SiPkgChangeSet.funcs, SiPkgChangeSet.schemas.
  rewrite Hvs. cbn [run_then]. rewrite Hin. cbn [run_then]. rewrite Hvs'. cbn [run_then].
  rewrite Hin'. simpl. by rewrite Hn.
Qed.

(** The parts of a package below one of its categories. *)
Lemma category_viewed {S V} (as_node : S → NodeWithChildren PkgNode) from (R : V → S → Prop) ok
    c l i k a cs :
  views g as_node from R ok → shows g i (NodeWithChildren_new k (Package a) cs) → Forall ok l →
  PackageSpec.category c (as_node <$> l) ∈ cs →
  (∀ c', c' ∈ cs → SiPkg.is_category c (root_inner c') = true →
    c' = PackageSpec.category c (as_node <$> l)) →
  ∃ vs, (node_idxs ← SiPkg.category_node_idxs c g i; try_map from node_idxs) = Ok vs ∧
        Forall2 R vs (reverse l).
Proof using Type.
  intros Hv Hs Hok Hin Hone.
  destruct (child_found g (SiPkg.is_category c) _ _ _ _ _ Hs eq_refl Hin) as (j & Hj & Hsj);
    [by apply bool_decide_eq_true|done|].
  unfold SiPkg.category_node_idxs. rewrite Hj. simpl.
  by apply (children_viewed g as_node from R ok Tree (Category c)).
Qed.

Lemma category_none {V} (from : nat → result (fault SiPkgError) V) c i k a cs :
  shows g i (NodeWithChildren_new k (Package a) cs) →
  (∀ c', c' ∈ cs → SiPkg.is_category c (root_inner c') = false) →
  (node_idxs ← SiPkg.category_node_idxs c g i; try_map from node_idxs) = Ok [].
Proof using Type.
  intros Hs Hno. pose proof (below_none (SiPkg.is_category c) g from i _ _ _ Hs eq_refl Hno) as H.
  unfold entries_below in H. unfold SiPkg.category_node_idxs.
  destruct (find_node g (SiPkg.is_category c) (neighbors_outgoing g i)) as [[j|]|]; done.
Qed.

Lemma package_metadata root s :
  shows g root (PackageSpec.as_node_with_children s) →
  ∃ v, SiPkg.metadata {| SiPkg.tree := {| graph := g; root_idx := root |} |} = Ok v ∧
       node v = PackageSpec.package_node s.
Proof using Type.
  intros Hs. destruct (view_shown (str "package")
    (λ n, match n with Package node => Some node | _ => None end) g root _ _ Hs eq_refl)
    as (v & Hv & Hn & _). eauto.
Qed.

(** The package at [root]. *)
Definition package_at (root : nat) : SiPkg.t :=
  {| SiPkg.tree := {| graph := g; root_idx := root |} |}.

Ltac category Himp Hs c l Hok vs Hvs Hin :=
  destruct (category_viewed _ _ _ _ c l _ _ _ _ Himp Hs Hok) as (vs & Hvs & Hin);
  [in_children|only_child|].

Lemma module_imports root s :
  shows g root (PackageSpec.as_node_with_children s) → PackageSpec.kind s = SiPkgKind.Module_ →
  package_ok s → nodes_of (PackageSpec.as_node_with_children s) ≤ fuel →
  SiPkg.to_spec fuel (package_at root) = Some (Ok (imported_package s)).
Proof using Type.
  intros Hs Hk [Hok _] Hf. destruct (package_metadata root s Hs) as (v & Hv & Hn).
  unfold PackageSpec.as_node_with_children in Hs, Hf. rewrite Hk in Hs, Hf.
  category (func_imports g) Hs CategoryNode.Funcs (PackageSpec.funcs s)
    (Forall_always (PackageSpec.funcs s)) fs Hfs Hfin.
  apply try_map_into in Hfin. rewrite fmap_reverse in Hfin.
  assert (Forall (λ s, schema_ok s ∧ nodes_of (SchemaSpec.as_node_with_children s) ≤ fuel)
    (PackageSpec.schemas s)) as Hoks.
  { eapply (parts_fuel _ _ Tree (Category CategoryNode.Schemas)); [exact Hok|].
    etrans; [|exact Hf]. apply Nat.lt_le_incl, nodes_of_child. in_children. }
  category schema_imports Hs CategoryNode.Schemas (PackageSpec.schemas s) Hoks ss Hss Hsin.
  apply run_map_into in Hsin.
  unfold SiPkg.to_spec, SiPkg.funcs, SiPkg.schemas, package_at. rewrite Hv. simpl.
  rewrite Hfs. cbn [run_then]. rewrite Hfin. cbn [run_then]. rewrite Hss. cbn [run_then].
  rewrite Hsin. simpl. rewrite Hn. simpl. unfold imported_package. by rewrite Hk.
Qed.

Lemma backup_imports root s :
  shows g root (PackageSpec.as_node_with_children s) →
  PackageSpec.kind s = SiPkgKind.WorkspaceBackup →
  package_ok s → nodes_of (PackageSpec.as_node_with_children s) ≤ fuel →
  SiPkg.to_spec fuel (package_at root) = Some (Ok (imported_package s)).
Proof using Type.
  intros Hs Hk [_ Hok] Hf. destruct (package_metadata root s Hs) as (v & Hv & Hn).
  unfold PackageSpec.as_node_with_children in Hs, Hf. rewrite Hk in Hs, Hf.
  assert (Forall (λ s, change_set_ok s ∧ nodes_of (ChangeSetSpec.as_node_with_children s) ≤ fuel)
    (PackageSpec.change_sets s)) as Hoks.
  { eapply (parts_fuel _ _ Tree (Category CategoryNode.ChangeSets)); [exact Hok|].
    etrans; [|exact Hf]. apply Nat.lt_le_incl, nodes_of_child. in_children. }
  category change_set_imports Hs CategoryNode.ChangeSets (PackageSpec.change_sets s) Hoks cs Hcs Hin.
  apply run_map_into in Hin.
  unfold SiPkg.to_spec, SiPkg.funcs, SiPkg.schemas, package_at. rewrite Hv. simpl.
  rewrite (category_none _ _ _ _ _ _ Hs) by only_child. simpl.
  rewrite (category_none _ _ _ _ _ _ Hs) by only_child. simpl. rewrite Hn. simpl.
  unfold SiPkg.backup_change_sets, SiPkg.change_sets. rewrite Hk. simpl. rewrite Hcs.
  cbn [run_then]. rewrite Hin. simpl. unfold imported_package. by rewrite Hk.
Qed.

Lemma package_imports root s :
  shows g root (PackageSpec.as_node_with_children s) → package_ok s →
  nodes_of (PackageSpec.as_node_with_children s) ≤ fuel →
  SiPkg.to_spec fuel (package_at root) = Some (Ok (imported_package s)).
Proof using Type.
  intros. destruct (PackageSpec.kind s) eqn:Hk; [by apply module_imports|by apply backup_imports].
Qed.

End packages.

(** ** Theorems *)

Section theorems.
Context `{B : Blake3} `{P : Petgraph} `{PO : !PetgraphOk P} `{A : TarArchive} {X : Externals}.

(** C5: A specification is imported from the package made from it: making the
    package succeeds, and turning it back into a specification ends and gives
    every function, schema, variant and prop again, in the reverse order, less
    the fields that [imported_package] lists as lost. Hypotheses: every node can
    be written, the tree fits the index type, and the props of each variant
    can be told apart by their paths. *)
Theorem package_import spec fuel :
  writable (node_tree (PackageSpec.as_node_with_children spec)) →
  (N.of_nat (nodes_of (PackageSpec.as_node_with_children spec)) ≤ index_end)%N →
  package_ok spec → nodes_of (PackageSpec.as_node_with_children spec) ≤ fuel →
  ∃ pkg, SiPkg.load_from_spec spec = Some (Ok pkg) ∧
    SiPkg.to_spec fuel pkg = Some (Ok (imported_package spec)).
Proof using PO.
  intros Hw Hsz Hok Hf. destruct (create_from_root_spec _ Hw Hsz) as ([g root] & Ho & Hr).
  exists (package_at g root). split; [unfold SiPkg.load_from_spec; by rewrite Ho|].
  apply package_imports; [|done..]. by apply represents_shows.
Qed.

(** Whatever is done at a prop, visiting the props of a schema variant ends
    and does it once for every prop below the root, each before the props below
    it and with what was returned for its parent, the last sibling first; the
    first error ends the visit. *)
Theorem visit_prop_tree_is_a_walk (g : Graph (HashedNode PkgNode)) v s root r :
  shows g (source v) (SchemaVariantSpec.as_node_with_children s) → root_prop s root = Some r →
  ∃ t, tree_views g t r ∧
    ∀ I C E (from_error : SiPkgError → E)
      (process : SiPkgProp.t → option I → C → result (fault E) (option I * C)) fuel info c,
      nodes_of (PropSpec.as_node_with_children r) ≤ S fuel →
      SiPkgSchemaVariant.visit_prop_tree from_error process fuel g v root info c =
        Some (walk_forest process (subtrees t) info c).
Proof using Type. apply visit_root. Qed.

(** An edge is listed with the node of its specification, and is not converted
    back. *)
Definition edge_listed (e : view EdgeNode.t) (s : EdgeSpec.t) : Prop :=
  EdgeSpec.as_node_with_children s = NodeWithChildren_new Leaf (Edge (node e)) [] ∧
  SiPkgEdge.try_into_spec e = Err (Fault (Spec (UninitializedField "edge_kind"))).

(** The components of a change set are listed and come back with the values
    of their sockets among their attributes; its edges are listed but none of
    them comes back: an edge is converted without its kind, and the conversion
    fails for that. *)
Theorem change_set_contents_import (g : Graph (HashedNode PkgNode)) v s :
  shows g (source v) (ChangeSetSpec.as_node_with_children s) →
  (∃ components, SiPkgChangeSet.components g v = Ok components ∧
     try_map (SiPkgComponent.try_into_spec g) components =
       Ok (reverse (imported_component <$> ChangeSetSpec.components s))) ∧
  ∃ edges, SiPkgChangeSet.edges g v = Ok edges ∧
    Forall2 edge_listed edges (reverse (ChangeSetSpec.edges s)).
Proof using Type.
  intros Hs. split.
  - below (component_imports g) Hs (SiPkgChangeSet.is_child ChangeSetChildNode.Components)
      (ChangeSetChild ChangeSetChildNode.Components) (ChangeSetSpec.components s)
      (Forall_always (ChangeSetSpec.components s)) vs Hvs Hin.
    exists vs. split; [done|]. apply try_map_into in Hin. by rewrite Hin, fmap_reverse.
  - assert (views g EdgeSpec.as_node_with_children (SiPkgEdge.from_graph g) edge_listed
      (λ _, True)) as Hv.
    { eapply views_node; [done|]. intros e s' _ _ Hn. unfold edge_listed. by rewrite Hn. }
    below Hv Hs (SiPkgChangeSet.is_child ChangeSetChildNode.Edges)
      (ChangeSetChild ChangeSetChildNode.Edges) (ChangeSetSpec.edges s)
      (Forall_always (ChangeSetSpec.edges s)) vs Hvs Hin.
    eauto.
Qed.

End theorems.

(** ** Witnesses *)

Section witnesses.
#[local] Existing Instance sample_blake3.
#[local] Existing Instance sample_externals.
#[local] Existing Instance list_petgraph.
#[local] Existing Instance list_petgraph_ok.
#[local] Existing Instance list_tar.

(** A prop with everything that can be set. *)
Definition sample_data (name : string) : PropSpec.PropSpecData :=
  {| PropSpec.data_name := str name; PropSpec.default_value := Some true;
     PropSpec.validations := Some [ValidationSpec.StringIsNotEmpty None false];
     PropSpec.func_unique_id := Some (str "f");
     PropSpec.inputs := Some [AttrFuncInputSpec.Prop_ (str "i") (str "/root") None false];
     PropSpec.widget_kind := None; PropSpec.widget_options := None;
     PropSpec.hidden := Some true; PropSpec.doc_link := None |}.

Definition sample_domain : PropSpec.t :=
  PropSpec.Object (str "domain") None None
    [PropSpec.Object (str "a") (Some (sample_data "a")) (Some (str "u"))
       [PropSpec.Number (str "b") (Some (sample_data "b")) None;
        PropSpec.Array (str "c") None None (PropSpec.String_ (str "d") None None)];
     PropSpec.Map (str "e") None None (PropSpec.Boolean (str "f") (Some (sample_data "f")) None)
       (Some [{| MapKeyFuncSpec.key := str "k"; MapKeyFuncSpec.func_unique_id := str "g";
                 MapKeyFuncSpec.inputs := [] |}])].

Definition sample_variant : SchemaVariantSpec.t :=
  {| SchemaVariantSpec.name := str "v0"; SchemaVariantSpec.data := None;
     SchemaVariantSpec.unique_id := None; SchemaVariantSpec.deleted := false;
     SchemaVariantSpec.action_funcs := []; SchemaVariantSpec.leaf_functions := [];
     SchemaVariantSpec.sockets :=
       [{| SocketSpec.name := str "s"; SocketSpec.data := None;
           SocketSpec.inputs := [AttrFuncInputSpec.Prop_ (str "i") (str "/root") None false];
           SocketSpec.unique_id := None |}];
     SchemaVariantSpec.si_prop_funcs := []; SchemaVariantSpec.domain := sample_domain;
     SchemaVariantSpec.secrets := SchemaVariantSpecBuilder.default_secrets;
     SchemaVariantSpec.secret_definition := None;
     SchemaVariantSpec.resource_value := SchemaVariantSpecBuilder.default_resource_value |}.

Definition sample_package : PackageSpec.t :=
  {| PackageSpec.kind := SiPkgKind.Module_; PackageSpec.name := str "p";
     PackageSpec.version := str "1"; PackageSpec.description := [];
     PackageSpec.created_at := str "now"; PackageSpec.created_by := str "me";
     PackageSpec.default_change_set := None; PackageSpec.workspace_pk := None;
     PackageSpec.workspace_name := None;
     PackageSpec.schemas :=
       [{| SchemaSpec.name := str "s"; SchemaSpec.data := None; SchemaSpec.unique_id := None;
           SchemaSpec.deleted := true; SchemaSpec.variants := [sample_variant] |}];
     PackageSpec.funcs :=
       [{| FuncSpec.name := str "f"; FuncSpec.unique_id := str "u"; FuncSpec.data := None;
           FuncSpec.deleted := false; FuncSpec.is_from_builtin := Some true;
           FuncSpec.arguments := [] |}];
     PackageSpec.change_sets := [] |}.

Lemma check_writable (t : tree (Node PkgNode)) :
  forallb (λ s, is_ok (inner_write_bytes (inner (label s)))) (descendants t) = true → writable t.
Proof.
  intros H s Hs. rewrite forallb_forall in H. by apply H, list_elem_of_In.
Qed.

Lemma sample_package_ok : package_ok sample_package.
Proof.
  split; [|constructor]. repeat constructor; simpl; set_solver.
Qed.

Lemma package_import_witness :
  ∃ pkg, SiPkg.load_from_spec sample_package = Some (Ok pkg) ∧
    SiPkg.to_spec 100 pkg = Some (Ok (imported_package sample_package)).
Proof.
  apply package_import.
  - apply check_writable. by vm_compute.
  - by vm_compute.
  - apply sample_package_ok.
  - by apply Nat.leb_le; vm_compute.
Defined.

(** A graph that shows a tree. *)
Lemma shown_somewhere (n : NodeWithChildren PkgNode) :
  forallb (λ s, is_ok (inner_write_bytes (inner (label s)))) (descendants (node_tree n)) = true →
  (N.of_nat (nodes_of n) <=? index_end)%N = true →
  ∃ g i, shows g i n.
Proof.
  intros Hw%check_writable Hsz%N.leb_le.
  destruct (create_from_root_spec _ Hw Hsz) as ([g root] & _ & Hr).
  exists g, root. by apply represents_shows.
Qed.

Definition view_at {N} (n : N) (i : nat) : view N :=
  {| node := n; view_hash := sample_bits 1; source := i |}.

Lemma visit_prop_tree_is_a_walk_witness :
  ∃ g v t, shows g (source v) (SchemaVariantSpec.as_node_with_children sample_variant) ∧
    tree_views g t sample_domain ∧
    SiPkgSchemaVariant.visit_prop_tree id (λ p info names, Ok (info, SiPkgProp.name p :: names))
      100 g v Domain (None : option unit) [] =
      Some (walk_forest (λ p info names, Ok (info, SiPkgProp.name p :: names)) (subtrees t)
              (None : option unit) []).
Proof.
  destruct (shown_somewhere (SchemaVariantSpec.as_node_with_children sample_variant))
    as (g & i & Hs); [by vm_compute|by vm_compute|].
  pose (v := view_at {| SchemaVariantNode.name := []; SchemaVariantNode.data := None;
    SchemaVariantNode.unique_id := None; SchemaVariantNode.deleted := false |} i).
  destruct (visit_prop_tree_is_a_walk g v sample_variant Domain sample_domain Hs eq_refl)
    as (t & Ht & Hw).
  exists g, v, t. split_and!; [done|done|]. apply Hw. by apply Nat.leb_le; vm_compute.
Defined.

Definition sample_change_set : ChangeSetSpec.t :=
  {| ChangeSetSpec.name := str "c"; ChangeSetSpec.based_on_change_set := None;
     ChangeSetSpec.status := ChangeSetSpecStatus.Open; ChangeSetSpec.components := [];
     ChangeSetSpec.schemas := []; ChangeSetSpec.funcs := [];
     ChangeSetSpec.edges :=
       [{| EdgeSpec.edge_kind := EdgeSpecKind.Configuration;
           EdgeSpec.from_component_unique_id := str "a"; EdgeSpec.from_socket_name := str "o";
           EdgeSpec.to_component_unique_id := str "b"; EdgeSpec.to_socket_name := str "i";
           EdgeSpec.creation_user_pk := None; EdgeSpec.deletion_user_pk := None;
           EdgeSpec.deleted_implicitly := false; EdgeSpec.unique_id := str "e";
           EdgeSpec.deleted := false |}] |}.

Lemma change_set_contents_import_witness :
  ∃ g v, shows g (source v) (ChangeSetSpec.as_node_with_children sample_change_set) ∧
    ∃ e, SiPkgChangeSet.edges g v = Ok [e] ∧
      SiPkgEdge.try_into_spec e = Err (Fault (Spec (UninitializedField "edge_kind"))).
Proof.
  destruct (shown_somewhere (ChangeSetSpec.as_node_with_children sample_change_set))
    as (g & i & Hs); [by vm_compute|by vm_compute|].
  pose (v := view_at {| ChangeSetNode.name := []; ChangeSetNode.based_on_change_set := None;
    ChangeSetNode.status := ChangeSetSpecStatus.Open |} i).
  destruct (change_set_contents_import g v sample_change_set Hs) as [_ (es & Hes & Hall)].
  exists g, v. split; [done|]. apply Forall2_cons_inv_r in Hall as (e & l & [_ He] & Hl & ->).
  apply Forall2_nil_inv_r in Hl as ->. by exists e.
Defined.

End witnesses.
