(* ===== verification/CouncilNode.v ===== *)
(** * The council: who may create and who may process attribute values

    Model of [src/lib/council-server]: the value creation queue and the
    dependency graph of [server/graph.rs], the per-node bookkeeping of
    [server/graph/node_metadata.rs] and the message loop of [server.rs].
    Jobs are known by their reply channel. *)

From S2P Require Import Prelude.
From stdpp Require Import base tactics list gmap strings sorting.

(** ** Names, time and iteration order *)

(** [Id(Ulid)]: a 128-bit identifier, compared and hashed only. *)
Abbreviation Id := N (only parsing).
(** A reply channel, a Rust [String]. *)
Abbreviation channel := string (only parsing).
(** [std::time::Instant], compared only. *)
Abbreviation Instant := N (only parsing).

(** What the code reads from the outside: the value of the [n]-th call of
    [Instant::now()], and the order in which a [HashMap] with the given keys
    (a [HashSet] with the given elements) is iterated. *)
Class Env := {
  instant_at : nat → Instant;
  key_order : list Id → list Id;
  channel_order : list channel → list channel;
}.

(** What the standard library documents of them: [Instant] is monotonically
    nondecreasing; iteration visits every key once, in an arbitrary order. *)
Class EnvOk (E : Env) : Prop := {
  instant_mono n m : n ≤ m → (instant_at n ≤ instant_at m)%N;
  key_order_perm ks : key_order ks ≡ₚ ks;
  channel_order_perm cs : channel_order cs ≡ₚ cs;
}.

(** Two of the first [n] readings of the clock gave the same instant, which the
    documentation of [Instant] allows. *)
Definition coincided `{E : Env} (n : nat) : Prop :=
  ∃ i j, i < j ∧ j < n ∧ instant_at i = instant_at j.

Lemma coincided_mono `{E : Env} n m : n ≤ m → coincided n → coincided m.
Proof. intros ? (i & j & ? & ? & ?). exists i, j. split_and!; [done|lia|done]. Qed.

(** [server::Error], without the variants that wrap other crates' errors
    (they are raised only while connecting). *)
Inductive Error : Type :=
| ShouldNotBeProcessingByJob
| UnexpectedJobId
| UnknownNodeId.

(** An operation fails with an error value, or by panicking ([unwrap] of a
    [None] or of an [Err]). *)
Abbreviation fault := (Prelude.fault Error) (only parsing).

#[export] Instance Error_eq_dec : EqDecision Error.
Proof. solve_decision. Defined.

(** ** ValueCreationQueue *)

Module Queue.

Record ValueCreationQueue := {
  processing : option channel;
  queue : list channel;
}.

Definition default : ValueCreationQueue := {| processing := None; queue := [] |}.

Definition push (q : ValueCreationQueue) (rc : channel) : ValueCreationQueue :=
  {| processing := processing q; queue := queue q ++ [rc] |}.

Definition is_busy (q : ValueCreationQueue) : bool :=
  match processing q with Some _ => true | None => false end.

Definition fetch_next (q : ValueCreationQueue) : option channel * ValueCreationQueue :=
  if is_busy q then (None, q) else
  match queue q with
  | [] => (None, {| processing := None; queue := [] |})
  | next :: rest => (Some next, {| processing := Some next; queue := rest |})
  end.

Definition finished_processing (q : ValueCreationQueue) (rc : channel) :
    result fault () * ValueCreationQueue :=
  if decide (processing q = Some rc)
  then (Ok (), {| processing := None; queue := queue q |})
  else (Err (Fault UnexpectedJobId), q).

Definition remove (q : ValueCreationQueue) (rc : channel) : ValueCreationQueue :=
  {| processing := match processing q with
                   | Some el => if decide (el = rc) then None else Some el
                   | None => None
                   end;
     queue := filter (λ el, rc ≠ el) (queue q) |}.

End Queue.

(** ** NodeMetadata *)

Module Node.

Record NodeMetadata := {
  wanted_by_reply_channels : list channel;
  processing_reply_channel : option channel;
  depends_on_node_ids : gset Id;
  processing_started_at : option Instant;
  last_updated_at : Instant;
}.

Section node.
Context `{E : Env}.

(** Every operation that reads the clock takes the number of readings made so
    far and returns the number made after it. *)
Definition default (n : nat) : NodeMetadata * nat :=
  ({| wanted_by_reply_channels := [];
      processing_reply_channel := None;
      depends_on_node_ids := ∅;
      processing_started_at := None;
      last_updated_at := instant_at n |}, S n).

Definition add_wanted_by_reply_channel (md : NodeMetadata) (rc : channel) (n : nat) :
    NodeMetadata * nat :=
  ({| wanted_by_reply_channels := wanted_by_reply_channels md ++ [rc];
      processing_reply_channel := processing_reply_channel md;
      depends_on_node_ids := depends_on_node_ids md;
      processing_started_at := processing_started_at md;
      last_updated_at := instant_at n |}, S n).

Definition dependencies_satisfied (md : NodeMetadata) : bool :=
  bool_decide (depends_on_node_ids md = ∅).

Definition depends_on (md : NodeMetadata) (node_id : Id) : bool :=
  bool_decide (node_id ∈ depends_on_node_ids md).

Definition is_empty (md : NodeMetadata) : bool :=
  bool_decide (wanted_by_reply_channels md = []) &&
  bool_decide (processing_reply_channel md = None).

Definition is_processing_stale (md : NodeMetadata) : bool :=
  match processing_started_at md with
  | Some started => (started <? last_updated_at md)%N
  | None => false
  end.

Definition take_processing (md : NodeMetadata) : NodeMetadata :=
  {| wanted_by_reply_channels := wanted_by_reply_channels md;
     processing_reply_channel := None;
     depends_on_node_ids := depends_on_node_ids md;
     processing_started_at := processing_started_at md;
     last_updated_at := last_updated_at md |}.

Definition mark_as_processed (md : NodeMetadata) (rc : channel) (n : nat) :
    result fault (bool * gset channel) * NodeMetadata * nat :=
  if decide (processing_reply_channel md = Some rc) then
    let md1 := take_processing md in
    if is_processing_stale md1 then
      let '(md2, n2) := add_wanted_by_reply_channel md1 rc n in
      (Ok (false, ∅), md2, n2)
    else if dependencies_satisfied md1 then
      (Ok (true, list_to_set (wanted_by_reply_channels md1) ∪ {[rc]}), md1, n)
    else (Ok (false, ∅), md1, n)
  else (Err (Fault ShouldNotBeProcessingByJob), md, n).

Definition merge_metadata (md : NodeMetadata) (rc : channel) (dependencies : list Id)
    (n : nat) : NodeMetadata * nat :=
  ({| wanted_by_reply_channels :=
        if decide (rc ∈ wanted_by_reply_channels md)
        then wanted_by_reply_channels md
        else wanted_by_reply_channels md ++ [rc];
      processing_reply_channel := processing_reply_channel md;
      depends_on_node_ids := depends_on_node_ids md ∪ list_to_set dependencies;
      processing_started_at := processing_started_at md;
      last_updated_at := instant_at n |}, S n).

Definition next_to_process (md : NodeMetadata) (n : nat) :
    option channel * NodeMetadata * nat :=
  if decide (depends_on_node_ids md = ∅ ∧ processing_reply_channel md = None) then
    match wanted_by_reply_channels md with
    | rc :: rest =>
        (Some rc,
         {| wanted_by_reply_channels := rest;
            processing_reply_channel := Some rc;
            depends_on_node_ids := depends_on_node_ids md;
            processing_started_at := Some (instant_at (S n));
            last_updated_at := instant_at n |}, S (S n))
    | [] =>
        (None,
         {| wanted_by_reply_channels := [];
            processing_reply_channel := None;
            depends_on_node_ids := depends_on_node_ids md;
            processing_started_at := None;
            last_updated_at := instant_at n |}, S n)
    end
  else (None, md, n).

Definition remove_channel (md : NodeMetadata) (rc : channel) (n : nat) :
    NodeMetadata * nat :=
  ({| wanted_by_reply_channels := filter (λ el, el ≠ rc) (wanted_by_reply_channels md);
      processing_reply_channel :=
        match processing_reply_channel md with
        | Some el => if decide (el = rc) then None else Some el
        | None => None
        end;
      depends_on_node_ids := depends_on_node_ids md;
      processing_started_at := processing_started_at md;
      last_updated_at := instant_at n |}, S n).

Definition remove_dependency (md : NodeMetadata) (node_id : Id) (n : nat) :
    NodeMetadata * nat :=
  if decide (node_id ∈ depends_on_node_ids md) then
    ({| wanted_by_reply_channels := wanted_by_reply_channels md;
        processing_reply_channel := processing_reply_channel md;
        depends_on_node_ids := depends_on_node_ids md ∖ {[node_id]};
        processing_started_at := processing_started_at md;
        last_updated_at := instant_at n |}, S n)
  else (md, n).

End node.

End Node.

(** ** The bookkeeping of a node *)

Module NodeFacts.
Import Node.

(** The invariant of a node after [n] readings of the clock: its instants are
    readings, and a job that is processing it with up-to-date inputs does so
    without unsatisfied dependencies, unless the clock gave one instant twice. *)
Record node_wf `{E : Env} (n : nat) (md : NodeMetadata) : Prop := {
  wf_updated : ∃ i, i < n ∧ last_updated_at md = instant_at i;
  wf_started s : processing_started_at md = Some s → ∃ i, i < n ∧ s = instant_at i;
  wf_processing c : processing_reply_channel md = Some c →
    ∃ s, processing_started_at md = Some s ∧
         ((last_updated_at md ≤ s)%N → depends_on_node_ids md = ∅ ∨ coincided n);
}.

(** The invariant, of a node that some job wants or processes, unless the clock
    gave one instant twice. *)
Definition node_ok `{E : Env} (n : nat) (md : NodeMetadata) : Prop :=
  node_wf n md ∧ (is_empty md = false ∨ coincided n).

Section basic.
Context `{E : Env}.
Implicit Types (md : NodeMetadata) (n : nat).

Lemma is_empty_false md :
  is_empty md = false ↔
  wanted_by_reply_channels md ≠ [] ∨ ∃ c, processing_reply_channel md = Some c.
Proof.
  unfold is_empty. rewrite andb_false_iff, !bool_decide_eq_false.
  destruct (processing_reply_channel md); naive_solver.
Qed.

(** Granting a node moves its first waiting job to the processing slot. *)
Lemma next_to_process_some n md rc :
  (next_to_process md n).1.1 = Some rc ↔
  depends_on_node_ids md = ∅ ∧ processing_reply_channel md = None ∧
  head (wanted_by_reply_channels md) = Some rc.
Proof.
  unfold next_to_process. case_decide; [|naive_solver].
  destruct (wanted_by_reply_channels md); naive_solver.
Qed.

Lemma next_to_process_depends n md :
  depends_on_node_ids (next_to_process md n).1.2 = depends_on_node_ids md.
Proof. unfold next_to_process. case_decide; [by case_match|done]. Qed.

Lemma next_to_process_readings n md : n ≤ (next_to_process md n).2.
Proof. unfold next_to_process. case_decide; [case_match|]; simpl; lia. Qed.

Lemma mark_as_processed_err n md rc :
  processing_reply_channel md ≠ Some rc →
  mark_as_processed md rc n = (Err (Fault ShouldNotBeProcessingByJob), md, n).
Proof. intros ?. unfold mark_as_processed. by rewrite decide_False. Qed.

Lemma remove_dependency_depends n md id :
  depends_on_node_ids (remove_dependency md id n).1 = depends_on_node_ids md ∖ {[id]}.
Proof. unfold remove_dependency. case_decide; simpl; [done|set_solver]. Qed.

Lemma remove_dependency_readings n md id : n ≤ (remove_dependency md id n).2.
Proof. unfold remove_dependency. case_decide; simpl; lia. Qed.

End basic.

Section facts.
Context `{EO : EnvOk}.
Implicit Types (md : NodeMetadata) (n : nat).

Lemma node_wf_mono n m md : n ≤ m → node_wf n md → node_wf m md.
Proof using Type.
  intros Hnm [(i & ? & ?) H2 H3]. split.
  - exists i. split; [lia|done].
  - intros s (j & ? & ?)%H2. exists j. split; [lia|done].
  - intros c (s & Hs & Hd)%H3. exists s. split; [done|]. intros [?|?]%Hd; eauto using coincided_mono.
Qed.

Lemma node_ok_mono n m md : n ≤ m → node_ok n md → node_ok m md.
Proof using Type.
  intros ? [? Hne]. split; [by eapply node_wf_mono|]. destruct Hne; eauto using coincided_mono.
Qed.

(** A node that is updated now is stale, or the instant is that of its start. *)
Lemma node_wf_updated n md md' : node_wf n md →
  processing_started_at md' = processing_started_at md → last_updated_at md' = instant_at n →
  (∀ c, processing_reply_channel md' = Some c → is_Some (processing_reply_channel md)) → node_wf (S n) md'.
Proof.
  intros [_ H2 H3] Hs Hu Hp. split; rewrite ?Hs.
  - exists n. split; [lia|done].
  - intros s (i & ? & ?)%H2. exists i. split; [lia|done].
  - intros c [c' Hc]%Hp. destruct (H3 c' Hc) as (s & Hs' & _). exists s. split; [done|]. rewrite Hu. intros Hle.
    right. destruct (H2 s Hs') as (i & Hi & ->). exists i, n. split_and!; [lia|lia|].
    apply N.le_antisymm; [apply instant_mono; lia|done].
Qed.

Lemma default_wf n : node_wf (S n) (Node.default n).1.
Proof using Type. split; simpl; [|done|done]. exists n. split; [lia|done]. Qed.

Lemma merge_metadata_ok n md rc deps :
  node_wf n md → node_ok (S n) (merge_metadata md rc deps n).1.
Proof.
  intros Hwf. split; [eapply node_wf_updated; eauto|left].
  apply is_empty_false; left; simpl. case_decide; [|by destruct wanted_by_reply_channels].
  by destruct wanted_by_reply_channels; [set_solver|].
Qed.

Lemma next_to_process_ok n md :
  node_ok n md → node_ok (next_to_process md n).2 (next_to_process md n).1.2.
Proof.
  intros [Hwf Hne]. unfold next_to_process. case_decide as Hd; [|done]. destruct Hd as [Hd Hp].
  destruct (wanted_by_reply_channels md) as [|c rest] eqn:Hw; simpl.
  - split; [split; simpl; [|done|done]; exists n; split; [lia|done]|right].
    destruct Hne as [Hne|Hc]; [|by eapply coincided_mono; [|done]; lia].
    apply is_empty_false in Hne as [Hne|[c Hc]]; congruence.
  - split; [split|]; simpl.
    + exists n. split; [lia|done].
    + intros s [= <-]. exists (S n). split; [lia|done].
    + intros _ _. exists (instant_at (S n)). auto.
    + left. apply is_empty_false; eauto.
Qed.

(** A job that reports a value is not forgotten: either the node is done and the
    job is told, or the job waits for it again; unless the clock gave one instant
    twice. *)
Lemma mark_as_processed_ok n md rc :
  node_ok n md → processing_reply_channel md = Some rc →
  (∃ cs md', mark_as_processed md rc n = (Ok (true, cs), md', n) ∧
     depends_on_node_ids md = ∅ ∧
     cs = list_to_set (wanted_by_reply_channels md) ∪ {[rc]}) ∨
  (∃ md', mark_as_processed md rc n = (Ok (false, ∅), md', S n) ∧
     node_ok (S n) md' ∧ rc ∈ wanted_by_reply_channels md' ∧
     depends_on_node_ids md' = depends_on_node_ids md) ∨
  (∃ md', mark_as_processed md rc n = (Ok (false, ∅), md', n) ∧ node_ok n md' ∧ coincided n).
Proof.
  intros [Hwf Hne] Hp. pose proof Hwf as [H1 H2 H3]. unfold mark_as_processed. rewrite decide_True by done.
  destruct (H3 rc Hp) as (s & Hs & Hdep).
  unfold is_processing_stale; simpl; rewrite Hs.
  destruct (N.ltb_spec s (last_updated_at md)) as [Hlt|Hge].
  - right. left. eexists. split; [done|]. simpl. split; [split|]; simpl; [|left|set_solver].
    + eapply node_wf_updated; [done|done|done|]. by intros c.
    + apply is_empty_false; left; simpl. by destruct wanted_by_reply_channels.
  - unfold dependencies_satisfied; simpl. case_bool_decide as Hd; [left; eauto 10|].
    right. right. destruct (Hdep Hge) as [?|Hc]; [done|]. eexists. split; [done|]. split; [|done].
    split; [|by right]. split; simpl; [done|done|done].
Qed.

Lemma remove_channel_wf n md rc :
  node_wf n md → node_wf (S n) (Node.remove_channel md rc n).1.
Proof.
  intros Hwf. eapply node_wf_updated; [done|done|done|]. simpl. destruct (processing_reply_channel md); eauto.
Qed.

Lemma remove_dependency_wf n md id :
  node_ok n md →
  node_ok (remove_dependency md id n).2 (remove_dependency md id n).1.
Proof.
  unfold remove_dependency. case_decide; [|done]. intros [Hwf Hne]. split; simpl.
  - eapply node_wf_updated; [done|done|done|]. simpl. eauto.
  - destruct Hne as [Hne|Hne]; [left|right; by eapply coincided_mono; [|done]; lia].
    by apply is_empty_false; apply is_empty_false in Hne.
Qed.

End facts.

End NodeFacts.

(** ** A concrete environment, for evaluation *)

(** A clock that advances by one at every reading, and maps that iterate in
    the order of their representation. *)
Definition tick_env : Env :=
  {| instant_at := N.of_nat; key_order := λ ks, ks; channel_order := λ cs, cs |}.

Lemma tick_env_ok : EnvOk tick_env.
Proof. split; simpl; [lia|done|done]. Qed.

Lemma tick_env_distinct n : ¬ @coincided tick_env n.
Proof. intros (i & j & ? & ? & ?). simpl in *. lia. Qed.

(** A clock that stands still, as a coarse one may for some readings. *)
Definition still_env : Env :=
  {| instant_at := λ _, 0%N; key_order := λ ks, ks; channel_order := λ cs, cs |}.

Lemma still_env_ok : EnvOk still_env.
Proof. split; simpl; [lia|done|done]. Qed.
