(* ===== verification/CouncilGraph.v ===== *)
(** * The council's dependency graph

    Model of [ChangeSetGraph] in [src/lib/council-server/src/server/graph.rs]:
    for every change set, the attribute values that still have to be computed,
    each with the jobs that want it, the job that is computing it and the
    values it depends on. *)

From S2P Require Import Prelude CouncilNode.
From stdpp Require Import base tactics list gmap strings sorting.
Import Node.

(** ** Iteration over a map whose entries are updated in place *)

(** [for (k, v) in map.iter_mut() { .. }] over the keys [ks]: [f] updates the
    entry, reads the clock and yields a result. *)
Fixpoint iter_mut {V B} (f : Id → V → nat → B * V * nat) (ks : list Id)
    (m : gmap Id V) (n : nat) : list (Id * B) * gmap Id V * nat :=
  match ks with
  | [] => ([], m, n)
  | k :: ks =>
      match m !! k with
      | None => iter_mut f ks m n
      | Some v =>
          let '(b, v', n1) := f k v n in
          let '(bs, m', n2) := iter_mut f ks (<[k := v']> m) n1 in
          ((k, b) :: bs, m', n2)
      end
  end.

(** The dependency data of one change set and of all of them. *)
Abbreviation node_graph := (gmap Id NodeMetadata) (only parsing).
Abbreviation ChangeSetGraph := (gmap Id (gmap Id NodeMetadata)) (only parsing).
(** [Graph = HashMap<Id, Vec<Id>>]: what a job registers. *)
Abbreviation Graph := (gmap Id (list Id)) (only parsing).

Module ChangeSets.

Section graph.
Context `{E : Env}.

(** The keys of a map in iteration order. *)
Definition keys {V} (m : gmap Id V) : list Id := key_order (map_to_list m).*1.

Definition is_empty (d : ChangeSetGraph) : bool := bool_decide (d = ∅).

(** The inner loop of [fetch_all_available], over one change set. *)
Definition fetch_available (g : node_graph) (n : nat) :
    list (channel * Id) * node_graph * nat :=
  let '(bs, g', n') := iter_mut (λ _ md n, next_to_process md n) (keys g) g n in
  (omap (λ '(id, o), (λ rc, (rc, id)) <$> o) bs, g', n').

Definition fetch_all_available (d : ChangeSetGraph) (n : nat) :
    list (channel * Id) * ChangeSetGraph * nat :=
  let '(bs, d', n') := iter_mut (λ _ g n, fetch_available g n) (keys d) d n in
  (concat bs.*2, d', n').

(** [entry(id).and_modify(merge).or_insert_with(default then merge)]. *)
Definition merge_entry (g : node_graph) (id : Id) (rc : channel)
    (dependencies : list Id) (n : nat) : node_graph * nat :=
  match g !! id with
  | Some md =>
      let '(md', n') := merge_metadata md rc dependencies n in (<[id := md']> g, n')
  | None =>
      let '(md, n1) := Node.default n in
      let '(md', n2) := merge_metadata md rc dependencies n1 in (<[id := md']> g, n2)
  end.

Fixpoint merge_dependencies (g : node_graph) (rc : channel) (dependencies : list Id)
    (n : nat) : node_graph * nat :=
  match dependencies with
  | [] => (g, n)
  | dependency :: rest =>
      let '(g1, n1) := merge_entry g dependency rc [] n in
      merge_dependencies g1 rc rest n1
  end.

Fixpoint merge_values (g : node_graph) (rc : channel) (new : Graph) (ids : list Id)
    (n : nat) : node_graph * nat :=
  match ids with
  | [] => (g, n)
  | id :: rest =>
      match new !! id with
      | None => merge_values g rc new rest n
      | Some dependencies =>
          let '(g1, n1) := merge_entry g id rc dependencies n in
          let '(g2, n2) := merge_dependencies g1 rc dependencies n1 in
          merge_values g2 rc new rest n2
      end
  end.

Definition merge_dependency_graph (d : ChangeSetGraph) (rc : channel) (new : Graph)
    (change_set_id : Id) (n : nat) : result fault () * ChangeSetGraph * nat :=
  let g := from_option id ∅ (d !! change_set_id) in
  let '(g', n') := merge_values g rc new (keys new) n in
  (Ok (), <[change_set_id := g']> d, n').

(** [for node_metadata in values_mut() { node_metadata.remove_dependency(id) }]. *)
Definition remove_dependency_everywhere (g : node_graph) (node_id : Id) (n : nat) :
    node_graph * nat :=
  let '(_, g', n') :=
    iter_mut (λ _ md n, let '(md', n') := remove_dependency md node_id n in ((), md', n'))
      (keys g) g n in
  (g', n').

Definition mark_node_as_processed (d : ChangeSetGraph) (rc : channel)
    (change_set_id node_id : Id) (n : nat) :
    result fault (gset channel) * ChangeSetGraph * nat :=
  match d !! change_set_id with
  | None => (Err Panic, d, n)
  | Some g =>
      match g !! node_id with
      | None => (Err (Fault UnknownNodeId), d, n)
      | Some md =>
          match mark_as_processed md rc n with
          | (Err e, md', n1) => (Err e, <[change_set_id := <[node_id := md']> g]> d, n1)
          | (Ok (false, wanted), md', n1) =>
              (Ok wanted, <[change_set_id := <[node_id := md']> g]> d, n1)
          | (Ok (true, wanted), md', n1) =>
              let '(g', n2) := remove_dependency_everywhere (delete node_id g) node_id n1 in
              (Ok wanted,
               if decide (g' = ∅) then delete change_set_id d
               else <[change_set_id := g']> d, n2)
          end
      end
  end.

Definition remove_channel (d : ChangeSetGraph) (change_set_id : Id) (rc : channel)
    (n : nat) : ChangeSetGraph * nat :=
  match d !! change_set_id with
  | None => (d, n)
  | Some g =>
      let '(bs, g', n') :=
        iter_mut (λ _ md n, let '(md', n') := Node.remove_channel md rc n in
                            (Node.is_empty md', md', n')) (keys g) g n in
      let to_remove := (filter (λ p, p.2 = true) bs).*1 in
      (<[change_set_id := foldr delete g' to_remove]> d, n')
  end.

(** The loop of [remove_node_and_dependents]. The recursion is on the queue
    as long as the popped node is not in the graph, and on [fuel] when it is:
    the graph then loses a node, so [fuel = size g] is always enough
    ([remove_loop_enough_fuel]). [None] stands for exhausted fuel. *)
Fixpoint remove_loop (fuel : nat) (rc : channel) :
    list Id → node_graph → list (channel * Id) →
    option (result fault (list (channel * Id)) * node_graph) :=
  fix loop (queue : list Id) (g : node_graph) (notifications : list (channel * Id)) :=
  match queue with
  | [] => Some (Ok notifications, g)
  | id :: queue =>
      match g !! id with
      | None => loop queue g notifications
      | Some md =>
          let g := delete id g in
          if decide (processing_reply_channel md ≠ None ∧
                     processing_reply_channel md ≠ Some rc)
          then Some (Err (Fault ShouldNotBeProcessingByJob), g)
          else
            let notifications :=
              notifications ++ ((λ c, (c, id)) <$> wanted_by_reply_channels md) in
            let dependents :=
              filter (λ k, from_option (λ md', depends_on md' id) false (g !! k) = true)
                (keys g) in
            match fuel with
            | O => None
            | S fuel => remove_loop fuel rc (queue ++ dependents) g notifications
            end
      end
  end.

Definition remove_node_and_dependents (d : ChangeSetGraph) (rc : channel)
    (change_set_id node_id : Id) :
    option (result fault (list (channel * Id)) * ChangeSetGraph) :=
  match d !! change_set_id with
  | None => Some (Err Panic, d)
  | Some g =>
      match remove_loop (size g) rc [node_id] g [(rc, node_id)] with
      | None => None
      | Some (Err e, g') => Some (Err e, <[change_set_id := g']> d)
      | Some (Ok notifications, g') =>
          Some (Ok notifications,
                if decide (g' = ∅) then delete change_set_id d
                else <[change_set_id := g']> d)
      end
  end.

End graph.

End ChangeSets.

(** ** Specification vocabulary *)

(** [doomed g roots z]: [z] is a node of [g] that is one of [roots] or depends,
    directly or through other nodes of [g], on one of them. *)
Inductive doomed (g : node_graph) (roots : list Id) : Id → Prop :=
| doomed_root x : x ∈ roots → is_Some (g !! x) → doomed g roots x
| doomed_step y z md :
    doomed g roots y → g !! z = Some md → y ∈ depends_on_node_ids md →
    doomed g roots z.

(** Every dependency of a node is a node. *)
Definition closed (g : node_graph) : Prop :=
  ∀ id md, g !! id = Some md → depends_on_node_ids md ⊆ dom g.

(** [rank] decreases along dependencies, so there is no cycle. *)
Definition ranked (rank : Id → nat) (g : node_graph) : Prop :=
  ∀ id md y, g !! id = Some md → y ∈ depends_on_node_ids md → rank y < rank id.

(** The dependencies recorded for [id], none if it is not a node. *)
Definition deps_of (g : node_graph) (id : Id) : gset Id :=
  from_option depends_on_node_ids ∅ (g !! id).

(** Channel [c] waits for node [id]. *)
Definition wants (g : node_graph) (c : channel) (id : Id) : Prop :=
  ∃ md, g !! id = Some md ∧ c ∈ wanted_by_reply_channels md.

(** The job that is processing [id]. *)
Definition processor_of (g : node_graph) (id : Id) : option channel :=
  g !! id ≫= processing_reply_channel.

(** [k] occurs in a registered graph, as a value or as a dependency. *)
Definition mentions (new : Graph) (k : Id) : Prop :=
  is_Some (new !! k) ∨ ∃ id ds, new !! id = Some ds ∧ k ∈ ds.

(** The invariant of [NodeFacts.node_ok] for all the nodes of a graph. *)
Definition graph_ok `{E : Env} (n : nat) (g : node_graph) : Prop :=
  ∀ id md, g !! id = Some md → NodeFacts.node_ok n md.

(** The graph of a change set; an absent entry stands for the empty graph. *)
Definition graph_of (d : ChangeSetGraph) (cs : Id) : node_graph :=
  from_option id ∅ (d !! cs).

(** ** Iteration *)

Section iteration.
Context `{EO : EnvOk}.
Context {V B : Type} (f : Id → V → nat → B * V * nat).
Hypothesis f_mono : ∀ k v n, n ≤ (f k v n).2.

(** Every key is updated once, with the clock read at some moment [τ k]
    between the start and the end of the iteration. *)
Lemma iter_mut_spec ks (m : gmap Id V) n bs m' n' :
  NoDup ks → iter_mut f ks m n = (bs, m', n') →
  ∃ τ : Id → nat,
    n ≤ n' ∧
    (∀ k v, k ∈ ks → m !! k = Some v → n ≤ τ k ∧ (f k v (τ k)).2 ≤ n') ∧
    (∀ k, m' !! k = if decide (k ∈ ks) then (λ v, (f k v (τ k)).1.2) <$> m !! k
                    else m !! k) ∧
    (∀ k b, (k, b) ∈ bs ↔ k ∈ ks ∧ ∃ v, m !! k = Some v ∧ b = (f k v (τ k)).1.1).
Proof.
  intros Hnd; revert m n bs m' n'.
  induction Hnd as [|k ks Hk Hnd IH]; intros m n bs m' n'; simpl.
  - intros [= <- <- <-]. exists (λ _, 0). set_solver.
  - destruct (m !! k) as [v|] eqn:Hmk.
    + destruct (f k v n) as [[b v'] n1] eqn:Hf.
      destruct (iter_mut f ks (<[k:=v']> m) n1) as [[bs1 m1] n2] eqn:Hit.
      intros [= <- <- <-].
      pose proof (f_mono k v n) as Hle; rewrite Hf in Hle; simpl in Hle.
      apply IH in Hit as (τ & Hn & Hτ & Hl & Hb).
      exists (λ k', if decide (k' = k) then n else τ k'). split; [lia|]. split; [|split].
      * intros k' w Hin Hw. case_decide as Hkk; [subst k'; simplify_eq; rewrite Hf; simpl; lia|].
        destruct (Hτ k' w) as [? ?]; [set_solver|by rewrite lookup_insert_ne|lia].
      * intros k'. rewrite Hl. destruct (decide (k' = k)) as [->|Hne].
        -- rewrite decide_False, decide_True by set_solver.
           rewrite lookup_insert_eq, Hmk. simpl. by rewrite Hf.
        -- rewrite lookup_insert_ne by done.
           destruct (m !! k'); simpl; repeat case_decide; set_solver.
      * intros k' b'. rewrite elem_of_cons, Hb. split.
        -- intros [[= -> ->]|(Hin & w & Hw & ->)].
           ++ split; [set_solver|]. exists v. by rewrite decide_True, Hf.
           ++ assert (k' ≠ k) by set_solver. split; [set_solver|].
              exists w. rewrite lookup_insert_ne in Hw by done. by rewrite decide_False.
        -- intros (Hin & w & Hw & ->). case_decide as Hkk.
           ++ subst k'. simplify_eq. left. by rewrite Hf.
           ++ right. split; [set_solver|]. exists w. by rewrite lookup_insert_ne.
    + intros Hit. apply IH in Hit as (τ & Hn & Hτ & Hl & Hb).
      exists τ. split; [done|]. split; [|split].
      * intros k' w Hin Hw. apply Hτ; [set_solver|done].
      * intros k'. rewrite Hl. destruct (decide (k' = k)) as [->|Hne].
        -- rewrite decide_False, decide_True by set_solver. by rewrite Hmk.
        -- destruct (decide (k' ∈ ks)); [by rewrite decide_True by set_solver|
             by rewrite decide_False by set_solver].
      * intros k' b'. rewrite Hb, elem_of_cons. naive_solver.
Qed.

End iteration.

Section keys.
Context `{EO : EnvOk}.

Lemma elem_of_keys {V} (m : gmap Id V) k : k ∈ ChangeSets.keys m ↔ is_Some (m !! k).
Proof.
  unfold ChangeSets.keys. rewrite key_order_perm, list_elem_of_fmap. split.
  - intros ([k' v] & -> & Hin%elem_of_map_to_list). eauto.
  - intros [v Hv]. exists (k, v). split; [done|]. by apply elem_of_map_to_list.
Qed.

Lemma NoDup_keys {V} (m : gmap Id V) : NoDup (ChangeSets.keys m).
Proof. unfold ChangeSets.keys. rewrite key_order_perm. apply NoDup_fst_map_to_list. Qed.

(** [iter_mut_spec] when all the keys are visited. *)
Lemma iter_mut_keys {V B} (f : Id → V → nat → B * V * nat) (m : gmap Id V) n bs m' n' :
  (∀ k v n, n ≤ (f k v n).2) →
  iter_mut f (ChangeSets.keys m) m n = (bs, m', n') →
  ∃ τ : Id → nat,
    n ≤ n' ∧
    (∀ k v, m !! k = Some v → n ≤ τ k ∧ (f k v (τ k)).2 ≤ n') ∧
    (∀ k, m' !! k = (λ v, (f k v (τ k)).1.2) <$> m !! k) ∧
    (∀ k b, (k, b) ∈ bs ↔ ∃ v, m !! k = Some v ∧ b = (f k v (τ k)).1.1).
Proof.
  intros Hf Hit.
  apply iter_mut_spec in Hit as (τ & Hn & Hτ & Hl & Hb); [|done|apply NoDup_keys].
  exists τ. split; [done|]. split; [|split].
  - intros k v Hv. apply Hτ; [apply elem_of_keys; eauto|done].
  - intros k. rewrite Hl. case_decide as Hk; [done|].
    destruct (m !! k) eqn:Hmk; [|done]. destruct Hk. apply elem_of_keys; eauto.
  - intros k b. rewrite Hb, elem_of_keys. naive_solver.
Qed.

End keys.

(** ** Removing a node and everything that depends on it *)

Section removal.
Context `{EO : EnvOk}.

Lemma doomed_in_graph g roots z : doomed g roots z → is_Some (g !! z).
Proof. destruct 1; eauto. Qed.

Lemma doomed_nil g z : ¬ doomed g [] z.
Proof. induction 1; set_solver. Qed.

Lemma doomed_skip g id roots z :
  g !! id = None → doomed g (id :: roots) z ↔ doomed g roots z.
Proof.
  intros Hid. split; induction 1 as [x Hx Hg|]; eauto using doomed.
  - apply elem_of_cons in Hx as [->|Hx]; [by destruct Hg; simplify_eq|].
    by apply doomed_root.
  - apply doomed_root; [by right|done].
Qed.

(** The nodes of [g] that depend directly on [id]. *)
Definition dependents (g : node_graph) (id : Id) : list Id :=
  filter (λ k, from_option (λ md', depends_on md' id) false (g !! k) = true)
    (ChangeSets.keys g).

Lemma elem_of_dependents g id z :
  z ∈ dependents g id ↔ ∃ md, g !! z = Some md ∧ id ∈ depends_on_node_ids md.
Proof.
  unfold dependents. rewrite list_elem_of_filter, elem_of_keys.
  destruct (g !! z) as [md|]; simpl; [|naive_solver].
  unfold depends_on. rewrite bool_decide_eq_true. naive_solver.
Qed.

(** One iteration of the loop keeps the set of nodes that will be removed. *)
Lemma doomed_pop g id md roots z :
  g !! id = Some md →
  doomed g (id :: roots) z ↔
  z = id ∨ doomed (delete id g) (roots ++ dependents (delete id g) id) z.
Proof.
  intros Hid. split.
  - induction 1 as [x Hx Hg|y z md' _ [->|IH] Hz Hy].
    + destruct (decide (x = id)) as [->|Hne]; [by left|right].
      apply doomed_root; [set_solver|by rewrite lookup_delete_ne].
    + destruct (decide (z = id)) as [->|Hne]; [by left|right].
      assert (delete id g !! z = Some md') by by rewrite lookup_delete_ne.
      apply doomed_root; [|eauto]. apply elem_of_app; right.
      apply elem_of_dependents; eauto.
    + destruct (decide (z = id)) as [->|Hne]; [by left|right].
      eapply doomed_step; [done| |done]. by rewrite lookup_delete_ne.
  - intros [->|Hd]; [apply doomed_root; [by left|eauto]|].
    induction Hd as [x Hx [mx Hg]|y z md' _ IH Hz Hy].
    + apply lookup_delete_Some in Hg as [Hne Hg].
      apply elem_of_app in Hx as [Hx|Hx]; [apply doomed_root; [by right|eauto]|].
      apply elem_of_dependents in Hx as (md' & Hx & Hdep).
      apply lookup_delete_Some in Hx as [_ Hx].
      eapply doomed_step; [apply (doomed_root _ _ id); [by left|eauto]|exact Hx|done].
    + apply lookup_delete_Some in Hz as [_ Hz]. by eapply doomed_step.
Qed.

(** What the loop computes, from any intermediate state. *)
Definition removal_spec (rc : channel) (roots : list Id) (g : node_graph)
    (ns : list (channel * Id)) (r : result fault (list (channel * Id)))
    (g' : node_graph) : Prop :=
  match r with
  | Ok ns' =>
      (∀ z, doomed g roots z → g' !! z = None) ∧
      (∀ z, ¬ doomed g roots z → g' !! z = g !! z) ∧
      (∀ c z, (c, z) ∈ ns' ↔ (c, z) ∈ ns ∨
         ∃ md, g !! z = Some md ∧ doomed g roots z ∧ c ∈ wanted_by_reply_channels md) ∧
      (∀ z md c, doomed g roots z → g !! z = Some md →
         processing_reply_channel md = Some c → c = rc)
  | Err e =>
      e = Fault ShouldNotBeProcessingByJob ∧
      ∃ z md c, doomed g roots z ∧ g !! z = Some md ∧
                processing_reply_channel md = Some c ∧ c ≠ rc
  end.

Lemma removal_spec_skip rc id roots g ns r g' :
  g !! id = None → removal_spec rc roots g ns r g' → removal_spec rc (id :: roots) g ns r g'.
Proof.
  intros Hid. pose proof (λ z, doomed_skip g id roots z Hid) as Hs.
  unfold removal_spec. destruct r; setoid_rewrite Hs; done.
Qed.

Lemma removal_spec_pop rc id md roots g ns r g' :
  g !! id = Some md →
  (∀ c, processing_reply_channel md = Some c → c = rc) →
  removal_spec rc (roots ++ dependents (delete id g) id) (delete id g)
    (ns ++ ((λ c, (c, id)) <$> wanted_by_reply_channels md)) r g' →
  removal_spec rc (id :: roots) g ns r g'.
Proof.
  intros Hid Hrc. pose proof (λ z, doomed_pop g id md roots z Hid) as Hpop.
  unfold removal_spec. destruct r as [ns'|e].
  - setoid_rewrite Hpop. intros (H1 & H2 & H3 & H4).
    split; [|split; [|split]].
    + intros z [->|Hz]; [|by apply H1].
      rewrite H2; [apply lookup_delete_eq|].
      intros [? Hd]%doomed_in_graph. by rewrite lookup_delete_eq in Hd.
    + intros z Hz. rewrite H2 by tauto. apply lookup_delete_ne. naive_solver.
    + intros c z. rewrite H3, elem_of_app, list_elem_of_fmap.
      setoid_rewrite lookup_delete_Some. split.
      * intros [[?|(c' & [= -> ->] & ?)]|(md' & [? ?] & ? & ?)]; eauto 10.
      * intros [?|(md' & Hz & [->|Hd] & ?)]; simplify_eq; eauto 10.
        destruct (doomed_in_graph _ _ _ Hd) as [? [? ?]%lookup_delete_Some]. eauto 10.
    + intros z md' c [->|Hd] Hz Hp; simplify_eq; [by apply Hrc|].
      destruct (doomed_in_graph _ _ _ Hd) as [? [? ?]%lookup_delete_Some].
      eapply H4; [done| |done]. by rewrite lookup_delete_ne.
  - intros (-> & z & md' & c & Hd & [? ?]%lookup_delete_Some & ? & ?). split; [done|].
    exists z, md', c. rewrite Hpop. auto.
Qed.

Lemma remove_loop_spec fuel rc : ∀ roots g ns r g',
  ChangeSets.remove_loop fuel rc roots g ns = Some (r, g') →
  removal_spec rc roots g ns r g'.
Proof.
  induction fuel as [|fuel IHf]; intros roots; induction roots as [|id roots IHq];
    intros g ns r g'; cbn [ChangeSets.remove_loop];
    try (intros [= <- <-]; unfold removal_spec; pose proof (doomed_nil g); naive_solver);
    (destruct (g !! id) as [md|] eqn:Hid; [|by intros ?%IHq; apply removal_spec_skip]);
    (case_decide as Hp;
     [intros [= <- <-]; split; [done|];
      destruct (processing_reply_channel md) as [c|] eqn:Hc; [|naive_solver];
      exists id, md, c; split_and!; [apply doomed_root; [by left|eauto]|done|done|naive_solver]
     |]); [done|].
  intros Hl%IHf. eapply removal_spec_pop; [done| |done].
  intros c Hc. destruct (decide (c = rc)); [done|]. destruct Hp. naive_solver.
Qed.

(** The fuel [ChangeSets.remove_node_and_dependents] passes is enough. *)
Lemma remove_loop_enough_fuel fuel rc : ∀ roots g ns,
  size g ≤ fuel → is_Some (ChangeSets.remove_loop fuel rc roots g ns).
Proof.
  induction fuel as [|fuel IHf]; intros roots; induction roots as [|id roots IHq];
    intros g ns Hg; cbn [ChangeSets.remove_loop]; eauto;
    (destruct (g !! id) as [md|] eqn:Hid; [|by apply IHq]); case_decide; eauto.
  - apply Nat.le_0_r, map_size_empty_iff in Hg. by subst.
  - apply IHf. rewrite map_size_delete, Hid. lia.
Qed.

Lemma remove_loop_subseteq fuel rc : ∀ roots g ns r g',
  ChangeSets.remove_loop fuel rc roots g ns = Some (r, g') → g' ⊆ g.
Proof.
  induction fuel as [|fuel IHf]; intros roots; induction roots as [|id roots IHq];
    intros g ns r g'; cbn [ChangeSets.remove_loop]; try (by intros [= <- <-]);
    (destruct (g !! id) as [md|] eqn:Hid; [|apply IHq]);
    (case_decide; [intros [= <- <-]; apply delete_subseteq|]); [done|].
  intros Hl%IHf. etrans; [exact Hl|apply delete_subseteq].
Qed.

Lemma remove_loop_closed fuel rc roots g ns ns' g' :
  ChangeSets.remove_loop fuel rc roots g ns = Some (Ok ns', g') → closed g → closed g'.
Proof.
  intros Hl Hc z md Hz y Hy. pose proof (remove_loop_subseteq _ _ _ _ _ _ _ Hl) as Hsub.
  apply remove_loop_spec in Hl as (H1 & H2 & _ & _).
  pose proof (lookup_weaken _ _ _ _ Hz Hsub) as Hz'.
  apply elem_of_dom. rewrite H2; [by apply elem_of_dom, (Hc z md)|].
  intros Hd. assert (doomed g roots z) as Hdz by by eapply doomed_step.
  apply H1 in Hdz. congruence.
Qed.

End removal.

(** ** Registering a graph *)

Section merging.
Context `{EO : EnvOk}.

Lemma deps_of_insert g id md k :
  deps_of (<[id := md]> g) k = if decide (id = k) then depends_on_node_ids md else deps_of g k.
Proof. unfold deps_of. rewrite lookup_insert. by case_decide. Qed.

Lemma wants_insert g id md c k :
  wants (<[id := md]> g) c k ↔
  (id = k ∧ c ∈ wanted_by_reply_channels md) ∨ (id ≠ k ∧ wants g c k).
Proof. unfold wants. setoid_rewrite lookup_insert_Some. naive_solver. Qed.

(** What registering [deps] for [ids] on behalf of [rc] does to a graph. *)
Definition merged (g g' : node_graph) (rc : channel) (touched : Id → Prop)
    (new_deps : Id → gset Id) : Prop :=
  (∀ k, deps_of g' k = deps_of g k ∪ new_deps k) ∧
  (∀ k, is_Some (g' !! k) ↔ is_Some (g !! k) ∨ touched k) ∧
  (∀ c k, wants g' c k ↔ wants g c k ∨ (c = rc ∧ touched k)) ∧
  (∀ k, processor_of g' k = processor_of g k).

Lemma merged_trans g1 g2 g3 rc t1 t2 d1 d2 :
  merged g1 g2 rc t1 d1 → merged g2 g3 rc t2 d2 →
  merged g1 g3 rc (λ k, t1 k ∨ t2 k) (λ k, d1 k ∪ d2 k).
Proof.
  intros (D1 & I1 & W1 & P1) (D2 & I2 & W2 & P2). split_and!; intros.
  - rewrite D2, D1. set_solver.
  - rewrite I2, I1. naive_solver.
  - rewrite W2, W1. naive_solver.
  - by rewrite P2, P1.
Qed.

Lemma merged_ext g g' rc t1 t2 d1 d2 :
  (∀ k, t1 k ↔ t2 k) → (∀ k, d1 k = d2 k) → merged g g' rc t1 d1 → merged g g' rc t2 d2.
Proof.
  intros Ht Hd (D & I & W & P). split_and!; intros; rewrite <- ?Ht, <- ?Hd; auto.
Qed.

Lemma merge_entry_spec g id rc deps n g' n' :
  ChangeSets.merge_entry g id rc deps n = (g', n') →
  merged g g' rc (λ k, k = id) (λ k, if decide (id = k) then list_to_set deps else ∅).
Proof.
  unfold ChangeSets.merge_entry.
  destruct (g !! id) as [md|] eqn:Hid; simpl; intros [= <- <-]; split_and!; intros;
    rewrite ?deps_of_insert, ?lookup_insert_is_Some, ?wants_insert; unfold processor_of;
    rewrite ?lookup_insert; simpl.
  all: try (case_decide; subst; unfold deps_of; rewrite ?Hid; simpl; set_solver).
  all: try (destruct (decide (id = k)); naive_solver).
  all: unfold wants; destruct (decide (id = k)) as [->|]; [|naive_solver].
  - repeat case_decide; rewrite Hid; set_solver.
  - rewrite Hid. repeat case_decide; set_solver.
Qed.

Lemma merge_dependencies_spec rc deps : ∀ g n g' n',
  ChangeSets.merge_dependencies g rc deps n = (g', n') →
  merged g g' rc (λ k, k ∈ deps) (λ _, ∅).
Proof.
  induction deps as [|dep deps IH]; intros g n g' n'; simpl.
  - intros [= <- <-]. split_and!; set_solver.
  - destruct (ChangeSets.merge_entry g dep rc [] n) as [g1 n1] eqn:He.
    intros Hm%IH. apply merge_entry_spec in He.
    eapply merged_ext; [| |by eapply merged_trans].
    + intros k. simpl. by rewrite elem_of_cons.
    + intros k. simpl. by case_decide.
Qed.

Lemma merge_values_spec rc new ids : ∀ g n g' n',
  ChangeSets.merge_values g rc new ids n = (g', n') →
  merged g g' rc
    (λ k, ∃ id ds, id ∈ ids ∧ new !! id = Some ds ∧ (k = id ∨ k ∈ ds))
    (λ k, if decide (k ∈ ids) then list_to_set (from_option id [] (new !! k)) else ∅).
Proof.
  induction ids as [|id ids IH]; intros g n g' n'; simpl.
  - intros [= <- <-]. split_and!; set_solver.
  - destruct (new !! id) as [ds|] eqn:Hid.
    + destruct (ChangeSets.merge_entry g id rc ds n) as [g1 n1] eqn:He.
      destruct (ChangeSets.merge_dependencies g1 rc ds n1) as [g2 n2] eqn:Hd.
      intros Hm%IH. apply merge_entry_spec in He. apply merge_dependencies_spec in Hd.
      eapply merged_ext; [| |eapply merged_trans; [eapply merged_trans; done|done]].
      * intros k; simpl. setoid_rewrite elem_of_cons. naive_solver.
      * intros k; simpl.
        destruct (decide (id = k)) as [->|]; repeat case_decide; rewrite ?Hid; simpl;
          set_solver.
    + intros Hm%IH. eapply merged_ext; [| |done].
      * intros k; simpl. setoid_rewrite elem_of_cons. naive_solver.
      * intros k; simpl.
        destruct (decide (k = id)) as [->|]; rewrite ?Hid; simpl; repeat case_decide;
          set_solver.
Qed.

(** Registering a graph, whatever the iteration order: dependencies are
    accumulated, every value and dependency becomes a node wanted by the job. *)
Lemma merge_values_keys g rc (new : Graph) n g' n' :
  ChangeSets.merge_values g rc new (ChangeSets.keys new) n = (g', n') →
  merged g g' rc (mentions new) (λ k, list_to_set (from_option id [] (new !! k))).
Proof.
  intros Hm%merge_values_spec. eapply merged_ext; [| |done].
  - intros k. setoid_rewrite elem_of_keys. unfold mentions. split.
    + intros (id & ds & ? & ? & [->|?]); eauto 10.
    + intros [[ds ?]|(id & ds & ? & ?)]; eauto 20.
  - intros k. simpl. case_decide as Hk; [done|].
    rewrite elem_of_keys in Hk. destruct (new !! k); [naive_solver|done].
Qed.

Lemma merged_closed g g' rc (new : Graph) :
  merged g g' rc (mentions new) (λ k, list_to_set (from_option id [] (new !! k))) →
  closed g → closed g'.
Proof.
  intros (D & I & _ & _) Hc k md Hk y Hy.
  assert (Hin : y ∈ deps_of g' k) by by unfold deps_of; rewrite Hk.
  apply elem_of_dom, I. rewrite D in Hin. apply elem_of_union in Hin as [Hin|Hin].
  - left. unfold deps_of in Hin. destruct (g !! k) as [md'|] eqn:Hg; simpl in Hin; [|set_solver].
    apply elem_of_dom, (Hc k md'); done.
  - right. right. apply elem_of_list_to_set in Hin.
    destruct (new !! k) as [ds|] eqn:Hn; simpl in Hin; [eauto|set_solver].
Qed.

End merging.

(** ** Granting nodes *)

Section granting.
Context `{EO : EnvOk}.

(** A node that can be processed now, by [rc]. *)
Definition available (g : node_graph) (rc : channel) (id : Id) : Prop :=
  ∃ md, g !! id = Some md ∧ depends_on_node_ids md = ∅ ∧
        processing_reply_channel md = None ∧
        head (wanted_by_reply_channels md) = Some rc.

(** What [fetch_available] does to the graph of a change set. *)
Definition granted (g g' : node_graph) (out : list (channel * Id)) : Prop :=
  (∀ k, deps_of g' k = deps_of g k) ∧
  (∀ k, is_Some (g' !! k) ↔ is_Some (g !! k)) ∧
  (∀ rc id, (rc, id) ∈ out ↔ available g rc id) ∧
  (∀ id c, processor_of g' id = Some c ↔
           processor_of g id = Some c ∨ available g c id).

Lemma fetch_available_lookup g n out g' n' :
  ChangeSets.fetch_available g n = (out, g', n') →
  ∃ τ : Id → nat,
    n ≤ n' ∧
    (∀ k md, g !! k = Some md → n ≤ τ k ∧ (next_to_process md (τ k)).2 ≤ n') ∧
    (∀ k, g' !! k = (λ md, (next_to_process md (τ k)).1.2) <$> g !! k) ∧
    (∀ rc k, (rc, k) ∈ out ↔
       ∃ md, g !! k = Some md ∧ (next_to_process md (τ k)).1.1 = Some rc).
Proof.
  unfold ChangeSets.fetch_available.
  destruct (iter_mut _ _ _ _) as [[bs g1] n1] eqn:Hit. intros [= <- <- <-].
  apply iter_mut_keys in Hit as (τ & Hn & Hτ & Hl & Hb);
    [|intros; apply NodeFacts.next_to_process_readings].
  exists τ. split_and!; [done|done|done|]. intros rc k.
  rewrite list_elem_of_omap. split.
  - intros ([k' o] & Hin & Heq). apply Hb in Hin as (md & Hmd & ->).
    destruct (next_to_process md (τ k')).1.1 eqn:Hnp; simplify_eq/=. eauto.
  - intros (md & Hmd & Hnp). exists (k, Some rc). split; [|done].
    apply Hb. eauto.
Qed.

Lemma fetch_available_granted g n out g' n' :
  ChangeSets.fetch_available g n = (out, g', n') → granted g g' out.
Proof.
  intros (τ & _ & _ & Hl & Hout)%fetch_available_lookup.
  assert (Hav : ∀ rc k md, g !! k = Some md →
    (next_to_process md (τ k)).1.1 = Some rc ↔ available g rc k).
  { intros rc k md Hmd. rewrite NodeFacts.next_to_process_some. unfold available.
    rewrite Hmd. naive_solver. }
  split_and!.
  - intros k. unfold deps_of. rewrite Hl. destruct (g !! k); simpl; [|done].
    apply NodeFacts.next_to_process_depends.
  - intros k. rewrite Hl. by rewrite fmap_is_Some.
  - intros rc id. rewrite Hout. split; [naive_solver|].
    intros (md & Hmd & H'). exists md. split; [done|]. rewrite Hav; unfold available; eauto.
  - intros id c. unfold processor_of. rewrite Hl.
    destruct (g !! id) as [md|] eqn:Hmd; simpl;
      [|split; [done|intros [?|(? & ? & _)]; [done|congruence]]].
    rewrite <- (Hav c id md Hmd). unfold next_to_process.
    case_decide as Hd; [|naive_solver].
    destruct Hd as [_ ->]. destruct (wanted_by_reply_channels md); naive_solver.
Qed.

Lemma fetch_available_ok g n out g' n' :
  ChangeSets.fetch_available g n = (out, g', n') →
  n ≤ n' ∧ (graph_ok n g → graph_ok n' g').
Proof.
  intros (τ & Hn & Hτ & Hl & _)%fetch_available_lookup. split; [done|].
  intros Hok k md. rewrite Hl. intros (md0 & Hmd0 & ->)%fmap_Some_1.
  destruct (Hτ k md0 Hmd0) as [H1 H2].
  eapply NodeFacts.node_ok_mono; [exact H2|].
  apply NodeFacts.next_to_process_ok. eapply NodeFacts.node_ok_mono; [exact H1|]. eauto.
Qed.

Lemma granted_closed g g' out : granted g g' out → closed g → closed g'.
Proof.
  intros (D & I & _ & _) Hc k md Hk y Hy.
  apply elem_of_dom, I. specialize (D k). unfold deps_of in D. rewrite Hk in D. simpl in D.
  destruct (g !! k) as [md0|] eqn:Hg; simpl in D; [|set_solver].
  apply elem_of_dom, (Hc k md0 Hg). by rewrite <- D.
Qed.

(** A nonempty acyclic graph without dangling dependencies always has a node
    that is being processed or can be granted. *)
Lemma closed_ranked_progress rank g :
  g ≠ ∅ → closed g → ranked rank g →
  (∀ id md, g !! id = Some md → Node.is_empty md = false) →
  (∃ id c, processor_of g id = Some c) ∨ (∃ rc id, available g rc id).
Proof.
  intros Hne Hc Hr Hw.
  assert (∃ id md, g !! id = Some md ∧ depends_on_node_ids md = ∅) as (id & md & Hid & Hd).
  { apply map_choose in Hne as (i & x & Hi). revert x Hi.
    induction i as [i IH] using (well_founded_ind (well_founded_ltof _ rank)).
    intros x Hi.
    destruct (set_choose_or_empty (depends_on_node_ids x)) as [[y Hy]|He].
    - pose proof (Hc i x Hi y Hy) as [my Hmy]%elem_of_dom.
      apply (IH y) with my; [|done]. unfold ltof. eauto.
    - exists i, x. split; [done|]. by apply leibniz_equiv. }
  pose proof (Hw id md Hid) as Hnot.
  apply NodeFacts.is_empty_false in Hnot as [Hnot|[c Hp]].
  - destruct (processing_reply_channel md) as [c|] eqn:Hp.
    + left. exists id, c. unfold processor_of. by rewrite Hid.
    + right. destruct (wanted_by_reply_channels md) as [|rc rest] eqn:Hwt; [done|].
      exists rc, id, md. by rewrite Hwt.
  - left. exists id, c. unfold processor_of. by rewrite Hid.
Qed.

End granting.

(** ** A node has been processed *)

Section processed.
Context `{EO : EnvOk}.

Lemma remove_dependency_everywhere_spec g id n g' n' :
  ChangeSets.remove_dependency_everywhere g id n = (g', n') →
  ∃ τ : Id → nat,
    n ≤ n' ∧
    (∀ k md, g !! k = Some md → n ≤ τ k ∧ (remove_dependency md id (τ k)).2 ≤ n') ∧
    (∀ k, g' !! k = (λ md, (remove_dependency md id (τ k)).1) <$> g !! k).
Proof.
  unfold ChangeSets.remove_dependency_everywhere.
  destruct (iter_mut _ _ _ _) as [[bs g1] n1] eqn:Hit. intros [= <- <-].
  apply iter_mut_keys in Hit as (τ & Hn & Hτ & Hl & _).
  - exists τ. split_and!; [done| |].
    + intros k md Hmd. destruct (Hτ k md Hmd) as [? ?].
      by destruct (remove_dependency md id (τ k)).
    + intros k. rewrite Hl. destruct (g !! k) as [md|]; simpl; [|done].
      by destruct (remove_dependency md id (τ k)).
  - intros k md m. pose proof (NodeFacts.remove_dependency_readings m md id).
    by destruct (remove_dependency md id m).
Qed.

(** [g'] is [g] without the finished node [id] and without it as a
    dependency; jobs keep waiting for and processing the other nodes. *)
Definition completed (g g' : node_graph) (id : Id) : Prop :=
  (∀ k, is_Some (g' !! k) ↔ k ≠ id ∧ is_Some (g !! k)) ∧
  (∀ k, k ≠ id → deps_of g' k = deps_of g k ∖ {[id]}) ∧
  (∀ c k, k ≠ id → wants g' c k ↔ wants g c k) ∧
  (∀ k, k ≠ id → processor_of g' k = processor_of g k).

Lemma remove_dependency_everywhere_completed g id n g' n' :
  ChangeSets.remove_dependency_everywhere (delete id g) id n = (g', n') →
  completed g g' id.
Proof.
  intros (τ & _ & _ & Hl)%remove_dependency_everywhere_spec. split_and!.
  - intros k. rewrite Hl, fmap_is_Some, lookup_delete_is_Some. naive_solver.
  - intros k Hk. unfold deps_of. rewrite Hl, lookup_delete_ne by done.
    destruct (g !! k); simpl; [|set_solver]. apply NodeFacts.remove_dependency_depends.
  - intros c k Hk. unfold wants. rewrite Hl, lookup_delete_ne by done.
    setoid_rewrite fmap_Some. unfold remove_dependency.
    split; [intros (md & (md0 & Hmd0 & ->) & Hc); case_decide; eauto|].
    intros (md & Hmd & Hc). eexists. split; [eauto|]. by case_decide.
  - intros k Hk. unfold processor_of. rewrite Hl, lookup_delete_ne by done.
    destruct (g !! k); simpl; [|done]. unfold remove_dependency. by case_decide.
Qed.

Lemma completed_closed g g' id : completed g g' id → closed g → closed g'.
Proof.
  intros (I & D & _ & _) Hc k md Hk y Hy.
  destruct (proj1 (I k)) as [Hne [md0 Hmd0]]; [eauto|].
  assert (Hin : y ∈ deps_of g' k) by by unfold deps_of; rewrite Hk.
  rewrite D in Hin by done. unfold deps_of in Hin. rewrite Hmd0 in Hin. simpl in Hin.
  apply elem_of_dom, I. split; [set_solver|].
  apply elem_of_dom, (Hc k md0 Hmd0). set_solver.
Qed.

Lemma remove_dependency_everywhere_ok g id n g' n' :
  ChangeSets.remove_dependency_everywhere g id n = (g', n') →
  n ≤ n' ∧ (graph_ok n g → graph_ok n' g').
Proof.
  intros (τ & Hn & Hτ & Hl)%remove_dependency_everywhere_spec. split; [done|].
  intros Hok k md. rewrite Hl. intros (md0 & Hmd0 & ->)%fmap_Some_1.
  destruct (Hτ k md0 Hmd0) as [H1 H2].
  eapply NodeFacts.node_ok_mono; [exact H2|].
  apply NodeFacts.remove_dependency_wf. eapply NodeFacts.node_ok_mono; [exact H1|]. eauto.
Qed.

Lemma graph_ok_mono n m g : n ≤ m → graph_ok n g → graph_ok m g.
Proof. intros ? Hok id md ?. eapply NodeFacts.node_ok_mono; eauto. Qed.

Lemma graph_ok_delete n g id : graph_ok n g → graph_ok n (delete id g).
Proof. intros Hok k md [_ ?]%lookup_delete_Some. eauto. Qed.

Lemma graph_ok_insert n g id md :
  NodeFacts.node_ok n md → graph_ok n g → graph_ok n (<[id := md]> g).
Proof. intros ? Hok k md' [[_ <-]|[_ ?]]%lookup_insert_Some; eauto. Qed.

Lemma closed_insert g id md md' :
  g !! id = Some md → depends_on_node_ids md' = depends_on_node_ids md →
  closed g → closed (<[id := md']> g).
Proof.
  intros Hid Hd Hc k x Hk y Hy. rewrite dom_insert_lookup_L by eauto.
  apply lookup_insert_Some in Hk as [[<- <-]|[_ Hk]]; [|by apply (Hc k x)].
  apply (Hc id md Hid). by rewrite <- Hd.
Qed.

End processed.

(** ** A job goes away *)

Section bye.
Context `{EO : EnvOk}.

(** The graph after [rc] left: nobody else's claims change, and nodes nobody
    wants or processes any more disappear. *)
Lemma remove_channel_lookup d cs rc n g d' n' :
  d !! cs = Some g → ChangeSets.remove_channel d cs rc n = (d', n') →
  ∃ (g' : node_graph) (τ : Id → nat),
    d' = <[cs := g']> d ∧ n ≤ n' ∧
    (∀ k md, g !! k = Some md → n ≤ τ k ∧ S (τ k) ≤ n') ∧
    (∀ k md', g' !! k = Some md' ↔
       ∃ md, g !! k = Some md ∧ md' = (Node.remove_channel md rc (τ k)).1 ∧
             Node.is_empty md' = false).
Proof.
  intros Hg. unfold ChangeSets.remove_channel. rewrite Hg.
  destruct (iter_mut _ _ _ _) as [[bs g1] n1] eqn:Hit. intros [= <- <-].
  apply iter_mut_keys in Hit as (τ & Hn & Hτ & Hl & Hb);
    [|intros k md m; simpl; lia]. simpl in Hτ, Hl, Hb.
  eexists _, τ. split_and!; [done|done|done|].
  assert (Hfold : ∀ (l : list Id) (m : node_graph) k,
    foldr delete m l !! k = if decide (k ∈ l) then None else m !! k).
  { clear. intros l m k. induction l as [|x l IH]; [done|simpl].
    destruct (decide (k = x)) as [->|Hne].
    - rewrite lookup_delete_eq, decide_True; set_solver.
    - rewrite lookup_delete_ne, IH by done. repeat case_decide; set_solver. }
  intros k md'. rewrite Hfold, Hl. case_decide as Hk.
  - split; [done|]. intros (md & Hmd & -> & He).
    apply list_elem_of_fmap in Hk as ([k' b] & -> & [Hbt Hk]%list_elem_of_filter).
    apply Hb in Hk as (md1 & Hmd1 & ->). cbn in Hmd, Hbt. simplify_eq.
    exfalso. apply (eq_true_false_abs _ Hbt He).
  - rewrite fmap_Some. split; [|naive_solver].
    intros (md & Hmd & ->). exists md. split_and!; [done|done|].
    destruct (Node.is_empty _) eqn:He; [|done]. destruct Hk.
    apply list_elem_of_fmap. exists (k, true). split; [done|].
    apply list_elem_of_filter. split; [done|]. apply Hb. eauto.
Qed.

End bye.

(** ** The invariant of the nodes is kept by registering a graph *)

Section merging_ok.
Context `{EO : EnvOk}.

Lemma merge_entry_ok g id rc deps n g' n' :
  ChangeSets.merge_entry g id rc deps n = (g', n') →
  n ≤ n' ∧ (graph_ok n g → graph_ok n' g').
Proof.
  unfold ChangeSets.merge_entry. destruct (g !! id) as [md|] eqn:Hid; cbn.
  - intros [= <- <-]. split; [lia|]. intros Hok. apply graph_ok_insert.
    + apply (NodeFacts.merge_metadata_ok n md), (Hok id md Hid).
    + by eapply graph_ok_mono; [|done]; lia.
  - intros [= <- <-]. split; [lia|]. intros Hok. apply graph_ok_insert.
    + apply (NodeFacts.merge_metadata_ok (S n) (Node.default n).1 rc deps).
      apply NodeFacts.default_wf.
    + by eapply graph_ok_mono; [|done]; lia.
Qed.

Lemma merge_dependencies_ok rc deps : ∀ g n g' n',
  ChangeSets.merge_dependencies g rc deps n = (g', n') →
  n ≤ n' ∧ (graph_ok n g → graph_ok n' g').
Proof.
  induction deps as [|dep deps IH]; intros g n g' n'; simpl; [by intros [= <- <-]|].
  destruct (ChangeSets.merge_entry g dep rc [] n) as [g1 n1] eqn:He.
  intros [? ?]%IH. apply merge_entry_ok in He as [? ?]. split; [lia|auto].
Qed.

Lemma merge_values_ok rc new ids : ∀ g n g' n',
  ChangeSets.merge_values g rc new ids n = (g', n') →
  n ≤ n' ∧ (graph_ok n g → graph_ok n' g').
Proof.
  induction ids as [|id ids IH]; intros g n g' n'; simpl; [by intros [= <- <-]|].
  destruct (new !! id) as [ds|]; [|apply IH].
  destruct (ChangeSets.merge_entry g id rc ds n) as [g1 n1] eqn:He.
  destruct (ChangeSets.merge_dependencies g1 rc ds n1) as [g2 n2] eqn:Hd.
  intros [? ?]%IH. apply merge_entry_ok in He as [? ?].
  apply merge_dependencies_ok in Hd as [? ?]. split; [lia|auto].
Qed.

End merging_ok.

(** ** The operations on the whole dependency data *)

Section operations.
Context `{EO : EnvOk}.

(** [fetch_all_available] grants in every change set, and nowhere else. *)
Lemma fetch_all_available_spec d n out d' n' :
  ChangeSets.fetch_all_available d n = (out, d', n') →
  ∃ (τ : Id → nat) (outs : Id → list (channel * Id)),
    n ≤ n' ∧
    (∀ cs, is_Some (d' !! cs) ↔ is_Some (d !! cs)) ∧
    (∀ cs g, d !! cs = Some g → ∃ g' m, n ≤ τ cs ∧ m ≤ n' ∧ d' !! cs = Some g' ∧
       ChangeSets.fetch_available g (τ cs) = (outs cs, g', m)) ∧
    (∀ x, x ∈ out ↔ ∃ cs, is_Some (d !! cs) ∧ x ∈ outs cs).
Proof.
  unfold ChangeSets.fetch_all_available.
  destruct (iter_mut _ _ _ _) as [[bs d1] n1] eqn:Hit. intros [= <- <- <-].
  apply iter_mut_keys in Hit as (τ & Hn & Hτ & Hl & Hb).
  2: { intros _ g m. destruct (ChangeSets.fetch_available g m) as [[o g'] m'] eqn:Hf.
       by apply fetch_available_lookup in Hf as (? & ? & _). }
  exists τ, (λ cs, from_option (λ g, (ChangeSets.fetch_available g (τ cs)).1.1) [] (d !! cs)).
  split_and!; [done| | |].
  - intros cs. by rewrite Hl, fmap_is_Some.
  - intros cs g Hg. destruct (Hτ cs g Hg) as [H1 H2].
    destruct (ChangeSets.fetch_available g (τ cs)) as [[o g'] m'] eqn:Hf; simpl in H2.
    exists g', m'. rewrite Hl, Hg. simpl. by rewrite Hf.
  - intros x. rewrite list_elem_of_In, in_concat. setoid_rewrite <- list_elem_of_In.
    setoid_rewrite list_elem_of_fmap. split.
    + intros (l & ([cs b] & -> & Hin) & Hx). apply Hb in Hin as (g & Hg & ->).
      exists cs. rewrite Hg. split; [eauto|done].
    + intros (cs & [g Hg] & Hx). rewrite Hg in Hx. eexists. split; [|exact Hx].
      eexists (cs, _). split; [done|]. apply Hb. eauto.
Qed.

(** The graph after a job left, against the graph before. *)
Lemma channel_removed_spec (g g' : node_graph) rc (τ : Id → nat) :
  (∀ k md', g' !! k = Some md' ↔
     ∃ md, g !! k = Some md ∧ md' = (Node.remove_channel md rc (τ k)).1 ∧
           Node.is_empty md' = false) →
  (∀ c k, wants g' c k ↔ wants g c k ∧ c ≠ rc) ∧
  (∀ c k, processor_of g' k = Some c ↔ processor_of g k = Some c ∧ c ≠ rc) ∧
  (∀ k, is_Some (g' !! k) ↔ ∃ c, c ≠ rc ∧ (wants g c k ∨ processor_of g k = Some c)) ∧
  (∀ k, is_Some (g' !! k) → deps_of g' k = deps_of g k).
Proof.
  intros Hl.
  assert (Hw : ∀ md n c, c ∈ wanted_by_reply_channels (Node.remove_channel md rc n).1 ↔
    c ∈ wanted_by_reply_channels md ∧ c ≠ rc).
  { intros md n c. simpl. rewrite list_elem_of_filter. tauto. }
  assert (Hp : ∀ md n c, processing_reply_channel (Node.remove_channel md rc n).1 = Some c ↔
    processing_reply_channel md = Some c ∧ c ≠ rc).
  { intros md n c. simpl. destruct (processing_reply_channel md); [|naive_solver].
    case_decide; naive_solver. }
  assert (He : ∀ md, Node.is_empty md = false ↔
    ∃ c, c ∈ wanted_by_reply_channels md ∨ processing_reply_channel md = Some c).
  { intros md. rewrite NodeFacts.is_empty_false. split.
    - intros [H|[c ?]]; [|by exists c; right].
      destruct (wanted_by_reply_channels md) as [|c ?]; [done|]. exists c. left. constructor.
    - intros (c & [H|H]); [left|right; by exists c]. intros Hnil.
      rewrite Hnil in H. by apply not_elem_of_nil in H. }
  unfold wants, processor_of. split_and!.
  - intros c k. setoid_rewrite Hl. split.
    + intros (_ & (md & Hmd & -> & _) & [Hc ?]%Hw). split; [by exists md|done].
    + intros ((md & Hmd & Hc) & Hne). eexists. split; [|by apply Hw].
      eexists. split_and!; [done..|]. apply He. exists c. left. by apply Hw.
  - intros c k. setoid_rewrite bind_Some. setoid_rewrite Hl. split.
    + intros (_ & (md & Hmd & -> & _) & [Hc ?]%Hp). split; [by exists md|done].
    + intros ((md & Hmd & Hc) & Hne). eexists. split; [|by apply Hp].
      eexists. split_and!; [done..|]. apply He. exists c. right. by apply Hp.
  - intros k. setoid_rewrite bind_Some. split.
    + intros [md' (md & Hmd & -> & (c & Hc)%He)%Hl]. exists c.
      destruct Hc as [[Hc ?]%Hw|[Hc ?]%Hp]; (split; [done|]);
        [left|right]; by exists md.
    + intros (c & Hne & [(md & Hmd & Hc)|(md & Hmd & Hc)]); eexists; apply Hl;
        eexists; (split_and!; [done..|]); apply He; exists c;
        [left; by apply Hw|right; by apply Hp].
  - intros k [md' Hmd']. unfold deps_of. rewrite Hmd'.
    apply Hl in Hmd' as (md & -> & -> & _). done.
Qed.

End operations.

(** ** Theorems *)

Section theorems.
Context `{EO : EnvOk}.

(** When a job reports that it failed to process [id], the loop of
    [remove_node_and_dependents] terminates; on success it removes exactly the
    nodes of the change set that are [id] or depend on it transitively, leaves
    every other node untouched, and the notifications are the reporting job's
    plus one for every job that waits for a removed node; it fails exactly
    when a removed node is being processed by another job. Other change sets
    are untouched and no empty graph is kept. *)
Theorem remove_node_and_dependents_correct d rc cs id g :
  d !! cs = Some g →
  ∃ r d', ChangeSets.remove_node_and_dependents d rc cs id = Some (r, d') ∧
    (∀ cs', cs' ≠ cs → d' !! cs' = d !! cs') ∧
    match r with
    | Ok ns =>
        d' !! cs ≠ Some ∅ ∧
        (∀ z, doomed g [id] z → graph_of d' cs !! z = None) ∧
        (∀ z, ¬ doomed g [id] z → graph_of d' cs !! z = g !! z) ∧
        (∀ c z, (c, z) ∈ ns ↔ (c, z) = (rc, id) ∨ (doomed g [id] z ∧ wants g c z)) ∧
        (∀ z c, doomed g [id] z → processor_of g z = Some c → c = rc)
    | Err e =>
        e = Fault ShouldNotBeProcessingByJob ∧
        ∃ z c, doomed g [id] z ∧ processor_of g z = Some c ∧ c ≠ rc
    end.
Proof.
  intros Hg. unfold ChangeSets.remove_node_and_dependents. rewrite Hg.
  destruct (remove_loop_enough_fuel (size g) rc [id] g [(rc, id)]) as [[r g'] Hl]; [lia|].
  rewrite Hl. apply remove_loop_spec in Hl. unfold processor_of. destruct r as [ns|e]; simpl in Hl.
  - destruct Hl as (H1 & H2 & H3 & H4). eexists _, _. split; [done|].
    assert (Hgr : graph_of (if decide (g' = ∅) then delete cs d else <[cs:=g']> d) cs = g').
    { unfold graph_of. case_decide; [by rewrite lookup_delete_eq|by rewrite lookup_insert_eq]. }
    rewrite Hgr. split_and!; [| |done|done| |].
    + intros cs' Hne. case_decide; [by rewrite lookup_delete_ne|by rewrite lookup_insert_ne].
    + case_decide; [by rewrite lookup_delete_eq|rewrite lookup_insert_eq; congruence].
    + intros c z. rewrite H3, list_elem_of_singleton. unfold wants. naive_solver.
    + intros z c Hz (md & Hmd & Hp)%bind_Some. by eapply H4.
  - destruct Hl as (-> & z & md & c & Hd & Hz & Hp & Hne).
    eexists _, _. split; [done|]. split; [intros; by rewrite lookup_insert_ne|].
    split; [done|]. exists z, c. rewrite Hz. auto.
Qed.

(** Registering a dependency graph never fails; afterwards every value
    keeps its old dependencies and gains the registered ones, the nodes are the
    old ones plus everything the registered graph mentions, the job waits for
    everything the registered graph mentions and no other job's claims change,
    and a graph without dangling dependencies stays so. *)
Theorem merge_dependency_graph_correct d rc (new : Graph) cs n :
  ∃ d' n', ChangeSets.merge_dependency_graph d rc new cs n = (Ok (), d', n') ∧
    (∀ cs', cs' ≠ cs → d' !! cs' = d !! cs') ∧
    (∀ k, deps_of (graph_of d' cs) k =
          deps_of (graph_of d cs) k ∪ list_to_set (from_option Datatypes.id [] (new !! k))) ∧
    (∀ k, is_Some (graph_of d' cs !! k) ↔ is_Some (graph_of d cs !! k) ∨ mentions new k) ∧
    (∀ c k, wants (graph_of d' cs) c k ↔
            wants (graph_of d cs) c k ∨ (c = rc ∧ mentions new k)) ∧
    (∀ k, processor_of (graph_of d' cs) k = processor_of (graph_of d cs) k) ∧
    (closed (graph_of d cs) → closed (graph_of d' cs)).
Proof.
  unfold ChangeSets.merge_dependency_graph. fold (graph_of d cs).
  destruct (ChangeSets.merge_values (graph_of d cs) rc new (ChangeSets.keys new) n)
    as [g' n'] eqn:Hm.
  exists (<[cs:=g']> d), n'. split; [done|].
  assert (Hgr : graph_of (<[cs:=g']> d) cs = g') by by unfold graph_of; rewrite lookup_insert_eq.
  rewrite Hgr. pose proof (merge_values_keys _ _ _ _ _ _ Hm) as Hmg.
  split; [intros; by rewrite lookup_insert_ne|].
  pose proof Hmg as (D & I & W & P). split_and!; [done|done|done|done|].
  by eapply merged_closed.
Qed.

(** What reporting a processed value does on every branch: it panics on an
    unknown change set, fails on an unknown node and on a node another job
    holds; a stale report, or one with unsatisfied dependencies, frees the node
    and only a stale one queues the job again; otherwise the node and every
    dependency on it disappear, all other claims stay, and everyone who waited
    plus the reporting job is notified. *)
Theorem mark_node_as_processed_correct d rc cs id n :
  match d !! cs with
  | None => ChangeSets.mark_node_as_processed d rc cs id n = (Err Panic, d, n)
  | Some g =>
      match g !! id with
      | None =>
          ChangeSets.mark_node_as_processed d rc cs id n = (Err (Fault UnknownNodeId), d, n)
      | Some md =>
          if decide (processing_reply_channel md = Some rc) then
            if is_processing_stale md || negb (dependencies_satisfied md) then
              ∃ md' n', ChangeSets.mark_node_as_processed d rc cs id n =
                        (Ok ∅, <[cs := <[id := md']> g]> d, n') ∧
                processing_reply_channel md' = None ∧
                depends_on_node_ids md' = depends_on_node_ids md ∧
                wanted_by_reply_channels md' =
                  wanted_by_reply_channels md ++
                  (if is_processing_stale md then [rc] else [])
            else
              ∃ g' n', ChangeSets.mark_node_as_processed d rc cs id n =
                       (Ok (list_to_set (wanted_by_reply_channels md) ∪ {[rc]}),
                        if decide (g' = ∅) then delete cs d else <[cs := g']> d, n') ∧
                completed g g' id
          else
            ChangeSets.mark_node_as_processed d rc cs id n =
            (Err (Fault ShouldNotBeProcessingByJob), d, n)
      end
  end.
Proof.
  unfold ChangeSets.mark_node_as_processed.
  destruct (d !! cs) as [g|] eqn:Hg; [|done]. destruct (g !! id) as [md|] eqn:Hid; [|done].
  unfold mark_as_processed. case_decide as Hp.
  2: { by rewrite (insert_id g), (insert_id d). }
  change (is_processing_stale (take_processing md)) with (is_processing_stale md).
  change (dependencies_satisfied (take_processing md)) with (dependencies_satisfied md).
  destruct (is_processing_stale md) eqn:Hs; simpl; [by eauto 10|].
  destruct (dependencies_satisfied md) eqn:Hd; simpl.
  - destruct (ChangeSets.remove_dependency_everywhere (delete id g) id n) as [g' n'] eqn:Hr.
    exists g', n'. split; [done|]. by eapply remove_dependency_everywhere_completed.
  - eexists _, _. split; [done|]. simpl. by rewrite app_nil_r.
Qed.

(** [fetch_all_available] grants a node to a job exactly when the node has
    no unsatisfied dependency, nobody is processing it and the job is the first
    in its waiting list; every grant is recorded, running grants are kept, and
    neither nodes nor dependencies change. *)
Theorem fetch_all_available_correct d n out d' n' :
  ChangeSets.fetch_all_available d n = (out, d', n') →
  (∀ rc id, (rc, id) ∈ out ↔ ∃ cs, available (graph_of d cs) rc id) ∧
  (∀ cs id c, processor_of (graph_of d' cs) id = Some c ↔
     processor_of (graph_of d cs) id = Some c ∨ available (graph_of d cs) c id) ∧
  (∀ cs id, deps_of (graph_of d' cs) id = deps_of (graph_of d cs) id) ∧
  (∀ cs id, is_Some (graph_of d' cs !! id) ↔ is_Some (graph_of d cs !! id)).
Proof.
  intros (τ & outs & _ & Hi & Hg & Hout)%fetch_all_available_spec.
  assert (Hgr : ∀ cs, granted (graph_of d cs) (graph_of d' cs) (if d !! cs is Some _ then outs cs else [])).
  { intros cs. unfold graph_of. destruct (d !! cs) as [g|] eqn:Hcs.
    - destruct (Hg cs g Hcs) as (g' & m & _ & _ & -> & Hf).
      by eapply fetch_available_granted.
    - destruct (d' !! cs) as [g'|] eqn:Hcs'; [exfalso|].
      { destruct (proj1 (Hi cs)); [eauto|congruence]. }
      split_and!; try done; unfold available; set_solver. }
  split_and!.
  - intros rc id. rewrite Hout. split.
    + intros (cs & [g Hcs] & Hx). exists cs. destruct (Hgr cs) as (_ & _ & Ha & _).
      rewrite Hcs in Ha. by apply Ha.
    + intros (cs & Ha). exists cs. destruct (Hgr cs) as (_ & _ & Ha' & _).
      apply Ha' in Ha. destruct (d !! cs); [eauto|set_solver].
  - intros cs id c. apply (Hgr cs).
  - intros cs id. apply (Hgr cs).
  - intros cs id. apply (Hgr cs).
Qed.

(** When a job leaves a change set it no longer waits for or processes
    anything there, every other job's claims are unchanged, exactly the nodes
    some other job still wants or processes are kept, and the dependencies of
    the kept nodes are unchanged. *)
Theorem remove_channel_correct d cs rc n d' n' :
  ChangeSets.remove_channel d cs rc n = (d', n') →
  (∀ cs', cs' ≠ cs → d' !! cs' = d !! cs') ∧
  (∀ c k, wants (graph_of d' cs) c k ↔ wants (graph_of d cs) c k ∧ c ≠ rc) ∧
  (∀ c k, processor_of (graph_of d' cs) k = Some c ↔
          processor_of (graph_of d cs) k = Some c ∧ c ≠ rc) ∧
  (∀ k, is_Some (graph_of d' cs !! k) ↔
        ∃ c, c ≠ rc ∧ (wants (graph_of d cs) c k ∨ processor_of (graph_of d cs) k = Some c)) ∧
  (∀ k, is_Some (graph_of d' cs !! k) → deps_of (graph_of d' cs) k = deps_of (graph_of d cs) k).
Proof.
  destruct (d !! cs) as [g|] eqn:Hg; intros Hr.
  - destruct (remove_channel_lookup _ _ _ _ _ _ _ Hg Hr) as (g' & τ & -> & _ & _ & Hl).
    split; [intros; by rewrite lookup_insert_ne|].
    unfold graph_of; rewrite lookup_insert_eq, Hg; simpl. by apply channel_removed_spec with τ.
  - unfold ChangeSets.remove_channel in Hr; rewrite Hg in Hr. simplify_eq.
    unfold graph_of, wants, processor_of; rewrite Hg; simpl.
    setoid_rewrite lookup_empty. split_and!; naive_solver.
Qed.

End theorems.

(** ** Witnesses *)

Section witnesses.
#[local] Existing Instance tick_env.
#[local] Existing Instance tick_env_ok.

(** Two jobs and three values: [1] depends on [2] and [3], which the job on
    channel [a] is processing, and [b] waits for [3]. *)
Definition sample : ChangeSetGraph :=
  let '(_, d, n) := ChangeSets.merge_dependency_graph ∅ "a" {[1%N := [2%N; 3%N]]} 9%N 0 in
  let '(_, d, n) := ChangeSets.merge_dependency_graph d "b" {[3%N := []]} 9%N n in
  (ChangeSets.fetch_all_available d n).1.2.

Lemma remove_node_and_dependents_correct_witness :
  ∃ r d', ChangeSets.remove_node_and_dependents sample "a" 9%N 2%N = Some (r, d') ∧
    is_ok r = true ∧ graph_of d' 9%N !! 1%N = None ∧ is_Some (graph_of d' 9%N !! 3%N).
Proof.
  destruct (sample !! 9%N) as [g|] eqn:Hg; [|by vm_compute in Hg].
  destruct (remove_node_and_dependents_correct sample "a" 9%N 2%N g Hg) as (r & d' & Hr & _).
  exists r, d'. split; [exact Hr|]. vm_compute in Hr. injection Hr as <- <-.
  by split_and!; vm_compute; [..|eexists].
Defined.

Lemma fetch_all_available_correct_witness :
  ∃ out d' n', ChangeSets.fetch_all_available sample 20 = (out, d', n') ∧ out = [] ∧
    ∀ rc id, (rc, id) ∈ out ↔ ∃ cs, available (graph_of sample cs) rc id.
Proof.
  destruct (ChangeSets.fetch_all_available sample 20) as [[out d'] n'] eqn:Hf.
  exists out, d', n'. split; [done|]. split; [by vm_compute in Hf; injection Hf|].
  apply (fetch_all_available_correct _ _ _ _ _ Hf).
Defined.

Lemma remove_channel_correct_witness :
  ∃ d' n', ChangeSets.remove_channel sample 9%N "b" 20 = (d', n') ∧
    ∀ c k, wants (graph_of d' 9%N) c k ↔ wants (graph_of sample 9%N) c k ∧ c ≠ "b".
Proof.
  destruct (ChangeSets.remove_channel sample 9%N "b" 20) as [d' n'] eqn:Hr.
  exists d', n'. split; [done|]. apply (remove_channel_correct _ _ _ _ _ _ Hr).
Defined.

Lemma merge_dependency_graph_correct_witness :
  ∃ d' n', ChangeSets.merge_dependency_graph sample "c" {[1%N := [4%N]]} 9%N 20 = (Ok (), d', n') ∧
    (∀ c k, wants (graph_of d' 9%N) c k ↔
            wants (graph_of sample 9%N) c k ∨ (c = "c" ∧ mentions {[1%N := [4%N]]} k)).
Proof.
  destruct (merge_dependency_graph_correct sample "c" {[1%N := [4%N]]} 9%N 20)
    as (d' & n' & Hm & _ & _ & _ & Hw & _).
  by exists d', n'.
Defined.

Lemma mark_node_as_processed_correct_witness :
  ∃ g g' n', sample !! 9%N = Some g ∧
    ChangeSets.mark_node_as_processed sample "a" 9%N 2%N 20 =
    (Ok {["a"]}, if decide (g' = ∅) then delete 9%N sample else <[9%N := g']> sample, n') ∧
    completed g g' 2%N.
Proof.
  pose proof (mark_node_as_processed_correct sample "a" 9%N 2%N 20) as H.
  destruct (sample !! 9%N) as [g|] eqn:Hg; [|by vm_compute in Hg].
  destruct (g !! 2%N) as [md|] eqn:Hmd; [|by vm_compute in Hg; simplify_eq].
  vm_compute in Hg. injection Hg as <-. vm_compute in Hmd. injection Hmd as <-.
  rewrite decide_True in H by done. destruct H as (g' & n' & Hm & Hc).
  eexists _, g', n'. split; [reflexivity|]. split; [exact Hm|exact Hc].
Defined.

End witnesses.
