(* ===== verification/CouncilServer.v ===== *)
(** * The council's message loop

    Model of [Server::run] and of the handlers of
    [src/lib/council-server/src/server.rs], with the messages of
    [src/lib/council-server/src/lib.rs]. *)

From S2P Require Import Prelude CouncilNode CouncilGraph.
From stdpp Require Import base tactics list gmap strings sorting.
Import Queue Node.

Module Council.

(** ** Messages *)

Inductive Request : Type :=
| Bye (change_set_id : Id)
| CreateValues
| ProcessedValue (change_set_id node_id : Id)
| ValueCreationDone
| ValueDependencyGraph (change_set_id : Id) (dependency_graph : Graph)
| ValueProcessingFailed (change_set_id node_id : Id).

Inductive Response : Type :=
| BeenProcessed (node_id : Id)
| Failed (node_id : Id)
| OkToCreate
| OkToProcess (node_ids : list Id)
| Shutdown.

#[export] Instance Response_eq_dec : EqDecision Response.
Proof. solve_decision. Defined.

(** A message published on a reply channel. *)
Abbreviation published := (channel * Response)%type (only parsing).

(** ** State *)

(** The two local variables of [Server::run], and how often the clock has been
    read. *)
Record Server := {
  value_create_queue : ValueCreationQueue;
  complete_graph : ChangeSetGraph;
  readings : nat;
}.

Definition initial : Server :=
  {| value_create_queue := Queue.default; complete_graph := ∅; readings := 0 |}.

Section server.
Context `{E : Env}.

(** ** Handlers *)

Definition job_would_like_to_create_attribute_values (s : Server) (rc : channel) :
    result fault (list published) * Server :=
  (Ok [], {| value_create_queue := push (value_create_queue s) rc;
             complete_graph := complete_graph s;
             readings := readings s |}).

Definition job_finished_value_creation (s : Server) (rc : channel) :
    result fault (list published) * Server :=
  let '(r, q) := finished_processing (value_create_queue s) rc in
  ((λ _, []) <$> r, {| value_create_queue := q;
                       complete_graph := complete_graph s;
                       readings := readings s |}).

Definition register_graph_from_job (s : Server) (rc : channel) (change_set_id : Id)
    (new : Graph) : result fault (list published) * Server :=
  let '(r, d, n) :=
    ChangeSets.merge_dependency_graph (complete_graph s) rc new change_set_id (readings s) in
  ((λ _, []) <$> r, {| value_create_queue := value_create_queue s;
                       complete_graph := d; readings := n |}).

Definition job_processed_a_value (s : Server) (rc : channel)
    (change_set_id node_id : Id) : result fault (list published) * Server :=
  let '(r, d, n) :=
    ChangeSets.mark_node_as_processed (complete_graph s) rc change_set_id node_id
      (readings s) in
  ((λ cs, (λ c, (c, BeenProcessed node_id)) <$> channel_order (elements cs)) <$> r,
   {| value_create_queue := value_create_queue s; complete_graph := d; readings := n |}).

(** [None] is exhausted fuel of [ChangeSets.remove_loop]; it does not occur
    ([ChangeSets.remove_loop_enough_fuel]). *)
Definition job_failed_processing_a_value (s : Server) (rc : channel)
    (change_set_id node_id : Id) : option (result fault (list published) * Server) :=
  match
    ChangeSets.remove_node_and_dependents (complete_graph s) rc change_set_id node_id
  with
  | None => None
  | Some (r, d) =>
      Some ((fmap (M := list) (λ p, (p.1, Failed p.2))) <$> r,
            {| value_create_queue := value_create_queue s; complete_graph := d;
               readings := readings s |})
  end.

Definition job_is_going_away (s : Server) (rc : channel) (change_set_id : Id) :
    result fault (list published) * Server :=
  let '(d, n) :=
    ChangeSets.remove_channel (complete_graph s) change_set_id rc (readings s) in
  (Ok [], {| value_create_queue := remove (value_create_queue s) rc;
             complete_graph := d; readings := n |}).

(** The [match request] of the loop. *)
Definition handle_request (s : Server) (rc : channel) (request : Request) :
    option (result fault (list published) * Server) :=
  match request with
  | CreateValues => Some (job_would_like_to_create_attribute_values s rc)
  | ValueCreationDone => Some (job_finished_value_creation s rc)
  | ValueDependencyGraph change_set_id dependency_graph =>
      Some (register_graph_from_job s rc change_set_id dependency_graph)
  | ProcessedValue change_set_id node_id =>
      Some (job_processed_a_value s rc change_set_id node_id)
  | Bye change_set_id => Some (job_is_going_away s rc change_set_id)
  | ValueProcessingFailed change_set_id node_id =>
      job_failed_processing_a_value s rc change_set_id node_id
  end.

(** ** The loop *)

(** What [tokio::select!] yields: the 60 second timer, a message that cannot
    be decoded or has no reply channel, a request, or the end of the
    subscription or a shutdown request. *)
Inductive event : Type :=
| Sleep
| Undecodable
| Message (rc : channel) (request : Request)
| Stop.

Inductive outcome : Type :=
| Continue (s : Server) (out : list published)
| Break (out : list published)
| Panicked (out : list published).

(** The grants made before the loop waits for the next message. *)
Definition grant (s : Server) : Server * list published :=
  let '(next, q) := fetch_next (value_create_queue s) in
  let '(available, d, n) :=
    ChangeSets.fetch_all_available (complete_graph s) (readings s) in
  ({| value_create_queue := q; complete_graph := d; readings := n |},
   (match next with Some rc => [(rc, OkToCreate)] | None => [] end) ++
   ((λ '(rc, id), (rc, OkToProcess [id])) <$> available)).

(** One iteration of the loop. Every handler's result is unwrapped. *)
Definition iteration (s : Server) (ev : event) : option outcome :=
  let '(s1, granted) := grant s in
  match ev with
  | Sleep | Undecodable => Some (Continue s1 granted)
  | Stop => Some (Break granted)
  | Message rc request =>
      match handle_request s1 rc request with
      | Some (Ok out, s2) => Some (Continue s2 (granted ++ out))
      | Some (Err _, _) => Some (Panicked granted)
      | None => None
      end
  end.

(** Runs of the loop, as a step relation. *)
Inductive step : Server → event → list published → Server → Prop :=
| step_continue s ev out s' :
    iteration s ev = Some (Continue s' out) → step s ev out s'.

(** The states at the top of the loop, with what was received and published. *)
Inductive reachable : list (event * list published) → Server → Prop :=
| reachable_initial : reachable [] initial
| reachable_step tr s ev out s' :
    reachable tr s → step s ev out s' → reachable (tr ++ [(ev, out)]) s'.

(** A run over a list of events, for evaluation. *)
Fixpoint run (s : Server) (evs : list event) : option (outcome) :=
  match evs with
  | [] => Some (Continue s [])
  | ev :: evs =>
      match iteration s ev with
      | Some (Continue s' out) =>
          match run s' evs with
          | Some (Continue s'' out') => Some (Continue s'' (out ++ out'))
          | Some (Break out') => Some (Break (out ++ out'))
          | Some (Panicked out') => Some (Panicked (out ++ out'))
          | None => None
          end
      | o => o
      end
  end.

(** The same with the trace of [reachable]. *)
Fixpoint play (s : Server) (evs : list event) :
    option (list (event * list published) * Server) :=
  match evs with
  | [] => Some ([], s)
  | ev :: evs =>
      match iteration s ev with
      | Some (Continue s' out) =>
          match play s' evs with
          | Some (tr, s'') => Some ((ev, out) :: tr, s'')
          | None => None
          end
      | _ => None
      end
  end.

End server.

End Council.

(** ** Specification vocabulary *)

Module CouncilFacts.
Import Council.

(** The invariant of [NodeFacts.node_ok] for all change sets. *)
Definition data_ok `{E : Env} (n : nat) (d : ChangeSetGraph) : Prop :=
  ∀ cs g, d !! cs = Some g → graph_ok n g.

(** No change set has a dangling dependency. *)
Definition data_closed (d : ChangeSetGraph) : Prop :=
  ∀ cs g, d !! cs = Some g → closed g.

(** What the value creation queue promises, over the observable messages: a
    lock with one holder, handed out in the order of the requests. *)
Record lock := { holder : option channel; waiting : list channel }.

Definition lock_grant (l : lock) (p : published) : option lock :=
  match p with
  | (rc, OkToCreate) =>
      match holder l, waiting l with
      | None, next :: rest =>
          if decide (next = rc) then Some {| holder := Some rc; waiting := rest |} else None
      | _, _ => None
      end
  | _ => Some l
  end.

Definition lock_event (l : lock) (ev : event) : option lock :=
  match ev with
  | Message rc CreateValues => Some {| holder := holder l; waiting := waiting l ++ [rc] |}
  | Message rc ValueCreationDone =>
      if decide (holder l = Some rc)
      then Some {| holder := None; waiting := waiting l |} else None
  | Message rc (Bye _) =>
      Some {| holder := if decide (holder l = Some rc) then None else holder l;
              waiting := filter (λ c, rc ≠ c) (waiting l) |}
  | _ => Some l
  end.

(** A trace is accepted when every grant goes to the first waiting job while
    nobody holds the lock, and only the holder releases it. *)
Fixpoint lock_accepts (l : lock) (tr : list (event * list published)) : option lock :=
  match tr with
  | [] => Some l
  | (ev, out) :: tr =>
      match foldl (λ o p, o ≫= λ l, lock_grant l p) (Some l) out with
      | None => None
      | Some l1 =>
          match lock_event l1 ev with
          | None => None
          | Some l2 => lock_accepts l2 tr
          end
      end
  end.

(** When the handler of a request fails, in terms of the state it runs in. *)
Definition request_fails (s : Server) (rc : channel) (request : Request) : Prop :=
  match request with
  | ValueCreationDone => processing (value_create_queue s) ≠ Some rc
  | ProcessedValue cs id => processor_of (graph_of (complete_graph s) cs) id ≠ Some rc
  | ValueProcessingFailed cs id =>
      complete_graph s !! cs = None ∨
      ∃ z c, doomed (graph_of (complete_graph s) cs) [id] z ∧
             processor_of (graph_of (complete_graph s) cs) z = Some c ∧ c ≠ rc
  | _ => False
  end.

(** ** Preservation of the invariants by the operations *)

Section preservation.
Context `{EO : EnvOk}.

Lemma graph_of_Some d cs g : d !! cs = Some g → graph_of d cs = g.
Proof. unfold graph_of. by intros ->. Qed.

Lemma data_closed_graph_of d : data_closed d ↔ ∀ cs, closed (graph_of d cs).
Proof.
  split.
  - intros H cs. unfold graph_of. destruct (d !! cs) eqn:Hcs; [by eapply H|].
    intros ? ? ?. set_solver.
  - intros H cs g Hg. by rewrite <- (graph_of_Some d cs g Hg).
Qed.

Lemma data_closed_insert d cs g : closed g → data_closed d → data_closed (<[cs := g]> d).
Proof. intros ? H cs' g' [[_ <-]|[_ ?]]%lookup_insert_Some; eauto. Qed.

Lemma data_closed_delete d cs : data_closed d → data_closed (delete cs d).
Proof. intros H cs' g' [_ ?]%lookup_delete_Some; eauto. Qed.

Lemma fetch_all_available_closed d n out d' n' :
  ChangeSets.fetch_all_available d n = (out, d', n') → data_closed d → data_closed d'.
Proof.
  intros (τ & outs & _ & Hi & Hg & _)%fetch_all_available_spec Hc cs g' Hg'.
  destruct (proj1 (Hi cs)) as [g Hcs]; [eauto|].
  destruct (Hg cs g Hcs) as (g1 & m & _ & _ & Hg1 & Hf). simplify_eq.
  eapply granted_closed; [by eapply fetch_available_granted|eauto].
Qed.

Lemma mark_node_as_processed_closed d rc cs id n r d' n' :
  ChangeSets.mark_node_as_processed d rc cs id n = (r, d', n') →
  data_closed d → data_closed d'.
Proof.
  unfold ChangeSets.mark_node_as_processed. intros Hm Hc.
  destruct (d !! cs) as [g|] eqn:Hg; [|by simplify_eq].
  destruct (g !! id) as [md|] eqn:Hid; [|by simplify_eq].
  assert (Hins : ∀ md', depends_on_node_ids md' = depends_on_node_ids md →
    data_closed (<[cs := <[id := md']> g]> d)).
  { intros md' Hd. apply data_closed_insert; [|done]. by eapply closed_insert; eauto. }
  unfold mark_as_processed in Hm. case_decide; [|simplify_eq/=; auto].
  destruct (is_processing_stale _); simpl in Hm; [simplify_eq; auto|].
  destruct (dependencies_satisfied _); simpl in Hm; [|simplify_eq; auto].
  destruct (ChangeSets.remove_dependency_everywhere _ _ _) as [g' n1] eqn:Hr. simplify_eq.
  apply remove_dependency_everywhere_completed in Hr.
  case_decide; [by apply data_closed_delete|].
  apply data_closed_insert; [|done]. eapply completed_closed; eauto.
Qed.

Lemma remove_node_and_dependents_closed d rc cs id ns d' :
  ChangeSets.remove_node_and_dependents d rc cs id = Some (Ok ns, d') →
  data_closed d → data_closed d'.
Proof.
  unfold ChangeSets.remove_node_and_dependents. intros Hr Hc.
  destruct (d !! cs) as [g|] eqn:Hg; [|by simplify_eq].
  destruct (ChangeSets.remove_loop _ _ _ _ _) as [[[ns'|e] g']|] eqn:Hl; simplify_eq.
  case_decide; [by apply data_closed_delete|].
  apply data_closed_insert; [|done]. eapply remove_loop_closed; eauto.
Qed.

Lemma merge_dependency_graph_closed d rc new cs n r d' n' :
  ChangeSets.merge_dependency_graph d rc new cs n = (r, d', n') →
  data_closed d → data_closed d'.
Proof.
  unfold ChangeSets.merge_dependency_graph. fold (graph_of d cs). intros Hm Hc.
  destruct (ChangeSets.merge_values _ _ _ _ _) as [g' n1] eqn:Hv. simplify_eq.
  apply data_closed_insert; [|done]. eapply merged_closed; [by eapply merge_values_keys|].
  by apply data_closed_graph_of.
Qed.

Lemma data_ok_mono n m d : n ≤ m → data_ok n d → data_ok m d.
Proof. intros ? H cs g ?. eapply graph_ok_mono; eauto. Qed.

Lemma data_ok_insert n d cs g : graph_ok n g → data_ok n d → data_ok n (<[cs := g]> d).
Proof using Type. intros ? H cs' g' [[_ <-]|[_ ?]]%lookup_insert_Some; eauto. Qed.

Lemma data_ok_delete n d cs : data_ok n d → data_ok n (delete cs d).
Proof using Type. intros H cs' g' [_ ?]%lookup_delete_Some; eauto. Qed.

Lemma fetch_all_available_ok d n out d' n' :
  ChangeSets.fetch_all_available d n = (out, d', n') →
  n ≤ n' ∧ (data_ok n d → data_ok n' d').
Proof.
  intros (τ & outs & Hn & Hi & Hg & _)%fetch_all_available_spec. split; [done|].
  intros Hok cs g' Hg'. destruct (proj1 (Hi cs)) as [g Hcs]; [eauto|].
  destruct (Hg cs g Hcs) as (g1 & m & H1 & H2 & Hg1 & Hf). simplify_eq.
  eapply graph_ok_mono; [exact H2|]. apply fetch_available_ok in Hf as [_ Hf].
  apply Hf. eapply graph_ok_mono; [exact H1|]. eauto.
Qed.

Lemma merge_dependency_graph_ok d rc new cs n r d' n' :
  ChangeSets.merge_dependency_graph d rc new cs n = (r, d', n') →
  n ≤ n' ∧ (data_ok n d → data_ok n' d').
Proof.
  unfold ChangeSets.merge_dependency_graph. fold (graph_of d cs). intros Hm.
  destruct (ChangeSets.merge_values _ _ _ _ _) as [g' n1] eqn:Hv. simplify_eq.
  apply merge_values_ok in Hv as [Hn Hv]. split; [done|]. intros Hok.
  apply data_ok_insert; [|by eapply data_ok_mono]. apply Hv.
  unfold graph_of. destruct (d !! cs) eqn:Hcs; [by eapply Hok|]. intros ? ? ?. set_solver.
Qed.

Lemma mark_node_as_processed_ok d rc cs id n r d' n' :
  ChangeSets.mark_node_as_processed d rc cs id n = (r, d', n') →
  data_ok n d → n ≤ n' ∧ data_ok n' d'.
Proof.
  unfold ChangeSets.mark_node_as_processed. intros Hm Hok.
  destruct (d !! cs) as [g|] eqn:Hg; [|by simplify_eq].
  destruct (g !! id) as [md|] eqn:Hid; [|by simplify_eq].
  pose proof (Hok cs g Hg id md Hid) as Hmd.
  destruct (decide (processing_reply_channel md = Some rc)) as [Hp|Hp].
  - destruct (NodeFacts.mark_as_processed_ok n md rc Hmd Hp)
      as [(cs' & md' & Hma & _ & _)|[(md' & Hma & Hmd' & _)|(md' & Hma & Hmd' & _)]]; rewrite Hma in Hm.
    + destruct (ChangeSets.remove_dependency_everywhere _ _ _) as [g' n1] eqn:Hr. simplify_eq.
      apply remove_dependency_everywhere_ok in Hr as [Hn Hr]. split; [done|].
      assert (graph_ok n' g') by (apply Hr, graph_ok_delete; eauto).
      case_decide; [by apply data_ok_delete; eapply data_ok_mono|].
      apply data_ok_insert; [done|by eapply data_ok_mono].
    + simplify_eq. split; [lia|]. apply data_ok_insert.
      * apply graph_ok_insert; [done|]. eapply graph_ok_mono; [|eauto]; lia.
      * eapply data_ok_mono; [|done]; lia.
    + simplify_eq. split; [lia|]. apply data_ok_insert; [|done]. apply graph_ok_insert; [done|eauto].
  - rewrite NodeFacts.mark_as_processed_err in Hm by done. simplify_eq. split; [done|].
    by rewrite (insert_id g), (insert_id d).
Qed.

Lemma remove_node_and_dependents_ok n d rc cs id r d' :
  ChangeSets.remove_node_and_dependents d rc cs id = Some (r, d') →
  data_ok n d → data_ok n d'.
Proof using Type.
  unfold ChangeSets.remove_node_and_dependents. intros Hr Hok.
  destruct (d !! cs) as [g|] eqn:Hg; [|by simplify_eq].
  destruct (ChangeSets.remove_loop _ _ _ _ _) as [[r' g']|] eqn:Hl; [|done].
  apply remove_loop_subseteq in Hl.
  assert (graph_ok n g').
  { intros k md Hk. eapply (Hok cs g Hg). by eapply lookup_weaken. }
  destruct r'; simplify_eq; [case_decide; [by apply data_ok_delete|]|];
    by apply data_ok_insert.
Qed.

Lemma remove_channel_ok d cs rc n d' n' :
  ChangeSets.remove_channel d cs rc n = (d', n') →
  data_ok n d → n ≤ n' ∧ data_ok n' d'.
Proof.
  intros Hr Hok. destruct (d !! cs) as [g|] eqn:Hg.
  - destruct (remove_channel_lookup _ _ _ _ _ _ _ Hg Hr) as (g' & τ & -> & Hn & Hτ & Hl).
    split; [done|]. apply data_ok_insert; [|by eapply data_ok_mono].
    intros k md' (md & Hmd & -> & He)%Hl. split; [|by left].
    destruct (Hτ k md Hmd) as [H1 H2]. eapply NodeFacts.node_wf_mono; [exact H2|].
    apply NodeFacts.remove_channel_wf. eapply NodeFacts.node_wf_mono; [exact H1|].
    apply (Hok cs g Hg k md Hmd).
  - unfold ChangeSets.remove_channel in Hr. rewrite Hg in Hr. by simplify_eq.
Qed.

End preservation.

End CouncilFacts.

(** ** Runs of the loop *)

Module CouncilRuns.
Import Council CouncilFacts.

Section runs.
Context `{EO : EnvOk}.

Lemma handle_request_total s rc request : is_Some (handle_request s rc request).
Proof.
  destruct request; simpl; eauto.
  unfold job_failed_processing_a_value, ChangeSets.remove_node_and_dependents.
  destruct (complete_graph s !! change_set_id) as [g|]; [|eauto].
  destruct (remove_loop_enough_fuel (size g) rc [node_id] g [(rc, node_id)])
    as [[[?|?] ?] ->]; eauto.
Qed.

(** A handler fails exactly under [request_fails]. *)
Lemma handle_request_fails s rc request r s' :
  handle_request s rc request = Some (r, s') → is_ok r = false ↔ request_fails s rc request.
Proof.
  destruct request; simpl; intros Hh.
  - unfold job_is_going_away in Hh.
    destruct (ChangeSets.remove_channel _ _ _ _). by simplify_eq.
  - by injection Hh as <- <-.
  - unfold job_processed_a_value, ChangeSets.mark_node_as_processed in Hh.
    unfold processor_of, graph_of. destruct (complete_graph s !! change_set_id) as [g|];
      simpl in *; [|rewrite lookup_empty; by simplify_eq].
    destruct (g !! node_id) as [md|]; simpl in *; [|by simplify_eq].
    unfold mark_as_processed in Hh. case_decide as Hd; [|by simplify_eq].
    destruct (is_processing_stale _); [simpl in Hh; by simplify_eq|].
    destruct (dependencies_satisfied _); [|simpl in Hh; by simplify_eq].
    destruct (ChangeSets.remove_dependency_everywhere _ _ _). simpl in Hh. by simplify_eq.
  - unfold job_finished_value_creation, finished_processing in Hh.
    case_decide; simplify_eq/=; naive_solver.
  - unfold register_graph_from_job, ChangeSets.merge_dependency_graph in Hh.
    destruct (ChangeSets.merge_values _ _ _ _ _). by simplify_eq.
  - unfold job_failed_processing_a_value, ChangeSets.remove_node_and_dependents in Hh.
    unfold graph_of. destruct (complete_graph s !! change_set_id) as [g|]; simpl in *;
      [|simplify_eq/=; naive_solver].
    destruct (ChangeSets.remove_loop _ _ _ _ _) as [[[ns|e] g']|] eqn:Hl; simplify_eq;
      apply remove_loop_spec in Hl; simpl in Hl |- *; unfold processor_of.
    + destruct Hl as (_ & _ & _ & H4). split; [done|].
      intros [?|(z & c & Hd & (md & Hmd & Hp)%bind_Some & Hne)]; [done|].
      by destruct Hne; eapply H4.
    + destruct Hl as (-> & z & md & c & Hd & Hz & Hp & Hne). split; [|done].
      intros _. right. exists z, c. rewrite Hz. auto.
Qed.

Lemma grant_closed s : data_closed (complete_graph s) →
  data_closed (complete_graph (grant s).1).
Proof.
  unfold grant. destruct (fetch_next _) as [next q].
  destruct (ChangeSets.fetch_all_available _ _) as [[out d] n] eqn:Hf. simpl.
  by eapply fetch_all_available_closed.
Qed.

Lemma handle_request_closed s rc request out s' :
  (∀ cs, request ≠ Bye cs) →
  handle_request s rc request = Some (Ok out, s') →
  data_closed (complete_graph s) → data_closed (complete_graph s').
Proof.
  intros Hbye Hh Hc. destruct request; simpl in Hh.
  - by destruct (Hbye change_set_id).
  - by injection Hh as <- <-.
  - unfold job_processed_a_value in Hh.
    destruct (ChangeSets.mark_node_as_processed _ _ _ _ _) as [[r d] n] eqn:Hm. simplify_eq.
    by eapply mark_node_as_processed_closed.
  - unfold job_finished_value_creation in Hh.
    destruct (finished_processing _ _). by simplify_eq.
  - unfold register_graph_from_job in Hh.
    destruct (ChangeSets.merge_dependency_graph _ _ _ _ _) as [[r d] n] eqn:Hm. simplify_eq.
    by eapply merge_dependency_graph_closed.
  - unfold job_failed_processing_a_value in Hh.
    destruct (ChangeSets.remove_node_and_dependents _ _ _ _) as [[[ns|e] d]|] eqn:Hr;
      simplify_eq/=. by eapply remove_node_and_dependents_closed.
Qed.

(** The creation queue follows the lock specification. *)
Definition lock_of (q : ValueCreationQueue) : lock :=
  {| holder := processing q; waiting := queue q |}.

Lemma lock_grants_ignored (l : lock) (out : list published) :
  (∀ p, p ∈ out → p.2 ≠ OkToCreate) →
  foldl (λ o p, o ≫= λ l, lock_grant l p) (Some l) out = Some l.
Proof.
  induction out as [|[rc r] out IH]; intros Hout; simpl; [done|].
  assert (r ≠ OkToCreate) by (apply (Hout (rc, r)); set_solver).
  destruct r; try done; apply IH; set_solver.
Qed.

Lemma grant_lock s s1 out :
  grant s = (s1, out) →
  foldl (λ o p, o ≫= λ l, lock_grant l p) (Some (lock_of (value_create_queue s))) out =
  Some (lock_of (value_create_queue s1)).
Proof.
  unfold grant, fetch_next, is_busy.
  destruct (ChangeSets.fetch_all_available _ _) as [[av d] n]. intros Hg.
  assert (Hav : ∀ p, p ∈ (λ '(rc, id), (rc, OkToProcess [id])) <$> av → p.2 ≠ OkToCreate).
  { intros p ([rc id] & -> & _)%list_elem_of_fmap. done. }
  destruct (value_create_queue s) as [[c|] qs]; simpl in *; simplify_eq/=.
  - by apply lock_grants_ignored.
  - destruct qs as [|next rest]; simplify_eq/=; [by apply lock_grants_ignored|].
    rewrite decide_True by done. by apply lock_grants_ignored.
Qed.

(** Handlers never grant the creation lock. *)
Lemma handle_request_lock s rc request out s' :
  handle_request s rc request = Some (Ok out, s') →
  (∀ p, p ∈ out → p.2 ≠ OkToCreate) ∧
  lock_event (lock_of (value_create_queue s)) (Message rc request) =
  Some (lock_of (value_create_queue s')).
Proof.
  destruct request; simpl; intros Hh.
  - unfold job_is_going_away in Hh. destruct (ChangeSets.remove_channel _ _ _ _).
    simplify_eq. split; [set_solver|]. unfold lock_of, remove; simpl.
    destruct (processing (value_create_queue s)) as [c|]; simpl; [|done].
    do 2 f_equal. destruct (decide (c = rc)) as [->|]; [by rewrite decide_True|].
    by rewrite decide_False by congruence.
  - injection Hh as <- <-. split; [set_solver|done].
  - unfold job_processed_a_value in Hh.
    destruct (ChangeSets.mark_node_as_processed _ _ _ _ _) as [[[cs|] d] n]; simplify_eq/=.
    split; [|done]. intros p (c & -> & _)%list_elem_of_fmap. done.
  - unfold job_finished_value_creation, finished_processing in Hh.
    case_decide; simplify_eq/=. split; [set_solver|done].
  - unfold register_graph_from_job, ChangeSets.merge_dependency_graph in Hh.
    destruct (ChangeSets.merge_values _ _ _ _ _). simplify_eq/=. split; [set_solver|done].
  - unfold job_failed_processing_a_value in Hh.
    destruct (ChangeSets.remove_node_and_dependents _ _ _ _) as [[[ns|e] d]|]; simplify_eq/=.
    split; [|done]. intros p (c & -> & _)%list_elem_of_fmap. done.
Qed.

Lemma lock_accepts_app l tr1 tr2 :
  lock_accepts l (tr1 ++ tr2) = lock_accepts l tr1 ≫= λ l, lock_accepts l tr2.
Proof.
  revert l. induction tr1 as [|[ev out] tr1 IH]; intros l; [done|]. simpl.
  destruct (foldl _ _ _); simpl; [|done]. destruct (lock_event _ _); simpl; auto.
Qed.

Lemma step_lock s ev out s' :
  step s ev out s' →
  lock_accepts (lock_of (value_create_queue s)) [(ev, out)] =
  Some (lock_of (value_create_queue s')).
Proof.
  intros Hst. destruct Hst as [s ev out s' Hi]. unfold iteration in Hi.
  cbn [lock_accepts].
  destruct (grant _) as [s1 granted] eqn:Hg. apply grant_lock in Hg.
  destruct ev as [| |rc request|]; cbv iota in Hi; simplify_eq; try by rewrite Hg.
  destruct (handle_request s1 rc request) as [[[out'|] s2]|] eqn:Hh; simplify_eq.
  apply handle_request_lock in Hh as [Hout Hev].
  rewrite foldl_app, Hg, (lock_grants_ignored _ out') by done. by rewrite Hev.
Qed.

Lemma play_reachable_from tr s evs tr' s' :
  reachable tr s → play s evs = Some (tr', s') → reachable (tr ++ tr') s'.
Proof.
  revert tr s tr' s'. induction evs as [|ev evs IH]; intros tr s tr' s' Hr Hp; simpl in Hp.
  { simplify_eq. by rewrite app_nil_r. }
  destruct (iteration s ev) as [[s1 out| |]|] eqn:Hi; simplify_eq.
  destruct (play s1 evs) as [[tr1 s2]|] eqn:Hp1; simplify_eq.
  rewrite cons_middle, (assoc_L (++)). eapply IH; [|done].
  eapply reachable_step; [done|by constructor].
Qed.

Lemma play_reachable evs tr s : play initial evs = Some (tr, s) → reachable tr s.
Proof. apply (play_reachable_from []). constructor. Qed.

End runs.

Section strict.
Context `{EO : EnvOk}.

Lemma grant_ok s : data_ok (readings s) (complete_graph s) →
  data_ok (readings (grant s).1) (complete_graph (grant s).1).
Proof.
  unfold grant. destruct (fetch_next _) as [next q].
  destruct (ChangeSets.fetch_all_available _ _) as [[out d] n] eqn:Hf. simpl.
  by apply fetch_all_available_ok in Hf as [_ Hf].
Qed.

Lemma handle_request_ok s rc request r s' :
  handle_request s rc request = Some (r, s') →
  data_ok (readings s) (complete_graph s) → data_ok (readings s') (complete_graph s').
Proof.
  intros Hh Hok. destruct request; simpl in Hh.
  - unfold job_is_going_away in Hh.
    destruct (ChangeSets.remove_channel _ _ _ _) as [d n] eqn:Hr. simplify_eq/=.
    by eapply remove_channel_ok.
  - by injection Hh as <- <-.
  - unfold job_processed_a_value in Hh.
    destruct (ChangeSets.mark_node_as_processed _ _ _ _ _) as [[r' d] n] eqn:Hm. simplify_eq/=.
    by eapply mark_node_as_processed_ok.
  - unfold job_finished_value_creation in Hh.
    destruct (finished_processing _ _). by simplify_eq.
  - unfold register_graph_from_job in Hh.
    destruct (ChangeSets.merge_dependency_graph _ _ _ _ _) as [[r' d] n] eqn:Hm. simplify_eq/=.
    by eapply merge_dependency_graph_ok.
  - unfold job_failed_processing_a_value in Hh.
    destruct (ChangeSets.remove_node_and_dependents _ _ _ _) as [[r' d]|] eqn:Hr;
      simplify_eq/=. by eapply remove_node_and_dependents_ok.
Qed.

Lemma reachable_data_ok tr s : reachable tr s → data_ok (readings s) (complete_graph s).
Proof.
  induction 1 as [|tr s ev out s' Hr IH Hst]; [intros ? ? ?; set_solver|].
  destruct Hst as [s ev out s' Hi]. unfold iteration in Hi. pose proof (grant_ok s IH) as Hg.
  destruct (grant s) as [s1 granted]. destruct ev as [| |rc request|]; simplify_eq/=; try done.
  destruct (handle_request s1 rc request) as [[[out'|] s2]|] eqn:Hh; simplify_eq.
  by eapply handle_request_ok.
Qed.

End strict.

End CouncilRuns.

(** ** Theorems *)

Module CouncilTheorems.
Import Council CouncilFacts CouncilRuns.

Section theorems.
Context `{EO : EnvOk}.

(** C12: The value creation queue is a fair lock: in every run, a job is told
    [OkToCreate] only while no other job holds the permission, grants follow
    the order of the [CreateValues] requests of the jobs that have not left,
    and the holder recorded by the server is the one the messages determine. *)
Theorem creation_permission_is_a_fifo_lock tr s :
  reachable tr s →
  lock_accepts {| holder := None; waiting := [] |} tr =
  Some {| holder := processing (value_create_queue s);
          waiting := queue (value_create_queue s) |}.
Proof.
  induction 1 as [|tr s ev out s' Hr IH Hst]; [done|].
  rewrite lock_accepts_app, IH. apply (step_lock s ev out s' Hst).
Qed.

(** One iteration of the loop always terminates with an outcome, and a
    message brings the server down exactly when a job releases a creation
    permission it does not hold, reports a value it is not processing, or
    reports a failure in an unknown change set or one whose dependents another
    job is processing. *)
Theorem iteration_panics_iff s rc request :
  (∃ o, iteration s (Message rc request) = Some o) ∧
  ((∃ out, iteration s (Message rc request) = Some (Panicked out)) ↔
   request_fails (grant s).1 rc request).
Proof.
  unfold iteration. destruct (grant s) as [s1 granted]; simpl.
  destruct (handle_request_total s1 rc request) as [[r s2] Hh]. rewrite Hh.
  apply handle_request_fails in Hh. destruct r; simpl in Hh; naive_solver.
Qed.

(** As long as no job says [Bye], no step of the loop creates a dangling
    dependency: every dependency of a registered value is itself registered. *)
Theorem no_dangling_dependency_without_bye s ev out s' :
  step s ev out s' → (∀ rc cs, ev ≠ Message rc (Bye cs)) →
  data_closed (complete_graph s) → data_closed (complete_graph s').
Proof.
  intros Hst Hbye Hc. destruct Hst as [s ev out s' Hi]. unfold iteration in Hi.
  pose proof (grant_closed s Hc) as Hg. destruct (grant s) as [s1 granted].
  destruct ev as [| |rc request|]; simplify_eq/=; try done.
  destruct (handle_request s1 rc request) as [[[out'|] s2]|] eqn:Hh; simplify_eq.
  eapply handle_request_closed; [|done|done]. intros cs ->. by apply (Hbye rc cs).
Qed.

End theorems.

Section strict_theorems.
Context `{EO : EnvOk}.

(** C29: No deadlock: in every reachable state, after the grants of an iteration, a
    nonempty dependency graph that is acyclic and has no dangling dependency has a node
    that some job has been told to process; or a node has been forgotten, which no job
    wants or processes, and then the clock, which is only monotone, gave one instant
    twice. [same_instant_strands_job] shows that this can happen. *)
Theorem nonempty_graph_is_being_processed tr s cs rank :
  reachable tr s →
  graph_of (complete_graph s) cs ≠ ∅ →
  closed (graph_of (complete_graph s) cs) →
  ranked rank (graph_of (complete_graph s) cs) →
  (∃ id c, processor_of (graph_of (complete_graph (grant s).1) cs) id = Some c) ∨
  (coincided (readings s) ∧
   ∃ id md, graph_of (complete_graph s) cs !! id = Some md ∧ Node.is_empty md = true).
Proof.
  intros Hr Hne Hc Hk. apply reachable_data_ok in Hr.
  unfold graph_of in Hne, Hc, Hk |- * at 2.
  destruct (complete_graph s !! cs) as [g|] eqn:Hcs; [simpl in *|done].
  destruct (decide (map_Forall (λ _ md, Node.is_empty md = false) g)) as [Hall|Hsome].
  2: { right. apply map_not_Forall in Hsome as (id & md & Hmd & He); [|apply _].
       apply not_false_iff_true in He. destruct (Hr cs g Hcs id md Hmd) as [_ [?|?]]; [congruence|]. eauto. }
  left. destruct (closed_ranked_progress rank g) as [(id & c & Hp)|(rc & id & Ha)]; [done..| |].
  all: unfold grant; destruct (fetch_next _) as [next q];
    destruct (ChangeSets.fetch_all_available _ _) as [[out d] n] eqn:Hf; simpl;
    apply fetch_all_available_spec in Hf as (τ & outs & _ & _ & Hg & _);
    destruct (Hg cs g Hcs) as (g' & m & _ & _ & Hg' & Hf);
    apply fetch_available_granted in Hf as (_ & _ & _ & Hproc);
    rewrite (graph_of_Some _ _ _ Hg').
  - exists id, c. apply Hproc. by left.
  - exists id, rc. apply Hproc. by right.
Qed.

(** No job is forgotten: when the job that has been told to process a value
    reports it, the server does not fail, and either the value is complete,
    its node is gone and this job and every waiting job are told so, or the
    inputs changed meanwhile and the job waits for the value again; unless the clock
    gave one instant twice. *)
Theorem processed_value_is_announced_or_requeued tr s rc cs id :
  reachable tr s →
  processor_of (graph_of (complete_graph (grant s).1) cs) id = Some rc →
  ∃ s' out, iteration s (Message rc (ProcessedValue cs id)) = Some (Continue s' out) ∧
    ((graph_of (complete_graph s') cs !! id = None ∧
      (rc, BeenProcessed id) ∈ out ∧
      ∀ c, wants (graph_of (complete_graph (grant s).1) cs) c id → (c, BeenProcessed id) ∈ out)
     ∨ wants (graph_of (complete_graph s') cs) rc id
     ∨ coincided (readings (grant s).1)).
Proof.
  intros Hr%reachable_data_ok%grant_ok Hp. unfold iteration.
  destruct (grant s) as [s1 granted]; simpl in *. unfold graph_of in Hp |- *.
  unfold job_processed_a_value, ChangeSets.mark_node_as_processed.
  destruct (complete_graph s1 !! cs) as [g|] eqn:Hcs; simpl in *;
    [|by unfold processor_of in Hp; rewrite lookup_empty in Hp].
  apply bind_Some in Hp as (md & Hmd & Hp). rewrite Hmd.
  destruct (NodeFacts.mark_as_processed_ok (readings s1) md rc (Hr cs g Hcs id md Hmd) Hp)
    as [(ws & md' & -> & _ & ->)|[(md' & -> & _ & Hw & _)|(md' & -> & _ & Hc)]].
  - destruct (ChangeSets.remove_dependency_everywhere _ _ _) as [g' n'] eqn:Hrm.
    apply remove_dependency_everywhere_completed in Hrm as (I & _).
    eexists _, _. split; [done|]. left. simpl.
    assert (Hout : ∀ c, c = rc ∨ c ∈ wanted_by_reply_channels md →
      (c, BeenProcessed id) ∈ granted ++ ((λ c, (c, BeenProcessed id)) <$>
        channel_order (elements (list_to_set (wanted_by_reply_channels md) ∪ {[rc]} : gset channel)))).
    { intros c Hc. apply elem_of_app; right. apply list_elem_of_fmap. exists c. split; [done|].
      rewrite channel_order_perm, elem_of_elements. set_solver. }
    split_and!; [|apply Hout; by left|].
    + case_decide; [by rewrite lookup_delete_eq|rewrite lookup_insert_eq; simpl].
      apply eq_None_not_Some. intros Hi%I. naive_solver.
    + intros c (md1 & Hmd1 & Hc). apply Hout. right. congruence.
  - eexists _, _. split; [done|]. right. left. simpl. rewrite lookup_insert_eq. simpl.
    exists md'. by rewrite lookup_insert_eq.
  - eexists _, _. split; [done|]. by right; right.
Qed.

End strict_theorems.

(** ** Two runs the protocol allows *)

(** A job that leaves can strand another: job [j1] registers that value 1
    depends on value 2, job [j2] registers that value 1 depends on value 3, and
    [j1] leaves before value 2 is processed. [j2] processes value 3 and still
    waits for value 1, which depends on the value 2 that is no longer in the
    graph: nothing is granted any more, and nothing is being processed. *)
Theorem departing_job_strands_waiting_job :
  let E := tick_env in
  ∃ tr s,
    play initial
      [Message "j1" (ValueDependencyGraph 9 {[1%N := [2%N]]});
       Message "j2" (ValueDependencyGraph 9 {[1%N := [3%N]]});
       Message "j1" (Bye 9);
       Message "j2" (ProcessedValue 9 3); Message "j2" (ProcessedValue 9 3)] = Some (tr, s) ∧
    wants (graph_of (complete_graph s) 9) "j2" 1 ∧
    deps_of (graph_of (complete_graph s) 9) 1 = {[2%N]} ∧
    graph_of (complete_graph s) 9 !! 2%N = None ∧
    grant s = (s, []) ∧
    ∀ id, processor_of (graph_of (complete_graph s) 9) id = None.
Proof.
  intros E. eexists _, _. split; [vm_compute; reflexivity|].
  split_and!; try by vm_compute.
  - eexists. split; [vm_compute; reflexivity|]. vm_compute. left.
  - intros id. unfold processor_of. destruct (graph_of _ _ !! id) as [md|] eqn:Hmd; [|done].
    revert Hmd. set (g := graph_of _ _). apply (map_Forall_lookup_1 (λ _ md,
      processing_reply_channel md = None) g). by apply (bool_decide_unpack _); vm_compute.
Qed.

(** The server can be brought down by jobs that follow the protocol: job
    [j1] registers value 1 and is told to process it, [j2] registers that
    value 1 depends on value 3, is told to process value 3 and reports that
    it failed; value 1 must be dropped while [j1] processes it, and the
    unwrapped error stops the server. *)
Theorem failure_report_crashes_server :
  let E := tick_env in
  run initial
    [Message "j1" (ValueDependencyGraph 9 {[1%N := []]});
     Message "j2" (ValueDependencyGraph 9 {[1%N := [3%N]]});
     Message "j2" (ValueProcessingFailed 9 3)] =
  Some (Panicked [("j1", OkToProcess [1%N]); ("j2", OkToProcess [3%N])]).
Proof. vm_compute. reflexivity. Qed.

(** What one instant for two readings can do: job [j1] registers values 1 and 3 and
    is told to process them; [j2] registers that value 1 depends on value 3, and leaves;
    [j1] reports value 1, whose inputs are not known to be stale, as the update has the
    instant of the start, but whose dependency is not satisfied, and then value 3. Value
    1 stays in the graph, but no job wants it or processes it. *)
Theorem same_instant_strands_job :
  let E := still_env in
  ∃ tr s md,
    play initial
      [Message "j1" (ValueDependencyGraph 9 (<[1%N := []]> {[3%N := []]})); Sleep;
       Message "j2" (ValueDependencyGraph 9 {[1%N := [3%N]]});
       Message "j2" (Bye 9);
       Message "j1" (ProcessedValue 9 1); Message "j1" (ProcessedValue 9 3)] = Some (tr, s) ∧
    graph_of (complete_graph (grant s).1) 9 = {[1%N := md]} ∧
    Node.is_empty md = true ∧ (grant s).2 = [] ∧ depends_on_node_ids md = ∅.
Proof. intros E. eexists _, _, _. split_and!; vm_compute; reflexivity. Qed.

(** ** Witnesses *)

Section witnesses.
#[local] Existing Instance tick_env.
#[local] Existing Instance tick_env_ok.

(** Two jobs, the second one waits for the creation permission. *)
Definition sample_events : list event :=
  [Message "a" CreateValues; Message "b" CreateValues;
   Message "a" (ValueDependencyGraph 9 {[1%N := [2%N]]})].

Lemma creation_permission_is_a_fifo_lock_witness :
  ∃ tr s, play initial sample_events = Some (tr, s) ∧
    lock_accepts {| holder := None; waiting := [] |} tr =
    Some {| holder := Some "a"; waiting := ["b"] |}.
Proof.
  destruct (play initial sample_events) as [[tr s]|] eqn:Hp; [|by vm_compute in Hp].
  exists tr, s. split; [done|].
  rewrite (creation_permission_is_a_fifo_lock tr s (play_reachable _ _ _ Hp)).
  by vm_compute in Hp; simplify_eq.
Defined.

Lemma no_dangling_dependency_without_bye_witness :
  ∃ s out, step initial (Message "a" (ValueDependencyGraph 9 {[1%N := [2%N]]})) out s ∧
    data_closed (complete_graph s) ∧ is_Some (complete_graph s !! 9%N).
Proof.
  destruct (iteration initial (Message "a" (ValueDependencyGraph 9 {[1%N := [2%N]]})))
    as [[s out| |]|] eqn:Hi; [|by vm_compute in Hi..].
  exists s, out. split; [by constructor|]. split; [|by vm_compute in Hi; simplify_eq].
  eapply (no_dangling_dependency_without_bye initial); [by constructor|done|].
  by intros cs g Hg; vm_compute in Hg.
Defined.

(** The ranking of the sample: value 1 depends on value 2. *)
Definition sample_rank (id : Id) : nat := if decide (id = 1%N) then 1 else 0.

Lemma sample_closed_ranked (g : gmap Id NodeMetadata) :
  (∀ id, id ∈ elements (dom g) → deps_of g id ⊆ dom g ∧
     ∀ y, y ∈ deps_of g id → sample_rank y < sample_rank id) →
  closed g ∧ ranked sample_rank g.
Proof.
  intros H. split.
  - intros id md Hmd. destruct (H id) as [Hd _].
    + by apply elem_of_elements, elem_of_dom.
    + unfold deps_of in Hd. by rewrite Hmd in Hd.
  - intros id md y Hmd Hy. apply (H id).
    + by apply elem_of_elements, elem_of_dom.
    + unfold deps_of. by rewrite Hmd.
Qed.

Lemma nonempty_graph_is_being_processed_witness :
  ∃ tr s, play initial sample_events = Some (tr, s) ∧
    ∃ id c, processor_of (graph_of (complete_graph (grant s).1) 9) id = Some c.
Proof.
  destruct (play initial sample_events) as [[tr s]|] eqn:Hp; [|by vm_compute in Hp].
  exists tr, s. split; [done|].
  assert (Hc : closed (graph_of (complete_graph s) 9) ∧
               ranked sample_rank (graph_of (complete_graph s) 9)).
  { vm_compute in Hp. simplify_eq. apply sample_closed_ranked.
    apply Forall_forall. by apply (bool_decide_unpack _); vm_compute. }
  destruct (nonempty_graph_is_being_processed tr s 9%N sample_rank (play_reachable _ _ _ Hp))
    as [Hpr|[[]%tick_env_distinct _]]; [|apply Hc..|exact Hpr].
  by vm_compute in Hp; simplify_eq.
Defined.

Lemma processed_value_is_announced_or_requeued_witness :
  ∃ tr s, play initial sample_events = Some (tr, s) ∧
    ∃ s' out, iteration s (Message "a" (ProcessedValue 9 2)) = Some (Continue s' out) ∧
      graph_of (complete_graph s') 9 !! 2%N = None ∧ ("a", BeenProcessed 2) ∈ out.
Proof.
  destruct (play initial sample_events) as [[tr s]|] eqn:Hp; [|by vm_compute in Hp].
  exists tr, s. split; [done|].
  destruct (processed_value_is_announced_or_requeued tr s "a" 9%N 2%N (play_reachable _ _ _ Hp))
    as (s' & out & Hi & [(H1 & H2 & _)|[Hw|[]%tick_env_distinct]]).
  - by vm_compute in Hp; simplify_eq.
  - by exists s', out.
  - exfalso. vm_compute in Hp. simplify_eq. vm_compute in Hi. simplify_eq.
    destruct Hw as (md & Hmd & _). by vm_compute in Hmd.
Defined.

Lemma iteration_panics_iff_witness :
  request_fails (grant initial).1 "a" ValueCreationDone ∧
  ∃ out, iteration initial (Message "a" ValueCreationDone) = Some (Panicked out).
Proof.
  assert (Hf : request_fails (grant initial).1 "a" ValueCreationDone) by by vm_compute.
  split; [done|]. by apply (iteration_panics_iff initial "a" ValueCreationDone).
Defined.

End witnesses.

End CouncilTheorems.
