(* ===== verification/CouncilJobs.v ===== *)
(** * Jobs that talk to the council

    Model of the client of [src/lib/council-server/src/client.rs] and of the job
    that uses it, [DependentValuesUpdate] of
    [src/lib/dal/src/job/definition/dependent_values_update.rs], composed with the
    council's message loop. A job is cut at its awaits: what it waits for is an
    event, and what it publishes goes to its outbox, which the council reads in
    order; the council's replies go to the job's inbox. *)

From S2P Require Import Prelude CouncilNode CouncilGraph CouncilServer.
From stdpp Require Import base tactics list gmap strings.
Import Queue Council.

Module Job.

(** ** The client *)

(** [PubClient] and [Client] for one job: every request is published on the
    council's subject with the job's reply channel. *)
Record Client := { change_set_id : Id; reply_channel : channel }.

Definition request_to_create_values : Request := CreateValues.

Definition finished_creating_values : Request := ValueCreationDone.

Definition register_dependency_graph (c : Client) (g : Graph) : Request :=
  ValueDependencyGraph (change_set_id c) g.

Definition processed_value (c : Client) (node_id : Id) : Request :=
  ProcessedValue (change_set_id c) node_id.

Definition failed_processing_value (c : Client) (node_id : Id) : Request :=
  ValueProcessingFailed (change_set_id c) node_id.

Definition bye (c : Client) : Request := Bye (change_set_id c).

(** What [fetch_response] returns. *)
Inductive fetched : Type :=
| Fetched (r : Response)
| Closed
| FetchError.

(** [client::State], and the [unreachable!] of [wait_to_create_values]. *)
Inductive permission : Type :=
| MayContinue
| MustShutdown
| PermissionError
| Unreachable.

(** [wait_to_create_values], after its request was published. *)
Definition permission_of (f : fetched) : permission :=
  match f with
  | Fetched OkToCreate => MayContinue
  | Fetched Shutdown => MustShutdown
  | FetchError => PermissionError
  | Fetched _ | Closed => Unreachable
  end.

(** ** The job *)

(** The dependency graph without the values that changed, and without the values
    that depend on nothing else. *)
Definition unsatisfied (attribute_values : list Id) (g : Graph) : Graph :=
  filter (λ entry, entry.2 ≠ []) (filter (λ id, id ∉ attribute_values) <$> g).

(** Where a job is in [inner_run]; at [Starting] its client exists. *)
Inductive phase : Type :=
| Starting
| WaitingToCreate
| Creating
| Building
| Processing (dependency_graph : Graph) (update_tasks : list Id)
| Finished
| Crashed.

(** What a job waits for. *)
Inductive event : Type :=
| Run
| GotResponse (f : fetched)
(** [create_dependent_values] and the commit after it. *)
| Created
(** [dependent_value_graph]. *)
| GraphIs (g : Graph)
(** A task ended: the value was updated and committed; its function failed and
    that was reported; or the task itself failed. *)
| Updated (id : Id)
| UpdateFailed (id : Id)
| TaskFailed (id : Id)
(** The loop's condition: nothing is left. *)
| NothingLeft
(** Any other error that is propagated with [?]. *)
| OtherError.

Definition remove_one (id : Id) (tasks : list Id) : list Id :=
  match list_find (id =.) tasks with
  | Some (i, _) => delete i tasks
  | None => tasks
  end.

(** What [update_value] reports: a value whose function failed is reported before
    the rollback, an updated one after the commit. *)
Definition update_value (c : Client) (id : Id) (updated : bool) : Request :=
  if updated then processed_value c id else failed_processing_value c id.

(** One step of the loop over the council's responses: a response is awaited only
    when every update task has ended. *)
Definition processing_step (c : Client) (g : Graph) (tasks : list Id) (ev : event) :
    option (list Request * phase) :=
  match tasks, ev with
  | [], NothingLeft => if decide (g = ∅) then Some ([bye c], Finished) else None
  | [], GotResponse f =>
      if decide (g = ∅) then None
      else
        match f with
        | Fetched (OkToProcess ids) => Some ([], Processing g ids)
        | Fetched (BeenProcessed id) | Fetched (Failed id) =>
            Some ([], Processing (delete id g) [])
        | Fetched OkToCreate => Some ([bye c], Finished)
        | Fetched Shutdown | Closed => Some ([bye c], Finished)
        | FetchError => Some ([bye c], Finished)
        end
  | _, Updated id =>
      if decide (id ∈ tasks)
      then Some ([update_value c id true], Processing g (remove_one id tasks)) else None
  | _, UpdateFailed id =>
      if decide (id ∈ tasks)
      then Some ([update_value c id false], Processing g (remove_one id tasks)) else None
  | _, TaskFailed id =>
      (* [inner_run] says [bye], and [run] says it again. *)
      if decide (id ∈ tasks) then Some ([bye c; bye c], Finished) else None
  | _, _ => None
  end.

(** One step of [inner_run] inside [run], which says [bye] on every error; [None]
    when the job does not wait for the event. *)
Definition job_step (c : Client) (attribute_values : list Id) (p : phase) (ev : event) :
    option (list Request * phase) :=
  match p, ev with
  | (Finished | Crashed), _ => None
  | _, OtherError => Some ([bye c], Finished)
  | Starting, Run => Some ([request_to_create_values], WaitingToCreate)
  | WaitingToCreate, GotResponse f =>
      match permission_of f with
      | MayContinue => Some ([], Creating)
      | MustShutdown => Some ([], Finished)
      | PermissionError => Some ([bye c], Finished)
      | Unreachable => Some ([], Crashed)
      end
  | Creating, Created => Some ([finished_creating_values], Building)
  | Building, GraphIs g =>
      let g := unsatisfied attribute_values g in
      if decide (g = ∅) then Some ([], Finished)
      else Some ([register_dependency_graph c g], Processing g [])
  | Processing g tasks, _ => processing_step c g tasks ev
  | _, _ => None
  end.

End Job.
Import Job.

(** ** Jobs and council together *)

Record job := {
  client : Client;
  attribute_values : list Id;
  at_ : phase;
  outbox : list Request;
  inbox : list Response;
}.

(** [alive] is false once the council's loop was left, or panicked. *)
Record system := {
  server : Server;
  alive : bool;
  jobs : gmap channel job;
}.

Definition new_job (c : Client) (avs : list Id) : job :=
  {| client := c; attribute_values := avs; at_ := Starting; outbox := []; inbox := [] |}.

Definition receive (r : Response) (j : job) : job :=
  {| client := client j; attribute_values := attribute_values j; at_ := at_ j;
     outbox := outbox j; inbox := inbox j ++ [r] |}.

Definition deliver (out : list (channel * Response)) (js : gmap channel job) : gmap channel job :=
  foldl (λ js p, alter (receive p.2) p.1 js) js out.

Definition moved (j : job) (reqs : list Request) (p : phase) (inbox : list Response) : job :=
  {| client := client j; attribute_values := attribute_values j; at_ := p;
     outbox := outbox j ++ reqs; inbox := inbox |}.

Definition sent (j : job) (rest : list Request) : job :=
  {| client := client j; attribute_values := attribute_values j; at_ := at_ j;
     outbox := rest; inbox := inbox j |}.

Section system.
Context `{E : Env}.

(** The council after an iteration. *)
Definition iterated (s : Server) (o : outcome) : Server * bool * list (channel * Response) :=
  match o with
  | Continue s out => (s, true, out)
  | Break out | Panicked out => ((grant s).1, false, out)
  end.

Inductive sys_step : system → system → Prop :=
| sys_arrive y rc c avs :
    jobs y !! rc = None → reply_channel c = rc →
    sys_step y {| server := server y; alive := alive y;
                  jobs := <[rc := new_job c avs]> (jobs y) |}
| sys_job y rc j ev reqs p :
    jobs y !! rc = Some j → (∀ r, ev ≠ GotResponse (Fetched r)) →
    job_step (client j) (attribute_values j) (at_ j) ev = Some (reqs, p) →
    sys_step y {| server := server y; alive := alive y;
                  jobs := <[rc := moved j reqs p (inbox j)]> (jobs y) |}
| sys_receive y rc j r rest reqs p :
    jobs y !! rc = Some j → inbox j = r :: rest →
    job_step (client j) (attribute_values j) (at_ j) (GotResponse (Fetched r)) = Some (reqs, p) →
    sys_step y {| server := server y; alive := alive y;
                  jobs := <[rc := moved j reqs p rest]> (jobs y) |}
| sys_request y rc j req rest o s live out :
    alive y = true → jobs y !! rc = Some j → outbox j = req :: rest →
    iteration (server y) (Message rc req) = Some o → iterated (server y) o = (s, live, out) →
    sys_step y {| server := s; alive := live;
                  jobs := deliver out (<[rc := sent j rest]> (jobs y)) |}
| sys_other y ev o s live out :
    alive y = true → ev = Sleep ∨ ev = Undecodable ∨ ev = Stop →
    iteration (server y) ev = Some o → iterated (server y) o = (s, live, out) →
    sys_step y {| server := s; alive := live; jobs := deliver out (jobs y) |}.

Definition at_start : system := {| server := initial; alive := true; jobs := ∅ |}.

Inductive sys_reachable : system → Prop :=
| sys_reachable_start : sys_reachable at_start
| sys_reachable_step y y' : sys_reachable y → sys_step y y' → sys_reachable y'.

End system.

(** ** The permission to create values *)

Definition count {A} (f : A → bool) (l : list A) : nat :=
  sum_list ((λ a, if f a then 1 else 0) <$> l).

Lemma count_app {A} (f : A → bool) l k : count f (l ++ k) = count f l + count f k.
Proof. unfold count. by rewrite fmap_app, sum_list_app. Qed.

Lemma count_cons {A} (f : A → bool) a l : count f (a :: l) = (if f a then 1 else 0) + count f l.
Proof. done. Qed.

Lemma count_pos {A} (f : A → bool) a l : a ∈ l → f a = true → 0 < count f l.
Proof.
  intros Ha Hf. apply list_elem_of_split in Ha as (l1 & l2 & ->).
  rewrite count_app, count_cons, Hf. lia.
Qed.

Arguments count : simpl never.

Definition is_create (req : Request) : bool :=
  match req with CreateValues => true | _ => false end.

Definition is_done (req : Request) : bool :=
  match req with ValueCreationDone => true | _ => false end.

Definition is_ok_to_create (r : Response) : bool :=
  match r with OkToCreate => true | _ => false end.

Definition is_channel (rc c : channel) : bool := bool_decide (c = rc).

(** The request to create values travels from the outbox over the queue to the
    inbox. *)
Definition tokens (q : ValueCreationQueue) (rc : channel) (j : job) : nat :=
  count is_create (outbox j) + count (is_channel rc) (queue q) + count is_ok_to_create (inbox j).

(** The job has the permission, or is about to read that it has, or has not yet
    been heard giving it back. *)
Definition has_permission (j : job) : Prop :=
  at_ j = Creating ∨ (at_ j = WaitingToCreate ∧ OkToCreate ∈ inbox j) ∨
  ValueCreationDone ∈ outbox j.

(** Before values were created, a job has said nothing but that it wants to. *)
Definition silent (p : phase) : bool :=
  match p with Starting | WaitingToCreate | Creating => true | _ => false end.

(** How often the request is under way. *)
Definition expected (p : phase) (n : nat) : Prop :=
  match p with
  | WaitingToCreate => n = 1
  | Finished | Crashed => n ≤ 1
  | _ => n = 0
  end.

Record ok_job (q : ValueCreationQueue) (rc : channel) (j : job) : Prop := {
  ok_tokens : expected (at_ j) (tokens q rc j);
  ok_permission : has_permission j → processing q = Some rc;
  ok_silent : silent (at_ j) = true → ∀ req, req ∈ outbox j → req = CreateValues;
  (** The permission is given back once, and before the job leaves. *)
  ok_release before rest :
    outbox j = before ++ ValueCreationDone :: rest →
    (∀ cs, Bye cs ∉ before) ∧ ValueCreationDone ∉ rest;
}.

Record ok_system (q : ValueCreationQueue) (js : gmap channel job) : Prop := {
  ok_present rc j : js !! rc = Some j → ok_job q rc j;
  ok_absent rc : js !! rc = None → count (is_channel rc) (queue q) = 0;
}.

(** *** What the council does to its queue *)

Lemma tokens_receive q rc r j :
  tokens q rc (receive r j) = tokens q rc j + (if is_ok_to_create r then 1 else 0).
Proof. unfold tokens. cbn. rewrite count_app. unfold count at 4. cbn. lia. Qed.

(** The messages that are not permissions change nothing. *)
Lemma receive_other q rc r j : r ≠ OkToCreate → ok_job q rc j → ok_job q rc (receive r j).
Proof.
  intros Hr [Ht Hpe Hs Hre]. split; [|..|done|done].
  - rewrite tokens_receive. replace (is_ok_to_create r) with false by by destruct r.
    by rewrite Nat.add_0_r.
  - unfold has_permission in *. cbn. rewrite elem_of_app, list_elem_of_singleton. naive_solver.
Qed.

Lemma deliver_other q js out :
  Forall (λ p, p.2 ≠ OkToCreate) out → ok_system q js → ok_system q (deliver out js).
Proof.
  intros Hout. revert js. induction Hout as [|[c r] out Hr _ IH]; intros js [Hp Ha]; [done|].
  cbn. apply IH. split.
  - intros rc j [(-> & j0 & Hj0 & ->)|[_ Hj]]%lookup_alter_Some; [|by apply Hp].
    apply receive_other; [done|by apply Hp].
  - intros rc Hj%lookup_alter_None. by apply Ha.
Qed.

(** Handing the permission to the next job. *)
Lemma grant_next_ok q js rc q' :
  fetch_next q = (Some rc, q') → ok_system q js → ok_system q' (alter (receive OkToCreate) rc js).
Proof.
  unfold fetch_next, is_busy. intros Hf [Hp Ha].
  destruct (processing q) eqn:Hproc; [done|]. destruct (queue q) as [|next rest] eqn:Hq; [done|].
  injection Hf as -> <-. split.
  - intros rc' j [(-> & j0 & Hj0 & ->)|[Hne Hj]]%lookup_alter_Some.
    + destruct (Hp _ _ Hj0) as [Ht Hpe Hs Hre]. split; cbn in *; [|done|done|done].
      rewrite tokens_receive. unfold tokens in *. cbn. rewrite Hq, count_cons in Ht.
      unfold is_channel in Ht at 1. rewrite bool_decide_true in Ht by done.
      by replace (_ + _ + _ + 1) with (count is_create (outbox j0) + (1 + count (is_channel rc') rest) +
        count is_ok_to_create (inbox j0)) by lia.
    + destruct (Hp _ _ Hj) as [Ht Hpe Hs Hre]. split; cbn in *; [|naive_solver|done|done].
      unfold tokens in *. cbn. rewrite Hq, count_cons in Ht. unfold is_channel in Ht at 1.
      by rewrite bool_decide_false in Ht by done.
  - intros rc' Hj%lookup_alter_None. specialize (Ha _ Hj). rewrite count_cons in Ha. cbn. lia.
Qed.

(** What a request does to the queue. *)
Definition queue_after (q : ValueCreationQueue) (rc : channel) (req : Request) :
    option ValueCreationQueue :=
  match req with
  | CreateValues => Some (push q rc)
  | ValueCreationDone =>
      match finished_processing q rc with (Ok _, q) => Some q | (Err _, _) => None end
  | Bye _ => Some (remove q rc)
  | _ => Some q
  end.

Lemma count_remove rc rc' (l : list channel) :
  count (is_channel rc') (filter (λ el, rc ≠ el) l) ≤ count (is_channel rc') l ∧
  (rc ≠ rc' → count (is_channel rc') (filter (λ el, rc ≠ el) l) = count (is_channel rc') l).
Proof.
  induction l as [|c l [IH1 IH2]]; [done|]. rewrite filter_cons, count_cons.
  unfold is_channel at 2 5. case_decide as Hc; rewrite ?count_cons.
  - unfold is_channel at 1 4. split; [lia|]. intros Hne. by rewrite IH2.
  - subst c. split; [lia|]. intros Hne. rewrite bool_decide_false by done.
    by apply IH2.
Qed.

(** Another job is not affected. *)
Lemma queue_after_other q rc rc' req q' j :
  queue_after q rc req = Some q' → rc ≠ rc' → ok_job q rc' j → ok_job q' rc' j.
Proof.
  intros Hq Hne [Ht Hpe Hs Hre].
  assert (count (is_channel rc') (queue q') = count (is_channel rc') (queue q) ∧
          (processing q = Some rc' → processing q' = Some rc')) as [Hcount Hproc].
  { destruct req; cbn in Hq; simplify_eq; cbn; try done.
    - split; [by apply count_remove|]. intros ->. by rewrite decide_False.
    - rewrite count_app, count_cons. unfold is_channel at 2. by rewrite bool_decide_false.
    - unfold finished_processing in Hq. case_decide; simplify_eq. cbn. split; [done|]. congruence. }
  split; [|naive_solver|done|done]. unfold tokens in *. by rewrite Hcount.
Qed.

Lemma expected_less p n n' : expected p n → n' ≤ n → silent p = false → expected p n'.
Proof. destruct p; cbn; intros; done || lia. Qed.

(** A request other than the return of the permission or the leaving of the job
    keeps the permission where it is. *)
Lemma queue_after_processing q rc req q' :
  queue_after q rc req = Some q' → req ≠ ValueCreationDone → (∀ cs, req ≠ Bye cs) →
  processing q' = processing q.
Proof. destruct req; cbn; intros Hq Hd Hb; simplify_eq; naive_solver. Qed.

Lemma queue_after_tokens q rc j req rest q' :
  outbox j = req :: rest → queue_after q rc req = Some q' →
  tokens q' rc (sent j rest) ≤ tokens q rc j ∧
  (req = CreateValues → tokens q' rc (sent j rest) = tokens q rc j).
Proof.
  intros Hout Hq. unfold tokens. rewrite Hout, count_cons. cbn.
  destruct req; cbn in *; simplify_eq; cbn; try (split; [lia|done]).
  - split; [|done]. pose proof (proj1 (count_remove rc rc (queue q))). lia.
  - rewrite count_app.
    assert (count (is_channel rc) [rc] = 1) as ->; [|split; intros; lia].
    unfold count, is_channel. cbn. by rewrite bool_decide_true.
  - unfold finished_processing in Hq. case_decide; simplify_eq. split; [done|done].
Qed.

(** The job's own request: the token moves, or the permission comes back. *)
Lemma queue_after_sender q rc j req rest q' :
  outbox j = req :: rest → queue_after q rc req = Some q' → ok_job q rc j →
  ok_job q' rc (sent j rest).
Proof.
  intros Hout Hq [Ht Hpe Hs Hre].
  assert (silent (at_ j) = true → req = CreateValues) as Hsil.
  { intros Hsil. apply Hs; [done|]. rewrite Hout. by left. }
  destruct (queue_after_tokens _ _ _ _ _ _ Hout Hq) as [Hle Heq]. split; cbn.
  - destruct (silent (at_ j)) eqn:Hp; [by rewrite Heq; auto|by eapply expected_less].
  - intros Hperm.
    assert (req ≠ ValueCreationDone ∧ ∀ cs, req ≠ Bye cs) as [Hd Hb].
    { destruct Hperm as [Hp|[[Hp _]|Hin]]; cbn in *.
      - rewrite Hsil by by rewrite Hp. done.
      - rewrite Hsil by by rewrite Hp. done.
      - split.
        + intros ->. by destruct (Hre [] rest Hout) as [_ Hno].
        + intros cs ->. apply list_elem_of_split in Hin as (l1 & l2 & ->).
          destruct (Hre (Bye cs :: l1) l2 Hout) as [Hno _]. apply (Hno cs). by left. }
    rewrite (queue_after_processing _ _ _ _ Hq Hd Hb). apply Hpe.
    unfold has_permission in *. cbn in Hperm. rewrite Hout, elem_of_cons. naive_solver.
  - intros Hp req' Hin. apply Hs; [done|]. rewrite Hout. by right.
  - intros before rest' ->. destruct (Hre (req :: before) rest' Hout) as [H1 H2]. split; [|done].
    intros cs Hcs. apply (H1 cs). by right.
Qed.

Lemma queue_after_ok q js rc j req rest q' :
  js !! rc = Some j → outbox j = req :: rest → queue_after q rc req = Some q' →
  ok_system q js → ok_system q' (<[rc := sent j rest]> js).
Proof.
  intros Hj Hout Hq [Hp Ha]. split.
  - intros rc' j' [[-> <-]|[Hne Hj']]%lookup_insert_Some.
    + eapply queue_after_sender; eauto.
    + eapply queue_after_other; eauto.
  - intros rc' [Hj' Hne]%lookup_insert_None. specialize (Ha rc' Hj').
    destruct req; cbn in Hq; simplify_eq; cbn; try done.
    + pose proof (proj1 (count_remove rc rc' (queue q))). lia.
    + rewrite count_app, count_cons, Ha. unfold is_channel. by rewrite bool_decide_false.
    + unfold finished_processing in Hq. case_decide; by simplify_eq.
Qed.

(** *** What a job does *)

Lemma tokens_moved q rc j reqs p i :
  tokens q rc (moved j reqs p i) =
    count is_create (outbox j) + count is_create reqs + count (is_channel rc) (queue q) +
    count is_ok_to_create i.
Proof. unfold tokens. cbn. rewrite count_app. lia. Qed.

(** A job that says nothing about permissions and does not gain one. *)
Lemma moved_ok q rc j reqs p i :
  ok_job q rc j → expected p (tokens q rc (moved j reqs p i)) →
  count is_done reqs = 0 → silent p = false →
  ok_job q rc (moved j reqs p i).
Proof.
  intros [Ht Hpe Hs Hre] Hexp Hdone Hp.
  assert (ValueCreationDone ∉ reqs) as Hreqs.
  { intros Hin. pose proof (count_pos is_done _ _ Hin eq_refl). lia. }
  split; cbn; [done| |by rewrite Hp|].
  - intros [H|[[H _]|H]]; cbn in H; [by rewrite H in Hp|by rewrite H in Hp|].
    apply elem_of_app in H as [H|H]; [|done]. apply Hpe. unfold has_permission. tauto.
  - intros before rest Heq.
    assert (∃ rest', rest = rest' ++ reqs ∧ outbox j = before ++ ValueCreationDone :: rest')
      as (rest' & -> & Heq').
    { destruct (app_eq_inv _ _ _ _ Heq) as [(k & H1 & H2)|(k & H1 & H2)].
      - destruct k as [|req k]; cbn in H2.
        + destruct Hreqs. rewrite <-H2. by left.
        + injection H2 as <- ->. by exists k.
      - destruct Hreqs. rewrite H2. apply elem_of_app. right. by left. }
    destruct (Hre _ _ Heq') as [H1 H2]. split; [done|]. by apply not_elem_of_app.
Qed.

(** Steps that say nothing about permissions. *)
Definition quiet (reqs : list Request) (p' : phase) : Prop :=
  count is_create reqs = 0 ∧ count is_done reqs = 0 ∧ silent p' = false.

Lemma processing_step_quiet c avs g tasks ev reqs p' :
  job_step c avs (Processing g tasks) ev = Some (reqs, p') → quiet reqs p'.
Proof.
  destruct ev as [|f| |g'|id|id|id| |]; cbn; unfold processing_step; intros Hstep.
  all: destruct tasks as [|t tasks]; try done.
  all: repeat case_decide; simplify_eq; try done.
  by destruct f as [[]| |]; simplify_eq.
Qed.

(** Every step but the three that carry the permission. *)
Lemma job_step_quiet c avs p ev reqs p' :
  job_step c avs p ev = Some (reqs, p') →
  (p = Starting ∧ ev = Run) ∨
  (p = WaitingToCreate ∧ ev = GotResponse (Fetched OkToCreate)) ∨
  (p = Creating ∧ ev = Created) ∨
  (quiet reqs p' ∧ (silent p = true → p' = Finished ∨ p' = Crashed)).
Proof.
  intros Hstep. destruct p as [| | | |g tasks| |].
  5: { do 3 right. split; [by eapply processing_step_quiet|done]. }
  - destruct ev; simplify_eq/=; auto. do 3 right. split; [done|auto].
  - destruct ev as [|[[]| |]| | | | | | |]; simplify_eq/=; auto; do 3 right; split; auto; done.
  - destruct ev; simplify_eq/=; auto. do 3 right. split; [done|auto].
  - destruct ev; cbn in Hstep; repeat case_decide; simplify_eq; do 3 right; done.
  - done.
  - done.
Qed.

Lemma expected_small p n : expected p n → n ≤ 1.
Proof. destruct p; cbn; lia. Qed.

(** The inbox after an event: unchanged, or without the response that was read. *)
Definition reads (j : job) (ev : event) (i : list Response) : Prop :=
  match ev with
  | GotResponse (Fetched r) => inbox j = r :: i
  | _ => inbox j = i
  end.

Lemma reads_count j ev i : reads j ev i → count is_ok_to_create i ≤ count is_ok_to_create (inbox j).
Proof. destruct ev as [|[r| |]| | | | | | |]; cbn; intros ->; rewrite ?count_cons; lia. Qed.

Lemma silent_outbox_done q rc j :
  ok_job q rc j → silent (at_ j) = true → ValueCreationDone ∉ outbox j.
Proof. intros Hj Hp Hin. by pose proof (ok_silent _ _ _ Hj Hp _ Hin). Qed.

Lemma run_ok q rc j :
  ok_job q rc j → at_ j = Starting →
  ok_job q rc (moved j [request_to_create_values] WaitingToCreate (inbox j)).
Proof.
  intros Hj Hp. pose proof (silent_outbox_done _ _ _ Hj) as Hdone.
  destruct Hj as [Ht Hpe Hs Hre]. rewrite Hp in *. cbn in Ht, Hs. specialize (Hdone eq_refl).
  unfold tokens in Ht. split; cbn.
  - rewrite tokens_moved. unfold count at 2. cbn. lia.
  - intros [H|[[_ H]|H]]; cbn in H; [done| |].
    + pose proof (count_pos is_ok_to_create _ _ H eq_refl). lia.
    + apply elem_of_app in H as [H|H]; [done|]. by apply list_elem_of_singleton in H.
  - intros _ req [H|H]%elem_of_app; [by apply Hs|]. by apply list_elem_of_singleton in H.
  - intros before rest Heq. exfalso.
    assert (ValueCreationDone ∈ outbox j ++ [request_to_create_values]) as Hin
      by (rewrite Heq; apply elem_of_app; right; by left).
    apply elem_of_app in Hin as [H|H]; [done|]. by apply list_elem_of_singleton in H.
Qed.

Lemma permitted_ok q rc j i :
  ok_job q rc j → at_ j = WaitingToCreate → inbox j = OkToCreate :: i →
  ok_job q rc (moved j [] Creating i).
Proof.
  intros [Ht Hpe Hs Hre] Hp Hi. rewrite Hp in *. cbn in Ht, Hs. unfold tokens in Ht.
  rewrite Hi, count_cons in Ht. cbn in Ht. split; cbn; rewrite ?app_nil_r.
  - rewrite tokens_moved. unfold count at 2. cbn. lia.
  - intros _. apply Hpe. right. left. rewrite Hi. split; [done|by left].
  - done.
  - done.
Qed.

Lemma created_ok q rc j :
  ok_job q rc j → at_ j = Creating →
  ok_job q rc (moved j [finished_creating_values] Building (inbox j)).
Proof.
  intros [Ht Hpe Hs Hre] Hp. rewrite Hp in *. cbn in Ht, Hs. unfold tokens in Ht. split; cbn.
  - rewrite tokens_moved. unfold count at 2. cbn. lia.
  - intros _. apply Hpe. by left.
  - done.
  - intros before rest Heq.
    assert (rest = [] ∧ before = outbox j) as [-> ->].
    { destruct (app_eq_inv _ _ _ _ Heq) as [(k & H1 & H2)|(k & H1 & H2)].
      - destruct k as [|req k]; [by rewrite app_nil_r in H1; simplify_eq/=|].
        injection H2 as <- _. exfalso. specialize (Hs eq_refl ValueCreationDone).
        rewrite H1 in Hs. discriminate Hs. apply elem_of_app. right. by left.
      - destruct k as [|req k]; cbn in H2; simplify_eq/=; [by rewrite app_nil_r|].
        by destruct k. }
    split; [|by apply not_elem_of_nil]. intros cs Hin. by specialize (Hs eq_refl _ Hin).
Qed.

Lemma job_step_ok q rc j ev reqs p i :
  ok_job q rc j → job_step (client j) (attribute_values j) (at_ j) ev = Some (reqs, p) →
  reads j ev i → ok_job q rc (moved j reqs p i).
Proof.
  intros Hj Hstep Hi.
  destruct (job_step_quiet _ _ _ _ _ _ Hstep) as [[Hp ->]|[[Hp ->]|[[Hp ->]|[(Hc & Hd & Hp') Hq]]]].
  - rewrite Hp in Hstep. cbn in Hstep, Hi. simplify_eq. by apply run_ok.
  - rewrite Hp in Hstep. cbn in Hstep, Hi. simplify_eq. by apply permitted_ok.
  - rewrite Hp in Hstep. cbn in Hstep, Hi. simplify_eq. by apply created_ok.
  - apply moved_ok; [done| |done|done]. pose proof (reads_count _ _ _ Hi).
    pose proof (ok_tokens _ _ _ Hj) as Ht.
    assert (tokens q rc (moved j reqs p i) ≤ tokens q rc j) as Hle
      by (rewrite tokens_moved, Hc; unfold tokens; lia).
    destruct (silent (at_ j)) eqn:Hs.
    + pose proof (expected_small _ _ Ht). destruct (Hq eq_refl) as [->| ->]; cbn; lia.
    + assert (tokens q rc j = 0) by by destruct (at_ j). destruct p; cbn in *; done || lia.
Qed.

(** *** What the council does *)

Section invariant.
Context `{E : Env}.

Lemma grant_queue s :
  ∃ others, Forall (λ p, p.2 ≠ OkToCreate) others ∧
    value_create_queue (grant s).1 = (fetch_next (value_create_queue s)).2 ∧
    (grant s).2 = (match (fetch_next (value_create_queue s)).1 with
                   | Some rc => [(rc, OkToCreate)] | None => [] end) ++ others.
Proof.
  unfold grant. destruct (fetch_next (value_create_queue s)) as [next q].
  destruct (ChangeSets.fetch_all_available _ _) as [[available d] n]. eexists. split_and!; [|done|done].
  apply Forall_fmap, Forall_forall. by intros [rc id] _.
Qed.

Lemma handle_queue s rc req r s' :
  handle_request s rc req = Some (r, s') →
  match r with
  | Ok out => queue_after (value_create_queue s) rc req = Some (value_create_queue s') ∧
      Forall (λ p, p.2 ≠ OkToCreate) out
  | Err _ => req ≠ CreateValues ∧ (∀ cs, req ≠ Bye cs) ∧
      (req = ValueCreationDone → processing (value_create_queue s) ≠ Some rc)
  end.
Proof.
  destruct req as [cs| |cs id| |cs g|cs id]; cbn.
  - unfold job_is_going_away. destruct (ChangeSets.remove_channel _ _ _ _). intros [= <- <-]. done.
  - by intros [= <- <-].
  - unfold job_processed_a_value.
    destruct (ChangeSets.mark_node_as_processed _ _ _ _ _) as [[[cs'|e] d] n];
      intros [= <- <-]; cbn; [|done]. split; [done|]. apply Forall_fmap, Forall_forall. by intros c _.
  - unfold job_finished_value_creation, finished_processing.
    case_decide as Hrc; intros [= <- <-]; cbn; [done|naive_solver].
  - unfold register_graph_from_job.
    destruct (ChangeSets.merge_dependency_graph _ _ _ _ _) as [[[u|e] d] n];
      intros [= <- <-]; cbn; done.
  - unfold job_failed_processing_a_value.
    destruct (ChangeSets.remove_node_and_dependents _ _ _ _) as [[[ns|e] d]|]; [| |done];
      intros [= <- <-]; cbn; [|done]. split; [done|]. apply Forall_fmap, Forall_forall. by intros p _.
Qed.

Lemma deliver_app o1 o2 js : deliver (o1 ++ o2) js = deliver o2 (deliver o1 js).
Proof. apply foldl_app. Qed.

(** The grants at the top of the loop. *)
Lemma grant_system_ok s js :
  ok_system (value_create_queue s) js →
  ok_system (value_create_queue (grant s).1) (deliver (grant s).2 js).
Proof.
  intros Hok. destruct (grant_queue s) as (others & Ho & -> & ->). rewrite deliver_app.
  apply deliver_other; [done|].
  destruct (fetch_next (value_create_queue s)) as [[rc|] q] eqn:Hf; cbn.
  - by eapply grant_next_ok.
  - unfold fetch_next in Hf. destruct (is_busy _) eqn:Hb; [by simplify_eq|].
    destruct (queue (value_create_queue s)) eqn:Hq; simplify_eq.
    destruct Hok as [Hp Ha]. split.
    + intros rc j Hj. destruct (Hp _ _ Hj) as [Ht Hpe Hs Hre]. split; [|..|done|done].
      * unfold tokens in *. by rewrite Hq in Ht.
      * intros H%Hpe. unfold is_busy in Hb. by rewrite H in Hb.
    + intros rc Hj. by rewrite <-Hq, Ha.
Qed.

Lemma deliver_cons c r out js : deliver ((c, r) :: out) js = deliver out (alter (receive r) c js).
Proof. done. Qed.

(** Delivering before or after a request was taken from the outbox. *)
Lemma deliver_sent out rc j rest js :
  js !! rc = Some j →
  ∃ j', deliver out js !! rc = Some j' ∧ outbox j' = outbox j ∧
    deliver out (<[rc := sent j rest]> js) = <[rc := sent j' rest]> (deliver out js).
Proof.
  revert j js. induction out as [|[c r] out IH]; intros j js Hj; [by exists j|]. rewrite !deliver_cons.
  destruct (decide (c = rc)) as [->|Hne].
  - destruct (IH (receive r j) (alter (receive r) rc js)) as (j' & H1 & H2 & H3).
    { rewrite lookup_alter_eq, Hj. done. }
    exists j'. split_and!; [done|done|]. rewrite <-H3. f_equal.
    apply map_eq. intros i. destruct (decide (i = rc)) as [->|Hi].
    + rewrite lookup_alter_eq, !lookup_insert_eq. done.
    + by rewrite lookup_alter_ne, !lookup_insert_ne, lookup_alter_ne by done.
  - destruct (IH j (alter (receive r) c js)) as (j' & H1 & H2 & H3).
    { by rewrite lookup_alter_ne. }
    exists j'. split_and!; [done|done|]. rewrite <-H3. f_equal.
    by rewrite alter_insert_ne.
Qed.

(** The permission to create is given back by its holder only, so taking it back
    never fails. *)
Lemma request_ok s js rc j req rest o s' live out :
  js !! rc = Some j → outbox j = req :: rest → iteration s (Message rc req) = Some o →
  iterated s o = (s', live, out) → ok_system (value_create_queue s) js →
  ok_system (value_create_queue s') (deliver out (<[rc := sent j rest]> js)) ∧
  (req = ValueCreationDone → live = true).
Proof.
  intros Hj Hout Hit Ho Hok. apply grant_system_ok in Hok as Hok1.
  unfold iteration in Hit. destruct (grant s) as [s1 granted] eqn:Hg. cbn in Hok1.
  destruct (handle_request s1 rc req) as [[r s2]|] eqn:Hh; [|done].
  apply handle_queue in Hh.
  destruct (deliver_sent granted rc j rest js Hj) as (j' & Hj' & Hout' & Hdel).
  destruct r as [out'|e]; simplify_eq/=; rewrite ?Hg; cbn.
  - destruct Hh as [Hq Hother]. rewrite deliver_app, Hdel. split; [|done].
    apply deliver_other; [done|]. eapply queue_after_ok; [done|by rewrite Hout'|done|done].
  - destruct Hh as (Hnc & Hnb & Hnd). rewrite Hdel.
    assert (req ≠ ValueCreationDone) as Hd.
    { intros Hd. apply (Hnd Hd). destruct Hok1 as [Hp _].
      apply (ok_permission _ _ _ (Hp _ _ Hj')). right. right. rewrite Hout', Hout, Hd. by left. }
    split; [|done]. eapply (queue_after_ok _ _ _ _ req); [done|by rewrite Hout'| |done].
    destruct req; naive_solver.
Qed.

Lemma sys_step_ok y y' :
  sys_step y y' → ok_system (value_create_queue (server y)) (jobs y) →
  ok_system (value_create_queue (server y')) (jobs y').
Proof.
  intros Hstep Hok.
  destruct Hstep as [y rc c avs Hrc _|y rc j ev reqs p Hj Hev Hjs|y rc j r rest reqs p Hj Hin Hjs
    |y rc j req rest o s live out _ Hj Hout Hit Ho|y ev o s live out _ Hev Hit Ho]; cbn.
  - destruct Hok as [Hp Ha]. split.
    + intros rc' j [[-> <-]|[_ Hj]]%lookup_insert_Some; [|by apply Hp].
      split; cbn; [|..|set_solver|by intros []].
      * unfold tokens. cbn. by rewrite (Ha _ Hrc).
      * intros [H|[[H _]|H]]; cbn in H; [done|done|]. by apply elem_of_nil in H.
    + intros rc' [Hrc' _]%lookup_insert_None. by apply Ha.
  - destruct Hok as [Hp Ha]. split.
    + intros rc' j' [[-> <-]|[_ Hj']]%lookup_insert_Some; [|by apply Hp].
      eapply job_step_ok; [by apply Hp|done|].
      destruct ev as [|[r| |]| | | | | | |]; try done. by destruct (Hev r).
    + intros rc' [Hrc' _]%lookup_insert_None. by apply Ha.
  - destruct Hok as [Hp Ha]. split.
    + intros rc' j' [[-> <-]|[_ Hj']]%lookup_insert_Some; [|by apply Hp].
      eapply job_step_ok; [by apply Hp|done|done].
    + intros rc' [Hrc' _]%lookup_insert_None. by apply Ha.
  - by eapply request_ok.
  - apply grant_system_ok in Hok. unfold iteration in Hit.
    destruct (grant (server y)) as [s1 granted] eqn:Hg. cbn in Hok.
    destruct Hev as [->|[->| ->]]; simplify_eq/=; rewrite ?Hg; done.
Qed.

Lemma sys_reachable_ok y :
  sys_reachable y → ok_system (value_create_queue (server y)) (jobs y).
Proof.
  induction 1 as [|y y' _ IH Hstep]; [|by eapply sys_step_ok].
  split; [|done]. intros rc j Hj. cbn in Hj. by rewrite lookup_empty in Hj.
Qed.

(** C1: At any time, in any interleaving of any number of jobs with the council,
    with jobs that fail, leave, or crash at any point, at most one job is creating
    dependent values; a job that was given the permission is not told to create
    values again after it gave the permission back; and the council never fails
    because a job gave back a permission it did not hold. *)
Theorem creation_is_exclusive y :
  sys_reachable y →
  (∀ rc1 rc2 j1 j2, jobs y !! rc1 = Some j1 → jobs y !! rc2 = Some j2 →
     at_ j1 = Creating → at_ j2 = Creating → rc1 = rc2) ∧
  (∀ rc j g tasks, jobs y !! rc = Some j → at_ j = Processing g tasks →
     OkToCreate ∉ inbox j) ∧
  (∀ rc j rest, jobs y !! rc = Some j → outbox j = ValueCreationDone :: rest →
     ∃ s out, iteration (server y) (Message rc ValueCreationDone) = Some (Continue s out)).
Proof.
  intros [Hp Ha]%sys_reachable_ok. split_and!.
  - intros rc1 rc2 j1 j2 H1 H2 Hc1 Hc2.
    assert (processing (value_create_queue (server y)) = Some rc1 ∧
            processing (value_create_queue (server y)) = Some rc2) as [Hr1 Hr2].
    { split; eapply ok_permission; eauto; by left. }
    congruence.
  - intros rc j g tasks Hj Hat Hin. pose proof (ok_tokens _ _ _ (Hp _ _ Hj)) as Ht.
    rewrite Hat in Ht. unfold tokens in Ht. cbn in Ht.
    pose proof (count_pos is_ok_to_create _ _ Hin eq_refl). lia.
  - intros rc j rest Hj Hout.
    destruct (iteration (server y) (Message rc ValueCreationDone)) as [o|] eqn:Hit.
    + destruct (iterated (server y) o) as [[s live] out] eqn:Ho.
      destruct (request_ok _ _ _ _ _ _ _ _ _ _ Hj Hout Hit Ho) as [_ Hlive]; [by split|].
      specialize (Hlive eq_refl). destruct o; simplify_eq/=. by eexists _, _.
    + unfold iteration in Hit. destruct (grant _) as [s1 granted]. cbn in Hit.
      by destruct (job_finished_value_creation s1 rc) as [[] ?].
Qed.

End invariant.

(** A job that was given the permission. *)
Definition sample_client : Client := {| change_set_id := 1%N; reply_channel := "a" |}.

Definition waiting (holder : option channel) (q : list channel) : Server :=
  {| value_create_queue := {| processing := holder; queue := q |};
     complete_graph := ∅; readings := 0 |}.

Lemma sample_reachable :
  ∃ y j, sys_reachable (E := tick_env) y ∧ jobs y !! "a" = Some j ∧ at_ j = Creating.
Proof.
  set (j0 := new_job sample_client [5%N]).
  set (j1 := moved j0 [CreateValues] WaitingToCreate []).
  set (j2 := receive OkToCreate (sent j1 [])).
  assert (∀ r, Run ≠ GotResponse (Fetched r)) as Hrun by done.
  pose proof (sys_reachable_step (E := tick_env) _ _ sys_reachable_start
    (sys_arrive at_start "a" sample_client [5%N] eq_refl eq_refl)) as H.
  match type of H with sys_reachable ?y =>
    pose proof (sys_reachable_step (E := tick_env) y _ H
      (sys_job y "a" j0 Run _ _ eq_refl Hrun eq_refl)) as H1 end.
  match type of H1 with sys_reachable ?y =>
    pose proof (sys_reachable_step (E := tick_env) y _ H1
      (sys_request (E := tick_env) y "a" j1 CreateValues [] (Continue (waiting None ["a"]) [])
         _ _ _ eq_refl eq_refl eq_refl eq_refl eq_refl)) as H2
  end.
  match type of H2 with sys_reachable ?y =>
    pose proof (sys_reachable_step (E := tick_env) y _ H2
      (sys_other (E := tick_env) y Sleep
         (Continue (waiting (Some "a") []) [("a", OkToCreate)]) _ _ _ eq_refl (or_introl eq_refl) eq_refl eq_refl)) as H3 end.
  match type of H3 with sys_reachable ?y =>
    pose proof (sys_reachable_step (E := tick_env) y _ H3
      (sys_receive y "a" j2 OkToCreate [] _ _ eq_refl eq_refl eq_refl)) as H4 end.
  eexists _, _. split; [exact H4|]. split; reflexivity.
Qed.

Lemma creation_is_exclusive_witness :
  ∃ y, sys_reachable (E := tick_env) y ∧ (∃ j, jobs y !! "a" = Some j ∧ at_ j = Creating) ∧
  ∀ rc j, jobs y !! rc = Some j → at_ j = Creating → rc = "a".
Proof.
  destruct sample_reachable as (y & j0 & Hy & Hj0 & Hat0). exists y.
  split; [exact Hy|]. split; [by exists j0|]. intros rc j Hj Hat.
  destruct (creation_is_exclusive (E := tick_env) y Hy) as [Hx _].
  exact (Hx rc "a" j j0 Hj Hj0 Hat Hat0).
Defined.

(** ** What a job registers *)

Lemma list_filter_none {A} (P : A → Prop) `{∀ x, Decision (P x)} l :
  Forall (λ x, ¬ P x) l → filter P l = [].
Proof. induction 1 as [|x l Hx _ IH]; [done|]. by rewrite filter_cons_False. Qed.

Lemma unsatisfied_lookup avs (g : Graph) id deps :
  unsatisfied avs g !! id = Some deps ↔
  ∃ all, g !! id = Some all ∧ deps = filter (λ d, d ∉ avs) all ∧ deps ≠ [].
Proof.
  unfold unsatisfied. rewrite map_lookup_filter_Some, lookup_fmap, fmap_Some. naive_solver.
Qed.

(** A job registers, for every value, the dependencies that are not among the
    values that changed, and leaves out the values for which none is left. When
    all the values to update depend on changed values only, nothing is registered
    and the job ends without updating any of them. *)
Theorem direct_dependents_alone_are_not_updated c avs (g : Graph) :
  (∀ id deps, g !! id = Some deps → Forall (λ d, d ∈ avs) deps) →
  job_step c avs Building (GraphIs g) = Some ([], Finished).
Proof.
  intros Hg. cbn. rewrite decide_True; [done|]. apply map_empty. intros id.
  apply eq_None_not_Some. intros [deps (all & Hall & -> & Hne)%unsatisfied_lookup].
  apply Hne, list_filter_none. specialize (Hg _ _ Hall). rewrite Forall_forall in Hg |- *.
  naive_solver.
Qed.

Lemma direct_dependents_alone_are_not_updated_witness :
  job_step sample_client [5%N] Building (GraphIs {[ 6%N := [5%N]; 7%N := [5%N] ]}) =
    Some ([], Finished).
Proof.
  apply (direct_dependents_alone_are_not_updated sample_client [5%N]).
  intros id deps [[_ <-]|[_ [_ <-]%lookup_singleton_Some]]%lookup_insert_Some;
    repeat constructor.
Defined.
