(* ===== verification/LinesCodec.v ===== *)
(** * The newline-delimited codec

    Model of [src/lib/bytes-lines-codec/src/lib.rs]: [BytesLinesCodec] cuts a
    stream of bytes that arrives in pieces into lines, refuses lines over a
    limit, and writes lines. The buffer [src] is a list of bytes; [usize] values
    are [N]. *)

From S2P Require Import Prelude Bytes.
From Stdlib Require Import NArith Init.Byte.
From stdpp Require Import base tactics list strings.

(** ** The codec *)

Module BytesLinesCodec.

Record t := {
  next_index : N;
  max_length : N;
  is_discarding : bool;
}.

Definition default : t :=
  {| next_index := 0; max_length := 8 * 1024 * 1024; is_discarding := false |}.

Definition new_with_max_length (max_length : N) : t :=
  {| next_index := next_index default; max_length := max_length;
     is_discarding := is_discarding default |}.

(** [BytesLinesCodecError], wrapped in an [InvalidInput] error. *)
Inductive BytesLinesCodecError : Set := FrameSizeTooBig.

#[global] Instance BytesLinesCodecError_eq_dec : EqDecision BytesLinesCodecError.
Proof. solve_decision. Defined.

Definition usize_max : N := 18446744073709551615.

Definition saturating_add (a b : N) : N := N.min (a + b) usize_max.

Definition len (src : list Byte.byte) : N := N.of_nat (length src).

(** [iter().position(|b| *b == b'\n')]. *)
Fixpoint position (l : list Byte.byte) : option nat :=
  match l with
  | [] => None
  | b :: l => if decide (b = NL) then Some 0 else S <$> position l
  end.

Definition without_carriage_return (src : list Byte.byte) : list Byte.byte :=
  match last src with
  | Some b => if decide (b = CR) then take (length src - 1) src else src
  | None => src
  end.

(** What [decode] returns. *)
Abbreviation decoded := (result (fault BytesLinesCodecError) (option (list Byte.byte)))
  (only parsing).

Inductive turn : Type :=
| Again (c : t) (src : list Byte.byte)
| Return (r : decoded) (c : t) (src : list Byte.byte).

(** One turn of the loop of [decode]. Slicing [src[next_index..read_to]] panics
    when the bounds are the wrong way round. *)
Definition decode_turn (c : t) (src : list Byte.byte) : turn :=
  let read_to := N.min (saturating_add (max_length c) 1) (len src) in
  if (read_to <? next_index c)%N then Return (Err Panic) c src
  else
    let next := N.to_nat (next_index c) in
    let newline_offset := position (drop next (take (N.to_nat read_to) src)) in
    match is_discarding c, newline_offset with
    | true, Some offset =>
        Again {| next_index := 0; max_length := max_length c; is_discarding := false |}
          (drop (offset + next + 1) src)
    | true, None =>
        let src := drop (N.to_nat read_to) src in
        let c := {| next_index := 0; max_length := max_length c; is_discarding := true |} in
        match src with [] => Return (Ok None) c src | _ => Again c src end
    | false, Some offset =>
        let newline_index := offset + next in
        Return (Ok (Some (without_carriage_return (take newline_index src))))
          {| next_index := 0; max_length := max_length c; is_discarding := false |}
          (drop (newline_index + 1) src)
    | false, None =>
        if (max_length c <? len src)%N then
          Return (Err (Fault FrameSizeTooBig))
            {| next_index := next_index c; max_length := max_length c; is_discarding := true |} src
        else
          Return (Ok None)
            {| next_index := read_to; max_length := max_length c; is_discarding := false |} src
    end.

Fixpoint decode_loop (fuel : nat) (c : t) (src : list Byte.byte) :
    option (decoded * t * list Byte.byte) :=
  match fuel with
  | O => None
  | S fuel =>
      match decode_turn c src with
      | Return r c src => Some (r, c, src)
      | Again c src => decode_loop fuel c src
      end
  end.

(** Every turn but the last takes a byte from [src]. *)
Definition decode (c : t) (src : list Byte.byte) : option (decoded * t * list Byte.byte) :=
  decode_loop (2 + length src) c src.

Definition decode_eof (c : t) (src : list Byte.byte) : option (decoded * t * list Byte.byte) :=
  match decode c src with
  | Some (Ok None, c, src) =>
      if decide (src = [] ∨ src = [CR]) then Some (Ok None, c, src)
      else
        Some (Ok (Some (without_carriage_return src)),
              {| next_index := 0; max_length := max_length c;
                 is_discarding := is_discarding c |}, [])
  | other => other
  end.

Definition encode (c : t) (data dst : list Byte.byte) :
    result BytesLinesCodecError (list Byte.byte) :=
  if (max_length c <? len data)%N then Err FrameSizeTooBig else Ok (dst ++ data ++ [NL]).

End BytesLinesCodec.
Import BytesLinesCodec.

(** ** Reading a stream *)

(** How a stream is read: a piece is appended to the buffer, and [decode] is
    called until it has nothing more. *)
Inductive event : Type :=
| Line (line : list Byte.byte)
| TooLong.

Definition events_of (r : result (fault BytesLinesCodecError) (option (list Byte.byte))) :
    list event :=
  match r with
  | Ok (Some line) => [Line line]
  | Ok None => []
  | Err _ => [TooLong]
  end.

(** [None] when the fuel is used up, or on a panic. *)
Fixpoint drain (fuel : nat) (c : t) (src : list Byte.byte) :
    option (list event * t * list Byte.byte) :=
  match fuel with
  | O => None
  | S fuel =>
      match decode c src with
      | None | Some (Err Panic, _, _) => None
      | Some (Ok None, c, src) => Some ([], c, src)
      | Some (r, c, src) =>
          match drain fuel c src with
          | Some (evs, c, src) => Some (events_of r ++ evs, c, src)
          | None => None
          end
      end
  end.

(** A piece gives at most two results for every byte in the buffer, and one
    more. *)
Fixpoint read_stream (c : t) (src : list Byte.byte) (pieces : list (list Byte.byte)) :
    option (list event * t * list Byte.byte) :=
  match pieces with
  | [] => Some ([], c, src)
  | piece :: pieces =>
      match drain (2 + 2 * length (src ++ piece)) c (src ++ piece) with
      | None => None
      | Some (evs, c, src) =>
          match read_stream c src pieces with
          | None => None
          | Some (evs', c, src) => Some (evs ++ evs', c, src)
          end
      end
  end.

(** The end of the stream: [decode_eof] is called on what is left. *)
Definition read_to_end (c : t) (pieces : list (list Byte.byte)) :
    option (list event) :=
  match read_stream c [] pieces with
  | None => None
  | Some (evs, c, src) =>
      match decode_eof c src with
      | None | Some (Err Panic, _, _) => None
      | Some (r, _, _) => Some (evs ++ events_of r)
      end
  end.

(** Sending: every frame is encoded into the same buffer. *)
Fixpoint encode_all (c : t) (frames : list (list Byte.byte)) (dst : list Byte.byte) :
    result BytesLinesCodecError (list Byte.byte) :=
  match frames with
  | [] => Ok dst
  | frame :: frames => encode c frame dst ≫= encode_all c frames
  end.

(** ** The reference: one byte at a time *)

(** The abstract framer holds the bytes of the line so far, or knows that the
    line is being thrown away. It has no buffer and no position. *)
Inductive framer : Type :=
| Collecting (line : list Byte.byte)
| Discarding.

Definition frame_byte (max : N) (s : framer) (b : Byte.byte) : list event * framer :=
  match s with
  | Discarding => ([], if decide (b = NL) then Collecting [] else Discarding)
  | Collecting line =>
      if decide (b = NL) then ([Line (without_carriage_return line)], Collecting [])
      else if (len (line ++ [b]) <=? max)%N then ([], Collecting (line ++ [b]))
      else ([TooLong], Discarding)
  end.

Fixpoint frame_bytes (max : N) (s : framer) (bs : list Byte.byte) : list event * framer :=
  match bs with
  | [] => ([], s)
  | b :: bs =>
      let '(evs, s) := frame_byte max s b in
      let '(evs', s) := frame_bytes max s bs in (evs ++ evs', s)
  end.

(** What the stream's end gives. *)
Definition frame_end (s : framer) : list event :=
  match s with
  | Discarding => []
  | Collecting line =>
      if decide (line = [] ∨ line = [CR]) then [] else [Line (without_carriage_return line)]
  end.

Definition frame_stream (max : N) (bs : list Byte.byte) : list event :=
  let '(evs, s) := frame_bytes max (Collecting []) bs in evs ++ frame_end s.

Lemma frame_bytes_app max s a b :
  frame_bytes max s (a ++ b) =
    ((frame_bytes max s a).1 ++ (frame_bytes max (frame_bytes max s a).2 b).1,
     (frame_bytes max (frame_bytes max s a).2 b).2).
Proof.
  revert s. induction a as [|x a IH]; intros s; cbn.
  - by destruct (frame_bytes max s b).
  - destruct (frame_byte max s x) as [evs s']. rewrite IH.
    destruct (frame_bytes max s' a) as [evs' s'']. cbn. by rewrite (assoc_L (++)).
Qed.

Lemma frame_bytes_discarding max bs :
  NL ∉ bs → frame_bytes max Discarding bs = ([], Discarding).
Proof.
  induction bs as [|b bs IH]; [done|]. intros [Hb Hbs]%not_elem_of_cons. cbn.
  rewrite decide_False by congruence. by rewrite IH.
Qed.

Lemma frame_bytes_collecting max line bs :
  NL ∉ bs → (len (line ++ bs) <= max)%N →
  frame_bytes max (Collecting line) bs = ([], Collecting (line ++ bs)).
Proof.
  revert line. induction bs as [|b bs IH]; intros line; cbn.
  { by rewrite app_nil_r. }
  intros [Hb Hbs]%not_elem_of_cons Hlen. unfold len in *. rewrite length_app in Hlen. cbn in Hlen.
  rewrite decide_False by congruence.
  destruct (N.leb_spec (N.of_nat (length (line ++ [b]))) max) as [_|H].
  2: { rewrite length_app in H. cbn in H. lia. }
  rewrite IH, <-(assoc_L (++)); [done|done|]. rewrite !length_app. cbn. lia.
Qed.

(** A line over the limit is reported once, and then thrown away. *)
Lemma frame_bytes_too_long max bs :
  NL ∉ bs → (max < len bs)%N → frame_bytes max (Collecting []) bs = ([TooLong], Discarding).
Proof.
  intros Hnl Hlen. unfold len in Hlen. rewrite <-(take_drop (N.to_nat max) bs) in Hnl |- *.
  apply not_elem_of_app in Hnl as [Hn1 Hn2]. rewrite frame_bytes_app.
  assert (Hl : length (take (N.to_nat max) bs) = N.to_nat max) by (rewrite length_take; lia).
  rewrite frame_bytes_collecting by (done || unfold len; cbn; lia). cbn.
  destruct (drop (N.to_nat max) bs) as [|b rest] eqn:Hd.
  { apply (f_equal length) in Hd. rewrite length_drop in Hd. cbn in Hd. lia. }
  apply not_elem_of_cons in Hn2 as [Hb Hrest]. cbn. rewrite decide_False by congruence.
  destruct (N.leb_spec (len (take (N.to_nat max) bs ++ [b])) max) as [H|_].
  { unfold len in H. rewrite length_app in H. cbn in H. lia. }
  by rewrite frame_bytes_discarding.
Qed.

(** ** The codec against the reference *)

Lemma position_Some l k :
  position l = Some k → (NL ∉ take k l) ∧ l !! k = Some NL.
Proof.
  revert k. induction l as [|b l IH]; intros k; cbn; [done|].
  destruct (decide (b = NL)) as [->|Hb].
  - intros [= <-]. split; [by apply not_elem_of_nil|done].
  - intros (k' & Hk' & ->)%fmap_Some. destruct (IH _ Hk') as [H1 H2]. split; [|done].
    cbn. apply not_elem_of_cons. split; [congruence|done].
Qed.

Lemma position_None l : position l = None → NL ∉ l.
Proof.
  induction l as [|b l IH]; cbn; [intros _; by apply not_elem_of_nil|].
  destruct (decide (b = NL)); [done|]. intros H%fmap_None.
  apply not_elem_of_cons. split; [congruence|auto].
Qed.

(** The part of the buffer that was searched holds no newline. *)
Record consistent (c : t) (src : list Byte.byte) : Prop := {
  limit_fits : (max_length c < usize_max)%N;
  next_in_buffer : (next_index c <= len src)%N;
  next_in_limit : (next_index c <= max_length c)%N;
  searched : NL ∉ take (N.to_nat (next_index c)) src;
}.

(** The abstract state before the buffer is looked at. *)
Definition start_of (c : t) : framer := if is_discarding c then Discarding else Collecting [].

(** The bytes [decode] looks at. *)
Definition window (c : t) (src : list Byte.byte) : nat :=
  Nat.min (S (N.to_nat (max_length c))) (length src).

Arguments window : simpl never.
Arguments len : simpl never.

Lemma search_spec c src :
  consistent c src →
  let read_to := N.min (saturating_add (max_length c) 1) (len src) in
  let next := N.to_nat (next_index c) in
  (read_to <? next_index c)%N = false ∧ N.to_nat read_to = window c src ∧
  match position (drop next (take (N.to_nat read_to) src)) with
  | Some offset =>
      (NL ∉ take (offset + next) src) ∧ src !! (offset + next) = Some NL ∧
      offset + next < window c src
  | None => NL ∉ take (window c src) src
  end.
Proof.
  intros [Hmax Hnext Hlim Hs]. cbn zeta.
  assert (Hr : N.to_nat (N.min (saturating_add (max_length c) 1) (len src)) = window c src).
  { unfold saturating_add, window, len, usize_max in *. lia. }
  set (read_to := N.min _ _) in *. set (next := N.to_nat (next_index c)) in *.
  assert (Hnw : next ≤ window c src) by (unfold window, len in *; lia).
  split; [apply N.ltb_ge; lia|]. split; [done|]. rewrite Hr. clear Hr read_to.
  assert (Hsplit : take (window c src) src =
    take next src ++ drop next (take (window c src) src)).
  { rewrite <-(take_drop next (take (window c src) src)) at 1. f_equal.
    rewrite take_take. f_equal. lia. }
  destruct (position _) as [offset|] eqn:Hp.
  - apply position_Some in Hp as [Hno Hyes]. rewrite lookup_drop in Hyes.
    apply lookup_take_Some in Hyes as [Hyes Hlt].
    rewrite (Nat.add_comm offset next). split; [|done].
    rewrite take_drop_commute, take_take, Nat.min_l, <-take_drop_commute in Hno by lia.
    rewrite <-take_take_drop. by apply not_elem_of_app.
  - apply position_None in Hp. rewrite Hsplit. by apply not_elem_of_app.
Qed.

(** The reference on a buffer cut where the codec cuts it. *)
Lemma frame_discards max src n :
  NL ∉ take n src → frame_bytes max Discarding src = frame_bytes max Discarding (drop n src).
Proof.
  intros Hno. rewrite <-(take_drop n src) at 1.
  rewrite frame_bytes_app, (frame_bytes_discarding _ _ Hno). cbn. by destruct (frame_bytes _ _ _).
Qed.

Lemma frame_discards_line max src i :
  NL ∉ take i src → src !! i = Some NL →
  frame_bytes max Discarding src = frame_bytes max (Collecting []) (drop (i + 1) src).
Proof.
  intros Hno Hnl. rewrite (frame_discards _ _ _ Hno), (drop_S _ _ _ Hnl), Nat.add_1_r.
  cbn [frame_bytes frame_byte fst snd app]. rewrite decide_True by done. by destruct (frame_bytes _ _ _).
Qed.

Lemma frame_line max src i :
  NL ∉ take i src → src !! i = Some NL → (N.of_nat i <= max)%N →
  frame_bytes max (Collecting []) src =
    let '(evs, s) := frame_bytes max (Collecting []) (drop (i + 1) src) in
    (Line (without_carriage_return (take i src)) :: evs, s).
Proof.
  intros Hno Hnl Hi. rewrite <-(take_drop i src) at 1.
  rewrite frame_bytes_app, frame_bytes_collecting.
  2: done. 2: { cbn. unfold len. rewrite length_take. lia. }
  rewrite (drop_S _ _ _ Hnl), Nat.add_1_r. cbn [frame_bytes frame_byte fst snd app].
  rewrite decide_True by done. by destruct (frame_bytes _ _ _).
Qed.

Lemma frame_long max src :
  NL ∉ take (S (N.to_nat max)) src → (max < len src)%N →
  frame_bytes max (Collecting []) src =
    let '(evs, s) := frame_bytes max Discarding src in (TooLong :: evs, s).
Proof.
  intros Hno Hlen. rewrite (frame_discards _ _ _ Hno).
  rewrite <-(take_drop (S (N.to_nat max)) src) at 1.
  rewrite frame_bytes_app, frame_bytes_too_long; [by destruct (frame_bytes _ _ _)|done|].
  unfold len in *. rewrite length_take. lia.
Qed.

Lemma consistent_fresh mx d src :
  (mx < usize_max)%N →
  consistent {| next_index := 0; max_length := mx; is_discarding := d |} src.
Proof. intros. constructor; cbn; [done|lia|lia|by apply not_elem_of_nil]. Qed.

(** What a turn does to the frames still to come: [after] is the reference run on
    what the turn leaves. *)
Lemma decode_turn_spec c src :
  consistent c src →
  match decode_turn c src with
  | Again c' src' =>
      max_length c' = max_length c ∧ consistent c' src' ∧ length src' < length src ∧
      frame_bytes (max_length c) (start_of c) src = frame_bytes (max_length c) (start_of c') src'
  | Return r c' src' =>
      max_length c' = max_length c ∧ consistent c' src' ∧ r ≠ Err Panic ∧
      length src' ≤ length src ∧
      (let '(evs, s) := frame_bytes (max_length c) (start_of c') src' in
       frame_bytes (max_length c) (start_of c) src = (events_of r ++ evs, s)) ∧
      match r with
      | Ok None =>
          (len src' <= max_length c)%N ∧ (NL ∉ src') ∧ (is_discarding c' = true → src' = [])
      | Ok (Some _) => length src' < length src ∧ is_discarding c' = false
      | Err _ => is_discarding c = false ∧ is_discarding c' = true
      end
  end.
Proof.
  intros Hc. pose proof (search_spec c src Hc) as (Hnp & Hrd & Hsearch). destruct Hc as [Hmax Hnext Hlim Hs].
  unfold decode_turn. rewrite Hnp. unfold start_of.
  pose proof (fun d src => consistent_fresh (max_length c) d src Hmax) as Hfresh.
  destruct (is_discarding c) eqn:Hd, (position _) as [offset|]; rewrite ?Hrd.
  - destruct Hsearch as (Hno & Hnl & Hlt). cbn. pose proof (lookup_lt_Some _ _ _ Hnl).
    rewrite length_drop. split_and!; [done|apply Hfresh|lia|by apply frame_discards_line].
  - cbn. pose proof (frame_discards (max_length c) _ _ Hsearch) as Hf.
    destruct (drop (window c src) src) as [|b rest] eqn:Hrest; cbn.
    + rewrite Hf. split_and!; try done; [lia|unfold len; cbn; lia|by apply not_elem_of_nil].
    + apply (f_equal length) in Hrest. rewrite length_drop in Hrest.
      split_and!; [done|apply Hfresh|cbn in Hrest |- *; unfold window in *; lia|done].
  - destruct Hsearch as (Hno & Hnl & Hlt). cbn. pose proof (lookup_lt_Some _ _ _ Hnl).
    rewrite length_drop, (frame_line _ _ _ Hno Hnl) by (unfold window in *; lia).
    destruct (frame_bytes _ _ (drop _ _)). split_and!; try done; lia.
  - destruct (N.ltb_spec (max_length c) (len src)) as [Hlong|Hshort]; cbn.
    + rewrite frame_long; [|by replace (S _) with (window c src) by (unfold window, len in *; lia)|done].
      destruct (frame_bytes _ _ _). split_and!; try done.
    + assert (window c src = length src) as Hw by (unfold window, len in *; lia).
      rewrite Hw, take_ge in Hsearch by lia.
      destruct (frame_bytes _ _ _). split_and!; try done.
      constructor; cbn; [done|lia|unfold len in *; lia|].
      by rewrite Hrd, Hw, take_ge.
Qed.

(** The buffer between two pieces holds the line being collected. *)
Definition rests (c : t) (src : list Byte.byte) (s : framer) : Prop :=
  consistent c src ∧
  match s with
  | Collecting line =>
      is_discarding c = false ∧ src = line ∧ (NL ∉ line) ∧ (len line <= max_length c)%N
  | Discarding => is_discarding c = true ∧ src = []
  end.

(** Calls to [decode] that are left to make before it has nothing more. *)
Definition work (c : t) (src : list Byte.byte) : nat :=
  2 * length src + (if is_discarding c then 0 else 1).

Arguments work : simpl never.

Lemma decode_loop_spec fuel c src :
  consistent c src → length src < fuel →
  ∃ r c' src', decode_loop fuel c src = Some (r, c', src') ∧
    max_length c' = max_length c ∧ consistent c' src' ∧ r ≠ Err Panic ∧
    (let '(evs, s) := frame_bytes (max_length c) (start_of c') src' in
     frame_bytes (max_length c) (start_of c) src = (events_of r ++ evs, s)) ∧
    match r with
    | Ok None =>
        ∃ s, frame_bytes (max_length c) (start_of c) src = ([], s) ∧ rests c' src' s
    | _ => work c' src' < work c src
    end.
Proof.
  revert c src. induction fuel as [|fuel IH]; intros c src Hc Hfuel; [lia|]. cbn.
  pose proof (decode_turn_spec c src Hc) as Hturn.
  destruct (decode_turn c src) as [c1 src1|r c' src'].
  - destruct Hturn as (Hm & Hc1 & Hlt & Hf).
    destruct (IH c1 src1 Hc1 ltac:(lia)) as (r & c' & src' & -> & Hm' & Hc' & Hp & Hf' & Hr).
    rewrite Hm in *. exists r, c', src'. rewrite Hf. split_and!; try done.
    assert (work c1 src1 < work c src)
      by (unfold work; destruct (is_discarding c1), (is_discarding c); lia).
    destruct r as [[line|]|e]; [lia|done|lia].
  - destruct Hturn as (Hm & Hc' & Hp & Hle & Hf & Hr).
    exists r, c', src'. split_and!; try done.
    destruct r as [[line|]|e]; cbn.
    + unfold work. destruct Hr as [? ->]. destruct (is_discarding c); lia.
    + destruct Hr as (Hlen & Hno & Hd). unfold rests, start_of in *.
      destruct (is_discarding c') eqn:Hdc.
      * rewrite (Hd eq_refl) in *. by exists Discarding.
      * rewrite frame_bytes_collecting in Hf by done. exists (Collecting src'). by rewrite Hm.
    + unfold work. destruct Hr as [-> ->]. lia.
Qed.

Lemma drain_spec fuel c src :
  consistent c src → work c src < fuel →
  ∃ c' src', let '(evs, s) := frame_bytes (max_length c) (start_of c) src in
    drain fuel c src = Some (evs, c', src') ∧ max_length c' = max_length c ∧ rests c' src' s.
Proof.
  revert c src. induction fuel as [|fuel IH]; intros c src Hc Hfuel; [lia|].
  cbn [drain]. unfold decode.
  destruct (decode_loop_spec (2 + length src) c src Hc ltac:(lia))
    as (r & c' & src' & -> & Hm & Hc' & Hp & Hf & Hr).
  destruct (decide (r = Ok None)) as [->|Hr'].
  { destruct Hr as (s & -> & Hrest). by exists c', src'. }
  assert (work c' src' < work c src) as Hw by by destruct r as [[line|]|e].
  destruct (IH c' src' Hc' ltac:(lia)) as (c2 & src2 & Hdr). rewrite Hm in Hdr.
  destruct (frame_bytes (max_length c) (start_of c') src') as [evs s].
  destruct Hdr as (Hdr & Hm2 & Hrest). exists c2, src2. rewrite Hf.
  by destruct r as [[line|]|[e|]]; rewrite ?Hdr.
Qed.

Lemma rests_start c src s max :
  rests c src s → max_length c = max →
  frame_bytes max (start_of c) src = ([], s).
Proof.
  intros [Hc Hs] <-. unfold start_of. destruct s as [line|].
  - destruct Hs as (-> & -> & Hno & Hlen). by apply frame_bytes_collecting.
  - by destruct Hs as (-> & ->).
Qed.

(** A piece may arrive while a line is half read. *)
Lemma consistent_more c src piece s :
  rests c src s → consistent c (src ++ piece).
Proof.
  intros [[Hmax Hnext Hlim Hs] _]. constructor; [done|..|done|].
  - unfold len in *. rewrite length_app. lia.
  - by rewrite take_app_le by (unfold len in *; lia).
Qed.

Lemma read_stream_spec c src s pieces :
  rests c src s →
  ∃ c' src', let '(evs, s') := frame_bytes (max_length c) s (mjoin pieces) in
    read_stream c src pieces = Some (evs, c', src') ∧
    max_length c' = max_length c ∧ rests c' src' s'.
Proof.
  revert c src s. induction pieces as [|piece pieces IH]; intros c src s Hrest.
  { by exists c, src. }
  cbn [read_stream mjoin list_join].
  destruct (drain_spec (2 + 2 * length (src ++ piece)) c (src ++ piece)) as (c1 & src1 & Hdr).
  { by eapply consistent_more. } { unfold work. destruct (is_discarding c); lia. }
  rewrite frame_bytes_app, (rests_start _ _ _ _ Hrest eq_refl) in Hdr. cbn [fst snd app] in Hdr.
  rewrite frame_bytes_app.
  destruct (frame_bytes (max_length c) s piece) as [evs s1]. destruct Hdr as (-> & Hm & Hrest1).
  destruct (IH c1 src1 s1 Hrest1) as (c2 & src2 & Hrd). rewrite Hm in Hrd. cbn [fst snd].
  destruct (frame_bytes (max_length c) s1 _) as [evs' s2]. destruct Hrd as (-> & Hm2 & Hrest2).
  by exists c2, src2.
Qed.

Lemma rests_fresh max :
  (max < usize_max)%N → rests (new_with_max_length max) [] (Collecting []).
Proof.
  intros Hmax. split; [by apply consistent_fresh|]. split_and!; [done|done|by apply not_elem_of_nil|].
  unfold len; cbn; lia.
Qed.

Lemma decode_eof_spec c src s :
  rests c src s →
  ∃ r c' src', decode_eof c src = Some (r, c', src') ∧ r ≠ Err Panic ∧ events_of r = frame_end s.
Proof.
  intros Hrest. pose proof Hrest as [Hc _]. unfold decode_eof, decode.
  destruct (decode_loop_spec (2 + length src) c src Hc ltac:(lia))
    as (r & c' & src' & -> & Hm & Hc' & Hp & Hf & Hr).
  rewrite (rests_start _ _ _ _ Hrest eq_refl) in Hf, Hr.
  assert (r = Ok None) as ->.
  { destruct (frame_bytes _ _ src'). by destruct r as [[line|]|e]. }
  destruct Hr as (s' & [= <-] & [_ Hs]). destruct s as [line|]; cbn.
  - destruct Hs as (_ & -> & _). destruct (decide _); by eexists _, _, _.
  - destruct Hs as (_ & ->). rewrite decide_True by tauto. by eexists _, _, _.
Qed.

(** C13: However a stream of bytes is cut into the pieces that arrive, the codec
    returns the lines and the errors of the reference, which looks at the whole
    stream one byte at a time: every call of [decode] returns, none panics on its
    slice, a line of up to [max_length] bytes is returned without its newline and
    a carriage return before it, a longer one is reported once and skipped, and
    the end of the stream gives the unfinished line, if there is one. *)
Theorem stream_is_framed max pieces :
  (max < usize_max)%N →
  read_to_end (new_with_max_length max) pieces = Some (frame_stream max (mjoin pieces)).
Proof.
  intros Hmax. unfold read_to_end, frame_stream.
  destruct (read_stream_spec _ [] _ pieces (rests_fresh max Hmax)) as (c & src & Hrd).
  cbn [max_length new_with_max_length] in Hrd.
  destruct (frame_bytes max (Collecting []) (mjoin pieces)) as [evs s].
  destruct Hrd as (-> & Hm & Hrest).
  destruct (decode_eof_spec _ _ _ Hrest) as (r & c' & src' & -> & Hp & <-).
  by destruct r as [line|[e|]].
Qed.

Lemma stream_is_framed_witness :
  (8 < usize_max)%N ∧
  read_to_end (new_with_max_length 8) [str "one"; CR :: [NL]; str "two, and too long"; [NL]; str "end"]
  = Some [Line (str "one"); TooLong; Line (str "end")].
Proof. split; [done|]. by rewrite (stream_is_framed 8) by done. Defined.

(** C40: The buffer the codec leaves between two pieces holds at most [max_length]
    bytes, whatever has arrived: a stream without newlines does not fill the
    memory. *)
Theorem buffer_is_bounded max pieces :
  (max < usize_max)%N →
  ∃ evs c src, read_stream (new_with_max_length max) [] pieces = Some (evs, c, src) ∧
    (len src <= max)%N ∧ (is_discarding c = true → src = []).
Proof.
  intros Hmax.
  destruct (read_stream_spec _ [] _ pieces (rests_fresh max Hmax)) as (c & src & Hrd).
  destruct (frame_bytes _ _ (mjoin pieces)) as [evs s]. destruct Hrd as (Hrd & Hm & [Hc Hs]).
  exists evs, c, src. split; [done|]. cbn in Hm. rewrite Hm in Hs. destruct s as [line|].
  - destruct Hs as (Hd & -> & _ & Hlen). split; [done|]. by rewrite Hd.
  - destruct Hs as (_ & ->). split; [unfold len; cbn; lia|done].
Qed.

Lemma buffer_is_bounded_witness :
  (4 < usize_max)%N ∧
  ∃ evs c src, read_stream (new_with_max_length 4) [] [str "abc"; str "def"; str "ghi"] =
      Some (evs, c, src) ∧ (len src <= 4)%N ∧ (is_discarding c = true → src = []).
Proof. split; [done|]. by apply (buffer_is_bounded 4). Defined.

(** ** What is sent is what arrives *)

(** The frames the format can carry. *)
Definition sendable (frame : list Byte.byte) : Prop := (NL ∉ frame) ∧ last frame ≠ Some CR.

#[global] Instance sendable_dec frame : Decision (sendable frame).
Proof. unfold sendable. apply _. Defined.

Lemma without_carriage_return_same frame :
  last frame ≠ Some CR → without_carriage_return frame = frame.
Proof.
  unfold without_carriage_return. destruct (last frame) as [b|]; [|done].
  intros Hb. by rewrite decide_False by congruence.
Qed.

Lemma encode_all_frames max frames dst out :
  Forall sendable frames →
  encode_all (new_with_max_length max) frames dst = Ok out →
  ∃ body, out = dst ++ body ∧
    frame_bytes max (Collecting []) body = (Line <$> frames, Collecting []).
Proof.
  intros Hall. revert dst. induction Hall as [|frame frames [Hnl Hcr] _ IH]; intros dst; cbn.
  { intros [= <-]. exists []. by rewrite app_nil_r. }
  unfold encode. cbn. destruct (N.ltb_spec max (len frame)) as [_|Hlen]; cbn; [done|].
  intros (body & -> & Hbody)%IH. exists (frame ++ NL :: body). split.
  { by rewrite <-!(assoc_L (++)). }
  rewrite (frame_line max _ (length frame)).
  - rewrite drop_app_ge by lia. replace (_ - length frame) with 1 by lia. cbn [drop]. rewrite drop_0, Hbody.
    by rewrite take_app_length, without_carriage_return_same.
  - by rewrite take_app_length.
  - by apply list_lookup_middle.
  - done.
Qed.

(** What one side sends the other receives: frames that hold no newline and
    do not end in a carriage return, encoded one after the other, come out of the
    decoder as they went in, however the bytes are cut on the way, with nothing
    left at the end. *)
Theorem frames_round_trip max frames pieces :
  (max < usize_max)%N → Forall sendable frames →
  encode_all (new_with_max_length max) frames [] = Ok (mjoin pieces) →
  read_to_end (new_with_max_length max) pieces = Some (Line <$> frames).
Proof.
  intros Hmax Hall (body & Hout & Hbody)%encode_all_frames; [|done].
  destruct (read_stream_spec _ [] _ pieces (rests_fresh max Hmax)) as (c & src & Hrd).
  cbn [max_length new_with_max_length] in Hrd. unfold read_to_end. rewrite Hout in Hrd. cbn in Hrd.
  rewrite Hbody in Hrd. destruct Hrd as (-> & _ & Hrest).
  destruct (decode_eof_spec _ _ _ Hrest) as (r & c' & src' & -> & Hp & Hr). rewrite Hr.
  destruct r as [line|[e|]]; [|done|done]. cbn. by rewrite app_nil_r.
Qed.

Lemma frames_round_trip_witness :
  Forall sendable [str "hello"; []; str "world"] ∧
  read_to_end (new_with_max_length 5) [str "hel"; str "lo"; NL :: [NL]; str "world"; [NL]] =
    Some [Line (str "hello"); Line []; Line (str "world")].
Proof.
  assert (Forall sendable [str "hello"; []; str "world"]) as Hs.
  { apply (bool_decide_unpack _). vm_compute. exact I. }
  split; [exact Hs|]. apply (frames_round_trip 5 [str "hello"; []; str "world"]); [done|exact Hs|reflexivity].
Defined.
