(* ===== verification/DalContext.v ===== *)
(** * Contexts, transactions and jobs of the data layer

    Model of [src/lib/dal/src/context.rs] with what it drives: the shared
    PostgreSQL transaction ([src/lib/si-data-pg/src/lib.rs]), the NATS
    transaction ([src/lib/si-data-nats/src/lib.rs]), and the job queue and its
    processor ([src/lib/dal/src/job/queue.rs], [processor/nats_processor.rs]).

    A [DalContext] is a handle: clones of a context share one connection state
    behind a mutex, and all the contexts made from one [ServicesContext] share one
    job queue. Both are kept in a store. What the database, the message broker
    and the jobs themselves answer is an argument of every operation. *)

From S2P Require Import Prelude.
From Stdlib Require Import NArith.
From stdpp Require Import base tactics list gmap.

(** ** Visibility and tenancy *)

Module Visibility.

(** [ChangeSetPk::NONE]. *)
Definition NONE : N := 0.

Record t := {
  change_set_pk : N;
  deleted_at : option N;
}.

#[global] Instance eq_dec : EqDecision t.
Proof. solve_decision. Defined.

(** [Utc::now()] is the argument [now]. *)
Definition new_change_set (now : N) (pk : N) (deleted : bool) : t :=
  {| change_set_pk := pk; deleted_at := if deleted then Some now else None |}.

Definition new_head (now : N) (deleted : bool) : t := new_change_set now NONE deleted.

Definition is_head (v : t) : bool := bool_decide (change_set_pk v = NONE).

Definition in_change_set (v : t) : bool := bool_decide (change_set_pk v ≠ NONE).

Definition is_deleted (v : t) : bool := bool_decide (is_Some (deleted_at v)).

Definition to_deleted (now : N) (v : t) : t :=
  {| change_set_pk := change_set_pk v; deleted_at := Some now |}.

Definition to_non_deleted (v : t) : t :=
  {| change_set_pk := change_set_pk v; deleted_at := None |}.

Definition to_head (now : N) (v : t) : t := new_head now (is_deleted v).

Definition to_change_set (now : N) (v : t) (pk : N) : t := new_change_set now pk (is_deleted v).

Definition to_change_set_deleted (now : N) (v : t) (pk : N) : t := new_change_set now pk true.

End Visibility.

Inductive HistoryActor : Set := SystemInit | User (pk : N).

(** [Tenancy]: the workspace, if any. *)
Record Tenancy := { workspace_pk : option N }.

Section Context.

(** Statements, messages and jobs are opaque. *)
Context {Statement Message Job : Type}.

(** ** The transactions *)

(** [PgError], as the transactions produce it. *)
Inductive PgError : Type :=
| Driver
| TxnCommitNotExclusive (count : nat)
| TxnRollbackNotExclusive (count : nat).

Inductive TransactionsError : Type :=
| Pg (e : PgError)
| PgPool
| Nats
| JobQueueProcessor
| TxnCommit
| TxnRollback
| TxnStart (state : ConnectionStateName)
with ConnectionStateName : Type := invalid | transactions.

(** A started PostgreSQL transaction: its number, what was executed in it, and
    how many handles share it ([Arc::strong_count]). *)
Record PgTxn := {
  number : nat;
  statements : list Statement;
  strong_count : nat;
}.

Record Transactions := {
  pg_txn : PgTxn;
  (** [NatsTxn::pending_publish]. *)
  pending_publish : list Message;
}.

Inductive ConnectionState : Type :=
| InConnections
| Invalid
| InTransactions (txns : Transactions).

(** ** The store *)

(** What can be seen from outside. *)
Inductive effect : Type :=
| Committed (number : nat) (statements : list Statement)
| RolledBack (number : nat)
| Published (number : nat) (message : Message)
| Pushed (job : Job)
| Dispatched (job : Job).

(** A task spawned by [process_queue]: between two jobs, or about to publish the
    job it took from the queue. *)
Inductive pusher : Type :=
| Fetching
| Publishing (job : Job)
| Done.

(** What becomes of a job that is waited for: it may not be sent, when it cannot be
    serialized or the subscription or publishing fails. *)
Inductive outcome : Set :=
| NotSent
| JobFailed
| JobSucceeded.

Record world := {
  states : list ConnectionState;
  (** [JobQueue::queue], shared by every clone of the processor. *)
  queue : list Job;
  pushers : list pusher;
  (** Jobs that were given up, by a pusher or before they were sent. *)
  dropped : list Job;
  next_number : nat;
  effects : list effect;
}.

(** What the outside answers to one operation. *)
Record answers := {
  pool_get : bool;
  pg_create : bool;
  pg_commit : bool;
  pg_rollback : bool;
  (** How many messages are accepted before publishing fails; [None] when it does
      not fail. *)
  nats_accepts : option nat;
  (** What becomes of the jobs that are waited for, by their positions. *)
  job_outcome : nat → Job → outcome;
  (** Whether a pushed job is serialized and accepted. *)
  push_accepted : bool;
}.

(** An operation reads the answers, changes the store, and returns a result. *)
Definition op (A : Type) : Type :=
  answers → world → result (fault TransactionsError) A * world.

#[export] Instance op_ret : MRet op := λ A a _ w, (Ok a, w).
#[export] Instance op_bind : MBind op := λ A B f m ans w,
  match m ans w with
  | (Ok a, w) => f a ans w
  | (Err e, w) => (Err e, w)
  end.

Definition fail {A} (e : TransactionsError) : op A := λ _ w, (Err (Fault e), w).

Definition panic {A} : op A := λ _ w, (Err Panic, w).

Definition ask {A} (f : answers → A) : op A := λ ans w, (Ok (f ans), w).

Definition emit (es : list effect) : op unit := λ _ w,
  (Ok (), {| states := states w; queue := queue w; pushers := pushers w; dropped := dropped w;
             next_number := next_number w; effects := effects w ++ es |}).

Definition get_queue : op (list Job) := λ _ w, (Ok (queue w), w).

Definition set_queue (q : list Job) : op unit := λ _ w,
  (Ok (), {| states := states w; queue := q; pushers := pushers w; dropped := dropped w;
             next_number := next_number w; effects := effects w |}).

Definition spawn (p : pusher) : op unit := λ _ w,
  (Ok (), {| states := states w; queue := queue w; pushers := pushers w ++ [p];
             dropped := dropped w; next_number := next_number w; effects := effects w |}).

Definition fresh_number : op nat := λ _ w,
  (Ok (next_number w),
   {| states := states w; queue := queue w; pushers := pushers w; dropped := dropped w;
      next_number := S (next_number w); effects := effects w |}).

(** Writing through the guard of the mutex [l]. *)
Definition set_state (l : nat) (s : ConnectionState) : op unit := λ _ w,
  (Ok (), {| states := <[l := s]> (states w); queue := queue w; pushers := pushers w;
             dropped := dropped w; next_number := next_number w; effects := effects w |}).

(** [guard.take()]: the state is replaced by [Invalid]. *)
Definition ConnectionState_take (l : nat) : op ConnectionState := λ ans w,
  match states w !! l with
  | Some s => (Ok s, (set_state l Invalid ans w).2)
  | None => (Err Panic, w)
  end.

(** ** PostgreSQL *)

(** [PgSharedTransaction::create]. *)
Definition PgTxn_create : op PgTxn :=
  ok ← ask pg_create;
  if ok : bool then
    n ← fresh_number; mret {| number := n; statements := []; strong_count := 1 |}
  else fail (Pg Driver).

(** [PgSharedTransaction::commit_into_conn]: [Arc::try_unwrap], then the commit. *)
Definition PgTxn_commit_into_conn (txn : PgTxn) : op unit :=
  if decide (strong_count txn = 1) then
    ok ← ask pg_commit;
    if ok : bool then emit [Committed (number txn) (statements txn)] else fail (Pg Driver)
  else fail (Pg (TxnCommitNotExclusive (strong_count txn))).

Definition PgTxn_rollback_into_conn (txn : PgTxn) : op unit :=
  if decide (strong_count txn = 1) then
    ok ← ask pg_rollback;
    if ok : bool then emit [RolledBack (number txn)] else fail (Pg Driver)
  else fail (Pg (TxnRollbackNotExclusive (strong_count txn))).

(** ** NATS *)

(** [NatsTxn::commit_into_conn]: the pending messages are published in order, up
    to the first failure. The rest is dropped with the transaction. *)
Definition NatsTxn_commit_into_conn (n : nat) (pending : list Message) : op unit :=
  accepted ← ask nats_accepts;
  match accepted with
  | Some k =>
      if decide (k < length pending) then
        emit (Published n <$> list.take k pending);; fail Nats
      else emit (Published n <$> pending)
  | None => emit (Published n <$> pending)
  end.

(** ** Jobs *)

(** [NatsProcessor::enqueue_job]. *)
Definition enqueue (job : Job) : op unit := q ← get_queue; set_queue (q ++ [job]).

(** [NatsProcessor::process_queue]: a task is spawned that pushes the jobs. *)
Definition process_queue : op unit := spawn Fetching.

Definition drop_job (job : Job) : op unit := λ _ w,
  (Ok (), {| states := states w; queue := queue w; pushers := pushers w;
             dropped := dropped w ++ [job]; next_number := next_number w;
             effects := effects w |}).

(** [NatsProcessor::block_on_job]: whether the job was sent and succeeded. *)
Definition dispatch_job (i : nat) (job : Job) : op bool :=
  outcomes ← ask job_outcome;
  match outcomes i job with
  | NotSent => drop_job job;; mret false
  | JobFailed => emit [Dispatched job];; mret false
  | JobSucceeded => emit [Dispatched job];; mret true
  end.

Fixpoint dispatch_jobs (i : nat) (jobs : list Job) : op bool :=
  match jobs with
  | [] => mret true
  | job :: jobs => ok ← dispatch_job i job; oks ← dispatch_jobs (S i) jobs; mret (ok && oks)
  end.

(** [NatsProcessor::block_on_jobs]: every job is waited for, and the result is an error if
    any failed. *)
Definition block_on_jobs (jobs : list Job) : op unit :=
  ok ← dispatch_jobs 0 jobs;
  if ok : bool then mret () else fail JobQueueProcessor.

(** [NatsProcessor::blocking_process_queue], with [JobQueue::drain]. *)
Definition blocking_process_queue : op unit :=
  q ← get_queue; set_queue [];; block_on_jobs q.

(** ** Transactions and the connection state *)

(** [Connections::start_txns]. *)
Definition Connections_start_txns : op Transactions :=
  txn ← PgTxn_create; mret {| pg_txn := txn; pending_publish := [] |}.

Definition commit_into_conns (txns : Transactions) : op unit :=
  PgTxn_commit_into_conn (pg_txn txns);;
  NatsTxn_commit_into_conn (number (pg_txn txns)) (pending_publish txns);;
  process_queue.

Definition blocking_commit_into_conns (txns : Transactions) : op unit :=
  PgTxn_commit_into_conn (pg_txn txns);;
  NatsTxn_commit_into_conn (number (pg_txn txns)) (pending_publish txns);;
  blocking_process_queue.

(** The NATS transaction is dropped with its pending messages; the job processor
    is kept as it is. *)
Definition rollback_into_conns (txns : Transactions) : op unit :=
  PgTxn_rollback_into_conn (pg_txn txns).

Definition is_conns (s : ConnectionState) : bool :=
  match s with InConnections => true | _ => false end.

Definition start_txns (s : ConnectionState) : op ConnectionState :=
  match s with
  | Invalid => fail (TxnStart invalid)
  | InConnections => txns ← Connections_start_txns; mret (InTransactions txns)
  | InTransactions _ => fail (TxnStart transactions)
  end.

Definition ConnectionState_commit (s : ConnectionState) : op ConnectionState :=
  match s with
  | InConnections => mret s
  | InTransactions txns => commit_into_conns txns;; mret InConnections
  | Invalid => fail TxnCommit
  end.

Definition ConnectionState_blocking_commit (s : ConnectionState) : op ConnectionState :=
  match s with
  | InConnections => mret s
  | InTransactions txns => blocking_commit_into_conns txns;; mret InConnections
  | Invalid => fail TxnCommit
  end.

Definition ConnectionState_rollback (s : ConnectionState) : op ConnectionState :=
  match s with
  | InConnections => mret s
  | InTransactions txns => rollback_into_conns txns;; mret InConnections
  | Invalid => fail TxnRollback
  end.

(** ** Contexts *)

(** [DalContext]: [conns_state] is the address of the shared state. *)
Record DalContext := {
  conns_state : nat;
  tenancy : Tenancy;
  visibility : Visibility.t;
  history_actor : HistoryActor;
  blocking : bool;
  no_dependent_values : bool;
}.

Definition blocking_commit (ctx : DalContext) : op unit :=
  s ← ConnectionState_take (conns_state ctx);
  s ← ConnectionState_blocking_commit s;
  set_state (conns_state ctx) s.

Definition commit (ctx : DalContext) : op unit :=
  if blocking ctx then blocking_commit ctx
  else
    s ← ConnectionState_take (conns_state ctx);
    s ← ConnectionState_commit s;
    set_state (conns_state ctx) s.

Definition rollback (ctx : DalContext) : op unit :=
  s ← ConnectionState_take (conns_state ctx);
  s ← ConnectionState_rollback s;
  set_state (conns_state ctx) s.

(** [DalContext::txns] with [ConnectionState::txns], which panics unless the state
    is [Transactions]. *)
Definition txns (ctx : DalContext) : op Transactions :=
  s ← ConnectionState_take (conns_state ctx);
  s ← (if is_conns s then start_txns s else mret s);
  set_state (conns_state ctx) s;;
  match s with InTransactions t => mret t | _ => panic end.

(** Using the transactions through the guard. *)
Definition update_txns (ctx : DalContext) (f : Transactions → Transactions) : op unit :=
  t ← txns ctx; set_state (conns_state ctx) (InTransactions (f t)).

(** [txns().pg().execute(..)]. *)
Definition execute (ctx : DalContext) (st : Statement) : op unit :=
  update_txns ctx (λ t,
    {| pg_txn := {| number := number (pg_txn t); statements := statements (pg_txn t) ++ [st];
                    strong_count := strong_count (pg_txn t) |};
       pending_publish := pending_publish t |}).

(** Another handle on the transaction ([PgTxn] is [Clone]), and its end. *)
Definition share_pg (ctx : DalContext) : op unit :=
  update_txns ctx (λ t,
    {| pg_txn := {| number := number (pg_txn t); statements := statements (pg_txn t);
                    strong_count := S (strong_count (pg_txn t)) |};
       pending_publish := pending_publish t |}).

(** [txns().nats().publish(..)]. *)
Definition publish (ctx : DalContext) (m : Message) : op unit :=
  update_txns ctx (λ t,
    {| pg_txn := pg_txn t; pending_publish := pending_publish t ++ [m] |}).

Definition enqueue_job (ctx : DalContext) (job : Job) : op unit := txns ctx;; enqueue job.

(** An error of the transactions is passed on as its text. *)
Definition block_on_job (ctx : DalContext) (job : Job) : op unit :=
  txns ctx;; block_on_jobs [job].

(** *** What a context is for *)

Definition update_visibility (ctx : DalContext) (v : Visibility.t) : DalContext :=
  {| conns_state := conns_state ctx; tenancy := tenancy ctx; visibility := v;
     history_actor := history_actor ctx; blocking := blocking ctx;
     no_dependent_values := no_dependent_values ctx |}.

Definition update_history_actor (ctx : DalContext) (a : HistoryActor) : DalContext :=
  {| conns_state := conns_state ctx; tenancy := tenancy ctx; visibility := visibility ctx;
     history_actor := a; blocking := blocking ctx;
     no_dependent_values := no_dependent_values ctx |}.

Definition update_tenancy (ctx : DalContext) (t : Tenancy) : DalContext :=
  {| conns_state := conns_state ctx; tenancy := t; visibility := visibility ctx;
     history_actor := history_actor ctx; blocking := blocking ctx;
     no_dependent_values := no_dependent_values ctx |}.

Definition update_to_head (now : N) (ctx : DalContext) : DalContext :=
  update_visibility ctx (Visibility.new_head now false).

Definition update_with_deleted_visibility (now : N) (ctx : DalContext) : DalContext :=
  update_visibility ctx
    (Visibility.new_change_set now (Visibility.change_set_pk (visibility ctx)) true).

Definition update_without_deleted_visibility (now : N) (ctx : DalContext) : DalContext :=
  update_visibility ctx
    (Visibility.new_change_set now (Visibility.change_set_pk (visibility ctx)) false).

(** [AccessBuilder] and [RequestContext]. *)
Record AccessBuilder := { access_tenancy : Tenancy; access_actor : HistoryActor }.

Record RequestContext := {
  request_tenancy : Tenancy;
  request_visibility : Visibility.t;
  request_actor : HistoryActor;
}.

Definition access_builder (ctx : DalContext) : AccessBuilder :=
  {| access_tenancy := tenancy ctx; access_actor := history_actor ctx |}.

Definition AccessBuilder_build (b : AccessBuilder) (v : Visibility.t) : RequestContext :=
  {| request_tenancy := access_tenancy b; request_visibility := v;
     request_actor := access_actor b |}.

Definition update_access_builder (ctx : DalContext) (b : AccessBuilder) : DalContext :=
  update_history_actor (update_tenancy ctx (access_tenancy b)) (access_actor b).

Definition RequestContext_default (now : N) : RequestContext :=
  {| request_tenancy := {| workspace_pk := None |};
     request_visibility := Visibility.new_head now false;
     request_actor := SystemInit |}.

(** [DalContextBuilder]. *)
Record DalContextBuilder := { builder_blocking : bool; builder_no_dependent_values : bool }.

(** [ServicesContext::connections] takes a connection from the pool, and the new
    state is put behind a new mutex. *)
Definition new_conns_state : op nat := λ ans w,
  if pool_get ans then
    (Ok (length (states w)),
     {| states := states w ++ [InConnections]; queue := queue w; pushers := pushers w;
        dropped := dropped w; next_number := next_number w; effects := effects w |})
  else (Err (Fault PgPool), w).

Definition build (b : DalContextBuilder) (r : RequestContext) : op DalContext :=
  l ← new_conns_state;
  mret {| conns_state := l; tenancy := request_tenancy r; visibility := request_visibility r;
          history_actor := request_actor r; blocking := builder_blocking b;
          no_dependent_values := builder_no_dependent_values b |}.

Definition build_head (now : N) (b : DalContextBuilder) (a : AccessBuilder) : op DalContext :=
  build b (AccessBuilder_build a (Visibility.new_head now false)).

Definition build_default (now : N) (b : DalContextBuilder) : op DalContext :=
  build b (RequestContext_default now).

(** ** Pushing jobs in the background *)

Definition set_pusher (i : nat) (p : pusher) : op unit := λ _ w,
  (Ok (), {| states := states w; queue := queue w; pushers := <[i := p]> (pushers w);
             dropped := dropped w; next_number := next_number w; effects := effects w |}).

Definition get_pusher (i : nat) : op pusher := λ _ w, (Ok (default Done (pushers w !! i)), w).

(** [push_all_jobs], up to its next await: take a job ([JobQueue::fetch_job]), or
    publish the one taken. A failure ends the task and loses the job. *)
Definition push_step (i : nat) : op unit :=
  p ← get_pusher i;
  match p with
  | Done => mret ()
  | Fetching =>
      q ← get_queue;
      match q with
      | [] => set_pusher i Done
      | job :: q => set_queue q;; set_pusher i (Publishing job)
      end
  | Publishing job =>
      ok ← ask push_accepted;
      if ok : bool then emit [Pushed job];; set_pusher i Fetching
      else drop_job job;; set_pusher i Done
  end.

(** ** Runs *)

Inductive action : Type :=
| Build (b : DalContextBuilder) (r : RequestContext)
| Execute (ctx : DalContext) (st : Statement)
| SharePg (ctx : DalContext)
| Publish (ctx : DalContext) (m : Message)
| EnqueueJob (ctx : DalContext) (job : Job)
| BlockOnJob (ctx : DalContext) (job : Job)
| Commit (ctx : DalContext)
| BlockingCommit (ctx : DalContext)
| Rollback (ctx : DalContext)
| Push (i : nat).

Definition perform (a : action) : op unit :=
  match a with
  | Build b r => build b r;; mret ()
  | Execute ctx st => execute ctx st
  | SharePg ctx => share_pg ctx
  | Publish ctx m => publish ctx m
  | EnqueueJob ctx job => enqueue_job ctx job
  | BlockOnJob ctx job => block_on_job ctx job
  | Commit ctx => commit ctx
  | BlockingCommit ctx => blocking_commit ctx
  | Rollback ctx => rollback ctx
  | Push i => push_step i
  end.

Definition empty_world : world :=
  {| states := []; queue := []; pushers := []; dropped := []; next_number := 0; effects := [] |}.

(** The world after a run, whatever the operations returned. *)
Fixpoint after (w : world) (run : list (action * answers)) : world :=
  match run with
  | [] => w
  | (a, ans) :: run => after (perform a ans w).2 run
  end.

End Context.

Arguments op : clear implicits.
Arguments world : clear implicits.
Arguments answers : clear implicits.
Arguments action : clear implicits.
Arguments effect : clear implicits.
Arguments ConnectionState : clear implicits.
Arguments Transactions : clear implicits.
Arguments PgTxn : clear implicits.
Arguments empty_world {Statement Message Job}.
