(* ===== verification/DalUnits.v ===== *)
(** * What the contexts of the data layer promise

    The theorems on [DalContext]: the order of what becomes visible, contexts
    that broke, units of work, and the life of a job. *)

From S2P Require Import Prelude DalContext.
From stdpp Require Import base tactics list gmap.

Section Units.
Context {Statement Message Job : Type}.

Local Abbreviation op := (op Statement Message Job).
Local Abbreviation world := (world Statement Message Job).
Local Abbreviation effect := (effect Statement Message Job).
Local Abbreviation answers := (answers Job).

(** ** Triples *)

(** From a store in [P] the operation returns a value and a store in [Q], or fails
    with a store in [E]. *)
Definition triple {A} (P : world → Prop) (m : op A) (Q : A → world → Prop)
    (E : world → Prop) : Prop :=
  ∀ ans w, P w →
    match m ans w with
    | (Ok a, w') => Q a w'
    | (Err _, w') => E w'
    end.

Lemma triple_ret {A} (a : A) (P : world → Prop) (Q : A → world → Prop) (E : world → Prop) :
  (∀ w, P w → Q a w) → triple P (mret a) Q E.
Proof. intros HQ ans w. apply HQ. Qed.

Lemma triple_bind {A B} (m : op A) (f : A → op B) P Q R E :
  triple P m Q E → (∀ a, triple (Q a) (f a) R E) → triple P (m ≫= f) R E.
Proof.
  intros Hm Hf ans w Hw. specialize (Hm ans w Hw). unfold mbind, op_bind.
  destruct (m ans w) as [[a|e] w']; [by apply Hf|done].
Qed.

Lemma triple_weaken {A} (m : op A) (P P' : world → Prop) (Q Q' : A → world → Prop)
    (E E' : world → Prop) :
  triple P m Q E → (∀ w, P' w → P w) → (∀ a w, Q a w → Q' a w) → (∀ w, E w → E' w) →
  triple P' m Q' E'.
Proof.
  intros Hm HP HQ HE ans w Hw. specialize (Hm ans w (HP w Hw)).
  destruct (m ans w) as [[a|e] w']; auto.
Qed.

Lemma triple_ask {A} (f : answers → A) (P : world → Prop) E :
  triple P (ask f) (λ _, P) E.
Proof. by intros ans w. Qed.

Lemma triple_fail {A} e (P : world → Prop) (Q : A → world → Prop) (E : world → Prop) :
  (∀ w, P w → E w) → triple P (fail e) Q E.
Proof. intros HE ans w. apply HE. Qed.

Lemma bind_run {A B} (m : op A) (f : A → op B) ans w :
  (m ≫= f) ans w = match m ans w with (Ok a, w) => f a ans w | (Err e, w) => (Err e, w) end.
Proof. done. Qed.

(** ** What becomes visible *)

Definition open_number (s : ConnectionState Statement Message) : option nat :=
  match s with InTransactions t => Some (number (pg_txn t)) | _ => None end.

Definition finished_number (e : effect) : option nat :=
  match e with Committed n _ | RolledBack n => Some n | _ => None end.

(** The transactions of the store: open, or ended. *)
Definition numbers (w : world) : list nat :=
  omap open_number (states w) ++ omap finished_number (effects w).

(** Every message is published after its transaction was committed. *)
Definition ordered (es : list effect) : Prop :=
  ∀ before n m rest, es = before ++ Published n m :: rest → ∃ st, Committed n st ∈ before.

(** Every transaction is open once or ended once; [held] are the ones an operation
    has taken out of the store. *)
Record accounted (held : list nat) (w : world) : Prop := {
  accounted_once : NoDup (held ++ numbers w);
  accounted_old : Forall (λ n, n < next_number w) (held ++ numbers w);
  accounted_order : ordered (effects w);
}.

Lemma ordered_app es es' :
  ordered es → (∀ n m, Published n m ∈ es' → ∃ st, Committed n st ∈ es) → ordered (es ++ es').
Proof.
  intros He He' before n m rest Heq.
  destruct (decide (length es ≤ length before)) as [Hle|Hlt].
  - assert (∃ st, Committed n st ∈ es) as [st Hst].
    { apply (He' n m).
      assert (es' = drop (length es) before ++ Published n m :: rest) as ->.
      { rewrite <-drop_app_le, <-Heq by done. by rewrite drop_app_length. }
      apply elem_of_app. right. by left. }
    exists st. assert (before = es ++ drop (length es) before) as ->.
    { rewrite <-(take_drop (length es) before) at 1. f_equal.
      rewrite <-(take_app_le before (Published n m :: rest)), <-Heq by done.
      by rewrite take_app_length. }
    apply elem_of_app. by left.
  - eapply (He before n m (list.take (length es - length before - 1) rest)).
    assert (es = list.take (length es) (before ++ Published n m :: rest)) as Hes
      by by rewrite <-Heq, take_app_length.
    rewrite Hes at 1. rewrite take_app_ge by lia. f_equal.
    destruct (length es - length before) as [|k] eqn:Hk; [lia|]. cbn. f_equal. f_equal. lia.
Qed.

Lemma omap_insert_submseteq {A B} (f : A → option B) l i x :
  omap f (<[i := x]> l) ⊆+ option_list (f x) ++ omap f l.
Proof.
  revert i. induction l as [|y l IH]; intros [|i]; csimpl.
  - apply submseteq_nil_l.
  - apply submseteq_nil_l.
  - destruct (f x), (f y); csimpl; [by do 2 constructor|done|by constructor|done].
  - destruct (f y) as [b|]; [|done]. rewrite <-Permutation_middle. by constructor.
Qed.

Lemma omap_insert_Permutation {A B} (f : A → option B) (l : list A) i x y :
  l !! i = Some y →
  option_list (f y) ++ omap f (<[i := x]> l) ≡ₚ option_list (f x) ++ omap f l.
Proof.
  intros Hy. revert i Hy. induction l as [|z l IH]; intros [|i] Hy; simplify_eq/=.
  - destruct (f x), (f y); csimpl; [constructor|done..].
  - destruct (f z) as [b|]; [|by apply IH].
    rewrite <-!Permutation_middle. constructor. by apply IH.
Qed.

Lemma accounted_sub held held' (w w' : world) :
  held' ++ numbers w' ⊆+ held ++ numbers w → next_number w ≤ next_number w' →
  ordered (effects w') → accounted held w → accounted held' w'.
Proof.
  intros Hsub Hnext Hord [Honce Hold _]. constructor; [|..|done].
  - apply submseteq_Permutation in Hsub as [k Hk]. rewrite Hk, NoDup_app in Honce. by apply Honce.
  - rewrite Forall_forall in Hold |- *. intros n Hn.
    eapply elem_of_submseteq in Hn; [|done]. specialize (Hold n Hn). cbn in Hold. lia.
Qed.

Lemma accounted_forget held (w : world) : accounted held w → accounted [] w.
Proof.
  intros H. eapply (accounted_sub _ _ w); [|done|by apply H|exact H]. by apply submseteq_inserts_l.
Qed.

Lemma set_state_accounted held l s E :
  triple (accounted (option_list (open_number s) ++ held)) (set_state l s)
    (λ _, accounted held) E.
Proof.
  intros ans w Hw. cbn. eapply (accounted_sub _ _ w); [|done|by apply Hw|exact Hw]. unfold numbers. cbn.
  rewrite (assoc_L (++)), (Permutation_app_comm (option_list _) held), <-!(assoc_L (++)).
  apply submseteq_app; [done|]. rewrite (assoc_L (++)). apply submseteq_app; [|done].
  apply omap_insert_submseteq.
Qed.

Lemma take_accounted l :
  triple (accounted []) (ConnectionState_take l) (λ s, accounted (option_list (open_number s))) (accounted []).
Proof.
  intros ans w Hw. unfold ConnectionState_take. destruct (states w !! l) as [s|] eqn:Hs; [|done].
  eapply (accounted_sub _ _ w); [|done|by apply Hw|exact Hw]. unfold numbers. cbn.
  by rewrite (assoc_L (++)), omap_insert_Permutation.
Qed.

(** Effects that end no transaction and publish nothing. *)
Lemma emit_accounted held es E :
  omap finished_number es = [] → (∀ n m, Published n m ∉ es) →
  triple (accounted held) (emit es) (λ _, accounted held) E.
Proof.
  intros Hes Hpub ans w Hw. cbn. eapply (accounted_sub _ _ w); [|done| |exact Hw].
  - unfold numbers. cbn. rewrite omap_app, Hes, app_nil_r. done.
  - apply ordered_app; [by apply Hw|]. intros n m Hin. by destruct (Hpub n m).
Qed.

(** Parts of the store that say nothing about transactions. *)
Lemma other_accounted {A} held (m : op A) E :
  (∀ ans w, is_ok (m ans w).1 = true ∧ states (m ans w).2 = states w ∧
     effects (m ans w).2 = effects w ∧ next_number (m ans w).2 = next_number w) →
  triple (accounted held) m (λ _, accounted held) E.
Proof.
  intros Hm ans w Hw. destruct (Hm ans w) as (Hok & Hs & He & Hn).
  destruct (m ans w) as [[a|e] w']; [|done]. cbn in *.
  eapply (accounted_sub _ _ w); [|by rewrite Hn|by rewrite He; apply Hw|exact Hw].
  unfold numbers. by rewrite Hs, He.
Qed.

Lemma fresh_number_accounted held E :
  triple (accounted held) fresh_number (λ n, accounted (n :: held)) E.
Proof.
  intros ans w [Honce Hold Hord]. cbn. rewrite Forall_forall in Hold.
  constructor; [| |done]; unfold numbers in *; cbn in *.
  - constructor; [|done]. intros Hn%Hold. lia.
  - apply Forall_forall. intros n [->|Hn]%elem_of_cons; [lia|]. specialize (Hold n Hn). lia.
Qed.

(** *** The operations *)

Definition committed (n : nat) (w : world) : Prop := ∃ st, Committed n st ∈ effects w.

Lemma pg_commit_accounted (txn : PgTxn Statement) :
  triple (accounted [number txn]) (PgTxn_commit_into_conn txn)
    (λ _ w, accounted [] w ∧ committed (number txn) w) (accounted []).
Proof.
  unfold PgTxn_commit_into_conn. case_decide.
  2: { apply triple_fail, accounted_forget. }
  eapply triple_bind; [apply triple_ask|]. intros [].
  2: { apply triple_fail, accounted_forget. }
  intros ans w Hw. cbn. split.
  - eapply (accounted_sub _ _ w); [|done| |exact Hw].
    + unfold numbers. cbn. rewrite omap_app. cbn. by rewrite (assoc_L (++)), Permutation_app_comm.
    + apply ordered_app; [by apply Hw|]. intros n m Hin. by apply list_elem_of_singleton in Hin.
  - exists (statements txn). cbn. apply elem_of_app. right. by left.
Qed.

Lemma pg_rollback_accounted (txn : PgTxn Statement) :
  triple (accounted [number txn]) (PgTxn_rollback_into_conn txn) (λ _, accounted [])
    (accounted []).
Proof.
  unfold PgTxn_rollback_into_conn. case_decide.
  2: { apply triple_fail, accounted_forget. }
  eapply triple_bind; [apply triple_ask|]. intros [].
  2: { apply triple_fail, accounted_forget. }
  intros ans w Hw. cbn. eapply (accounted_sub _ _ w); [|done| |exact Hw].
  - unfold numbers. cbn. rewrite omap_app. cbn. by rewrite (assoc_L (++)), Permutation_app_comm.
  - apply ordered_app; [by apply Hw|]. intros n m Hin. by apply list_elem_of_singleton in Hin.
Qed.

Lemma publish_accounted n (ms : list Message) E :
  triple (λ w, accounted [] w ∧ committed n w) (emit (Published n <$> ms)) (λ _, accounted []) E.
Proof.
  intros ans w [Hw Hc]. cbn. eapply (accounted_sub _ _ w); [|done| |exact Hw].
  - unfold numbers. cbn. rewrite omap_app.
    assert (omap finished_number (Published n <$> ms : list effect) = []) as ->
      by by induction ms. by rewrite app_nil_r.
  - apply ordered_app; [by apply Hw|]. intros n' m (m' & [= -> ->] & _)%list_elem_of_fmap. done.
Qed.

Lemma nats_commit_accounted n (pending : list Message) :
  triple (λ w, accounted [] w ∧ committed n w) (NatsTxn_commit_into_conn n pending)
    (λ _, accounted []) (accounted []).
Proof.
  unfold NatsTxn_commit_into_conn. eapply triple_bind; [apply triple_ask|].
  intros [k|]; [case_decide|]; [|apply publish_accounted..].
  eapply triple_bind; [apply publish_accounted|]. intros []. by apply triple_fail.
Qed.

Lemma dispatch_job_accounted i (job : Job) :
  triple (accounted []) (dispatch_job i job) (λ _, accounted []) (accounted []).
Proof.
  assert (Hd : triple (accounted []) (emit [Dispatched job]) (λ _, accounted []) (accounted [])).
  { apply emit_accounted; [done|]. by intros n m ?%list_elem_of_singleton. }
  eapply triple_bind; [apply triple_ask|]. intros outcomes. destruct (outcomes i job).
  - eapply triple_bind; [by apply other_accounted|]. intros []. by apply triple_ret.
  - eapply triple_bind; [exact Hd|]. intros []. by apply triple_ret.
  - eapply triple_bind; [exact Hd|]. intros []. by apply triple_ret.
Qed.

Lemma dispatch_jobs_accounted i (jobs : list Job) :
  triple (accounted []) (dispatch_jobs i jobs) (λ _, accounted []) (accounted []).
Proof.
  revert i. induction jobs as [|job jobs IH]; intros i; [by apply triple_ret|]. cbn [dispatch_jobs].
  eapply triple_bind; [apply dispatch_job_accounted|]. intros ok. eapply triple_bind; [apply IH|]. intros oks. by apply triple_ret.
Qed.

Lemma block_on_jobs_accounted (jobs : list Job) :
  triple (accounted []) (block_on_jobs jobs) (λ _, accounted []) (accounted []).
Proof.
  eapply triple_bind; [apply dispatch_jobs_accounted|]. intros []; [by apply triple_ret|by apply triple_fail].
Qed.

Lemma get_queue_accounted held E :
  triple (accounted held) get_queue (λ _, accounted held) E.
Proof. by apply other_accounted. Qed.

Lemma set_queue_accounted held q E :
  triple (accounted held) (set_queue q) (λ _, accounted held) E.
Proof. by apply other_accounted. Qed.

Lemma blocking_process_queue_accounted :
  triple (accounted []) blocking_process_queue (λ _, accounted []) (accounted []).
Proof.
  eapply triple_bind; [apply get_queue_accounted|]. intros q.
  eapply triple_bind; [apply set_queue_accounted|]. intros []. apply block_on_jobs_accounted.
Qed.

(** What every way of ending a transaction does: take the state, end it, and put
    the connections back. *)
Lemma ending_accounted l (f : ConnectionState Statement Message → op (ConnectionState Statement Message)) :
  (∀ s, triple (accounted (option_list (open_number s))) (f s)
     (λ s', accounted (option_list (open_number s'))) (accounted [])) →
  triple (accounted []) (s ← ConnectionState_take l; s ← f s; set_state l s) (λ _, accounted [])
    (accounted []).
Proof.
  intros Hf. eapply triple_bind; [apply take_accounted|]. intros s.
  eapply triple_bind; [apply Hf|]. intros s'. intros ans w Hw.
  apply (set_state_accounted [] l s' (accounted []) ans w). by rewrite app_nil_r.
Qed.

Lemma commit_into_conns_accounted jobs (t : Transactions Statement Message) :
  triple (accounted []) jobs (λ _, accounted []) (accounted []) →
  triple (accounted [number (pg_txn t)])
    (PgTxn_commit_into_conn (pg_txn t);;
     NatsTxn_commit_into_conn (number (pg_txn t)) (pending_publish t);; jobs)
    (λ _ : (), accounted []) (accounted []).
Proof.
  intros Hjobs. eapply triple_bind; [apply pg_commit_accounted|]. intros [].
  eapply triple_bind; [apply nats_commit_accounted|]. by intros [].
Qed.

Lemma commit_state_accounted s :
  triple (accounted (option_list (open_number s))) (ConnectionState_commit s)
    (λ s', accounted (option_list (open_number s'))) (accounted []).
Proof.
  destruct s as [| |t]; cbn.
  - by apply triple_ret.
  - by apply triple_fail.
  - eapply triple_bind; [apply commit_into_conns_accounted; by apply other_accounted|].
    intros []. by apply triple_ret.
Qed.

Lemma blocking_commit_state_accounted s :
  triple (accounted (option_list (open_number s))) (ConnectionState_blocking_commit s)
    (λ s', accounted (option_list (open_number s'))) (accounted []).
Proof.
  destruct s as [| |t]; cbn.
  - by apply triple_ret.
  - by apply triple_fail.
  - eapply triple_bind;
      [apply commit_into_conns_accounted, blocking_process_queue_accounted|].
    intros []. by apply triple_ret.
Qed.

Lemma rollback_state_accounted s :
  triple (accounted (option_list (open_number s))) (ConnectionState_rollback s)
    (λ s', accounted (option_list (open_number s'))) (accounted []).
Proof.
  destruct s as [| |t]; cbn.
  - by apply triple_ret.
  - by apply triple_fail.
  - eapply triple_bind; [apply pg_rollback_accounted|].
    intros []. by apply triple_ret.
Qed.

(** *** What the steps of an operation compute *)

Definition with_state (l : nat) (s : ConnectionState Statement Message) (w : world) : world :=
  {| states := <[l := s]> (states w); queue := queue w; pushers := pushers w;
     dropped := dropped w; next_number := next_number w; effects := effects w |}.

(** Taking the state, transforming it and putting it back. *)
Lemma ending_run l (f : ConnectionState Statement Message → op (ConnectionState Statement Message))
    ans (w : world) :
  (s ← ConnectionState_take l; s ← f s; set_state l s) ans w =
    match states w !! l with
    | None => (Err Panic, w)
    | Some s =>
        match f s ans (with_state l Invalid w) with
        | (Ok s', w') => (Ok (), with_state l s' w')
        | (Err e, w') => (Err e, w')
        end
    end.
Proof.
  unfold ConnectionState_take, mbind, op_bind. destruct (states w !! l) as [s|]; [|done].
  change ((set_state l Invalid ans w).2) with (with_state l Invalid w).
  by destruct (f s ans (with_state l Invalid w)) as [[s'|e] w'].
Qed.

Definition new_txns (w : world) : Transactions Statement Message :=
  {| pg_txn := {| number := next_number w; statements := []; strong_count := 1 |};
     pending_publish := [] |}.

(** [txns] gives the open transaction, starts one, or panics on a broken state. *)
Lemma txns_run ctx ans (w : world) :
  txns ctx ans w =
    match states w !! conns_state ctx with
    | None | Some Invalid => (Err Panic, w)
    | Some (InTransactions t) => (Ok t, w)
    | Some InConnections =>
        if pg_create ans then
          (Ok (new_txns w),
           with_state (conns_state ctx) (InTransactions (new_txns w))
             {| states := states w; queue := queue w; pushers := pushers w; dropped := dropped w;
                next_number := S (next_number w); effects := effects w |})
        else (Err (Fault (Pg Driver)), with_state (conns_state ctx) Invalid w)
    end.
Proof.
  unfold txns, ConnectionState_take, mbind, op_bind.
  destruct (states w !! conns_state ctx) as [s|] eqn:Hs; [|done]. cbn.
  destruct s as [| |t]; cbn.
  - unfold Connections_start_txns, PgTxn_create, mbind, op_bind. cbn.
    destruct (pg_create ans); cbn; [|done]. unfold with_state. cbn.
    by rewrite list_insert_insert_eq.
  - rewrite list_insert_insert_eq, list_insert_id by done. by destruct w.
  - rewrite list_insert_insert_eq, list_insert_id by done. by destruct w.
Qed.

Lemma omap_insert_same {A B} (f : A → option B) (l : list A) i x y :
  l !! i = Some y → f x = f y → omap f (<[i := x]> l) = omap f l.
Proof.
  intros Hy Hx. revert i Hy. induction l as [|z l IH]; intros [|i] Hy; simplify_eq/=.
  - by rewrite Hx.
  - by rewrite (IH i).
Qed.

Lemma txns_accounted ctx :
  triple (accounted []) (txns ctx)
    (λ t w, accounted [] w ∧ states w !! conns_state ctx = Some (InTransactions t))
    (accounted []).
Proof.
  intros ans w Hw. rewrite txns_run.
  destruct (states w !! conns_state ctx) as [s|] eqn:Hs; [|done].
  assert (conns_state ctx < length (states w)) as Hlt by by eapply lookup_lt_Some.
  destruct s as [| |t]; [|done|done]. destruct (pg_create ans).
  - split; [|by apply list_lookup_insert_eq].
    apply (set_state_accounted [] _ _ (accounted []) ans).
    apply (fresh_number_accounted [] (accounted []) ans w Hw).
  - apply (set_state_accounted [] _ Invalid (accounted []) ans w Hw).
Qed.

Lemma update_txns_accounted ctx f :
  (∀ t, number (pg_txn (f t)) = number (pg_txn t)) →
  triple (accounted []) (update_txns ctx f) (λ _, accounted []) (accounted []).
Proof.
  intros Hf. eapply triple_bind; [apply txns_accounted|]. intros t ans w [Hw Hs]. cbn.
  eapply (accounted_sub _ _ w); [|done|by apply Hw|exact Hw]. unfold numbers. cbn.
  erewrite omap_insert_same; [done|exact Hs|]. cbn. by rewrite Hf.
Qed.

Lemma build_accounted b r :
  triple (accounted []) (build b r) (λ _, accounted []) (accounted []).
Proof.
  apply (triple_bind _ _ _ (λ _, accounted [])); [|intros l; by apply triple_ret].
  intros ans w Hw. unfold new_conns_state. destruct (pool_get ans); [|done].
  eapply (accounted_sub _ _ w); [|done|by apply Hw|exact Hw]. unfold numbers. cbn.
  rewrite omap_app. cbn. by rewrite app_nil_r.
Qed.

Lemma push_step_accounted i :
  triple (accounted []) (push_step i) (λ _, accounted []) (accounted []).
Proof.
  eapply triple_bind; [by apply other_accounted|]. intros [|job|].
  - eapply triple_bind; [apply get_queue_accounted|].
    intros [|job q]; [by apply other_accounted|].
    eapply triple_bind; [apply set_queue_accounted|]. intros []. by apply other_accounted.
  - eapply triple_bind; [apply triple_ask|]. intros [].
    + eapply triple_bind; [apply emit_accounted; [done|]|intros []; by apply other_accounted].
      intros n m Hin. by apply list_elem_of_singleton in Hin.
    + eapply triple_bind; [by apply other_accounted|]. intros []. by apply other_accounted.
  - by apply triple_ret.
Qed.

Lemma perform_accounted a :
  triple (accounted []) (perform a) (λ _, accounted []) (accounted []).
Proof.
  destruct a as [b r|ctx st|ctx|ctx m|ctx job|ctx job|ctx|ctx|ctx|i]; cbn.
  - eapply triple_bind; [apply build_accounted|]. intros c. by apply triple_ret.
  - by apply update_txns_accounted.
  - by apply update_txns_accounted.
  - by apply update_txns_accounted.
  - eapply triple_bind; [apply txns_accounted|]. intros t.
    apply (triple_bind _ _ _ (λ _, accounted [])); [|intros q; apply set_queue_accounted].
    by intros ans w [Hw _].
  - eapply triple_bind; [apply txns_accounted|]. intros t ans w [Hw _].
    by apply block_on_jobs_accounted.
  - unfold commit. destruct (blocking ctx);
      apply ending_accounted; [apply blocking_commit_state_accounted|apply commit_state_accounted].
  - apply ending_accounted, blocking_commit_state_accounted.
  - apply ending_accounted, rollback_state_accounted.
  - apply push_step_accounted.
Qed.

Lemma after_accounted run w : accounted [] w → accounted [] (after w run).
Proof.
  revert w. induction run as [|[a ans] run IH]; intros w Hw; [done|]. apply IH.
  pose proof (perform_accounted a ans w Hw) as Ha. by destruct (perform a ans w) as [[]].
Qed.

Lemma empty_accounted : accounted [] (empty_world : world).
Proof. constructor; [constructor|constructor|]. intros before n m rest Heq. by destruct before. Qed.

(** C33: However contexts are built, used, committed and rolled back, and whatever
    the database, the broker and the jobs answer, a message of a transaction is
    published only after the transaction was committed, and a transaction is
    committed or rolled back at most once: nothing of a transaction that was
    rolled back, or that failed to commit, is ever announced. *)
Theorem published_only_after_commit (run : list (action Statement Message Job * answers)) :
  let es := effects (after empty_world run) in
  ordered es ∧ NoDup (omap finished_number es).
Proof.
  destruct (after_accounted run empty_world empty_accounted) as [Honce _ Hord].
  split; [done|]. unfold numbers in Honce. cbn in Honce. apply NoDup_app in Honce. by apply Honce.
Qed.

(** ** Contexts that broke *)

Create HintDb stateless discriminated.

(** Operations that leave every connection state alone. *)
Definition stateless {A} (m : op A) : Prop := ∀ ans w, states (m ans w).2 = states w.

Lemma stateless_bind {A B} (m : op A) (f : A → op B) :
  stateless m → (∀ a, stateless (f a)) → stateless (m ≫= f).
Proof.
  intros Hm Hf ans w. unfold mbind, op_bind. specialize (Hm ans w).
  destruct (m ans w) as [[a|e] w']; cbn in *; [by rewrite Hf|done].
Qed.

Ltac stateless :=
  repeat (first [solve [auto with stateless nocore]
                | apply stateless_bind; [|intros ?]]); try by intros ??.

Lemma stateless_pg_commit (txn : PgTxn Statement) :
  stateless (PgTxn_commit_into_conn txn : op unit).
Proof. unfold PgTxn_commit_into_conn. case_decide; stateless. by case_match. Qed.
#[local] Hint Resolve stateless_pg_commit : stateless.

Lemma stateless_pg_rollback (txn : PgTxn Statement) :
  stateless (PgTxn_rollback_into_conn txn : op unit).
Proof. unfold PgTxn_rollback_into_conn. case_decide; stateless. by case_match. Qed.
#[local] Hint Resolve stateless_pg_rollback : stateless.

Lemma stateless_nats_commit n (ms : list Message) :
  stateless (NatsTxn_commit_into_conn n ms : op unit).
Proof.
  unfold NatsTxn_commit_into_conn. stateless. case_match; [case_decide|]; stateless.
Qed.
#[local] Hint Resolve stateless_nats_commit : stateless.

Lemma stateless_dispatch_job i (job : Job) : stateless (dispatch_job i job : op bool).
Proof. unfold dispatch_job. stateless. case_match; stateless. Qed.
#[local] Hint Resolve stateless_dispatch_job : stateless.

Lemma stateless_dispatch_jobs i (jobs : list Job) : stateless (dispatch_jobs i jobs : op bool).
Proof. revert i. induction jobs as [|job jobs IH]; intros i; cbn [dispatch_jobs]; stateless. Qed.
#[local] Hint Resolve stateless_dispatch_jobs : stateless.

Lemma stateless_block_on_jobs (jobs : list Job) : stateless (block_on_jobs jobs : op unit).
Proof. unfold block_on_jobs. stateless. by case_match. Qed.
#[local] Hint Resolve stateless_block_on_jobs : stateless.

Lemma stateless_commit s : stateless (ConnectionState_commit s : op _).
Proof. destruct s as [| |t]; stateless. Qed.

Lemma stateless_blocking_commit s : stateless (ConnectionState_blocking_commit s : op _).
Proof. destruct s as [| |t]; stateless. Qed.

Lemma stateless_rollback s : stateless (ConnectionState_rollback s : op _).
Proof. unfold ConnectionState_rollback, rollback_into_conns. destruct s as [| |t]; stateless. Qed.

(** The context of an operation on transactions. *)
Inductive transactional : Type :=
| TheCommit
| TheBlockingCommit
| TheRollback
| TheTxns.

Definition run_transactional (o : transactional) (ctx : DalContext) : op unit :=
  match o with
  | TheCommit => commit ctx
  | TheBlockingCommit => blocking_commit ctx
  | TheRollback => rollback ctx
  | TheTxns => txns ctx;; mret ()
  end.

(** The result and the states after taking, transforming and putting back. *)
Lemma ending_states l (f : ConnectionState Statement Message → op (ConnectionState Statement Message))
    ans w s e :
  states w !! l = Some s → stateless (f s) →
  (∀ ans w s', (f s ans w).1 = Ok s' → s' ≠ Invalid) →
  (s = Invalid → ∀ ans w, (f s ans w).1 = Err e) →
  let '(r, w') := (s ← ConnectionState_take l; s ← f s; set_state l s) ans w in
  (∀ l', l' ≠ l → states w' !! l' = states w !! l') ∧
  (is_ok r = true ↔ states w' !! l ≠ Some Invalid) ∧ (s = Invalid → r = Err e).
Proof.
  intros Hs Hf Hok He. rewrite ending_run, Hs.
  assert (l < length (states w)) as Hl by by eapply lookup_lt_Some.
  specialize (Hf ans (with_state l Invalid w)). specialize (Hok ans (with_state l Invalid w)).
  specialize (λ H, He H ans (with_state l Invalid w)).
  destruct (f s ans (with_state l Invalid w)) as [[s'|e'] w2]; cbn in *; rewrite Hf.
  - split; [intros; by rewrite !list_lookup_insert_ne|].
    rewrite list_insert_insert_eq, list_lookup_insert_eq by done.
    specialize (Hok s' eq_refl). naive_solver.
  - split; [intros; by rewrite list_lookup_insert_ne|].
    rewrite list_lookup_insert_eq by done. naive_solver.
Qed.

Lemma bind_ok {A B} (m : op A) (b : B) ans w r :
  ((m;; mret b) ans w).1 = Ok r → r = b.
Proof. unfold mbind, op_bind. destruct (m ans w) as [[a|e] w']; naive_solver. Qed.

(** What ends a transaction gives connections back. *)
Lemma commit_usable s ans (w : world) s' :
  (ConnectionState_commit s ans w).1 = Ok s' → s' ≠ Invalid.
Proof. destruct s; cbn; [naive_solver|done|by intros ->%bind_ok]. Qed.

Lemma blocking_commit_usable s ans (w : world) s' :
  (ConnectionState_blocking_commit s ans w).1 = Ok s' → s' ≠ Invalid.
Proof. destruct s; cbn; [naive_solver|done|by intros ->%bind_ok]. Qed.

Lemma rollback_usable s ans (w : world) s' :
  (ConnectionState_rollback s ans w).1 = Ok s' → s' ≠ Invalid.
Proof. destruct s; cbn; [naive_solver|done|by intros ->%bind_ok]. Qed.

(** An operation on the transactions of a context succeeds exactly if it
    leaves the context usable: any error, of the database, of the broker or of a
    job that was waited for, leaves the connection state [Invalid], for this
    context and all its clones, and an operation on an [Invalid] state always
    fails, [txns] by panicking. No other context is affected. *)
Theorem operation_fails_iff_context_breaks o ctx ans (w : world) s :
  states w !! conns_state ctx = Some s →
  let '(r, w') := run_transactional o ctx ans w in
  (∀ l', l' ≠ conns_state ctx → states w' !! l' = states w !! l') ∧
  (is_ok r = true ↔ states w' !! conns_state ctx ≠ Some Invalid) ∧
  (s = Invalid →
   r = match o with
       | TheCommit | TheBlockingCommit => Err (Fault TxnCommit)
       | TheRollback => Err (Fault TxnRollback)
       | TheTxns => Err Panic
       end).
Proof.
  intros Hs. destruct o; cbn [run_transactional].
  - unfold commit. destruct (blocking ctx).
    + by apply ending_states; [|apply stateless_blocking_commit|apply blocking_commit_usable|intros ->].
    + by apply ending_states; [|apply stateless_commit|apply commit_usable|intros ->].
  - by apply ending_states; [|apply stateless_blocking_commit|apply blocking_commit_usable|intros ->].
  - by apply ending_states; [|apply stateless_rollback|apply rollback_usable|intros ->].
  - assert (conns_state ctx < length (states w)) as Hl by by eapply lookup_lt_Some.
    unfold mbind, op_bind. rewrite txns_run, Hs.
    destruct s as [| |t]; [destruct (pg_create ans)|..]; cbn.
    + split; [intros; by rewrite list_lookup_insert_ne|].
      rewrite list_lookup_insert_eq by done. naive_solver.
    + split; [intros; by rewrite list_lookup_insert_ne|].
      rewrite list_lookup_insert_eq by done. naive_solver.
    + naive_solver.
    + rewrite Hs. naive_solver.
Qed.

(** ** Jobs *)

Definition handed_out (e : effect) : option Job :=
  match e with Pushed job | Dispatched job => Some job | _ => None end.

Definition in_hand (p : pusher) : option Job :=
  match p with Publishing job => Some job | _ => None end.

(** Everywhere a job can be. *)
Definition all_jobs (w : world) : list Job :=
  queue w ++ omap in_hand (pushers w) ++ dropped w ++ omap handed_out (effects w).

(** The jobs an action hands to the processor. *)
Definition accepts (a : action Statement Message Job) (ans : answers) (w : world) : list Job :=
  match a with
  | EnqueueJob ctx job | BlockOnJob ctx job => if is_ok (txns ctx ans w).1 then [job] else []
  | _ => []
  end.

Fixpoint accepted (w : world) (run : list (action Statement Message Job * answers)) : list Job :=
  match run with
  | [] => []
  | (a, ans) :: run => accepts a ans w ++ accepted (perform a ans w).2 run
  end.

(** Operations that neither take nor give jobs. *)
Definition jobless {A} (m : op A) : Prop := ∀ ans w, all_jobs (m ans w).2 ≡ₚ all_jobs w.

Lemma jobless_bind {A B} (m : op A) (f : A → op B) :
  jobless m → (∀ a, jobless (f a)) → jobless (m ≫= f).
Proof.
  intros Hm Hf ans w. unfold mbind, op_bind. specialize (Hm ans w).
  destruct (m ans w) as [[a|e] w']; cbn in *; [by rewrite Hf|done].
Qed.

Create HintDb jobless discriminated.

Ltac jobless :=
  repeat (first [solve [auto with jobless nocore]
                | apply jobless_bind; [|intros ?]]); try by intros ??.

Lemma jobless_emit es : omap handed_out es = [] → jobless (emit es : op unit).
Proof. intros He ans w. unfold all_jobs. cbn. by rewrite omap_app, He, app_nil_r. Qed.

Lemma jobless_publish n (ms : list Message) : jobless (emit (Published n <$> ms) : op unit).
Proof. apply jobless_emit. by induction ms. Qed.
#[local] Hint Resolve jobless_publish : jobless.

Lemma jobless_spawn : jobless (spawn Fetching : op unit).
Proof. intros ans w. unfold all_jobs. cbn. rewrite omap_app. cbn. by rewrite app_nil_r. Qed.
#[local] Hint Resolve jobless_spawn : jobless.

Lemma jobless_pg_commit (txn : PgTxn Statement) : jobless (PgTxn_commit_into_conn txn : op unit).
Proof.
  unfold PgTxn_commit_into_conn. case_decide; jobless. case_match; [|by intros ??]. by apply jobless_emit.
Qed.
#[local] Hint Resolve jobless_pg_commit : jobless.

Lemma jobless_pg_rollback (txn : PgTxn Statement) :
  jobless (PgTxn_rollback_into_conn txn : op unit).
Proof.
  unfold PgTxn_rollback_into_conn. case_decide; jobless. case_match; [|by intros ??]. by apply jobless_emit.
Qed.
#[local] Hint Resolve jobless_pg_rollback : jobless.

Lemma jobless_nats_commit n (ms : list Message) :
  jobless (NatsTxn_commit_into_conn n ms : op unit).
Proof. unfold NatsTxn_commit_into_conn. jobless. case_match; [case_decide|]; jobless. Qed.
#[local] Hint Resolve jobless_nats_commit : jobless.

Lemma dispatch_job_ok i (job : Job) ans (w : world) : is_ok (dispatch_job i job ans w).1 = true.
Proof. unfold dispatch_job, mbind, op_bind. cbn. by destruct (job_outcome ans i job). Qed.

Lemma dispatch_jobs_ok i (jobs : list Job) ans (w : world) : is_ok (dispatch_jobs i jobs ans w).1 = true.
Proof.
  revert i w. induction jobs as [|job jobs IH]; intros i w; [done|]. cbn [dispatch_jobs]. unfold mbind, op_bind.
  pose proof (dispatch_job_ok i job ans w) as Hok. destruct (dispatch_job i job ans w) as [[ok|e] w1]; [|done].
  specialize (IH (S i) w1). by destruct (dispatch_jobs (S i) jobs ans w1) as [[oks|e] w2].
Qed.

Lemma dispatch_job_all_jobs i (job : Job) ans (w : world) :
  all_jobs (dispatch_job i job ans w).2 ≡ₚ job :: all_jobs w.
Proof.
  unfold dispatch_job, mbind, op_bind. cbn. destruct (job_outcome ans i job); unfold all_jobs; cbn.
  - rewrite (Permutation_app_comm (dropped w) [job]). cbn. by rewrite <-!Permutation_middle.
  - rewrite omap_app. cbn. rewrite !(assoc_L (++)), (Permutation_app_comm _ [job]). by rewrite <-!(assoc_L (++)).
  - rewrite omap_app. cbn. rewrite !(assoc_L (++)), (Permutation_app_comm _ [job]). by rewrite <-!(assoc_L (++)).
Qed.

Lemma dispatch_jobs_all_jobs i (jobs : list Job) ans (w : world) :
  all_jobs (dispatch_jobs i jobs ans w).2 ≡ₚ jobs ++ all_jobs w.
Proof.
  revert i w. induction jobs as [|job jobs IH]; intros i w; [done|]. cbn [dispatch_jobs]. unfold mbind, op_bind.
  pose proof (dispatch_job_all_jobs i job ans w) as Hj. pose proof (dispatch_job_ok i job ans w) as Hok.
  destruct (dispatch_job i job ans w) as [[ok|e] w1]; [|done]. cbn [snd] in Hj. specialize (IH (S i) w1).
  pose proof (dispatch_jobs_ok (S i) jobs ans w1) as Hoks.
  destruct (dispatch_jobs (S i) jobs ans w1) as [[oks|e] w2]; [|done]. cbn [snd] in *. rewrite IH, Hj. by rewrite <-Permutation_middle.
Qed.

Lemma block_on_jobs_all_jobs (jobs : list Job) ans (w : world) :
  all_jobs (block_on_jobs jobs ans w).2 ≡ₚ jobs ++ all_jobs w.
Proof.
  rewrite <- (dispatch_jobs_all_jobs 0 jobs ans w). unfold block_on_jobs, mbind, op_bind.
  by destruct (dispatch_jobs 0 jobs ans w) as [[[]|e] w'].
Qed.

(** The queued jobs go to whoever waits for them. *)
Lemma jobless_blocking_process_queue : jobless (blocking_process_queue : op unit).
Proof. intros ans w. unfold blocking_process_queue, mbind at 1 2, op_bind. cbn. by rewrite block_on_jobs_all_jobs. Qed.
#[local] Hint Resolve jobless_blocking_process_queue : jobless.

Lemma jobless_take l : jobless (ConnectionState_take l : op _).
Proof. intros ans w. unfold ConnectionState_take. by destruct (states w !! l). Qed.
#[local] Hint Resolve jobless_take : jobless.

Lemma jobless_txns ctx : jobless (txns ctx : op _).
Proof.
  intros ans w. rewrite txns_run. destruct (states w !! _) as [[]|]; [|done..].
  by destruct (pg_create ans).
Qed.
#[local] Hint Resolve jobless_txns : jobless.

Lemma jobless_commit s : jobless (ConnectionState_commit s : op _).
Proof. destruct s as [| |t]; jobless. Qed.

Lemma jobless_blocking_commit s : jobless (ConnectionState_blocking_commit s : op _).
Proof. destruct s as [| |t]; jobless. Qed.

Lemma jobless_rollback s : jobless (ConnectionState_rollback s : op _).
Proof. unfold ConnectionState_rollback, rollback_into_conns. destruct s as [| |t]; jobless. Qed.
#[local] Hint Resolve jobless_commit jobless_blocking_commit jobless_rollback : jobless.

Lemma jobless_push_step i : jobless (push_step i : op unit).
Proof.
  intros ans w. unfold push_step, mbind, op_bind, get_pusher. cbn.
  destruct (pushers w !! i) as [p|] eqn:Hp; [|done]. cbn.
  assert (i < length (pushers w)) as Hi by by eapply lookup_lt_Some.
  destruct p as [|job|]; [| |done].
  - pose proof (λ p, omap_insert_Permutation in_hand _ i p _ Hp) as Hperm. cbn in Hperm.
    destruct (queue w) as [|job q] eqn:Hq; cbn; unfold all_jobs; cbn; rewrite ?Hq, Hperm; [done|].
    cbn. by rewrite <-Permutation_middle.
  - pose proof (λ p, omap_insert_Permutation in_hand _ i p _ Hp) as Hperm. cbn in Hperm.
    destruct (push_accepted ans); cbn; unfold all_jobs; cbn.
    + rewrite omap_app, <-(Hperm Fetching).
      change (omap handed_out [Pushed job : effect]) with [job].
      rewrite (Permutation_app_comm _ [job]). cbn. by rewrite <-!Permutation_middle.
    + rewrite <-(Hperm Done), (Permutation_app_comm _ [_]). cbn.
      by rewrite <-!Permutation_middle.
Qed.
#[local] Hint Resolve jobless_push_step : jobless.

Lemma perform_all_jobs a ans (w : world) :
  all_jobs (perform a ans w).2 ≡ₚ accepts a ans w ++ all_jobs w.
Proof.
  destruct a as [b r|ctx st|ctx|ctx m|ctx job|ctx job|ctx|ctx|ctx|i];
    cbn [perform accepts app].
  - revert ans w. change (jobless (build b r;; mret () : op unit)). jobless.
    intros ans w. unfold new_conns_state. by destruct (pool_get ans).
  - revert ans w. change (jobless (execute ctx st : op unit)). unfold execute, update_txns. jobless.
  - revert ans w. change (jobless (share_pg ctx : op unit)). unfold share_pg, update_txns. jobless.
  - revert ans w. change (jobless (publish ctx m : op unit)). unfold publish, update_txns. jobless.
  - pose proof (jobless_txns ctx ans w) as Hw. unfold enqueue_job, mbind at 1, op_bind.
    destruct (txns ctx ans w) as [[t|e] w']; cbn in *; [|done].
    rewrite <-Hw. unfold all_jobs, enqueue, mbind, op_bind. cbn. by rewrite (Permutation_app_comm _ [job]).
  - pose proof (jobless_txns ctx ans w) as Hw. unfold block_on_job, mbind at 1, op_bind.
    destruct (txns ctx ans w) as [[t|e] w']; cbn [fst snd is_ok app] in *; [|done].
    by rewrite block_on_jobs_all_jobs, Hw.
  - revert ans w. change (jobless (commit ctx : op unit)). unfold commit, blocking_commit.
    destruct (blocking ctx); jobless.
  - revert ans w. change (jobless (blocking_commit ctx : op unit)). unfold blocking_commit. jobless.
  - revert ans w. change (jobless (rollback ctx : op unit)). unfold rollback. jobless.
  - apply jobless_push_step.
Qed.

(** C38: No job is lost without a trace and none is handed out twice: after any
    run, the jobs in the queue, in the hands of the tasks that push them, given up
    because pushing or sending them failed, pushed, and sent and waited for are together
    exactly the jobs that were enqueued or to be waited for. *)
Theorem jobs_are_conserved (run : list (action Statement Message Job * answers)) (w : world) :
  all_jobs (after w run) ≡ₚ all_jobs w ++ accepted w run.
Proof.
  revert w. induction run as [|[a ans] run IH]; intros w; cbn; [by rewrite app_nil_r|].
  rewrite IH, perform_all_jobs, (Permutation_app_comm (accepts _ _ _)). by rewrite (assoc_L (++)).
Qed.

(** ** Units of work *)

#[local] Arguments block_on_jobs : simpl never.
#[local] Arguments txns : simpl never.

(** The contract: every connection state collects statements and messages, and
    only a commit makes them visible, all together and in order. *)
Record work := { todo : list Statement; notices : list Message }.

Inductive visible : Type :=
| Wrote (st : list Statement)
| Sent (m : Message).

Definition no_work : work := {| todo := []; notices := [] |}.

Definition wrote (st : list Statement) : list visible :=
  match st with [] => [] | _ => [Wrote st] end.

Definition reveal (u : work) : list visible := wrote (todo u) ++ (Sent <$> notices u).

Definition spec_step (works : list work) (a : action Statement Message Job) :
    list work * list visible :=
  match a with
  | Build _ _ => (works ++ [no_work], [])
  | Execute ctx st =>
      (alter (λ u, {| todo := todo u ++ [st]; notices := notices u |}) (conns_state ctx) works, [])
  | Publish ctx m =>
      (alter (λ u, {| todo := todo u; notices := notices u ++ [m] |}) (conns_state ctx) works, [])
  | Commit ctx | BlockingCommit ctx =>
      (<[conns_state ctx := no_work]> works, default [] (reveal <$> works !! conns_state ctx))
  | Rollback ctx => (<[conns_state ctx := no_work]> works, [])
  | SharePg _ | EnqueueJob _ _ | BlockOnJob _ _ | Push _ => (works, [])
  end.

Fixpoint spec_run (works : list work) (run : list (action Statement Message Job)) : list visible :=
  match run with
  | [] => []
  | a :: run => (spec_step works a).2 ++ spec_run (spec_step works a).1 run
  end.

(** What an observer sees of the effects. *)
Definition observe (e : effect) : list visible :=
  match e with
  | Committed _ st => wrote st
  | Published _ m => [Sent m]
  | _ => []
  end.

(** Nothing outside fails. *)
Record reliable (ans : answers) : Prop := {
  reliable_pool : pool_get ans = true;
  reliable_create : pg_create ans = true;
  reliable_commit : pg_commit ans = true;
  reliable_rollback : pg_rollback ans = true;
  reliable_nats : nats_accepts ans = None;
  reliable_jobs : ∀ i job, job_outcome ans i job = JobSucceeded;
}.

Definition collects (u : work) (s : ConnectionState Statement Message) : Prop :=
  match s with
  | InConnections => u = no_work
  | InTransactions t =>
      u = {| todo := statements (pg_txn t); notices := pending_publish t |} ∧
      strong_count (pg_txn t) = 1
  | Invalid => False
  end.

Definition refines (works : list work) (w : world) : Prop := Forall2 collects works (states w).

Lemma observe_published n (ms : list Message) :
  (Published n <$> ms : list effect) ≫= observe = Sent <$> ms.
Proof. induction ms as [|m ms IH]; csimpl; [done|]. by rewrite IH. Qed.

Lemma observe_dispatched (jobs : list Job) :
  (Dispatched <$> jobs : list effect) ≫= observe = [].
Proof. induction jobs as [|j jobs IH]; csimpl; [done|]. by rewrite IH. Qed.

Lemma reliable_dispatch_jobs ans i jobs (w : world) :
  reliable ans →
  dispatch_jobs i jobs ans w = (Ok true, (emit (Dispatched <$> jobs) ans w).2).
Proof.
  intros Hr. revert i w. induction jobs as [|job jobs IH]; intros i w; cbn [dispatch_jobs].
  { unfold emit, mret, op_ret. cbn. rewrite app_nil_r. by destruct w. }
  unfold dispatch_job. rewrite !bind_run. unfold ask. cbn. rewrite (reliable_jobs _ Hr), bind_run. cbn.
  rewrite bind_run, IH. cbn. by rewrite <-(assoc_L (++)).
Qed.

Lemma reliable_block_on_jobs ans jobs (w : world) :
  reliable ans →
  block_on_jobs jobs ans w = (Ok (), (emit (Dispatched <$> jobs) ans w).2).
Proof.
  intros Hr. unfold block_on_jobs. rewrite bind_run, (reliable_dispatch_jobs ans 0 jobs w Hr). done.
Qed.

Lemma reliable_txns ctx ans works (w : world) :
  reliable ans → refines works w →
  match works !! conns_state ctx with
  | None => txns ctx ans w = (Err Panic, w)
  | Some u => ∃ t w', txns ctx ans w = (Ok t, w') ∧ refines works w' ∧
      states w' !! conns_state ctx = Some (InTransactions t) ∧ effects w' = effects w ∧
      collects u (InTransactions t)
  end.
Proof.
  intros Hr Href. rewrite txns_run.
  destruct (works !! conns_state ctx) as [u|] eqn:Hu.
  - destruct (Forall2_lookup_l _ _ _ _ _ Href Hu) as (s & Hs & Hc). rewrite Hs.
    assert (conns_state ctx < length (states w)) by by eapply lookup_lt_Some.
    destruct s as [| |t]; [|done|by exists t, w].
    rewrite (reliable_create _ Hr). eexists _, _. split_and!; [done|..|done|].
    + unfold refines, with_state. cbn. rewrite list_insert_alter, <-(list_alter_id (λ x, x) works (conns_state ctx)) by done.
      eapply Forall2_alter; [done|]. intros u' s Hu' _ Hc'. simplify_eq. by rewrite Hc.
    + by apply list_lookup_insert_eq.
    + by rewrite Hc.
  - assert (states w !! conns_state ctx = None) as ->; [|done].
    apply lookup_ge_None. rewrite <-(Forall2_length _ _ _ Href). by apply lookup_ge_None.
Qed.

(** A use of the open transaction. *)
Lemma reliable_update ctx f g ans works (w : world) :
  reliable ans → refines works w →
  (∀ u t, collects u (InTransactions t) → collects (g u) (InTransactions (f t))) →
  let w' := (update_txns ctx f ans w).2 in
  refines (alter g (conns_state ctx) works) w' ∧ effects w' = effects w.
Proof.
  intros Hr Href Hfg. pose proof (reliable_txns ctx ans works w Hr Href) as Ht.
  unfold update_txns, mbind, op_bind. destruct (works !! conns_state ctx) as [u|] eqn:Hu.
  - destruct Ht as (t & w' & -> & Href' & Hs & He & Hc). cbn. split; [|done].
    unfold refines. cbn. rewrite list_insert_alter. eapply Forall2_alter; [done|].
    intros u' s Hu' Hs' Hc'. simplify_eq. by apply Hfg.
  - rewrite Ht. cbn. split; [|done]. unfold refines.
    replace (alter g (conns_state ctx) works) with works; [done|].
    apply list_eq. intros i. rewrite list_lookup_alter. case_decide as Hi; [|done].
    subst i. by rewrite Hu.
Qed.

(** Ending the transaction of a context. *)
Lemma reliable_ending l (f : ConnectionState Statement Message → op (ConnectionState Statement Message))
    ans works (w : world) (out : work → list visible) :
  refines works w → out no_work = [] →
  (∀ u s w, collects u s → let '(r, w') := f s ans w in
     r = Ok InConnections ∧ states w' = states w ∧
     effects w' ≫= observe = (effects w ≫= observe) ++ out u) →
  let w' := ((s ← ConnectionState_take l; s ← f s; set_state l s) ans w).2 in
  refines (<[l := no_work]> works) w' ∧
  effects w' ≫= observe = (effects w ≫= observe) ++ default [] (out <$> works !! l).
Proof.
  intros Href Hout Hf. rewrite ending_run.
  destruct (states w !! l) as [s|] eqn:Hs.
  - destruct (Forall2_lookup_r _ _ _ _ _ Href Hs) as (u & Hu & Hc). rewrite Hu. cbn.
    specialize (Hf u s (with_state l Invalid w) Hc).
    destruct (f s ans (with_state l Invalid w)) as [r w2].
    destruct Hf as (-> & Hst & He). cbn in Hst, He |- *. split; [|exact He].
    unfold refines. cbn. rewrite Hst, list_insert_insert_eq. by apply Forall2_insert.
  - assert (works !! l = None) as Hu.
    { apply lookup_ge_None. rewrite (Forall2_length _ _ _ Href). by apply lookup_ge_None. }
    rewrite Hu. cbn. rewrite app_nil_r. split; [|done]. unfold refines.
    by rewrite list_insert_ge by by apply lookup_ge_None.
Qed.

(** Ending by a commit, with [jobs] taking care of the queue. *)
Lemma reliable_commit_into_conns (jobs : op unit) ans u t (w : world) :
  reliable ans → collects u (InTransactions t) →
  (∀ w, let '(r, w') := jobs ans w in
     r = Ok () ∧ states w' = states w ∧ effects w' ≫= observe = effects w ≫= observe) →
  let '(r, w') :=
    ((PgTxn_commit_into_conn (pg_txn t);;
      NatsTxn_commit_into_conn (number (pg_txn t)) (pending_publish t);; jobs);;
     mret InConnections) ans w in
  r = Ok (InConnections : ConnectionState Statement Message) ∧ states w' = states w ∧
  effects w' ≫= observe = (effects w ≫= observe) ++ reveal u.
Proof.
  intros Hr [-> Hcount] Hjobs.
  unfold PgTxn_commit_into_conn, NatsTxn_commit_into_conn.
  rewrite decide_True, !bind_run by done. unfold ask. rewrite (reliable_commit _ Hr). cbn [emit].
  rewrite !bind_run, (reliable_nats _ Hr). cbn [emit effects states queue pushers dropped next_number].
  match goal with |- context [jobs ans ?w1] => specialize (Hjobs w1); destruct (jobs ans w1) as [r w2] end.
  destruct Hjobs as (-> & Hst & He). cbn in Hst, He. split_and!; [done|done|].
  rewrite He, <-(assoc_L (++)), !bind_app, observe_published. cbn. by rewrite app_nil_r.
Qed.

Lemma reliable_blocking_process_queue ans (w : world) :
  reliable ans →
  let '(r, w') := blocking_process_queue ans w in
  r = Ok () ∧ states w' = states w ∧ effects w' ≫= observe = effects w ≫= observe.
Proof.
  intros Hr. unfold blocking_process_queue. rewrite bind_run. cbn. rewrite bind_run. cbn.
  rewrite reliable_block_on_jobs by done. cbn.
  by rewrite bind_app, observe_dispatched, app_nil_r.
Qed.

Lemma reliable_blocking_commit ctx ans works (w : world) :
  reliable ans → refines works w →
  let w' := (blocking_commit ctx ans w).2 in
  refines (<[conns_state ctx := no_work]> works) w' ∧
  effects w' ≫= observe = (effects w ≫= observe) ++ default [] (reveal <$> works !! conns_state ctx).
Proof.
  intros Hr Href. apply reliable_ending; [done|done|]. intros u s w' Hc.
  destruct s as [| |t]; [|done|].
  - rewrite Hc. cbn. by rewrite app_nil_r.
  - apply reliable_commit_into_conns; [done|done|]. intros w2. by apply reliable_blocking_process_queue.
Qed.

Lemma reliable_commit_step ctx ans works (w : world) :
  reliable ans → refines works w →
  let w' := (commit ctx ans w).2 in
  refines (<[conns_state ctx := no_work]> works) w' ∧
  effects w' ≫= observe = (effects w ≫= observe) ++ default [] (reveal <$> works !! conns_state ctx).
Proof.
  intros Hr Href. unfold commit. destruct (blocking ctx); [by apply reliable_blocking_commit|].
  apply reliable_ending; [done|done|]. intros u s w' Hc. destruct s as [| |t]; [|done|].
  - rewrite Hc. cbn. by rewrite app_nil_r.
  - by apply reliable_commit_into_conns.
Qed.

Lemma reliable_rollback_step ctx ans works (w : world) :
  reliable ans → refines works w →
  let w' := (rollback ctx ans w).2 in
  refines (<[conns_state ctx := no_work]> works) w' ∧
  effects w' ≫= observe = effects w ≫= observe.
Proof.
  intros Hr Href.
  destruct (reliable_ending (conns_state ctx) ConnectionState_rollback ans works w (λ _, []))
    as [H1 H2]; [done|done| |].
  - intros u s w' Hc. destruct s as [| |t]; [|done|].
    + cbn. by rewrite app_nil_r.
    + destruct Hc as [_ Hcount]. cbn.
      unfold rollback_into_conns, PgTxn_rollback_into_conn.
      rewrite decide_True, !bind_run by done. unfold ask. rewrite (reliable_rollback _ Hr). cbn.
      split_and!; [done|done|]. by rewrite bind_app.
  - split; [done|]. unfold rollback. rewrite H2. destruct (works !! _); cbn; by rewrite app_nil_r.
Qed.

Lemma unobserved_push_step i works ans (w : world) :
  refines works w →
  let w' := (push_step i ans w).2 in
  refines works w' ∧ effects w' ≫= observe = effects w ≫= observe.
Proof.
  intros Href. unfold push_step, get_pusher. rewrite bind_run.
  destruct (default Done (pushers w !! i)) as [|job|]; [| |done]; rewrite !bind_run; cbn.
  - by destruct (queue w).
  - unfold ask. destruct (push_accepted ans); rewrite bind_run; cbn; [|done].
    by rewrite bind_app, app_nil_r.
Qed.

Lemma spec_step_refines a ans works (w : world) :
  reliable ans → (∀ ctx, a ≠ SharePg ctx) → refines works w →
  let w' := (perform a ans w).2 in
  refines (spec_step works a).1 w' ∧
  effects w' ≫= observe = (effects w ≫= observe) ++ (spec_step works a).2.
Proof.
  intros Hr Hns Href.
  destruct a as [b r|ctx st|ctx|ctx m|ctx job|ctx job|ctx|ctx|ctx|i]; cbn [perform spec_step fst snd].
  - unfold build, new_conns_state. rewrite !bind_run, (reliable_pool _ Hr). cbn.
    rewrite app_nil_r. split; [|done]. unfold refines. cbn. apply Forall2_app; [done|]. by constructor.
  - rewrite app_nil_r. unfold execute, publish.
    edestruct reliable_update as [H1 H2]; [done|done| |split; [exact H1|by rewrite H2]].
    by intros u t [-> Hn].
  - by destruct (Hns ctx).
  - rewrite app_nil_r. unfold execute, publish.
    edestruct reliable_update as [H1 H2]; [done|done| |split; [exact H1|by rewrite H2]].
    by intros u t [-> Hn].
  - rewrite app_nil_r. pose proof (reliable_txns ctx ans works w Hr Href) as Ht.
    unfold enqueue_job, enqueue. rewrite bind_run. destruct (works !! conns_state ctx) as [u|].
    + destruct Ht as (t & w' & -> & Href' & _ & He & _). rewrite bind_run. cbn. by rewrite He.
    + by rewrite Ht.
  - rewrite app_nil_r. pose proof (reliable_txns ctx ans works w Hr Href) as Ht.
    unfold block_on_job. rewrite bind_run. destruct (works !! conns_state ctx) as [u|].
    + destruct Ht as (t & w' & -> & Href' & _ & He & _).
      rewrite reliable_block_on_jobs by done. cbn. by rewrite He, bind_app, app_nil_r.
    + by rewrite Ht.
  - by apply reliable_commit_step.
  - by apply reliable_blocking_commit.
  - rewrite app_nil_r. by apply reliable_rollback_step.
  - rewrite app_nil_r. by apply unobserved_push_step.
Qed.

Lemma spec_run_refines run works (w : world) :
  Forall (λ x, reliable x.2 ∧ ∀ ctx, x.1 ≠ SharePg ctx) run → refines works w →
  effects (after w run) ≫= observe = (effects w ≫= observe) ++ spec_run works run.*1.
Proof.
  intros Hall. revert works w. induction Hall as [|[a ans] run [Hr Hns] _ IH]; intros works w Href; cbn.
  { by rewrite app_nil_r. }
  destruct (spec_step_refines a ans works w Hr Hns Href) as [Href' He].
  by rewrite (IH _ _ Href'), He, <-(assoc_L (++)).
Qed.

(** C2: As long as nothing outside fails and no extra handle on a transaction is
    kept, contexts implement units of work: what an observer sees of a run with
    any number of contexts and clones is exactly what the contract gives, where
    every connection state collects the statements and messages of the contexts
    that share it, a commit reveals them all, in order and together, a rollback
    forgets them, and nothing else makes anything visible. *)
Theorem contexts_are_units_of_work (run : list (action Statement Message Job * answers)) :
  Forall (λ x, reliable x.2 ∧ ∀ ctx, x.1 ≠ SharePg ctx) run →
  effects (after empty_world run) ≫= observe = spec_run [] run.*1.
Proof. intros Hall. rewrite (spec_run_refines run [] empty_world Hall); [done|constructor]. Qed.

End Units.

(** ** Runs *)

Section Runs.

(** Two contexts of one service, on different connections. *)
Definition context (l : nat) : DalContext :=
  {| conns_state := l; tenancy := {| workspace_pk := Some 1%N |};
     visibility := Visibility.new_head 0 false; history_actor := SystemInit;
     blocking := false; no_dependent_values := false |}.

Definition builder : DalContextBuilder :=
  {| builder_blocking := false; builder_no_dependent_values := false |}.

Definition all_well : answers nat :=
  {| pool_get := true; pg_create := true; pg_commit := true; pg_rollback := true;
     nats_accepts := None; job_outcome := λ _ _, JobSucceeded; push_accepted := true |}.

Definition well (as_ : list (action nat nat nat)) : list (action nat nat nat * answers nat) :=
  (λ a, (a, all_well)) <$> as_.

Lemma all_well_reliable : reliable all_well.
Proof. by constructor. Qed.

(** Two units of work on one connection, one of them rolled back, next to one on
    another. *)
Definition mixed_run : list (action nat nat nat) :=
  [Build builder (RequestContext_default 0); Build builder (RequestContext_default 0);
   Execute (context 0) 10; Publish (context 0) 11; Execute (context 1) 20;
   Rollback (context 1); Publish (context 1) 21; Execute (context 0) 12; Commit (context 0);
   Commit (context 1); Commit (context 0)].

Lemma contexts_are_units_of_work_witness :
  effects (after empty_world (well mixed_run)) ≫= observe =
    [Wrote [10; 12]; Sent 11; Sent 21].
Proof.
  rewrite (contexts_are_units_of_work (well mixed_run)); [reflexivity|].
  apply Forall_fmap, Forall_forall. intros a Ha. split; [apply all_well_reliable|].
  cbn. intros ctx ->. revert Ha. unfold mixed_run. rewrite !elem_of_cons, elem_of_nil. naive_solver.
Defined.

Lemma operation_fails_iff_context_breaks_witness :
  let w := after empty_world (well [Build builder (RequestContext_default 0)]) in
  let refusing := {| pool_get := true; pg_create := false; pg_commit := true;
                     pg_rollback := true; nats_accepts := None; job_outcome := λ (_ : nat) (_ : nat), JobSucceeded;
                     push_accepted := true |} in
  let '(r, w') := run_transactional TheTxns (context 0) refusing w in
  is_ok r = false ∧
  ((is_ok r = true ↔ states w' !! 0 ≠ Some Invalid)).
Proof.
  cbv zeta. pose proof (operation_fails_iff_context_breaks TheTxns (context 0)
    {| pool_get := true; pg_create := false; pg_commit := true;
       pg_rollback := true; nats_accepts := None; job_outcome := λ (_ : nat) (_ : nat), JobSucceeded;
       push_accepted := true |}
    (after empty_world (well [Build builder (RequestContext_default 0)])) InConnections
    eq_refl) as H.
  revert H. vm_compute. intros (_ & H & _). split; [reflexivity|exact H].
Defined.

(** Jobs are not part of the transaction they are enqueued in. A job enqueued
    before a rollback stays in the queue and is pushed after the next commit, and
    a job of a transaction that is still open is pushed when any other context of
    the same service commits, even if its own transaction is then rolled back. *)
Theorem jobs_escape_their_transaction :
  effects (after empty_world (well
    [Build builder (RequestContext_default 0);
     EnqueueJob (context 0) 7; Rollback (context 0);
     Execute (context 0) 1; Commit (context 0); Push 0; Push 0])) =
    [RolledBack 0; Committed 1 [1]; Pushed 7] ∧
  effects (after empty_world (well
    [Build builder (RequestContext_default 0); Build builder (RequestContext_default 0);
     EnqueueJob (context 0) 7; Execute (context 1) 1; Commit (context 1);
     Push 0; Push 0; Rollback (context 0)])) =
    [Committed 1 [1]; Pushed 7; RolledBack 0].
Proof. by split. Qed.

End Runs.
