(* ===== verification/NodeMenu.v ===== *)
(** * The menu of schemas

    Model of [src/lib/dal/src/node_menu.rs]: the menu of the diagram is a tree of
    categories with schemas as leaves, built by inserting every schema under the
    path of its category. The lists of the tree are shared cells in the code
    ([Rc<RefCell<Vec<..>>>]); each list has one place in the tree, so a cell is
    given by the path that leads to it. *)

From S2P Require Import Prelude.
From Stdlib Require Import Strings.Ascii Strings.String.
From stdpp Require Import base tactics list strings.

Module Menu.

(** ** The tree *)

Record Item := { item_name : string; schema_id : N }.

Inductive MenuItem : Type :=
| CategoryItem (name : string) (items : list MenuItem)
| SchemaItem (item : Item).

Inductive NodeMenuError : Type :=
| NoInnerCategory
| PathDoesNotExist (path : string).

Definition name (i : MenuItem) : string :=
  match i with CategoryItem name _ => name | SchemaItem item => item_name item end.

Definition inner_category (i : MenuItem) : result NodeMenuError (list MenuItem) :=
  match i with CategoryItem _ items => Ok items | SchemaItem _ => Err NoInnerCategory end.

(** [iter().find(|i| i.borrow().name() == *path_part)]. *)
Fixpoint find_name (part : string) (l : list MenuItem) : option MenuItem :=
  match l with
  | [] => None
  | i :: l => if decide (name i = part) then Some i else find_name part l
  end.

(** [path.join(".")]. *)
Definition join (path : list string) : string := String.concat "." path.

(** The loop of [item_for_path]; [whole] is the path of the error. *)
Fixpoint search (whole : list string) (l : list MenuItem) (path : list string) :
    result NodeMenuError MenuItem :=
  match path with
  | [] => Err (PathDoesNotExist (join whole))
  | part :: rest =>
      match find_name part l with
      | None => Err (PathDoesNotExist (join whole))
      | Some i =>
          match rest with
          | [] => Ok i
          | _ => inner_category i ≫= λ items, search whole items rest
          end
      end
  end.

Definition item_for_path (menu : list MenuItem) (path : list string) :
    result NodeMenuError MenuItem := search path menu path.

(** Pushing to the list a path leads to. *)
Fixpoint update_first (part : string) (f : MenuItem → MenuItem) (l : list MenuItem) :
    list MenuItem :=
  match l with
  | [] => []
  | i :: l => if decide (name i = part) then f i :: l else i :: update_first part f l
  end.

Fixpoint push_at (path : list string) (x : MenuItem) (menu : list MenuItem) : list MenuItem :=
  match path with
  | [] => menu ++ [x]
  | part :: rest =>
      update_first part (λ i,
        match i with
        | CategoryItem n items => CategoryItem n (push_at rest x items)
        | SchemaItem _ => i
        end) menu
  end.

(** The loop of [insert_menu_item] over the path: [insert_into] is the list for
    the path [done]. An error leaves the categories made so far in the menu. *)
Fixpoint insert_loop (menu : list MenuItem) (done todo : list string) :
    result NodeMenuError () * list MenuItem * list string :=
  match todo with
  | [] => (Ok (), menu, done)
  | part :: todo =>
      match item_for_path menu (done ++ [part]) with
      | Ok parent =>
          match inner_category parent with
          | Ok _ => insert_loop menu (done ++ [part]) todo
          | Err e => (Err e, menu, done)
          end
      | Err _ => insert_loop (push_at done (CategoryItem part []) menu) (done ++ [part]) todo
      end
  end.

Definition insert_menu_item (menu : list MenuItem) (path : list string) (x : MenuItem) :
    result NodeMenuError () * list MenuItem :=
  let path_to_check := match path with [] => path | _ => [name x] end in
  match item_for_path menu path_to_check with
  | Ok parent =>
      match inner_category parent with
      | Ok _ => (Ok (), push_at path_to_check x menu)
      | Err e => (Err e, menu)
      end
  | Err (PathDoesNotExist _) =>
      match path with
      | [] => (Ok (), menu ++ [x])
      | _ =>
          let '(r, menu, into) := insert_loop menu [] path in
          match r with Ok _ => (Ok (), push_at into x menu) | Err e => (Err e, menu) end
      end
  | Err _ => (Ok (), menu)
  end.

(** ** Generating the menu *)

(** [String::split('.')]. *)
Fixpoint split_dot (s : string) : list string :=
  match s with
  | EmptyString => [EmptyString]
  | String c s =>
      if decide (c = "."%char) then EmptyString :: split_dot s
      else
        match split_dot s with
        | part :: parts => String c part :: parts
        | [] => [String c EmptyString]
        end
  end.

(** A [SchemaUiMenu] with its schema, as the database returns them. *)
Record SchemaUiMenu := {
  menu_name : string;
  category : string;
  schema : option (N * bool);
}.

Definition category_path (m : SchemaUiMenu) : list string := split_dot (category m).

Definition sort_by (key : SchemaUiMenu → string) : list SchemaUiMenu → list SchemaUiMenu :=
  stable_sort (λ m m', key m <=? key m')%string.

(** The body of the loop of [GenerateMenuItem::new]. *)
Definition raw_item (include_ui_hidden : bool) (m : SchemaUiMenu) : option (list string * Item) :=
  match schema m with
  | None => None
  | Some (id, ui_hidden) =>
      if negb include_ui_hidden && ui_hidden then None
      else Some (category_path m, {| item_name := menu_name m; schema_id := id |})
  end.

Definition raw_items (include_ui_hidden : bool) (ui_menus : list SchemaUiMenu) :
    list (list string * Item) :=
  omap (raw_item include_ui_hidden) (sort_by category (sort_by menu_name ui_menus)).

(** [create_menu_json], up to the serialization of the tree. *)
Fixpoint create_menu (menu : list MenuItem) (raw : list (list string * Item)) :
    result NodeMenuError (list MenuItem) :=
  match raw with
  | [] => Ok menu
  | (path, item) :: raw =>
      let '(r, menu) := insert_menu_item menu path (SchemaItem item) in
      match r with Ok _ => create_menu menu raw | Err e => Err e end
  end.

End Menu.
Import Menu.

(** ** What a menu lists *)

(** The schemas of a tree, each with the categories it is under. *)
Fixpoint listed (i : MenuItem) : list (list string * Item) :=
  match i with
  | SchemaItem item => [([], item)]
  | CategoryItem n items => (λ p, (n :: p.1, p.2)) <$> mjoin (listed <$> items)
  end.

Definition listing (menu : list MenuItem) : list (list string * Item) := mjoin (listed <$> menu).

Arguments listing : simpl never.

(** The list a path of categories leads to. *)
Fixpoint list_at (menu : list MenuItem) (path : list string) : option (list MenuItem) :=
  match path with
  | [] => Some menu
  | part :: rest =>
      match find_name part menu with
      | Some (CategoryItem _ items) => list_at items rest
      | _ => None
      end
  end.

Definition under (path : list string) (p : list string * Item) : list string * Item :=
  (path ++ p.1, p.2).

Lemma listing_app l k : listing (l ++ k) = listing l ++ listing k.
Proof. unfold listing. by rewrite fmap_app, join_app. Qed.

Lemma listing_cons i l : listing (i :: l) = listed i ++ listing l.
Proof. done. Qed.

Lemma listed_category n items : listed (CategoryItem n items) = under [n] <$> listing items.
Proof. done. Qed.

Lemma under_nil (l : list (list string * Item)) : under [] <$> l = l.
Proof. induction l as [|[p it] l IH]; csimpl; [done|by rewrite IH]. Qed.

(** The first item with a name. *)
Lemma find_name_Some part l i :
  find_name part l = Some i → name i = part ∧ ∃ l1 l2, l = l1 ++ i :: l2 ∧
    (∀ f, update_first part f l = l1 ++ f i :: l2) ∧
    (∀ l', find_name part (l1 ++ l') = find_name part l').
Proof.
  induction l as [|x l IH]; cbn; [done|]. case_decide as Hx.
  - intros [= ->]. split; [done|]. by exists [], l.
  - intros [Hn (l1 & l2 & -> & Hf & Hg)]%IH. split; [done|].
    exists (x :: l1), l2. split; [done|]. split.
    + intros f. cbn. by rewrite Hf.
    + intros l'. cbn. by rewrite decide_False.
Qed.

Lemma find_name_app_None part l l' :
  find_name part l = None → find_name part (l ++ l') = find_name part l'.
Proof. induction l as [|x l IH]; cbn; [done|]. by case_decide. Qed.

Lemma push_at_listing path x menu items :
  list_at menu path = Some items →
  listing (push_at path x menu) ≡ₚ listing menu ++ (under path <$> listed x).
Proof.
  revert menu. induction path as [|part rest IH]; intros menu Hat; cbn in Hat |- *.
  - rewrite listing_app, under_nil. unfold listing at 2. cbn. by rewrite app_nil_r.
  - destruct (find_name part menu) as [[n items'|]|] eqn:Hf; [|done|done].
    apply find_name_Some in Hf as [Hn (l1 & l2 & -> & Hu & _)]. cbn in Hn. subst n.
    rewrite Hu, !listing_app, !listing_cons, !listed_category, (IH _ Hat), fmap_app.
    rewrite <-list_fmap_compose, <-!(assoc_L (++)), (Permutation_app_comm (listing l2)).
    done.
Qed.

Lemma list_at_push_at path x menu items rest :
  list_at menu path = Some items →
  list_at (push_at path x menu) (path ++ rest) = list_at (items ++ [x]) rest.
Proof.
  revert menu. induction path as [|part path IH]; intros menu Hat; cbn in Hat |- *.
  - by injection Hat as ->.
  - destruct (find_name part menu) as [[n items'|]|] eqn:Hf; [|done|done].
    apply find_name_Some in Hf as [Hn (l1 & l2 & -> & Hu & Hg)]. cbn in Hn. subst n.
    rewrite Hu, Hg. cbn. rewrite decide_True by done. by apply IH.
Qed.

Lemma search_list_at whole menu path part items :
  list_at menu path = Some items →
  search whole menu (path ++ [part]) =
    match find_name part items with
    | Some i => Ok i
    | None => Err (PathDoesNotExist (join whole))
    end.
Proof.
  revert menu. induction path as [|p path IH]; intros menu Hat; cbn in Hat |- *.
  - injection Hat as ->. by destruct (find_name part items).
  - destruct (find_name p menu) as [[n items'|]|] eqn:Hf; [|done|done]. cbn.
    rewrite (IH _ Hat). by destruct (path ++ [part]) eqn:Hp; [destruct path|].
Qed.

(** Categories have their names from [S], schemas do not. *)
Inductive named (S : list string) : MenuItem → Prop :=
| named_category n items : n ∈ S → Forall (named S) items → named S (CategoryItem n items)
| named_schema item : item_name item ∉ S → named S (SchemaItem item).

Lemma named_find S part l i :
  Forall (named S) l → part ∈ S → find_name part l = Some i →
  ∃ items, i = CategoryItem part items ∧ Forall (named S) items.
Proof.
  intros Hl Hpart Hf. apply find_name_Some in Hf as [Hn (l1 & l2 & -> & _)].
  apply Forall_app in Hl as [_ [Hi _]%Forall_cons]. subst part. inversion Hi; subst; [by eexists|done].
Qed.

Lemma named_list_at S menu path items :
  Forall (named S) menu → list_at menu path = Some items → Forall (named S) items.
Proof.
  revert menu. induction path as [|part rest IH]; intros menu Hm Hat; cbn in Hat.
  - by injection Hat as ->.
  - destruct (find_name part menu) as [[n items'|]|] eqn:Hf; [|done|done].
    apply find_name_Some in Hf as [_ (l1 & l2 & -> & _)].
    apply Forall_app in Hm as [_ [Hi _]%Forall_cons]. inversion Hi; subst. by eapply IH.
Qed.

(** One more category on the way. *)
Lemma list_at_snoc menu path part items it :
  list_at menu path = Some items → find_name part items = Some (CategoryItem part it) →
  list_at menu (path ++ [part]) = Some it.
Proof.
  revert menu. induction path as [|p path IH]; intros menu Hat Hf; cbn in *.
  - injection Hat as ->. by rewrite Hf.
  - destruct (find_name p menu) as [[]|]; [by apply IH|done|done].
Qed.

Lemma named_push_at S path x menu items :
  Forall (named S) menu → list_at menu path = Some items → named S x →
  Forall (named S) (push_at path x menu).
Proof.
  revert menu. induction path as [|part rest IH]; intros menu Hm Hat Hx; cbn in Hat |- *.
  - apply Forall_app. by repeat constructor.
  - destruct (find_name part menu) as [[n items'|]|] eqn:Hf; [|done|done].
    apply find_name_Some in Hf as [Hn (l1 & l2 & -> & Hu & Hg)]. rewrite Hu.
    apply Forall_app in Hm as [H1 [Hi H2]%Forall_cons]. inversion Hi as [? ? Hin Hitems|]; subst.
    apply Forall_app. split; [done|]. constructor; [|done]. constructor; [done|by apply IH].
Qed.

(** Only categories at the top. *)
Definition is_category (i : MenuItem) : Prop :=
  match i with CategoryItem _ _ => True | SchemaItem _ => False end.

Lemma categories_push_at path x menu :
  Forall is_category menu → path ≠ [] ∨ is_category x → Forall is_category (push_at path x menu).
Proof.
  intros Hm Hx. destruct path as [|part rest]; cbn.
  - apply Forall_app. split; [done|]. constructor; [naive_solver|done].
  - induction Hm as [|i l Hi Hl IH]; cbn; [done|]. case_decide; constructor; [|done|done|done].
    by destruct i.
Qed.

Lemma insert_loop_ok S menu done todo items :
  Forall (named S) menu → Forall is_category menu → list_at menu done = Some items →
  todo ⊆ S →
  ∃ menu' items', insert_loop menu done todo = (Ok (), menu', done ++ todo) ∧
    Forall (named S) menu' ∧ Forall is_category menu' ∧
    list_at menu' (done ++ todo) = Some items' ∧ listing menu' ≡ₚ listing menu.
Proof.
  revert menu done items.
  induction todo as [|part todo IH]; intros menu done items Hm Hc Hat HS; cbn.
  { exists menu, items. by rewrite app_nil_r. }
  assert (part ∈ S) as Hpart by (apply HS; by left).
  assert (todo ⊆ S) as HS' by (intros p Hp; apply HS; by right).
  unfold item_for_path. rewrite (search_list_at _ _ _ _ _ Hat).
  replace (done ++ part :: todo) with ((done ++ [part]) ++ todo) by by rewrite <-(assoc_L (++)).
  destruct (find_name part items) as [i|] eqn:Hf.
  - destruct (named_find S part items i) as (it & -> & Hit); [by eapply named_list_at|done|done|].
    cbn. eapply IH; [done|done|by eapply list_at_snoc|done].
  - edestruct (IH (push_at done (CategoryItem part []) menu) (done ++ [part]))
      as (menu' & items' & -> & H1 & H2 & H3 & H4); [..|exists menu', items'; split_and!; try done].
    + eapply named_push_at; [done|done|]. by constructor.
    + apply categories_push_at; [done|by right].
    + rewrite (list_at_push_at _ _ _ _ _ Hat). cbn. rewrite find_name_app_None by done. cbn.
      by rewrite decide_True.
    + done.
    + rewrite H4, (push_at_listing _ _ _ _ Hat). cbn. by rewrite app_nil_r.
Qed.

Lemma insert_menu_item_ok S menu path item :
  Forall (named S) menu → Forall is_category menu → path ≠ [] → path ⊆ S → item_name item ∉ S →
  ∃ menu', insert_menu_item menu path (SchemaItem item) = (Ok (), menu') ∧
    Forall (named S) menu' ∧ Forall is_category menu' ∧
    listing menu' ≡ₚ listing menu ++ [(path, item)].
Proof.
  intros Hm Hc Hne HS Hitem. unfold insert_menu_item.
  replace (match path with [] => path | _ :: _ => [name (SchemaItem item)] end)
    with [item_name item] by by destruct path.
  assert (item_for_path menu [item_name item] = Err (PathDoesNotExist (join [item_name item]))) as ->.
  { unfold item_for_path. cbn. destruct (find_name (item_name item) menu) as [i|] eqn:Hf; [|done].
    apply find_name_Some in Hf as [Hn (l1 & l2 & -> & _)].
    apply Forall_app in Hm as [_ [Hi _]%Forall_cons]. apply Forall_app in Hc as [_ [Hci _]%Forall_cons].
    destruct i as [n items|it]; [|done]. inversion Hi; subst. by rewrite <-Hn in Hitem. }
  destruct (insert_loop_ok S menu [] path menu) as (menu' & items' & -> & H1 & H2 & H3 & H4);
    [done|done|done|done|]. cbn in H3. exists (push_at path (SchemaItem item) menu').
  split_and!; [by destruct path|..].
  - eapply named_push_at; [done|done|by constructor].
  - apply categories_push_at; [done|by left].
  - rewrite (push_at_listing _ _ _ _ H3), H4. cbn. unfold under. cbn. by rewrite app_nil_r.
Qed.

Lemma create_menu_ok S menu raw :
  Forall (named S) menu → Forall is_category menu →
  Forall (λ p, p.1 ≠ [] ∧ p.1 ⊆ S ∧ item_name p.2 ∉ S) raw →
  ∃ menu', create_menu menu raw = Ok menu' ∧ listing menu' ≡ₚ listing menu ++ raw.
Proof.
  intros Hm Hc Hraw. revert menu Hm Hc.
  induction Hraw as [|[path item] raw (Hne & HS & Hitem) _ IH]; intros menu Hm Hc; cbn in *.
  { exists menu. by rewrite app_nil_r. }
  destruct (insert_menu_item_ok S menu path item Hm Hc Hne HS Hitem) as (menu' & -> & H1 & H2 & H3).
  destruct (IH menu' H1 H2) as (menu'' & -> & H4). exists menu''. split; [done|].
  by rewrite H4, H3, <-(assoc_L (++)).
Qed.

Lemma split_dot_nonempty s : split_dot s ≠ [].
Proof. destruct s as [|c s]; cbn; [done|]. case_decide; [done|]. by destruct (split_dot s). Qed.

Lemma sort_by_Permutation key l : sort_by key l ≡ₚ l.
Proof. apply stable_sort_perm. Qed.

(** When no schema has the name of a category, the menu can be generated, and
    it lists exactly the schemas that are shown, each under the categories of its
    path, whatever the order of the database rows. *)
Theorem menu_lists_every_schema include_ui_hidden ui_menus :
  (∀ m m', m ∈ ui_menus → m' ∈ ui_menus → menu_name m ∉ category_path m') →
  ∃ menu, create_menu [] (raw_items include_ui_hidden ui_menus) = Ok menu ∧
    listing menu ≡ₚ omap (raw_item include_ui_hidden) ui_menus.
Proof.
  intros Hnames. set (sorted := sort_by category (sort_by menu_name ui_menus)).
  assert (sorted ≡ₚ ui_menus) as Hsorted by (unfold sorted; by rewrite !sort_by_Permutation).
  destruct (create_menu_ok (mjoin (category_path <$> ui_menus)) []
    (raw_items include_ui_hidden ui_menus)) as (menu & Hmenu & Hlist); [constructor|constructor| |].
  - apply Forall_forall. intros [path item] Hin. unfold raw_items in Hin.
    apply list_elem_of_omap in Hin as (m & Hm & Hraw). fold sorted in Hm. rewrite Hsorted in Hm.
    unfold raw_item in Hraw. destruct (schema m) as [[id hidden]|]; [|done].
    destruct (negb _ && _); [done|]. simplify_eq/=. split_and!.
    + apply split_dot_nonempty.
    + intros part Hpart. apply list_elem_of_join. exists (category_path m).
      split; [done|]. by apply list_elem_of_fmap_2.
    + intros (path & Hpath & Hin)%list_elem_of_join.
      apply list_elem_of_fmap in Hin as (m' & -> & Hm'). by apply (Hnames m m').
  - exists menu. split; [done|]. rewrite Hlist. unfold raw_items. cbn. fold sorted. by rewrite Hsorted.
Qed.

Lemma menu_lists_every_schema_witness :
  ∃ menu, create_menu [] (raw_items false
    [{| menu_name := "subnet"; category := "AWS.Network"; schema := Some (3%N, false) |};
     {| menu_name := "hidden"; category := "AWS"; schema := Some (2%N, true) |};
     {| menu_name := "ec2"; category := "AWS"; schema := Some (1%N, false) |}]) = Ok menu ∧
  listing menu ≡ₚ [(["AWS"; "Network"], {| item_name := "subnet"; schema_id := 3 |});
                   (["AWS"], {| item_name := "ec2"; schema_id := 1 |})].
Proof.
  apply (menu_lists_every_schema false
    [{| menu_name := "subnet"; category := "AWS.Network"; schema := Some (3%N, false) |};
     {| menu_name := "hidden"; category := "AWS"; schema := Some (2%N, true) |};
     {| menu_name := "ec2"; category := "AWS"; schema := Some (1%N, false) |}]).
  intros m m'. rewrite !elem_of_cons, !elem_of_nil.
  intros [->|[->|[->|[]]]] [->|[->|[->|[]]]]; by apply (bool_decide_unpack _).
Defined.

(** A schema with the name of a top category is listed under that category and
    not under its own: the menu looks for the name instead of the path. A schema
    with the name of a category next to it makes the generation of the whole menu
    fail. *)
Theorem schema_named_like_a_category :
  listing <$> create_menu []
    [(["AWS"], {| item_name := "ec2"; schema_id := 1 |});
     (["Network"; "DNS"], {| item_name := "AWS"; schema_id := 2 |})] =
    Ok [(["AWS"], {| item_name := "ec2"; schema_id := 1 |});
        (["AWS"], {| item_name := "AWS"; schema_id := 2 |})] ∧
  create_menu []
    [(["AWS"], {| item_name := "Network"; schema_id := 1 |});
     (["AWS"; "Network"], {| item_name := "subnet"; schema_id := 2 |})] = Err NoInnerCategory.
Proof. by split. Qed.
