(* ===== verification/AttributeContext.v ===== *)
(** * Attribute contexts

    Model of [src/lib/dal/src/attribute/context.rs] and [context/read.rs]: what an
    attribute value belongs to (one prop, internal provider or external provider)
    and how specific it is (for one component, or for all), with the builder, the
    order of specificity and the contexts used for reading. *)

From S2P Require Import Prelude.
From Stdlib Require Import NArith.
From stdpp Require Import base tactics list.

(** Every id type has the nil [Ulid] as [NONE]. *)
Abbreviation Id := N (only parsing).
Definition NONE : Id := 0%N.

Definition is_unset (id : Id) : bool := bool_decide (id = NONE).

(** [std::cmp::Ordering]. *)
Inductive Ordering : Set := Less | Equal | Greater.

Module Context.

Record AttributeContext := {
  prop_id : Id;
  internal_provider_id : Id;
  external_provider_id : Id;
  component_id : Id;
}.

#[global] Instance AttributeContext_eq_dec : EqDecision AttributeContext.
Proof. solve_decision. Defined.

Inductive LeastSpecificFieldKind : Set :=
| ExternalProvider (id : Id)
| InternalProvider (id : Id)
| Prop_ (id : Id).

(** [AttributeContextBuilder] has the same fields, unchecked. *)
Record AttributeContextBuilder := {
  builder_prop_id : Id;
  builder_internal_provider_id : Id;
  builder_external_provider_id : Id;
  builder_component_id : Id;
}.

Inductive AttributeContextBuilderError : Set :=
| MultipleLeastSpecificFieldsSpecified (b : AttributeContextBuilder)
| PrerequisteFieldsUnset (b : AttributeContextBuilder).

Inductive AttributeContextError : Set :=
| BuilderError (e : AttributeContextBuilderError)
| LeastSpecificFieldKindNotFound.

(** ** The builder *)


Definition to_context_unchecked (b : AttributeContextBuilder) : AttributeContext :=
  {| prop_id := builder_prop_id b; internal_provider_id := builder_internal_provider_id b;
     external_provider_id := builder_external_provider_id b;
     component_id := builder_component_id b |}.

Definition to_context (b : AttributeContextBuilder) :
    result AttributeContextBuilderError AttributeContext :=
  let p := builder_prop_id b in
  let i := builder_internal_provider_id b in
  let e := builder_external_provider_id b in
  let nothing := is_unset p && is_unset i && is_unset e in
  if (negb (is_unset p) && negb (is_unset i)) || (negb (is_unset p) && negb (is_unset e)) ||
     (negb (is_unset i) && negb (is_unset e))
  then Err (MultipleLeastSpecificFieldsSpecified b)
  else if nothing then Err (PrerequisteFieldsUnset b)
  else Ok (to_context_unchecked b).







Definition unset_component_id (b : AttributeContextBuilder) : AttributeContextBuilder :=
  {| builder_prop_id := builder_prop_id b;
     builder_internal_provider_id := builder_internal_provider_id b;
     builder_external_provider_id := builder_external_provider_id b;
     builder_component_id := NONE |}.


(** [AttributeContextBuilder::from(AttributeContext)]. *)
Definition builder_from (c : AttributeContext) : AttributeContextBuilder :=
  {| builder_prop_id := prop_id c; builder_internal_provider_id := internal_provider_id c;
     builder_external_provider_id := external_provider_id c;
     builder_component_id := component_id c |}.

(** ** Contexts *)

Definition is_prop_unset (c : AttributeContext) : bool := is_unset (prop_id c).
Definition is_internal_provider_unset (c : AttributeContext) : bool :=
  is_unset (internal_provider_id c).
Definition is_external_provider_unset (c : AttributeContext) : bool :=
  is_unset (external_provider_id c).
Definition is_component_unset (c : AttributeContext) : bool := is_unset (component_id c).

Definition is_least_specific (c : AttributeContext) : bool := is_unset (component_id c).

Definition partial_cmp (self other : AttributeContext) : option Ordering :=
  if negb (is_component_unset self) then
    if negb (is_component_unset other) then Some Equal else Some Greater
  else if negb (is_external_provider_unset self) then
    if negb (is_component_unset other) then Some Less
    else if negb (is_external_provider_unset other) then Some Equal else None
  else if negb (is_internal_provider_unset self) then
    if negb (is_component_unset other) then Some Less
    else if negb (is_internal_provider_unset other) then Some Equal else None
  else if negb (is_prop_unset self) then
    if negb (is_component_unset other) then Some Less
    else if negb (is_prop_unset other) then Some Equal else None
  else None.

Definition less_specific (c : AttributeContext) : result AttributeContextError AttributeContext :=
  let builder := builder_from c in
  let builder := if is_component_unset c then builder else unset_component_id builder in
  match to_context builder with Ok c => Ok c | Err e => Err (BuilderError e) end.

Definition least_specific_field_kind (c : AttributeContext) :
    result AttributeContextError LeastSpecificFieldKind :=
  if negb (is_prop_unset c) then Ok (Prop_ (prop_id c))
  else if negb (is_internal_provider_unset c) then Ok (InternalProvider (internal_provider_id c))
  else if negb (is_external_provider_unset c) then Ok (ExternalProvider (external_provider_id c))
  else Err LeastSpecificFieldKindNotFound.

Definition is_least_specific_field_kind_prop (c : AttributeContext) :
    result AttributeContextError bool :=
  k ← least_specific_field_kind c; Ok (match k with Prop_ _ => true | _ => false end).

Definition is_least_specific_field_kind_internal_provider (c : AttributeContext) :
    result AttributeContextError bool :=
  k ← least_specific_field_kind c; Ok (match k with InternalProvider _ => true | _ => false end).

Definition is_least_specific_field_kind_external_provider (c : AttributeContext) :
    result AttributeContextError bool :=
  k ← least_specific_field_kind c; Ok (match k with ExternalProvider _ => true | _ => false end).

Definition is_least_specific_field_kind_internal_or_external_provider (c : AttributeContext) :
    result AttributeContextError bool :=
  k ← least_specific_field_kind c; Ok (match k with Prop_ _ => false | _ => true end).

(** ** Contexts for reading *)

(** [None] is a field that is not looked at. *)
Record AttributeReadContext := {
  read_prop_id : option Id;
  read_internal_provider_id : option Id;
  read_external_provider_id : option Id;
  read_component_id : option Id;
}.

Definition read_default : AttributeReadContext :=
  {| read_prop_id := Some NONE; read_internal_provider_id := Some NONE;
     read_external_provider_id := Some NONE; read_component_id := Some NONE |}.

Definition any : AttributeReadContext :=
  {| read_prop_id := None; read_internal_provider_id := None;
     read_external_provider_id := None; read_component_id := None |}.


Definition default_with_prop (id : Id) : AttributeReadContext :=
  {| read_prop_id := Some id; read_internal_provider_id := Some NONE;
     read_external_provider_id := Some NONE; read_component_id := Some NONE |}.

Definition default_with_prop_and_component_id (id : Id) (component : option Id) :
    AttributeReadContext :=
  {| read_prop_id := Some id; read_internal_provider_id := Some NONE;
     read_external_provider_id := Some NONE;
     read_component_id := Some (default NONE component) |}.

Definition default_with_internal_provider (id : Id) : AttributeReadContext :=
  {| read_prop_id := Some NONE; read_internal_provider_id := Some id;
     read_external_provider_id := Some NONE; read_component_id := Some NONE |}.

Definition default_with_external_provider (id : Id) : AttributeReadContext :=
  {| read_prop_id := Some NONE; read_internal_provider_id := Some NONE;
     read_external_provider_id := Some id; read_component_id := Some NONE |}.

(** [has_set_..] and [has_unset_..] of the four fields. *)
Definition has_set (id : option Id) : bool :=
  match id with Some id => negb (is_unset id) | None => false end.

Definition has_unset (id : option Id) : bool :=
  match id with Some id => is_unset id | None => false end.



End Context.
Import Context.

(** ** What a context promises *)

(** The set fields of the lowest level. *)
Definition set_fields (c : AttributeContext) : list Id :=
  filter (λ id, id ≠ NONE) [prop_id c; internal_provider_id c; external_provider_id c].

(** Exactly one of them is set. *)
Definition well_formed (c : AttributeContext) : Prop := length (set_fields c) = 1.

#[global] Instance well_formed_dec c : Decision (well_formed c).
Proof. unfold well_formed. apply _. Defined.

(** The three kinds of context. *)
Inductive kind : Set := PropKind | InternalProviderKind | ExternalProviderKind.

#[global] Instance kind_eq_dec : EqDecision kind.
Proof. solve_decision. Defined.

Definition kind_of (k : LeastSpecificFieldKind) : kind :=
  match k with
  | Prop_ _ => PropKind
  | InternalProvider _ => InternalProviderKind
  | ExternalProvider _ => ExternalProviderKind
  end.

Lemma to_context_spec b :
  to_context b =
    match length (set_fields (to_context_unchecked b)) with
    | 0 => Err (PrerequisteFieldsUnset b)
    | 1 => Ok (to_context_unchecked b)
    | _ => Err (MultipleLeastSpecificFieldsSpecified b)
    end.
Proof.
  destruct b as [p i e k]. unfold to_context, set_fields, to_context_unchecked, is_unset. cbn.
  destruct (decide (p = NONE)) as [->|], (decide (i = NONE)) as [->|], (decide (e = NONE)) as [->|].
  all: repeat case_decide; try done; repeat case_bool_decide; done.
Qed.

(** A context with one of its fields set, for a component or for all. *)
Inductive shape : AttributeContext → Prop :=
| shape_prop id k : id ≠ NONE →
    shape {| prop_id := id; internal_provider_id := NONE; external_provider_id := NONE;
             component_id := k |}
| shape_internal id k : id ≠ NONE →
    shape {| prop_id := NONE; internal_provider_id := id; external_provider_id := NONE;
             component_id := k |}
| shape_external id k : id ≠ NONE →
    shape {| prop_id := NONE; internal_provider_id := NONE; external_provider_id := id;
             component_id := k |}.

Lemma well_formed_shape c : well_formed c → shape c.
Proof.
  destruct c as [p i e k]. unfold well_formed, set_fields. cbn.
  destruct (decide (p = NONE)) as [->|], (decide (i = NONE)) as [->|], (decide (e = NONE)) as [->|].
  all: repeat case_decide; try done; intros _; by constructor.
Qed.

Lemma less_specific_spec c :
  well_formed c →
  less_specific c = Ok {| prop_id := prop_id c; internal_provider_id := internal_provider_id c;
                          external_provider_id := external_provider_id c; component_id := NONE |}.
Proof.
  intros Hc. unfold less_specific. rewrite to_context_spec.
  assert (∀ b, set_fields (to_context_unchecked (if is_component_unset c then b else unset_component_id b)) =
    set_fields (to_context_unchecked b)) as -> by (intros b; by destruct (is_component_unset c)).
  change (set_fields (to_context_unchecked (builder_from c))) with (set_fields c). rewrite Hc.
  unfold is_component_unset, is_unset. case_bool_decide as Hk; [|done]. by destruct c; cbn in *; subst.
Qed.





(** ** The order of specificity *)

Definition for_component (c : AttributeContext) : bool := negb (is_least_specific c).

(** The order on well formed contexts looks at the component first: a context
    for a component is more specific than one for all components, and two contexts
    for components are equally specific; contexts for all components are equally
    specific if they have the same kind, and not comparable otherwise. The order
    is dual, and widening a context never makes it more specific. *)
Theorem specificity_order c c' :
  well_formed c → well_formed c' →
  partial_cmp c c' =
    match for_component c, for_component c' with
    | true, true => Some Equal
    | true, false => Some Greater
    | false, true => Some Less
    | false, false =>
        match least_specific_field_kind c, least_specific_field_kind c' with
        | Ok k, Ok k' => if decide (kind_of k = kind_of k') then Some Equal else None
        | _, _ => None
        end
    end ∧
  partial_cmp c' c =
    (λ o, match o with Less => Greater | Equal => Equal | Greater => Less end) <$> partial_cmp c c' ∧
  (∀ w, less_specific c = Ok w →
     partial_cmp w c = Some (if for_component c then Less else Equal)).
Proof.
  intros Hc Hc'. rewrite less_specific_spec by done.
  apply well_formed_shape in Hc. apply well_formed_shape in Hc'.
  unfold partial_cmp, for_component, is_least_specific, least_specific_field_kind, is_component_unset,
    is_prop_unset, is_internal_provider_unset, is_external_provider_unset, is_unset.
  destruct Hc as [id k Hid|id k Hid|id k Hid], Hc' as [id' k' Hid'|id' k' Hid'|id' k' Hid']; cbn.
  all: rewrite ?(bool_decide_false (id = NONE)), ?(bool_decide_false (id' = NONE)) by done.
  all: destruct (bool_decide (k = NONE)), (bool_decide (k' = NONE)); cbn.
  all: split_and!; [done|done|intros w [= <-]; cbn].
  all: by rewrite ?(bool_decide_false (id = NONE)) by done.
Qed.

Definition sample (p i e k : Id) : AttributeContext :=
  {| prop_id := p; internal_provider_id := i; external_provider_id := e; component_id := k |}.

Lemma specificity_order_witness :
  partial_cmp (sample 1 0 0 9) (sample 1 0 0 0) = Some Greater ∧
  partial_cmp (sample 1 0 0 0) (sample 0 2 0 0) = None ∧
  partial_cmp (sample 1 0 0 9) (sample 0 2 0 9) = Some Equal.
Proof.
  split_and!.
  - by rewrite (proj1 (specificity_order (sample 1 0 0 9) (sample 1 0 0 0) eq_refl eq_refl)).
  - by rewrite (proj1 (specificity_order (sample 1 0 0 0) (sample 0 2 0 0) eq_refl eq_refl)).
  - by rewrite (proj1 (specificity_order (sample 1 0 0 9) (sample 0 2 0 9) eq_refl eq_refl)).
Defined.
