(* ===== verification/StatusUpdates.v ===== *)
(** * Status updates

    Model of [src/lib/dal/src/status.rs]: while a job updates dependent values, a row
    outside of its transaction and messages to the frontend say which values are
    queued, running and completed. The database, the broker and the order of hash
    sets are parameters: what they answer is an argument of every operation. *)

From S2P Require Import Prelude AttributeContext.
From stdpp Require Import base tactics sets gmap list.
Import Context.

(** The order in which a [HashSet], or the keys of a [HashMap], are iterated. *)
Class HashSetOrder := {
  iterate_set : gset Id → list Id;
  iterate_set_all s : iterate_set s ≡ₚ elements s;
}.

(** ** Data *)

Inductive AttributeValueKind : Set :=
| Attribute (prop_id : Id)
| CodeGen
| InputSocket (socket_id : Id)
| Internal
| OutputSocket (socket_id : Id)
| Qualification.

Record AttributeValueMetadata := {
  value_id : Id;
  metadata_component_id : Id;
  value_kind : AttributeValueKind;
}.

#[export] Instance kind_eq_dec : EqDecision AttributeValueKind.
Proof. solve_decision. Defined.
#[export] Instance metadata_eq_dec : EqDecision AttributeValueMetadata.
Proof. solve_decision. Defined.

Record StatusUpdateData := {
  dependent_values_metadata : gmap Id AttributeValueMetadata;
  queued_dependent_value_ids : gset Id;
  running_dependent_value_ids : gset Id;
  completed_dependent_value_ids : gset Id;
}.

(** The object in memory; the actor, the tenancy and the times are left out. *)
Record StatusUpdate := {
  pk : Id;
  finished : bool;
  data : StatusUpdateData;
}.

Inductive StatusMessageState : Set := Completed | Queued | Running | StatusFinished | StatusStarted.

#[export] Instance message_state_eq_dec : EqDecision StatusMessageState.
Proof. solve_decision. Defined.

Record StatusMessage := {
  message_pk : Id;
  status : StatusMessageState;
  values : list AttributeValueMetadata;
}.

Inductive StatusUpdateError : Set :=
| AttributeValueMetadataNotFound (id : Id)
| Pg
| PgPool
| SerdeJson
| ModelMissing (pk : Id)
| UserNotFound.

(** What [StatusUpdaterError::metadata] wraps. *)
Inductive MetadataError : Set :=
| DatabaseError
| ContextError (e : AttributeContextError)
| ValueNotFound (id : Id)
| ExternalProviderNotFound (id : Id)
| InternalProviderNotFound (id : Id)
| PropNotFound (id : Id).

(** The texts of [GenericError]. *)
Inductive Generic : Set :=
| NoSocketForExternalProvider (id : Id)
| NoSocketForInternalProvider (id : Id)
| NoComponent (id : Id)
| NoSchemaVariant (component_id : Id).

Inductive StatusUpdaterError : Type :=
| MetadataFailed (e : MetadataError)
| ComponentFailed
| GenericError (e : Generic)
| MalformedAttributeValue (id : Id)
| NatsError
| PublishRealtime
| EventJson
| UpdateFailed (e : StatusUpdateError)
| UnprocessedValuesRemaining (ids : list Id).

(** ** The outside *)

(** A row of [status_updates]. *)
Record Row := { row_data : StatusUpdateData; row_finished : bool }.

(** The table, the messages that were published, and the components whose update
    was recorded in the transaction of the context. *)
Record World := {
  rows : gmap Id Row;
  messages : list StatusMessage;
  recorded : list Id;
}.

(** How a statement ends: done, refused without effect, or done without an answer
    that can be read. *)
Inductive Writing : Set := Done | Refused (e : StatusUpdateError) | Unread.

(** What the outside answers in a call: to the statements in turn, to the statement
    that marks the end, to the publication of a message, to the record of the update
    of a component. *)
Record Answers := {
  writes : nat → Writing;
  marks : Writing;
  publishes : result StatusUpdaterError unit;
  records : Id → bool;
}.

(** Operations on the object and the world. *)
Definition op (E A : Type) : Type := StatusUpdate → World → result E A * (StatusUpdate * World).

#[export] Instance op_ret {E} : MRet (op E) := λ A a m w, (Ok a, (m, w)).
#[export] Instance op_bind {E} : MBind (op E) := λ A B f o m w,
  match o m w with
  | (Ok a, (m, w)) => f a m w
  | (Err e, s) => (Err e, s)
  end.

Definition lift_error {E F A} (f : E → F) (o : op E A) : op F A := λ m w,
  match o m w with (Ok a, s) => (Ok a, s) | (Err e, s) => (Err (f e), s) end.

Definition from_result {E A} (r : result E A) : op E A := λ m w, (r, (m, w)).

Definition get_data {E} : op E StatusUpdateData := λ m w, (Ok (data m), (m, w)).

Definition set_data {E} (f : StatusUpdateData → StatusUpdateData) : op E unit := λ m w,
  (Ok tt, ({| pk := pk m; finished := finished m; data := f (data m) |}, w)).

Definition set_finished {E} : op E unit := λ m w,
  (Ok tt, ({| pk := pk m; finished := true; data := data m |}, w)).

Definition set_row (pk : Id) (row : Row) (w : World) : World :=
  {| rows := <[pk := row]> (rows w); messages := messages w; recorded := recorded w |}.

(** A statement on the row of the object. *)
Definition write_row (how : Writing) (f : StatusUpdate → Row → Row) : op StatusUpdateError unit := λ m w,
  match how, rows w !! pk m with
  | Refused e, _ => (Err e, (m, w))
  | _, None => (Err Pg, (m, w))
  | Done, Some row => (Ok tt, (m, set_row (pk m) (f m row) w))
  | Unread, Some row => (Err (ModelMissing (pk m)), (m, set_row (pk m) (f m row) w))
  end.

(** ** [StatusUpdate] *)

Module Update.

Definition persist_data_to_db (how : Writing) : op StatusUpdateError unit :=
  write_row how (λ m row, {| row_data := data m; row_finished := row_finished row |}).

Definition metadata_from_value_ids (value_ids : list Id) : op StatusUpdateError (list AttributeValueMetadata) := λ m w,
  ((fix go value_ids := match value_ids with
    | [] => Ok []
    | id :: value_ids =>
        e ← ok_or (dependent_values_metadata (data m) !! id) (AttributeValueMetadataNotFound id);
        es ← go value_ids;
        Ok (e :: es)
    end) value_ids, (m, w)).

Definition set_dependent_values_metadata (how : Writing) (metadata : gmap Id AttributeValueMetadata) :
    op StatusUpdateError unit :=
  _ ← set_data (λ d, {| dependent_values_metadata := metadata;
                        queued_dependent_value_ids := queued_dependent_value_ids d;
                        running_dependent_value_ids := running_dependent_value_ids d;
                        completed_dependent_value_ids := completed_dependent_value_ids d |});
  persist_data_to_db how.

Definition queue_values (value_ids : list Id) (d : StatusUpdateData) : StatusUpdateData :=
  {| dependent_values_metadata := dependent_values_metadata d;
     queued_dependent_value_ids := queued_dependent_value_ids d ∪ list_to_set value_ids;
     running_dependent_value_ids := running_dependent_value_ids d;
     completed_dependent_value_ids := completed_dependent_value_ids d |}.

Definition set_queued_dependent_value_ids (how : Writing) (value_ids : list Id) :
    op StatusUpdateError (list AttributeValueMetadata) :=
  _ ← set_data (queue_values value_ids);
  _ ← persist_data_to_db how;
  metadata_from_value_ids value_ids.

(** [for value_id in value_ids.iter() { set.remove(value_id); }]. *)
Definition remove_all (value_ids : list Id) (s : gset Id) : gset Id :=
  foldl (λ s value_id, s ∖ {[value_id]}) s value_ids.

Definition run_values (value_ids : list Id) (d : StatusUpdateData) : StatusUpdateData :=
  {| dependent_values_metadata := dependent_values_metadata d;
     queued_dependent_value_ids := remove_all value_ids (queued_dependent_value_ids d);
     running_dependent_value_ids := running_dependent_value_ids d ∪ list_to_set value_ids;
     completed_dependent_value_ids := completed_dependent_value_ids d |}.

Definition set_running_dependent_value_ids (how : Writing) (value_ids : list Id) :
    op StatusUpdateError (list AttributeValueMetadata) :=
  _ ← set_data (run_values value_ids);
  _ ← persist_data_to_db how;
  metadata_from_value_ids value_ids.

Definition complete_values (value_ids : list Id) (d : StatusUpdateData) : StatusUpdateData :=
  {| dependent_values_metadata := dependent_values_metadata d;
     queued_dependent_value_ids := remove_all value_ids (queued_dependent_value_ids d);
     running_dependent_value_ids := remove_all value_ids (running_dependent_value_ids d);
     completed_dependent_value_ids := completed_dependent_value_ids d ∪ list_to_set value_ids |}.

Definition set_completed_dependent_value_ids (how : Writing) (value_ids : list Id) :
    op StatusUpdateError (list AttributeValueMetadata) :=
  _ ← set_data (complete_values value_ids);
  _ ← persist_data_to_db how;
  metadata_from_value_ids value_ids.

Definition finish (how : Writing) : op StatusUpdateError unit :=
  _ ← write_row how (λ _ row, {| row_data := row_data row; row_finished := true |});
  set_finished.

(** The data of a new row. *)
Definition new_data : StatusUpdateData :=
  {| dependent_values_metadata := ∅; queued_dependent_value_ids := ∅;
     running_dependent_value_ids := ∅; completed_dependent_value_ids := ∅ |}.

(** [created] is the key of the new row, or the error that creating it gives. *)
Definition new (created : result StatusUpdateError Id) (w : World) :
    result StatusUpdateError StatusUpdate * World :=
  match created with
  | Err e => (Err e, w)
  | Ok pk => (Ok {| pk := pk; finished := false; data := new_data |},
              set_row pk {| row_data := new_data; row_finished := false |} w)
  end.

End Update.

(** ** Kinds of values *)

(** An attribute value, as it is read. *)
Record AttributeValue := { attribute_value_id : Id; context : AttributeContext }.

(** The queries that are made for a value. *)
Record Lookups := {
  attribute_value : Id → result MetadataError (option AttributeValue);
  external_provider : Id → result MetadataError (option Id);
  external_provider_sockets : Id → result MetadataError (list Id);
  (** The provider and its prop. *)
  internal_provider : Id → result MetadataError (option (Id * Id));
  internal_provider_sockets : Id → result MetadataError (list Id);
  component : Id → result MetadataError (option Id);
  schema_variant : Id → result MetadataError (option Id);
  (** [SchemaVariant::find_leaf_item_prop(.., LeafKind::CodeGeneration)]. *)
  code_item_prop : Id → result MetadataError Id;
  prop : Id → result MetadataError (option Id);
  parent_prop : Id → result MetadataError (option Id);
}.

Section kinds.
Context (q : Lookups).

Definition metadata {A} (r : result MetadataError A) : result StatusUpdaterError A :=
  match r with Ok a => Ok a | Err e => Err (MetadataFailed e) end.

Definition in_context {A} (r : result AttributeContextError A) : result StatusUpdaterError A :=
  match r with Ok a => Ok a | Err e => Err (MetadataFailed (ContextError e)) end.

(** Does this value look like an output socket? *)
Definition output_socket_kind (c : AttributeContext) : result StatusUpdaterError AttributeValueKind :=
  p ← metadata (external_provider q (external_provider_id c));
  p ← metadata (ok_or p (ExternalProviderNotFound (external_provider_id c)));
  sockets ← metadata (external_provider_sockets q p);
  socket ← ok_or (last sockets) (GenericError (NoSocketForExternalProvider p));
  Ok (OutputSocket socket).

(** Does this value look like an input socket? *)
Definition input_socket_kind (c : AttributeContext) : result StatusUpdaterError AttributeValueKind :=
  p ← metadata (internal_provider q (internal_provider_id c));
  p ← metadata (ok_or p (InternalProviderNotFound (internal_provider_id c)));
  if is_unset (snd p) then
    sockets ← metadata (internal_provider_sockets q (fst p));
    socket ← ok_or (last sockets) (GenericError (NoSocketForInternalProvider (fst p)));
    Ok (InputSocket socket)
  else Ok Internal.

(** Does this value correspond to a code generation function? *)
Definition prop_kind (c : AttributeContext) : result StatusUpdaterError AttributeValueKind :=
  k ← metadata (component q (component_id c));
  k ← ok_or k (GenericError (NoComponent (component_id c)));
  variant ← metadata (schema_variant q k);
  variant ← ok_or variant (GenericError (NoSchemaVariant (component_id c)));
  code_item ← metadata (code_item_prop q variant);
  p ← metadata (prop q (prop_id c));
  p ← metadata (ok_or p (PropNotFound (prop_id c)));
  if decide (p = code_item) then Ok CodeGen
  else
    parent ← metadata (parent_prop q p);
    match parent with
    | None => Ok (Attribute (prop_id c))
    | Some parent =>
        if decide (parent = code_item) then Ok CodeGen
        else
          grandparent ← metadata (parent_prop q parent);
          match grandparent with
          | Some grandparent =>
              if decide (grandparent = code_item) then Ok CodeGen else Ok (Attribute (prop_id c))
          | None => Ok (Attribute (prop_id c))
          end
    end.

Definition kind_of_value (v : AttributeValue) : result StatusUpdaterError AttributeValueKind :=
  let c := context v in
  if is_unset (component_id c) then Ok Internal
  else
    external ← in_context (is_least_specific_field_kind_external_provider c);
    if external : bool then output_socket_kind c
    else
      internal ← in_context (is_least_specific_field_kind_internal_provider c);
      if internal : bool then input_socket_kind c
      else if negb (is_unset (prop_id c)) then prop_kind c
      else Err (MalformedAttributeValue (attribute_value_id v)).

(** The loop over the values. *)
Fixpoint value_metadata (m : gmap Id AttributeValueMetadata) (value_ids : list Id) :
    result StatusUpdaterError (gmap Id AttributeValueMetadata) :=
  match value_ids with
  | [] => Ok m
  | value_id :: value_ids =>
      v ← metadata (attribute_value q value_id);
      v ← metadata (ok_or v (ValueNotFound value_id));
      kind ← kind_of_value v;
      value_metadata (<[value_id := {| value_id := value_id; metadata_component_id := component_id (context v);
                                       value_kind := kind |}]> m) value_ids
  end.

End kinds.

(** ** [StatusUpdaterInner] *)

Module Inner.
Section inner.
Context {H : HashSetOrder}.

Definition publish_immediately (a : Answers) (status : StatusMessageState) (values : list AttributeValueMetadata) :
    op StatusUpdaterError unit := λ m w,
  match publishes a with
  | Err e => (Err e, (m, w))
  | Ok _ => (Ok tt, (m, {| rows := rows w;
                           messages := messages w ++ [{| message_pk := pk m; status := status; values := values |}];
                           recorded := recorded w |}))
  end.

Definition initialize (a : Answers) (created : result StatusUpdateError Id) (w : World) :
    result StatusUpdaterError StatusUpdate * World :=
  match Update.new created w with
  | (Err e, w) => (Err (UpdateFailed e), w)
  | (Ok model, w) =>
      match publish_immediately a StatusStarted [] model w with
      | (Ok _, (model, w)) => (Ok model, w)
      | (Err e, (_, w)) => (Err e, w)
      end
  end.

Definition values_queued (a : Answers) (q : Lookups) (value_ids : list Id) : op StatusUpdaterError unit :=
  metadata ← from_result (value_metadata q ∅ value_ids);
  _ ← lift_error UpdateFailed (Update.set_dependent_values_metadata (writes a 0) metadata);
  d ← get_data;
  queued ← lift_error UpdateFailed
    (Update.set_queued_dependent_value_ids (writes a 1) (iterate_set (dom (dependent_values_metadata d))));
  publish_immediately a Queued queued.

Definition values_running (a : Answers) (value_ids : list Id) : op StatusUpdaterError unit :=
  running ← lift_error UpdateFailed (Update.set_running_dependent_value_ids (writes a 0) value_ids);
  publish_immediately a Running running.

(** [ComponentStatus::record_update_by_id] for every component. *)
Fixpoint record_updates (a : Answers) (component_ids : list Id) : op StatusUpdaterError unit := λ m w,
  match component_ids with
  | [] => (Ok tt, (m, w))
  | id :: component_ids =>
      if records a id
      then record_updates a component_ids m
             {| rows := rows w; messages := messages w; recorded := recorded w ++ [id] |}
      else (Err ComponentFailed, (m, w))
  end.

Definition components_of (values : list AttributeValueMetadata) : list Id :=
  filter (λ id, is_unset id = false) (iterate_set (list_to_set (metadata_component_id <$> values))).

Definition values_completed (a : Answers) (value_ids : list Id) : op StatusUpdaterError unit :=
  completed ← lift_error UpdateFailed (Update.set_completed_dependent_value_ids (writes a 0) value_ids);
  _ ← record_updates a (components_of completed);
  publish_immediately a Completed completed.

(** The values that are left at the end. *)
Definition unprocessed (d : StatusUpdateData) : option (list Id) :=
  let all_value_ids := dom (dependent_values_metadata d) in
  if decide (all_value_ids ≠ completed_dependent_value_ids d)
  then Some (iterate_set (all_value_ids ∖ completed_dependent_value_ids d))
  else if decide (queued_dependent_value_ids d ≠ ∅) then Some (iterate_set (queued_dependent_value_ids d))
  else if decide (running_dependent_value_ids d ≠ ∅) then Some (iterate_set (running_dependent_value_ids d))
  else None.

Definition finish (a : Answers) : op StatusUpdaterError unit :=
  _ ← lift_error UpdateFailed (Update.finish (marks a));
  d ← get_data;
  match unprocessed d with
  | Some ids => from_result (Err (UnprocessedValuesRemaining ids))
  | None => publish_immediately a StatusFinished []
  end.

End inner.
End Inner.

(** ** [StatusUpdater] *)

Module Updater.
Section updater.
Context {H : HashSetOrder}.

(** The object behind the mutex, if there is one. *)
Definition initialize (a : Answers) (created : result StatusUpdateError Id) (w : World) :
    option StatusUpdate * World :=
  match Inner.initialize a created w with
  | (Ok inner, w) => (Some inner, w)
  | (Err _, w) => (None, w)
  end.

(** Errors are logged. *)
Definition with_inner (o : op StatusUpdaterError unit) (s : option StatusUpdate * World) :
    option StatusUpdate * World :=
  match s with
  | (Some inner, w) => let '(_, (inner, w)) := o inner w in (Some inner, w)
  | (None, w) => (None, w)
  end.

Definition values_queued (a : Answers) (q : Lookups) (value_ids : list Id) :=
  with_inner (Inner.values_queued a q value_ids).
Definition values_running (a : Answers) (value_ids : list Id) := with_inner (Inner.values_running a value_ids).
Definition values_completed (a : Answers) (value_ids : list Id) := with_inner (Inner.values_completed a value_ids).
Definition finish (a : Answers) := with_inner (Inner.finish a).

(** The calls a job makes while it works. *)
Inductive Call : Type := CallRunning (value_ids : list Id) | CallCompleted (value_ids : list Id).

Definition call (c : Answers * Call) (s : option StatusUpdate * World) : option StatusUpdate * World :=
  match c with
  | (a, CallRunning value_ids) => values_running a value_ids s
  | (a, CallCompleted value_ids) => values_completed a value_ids s
  end.

Definition calls (cs : list (Answers * Call)) (s : option StatusUpdate * World) : option StatusUpdate * World :=
  foldl (λ s c, call c s) s cs.

End updater.
End Updater.

(** ** What is tracked *)

Import Updater.

Definition ids_of (c : Call) : list Id :=
  match c with CallRunning ids | CallCompleted ids => ids end.

(** A call, on the data. *)
Definition applied (d : StatusUpdateData) (c : Call) : StatusUpdateData :=
  match c with
  | CallRunning ids => Update.run_values ids d
  | CallCompleted ids => Update.complete_values ids d
  end.

Definition state_of (c : Call) : StatusMessageState :=
  match c with CallRunning _ => Running | CallCompleted _ => Completed end.

(** The last thing that was said of a value. *)
Definition last_said (v : Id) (cs : list Call) : option StatusMessageState :=
  foldl (λ said c, if decide (v ∈ ids_of c) then Some (state_of c) else said) None cs.

Lemma elem_of_remove_all v ids s : v ∈ Update.remove_all ids s ↔ v ∈ s ∧ (v ∉ ids).
Proof.
  unfold Update.remove_all. revert s. induction ids as [|id ids IH]; intros s; cbn; [set_solver|].
  rewrite IH. set_solver.
Qed.

Lemma last_said_snoc v cs c :
  last_said v (cs ++ [c]) = if decide (v ∈ ids_of c) then Some (state_of c) else last_said v cs.
Proof. unfold last_said. by rewrite foldl_app. Qed.

(** The sets say for every value what was last said of it. *)
Record tracks (d0 d : StatusUpdateData) (cs : list Call) : Prop := {
  tracks_metadata : dependent_values_metadata d = dependent_values_metadata d0;
  tracks_queued v : v ∈ queued_dependent_value_ids d ↔
    v ∈ queued_dependent_value_ids d0 ∧ last_said v cs = None;
  tracks_running v : v ∈ running_dependent_value_ids d ↔
    last_said v cs = Some Running ∨ (v ∈ running_dependent_value_ids d0 ∧ last_said v cs = None);
  tracks_completed v : v ∈ completed_dependent_value_ids d ↔
    v ∈ completed_dependent_value_ids d0 ∨ Exists (λ c, state_of c = Completed ∧ v ∈ ids_of c) cs;
}.

Lemma calls_tracked d cs : tracks d (foldl applied d cs) cs.
Proof.
  induction cs as [|c cs IH] using rev_ind.
  - split; cbn; [done| | |]; intros v; try rewrite Exists_nil; naive_solver.
  - rewrite foldl_app. cbn. destruct IH as [Hm Hq Hr Hc]. split.
    + by destruct c.
    + intros v. rewrite last_said_snoc. destruct c as [ids|ids]; cbn; rewrite elem_of_remove_all, Hq;
        case_decide; naive_solver.
    + intros v. rewrite last_said_snoc. destruct c as [ids|ids]; cbn.
      * rewrite elem_of_union, elem_of_list_to_set, Hr. case_decide; naive_solver.
      * rewrite elem_of_remove_all, Hr. case_decide; naive_solver.
    + intros v. rewrite Exists_app, Exists_cons, Exists_nil. destruct c as [ids|ids]; cbn.
      * rewrite Hc. naive_solver.
      * rewrite elem_of_union, elem_of_list_to_set, Hc. naive_solver.
Qed.

Lemma said_completed v cs : last_said v cs = Some Completed →
  Exists (λ c, state_of c = Completed ∧ v ∈ ids_of c) cs.
Proof.
  induction cs as [|c cs IH] using rev_ind; [done|]. rewrite last_said_snoc, Exists_app, Exists_cons, Exists_nil.
  case_decide; [|naive_solver]. intros [= Hs]. naive_solver.
Qed.

Lemma said_state v cs s : last_said v cs = Some s → s = Running ∨ s = Completed.
Proof.
  induction cs as [|c cs IH] using rev_ind; [done|]. rewrite last_said_snoc. case_decide; [|done].
  intros [= <-]. destruct c; naive_solver.
Qed.

Lemma said_iff v cs : is_Some (last_said v cs) ↔ Exists (λ c, v ∈ ids_of c) cs.
Proof.
  induction cs as [|c cs IH] using rev_ind; [cbn; rewrite Exists_nil; by rewrite is_Some_alt|].
  rewrite last_said_snoc, Exists_app, Exists_cons, Exists_nil. case_decide; [naive_solver eauto|naive_solver].
Qed.

Section theorems.
Context {H : HashSetOrder}.

(** Nothing is left exactly if every value that is known was last said to be
    completed, and no other one was spoken of. *)
Lemma unprocessed_none d cs : queued_dependent_value_ids d ⊆ dom (dependent_values_metadata d) →
  running_dependent_value_ids d = ∅ → completed_dependent_value_ids d = ∅ →
  Inner.unprocessed (foldl applied d cs) = None ↔
    (∀ v, v ∈ dom (dependent_values_metadata d) → last_said v cs = Some Completed) ∧
    (∀ v, is_Some (last_said v cs) → v ∈ dom (dependent_values_metadata d)).
Proof using Type.
  intros Hq0 Hr0 Hc0. destruct (calls_tracked d cs) as [Hm Hq Hr Hc].
  set (d' := foldl applied d cs) in *. set (all := dom (dependent_values_metadata d)) in *.
  assert (Inner.unprocessed d' = None ↔ all = completed_dependent_value_ids d' ∧
    queued_dependent_value_ids d' = ∅ ∧ running_dependent_value_ids d' = ∅) as ->.
  { unfold Inner.unprocessed. rewrite Hm. fold all. repeat case_decide; naive_solver. }
  split.
  - intros (Hall & Hqe & Hre). assert (∀ v, last_said v cs ≠ Some Running) as Hrun.
    { intros v Hv. assert (v ∈ running_dependent_value_ids d') by (apply Hr; by left). set_solver. }
    split; intros v Hv.
    + rewrite Hall in Hv. apply Hc in Hv as [Hv|Hv]; [set_solver|].
      assert (is_Some (last_said v cs)) as [s Hs]; [apply said_iff; eapply Exists_impl; [exact Hv|by intros c []]|].
      destruct (said_state _ _ _ Hs) as [->| ->]; [by apply Hrun in Hs|done].
    + destruct Hv as [s Hs]. destruct (said_state _ _ _ Hs) as [->| ->]; [by apply Hrun in Hs|].
      rewrite Hall. apply Hc. right. by apply said_completed.
  - intros [Hall Hsaid]. split_and!; apply set_eq; intros v.
    + split; [intros Hv; apply Hc; right; by apply said_completed, Hall|].
      intros [Hv|Hv]%Hc; [set_solver|]. apply Hsaid, said_iff. eapply Exists_impl; [exact Hv|by intros c []].
    + rewrite Hq. split; [|set_solver]. intros [Hv Hs]. apply Hq0, Hall in Hv. congruence.
    + rewrite Hr, Hr0. split; [|set_solver]. intros [Hs|[? _]]; [|done].
      assert (v ∈ all) as Hv%Hall; [|congruence]. apply Hsaid. eauto.
Qed.
(** ** What is written and announced *)

Definition lands (a : Answers) : bool := match writes a 0 with Refused _ => false | _ => true end.
Definition answered (a : Answers) : bool := match writes a 0 with Done => true | _ => false end.

(** The metadata of values, in their order. *)
Definition metadata_of (md : gmap Id AttributeValueMetadata) (ids : list Id) : list AttributeValueMetadata :=
  omap (λ id, md !! id) ids.

(** A call that comes to its end. *)
Definition succeeds (md : gmap Id AttributeValueMetadata) (a : Answers) (c : Call) : bool :=
  answered a && forallb (λ id, bool_decide (is_Some (md !! id))) (ids_of c) &&
  match c with
  | CallRunning _ => true
  | CallCompleted ids => forallb (records a) (Inner.components_of (metadata_of md ids))
  end && is_ok (publishes a).

Definition message_of (pk : Id) (md : gmap Id AttributeValueMetadata) (c : Call) : StatusMessage :=
  {| message_pk := pk; status := state_of c; values := metadata_of md (ids_of c) |}.

Definition announcements (pk : Id) (md : gmap Id AttributeValueMetadata) (cs : list (Answers * Call)) :
    list StatusMessage :=
  cs ≫= λ '(a, c), if succeeds md a c then [message_of pk md c] else [].

(** The row: the data of the last call whose statement was not refused. *)
Fixpoint row_after (d row : StatusUpdateData) (cs : list (Answers * Call)) : StatusUpdateData :=
  match cs with
  | [] => row
  | (a, c) :: cs => let d := applied d c in row_after d (if lands a then d else row) cs
  end.

Definition known (md : gmap Id AttributeValueMetadata) (ids : list Id) : bool :=
  forallb (λ id, bool_decide (is_Some (md !! id))) ids.

Lemma metadata_listed m w ids : ∃ e, Update.metadata_from_value_ids ids m w =
  (if known (dependent_values_metadata (data m)) ids
   then Ok (metadata_of (dependent_values_metadata (data m)) ids) else Err e, (m, w)).
Proof using Type.
  unfold Update.metadata_from_value_ids. induction ids as [|id ids [e IH]]; [by exists Pg|].
  injection IH as IH. unfold known. cbn [forallb metadata_of omap list_omap].
  destruct (dependent_values_metadata (data m) !! id) as [x|] eqn:Hx; cbn [ok_or mbind result_bind].
  - exists e. rewrite bool_decide_true by eauto. cbn [andb]. rewrite IH. unfold known, metadata_of.
    by destruct (forallb _ ids).
  - exists (AttributeValueMetadataNotFound id). by rewrite bool_decide_false by (by intros []).
Qed.

Definition with_data (m : StatusUpdate) (d : StatusUpdateData) : StatusUpdate :=
  {| pk := pk m; finished := finished m; data := d |}.

(** Changing the data, writing it and listing values. *)
Lemma write_and_list how f ids m w row : rows w !! pk m = Some row → ∃ e,
  (_ ← set_data f; _ ← Update.persist_data_to_db how; Update.metadata_from_value_ids ids) m w =
  (match how with
   | Done => if known (dependent_values_metadata (f (data m))) ids
             then Ok (metadata_of (dependent_values_metadata (f (data m))) ids) else Err e
   | _ => Err e
   end,
   (with_data m (f (data m)),
    match how with
    | Refused _ => w
    | _ => set_row (pk m) {| row_data := f (data m); row_finished := row_finished row |} w
    end)).
Proof using Type.
  intros Hrow. unfold mbind, op_bind, set_data, Update.persist_data_to_db, write_row. cbn [pk].
  destruct how as [|e|]; rewrite ?Hrow; [|by exists e|by exists (ModelMissing (pk m))].
  destruct (metadata_listed (with_data m (f (data m))) (set_row (pk m)
    {| row_data := f (data m); row_finished := row_finished row |} w) ids) as [e He]. exists e. exact He.
Qed.

Lemma record_updates_spec a ids m w : ∃ l, snd (Inner.record_updates a ids m w) =
    (m, {| rows := rows w; messages := messages w; recorded := recorded w ++ l |}) ∧
  fst (Inner.record_updates a ids m w) = if forallb (records a) ids then Ok tt else Err ComponentFailed.
Proof using Type.
  revert w. induction ids as [|id ids IH]; intros w; cbn.
  - exists []. rewrite app_nil_r. by destruct w.
  - destruct (records a id); cbn; [|exists []; rewrite app_nil_r; by destruct w].
    destruct (IH {| rows := rows w; messages := messages w; recorded := recorded w ++ [id] |}) as (l & Hl & Hr).
    exists (id :: l). rewrite Hl, Hr. cbn. by rewrite <-(assoc_L (++)).
Qed.

(** One call, whatever the outside answers. *)
Lemma call_spec a c m w row : rows w !! pk m = Some row → ∃ w',
  call (a, c) (Some m, w) = (Some (with_data m (applied (data m) c)), w') ∧
  rows w' = (if lands a then <[pk m := {| row_data := applied (data m) c; row_finished := row_finished row |}]> (rows w)
             else rows w) ∧
  messages w' = messages w ++ announcements (pk m) (dependent_values_metadata (data m)) [(a, c)].
Proof using Type.
  intros Hrow. unfold announcements. cbn [mbind list_bind]. rewrite app_nil_r. unfold succeeds, answered, lands.
  assert (dependent_values_metadata (applied (data m) c) = dependent_values_metadata (data m)) as Hmd by by destruct c.
  destruct c as [ids|ids]; cbn [call ids_of].
  - unfold values_running, with_inner, Inner.values_running, Update.set_running_dependent_value_ids.
    unfold mbind at 1, op_bind at 1, lift_error at 1.
    destruct (write_and_list (writes a 0) (Update.run_values ids) ids m w row Hrow) as [e He].
    rewrite He. clear He. cbn in Hmd |- *. fold (known (dependent_values_metadata (data m)) ids).
    destruct (writes a 0) as [|e'|]; cbn; [|by eexists; rewrite app_nil_r..].
    destruct (known _ ids); cbn; [|by eexists; rewrite app_nil_r].
    unfold Inner.publish_immediately. destruct (publishes a) as [[]|]; cbn; by eexists; rewrite ?app_nil_r.
  - unfold values_completed, with_inner, Inner.values_completed, Update.set_completed_dependent_value_ids.
    unfold mbind at 1, op_bind at 1, lift_error at 1.
    destruct (write_and_list (writes a 0) (Update.complete_values ids) ids m w row Hrow) as [e He].
    rewrite He. clear He. cbn in Hmd |- *. fold (known (dependent_values_metadata (data m)) ids).
    destruct (writes a 0) as [|e'|]; cbn; [|by eexists; rewrite app_nil_r..].
    destruct (known _ ids); cbn; [|by eexists; rewrite app_nil_r].
    unfold mbind, op_bind.
    set (cids := Inner.components_of _). set (m' := with_data m _). set (w' := set_row _ _ _).
    destruct (record_updates_spec a cids m' w') as (l & Hl & Hr).
    destruct (Inner.record_updates a cids m' w') as [r s']. cbn in Hl, Hr. subst s' r.
    destruct (forallb (records a) cids); cbn; [|by eexists; rewrite app_nil_r].
    unfold Inner.publish_immediately. destruct (publishes a) as [[]|]; cbn; by eexists; rewrite ?app_nil_r.
Qed.

Lemma announcements_cons pk md c cs : announcements pk md (c :: cs) = announcements pk md [c] ++ announcements pk md cs.
Proof using Type. unfold announcements. cbn. by rewrite app_nil_r. Qed.

Lemma calls_spec cs : ∀ m w row, rows w !! pk m = Some row → ∃ w',
  calls cs (Some m, w) = (Some (with_data m (foldl applied (data m) cs.*2)), w') ∧
  rows w' !! pk m = Some {| row_data := row_after (data m) (row_data row) cs; row_finished := row_finished row |} ∧
  messages w' = messages w ++ announcements (pk m) (dependent_values_metadata (data m)) cs.
Proof using Type.
  induction cs as [|[a c] cs IH]; intros m w row Hrow.
  { exists w. rewrite Hrow. destruct m, row. cbn. by rewrite app_nil_r. }
  destruct (call_spec a c m w row Hrow) as (w1 & Hcall & Hr1 & Hm1).
  assert (dependent_values_metadata (applied (data m) c) = dependent_values_metadata (data m)) as Hmd by by destruct c.
  destruct (IH (with_data m (applied (data m) c)) w1
    {| row_data := if lands a then applied (data m) c else row_data row; row_finished := row_finished row |})
    as (w2 & Hcalls & Hr2 & Hm2).
  { cbn. rewrite Hr1. destruct (lands a); [by rewrite lookup_insert_eq|]. by destruct row. }
  exists w2. cbn [calls foldl]. unfold calls in Hcalls. rewrite Hcall. split; [exact Hcalls|]. split; [exact Hr2|].
  rewrite Hm2, Hm1, (announcements_cons _ _ (a, c) cs), <-(assoc_L (++)). cbn [with_data pk data]. by rewrite Hmd.
Qed.

(** ** The start and the end *)

Lemma value_metadata_dom q ids : ∀ m md, value_metadata q m ids = Ok md →
  dom md = dom m ∪ list_to_set ids.
Proof using Type.
  induction ids as [|id ids IH]; intros m md; cbn [value_metadata].
  - intros [= <-]. set_solver.
  - intros (v & _ & (v' & _ & (k & _ & Hmd)%result_bind_ok)%result_bind_ok)%result_bind_ok.
    apply IH in Hmd. set_solver.
Qed.

(** Queueing sets the metadata, and at most adds to the queue. *)
Lemma queued_spec a q ids m w row md : value_metadata q ∅ ids = Ok md → rows w !! pk m = Some row →
  ∃ d w' row', values_queued a q ids (Some m, w) = (Some (with_data m d), w') ∧
    rows w' !! pk m = Some row' ∧ row_finished row' = row_finished row ∧
    dependent_values_metadata d = md ∧
    queued_dependent_value_ids d ⊆ queued_dependent_value_ids (data m) ∪ dom md ∧
    running_dependent_value_ids d = running_dependent_value_ids (data m) ∧
    completed_dependent_value_ids d = completed_dependent_value_ids (data m).
Proof using Type.
  intros Hmd Hrow. unfold values_queued, with_inner, Inner.values_queued. rewrite Hmd.
  unfold mbind at 1, op_bind at 1, from_result. unfold mbind at 1, op_bind at 1, lift_error at 1.
  unfold Update.set_dependent_values_metadata. unfold mbind at 1, op_bind at 1, set_data at 1.
  unfold Update.persist_data_to_db, write_row. cbn [pk]. rewrite Hrow.
  set (d := Build_StatusUpdateData md _ _ _).
  destruct (writes a 0) as [|e|]; [|by eexists d, _, _; split_and!; eauto; set_solver|].
  2: { eexists d, _, _. split_and!; [done|apply lookup_insert_eq|done..|set_solver|done|done]. }
  unfold mbind at 1, op_bind at 1, get_data. unfold mbind at 1, op_bind at 1, lift_error at 1. cbn [data].
  unfold Update.set_queued_dependent_value_ids.
  set (vs := iterate_set (dom (dependent_values_metadata d))).
  set (row1 := {| row_data := _; row_finished := row_finished row |}).
  destruct (write_and_list (writes a 1) (Update.queue_values vs) vs (with_data m d) (set_row (pk m) row1 w) row1)
    as [e He]; [apply lookup_insert_eq|].
  set (d2 := Update.queue_values vs d) in *.
  assert (queued_dependent_value_ids d2 ⊆ queued_dependent_value_ids (data m) ∪ dom md) as Hq.
  { cbn. intros v. rewrite !elem_of_union, elem_of_list_to_set. subst vs. rewrite iterate_set_all, elem_of_elements. done. }
  setoid_rewrite He. clear He.
  change (data (with_data m d)) with d. fold d2. cbn [row_finished row1].
  assert (∀ w', rows w' !! pk m = Some row1 ∨
      rows w' !! pk m = Some {| row_data := d2; row_finished := row_finished row |} →
    ∃ d' w'' row', (Some (with_data (with_data m d) d2), w') = (Some (with_data m d'), w'') ∧
      rows w'' !! pk m = Some row' ∧ row_finished row' = row_finished row ∧
      dependent_values_metadata d' = md ∧
      queued_dependent_value_ids d' ⊆ queued_dependent_value_ids (data m) ∪ dom md ∧
      running_dependent_value_ids d' = running_dependent_value_ids (data m) ∧
      completed_dependent_value_ids d' = completed_dependent_value_ids (data m)) as Hend.
  { intros w' Hw. exists d2, w'. destruct Hw as [Hw|Hw]; eexists; by split_and!. }
  destruct (writes a 1) as [|e1|]; [|apply Hend; left; apply lookup_insert_eq|apply Hend; right; apply lookup_insert_eq].
  destruct (known _ vs); [|apply Hend; right; apply lookup_insert_eq].
  unfold Inner.publish_immediately. destruct (publishes a); apply Hend; right; apply lookup_insert_eq.
Qed.

Definition marked (a : Answers) : bool := match marks a with Refused _ => false | _ => true end.

Definition end_message (pk : Id) : StatusMessage := {| message_pk := pk; status := StatusFinished; values := [] |}.

Lemma finish_announces a m w row : rows w !! pk m = Some row →
  let w' := snd (finish a (Some m, w)) in
  row_finished <$> rows w' !! pk m = Some (marked a || row_finished row) ∧
  messages w' = messages w ++
    match marks a, publishes a, Inner.unprocessed (data m) with
    | Done, Ok _, None => [end_message (pk m)]
    | _, _, _ => []
    end.
Proof using Type.
  intros Hrow. unfold marked, finish, with_inner, Inner.finish.
  unfold mbind at 1, op_bind at 1, lift_error, Update.finish. unfold mbind, op_bind, write_row. rewrite Hrow.
  destruct (marks a) as [|e|]; cbn.
  - unfold set_finished, get_data. cbn [data pk]. destruct (Inner.unprocessed (data m)) as [l|]; cbn.
    + rewrite lookup_insert_eq. split; [done|]. destruct (publishes a); by rewrite app_nil_r.
    + unfold Inner.publish_immediately. destruct (publishes a); cbn; by rewrite lookup_insert_eq, ?app_nil_r.
  - by rewrite Hrow, app_nil_r.
  - by rewrite lookup_insert_eq, app_nil_r.
Qed.

Lemma calls_of_none cs w : calls cs (None, w) = (None, w).
Proof using Type. induction cs as [|[a c] cs IH]; [done|]. by destruct c. Qed.

(** The values whose metadata was found: all of them, or none. *)
Definition found (q : Lookups) (ids : list Id) : list Id :=
  match value_metadata q ∅ ids with Ok _ => ids | Err _ => [] end.

(** Queueing makes exactly the values that were found known. *)
Lemma queued_known a q ids m w row : data m = Update.new_data → rows w !! pk m = Some row →
  ∃ d w' row', values_queued a q ids (Some m, w) = (Some (with_data m d), w') ∧
    rows w' !! pk m = Some row' ∧ row_finished row' = row_finished row ∧
    dom (dependent_values_metadata d) = list_to_set (found q ids) ∧
    queued_dependent_value_ids d ⊆ dom (dependent_values_metadata d) ∧
    running_dependent_value_ids d = ∅ ∧ completed_dependent_value_ids d = ∅.
Proof using Type.
  intros Hnew Hrow. unfold found. destruct (value_metadata q ∅ ids) as [md|e] eqn:Hmd.
  - destruct (queued_spec a q ids m w row md Hmd Hrow) as (d & w' & row' & Heq & Hr' & Hf & Hd & Hq & Hr & Hc).
    rewrite Hnew in Hq, Hr, Hc. apply value_metadata_dom in Hmd. subst md.
    exists d, w', row'. split_and!; [done..|set_solver|set_solver|done|done].
  - exists Update.new_data, w, row. split_and!; [|done|done|apply dom_empty_L|set_solver|done|done].
    unfold values_queued, with_inner, Inner.values_queued. unfold mbind at 1, op_bind at 1, from_result. rewrite Hmd.
    destruct m. cbn in Hnew. by subst.
Qed.

(** All work is done: every value that was found was last said to be completed, and
    no other value was spoken of. *)
Definition all_done (known : list Id) (cs : list Call) : Prop :=
  Forall (λ v, last_said v cs = Some Completed) known ∧ Forall (λ c, Forall (λ v, v ∈ known) (ids_of c)) cs.

#[global] Instance all_done_dec known cs : Decision (all_done known cs) := _.

Lemma all_done_unprocessed d cs known : dom (dependent_values_metadata d) = list_to_set known →
  queued_dependent_value_ids d ⊆ dom (dependent_values_metadata d) →
  running_dependent_value_ids d = ∅ → completed_dependent_value_ids d = ∅ →
  Inner.unprocessed (foldl applied d cs) = None ↔ all_done known cs.
Proof using Type.
  intros Hdom Hq Hr Hc. rewrite unprocessed_none, Hdom by done. unfold all_done. rewrite !Forall_forall.
  setoid_rewrite elem_of_list_to_set. setoid_rewrite said_iff. setoid_rewrite Exists_exists.
  setoid_rewrite Forall_forall. naive_solver.
Qed.

(** C34: What is tracked while a job works, whatever the database and the broker
    answer: the object in memory has every call; for each value it says what was last
    said of it; the row in the database is the data after the last call whose
    statement was not refused; and the messages to the frontend are those of the calls
    that came to their end, with the values of each in its order. *)
Theorem status_is_tracked m w row (cs : list (Answers * Call)) : rows w !! pk m = Some row → ∃ m' w',
  calls cs (Some m, w) = (Some m', w') ∧ pk m' = pk m ∧ tracks (data m) (data m') cs.*2 ∧
  rows w' !! pk m = Some {| row_data := row_after (data m) (row_data row) cs; row_finished := row_finished row |} ∧
  messages w' = messages w ++ announcements (pk m) (dependent_values_metadata (data m)) cs.
Proof using Type.
  intros Hrow. destruct (calls_spec cs m w row Hrow) as (w' & Hc & Hr & Hm).
  eexists _, w'. split_and!; [exact Hc|done|apply calls_tracked|done|done].
Qed.

(** C28: When the end of a status update is announced, whatever the queries for the
    values, the database and the broker answer on the way. It is announced exactly if
    its start could be announced, its row could be marked as finished, the broker takes
    the message, and all work is done: every value whose metadata was found was last
    said to be completed, and no other value was spoken of. So after a query for the
    metadata of one value failed, the end is announced only if nothing was done at all.
    The row is marked as finished in either case, unless the start could not be
    announced or the statement is refused. *)
Theorem finish_is_announced_iff_all_completed a0 aq af q ids key w (cs : list (Answers * Call)) :
  let s := calls cs (values_queued aq q ids (initialize a0 (Ok key) w)) in
  let w' := snd (finish af s) in
  row_finished <$> rows w' !! key = Some (is_ok (publishes a0) && marked af) ∧
  messages w' = messages (snd s) ++
    match publishes a0, marks af, publishes af with
    | Ok _, Done, Ok _ => if decide (all_done (found q ids) cs.*2) then [end_message key] else []
    | _, _, _ => []
    end.
Proof using Type.
  unfold initialize, Inner.initialize, Update.new, Inner.publish_immediately. destruct (publishes a0) as [[]|e].
  2: { cbn zeta. change (values_queued aq q ids (None, ?w0)) with (None : option StatusUpdate, w0). rewrite calls_of_none. cbn. by rewrite lookup_insert_eq, app_nil_r. }
  set (m0 := {| pk := key; finished := false; data := Update.new_data |}).
  match goal with |- context [values_queued aq q ids (Some m0, ?w0)] => set (w0' := w0) end.
  destruct (queued_known aq q ids m0 w0' {| row_data := Update.new_data; row_finished := false |})
    as (d & w1 & row1 & -> & Hrow1 & Hf & Hd & Hq & Hr & Hc); [done|apply lookup_insert_eq|].
  destruct (calls_spec cs (with_data m0 d) w1 row1 Hrow1) as (w2 & -> & Hrow2 & _). cbn zeta.
  change (data (with_data m0 d)) with d.
  set (m2 := with_data (with_data m0 d) (foldl applied d cs.*2)).
  destruct (finish_announces af m2 w2 _ Hrow2) as [Hfin Hmsg]. change (pk m2) with key in Hfin. rewrite Hfin, Hmsg. clear Hfin Hmsg.
  cbn [snd is_ok andb row_finished pk m2 with_data m0 data].
  rewrite Hf, orb_false_r. split; [done|]. f_equal. pose proof (all_done_unprocessed d cs.*2 _ Hd Hq Hr Hc).
  destruct (marks af), (publishes af), (Inner.unprocessed (foldl applied d cs.*2)); try done; case_decide; naive_solver.
Qed.

End theorems.

(** ** The kinds *)

(** A prop is another one, or at most [n] levels below it. *)
Fixpoint within (q : Lookups) (n : nat) (code_item p : Id) : Prop :=
  p = code_item ∨
  match n with
  | O => False
  | S n => ∃ parent, parent_prop q p = Ok (Some parent) ∧ within q n code_item parent
  end.

Lemma metadata_ok {A} (r : result MetadataError A) a : metadata r = Ok a ↔ r = Ok a.
Proof. destruct r; cbn; naive_solver. Qed.

Lemma ok_or_ok {E A} (o : option A) (e : E) a : ok_or o e = Ok a ↔ o = Some a.
Proof. destruct o; cbn; naive_solver. Qed.

(** A value of a prop; [P] is said of the item of code generation and the prop. *)
Definition of_prop (q : Lookups) (c : AttributeContext) (id : Id) (P : Id → Id → Prop) : Prop :=
  ∃ k v code_item p, least_specific_field_kind c = Ok (Prop_ id) ∧
    component q (component_id c) = Ok (Some k) ∧ schema_variant q k = Ok (Some v) ∧
    code_item_prop q v = Ok code_item ∧ prop q id = Ok (Some p) ∧ P code_item p.

(** What a kind says of a value. *)
Definition kind_spec (q : Lookups) (c : AttributeContext) (k : AttributeValueKind) : Prop :=
  match k with
  | OutputSocket s => ∃ id p ss, least_specific_field_kind c = Ok (ExternalProvider id) ∧
      external_provider q id = Ok (Some p) ∧ external_provider_sockets q p = Ok ss ∧ last ss = Some s
  | InputSocket s => ∃ id p ss, least_specific_field_kind c = Ok (InternalProvider id) ∧
      internal_provider q id = Ok (Some (p, NONE)) ∧ internal_provider_sockets q p = Ok ss ∧ last ss = Some s
  | Internal => ∃ id p pr, least_specific_field_kind c = Ok (InternalProvider id) ∧
      internal_provider q id = Ok (Some (p, pr)) ∧ pr ≠ NONE
  | CodeGen => ∃ id, of_prop q c id (within q 2)
  | Attribute id => of_prop q c id (λ code_item p, ¬ within q 2 code_item p)
  | Qualification => False
  end.

Lemma output_socket_spec q c k id : least_specific_field_kind c = Ok (ExternalProvider id) →
  external_provider_id c = id → output_socket_kind q c = Ok k → kind_spec q c k.
Proof.
  unfold output_socket_kind. intros Hk Hid Ho. rewrite Hid in Ho.
  apply result_bind_ok in Ho as (p & Hp%metadata_ok & Ho). apply result_bind_ok in Ho as (p' & Hp' & Ho).
  apply metadata_ok, ok_or_ok in Hp' as ->. apply result_bind_ok in Ho as (ss & Hs%metadata_ok & Ho).
  apply result_bind_ok in Ho as (s & Hl%ok_or_ok & [= <-]). cbn. eauto 10.
Qed.

Lemma input_socket_spec q c k id : least_specific_field_kind c = Ok (InternalProvider id) →
  internal_provider_id c = id → input_socket_kind q c = Ok k → kind_spec q c k.
Proof.
  unfold input_socket_kind. intros Hk Hid Ho. rewrite Hid in Ho.
  apply result_bind_ok in Ho as (p & Hp%metadata_ok & Ho). apply result_bind_ok in Ho as ([p' pr] & Hp' & Ho).
  apply metadata_ok, ok_or_ok in Hp' as ->. cbn in Ho. unfold is_unset in Ho. case_bool_decide as Hpr.
  - subst pr. apply result_bind_ok in Ho as (ss & Hs%metadata_ok & Ho).
    apply result_bind_ok in Ho as (s & Hl%ok_or_ok & [= <-]). cbn. eauto 10.
  - injection Ho as <-. cbn. eauto 10.
Qed.

Lemma prop_spec q c k id : least_specific_field_kind c = Ok (Prop_ id) →
  prop_id c = id → prop_kind q c = Ok k → kind_spec q c k.
Proof.
  unfold prop_kind. intros Hk Hid Ho. rewrite Hid in Ho.
  apply result_bind_ok in Ho as (o & Hcomp%metadata_ok & Ho). apply result_bind_ok in Ho as (comp & ->%ok_or_ok & Ho).
  apply result_bind_ok in Ho as (o & Hv%metadata_ok & Ho). apply result_bind_ok in Ho as (v & ->%ok_or_ok & Ho).
  apply result_bind_ok in Ho as (code & Hcode%metadata_ok & Ho).
  apply result_bind_ok in Ho as (o & Hp%metadata_ok & Ho). apply result_bind_ok in Ho as (p & Hp' & Ho).
  apply metadata_ok, ok_or_ok in Hp' as ->.
  assert (within q 2 code p → kind_spec q c CodeGen) as Hin.
  { intros Hw. exists id, comp, v, code, p. by split_and!. }
  assert (¬ within q 2 code p → kind_spec q c (Attribute id)) as Hout.
  { intros Hw. exists comp, v, code, p. by split_and!. }
  case_decide as Heq; [injection Ho as <-; apply Hin; by left|].
  apply result_bind_ok in Ho as ([parent|] & Hpar%metadata_ok & Ho).
  2: { injection Ho as <-. apply Hout. intros [?|(x & Hx & _)]; congruence. }
  case_decide as Heq1; [injection Ho as <-; apply Hin; right; exists parent; split; [done|by left]|].
  apply result_bind_ok in Ho as ([grand|] & Hg%metadata_ok & Ho); [case_decide as Heq2|]; injection Ho as <-.
  - apply Hin. right. exists parent. split; [done|]. right. exists grand. split; [done|by left].
  - apply Hout. intros [?|(x & Hx & [?|(y & Hy & [?|[]])])]; congruence.
  - apply Hout. intros [?|(x & Hx & [?|(y & Hy & [?|[]])])]; congruence.
Qed.

Lemma not_malformed_bind {A B} (r : result StatusUpdaterError A) (f : A → result StatusUpdaterError B) id :
  r ≠ Err (MalformedAttributeValue id) → (∀ a, f a ≠ Err (MalformedAttributeValue id)) →
  (r ≫= f) ≠ Err (MalformedAttributeValue id).
Proof. destruct r; cbn; [auto|intros He _ [= ->]; by apply He]. Qed.

Lemma not_malformed_metadata {A} (r : result MetadataError A) id : metadata r ≠ Err (MalformedAttributeValue id).
Proof. by destruct r. Qed.

Lemma not_malformed_generic {A} (o : option A) e id : ok_or o (GenericError e) ≠ Err (MalformedAttributeValue id).
Proof. by destruct o. Qed.

Ltac not_malformed := repeat first
  [apply not_malformed_metadata | apply not_malformed_generic | apply not_malformed_bind | discriminate
  | match goal with |- ∀ _, _ ≠ _ => intro end | case_match].

(** The kind is found by the field that is set. *)
Lemma kind_by_field q v : well_formed (context v) → is_unset (component_id (context v)) = false →
  let c := context v in ∃ k, least_specific_field_kind c = Ok k ∧
  match k with
  | Prop_ id => prop_id c = id ∧ kind_of_value q v = prop_kind q c
  | InternalProvider id => internal_provider_id c = id ∧ kind_of_value q v = input_socket_kind q c
  | ExternalProvider id => external_provider_id c = id ∧ kind_of_value q v = output_socket_kind q c
  end.
Proof.
  intros Hc%well_formed_shape Hk. unfold kind_of_value. rewrite Hk.
  unfold is_least_specific_field_kind_external_provider, is_least_specific_field_kind_internal_provider.
  destruct v as [vid c]. cbn [context] in *. clear Hk.
  destruct Hc as [id k Hid|id k Hid|id k Hid]; cbn zeta;
    unfold least_specific_field_kind, is_prop_unset, is_internal_provider_unset, is_external_provider_unset, is_unset;
    cbn [prop_id internal_provider_id external_provider_id]; rewrite (bool_decide_false (id = NONE)) by done;
    eexists; (split; [reflexivity|]); done.
Qed.

(** The kind of a value is found for every well formed context of a component,
    or a query fails; a value is never malformed. A value of an external provider is
    the output socket, a value of an internal provider without a prop the input
    socket, each the last one of its provider; a value of a prop is generated code if
    its prop is the item of code generation or at most two levels below it, and an
    attribute otherwise. No value is a qualification. *)
Theorem kinds_of_values q v : well_formed (context v) → is_unset (component_id (context v)) = false →
  (∀ id, kind_of_value q v ≠ Err (MalformedAttributeValue id)) ∧
  ∀ k, kind_of_value q v = Ok k → kind_spec q (context v) k.
Proof.
  intros Hc Hk. destruct (kind_by_field q v Hc Hk) as (f & Hf & Hkind).
  destruct f as [id|id|id]; destruct Hkind as [Hid ->].
  - split; [unfold output_socket_kind; not_malformed|]. intros k. by apply output_socket_spec with id.
  - split; [unfold input_socket_kind; not_malformed|]. intros k. by apply input_socket_spec with id.
  - split; [unfold prop_kind; not_malformed|]. intros k. by apply prop_spec with id.
Qed.

(** ** Witnesses *)

#[local] Instance sample_order : HashSetOrder := {| iterate_set := elements; iterate_set_all s := reflexivity _ |}.

(** Values 1 and 2 of the prop 7 of component 5; the prop is below the item 8 of code
    generation. Value 3 is of an external provider. *)
Definition sample_context (n : Id) : AttributeContext :=
  if bool_decide (n = 3%N)
  then {| prop_id := NONE; internal_provider_id := NONE; external_provider_id := 4; component_id := 5 |}
  else {| prop_id := 7; internal_provider_id := NONE; external_provider_id := NONE; component_id := 5 |}.

Definition sample_lookups : Lookups := {|
  attribute_value n := Ok (Some {| attribute_value_id := n; context := sample_context n |});
  external_provider n := Ok (Some n); external_provider_sockets _ := Ok [10%N; 11%N];
  internal_provider n := Ok None; internal_provider_sockets _ := Ok [];
  component n := Ok (Some n); schema_variant n := Ok (Some 6%N); code_item_prop _ := Ok 8%N;
  prop n := Ok (Some n); parent_prop n := Ok (if bool_decide (n = 7%N) then Some 8%N else None) |}.

Definition all_well : Answers :=
  {| writes := λ _, Done; marks := Done; publishes := Ok tt; records := λ _, true |}.
Definition refusing : Answers :=
  {| writes := λ _, Refused Pg; marks := Done; publishes := Ok tt; records := λ _, true |}.

Definition sample_world : World := {| rows := ∅; messages := []; recorded := [] |}.

Definition sample_calls : list (Answers * Call) :=
  [(all_well, CallRunning [1%N]); (refusing, CallCompleted [1%N]); (all_well, CallRunning [3%N]);
   (all_well, CallCompleted [3%N])].

Definition sample_metadata : gmap Id AttributeValueMetadata :=
  <[3%N := {| value_id := 3; metadata_component_id := 5; value_kind := OutputSocket 11 |}]>
  (<[1%N := {| value_id := 1; metadata_component_id := 5; value_kind := CodeGen |}]> ∅).

(** The end is announced, although a statement was refused; but not after the
    metadata of another value was not found. *)
Lemma end_after_refused_statement :
  let s l := calls sample_calls (values_queued all_well sample_lookups l (initialize all_well (Ok 9%N) sample_world)) in
  messages (snd (finish all_well (s [1%N; 3%N]))) = messages (snd (s [1%N; 3%N])) ++ [end_message 9%N].
Proof. reflexivity. Qed.

Lemma no_end_without_metadata :
  let q := {| attribute_value n := if bool_decide (n = 2%N) then Ok None else attribute_value sample_lookups n;
              external_provider := external_provider sample_lookups;
              external_provider_sockets := external_provider_sockets sample_lookups;
              internal_provider := internal_provider sample_lookups;
              internal_provider_sockets := internal_provider_sockets sample_lookups;
              component := component sample_lookups; schema_variant := schema_variant sample_lookups;
              code_item_prop := code_item_prop sample_lookups; prop := prop sample_lookups;
              parent_prop := parent_prop sample_lookups |} in
  let s := calls [(all_well, CallCompleted [1%N; 2%N; 3%N])]
    (values_queued all_well q [1%N; 2%N; 3%N] (initialize all_well (Ok 9%N) sample_world)) in
  messages (snd (finish all_well s)) = messages (snd s).
Proof. reflexivity. Qed.

(** The refused statement is made up for by the next one; its message is not. *)
Lemma status_is_tracked_witness :
  let m := {| pk := 9; finished := false; data := {| dependent_values_metadata := sample_metadata;
                queued_dependent_value_ids := {[1%N; 3%N]}; running_dependent_value_ids := ∅;
                completed_dependent_value_ids := ∅ |} |} in
  let w := set_row 9 {| row_data := Update.new_data; row_finished := false |} sample_world in
  (∃ m' w', calls sample_calls (Some m, w) = (Some m', w') ∧ pk m' = pk m ∧
    tracks (data m) (data m') sample_calls.*2 ∧
    rows w' !! pk m = Some {| row_data := row_after (data m) Update.new_data sample_calls; row_finished := false |} ∧
    messages w' = messages w ++ announcements (pk m) (dependent_values_metadata (data m)) sample_calls) ∧
  length (announcements (pk m) (dependent_values_metadata (data m)) sample_calls) = 3.
Proof.
  intros m w. split; [|reflexivity].
  apply (status_is_tracked m w {| row_data := Update.new_data; row_finished := false |} sample_calls). reflexivity.
Defined.

Lemma kinds_of_values_witness :
  (∀ id, kind_of_value sample_lookups {| attribute_value_id := 1; context := sample_context 1 |} ≠
    Err (MalformedAttributeValue id)) ∧
  (∀ k, kind_of_value sample_lookups {| attribute_value_id := 1; context := sample_context 1 |} = Ok k →
    kind_spec sample_lookups (sample_context 1) k) ∧
  kind_of_value sample_lookups {| attribute_value_id := 1; context := sample_context 1 |} = Ok CodeGen.
Proof.
  destruct (kinds_of_values sample_lookups {| attribute_value_id := 1; context := sample_context 1 |}) as [H1 H2];
    [reflexivity..|]. split_and!; [exact H1|exact H2|reflexivity].
Defined.

(** A second call to queue values forgets the first: its values are completed, but
    the end is refused, and no value is named. *)
Lemma queueing_twice_never_ends :
  let s := calls [(all_well, CallCompleted [1%N]); (all_well, CallCompleted [3%N])]
    (values_queued all_well sample_lookups [3%N]
      (values_queued all_well sample_lookups [1%N] (initialize all_well (Ok 9%N) sample_world))) in
  (m ← fst s; Some (fst (Inner.finish all_well m (snd s)))) = Some (Err (UnprocessedValuesRemaining [])).
Proof. reflexivity. Qed.
