(* ===== verification/IndexMap.v ===== *)
(** * Index maps

    Model of [src/lib/dal/src/index_map.rs]: the order and the keys of the
    attribute values below an array or a map. *)

From S2P Require Import Prelude.
From Stdlib Require Import NArith.
From stdpp Require Import base tactics list gmap strings pretty.

Abbreviation Id := N (only parsing).

Record IndexMap := {
  order : list Id;
  key_map : gmap Id string;
}.

Definition new : IndexMap := {| order := []; key_map := ∅ |}.

(** [retain] with a set that tells whether an entry is new. *)
Fixpoint retain_new (order_set : gset Id) (l : list Id) : list Id :=
  match l with
  | [] => []
  | x :: l =>
      if decide (x ∈ order_set) then retain_new order_set l
      else x :: retain_new ({[x]} ∪ order_set) l
  end.

Definition push (m : IndexMap) (attribute_value_id : Id) (key : option string) : IndexMap :=
  let order := order m ++ [attribute_value_id] in
  let index := length order - 1 in
  {| order := retain_new ∅ order;
     key_map := <[attribute_value_id := match key with
                                        | Some key_string => key_string
                                        | None => pretty index
                                        end]> (key_map m) |}.

Definition order_entry (m : IndexMap) (attribute_value_id : Id) : option (string * Id) :=
  key ← key_map m !! attribute_value_id; Some (key, attribute_value_id).

(** [None] is the panic of an id without a key. *)
Definition order_as_map (m : IndexMap) : option (list (string * Id)) :=
  mapM (order_entry m) (order m).

(** ** Maps that are made by pushing *)

Definition pushed (ops : list (Id * option string)) : IndexMap :=
  foldl (λ m op, push m op.1 op.2) new ops.

Definition map_ok (m : IndexMap) : Prop :=
  NoDup (order m) ∧ ∀ i, i ∈ order m ↔ is_Some (key_map m !! i).

Lemma elem_of_retain_new l : ∀ s i, i ∈ retain_new s l ↔ i ∈ l ∧ i ∉ s.
Proof.
  induction l as [|x l IH]; intros s i; simpl; [set_solver|].
  destruct (decide (i = x)) as [->|]; case_decide; rewrite ?elem_of_cons, IH; set_solver.
Qed.

Lemma retain_new_NoDup l : ∀ s, NoDup (retain_new s l).
Proof.
  induction l as [|x l IH]; intros s; simpl; [constructor|]. case_decide; [done|].
  constructor; [|done]. rewrite elem_of_retain_new. set_solver.
Qed.

Lemma retain_new_id l : ∀ s, NoDup l → (∀ i, i ∈ l → i ∉ s) → retain_new s l = l.
Proof.
  induction l as [|x l IH]; intros s Hl Hs; simpl; [done|]. apply NoDup_cons in Hl as [Hx Hl].
  rewrite decide_False by (apply Hs; by left). rewrite IH; [done|done|set_solver].
Qed.

(** Only the first occurrence of an id counts. *)
Lemma retain_new_snoc l x : ∀ s, NoDup l → (∀ i, i ∈ l → i ∉ s) → x ∉ s →
  retain_new s (l ++ [x]) = if decide (x ∈ l) then l else l ++ [x].
Proof.
  induction l as [|y l IH]; intros s Hl Hs Hx; simpl.
  - by rewrite decide_False.
  - apply NoDup_cons in Hl as [Hy Hl]. rewrite decide_False by (apply Hs; by left).
    destruct (decide (x = y)) as [->|Hne].
    + rewrite (decide_True (P := y ∈ y :: l)) by by left. f_equal. clear IH Hx.
      assert (∀ s : gset N, y ∈ s → NoDup l → (∀ i, i ∈ l → i ∉ s) → retain_new s (l ++ [y]) = l)
        as Hin.
      { clear. induction l as [|z l IH]; intros s Hy Hl Hs; simpl; [by rewrite decide_True|].
        apply NoDup_cons in Hl as [Hz Hl]. rewrite decide_False by (apply Hs; by left).
        rewrite IH; [done|set_solver..]. }
      apply Hin; set_solver.
    + rewrite IH; [|done|set_solver..]. repeat case_decide; set_solver.
Qed.

Lemma push_order m i k : map_ok m →
  order (push m i k) = if decide (i ∈ order m) then order m else order m ++ [i].
Proof. intros [Hn _]. simpl. by rewrite retain_new_snoc. Qed.

Lemma push_ok m i k : map_ok m → map_ok (push m i k).
Proof.
  intros Hm. split; [apply retain_new_NoDup|]. intros j. rewrite push_order by done. cbn.
  destruct Hm as [_ Hm]. rewrite lookup_insert_is_Some', <-Hm. case_decide; set_solver.
Qed.

Lemma pushed_ok ops : map_ok (pushed ops).
Proof.
  unfold pushed. assert (map_ok new) as Hm.
  { split; cbn; [apply NoDup_nil_2|]. intros i. rewrite lookup_empty.
    split; [by intros ?%not_elem_of_nil|by intros []]. }
  revert Hm. generalize new as m. induction ops as [|op ops IH]; intros m Hm; [done|].
  apply IH. by apply push_ok.
Qed.

(** An index map keeps the ids in the order in which they were first pushed, each
    once, and listing it with the keys never fails: the key of an id is the one
    it was pushed with last. *)
Theorem pushed_lists_ids_once ops i k :
  order (pushed (ops ++ [(i, Some k)])) =
    (if decide (i ∈ order (pushed ops)) then order (pushed ops) else order (pushed ops) ++ [i]) ∧
  ∃ entries, order_as_map (pushed (ops ++ [(i, Some k)])) = Some entries ∧
    entries.*2 = order (pushed (ops ++ [(i, Some k)])) ∧ (k, i) ∈ entries.
Proof.
  pose proof (pushed_ok (ops ++ [(i, Some k)])) as [_ Hkeys].
  assert (key_map (pushed (ops ++ [(i, Some k)])) !! i = Some k) as Hi.
  { unfold pushed. rewrite foldl_app. simpl. by rewrite lookup_insert_eq. }
  split.
  { unfold pushed at 1. rewrite foldl_app. simpl foldl. apply push_order, pushed_ok. }
  set (m := pushed _) in *. clearbody m.
  assert (∀ l, (∀ j, j ∈ l → j ∈ order m) → ∃ entries, mapM (order_entry m) l = Some entries ∧
    entries.*2 = l ∧ (i ∈ l → (k, i) ∈ entries)) as Hall.
  { induction l as [|j l IH]; intros Hl.
    { exists []. split; [done|]. split; [done|]. by intros ?%not_elem_of_nil. }
    destruct IH as (es & Hes & Hids & Hin); [set_solver|].
    destruct (Hkeys j) as [[key Hj] _]; [apply Hl; by left|].
    assert (order_entry m j = Some (key, j)) as Hentry by (unfold order_entry; by rewrite Hj).
    exists ((key, j) :: es). cbn. rewrite Hentry, Hes. cbn.
    split; [done|]. split; [by rewrite Hids|]. intros [<-|?]%elem_of_cons; [|right; auto].
    rewrite Hj in Hi. simplify_eq. by left. }
  destruct (Hall (order m)) as (es & Hes & Hids & Hin); [done|].
  exists es. split_and!; [done..|]. apply Hin, Hkeys. by eexists.
Qed.

(** The documentation of [push] says that the key of an id that is pushed without
    one is its index in the final order. When the id is there already the key is
    the number of ids instead: the first of two values, pushed again, gets the
    key 2. *)
Theorem repushed_key_is_not_its_index :
  order_as_map (pushed [(1%N, None); (2%N, None); (1%N, None)]) =
    Some [("2", 1%N); ("1", 2%N)].
Proof. evaluate. Qed.
