(* ===== verification/AttributeView.v ===== *)
(** * Attribute views

    Model of [src/lib/dal/src/attribute/value/view.rs]: the rows of the attribute
    values below a root are put together to one JSON value, by a queue of rows, a
    stack of the values whose children come next, and a JSON pointer for every
    value that was placed. The JSON crate is the class [SerdeJson], the database
    the record [Database]. *)

From S2P Require Import Prelude AttributeContext IndexMap.
From Stdlib Require Import NArith.
From stdpp Require Import base tactics list gmap strings pretty.

(** ** The JSON crate *)

(** [serde_json::Value] with its variants; objects as maps, since the order of
    their keys makes no difference to the equality of values. [pointer_mut] gives
    the value a pointer leads to, and what becomes of the whole when another one
    is written in its place. *)
Class SerdeJson := {
  Value : Type;
  Null : Value;
  Object : gmap string Value → Value;
  Array : list Value → Value;
  as_object : Value → option (gmap string Value);
  as_array : Value → option (list Value);
  to_string : Value → string;
  pointer : Value → string → option Value;
  pointer_mut : Value → string → option (Value * (Value → Value));
}.

Module PropKind.
Inductive t : Set := Array | Boolean | Integer | Map | Object | String_.
End PropKind.

(** The columns of the tables that matter here. *)
Record Prop_ := {
  prop_pk : Id;
  prop_name : string;
  prop_kind : PropKind.t;
}.

Record AttributeValue := {
  id : Id;
  key : option string;
  index_map : option IndexMap;
  context : Context.AttributeContext;
}.

Record FuncBindingReturnValue `{SerdeJson} := { value : option Value }.

Record AttributeValuePayload `{SerdeJson} := {
  prop : Prop_;
  func_binding_return_value : option FuncBindingReturnValue;
  attribute_value : AttributeValue;
  parent_attribute_value_id : option Id;
}.

Section View.
Context `{J : SerdeJson} {E : Type}.

(** The errors of this module; [Database] are those of the queries. *)
Inductive AttributeValueError : Type :=
| BadJsonPointer (insertion_pointer properties : string)
| Missing
| NotFound (id : Id)
| NoValueForJsonPointer
| PropNotFound (prop_id : Id)
| DatabaseError (e : E).

(** The queries, by what they answer. *)
Record Database := {
  list_payload_for_read_context :
    Context.AttributeReadContext → result E (list AttributeValuePayload);
  list_payload_for_read_context_and_root :
    Id → Context.AttributeReadContext → result E (list AttributeValuePayload);
  get_by_id : Id → result E (option AttributeValue);
  parent_attribute_value : AttributeValue → result E (option AttributeValue);
  prop_get_by_id : Id → result E (option Prop_);
}.

Definition asked {A} (r : result E A) : result (fault AttributeValueError) A :=
  match r with Ok a => Ok a | Err e => Err (Fault (DatabaseError e)) end.

Record AttributeView := {
  view_value : Value;
  json_pointer_for_attribute_value_id : gmap Id string;
}.

(** ** The order of the rows *)

Definition attribute_value_order (initial_work : list AttributeValuePayload) : list Id :=
  initial_work ≫= λ avp, match index_map (attribute_value avp) with
                         | Some m => IndexMap.order m
                         | None => []
                         end.

(** The position of a row, 0 when no index map lists it. *)
Definition cached_key (ids : list Id) (avp : AttributeValuePayload) : nat :=
  match list_find (λ i, i = id (attribute_value avp)) ids with
  | Some (n, _) => n
  | None => 0
  end.

Definition work_queue (initial_work : list AttributeValuePayload) : list AttributeValuePayload :=
  let ids := attribute_value_order initial_work in
  stable_sort (λ a b, cached_key ids a <=? cached_key ids b) initial_work.

(** ** Placing a row *)

(** The local variables of the loops; the last root comes first. *)
Record state := {
  properties : Value;
  pointers : gmap Id string;
  root_stack : list (option Id * string);
}.

Definition found_value (avp : AttributeValuePayload) : option Value :=
  func_binding_return_value avp ≫= value.

Definition is_container (kind : PropKind.t) : bool :=
  match kind with
  | PropKind.Object | PropKind.Array | PropKind.Map => true
  | PropKind.Boolean | PropKind.Integer | PropKind.String_ => false
  end.

(** The key of an entry of a map, the name of the prop for anything else. *)
Definition token (avp : AttributeValuePayload) : string :=
  match key (attribute_value avp) with
  | Some key => key
  | None => prop_name (prop avp)
  end.

(** What is written at the location of the parent, and the pointer to the row. *)
Definition write (location : Value) (insertion_pointer : string) (avp : AttributeValuePayload)
    (found_value : Value) : Value * string :=
  match as_object location with
  | Some object =>
      (Object (<[token avp := found_value]> object),
       insertion_pointer +:+ "/" +:+ token avp)
  | None =>
      match as_array location with
      | Some array =>
          let array := array ++ [found_value] in
          (Array array, insertion_pointer +:+ "/" +:+ pretty (length array - 1))
      | None => (location, insertion_pointer)
      end
  end.

Definition place (json_pointer : string) (st : state) (avp : AttributeValuePayload)
    (found_value : Value) : result (fault AttributeValueError) state :=
  insertion_pointer ←
    match parent_attribute_value_id avp with
    | Some parent_avi => ok_or (pointers st !! parent_avi) Panic
    | None => Ok json_pointer
    end;
  '(write_location, put) ← ok_or (pointer_mut (properties st) insertion_pointer)
    (Fault (BadJsonPointer insertion_pointer (to_string (properties st))));
  let '(written, next_json_pointer) := write write_location insertion_pointer avp found_value in
  let i := id (attribute_value avp) in
  Ok {| properties := put written;
        pointers := <[i := next_json_pointer]> (pointers st);
        root_stack :=
          if is_container (prop_kind (prop avp)) then (Some i, next_json_pointer) :: root_stack st
          else root_stack st |}.

(** ** The loops *)

(** One pass over the queue: the rows below the root are placed, the others wait,
    those without a value are dropped. *)
Fixpoint pass (root_id : option Id) (json_pointer : string) (queue : list AttributeValuePayload)
    (st : state) (unprocessed : list AttributeValuePayload) :
    result (fault AttributeValueError) (state * list AttributeValuePayload) :=
  match queue with
  | [] => Ok (st, unprocessed)
  | avp :: queue =>
      match found_value avp with
      | None => pass root_id json_pointer queue st unprocessed
      | Some v =>
          if decide (root_id = parent_attribute_value_id avp) then
            st ← place json_pointer st avp v;
            pass root_id json_pointer queue st unprocessed
          else pass root_id json_pointer queue st (unprocessed ++ [avp])
      end
  end.

Definition with_stack (st : state) (stack : list (option Id * string)) : state :=
  {| properties := properties st; pointers := pointers st; root_stack := stack |}.

(** The outer loop; it is left with a warning when no root is left. *)
Fixpoint assemble (fuel : nat) (queue : list AttributeValuePayload) (st : state) :
    run (fault AttributeValueError) state :=
  match fuel with
  | 0 => None
  | S fuel =>
      match queue, root_stack st with
      | [], _ | _, [] => Some (Ok st)
      | _, (root_id, json_pointer) :: stack =>
          match pass root_id json_pointer queue (with_stack st stack) [] with
          | Err e => Some (Err e)
          | Ok (st, unprocessed) => assemble fuel unprocessed st
          end
      end
  end.

(** ** The view *)

Definition parent_of_root (db : Database) (root_attribute_value_id : option Id) :
    result (fault AttributeValueError) (option Id) :=
  match root_attribute_value_id with
  | None => Ok None
  | Some root =>
      found ← asked (get_by_id db root);
      root_attribute_value ← ok_or found (Fault Missing);
      parent ← asked (parent_attribute_value db root_attribute_value);
      Ok (option_map id parent)
  end.

Definition initial_state (maybe_parent_attribute_value_id : option Id) : state :=
  {| properties := Object ∅;
     pointers := match maybe_parent_attribute_value_id with
                 | Some parent => <[parent := ""]> ∅
                 | None => ∅
                 end;
     root_stack := [(maybe_parent_attribute_value_id, "")] |}.

(** What is left to do when the root was not placed: the queries for the message
    that is logged. *)
Definition unset_root (db : Database) (root : Id) : result (fault AttributeValueError) () :=
  found ← asked (get_by_id db root);
  root_attribute_value ← ok_or found (Fault (NotFound root));
  let prop_id := Context.prop_id (context root_attribute_value) in
  found ← asked (prop_get_by_id db prop_id);
  _ ← ok_or found (Fault (PropNotFound prop_id));
  Ok ().

Definition view_of (db : Database) (root_attribute_value_id : option Id) (st : state) :
    result (fault AttributeValueError) AttributeView :=
  match root_attribute_value_id with
  | None => Ok {| view_value := properties st; json_pointer_for_attribute_value_id := pointers st |}
  | Some root =>
      match pointers st !! root with
      | None =>
          _ ← unset_root db root;
          Ok {| view_value := Null; json_pointer_for_attribute_value_id := pointers st |}
      | Some root_json_pointer =>
          v ← ok_or (pointer (properties st) root_json_pointer) (Fault NoValueForJsonPointer);
          Ok {| view_value := v; json_pointer_for_attribute_value_id := pointers st |}
      end
  end.

(** Every turn of the outer loop takes a root off the stack, and puts one back for
    a row that leaves the queue, so two more turns than there are rows are
    enough. *)
Definition new (db : Database) (attribute_read_context : Context.AttributeReadContext)
    (root_attribute_value_id : option Id) : run (fault AttributeValueError) AttributeView :=
  match
    initial_work ← asked match root_attribute_value_id with
                         | Some root => list_payload_for_read_context_and_root db root
                                          attribute_read_context
                         | None => list_payload_for_read_context db attribute_read_context
                         end;
    parent ← parent_of_root db root_attribute_value_id;
    Ok (initial_work, parent)
  with
  | Err e => Some (Err e)
  | Ok (initial_work, parent) =>
      run_then (assemble (2 + length initial_work) (work_queue initial_work) (initial_state parent))
        (λ st, Some (view_of db root_attribute_value_id st))
  end.

(** ** Termination *)

Lemma length_work_queue w : length (work_queue w) = length w.
Proof. apply Permutation_length, stable_sort_perm. Qed.

(** A row that is placed leaves the queue for the stack at most. *)
Lemma place_length p st avp v st' : place p st avp v = Ok st' →
  length (root_stack st') ≤ S (length (root_stack st)).
Proof.
  unfold place. intros (ptr & _ & H)%result_bind_ok.
  apply result_bind_ok in H as ([loc put] & _ & H). destruct (write _ _ _ _) as [w next].
  simplify_eq/=. destruct (is_container _); cbn; lia.
Qed.

Lemma pass_length r p q : ∀ st u st' u',
  pass r p q st u = Ok (st', u') →
  length (root_stack st') + length u' ≤ length (root_stack st) + length u + length q.
Proof.
  induction q as [|avp q IH]; intros st u st' u' H; cbn in H; [simplify_eq; lia|].
  destruct (found_value avp) as [v|]; [|apply IH in H; simpl; lia].
  case_decide as Hd.
  - apply result_bind_ok in H as (st1 & H1%place_length & H%IH). simpl. lia.
  - apply IH in H. rewrite length_app in H. simpl in *. lia.
Qed.

Lemma assemble_terminates fuel : ∀ q st,
  length (root_stack st) + length q < fuel → ∃ r, assemble fuel q st = Some r.
Proof.
  induction fuel as [|fuel IH]; intros q st Hf; [lia|]. cbn.
  destruct q as [|avp q]; [eauto|]. destruct (root_stack st) as [|[r p] stack] eqn:Hst; [eauto|].
  destruct (pass _ _ _ _ _) as [[st1 u]|e] eqn:Hp; [|eauto].
  apply IH. apply pass_length in Hp. cbn in *. lia.
Qed.

(** ** No panics *)

(** The values on the stack have been placed. *)
Definition placed (st : state) (r : option Id) : Prop :=
  match r with Some i => is_Some (pointers st !! i) | None => True end.

Definition stack_placed (st : state) : Prop := Forall (λ e, placed st e.1) (root_stack st).

Lemma place_placed p st avp v st' : place p st avp v = Ok st' →
  (stack_placed st → stack_placed st') ∧ ∀ r, placed st r → placed st' r.
Proof.
  unfold place. intros (ptr & _ & H)%result_bind_ok.
  apply result_bind_ok in H as ([loc put] & _ & H). destruct (write _ _ _ _) as [w next].
  injection H as <-. assert (∀ r, placed st r → placed {| properties := put w;
    pointers := <[id (attribute_value avp) := next]> (pointers st); root_stack := [] |} r) as Hr.
  { intros [i|]; [|done]. cbn. rewrite lookup_insert_is_Some'. by right. }
  split; [|exact Hr]. intros Hst. unfold stack_placed. cbn.
  assert (Forall (λ e, placed {| properties := put w;
    pointers := <[id (attribute_value avp) := next]> (pointers st); root_stack := [] |} e.1)
    (root_stack st)) as Hold by (eapply Forall_impl; [exact Hst|]; intros e; apply Hr).
  destruct (is_container _); [|done]. constructor; [|done]. cbn. rewrite lookup_insert_eq. by eexists.
Qed.

Lemma pass_placed r p q : ∀ st u,
  stack_placed st → placed st r →
  match pass r p q st u with
  | Ok (st', _) => stack_placed st'
  | Err e => e ≠ Panic
  end.
Proof.
  induction q as [|avp q IH]; intros st u Hst Hr; cbn; [done|].
  destruct (found_value avp) as [v|]; [|by apply IH]. case_decide as Hd; [|by apply IH].
  destruct (place p st avp v) as [st1|e] eqn:Hp; cbn.
  - apply place_placed in Hp as [Hs Hp]. apply IH; auto.
  - unfold place in Hp. rewrite <-Hd in Hp. intros ->. destruct r as [i|].
    + destruct Hr as [ptr Hr]. rewrite Hr in Hp. cbn in Hp.
      destruct (pointer_mut _ _) as [[loc put]|]; [|done]. cbn in Hp. by destruct (write _ _ _ _).
    + cbn in Hp. destruct (pointer_mut _ _) as [[loc put]|]; [|done]. cbn in Hp.
      by destruct (write _ _ _ _).
Qed.

Lemma assemble_no_panic fuel : ∀ q st, stack_placed st → assemble fuel q st ≠ Some (Err Panic).
Proof.
  induction fuel as [|fuel IH]; intros q st Hst; [done|]. cbn.
  destruct q as [|avp q]; [done|]. destruct (root_stack st) as [|[r p] stack] eqn:Hs; [done|].
  unfold stack_placed in Hst. rewrite Hs in Hst. apply Forall_cons in Hst as [Hr Hst].
  pose proof (pass_placed r p (avp :: q) (with_stack st stack) [] Hst Hr) as Hp.
  destruct (pass _ _ _ _ _) as [[st1 u]|e]; [by apply IH|]. congruence.
Qed.

Lemma unset_root_no_panic db i : unset_root db i ≠ Err Panic.
Proof.
  unfold unset_root, asked. destruct (get_by_id db i) as [[av|]|]; cbn; [|done..].
  by destruct (prop_get_by_id db _) as [[pr|]|]; cbn.
Qed.

Lemma view_of_no_panic db r st : view_of db r st ≠ Err Panic.
Proof.
  unfold view_of. destruct r as [i|]; [|done]. destruct (pointers st !! i).
  - by destruct (pointer _ _).
  - pose proof (unset_root_no_panic db i). destruct (unset_root db i); cbn; congruence.
Qed.

Lemma initial_stack_placed parent : stack_placed (initial_state parent).
Proof.
  repeat constructor. destruct parent as [i|]; [|done]. cbn. rewrite lookup_insert_eq. by eexists.
Qed.

Lemma parent_of_root_no_panic db r : parent_of_root db r ≠ Err Panic.
Proof.
  unfold parent_of_root, asked. destruct r as [i|]; [|done].
  destruct (get_by_id db i) as [[av|]|]; cbn; [|done..]. by destruct (parent_attribute_value db av).
Qed.

#[local] Arguments assemble : simpl never.

(** A view is always built, whatever the database answers: the loops end, the
    code that is marked as unreachable is not reached, and the result is a value
    or an error. *)
Theorem view_always_ends (db : Database) ctx root :
  ∃ r, new db ctx root = Some r ∧ r ≠ Err Panic.
Proof.
  unfold new. set (work := match root with Some _ => _ | None => _ end).
  destruct work as [w|e]; cbn; [|by eexists].
  pose proof (parent_of_root_no_panic db root) as Hno.
  destruct (parent_of_root db root) as [parent|e]; cbn; [|eexists; split; [done|congruence]].
  destruct (assemble_terminates (S (S (length w))) (work_queue w) (initial_state parent)) as [r Hr].
  { rewrite length_work_queue. cbn. lia. }
  pose proof (assemble_no_panic (S (S (length w))) (work_queue w) _ (initial_stack_placed parent)) as Hp.
  rewrite Hr in *. unfold run_then. destruct r as [st|e].
  - eexists. split; [done|]. apply view_of_no_panic.
  - eexists. split; [done|]. congruence.
Qed.

End View.
