(* ===== verification/ViewJson.v ===== *)
(** * Places in a JSON value

    What the attribute view relies on of the JSON crate ([SerdeJsonOk]), and the
    places its pointers lead to: a path of keys and indices is read and written
    one step at a time, and the entries of a container are attached one by one. *)

From S2P Require Import Prelude AttributeContext IndexMap AttributeView.
From Stdlib Require Import Ascii.
From stdpp Require Import base tactics list gmap strings pretty.

(** ** Pointers *)

(** A token that is written in a pointer as it is: RFC 6901 separates tokens by
    [/], and escapes [/] and [~] by a [~] in front of a digit. *)
Fixpoint plain (tok : string) : bool :=
  match tok with
  | EmptyString => true
  | String c tok => negb (bool_decide (c = "/"%char)) && negb (bool_decide (c = "~"%char)) && plain tok
  end.

(** The documented behaviour of the crate: the variants of a value are told apart;
    the empty pointer leads to the whole value, a pointer that ends in a plain
    token to the entry of that name of the object the rest leads to, a pointer
    that ends in a decimal index to that element of an array; and writing through
    a pointer replaces that entry or element of what the rest leads to. *)
Class SerdeJsonOk (J : SerdeJson) := {
  as_object_Object m : as_object (Object m) = Some m;
  as_object_inv v m : as_object v = Some m → v = Object m;
  as_array_Array l : as_array (Array l) = Some l;
  as_array_inv v l : as_array v = Some l → v = Array l;
  as_object_Array l : as_object (Array l) = None;
  pointer_reads v p : pointer v p = fst <$> pointer_mut v p;
  pointer_whole v : ∃ put, pointer_mut v "" = Some (v, put) ∧ ∀ w, put w = w;
  pointer_key v p m put tok x :
    plain tok = true → pointer_mut v p = Some (Object m, put) → m !! tok = Some x →
    ∃ put', pointer_mut v (p +:+ "/" +:+ tok) = Some (x, put') ∧
      ∀ w, put' w = put (Object (<[tok := w]> m));
  pointer_index v p l put i x :
    pointer_mut v p = Some (Array l, put) → l !! i = Some x →
    ∃ put', pointer_mut v (p +:+ "/" +:+ pretty i) = Some (x, put') ∧
      ∀ w, put' w = put (Array (<[i := w]> l));
}.

(** ** Paths *)

Inductive step : Set := Key (tok : string) | Index (i : nat).

Definition plain_step (s : step) : Prop :=
  match s with Key tok => plain tok = true | Index _ => True end.

Definition step_token (s : step) : string :=
  match s with Key tok => tok | Index i => pretty i end.

(** The pointer of a path. *)
Definition render (π : list step) : string :=
  foldl (λ p s, p +:+ "/" +:+ step_token s) "" π.

Section places.
Context `{J : SerdeJson} {JO : SerdeJsonOk J}.

Definition get_step (v : Value) (s : step) : option Value :=
  match s with
  | Key tok => m ← as_object v; m !! tok
  | Index i => l ← as_array v; l !! i
  end.

Definition set_step (v : Value) (s : step) (w : Value) : Value :=
  match s with
  | Key tok => match as_object v with Some m => Object (<[tok := w]> m) | None => v end
  | Index i => match as_array v with Some l => Array (<[i := w]> l) | None => v end
  end.

Definition get (v : Value) (π : list step) : option Value :=
  foldl (λ o s, o ≫= λ x, get_step x s) (Some v) π.

Fixpoint set (v : Value) (π : list step) (w : Value) : Value :=
  match π with
  | [] => w
  | s :: π =>
      match get_step v s with
      | Some x => set_step v s (set x π w)
      | None => v
      end
  end.

Lemma as_array_Object m : as_array (Object m) = None.
Proof.
  destruct (as_array (Object m)) as [l|] eqn:H; [|done].
  apply as_array_inv in H. pose proof (as_object_Array l) as Hl. rewrite <-H in Hl.
  by rewrite as_object_Object in Hl.
Qed.

Lemma get_cons v s π : get v (s :: π) = get_step v s ≫= λ x, get x π.
Proof.
  unfold get. cbn. destruct (get_step v s) as [x|]; [done|]. cbn.
  induction π as [|s' π IH]; [done|]. exact IH.
Qed.

Lemma get_app v π ρ : get v (π ++ ρ) = get v π ≫= λ x, get x ρ.
Proof.
  revert v. induction π as [|s π IH]; intros v; [done|]. cbn [app]. rewrite !get_cons.
  destruct (get_step v s) as [x|]; [apply IH|done].
Qed.

Lemma set_app v π ρ x w : get v π = Some x → set v (π ++ ρ) w = set v π (set x ρ w).
Proof.
  revert v. induction π as [|s π IH]; intros v Hx; [by injection Hx as ->|]. cbn.
  rewrite get_cons in Hx. destruct (get_step v s) as [y|] eqn:Hy; [|done]. by rewrite IH.
Qed.

Lemma get_set_step v s x w : get_step v s = Some x → get_step (set_step v s w) s = Some w.
Proof.
  destruct s as [tok|i]; cbn.
  - destruct (as_object v) as [m|]; cbn; [|done]. intros _.
    rewrite as_object_Object. cbn. by rewrite lookup_insert_eq.
  - destruct (as_array v) as [l|]; cbn; [|done]. intros Hi%lookup_lt_Some.
    rewrite as_array_Array. cbn. by apply list_lookup_insert_eq.
Qed.

Lemma set_set_step v s x w w' : get_step v s = Some x →
  set_step (set_step v s w) s w' = set_step v s w'.
Proof.
  destruct s as [tok|i]; cbn.
  - destruct (as_object v) as [m|]; cbn; [|done]. intros _.
    rewrite as_object_Object. by rewrite insert_insert_eq.
  - destruct (as_array v) as [l|]; cbn; [|done]. intros _.
    rewrite as_array_Array. by rewrite list_insert_insert_eq.
Qed.

Lemma set_step_get v s x : get_step v s = Some x → set_step v s x = v.
Proof.
  destruct s as [tok|i]; cbn.
  - destruct (as_object v) as [m|] eqn:Hv; cbn; [|done]. intros Hx.
    apply as_object_inv in Hv as ->. by rewrite insert_id.
  - destruct (as_array v) as [l|] eqn:Hv; cbn; [|done]. intros Hx.
    apply as_array_inv in Hv as ->. by rewrite list_insert_id.
Qed.

Lemma get_set v π x w : get v π = Some x → get (set v π w) π = Some w.
Proof.
  revert v. induction π as [|s π IH]; intros v Hx; [done|]. rewrite get_cons in *. cbn.
  destruct (get_step v s) as [y|] eqn:Hy; [|done]. cbn in Hx.
  erewrite get_set_step by done. cbn. by apply IH.
Qed.

Lemma set_set v π x w w' : get v π = Some x → set (set v π w) π w' = set v π w'.
Proof.
  revert v. induction π as [|s π IH]; intros v Hx; [done|]. rewrite get_cons in Hx. cbn.
  destruct (get_step v s) as [y|] eqn:Hy; [|done]. cbn in Hx.
  erewrite get_set_step by done. cbn. erewrite set_set_step by done. by rewrite IH.
Qed.

Lemma set_get v π x : get v π = Some x → set v π x = v.
Proof.
  revert v. induction π as [|s π IH]; intros v Hx; [by injection Hx as ->|]. rewrite get_cons in Hx. cbn.
  destruct (get_step v s) as [y|] eqn:Hy; [|done]. rewrite IH by done. by apply set_step_get.
Qed.

Lemma render_snoc π s : render (π ++ [s]) = render π +:+ "/" +:+ step_token s.
Proof. unfold render. by rewrite foldl_app. Qed.

(** A pointer reads and writes at the end of its path. *)
Lemma pointer_path v π x : Forall plain_step π → get v π = Some x →
  ∃ put, pointer_mut v (render π) = Some (x, put) ∧ ∀ w, put w = set v π w.
Proof.
  revert x. induction π as [|s π IH] using rev_ind; intros x Hπ Hx.
  { injection Hx as ->. apply pointer_whole. }
  apply Forall_app in Hπ as [Hπ [Hs _]%Forall_cons]. rewrite get_app in Hx.
  destruct (get v π) as [y|] eqn:Hy; [|done]. destruct (IH y Hπ eq_refl) as (put & Hput & Hw).
  cbn in Hx. rewrite render_snoc.
  assert (∀ w, set v (π ++ [s]) w = set v π (set_step y s w)) as Hset.
  { intros w. erewrite set_app by done. cbn. by rewrite Hx. }
  destruct s as [tok|i]; cbn in Hx |- *.
  - destruct (as_object y) as [m|] eqn:Hm; [|done]. pose proof (as_object_inv _ _ Hm) as ->.
    destruct (pointer_key v (render π) m put tok x Hs Hput Hx) as (put' & Hp & Hw').
    exists put'. split; [done|]. intros w. rewrite Hset, Hw', Hw. cbn. by rewrite Hm.
  - destruct (as_array y) as [l|] eqn:Hl; [|done]. pose proof (as_array_inv _ _ Hl) as ->.
    destruct (pointer_index v (render π) l put i x Hput Hx) as (put' & Hp & Hw').
    exists put'. split; [done|]. intros w. rewrite Hset, Hw', Hw. cbn. by rewrite Hl.
Qed.

Lemma pointer_get v π x : Forall plain_step π → get v π = Some x → pointer v (render π) = Some x.
Proof.
  intros Hπ Hx. destruct (pointer_path v π x Hπ Hx) as (put & Hp & _).
  by rewrite pointer_reads, Hp.
Qed.

(** ** Attaching entries to a container *)

Definition attach (v : Value) (tx : string * Value) : Value :=
  match as_object v with
  | Some m => Object (<[tx.1 := tx.2]> m)
  | None => match as_array v with Some l => Array (l ++ [tx.2]) | None => v end
  end.

Definition attach_all (v : Value) (txs : list (string * Value)) : Value := foldl attach v txs.

(** Objects and arrays. *)
Definition container (v : Value) : bool :=
  match as_object v, as_array v with None, None => false | _, _ => true end.

Definition is_object (v : Value) : bool :=
  match as_object v with Some _ => true | None => false end.

(** Where the [k]th entry goes. *)
Definition step_at (v : Value) (tok : string) (k : nat) : step :=
  match as_object v, as_array v with
  | None, Some l => Index (length l + k)
  | _, _ => Key tok
  end.

Lemma container_cases v (Q : Value → Prop) : container v = true →
  (∀ m, Q (Object m)) → (∀ l, Q (Array l)) → Q v.
Proof.
  unfold container. intros Hv Hm Hl.
  destruct (as_object v) as [m|] eqn:H; [by apply as_object_inv in H as ->|].
  destruct (as_array v) as [l|] eqn:H'; [by apply as_array_inv in H' as ->|done].
Qed.

Lemma attach_all_Object m txs :
  attach_all (Object m) txs = Object (foldl (λ m tx, <[tx.1 := tx.2]> m) m txs).
Proof.
  revert m. induction txs as [|tx txs IH]; intros m; [done|]. unfold attach_all in *. cbn.
  unfold attach at 2. rewrite as_object_Object. apply IH.
Qed.

Lemma attach_all_Array l txs : attach_all (Array l) txs = Array (l ++ txs.*2).
Proof.
  revert l. induction txs as [|tx txs IH]; intros l; [by rewrite app_nil_r|].
  unfold attach_all in *. cbn. unfold attach at 2. rewrite as_object_Array, as_array_Array.
  rewrite IH. by rewrite <-(assoc_L (++)).
Qed.

Lemma attach_all_app v txs txs' : attach_all v (txs ++ txs') = attach_all (attach_all v txs) txs'.
Proof. apply foldl_app. Qed.

Lemma foldl_insert_ne (m : gmap string Value) tok x txs : tok ∉ txs.*1 →
  foldl (λ m tx, <[tx.1 := tx.2]> m) (<[tok := x]> m) txs =
  <[tok := x]> (foldl (λ m tx, <[tx.1 := tx.2]> m) m txs).
Proof.
  revert m. induction txs as [|tx txs IH]; intros m Hn; [done|]. cbn in *.
  apply not_elem_of_cons in Hn as [Hne Hn]. rewrite insert_insert_ne by done. by apply IH.
Qed.

(** Entries of an object have different names. *)
Definition names_ok (v : Value) (txs : list (string * Value)) : Prop :=
  is_object v = true → NoDup txs.*1.

Lemma attach_all_container v txs : container v = true → container (attach_all v txs) = true.
Proof.
  intros Hv. pattern v. apply container_cases; [done|..]; clear v Hv.
  - intros m. rewrite attach_all_Object. unfold container. by rewrite as_object_Object.
  - intros l. rewrite attach_all_Array. unfold container. by rewrite as_object_Array, as_array_Array.
Qed.

Lemma step_at_snoc v txs tok : container v = true →
  step_at (attach_all v txs) tok 0 = step_at v tok (length txs).
Proof.
  intros Hv. pattern v. apply container_cases; [done|..]; clear v Hv; intros; unfold step_at.
  - by rewrite attach_all_Object, !as_object_Object.
  - rewrite attach_all_Array, !as_object_Array, !as_array_Array, length_app, length_fmap.
    f_equal. lia.
Qed.

Lemma attach_split v txs k tok x w : container v = true → names_ok v txs →
  txs !! k = Some (tok, x) →
  get_step (attach_all v txs) (step_at v tok k) = Some x ∧
  set_step (attach_all v txs) (step_at v tok k) w = attach_all v (<[k := (tok, w)]> txs).
Proof.
  intros Hv. pattern v. apply container_cases; [done|..]; clear v Hv.
  - intros m Hn Hk. unfold names_ok, is_object in Hn. rewrite as_object_Object in Hn.
    specialize (Hn eq_refl). unfold step_at. rewrite as_object_Object. cbn.
    rewrite !attach_all_Object, as_object_Object. cbn.
    pose proof (lookup_lt_Some _ _ _ Hk) as Hlt.
    rewrite <-(take_drop_middle _ _ _ Hk) in Hn |- * at 1 2.
    rewrite fmap_app, fmap_cons in Hn. apply NoDup_app in Hn as (_ & _ & Hn).
    apply NoDup_cons in Hn as [Hn _]. cbn in Hn.
    rewrite insert_take_drop by done. rewrite !foldl_app. cbn. rewrite !foldl_insert_ne by done.
    by rewrite lookup_insert_eq, insert_insert_eq.
  - intros l _ Hk. unfold step_at. rewrite as_object_Array, as_array_Array. cbn.
    rewrite !attach_all_Array, as_array_Array. cbn. split.
    + rewrite lookup_app_r by lia. replace (length l + k - length l) with k by lia.
      by rewrite list_lookup_fmap, Hk.
    + rewrite insert_app_r. by rewrite list_fmap_insert.
Qed.

(** The order of the entries of an object does not matter. *)
Lemma attach_all_perm v txs txs' : is_object v = true → NoDup txs.*1 → txs ≡ₚ txs' →
  attach_all v txs = attach_all v txs'.
Proof.
  unfold is_object. destruct (as_object v) as [m|] eqn:H; [|done]. apply as_object_inv in H as ->.
  intros _ Hn Hp. rewrite !attach_all_Object. f_equal. revert m.
  induction Hp as [|tx txs txs' _ IH|tx1 tx2 txs|txs1 txs2 txs3 H12 IH1 H23 IH2]; intros m; cbn in *.
  - done.
  - apply NoDup_cons in Hn as [_ Hn]. by apply IH.
  - apply NoDup_cons in Hn as [Hne _]. apply not_elem_of_cons in Hne as [Hne _].
    by rewrite insert_insert_ne.
  - rewrite IH1 by done. apply IH2. by rewrite <-H12.
Qed.

End places.
