(* ===== verification/ViewTree.v ===== *)
(** * The value of a tree of rows

    The loops of [AttributeView] against a reference that is written by recursion:
    [build] makes the value of a row from its own and those of the rows below it.
    When the rows are those of a forest, the loops place every row where the
    reference puts it, and end with the same value. *)

From S2P Require Import Prelude AttributeContext IndexMap AttributeView ViewJson.
From Stdlib Require Import NArith.
From stdpp Require Import base tactics list gmap strings pretty sorting.

Section tree.
Context `{J : SerdeJson} {JO : SerdeJsonOk J} {E : Type}.

Abbreviation row := AttributeValuePayload (only parsing).

Definition row_id (x : row) : Id := id (attribute_value x).

(** ** The reference *)

Definition shown (ts : list (tree row)) : list (tree row) :=
  filter (λ t, is_Some (found_value (label t))) ts.

(** A row without a value hides everything below it, and so does one whose kind
    has no children. *)
Fixpoint build (t : tree row) : option Value :=
  match t with
  | TNode x ts =>
      v ← found_value x;
      Some (if is_container (prop_kind (prop x)) then
              attach_all v (omap (λ c, w ← build c; Some (token (label c), w)) ts)
            else v)
  end.

(** The entries of a container. *)
Definition entries (ts : list (tree row)) : list (string * Value) :=
  omap (λ c, w ← build c; Some (token (label c), w)) ts.

(** [s] is at the place [ρ] in the value of [t]. *)
Inductive located : tree row → list step → tree row → Prop :=
| located_here t : located t [] t
| located_below t v k c ρ s :
    found_value (label t) = Some v → is_container (prop_kind (prop (label t))) = true →
    shown (subtrees t) !! k = Some c → located c ρ s →
    located t (step_at v (token (label c)) k :: ρ) s.

(** ** Trees the code is meant for *)

(** The rows below a container: in an object they have different names, which a
    pointer can hold. *)
Definition level_ok (v : Value) (ts : list (tree row)) : Prop :=
  container v = true ∧
  (is_object v = true → NoDup (token ∘ label <$> shown ts) ∧
     Forall (λ t, plain (token (label t)) = true) (shown ts)).

(** The value of a row of a container kind is a container. *)
Definition node_ok (t : tree row) : Prop :=
  ∀ v, found_value (label t) = Some v → is_container (prop_kind (prop (label t))) = true →
    level_ok v (subtrees t).

Definition ids (t : tree row) : list Id := row_id ∘ label <$> descendants t.

(** ** Turns of the outer loop *)

Lemma assemble_enough n : ∀ m q (st : state),
  length (root_stack st) + length q < n → length (root_stack st) + length q < m →
  assemble (E := E) n q st = assemble m q st.
Proof using Type.
  induction n as [|n IH]; intros [|m] q st Hn Hm; [lia..|]. cbn.
  destruct q as [|x q]; [done|]. destruct (root_stack st) as [|[r p] stack]; [done|].
  destruct (pass _ _ _ _ _) as [[st1 u]|e] eqn:Hp; [|done].
  apply pass_length in Hp. cbn in *. apply IH; lia.
Qed.

(** What the loops end with, but for the roots that are left. *)
Definition runs (q : list row) (st : state) : run (fault (AttributeValueError (E := E)))
    (Value * gmap Id string) :=
  run_then (assemble (S (length (root_stack st) + length q)) q st)
    (λ st, Some (Ok (properties st, pointers st))).

Lemma runs_assemble n q st : length (root_stack st) + length q < n →
  run_then (assemble n q st) (λ st, Some (Ok (properties st, pointers st))) = runs q st.
Proof using Type. intros Hn. unfold runs. f_equal. apply assemble_enough; lia. Qed.

Lemma runs_nil st : runs [] st = Some (Ok (properties st, pointers st)).
Proof using Type. done. Qed.

Lemma runs_no_root q st : root_stack st = [] → runs q st = Some (Ok (properties st, pointers st)).
Proof using Type. intros Hst. unfold runs. cbn. rewrite Hst. by destruct q. Qed.

Lemma runs_step q st r p stack st' u :
  q ≠ [] → root_stack st = (r, p) :: stack →
  pass (E := E) r p q (with_stack st stack) [] = Ok (st', u) → runs q st = runs u st'.
Proof using Type.
  intros Hq Hst Hp. unfold runs at 1. cbn. destruct q as [|x q]; [done|].
  rewrite Hst, Hp. apply runs_assemble. apply pass_length in Hp. cbn in *. lia.
Qed.

(** ** One pass *)

(** The rows with a value below a root. *)
Definition kids_of (r : option Id) (q : list row) : list row :=
  filter (λ x, is_Some (found_value x) ∧ parent_attribute_value_id x = r) q.

Definition own (x : row) : Value := default Null (found_value x).

Definition shallow (l : list row) : list (string * Value) := (λ x, (token x, own x)) <$> l.

Definition positions (π : list step) (v : Value) (l : list row) : list (row * list step) :=
  imap (λ k x, (x, π ++ [step_at v (token x) k])) l.

Definition record (m : gmap Id string) (xp : row * list step) : gmap Id string :=
  <[row_id xp.1 := render xp.2]> m.

Definition push_root (stack : list (option Id * string)) (xp : row * list step) :
    list (option Id * string) :=
  if is_container (prop_kind (prop xp.1)) then (Some (row_id xp.1), render xp.2) :: stack
  else stack.

(** The pointer to a root is the one that was recorded for it. *)
Definition root_at (st : state) (r : option Id) (π : list step) : Prop :=
  ∀ i, r = Some i → pointers st !! i = Some (render π).

Lemma step_at_attach v tx tok k : container v = true →
  step_at (attach v tx) tok k = step_at v tok (S k).
Proof using JO.
  intros Hv. pattern v. apply container_cases; [done|..]; clear v Hv; intros; unfold step_at, attach.
  - by rewrite !as_object_Object.
  - rewrite as_object_Array, as_array_Array, as_object_Array, as_array_Array, length_app. cbn.
    f_equal. lia.
Qed.

Lemma positions_cons π v x l : container v = true →
  positions π v (x :: l) =
    (x, π ++ [step_at v (token x) 0]) :: positions π (attach v (token x, own x)) l.
Proof using JO.
  intros Hv. unfold positions. rewrite imap_cons. f_equal.
  apply imap_ext. intros k y _. cbn. by rewrite step_at_attach.
Qed.

Lemma write_spec loc p x w : container loc = true →
  write loc p x w = (attach loc (token x, w), p +:+ "/" +:+ step_token (step_at loc (token x) 0)).
Proof using JO.
  intros Hv. pattern loc. apply container_cases; [done|..]; clear loc Hv; intros;
    unfold write, attach, step_at.
  - by rewrite as_object_Object.
  - rewrite as_object_Array, as_array_Array. cbn. rewrite length_app. cbn.
    by replace (length l + 1 - 1) with (length l + 0) by lia.
Qed.

Lemma place_spec π st x w loc :
  Forall plain_step π → get (properties st) π = Some loc → container loc = true →
  root_at st (parent_attribute_value_id x) π →
  place (E := E) (render π) st x w =
    Ok {| properties := set (properties st) π (attach loc (token x, w));
          pointers := record (pointers st) (x, π ++ [step_at loc (token x) 0]);
          root_stack := push_root (root_stack st) (x, π ++ [step_at loc (token x) 0]) |}.
Proof using JO.
  intros Hπ Hloc Hc Hr. unfold place.
  destruct (pointer_path _ _ _ Hπ Hloc) as (put & Hput & Hw).
  assert ((match parent_attribute_value_id x with
           | Some parent_avi => ok_or (pointers st !! parent_avi) Panic
           | None => Ok (render π) end) = Ok (E := fault (AttributeValueError (E := E))) (render π)) as ->.
  { destruct (parent_attribute_value_id x) as [i|]; [|done]. by rewrite (Hr i eq_refl). }
  cbn. rewrite Hput. cbn. rewrite write_spec by done. rewrite Hw, <-render_snoc.
  unfold record, push_root, row_id. done.
Qed.

Lemma pass_spec r π q : ∀ st u loc,
  Forall plain_step π → get (properties st) π = Some loc → container loc = true →
  root_at st r π → Forall (λ x, Some (row_id x) ≠ r) (kids_of r q) →
  pass (E := E) r (render π) q st u =
    Ok ({| properties := set (properties st) π (attach_all loc (shallow (kids_of r q)));
           pointers := foldl record (pointers st) (positions π loc (kids_of r q));
           root_stack := foldl push_root (root_stack st) (positions π loc (kids_of r q)) |},
        u ++ filter (λ x, is_Some (found_value x) ∧ parent_attribute_value_id x ≠ r) q).
Proof using JO.
  induction q as [|x q IH]; intros st u loc Hπ Hloc Hc Hr Hids.
  { cbn. rewrite app_nil_r, set_get by done. by destruct st. }
  cbn [pass]. unfold kids_of in *. rewrite !filter_cons in *.
  destruct (found_value x) as [w|] eqn:Hw.
  2:{ rewrite decide_False in * by (by intros [[] _]). rewrite decide_False by (by intros [[] _]).
      by apply IH. }
  destruct (decide (r = parent_attribute_value_id x)) as [Hp|Hp].
  - rewrite decide_True in * by (split; [by eexists|done]).
    rewrite (decide_False (P := is_Some (Some w) ∧ parent_attribute_value_id x ≠ r)) by naive_solver.
    apply Forall_cons in Hids as [Hx Hids].
    rewrite place_spec with (loc := loc) by (try done; by rewrite <-Hp).
    rewrite positions_cons by done. cbn [mbind result_bind]. assert (own x = w) as Hown by (unfold own; by rewrite Hw).
    rewrite IH with (loc := attach loc (token x, w)).
    + cbn. erewrite set_set by done. by rewrite Hown.
    + done.
    + cbn. by eapply get_set.
    + by apply (attach_all_container loc [_]).
    + intros i ->. cbn. unfold record. rewrite lookup_insert_ne by (cbn; congruence). by apply Hr.
    + done.
  - rewrite decide_False in * by naive_solver.
    rewrite (decide_True (P := is_Some (Some w) ∧ parent_attribute_value_id x ≠ r))
      by (split; [by eexists|done]).
    rewrite IH with (loc := loc) by done. by rewrite <-(assoc_L (++)).
Qed.

(** ** Trees of rows *)

Definition built (t : tree row) : Value := default Null (build t).

Lemma build_shown t : is_Some (build t) ↔ is_Some (found_value (label t)).
Proof using Type. destruct t as [x ts]. cbn. by destruct (found_value x). Qed.

Lemma entries_shown ts : entries ts = (λ c, (token (label c), built c)) <$> shown ts.
Proof using Type.
  unfold entries, shown. induction ts as [|c ts IH]; [done|]. rewrite filter_cons. cbn [omap list_omap].
  pose proof (build_shown c) as Hc. unfold built. destruct (build c) as [w|] eqn:Hw; cbn.
  - rewrite decide_True by (apply Hc; by eexists). cbn. rewrite Hw. cbn. by f_equal.
  - rewrite decide_False by (rewrite <-Hc; by intros []). apply IH.
Qed.

Lemma build_node t v : found_value (label t) = Some v →
  build t = Some (if is_container (prop_kind (prop (label t)))
                  then attach_all v (entries (subtrees t)) else v).
Proof using Type. destruct t as [x ts]. cbn. by intros ->. Qed.

Lemma elem_of_shown c ts : c ∈ shown ts ↔ is_Some (found_value (label c)) ∧ c ∈ ts.
Proof using Type. unfold shown. by rewrite list_elem_of_filter. Qed.

Lemma ids_eq t : ids t = row_id (label t) :: (subtrees t ≫= ids).
Proof using Type.
  unfold ids at 1. rewrite descendants_eq, fmap_cons. f_equal.
  induction (subtrees t) as [|c ts IH]; [done|].
  change (row_id ∘ label <$> (descendants c ++ mjoin (descendants <$> ts)) = ids c ++ (ts ≫= ids)).
  by rewrite fmap_app, IH.
Qed.

Lemma NoDup_shown ts : NoDup (ts ≫= ids) → NoDup (shown ts ≫= ids).
Proof using Type.
  induction ts as [|c ts IH]; [done|]. rewrite bind_cons. intros (Hc & Hd & Hts)%NoDup_app.
  unfold shown. rewrite filter_cons. case_decide; [|by apply IH].
  rewrite bind_cons. apply NoDup_app. split_and!; [done| |by apply IH].
  intros i Hi Hin. apply (Hd i Hi). apply list_elem_of_bind in Hin as (c' & Hin & Hc').
  apply list_elem_of_bind. exists c'. split; [done|]. by apply elem_of_shown in Hc' as [_ Hc'].
Qed.

(** The queue holds the rows below every root of a tree that will be visited. *)
Definition rows_ok (q : list row) : tree row → Prop :=
  everywhere (λ s, is_Some (found_value (label s)) → is_container (prop_kind (prop (label s))) = true →
    kids_of (Some (row_id (label s))) q = label <$> shown (subtrees s)).

Lemma rows_ok_keep q q' t : rows_ok q t →
  (∀ i, i ∈ ids t → kids_of (Some i) q' = kids_of (Some i) q) → rows_ok q' t.
Proof using Type.
  intros Hq Hk s Hs Hv Hc. rewrite Hk; [by apply Hq|].
  unfold ids. apply list_elem_of_fmap. by exists s.
Qed.

(** Turns of the loop that visit the given roots and place the given rows. *)
Record leads (q : list row) (st : state) (q' : list row) (st' : state) (roots rows : list Id) := {
  leads_runs : runs q st = runs q' st';
  leads_kids i : i ∉ roots → kids_of (Some i) q' = kids_of (Some i) q;
  leads_pointers i : i ∉ rows → pointers st' !! i = pointers st !! i;
}.

Definition node_spec (t : tree row) : Prop := ∀ q st rest π v,
  found_value (label t) = Some v → is_container (prop_kind (prop (label t))) = true →
  everywhere node_ok t → NoDup (ids t) → rows_ok q t →
  Forall plain_step π → get (properties st) π = Some v →
  pointers st !! row_id (label t) = Some (render π) →
  root_stack st = (Some (row_id (label t)), render π) :: rest →
  ∃ q' st', leads q st q' st' (ids t) (subtrees t ≫= ids) ∧ root_stack st' = rest ∧
    properties st' = set (properties st) π (built t) ∧
    ∀ ρ s, located t ρ s → pointers st' !! row_id (label s) = Some (render (π ++ ρ)).

Lemma leads_refl q st : leads q st q st [] [].
Proof using Type. by constructor. Qed.

Lemma leads_trans q1 st1 q2 st2 q3 st3 roots1 rows1 roots2 rows2 :
  leads q1 st1 q2 st2 roots1 rows1 → leads q2 st2 q3 st3 roots2 rows2 →
  leads q1 st1 q3 st3 (roots1 ++ roots2) (rows1 ++ rows2).
Proof using Type.
  intros [H1 K1 P1] [H2 K2 P2]. constructor; [congruence|..]; intros i [Hi1 Hi2]%not_elem_of_app.
  - by rewrite K2, K1.
  - by rewrite P2, P1.
Qed.

Lemma leads_weaken q st q' st' roots rows roots' rows' :
  leads q st q' st' roots rows → roots ⊆ roots' → rows ⊆ rows' → leads q st q' st' roots' rows'.
Proof using Type.
  intros [H K P] Hr Hx. constructor; [done|..]; intros i Hi; [apply K|apply P];
    contradict Hi; [by apply Hr|by apply Hx].
Qed.

Lemma located_descendant t ρ s : located t ρ s → s ∈ descendants t.
Proof using Type.
  induction 1 as [t|t v k c ρ s _ _ Hk%list_elem_of_lookup_2 _ IH]; [apply descendants_self|].
  apply elem_of_shown in Hk as [_ Hk]. by apply (descendants_child t c).
Qed.

Lemma located_id t ρ s : located t ρ s → row_id (label s) ∈ ids t.
Proof using Type. intros Hs%located_descendant. apply list_elem_of_fmap. by exists s. Qed.

Lemma located_shown t ρ s : located t ρ s → is_Some (found_value (label t)) →
  is_Some (found_value (label s)).
Proof using Type.
  induction 1 as [t|t v k c ρ s _ _ Hk%list_elem_of_lookup_2 _ IH]; [done|]. intros _.
  by apply elem_of_shown in Hk as [Hc _]; apply IH.
Qed.

Lemma ids_self t : row_id (label t) ∈ ids t.
Proof using Type. rewrite ids_eq. by left. Qed.

(** ** The rows below one root *)

Section level.
Context (π : list step) (v : Value) (ks : list (tree row)).
Context (Hπ : Forall plain_step π) (Hv : container v = true).
Context (Hnames : is_object v = true → NoDup (token ∘ label <$> ks)).
Context (Hplain : is_object v = true → Forall (λ t, plain (token (label t)) = true) ks).
Context (Hvalues : Forall (λ t, is_Some (found_value (label t))) ks).
Context (Hok : Forall (everywhere node_ok) ks) (Hspec : Forall node_spec ks).
Context (Hids : NoDup (ks ≫= ids)).

(** The place of the [k]th row. *)
Definition place_of (k : nat) (t : tree row) : list step := π ++ [step_at v (token (label t)) k].

(** The first [n] rows have only been placed, the trees below the others are
    complete. *)
Definition partial (n : nat) : list (string * Value) :=
  shallow (label <$> take n ks) ++ ((λ c, (token (label c), built c)) <$> drop n ks).

Lemma partial_names n : names_ok v (partial n).
Proof using Hnames.
  intros Ho. unfold partial, shallow. rewrite fmap_app, <-!list_fmap_compose.
  rewrite <-(take_drop n ks), fmap_app in Hnames. exact (Hnames Ho).
Qed.

Lemma partial_split n t : ks !! n = Some t →
  partial (S n) !! n = Some (token (label t), own (label t)) ∧
  <[n := (token (label t), built t)]> (partial (S n)) = partial n.
Proof using Type.
  intros Ht. pose proof (lookup_lt_Some _ _ _ Ht) as Hlt. unfold partial, shallow.
  rewrite (take_S_r _ _ _ Ht), !fmap_app. rewrite (drop_S _ _ _ Ht). cbn.
  rewrite <-!(assoc_L (++)). cbn.
  assert (length ((λ x, (token x, own x)) <$> (label <$> take n ks)) = n) as Hlen.
  { rewrite !length_fmap, length_take. lia. }
  split.
  - by rewrite lookup_app_r, Hlen, Nat.sub_diag by lia.
  - by rewrite insert_app_r_alt, Hlen, Nat.sub_diag by lia.
Qed.

Lemma place_of_plain n t : ks !! n = Some t → Forall plain_step (place_of n t).
Proof using Hπ Hv Hplain.
  intros Ht. apply Forall_app. split; [done|]. constructor; [|done].
  unfold step_at. unfold is_object in Hplain. unfold container in Hv. destruct (as_object v).
  - specialize (Hplain eq_refl). rewrite Forall_lookup in Hplain. by apply (Hplain n t).
  - by destruct (as_array v).
Qed.

Lemma get_place n t P : ks !! n = Some t → get P π = Some (attach_all v (partial (S n))) →
  get P (place_of n t) = Some (own (label t)) ∧
  set P (place_of n t) (built t) = set P π (attach_all v (partial n)).
Proof using JO Hv Hnames.
  intros Ht HP. destruct (partial_split n t Ht) as [Hk Hp].
  destruct (attach_split v (partial (S n)) n _ _ (built t) Hv (partial_names (S n)) Hk) as [Hg Hs].
  unfold place_of. rewrite get_app, HP. cbn. rewrite Hg. split; [done|].
  erewrite set_app by done. cbn. by rewrite Hg, Hs, Hp.
Qed.

Lemma ids_disjoint n t k t' i : k < n → ks !! n = Some t → ks !! k = Some t' →
  i ∈ ids t' → i ∉ ids t.
Proof using Hids.
  intros Hk Ht Ht' Hi' Hi. pose proof Hids as Hn.
  rewrite <-(take_drop_middle _ _ _ Ht), bind_app in Hn. apply NoDup_app in Hn as (_ & Hn & _).
  apply (Hn i).
  - apply list_elem_of_bind. exists t'. split; [done|]. apply list_elem_of_lookup. exists k.
    by rewrite lookup_take_lt.
  - rewrite bind_cons. apply elem_of_app. by left.
Qed.

Lemma positions_snoc l x :
  positions π v (l ++ [x]) = positions π v l ++ [(x, π ++ [step_at v (token x) (length l)])].
Proof using Type. unfold positions. rewrite imap_app. cbn. by rewrite Nat.add_0_r. Qed.

Lemma ids_one n t : ks !! n = Some t → NoDup (ids t).
Proof using Hids.
  intros Ht. pose proof Hids as H. rewrite <-(take_drop_middle _ _ _ Ht), bind_app, bind_cons in H.
  by apply NoDup_app in H as (_ & _ & (H & _)%NoDup_app).
Qed.

(** What is below the last of the rows that are still to be visited. *)
Lemma complete_last n t q st rest : ks !! n = Some t →
  get (properties st) π = Some (attach_all v (partial (S n))) →
  root_stack st = foldl push_root rest (positions π v (label <$> take (S n) ks)) →
  pointers st !! row_id (label t) = Some (render (place_of n t)) → rows_ok q t →
  ∃ q' st', leads q st q' st' (ids t) (ids t) ∧
    root_stack st' = foldl push_root rest (positions π v (label <$> take n ks)) ∧
    properties st' = set (properties st) π (attach_all v (partial n)) ∧
    ∀ ρ s, located t ρ s → pointers st' !! row_id (label s) = Some (render (place_of n t ++ ρ)).
Proof using All.
  intros Ht Hloc Hst Hptr Hrows. pose proof (lookup_lt_Some _ _ _ Ht) as Hn.
  rewrite (take_S_r _ _ _ Ht), fmap_app in Hst. change (label <$> [t]) with [label t] in Hst.
  rewrite positions_snoc, length_fmap, length_take, foldl_app in Hst.
  rewrite Nat.min_l in Hst by lia. cbn in Hst.
  destruct (get_place n t _ Ht Hloc) as [Hget Hset].
  rewrite Forall_lookup in Hvalues, Hok, Hspec. destruct (Hvalues n t Ht) as [w Hw].
  assert (own (label t) = w) as Hown by (unfold own; by rewrite Hw). rewrite Hown in Hget.
  unfold push_root in Hst at 1. cbn in Hst. destruct (is_container _) eqn:Hc.
  - destruct (Hspec n t Ht q st _ (place_of n t) w Hw Hc (Hok n t Ht) (ids_one n t Ht) Hrows
      (place_of_plain n t Ht) Hget Hptr Hst) as (q1 & st1 & Hl & Hs1 & Hp & Hloc1).
    exists q1, st1. split_and!; [|done|by rewrite Hp|done].
    eapply leads_weaken; [done|done|]. rewrite ids_eq. intros i. by right.
  - exists q, st. split_and!.
    + eapply leads_weaken; [apply leads_refl|..]; intros i []%not_elem_of_nil.
    + done.
    + assert (built t = w) as Hb by (unfold built; by rewrite (build_node t w Hw), Hc).
      rewrite <-Hset, Hb, set_get; done.
    + intros ρ s Hs. inversion Hs; subst; [|congruence]. by rewrite app_nil_r.
Qed.

(** The trees below the rows are completed from the last to the first. *)
Lemma fill n : n ≤ length ks → ∀ q st rest,
  get (properties st) π = Some (attach_all v (partial n)) →
  root_stack st = foldl push_root rest (positions π v (label <$> take n ks)) →
  (∀ k t, k < n → ks !! k = Some t →
     pointers st !! row_id (label t) = Some (render (place_of k t)) ∧ rows_ok q t) →
  ∃ q' st', leads q st q' st' (take n ks ≫= ids) (take n ks ≫= ids) ∧ root_stack st' = rest ∧
    properties st' = set (properties st) π (attach_all v (partial 0)) ∧
    ∀ k t ρ s, k < n → ks !! k = Some t → located t ρ s →
      pointers st' !! row_id (label s) = Some (render (place_of k t ++ ρ)).
Proof using All.
  induction n as [|n IH]; intros Hn q st rest Hloc Hst Hks.
  { exists q, st. split_and!; [apply leads_refl|done|by rewrite set_get|lia]. }
  destruct (lookup_lt_is_Some_2 ks n) as [t Ht]; [lia|].
  destruct (Hks n t) as [Hptr Hrows]; [lia|done|].
  destruct (complete_last n t q st rest Ht Hloc Hst Hptr Hrows)
    as (q1 & st1 & Hleads & Hst1 & Hprops & Hlocated).
  destruct (IH ltac:(lia) q1 st1 rest) as (q2 & st2 & Hleads2 & Hst2 & Hprops2 & Hlocated2).
  - rewrite Hprops. by eapply get_set.
  - done.
  - intros k t' Hk Ht'. destruct (Hks k t') as [Hp Hr]; [lia|done|].
    assert (∀ i, i ∈ ids t' → i ∉ ids t) as Hd by (intros i; by apply (ids_disjoint n t k t')).
    split.
    + erewrite leads_pointers; [exact Hp|exact Hleads|]. apply Hd, ids_self.
    + eapply rows_ok_keep; [exact Hr|]. intros i Hi. erewrite leads_kids; [done|exact Hleads|]. by apply Hd.
  - exists q2, st2. split_and!.
    + eapply leads_weaken; [by eapply leads_trans|..]; rewrite (take_S_r _ _ _ Ht), bind_app;
        intros i; rewrite !elem_of_app, bind_singleton; tauto.
    + done.
    + rewrite Hprops2, Hprops. by erewrite set_set.
    + intros k t' ρ s Hk Ht' Hs. destruct (decide (k = n)) as [->|Hne].
      * simplify_eq. erewrite leads_pointers; [by apply Hlocated|exact Hleads2|].
        intros Hin. apply list_elem_of_bind in Hin as (t'' & Hin & (k & Hk')%list_elem_of_lookup).
        apply lookup_take_Some in Hk' as [Hk' Hlt].
        apply (ids_disjoint n t k t'' _ Hlt Ht Hk' Hin). by apply (located_id t ρ s).
      * apply (Hlocated2 k t'); [lia|done|done].
Qed.

End level.

Lemma record_other xps : ∀ m i, i ∉ row_id ∘ fst <$> xps → foldl record m xps !! i = m !! i.
Proof using Type.
  induction xps as [|xp xps IH]; intros m i Hi; [done|]. cbn in Hi.
  apply not_elem_of_cons in Hi as [Hne Hi]. cbn. rewrite IH by done. by apply lookup_insert_ne.
Qed.

Lemma record_all xps : ∀ m xp, NoDup (row_id ∘ fst <$> xps) → xp ∈ xps →
  foldl record m xps !! row_id xp.1 = Some (render xp.2).
Proof using Type.
  induction xps as [|xp' xps IH]; intros m xp Hn Hxp; [by apply not_elem_of_nil in Hxp|].
  cbn in Hn. apply NoDup_cons in Hn as [Hne Hn]. apply elem_of_cons in Hxp as [->|Hxp]; [|by apply IH].
  cbn. rewrite record_other by done. apply lookup_insert_eq.
Qed.

Lemma positions_rows π v l : (positions π v l).*1 = l.
Proof using Type.
  apply list_eq. intros i. unfold positions. rewrite list_lookup_fmap, list_lookup_imap.
  by destruct (l !! i).
Qed.

Lemma kids_of_other r i q : r ≠ Some i →
  kids_of (Some i) (filter (λ x, is_Some (found_value x) ∧ parent_attribute_value_id x ≠ r) q) =
  kids_of (Some i) q.
Proof using Type.
  intros Hr. unfold kids_of. rewrite list_filter_filter. apply list_filter_iff. naive_solver.
Qed.

(** The pass over the queue for a root. *)
Lemma first_pass r ks q st rest π v :
  q ≠ [] → container v = true → NoDup (row_id ∘ label <$> ks) →
  (∀ i, r = Some i → i ∉ row_id ∘ label <$> ks) → kids_of r q = label <$> ks →
  Forall plain_step π → get (properties st) π = Some v → root_at st r π →
  root_stack st = (r, render π) :: rest →
  ∃ q' st', leads q st q' st' (option_list r) (row_id ∘ label <$> ks) ∧
    root_stack st' = foldl push_root rest (positions π v (label <$> ks)) ∧
    properties st' = set (properties st) π (attach_all v (shallow (label <$> ks))) ∧
    ∀ k t, ks !! k = Some t →
      pointers st' !! row_id (label t) = Some (render (place_of π v k t)).
Proof using JO.
  intros Hq Hv Hn Hr Hkids Hπ Hloc Hroot Hst.
  assert (row_id ∘ fst <$> positions π v (label <$> ks) = row_id ∘ label <$> ks) as Hpos.
  { by rewrite !list_fmap_compose, positions_rows. }
  pose proof (pass_spec r π q (with_stack st rest) [] v Hπ Hloc Hv Hroot) as Hpass.
  rewrite Hkids in Hpass. eexists _, _. split.
  { constructor.
    - eapply runs_step; [done|exact Hst|]. apply Hpass.
      apply Forall_fmap, Forall_forall. intros t Ht <-. apply (Hr (row_id (label t)) eq_refl).
      by apply (list_elem_of_fmap_2 (row_id ∘ label)).
    - intros i Hi. apply kids_of_other. intros ->. apply Hi. by left.
    - intros i Hi. cbn. by rewrite record_other by by rewrite Hpos. }
  split_and!; [done|done|]. intros k t Ht. cbn.
  apply (record_all _ _ (label t, place_of π v k t)); [by rewrite Hpos|].
  apply list_elem_of_lookup. exists k. unfold positions.
  by rewrite list_lookup_imap, list_lookup_fmap, Ht.
Qed.

Lemma partial_all ks : partial ks (length ks) = shallow (label <$> ks).
Proof using Type. unfold partial. by rewrite take_ge, drop_ge, app_nil_r by lia. Qed.

Lemma NoDup_rows (ks : list (tree row)) : NoDup (ks ≫= ids) → NoDup (row_id ∘ label <$> ks).
Proof using Type.
  induction ks as [|t ks IH]; [constructor|]. rewrite bind_cons.
  intros (Ht & Hd & Hks)%NoDup_app. constructor; [|by apply IH].
  intros (t' & Heq & Ht')%list_elem_of_fmap. apply (Hd (row_id (label t))); [apply ids_self|].
  apply list_elem_of_bind. exists t'. split; [|done]. cbn in Heq. rewrite Heq. apply ids_self.
Qed.

(** All that is below a root. *)
Lemma level r cs q st rest π v :
  level_ok v cs → Forall (everywhere node_ok) cs → Forall node_spec cs → NoDup (cs ≫= ids) →
  (∀ i, r = Some i → i ∉ cs ≫= ids) →
  kids_of r q = label <$> shown cs → Forall (rows_ok q) cs →
  Forall plain_step π → get (properties st) π = Some v → root_at st r π →
  root_stack st = (r, render π) :: rest →
  ∃ q' st', leads q st q' st' (option_list r ++ (cs ≫= ids)) (shown cs ≫= ids) ∧
    root_stack st' = rest ∧
    properties st' = set (properties st) π (attach_all v (entries cs)) ∧
    ∀ k t ρ s, shown cs !! k = Some t → located t ρ s →
      pointers st' !! row_id (label s) = Some (render (π ++ step_at v (token (label t)) k :: ρ)).
Proof using JO.
  intros [Hv Hobj] Hok Hspec Hids Hr Hkids Hrows Hπ Hloc Hroot Hst.
  assert (∀ t, t ∈ shown cs → t ∈ cs) as Hin by by intros t [_ ?]%elem_of_shown.
  assert (∀ Q, Forall Q cs → Forall Q (shown cs)) as Hsub.
  { intros Q HQ. rewrite Forall_forall in *. auto. }
  assert (Forall (λ t, is_Some (found_value (label t))) (shown cs)) as Hvalues.
  { apply Forall_forall. by intros t [? _]%elem_of_shown. }
  assert ((shown cs ≫= ids) ⊆ (cs ≫= ids)) as Hincl.
  { intros i (t & Hi & Ht)%list_elem_of_bind. apply list_elem_of_bind. eauto. }
  assert ((row_id ∘ label <$> shown cs) ⊆ (shown cs ≫= ids)) as Hincl'.
  { intros i (t & -> & Ht)%list_elem_of_fmap. apply list_elem_of_bind. eauto using ids_self. }
  pose proof (NoDup_shown _ Hids) as Hks. rewrite entries_shown.
  destruct (decide (q = [])) as [->|Hq].
  { destruct (shown cs) as [|t ts] eqn:Hshown; [|done]. exists [], (with_stack st rest).
    split_and!; [by constructor|done|by cbn; rewrite set_get|done]. }
  destruct (first_pass r (shown cs) q st rest π v) as (q1 & st1 & Hl1 & Hs1 & Hp1 & Hptr1);
    [done|done|by apply NoDup_rows| |done..|].
  { intros i Hi Hin'. by eapply Hr, Hincl, Hincl'. }
  destruct (fill π v (shown cs) Hπ Hv (λ H, proj1 (Hobj H)) (λ H, proj2 (Hobj H)) Hvalues
    (Hsub _ Hok) (Hsub _ Hspec) Hks (length (shown cs)) ltac:(lia) q1 st1 rest)
    as (q2 & st2 & Hl2 & Hs2 & Hp2 & Hloc2).
  - rewrite Hp1, partial_all. by eapply get_set.
  - by rewrite take_ge by lia.
  - intros k t _ Ht. split; [by apply Hptr1|]. pose proof (list_elem_of_lookup_2 _ _ _ Ht) as Ht'.
    rewrite Forall_forall in Hrows. eapply rows_ok_keep; [by apply Hrows, Hin|].
    intros i Hi. eapply leads_kids; [exact Hl1|]. intros Hi'. destruct r as [j|]; [|by inversion Hi'].
    apply list_elem_of_singleton in Hi' as ->. apply (Hr j eq_refl). apply list_elem_of_bind. eauto.
  - rewrite take_ge in Hl2 by lia. exists q2, st2. split_and!; [|done|by rewrite Hp2, Hp1; erewrite set_set|].
    + eapply leads_weaken; [by eapply leads_trans|..]; intros i [?|?]%elem_of_app; rewrite ?elem_of_app; auto.
    + intros k t ρ s Ht Hs. rewrite (Hloc2 k t ρ s); [|by eapply lookup_lt_Some|done|done].
      unfold place_of. by rewrite <-(assoc_L (++)).
Qed.

Lemma all_nodes t : node_spec t.
Proof using JO.
  induction t as [x cs IH] using tree_children_ind. intros q st rest π v Hfv Hc Hok Hids Hrows Hπ Hloc Hptr Hst.
  rewrite ids_eq in Hids. apply NoDup_cons in Hids as [Hself Hids].
  apply everywhere_inv in Hok as [Hnode Hok]. pose proof Hrows as [Hrow Hbelow]%everywhere_inv.
  destruct (level (Some (row_id x)) cs q st rest π v) as (q' & st' & Hl & Hs & Hp & Hloc').
  - by apply (Hnode v).
  - apply Forall_forall. exact Hok.
  - exact IH.
  - exact Hids.
  - by intros i [= <-].
  - apply Hrow; [by eexists|done].
  - apply Forall_forall. exact Hbelow.
  - exact Hπ.
  - exact Hloc.
  - intros i [= <-]. exact Hptr.
  - exact Hst.
  - assert (leads q st q' st' (ids (TNode x cs)) (cs ≫= ids)) as Hl'.
    { eapply leads_weaken; [exact Hl|by rewrite ids_eq|]. intros i (c & Hi & Hc')%list_elem_of_bind.
      apply list_elem_of_bind. exists c. split; [done|]. by apply elem_of_shown in Hc' as [_ ?]. }
    exists q', st'. split_and!; [exact Hl'|done| |].
    + rewrite Hp. unfold built. rewrite (build_node _ v Hfv). cbn in Hc |- *. by rewrite Hc.
    + intros ρ s Hs'. inversion Hs' as [|t v' k c ρ' s' Hv' _ Hk Hcs]; subst.
      * rewrite app_nil_r. cbn. erewrite leads_pointers; [exact Hptr|exact Hl'|exact Hself].
      * cbn in Hv', Hfv. rewrite Hfv in Hv'. injection Hv' as <-. by apply (Hloc' k c).
Qed.

(** ** Places in the reference value *)

Lemma level_get v cs k c : level_ok v cs → shown cs !! k = Some c →
  get_step (attach_all v (entries cs)) (step_at v (token (label c)) k) = Some (built c) ∧
  plain_step (step_at v (token (label c)) k).
Proof using JO.
  intros [Hv Ho] Hk. split.
  - destruct (attach_split v (entries cs) k (token (label c)) (built c) Null) as [Hg _]; [done|..|done].
    + intros Hobj. rewrite entries_shown, <-list_fmap_compose. by apply Ho.
    + by rewrite entries_shown, list_lookup_fmap, Hk.
  - unfold step_at. unfold is_object in Ho. unfold container in Hv. destruct (as_object v).
    + specialize (Ho eq_refl) as [_ Ho]. rewrite Forall_lookup in Ho. by apply (Ho k c).
    + by destruct (as_array v).
Qed.

Lemma located_get t ρ s w : located t ρ s → everywhere node_ok t → build t = Some w →
  get w ρ = build s ∧ Forall plain_step ρ.
Proof using JO.
  intros Hl. revert w. induction Hl as [t|t v k c ρ s Hv Hc Hk _ IH]; intros w Hok Hw.
  { split; [by rewrite Hw|constructor]. }
  apply everywhere_inv in Hok as [Hnode Hok]. rewrite (build_node t v Hv), Hc in Hw. simplify_eq.
  destruct (level_get v (subtrees t) k c (Hnode v Hv Hc) Hk) as [Hg Hp]. rewrite get_cons, Hg. cbn.
  pose proof (list_elem_of_lookup_2 _ _ _ Hk) as [Hcv Hcin]%elem_of_shown.
  apply build_shown in Hcv as [wc Hwc]. unfold built. rewrite Hwc. cbn.
  destruct (IH wc (Hok c Hcin) Hwc) as [Hget Hplain]. split; [done|by constructor].
Qed.

End tree.
