(* ===== verification/ViewForest.v ===== *)
(** * Views of a forest

    The rows that the database returns in any order, as the forest of the values
    they belong to: the index maps put the elements of the arrays in order, the
    order of everything else does not matter, and the view is the reference value
    of [ViewTree]. *)

From S2P Require Import Prelude AttributeContext IndexMap AttributeView ViewJson ViewTree.
From Stdlib Require Import NArith.
From stdpp Require Import base tactics list gmap strings pretty sorting.

(** ** Lists *)

Lemma bind_part {A B} (f g : A → list B) l :
  (∀ a, a ∈ l → f a = g a ∨ f a = []) → NoDup (l ≫= g) → NoDup (l ≫= f) ∧ (l ≫= f) ⊆ (l ≫= g).
Proof.
  induction l as [|a l IH]; intros Hfg Hn; [done|]. rewrite !bind_cons in *.
  apply NoDup_app in Hn as (Ha & Hd & Hn). destruct IH as [IHn IHs]; [|done|].
  { intros b Hb. apply Hfg. by right. }
  destruct (Hfg a) as [-> | ->]; [by left|..].
  - split; [|set_solver]. apply NoDup_app. split_and!; [done|set_solver|done].
  - cbn. split; [done|set_solver].
Qed.

Lemma NoDup_fmap_inj {A B} (f : A → B) l x y :
  NoDup (f <$> l) → x ∈ l → y ∈ l → f x = f y → x = y.
Proof.
  intros Hn (i & Hi)%list_elem_of_lookup (j & Hj)%list_elem_of_lookup Hf.
  assert (i = j) as ->; [|congruence]. eapply NoDup_lookup; [exact Hn|..]; rewrite list_lookup_fmap.
  - by rewrite Hi.
  - rewrite Hj. cbn. by rewrite Hf.
Qed.

(** A list with the elements that satisfy [P] in another order. *)
Lemma filter_reorder {A} (P : A → Prop) `{∀ x, Decision (P x)} l k :
  filter P l ≡ₚ k → filter P (k ++ filter (λ x, ¬ P x) l) = k ∧ k ++ filter (λ x, ¬ P x) l ≡ₚ l.
Proof.
  intros Hk. split.
  - rewrite filter_app, filter_all, filter_none, app_nil_r; [done|..]; apply Forall_forall; intros x.
    + by intros [? _]%list_elem_of_filter.
    + rewrite <-Hk. by intros [? _]%list_elem_of_filter.
  - rewrite <-Hk. clear Hk. induction l as [|x l IH]; [done|]. rewrite !filter_cons.
    destruct (decide (P x)).
    + rewrite decide_False by auto. cbn. by rewrite IH.
    + rewrite decide_True by done. rewrite <-Permutation_middle. by rewrite IH.
Qed.

Section forest.
Context `{J : SerdeJson} {JO : SerdeJsonOk J} {E : Type}.

Abbreviation row := AttributeValuePayload (only parsing).

(** The children of a value are those rows that name it as their parent; its index
    map, if it has one, lists them, and an array has one. *)
Definition linked (s : tree row) : Prop :=
  Forall (λ c, parent_attribute_value_id (label c) = Some (row_id (label s))) (subtrees s) ∧
  (∀ m, index_map (attribute_value (label s)) = Some m →
     IndexMap.order m = row_id ∘ label <$> subtrees s) ∧
  (∀ v, found_value (label s) = Some v → is_object v = false → subtrees s ≠ [] →
     is_Some (index_map (attribute_value (label s)))).

(** The rows of a forest whose roots are below [parent]. *)
Record is_forest (rows : list row) (parent : option Id) (ts : list (tree row)) : Prop := {
  forest_rows : rows ≡ₚ label <$> (ts ≫= descendants);
  forest_ids : NoDup (ts ≫= ids);
  forest_roots : Forall (λ t, parent_attribute_value_id (label t) = parent) ts;
  forest_parent i : parent = Some i → i ∉ ts ≫= ids;
  forest_linked : Forall (everywhere linked) ts;
  forest_ok : Forall (everywhere node_ok) ts;
  forest_level : level_ok (Object ∅) ts;
}.

(** [s] shows in the value of [t]. *)
Inductive reached : tree row → tree row → Prop :=
| reached_here t : reached t t
| reached_below t c s :
    is_Some (found_value (label t)) → is_container (prop_kind (prop (label t))) = true →
    c ∈ shown (subtrees t) → reached c s → reached t s.

(** ** The position of a row *)

Lemma cached_key_lookup (l : list Id) n (x : row) : NoDup l → l !! n = Some (row_id x) →
  cached_key l x = n.
Proof using Type.
  intros Hl Hn. unfold cached_key.
  assert (list_find (λ i, i = id (attribute_value x)) l = Some (n, row_id x)) as ->; [|done].
  apply list_find_Some. split_and!; [done|done|]. intros j i Hj Hlt Hi. subst i.
  assert (j = n) as -> by (eapply NoDup_lookup; done). lia.
Qed.

(** A part of the list is in its order. *)
Lemma part_sorted (pre post : list Id) (xs : list row) :
  NoDup (pre ++ (row_id <$> xs) ++ post) →
  StronglySorted (λ x y, cached_key (pre ++ (row_id <$> xs) ++ post) x ≤
                         cached_key (pre ++ (row_id <$> xs) ++ post) y) xs.
Proof using Type.
  intros Hn. set (l := pre ++ (row_id <$> xs) ++ post) in *.
  assert (∀ k x, xs !! k = Some x → cached_key l x = length pre + k) as Hkey.
  { intros k x Hk. apply cached_key_lookup; [done|]. unfold l.
    rewrite lookup_app_r by lia. replace (length pre + k - length pre) with k by lia.
    rewrite lookup_app_l by (rewrite length_fmap; by eapply lookup_lt_Some).
    by rewrite list_lookup_fmap, Hk. }
  clearbody l. clear Hn post. revert pre Hkey. induction xs as [|x xs IH]; intros pre Hkey; [constructor|].
  constructor.
  - apply (IH (pre ++ [0%N])). intros k y Hk. rewrite (Hkey (S k) y Hk), length_app. cbn. lia.
  - apply Forall_forall. intros y (k & Hk)%list_elem_of_lookup.
    rewrite (Hkey 0 x eq_refl), (Hkey (S k) y Hk). lia.
Qed.

(** ** The order of all index maps *)

Definition listed (s : tree row) : list Id :=
  match index_map (attribute_value (label s)) with Some m => IndexMap.order m | None => [] end.

Definition below (t : tree row) : list Id := subtrees t ≫= ids.

Lemma ids_below (ts : list (tree row)) :
  ts ≫= ids ≡ₚ (row_id ∘ label <$> ts) ++ (ts ≫= below).
Proof using Type.
  induction ts as [|t ts IH]; [done|]. rewrite !bind_cons, IH, ids_eq, fmap_cons. cbn.
  constructor. unfold below at 3. solve_Permutation.
Qed.

Lemma children_below (t : tree row) :
  descendants t ≫= (λ s, row_id ∘ label <$> subtrees s) ≡ₚ below t.
Proof using Type.
  induction t as [x cs IH] using tree_children_ind. rewrite descendants_eq, bind_cons. cbn [subtrees].
  unfold below at 1. cbn [subtrees]. rewrite ids_below. f_equiv.
  induction IH as [|c cs Hc _ IHcs]; [done|]. cbn [fmap list_fmap].
  change (mjoin (descendants c :: (descendants <$> cs)))
    with (descendants c ++ mjoin (descendants <$> cs)).
  by rewrite bind_app, Hc, IHcs, bind_cons.
Qed.

Lemma listed_NoDup ts : Forall (everywhere linked) ts → NoDup (ts ≫= ids) →
  NoDup ((ts ≫= descendants) ≫= listed).
Proof using Type.
  intros Hl Hn. apply (bind_part _ (λ s, row_id ∘ label <$> subtrees s)).
  - intros s (t & Hs & Ht)%list_elem_of_bind. rewrite Forall_forall in Hl.
    destruct (Hl t Ht s Hs) as (_ & Hm & _). unfold listed.
    destruct (index_map _) as [m|]; [left; by apply Hm|by right].
  - assert ((ts ≫= descendants) ≫= (λ s, row_id ∘ label <$> subtrees s) ≡ₚ ts ≫= below) as ->.
    { clear. induction ts as [|t ts IH]; [done|]. by rewrite !bind_cons, bind_app, children_below, IH. }
    rewrite ids_below in Hn. by apply NoDup_app in Hn as (_ & _ & Hn).
Qed.

(** ** The rows below a value *)

Lemma descendant_cases (t c : tree row) : c ∈ descendants t →
  c = t ∨ ∃ s, s ∈ descendants t ∧ c ∈ subtrees s.
Proof using Type.
  induction t as [x cs IH] using tree_children_ind. rewrite descendants_eq.
  intros [->|(l & Hl & (c' & -> & Hc')%list_elem_of_fmap)%list_elem_of_join]%elem_of_cons; [by left|].
  right. rewrite Forall_forall in IH. destruct (IH c' Hc' Hl) as [->|(s & Hs & Hc)].
  - exists (TNode x cs). split; [by left|done].
  - exists s. split; [|done]. right. apply list_elem_of_join. exists (descendants c').
    split; [done|]. by apply list_elem_of_fmap_2.
Qed.

Lemma ids_descendants (ts : list (tree row)) : ts ≫= ids = row_id ∘ label <$> (ts ≫= descendants).
Proof using Type. induction ts as [|t ts IH]; [done|]. by rewrite !bind_cons, fmap_app, IH. Qed.

Lemma NoDup_descendant (t s : tree row) : NoDup (ids t) → s ∈ descendants t → NoDup (ids s).
Proof using Type.
  induction t as [x cs IH] using tree_children_ind. rewrite ids_eq, descendants_eq. intros Hn.
  intros [->|(l & Hl & (c & -> & Hc)%list_elem_of_fmap)%list_elem_of_join]%elem_of_cons;
    [by rewrite ids_eq|].
  rewrite Forall_forall in IH. apply (IH c); [done| |done]. apply NoDup_cons in Hn as [_ Hn].
  apply list_elem_of_lookup in Hc as (k & Hk). by eapply ids_one.
Qed.

(** ** Trees in the order of the queue *)

(** [t'] is [t] with the rows below every value in the order of the queue. *)
Record arranged (q : list row) (t t' : tree row) : Prop := {
  arranged_label : label t' = label t;
  arranged_build : build t' = build t;
  arranged_ok : everywhere node_ok t';
  arranged_ids : ids t' ≡ₚ ids t;
  arranged_rows : rows_ok q t';
  arranged_reached s : reached t s →
    ∃ ρ s', located t' ρ s' ∧ label s' = label s ∧ build s' = build s;
}.

Record arranged_level (q : list row) (v : Value) (kids : list row) (cs cs' : list (tree row)) :
    Prop := {
  level_kids : kids = label <$> shown cs';
  level_value : attach_all v (entries cs') = attach_all v (entries cs);
  level_level : level_ok v cs';
  level_children : Forall (λ c', ∃ c, arranged q c c') cs';
  level_ids : cs' ≫= ids ≡ₚ cs ≫= ids;
  level_shown : shown cs' ≫= ids ≡ₚ shown cs ≫= ids;
  level_reached c : c ∈ shown cs → ∃ k c', shown cs' !! k = Some c' ∧ arranged q c c';
}.

Lemma arranged_shown q cs mid : Forall2 (arranged q) cs mid → Forall2 (arranged q) (shown cs) (shown mid).
Proof using Type.
  unfold shown. induction 1 as [|c c' cs mid Hc _ IH]; [done|]. rewrite !filter_cons.
  rewrite (arranged_label _ _ _ Hc). case_decide; [by constructor|done].
Qed.

Lemma arranged_labels q cs mid : Forall2 (arranged q) cs mid → label <$> mid = label <$> cs.
Proof using Type. induction 1 as [|c c' cs mid Hc _ IH]; [done|]. cbn. by rewrite IH, (arranged_label _ _ _ Hc). Qed.

Lemma arranged_entries q cs mid : Forall2 (arranged q) cs mid → entries mid = entries cs.
Proof using Type.
  unfold entries. induction 1 as [|c c' cs mid Hc _ IH]; [done|]. cbn.
  rewrite (arranged_build _ _ _ Hc), (arranged_label _ _ _ Hc). by rewrite IH.
Qed.

Lemma arranged_all_ids q cs mid : Forall2 (arranged q) cs mid → mid ≫= ids ≡ₚ cs ≫= ids.
Proof using Type.
  induction 1 as [|c c' cs mid Hc _ IH]; [done|]. rewrite !bind_cons.
  by rewrite (arranged_ids _ _ _ Hc), IH.
Qed.

Lemma arranged_exists q cs mid : Forall2 (arranged q) cs mid → Forall (λ c', ∃ c, arranged q c c') mid.
Proof using Type. induction 1; constructor; eauto. Qed.

Lemma level_ok_labels v cs cs' : label <$> shown cs' ≡ₚ label <$> shown cs → level_ok v cs → level_ok v cs'.
Proof using Type.
  intros Hp [Hv Ho]. split; [done|]. intros H. specialize (Ho H) as [Hn Hf].
  rewrite list_fmap_compose, Hp, <-list_fmap_compose. split; [done|].
  assert (Forall (λ x, plain (token x) = true) (label <$> shown cs')) as Hf'
    by (rewrite Hp; by apply Forall_fmap).
  by apply Forall_fmap in Hf'.
Qed.

Lemma arrange_level q v kids cs mid :
  Forall2 (arranged q) cs mid → level_ok v cs → kids ≡ₚ label <$> shown cs →
  (is_object v = false → kids = label <$> shown cs) →
  ∃ cs', arranged_level q v kids cs cs'.
Proof using JO.
  intros Hmid Hlevel Hp Heq. pose proof (arranged_shown _ _ _ Hmid) as Hshown.
  pose proof (arranged_labels _ _ _ Hshown) as Hlab.
  destruct (is_object v) eqn:Hobj.
  - rewrite <-Hlab in Hp. destruct (Permutation_map_inv label _ Hp) as (l & Hl & Hpl).
    destruct (filter_reorder _ mid l Hpl) as [Hsl Hperm].
    set (cs' := l ++ _) in *. change (shown cs' = l) in Hsl.
    exists cs'. constructor.
    + by rewrite Hsl.
    + rewrite <-(arranged_entries _ _ _ Hmid). symmetry. apply attach_all_perm; [done| |].
      * rewrite entries_shown, <-list_fmap_compose. destruct Hlevel as [_ Ho].
        destruct (Ho Hobj) as [Hn _]. rewrite list_fmap_compose, <-Hlab, <-list_fmap_compose in Hn. exact Hn.
      * rewrite !entries_shown, Hsl. by rewrite Hpl.
    + eapply level_ok_labels; [|done]. by rewrite Hsl, <-Hpl, Hlab.
    + rewrite Hperm. by eapply arranged_exists.
    + rewrite Hperm. by eapply arranged_all_ids.
    + rewrite Hsl, <-Hpl. by eapply arranged_all_ids.
    + intros c (k & Hk)%list_elem_of_lookup. rewrite Hsl.
      destruct (Forall2_lookup_l _ _ _ _ _ Hshown Hk) as (c' & Hc' & Ha).
      apply list_elem_of_lookup_2 in Hc'. rewrite Hpl in Hc'.
      apply list_elem_of_lookup in Hc' as (k' & Hk'). eauto.
  - exists mid. specialize (Heq eq_refl). constructor.
    + by rewrite Hlab.
    + by rewrite (arranged_entries _ _ _ Hmid).
    + eapply level_ok_labels; [|done]. by rewrite Hlab.
    + by eapply arranged_exists.
    + by eapply arranged_all_ids.
    + by eapply arranged_all_ids.
    + intros c (k & Hk)%list_elem_of_lookup.
      destruct (Forall2_lookup_l _ _ _ _ _ Hshown Hk) as (c' & Hc' & Ha). eauto.
Qed.

(** A tree whose children are replaced by arranged ones. *)
Lemma everywhere_children (Q : tree row → Prop) x cs :
  Q (TNode x cs) → Forall (everywhere Q) cs → everywhere Q (TNode x cs).
Proof using Type. intros Hx Hcs. apply everywhere_intro; [done|]. by rewrite Forall_forall in Hcs. Qed.

Lemma arranged_node q x v cs cs' :
  found_value x = Some v → is_container (prop_kind (prop x)) = true →
  arranged_level q v (kids_of (Some (row_id x)) q) cs cs' →
  arranged q (TNode x cs) (TNode x cs').
Proof using Type.
  intros Hv Hc [Hk Hval Hl Hch Hids Hsh Hr].
  assert (∀ Q, (∀ c c', arranged q c c' → Q c') → Forall Q cs') as Hall.
  { intros Q HQ. eapply Forall_impl; [exact Hch|]. intros c' (c & Ha). eauto. }
  constructor.
  - done.
  - rewrite !(build_node (TNode x _) v Hv). cbn [label subtrees]. by rewrite Hc, Hval.
  - apply everywhere_children; [|by apply Hall; intros c c' []].
    intros w Hw _. cbn in Hw. by simplify_eq.
  - rewrite !ids_eq. cbn. by rewrite Hids.
  - apply everywhere_children; [|by apply Hall; intros c c' []]. by intros _ _.
  - intros s Hs. inversion Hs as [|t c s' _ _ Hcs Hreach]; subst.
    + exists [], (TNode x cs'). split_and!; [constructor|done|].
      rewrite !(build_node (TNode x _) v Hv). cbn [label subtrees]. by rewrite Hc, Hval.
    + destruct (Hr c Hcs) as (k & c' & Hk' & Ha).
      destruct (arranged_reached _ _ _ Ha s Hreach) as (ρ & s' & Hloc & Hlab & Hb).
      eexists _, s'. split_and!; [|done|done]. by eapply (located_below (TNode x cs')).
Qed.

(** Nothing below the row is shown. *)
Lemma arranged_hidden q x cs mid :
  (found_value x = None ∨ is_container (prop_kind (prop x)) = false) →
  Forall2 (arranged q) cs mid → arranged q (TNode x cs) (TNode x mid).
Proof using Type.
  intros Hx Hmid.
  assert (build (TNode x mid) = build (TNode x cs)) as Hb.
  { cbn. destruct (found_value x); [|done]. cbn. by destruct Hx as [? | ->]. }
  constructor; [done|done|..].
  - apply everywhere_children.
    + intros v Hv Hc. cbn in Hv, Hc. destruct Hx; congruence.
    + eapply Forall_impl; [by eapply arranged_exists|]. by intros c' (c & []).
  - rewrite !ids_eq. cbn. by rewrite (arranged_all_ids _ _ _ Hmid).
  - apply everywhere_children.
    + intros [v Hv] Hc. cbn in Hv, Hc. destruct Hx; congruence.
    + eapply Forall_impl; [by eapply arranged_exists|]. by intros c' (c & []).
  - intros s Hs. inversion Hs as [|t c s' [v Hv] Hc]; subst.
    + exists [], (TNode x mid). by split; [constructor|].
    + cbn in Hv, Hc. destruct Hx; congruence.
Qed.

Section rows.
Context (rows : list row) (parent : option Id) (ts : list (tree row)).
Context (F : is_forest rows parent ts).

Lemma rows_ids : row_id <$> rows ≡ₚ ts ≫= ids.
Proof using F. rewrite (forest_rows _ _ _ F), ids_descendants. by rewrite <-list_fmap_compose. Qed.

Lemma rows_NoDup : NoDup (row_id <$> rows).
Proof using F. rewrite rows_ids. apply F. Qed.

Lemma elem_of_rows x : x ∈ rows ↔ ∃ c, x = label c ∧ c ∈ ts ≫= descendants.
Proof using F. rewrite (forest_rows _ _ _ F). apply list_elem_of_fmap. Qed.

Lemma node_linked s : s ∈ ts ≫= descendants → linked s.
Proof using F.
  intros (t & Hs & Ht)%list_elem_of_bind. pose proof (forest_linked _ _ _ F) as Hl.
  rewrite Forall_forall in Hl. by apply (Hl t Ht).
Qed.

Lemma node_id_inj s s' : s ∈ ts ≫= descendants → s' ∈ ts ≫= descendants →
  row_id (label s) = row_id (label s') → s = s'.
Proof using F.
  intros Hs Hs'. apply (NoDup_fmap_inj (row_id ∘ label) (ts ≫= descendants)); [|done..].
  rewrite <-ids_descendants. apply F.
Qed.

Lemma child_node s c : s ∈ ts ≫= descendants → c ∈ subtrees s → c ∈ ts ≫= descendants.
Proof using Type.
  intros (t & Hs & Ht)%list_elem_of_bind Hc. apply list_elem_of_bind. exists t. split; [|done].
  assert (everywhere (λ s', s' ∈ descendants t) s) as H.
  { apply (everywhere_below _ t s); [|done]. by intros s' Hs'. }
  apply (H c), (descendants_child s c c Hc), descendants_self.
Qed.

Lemma kids_perm (r : option Id) cs :
  NoDup (cs ≫= ids) →
  (∀ c, c ∈ ts ≫= descendants → parent_attribute_value_id (label c) = r ↔ c ∈ cs) →
  (∀ c, c ∈ cs → c ∈ ts ≫= descendants) →
  kids_of r rows ≡ₚ label <$> shown cs.
Proof using F.
  intros Hids Hcs Hsub. apply NoDup_Permutation.
  - apply NoDup_filter. eapply NoDup_fmap_1, rows_NoDup.
  - eapply (NoDup_fmap_1 row_id). rewrite <-list_fmap_compose. by apply NoDup_rows, NoDup_shown.
  - intros x. unfold kids_of. rewrite list_elem_of_filter, elem_of_rows, list_elem_of_fmap. split.
    + intros [[Hx Hp] (c & -> & Hc)]. exists c. split; [done|]. apply elem_of_shown. split; [done|].
      by apply Hcs.
    + intros (c & -> & [Hv Hc]%elem_of_shown). split_and!; [done|by apply Hcs; auto|eauto].
Qed.

Lemma kids_of_node s : s ∈ ts ≫= descendants →
  kids_of (Some (row_id (label s))) rows ≡ₚ label <$> shown (subtrees s).
Proof using F.
  intros Hs. apply kids_perm.
  - apply list_elem_of_bind in Hs as (t & Hs & (k & Hk)%list_elem_of_lookup).
    pose proof (NoDup_descendant t s (ids_one _ (forest_ids _ _ _ F) k t Hk) Hs) as Hn.
    rewrite ids_eq in Hn. by apply NoDup_cons in Hn as [_ Hn].
  - intros c Hc. split.
    + intros Hp. pose proof Hc as (t & Hct & Ht)%list_elem_of_bind.
      apply descendant_cases in Hct as [->|(s' & Hs' & Hc')].
      * pose proof (forest_roots _ _ _ F) as Hr. rewrite Forall_forall in Hr.
        rewrite (Hr t Ht) in Hp. exfalso. apply (forest_parent _ _ _ F _ Hp).
        rewrite ids_descendants. by apply (list_elem_of_fmap_2 (row_id ∘ label)).
      * assert (s' ∈ ts ≫= descendants) as Hs'' by (apply list_elem_of_bind; eauto).
        destruct (node_linked s' Hs'') as [Hl _]. rewrite Forall_forall in Hl.
        rewrite (Hl c Hc') in Hp. injection Hp as Hp. by rewrite (node_id_inj s s').
    + intros Hin. destruct (node_linked s Hs) as [Hl _]. rewrite Forall_forall in Hl. by apply Hl.
  - intros c. by apply child_node.
Qed.

Lemma kids_of_parent : kids_of parent rows ≡ₚ label <$> shown ts.
Proof using F.
  apply kids_perm; [apply F|..].
  - intros c Hc. pose proof (forest_roots _ _ _ F) as Hr. rewrite Forall_forall in Hr.
    split; [|by apply Hr]. intros Hp. apply list_elem_of_bind in Hc as (t & Hct & Ht).
    apply descendant_cases in Hct as [->|(s & Hs & Hc)]; [done|]. exfalso.
    assert (s ∈ ts ≫= descendants) as Hs' by (apply list_elem_of_bind; eauto).
    destruct (node_linked s Hs') as [Hl _]. rewrite Forall_forall in Hl.
    rewrite (Hl c Hc) in Hp. symmetry in Hp. apply (forest_parent _ _ _ F _ Hp).
    rewrite ids_descendants. by apply (list_elem_of_fmap_2 (row_id ∘ label)).
  - intros c Hc. apply list_elem_of_bind. exists c. split; [apply descendants_self|done].
Qed.

Lemma kids_of_queue r : kids_of r (work_queue rows) ≡ₚ kids_of r rows.
Proof using Type. unfold kids_of, work_queue. by rewrite stable_sort_perm. Qed.

Lemma order_NoDup : NoDup (attribute_value_order rows).
Proof using F.
  unfold attribute_value_order. rewrite (forest_rows _ _ _ F), list_fmap_bind.
  apply (listed_NoDup ts); apply F.
Qed.

(** The rows below a value with an index map come in its order. *)
Lemma kids_in_order s : s ∈ ts ≫= descendants → is_Some (index_map (attribute_value (label s))) →
  kids_of (Some (row_id (label s))) (work_queue rows) = label <$> shown (subtrees s).
Proof using F.
  intros Hs [m Hm]. destruct (node_linked s Hs) as (_ & Hord & _). specialize (Hord m Hm).
  set (l := attribute_value_order rows). pose proof order_NoDup as Hn. fold l in Hn.
  assert (∃ pre post, l = pre ++ (row_id <$> (label <$> subtrees s)) ++ post) as (pre & post & Hl).
  { assert (label s ∈ rows) as (w1 & w2 & Hw)%list_elem_of_split by (apply elem_of_rows; eauto).
    unfold l, attribute_value_order. rewrite Hw, bind_app, bind_cons, Hm, Hord, list_fmap_compose.
    by eexists _, _. }
  assert (label <$> shown (subtrees s) =
    filter (λ x, is_Some (found_value x)) (label <$> subtrees s)) as Hshown.
  { unfold shown. clear. induction (subtrees s) as [|c cs IH]; [done|].
    rewrite fmap_cons, !filter_cons. case_decide; [by rewrite fmap_cons, IH|done]. }
  assert (∀ x, x ∈ label <$> subtrees s → l !! cached_key l x = Some (row_id x)) as Hkey.
  { intros x Hx. assert (row_id x ∈ l) as (n & Hx')%list_elem_of_lookup.
    { rewrite Hl, !elem_of_app. right. left. by apply list_elem_of_fmap_2. }
    by rewrite (cached_key_lookup l n). }
  apply (StronglySorted_unique_strong (λ x y, cached_key l x ≤ cached_key l y)).
  - intros x y Hx Hy Hxy Hyx. assert (cached_key l x = cached_key l y) as Hk by lia.
    rewrite kids_of_queue, kids_of_node, Hshown in Hx by done. rewrite Hshown in Hy.
    apply list_elem_of_filter in Hx as [_ Hx], Hy as [_ Hy].
    assert (∀ z, z ∈ label <$> subtrees s → z ∈ rows) as Hrows.
    { intros z (c & -> & Hc)%list_elem_of_fmap. apply elem_of_rows. eauto using child_node. }
    apply (NoDup_fmap_inj row_id rows); [apply rows_NoDup|by apply Hrows|by apply Hrows|].
    apply Hkey in Hx, Hy. rewrite Hk in Hx. congruence.
  - apply StronglySorted_filter, stable_sort_by_nat.
  - rewrite Hshown. apply StronglySorted_filter. rewrite Hl in Hn |- *.
    by apply part_sorted.
  - by rewrite kids_of_queue, kids_of_node.
Qed.

Lemma arrange t : everywhere (λ s, s ∈ ts ≫= descendants) t → everywhere node_ok t →
  ∃ t', arranged (work_queue rows) t t'.
Proof using F JO.
  induction t as [x cs IH] using tree_children_ind. intros Hin Hok.
  pose proof Hin as [Hx Hcs]%everywhere_inv. apply everywhere_inv in Hok as [Hnode Hok].
  assert (∃ mid, Forall2 (arranged (work_queue rows)) cs mid) as (mid & Hmid).
  { apply choose_all. rewrite Forall_forall in IH. intros c Hc. by apply IH; [..|apply Hcs|apply Hok]. }
  destruct (found_value x) as [v|] eqn:Hv; [|eauto using arranged_hidden].
  destruct (is_container (prop_kind (prop x))) eqn:Hc; [|eauto using arranged_hidden].
  destruct (arrange_level (work_queue rows) v (kids_of (Some (row_id x)) (work_queue rows)) cs mid)
    as (cs' & Hcs').
  - done.
  - by apply (Hnode v).
  - rewrite kids_of_queue. apply (kids_of_node (TNode x cs) Hx).
  - intros Hobj. destruct (decide (cs = [])) as [->|Hne].
    + apply Permutation_nil_r. rewrite kids_of_queue. apply (kids_of_node (TNode x []) Hx).
    + apply (kids_in_order (TNode x cs) Hx). by apply (node_linked _ Hx) with v.
  - exists (TNode x cs'). by eapply arranged_node.
Qed.

Lemma arrange_forest : ∃ ts', arranged_level (work_queue rows) (Object ∅)
  (kids_of parent (work_queue rows)) ts ts'.
Proof using F JO.
  assert (∃ mid, Forall2 (arranged (work_queue rows)) ts mid) as (mid & Hmid).
  { pose proof (forest_ok _ _ _ F) as Hok. rewrite Forall_forall in Hok.
    apply choose_all. intros t Ht. apply arrange; [|by apply Hok]. intros s Hs.
    apply list_elem_of_bind. eauto. }
  eapply arrange_level; [done|apply F| |].
  - rewrite kids_of_queue. apply kids_of_parent.
  - unfold is_object. by rewrite as_object_Object.
Qed.

End rows.

(** ** The view *)

Lemma assembled rows parent ts : is_forest rows parent ts →
  ∃ st, assemble (E := E) (2 + length rows) (work_queue rows) (initial_state parent) = Some (Ok st) ∧
    properties st = attach_all (Object ∅) (entries ts) ∧
    (∀ t s, t ∈ shown ts → reached t s → ∃ ptr, pointers st !! row_id (label s) = Some ptr ∧
       pointer (properties st) ptr = build s) ∧
    (∀ i, i ∉ shown ts ≫= ids → pointers st !! i = pointers (initial_state parent) !! i).
Proof using JO.
  intros F. destruct (arrange_forest rows parent ts F) as (ts' & [Hk Hval Hl Hch Hids Hsh Hr]).
  destruct (level (E := E) parent ts' (work_queue rows) (initial_state parent) [] [] (Object ∅))
    as (q & st & Hleads & Hst & Hprops & Hloc).
  - done.
  - eapply Forall_impl; [exact Hch|]. by intros c' (c & []).
  - apply Forall_forall. intros t _. apply all_nodes.
  - rewrite Hids. apply F.
  - intros i Hi. rewrite Hids. by apply F.
  - done.
  - eapply Forall_impl; [exact Hch|]. by intros c' (c & []).
  - constructor.
  - done.
  - intros i ->. cbn. by rewrite lookup_insert_eq.
  - done.
  - pose proof (leads_runs _ _ _ _ _ _ Hleads) as Hruns. rewrite (runs_no_root q st Hst) in Hruns.
    rewrite <-(runs_assemble (2 + length rows)) in Hruns by (rewrite length_work_queue; cbn; lia).
    destruct (assemble _ _ _) as [[st'|]|]; cbn in Hruns; [|done..].
    injection Hruns as Hp Hptr. exists st'. rewrite Hp, Hptr, Hprops, Hval. cbn [set].
    split_and!; [done|done|..].
    + intros t s Ht Hs. destruct (Hr t Ht) as (k & t' & Hk' & Ha).
      destruct (arranged_reached _ _ _ Ha s Hs) as (ρ & s' & Hls & Hlab & Hb).
      rewrite <-Hlab, <-Hb. eexists. split; [by apply (Hloc k t')|].
      destruct (level_get (Object ∅) ts' k t' Hl Hk') as [Hg Hpl].
      pose proof (list_elem_of_lookup_2 _ _ _ Hk') as [Hv _]%elem_of_shown.
      apply build_shown in Hv as [w Hw]. unfold built in Hg. rewrite Hw in Hg.
      destruct (located_get t' ρ s' w Hls (arranged_ok _ _ _ Ha) Hw) as [Hget Hplain].
      assert (is_Some (build s')) as [w' Hw'].
      { apply build_shown, (located_shown t' ρ s' Hls), build_shown. by eexists. }
      rewrite Hw'. apply pointer_get; [by constructor|]. cbn [app]. rewrite get_cons, <-Hval, Hg.
      cbn. by rewrite Hget.
    + intros i Hi. rewrite (leads_pointers _ _ _ _ _ _ Hleads); [done|]. by rewrite Hsh.
Qed.

(** The view of the values of a context, when they form a forest: whatever the
    order of the rows, it is the value that is made from each row and the values
    of the rows below it, the elements of an array in the order of its index map;
    and the pointer that is recorded for a row leads to its value. *)
Theorem view_of_context (db : Database (E := E)) ctx rows ts :
  list_payload_for_read_context db ctx = Ok rows → is_forest rows None ts →
  ∃ view, new db ctx None = Some (Ok view) ∧
    view_value view = attach_all (Object ∅) (entries ts) ∧
    ∀ t s, t ∈ shown ts → reached t s →
      ∃ ptr, json_pointer_for_attribute_value_id view !! row_id (label s) = Some ptr ∧
        pointer (view_value view) ptr = build s.
Proof using JO.
  intros Hrows F. destruct (assembled rows None ts F) as (st & Hst & Hval & Hptr & _).
  exists {| view_value := properties st; json_pointer_for_attribute_value_id := pointers st |}.
  split_and!; [|done|done]. unfold new. rewrite Hrows. cbn [asked mbind result_bind parent_of_root].
  by rewrite Hst.
Qed.

(** C9: The view below a root value is the value that is made from the rows below
    it; it is null when the root has no value. *)
Theorem view_of_root (db : Database (E := E)) ctx root rows parent t :
  list_payload_for_read_context_and_root db root ctx = Ok rows →
  parent_of_root db (Some root) = Ok parent → unset_root db root = Ok () →
  is_forest rows parent [t] → row_id (label t) = root →
  ∃ view, new db ctx (Some root) = Some (Ok view) ∧ view_value view = default Null (build t).
Proof using JO.
  intros Hrows Hparent Hunset F <-. destruct (assembled rows parent [t] F) as (st & Hst & Hval & Hptr & Hout).
  unfold new. rewrite Hrows. cbn [asked mbind result_bind]. rewrite Hparent.
  cbn [mbind result_bind]. rewrite Hst. cbn [run_then view_of]. destruct (build t) as [w|] eqn:Hw.
  - destruct (Hptr t t) as (ptr & Hp & Hv).
    { apply elem_of_shown. split; [apply build_shown; by eexists|by left]. }
    { constructor. }
    rewrite Hp, Hv, Hw. cbn. by eexists.
  - assert (shown [t] = []) as Hnone.
    { apply filter_none. constructor; [|done]. rewrite <-build_shown, Hw. by intros []. }
    rewrite Hout by (rewrite Hnone; apply not_elem_of_nil).
    assert (pointers (initial_state parent) !! row_id (label t) = None) as ->.
    { destruct parent as [i|]; [|done]. cbn. apply lookup_insert_None. split; [done|].
      intros ->. apply (forest_parent _ _ _ F (row_id (label t)) eq_refl).
      rewrite bind_cons, ids_eq. by left. }
    rewrite Hunset. cbn. by eexists.
Qed.

End forest.
