(* ===== verification/ViewSample.v ===== *)
(** * A JSON crate, and views of it

    An implementation of [SerdeJson] that behaves as documented, and the view of a
    small component: an array whose rows come in another order than its elements,
    a map, and a row without a value. *)

From S2P Require Import Prelude AttributeContext IndexMap AttributeView ViewJson ViewTree ViewForest.
From Stdlib Require Import NArith ZArith Ascii.
From stdpp Require Import base tactics list gmap strings pretty.

(** ** The crate *)

Inductive json : Set :=
| JNull
| JBool (b : bool)
| JNumber (n : Z)
| JString (s : string)
| JArray (l : list json)
| JObject (m : gmap string json).

(** The tokens between the slashes. *)
Fixpoint split_slash (s : string) : list string :=
  match s with
  | EmptyString => [EmptyString]
  | String c s =>
      if decide (c = "/"%char) then EmptyString :: split_slash s
      else match split_slash s with
           | tok :: toks => String c tok :: toks
           | [] => [String c EmptyString]
           end
  end.

Definition tokens (p : string) : option (list string) :=
  match p with
  | EmptyString => Some []
  | String c p => if decide (c = "/"%char) then Some (split_slash p) else None
  end.

(** RFC 6901: [~1] stands for a slash, [~0] for a tilde. *)
Fixpoint unescape (tok : string) : string :=
  match tok with
  | EmptyString => EmptyString
  | String c tok' =>
      match tok' with
      | String d rest =>
          if decide (c = "~"%char ∧ d = "1"%char) then String "/" (unescape rest)
          else if decide (c = "~"%char ∧ d = "0"%char) then String "~" (unescape rest)
          else String c (unescape tok')
      | EmptyString => String c EmptyString
      end
  end.

Definition index_of (tok : string) (l : list json) : option nat :=
  fst <$> list_find (λ i, pretty i = tok) (seq 0 (length l)).

Fixpoint walk (v : json) (toks : list string) : option (json * (json → json)) :=
  match toks with
  | [] => Some (v, λ w, w)
  | tok :: toks =>
      match v with
      | JObject m =>
          x ← m !! unescape tok;
          '(y, put) ← walk x toks;
          Some (y, λ w, JObject (<[unescape tok := put w]> m))
      | JArray l =>
          i ← index_of tok l;
          x ← l !! i;
          '(y, put) ← walk x toks;
          Some (y, λ w, JArray (<[i := put w]> l))
      | _ => None
      end
  end.

Definition json_pointer_mut (v : json) (p : string) : option (json * (json → json)) :=
  toks ← tokens p; walk v toks.

#[export] Instance json_crate : SerdeJson := {|
  Value := json;
  Null := JNull;
  Object := JObject;
  Array := JArray;
  as_object v := match v with JObject m => Some m | _ => None end;
  as_array v := match v with JArray l => Some l | _ => None end;
  to_string _ := "";
  pointer v p := fst <$> json_pointer_mut v p;
  pointer_mut := json_pointer_mut;
|}.

(** ** It behaves as documented *)

Lemma unescape_plain tok : plain tok = true → unescape tok = tok.
Proof.
  induction tok as [|c tok IH]; [done|]. cbn. intros [Hc Hp]%andb_prop.
  apply andb_prop in Hc as [_ Hc]. apply negb_true_iff, bool_decide_eq_false in Hc.
  specialize (IH Hp). destruct tok as [|d rest]; [done|].
  rewrite !decide_False by (by intros [? _]). by rewrite IH.
Qed.

Lemma split_slash_plain tok : plain tok = true → split_slash tok = [tok].
Proof.
  induction tok as [|c tok IH]; [done|]. cbn. intros [[Hc _]%andb_prop Hp]%andb_prop.
  apply negb_true_iff, bool_decide_eq_false in Hc. by rewrite decide_False, IH.
Qed.

Lemma split_slash_app p q : split_slash (p +:+ String "/" q) = split_slash p ++ split_slash q.
Proof.
  induction p as [|c p IH]; [done|].
  change (split_slash (String c (p +:+ String "/" q)) = split_slash (String c p) ++ split_slash q).
  cbn [split_slash]. rewrite IH. case_decide; [done|].
  destruct (split_slash p) as [|tok toks] eqn:Hp; [|done]. exfalso. clear -Hp.
  destruct p; cbn in Hp; [done|]. case_decide; [done|]. by destruct (split_slash p).
Qed.

Lemma tokens_app p toks tok : tokens p = Some toks → plain tok = true →
  tokens (p +:+ "/" +:+ tok) = Some (toks ++ [tok]).
Proof.
  intros Hp Ht. destruct p as [|c p].
  - change (tokens (String "/" tok) = Some (toks ++ [tok])). cbn [tokens] in *.
    rewrite decide_True, split_slash_plain by done. by simplify_eq.
  - change (tokens (String c (p +:+ String "/" tok)) = Some (toks ++ [tok])). cbn [tokens] in *.
    case_decide; [|done]. simplify_eq. by rewrite split_slash_app, (split_slash_plain tok).
Qed.

Lemma walk_app v toks x put toks' y put' :
  walk v toks = Some (x, put) → walk x toks' = Some (y, put') →
  ∃ put'', walk v (toks ++ toks') = Some (y, put'') ∧ ∀ w, put'' w = put (put' w).
Proof.
  revert v x put. induction toks as [|tok toks IH]; intros v x put Hx Hy; cbn in Hx.
  { simplify_eq. eauto. }
  cbn. destruct v as [|b|n|s|l|m]; try done; cbn in *.
  - destruct (index_of tok l) as [i|]; [|done]. cbn in *. destruct (l !! i) as [z|]; [|done]. cbn in *.
    destruct (walk z toks) as [[x' put1]|] eqn:Hz; [|done]. cbn in Hx. simplify_eq.
    destruct (IH z x put1 Hz Hy) as (put2 & -> & Hput). cbn. eexists. split; [done|].
    intros w. cbn. by rewrite Hput.
  - destruct (m !! unescape tok) as [z|]; [|done]. cbn in *.
    destruct (walk z toks) as [[x' put1]|] eqn:Hz; [|done]. cbn in Hx. simplify_eq.
    destruct (IH z x put1 Hz Hy) as (put2 & -> & Hput). cbn. eexists. split; [done|].
    intros w. cbn. by rewrite Hput.
Qed.

Lemma plain_pretty_go n s : plain s = true → plain (pretty_N_go n s) = true.
Proof.
  revert s. induction (N.lt_wf_0 n) as [n _ IH]. intros s Hs.
  destruct (decide (0 < n)%N) as [Hn|Hn].
  - rewrite pretty_N_go_step by done. apply IH; [apply N.div_lt; lia|].
    assert (∀ d, (d < 10)%N → plain (String (pretty_N_char d) s) = true) as Hd.
    { intros d Hd. assert (d = 0 ∨ d = 1 ∨ d = 2 ∨ d = 3 ∨ d = 4 ∨ d = 5 ∨ d = 6 ∨ d = 7 ∨ d = 8 ∨ d = 9)%N
        as Hcases by lia. cbn. rewrite Hs. by destruct_or! Hcases; subst. }
    apply Hd, N.mod_lt. done.
  - assert (n = 0%N) as -> by lia. by rewrite pretty_N_go_0.
Qed.

Lemma plain_pretty (i : nat) : plain (pretty i) = true.
Proof.
  unfold pretty, pretty_nat, pretty, pretty_N. case_decide; [done|]. by apply plain_pretty_go.
Qed.

Lemma index_of_pretty i l : i < length l → index_of (pretty i) l = Some i.
Proof.
  intros Hi. unfold index_of.
  assert (list_find (λ j : nat, pretty j = pretty i) (seq 0 (length l)) = Some (i, i)) as ->; [|done].
  apply list_find_Some. split_and!; [by apply lookup_seq_lt|done|].
  intros j k Hj Hlt Hk. apply lookup_seq in Hj as [-> _]. apply (inj pretty) in Hk. cbn in Hk. lia.
Qed.

#[export] Instance json_crate_ok : SerdeJsonOk json_crate.
Proof.
  split.
  - done.
  - intros v m Hv. destruct v; cbn in Hv; by simplify_eq.
  - done.
  - intros v l Hv. destruct v; cbn in Hv; by simplify_eq.
  - done.
  - done.
  - intros v. by exists (λ w, w).
  - intros v p m put tok x Ht Hp Hx. cbn in *. unfold json_pointer_mut in *.
    destruct (tokens p) as [toks|] eqn:Htoks; [|done]. cbn in Hp.
    rewrite (tokens_app p toks tok Htoks Ht). cbn.
    destruct (walk_app v toks (JObject m) put [tok] x (λ w, JObject (<[tok := w]> m)) Hp) as (put' & H & Hw).
    + cbn. by rewrite unescape_plain, Hx.
    + eauto.
  - intros v p l put i x Hp Hx. cbn in *. unfold json_pointer_mut in *.
    destruct (tokens p) as [toks|] eqn:Htoks; [|done]. cbn in Hp.
    rewrite (tokens_app p toks (pretty i) Htoks (plain_pretty i)). cbn.
    destruct (walk_app v toks (JArray l) put [pretty i] x (λ w, JArray (<[i := w]> l)) Hp)
      as (put' & H & Hw).
    + cbn. rewrite index_of_pretty by (by eapply lookup_lt_Some). cbn. by rewrite Hx.
    + eauto.
Qed.

(** ** A component *)

Section sample.

Definition a_context : Context.AttributeContext :=
  {| Context.prop_id := 1%N; Context.internal_provider_id := NONE;
     Context.external_provider_id := NONE; Context.component_id := 5%N |}.

Definition a_row (i : N) (parent : option N) (name : string) (kind : PropKind.t) (key : option string)
    (m : option IndexMap) (v : option json) : AttributeValuePayload :=
  {| prop := {| prop_pk := 1%N; prop_name := name; prop_kind := kind |};
     func_binding_return_value := Some {| value := v |};
     attribute_value := {| id := i; key := key; index_map := m; context := a_context |};
     parent_attribute_value_id := parent |}.

(** The list has the elements 5 and 4, in this order. *)
Definition list_order : IndexMap := push (push IndexMap.new 5%N None) 4%N None.
Definition tags_order : IndexMap := push IndexMap.new 6%N (Some "env").

Definition root_row (parent : option N) := a_row 1 parent "root" PropKind.Object None None (Some (JObject ∅)).
Definition list_row := a_row 2 (Some 1%N) "list" PropKind.Array None (Some list_order) (Some (JArray [])).
Definition tags_row := a_row 3 (Some 1%N) "tags" PropKind.Map None (Some tags_order) (Some (JObject ∅)).
Definition second_row := a_row 4 (Some 2%N) "item" PropKind.String_ None None (Some (JString "second")).
Definition first_row := a_row 5 (Some 2%N) "item" PropKind.String_ None None (Some (JString "first")).
Definition env_row := a_row 6 (Some 3%N) "tag" PropKind.String_ (Some "env") None (Some (JString "prod")).
Definition unset_row := a_row 7 (Some 1%N) "name" PropKind.String_ None None None.

Definition sample_rows (parent : option N) : list AttributeValuePayload :=
  [second_row; root_row parent; env_row; tags_row; first_row; unset_row; list_row].

Definition sample_tree (parent : option N) : tree AttributeValuePayload :=
  TNode (root_row parent)
    [TNode list_row [TNode first_row []; TNode second_row []];
     TNode tags_row [TNode env_row []];
     TNode unset_row []].

Definition sample_db (parent : option N) : Database (E := unit) :=
  {| list_payload_for_read_context _ := Ok (sample_rows parent);
     list_payload_for_read_context_and_root _ _ := Ok (sample_rows parent);
     get_by_id i := Ok (Some {| id := i; key := None; index_map := None; context := a_context |});
     parent_attribute_value _ :=
       Ok ((λ i, {| id := i; key := None; index_map := None; context := a_context |}) <$> parent);
     prop_get_by_id _ := Ok (Some {| prop_pk := 1%N; prop_name := "root"; prop_kind := PropKind.Object |}) |}.

Definition sample_value : json :=
  JObject (<["list" := JArray [JString "first"; JString "second"]]>
          (<["tags" := JObject (<["env" := JString "prod"]> ∅)]> ∅)).

Lemma each_descendant {A} (Q : tree A → Prop) t : Forall Q (descendants t) → everywhere Q t.
Proof. intros Hall s Hs. rewrite Forall_forall in Hall. by apply Hall. Qed.

Ltac each_node :=
  apply each_descendant; cbn; repeat (apply Forall_cons; split); [..|by apply Forall_nil].

Lemma sample_linked parent : everywhere linked (sample_tree parent).
Proof.
  each_node; (split; [repeat constructor|split]).
  all: try (intros m [= <-]; reflexivity); try done.
  all: intros v [= <-]; try done; eauto.
Qed.

Lemma sample_ok parent : everywhere node_ok (sample_tree parent).
Proof.
  each_node; intros v [= <-] Hc; try done; (split; [done|]); try done; intros _;
    (split; [apply (bool_decide_unpack _); vm_compute; done|repeat constructor]).
Qed.

Lemma sample_forest parent : (∀ i, parent = Some i → (9 < i)%N) →
  is_forest (sample_rows parent) parent [sample_tree parent].
Proof.
  intros Hp. constructor.
  - unfold sample_rows. cbn. solve_Permutation.
  - apply (bool_decide_unpack _). by vm_compute.
  - by repeat constructor.
  - intros i Hi Hin. specialize (Hp i Hi). cbn in Hin.
    repeat (apply elem_of_cons in Hin as [->|Hin]; [cbn in Hp; lia|]). by inversion Hin.
  - constructor; [apply sample_linked|done].
  - constructor; [apply sample_ok|done].
  - split; [done|]. intros _. split; [apply (bool_decide_unpack _); by vm_compute|by repeat constructor].
Qed.

Lemma view_of_context_witness :
  ∃ view, new (sample_db None) Context.any None = Some (Ok view) ∧
    view_value view = JObject (<["root" := sample_value]> ∅) ∧
    ∃ ptr, json_pointer_for_attribute_value_id view !! 5%N = Some ptr ∧
      pointer (view_value view) ptr = Some (JString "first").
Proof.
  destruct (view_of_context (sample_db None) Context.any (sample_rows None) [sample_tree None])
    as (view & Hview & Hvalue & Hptr); [done|by apply sample_forest|].
  exists view. split_and!; [done|rewrite Hvalue; by vm_compute|].
  apply (Hptr (sample_tree None) (TNode first_row [])); [by left|].
  eapply reached_below with (c := TNode list_row _); [by eexists|done|by left|].
  eapply reached_below with (c := TNode first_row _); [by eexists|done|by left|constructor].
Defined.

Lemma view_of_root_witness :
  ∃ view, new (sample_db (Some 10%N)) Context.any (Some 1%N) = Some (Ok view) ∧
    view_value view = sample_value.
Proof.
  destruct (view_of_root (sample_db (Some 10%N)) Context.any 1%N (sample_rows (Some 10%N)) (Some 10%N)
    (sample_tree (Some 10%N))) as (view & Hview & Hvalue); [done..| |done|].
  - apply sample_forest. by intros i [= <-].
  - exists view. split; [done|]. rewrite Hvalue. by vm_compute.
Defined.

(** ** Keys with a slash *)

(** A map with an object under the key [a/b], which has an entry. *)
Definition slash_db : Database (E := unit) :=
  {| list_payload_for_read_context _ :=
       Ok [a_row 1 None "tags" PropKind.Map None None (Some (JObject ∅));
           a_row 2 (Some 1%N) "tag" PropKind.Object (Some "a/b") None (Some (JObject ∅));
           a_row 3 (Some 2%N) "name" PropKind.String_ None None (Some (JString "x"))];
     list_payload_for_read_context_and_root _ _ := Ok [];
     get_by_id _ := Ok None;
     parent_attribute_value _ := Ok None;
     prop_get_by_id _ := Ok None |}.

(** The keys of maps are the user's, and they are written into the pointers without
    the escapes that RFC 6901 asks for: below a key with a slash the view fails. *)
Theorem key_with_slash_fails :
  new slash_db Context.any None = Some (Err (Fault (BadJsonPointer "/tags/a/b" ""))).
Proof. evaluate. Qed.

End sample.
