(* ===== verification/VariantDefinition.v ===== *)
(** * Asset definitions

    Model of [src/lib/dal/src/schema/variant/definition.rs]: what the author of an
    asset writes (props, sockets, where values come from) with the metadata of the
    asset, and its conversion to the specification of a schema variant, from which
    a package is made; and the metadata that are read from a package again. *)

From S2P Require Import Prelude Bytes KeyValue NodeEntries ObjectGraph ObjectTar ObjectSample AttributeView.
From S2P Require Import PkgSpec PkgFields PkgNodes PkgNodesData PkgNode PkgLeaves PkgTree PkgViews.
From S2P Require Import PkgProps PkgPackage PkgImport PkgPropTree PkgRoundtrip.
From Stdlib Require Import NArith ZArith Init.Byte.
From stdpp Require Import base tactics list gmap strings.

Abbreviation text := (list Byte.byte) (only parsing).

(** ** Enumerations of the dal *)

Module ComponentKind.
Inductive t : Set := Credential | Standard.
End ComponentKind.

Module ComponentType.
Inductive t : Set := AggregationFrame | Component | ConfigurationFrame.

Definition from (v : SchemaVariantSpecComponentType.t) : t :=
  match v with
  | SchemaVariantSpecComponentType.Component => Component
  | SchemaVariantSpecComponentType.ConfigurationFrame => ConfigurationFrame
  | SchemaVariantSpecComponentType.AggregationFrame => AggregationFrame
  end.

Definition into (v : t) : SchemaVariantSpecComponentType.t :=
  match v with
  | Component => SchemaVariantSpecComponentType.Component
  | ConfigurationFrame => SchemaVariantSpecComponentType.ConfigurationFrame
  | AggregationFrame => SchemaVariantSpecComponentType.AggregationFrame
  end.

End ComponentType.

Module WidgetKind.
Inductive t : Set :=
| Array | Checkbox | Color | ComboBox | Header | Map | Secret | Select | Text | TextArea.

Definition into (v : t) : PropSpecWidgetKind.t :=
  match v with
  | Array => PropSpecWidgetKind.Array
  | Checkbox => PropSpecWidgetKind.Checkbox
  | Header => PropSpecWidgetKind.Header
  | Map => PropSpecWidgetKind.Map
  | Select => PropSpecWidgetKind.Select
  | Color => PropSpecWidgetKind.Color
  | Secret => PropSpecWidgetKind.Secret
  | Text => PropSpecWidgetKind.Text
  | TextArea => PropSpecWidgetKind.TextArea
  | ComboBox => PropSpecWidgetKind.ComboBox
  end.

End WidgetKind.

Module SocketArity.
Inductive t : Set := Many | One.

Definition into (v : t) : SocketSpecArity.t :=
  match v with One => SocketSpecArity.One | Many => SocketSpecArity.Many end.

End SocketArity.

(** [PropSpecKind::from(PropKind)]. *)
Definition prop_kind_into (k : PropKind.t) : PropSpecKind.t :=
  match k with
  | PropKind.Array => PropSpecKind.Array
  | PropKind.Boolean => PropSpecKind.Boolean
  | PropKind.String_ => PropSpecKind.String_
  | PropKind.Integer => PropSpecKind.Number
  | PropKind.Object => PropSpecKind.Object
  | PropKind.Map => PropSpecKind.Map
  end.

(** The errors of the conversions. *)
Inductive SchemaVariantDefinitionError : Type :=
| MoreThanOneVariant
| NoVariants
| DefinitionSpec (e : SpecError)
| DefinitionUrl.

(** ** Where values come from *)

(** [PropPath::new]: the parts, joined by the separator. *)
Fixpoint prop_path_new (parts : list text) : text :=
  match parts with
  | [] => []
  | [part] => part
  | part :: parts => part ++ SiPkgSchemaVariant.PROP_PATH_SEPARATOR ++ prop_path_new parts
  end.

Module ValueFrom.
Inductive t : Type :=
| InputSocket (socket_name : text)
| OutputSocket (socket_name : text)
| Prop_ (prop_path : list text).

Definition to_spec (v : t) : AttrFuncInputSpec.t :=
  match v with
  | InputSocket socket_name => AttrFuncInputSpec.InputSocket (str "identity") socket_name None false
  | Prop_ prop_path =>
      AttrFuncInputSpec.Prop_ (str "identity") (prop_path_new prop_path) None false
  | OutputSocket socket_name => AttrFuncInputSpec.OutputSocket (str "identity") socket_name None false
  end.

End ValueFrom.

Module SiPropValueFrom.
Record t := {
  kind : SiPropFuncSpecKind.t;
  value_from : ValueFrom.t;
}.

Definition to_spec (identity_func_unique_id : text) (v : t) : SiPropFuncSpec.t :=
  {| SiPropFuncSpec.kind := kind v;
     SiPropFuncSpec.func_unique_id := identity_func_unique_id;
     SiPropFuncSpec.unique_id := None; SiPropFuncSpec.deleted := false;
     SiPropFuncSpec.inputs := [ValueFrom.to_spec (value_from v)] |}.

End SiPropValueFrom.

Module MapKeyFunc.
Record t := {
  key : text;
  value_from : option ValueFrom.t;
}.

(** The fields that the derived builder requires are set. *)
Definition to_spec (identity_func_unique_id : text) (f : t) : MapKeyFuncSpec.t :=
  {| MapKeyFuncSpec.key := key f; MapKeyFuncSpec.func_unique_id := identity_func_unique_id;
     MapKeyFuncSpec.inputs :=
       match value_from f with Some v => [ValueFrom.to_spec v] | None => [] end |}.

End MapKeyFunc.

(** ** Sockets *)

Module SocketDefinition.
Record t := {
  name : text;
  arity : option SocketArity.t;
  ui_hidden : option bool;
  value_from : option ValueFrom.t;
}.

Definition to_spec (is_input : bool) (identity_func_unique_id : text) (s : t) : SocketSpec.t :=
  {| SocketSpec.name := name s;
     SocketSpec.data :=
       Some {| SocketSpec.func_unique_id :=
                 match value_from s with Some _ => Some identity_func_unique_id | None => None end;
               SocketSpec.kind := if is_input then SocketSpecKind.Input else SocketSpecKind.Output;
               SocketSpec.data_name := name s;
               SocketSpec.arity :=
                 match arity s with
                 | Some arity => SocketArity.into arity
                 | None => SocketSpecArity.Many
                 end;
               SocketSpec.ui_hidden :=
                 match ui_hidden s with Some hidden => hidden | None => false end |};
     SocketSpec.inputs :=
       match value_from s with Some v => [ValueFrom.to_spec v] | None => [] end;
     SocketSpec.unique_id := None |}.

End SocketDefinition.

(** ** Props *)

Module PropDefinition.
Section definition.
Context {X : Externals}.

Record PropWidgetDefinition := {
  widget_kind : WidgetKind.t;
  options : option Json;
}.

Inductive t : Type := Mk {
  name : text;
  kind : PropKind.t;
  doc_link_ref : option text;
  doc_link : option text;
  children : list t;
  entry : option t;
  widget : option PropWidgetDefinition;
  value_from : option ValueFrom.t;
  hidden : option bool;
  validations : option (list ValidationSpec.t);
  default_value : option Json;
  map_key_funcs : option (list MapKeyFunc.t);
}.

(** [if let Some(a) = o { f(a) }]. *)
Definition when {A B} (o : option A) (f : A → B → B) (b : B) : B :=
  match o with Some a => f a b | None => b end.

(** [for a in l { f(a) }]. *)
Definition each {A B} (l : list A) (f : A → B → B) (b : B) : B := foldl (λ b a, f a b) b l.

Definition try_doc_link (link : option text) (b : PropSpecBuilder.t) :
    result SchemaVariantDefinitionError PropSpecBuilder.t :=
  match link with
  | None => Ok b
  | Some link => u ← ok_or (url_parse link) DefinitionUrl; Ok (PropSpecBuilder.doc_link u b)
  end.

(** What follows the children. *)
Definition finish (identity_func_unique_id : text) (d : t) (b : PropSpecBuilder.t) :
    result SchemaVariantDefinitionError PropSpec.t :=
  let b := when (widget d) (λ w b,
    when (options w) PropSpecBuilder.widget_options
      (PropSpecBuilder.widget_kind (WidgetKind.into (widget_kind w)) b)) b in
  let b := when (value_from d) (λ v b,
    PropSpecBuilder.input (ValueFrom.to_spec v)
      (PropSpecBuilder.func_unique_id identity_func_unique_id b)) b in
  let b := when (hidden d) PropSpecBuilder.hidden b in
  let b := when (map_key_funcs d) (λ fs, each fs (λ f,
    PropSpecBuilder.map_key_func (MapKeyFunc.to_spec identity_func_unique_id f))) b in
  map_err DefinitionSpec (PropSpecBuilder.build b).

Fixpoint to_spec (identity_func_unique_id : text) (d : t) :
    result SchemaVariantDefinitionError PropSpec.t :=
  let b := PropSpecBuilder.has_data true
    (PropSpecBuilder.kind (prop_kind_into (kind d))
      (PropSpecBuilder.name (name d) PropSpecBuilder.new)) in
  b ← try_doc_link (doc_link d) b;
  let b := when (default_value d) PropSpecBuilder.default_value b in
  let b := when (validations d) (λ vs, each vs PropSpecBuilder.validation) b in
  b ← match d with
      | Mk _ (PropKind.Array | PropKind.Map) _ _ _ (Some entry) _ _ _ _ _ _ =>
          p ← to_spec identity_func_unique_id entry;
          Ok (PropSpecBuilder.type_prop p b)
      | Mk _ PropKind.Object _ _ children _ _ _ _ _ _ _ =>
          ps ← try_map (to_spec identity_func_unique_id) children;
          Ok (each ps PropSpecBuilder.entry b)
      | _ => Ok b
      end;
  finish identity_func_unique_id d b.

End definition.
End PropDefinition.

(** ** Metadata *)

Module SchemaVariantDefinitionMetadataJson.
Section metadata.
Context {X : Externals}.

Record t := {
  name : text;
  menu_name : option text;
  category : text;
  color : text;
  component_kind : ComponentKind.t;
  component_type : ComponentType.t;
  link : option text;
  description : option text;
}.

Definition to_spec (m : t) (variant : SchemaVariantSpec.t) : SchemaSpec.t :=
  {| SchemaSpec.name := name m;
     SchemaSpec.data :=
       Some {| SchemaSpec.data_name := name m; SchemaSpec.category := category m;
               SchemaSpec.category_name := menu_name m; SchemaSpec.ui_hidden := false;
               SchemaSpec.default_schema_variant := None |};
     SchemaSpec.unique_id := None; SchemaSpec.deleted := false;
     SchemaSpec.variants := [variant] |}.

End metadata.
End SchemaVariantDefinitionMetadataJson.

(** ** Definitions *)

Module SchemaVariantDefinitionJson.
Import SchemaVariantDefinitionMetadataJson.
Section definition.
Context {X : Externals}.

Record t := {
  props : list PropDefinition.t;
  secret_props : list PropDefinition.t;
  secret_definition : option (list PropDefinition.t);
  resource_props : list PropDefinition.t;
  si_prop_value_froms : list SiPropValueFrom.t;
  input_sockets : list SocketDefinition.t;
  output_sockets : list SocketDefinition.t;
  doc_links : option (gmap text text);
}.

(** The setters of the derived builder. *)
Definition new_builder : SchemaVariantSpecBuilder.t :=
  {| SchemaVariantSpecBuilder.b_name := None; SchemaVariantSpecBuilder.b_data := None;
     SchemaVariantSpecBuilder.b_unique_id := None; SchemaVariantSpecBuilder.b_deleted := None;
     SchemaVariantSpecBuilder.b_action_funcs := None;
     SchemaVariantSpecBuilder.b_leaf_functions := None;
     SchemaVariantSpecBuilder.b_sockets := None; SchemaVariantSpecBuilder.b_si_prop_funcs := None;
     SchemaVariantSpecBuilder.b_domain := None; SchemaVariantSpecBuilder.b_secrets := None;
     SchemaVariantSpecBuilder.b_secret_definition := None;
     SchemaVariantSpecBuilder.b_resource_value := None |}.

Definition with_name (name : text) (b : SchemaVariantSpecBuilder.t) : SchemaVariantSpecBuilder.t :=
  let '(SchemaVariantSpecBuilder.Build_t _ d u de af lf so sp dom sec sd rv) := b in
  SchemaVariantSpecBuilder.Build_t (Some name) d u de af lf so sp dom sec sd rv.

Definition with_data (data : SchemaVariantSpec.SchemaVariantSpecData)
    (b : SchemaVariantSpecBuilder.t) : SchemaVariantSpecBuilder.t :=
  let '(SchemaVariantSpecBuilder.Build_t n _ u de af lf so sp dom sec sd rv) := b in
  SchemaVariantSpecBuilder.Build_t n (Some (Some data)) u de af lf so sp dom sec sd rv.

Definition socket (s : SocketSpec.t) (b : SchemaVariantSpecBuilder.t) : SchemaVariantSpecBuilder.t :=
  let '(SchemaVariantSpecBuilder.Build_t n d u de af lf so sp dom sec sd rv) := b in
  SchemaVariantSpecBuilder.Build_t n d u de af lf (Some (default [] so ++ [s])) sp dom sec sd rv.

Definition si_prop_func (s : SiPropFuncSpec.t) (b : SchemaVariantSpecBuilder.t) :
    SchemaVariantSpecBuilder.t :=
  let '(SchemaVariantSpecBuilder.Build_t n d u de af lf so sp dom sec sd rv) := b in
  SchemaVariantSpecBuilder.Build_t n d u de af lf so (Some (default [] sp ++ [s])) dom sec sd rv.

(** [for prop in props { builder.prop(root, prop.to_spec(..)?) }]. *)
Fixpoint add_props (identity_func_unique_id : text) (root : SchemaVariantSpecPropRoot)
    (props : list PropDefinition.t) (b : SchemaVariantSpecBuilder.t) :
    result (fault SchemaVariantDefinitionError) SchemaVariantSpecBuilder.t :=
  match props with
  | [] => Ok b
  | prop :: props =>
      p ← map_err Fault (PropDefinition.to_spec identity_func_unique_id prop);
      b ← SchemaVariantSpecBuilder.prop root p b;
      add_props identity_func_unique_id root props b
  end.

(** [SchemaVariantSpecDataBuilder::try_link]. *)
Definition try_link (link : option text) : result (fault SchemaVariantDefinitionError) (option Url) :=
  match link with
  | None => Ok None
  | Some link => u ← ok_or (url_parse link) (Fault DefinitionUrl); Ok (Some u)
  end.

Definition to_spec (d : t) (metadata : SchemaVariantDefinitionMetadataJson.t)
    (identity_func_unique_id asset_func_spec_unique_id : text) :
    result (fault SchemaVariantDefinitionError) SchemaVariantSpec.t :=
  let b := with_name (str "v0") new_builder in
  link ← try_link (link metadata);
  let b := with_data
    {| SchemaVariantSpec.data_name := str "v0"; SchemaVariantSpec.link := link;
       SchemaVariantSpec.color := Some (color metadata);
       SchemaVariantSpec.component_type := ComponentType.into (component_type metadata);
       SchemaVariantSpec.func_unique_id := asset_func_spec_unique_id |} b in
  let b := PropDefinition.each (si_prop_value_froms d)
    (λ v, si_prop_func (SiPropValueFrom.to_spec identity_func_unique_id v)) b in
  b ← add_props identity_func_unique_id Domain (props d) b;
  b ← add_props identity_func_unique_id Secrets (secret_props d) b;
  b ← match secret_definition d with
      | Some props => add_props identity_func_unique_id SecretDefinition props b
      | None => Ok b
      end;
  b ← add_props identity_func_unique_id ResourceValue (resource_props d) b;
  let b := PropDefinition.each (input_sockets d)
    (λ s, socket (SocketDefinition.to_spec true identity_func_unique_id s)) b in
  let b := PropDefinition.each (output_sockets d)
    (λ s, socket (SocketDefinition.to_spec false identity_func_unique_id s)) b in
  map_err (Fault ∘ DefinitionSpec) (SchemaVariantSpecBuilder.build b).

Definition metadata_from_spec (schema_spec : SchemaSpec.t) :
    result SchemaVariantDefinitionError SchemaVariantDefinitionMetadataJson.t :=
  match SchemaSpec.variants schema_spec with
  | _ :: _ :: _ => Err MoreThanOneVariant
  | [] => Err NoVariants
  | [variant_spec] =>
      let schema_data := default
        {| SchemaSpec.data_name := SchemaSpec.name schema_spec; SchemaSpec.category := str "";
           SchemaSpec.category_name := None; SchemaSpec.ui_hidden := false;
           SchemaSpec.default_schema_variant := SchemaVariantSpec.unique_id variant_spec |}
        (SchemaSpec.data schema_spec) in
      let variant_spec_data := default
        {| SchemaVariantSpec.data_name := str "v0"; SchemaVariantSpec.link := None;
           SchemaVariantSpec.color := None;
           SchemaVariantSpec.component_type := SchemaVariantSpecComponentType.Component;
           SchemaVariantSpec.func_unique_id := str "0" |}
        (SchemaVariantSpec.data variant_spec) in
      Ok {| name := SchemaSpec.name schema_spec;
            menu_name := SchemaSpec.category_name schema_data;
            category := SchemaSpec.category schema_data;
            color := default (str "000000") (SchemaVariantSpec.color variant_spec_data);
            component_kind := ComponentKind.Standard;
            component_type := ComponentType.from (SchemaVariantSpec.component_type variant_spec_data);
            link := url_as_str <$> SchemaVariantSpec.link variant_spec_data;
            description := None |}
  end.

End definition.
End SchemaVariantDefinitionJson.

(** ** What a definition stands for *)

Section meaning.
Context {X : Externals}.
Import PropDefinition.

(** The data of a prop. *)
Definition prop_data (identity : text) (d : PropDefinition.t) (link : option Url) :
    PropSpec.PropSpecData :=
  {| PropSpec.data_name := name d; PropSpec.default_value := default_value d;
     PropSpec.validations := Some (default [] (validations d));
     PropSpec.func_unique_id := match value_from d with Some _ => Some identity | None => None end;
     PropSpec.inputs :=
       Some (match value_from d with Some v => [ValueFrom.to_spec v] | None => [] end);
     PropSpec.widget_kind := (λ w, WidgetKind.into (widget_kind w)) <$> widget d;
     PropSpec.widget_options := widget d ≫= options;
     PropSpec.hidden := Some (default false (hidden d)); PropSpec.doc_link := link |}.

Definition parsed_link (link : option text) : option (option Url) :=
  match link with Some l => Some <$> url_parse l | None => Some None end.

(** The specification of a prop: none when a link is no URL, or when an array or a
    map has no entry. *)
Fixpoint prop_spec (identity : text) (d : PropDefinition.t) : option PropSpec.t :=
  link ← parsed_link (doc_link d);
  let data := Some (prop_data identity d link) in
  match d with
  | Mk name PropKind.Array _ _ _ entry _ _ _ _ _ _ =>
      e ← entry; p ← prop_spec identity e; Some (PropSpec.Array name data None p)
  | Mk name PropKind.Map _ _ _ entry _ _ _ _ _ keys =>
      e ← entry; p ← prop_spec identity e;
      Some (PropSpec.Map name data None p
              (Some (MapKeyFunc.to_spec identity <$> default [] keys)))
  | Mk name PropKind.Object _ _ children _ _ _ _ _ _ _ =>
      ps ← mapM (prop_spec identity) children; Some (PropSpec.Object name data None ps)
  | Mk name PropKind.Boolean _ _ _ _ _ _ _ _ _ _ => Some (PropSpec.Boolean name data None)
  | Mk name PropKind.Integer _ _ _ _ _ _ _ _ _ _ => Some (PropSpec.Number name data None)
  | Mk name PropKind.String_ _ _ _ _ _ _ _ _ _ _ => Some (PropSpec.String_ name data None)
  end.

(** ** Props *)

(** Induction over what is below a prop. *)
Lemma definition_ind (Q : PropDefinition.t → Prop) :
  (∀ d, Forall Q (children d) → Forall Q (option_list (entry d)) → Q d) → ∀ d, Q d.
Proof.
  intros H. fix IH 1. intros [n k dr dl cs e w vf h vs dv mk]. apply H; cbn.
  - induction cs as [|c cs IHcs]; constructor; [apply IH|apply IHcs].
  - destruct e as [e|]; constructor; [apply IH|constructor].
Qed.

Lemma each_validation vs dv dl es f h i k mk n tp vs0 wk wo u :
  each vs PropSpecBuilder.validation
    (PropSpecBuilder.Mk dv dl es f h i k mk n tp vs0 wk wo u true) =
  PropSpecBuilder.Mk dv dl es f h i k mk n tp (vs0 ++ vs) wk wo u true.
Proof.
  revert vs0. induction vs as [|v vs IH]; intros vs0; [by rewrite app_nil_r|].
  unfold each in *. cbn. rewrite IH. by rewrite <-(assoc_L (++)).
Qed.

Lemma each_entry ps dv dl es f h i k mk n tp vs wk wo u hd :
  each ps PropSpecBuilder.entry
    (PropSpecBuilder.Mk dv dl es f h i k mk n tp vs wk wo u hd) =
  PropSpecBuilder.Mk dv dl (es ++ ps) f h i k mk n tp vs wk wo u hd.
Proof.
  revert es. induction ps as [|p ps IH]; intros es; [by rewrite app_nil_r|].
  unfold each in *. cbn. rewrite IH. by rewrite <-(assoc_L (++)).
Qed.

Lemma each_map_key_func identity fs dv dl es f h i k mk n tp vs wk wo u :
  each fs (λ f, PropSpecBuilder.map_key_func (MapKeyFunc.to_spec identity f))
    (PropSpecBuilder.Mk dv dl es f h i k mk n tp vs wk wo u true) =
  PropSpecBuilder.Mk dv dl es f h i k (mk ++ (MapKeyFunc.to_spec identity <$> fs)) n tp vs wk wo u true.
Proof.
  revert mk. induction fs as [|x fs IH]; intros mk; [by rewrite app_nil_r|].
  unfold each in *. cbn. rewrite IH. by rewrite <-(assoc_L (++)).
Qed.

Lemma finish_spec identity d dv dl es n k tp vs :
  finish identity d (PropSpecBuilder.Mk dv dl es None false [] k [] n tp vs None None None true) =
  map_err DefinitionSpec (PropSpecBuilder.build
    (PropSpecBuilder.Mk dv dl es
       (match value_from d with Some _ => Some identity | None => None end)
       (default false (hidden d))
       (match value_from d with Some v => [ValueFrom.to_spec v] | None => [] end) k
       (MapKeyFunc.to_spec identity <$> default [] (map_key_funcs d)) n tp vs
       ((λ w, WidgetKind.into (widget_kind w)) <$> widget d) (widget d ≫= options) None true)).
Proof.
  unfold finish, when. do 2 f_equal.
  destruct (widget d) as [[wk [o|]]|], (value_from d), (hidden d), (map_key_funcs d); cbn;
    by rewrite ?each_map_key_func.
Qed.

Abbreviation no_entry := (DefinitionSpec (UninitializedField "type_prop")).

(** How converting a definition goes wrong. *)
Definition converts {A} (r : result SchemaVariantDefinitionError A) (o : option A) : Prop :=
  match o with
  | Some a => r = Ok a
  | None => r = Err DefinitionUrl ∨ r = Err no_entry
  end.

Lemma try_map_converts {A B} (f : A → result SchemaVariantDefinitionError B) (g : A → option B) l :
  Forall (λ a, converts (f a) (g a)) l → converts (try_map f l) (mapM g l).
Proof.
  induction 1 as [|a l Ha _ IH]; [done|]. cbn. destruct (g a) as [b|]; cbn in *.
  - rewrite Ha. cbn. destruct (mapM g l) as [bs|]; cbn in *; [by rewrite IH|].
    by destruct IH as [-> | ->]; [left|right].
  - by destruct Ha as [-> | ->]; [left|right].
Qed.

(** The builder before the children are added. *)
Definition started (d : PropDefinition.t) (link : option Url) : PropSpecBuilder.t :=
  PropSpecBuilder.Mk (default_value d) link [] None false [] (Some (prop_kind_into (kind d))) []
    (Some (name d)) None (default [] (validations d)) None None None true.

(** The builder with the children. *)
Definition with_children (identity : text) (d : PropDefinition.t) (b : PropSpecBuilder.t) :
    result SchemaVariantDefinitionError PropSpecBuilder.t :=
  match d with
  | Mk _ (PropKind.Array | PropKind.Map) _ _ _ (Some entry) _ _ _ _ _ _ =>
      p ← to_spec identity entry; Ok (PropSpecBuilder.type_prop p b)
  | Mk _ PropKind.Object _ _ children _ _ _ _ _ _ _ =>
      ps ← try_map (to_spec identity) children; Ok (each ps PropSpecBuilder.entry b)
  | _ => Ok b
  end.

Lemma to_spec_eq identity d :
  to_spec identity d =
    match parsed_link (doc_link d) with
    | Some link => with_children identity d (started d link) ≫= finish identity d
    | None => Err DefinitionUrl
    end.
Proof.
  destruct d as [n k dr dl cs e w vf h vs dv mk].
  transitivity (b ← try_doc_link dl (PropSpecBuilder.has_data true
    (PropSpecBuilder.kind (prop_kind_into k) (PropSpecBuilder.name n PropSpecBuilder.new)));
    with_children identity (Mk n k dr dl cs e w vf h vs dv mk)
      (when vs (λ vs, each vs PropSpecBuilder.validation) (when dv PropSpecBuilder.default_value b))
    ≫= finish identity (Mk n k dr dl cs e w vf h vs dv mk)).
  { done. }
  unfold parsed_link, try_doc_link, started, when. cbn [doc_link default_value kind name validations].
  destruct dl as [l|]; [destruct (url_parse l)|]; cbn [mbind result_bind ok_or option_fmap fmap option_map];
    [|done|]; destruct dv, vs; cbn -[each with_children finish]; by rewrite ?each_validation.
Qed.

Lemma prop_converts identity d : converts (to_spec identity d) (prop_spec identity d).
Proof.
  induction d as [[n k dr dl cs e w vf h vs dv mk] Hcs He] using definition_ind. cbn in Hcs, He.
  rewrite to_spec_eq. cbn [prop_spec doc_link]. destruct (parsed_link dl) as [link|]; [|by left].
  cbn [mbind option_bind]. unfold started.
  destruct k; cbn [with_children default_value kind name validations prop_kind_into].
  - destruct e as [e|]; cbn [mbind option_bind result_bind]; [|rewrite finish_spec; by right].
    apply Forall_cons in He as [He _]. destruct (prop_spec identity e) as [p|]; cbn in He.
    + rewrite He. cbn [mbind option_bind result_bind PropSpecBuilder.type_prop]. by rewrite finish_spec.
    + by destruct He as [-> | ->]; [left|right].
  - cbn [mbind result_bind]. by rewrite finish_spec.
  - cbn [mbind result_bind]. by rewrite finish_spec.
  - destruct e as [e|]; cbn [mbind option_bind result_bind]; [|rewrite finish_spec; by right].
    apply Forall_cons in He as [He _]. destruct (prop_spec identity e) as [p|]; cbn in He.
    + rewrite He. cbn [mbind option_bind result_bind PropSpecBuilder.type_prop]. by rewrite finish_spec.
    + by destruct He as [-> | ->]; [left|right].
  - pose proof (try_map_converts _ _ cs Hcs) as Hm. destruct (mapM _ cs) as [ps|]; cbn in Hm.
    + rewrite Hm. cbn [mbind option_bind result_bind]. by rewrite each_entry, finish_spec.
    + by destruct Hm as [-> | ->]; [left|right].
  - cbn [mbind result_bind]. by rewrite finish_spec.
Qed.

(** ** Variants *)

Import SchemaVariantDefinitionJson.

(** A root with entries. *)
Definition extend (p : PropSpec.t) (ps : list PropSpec.t) : PropSpec.t :=
  match p with
  | PropSpec.Object name data unique_id entries =>
      PropSpec.Object name data unique_id (entries ++ ps)
  | _ => p
  end.

(** The variant a definition stands for. *)
Definition variant_spec (d : SchemaVariantDefinitionJson.t)
    (m : SchemaVariantDefinitionMetadataJson.t) (identity asset : text) :
    option SchemaVariantSpec.t :=
  link ← parsed_link (SchemaVariantDefinitionMetadataJson.link m);
  domain ← mapM (prop_spec identity) (props d);
  secrets ← mapM (prop_spec identity) (secret_props d);
  definition ← mapM (prop_spec identity) (default [] (secret_definition d));
  resource ← mapM (prop_spec identity) (resource_props d);
  Some {| SchemaVariantSpec.name := str "v0";
          SchemaVariantSpec.data :=
            Some {| SchemaVariantSpec.data_name := str "v0"; SchemaVariantSpec.link := link;
                    SchemaVariantSpec.color := Some (SchemaVariantDefinitionMetadataJson.color m);
                    SchemaVariantSpec.component_type :=
                      ComponentType.into (SchemaVariantDefinitionMetadataJson.component_type m);
                    SchemaVariantSpec.func_unique_id := asset |};
          SchemaVariantSpec.unique_id := None; SchemaVariantSpec.deleted := false;
          SchemaVariantSpec.action_funcs := []; SchemaVariantSpec.leaf_functions := [];
          SchemaVariantSpec.sockets :=
            (SocketDefinition.to_spec true identity <$> input_sockets d) ++
            (SocketDefinition.to_spec false identity <$> output_sockets d);
          SchemaVariantSpec.si_prop_funcs :=
            SiPropValueFrom.to_spec identity <$> si_prop_value_froms d;
          SchemaVariantSpec.domain := extend SchemaVariantSpecBuilder.default_domain domain;
          SchemaVariantSpec.secrets := extend SchemaVariantSpecBuilder.default_secrets secrets;
          SchemaVariantSpec.secret_definition :=
            match definition with
            | [] => None
            | _ => Some (extend (SchemaVariantSpecBuilder.default_root (str "secret_definition"))
                           definition)
            end;
          SchemaVariantSpec.resource_value :=
            extend SchemaVariantSpecBuilder.default_resource_value resource |}.

(** The list of an [each] setter. *)
Definition pushed_all {Y} (o : option (list Y)) (l : list Y) : option (list Y) :=
  match l with [] => o | _ => Some (default [] o ++ l) end.

Lemma pushed_all_cons {Y} (o : option (list Y)) y l :
  pushed_all (Some (default [] o ++ [y])) l = pushed_all o (y :: l).
Proof. destruct l; cbn; [done|]. by rewrite <-(assoc_L (++)). Qed.

Lemma pushed_all_default {Y} (o : option (list Y)) l : default [] (pushed_all o l) = default [] o ++ l.
Proof. destruct l; cbn; [by rewrite app_nil_r|done]. Qed.

Lemma each_socket {Y} (f : Y → SocketSpec.t) l n d u de af lf so sp dom sec sd rv :
  each l (λ y, socket (f y)) (SchemaVariantSpecBuilder.Build_t n d u de af lf so sp dom sec sd rv) =
  SchemaVariantSpecBuilder.Build_t n d u de af lf (pushed_all so (f <$> l)) sp dom sec sd rv.
Proof.
  revert so. induction l as [|y l IH]; intros so; [done|]. unfold each in *. cbn [foldl socket].
  rewrite IH. by rewrite pushed_all_cons.
Qed.

Lemma each_si_prop_func {Y} (f : Y → SiPropFuncSpec.t) l n d u de af lf so sp dom sec sd rv :
  each l (λ y, si_prop_func (f y))
    (SchemaVariantSpecBuilder.Build_t n d u de af lf so sp dom sec sd rv) =
  SchemaVariantSpecBuilder.Build_t n d u de af lf so (pushed_all sp (f <$> l)) dom sec sd rv.
Proof.
  revert sp. induction l as [|y l IH]; intros sp; [done|]. unfold each in *. cbn [foldl si_prop_func].
  rewrite IH. by rewrite pushed_all_cons.
Qed.

Definition root_of (root : SchemaVariantSpecPropRoot) (b : SchemaVariantSpecBuilder.t) :
    option PropSpec.t :=
  match root with
  | Domain => Some (default SchemaVariantSpecBuilder.default_domain (SchemaVariantSpecBuilder.b_domain b))
  | ResourceValue =>
      Some (default SchemaVariantSpecBuilder.default_resource_value
              (SchemaVariantSpecBuilder.b_resource_value b))
  | SecretDefinition =>
      default SchemaVariantSpecBuilder.default_secret_definition
        (SchemaVariantSpecBuilder.b_secret_definition b)
  | Secrets =>
      Some (default SchemaVariantSpecBuilder.default_secrets (SchemaVariantSpecBuilder.b_secrets b))
  end.

Definition put_root (root : SchemaVariantSpecPropRoot) (p : PropSpec.t)
    (b : SchemaVariantSpecBuilder.t) : SchemaVariantSpecBuilder.t :=
  let '(SchemaVariantSpecBuilder.Build_t n d u de af lf so sp dom sec sd rv) := b in
  match root with
  | Domain => SchemaVariantSpecBuilder.Build_t n d u de af lf so sp (Some p) sec sd rv
  | ResourceValue => SchemaVariantSpecBuilder.Build_t n d u de af lf so sp dom sec sd (Some p)
  | SecretDefinition => SchemaVariantSpecBuilder.Build_t n d u de af lf so sp dom sec (Some (Some p)) rv
  | Secrets => SchemaVariantSpecBuilder.Build_t n d u de af lf so sp dom (Some p) sd rv
  end.

(** The builder with more entries below a root. *)
Definition add_all (root : SchemaVariantSpecPropRoot) (ps : list PropSpec.t)
    (b : SchemaVariantSpecBuilder.t) : SchemaVariantSpecBuilder.t :=
  match ps, root_of root b with
  | [], _ | _, None => b
  | _, Some p => put_root root (extend p ps) b
  end.

(** The roots are objects. *)
Definition object_root (root : SchemaVariantSpecPropRoot) (b : SchemaVariantSpecBuilder.t) : Prop :=
  ∃ n d u es, root_of root b = Some (PropSpec.Object n d u es).

Lemma prop_add_all {Er} root p b : object_root root b →
  SchemaVariantSpecBuilder.prop (E := Er) root p b = Ok (add_all root [p] b).
Proof.
  intros (n & d & u & es & Hr). unfold add_all. rewrite Hr. destruct b, root; cbn in *;
    first [injection Hr as Hr|idtac]; by rewrite Hr.
Qed.

Lemma add_all_cons root p ps b : object_root root b →
  object_root root (add_all root [p] b) ∧ add_all root ps (add_all root [p] b) = add_all root (p :: ps) b.
Proof.
  intros (n & d & u & es & Hr).
  assert (root_of root (add_all root [p] b) = Some (PropSpec.Object n d u (es ++ [p]))) as Hr'.
  { unfold add_all. rewrite Hr. by destruct b, root. }
  split; [by eexists _, _, _, _|]. unfold add_all at 1. rewrite Hr'. unfold add_all. rewrite Hr.
  destruct ps as [|p' ps]; [done|]. cbn [extend]. rewrite <-(assoc_L (++)). by destruct b, root.
Qed.

#[local] Arguments add_all : simpl never.

Lemma add_props_converts identity root l : ∀ b, object_root root b →
  match mapM (prop_spec identity) l with
  | Some ps => add_props identity root l b = Ok (add_all root ps b)
  | None => add_props identity root l b = Err (Fault DefinitionUrl) ∨
            add_props identity root l b = Err (Fault no_entry)
  end.
Proof.
  induction l as [|x l IH]; intros b Hb; [done|]. cbn [add_props mapM].
  pose proof (prop_converts identity x) as Hx. cbn. destruct (prop_spec identity x) as [p|]; cbn in Hx |- *.
  - rewrite Hx. cbn. rewrite (prop_add_all root p b Hb). cbn.
    destruct (add_all_cons root p [] b Hb) as [Hb' _]. specialize (IH _ Hb').
    destruct (mapM _ l) as [ps|]; cbn in *; [|done]. rewrite IH.
    by destruct (add_all_cons root p ps b Hb) as [_ ->].
  - by destruct Hx as [-> | ->]; [left|right].
Qed.

Lemma object_root_add_all r root ps b : object_root r b → object_root root b →
  object_root r (add_all root ps b).
Proof.
  intros Hr (n & d & u & es & Hroot). unfold add_all. rewrite Hroot. destruct ps as [|p ps]; [done|].
  destruct Hr as (n' & d' & u' & es' & Hr). destruct b, r, root; cbn in *; by eexists _, _, _, _.
Qed.

Lemma each_fmap {Y} (f : Y → SocketSpec.t) l b : each l (λ y, socket (f y)) b = each (f <$> l) socket b.
Proof. revert b. induction l as [|y l IH]; intros b; [done|]. apply IH. Qed.

(** Every root gets its props. *)
Lemma built_variant name data so sp dom sec sd rv ins outs :
  let b := SchemaVariantSpecBuilder.Build_t (Some name) data None None None None so sp None None None None in
  SchemaVariantSpecBuilder.build
    (each outs socket (each ins socket
      (add_all ResourceValue rv (add_all SecretDefinition sd (add_all Secrets sec (add_all Domain dom b)))))) =
  Ok {| SchemaVariantSpec.name := name; SchemaVariantSpec.data := default None data;
        SchemaVariantSpec.unique_id := None; SchemaVariantSpec.deleted := false;
        SchemaVariantSpec.action_funcs := []; SchemaVariantSpec.leaf_functions := [];
        SchemaVariantSpec.sockets := (default [] so ++ ins) ++ outs;
        SchemaVariantSpec.si_prop_funcs := default [] sp;
        SchemaVariantSpec.domain := extend SchemaVariantSpecBuilder.default_domain dom;
        SchemaVariantSpec.secrets := extend SchemaVariantSpecBuilder.default_secrets sec;
        SchemaVariantSpec.secret_definition :=
          match sd with
          | [] => None
          | _ => Some (extend (SchemaVariantSpecBuilder.default_root (str "secret_definition")) sd)
          end;
        SchemaVariantSpec.resource_value :=
          extend SchemaVariantSpecBuilder.default_resource_value rv |}.
Proof.
  intros b. unfold add_all, b.
  assert (∀ l n d u de af lf so sp dom sec sd rv,
    each l socket (SchemaVariantSpecBuilder.Build_t n d u de af lf so sp dom sec sd rv) =
    SchemaVariantSpecBuilder.Build_t n d u de af lf (pushed_all so l) sp dom sec sd rv) as Hs.
  { intros l *. rewrite <-(list_fmap_id l) at 2. apply (each_socket (λ s, s)). }
  destruct dom, sec, sd, rv; cbn -[each pushed_all]; rewrite !Hs; cbn -[pushed_all];
    by rewrite !pushed_all_default.
Qed.

(** A root takes its props, and the other roots stay objects. *)
Ltac add_root root l ps :=
  match goal with
  | Hb : ∀ r, object_root r ?b |- context [add_props ?identity root l ?b] =>
      let H := fresh in let Hb' := fresh "Hb" in
      pose proof (add_props_converts identity root l b (Hb root)) as H;
      destruct (mapM (prop_spec identity) l) as [ps|]; cbn [mbind option_bind] in *;
      [|by destruct H as [-> | ->]; [left|right]];
      rewrite H; clear H; cbn [mbind result_bind];
      assert (∀ r, object_root r (add_all root ps b)) as Hb'
        by (intros r; apply object_root_add_all; apply Hb);
      clear Hb
  end.

Lemma definition_converts d m identity asset :
  match variant_spec d m identity asset with
  | Some v => SchemaVariantDefinitionJson.to_spec d m identity asset = Ok v
  | None =>
      SchemaVariantDefinitionJson.to_spec d m identity asset = Err (Fault DefinitionUrl) ∨
      SchemaVariantDefinitionJson.to_spec d m identity asset = Err (Fault no_entry)
  end.
Proof.
  unfold variant_spec, SchemaVariantDefinitionJson.to_spec.
  assert (try_link (SchemaVariantDefinitionMetadataJson.link m) =
    match parsed_link (SchemaVariantDefinitionMetadataJson.link m) with
    | Some l => Ok l | None => Err (Fault DefinitionUrl) end) as ->.
  { unfold try_link, parsed_link. destruct (SchemaVariantDefinitionMetadataJson.link m) as [l|]; [|done].
    by destruct (url_parse l). }
  destruct (parsed_link _) as [link|]; cbn [mbind option_bind result_bind]; [|by left].
  unfold new_builder. cbn [with_name with_data]. rewrite each_si_prop_func.
  set (b := SchemaVariantSpecBuilder.Build_t _ _ _ _ _ _ _ _ _ _ _ _).
  assert (∀ r, object_root r b) as Hb by (intros []; by eexists _, _, _, _).
  assert (∀ b, match secret_definition d with
               | Some props => add_props identity SecretDefinition props b
               | None => Ok b
               end = add_props identity SecretDefinition (default [] (secret_definition d)) b) as Hd
    by (intros ?; by destruct (secret_definition d)).
  add_root Domain (props d) ps1. add_root Secrets (secret_props d) ps2. rewrite Hd.
  add_root SecretDefinition (default [] (secret_definition d)) ps3.
  add_root ResourceValue (resource_props d) ps4. rewrite (each_fmap (SocketDefinition.to_spec true identity)),
    (each_fmap (SocketDefinition.to_spec false identity)). unfold b. rewrite built_variant. cbn.
  by rewrite pushed_all_default.
Qed.

(** ** Assets in packages *)

(** What is converted below a prop. *)
Definition below (d : PropDefinition.t) : list PropDefinition.t :=
  match kind d with
  | PropKind.Object => children d
  | PropKind.Array | PropKind.Map => option_list (entry d)
  | _ => []
  end.

(** Siblings have different names, without the separator of paths. *)
Definition distinct_names (ds : list PropDefinition.t) : Prop :=
  NoDup (name <$> ds) ∧ Forall (λ d, x0b ∉ name d) ds.

Inductive well_named : PropDefinition.t → Prop :=
| well_named_prop d : distinct_names (below d) → Forall well_named (below d) → well_named d.

Lemma prop_spec_below identity d p : prop_spec identity d = Some p →
  PropSpec.name p = name d ∧ mapM (prop_spec identity) (below d) = Some (entries_of p).
Proof.
  destruct d as [n k dr dl cs e w vf h vs dv mk]. unfold below. cbn [prop_spec doc_link kind children entry].
  intros (link & _ & H)%bind_Some. destruct k; cbn.
  1,4: apply bind_Some in H as (e' & -> & (p' & He & [= <-])%bind_Some); cbn; by rewrite He.
  3: apply bind_Some in H as (ps & Hps & [= <-]); by rewrite Hps.
  all: by injection H as <-.
Qed.

Lemma prop_specs_names identity ds ps : mapM (prop_spec identity) ds = Some ps →
  PropSpec.name <$> ps = name <$> ds.
Proof.
  intros H%mapM_Some_1. induction H as [|d p ds ps Hd _ IH]; [done|]. csimpl.
  by rewrite IH, (proj1 (prop_spec_below _ _ _ Hd)).
Qed.

Lemma distinct_names_specs identity ds ps : mapM (prop_spec identity) ds = Some ps → distinct_names ds →
  NoDup (PropSpec.name <$> ps) ∧ Forall (λ c, x0b ∉ PropSpec.name c) ps.
Proof.
  intros Hn%prop_specs_names [Hd Hs]. rewrite Hn. split; [done|].
  assert (Forall (λ n, x0b ∉ n) (PropSpec.name <$> ps)) as H.
  - rewrite Hn. by apply Forall_fmap.
  - by apply (Forall_fmap PropSpec.name (λ n, x0b ∉ n)) in H.
Qed.

Lemma well_named_rebuildable identity d p :
  well_named d → prop_spec identity d = Some p → rebuildable p.
Proof.
  revert p. induction d as [d Hcs He] using definition_ind. intros p Hw Hp. inversion_clear Hw as [? Hn Hall].
  assert (Forall (λ d, ∀ p, well_named d → prop_spec identity d = Some p → rebuildable p) (below d))
    as IH by (unfold below; destruct (kind d); first [exact Hcs|exact He|constructor]).
  apply prop_spec_below in Hp as [_ Hps].
  destruct (distinct_names_specs _ _ _ Hps Hn) as [Hd Hs]. constructor; [done|done|].
  apply mapM_Some_1 in Hps. clear -IH Hall Hps.
  induction Hps as [|d1 p1 ds ps Hd _ IHl]; constructor; inversion Hall; inversion IH; auto.
Qed.

(** The props of an asset that a package tells apart by their paths. *)
Definition asset_ok (d : SchemaVariantDefinitionJson.t) : Prop :=
  (distinct_names (props d) ∧ Forall well_named (props d)) ∧
  (distinct_names (resource_props d) ∧ Forall well_named (resource_props d)).

Lemma extended_rebuildable identity n o u ds ps : mapM (prop_spec identity) ds = Some ps →
  distinct_names ds → Forall well_named ds → rebuildable (extend (PropSpec.Object n o u []) ps).
Proof.
  intros Hps Hd Hall. destruct (distinct_names_specs _ _ _ Hps Hd). constructor; cbn; [done|done|].
  apply mapM_Some_1 in Hps. clear -Hps Hall.
  induction Hps; constructor; inversion Hall; eauto using well_named_rebuildable.
Qed.

Lemma asset_variant_ok d m identity asset v :
  variant_spec d m identity asset = Some v → asset_ok d → variant_ok v.
Proof.
  intros Hv ([Hp1 Hp2] & [Hr1 Hr2]). unfold variant_spec in Hv.
  apply bind_Some in Hv as (link & _ & (dom & Hdom & (sec & _ & (sd & _ & (rv & Hrv & [= <-])
    %bind_Some)%bind_Some)%bind_Some)%bind_Some).
  split; by eapply extended_rebuildable.
Qed.

(** The metadata that a package keeps. *)
Definition kept_metadata (m : SchemaVariantDefinitionMetadataJson.t) :
    SchemaVariantDefinitionMetadataJson.t :=
  let '(SchemaVariantDefinitionMetadataJson.Build_t name menu_name category color _ component_type link _) := m in
  {| SchemaVariantDefinitionMetadataJson.name := name;
     SchemaVariantDefinitionMetadataJson.menu_name := menu_name;
     SchemaVariantDefinitionMetadataJson.category := category;
     SchemaVariantDefinitionMetadataJson.color := color;
     SchemaVariantDefinitionMetadataJson.component_kind := ComponentKind.Standard;
     SchemaVariantDefinitionMetadataJson.component_type := component_type;
     SchemaVariantDefinitionMetadataJson.link := link ≫= λ l, url_as_str <$> url_parse l;
     SchemaVariantDefinitionMetadataJson.description := None |}.

Lemma metadata_kept d m identity asset v : variant_spec d m identity asset = Some v →
  metadata_from_spec (imported_schema (SchemaVariantDefinitionMetadataJson.to_spec m v)) =
    Ok (kept_metadata m).
Proof.
  intros Hv. unfold variant_spec in Hv.
  apply bind_Some in Hv as (link & Hl & (dom & _ & (sec & _ & (sd & _ & (rv & _ & [= <-])
    %bind_Some)%bind_Some)%bind_Some)%bind_Some).
  destruct m as [n mn c co ck ct l de]. unfold parsed_link in Hl. cbn in *. do 2 f_equal.
  - by destruct ct.
  - destruct l as [l|]; cbn; [|by injection Hl as <-]. by destruct (url_parse l); [injection Hl as <-|].
Qed.

Section theorems.
Context `{B : Blake3} `{P : Petgraph} `{PO : !PetgraphOk P} `{A : TarArchive}.

(** C31: An asset survives its package: a definition that is converted, in a module
    of its own, can be packed and the package read, and the metadata of the asset
    come back from the one schema in it, less its kind and its description, with
    its link as a URL. Hypotheses: the nodes can be written and fit the index
    type, and sibling props have different names without the separator of paths. *)
Theorem asset_survives_package d m identity asset v package fuel :
  SchemaVariantDefinitionJson.to_spec d m identity asset = Ok v →
  PackageSpec.kind package = SiPkgKind.Module_ →
  PackageSpec.schemas package = [SchemaVariantDefinitionMetadataJson.to_spec m v] →
  PackageSpec.change_sets package = [] → asset_ok d →
  writable (node_tree (PackageSpec.as_node_with_children package)) →
  (N.of_nat (nodes_of (PackageSpec.as_node_with_children package)) ≤ index_end)%N →
  nodes_of (PackageSpec.as_node_with_children package) ≤ fuel →
  ∃ pkg spec schema, SiPkg.load_from_spec package = Some (Ok pkg) ∧
    SiPkg.to_spec fuel pkg = Some (Ok spec) ∧ PackageSpec.schemas spec = [schema] ∧
    metadata_from_spec schema = Ok (kept_metadata m).
Proof using PO.
  intros Hv Hk Hs Hc Hd Hw Hsz Hf. pose proof (definition_converts d m identity asset) as Hd'.
  destruct (variant_spec d m identity asset) as [v'|] eqn:Hv'; rewrite Hv in Hd'; [|by destruct Hd'].
  injection Hd' as <-. destruct (create_from_root_spec _ Hw Hsz) as ([g root] & Ho & Hr).
  exists (package_at g root), (imported_package package). eexists. split_and!.
  - unfold SiPkg.load_from_spec. by rewrite Ho.
  - apply package_imports; [by apply represents_shows| |done]. split; [|by rewrite Hc].
    rewrite Hs. constructor; [|done]. constructor; [|done]. by eapply asset_variant_ok.
  - unfold imported_package. cbn. by rewrite Hk, Hs.
  - by eapply metadata_kept.
Qed.

End theorems.

End meaning.

(** ** Witnesses *)

Section witnesses.
Import SchemaVariantDefinitionJson.
#[local] Existing Instance sample_blake3.
#[local] Existing Instance sample_externals.
#[local] Existing Instance list_petgraph.
#[local] Existing Instance list_petgraph_ok.
#[local] Existing Instance list_tar.

Definition definition_of (name : string) (kind : PropKind.t) (children : list PropDefinition.t)
    (entry : option PropDefinition.t) : PropDefinition.t :=
  {| PropDefinition.name := str name; PropDefinition.kind := kind;
     PropDefinition.doc_link_ref := None; PropDefinition.doc_link := None;
     PropDefinition.children := children; PropDefinition.entry := entry;
     PropDefinition.widget :=
       Some {| PropDefinition.widget_kind := WidgetKind.Text; PropDefinition.options := None |};
     PropDefinition.value_from := Some (ValueFrom.InputSocket (str "in"));
     PropDefinition.hidden := Some true; PropDefinition.validations := None;
     PropDefinition.default_value := None; PropDefinition.map_key_funcs := None |}.

Definition sample_definition : SchemaVariantDefinitionJson.t :=
  {| props :=
       [definition_of "a" PropKind.Object
          [definition_of "b" PropKind.Integer [] None; definition_of "c" PropKind.String_ [] None] None;
        definition_of "d" PropKind.Array [] (Some (definition_of "e" PropKind.Boolean [] None))];
     secret_props := []; secret_definition := None;
     resource_props := [definition_of "r" PropKind.String_ [] None]; si_prop_value_froms := [];
     input_sockets :=
       [{| SocketDefinition.name := str "in"; SocketDefinition.arity := Some SocketArity.One;
           SocketDefinition.ui_hidden := None; SocketDefinition.value_from := None |}];
     output_sockets := []; doc_links := None |}.

Definition sample_metadata : SchemaVariantDefinitionMetadataJson.t :=
  {| SchemaVariantDefinitionMetadataJson.name := str "asset";
     SchemaVariantDefinitionMetadataJson.menu_name := Some (str "menu");
     SchemaVariantDefinitionMetadataJson.category := str "cat";
     SchemaVariantDefinitionMetadataJson.color := str "ffffff";
     SchemaVariantDefinitionMetadataJson.component_kind := ComponentKind.Credential;
     SchemaVariantDefinitionMetadataJson.component_type := ComponentType.ConfigurationFrame;
     SchemaVariantDefinitionMetadataJson.link := None;
     SchemaVariantDefinitionMetadataJson.description := Some (str "text") |}.

Definition sample_asset : SchemaVariantSpec.t :=
  match SchemaVariantDefinitionJson.to_spec sample_definition sample_metadata (str "id") (str "as") with
  | Ok v => v
  | Err _ => sample_variant
  end.

Definition asset_package : PackageSpec.t :=
  {| PackageSpec.kind := SiPkgKind.Module_; PackageSpec.name := str "p";
     PackageSpec.version := str "1"; PackageSpec.description := [];
     PackageSpec.created_at := str "now"; PackageSpec.created_by := str "me";
     PackageSpec.default_change_set := None; PackageSpec.workspace_pk := None;
     PackageSpec.workspace_name := None;
     PackageSpec.schemas := [SchemaVariantDefinitionMetadataJson.to_spec sample_metadata sample_asset];
     PackageSpec.funcs := []; PackageSpec.change_sets := [] |}.

Lemma sample_definition_ok : asset_ok sample_definition.
Proof.
  split; (split; [split|]); repeat constructor; cbn; set_solver.
Qed.

Lemma asset_survives_package_witness :
  ∃ pkg spec schema, SiPkg.load_from_spec asset_package = Some (Ok pkg) ∧
    SiPkg.to_spec 200 pkg = Some (Ok spec) ∧ PackageSpec.schemas spec = [schema] ∧
    metadata_from_spec schema = Ok (kept_metadata sample_metadata).
Proof.
  apply (asset_survives_package sample_definition sample_metadata (str "id") (str "as") sample_asset).
  - reflexivity.
  - done.
  - done.
  - done.
  - apply sample_definition_ok.
  - apply check_writable. by vm_compute.
  - by vm_compute.
  - by apply Nat.leb_le; vm_compute.
Defined.

End witnesses.
