(* ===== verification/VariantMeaning.v ===== *)
(** * What an asset definition stands for

    The meaning of the definitions of [VariantDefinition], as relations between what the
    author writes and the specification, that do not mention the conversion; and that the
    conversion computes them. *)

From S2P Require Import Prelude Bytes KeyValue NodeEntries ObjectGraph ObjectTar AttributeView PkgSpec PkgFields PkgNodes PkgNodesData PkgNode PkgLeaves PkgTree PkgViews PkgProps VariantDefinition.
From Stdlib Require Import NArith ZArith Init.Byte.
From stdpp Require Import base tactics list gmap strings.

Section meaning.
Context {X : Externals}.
Import PropDefinition.

(** ** Parts of a definition *)

(** The parts of a path, with a vertical tab between them. *)
Inductive joined : list text → text → Prop :=
| joined_none : joined [] []
| joined_one part : joined [part] part
| joined_more part parts path : parts ≠ [] → joined parts path → joined (part :: parts) (part ++ [x0b] ++ path).

(** The argument of the identity function. *)
Inductive takes_from : ValueFrom.t → AttrFuncInputSpec.t → Prop :=
| takes_from_input s : takes_from (ValueFrom.InputSocket s) (AttrFuncInputSpec.InputSocket (str "identity") s None false)
| takes_from_output s : takes_from (ValueFrom.OutputSocket s) (AttrFuncInputSpec.OutputSocket (str "identity") s None false)
| takes_from_prop parts path : joined parts path →
    takes_from (ValueFrom.Prop_ parts) (AttrFuncInputSpec.Prop_ (str "identity") path None false).

(** A value may come from somewhere; then the identity function gets it. *)
Inductive source (identity : text) : option ValueFrom.t → option text → list AttrFuncInputSpec.t → Prop :=
| no_source : source identity None None []
| some_source v i : takes_from v i → source identity (Some v) (Some identity) [i].

Inductive same_widget : WidgetKind.t → PropSpecWidgetKind.t → Prop :=
| same_array : same_widget WidgetKind.Array PropSpecWidgetKind.Array
| same_checkbox : same_widget WidgetKind.Checkbox PropSpecWidgetKind.Checkbox
| same_color : same_widget WidgetKind.Color PropSpecWidgetKind.Color
| same_combo_box : same_widget WidgetKind.ComboBox PropSpecWidgetKind.ComboBox
| same_header : same_widget WidgetKind.Header PropSpecWidgetKind.Header
| same_map : same_widget WidgetKind.Map PropSpecWidgetKind.Map
| same_secret : same_widget WidgetKind.Secret PropSpecWidgetKind.Secret
| same_select : same_widget WidgetKind.Select PropSpecWidgetKind.Select
| same_text : same_widget WidgetKind.Text PropSpecWidgetKind.Text
| same_text_area : same_widget WidgetKind.TextArea PropSpecWidgetKind.TextArea.

Inductive same_widgets : option PropWidgetDefinition → option PropSpecWidgetKind.t → option Json → Prop :=
| no_widget : same_widgets None None None
| a_widget w k : same_widget (widget_kind w) k → same_widgets (Some w) (Some k) (options w).

(** A link is a URL. *)
Inductive links_to : option text → option Url → Prop :=
| no_link : links_to None None
| a_link l u : url_parse l = Some u → links_to (Some l) (Some u).

(** A function for a key of a map. *)
Definition map_key_meant (identity : text) (f : MapKeyFunc.t) (s : MapKeyFuncSpec.t) : Prop :=
  MapKeyFuncSpec.key s = MapKeyFunc.key f ∧ MapKeyFuncSpec.func_unique_id s = identity ∧
  ∃ func, source identity (MapKeyFunc.value_from f) func (MapKeyFuncSpec.inputs s).

(** ** Props *)

(** What is written of a prop. References to links by their names have no meaning. *)
Record data_meant (identity : text) (d : PropDefinition.t) (s : PropSpec.PropSpecData) : Prop := {
  meant_name : PropSpec.data_name s = name d;
  meant_default : PropSpec.default_value s = default_value d;
  meant_validations : PropSpec.validations s = Some (default [] (validations d));
  meant_source : ∃ inputs, PropSpec.inputs s = Some inputs ∧ source identity (value_from d) (PropSpec.func_unique_id s) inputs;
  meant_widget : same_widgets (widget d) (PropSpec.widget_kind s) (PropSpec.widget_options s);
  meant_hidden : PropSpec.hidden s = Some (bool_decide (hidden d = Some true));
  meant_link : links_to (doc_link d) (PropSpec.doc_link s);
}.

Inductive prop_meant (identity : text) : PropDefinition.t → PropSpec.t → Prop :=
| array_meant d data e p : kind d = PropKind.Array → data_meant identity d data → entry d = Some e → prop_meant identity e p →
    prop_meant identity d (PropSpec.Array (name d) (Some data) None p)
| map_meant d data e p keys : kind d = PropKind.Map → data_meant identity d data → entry d = Some e → prop_meant identity e p →
    Forall2 (map_key_meant identity) (default [] (map_key_funcs d)) keys →
    prop_meant identity d (PropSpec.Map (name d) (Some data) None p (Some keys))
| object_meant d data ps : kind d = PropKind.Object → data_meant identity d data → Forall2 (prop_meant identity) (children d) ps →
    prop_meant identity d (PropSpec.Object (name d) (Some data) None ps)
| boolean_meant d data : kind d = PropKind.Boolean → data_meant identity d data →
    prop_meant identity d (PropSpec.Boolean (name d) (Some data) None)
| integer_meant d data : kind d = PropKind.Integer → data_meant identity d data →
    prop_meant identity d (PropSpec.Number (name d) (Some data) None)
| string_meant d data : kind d = PropKind.String_ → data_meant identity d data →
    prop_meant identity d (PropSpec.String_ (name d) (Some data) None).

(** ** Sockets and the values below [/root/si] *)

Record socket_meant (kind : SocketSpecKind.t) (identity : text) (d : SocketDefinition.t) (s : SocketSpec.t) : Prop := {
  socket_name_meant : SocketSpec.name s = SocketDefinition.name d;
  socket_id_meant : SocketSpec.unique_id s = None;
  socket_data_meant : ∃ data, SocketSpec.data s = Some data ∧
    SocketSpec.kind data = kind ∧ SocketSpec.data_name data = SocketDefinition.name d ∧
    (SocketSpec.arity data = SocketSpecArity.One ↔ SocketDefinition.arity d = Some SocketArity.One) ∧
    SocketSpec.ui_hidden data = bool_decide (SocketDefinition.ui_hidden d = Some true) ∧
    source identity (SocketDefinition.value_from d) (SocketSpec.func_unique_id data) (SocketSpec.inputs s);
}.

Definition si_prop_meant (identity : text) (d : SiPropValueFrom.t) (s : SiPropFuncSpec.t) : Prop :=
  SiPropFuncSpec.kind s = SiPropValueFrom.kind d ∧ SiPropFuncSpec.func_unique_id s = identity ∧
  SiPropFuncSpec.unique_id s = None ∧ SiPropFuncSpec.deleted s = false ∧
  ∃ i, takes_from (SiPropValueFrom.value_from d) i ∧ SiPropFuncSpec.inputs s = [i].

(** ** Variants *)

(** A root of the tree of props. *)
Definition root_meant (identity root : text) (ds : list PropDefinition.t) (p : PropSpec.t) : Prop :=
  ∃ ps, p = PropSpec.Object root
      (Some {| PropSpec.data_name := root; PropSpec.default_value := None; PropSpec.validations := None;
               PropSpec.func_unique_id := None; PropSpec.inputs := None; PropSpec.widget_kind := Some PropSpecWidgetKind.Header;
               PropSpec.widget_options := None; PropSpec.hidden := Some false; PropSpec.doc_link := None |}) None ps ∧
    Forall2 (prop_meant identity) ds ps.

Inductive same_type : ComponentType.t → SchemaVariantSpecComponentType.t → Prop :=
| same_component : same_type ComponentType.Component SchemaVariantSpecComponentType.Component
| same_configuration_frame : same_type ComponentType.ConfigurationFrame SchemaVariantSpecComponentType.ConfigurationFrame
| same_aggregation_frame : same_type ComponentType.AggregationFrame SchemaVariantSpecComponentType.AggregationFrame.

Import SchemaVariantDefinitionJson.

(** The definition stands for the variant; its table of links is not used. *)
Record variant_meant (d : SchemaVariantDefinitionJson.t) (m : SchemaVariantDefinitionMetadataJson.t) (identity asset : text)
    (v : SchemaVariantSpec.t) : Prop := {
  variant_name : SchemaVariantSpec.name v = str "v0";
  variant_data : ∃ data, SchemaVariantSpec.data v = Some data ∧ SchemaVariantSpec.data_name data = str "v0" ∧
    links_to (SchemaVariantDefinitionMetadataJson.link m) (SchemaVariantSpec.link data) ∧
    SchemaVariantSpec.color data = Some (SchemaVariantDefinitionMetadataJson.color m) ∧
    same_type (SchemaVariantDefinitionMetadataJson.component_type m) (SchemaVariantSpec.component_type data) ∧
    SchemaVariantSpec.func_unique_id data = asset;
  variant_rest : SchemaVariantSpec.unique_id v = None ∧ SchemaVariantSpec.deleted v = false ∧
    SchemaVariantSpec.action_funcs v = [] ∧ SchemaVariantSpec.leaf_functions v = [];
  variant_sockets : ∃ ins outs, SchemaVariantSpec.sockets v = ins ++ outs ∧
    Forall2 (socket_meant SocketSpecKind.Input identity) (input_sockets d) ins ∧
    Forall2 (socket_meant SocketSpecKind.Output identity) (output_sockets d) outs;
  variant_si_props : Forall2 (si_prop_meant identity) (si_prop_value_froms d) (SchemaVariantSpec.si_prop_funcs v);
  variant_domain : root_meant identity (str "domain") (props d) (SchemaVariantSpec.domain v);
  variant_secrets : root_meant identity (str "secrets") (secret_props d) (SchemaVariantSpec.secrets v);
  variant_resource : root_meant identity (str "value") (resource_props d) (SchemaVariantSpec.resource_value v);
  variant_definition : match default [] (secret_definition d) with
    | [] => SchemaVariantSpec.secret_definition v = None
    | ds => ∃ p, SchemaVariantSpec.secret_definition v = Some p ∧ root_meant identity (str "secret_definition") ds p
    end;
}.

(** ** The conversion computes the meaning *)

Lemma joined_path parts : joined parts (prop_path_new parts).
Proof. induction parts as [|part [|part' parts] IH]; [constructor|constructor|]. by apply joined_more. Qed.

Lemma takes_from_spec v : takes_from v (ValueFrom.to_spec v).
Proof. destruct v; constructor. apply joined_path. Qed.

Lemma source_spec identity o : source identity o (match o with Some _ => Some identity | None => None end)
  (match o with Some v => [ValueFrom.to_spec v] | None => [] end).
Proof. destruct o; constructor. apply takes_from_spec. Qed.

Lemma same_widgets_spec o : same_widgets o ((λ w, WidgetKind.into (widget_kind w)) <$> o) (o ≫= options).
Proof. destruct o as [w|]; constructor. destruct (widget_kind w); constructor. Qed.

Lemma links_to_spec l u : parsed_link l = Some u → links_to l u.
Proof. destruct l as [l|]; cbn; [|intros [= <-]; constructor]. intros (x & Hx & ->)%fmap_Some. by constructor. Qed.

Lemma map_key_spec identity f : map_key_meant identity f (MapKeyFunc.to_spec identity f).
Proof. split_and!; [done|done|]. eexists. apply source_spec. Qed.

Lemma prop_data_spec identity d link : links_to (doc_link d) link → data_meant identity d (prop_data identity d link).
Proof.
  intros Hl. constructor; cbn; try done; [eexists; split; [done|apply source_spec]|apply same_widgets_spec|].
  destruct (hidden d) as [[]|]; done.
Qed.

Lemma Forall2_fmap_meant {A B} (R : A → B → Prop) (f : A → B) l : (∀ x, R x (f x)) → Forall2 R l (f <$> l).
Proof. intros H. induction l; constructor; auto. Qed.

Lemma mapM_meant {A B} (R : A → B → Prop) (f : A → option B) l k : Forall (λ x, ∀ y, f x = Some y → R x y) l → mapM f l = Some k → Forall2 R l k.
Proof.
  intros Hl Hk%mapM_Some_1. induction Hk as [|x y l k Hx _ IH]; [constructor|]. apply Forall_cons in Hl as [Hy Hl]. constructor; auto.
Qed.

Lemma prop_spec_meant identity d p : prop_spec identity d = Some p → prop_meant identity d p.
Proof.
  revert p. induction d as [d Hcs He] using definition_ind. intros p.
  destruct d as [n k dr dl cs e w vf h vs dv mk]. cbn [prop_spec doc_link children entry] in *.
  intros (link & Hl%links_to_spec & H)%bind_Some.
  pose proof (prop_data_spec identity (Mk n k dr dl cs e w vf h vs dv mk) link Hl) as Hd. destruct k.
  - apply bind_Some in H as (e' & -> & (p' & Hp & [= <-])%bind_Some). apply Forall_cons in He as [He _].
    by apply (array_meant identity (Mk n PropKind.Array dr dl cs (Some e') w vf h vs dv mk) _ e' p'); auto.
  - injection H as <-. by apply (boolean_meant identity (Mk n PropKind.Boolean dr dl cs e w vf h vs dv mk)).
  - injection H as <-. by apply (integer_meant identity (Mk n PropKind.Integer dr dl cs e w vf h vs dv mk)).
  - apply bind_Some in H as (e' & -> & (p' & Hp & [= <-])%bind_Some). apply Forall_cons in He as [He _].
    apply (map_meant identity (Mk n PropKind.Map dr dl cs (Some e') w vf h vs dv mk) _ e' p'); auto.
    apply Forall2_fmap_meant, map_key_spec.
  - apply bind_Some in H as (ps & Hps & [= <-]).
    apply (object_meant identity (Mk n PropKind.Object dr dl cs e w vf h vs dv mk)); [done|done|]. by eapply mapM_meant.
  - injection H as <-. by apply (string_meant identity (Mk n PropKind.String_ dr dl cs e w vf h vs dv mk)).
Qed.

Lemma props_meant identity ds ps : mapM (prop_spec identity) ds = Some ps → Forall2 (prop_meant identity) ds ps.
Proof. apply mapM_meant, Forall_forall. intros d _. apply prop_spec_meant. Qed.

Lemma socket_spec_meant (is_input : bool) identity s :
  socket_meant (if is_input then SocketSpecKind.Input else SocketSpecKind.Output) identity s (SocketDefinition.to_spec is_input identity s).
Proof.
  constructor; [done|done|]. eexists. split; [reflexivity|]. cbn. split_and!; [done|done| | |apply source_spec].
  - by destruct (SocketDefinition.arity s) as [[]|].
  - by destruct (SocketDefinition.ui_hidden s) as [[]|].
Qed.

Lemma si_prop_spec_meant identity s : si_prop_meant identity s (SiPropValueFrom.to_spec identity s).
Proof. split_and!; try done. eexists. split; [apply takes_from_spec|done]. Qed.

Lemma root_spec_meant identity root ds ps : mapM (prop_spec identity) ds = Some ps →
  root_meant identity root ds (extend (SchemaVariantSpecBuilder.default_root root) ps).
Proof. intros H%props_meant. eexists. by split. Qed.

Lemma variant_spec_meant d m identity asset v : variant_spec d m identity asset = Some v → variant_meant d m identity asset v.
Proof.
  intros (link & Hl & (dom & Hdom & (sec & Hsec & (sd & Hsd & (rv & Hrv & [= <-])%bind_Some)%bind_Some)%bind_Some)%bind_Some)%bind_Some.
  constructor; cbn; [done| |done| |apply Forall2_fmap_meant, si_prop_spec_meant|by apply root_spec_meant..|].
  - eexists. split; [reflexivity|]. cbn. split_and!; [done|by apply links_to_spec|done| |done].
    destruct (SchemaVariantDefinitionMetadataJson.component_type m); constructor.
  - eexists _, _. split; [reflexivity|]. split; apply Forall2_fmap_meant; [apply (socket_spec_meant true)|apply (socket_spec_meant false)].
  - pose proof (root_spec_meant identity (str "secret_definition") _ _ Hsd) as Hr.
    destruct (default [] (secret_definition d)) as [|x ds]; [by injection Hsd as <-|]. destruct sd as [|p sd]; [|by eexists].
    by apply mapM_Some_1, Forall2_length in Hsd.
Qed.

(** ** When a definition is converted *)

Inductive convertible : PropDefinition.t → Prop :=
| convertible_prop d : (∃ u, links_to (doc_link d) u) → (kind d = PropKind.Array ∨ kind d = PropKind.Map → entry d ≠ None) →
    Forall convertible (below d) → convertible d.

Definition all_convertible (d : SchemaVariantDefinitionJson.t) (m : SchemaVariantDefinitionMetadataJson.t) : Prop :=
  (∃ u, links_to (SchemaVariantDefinitionMetadataJson.link m) u) ∧ Forall convertible (props d) ∧ Forall convertible (secret_props d) ∧
  Forall convertible (default [] (secret_definition d)) ∧ Forall convertible (resource_props d).

Lemma parsed_links l : is_Some (parsed_link l) ↔ ∃ u, links_to l u.
Proof.
  split; [intros [u Hu%links_to_spec]; by exists u|]. intros [u Hu]. destruct Hu as [|l u Hu]; [by eexists|]. cbn. rewrite Hu. by eexists.
Qed.

Lemma all_is_Some {A B} (P : A → Prop) (f : A → option B) l : Forall (λ x, is_Some (f x) ↔ P x) l → is_Some (mapM f l) ↔ Forall P l.
Proof.
  intros Hl. rewrite mapM_is_Some. induction Hl as [|x l Hx _ IH]; [by rewrite !Forall_nil|]. by rewrite !Forall_cons, Hx, IH.
Qed.

Lemma convertible_iff d : convertible d ↔ (∃ u, links_to (doc_link d) u) ∧
  (kind d = PropKind.Array ∨ kind d = PropKind.Map → entry d ≠ None) ∧ Forall convertible (below d).
Proof. split; [by inversion 1|]. intros (? & ? & ?). by constructor. Qed.

(** Props with an entry, and without anything below. *)
Lemma entry_convertible {A} identity (l : option (option Url)) k e (f : PropSpec.t → A) : is_Some l → k = PropKind.Array ∨ k = PropKind.Map →
  Forall (λ t, is_Some (prop_spec identity t) ↔ convertible t) (option_list e) →
  is_Some (e' ← e; p ← prop_spec identity e'; Some (f p)) ↔
  is_Some l ∧ (k = PropKind.Array ∨ k = PropKind.Map → e ≠ None) ∧ Forall convertible (option_list e).
Proof.
  intros Hl Hk. destruct e as [e|]; cbn [mbind option_bind].
  - change (option_list (Some e)) with [e]. rewrite !Forall_singleton. intros <-. destruct (prop_spec identity e); cbn.
    + split; [intros _|by eexists]. split_and!; [done|done|by eexists].
    + split; [by intros [? ?]|by intros (_ & _ & [? ?])].
  - intros _. split; [by intros [? ?]|]. intros (_ & H & _). by destruct (H Hk).
Qed.

Lemma leaf_convertible {A} (a : A) (l : option (option Url)) k (e : option PropDefinition.t) : is_Some l →
  k ≠ PropKind.Array → k ≠ PropKind.Map →
  is_Some (Some a) ↔ is_Some l ∧ (k = PropKind.Array ∨ k = PropKind.Map → e ≠ None) ∧ Forall convertible [].
Proof. intros Hl H1 H2. split; [intros _|by eexists]. split_and!; [done|by intros [?|?]|constructor]. Qed.

Lemma prop_spec_convertible identity d : is_Some (prop_spec identity d) ↔ convertible d.
Proof.
  induction d as [d Hcs He] using definition_ind. rewrite convertible_iff, <- parsed_links.
  destruct d as [n k dr dl cs e w vf h vs dv mk]. unfold below. cbn [prop_spec doc_link children entry kind] in *.
  destruct (parsed_link dl) as [link|]; cbn [mbind option_bind]; [|split; [by intros [? ?]|by intros ([? ?] & _)]].
  assert (Hl : is_Some (Some link)) by by eexists.
  apply all_is_Some in Hcs. destruct k; cbv beta iota.
  - apply entry_convertible; auto.
  - apply leaf_convertible; done.
  - apply leaf_convertible; done.
  - apply entry_convertible; auto.
  - rewrite <- Hcs. split.
    + intros [p (ps & Hps & _)%bind_Some]. split_and!; [by eexists|by intros [?|?]|by eexists].
    + intros (_ & _ & [ps ->]). by eexists.
  - apply leaf_convertible; done.
Qed.

Lemma props_convertible identity ds : is_Some (mapM (prop_spec identity) ds) ↔ Forall convertible ds.
Proof. apply all_is_Some, Forall_forall. intros d _. apply prop_spec_convertible. Qed.

Lemma bind_is_Some {A B} (o : option A) (f : A → option B) (P : Prop) : (∀ a, is_Some (f a) ↔ P) → is_Some (o ≫= f) ↔ is_Some o ∧ P.
Proof.
  intros Hf. destruct o as [a|]; cbn; [rewrite Hf|]; split; [split; [by eexists|done]|by intros [_ ?]|by intros [? ?]|by intros [[? ?] _]].
Qed.

Lemma variant_spec_convertible d m identity asset : is_Some (variant_spec d m identity asset) ↔ all_convertible d m.
Proof.
  unfold all_convertible. rewrite <- parsed_links, <- !(props_convertible identity). unfold variant_spec.
  apply bind_is_Some. intros link. apply bind_is_Some. intros dom. apply bind_is_Some. intros sec.
  apply bind_is_Some. intros sd. etransitivity; [apply (bind_is_Some _ _ True)|tauto]. intros rv. split; [done|by eexists].
Qed.

(** C30: A definition is converted exactly if every link in it is a URL and every array
    and map has an entry; else it fails with the error of a link or of an entry. What it is
    converted to is what it stands for: every prop is below its root with its kind, its
    data, where its value comes from, and what is below it, in the order it was written;
    every input and output socket has its kind, arity and source. References to the
    table of links of the definition are dropped. *)
Theorem definition_becomes_variant d m identity asset :
  let r := SchemaVariantDefinitionJson.to_spec d m identity asset in
  (is_ok r = true ↔ all_convertible d m) ∧
  (is_ok r = false → r = Err (Fault DefinitionUrl) ∨ r = Err (Fault (DefinitionSpec (UninitializedField "type_prop")))) ∧
  ∀ v, r = Ok v → variant_meant d m identity asset v.
Proof.
  cbv zeta. pose proof (definition_converts d m identity asset) as Hc. pose proof (variant_spec_convertible d m identity asset) as Hv.
  destruct (variant_spec d m identity asset) as [v|] eqn:He.
  - rewrite Hc. split_and!; [by rewrite <- Hv; split; [by eexists|]|done|]. intros v' [= <-]. by apply variant_spec_meant.
  - assert (Hn : ¬ all_convertible d m) by (rewrite <- Hv; by intros [? ?]).
    by destruct Hc as [-> | ->]; split_and!; auto.
Qed.
End meaning.
