(* ===== verification/NodeOrder.v ===== *)
(** * The order of nodes

    Model of [Node::list_topologically_sorted_configuration_nodes_with_stable_ordering]
    in [src/lib/dal/src/node.rs]: the nodes of the diagram, each after the nodes it
    depends on. The order in which a hash map is iterated, and the shuffling of the
    edges, are parameters: the result does not depend on them. *)

From S2P Require Import Prelude.
From Stdlib Require Import NArith.
From stdpp Require Import base tactics list sorting gmap fin_maps fin_map_dom.

(** Identifiers are ULIDs: numbers, in the order of the numbers. *)
Abbreviation NodeId := N (only parsing).

(** An edge, with what is read of it. *)
Record Edge := { tail_node_id : NodeId; head_node_id : NodeId }.

Inductive NodeError : Type :=
| NodeEdge
| NodePg
| NotFound (id : NodeId)
| ComponentIsNone.

(** The order in which a [HashMap] is iterated, at each iteration. *)
Class HashMapOrder := {
  iterate : nat → gmap NodeId (gset NodeId) → list (NodeId * gset NodeId);
  iterate_all i m : iterate i m ≡ₚ map_to_list m;
}.

(** [SliceRandom::shuffle], for the tests. *)
Class Shuffle := {
  shuffle : list Edge → list Edge;
  shuffle_all l : shuffle l ≡ₚ l;
}.

Module Node.
Section node.
Context {H : HashMapOrder} {S : Shuffle}.

Definition add_edge (nodes : gmap NodeId (gset NodeId)) (edge : Edge) : gmap NodeId (gset NodeId) :=
  match nodes !! head_node_id edge with
  | Some set => <[head_node_id edge := {[tail_node_id edge]} ∪ set]> nodes
  | None => <[head_node_id edge := {[tail_node_id edge]}]> nodes
  end.

Definition add_floating (nodes : gmap NodeId (gset NodeId)) (potential_floating_node : NodeId) :
    gmap NodeId (gset NodeId) :=
  match nodes !! potential_floating_node with
  | None => <[potential_floating_node := ∅]> nodes
  | Some _ => nodes
  end.

Definition siblings (i : nat) (nodes : gmap NodeId (gset NodeId)) : list NodeId :=
  (filter (λ '(_, depends_on), depends_on = ∅) (iterate i nodes)).*1.

(** The siblings are removed from the keys and from the values. *)
Definition remove_siblings (siblings : list NodeId) (nodes : gmap NodeId (gset NodeId)) :
    gmap NodeId (gset NodeId) :=
  let nodes := foldl (λ nodes sibling, delete sibling nodes) nodes siblings in
  (λ depends_on, foldl (λ depends_on sibling, depends_on ∖ {[sibling]}) depends_on siblings) <$> nodes.

(** The loop, in its [i]-th iteration. *)
Fixpoint sort_loop (fuel i : nat) (nodes : gmap NodeId (gset NodeId)) (results : list NodeId) :
    option (list NodeId) :=
  match fuel with
  | O => None
  | Datatypes.S fuel =>
      let siblings := siblings i nodes in
      match siblings with
      | [] => Some results
      | _ => sort_loop fuel (Datatypes.S i) (remove_siblings siblings nodes)
               (results ++ stable_sort N.leb siblings)
      end
  end.

(** The edges and nodes are what the database answers, deleted ones included. *)
Definition list_topologically_sorted_configuration_nodes_with_stable_ordering (fuel : nat)
    (edges : result NodeError (list Edge)) (kind_nodes : result NodeError (list NodeId))
    (shuffle_edges : bool) : option (result NodeError (list NodeId)) :=
  match edges with
  | Err _ => Some (Err NodeEdge)
  | Ok edges =>
      let edges := if shuffle_edges then shuffle edges else edges in
      let nodes := foldl add_edge ∅ edges in
      match kind_nodes with
      | Err e => Some (Err e)
      | Ok kind_nodes =>
          let nodes := foldl add_floating nodes kind_nodes in
          Ok <$> sort_loop fuel 0 nodes []
      end
  end.

End node.
End Node.

(** ** The reference *)

(** A node all of whose sources are resolved. *)
Inductive resolved (edges : list Edge) (nodes : list NodeId) (n : NodeId) : Prop :=
| resolved_node :
    n ∈ nodes ∨ n ∈ (head_node_id <$> edges) →
    (∀ e, e ∈ edges → head_node_id e = n → resolved edges nodes (tail_node_id e)) →
    resolved edges nodes n.

(** Every node comes after the nodes it depends on. *)
Definition topological (edges : list Edge) (l : list NodeId) : Prop :=
  ∀ before n after, l = before ++ n :: after →
    ∀ e, e ∈ edges → head_node_id e = n → tail_node_id e ∈ before.

(** Edges lead upwards. *)
Definition acyclic (edges : list Edge) : Prop :=
  ∃ rank : NodeId → nat, ∀ e, e ∈ edges → rank (tail_node_id e) < rank (head_node_id e).

Import Node.

(** ** The map of dependencies *)

Definition sources (edges : list Edge) (n : NodeId) : gset NodeId :=
  list_to_set (tail_node_id <$> filter (λ e, head_node_id e = n) edges).

Lemma elem_of_sources edges n t :
  t ∈ sources edges n ↔ ∃ e, e ∈ edges ∧ head_node_id e = n ∧ tail_node_id e = t.
Proof.
  unfold sources. rewrite elem_of_list_to_set, list_elem_of_fmap.
  setoid_rewrite list_elem_of_filter. naive_solver.
Qed.

Lemma lookup_edges edges n :
  foldl add_edge ∅ edges !! n =
    if decide (n ∈ (head_node_id <$> edges)) then Some (sources edges n) else None.
Proof.
  induction edges as [|e edges IH] using rev_ind; [done|].
  rewrite foldl_app, fmap_app. cbn [foldl]. unfold add_edge at 1.
  assert (sources (edges ++ [e]) n =
    (if decide (head_node_id e = n) then {[tail_node_id e]} else ∅) ∪ sources edges n) as ->.
  { apply set_eq. intros t. rewrite elem_of_union, !elem_of_sources.
    setoid_rewrite elem_of_app. clear IH.
    destruct (decide (head_node_id e = n)); set_solver. }
  assert (foldl add_edge ∅ edges !! head_node_id e = None → head_node_id e = n → sources edges n = ∅).
  { intros Hn <-. rewrite IH in Hn. destruct (decide _) as [|Hd]; [done|]. apply set_eq. intros t.
    rewrite elem_of_sources. set_solver. }
  destruct (decide (head_node_id e = n)) as [He|He].
  - rewrite decide_True by set_solver.
    destruct (foldl add_edge ∅ edges !! head_node_id e) as [set|] eqn:Hs.
    + rewrite He in *. rewrite lookup_insert_eq. rewrite IH in Hs. destruct (decide _); [|done].
      by injection Hs as <-.
    + rewrite He, lookup_insert_eq. rewrite H by done. by rewrite (right_id_L ∅ _).
  - rewrite (left_id_L ∅ _). transitivity (foldl add_edge ∅ edges !! n).
    { destruct (foldl add_edge ∅ edges !! head_node_id e); by rewrite lookup_insert_ne. }
    rewrite IH. apply decide_ext. set_solver.
Qed.

Lemma lookup_floating nodes kind_nodes n :
  foldl add_floating nodes kind_nodes !! n =
    match nodes !! n with
    | Some set => Some set
    | None => if decide (n ∈ kind_nodes) then Some ∅ else None
    end.
Proof.
  revert nodes. induction kind_nodes as [|x l IH]; intros nodes; cbn [foldl].
  - by destruct (nodes !! n).
  - rewrite IH. unfold add_floating. destruct (nodes !! x) as [set|] eqn:Hx.
    + destruct (nodes !! n) eqn:Hn; [done|]. apply decide_ext. set_solver.
    + destruct (decide (x = n)) as [->|].
      * rewrite lookup_insert_eq, Hx. by rewrite decide_True by set_solver.
      * rewrite lookup_insert_ne by done. destruct (nodes !! n); [done|]. apply decide_ext. set_solver.
Qed.

(** What every node depends on. *)
Definition dependencies (edges : list Edge) (kind_nodes : list NodeId) : gmap NodeId (gset NodeId) :=
  foldl add_floating (foldl add_edge ∅ edges) kind_nodes.

Lemma lookup_dependencies edges kind_nodes n :
  dependencies edges kind_nodes !! n =
    if decide (n ∈ kind_nodes ∨ n ∈ (head_node_id <$> edges)) then Some (sources edges n) else None.
Proof.
  unfold dependencies. rewrite lookup_floating, lookup_edges.
  destruct (decide (n ∈ (head_node_id <$> edges))) as [Hh|Hh].
  - by rewrite decide_True by auto.
  - assert (sources edges n = ∅) as ->; [|apply decide_ext; naive_solver].
    apply set_eq. intros t. rewrite elem_of_sources. split; [|set_solver].
    intros (e & He & Hn & _). destruct Hh. apply list_elem_of_fmap. eauto.
Qed.

(** The map depends on the edges and nodes as sets. *)
Lemma dependencies_ext edges edges' kind_nodes kind_nodes' :
  (∀ e, e ∈ edges ↔ e ∈ edges') → (∀ n, n ∈ kind_nodes ↔ n ∈ kind_nodes') →
  dependencies edges kind_nodes = dependencies edges' kind_nodes'.
Proof.
  intros He Hn. apply map_eq. intros n. rewrite !lookup_dependencies.
  assert (sources edges n = sources edges' n) as ->.
  { apply set_eq. intros t. rewrite !elem_of_sources. by setoid_rewrite He. }
  apply decide_ext. rewrite Hn, !list_elem_of_fmap. by setoid_rewrite He.
Qed.

(** ** The loop *)

Section loop.
Context {HO : HashMapOrder}.

(** What is left when [results] have been listed. *)
Definition remaining (m : gmap NodeId (gset NodeId)) (results : list NodeId) :
    gmap NodeId (gset NodeId) :=
  (λ depends_on : gset NodeId, depends_on ∖ list_to_set results) <$> filter (λ '(n, _), n ∉ results) m.

Lemma lookup_remaining m results n :
  remaining m results !! n =
    if decide (n ∈ results) then None
    else (λ depends_on : gset NodeId, depends_on ∖ list_to_set results) <$> m !! n.
Proof.
  unfold remaining. rewrite lookup_fmap, map_lookup_filter.
  destruct (m !! n); cbn; [|by case_decide]. by repeat case_guard || case_decide.
Qed.

Lemma remaining_nil m : remaining m [] = m.
Proof.
  apply map_eq. intros n. rewrite lookup_remaining. rewrite decide_False by set_solver.
  destruct (m !! n) as [d|]; cbn; [|done]. f_equal. set_solver.
Qed.

Lemma foldl_difference (l : list NodeId) (s : gset NodeId) :
  foldl (λ s x, s ∖ {[x]}) s l = s ∖ list_to_set l.
Proof.
  revert s. induction l as [|x l IH]; intros s; cbn; [set_solver|]. rewrite IH. set_solver.
Qed.

Lemma lookup_foldl_delete {V} (l : list NodeId) (m : gmap NodeId V) n :
  foldl (λ m x, delete x m) m l !! n = if decide (n ∈ l) then None else m !! n.
Proof.
  revert m. induction l as [|x l IH]; intros m; cbn; [done|]. rewrite IH.
  destruct (decide (n ∈ l)), (decide (n ∈ x :: l)); try set_solver.
  - assert (n = x) as -> by set_solver. apply lookup_delete_eq.
  - apply lookup_delete_ne. set_solver.
Qed.

Lemma remove_remaining m results l : 
  remove_siblings l (remaining m results) = remaining m (results ++ stable_sort N.leb l).
Proof.
  apply map_eq. intros n. unfold remove_siblings.
  rewrite lookup_fmap, lookup_foldl_delete, !lookup_remaining.
  pose proof (stable_sort_perm N.leb l) as Hp.
  assert (n ∈ results ++ stable_sort N.leb l ↔ n ∈ l ∨ n ∈ results) as Hin.
  { rewrite elem_of_app, Hp. tauto. }
  destruct (decide (n ∈ l)), (decide (n ∈ results)), (decide (n ∈ results ++ _)); try tauto.
  destruct (m !! n) as [d|]; cbn; [|done]. f_equal. rewrite foldl_difference.
  apply set_eq. intros t. rewrite !elem_of_difference, !elem_of_list_to_set, elem_of_app, Hp. tauto.
Qed.

Lemma elem_of_siblings i m n : n ∈ siblings i m ↔ m !! n = Some ∅.
Proof.
  unfold siblings. rewrite list_elem_of_fmap. setoid_rewrite list_elem_of_filter. split.
  - intros ([k d] & -> & -> & Hin). rewrite iterate_all in Hin. by apply elem_of_map_to_list in Hin.
  - intros Hn%elem_of_map_to_list. exists (n, ∅). split; [done|]. by rewrite iterate_all.
Qed.

Lemma siblings_NoDup i m : NoDup (siblings i m).
Proof.
  apply (sublist_NoDup _ (iterate i m).*1); [|apply fmap_sublist, sublist_filter].
  rewrite iterate_all. apply NoDup_fst_map_to_list.
Qed.

(** The loop keeps this of what it has listed. *)
Record listed (edges : list Edge) (nodes : list NodeId) (results : list NodeId) : Prop := {
  listed_once : NoDup results;
  listed_resolved n : n ∈ results → resolved edges nodes n;
  listed_topological : topological edges results;
}.

Context (edges : list Edge) (kind_nodes : list NodeId).
Abbreviation m0 := (dependencies edges kind_nodes).

(** The next siblings can be listed. *)
Lemma sibling_ready i results n : n ∈ siblings i (remaining m0 results) →
  (n ∉ results) ∧ (n ∈ kind_nodes ∨ n ∈ (head_node_id <$> edges)) ∧
  ∀ e, e ∈ edges → head_node_id e = n → tail_node_id e ∈ results.
Proof.
  rewrite elem_of_siblings, lookup_remaining, lookup_dependencies.
  destruct (decide (n ∈ results)); [done|]. destruct (decide _) as [Hn|]; [|done]. cbn.
  intros [= Hs]. split_and!; [done..|]. intros e He Hh. apply (elem_of_list_to_set (C := gset NodeId)).
  assert (tail_node_id e ∈ sources edges n) by (apply elem_of_sources; eauto). set_solver.
Qed.

Lemma listed_app results l : listed edges kind_nodes results → NoDup l →
  (∀ n, n ∈ l → (n ∉ results) ∧ (n ∈ kind_nodes ∨ n ∈ (head_node_id <$> edges)) ∧
    ∀ e, e ∈ edges → head_node_id e = n → tail_node_id e ∈ results) →
  listed edges kind_nodes (results ++ l).
Proof.
  intros [Hd Hr Ht] Hl Hready. split.
  - apply NoDup_app. split_and!; [done| |done]. intros n Hn Hnl. by destruct (Hready n Hnl).
  - intros n [?|Hn]%elem_of_app; [auto|]. destruct (Hready n Hn) as (_ & Hin & Hs).
    constructor; [done|]. eauto.
  - intros before n after Happ e He Hh.
    apply app_eq_inv in Happ as [(k & -> & Hk)|(k & -> & Hk)].
    + symmetry in Hk. destruct k as [|x k]; cbn in Hk.
      * destruct (Hready n) as (_ & _ & Hs); [rewrite Hk; set_solver|]. rewrite app_nil_r in Hs. auto.
      * injection Hk as -> <-. by eapply Ht.
    + apply elem_of_app. left. apply (Hready n); [|done..]. rewrite Hk. set_solver.
Qed.

(** At the end, what is not listed is not resolved. *)
Lemma none_left i results n : siblings i (remaining m0 results) = [] →
  resolved edges kind_nodes n → n ∈ results.
Proof.
  intros Hs Hn. induction Hn as [n Hin Hsrc IH].
  destruct (decide (n ∈ results)) as [|Hr]; [done|]. exfalso.
  assert (n ∈ siblings i (remaining m0 results)) as Hin'; [|rewrite Hs in Hin'; set_solver].
  apply elem_of_siblings. rewrite lookup_remaining, lookup_dependencies, !decide_False, decide_True by done.
  cbn. f_equal. apply set_eq. intros t. rewrite elem_of_difference, elem_of_sources.
  split; [|set_solver]. intros [(e & He & Hh & <-) Ht]. destruct Ht.
  apply elem_of_list_to_set. eauto.
Qed.

(** A round makes the map smaller. *)
Lemma remaining_smaller m results x l : x ∈ dom (remaining m results) → x ∈ l →
  size (remaining m (results ++ l)) < size (remaining m results).
Proof.
  intros Hx Hl. rewrite <-!(size_dom (D := gset NodeId)). apply subset_size.
  assert (∀ n r, n ∈ dom (remaining m r) ↔ (n ∉ r) ∧ n ∈ dom m) as Hdom.
  { intros n r. rewrite !elem_of_dom, lookup_remaining. destruct (decide _), (m !! n); cbn;
      unfold is_Some; naive_solver. }
  split.
  - intros n. rewrite !Hdom, elem_of_app. tauto.
  - intros Hsub. specialize (Hsub x Hx). rewrite Hdom, elem_of_app in Hsub. tauto.
Qed.

Lemma sort_loop_listed fuel : ∀ i results,
  listed edges kind_nodes results → size (remaining m0 results) < fuel →
  ∃ l, sort_loop fuel i (remaining m0 results) results = Some l ∧
    listed edges kind_nodes l ∧ ∀ n, resolved edges kind_nodes n → n ∈ l.
Proof.
  induction fuel as [|fuel IH]; intros i results Hl Hf; [lia|]. cbn [sort_loop].
  destruct (siblings i (remaining m0 results)) as [|x l] eqn:Hs.
  { exists results. split_and!; [done..|]. intros n. by eapply none_left. }
  rewrite remove_remaining, <-Hs. apply IH.
  - apply listed_app; [done| |].
    + rewrite stable_sort_perm. apply siblings_NoDup.
    + intros n Hn. rewrite stable_sort_perm in Hn. by eapply sibling_ready.
  - assert (x ∈ siblings i (remaining m0 results)) as Hx by (rewrite Hs; set_solver).
    eapply Nat.lt_le_trans; [|apply Nat.lt_succ_r, Hf]. apply remaining_smaller with x.
    + apply elem_of_siblings in Hx. by eapply elem_of_dom_2.
    + by rewrite stable_sort_perm.
Qed.

End loop.

(** ** The order does not depend on chance *)

Lemma sort_siblings_eq (l l' : list NodeId) : l ≡ₚ l' → stable_sort N.leb l = stable_sort N.leb l'.
Proof.
  intros Hp. assert (∀ l, StronglySorted N.le (stable_sort N.leb l)) as Hs.
  { intros s. apply stable_sort_sorted; [intros ???; lia|apply N.leb_spec0|lia]. }
  apply (StronglySorted_unique N.le); [done..|]. by rewrite !stable_sort_perm.
Qed.

Lemma sort_loop_stable (HO HO' : HashMapOrder) fuel m : ∀ i results,
  sort_loop (H := HO) fuel i (remaining m results) results =
  sort_loop (H := HO') fuel i (remaining m results) results.
Proof.
  induction fuel as [|fuel IH]; intros i results; [done|]. cbn [sort_loop].
  assert (siblings (H := HO) i (remaining m results) ≡ₚ siblings (H := HO') i (remaining m results)) as Hp.
  { apply NoDup_Permutation; [apply siblings_NoDup..|]. intros n. by rewrite !elem_of_siblings. }
  rewrite !remove_remaining, <-(sort_siblings_eq _ _ Hp).
  destruct (siblings (H := HO) i (remaining m results)) eqn:Hs, (siblings (H := HO') i (remaining m results)).
  - done.
  - by apply Permutation_nil_cons in Hp.
  - symmetry in Hp. by apply Permutation_nil_cons in Hp.
  - apply IH.
Qed.

(** ** Theorems *)

Section theorems.
Context {HO : HashMapOrder} {SH : Shuffle}.

Abbreviation sorted_nodes :=
  list_topologically_sorted_configuration_nodes_with_stable_ordering.

(** The loop is run on the dependencies. *)
Lemma sorted_nodes_loop fuel edges nodes shuffled :
  sorted_nodes fuel (Ok edges) (Ok nodes) shuffled =
    Ok <$> sort_loop fuel 0 (dependencies edges nodes) [].
Proof.
  unfold sorted_nodes. destruct shuffled; [|done].
  fold (dependencies (shuffle edges) nodes).
  rewrite (dependencies_ext (shuffle edges) edges nodes nodes); [done| |done].
  intros e. by rewrite shuffle_all.
Qed.

Lemma listed_nil edges nodes : listed edges nodes [].
Proof.
  split; [constructor|set_solver|]. intros before n after Happ. by destruct before.
Qed.

Lemma list_to_set_size (l : list NodeId) : size (list_to_set l : gset NodeId) ≤ length l.
Proof.
  induction l as [|x l IH]; cbn; [by rewrite size_empty|].
  rewrite size_union_alt, size_singleton.
  assert (size (list_to_set l ∖ {[x]} : gset NodeId) ≤ size (list_to_set l : gset NodeId))
    by (apply subseteq_size; set_solver).
  lia.
Qed.

Lemma node_count edges nodes :
  size (dependencies edges nodes) ≤ length edges + length nodes.
Proof.
  rewrite <-(size_dom (D := gset NodeId)).
  transitivity (size (list_to_set ((head_node_id <$> edges) ++ nodes) : gset NodeId)).
  - apply subseteq_size. intros n. rewrite elem_of_dom, lookup_dependencies, elem_of_list_to_set, elem_of_app.
    destruct (decide _); [tauto|]. by intros [].
  - rewrite <-(length_fmap head_node_id edges), <-length_app. apply list_to_set_size.
Qed.

Lemma sorted_nodes_listed fuel edges nodes shuffled : length edges + length nodes < fuel →
  ∃ l, sorted_nodes fuel (Ok edges) (Ok nodes) shuffled = Some (Ok l) ∧
    listed edges nodes l ∧ ∀ n, resolved edges nodes n → n ∈ l.
Proof.
  intros Hf. rewrite sorted_nodes_loop. pose proof (node_count edges nodes).
  destruct (sort_loop_listed edges nodes fuel 0 []) as (l & Hl & Hr).
  - apply listed_nil.
  - rewrite remaining_nil. lia.
  - rewrite remaining_nil in Hl. exists l. by rewrite Hl.
Qed.

(** Without a cycle, every node is resolved. *)
Lemma acyclic_resolved edges nodes : acyclic edges →
  (∀ e, e ∈ edges → tail_node_id e ∈ nodes) → ∀ n, n ∈ nodes → resolved edges nodes n.
Proof.
  intros [rank Hrank] Ht n. induction n as [n IH] using (induction_ltof1 _ rank). unfold ltof in IH.
  intros Hn. constructor; [by left|]. intros e He <-. auto.
Qed.

(** C22: The listing ends, and lists every node whose sources can all be listed,
    once, after the nodes it depends on; when the edges have no cycle and come from
    nodes of the kind, these are all the nodes. *)
Theorem nodes_listed_in_order fuel edges nodes shuffled : length edges + length nodes < fuel →
  ∃ l, sorted_nodes fuel (Ok edges) (Ok nodes) shuffled = Some (Ok l) ∧
    NoDup l ∧ (∀ n, n ∈ l ↔ resolved edges nodes n) ∧ topological edges l ∧
    (acyclic edges → (∀ e, e ∈ edges → tail_node_id e ∈ nodes) → ∀ n, n ∈ nodes → n ∈ l).
Proof.
  intros Hf. destruct (sorted_nodes_listed fuel edges nodes shuffled Hf) as (l & Hl & [Hd Hr Ht] & Hall).
  exists l. split_and!; [done..| |done|].
  - intros n. split; auto.
  - intros. by apply Hall, acyclic_resolved.
Qed.

End theorems.

(** The order is stable: it is the same for every order of the edges, of the
    nodes and of the hash map, shuffled or not. *)
Theorem order_is_stable (HO HO' : HashMapOrder) (SH SH' : Shuffle) fuel edges edges' nodes nodes'
    shuffled shuffled' :
  (∀ e, e ∈ edges ↔ e ∈ edges') → (∀ n, n ∈ nodes ↔ n ∈ nodes') →
  list_topologically_sorted_configuration_nodes_with_stable_ordering (H := HO) (S := SH)
    fuel (Ok edges) (Ok nodes) shuffled =
  list_topologically_sorted_configuration_nodes_with_stable_ordering (H := HO') (S := SH')
    fuel (Ok edges') (Ok nodes') shuffled'.
Proof.
  intros He Hn. rewrite !sorted_nodes_loop, (dependencies_ext edges edges' nodes nodes' He Hn).
  rewrite <-(remaining_nil (dependencies edges' nodes')). f_equal. apply sort_loop_stable.
Qed.

(** ** Witnesses *)

Definition forwards : HashMapOrder :=
  {| iterate := λ _ m, map_to_list m; iterate_all := λ _ m, Permutation_refl (map_to_list m) |}.

Definition backwards : HashMapOrder :=
  {| iterate := λ _ m, reverse (map_to_list m); iterate_all := λ _ m, reverse_Permutation (map_to_list m) |}.

Definition turn : Shuffle := {| shuffle := reverse; shuffle_all := λ l, reverse_Permutation l |}.

Definition edge (t h : NodeId) : Edge := {| tail_node_id := t; head_node_id := h |}.

(** Node 4 feeds itself. *)
Lemma nodes_listed_in_order_witness :
  ∃ l, list_topologically_sorted_configuration_nodes_with_stable_ordering (H := forwards) (S := turn)
      9 (Ok [edge 3 1; edge 2 3; edge 4 4]) (Ok [1; 2; 3; 4]%N) true = Some (Ok l) ∧
    l = [2; 3; 1]%N ∧ NoDup l ∧ topological [edge 3 1; edge 2 3; edge 4 4] l.
Proof.
  destruct (nodes_listed_in_order (HO := forwards) (SH := turn) 9
    [edge 3 1; edge 2 3; edge 4 4] [1; 2; 3; 4]%N true) as (l & Hl & Hd & _ & Ht & _).
  { cbn. lia. }
  exists l. split_and!; [done| |done|done].
  assert (Some (Ok [2; 3; 1]%N) = Some (Ok (E := NodeError) l)) as Heq; [|by injection Heq as <-].
  rewrite <-Hl. by vm_compute.
Defined.

Lemma order_is_stable_witness :
  list_topologically_sorted_configuration_nodes_with_stable_ordering (H := forwards) (S := turn)
    9 (Ok [edge 3 1; edge 2 3]) (Ok [1; 2; 3; 4]%N) false =
  list_topologically_sorted_configuration_nodes_with_stable_ordering (H := backwards) (S := turn)
    9 (Ok [edge 2 3; edge 3 1]) (Ok [4; 2; 3; 1]%N) true.
Proof. apply order_is_stable; set_solver. Defined.
