(* ===== verification/ActionOrder.v ===== *)
(** * The order of actions

    Model of [Action::sort_of_change_set] in [src/lib/dal/src/action.rs]: the actions
    of a change set get their indexes, so that resources are created after, and
    deleted before, the resources they depend on. What the database answers is a
    record of functions. *)

From S2P Require Import Prelude NodeOrder.
From Stdlib Require Import NArith ZArith.
From stdpp Require Import base tactics list sorting gmap.

Inductive ActionKind : Set := Create | Delete | Other | Refresh.

Record Action := {
  action_id : N;
  action_prototype_id : N;
  component_id : N;
}.

(** A component, with what is read of it. *)
Record Component := {
  component_pk : N;
  deleted_at : option N;
  needs_destroy : bool;
}.

Definition is_destroyed (c : Component) : bool :=
  match deleted_at c with Some _ => negb (needs_destroy c) | None => false end.

Inductive ActionError : Type :=
| ActionNode (e : NodeError)
| PrototypeNotFound (id : N)
| ActionOutside.

(** The answers of the database. *)
Record Database := {
  find_for_change_set : result ActionError (list Action);
  list_for_kind_edges : result NodeError (list Edge);
  list_for_kind_nodes : result NodeError (list N);
  node_get_by_id : N → result ActionError (option N);
  node_component : N → result ActionError (option Component);
  prototype_get_by_id : N → result ActionError (option ActionKind);
  resource_payload : N → result ActionError (option N);
  set_index : N → Z → result ActionError unit;
  publish : result ActionError unit;
}.

(** [index as i16]. *)
Definition as_i16 (z : Z) : Z := ((z + 2 ^ 15) mod 2 ^ 16 - 2 ^ 15)%Z.

Module Sorting.
Section sorting.
Context {H : HashMapOrder} {S : Shuffle} (db : Database).

(** [action.prototype(ctx)]. *)
Definition prototype (a : Action) : result ActionError ActionKind :=
  k ← prototype_get_by_id db (action_prototype_id a);
  match k with Some k => Ok k | None => Err (PrototypeNotFound (action_prototype_id a)) end.

Definition actions_by_component (actions : list Action) : gmap N (list Action) :=
  foldl (λ m a, <[component_id a := default [] (m !! component_id a) ++ [a]]> m) ∅ actions.

(** The five lists. *)
Record Lists := {
  initial_deletions : list Action;
  initial_others : list Action;
  creations : list Action;
  final_others : list Action;
  final_deletions : list Action;
}.

Definition no_actions : Lists := Build_Lists [] [] [] [] [].

(** The body of the inner loop. *)
Definition place (component : Component) (ls : Lists) (a : Action) : result ActionError Lists :=
  let '(Build_Lists ids ios cs fos fds) := ls in
  kind ← prototype a;
  match kind with
  | Create => Ok (Build_Lists ids ios (cs ++ [a]) fos fds)
  | Delete =>
      payload ← resource_payload db (component_pk component);
      match payload with
      | Some _ => Ok (Build_Lists (ids ++ [a]) ios cs fos fds)
      | None => Ok (Build_Lists ids ios cs fos (fds ++ [a]))
      end
  | Refresh | Other =>
      payload ← resource_payload db (component_pk component);
      match payload with
      | Some _ => Ok (Build_Lists ids (ios ++ [a]) cs fos fds)
      | None => Ok (Build_Lists ids ios cs (fos ++ [a]) fds)
      end
  end.

Fixpoint try_fold {A B} (f : B → A → result ActionError B) (b : B) (l : list A) : result ActionError B :=
  match l with
  | [] => Ok b
  | a :: l => b ← f b a; try_fold f b l
  end.

(** The body of the outer loop. *)
Definition visit_node (by_component : gmap N (list Action)) (ls : Lists) (sorted_node_id : N) :
    result ActionError Lists :=
  node ← node_get_by_id db sorted_node_id;
  match node with
  | None => Err (ActionNode (NotFound sorted_node_id))
  | Some sorted_node =>
      component ← node_component db sorted_node;
      match component with
      | None => Err (ActionNode ComponentIsNone)
      | Some component =>
          if is_destroyed component then Ok ls
          else match by_component !! component_pk component with
               | None => Ok ls
               | Some actions =>
                   try_fold (place component) ls
                     (stable_sort (λ a b, (action_prototype_id a <=? action_prototype_id b)%N) actions)
               end
      end
  end.

(** The order of the actions. *)
Definition sorted_actions (fuel : nat) : option (result ActionError (list Action)) :=
  match find_for_change_set db with
  | Err e => Some (Err e)
  | Ok actions =>
      sorted ← Node.list_topologically_sorted_configuration_nodes_with_stable_ordering fuel
                 (list_for_kind_edges db) (list_for_kind_nodes db) false;
      Some (match sorted with
            | Err e => Err (ActionNode e)
            | Ok sorted_node_ids =>
                ls ← try_fold (visit_node (actions_by_component actions)) no_actions sorted_node_ids;
                Ok (reverse (initial_deletions ls) ++ initial_others ls ++ creations ls ++
                    final_others ls ++ reverse (final_deletions ls))
            end)
  end.

(** Writing the indexes: what was written, and how it ended. *)
Fixpoint write_indexes (index : nat) (actions : list Action) (written : list (N * Z)) :
    list (N * Z) * result ActionError unit :=
  match actions with
  | [] => (written, Ok tt)
  | a :: actions =>
      match set_index db (action_id a) (as_i16 (Z.of_nat index)) with
      | Err e => (written, Err e)
      | Ok _ => write_indexes (Datatypes.S index) actions
                  (written ++ [(action_id a, as_i16 (Z.of_nat index))])
      end
  end.

Definition sort_of_change_set (fuel : nat) : option (list (N * Z) * result ActionError unit) :=
  sorted ← sorted_actions fuel;
  Some (match sorted with
        | Err e => ([], Err e)
        | Ok actions =>
            let '(written, r) := write_indexes 0 actions [] in
            match r with Err e => (written, Err e) | Ok _ => (written, publish db) end
        end).

End sorting.
End Sorting.

(** ** The reference *)

Section reference.
Context (db : Database).

Definition kind_of (a : Action) : ActionKind :=
  match prototype_get_by_id db (action_prototype_id a) with Ok (Some k) => k | _ => Other end.

Definition has_payload (a : Action) : bool :=
  match resource_payload db (component_id a) with Ok (Some _) => true | _ => false end.

Inductive Phase : Set := InitialDeletion | InitialOther | Creation | FinalOther | FinalDeletion.

#[export] Instance Phase_eq_dec : EqDecision Phase.
Proof. solve_decision. Defined.

Definition phase (a : Action) : Phase :=
  match kind_of a with
  | Create => Creation
  | Delete => if has_payload a then InitialDeletion else FinalDeletion
  | Refresh | Other => if has_payload a then InitialOther else FinalOther
  end.

Definition in_phase (p : Phase) (l : list Action) : list Action := filter (λ a, phase a = p) l.

(** The actions of a node. *)
Definition node_actions (actions : list Action) (n : N) : list Action :=
  match node_component db n with
  | Ok (Some c) =>
      if is_destroyed c then []
      else stable_sort (λ a b, (action_prototype_id a <=? action_prototype_id b)%N)
             (filter (λ a, component_id a = component_pk c) actions)
  | _ => []
  end.

(** The actions in the order of their nodes. *)
Definition along (actions : list Action) (nodes : list N) : list Action :=
  nodes ≫= node_actions actions.

(** Deletions go against the edges, the others along them. *)
Definition phases (l : list Action) : list Action :=
  reverse (in_phase InitialDeletion l) ++ in_phase InitialOther l ++ in_phase Creation l ++
  in_phase FinalOther l ++ reverse (in_phase FinalDeletion l).

(** Every query about these actions and nodes is answered. *)
Record answers (actions : list Action) (nodes : list N) : Prop := {
  answers_node n : n ∈ nodes → node_get_by_id db n = Ok (Some n);
  answers_component n : n ∈ nodes → ∃ c, node_component db n = Ok (Some c);
  answers_prototype a : a ∈ actions →
    ∃ k, prototype_get_by_id db (action_prototype_id a) = Ok (Some k);
  answers_resource a : a ∈ actions → ∃ p, resource_payload db (component_id a) = Ok p;
  answers_write i z : set_index db i z = Ok tt;
}.

End reference.

Import Sorting.

(** ** The code computes the reference *)

Section refines.
Context {HO : HashMapOrder} {SH : Shuffle} (db : Database).

Lemma lookup_by_component actions c :
  actions_by_component actions !! c =
    match filter (λ a, component_id a = c) actions with [] => None | l => Some l end.
Proof.
  unfold actions_by_component. induction actions as [|a l IH] using rev_ind; [done|].
  rewrite foldl_app, filter_app. cbn [foldl]. rewrite filter_cons, filter_nil.
  destruct (decide (component_id a = c)) as [<-|].
  - rewrite lookup_insert_eq, IH. by destruct (filter _ l).
  - by rewrite lookup_insert_ne, app_nil_r.
Qed.

Definition lists_of (l : list Action) : Lists :=
  {| initial_deletions := in_phase db InitialDeletion l; initial_others := in_phase db InitialOther l;
     creations := in_phase db Creation l; final_others := in_phase db FinalOther l;
     final_deletions := in_phase db FinalDeletion l |}.

Lemma in_phase_snoc p l a :
  in_phase db p (l ++ [a]) = in_phase db p l ++ (if decide (phase db a = p) then [a] else []).
Proof. unfold in_phase. by rewrite filter_app, filter_cons, filter_nil. Qed.

Context (actions : list Action) (nodes : list N) (Ha : answers db actions nodes).

Lemma place_lists c l a : a ∈ actions → component_id a = component_pk c →
  place db c (lists_of l) a = Ok (lists_of (l ++ [a])).
Proof using Ha.
  intros Hin Hc. destruct (answers_prototype _ _ _ Ha a Hin) as [k Hk].
  destruct (answers_resource _ _ _ Ha a Hin) as [p Hp].
  unfold lists_of. rewrite !in_phase_snoc. unfold place, prototype, phase, kind_of, has_payload.
  rewrite Hk, <-Hc, Hp. by destruct k, p; cbn; rewrite ?app_nil_r.
Qed.

Lemma place_all_lists c l' : ∀ l, (∀ a, a ∈ l' → a ∈ actions ∧ component_id a = component_pk c) →
  try_fold (place db c) (lists_of l) l' = Ok (lists_of (l ++ l')).
Proof using Ha.
  induction l' as [|a l' IH]; intros l Hl; cbn [try_fold]; [by rewrite app_nil_r|].
  destruct (Hl a) as [Hin Hc]; [set_solver|]. rewrite (place_lists c l a Hin Hc). cbn.
  rewrite IH, <-(assoc_L (++)) by set_solver. done.
Qed.

Lemma visit_lists l n : n ∈ nodes →
  visit_node db (actions_by_component actions) (lists_of l) n =
    Ok (lists_of (l ++ node_actions db actions n)).
Proof using Ha.
  intros Hn. unfold visit_node, node_actions. rewrite (answers_node _ _ _ Ha n Hn). cbn.
  destruct (answers_component _ _ _ Ha n Hn) as [c Hc]. rewrite Hc. cbn.
  destruct (is_destroyed c); [by rewrite app_nil_r|]. rewrite lookup_by_component.
  destruct (filter (λ a, component_id a = component_pk c) actions) as [|a l'] eqn:Hf;
    [by rewrite app_nil_r|].
  apply place_all_lists. intros a'. rewrite stable_sort_perm, <-Hf, list_elem_of_filter. tauto.
Qed.

Lemma visit_all_lists ns : ∀ l, ns ⊆ nodes →
  try_fold (visit_node db (actions_by_component actions)) (lists_of l) ns =
    Ok (lists_of (l ++ along db actions ns)).
Proof using Ha.
  induction ns as [|n ns IH]; intros l Hl; cbn [try_fold]; [by rewrite app_nil_r|].
  rewrite visit_lists by set_solver. cbn. rewrite IH by set_solver. by rewrite <-(assoc_L (++)).
Qed.

Lemma write_all ls : ∀ i written,
  write_indexes db i ls written =
    (written ++ imap (λ j a, (action_id a, as_i16 (Z.of_nat (i + j)))) ls, Ok tt).
Proof using Ha.
  induction ls as [|a ls IH]; intros i written; cbn [write_indexes imap]; [by rewrite app_nil_r|].
  rewrite (answers_write _ _ _ Ha). rewrite IH, <-(assoc_L (++)). rewrite Nat.add_0_r. do 3 f_equal.
  apply imap_ext. intros j b _. cbn. do 3 f_equal. lia.
Qed.

End refines.

Section theorems.
Context {HO : HashMapOrder} {SH : Shuffle} (db : Database).

(** What is written, and in which order. *)
Lemma sorts fuel actions edges nodes :
  find_for_change_set db = Ok actions → list_for_kind_edges db = Ok edges →
  list_for_kind_nodes db = Ok nodes → length edges + length nodes < fuel →
  (∀ l, (∀ n, n ∈ l → resolved edges nodes n) → answers db actions l) →
  ∃ l, listed edges nodes l ∧ (∀ n, resolved edges nodes n → n ∈ l) ∧
    sort_of_change_set db fuel =
      Some (imap (λ i a, (action_id a, as_i16 (Z.of_nat i))) (phases db (along db actions l)), publish db).
Proof.
  intros Ha He Hn Hf Hans.
  destruct (sorted_nodes_listed fuel edges nodes false Hf) as (l & Hl & Hlisted & Hall).
  specialize (Hans l (listed_resolved _ _ _ Hlisted)). exists l. split_and!; [done..|].
  unfold sort_of_change_set, sorted_actions. rewrite Ha, He, Hn, Hl. cbn [mbind option_bind].
  pose proof (visit_all_lists db actions l Hans l []) as Hv.
  change (lists_of db []) with no_actions in Hv. rewrite Hv by done. cbn [mbind result_bind].
  by rewrite (write_all db actions l Hans).
Qed.

(** A component has one node. *)
Definition one_node : Prop := ∀ n n' c c', node_component db n = Ok (Some c) →
  node_component db n' = Ok (Some c') → component_pk c = component_pk c' → n = n'.

(** An edge from the component of an action to the component of another. *)
Definition depends (edges : list Edge) (a b : Action) : Prop :=
  ∃ e c c', e ∈ edges ∧ node_component db (tail_node_id e) = Ok (Some c) ∧
    node_component db (head_node_id e) = Ok (Some c') ∧
    component_id a = component_pk c ∧ component_id b = component_pk c'.

Lemma elem_of_node_actions actions n a : a ∈ node_actions db actions n →
  a ∈ actions ∧ ∃ c, node_component db n = Ok (Some c) ∧ is_destroyed c = false ∧
    component_id a = component_pk c.
Proof.
  unfold node_actions. destruct (node_component db n) as [[c|]|]; try set_solver.
  destruct (is_destroyed c) eqn:Hd; [set_solver|].
  rewrite stable_sort_perm, list_elem_of_filter. naive_solver.
Qed.

(** Along the nodes, no action comes before one its component depends on. *)
Lemma along_sorted edges nodes actions l :
  one_node → listed edges nodes l →
  StronglySorted (λ a b, ¬ depends edges b a) (along db actions l).
Proof.
  intros Hone [Hd _ Ht].
  apply StronglySorted_bind. intros before n after -> m Hm a b
    (_ & cn & Hcn & _ & Han)%elem_of_node_actions (_ & cm & Hcm & _ & Hbm)%elem_of_node_actions
    (e & c & c' & He & Hc & Hc' & Hb & Ha).
  assert (tail_node_id e = m) as Htail by (eapply Hone; eauto; congruence).
  assert (head_node_id e = n) as Hhead by (eapply Hone; eauto; congruence).
  specialize (Ht before n after eq_refl e He Hhead). rewrite Htail in Ht.
  apply NoDup_app in Hd as (_ & Hd & _). by apply (Hd m).
Qed.

Lemma along_no_self edges nodes actions l a :
  one_node → listed edges nodes l → a ∈ along db actions l → ¬ depends edges a a.
Proof.
  intros Hone [Hd _ Ht] (n & (_ & cn & Hcn & _ & Han)%elem_of_node_actions & Hn)%list_elem_of_bind
    (e & c & c' & He & Hc & Hc' & Hb & Ha).
  assert (tail_node_id e = n) as Htail by (eapply Hone; eauto; congruence).
  assert (head_node_id e = n) as Hhead by (eapply Hone; eauto; congruence).
  apply list_elem_of_split in Hn as (before & after & ->).
  specialize (Ht before n after eq_refl e He Hhead). rewrite Htail in Ht.
  apply NoDup_app in Hd as (_ & Hd & _). apply (Hd n Ht). set_solver.
Qed.

Definition rank (p : Phase) : nat :=
  match p with
  | InitialDeletion => 0 | InitialOther => 1 | Creation => 2 | FinalOther => 3 | FinalDeletion => 4
  end.

(** Phase by phase, and in a phase along the edges, for deletions against them. *)
Definition goes_before (edges : list Edge) (a b : Action) : Prop :=
  rank (phase db a) < rank (phase db b) ∨
  phase db a = phase db b ∧
  match kind_of db a with Delete => ¬ depends edges a b | _ => ¬ depends edges b a end.

Lemma elem_of_in_phase p l a : a ∈ in_phase db p l ↔ phase db a = p ∧ a ∈ l.
Proof. unfold in_phase. by rewrite list_elem_of_filter. Qed.

Lemma elem_of_phases l a : a ∈ phases db l ↔ a ∈ l.
Proof.
  unfold phases. rewrite !elem_of_app, !elem_of_reverse, !elem_of_in_phase.
  destruct (phase db a); naive_solver.
Qed.

Lemma phase_delete a : kind_of db a = Delete ↔ phase db a = InitialDeletion ∨ phase db a = FinalDeletion.
Proof. unfold phase. destruct (kind_of db a), (has_payload db a); naive_solver. Qed.

Lemma phase_sorted edges p l : StronglySorted (λ a b, ¬ depends edges b a) l →
  StronglySorted (goes_before edges)
    (match p with
     | InitialDeletion | FinalDeletion => reverse (in_phase db p l)
     | _ => in_phase db p l
     end).
Proof.
  intros Hl. pose proof (StronglySorted_filter _ (λ a, phase db a = p) l Hl) as Hp. fold (in_phase db p l) in Hp.
  assert (∀ R l', StronglySorted R l' → (∀ a, a ∈ l' → phase db a = p) →
    (∀ a b, phase db a = p → phase db b = p → R a b → goes_before edges a b) →
    StronglySorted (goes_before edges) l') as Himpl.
  { intros R l'. induction 1 as [|x l' _ IH Hx]; intros Hin HR; constructor; [apply IH; set_solver|].
    rewrite Forall_forall in *. intros b Hb. apply HR; set_solver. }
  assert (∀ a, a ∈ in_phase db p l → phase db a = p) as Hin by (intros a; rewrite elem_of_in_phase; tauto).
  destruct p; (eapply Himpl; [first [apply StronglySorted_reverse, Hp|apply Hp]| |]);
    try (intros a; rewrite elem_of_reverse; apply Hin); try apply Hin;
    intros a b Ha Hb Hab; right; (split; [congruence|]);
    destruct (kind_of db a) eqn:Hk; try done; unfold phase in Ha; rewrite Hk in Ha;
    by destruct (has_payload db a).
Qed.

Lemma phases_sorted edges l : StronglySorted (λ a b, ¬ depends edges b a) l →
  StronglySorted (goes_before edges) (phases db l).
Proof.
  intros Hl. pose proof (λ p, phase_sorted edges p l Hl) as Hp. unfold phases.
  repeat (apply StronglySorted_app_2; [| |]);
    [| apply (Hp InitialDeletion)| | apply (Hp InitialOther) | | apply (Hp Creation) | | apply (Hp FinalOther) | apply (Hp FinalDeletion)];
    intros a b; rewrite ?elem_of_app, ?elem_of_reverse, !elem_of_in_phase;
    unfold goes_before; intros [-> _] Hb; left; destruct_or? Hb; destruct Hb as [-> _]; cbn; lia.
Qed.

(** Every action is in one phase. *)
Lemma phases_perm l : phases db l ≡ₚ l.
Proof.
  unfold phases, in_phase. rewrite !reverse_Permutation. induction l as [|a l IH]; [done|].
  etransitivity; [|apply perm_skip, IH]. rewrite !filter_cons.
  destruct (phase db a); repeat case_decide; try done; solve_Permutation.
Qed.

Lemma along_NoDup edges nodes actions l : one_node → listed edges nodes l → NoDup actions →
  NoDup (along db actions l).
Proof.
  intros Hone [Hd _ _] Ha. induction l as [|n l IH]; [constructor|].
  unfold along. rewrite bind_cons. apply NoDup_cons in Hd as [Hn Hd]. apply NoDup_app. split_and!.
  - unfold node_actions. destruct (node_component db n) as [[c|]|]; [|constructor..].
    destruct (is_destroyed c); [constructor|]. rewrite stable_sort_perm. by apply NoDup_filter.
  - intros a (_ & c & Hc & _ & Hac)%elem_of_node_actions
      (m & (_ & c' & Hc' & _ & Hac')%elem_of_node_actions & Hm)%list_elem_of_bind.
    assert (n = m) as -> by (eapply Hone; eauto; congruence). done.
  - by apply IH.
Qed.

(** The actions whose component has a node that is listed and is not destroyed. *)
Definition scheduled (edges : list Edge) (nodes : list N) (actions : list Action) (a : Action) : Prop :=
  a ∈ actions ∧ ∃ n c, resolved edges nodes n ∧ node_component db n = Ok (Some c) ∧
    is_destroyed c = false ∧ component_id a = component_pk c.

Lemma elem_of_along edges nodes actions l a : 
  (∀ n, n ∈ l ↔ resolved edges nodes n) → a ∈ along db actions l ↔ scheduled edges nodes actions a.
Proof.
  intros Hl. unfold along, scheduled. rewrite list_elem_of_bind. split.
  - intros (n & (Ha & c & Hc & Hd & Hac)%elem_of_node_actions & Hn). apply Hl in Hn. eauto 10.
  - intros (Ha & n & c & Hn & Hc & Hd & Hac). exists n. split; [|by apply Hl].
    unfold node_actions. rewrite Hc, Hd, stable_sort_perm. by apply list_elem_of_filter.
Qed.

(** Where two actions are in a sorted list. *)
Lemma ordered_positions edges l i j a b : StronglySorted (goes_before edges) l →
  l !! i = Some a → l !! j = Some b → (a = b → ¬ depends edges a b) →
  (rank (phase db a) < rank (phase db b) → i < j) ∧
  (phase db a = phase db b → depends edges a b →
    match kind_of db a with Delete => j < i | _ => i < j end).
Proof.
  intros Hs Hi Hj Hself. pose proof (StronglySorted_lookup _ _ i j a b Hs Hi Hj) as Hij.
  pose proof (StronglySorted_lookup _ _ j i b a Hs Hj Hi) as Hji. unfold goes_before in Hij, Hji.
  destruct (Nat.lt_trichotomy i j) as [Hlt|[->|Hlt]].
  - split; [done|]. intros Hp Hd. specialize (Hij Hlt). rewrite Hp in Hij.
    destruct Hij as [?|[_ Hk]]; [lia|]. by destruct (kind_of db a).
  - assert (a = b) as -> by congruence. split; [lia|]. intros _ Hd. by destruct (Hself eq_refl).
  - specialize (Hji Hlt). split; [intros; destruct Hji as [?|[Hp _]]; [lia|rewrite Hp in *; lia]|].
    intros Hp Hd. rewrite Hp in Hji. destruct Hji as [?|[_ Hk]]; [lia|].
    assert (kind_of db a = Delete ↔ kind_of db b = Delete) as Hkind by (by rewrite !phase_delete, Hp).
    destruct (kind_of db a), (kind_of db b); naive_solver.
Qed.

(** C16: Sorting the actions of a change set ends and gives an index to exactly the
    actions whose component has a node that can be listed and is not destroyed,
    each once and in the order of this list: first the deletions of existing
    resources, then the other actions on them, the creations, the other actions,
    the other deletions; of two creations, or two other actions of a phase, the one
    on the component that the other one depends on comes first, and of two
    deletions it comes last. Hypotheses: the queries are answered, and a component
    has one node. *)
Theorem actions_follow_the_edges fuel actions edges nodes :
  find_for_change_set db = Ok actions → list_for_kind_edges db = Ok edges →
  list_for_kind_nodes db = Ok nodes → length edges + length nodes < fuel →
  (∀ l, (∀ n, n ∈ l → resolved edges nodes n) → answers db actions l) → one_node → NoDup actions →
  ∃ l, sort_of_change_set db fuel =
      Some (imap (λ i a, (action_id a, as_i16 (Z.of_nat i))) l, publish db) ∧
    NoDup l ∧ (∀ a, a ∈ l ↔ scheduled edges nodes actions a) ∧
    ∀ i j a b, l !! i = Some a → l !! j = Some b →
      (rank (phase db a) < rank (phase db b) → i < j) ∧
      (phase db a = phase db b → depends edges a b →
        match kind_of db a with Delete => j < i | _ => i < j end).
Proof.
  intros Ha He Hn Hf Hans Hone Hnd.
  destruct (sorts fuel actions edges nodes Ha He Hn Hf Hans) as (l & Hl & Hall & Hs).
  assert (∀ n, n ∈ l ↔ resolved edges nodes n) as Hlr
    by (intros n; split; [apply (listed_resolved _ _ _ Hl)|apply Hall]).
  pose proof (phases_sorted edges _ (along_sorted edges nodes actions l Hone Hl)) as Hsorted.
  exists (phases db (along db actions l)). split_and!; [done| | |].
  - rewrite phases_perm. by eapply along_NoDup.
  - intros a. rewrite elem_of_phases. by apply elem_of_along.
  - intros i j a b Hi Hj. apply (ordered_positions edges _ i j a b Hsorted Hi Hj).
    intros ->. eapply along_no_self; [done..|]. apply elem_of_phases. by eapply list_elem_of_lookup_2.
Qed.

End theorems.

(** The index is the position up to the largest 16-bit integer, then it is negative. *)
Lemma as_i16_exact z : (0 ≤ z < 2 ^ 15)%Z → as_i16 z = z.
Proof. intros. unfold as_i16. rewrite Z.mod_small; lia. Qed.

(** ** Witness *)

(** Component 1 feeds component 2; both are created, and both have something to delete. *)
Definition sample_actions : list Action :=
  [Build_Action 10 100 1; Build_Action 11 101 1; Build_Action 20 100 2; Build_Action 21 101 2].

Definition sample_database : Database := {|
  find_for_change_set := Ok sample_actions;
  list_for_kind_edges := Ok [edge 1 2];
  list_for_kind_nodes := Ok [2; 1]%N;
  node_get_by_id := λ n, Ok (Some n);
  node_component := λ n, Ok (Some {| component_pk := n; deleted_at := None; needs_destroy := false |});
  prototype_get_by_id := λ p, Ok (Some (if (p =? 100)%N then Create else Delete));
  resource_payload := λ c, Ok (Some c);
  set_index := λ _ _, Ok tt;
  publish := Ok tt;
|}.

Lemma actions_follow_the_edges_witness :
  sort_of_change_set (H := forwards) (S := turn) sample_database 9 =
    Some ([(21, 0%Z); (11, 1%Z); (10, 2%Z); (20, 3%Z)]%N, Ok tt) ∧
  ∃ l, sort_of_change_set (H := forwards) (S := turn) sample_database 9 =
    Some (imap (λ i a, (action_id a, as_i16 (Z.of_nat i))) l, Ok tt) ∧ NoDup l.
Proof.
  split; [by vm_compute|].
  destruct (actions_follow_the_edges (HO := forwards) (SH := turn) sample_database 9 sample_actions
    [edge 1 2] [2; 1]%N) as (l & Hl & Hd & _).
  - done.
  - done.
  - done.
  - cbn. lia.
  - intros l _. split; cbn; eauto.
  - intros n n' c c' [= <-] [= <-]. done.
  - unfold sample_actions. repeat constructor; set_solver.
  - by exists l.
Defined.
