(* ===== verification/Redaction.v ===== *)
(** * Redaction of credentials

    Model of the string and JSON redaction in
    [src/lib/cyclone-server/src/execution.rs] ([filter_output], [filter_result],
    [handle_stderr]): every occurrence of a credential is replaced by
    ["[redacted]"] in the lines a function writes and in every string value of its
    result. Strings are sequences of characters; [serde_json::Value] is the
    enumeration of its variants, with objects in insertion order. *)

From S2P Require Import Prelude.
From Stdlib Require Import NArith Strings.Ascii Strings.String.
From stdpp Require Import base tactics sets list.

(** Characters are numbered. *)
Abbreviation text := (list N) (only parsing).

Definition chars (s : string) : text := N_of_ascii <$> list_ascii_of_string s.

(** ** Searching and replacing *)

(** [str::starts_with]. *)
Fixpoint starts_with (p s : text) : bool :=
  match p, s with
  | [], _ => true
  | x :: p, y :: s => (x =? y)%N && starts_with p s
  | _ :: _, [] => false
  end.

(** [str::contains]. *)
Fixpoint contains (s p : text) : bool :=
  starts_with p s || match s with [] => false | _ :: s => contains s p end.

(** Matches do not overlap and are taken from the left: after one, as many
    characters are skipped as are left of it. *)
Fixpoint replace_from (skip : nat) (s p by_ : text) : text :=
  match s with
  | [] => []
  | x :: s' =>
      match skip with
      | S skip => replace_from skip s' p by_
      | O =>
          if starts_with p s then by_ ++ replace_from (length p - 1) s' p by_
          else x :: replace_from 0 s' p by_
      end
  end.

(** [str::replace]: the empty pattern matches at both ends and between characters. *)
Definition replace (s p by_ : text) : text :=
  match p with
  | [] => by_ ++ (s ≫= λ x, x :: by_)
  | _ => replace_from 0 s p by_
  end.

Definition REDACTED : text := chars "[redacted]".

(** [if s.contains(credential) { s = s.replace(credential, "[redacted]") }]. *)
Definition redact_one (s credential : text) : text :=
  if contains s credential then replace s credential REDACTED else s.

(** For every credential. *)
Definition redact (credentials : list text) (s : text) : text := foldl redact_one s credentials.

(** ** What is kept *)

(** An occurrence. *)
Definition occurs (p s : text) : Prop := ∃ before after, s = before ++ p ++ after.

(** Credentials that cannot appear by redacting: not empty, without brackets, and
    no part of the word between the brackets. *)
Definition opening : N := N_of_ascii "["%char.
Definition closing : N := N_of_ascii "]"%char.

Definition redactable (p : text) : Prop :=
  p ≠ [] ∧ (opening ∉ p) ∧ (closing ∉ p) ∧ contains (chars "redacted") p = false.

Lemma starts_with_spec p s : starts_with p s = true ↔ ∃ after, s = p ++ after.
Proof.
  revert s. induction p as [|x p IH]; intros s; cbn; [naive_solver|].
  destruct s as [|y s]; [naive_solver|]. rewrite andb_true_iff, N.eqb_eq, IH. naive_solver.
Qed.

Lemma contains_spec s p : contains s p = true ↔ occurs p s.
Proof.
  unfold occurs. induction s as [|x s IH]; cbn; rewrite orb_true_iff, starts_with_spec.
  - split; [intros [[after ->]|]; [|done]; by exists [], after|].
    intros (b & a & Hs). symmetry in Hs. apply app_eq_nil in Hs as [-> Hs]. left. by exists a.
  - rewrite IH. split.
    + intros [[after ->]|(b & a & ->)]; [by exists [], after|by exists (x :: b), a].
    + intros ([|y b] & a & Hs); [left; by exists a|]. injection Hs as -> ->. right. by exists b, a.
Qed.

Lemma not_contains s p : contains s p = false ↔ ¬ occurs p s.
Proof. rewrite <-contains_spec. by destruct (contains s p). Qed.

Lemma occurs_app_l p s t : occurs p s → occurs p (t ++ s).
Proof. intros (b & a & ->). exists (t ++ b), a. by rewrite <-(assoc_L (++)). Qed.

Lemma occurs_app_r p s t : occurs p s → occurs p (s ++ t).
Proof. intros (b & a & ->). exists b, (a ++ t). by rewrite <-!(assoc_L (++)). Qed.

Lemma occurs_trans p s t : occurs p s → occurs s t → occurs p t.
Proof.
  intros Hp (b & a & ->). by apply occurs_app_l, occurs_app_r.
Qed.

(** A text is what is between the replacements. *)
Fixpoint joined (by_ g : text) (gs : list text) : text :=
  match gs with
  | [] => g
  | g' :: gs => g ++ by_ ++ joined by_ g' gs
  end.

Lemma joined_cons by_ x g gs : x :: joined by_ g gs = joined by_ (x :: g) gs.
Proof. by destruct gs. Qed.

(** Replacing keeps parts of the text, none of which has a match. *)
Lemma replace_segments p by_ s : p ≠ [] → ∀ skip, ∃ g gs,
  replace_from skip s p by_ = joined by_ g gs ∧ (∃ t, drop skip s = g ++ t) ∧
  Forall (λ g, occurs g s ∧ ¬ occurs p g) (g :: gs).
Proof.
  intros Hp. assert (¬ occurs p []) as Hnil.
  { intros (b & a & Hs). symmetry in Hs. apply app_eq_nil in Hs as [_ [? _]%app_eq_nil]. done. }
  assert (∀ g x s, occurs g s → occurs g (x :: s)) as Hcons by (intros ? x ?; apply (occurs_app_l _ _ [x])).
  induction s as [|x s IH]; intros skip; cbn [replace_from].
  { exists [], []. split_and!; [done|by exists []; destruct skip|].
    repeat constructor; [by exists [], []|done]. }
  destruct skip as [|skip]; [destruct (starts_with p (x :: s)) eqn:Hm|].
  - destruct (IH (length p - 1)) as (g & gs & -> & _ & Hgs).
    exists [], (g :: gs). split_and!; [done|by exists (x :: s)|].
    constructor; [split; [by exists [], (x :: s)|done]|]. eapply Forall_impl; [done|]. naive_solver.
  - destruct (IH 0) as (g & gs & -> & [t Ht] & Hgs). rewrite joined_cons. rewrite drop_0 in Ht. subst s.
    exists (x :: g), gs. inversion Hgs as [|? ? [Hg Hpg] Hgs']; subst. split_and!; [done|by exists t|].
    constructor; [|eapply Forall_impl; [done|naive_solver]]. split; [by exists [], t|].
    intros ([|y b] & a & Hs).
    + assert (starts_with p (x :: g ++ t) = true); [|congruence].
      apply starts_with_spec. exists (a ++ t). cbn in Hs. by rewrite (assoc_L (++)), <-Hs.
    + injection Hs as -> ->. apply Hpg. by exists b, a.
  - destruct (IH skip) as (g & gs & -> & Ht & Hgs). exists g, gs. split_and!; [done..|].
    eapply Forall_impl; [done|]. naive_solver.
Qed.

(** A text without a character is on one side of it. *)
Lemma occurs_around q c a b : c ∉ q → occurs q (a ++ c :: b) → occurs q a ∨ occurs q b.
Proof.
  intros Hc (before & after & Hs).
  apply app_eq_inv in Hs as [(k & -> & Hk)|(k & -> & Hk)].
  - apply app_eq_inv in Hk as [(k' & Hk1 & Hk2)|(k' & -> & Hk2)].
    + destruct k' as [|y k'].
      * rewrite app_nil_r in Hk1. subst k. left. exists before, []. by rewrite app_nil_r.
      * injection Hk2 as <- _. subst. set_solver.
    + left. by exists before, k'.
  - destruct k as [|y k]; cbn in Hk.
    + destruct q as [|y q]; [left; by exists [], a|]. injection Hk as <- _. set_solver.
    + injection Hk as _ ->. right. by exists k, after.
Qed.

Lemma occurs_joined q g gs : redactable q → occurs q (joined REDACTED g gs) →
  Exists (occurs q) (g :: gs).
Proof.
  intros (Hne & Ho & Hc & Hw). revert g. induction gs as [|g' gs IH]; intros g Hq; cbn [joined] in Hq.
  - by constructor.
  - change REDACTED with (opening :: chars "redacted" ++ [closing]) in Hq.
    rewrite <-app_comm_cons, <-(assoc_L (++)) in Hq.
    apply occurs_around in Hq as [Hq|Hq]; [by left| |done].
    apply occurs_around in Hq as [Hq|Hq]; [|by right; apply IH|done].
    by apply not_contains in Hw.
Qed.

Lemma redact_one_safe p q s : redactable p → redactable q → p = q ∨ ¬ occurs q s →
  ¬ occurs q (redact_one s p).
Proof.
  intros Hp Hq Hpq. unfold redact_one. destruct (contains s p) eqn:Hs.
  - unfold replace. destruct p as [|x p]; [by destruct Hp|].
    destruct (replace_segments (x :: p) REDACTED s ltac:(done) 0) as (g & gs & -> & _ & Hgs).
    intros Hocc%occurs_joined; [|done]. apply Exists_exists in Hocc as (g' & Hg' & Hocc).
    rewrite Forall_forall in Hgs. apply Hgs in Hg' as [Hin Hno].
    destruct Hpq as [<-|Hpq]; [done|]. by apply Hpq, (occurs_trans _ g').
  - destruct Hpq as [<-|Hpq]; [by apply not_contains|done].
Qed.

(** No credential is left. *)
Lemma redact_safe credentials s : Forall redactable credentials →
  Forall (λ p, ¬ occurs p (redact credentials s)) credentials.
Proof.
  intros Hall. unfold redact. rewrite Forall_forall in *. intros q Hq.
  induction credentials as [|p cs IH] using rev_ind; [set_solver|].
  rewrite foldl_app. cbn. apply redact_one_safe; [apply Hall; set_solver|by apply Hall|].
  apply elem_of_app in Hq as [Hq|Hq%list_elem_of_singleton]; [|by left].
  right. apply IH; [|done]. set_solver.
Qed.

(** ** JSON values *)

(** A number is its digits; [serde_json] keeps the order of the keys. *)
Inductive Value : Type :=
| Null
| Bool (b : bool)
| Number (n : text)
| String_ (s : text)
| Array (values : list Value)
| Object (object : list (text * Value)).

Lemma Value_ind' (Q : Value → Prop) :
  (∀ v, match v with
        | Array l => Forall Q l
        | Object l => Forall (λ kv, Q kv.2) l
        | _ => True
        end → Q v) → ∀ v, Q v.
Proof.
  intros H. fix IH 1. intros v. apply H. destruct v as [| | | |l|l]; try exact I.
  - induction l as [|x l IHl]; constructor; [apply IH|apply IHl].
  - induction l as [|[k x] l IHl]; constructor; [apply IH|apply IHl].
Qed.

(** The values below a value. *)
Definition children (v : Value) : list Value :=
  match v with Array l => l | Object l => l.*2 | _ => [] end.

Fixpoint map_strings (f : text → text) (v : Value) : Value :=
  match v with
  | String_ s => String_ (f s)
  | Array l => Array (map_strings f <$> l)
  | Object l => Object ((λ '(k, x), (k, map_strings f x)) <$> l)
  | _ => v
  end.

(** The strings that are values: keys are not. *)
Fixpoint strings (v : Value) : list text :=
  match v with
  | String_ s => [s]
  | Array l => l ≫= strings
  | Object l => l ≫= λ '(_, x), strings x
  | _ => []
  end.

Fixpoint value_size (v : Value) : nat :=
  S (match v with
     | Array l => sum_list_with value_size l
     | Object l => sum_list_with (λ '(_, x), value_size x) l
     | _ => 0
     end).

(** A mutable reference into a value is the path to it. *)
Abbreviation path := (list nat) (only parsing).

Fixpoint value_at (v : Value) (p : path) {struct p} : option Value :=
  match p with
  | [] => Some v
  | i :: p => x ← children v !! i; value_at x p
  end.

Fixpoint update (v : Value) (p : path) (g : Value → Value) {struct p} : Value :=
  match p with
  | [] => g v
  | i :: p =>
      match v with
      | Array l => Array (alter (λ x, update x p g) i l)
      | Object l => Object (alter (λ '(k, x), (k, update x p g)) i l)
      | _ => v
      end
  end.

(** The loop over the references; the end of the vector comes first. *)
Fixpoint redact_walk (fuel : nat) (credential : text) (work_queue : list path) (value : Value) :
    option Value :=
  match fuel with
  | O => None
  | S fuel =>
      match work_queue with
      | [] => Some value
      | work :: work_queue =>
          match value_at value work with
          | Some ((Array _ | Object _) as w) =>
              redact_walk fuel credential
                (reverse (imap (λ i _, work ++ [i]) (children w)) ++ work_queue) value
          | Some (String_ v) =>
              if contains v credential
              then redact_walk fuel credential work_queue
                     (update value work (λ _, String_ (replace v credential REDACTED)))
              else redact_walk fuel credential work_queue value
          | _ => redact_walk fuel credential work_queue value
          end
      end
  end.

(** For every credential, from the root. *)
Fixpoint redact_value (fuel : nat) (credentials : list text) (value : Value) : option Value :=
  match credentials with
  | [] => Some value
  | credential :: credentials =>
      value ← redact_walk fuel credential [[]] value;
      redact_value fuel credentials value
  end.

(** ** The walk maps the strings *)

Lemma children_map_strings f v : children (map_strings f v) = map_strings f <$> children v.
Proof.
  destruct v as [| | | |l|l]; cbn; [done..|]. rewrite <-!list_fmap_compose. apply list_fmap_ext. by intros ? [].
Qed.

Lemma value_at_map_strings f v p : value_at (map_strings f v) p = map_strings f <$> value_at v p.
Proof.
  revert v. induction p as [|i p IH]; intros v; cbn; [done|].
  rewrite children_map_strings, list_lookup_fmap. destruct (children v !! i); cbn; [apply IH|done].
Qed.

Lemma value_size_map_strings f v : value_size (map_strings f v) = value_size v.
Proof.
  induction v as [[| | | |l|l] IH] using Value_ind'; cbn; [done..| |]; f_equal;
    induction IH as [|[] ? ? _ IHl]; cbn in *; congruence.
Qed.

Lemma map_strings_compose f g v : map_strings f (map_strings g v) = map_strings (f ∘ g) v.
Proof.
  induction v as [[| | | |l|l] IH] using Value_ind'; cbn; [done..| |]; f_equal;
    induction IH as [|[] ? ? _ IHl]; csimpl in *; congruence.
Qed.

Lemma map_strings_ext f g v : (∀ s, f s = g s) → map_strings f v = map_strings g v.
Proof.
  intros Hfg. induction v as [[| | | |l|l] IH] using Value_ind'; cbn; [done..|by rewrite Hfg| |]; f_equal;
    induction IH as [|[] ? ? _ IHl]; csimpl in *; congruence.
Qed.

(** The shape of a value. *)
Abbreviation shape := (map_strings (λ _, [])).

Lemma shape_update v p g : (∀ x, shape (g x) = shape x) → shape (update v p g) = shape v.
Proof.
  intros Hg. revert v. induction p as [|i p IH]; intros v; [exact (Hg v)|cbn].
  destruct v as [| | | |l|l]; cbn; [done..| |]; f_equal; apply list_eq; intros j;
    rewrite !list_lookup_fmap; destruct (decide (i = j)) as [<-|].
  - rewrite list_lookup_alter_eq. destruct (l !! i); cbn; [|done]. by rewrite IH.
  - by rewrite list_lookup_alter_ne.
  - rewrite list_lookup_alter_eq. destruct (l !! i) as [[k x]|]; cbn; [|done]. by rewrite IH.
  - by rewrite list_lookup_alter_ne.
Qed.

Lemma update_app v p q g : update v (p ++ q) g = update v p (λ x, update x q g).
Proof.
  revert v. induction p as [|i p IH]; intros v; [done|]. cbn. destruct v; try done; f_equal;
    apply list_alter_ext; [|done| |done]; intros x _; [apply IH|]. destruct x. by rewrite IH.
Qed.

Lemma update_compose v p g h : update (update v p g) p h = update v p (h ∘ g).
Proof.
  revert v. induction p as [|i p IH]; intros v; [done|]. cbn. destruct v as [| | | |l|l]; try done; f_equal.
  - rewrite list_alter_alter_eq. apply list_alter_ext; [|done]. intros x _. apply IH.
  - rewrite list_alter_alter_eq. apply list_alter_ext; [|done]. intros [k x] _. cbn. by rewrite IH.
Qed.

(** Only the value that is there matters. *)
Lemma update_at v p g h : (∀ x, value_at v p = Some x → g x = h x) → update v p g = update v p h.
Proof.
  revert v. induction p as [|i p IH]; intros v Hgh; [by apply Hgh|]. cbn in *.
  destruct v as [| | | |l|l]; try done; f_equal; apply list_alter_ext; try done.
  - intros x Hx. apply IH. intros y Hy. apply Hgh. cbn. by rewrite Hx.
  - intros [k x] Hx. f_equal. apply IH. intros y Hy. apply Hgh. cbn. by rewrite list_lookup_fmap, Hx.
Qed.

Lemma update_id v p : update v p (λ x, x) = v.
Proof.
  revert v. induction p as [|i p IH]; intros v; [done|]. cbn. destruct v as [| | | |l|l]; try done; f_equal;
    apply list_alter_id; [intros x|intros [k x]]; by rewrite IH.
Qed.

Lemma update_same v p g : (∀ x, value_at v p = Some x → g x = x) → update v p g = v.
Proof. intros Hg. rewrite (update_at v p g (λ x, x) Hg). apply update_id. Qed.

(** Updating the elements one by one, the last one first. *)
Lemma alter_each {A} (f : A → A) l :
  foldl (λ l i, alter f i l) l (reverse (seq 0 (length l))) = f <$> l.
Proof.
  induction l as [|x l IH] using rev_ind; [done|].
  rewrite length_app, Nat.add_1_r, seq_S, reverse_app, fmap_app. cbn [reverse foldl app].
  rewrite Nat.add_0_l. change (reverse [length l]) with [length l]. cbn [foldl app].
  rewrite alter_app_r_alt, Nat.sub_diag by lia. cbn. rewrite <-IH.
  assert (∀ js k l, Forall (λ i, i < length l) js →
    foldl (λ l i, alter f i l) (l ++ k) js = foldl (λ l i, alter f i l) l js ++ k) as Happ.
  { intros js k. induction js as [|i js IHi]; intros l' Hi; [done|]. cbn. apply Forall_cons in Hi as [Hi His].
    rewrite alter_app_l by done. apply IHi. by rewrite length_alter. }
  apply Happ. apply Forall_forall. intros i Hi. rewrite elem_of_reverse, elem_of_seq in Hi. lia.
Qed.

Lemma update_children f v :
  foldl (λ v i, update v [i] (map_strings f)) v (reverse (seq 0 (length (children v)))) =
    match v with Array _ | Object _ => map_strings f v | _ => v end.
Proof.
  destruct v as [| | | |l|l]; try done; cbn [children map_strings].
  - rewrite <-alter_each. generalize (reverse (seq 0 (length l))). intros js. revert l.
    induction js as [|i js IH]; intros l; [done|]. apply IH.
  - rewrite length_fmap, <-alter_each. generalize (reverse (seq 0 (length l))). intros js. revert l.
    induction js as [|i js IH]; intros l; [done|]. apply IH.
Qed.

Lemma update_below v p g js :
  foldl (λ v i, update v (p ++ [i]) g) v js = update v p (λ x, foldl (λ x i, update x [i] g) x js).
Proof.
  revert v. induction js as [|i js IH]; intros v; cbn [foldl]; [by rewrite update_id|].
  by rewrite IH, update_app, update_compose.
Qed.

Lemma imap_positions {A B} (f : nat → B) (l : list A) : imap (λ i _, f i) l = f <$> seq 0 (length l).
Proof.
  revert f. induction l as [|x l IH]; intros f; [done|]. cbn. f_equal.
  rewrite <-fmap_S_seq, <-list_fmap_compose. apply (IH (f ∘ S)).
Qed.

Definition size_at (v : Value) (p : path) : nat :=
  match value_at v p with Some x => value_size x | None => 1 end.

Lemma size_at_shape v w p : shape v = shape w → size_at v p = size_at w p.
Proof.
  intros Hs. unfold size_at.
  assert (shape <$> value_at v p = shape <$> value_at w p) as Hat by (by rewrite <-!value_at_map_strings, Hs).
  destruct (value_at v p) as [x|], (value_at w p) as [y|]; try done. injection Hat as Hat.
  by rewrite <-(value_size_map_strings (λ _, []) x), Hat, value_size_map_strings.
Qed.

Lemma value_size_children v : value_size v = S (sum_list_with value_size (children v)).
Proof.
  destruct v as [| | | |l|l]; try done. cbn. f_equal.
  induction l as [|[k x] l IH]; cbn; congruence.
Qed.

Lemma sum_children v p w : value_at v p = Some w →
  sum_list_with (size_at v) (reverse (imap (λ i _, p ++ [i]) (children w))) < value_size w.
Proof.
  intros Hw. rewrite value_size_children, imap_positions, sum_list_with_reverse.
  assert (∀ l n, (∀ i x, l !! i = Some x → value_at v (p ++ [n + i]) = Some x) →
    sum_list_with (size_at v) ((λ i, p ++ [i]) <$> seq n (length l)) = sum_list_with value_size l) as Hsum.
  { induction l as [|x l IH]; intros n Hl; [done|]. cbn. rewrite IH.
    - f_equal. unfold size_at. rewrite <-(Nat.add_0_r n). by rewrite (Hl 0 x).
    - intros i y Hy. rewrite <-(Hl (S i) y Hy). do 2 f_equal. f_equal. lia. }
  rewrite Hsum; [lia|]. intros i x Hx. cbn.
  assert (∀ q u, value_at v q = Some u → value_at v (q ++ [i]) = children u !! i) as Happ.
  { clear. intros q. revert v. induction q as [|j q IH]; intros v u; cbn.
    - intros [= ->]. by destruct (children u !! i).
    - intros (y & Hy & Hu)%bind_Some. rewrite Hy. cbn. by apply IH. }
  by rewrite (Happ p w Hw).
Qed.

Lemma sum_list_with_ext {A} (g h : A → nat) l : (∀ x, g x = h x) → sum_list_with g l = sum_list_with h l.
Proof. intros Hgh. induction l as [|x l IH]; cbn; congruence. Qed.

(** Below an array or an object. *)
Lemma update_subvalues f v p w : value_at v p = Some w →
  match w with Array _ | Object _ => True | _ => False end →
  foldl (λ v p, update v p (map_strings f)) v (reverse (imap (λ i _, p ++ [i]) (children w))) =
    update v p (map_strings f).
Proof.
  intros Hw Hc. rewrite imap_positions, <-fmap_reverse, foldl_fmap, update_below.
  apply update_at. intros x Hx. rewrite Hw in Hx. injection Hx as <-. rewrite update_children.
  by destruct w.
Qed.

Lemma redact_walk_maps fuel credential : ∀ q v, sum_list_with (size_at v) q < fuel →
  redact_walk fuel credential q v =
    Some (foldl (λ v p, update v p (map_strings (λ s, redact_one s credential))) v q).
Proof.
  set (f := λ s, redact_one s credential).
  induction fuel as [|fuel IH]; intros q v Hf; [lia|]. cbn [redact_walk].
  destruct q as [|p q]; [done|]. cbn [foldl sum_list_with] in *.
  assert (∀ x, value_at v p = Some x → map_strings f x = x → sum_list_with (size_at v) q < fuel →
    redact_walk fuel credential q v =
      Some (foldl (λ v p, update v p (map_strings f)) (update v p (map_strings f)) q)) as Hsame.
  { intros x Hx Hfx Hq. rewrite IH by done. do 2 f_equal. symmetry. apply update_same.
    intros y Hy. by replace y with x by congruence. }
  unfold size_at in Hf at 1. destruct (value_at v p) as [x|] eqn:Hx.
  2: { rewrite IH by lia. do 2 f_equal. symmetry. apply update_same. by rewrite Hx. }
  destruct x as [|b|n|s|l|l]; cbn [value_size] in Hf; try (apply (Hsame _ eq_refl); [done|lia]).
  - destruct (contains s credential) eqn:Hs.
    + assert (update v p (λ _, String_ (replace s credential REDACTED)) = update v p (map_strings f)) as ->.
      { apply update_at. intros y Hy. rewrite Hx in Hy. injection Hy as <-. cbn. unfold f, redact_one.
        by rewrite Hs. }
      apply IH. rewrite (sum_list_with_ext _ (size_at v)); [lia|]. intros p'. apply size_at_shape.
      apply shape_update. intros y. apply map_strings_compose.
    + apply (Hsame _ eq_refl); [|lia]. cbn. unfold f, redact_one. by rewrite Hs.
  - rewrite IH, foldl_app; [by rewrite (update_subvalues f v p (Array l))|].
    rewrite sum_list_with_app. pose proof (sum_children v p _ Hx). cbn [value_size] in *. lia.
  - rewrite IH, foldl_app; [by rewrite (update_subvalues f v p (Object l))|].
    rewrite sum_list_with_app. pose proof (sum_children v p _ Hx). cbn [value_size] in *. lia.
Qed.

(** Every string value is redacted, and nothing else is changed. *)
Lemma redact_value_maps fuel credentials : ∀ v, value_size v < fuel →
  redact_value fuel credentials v = Some (map_strings (redact credentials) v).
Proof.
  induction credentials as [|c cs IH]; intros v Hf; cbn [redact_value].
  - f_equal. unfold redact. cbn. clear. symmetry.
    induction v as [[| | | |l|l] IH] using Value_ind'; cbn; [done..| |]; f_equal;
      induction IH as [|[] ? ? _ IHl]; csimpl in *; congruence.
  - rewrite redact_walk_maps by (cbn; unfold size_at; cbn; lia). cbn [mbind option_bind foldl update].
    rewrite IH by (by rewrite value_size_map_strings). f_equal. rewrite map_strings_compose.
    by apply map_strings_ext.
Qed.

Lemma strings_map_strings f v : strings (map_strings f v) = f <$> strings v.
Proof.
  induction v as [[| | | |l|l] IH] using Value_ind'; cbn; [done..| |].
  - induction IH as [|x l Hx _ IHl]; [done|]. csimpl. by rewrite fmap_app, Hx, IHl.
  - induction IH as [|[k x] l Hx _ IHl]; [done|]. csimpl in *. by rewrite fmap_app, Hx, IHl.
Qed.
