(* ===== verification/CycloneSecrets.v ===== *)
(** * Secrets of a request

    Model of [src/lib/cyclone-server/src/request.rs] and of [decode_and_decrypt] in
    [src/lib/cyclone-server/src/decryption_key.rs]: before a function is run, the
    encrypted secrets in its arguments are listed, for redaction, and decrypted in
    place. Base64, the sealed box, the JSON reader and JSON pointers are classes. *)

From S2P Require Import Prelude Redaction.
From Stdlib Require Import NArith Strings.Ascii Strings.String.
From stdpp Require Import base tactics sets list sorting pretty.

Abbreviation text := (list N) (only parsing).
Abbreviation bytes := (list N) (only parsing).

(** ** Keys *)

Inductive DecryptionKeyError : Type :=
| Base64Decode
| DecryptionFailed
| EncryptedSecretNotFound
| JSONPointerNotFound (value : Value) (pointer : text)
| Serde.

(** [base64], [sodiumoxide] with the keys, and [serde_json::de::from_slice]. *)
Class SealedBox := {
  base64_decode : text → option bytes;
  sealedbox_open : bytes → option bytes;
  from_slice : bytes → option Value;
}.

(** [serde_json::Value::pointer] and [pointer_mut]: what a pointer leads to, and the
    whole with another value in its place. *)
Class JsonPointer := {
  pointer : Value → text → option Value;
  pointer_mut : Value → text → option (Value * (Value → Value));
}.

Section secrets.
Context {K : SealedBox} {J : JsonPointer}.

Definition decode_and_decrypt (base64_encoded : text) : result DecryptionKeyError bytes :=
  crypted ← ok_or (base64_decode base64_encoded) Base64Decode;
  ok_or (sealedbox_open crypted) DecryptionFailed.

(** [object.get(key)]. *)
Definition object_get (key : text) (object : list (text * Value)) : option Value :=
  snd <$> find (λ '(k, _), bool_decide (k = key)) object.

Definition is_decrypted_secret (object : list (text * Value)) : bool :=
  match object_get (chars "cycloneEncryptedDataMarker") object with
  | Some (Bool true) =>
      match object_get (chars "encryptedSecret") object with Some (String_ _) => true | _ => false end
  | _ => false
  end.

(** The secret of a marked object. *)
Definition open_secret (object : list (text * Value)) : result DecryptionKeyError Value :=
  match object_get (chars "encryptedSecret") object with
  | Some (String_ encoded) =>
      decrypted ← decode_and_decrypt encoded;
      ok_or (from_slice decrypted) Serde
  | _ => Err EncryptedSecretNotFound
  end.

(** ** Component views *)

Inductive ComponentKind : Set := Credential | Standard.

Record ComponentView := {
  kind : ComponentKind;
  properties : Value;
}.

(** [serde_json::to_value]. *)
Definition component_to_value (c : ComponentView) : Value :=
  Object [(chars "kind", String_ (chars (match kind c with Credential => "credential" | Standard => "standard" end)));
          (chars "properties", properties c)].

(** The variables of the loop; the ends of the vectors come first. *)
Record Listing := {
  work_queue : list Value;
  secret_objects : list Value;
  is_inside_secret_object : bool;
  credentials : list text;
}.

(** The match on a value that was popped. *)
Definition list_one (work : Value) (s : Listing) : result DecryptionKeyError Listing :=
  let '(Build_Listing queue objects inside credentials) := s in
  match work with
  | Array values => Ok (Build_Listing (reverse values ++ queue) objects inside credentials)
  | Object object =>
      if negb inside && is_decrypted_secret object then
        secret ← open_secret object;
        Ok (Build_Listing queue (secret :: objects) inside credentials)
      else Ok (Build_Listing (reverse object.*2 ++ queue) objects inside credentials)
  | String_ value =>
      Ok (Build_Listing queue objects inside (if inside then credentials ++ [value] else credentials))
  | Null | Bool _ | Number _ => Ok s
  end.

(** Secrets are walked at the end. *)
Definition next_secret (s : Listing) : Listing :=
  match s with
  | Build_Listing [] (obj :: objects) _ credentials => Build_Listing [obj] objects true credentials
  | _ => s
  end.

Fixpoint list_loop (fuel : nat) (s : Listing) : option (result DecryptionKeyError (list text)) :=
  match fuel with
  | O => None
  | S fuel =>
      match s with
      | Build_Listing [] _ _ credentials => Some (Ok credentials)
      | Build_Listing (work :: queue) objects inside credentials =>
          match list_one work (Build_Listing queue objects inside credentials) with
          | Err e => Some (Err e)
          | Ok s => list_loop fuel (next_secret s)
          end
      end
  end.

Definition component_list_secrets (fuel : nat) (c : ComponentView) :
    option (result DecryptionKeyError (list text)) :=
  match kind c with
  | Standard => Some (Ok [])
  | Credential => list_loop fuel (Build_Listing [properties c] [] false [])
  end.

(** The loop over JSON pointers. *)
Fixpoint decrypt_loop (fuel : nat) (work_queue : list text) (value : Value) :
    option (result DecryptionKeyError Value) :=
  match fuel with
  | O => None
  | S fuel =>
      match work_queue with
      | [] => Some (Ok value)
      | p :: work_queue =>
          match pointer value p with
          | None => Some (Err (JSONPointerNotFound value p))
          | Some (Array values) =>
              decrypt_loop fuel
                (reverse (imap (λ index _, p ++ chars "/" ++ chars (pretty index)) values) ++ work_queue)
                value
          | Some (Object object) =>
              if is_decrypted_secret object then
                match open_secret object with
                | Err e => Some (Err e)
                | Ok new_value =>
                    match pointer_mut value p with
                    | Some (_, put) => decrypt_loop fuel work_queue (put new_value)
                    | None => Some (Err (JSONPointerNotFound value p))
                    end
                end
              else
                decrypt_loop fuel
                  (reverse ((λ '(key, _), p ++ chars "/" ++ key) <$> object) ++ work_queue) value
          | Some (String_ _ | Null | Bool _ | Number _) => decrypt_loop fuel work_queue value
          end
      end
  end.

Definition component_decrypt_request (fuel : nat) (c : ComponentView) :
    option (result DecryptionKeyError Value) :=
  match kind c with
  | Standard => Some (Ok (component_to_value c))
  | Credential => decrypt_loop fuel [[]] (component_to_value c)
  end.

(** ** Requests *)

Record ResolverFunctionRequest := {
  execution_id : text;
  handler : text;
  data : ComponentView;
  parents : list ComponentView;
  response_type : text;
  code_base64 : text;
}.

Definition resolver_to_value (r : ResolverFunctionRequest) : Value :=
  Object [(chars "executionId", String_ (execution_id r)); (chars "handler", String_ (handler r));
          (chars "component",
             Object [(chars "data", component_to_value (data r));
                     (chars "parents", Array (component_to_value <$> parents r))]);
          (chars "responseType", String_ (response_type r));
          (chars "codeBase64", String_ (code_base64 r))].

(** A request that carries no secrets that are looked for: of an action, a
    reconciliation, a validation or a definition of a schema variant. *)
Record PlainRequest := { plain_to_value : Value }.

Class CycloneRequest (R : Type) := {
  list_secrets : nat → R → option (result DecryptionKeyError (list text));
  decrypt_request : nat → R → option (result DecryptionKeyError Value);
}.

(** [secrets.extend(component.list_secrets(key)?)]. *)
Fixpoint extend_secrets (fuel : nat) (secrets : list text) (components : list ComponentView) :
    option (result DecryptionKeyError (list text)) :=
  match components with
  | [] => Some (Ok secrets)
  | c :: components =>
      r ← component_list_secrets fuel c;
      match r with
      | Err e => Some (Err e)
      | Ok more => extend_secrets fuel (secrets ++ more) components
      end
  end.

Fixpoint decrypt_parents (fuel : nat) (components : list ComponentView) :
    option (result DecryptionKeyError (list Value)) :=
  match components with
  | [] => Some (Ok [])
  | c :: components =>
      r ← component_decrypt_request fuel c;
      match r with
      | Err e => Some (Err e)
      | Ok v =>
          rs ← decrypt_parents fuel components;
          Some (match rs with Err e => Err e | Ok vs => Ok (v :: vs) end)
      end
  end.

(** [match value.pointer_mut(p) { Some(v) => *v = new, None => return Err(..) }]. *)
Definition put_at (value : Value) (p : text) (new : Value) : result DecryptionKeyError Value :=
  match pointer_mut value p with
  | Some (_, put) => Ok (put new)
  | None => Err (JSONPointerNotFound value p)
  end.

Definition resolver_list_secrets (fuel : nat) (r : ResolverFunctionRequest) :
    option (result DecryptionKeyError (list text)) :=
  secrets ← component_list_secrets fuel (data r);
  match secrets with
  | Err e => Some (Err e)
  | Ok secrets => extend_secrets fuel secrets (parents r)
  end.

Definition resolver_decrypt_request (fuel : nat) (r : ResolverFunctionRequest) :
    option (result DecryptionKeyError Value) :=
  let value := resolver_to_value r in
  match pointer_mut value (chars "/component/data") with
  | None => Some (Err (JSONPointerNotFound value (chars "/component/data")))
  | Some (_, put) =>
      component ← component_decrypt_request fuel (data r);
      match component with
      | Err e => Some (Err e)
      | Ok component =>
          let value := put component in
          decrypted_parents ← decrypt_parents fuel (parents r);
          match decrypted_parents with
          | Err e => Some (Err e)
          | Ok decrypted_parents =>
              Some (put_at value (chars "/component/parents") (Array decrypted_parents))
          end
      end
  end.

#[export] Instance resolver_request : CycloneRequest ResolverFunctionRequest :=
  {| list_secrets := resolver_list_secrets; decrypt_request := resolver_decrypt_request |}.

#[export] Instance plain_request : CycloneRequest PlainRequest :=
  {| list_secrets := λ _ _, Some (Ok []); decrypt_request := λ _ r, Some (Ok (plain_to_value r)) |}.

(** ** Which secrets are listed *)

(** The secrets in a value, in the order in which they are met: the last one first. *)
Fixpoint secrets_in (v : Value) : result DecryptionKeyError (list Value) :=
  match v with
  | Array l =>
      (fix go l := match l with
        | [] => Ok []
        | x :: l => later ← go l; here ← secrets_in x; Ok (later ++ here)
        end) l
  | Object l =>
      if is_decrypted_secret l then s ← open_secret l; Ok [s]
      else (fix go l := match l with
             | [] => Ok []
             | (_, x) :: l => later ← go l; here ← secrets_in x; Ok (later ++ here)
             end) l
  | _ => Ok []
  end.

(** The strings of a value, the last one first. *)
Fixpoint strings_back (v : Value) : list text :=
  match v with
  | String_ s => [s]
  | Array l => (fix go l := match l with [] => [] | x :: l => go l ++ strings_back x end) l
  | Object l => (fix go l := match l with [] => [] | (_, x) :: l => go l ++ strings_back x end) l
  | _ => []
  end.

(** Values in the order of a queue. *)
Fixpoint secrets_of (q : list Value) : result DecryptionKeyError (list Value) :=
  match q with
  | [] => Ok []
  | v :: q => here ← secrets_in v; later ← secrets_of q; Ok (here ++ later)
  end.

Lemma secrets_of_app q q' :
  secrets_of (q ++ q') = (here ← secrets_of q; later ← secrets_of q'; Ok (here ++ later)).
Proof.
  induction q as [|v q IH]; cbn; [by destruct (secrets_of q')|].
  destruct (secrets_in v) as [a|]; cbn; [|done]. rewrite IH.
  destruct (secrets_of q); cbn; [|done]. destruct (secrets_of q'); cbn; [|done]. by rewrite (assoc_L (++)).
Qed.

Lemma secrets_in_below v :
  secrets_in v = match v with
                 | Object l => if is_decrypted_secret l then s ← open_secret l; Ok [s]
                               else secrets_of (reverse l.*2)
                 | _ => secrets_of (reverse (children v))
                 end.
Proof.
  destruct v as [| | | |l|l]; try done; cbn [secrets_in children].
  - induction l as [|x l IH]; [done|]. rewrite reverse_cons, secrets_of_app, IH. cbn.
    destruct (secrets_of (reverse l)); cbn; [|done]. destruct (secrets_in x); cbn; by rewrite ?app_nil_r.
  - destruct (is_decrypted_secret l); [done|].
    induction l as [|[k x] l IH]; [done|]. csimpl. rewrite reverse_cons, secrets_of_app, IH. cbn.
    destruct (secrets_of (reverse l.*2)); cbn; [|done]. destruct (secrets_in x); cbn; by rewrite ?app_nil_r.
Qed.

Lemma strings_back_below v :
  strings_back v = match v with String_ s => [s] | _ => reverse (children v) ≫= strings_back end.
Proof.
  destruct v as [| | | |l|l]; try done; cbn [strings_back children].
  - induction l as [|x l IH]; [done|]. rewrite reverse_cons, bind_app, IH. cbn. by rewrite app_nil_r.
  - induction l as [|[k x] l IH]; [done|]. csimpl. rewrite reverse_cons, bind_app, IH. cbn. by rewrite app_nil_r.
Qed.

Lemma queue_size v q :
  sum_list_with value_size (reverse (children v) ++ q) < sum_list_with value_size (v :: q).
Proof.
  rewrite sum_list_with_app, sum_list_with_reverse. cbn. rewrite (value_size_children v). lia.
Qed.

(** The loop ends with a result, whatever fuel is left. *)
Definition ends (s : Listing) (r : result DecryptionKeyError (list text)) : Prop :=
  ∃ n, ∀ fuel, n ≤ fuel → list_loop fuel s = Some r.

Lemma ends_done objects inside creds : ends (Build_Listing [] objects inside creds) (Ok creds).
Proof. exists 1. intros [|fuel] Hf; [lia|done]. Qed.

Lemma ends_step v q objects inside creds r :
  match list_one v (Build_Listing q objects inside creds) with
  | Err e => r = Err e
  | Ok s => ends (next_secret s) r
  end → ends (Build_Listing (v :: q) objects inside creds) r.
Proof.
  destruct (list_one v (Build_Listing q objects inside creds)) as [s|e] eqn:Hs.
  - intros [n Hn]. exists (S n). intros [|fuel] Hf; [lia|]. cbn [list_loop]. rewrite Hs. apply Hn. lia.
  - intros ->. exists 1. intros [|fuel] Hf; [lia|]. cbn [list_loop]. by rewrite Hs.
Qed.

Lemma next_secret_cons v q objects inside creds :
  next_secret (Build_Listing (v :: q) objects inside creds) = Build_Listing (v :: q) objects inside creds.
Proof. done. Qed.

(** Inside of secrets, every string is taken. *)
Lemma ends_inside objects r : ∀ q creds, q ≠ [] →
  ends (next_secret (Build_Listing [] objects true (creds ++ (q ≫= strings_back)))) r →
  ends (Build_Listing q objects true creds) r.
Proof.
  intros q. induction q as [q IH] using (induction_ltof1 _ (sum_list_with value_size)). unfold ltof in IH.
  intros creds Hq Hr. destruct q as [|v q]; [done|]. apply ends_step.
  assert (∀ q' creds', sum_list_with value_size q' < sum_list_with value_size (v :: q) →
    creds' ++ (q' ≫= strings_back) = creds ++ ((v :: q) ≫= strings_back) →
    ends (next_secret (Build_Listing q' objects true creds')) r) as Hnext.
  { intros q' creds' Hlt Heq. rewrite <-Heq in Hr.
    destruct q' as [|v' q']; [by rewrite app_nil_r in Hr|]. rewrite next_secret_cons. by apply IH. }
  pose proof (queue_size v q) as Hlt. pose proof (strings_back_below v) as Hv. rewrite bind_cons in Hnext.
  destruct v as [|b|n|s|l|l]; cbn [list_one negb andb]; apply Hnext; rewrite ?bind_app, ?Hv; try done.
  by rewrite <-(assoc_L (++)).
Qed.

(** Outside, every secret is opened. *)
Lemma ends_outside r : ∀ q objects, q ≠ [] →
  match secrets_of q with
  | Err e => r = Err e
  | Ok ss => ends (next_secret (Build_Listing [] (reverse ss ++ objects) false [])) r
  end → ends (Build_Listing q objects false []) r.
Proof.
  intros q. induction q as [q IH] using (induction_ltof1 _ (sum_list_with value_size)). unfold ltof in IH.
  intros objects Hq Hr. destruct q as [|v q]; [done|]. apply ends_step.
  assert (∀ q' here, sum_list_with value_size q' < sum_list_with value_size (v :: q) →
    secrets_of (v :: q) = (later ← secrets_of q'; Ok (here ++ later)) →
    ends (next_secret (Build_Listing q' (reverse here ++ objects) false [])) r) as Hnext.
  { intros q' here Hlt Heq. rewrite Heq in Hr. destruct q' as [|v' q']; cbn [secrets_of] in Hr.
    { cbn in Hr. by rewrite app_nil_r in Hr. }
    rewrite next_secret_cons. apply IH; [done|done|].
    destruct (secrets_of (v' :: q')) as [ss|e] eqn:Hss; cbn [secrets_of] in Hss; rewrite Hss in Hr; cbn in Hr;
      [|done]. by rewrite reverse_app, <-(assoc_L (++)) in Hr. }
  pose proof (queue_size v q) as Hlt. pose proof (secrets_in_below v) as Hv.
  assert (∀ q', secrets_of (v :: q) = secrets_of q' → sum_list_with value_size q' < sum_list_with value_size (v :: q) →
    ends (next_secret (Build_Listing q' objects false [])) r) as Hskip.
  { intros q' Heq Hlt'. apply (Hnext q' []); [done|]. rewrite Heq. by destruct (secrets_of q'). }
  destruct v as [|b|n|s|l|l]; cbn [list_one negb andb].
  1-4: apply Hskip; [by cbn; destruct (secrets_of q)|cbn in *; lia].
  - apply Hskip; [|done]. cbn [secrets_of]. by rewrite Hv, secrets_of_app.
  - destruct (is_decrypted_secret l) eqn:Hm; rewrite ?Hm in Hv.
    + destruct (open_secret l) as [s|e]; cbn [mbind result_bind] in Hv |- *.
      * apply (Hnext q [s]); [cbn; lia|]. cbn [secrets_of]. by rewrite Hv.
      * cbn [secrets_of] in Hr. by rewrite Hv in Hr.
    + apply Hskip; [|done]. cbn [secrets_of]. by rewrite Hv, secrets_of_app.
Qed.

Lemma ends_secrets objects : ∀ inside creds,
  ends (next_secret (Build_Listing [] objects inside creds)) (Ok (creds ++ (objects ≫= strings_back))).
Proof.
  induction objects as [|o objects IH]; intros inside creds.
  - rewrite app_nil_r. apply ends_done.
  - cbn [next_secret]. apply ends_inside; [done|]. assert ([o] ≫= strings_back = strings_back o) as -> by apply app_nil_r.
    rewrite bind_cons, (assoc_L (++)). apply IH.
Qed.

(** The credentials of a component. *)
Definition credentials_of (c : ComponentView) : result DecryptionKeyError (list text) :=
  match kind c with
  | Standard => Ok []
  | Credential => ss ← secrets_in (properties c); Ok (reverse ss ≫= strings_back)
  end.

Lemma component_lists c : ∃ n, ∀ fuel, n ≤ fuel →
  component_list_secrets fuel c = Some (credentials_of c).
Proof.
  unfold component_list_secrets, credentials_of. destruct (kind c); [|by exists 0].
  apply ends_outside; [done|]. cbn [secrets_of].
  destruct (secrets_in (properties c)) as [ss|e]; cbn; [|done]. rewrite !app_nil_r. apply ends_secrets.
Qed.

(** ** Decrypting in place *)

(** [f] of every element, from the last to the first. *)
Definition try_map_back {E A B} (f : A → result E B) : list A → result E (list B) :=
  fix go (l : list A) : result E (list B) :=
    match l with
    | [] => Ok []
    | x :: l => later ← go l; here ← f x; Ok (here :: later)
    end.

Lemma try_map_back_cons {E A B} (f : A → result E B) x l :
  try_map_back f (x :: l) = (later ← try_map_back f l; here ← f x; Ok (here :: later)).
Proof. done. Qed.

(** The value with its secrets, decrypted from the last to the first. *)
Fixpoint decrypted (v : Value) : result DecryptionKeyError Value :=
  match v with
  | Array l => l ← try_map_back decrypted l; Ok (Array l)
  | Object l =>
      if is_decrypted_secret l then open_secret l
      else l ← try_map_back (λ '(k, x), x ← decrypted x; Ok (k, x)) l; Ok (Object l)
  | _ => Ok v
  end.

Abbreviation decrypt_back := (try_map_back decrypted).

Lemma decrypt_back_snoc l x :
  decrypt_back (l ++ [x]) = (d ← decrypted x; ds ← decrypt_back l; Ok (ds ++ [d])).
Proof.
  induction l as [|y l IH]; cbn; [by destruct (decrypted x)|]. rewrite IH.
  destruct (decrypted x); cbn; [|done]. destruct (decrypt_back l); cbn; [|done].
  by destruct (decrypted y).
Qed.

Lemma decrypt_back_length l ds : decrypt_back l = Ok ds → length ds = length l.
Proof.
  revert ds. induction l as [|x l IH]; intros ds; cbn; [by intros [= <-]|].
  intros (later & Hl & (here & _ & [= <-])%result_bind_ok)%result_bind_ok. cbn. by rewrite (IH later Hl).
Qed.

(** A container with other values. *)
Definition with_children (v : Value) (xs : list Value) : Value :=
  match v with Array _ => Array xs | Object l => Object (zip l.*1 xs) | _ => v end.

Definition container (v : Value) : Prop := match v with Array _ | Object _ => True | _ => False end.

Lemma children_with_children v xs : container v → length xs = length (children v) →
  children (with_children v xs) = xs.
Proof.
  intros Hc Hl. destruct v as [| | | |l|l]; try done. cbn in *. rewrite length_fmap in Hl.
  apply snd_zip. rewrite length_fmap. lia.
Qed.

Lemma with_children_twice v xs ys : length xs = length (children v) →
  with_children (with_children v xs) ys = with_children v ys.
Proof.
  intros Hl. destruct v as [| | | |l|l]; try done. cbn in *. rewrite length_fmap in Hl. do 2 f_equal.
  apply fst_zip. rewrite length_fmap. lia.
Qed.

Lemma with_children_same v : with_children v (children v) = v.
Proof. destruct v as [| | | |l|l]; try done. cbn. f_equal. apply zip_fst_snd. Qed.

Lemma decrypted_container v : container v →
  match v with Object l => is_decrypted_secret l = false | _ => True end →
  decrypted v = (ds ← decrypt_back (children v); Ok (with_children v ds)).
Proof.
  intros Hc Hs. destruct v as [| | | |l|l]; try done; cbn [decrypted children with_children].
  rewrite Hs. clear Hs Hc.
  assert (try_map_back (λ '(k, x), x ← decrypted x; Ok (k, x)) l =
    (ds ← decrypt_back l.*2; Ok (zip l.*1 ds))) as ->.
  { induction l as [|[k x] l IH]; [done|]. rewrite !fmap_cons, !try_map_back_cons, IH. cbn [fst snd].
    destruct (decrypt_back l.*2); cbn [mbind result_bind]; [|done]. by destruct (decrypted x). }
  by destruct (decrypt_back l.*2).
Qed.

Lemma update_child v i d : i < length (children v) → container v →
  update v [i] (λ _, d) = with_children v (<[i := d]> (children v)).
Proof.
  intros Hi Hc. destruct v as [| | | |l|l]; try done; cbn in *; f_equal.
  - by rewrite list_insert_alter.
  - apply list_eq. intros j. rewrite lookup_zip_with, !list_lookup_fmap.
    destruct (decide (i = j)) as [<-|].
    + rewrite list_lookup_alter_eq, list_lookup_insert_eq by done. by destruct (l !! i) as [[]|].
    + rewrite list_lookup_alter_ne, list_lookup_insert_ne, list_lookup_fmap by done.
      by destruct (l !! j) as [[]|].
Qed.

Lemma value_at_app v p q : value_at v (p ++ q) = (x ← value_at v p; value_at x q).
Proof.
  revert v. induction p as [|i p IH]; intros v; cbn; [done|]. destruct (children v !! i); cbn; [apply IH|done].
Qed.

Lemma children_update_ne v i j p g : i ≠ j → children (update v (i :: p) g) !! j = children v !! j.
Proof.
  intros Hij. destruct v as [| | | |l|l]; try done; cbn.
  - by rewrite list_lookup_alter_ne.
  - by rewrite !list_lookup_fmap, list_lookup_alter_ne.
Qed.

Lemma children_update_eq v i p g x : children v !! i = Some x →
  children (update v (i :: p) g) !! i = Some (update x p g).
Proof.
  destruct v as [| | | |l|l]; try done; cbn.
  - intros Hx. by rewrite list_lookup_alter_eq, Hx.
  - rewrite !list_lookup_fmap, list_lookup_alter_eq. by destruct (l !! i) as [[]|]; intros [= ->].
Qed.

Lemma value_at_update v p g x : value_at v p = Some x → value_at (update v p g) p = Some (g x).
Proof.
  revert v. induction p as [|i p IH]; intros v; cbn [value_at]; [by intros [= ->]|].
  intros (y & Hy & Hx)%bind_Some. rewrite (children_update_eq v i p g y Hy). cbn. by apply IH.
Qed.

(** Neither path leads through the other. *)
Fixpoint diverge (p q : list nat) : Prop :=
  match p, q with
  | i :: p, j :: q => i ≠ j ∨ i = j ∧ diverge p q
  | _, _ => False
  end.

Lemma value_at_diverge v p q g : diverge p q → value_at (update v p g) q = value_at v q.
Proof.
  revert v q. induction p as [|i p IH]; intros v [|j q]; try done. cbn [diverge value_at].
  intros [Hij|[<- Hd]]; [by rewrite children_update_ne|].
  destruct (children v !! i) as [x|] eqn:Hx.
  - rewrite (children_update_eq v i p g x Hx). cbn. by apply IH.
  - cbn. destruct v as [| | | |l|l]; try done; cbn in *.
    + by rewrite list_lookup_alter_eq, Hx.
    + rewrite list_lookup_fmap in *. rewrite list_lookup_alter_eq. by destruct (l !! i).
Qed.

End secrets.

(** ** Pointers *)

(** A key that is written in a pointer as it is. *)
Definition plain (k : text) : Prop := (N_of_ascii "/" ∉ k) ∧ (N_of_ascii "~" ∉ k).

Definition slash : text := chars "/".

(** The documented behaviour of pointers: the empty one leads to the whole value; a
    plain key leads to that entry of the object the rest leads to, a decimal index
    to that element of an array, and writing replaces it there. *)
Class JsonPointerOk (J : JsonPointer) := {
  pointer_reads v p : pointer v p = fst <$> pointer_mut v p;
  pointer_whole v : ∃ put, pointer_mut v [] = Some (v, put) ∧ ∀ w, put w = w;
  pointer_key v p l put i k x :
    plain k → NoDup l.*1 → pointer_mut v p = Some (Object l, put) → l !! i = Some (k, x) →
    ∃ put', pointer_mut v (p ++ slash ++ k) = Some (x, put') ∧ ∀ w, put' w = put (Object (<[i := (k, w)]> l));
  pointer_index v p l put i x :
    pointer_mut v p = Some (Array l, put) → l !! i = Some x →
    ∃ put', pointer_mut v (p ++ slash ++ chars (pretty i)) = Some (x, put') ∧
      ∀ w, put' w = put (Array (<[i := w]> l));
}.

(** The pointer of a path, if its keys are plain. *)
Inductive spells : Value → list nat → text → Prop :=
| spells_nil v : spells v [] []
| spells_index l i x p t : l !! i = Some x → spells x p t →
    spells (Array l) (i :: p) (slash ++ chars (pretty i) ++ t)
| spells_key l i k x p t : l !! i = Some (k, x) → plain k → NoDup l.*1 → spells x p t →
    spells (Object l) (i :: p) (slash ++ k ++ t).

Lemma alter_keys (f : Value → Value) i (l : list (text * Value)) :
  (alter (λ '(k, x), (k, f x)) i l).*1 = l.*1.
Proof. revert i. induction l as [|[k x] l IH]; intros [|i]; cbn; by rewrite ?IH. Qed.

Lemma spells_diverge v p q g t : spells v q t → diverge p q → spells (update v p g) q t.
Proof.
  intros Hs. revert p. induction Hs as [v|l i x q t Hx Hs IH|l i k x q t Hx Hk Hd Hs IH]; intros p Hp;
    destruct p as [|j p]; try done; cbn [diverge] in Hp; cbn [update]; destruct (decide (j = i)) as [->|Hij].
  - destruct Hp as [|[_ Hp]]; [done|]. econstructor; [by rewrite list_lookup_alter_eq, Hx|by apply IH].
  - econstructor; [|done]. by rewrite list_lookup_alter_ne.
  - destruct Hp as [|[_ Hp]]; [done|].
    econstructor; [by rewrite list_lookup_alter_eq, Hx|done|by rewrite alter_keys|by apply IH].
  - econstructor; [by rewrite list_lookup_alter_ne|done|by rewrite alter_keys|done].
Qed.

Lemma spells_value v p t : spells v p t → ∃ x, value_at v p = Some x.
Proof.
  induction 1 as [v|l i x q t Hx Hs [y Hy]|l i k x q t Hx Hk Hd Hs [y Hy]]; [by eexists|exists y..]; cbn.
  - by rewrite Hx.
  - by rewrite list_lookup_fmap, Hx.
Qed.

Lemma spells_snoc v p t w i :
  spells v p t → value_at v p = Some w →
  match w with
  | Array l => ∃ x, l !! i = Some x
  | Object l => ∃ k x, l !! i = Some (k, x) ∧ plain k ∧ NoDup l.*1
  | _ => False
  end →
  spells v (p ++ [i]) (t ++ slash ++ match w with
                                     | Object l => match l !! i with Some (k, _) => k | None => [] end
                                     | _ => chars (pretty i)
                                     end).
Proof.
  intros Hs. induction Hs as [v|l j x q t Hx Hs IH|l j k x q t Hx Hk Hd Hs IH]; cbn [value_at children].
  - intros [= ->] Hw. destruct w as [| | | |l|l]; try done; cbn [app].
    + destruct Hw as [x Hx]. rewrite <-(app_nil_r (chars (pretty i))). by econstructor; [|constructor].
    + destruct Hw as (k & x & Hx & Hk & Hd). rewrite Hx. rewrite <-(app_nil_r k).
      by econstructor; [| | |constructor].
  - intros Hw Hi. rewrite Hx in Hw. rewrite <-!(assoc_L (++)). cbn [app]. econstructor; [done|by apply IH].
  - intros Hw Hi. rewrite list_lookup_fmap, Hx in Hw. rewrite <-!(assoc_L (++)). cbn [app].
    econstructor; [done..|by apply IH].
Qed.

Section pointers.
Context {K : SealedBox} {J : JsonPointer} {JO : JsonPointerOk J}.

Lemma spells_from v0 p0 put0 v p t : pointer_mut v0 p0 = Some (v, put0) → spells v p t →
  ∃ x put, pointer_mut v0 (p0 ++ t) = Some (x, put) ∧ value_at v p = Some x ∧
    ∀ w, put w = put0 (update v p (λ _, w)).
Proof using JO.
  intros H0 Hs. revert p0 put0 H0.
  induction Hs as [v|l i x q t Hx Hs IH|l i k x q t Hx Hk Hd Hs IH]; intros p0 put0 H0.
  - exists v, put0. by rewrite app_nil_r.
  - destruct (pointer_index v0 p0 l put0 i x H0 Hx) as (put1 & H1 & Hput1).
    destruct (IH _ _ H1) as (y & put & Hy & Hat & Hput). exists y, put. rewrite !(assoc_L (++)) in *.
    split_and!; [done|cbn; by rewrite Hx|]. intros w. rewrite Hput, Hput1. f_equal. cbn. f_equal.
    rewrite list_insert_alter. apply list_alter_ext; [|done]. intros z Hz. congruence.
  - destruct (pointer_key v0 p0 l put0 i k x Hk Hd H0 Hx) as (put1 & H1 & Hput1).
    destruct (IH _ _ H1) as (y & put & Hy & Hat & Hput). exists y, put. rewrite !(assoc_L (++)) in *.
    split_and!; [done|cbn; by rewrite list_lookup_fmap, Hx|]. intros w. rewrite Hput, Hput1. f_equal. cbn. f_equal.
    rewrite list_insert_alter. apply list_alter_ext; [|done]. intros [] Hz. congruence.
Qed.

Lemma spells_leads v p t : spells v p t →
  ∃ x put, pointer v t = Some x ∧ pointer_mut v t = Some (x, put) ∧ value_at v p = Some x ∧
    ∀ w, put w = update v p (λ _, w).
Proof using JO.
  intros Hs. destruct (pointer_whole v) as (put0 & H0 & Hput0).
  destruct (spells_from v [] put0 v p t H0 Hs) as (x & put & Hx & Hat & Hput). exists x, put.
  cbn [app] in Hx. rewrite pointer_reads, Hx. split_and!; [done..|]. intros w. by rewrite Hput, Hput0.
Qed.

(** Keys on the way to the secrets are plain and different. *)
Inductive pointable : Value → Prop :=
| pointable_secret l : is_decrypted_secret l = true → pointable (Object l)
| pointable_below v :
    match v with Object l => is_decrypted_secret l = false ∧ Forall plain l.*1 ∧ NoDup l.*1 | _ => True end →
    Forall pointable (children v) → pointable v.

Abbreviation decrypt_back := (try_map_back decrypted).

(** Decrypting at one path after the other. *)
Fixpoint decrypt_paths (v : Value) (ps : list (list nat)) : result DecryptionKeyError Value :=
  match ps with
  | [] => Ok v
  | p :: ps =>
      match value_at v p with
      | Some x => d ← decrypted x; decrypt_paths (update v p (λ _, d)) ps
      | None => decrypt_paths v ps
      end
  end.

Lemma decrypt_children w ps : container w → ∀ l1 l2 v p,
  value_at v p = Some (with_children w (l1 ++ l2)) → length (l1 ++ l2) = length (children w) →
  decrypt_paths v (((λ i, p ++ [i]) <$> reverse (seq 0 (length l1))) ++ ps) =
    (ds ← decrypt_back l1; decrypt_paths (update v p (λ _, with_children w (ds ++ l2))) ps).
Proof using Type.
  intros Hc l1. induction l1 as [|x l1 IH] using rev_ind; intros l2 v p Hv Hl.
  - cbn. f_equal. rewrite update_same; [done|]. intros y Hy. cbn in Hv. congruence.
  - rewrite length_app, Nat.add_1_r, seq_S, reverse_app, fmap_app. cbn [reverse Nat.add].
    change (reverse [length l1]) with [length l1]. cbn [fmap list_fmap app decrypt_paths].
    rewrite value_at_app, Hv. cbn [mbind option_bind value_at].
    rewrite children_with_children by done.
    rewrite <-(assoc_L (++)) in Hv, Hl |- *. cbn [app] in *.
    rewrite list_lookup_middle by done. cbn [mbind option_bind].
    rewrite decrypt_back_snoc. destruct (decrypted x) as [d|e]; cbn [mbind result_bind]; [|done].
    assert (update v (p ++ [length l1]) (λ _, d) = update v p (λ _, with_children w (l1 ++ d :: l2))) as ->.
    { rewrite update_app. apply update_at. intros y Hy. rewrite Hv in Hy. injection Hy as <-.
      rewrite update_child.
      - rewrite children_with_children, with_children_twice by done. f_equal.
        rewrite insert_app_r_alt, Nat.sub_diag by lia. done.
      - rewrite children_with_children by done. rewrite length_app. cbn. lia.
      - by destruct w. }
    rewrite (IH (d :: l2)).
    + destruct (decrypt_back l1); cbn [mbind result_bind]; [|done].
      rewrite update_compose. unfold compose. by rewrite <-(assoc_L (++)).
    + by apply (value_at_update v p (λ _, with_children w (l1 ++ d :: l2))) in Hv.
    + rewrite length_app in Hl |- *. cbn in *. lia.
Qed.

Lemma decrypt_container v p w ps : value_at v p = Some w → container w →
  match w with Object l => is_decrypted_secret l = false | _ => True end →
  decrypt_paths v (reverse (imap (λ i _, p ++ [i]) (children w)) ++ ps) = decrypt_paths v (p :: ps).
Proof using Type.
  intros Hv Hc Hs. cbn [decrypt_paths]. rewrite Hv, decrypted_container by done.
  rewrite imap_positions, <-fmap_reverse.
  pose proof (decrypt_children w ps Hc (children w) [] v p) as Hd. rewrite !app_nil_r, with_children_same in Hd.
  rewrite Hd by done. destruct (decrypt_back (children w)) as [ds|]; cbn [mbind result_bind]; [|done].
  by rewrite app_nil_r.
Qed.

Lemma diverge_sym p q : diverge p q → diverge q p.
Proof using Type. revert q. induction p as [|i p IH]; intros [|j q]; cbn; naive_solver. Qed.

Lemma diverge_app p q r : diverge p q → diverge (p ++ r) q.
Proof using Type. revert q. induction p as [|i p IH]; intros [|j q]; cbn; naive_solver. Qed.

Lemma diverge_children p i j : i ≠ j → diverge (p ++ [i]) (p ++ [j]).
Proof using Type. intros Hij. induction p as [|k p IH]; cbn; auto. Qed.

Lemma children_diverge p n m : StronglySorted (flip diverge) ((λ i, p ++ [i]) <$> seq n m).
Proof using Type.
  revert n. induction m as [|m IH]; intros n; cbn; constructor; [apply IH|].
  apply Forall_forall. intros q (j & -> & Hj%elem_of_seq)%list_elem_of_fmap. apply diverge_children. lia.
Qed.

(** What the queue holds. *)
Record queued (v : Value) (q : list text) (ps : list (list nat)) : Prop := {
  queued_spells : Forall2 (λ t p, spells v p t) q ps;
  queued_diverge : StronglySorted diverge ps;
  queued_pointable : Forall (λ p, ∀ x, value_at v p = Some x → pointable x) ps;
}.

Lemma queued_tail v t q p ps : queued v (t :: q) (p :: ps) → queued v q ps.
Proof using Type.
  intros [Hs Hd Hp]. apply Forall2_cons in Hs as [_ Hs]. apply StronglySorted_cons in Hd as [_ Hd].
  apply Forall_cons in Hp as [_ Hp]. done.
Qed.

(** Writing at a path leaves the others alone. *)
Lemma queued_update v t q p ps g : queued v (t :: q) (p :: ps) → queued (update v p g) q ps ∧
  sum_list_with (size_at (update v p g)) ps = sum_list_with (size_at v) ps.
Proof using Type.
  intros [Hs Hd Hp]. apply Forall2_cons in Hs as [_ Hs]. apply StronglySorted_cons in Hd as [Hd1 Hd].
  apply Forall_cons in Hp as [_ Hp]. rewrite Forall_forall in Hd1. split; [split|].
  - eapply Forall2_impl_in; [exact Hs|]. intros t' p' _ Hin Hsp. apply spells_diverge; auto.
  - done.
  - rewrite Forall_forall in *. intros p' Hin x. rewrite value_at_diverge by auto. by apply Hp.
  - clear -Hd1. induction ps as [|p' ps IH]; [done|]. cbn. rewrite IH by set_solver. f_equal.
    unfold size_at. rewrite value_at_diverge; [done|]. apply Hd1. set_solver.
Qed.

(** The children of a container take its place. *)
Lemma queued_children v t q p ps w ts : queued v (t :: q) (p :: ps) → value_at v p = Some w →
  match w with Object l => is_decrypted_secret l = false | _ => True end → container w →
  length ts = length (children w) →
  (∀ i t', ts !! i = Some t' → ∃ x, children w !! i = Some x ∧
    t' = t ++ slash ++ match w with
                       | Object l => match l !! i with Some (k, _) => k | None => [] end
                       | _ => chars (pretty i)
                       end) →
  queued v (reverse ts ++ q) (reverse (imap (λ i _, p ++ [i]) (children w)) ++ ps).
Proof using Type.
  intros Hq Hw Hns Hc Hl Hts. pose proof (queued_tail _ _ _ _ _ Hq) as [Hs' Hd' Hp'].
  destruct Hq as [Hs Hd Hp]. apply Forall2_cons in Hs as [Hs _]. apply StronglySorted_cons in Hd as [Hd _].
  apply Forall_cons in Hp as [Hp _]. specialize (Hp w Hw).
  assert (Forall pointable (children w) ∧
    match w with Object l => Forall plain l.*1 ∧ NoDup l.*1 | _ => True end) as [Hbelow Hkeys].
  { inversion Hp as [l Hsec|? Hk Hb]; subst; [congruence|]. split; [done|]. destruct w; naive_solver. }
  split.
  - apply Forall2_app; [|done]. apply Forall2_reverse. apply Forall2_same_length_lookup_2.
    { by rewrite length_imap. }
    intros i t' p' Ht' Hp''. rewrite list_lookup_imap in Hp''.
    destruct (Hts i t' Ht') as (x & Hx & ->). rewrite Hx in Hp''. injection Hp'' as <-.
    apply spells_snoc; [done..|]. destruct w as [| | | |l|l]; try done; cbn in Hx.
    + by exists x.
    + rewrite list_lookup_fmap in Hx. destruct (l !! i) as [[k y]|] eqn:Hi; [|done]. exists k, y.
      destruct Hkeys as [Hpl Hnd]. split_and!; [done| |done]. rewrite Forall_forall in Hpl. apply Hpl.
      apply list_elem_of_fmap. exists (k, y). split; [done|]. by eapply list_elem_of_lookup_2.
  - apply StronglySorted_app_2; [| |done].
    + intros a b Ha Hb. rewrite elem_of_reverse, imap_positions in Ha.
      apply list_elem_of_fmap in Ha as (i & -> & _). apply diverge_app. rewrite Forall_forall in Hd. auto.
    + rewrite imap_positions. apply (StronglySorted_reverse (flip diverge)), children_diverge.
  - apply Forall_app. split; [|done]. apply Forall_forall. intros p' Hin x.
    rewrite elem_of_reverse in Hin. apply list_elem_of_lookup in Hin as [i Hi].
    rewrite list_lookup_imap in Hi. destruct (children w !! i) as [y|] eqn:Hy; [|done]. injection Hi as <-.
    rewrite value_at_app, Hw. cbn. rewrite Hy. intros [= <-]. rewrite Forall_forall in Hbelow. apply Hbelow.
    by eapply list_elem_of_lookup_2.
Qed.

Lemma decrypt_loop_paths fuel : ∀ q ps v, queued v q ps → sum_list_with (size_at v) ps < fuel →
  decrypt_loop fuel q v = Some (decrypt_paths v ps).
Proof using JO.
  induction fuel as [|fuel IH]; intros q ps v Hq Hf; [lia|]. cbn [decrypt_loop].
  destruct ps as [|p ps].
  { destruct Hq as [Hs _ _]. by apply Forall2_nil_inv_r in Hs as ->. }
  destruct q as [|t q]; [by destruct Hq as [Hs%Forall2_nil_inv_l _ _]|].
  assert (spells v p t) as Hs by (destruct Hq as [Hs _ _]; by apply Forall2_cons in Hs as [? _]).
  destruct (spells_leads v p t Hs) as (x & put & -> & -> & Hx & Hput).
  cbn [sum_list_with] in Hf. unfold size_at in Hf at 1. rewrite Hx in Hf.
  assert (decrypted x = Ok x → value_size x + sum_list_with (size_at v) ps < S fuel →
    decrypt_loop fuel q v = Some (decrypt_paths v (p :: ps))) as Hskip.
  { intros Hd Hsz. rewrite (IH q ps v (queued_tail _ _ _ _ _ Hq)).
    - cbn [decrypt_paths]. rewrite Hx, Hd. cbn [mbind result_bind]. rewrite update_same; [done|]. congruence.
    - rewrite value_size_children in Hsz. lia. }
  assert (∀ ts, container x → match x with Object l => is_decrypted_secret l = false | _ => True end →
    queued v (reverse ts ++ q) (reverse (imap (λ i _, p ++ [i]) (children x)) ++ ps) →
    decrypt_loop fuel (reverse ts ++ q) v = Some (decrypt_paths v (p :: ps))) as Hbelow.
  { intros ts Hc Hns Hq'. rewrite (IH _ _ _ Hq'); [by rewrite (decrypt_container v p x)|].
    rewrite sum_list_with_app. pose proof (sum_children v p x Hx). lia. }
  destruct x as [|b|n|s|l|l]; try (apply Hskip; [done|exact Hf]).
  - apply Hbelow; [done..|]. eapply queued_children; [done..|by rewrite length_imap|].
    intros i t' Ht'. rewrite list_lookup_imap in Ht'. cbn. destruct (l !! i); [|done].
    injection Ht' as <-. by eexists.
  - destruct (is_decrypted_secret l) eqn:Hsec.
    + cbn [decrypt_paths]. rewrite Hx. cbn [decrypted]. rewrite Hsec.
      destruct (open_secret l) as [d|e]; cbn [mbind result_bind]; [|done]. rewrite Hput.
      destruct (queued_update _ _ _ _ _ (λ _, d) Hq) as [Hq' Hsz]. apply IH; [done|].
      rewrite Hsz. rewrite value_size_children in Hf. lia.
    + apply Hbelow; [done..|]. eapply queued_children; [done..|cbn; by rewrite !length_fmap|].
      intros i t' Ht'. rewrite list_lookup_fmap in Ht'. cbn. rewrite list_lookup_fmap.
      destruct (l !! i) as [[k y]|]; [|done]. injection Ht' as <-. by eexists.
Qed.

(** A component with its secrets. *)
Definition decrypted_component (c : ComponentView) : result DecryptionKeyError Value :=
  match kind c with
  | Standard => Ok (component_to_value c)
  | Credential => p ← decrypted (properties c);
                  Ok (component_to_value {| kind := Credential; properties := p |})
  end.

Lemma component_decrypts c fuel : pointable (properties c) →
  value_size (component_to_value c) < fuel →
  component_decrypt_request fuel c = Some (decrypted_component c).
Proof using JO.
  intros Hp Hf. unfold component_decrypt_request, decrypted_component. destruct c as [[] v]; [|done].
  cbn [kind properties] in *. rewrite (decrypt_loop_paths fuel [[]] [[]]).
  - cbn. by destruct (decrypted v).
  - split; [repeat constructor|repeat constructor|]. constructor; [|done]. intros x [= <-].
    apply pointable_below; [|cbn; constructor; [by apply pointable_below; [|constructor]|by constructor]].
    split_and!; [done| |by apply (bool_decide_unpack _); vm_compute].
    repeat constructor; by apply (bool_decide_unpack _); vm_compute.
  - unfold size_at. cbn in *. lia.
Qed.

End pointers.

(** ** Everything that is decrypted is listed *)

(** Strings from one of two places. *)
Definition from_either (l a b : list text) : Prop := ∀ s, s ∈ l → s ∈ a ∨ s ∈ b.

Section covered.
Context {K : SealedBox}.
Abbreviation decrypt_back := (try_map_back decrypted).

(** The outcomes of decrypting and of listing. *)
Definition covers {A} (to_strings : A → list text) (before : list text)
    (d : result DecryptionKeyError A) (l : result DecryptionKeyError (list text)) : Prop :=
  match d, l with
  | Ok a, Ok creds => from_either (to_strings a) before creds
  | Err e, Err e' => e = e'
  | _, _ => False
  end.

Lemma elem_of_strings_back v s : s ∈ strings_back v ↔ s ∈ strings v.
Proof.
  induction v as [v IH] using Value_ind'. rewrite strings_back_below.
  destruct v as [| | | |l|l]; try done; cbn [children strings].
  - rewrite !list_elem_of_bind. setoid_rewrite elem_of_reverse. rewrite Forall_forall in IH. naive_solver.
  - rewrite !list_elem_of_bind. setoid_rewrite elem_of_reverse. rewrite Forall_forall in IH.
    setoid_rewrite list_elem_of_fmap. split.
    + intros (x & Hx & ([k y] & -> & Hy)). exists (k, y). split; [|done]. by apply (IH _ Hy).
    + intros ([k x] & Hx & Hin). exists x. split; [by apply (IH _ Hin)|]. by exists (k, x).
Qed.

Definition listed (ss : result DecryptionKeyError (list Value)) : result DecryptionKeyError (list text) :=
  ss ← ss; Ok (ss ≫= strings).

Lemma decrypted_covered v : covers strings (strings v) (decrypted v) (listed (secrets_in v)).
Proof.
  induction v as [v IH] using Value_ind'.
  assert (∀ xs, Forall (λ v, covers strings (strings v) (decrypted v) (listed (secrets_in v))) xs →
    covers (λ ds, ds ≫= strings) (xs ≫= strings) (decrypt_back xs) (listed (secrets_of (reverse xs)))) as Hall.
  { induction 1 as [|x xs Hx _ IHx]; [intros s Hs; by left|]. rewrite try_map_back_cons, reverse_cons, secrets_of_app, bind_cons.
    destruct (decrypt_back xs) as [ds|], (secrets_of (reverse xs)) as [ss|]; cbn in IHx |- *; try done.
    destruct (decrypted x) as [d|], (secrets_in x) as [sx|]; cbn in Hx |- *; try done.
    intros s. specialize (Hx s). specialize (IHx s). rewrite !bind_app, !elem_of_app in *.
    tauto. }
  destruct v as [| | | |l|l]; try (intros ? ?; by left).
  - rewrite secrets_in_below, (decrypted_container (Array l) I I). cbn [children strings]. specialize (Hall l IH).
    by destruct (decrypt_back l), (secrets_of (reverse l)).
  - destruct (is_decrypted_secret l) eqn:Hs.
    + cbn [decrypted secrets_in]. rewrite Hs. destruct (open_secret l) as [x|]; cbn; [|done].
      intros s Hin. right. by rewrite app_nil_r.
    + rewrite secrets_in_below, Hs, (decrypted_container (Object l) I Hs). cbn [children].
      assert (strings (Object l) = l.*2 ≫= strings) as Hstr.
      { cbn. clear. induction l as [|[k x] l IH]; [done|]. csimpl. by rewrite IH. }
      rewrite Hstr. specialize (Hall l.*2). rewrite Forall_fmap in Hall. specialize (Hall IH).
      destruct (decrypt_back l.*2) as [ds|] eqn:Hds, (secrets_of (reverse l.*2)); cbn in Hall |- *; try done.
      apply decrypt_back_length in Hds. rewrite length_fmap in Hds.
      assert ((zip l.*1 ds ≫= λ '(_, x), strings x) = ds ≫= strings) as ->; [|done].
      clear -Hds. revert ds Hds. induction l as [|[k x] l IH]; intros [|d ds] Hds; try done.
      csimpl. injection Hds as Hds. by rewrite (IH ds Hds).
Qed.

End covered.

(** ** Requests *)

Section requests.
Context {K : SealedBox} {J : JsonPointer} {JO : JsonPointerOk J}.

Lemma component_covered c :
  covers strings (strings (component_to_value c)) (decrypted_component c) (credentials_of c).
Proof using Type.
  unfold decrypted_component, credentials_of. destruct c as [[] v]; cbn [kind properties].
  - pose proof (decrypted_covered v) as Hc. unfold covers, listed in Hc.
    destruct (decrypted v) as [w|], (secrets_in v) as [ss|]; cbn in Hc; try done.
    intros s. cbn. rewrite !elem_of_cons, !elem_of_app. intros [->|[Hs|Hs]]; [by left; left| |by left; right; right].
    apply Hc in Hs as [Hs|Hs]; [left; by right; left|right].
    apply list_elem_of_bind in Hs as (x & Hs & Hx). apply list_elem_of_bind. exists x.
    by rewrite elem_of_strings_back, elem_of_reverse.
  - intros s Hs. by left.
Qed.

Definition parents_strings (cs : list ComponentView) : list text := cs ≫= λ c, strings (component_to_value c).

Lemma parents_covered cs : Forall (λ c, pointable (properties c)) cs →
  ∃ d l, covers (λ vs, vs ≫= strings) (parents_strings cs) d l ∧ ∃ n, ∀ fuel, n ≤ fuel →
    decrypt_parents fuel cs = Some d ∧
    ∀ secrets, extend_secrets fuel secrets cs =
      Some (match l with Ok more => Ok (secrets ++ more) | Err e => Err e end).
Proof using JO.
  induction 1 as [|c cs Hc _ (d & l & Hdl & n & IH)].
  { exists (Ok []), (Ok []). split; [intros s Hs; by left|]. exists 0. intros fuel _. split; [done|].
    intros secrets. cbn. by rewrite app_nil_r. }
  destruct (component_lists c) as [m Hm]. pose proof (component_covered c) as Hcov. unfold covers in Hcov.
  pose proof (λ fuel, component_decrypts c fuel Hc) as Hdec.
  destruct (decrypted_component c) as [v|e], (credentials_of c) as [creds|e']; try done.
  - exists (match d with Ok vs => Ok (v :: vs) | Err e => Err e end),
      (match l with Ok more => Ok (creds ++ more) | Err e => Err e end). split.
    + unfold covers in *. destruct d as [vs|], l as [more|]; try done. intros s. specialize (Hcov s). specialize (Hdl s).
      unfold parents_strings in *. rewrite !bind_cons, !elem_of_app. tauto.
    + exists (n + m + S (value_size (component_to_value c))). intros fuel Hf.
      destruct (IH fuel) as [Hd Hl]; [lia|]. cbn [decrypt_parents extend_secrets].
      rewrite Hdec, Hm by lia. cbn [mbind option_bind]. rewrite Hd. split; [by destruct d|].
      intros secrets. rewrite Hl. destruct l; [|done]. by rewrite (assoc_L (++)).
  - exists (Err e), (Err e'). split; [done|]. exists (m + S (value_size (component_to_value c))).
    intros fuel Hf. cbn [decrypt_parents extend_secrets]. by rewrite Hdec, Hm by lia.
Qed.

Lemma resolver_pointers r :
  spells (resolver_to_value r) [2; 0] (chars "/component/data") ∧
  ∀ v, spells (update (resolver_to_value r) [2; 0] (λ _, v)) [2; 1] (chars "/component/parents").
Proof using Type.
  assert (chars "/component/data" = slash ++ chars "component" ++ slash ++ chars "data" ++ []) as -> by done.
  assert (chars "/component/parents" = slash ++ chars "component" ++ slash ++ chars "parents" ++ []) as -> by done.
  split; [|intros v]; unfold resolver_to_value; cbn [update alter list_alter];
    repeat (econstructor; [done|by apply (bool_decide_unpack _); vm_compute|by apply (bool_decide_unpack _); vm_compute|]);
    constructor.
Qed.

(** Decrypting and listing end. *)
Lemma request_secrets r : Forall (λ c, pointable (properties c)) (data r :: parents r) →
  ∃ d l, covers strings (strings (resolver_to_value r)) d l ∧
    ∃ n, ∀ fuel, n ≤ fuel → decrypt_request fuel r = Some d ∧ list_secrets fuel r = Some l.
Proof using JO.
  intros [Hdata Hps]%Forall_cons. destruct (component_lists (data r)) as [m Hm].
  destruct (parents_covered (parents r) Hps) as (d & l & Hdl & n & Hn).
  destruct (resolver_pointers r) as [Hsp1 Hsp2].
  destruct (spells_leads _ _ _ Hsp1) as (x & put & _ & Hmut & _ & Hput).
  pose proof (component_covered (data r)) as Hcov. unfold covers in Hcov, Hdl.
  cbn [decrypt_request list_secrets resolver_request]. unfold resolver_decrypt_request, resolver_list_secrets, put_at.
  rewrite Hmut. pose proof (λ fuel, component_decrypts (data r) fuel Hdata) as Hdec.
  destruct (decrypted_component (data r)) as [v|e], (credentials_of (data r)) as [creds|e']; try done.
  2: { exists (Err e), (Err e'). split; [done|]. exists (m + S (value_size (component_to_value (data r)))).
       intros fuel Hf. by rewrite Hdec, Hm by lia. }
  destruct (spells_leads _ _ _ (Hsp2 v)) as (x2 & put2 & _ & Hmut2 & _ & Hput2).
  exists (match d with Ok vs => Ok (put2 (Array vs)) | Err e => Err e end),
    (match l with Ok more => Ok (creds ++ more) | Err e => Err e end). split.
  - destruct d as [vs|e], l as [more|e']; try done. rewrite Hput2. intros s.
    specialize (Hcov s). specialize (Hdl s). unfold parents_strings in Hdl.
    assert ((component_to_value <$> parents r) ≫= strings =
      parents r ≫= λ c, strings (component_to_value c)) as Hp.
    { clear. induction (parents r) as [|c cs IH]; [done|]. csimpl. by rewrite IH. }
    unfold resolver_to_value. cbn -[component_to_value strings]. cbn [strings mbind list_bind].
    rewrite Hp, !elem_of_app. tauto.
  - exists (n + m + S (value_size (component_to_value (data r)))). intros fuel Hf.
    destruct (Hn fuel) as [Hd Hl]; [lia|]. rewrite Hdec, Hm by lia. cbn [mbind option_bind].
    rewrite Hd, Hl. destruct d, l; cbn [mbind option_bind]; rewrite ?Hput, ?Hmut2; done.
Qed.

(** C14: What a function is given is either in its request as it was sent or is
    listed as a credential: decrypting a request and listing its secrets end, both
    with the same error or with a value and credentials such that every string of
    the value is one of the request or one of the credentials. Hypotheses: the
    keys on the way to the secrets are different and have no slash or tilde, and
    JSON pointers behave as documented. *)
Theorem decrypted_secrets_are_listed r :
  Forall (λ c, pointable (properties c)) (data r :: parents r) →
  ∃ d l, covers strings (strings (resolver_to_value r)) d l ∧
    ∃ n, ∀ fuel, n ≤ fuel → decrypt_request fuel r = Some d ∧ list_secrets fuel r = Some l.
Proof using JO. apply request_secrets. Qed.

End requests.
