(* ===== verification/CycloneSample.v ===== *)
(** * JSON pointers, concretely

    Pointers without escapes that behave as [JsonPointerOk] says, a box that is not
    sealed, and the witnesses of the theorems on secrets. *)

From S2P Require Import Prelude Redaction CycloneSecrets.
From Stdlib Require Import NArith Strings.Ascii Strings.String.
From stdpp Require Import base tactics sets list pretty strings.

Abbreviation text := (list N) (only parsing).

(** The character of a slash. *)
Definition bar : N := 47.

Fixpoint split_bar (s : text) : list text :=
  match s with
  | [] => [[]]
  | c :: s =>
      if (c =? bar)%N then [] :: split_bar s
      else match split_bar s with t :: ts => (c :: t) :: ts | [] => [[c]] end
  end.

Definition tokens (p : text) : option (list text) :=
  match p with
  | [] => Some []
  | c :: s => if (c =? bar)%N then Some (split_bar s) else None
  end.

Fixpoint walk (v : Value) (toks : list text) : option (Value * (Value → Value)) :=
  match toks with
  | [] => Some (v, λ w, w)
  | tok :: toks =>
      match v with
      | Object l =>
          '(i, (k, x)) ← list_find (λ kv, kv.1 = tok) l;
          '(y, put) ← walk x toks;
          Some (y, λ w, Object (<[i := (k, put w)]> l))
      | Array l =>
          '(_, i) ← list_find (λ i : nat, chars (pretty i) = tok) (seq 0 (length l));
          x ← l !! i;
          '(y, put) ← walk x toks;
          Some (y, λ w, Array (<[i := put w]> l))
      | _ => None
      end
  end.

Definition sample_pointer_mut (v : Value) (p : text) : option (Value * (Value → Value)) :=
  toks ← tokens p; walk v toks.

#[export] Instance sample_pointer : JsonPointer :=
  {| pointer v p := fst <$> sample_pointer_mut v p; pointer_mut := sample_pointer_mut |}.

Lemma split_bar_cons s : ∃ t ts, split_bar s = t :: ts.
Proof.
  destruct s as [|c s]; cbn; [eauto|]. destruct (c =? bar)%N; [eauto|].
  destruct (split_bar s); eauto.
Qed.

Lemma split_bar_plain k : bar ∉ k → split_bar k = [k].
Proof.
  induction k as [|c k IH]; intros Hk; cbn; [done|]. destruct (N.eqb_spec c bar) as [->|]; [set_solver|].
  rewrite IH by set_solver. done.
Qed.

Lemma split_bar_app s k : bar ∉ k → split_bar (s ++ bar :: k) = split_bar s ++ [k].
Proof.
  intros Hk. induction s as [|c s IH]; cbn; [by rewrite split_bar_plain|].
  rewrite IH. destruct (c =? bar)%N; [done|]. by destruct (split_bar_cons s) as (t & ts & ->).
Qed.

Lemma bar_tokens_app p toks k : tokens p = Some toks → bar ∉ k → tokens (p ++ slash ++ k) = Some (toks ++ [k]).
Proof.
  intros Hp Hk. destruct p as [|c p]; cbn in *.
  - injection Hp as <-. by rewrite split_bar_plain.
  - destruct (c =? bar)%N; [|done]. injection Hp as <-. by rewrite <-split_bar_app.
Qed.

Lemma walk_snoc v toks w put tok x put1 :
  walk v toks = Some (w, put) → walk w [tok] = Some (x, put1) →
  ∃ put2, walk v (toks ++ [tok]) = Some (x, put2) ∧ ∀ z, put2 z = put (put1 z).
Proof.
  revert v put. induction toks as [|t toks IH]; intros v put Hv Hw.
  - cbn in Hv. injection Hv as <- <-. by exists put1.
  - cbn [walk app] in *. destruct v as [| | | |l|l]; try done.
    + apply bind_Some in Hv as ([j i] & Hf & (y & Hy & ([y' put'] & Hp & [= -> <-])%bind_Some)%bind_Some).
      destruct (IH y put' Hp Hw) as (put2 & Hw2 & Hput2). rewrite Hf. cbn. rewrite Hy. cbn. rewrite Hw2. cbn.
      eexists. split; [done|]. intros z. cbn. by rewrite Hput2.
    + apply bind_Some in Hv as ([i [k y]] & Hf & ([y' put'] & Hp & [= -> <-])%bind_Some).
      destruct (IH y put' Hp Hw) as (put2 & Hw2 & Hput2). rewrite Hf. cbn. rewrite Hw2. cbn.
      eexists. split; [done|]. intros z. cbn. by rewrite Hput2.
Qed.

Lemma chars_inj s t : chars s = chars t → s = t.
Proof.
  intros H. assert (ascii_of_N <$> chars s = ascii_of_N <$> chars t) as Ha by (by rewrite H).
  assert (∀ u, ascii_of_N <$> chars u = list_ascii_of_string u) as Hback.
  { intros u. unfold chars. rewrite <-list_fmap_compose. rewrite <-(list_fmap_id (list_ascii_of_string u)) at 2.
    apply list_fmap_ext. intros _ a _. apply ascii_N_embedding. }
  rewrite !Hback in Ha. by rewrite <-(string_of_list_ascii_of_string s), Ha, string_of_list_ascii_of_string.
Qed.

Lemma pretty_go_plain n s : bar ∉ chars s → bar ∉ chars (pretty_N_go n s).
Proof.
  revert s. induction (N.lt_wf_0 n) as [n _ IH]. intros s Hs. destruct (decide (0 < n)%N).
  - rewrite pretty_N_go_step by done. apply IH; [apply N.div_lt; lia|].
    assert (∀ d, (d < 10)%N → bar ∉ chars (String (pretty_N_char d) s)) as Hd.
    { intros d Hd. cbn. apply not_elem_of_cons. split; [|done].
      assert (∀ d, d ∈ (N.of_nat <$> seq 0 10) → bar ≠ N_of_ascii (pretty_N_char d)) as Hall.
      { apply Forall_forall. by repeat constructor. }
      apply Hall, list_elem_of_fmap. exists (N.to_nat d). rewrite elem_of_seq. lia. }
    apply Hd, N.mod_lt. lia.
  - assert (n = 0%N) as -> by lia. by rewrite pretty_N_go_0.
Qed.

Lemma pretty_plain (i : nat) : bar ∉ chars (pretty i).
Proof.
  unfold pretty, pretty_nat, pretty, pretty_N. case_decide; [cbn; set_solver|].
  apply pretty_go_plain. set_solver.
Qed.

#[export] Instance sample_pointer_ok : JsonPointerOk sample_pointer.
Proof.
  split; unfold pointer, pointer_mut, sample_pointer, sample_pointer_mut.
  - done.
  - intros v. by exists (λ w, w).
  - intros v p l put i k x [Hk _] Hd Hp Hx.
    apply bind_Some in Hp as (toks & Ht & Hw). rewrite (bar_tokens_app p toks k Ht Hk). cbn [mbind option_bind].
    assert (walk (Object l) [k] = Some (x, λ w, Object (<[i := (k, w)]> l))) as H1.
    { cbn. assert (list_find (λ kv, kv.1 = k) l = Some (i, (k, x))) as ->; [|done].
      apply list_find_Some. split_and!; [done..|]. intros j y Hy Hj Hyk. subst.
      apply (NoDup_lookup l.*1 j i y.1) in Hd; [lia|by rewrite list_lookup_fmap, Hy|].
      by rewrite list_lookup_fmap, Hx. }
    destruct (walk_snoc _ _ _ _ _ _ _ Hw H1) as (put2 & -> & Hput2). by exists put2.
  - intros v p l put i x Hp Hx.
    apply bind_Some in Hp as (toks & Ht & Hw). rewrite (bar_tokens_app p toks _ Ht (pretty_plain i)).
    cbn [mbind option_bind].
    assert (walk (Array l) [chars (pretty i)] = Some (x, λ w, Array (<[i := w]> l))) as H1.
    { cbn. assert (list_find (λ j : nat, chars (pretty j) = chars (pretty i)) (seq 0 (length l)) =
        Some (i, i)) as ->; [|cbn; by rewrite Hx].
      apply list_find_Some. split_and!; [|done|].
      - apply lookup_seq. split; [done|]. by eapply lookup_lt_Some.
      - intros j y [-> _]%lookup_seq Hj Heq%chars_inj. apply (inj pretty) in Heq. cbn in Heq. lia. }
    destruct (walk_snoc _ _ _ _ _ _ _ Hw H1) as (put2 & -> & Hput2). by exists put2.
Qed.

(** ** Witnesses *)

(** A box that is not sealed, around a string. *)
#[export] Instance sample_box : SealedBox :=
  {| base64_decode := Some; sealedbox_open := Some; from_slice := λ s, Some (String_ s) |}.

Definition sample_component : ComponentView := {|
  kind := Credential;
  properties :=
    Object [(chars "name", String_ (chars "ufo"));
            (chars "message", Array [
               Object [(chars "cycloneEncryptedDataMarker", Bool true);
                       (chars "encryptedSecret", String_ (chars "hunter2"))]])];
|}.

Definition sample_request : ResolverFunctionRequest := {|
  execution_id := chars "1"; handler := chars "main"; data := sample_component; parents := [];
  response_type := chars "String"; code_base64 := chars "" |}.

Lemma sample_pointable : pointable (properties sample_component).
Proof.
  apply pointable_below.
  - split_and!; [done| |by apply (bool_decide_unpack _); vm_compute].
    repeat constructor; by apply (bool_decide_unpack _); vm_compute.
  - constructor; [by apply pointable_below; [|constructor]|]. constructor; [|constructor].
    apply pointable_below; [done|]. constructor; [|constructor]. by apply pointable_secret.
Qed.

(** The secret is decrypted in place, and listed. *)
Lemma decrypted_secrets_are_listed_witness :
  (∃ d l, covers strings (strings (resolver_to_value sample_request)) d l ∧
    ∃ n, ∀ fuel, n ≤ fuel → decrypt_request fuel sample_request = Some d ∧
      list_secrets fuel sample_request = Some l) ∧
  list_secrets 20 sample_request = Some (Ok [chars "hunter2"]).
Proof.
  split; [|by vm_compute]. apply decrypted_secrets_are_listed.
  constructor; [apply sample_pointable|constructor].
Defined.

(** A key with a slash is not found: the function is not run. *)
Lemma slash_in_key_is_not_found :
  component_decrypt_request 20
    {| kind := Credential; properties := Object [(chars "a/b", Null)] |} =
  Some (Err (JSONPointerNotFound
    (component_to_value {| kind := Credential; properties := Object [(chars "a/b", Null)] |})
    (chars "/properties/a/b"))).
Proof. by vm_compute. Qed.
