(* ===== verification/CycloneMessages.v ===== *)
(** * Messages of cyclone

    Model of [src/lib/cyclone-core/src/progress.rs], of the results in
    [src/lib/cyclone-core/src] and of the messages of the language server in
    [src/lib/cyclone-server/src/execution.rs] and
    [src/lib/cyclone-server/src/result]: what a function writes while it runs, what
    it returns, and how this is read from and written to JSON values. *)

From S2P Require Import Prelude Redaction CycloneSecrets.
From Stdlib Require Import NArith Strings.String.
From stdpp Require Import base tactics sets list.

Abbreviation text := (list N) (only parsing).

(** ** Waiting *)

(** What [.await] gives, without a timeout: an answer, or nothing, for ever. *)
Inductive Await (A : Type) : Type := Never | Answered (a : A).
Arguments Never {A}.
Arguments Answered {A} _.

(** ** The protocol *)

Record OutputStream := {
  stream : text;
  execution_id : text;
  level : text;
  group : option text;
  message : text;
  timestamp : N;
}.

Inductive ProgressMessage : Type :=
| Heartbeat
| Output (output : OutputStream).

Record FunctionResultFailure := {
  failure_execution_id : text;
  failure_kind : text;
  failure_message : text;
  failure_timestamp : N;
}.

Inductive FunctionResult (S : Type) : Type :=
| Failure (failure : FunctionResultFailure)
| Success (success : S).
Arguments Failure {S} _.
Arguments Success {S} _.

Module Message.
Inductive t (R : Type) : Type :=
| Fail (message : text)
| Finish
| Heartbeat
| OutputStream (output : CycloneMessages.OutputStream)
| Result (result : FunctionResult R)
| Start.
Arguments Fail {R} _.
Arguments Finish {R}.
Arguments Heartbeat {R}.
Arguments OutputStream {R} _.
Arguments Result {R} _.
Arguments Start {R}.

Definition fail {R} (message : text) : t R := Fail message.
End Message.

(** [serialize_to_string] and [deserialize_from_str]. *)
Class MessageJson (R : Type) := {
  serialize_to_string : Message.t R → option text;
  deserialize_from_str : text → option (Message.t R);
}.

(** A message is read as it was written. *)
Class MessageJsonOk (R : Type) {J : MessageJson R} :=
  message_roundtrip m t : serialize_to_string m = Some t → deserialize_from_str t = Some m.

(** Messages of a websocket. *)
Inductive WebSocketMessage : Type :=
| Text (t : text)
| Binary (b : text)
| Ping
| Pong
| Close.

(** ** The language server *)

Record LangServerOutput := {
  ls_execution_id : text;
  ls_stream : text;
  ls_level : text;
  ls_group : option text;
  ls_message : text;
}.

Record LangServerFailure := {
  lf_execution_id : text;
  lf_kind : text;
  lf_message : text;
}.

Inductive LangServerResult (L : Type) : Type :=
| LangFailure (failure : LangServerFailure)
| LangSuccess (success : L).
Arguments LangFailure {L} _.
Arguments LangSuccess {L} _.

Inductive LangServerMessage (L : Type) : Type :=
| LangOutput (output : LangServerOutput)
| LangResult (result : LangServerResult L).
Arguments LangOutput {L} _.
Arguments LangResult {L} _.

(** A successful result as it is read, and as it is sent on. *)
Class LangServerSuccess (L S : Type) := {
  ls_to_value : L → option Value;
  ls_from_value : Value → option L;
  ls_into : N → L → S;
}.

(** Reading makes up no string. *)
Class LangServerSuccessOk (L S : Type) {C : LangServerSuccess L S} :=
  reads_strings v x w : ls_from_value v = Some x → ls_to_value x = Some w → strings w ⊆ strings v.

(** [OutputStream::from]. *)
Definition output_from (now : N) (v : LangServerOutput) : OutputStream :=
  {| execution_id := ls_execution_id v; stream := ls_stream v; level := ls_level v;
     group := ls_group v; message := ls_message v; timestamp := now |}.

(** [FunctionResult::from]. *)
Definition result_from {L S} `{LangServerSuccess L S} (now : N) (v : LangServerResult L) : FunctionResult S :=
  match v with
  | LangSuccess success => Success (ls_into now success)
  | LangFailure failure =>
      Failure {| failure_execution_id := lf_execution_id failure; failure_kind := lf_kind failure;
                 failure_message := lf_message failure; failure_timestamp := now |}
  end.

(** ** JSON *)

Definition get_string (key : string) (l : list (text * Value)) : option text :=
  match object_get (chars key) l with Some (String_ s) => Some s | _ => None end.

(** An optional field is absent or null. *)
Definition get_opt_string (key : string) (l : list (text * Value)) : option (option text) :=
  match object_get (chars key) l with
  | Some (String_ s) => Some (Some s)
  | None | Some Null => Some None
  | _ => None
  end.

Definition opt_string (o : option text) : Value :=
  match o with Some s => String_ s | None => Null end.

Definition field (key : string) (v : Value) : text * Value := (chars key, v).

(** [LangServerResult] is tagged by its status. *)
Definition result_to_value {L S} `{LangServerSuccess L S} (r : LangServerResult L) : option Value :=
  match r with
  | LangFailure f =>
      Some (Object [field "status" (String_ (chars "failure"));
                    field "executionId" (String_ (lf_execution_id f));
                    field "error" (Object [field "kind" (String_ (lf_kind f));
                                           field "message" (String_ (lf_message f))])])
  | LangSuccess s =>
      match ls_to_value s with
      | Some (Object l) => Some (Object (field "status" (String_ (chars "success")) :: l))
      | _ => None
      end
  end.

Definition failure_from_value (l : list (text * Value)) : option LangServerFailure :=
  id ← match object_get (chars "executionId") l with
       | Some (String_ s) => Some s
       | None => Some []
       | _ => None
       end;
  match object_get (chars "error") l with
  | Some (Object e) =>
      kind ← get_string "kind" e;
      message ← get_string "message" e;
      Some {| lf_execution_id := id; lf_kind := kind; lf_message := message |}
  | _ => None
  end.

Definition without (key : string) (l : list (text * Value)) : list (text * Value) :=
  filter (λ '(k, _), k ≠ chars key) l.

Definition result_from_value {L S} `{LangServerSuccess L S} (v : Value) : option (LangServerResult L) :=
  match v with
  | Object l =>
      status ← get_string "status" l;
      if decide (status = chars "failure") then LangFailure <$> failure_from_value (without "status" l)
      else if decide (status = chars "success") then LangSuccess <$> ls_from_value (Object (without "status" l))
      else None
  | _ => None
  end.

(** ** Results of the kinds of functions *)

Record LangServerResolverFunctionResultSuccess := {
  lr_execution_id : text;
  lr_data : Value;
  lr_unset : bool;
}.

Record ResolverFunctionResultSuccess := {
  rf_execution_id : text;
  rf_data : Value;
  rf_unset : bool;
  rf_timestamp : N;
}.

#[export] Instance resolver_success :
  LangServerSuccess LangServerResolverFunctionResultSuccess ResolverFunctionResultSuccess := {|
  ls_to_value v := Some (Object [field "executionId" (String_ (lr_execution_id v));
                                 field "data" (lr_data v); field "unset" (Bool (lr_unset v))]);
  ls_from_value v :=
    match v with
    | Object l =>
        id ← get_string "executionId" l;
        match object_get (chars "unset") l with
        | Some (Bool unset) =>
            Some {| lr_execution_id := id; lr_data := default Null (object_get (chars "data") l);
                    lr_unset := unset |}
        | _ => None
        end
    | _ => None
    end;
  ls_into now v := {| rf_execution_id := lr_execution_id v; rf_data := lr_data v;
                      rf_unset := lr_unset v; rf_timestamp := now |};
|}.

Record LangServerValidationResultSuccess := {
  lv_execution_id : text;
  lv_valid : bool;
  lv_message : option text;
}.

Record ValidationResultSuccess := {
  vr_execution_id : text;
  vr_valid : bool;
  vr_message : option text;
}.

#[export] Instance validation_success :
  LangServerSuccess LangServerValidationResultSuccess ValidationResultSuccess := {|
  ls_to_value v := Some (Object [field "executionId" (String_ (lv_execution_id v));
                                 field "valid" (Bool (lv_valid v)); field "message" (opt_string (lv_message v))]);
  ls_from_value v :=
    match v with
    | Object l =>
        id ← get_string "executionId" l;
        match object_get (chars "valid") l with
        | Some (Bool valid) =>
            message ← get_opt_string "message" l;
            Some {| lv_execution_id := id; lv_valid := valid; lv_message := message |}
        | _ => None
        end
    | _ => None
    end;
  ls_into _ v := {| vr_execution_id := lv_execution_id v; vr_valid := lv_valid v; vr_message := lv_message v |};
|}.

(** [ResourceStatus]. *)
Inductive ResourceStatus : Set := StatusError | StatusOk | StatusWarning.

Definition status_to_string (s : ResourceStatus) : text :=
  chars (match s with StatusError => "error" | StatusOk => "ok" | StatusWarning => "warning" end).

Definition status_from_string (s : text) : option ResourceStatus :=
  if decide (s = chars "error") then Some StatusError
  else if decide (s = chars "ok") then Some StatusOk
  else if decide (s = chars "warning") then Some StatusWarning else None.

Record LangServerActionRunResultSuccess := {
  la_execution_id : text;
  la_payload : option Value;
  la_health : ResourceStatus;
  la_message : option text;
  la_error : option text;
}.

Record ActionRunResultSuccess := {
  ar_execution_id : text;
  ar_payload : option Value;
  ar_status : ResourceStatus;
  ar_message : option text;
  ar_error : option text;
}.

#[export] Instance action_run_success :
  LangServerSuccess LangServerActionRunResultSuccess ActionRunResultSuccess := {|
  ls_to_value v := Some (Object [field "executionId" (String_ (la_execution_id v));
                                 field "payload" (default Null (la_payload v));
                                 field "health" (String_ (status_to_string (la_health v)));
                                 field "message" (opt_string (la_message v));
                                 field "error" (opt_string (la_error v))]);
  ls_from_value v :=
    match v with
    | Object l =>
        id ← get_string "executionId" l;
        health ← get_string "health" l;
        health ← status_from_string health;
        message ← get_opt_string "message" l;
        error ← get_opt_string "error" l;
        Some {| la_execution_id := id;
                la_payload := match object_get (chars "payload") l with
                              | None | Some Null => None
                              | Some payload => Some payload
                              end;
                la_health := health; la_message := message; la_error := error |}
    | _ => None
    end;
  ls_into _ v := {| ar_execution_id := la_execution_id v; ar_payload := la_payload v;
                    ar_status := la_health v; ar_message := la_message v; ar_error := la_error v |};
|}.

(** ** No string is made up *)

Lemma object_get_strings key l v : object_get key l = Some v → strings v ⊆ strings (Object l).
Proof.
  unfold object_get. intros ([k x] & Hf & [= ->])%fmap_Some. intros s Hs. cbn.
  apply list_elem_of_bind. exists (k, x). split; [done|]. apply list_elem_of_In.
  by apply find_some in Hf as [? _].
Qed.

Lemma get_string_in key l s : get_string key l = Some s → s ∈ strings (Object l).
Proof.
  unfold get_string. destruct (object_get (chars key) l) as [v|] eqn:Hv; [|done].
  destruct v; try done. intros [= ->]. apply (object_get_strings _ _ _ Hv). set_solver.
Qed.

Lemma get_opt_string_in key l o : get_opt_string key l = Some o → strings (opt_string o) ⊆ strings (Object l).
Proof.
  unfold get_opt_string. destruct (object_get (chars key) l) as [v|] eqn:Hv.
  - destruct v; try done; intros [= <-]; [set_solver|]. apply (object_get_strings _ _ _ Hv).
  - intros [= <-]. set_solver.
Qed.

Lemma default_get_strings key l : strings (default Null (object_get key l)) ⊆ strings (Object l).
Proof. destruct (object_get key l) eqn:Hv; [by eapply object_get_strings|set_solver]. Qed.

Lemma status_roundtrip s h : status_from_string s = Some h → status_to_string h = s.
Proof. unfold status_from_string. repeat case_decide; subst; by intros [= <-]. Qed.

(** The strings of an object are those of its fields. *)
Lemma strings_fields l s : s ∈ strings (Object l) ↔ ∃ k v, (k, v) ∈ l ∧ s ∈ strings v.
Proof.
  cbn. rewrite list_elem_of_bind. split.
  - intros ([k v] & Hs & Hin). eauto.
  - intros (k & v & Hin & Hs). by exists (k, v).
Qed.

#[export] Instance resolver_success_ok :
  LangServerSuccessOk LangServerResolverFunctionResultSuccess ResolverFunctionResultSuccess.
Proof.
  intros v x w. unfold ls_from_value, ls_to_value, resolver_success.
  destruct v as [| | | | |l]; try done. intros (id & Hid & H)%bind_Some.
  destruct (object_get (chars "unset") l) as [[| unset | | | |]|]; try done. injection H as <-. intros [= <-] s.
  cbn. rewrite !elem_of_cons, elem_of_app. intros [->|[Hs|Hs]]; [by eapply get_string_in| |set_solver].
  by apply (default_get_strings (chars "data") l).
Qed.

#[export] Instance validation_success_ok :
  LangServerSuccessOk LangServerValidationResultSuccess ValidationResultSuccess.
Proof.
  intros v x w. unfold ls_from_value, ls_to_value, validation_success.
  destruct v as [| | | | |l]; try done. intros (id & Hid & H)%bind_Some.
  destruct (object_get (chars "valid") l) as [[| valid | | | |]|]; try done.
  apply bind_Some in H as (m & Hm & [= <-]). intros [= <-] s.
  cbn. rewrite !elem_of_cons, elem_of_app. intros [->|[Hs|Hs]]; [by eapply get_string_in| |set_solver].
  by apply (get_opt_string_in _ _ _ Hm).
Qed.

#[export] Instance action_run_success_ok :
  LangServerSuccessOk LangServerActionRunResultSuccess ActionRunResultSuccess.
Proof.
  intros v x w. unfold ls_from_value, ls_to_value, action_run_success.
  destruct v as [| | | | |l]; try done.
  intros (id & Hid & (h & Hh & (h' & Hh' & (m & Hm & (e & He & [= <-])%bind_Some)%bind_Some)%bind_Some)
    %bind_Some)%bind_Some. intros [= <-] s.
  cbn. rewrite (status_roundtrip _ _ Hh'). rewrite !elem_of_cons, !elem_of_app, !elem_of_cons, !elem_of_app.
  intros [->|[Hs|[->|[Hs|[Hs|Hs]]]]]; [by eapply get_string_in| |by eapply get_string_in| | |set_solver].
  - apply (default_get_strings (chars "payload") l). destruct (object_get _ l) as [[]|]; done.
  - by apply (get_opt_string_in _ _ _ Hm).
  - by apply (get_opt_string_in _ _ _ He).
Qed.
