(* ===== verification/CycloneServer.v ===== *)
(** * Running a function: the server

    Model of [src/lib/cyclone-server/src/execution.rs] and of [handle_socket] in
    [src/lib/cyclone-server/src/handlers.rs]: a websocket is told to start, sends
    its request, and gets what the language server writes and returns, with
    credentials redacted, until the end. What the websocket, the child process and
    the clock do is the record [World]; what the server does with the websocket is
    the list of messages it sent, and whether it closed it. Where the code waits without
    a timeout, it may wait for ever ([Never]); a child process that writes for ever is
    described by what it wrote so far. *)

From S2P Require Import Prelude Redaction CycloneSecrets CycloneMessages.
From Stdlib Require Import NArith Strings.String.
From stdpp Require Import base tactics sets list.

Abbreviation text := (list N) (only parsing).

Inductive ExecutionError : Type :=
| ChildIO (stream : string)
| ChildRecvIO
| ChildSendIO
| ChildShutdown
| ChildSpawn
| JSONDeserialize
| JSONSerialize
| KeyPair (e : DecryptionKeyError)
| SendTimeout
| UnexpectedMessageType (m : WebSocketMessage)
| WSClose
| WSRecvClosed
| WSRecvIO
| WSSendIO.

(** How a send with a timeout ends. *)
Inductive Sending : Set := Sent | SendFailed | Elapsed.

Definition send_with_timeout (s : Sending) (failed : ExecutionError) : result ExecutionError unit :=
  match s with Sent => Ok tt | SendFailed => Err failed | Elapsed => Err SendTimeout end.

(** What the outside does. *)
Record World (L : Type) := {
  ws_start : Sending;
  ws_next : Await (option (result unit WebSocketMessage));
  child_spawn : bool;
  child_stdin : bool;
  child_stderr : bool;
  child_stdout : bool;
  stdin_send : Sending;
  stdin_close : Sending;
  (** What the child process writes, and whether it closes its output then; otherwise
      nothing more comes. *)
  stdout : list (N * result unit (LangServerMessage L));
  stdout_ends : bool;
  ws_send : nat → Await bool;
  ws_finish : Sending;
  ws_fail : Await bool;
  ws_close : Await bool;
  shutdown : Await bool;
}.
Arguments ws_start {L}. Arguments ws_next {L}. Arguments child_spawn {L}. Arguments child_stdin {L}.
Arguments child_stderr {L}. Arguments child_stdout {L}. Arguments stdin_send {L}.
Arguments stdin_close {L}. Arguments stdout {L}. Arguments stdout_ends {L}. Arguments ws_send {L}. Arguments ws_finish {L}.
Arguments ws_fail {L}. Arguments ws_close {L}. Arguments shutdown {L}.

(** A request is read from its JSON text. *)
Class RequestJson (R : Type) := request_from_str : text → option R.

Module Server.
Section server.
Context {R L Su : Type} {K : SealedBox} {J : JsonPointer} `{RQ : !CycloneRequest R} {RJ : RequestJson R}.
Context {C : LangServerSuccess L Su} {MJ : MessageJson Su}.

(** ** Redaction *)

Definition filter_output (output : LangServerOutput) (credentials : list text) : LangServerOutput :=
  {| ls_execution_id := ls_execution_id output; ls_stream := ls_stream output;
     ls_level := ls_level output; ls_group := ls_group output;
     ls_message := redact credentials (ls_message output) |}.

Definition filter_result (fuel : nat) (r : LangServerResult L) (credentials : list text) :
    option (result ExecutionError (LangServerResult L)) :=
  match result_to_value r with
  | None => Some (Err JSONSerialize)
  | Some value =>
      value ← redact_value fuel credentials value;
      Some (ok_or (result_from_value value) JSONDeserialize)
  end.

(** The lines of the standard error stream that are printed. *)
Definition handle_stderr (stderr : list (result unit text)) (credentials : list text) : list text :=
  (fix go stderr := match stderr with
    | Ok line :: stderr => redact credentials line :: go stderr
    | _ => []
    end) stderr.

(** ** The protocol *)

Definition read_request (w : World L) : Await (result ExecutionError R) :=
  match ws_next w with
  | Never => Never
  | Answered (Some (Ok (Text json_str))) => Answered (ok_or (request_from_str json_str) JSONDeserialize)
  | Answered (Some (Ok unexpected)) => Answered (Err (UnexpectedMessageType unexpected))
  | Answered (Some (Err _)) => Answered (Err WSRecvIO)
  | Answered None => Answered (Err WSRecvClosed)
  end.

(** Serialize and send: what was sent, and how it ended. *)
Definition send_message (m : Message.t Su) (s : Sending) : list text * result ExecutionError unit :=
  match serialize_to_string m with
  | None => ([], Err JSONSerialize)
  | Some t => (match s with Sent => [t] | _ => [] end, send_with_timeout s WSSendIO)
  end.

Definition child_send_function_request (fuel : nat) (w : World L) (request : R) :
    option (result ExecutionError unit) :=
  value ← decrypt_request fuel request;
  Some (match value with
        | Err e => Err (KeyPair e)
        | Ok _ =>
            _ ← send_with_timeout (stdin_send w) ChildSendIO;
            send_with_timeout (stdin_close w) ChildSendIO
        end).

(** The child process. *)
Definition run_child (fuel : nat) (w : World L) (request : R) :
    option (result ExecutionError unit) :=
  if negb (child_spawn w) then Some (Err ChildSpawn)
  else if negb (child_stdin w) then Some (Err (ChildIO "stdin"))
  else r ← child_send_function_request fuel w request;
       Some (_ ← r;
             if negb (child_stderr w) then Err (ChildIO "stderr")
             else if negb (child_stdout w) then Err (ChildIO "stdout") else Ok tt).

(** What is sent, and the credentials to redact. *)
Definition start (fuel : nat) (w : World L) :
    option (list text * Await (result ExecutionError (list text))) :=
  let '(sent, r) := send_message Message.Start (ws_start w) in
  match r with
  | Err e => Some (sent, Answered (Err e))
  | Ok _ =>
      match read_request w with
      | Never => Some (sent, Never)
      | Answered (Err e) => Some (sent, Answered (Err e))
      | Answered (Ok request) =>
          credentials ← list_secrets fuel request;
          match credentials with
          | Err e => Some (sent, Answered (Err (KeyPair e)))
          | Ok credentials =>
              r ← run_child fuel w request;
              Some (sent, Answered (_ ← r; Ok credentials))
          end
      end
  end.

(** A message of the language server, with credentials redacted. *)
Definition translate (fuel : nat) (credentials : list text) (now : N)
    (ls_result : result unit (LangServerMessage L)) : option (result ExecutionError (Message.t Su)) :=
  match ls_result with
  | Err _ => Some (Err ChildRecvIO)
  | Ok (LangOutput output) =>
      Some (Ok (Message.OutputStream (output_from now (filter_output output credentials))))
  | Ok (LangResult r) =>
      r ← filter_result fuel r credentials;
      Some (r ← r; Ok (Message.Result (result_from now r)))
  end.

(** On its way to the websocket. *)
Definition forward (fuel : nat) (credentials : list text) (now : N)
    (ls_result : result unit (LangServerMessage L)) : option (result ExecutionError text) :=
  msg ← translate fuel credentials now ls_result;
  Some (msg ← msg; ok_or (serialize_to_string msg) JSONSerialize).

(** The loop, from the [i]-th message on. *)
Fixpoint process (fuel : nat) (w : World L) (credentials : list text) (i : nat)
    (messages : list (N * result unit (LangServerMessage L))) (sent : list text) :
    option (list text * Await (result ExecutionError unit)) :=
  match messages with
  | [] => Some (sent, if stdout_ends w then Answered (Ok tt) else Never)
  | (now, ls_result) :: messages =>
      msg ← forward fuel credentials now ls_result;
      match msg with
      | Err e => Some (sent, Answered (Err e))
      | Ok t =>
          match ws_send w i with
          | Answered true => process fuel w credentials (S i) messages (sent ++ [t])
          | Answered false => Some (sent, Answered (Err WSSendIO))
          | Never => Some (sent, Never)
          end
      end
  end.

(** What is sent, whether the websocket is closed, and the first error in the order
    of the steps. *)
Definition finish (w : World L) : list text * Await bool * Await (result ExecutionError unit) :=
  let '(sent, finished) := send_message Message.Finish (ws_finish w) in
  (sent, ws_close w,
   match ws_close w, shutdown w with
   | Answered closed, Answered shutdown =>
       let closed := if closed then Ok tt else Err WSClose in
       let shutdown := if shutdown then Ok tt else Err ChildShutdown in
       Answered match finished, closed, shutdown with
       | Ok _, Ok _, Ok _ => Ok tt
       | Ok _, Ok _, Err err | Ok _, Err err, Ok _ | Err err, Ok _, Ok _ => Err err
       | Ok _, Err err, Err _ => Err err
       | Err err, Ok _, Err _ => Err err
       | Err err, Err _, Ok _ => Err err
       | Err err, Err _, Err _ => Err err
       end
   | _, _ => Never
   end).

Definition fail_to_process (w : World L) (message : text) : list text * Await bool :=
  match serialize_to_string (Message.fail message) with
  | None => ([], Answered false)
  | Some t =>
      match ws_fail w with
      | Answered true => ([t], ws_close w)
      | Answered false => ([], Answered false)
      | Never => ([], Never)
      end
  end.

(** What is sent, and whether the websocket is closed at the end, if it comes to an
    end. The texts of errors are made by [explain]. *)
Definition handle_socket (explain : ExecutionError → text) (fuel : nat) (w : World L) :
    option (list text * Await bool) :=
  '(sent, proto) ← start fuel w;
  match proto with
  | Never => Some (sent, Never)
  | Answered (Err _) =>
      let '(more, closed) := fail_to_process w (chars "failed to start protocol") in
      Some (sent ++ more, closed)
  | Answered (Ok credentials) =>
      '(sent, proto) ← process fuel w credentials 0 (stdout w) sent;
      match proto with
      | Never => Some (sent, Never)
      | Answered (Err err) =>
          let '(more, closed) := fail_to_process w (chars "failed to process protocol: " ++ explain err) in
          Some (sent ++ more, closed)
      | Answered (Ok _) => let '(more, closed, _) := finish w in Some (sent ++ more, closed)
      end
  end.

End server.
End Server.

(** ** What is sent holds no credential *)

Section redaction.
Context {L Su : Type} {C : LangServerSuccess L Su} {CO : LangServerSuccessOk L Su}.

(** No credential occurs in a string. *)
Definition clean (credentials : list text) (s : text) : Prop := Forall (λ c, ¬ occurs c s) credentials.

Lemma clean_nil credentials : Forall redactable credentials → clean credentials [].
Proof using Type.
  intros Hr. eapply Forall_impl; [exact Hr|]. intros c [Hc _] (b & a & Hs). symmetry in Hs.
  apply app_eq_nil in Hs as [_ [? _]%app_eq_nil]. done.
Qed.

(** A result, by the strings it is written with. *)
Definition result_strings (r : LangServerResult L) : list text :=
  match result_to_value r with Some v => strings v | None => [] end.

Lemma without_strings key l : strings (Object (without key l)) ⊆ strings (Object l).
Proof using Type.
  intros s. rewrite !strings_fields. intros (k & v & Hin & Hs). exists k, v. split; [|done].
  by apply list_elem_of_filter in Hin as [_ ?].
Qed.

(** What is read from a value has the strings of the value, or none. *)
Lemma result_from_value_strings v r : result_from_value v = Some r →
  ∀ s, s ∈ result_strings r → s ∈ strings v ∨ s = [].
Proof using CO.
  unfold result_from_value, result_strings. destruct v as [| | | | |l]; try done.
  intros (status & Hst & Hr)%bind_Some s. pose proof (get_string_in _ _ _ Hst) as Hin.
  pose proof (without_strings "status" l) as Hw. case_decide as Hf; [|case_decide as Hsu; [|done]].
  - apply fmap_Some in Hr as (f & Hfv & ->). unfold failure_from_value in Hfv.
    apply bind_Some in Hfv as (id & Hid & Hfv).
    destruct (object_get (chars "error") (without "status" l)) as [e|] eqn:He; [|done].
    destruct e as [| | | | |e]; try done.
    apply bind_Some in Hfv as (k & Hk & (m & Hm & [= <-])%bind_Some).
    apply object_get_strings in He. unfold result_to_value.
    rewrite strings_fields. intros (key & v & Hkv & Hs). rewrite !elem_of_cons in Hkv.
    destruct Hkv as [Hkv|[Hkv|[Hkv|Hkv]]]; [injection Hkv as -> ->..|set_solver].
    + left. rewrite <-Hf in Hs. set_solver.
    + cbn in Hs. apply list_elem_of_singleton in Hs as ->.
      destruct (object_get (chars "executionId") (without "status" l)) as [x|] eqn:Hx.
      * destruct x; try done. injection Hid as ->. left. apply Hw, (object_get_strings _ _ _ Hx). set_solver.
      * injection Hid as <-. by right.
    + left. apply Hw, He. apply get_string_in in Hk, Hm. apply strings_fields in Hs as (k' & v' & Hkv & Hs).
      rewrite !elem_of_cons in Hkv. destruct Hkv as [Hkv|[Hkv|Hkv]]; [injection Hkv as -> ->..|set_solver];
        cbn in Hs; apply list_elem_of_singleton in Hs as ->; done.
  - apply fmap_Some in Hr as (x & Hx & ->). unfold result_to_value.
    destruct (ls_to_value x) as [w|] eqn:Hw'; [|set_solver]. pose proof (reads_strings _ _ _ Hx Hw') as Hsub.
    destruct w; set_solver.
Qed.

(** Filtering a result ends, and what it gives holds no credential. *)
Lemma filter_result_clean credentials r : ∃ n, ∀ fuel, n ≤ fuel →
  ∃ out, Server.filter_result fuel r credentials = Some out ∧
    (Forall redactable credentials → ∀ r', out = Ok r' → Forall (clean credentials) (result_strings r')).
Proof using CO.
  unfold Server.filter_result. destruct (result_to_value r) as [v|];
    [|exists 0; intros fuel _; eexists; by split].
  exists (S (value_size v)). intros fuel Hf. rewrite redact_value_maps by lia. cbn [mbind option_bind].
  eexists. split; [done|]. intros Hr r' Hr'. apply Forall_forall. intros s Hs.
  destruct (result_from_value _) as [r0|] eqn:Hv; [|done]. injection Hr' as ->.
  destruct (result_from_value_strings _ _ Hv s Hs) as [Hin| ->]; [|by apply clean_nil].
  rewrite strings_map_strings in Hin. apply list_elem_of_fmap in Hin as (s0 & -> & _).
  by apply redact_safe.
Qed.

Context {MJ : MessageJson Su}.

(** A message that holds no credential. *)
Definition carries_none (credentials : list text) (m : Message.t Su) : Prop :=
  match m with
  | Message.OutputStream output => clean credentials (message output)
  | Message.Result r => ∃ now r', r = result_from now r' ∧ Forall (clean credentials) (result_strings r')
  | _ => True
  end.

(** Texts of messages that hold no credential. *)
Definition safe (credentials : list text) (ts : list text) : Prop :=
  Forall (λ t, ∃ m, serialize_to_string m = Some t ∧ carries_none credentials m) ts.

Lemma forward_clean credentials now m : ∃ n, ∀ fuel, n ≤ fuel →
  ∃ out, Server.forward fuel credentials now m = Some out ∧
    (Forall redactable credentials → ∀ t, out = Ok t → safe credentials [t]).
Proof using CO.
  assert (∀ msg : Message.t Su, carries_none credentials msg → ∀ t,
    ok_or (serialize_to_string msg) JSONSerialize = Ok t → safe credentials [t]) as Hmsg.
  { intros msg Hc t Ht. destruct (serialize_to_string msg) eqn:Hs; [|done]. injection Ht as ->.
    constructor; [|constructor]. eauto. }
  unfold Server.forward, Server.translate. destruct m as [[output|r]|].
  - exists 0. intros fuel _. eexists. split; [done|]. intros Hr t Ht. eapply Hmsg; [|exact Ht].
    apply redact_safe, Hr.
  - destruct (filter_result_clean credentials r) as [n Hn]. exists n. intros fuel Hf.
    destruct (Hn fuel Hf) as (out & Ho & Hout). rewrite Ho. cbn [mbind option_bind]. eexists. split; [done|].
    intros Hr t Ht. destruct out as [r'|]; cbn in Ht; [|done]. eapply Hmsg; [|exact Ht].
    exists now, r'. split; [done|]. by apply Hout.
  - exists 0. intros fuel _. eexists. by split.
Qed.

Lemma process_clean w credentials ms : ∃ n, ∀ fuel, n ≤ fuel → ∀ i sent, ∃ ts r,
  Server.process fuel w credentials i ms sent = Some (sent ++ ts, r) ∧
    (Forall redactable credentials → safe credentials ts).
Proof using CO.
  induction ms as [|[now m] ms [n IH]].
  { exists 0. intros fuel _ i sent. eexists [], _. rewrite app_nil_r. split; [done|]. intros _. constructor. }
  destruct (forward_clean credentials now m) as [k Hk]. exists (n + k). intros fuel Hf i sent.
  cbn [Server.process]. destruct (Hk fuel) as (out & -> & Hout); [lia|]. cbn [mbind option_bind].
  destruct out as [t|e]; [destruct (ws_send w i) as [|[]]|];
    [eexists [], _; rewrite app_nil_r; split; [done|]; intros _; constructor| | |].
  - destruct (IH fuel ltac:(lia) (S i) (sent ++ [t])) as (ts & r & -> & Hts).
    exists (t :: ts), r. rewrite <-(assoc_L (++)). split; [done|]. intros Hr.
    specialize (Hout Hr t eq_refl). constructor; [by apply Forall_cons in Hout as [? _]|by apply Hts].
  - eexists [], _. rewrite app_nil_r. split; [done|]. intros _. constructor.
  - eexists [], _. rewrite app_nil_r. split; [done|]. intros _. constructor.
Qed.

Lemma send_message_safe credentials m s : carries_none credentials m →
  safe credentials (fst (Server.send_message m s)).
Proof using Type.
  intros Hm. unfold Server.send_message. destruct (serialize_to_string m) eqn:Ht; [|constructor].
  destruct s; cbn; repeat constructor. eauto.
Qed.

End redaction.

Section theorems.
Context {L Su : Type} {C : LangServerSuccess L Su} {CO : LangServerSuccessOk L Su} {MJ : MessageJson Su}.
Context {K : SealedBox} {J : JsonPointer} {JO : JsonPointerOk J} {RJ : RequestJson ResolverFunctionRequest}.

Lemma safe_app credentials ts us : safe credentials ts → safe credentials us → safe credentials (ts ++ us).
Proof using Type. intros. by apply Forall_app. Qed.

Lemma fail_safe credentials (w : World L) m : safe credentials (fst (Server.fail_to_process w m)).
Proof using Type.
  unfold Server.fail_to_process. destruct (serialize_to_string (Message.fail m)) eqn:Ht; [|constructor].
  destruct (ws_fail w) as [|[]]; [constructor| |constructor]. constructor; [|constructor]. by exists (Message.fail m).
Qed.

Lemma finish_safe credentials (w : World L) : safe credentials (fst (fst (Server.finish w))).
Proof using Type.
  unfold Server.finish. pose proof (send_message_safe credentials Message.Finish (ws_finish w) I) as Hs.
  by destruct (Server.send_message Message.Finish (ws_finish w)).
Qed.

(** Starting sends the start, and gives the credentials of the request. *)
Lemma start_secrets (w : World L) :
  (∀ request : ResolverFunctionRequest, Server.read_request w = Answered (Ok request) →
    Forall (λ c, pointable (properties c)) (data request :: parents request)) →
  ∃ n r, (∀ fuel, n ≤ fuel →
      Server.start (R := ResolverFunctionRequest) fuel w =
        Some (fst (Server.send_message (Su := Su) Message.Start (ws_start w)), r)) ∧
    ∀ credentials, r = Answered (Ok credentials) → ∃ request, Server.read_request w = Answered (Ok request) ∧
      ∀ fuel, n ≤ fuel → list_secrets fuel request = Some (Ok credentials).
Proof using JO.
  intros Hp. unfold Server.start. destruct (Server.send_message Message.Start (ws_start w)) as [sent [[]|e]];
    cbn [fst]; [|by exists 0, (Answered (Err e))].
  destruct (Server.read_request w) as [|[request|e]] eqn:Hr; [by exists 0, Never| |by exists 0, (Answered (Err e))].
  destruct (request_secrets request (Hp request eq_refl)) as (d & l & _ & n & Hn).
  destruct l as [credentials|e].
  - assert (∃ r, ∀ fuel, n ≤ fuel → Server.run_child fuel w request = Some r) as [r Hrun].
    { unfold Server.run_child, Server.child_send_function_request.
      destruct (child_spawn w); cbn [negb]; [|by eexists]. destruct (child_stdin w); cbn [negb]; [|by eexists].
      eexists. intros fuel Hf. destruct (Hn fuel Hf) as [-> _]. cbn [mbind option_bind]. done. }
    exists n, (Answered (r ≫= λ _, Ok credentials)). split.
    + intros fuel Hf. destruct (Hn fuel Hf) as [_ ->]. cbn [mbind option_bind]. by rewrite Hrun.
    + intros cs Hcs. exists request. split; [done|]. intros fuel Hf. destruct (Hn fuel Hf) as [_ ->].
      destruct r; cbn in Hcs; congruence.
  - exists n, (Answered (Err (KeyPair e))). split; [|done]. intros fuel Hf. by destruct (Hn fuel Hf) as [_ ->].
Qed.

(** C7: What is sent is redacted, whatever the websocket, the child process and the
    language server do, also when the server waits for ever in the end: every text that
    is sent is that of a message, and no credential of the request occurs in the line of
    an output (its field [message]) or in a string value of a result. Not covered are
    the other fields of an output, the keys of the objects of a result, and the text of
    a message that tells of a failure, which has the error in it. Hypotheses: the keys
    on the way to the secrets of the request are different and have no slash or tilde,
    and each credential is not empty, has no brackets and is no part of the word
    redacted. *)
Theorem sent_messages_are_redacted explain (w : World L) :
  (∀ request : ResolverFunctionRequest, Server.read_request w = Answered (Ok request) →
    Forall (λ c, pointable (properties c)) (data request :: parents request)) →
  ∃ n, ∀ fuel, n ≤ fuel → ∃ sent closed,
    Server.handle_socket (R := ResolverFunctionRequest) explain fuel w = Some (sent, closed) ∧
    ∀ request credentials, Server.read_request w = Answered (Ok request) →
      list_secrets fuel request = Some (Ok credentials) → Forall redactable credentials →
      safe credentials sent.
Proof using CO JO.
  intros Hp. destruct (start_secrets w Hp) as (n & r & Hstart & Hcreds). unfold Server.handle_socket.
  pose proof (λ cs, send_message_safe cs Message.Start (ws_start w) I) as Hsent.
  set (sent := fst (Server.send_message Message.Start (ws_start w))) in *.
  destruct r as [|[credentials|e]].
  1: { exists n. intros fuel Hf. rewrite Hstart by done. cbn [mbind option_bind]. eexists _, _. split; [done|]. auto. }
  2: { exists n. intros fuel Hf. rewrite Hstart by done. cbn [mbind option_bind].
       pose proof (λ cs, fail_safe cs w (chars "failed to start protocol")) as Hfail.
       destruct (Server.fail_to_process w (chars "failed to start protocol")) as [more closed].
       eexists _, _. split; [done|]. intros request cs _ _ _. by apply safe_app. }
  destruct (process_clean w credentials (stdout w)) as [m Hm].
  destruct (Hcreds credentials eq_refl) as (request & Hreq & Hlist).
  exists (n + m). intros fuel Hf. rewrite Hstart by lia. cbn [mbind option_bind].
  destruct (Hm fuel ltac:(lia) 0 sent) as (ts & r & -> & Hts). cbn [mbind option_bind].
  assert (∀ more (closed : Await bool), (∀ cs, safe cs more) → ∃ sent' closed',
    Some ((sent ++ ts) ++ more, closed) = Some (sent', closed') ∧
    ∀ (request : ResolverFunctionRequest) cs, Server.read_request w = Answered (Ok request) →
      list_secrets fuel request = Some (Ok cs) →
      Forall redactable cs → safe cs sent') as Hend.
  { intros more closed Hmore. eexists _, _. split; [done|]. intros request' cs Hreq' Hcs Hr.
    assert (request' = request) as -> by congruence. rewrite Hlist in Hcs by lia. injection Hcs as <-.
    auto using safe_app. }
  destruct r as [|[[]|e]].
  - rewrite <-(app_nil_r (sent ++ ts)). apply Hend. intros cs. constructor.
  - pose proof (λ cs, finish_safe cs w) as Hfin. destruct (Server.finish w) as [[more closed] ?]. by apply Hend.
  - pose proof (λ cs, fail_safe cs w (chars "failed to process protocol: " ++ explain e)) as Hfail.
    destruct (Server.fail_to_process w (chars "failed to process protocol: " ++ explain e)) as [more closed].
    by apply Hend.
Qed.

End theorems.
