(* ===== verification/CycloneClient.v ===== *)
(** * Running a function: the client

    Model of [src/lib/cyclone-client/src/execution.rs]: the client waits for the
    server to start, sends its request, passes on the progress it receives, keeps
    the result, and returns it when the websocket has been closed. The websocket is
    the list of what polling it answers; at the end of the list it is closed, or nothing
    comes any more, for ever: the client has no timeout. *)

From S2P Require Import Prelude Redaction CycloneMessages.
From Stdlib Require Import NArith.
From stdpp Require Import base tactics sets list.

Abbreviation text := (list N) (only parsing).

Inductive ExecutionError (S : Type) : Type :=
| ClosingWithoutResult
| FinishBeforeResult
| JSONDeserialize
| JSONSerialize
| MessageAfterFinish (m : WebSocketMessage)
| MessageBeforeStart (m : Message.t S)
| UnexpectedMessage (m : Message.t S)
| UnexpectedMessageType (m : WebSocketMessage)
| WSClosedBeforeFinish
| WSClosedBeforeStart
| WSReadIO
| WSSendIO.
Arguments ClosingWithoutResult {S}. Arguments FinishBeforeResult {S}. Arguments JSONDeserialize {S}.
Arguments JSONSerialize {S}. Arguments MessageAfterFinish {S} _. Arguments MessageBeforeStart {S} _.
Arguments UnexpectedMessage {S} _. Arguments UnexpectedMessageType {S} _.
Arguments WSClosedBeforeFinish {S}. Arguments WSClosedBeforeStart {S}. Arguments WSReadIO {S}.
Arguments WSSendIO {S}.

(** [Poll]. *)
Inductive Poll (A : Type) : Type := Pending | Ready (a : A).
Arguments Pending {A}.
Arguments Ready {A} _.

(** A websocket: what polling it answers, and whether it is closed then. *)
Record WebSocketStream := {
  polls : list (Poll (result unit WebSocketMessage));
  closes : bool;
}.

(** [stream.next()], polled once. *)
Definition poll_stream (s : WebSocketStream) :
    Poll (option (result unit WebSocketMessage)) * WebSocketStream :=
  match polls s with
  | [] => (if closes s then Ready None else Pending, s)
  | Pending :: ps => (Pending, {| polls := ps; closes := closes s |})
  | Ready m :: ps => (Ready (Some m), {| polls := ps; closes := closes s |})
  end.

(** [stream.next().await]. *)
Definition next_message (s : WebSocketStream) : Await (option (result unit WebSocketMessage) * WebSocketStream) :=
  (fix go ps := match ps with
    | [] => if closes s then Answered (None, {| polls := []; closes := closes s |}) else Never
    | Pending :: ps => go ps
    | Ready m :: ps => Answered (Some m, {| polls := ps; closes := closes s |})
    end) (polls s).

Module Client.
Section client.
Context {Su : Type} {MJ : MessageJson Su}.

Record ExecutionStarted := {
  stream : WebSocketStream;
  saved : option (FunctionResult Su);
}.

(** [request] is the text of the request, [sent] how sending it ends. *)
Definition start (s : WebSocketStream) (request : option text) (sent : Await bool) :
    Await (list text * result (ExecutionError Su) ExecutionStarted) :=
  match next_message s with
  | Never => Never
  | Answered (m, s) =>
      match m with
      | Some (Ok (Text json_str)) =>
          match deserialize_from_str json_str with
          | None => Answered ([], Err JSONDeserialize)
          | Some Message.Start =>
              match request with
              | None => Answered ([], Err JSONSerialize)
              | Some msg =>
                  match sent with
                  | Answered true => Answered ([msg], Ok {| stream := s; saved := None |})
                  | Answered false => Answered ([], Err WSSendIO)
                  | Never => Never
                  end
              end
          | Some unexpected => Answered ([], Err (MessageBeforeStart unexpected))
          end
      | Some (Ok unexpected) => Answered ([], Err (UnexpectedMessageType unexpected))
      | Some (Err _) => Answered ([], Err WSReadIO)
      | None => Answered ([], Err WSClosedBeforeStart)
      end
  end.

Definition poll_next (e : ExecutionStarted) :
    Poll (option (result (ExecutionError Su) ProgressMessage)) * ExecutionStarted :=
  let '(polled, s) := poll_stream (stream e) in
  let e := {| stream := s; saved := saved e |} in
  match polled with
  | Ready (Some (Ok (Text json_str))) =>
      match deserialize_from_str json_str with
      | None => (Ready (Some (Err JSONDeserialize)), e)
      | Some Message.Heartbeat => (Ready (Some (Ok Heartbeat)), e)
      | Some (Message.OutputStream output_stream) => (Ready (Some (Ok (Output output_stream))), e)
      | Some (Message.Result function_result) =>
          (Ready (Some (Ok Heartbeat)), {| stream := s; saved := Some function_result |})
      | Some Message.Finish =>
          match saved e with
          | Some _ => (Ready None, e)
          | None => (Ready (Some (Err FinishBeforeResult)), e)
          end
      | Some unexpected => (Ready (Some (Err (UnexpectedMessage unexpected))), e)
      end
  | Ready (Some (Ok unexpected)) => (Ready (Some (Err (UnexpectedMessageType unexpected))), e)
  | Ready (Some (Err _)) => (Ready (Some (Err WSReadIO)), e)
  | Ready None => (Ready (Some (Err WSClosedBeforeFinish)), e)
  | Pending => (Pending, e)
  end.

(** [ExecutionClosing::try_from] and [ExecutionClosing::finish]. *)
Definition finish (e : ExecutionStarted) : Await (result (ExecutionError Su) (FunctionResult Su)) :=
  match saved e with
  | None => Answered (Err ClosingWithoutResult)
  | Some r =>
      match next_message (stream e) with
      | Never => Never
      | Answered (m, _) =>
          Answered match m with
          | Some (Ok Close) | None => Ok r
          | Some (Ok unexpected) => Err (MessageAfterFinish unexpected)
          | Some (Err _) => Err WSReadIO
          end
      end
  end.

(** The next item of the stream of progress; [None]: not within [fuel] polls. *)
Fixpoint next_progress (fuel : nat) (e : ExecutionStarted) :
    option (option (result (ExecutionError Su) ProgressMessage) * ExecutionStarted) :=
  match fuel with
  | O => None
  | S fuel =>
      match poll_next e with
      | (Pending, e) => next_progress fuel e
      | (Ready item, e) => Some (item, e)
      end
  end.

End client.
End Client.
