(* ===== verification/Veritech.v ===== *)
(** * Functions over NATS

    Model of the requests of [src/lib/veritech-server/src/server.rs], of
    [publisher.rs] there, of the client in [src/lib/veritech-client/src/lib.rs], of
    the subjects in [src/lib/veritech-core/src/lib.rs] and of the subscriber in
    [src/lib/nats-subscriber/src/lib.rs]: a request is run by cyclone, its output is
    published as it comes, closed by a final message, and followed by its result;
    the client forwards the output and waits for the result. *)

From S2P Require Import Prelude Redaction CycloneMessages CycloneClient.
From Stdlib Require Import NArith Strings.String.
From stdpp Require Import base tactics sets list.

Abbreviation text := (list N) (only parsing).

(** ** Subjects *)

Definition FINAL_MESSAGE_HEADER_KEY : text := chars "X-Final-Message".

Definition reply_mailbox_for_output (reply_mailbox : text) : text := reply_mailbox ++ chars ".output".
Definition reply_mailbox_for_result (reply_mailbox : text) : text := reply_mailbox ++ chars ".result".

Definition nats_subject (prefix : option text) (suffix : text) : text :=
  match prefix with Some prefix => prefix ++ chars "." ++ suffix | None => suffix end.

Definition nats_resolver_function_subject (prefix : option text) : text :=
  nats_subject prefix (chars "veritech.fn.resolverfunction").
Definition nats_validation_subject (prefix : option text) : text :=
  nats_subject prefix (chars "veritech.fn.validation").
Definition nats_action_run_subject (prefix : option text) : text :=
  nats_subject prefix (chars "veritech.fn.actionrun").
Definition nats_reconciliation_subject (prefix : option text) : text :=
  nats_subject prefix (chars "veritech.fn.reconciliation").
Definition nats_schema_variant_definition_subject (prefix : option text) : text :=
  nats_subject prefix (chars "veritech.fn.schemavariantdefinition").

(** ** NATS *)

Record NatsMessage := {
  subject : text;
  headers : list text;
  data : text;
  reply : option text;
}.

(** The messages that were published, and how often it was tried. *)
Record Nats := {
  attempts : nat;
  published : list NatsMessage;
}.

Class PayloadJson (A : Type) := {
  to_json : A → option text;
  from_json : text → option A;
}.

Class PayloadJsonOk (A : Type) {J : PayloadJson A} :=
  payload_roundtrip a t : to_json a = Some t → from_json t = Some a.

Inductive PublisherError : Set := PublisherJSONSerialize | NatsPublish.

(** ** The subscriber *)

Module Subscriber.
Section subscriber.
Context {A : Type} {J : PayloadJson A}.

Inductive SubscriberError : Type :=
| JSONDeserialize
| NoReplyMailbox (data : text)
| UnexpectedNatsSubscriberClosed (key : text).

Record Request := { payload : A; reply_mailbox : option text }.

Record t := {
  inner : list (Poll NatsMessage);
  final_message_header_key : option text;
  check_for_reply_mailbox : bool;
}.

Definition is_final (s : t) (m : NatsMessage) : bool :=
  match final_message_header_key s with
  | Some key => bool_decide (key ∈ headers m)
  | None => false
  end.

Definition poll_next (s : t) : Poll (option (result SubscriberError Request)) * t :=
  match inner s with
  | Pending :: inner =>
      (Pending, {| inner := inner; final_message_header_key := final_message_header_key s;
                   check_for_reply_mailbox := check_for_reply_mailbox s |})
  | Ready nats_msg :: inner =>
      let s' := {| inner := inner; final_message_header_key := final_message_header_key s;
                   check_for_reply_mailbox := check_for_reply_mailbox s |} in
      if is_final s nats_msg then (Ready None, s')
      else match check_for_reply_mailbox s, reply nats_msg with
           | true, None => (Ready (Some (Err (NoReplyMailbox (data nats_msg)))), s')
           | _, reply_mailbox =>
               match from_json (data nats_msg) with
               | Some payload => (Ready (Some (Ok (Build_Request payload reply_mailbox))), s')
               | None => (Ready (Some (Err JSONDeserialize)), s')
               end
           end
  | [] =>
      match final_message_header_key s with
      | Some key => (Ready (Some (Err (UnexpectedNatsSubscriberClosed key))), s)
      | None => (Ready None, s)
      end
  end.

(** The next item. *)
Fixpoint next (fuel : nat) (s : t) : option (option (result SubscriberError Request) * t) :=
  match fuel with
  | O => None
  | S fuel =>
      match poll_next s with
      | (Pending, s) => next fuel s
      | (Ready item, s) => Some (item, s)
      end
  end.

End subscriber.
Arguments Request : clear implicits.
End Subscriber.

(** ** The server *)

Module VeritechServer.
Section server.
Context {Su : Type} {MJ : MessageJson Su} {OJ : PayloadJson OutputStream} {RJ : PayloadJson (FunctionResult Su)}.
Context (publishes : nat → bool).

Inductive ServerError : Type :=
| Cyclone
| CyclonePool
| Execution (e : ExecutionError Su)
| NoReplyMailboxFound
| Publisher (e : PublisherError).

(** [nats.publish(..)]. *)
Definition publish (m : NatsMessage) (n : Nats) : Nats * result PublisherError unit :=
  if publishes (attempts n)
  then ({| attempts := S (attempts n); published := published n ++ [m] |}, Ok tt)
  else ({| attempts := S (attempts n); published := published n |}, Err NatsPublish).

Definition publish_output (mailbox : text) (output : OutputStream) (n : Nats) :
    Nats * result PublisherError unit :=
  match to_json output with
  | None => (n, Err PublisherJSONSerialize)
  | Some t => publish {| subject := reply_mailbox_for_output mailbox; headers := []; data := t; reply := None |} n
  end.

Definition finalize_output (mailbox : text) (n : Nats) : Nats * result PublisherError unit :=
  publish {| subject := reply_mailbox_for_output mailbox; headers := [FINAL_MESSAGE_HEADER_KEY];
             data := []; reply := None |} n.

Definition publish_result (mailbox : text) (r : FunctionResult Su) (n : Nats) :
    Nats * result PublisherError unit :=
  match to_json r with
  | None => (n, Err PublisherJSONSerialize)
  | Some t => publish {| subject := reply_mailbox_for_result mailbox; headers := []; data := t; reply := None |} n
  end.

(** What the pool and the websocket of a cyclone server do; none of the calls has a
    timeout. *)
Record Execute := {
  pool : Await bool;
  connected : Await bool;
  websocket : WebSocketStream;
  request : option text;
  request_sent : Await bool;
}.

Definition begin (x : Execute) : Await (result ServerError Client.ExecutionStarted) :=
  match pool x with
  | Never => Never
  | Answered false => Answered (Err CyclonePool)
  | Answered true =>
      match connected x with
      | Never => Never
      | Answered false => Answered (Err Cyclone)
      | Answered true =>
          match Client.start (websocket x) (request x) (request_sent x) with
          | Never => Never
          | Answered (_, Ok progress) => Answered (Ok progress)
          | Answered (_, Err e) => Answered (Err (Execution e))
          end
      end
  end.

(** [while let Some(msg) = progress.next().await]. *)
Fixpoint publish_progress (fuel : nat) (mailbox : text) (progress : Client.ExecutionStarted (Su := Su)) (n : Nats) :
    option (Nats * result ServerError (Client.ExecutionStarted (Su := Su))) :=
  match fuel with
  | O => None
  | S fuel' =>
      '(item, progress) ← Client.next_progress fuel progress;
      match item with
      | None => Some (n, Ok progress)
      | Some (Ok (Output output)) =>
          match publish_output mailbox output n with
          | (n, Ok _) => publish_progress fuel' mailbox progress n
          | (n, Err e) => Some (n, Err (Publisher e))
          end
      | Some (Ok Heartbeat) => publish_progress fuel' mailbox progress n
      | Some (Err _) => Some (n, Ok progress)
      end
  end.

Definition execution_finish (progress : Client.ExecutionStarted) : Await (result ServerError (FunctionResult Su)) :=
  match Client.finish progress with
  | Never => Never
  | Answered (Ok r) => Answered (Ok r)
  | Answered (Err e) => Answered (Err (Execution e))
  end.

(** [None]: the request has not ended, as it waits for ever, or has not been polled
    often enough. *)
Definition resolver_function_request (fuel : nat) (mailbox : text) (x : Execute) (n : Nats) :
    option (Nats * result ServerError (FunctionResult Su)) :=
  match begin x with
  | Never => None
  | Answered (Err e) => Some (n, Err e)
  | Answered (Ok progress) =>
      '(n, progress) ← publish_progress fuel mailbox progress n;
      match progress with
      | Err e => Some (n, Err e)
      | Ok progress =>
          match execution_finish progress with
          | Never => None
          | Answered r => Some (n, r)
          end
      end
  end.

(** The failure that veritech reports itself. *)
Definition server_failure (execution_id message : text) (now : N) : FunctionResult Su :=
  Failure {| failure_execution_id := execution_id; failure_kind := chars "veritechServer";
             failure_message := message; failure_timestamp := now |}.

(** [explain] makes the texts of errors. *)
Definition resolver_function_request_task (explain : ServerError → text) (now : N) (fuel : nat)
    (execution_id : text) (reply_mailbox : option text) (x : Execute) (n : Nats) : option Nats :=
  match reply_mailbox with
  | None => Some n
  | Some mailbox =>
      '(n, function_result) ← resolver_function_request fuel mailbox x n;
      match finalize_output mailbox n with
      | (n, Err _) =>
          Some (fst (publish_result mailbox
            (server_failure execution_id (chars "failed to finalize output by sending final message") now) n))
      | (n, Ok _) =>
          let function_result :=
            match function_result with
            | Ok fr => fr
            | Err err => server_failure execution_id (explain err) now
            end in
          Some (fst (publish_result mailbox function_result n))
      end
  end.

(** The requests of the other kinds of functions. *)
Definition function_request (fuel : nat) (reply_mailbox : option text) (x : Execute) (n : Nats) :
    option (Nats * result ServerError unit) :=
  match reply_mailbox with
  | None => Some (n, Err NoReplyMailboxFound)
  | Some mailbox =>
      match begin x with
      | Never => None
      | Answered (Err e) => Some (n, Err e)
      | Answered (Ok progress) =>
          '(n, progress) ← publish_progress fuel mailbox progress n;
          match progress with
          | Err e => Some (n, Err e)
          | Ok progress =>
              match finalize_output mailbox n with
              | (n, Err e) => Some (n, Err (Publisher e))
              | (n, Ok _) =>
                  match execution_finish progress with
                  | Never => None
                  | Answered (Err e) => Some (n, Err e)
                  | Answered (Ok function_result) =>
                      let '(n, r) := publish_result mailbox function_result n in
                      Some (n, match r with Ok _ => Ok tt | Err e => Err (Publisher e) end)
                  end
              end
          end
      end
  end.

Definition validation_request := function_request.
Definition schema_variant_definition_request := function_request.
Definition action_run_request := function_request.
Definition reconciliation_request := function_request.

(** The error is logged. *)
Definition function_request_task (fuel : nat) (reply_mailbox : option text) (x : Execute) (n : Nats) :
    option Nats :=
  fst <$> function_request fuel reply_mailbox x n.

Definition validation_request_task := function_request_task.
Definition schema_variant_definition_request_task := function_request_task.
Definition action_run_request_task := function_request_task.
Definition reconciliation_request_task := function_request_task.

End server.
End VeritechServer.

(** ** The client *)

Module VeritechClient.
Section client.
Context {Su : Type} {OJ : PayloadJson OutputStream} {RJ : PayloadJson (FunctionResult Su)}.

Inductive ClientError : Type :=
| JSONSerialize
| Nats_
| NoResult
| PublishingFailed (m : NatsMessage)
| RootConnectionClosed
| Subscriber_ (e : Subscriber.SubscriberError).

(** What the output subscriber forwards; the loop does not end at an error. *)
Fixpoint forward_output_task (fuel : nat) (output_subscriber : Subscriber.t) : option (list OutputStream) :=
  match fuel with
  | O => None
  | S fuel' =>
      '(item, output_subscriber) ← Subscriber.next (A := OutputStream) fuel output_subscriber;
      match item with
      | None => Some []
      | Some (Ok output) =>
          outputs ← forward_output_task fuel' output_subscriber;
          Some (Subscriber.payload output :: outputs)
      | Some (Err _) => forward_output_task fuel' output_subscriber
      end
  end.

(** What [select!] sees first. *)
Inductive Selected : Type :=
| SelectedResult (item : option (result Subscriber.SubscriberError (Subscriber.Request (FunctionResult Su))))
| SelectedRoot (reply : option NatsMessage).

(** [asked]: the request is serialized, the subscriptions are made and the request is
    published; [unsubscribed]: how unsubscribing from both mailboxes ends. *)
Definition execute_request (asked unsubscribed : result ClientError unit) (selected : Selected) :
    result ClientError (FunctionResult Su) :=
  _ ← asked;
  match selected with
  | SelectedResult item =>
      _ ← unsubscribed;
      match item with
      | Some (Ok result) => Ok (Subscriber.payload result)
      | Some (Err e) => Err (Subscriber_ e)
      | None => Err NoResult
      end
  | SelectedRoot (Some m) => Err (PublishingFailed m)
  | SelectedRoot None => Err RootConnectionClosed
  end.

(** The subscribers to the reply mailboxes. *)
Definition subscribe (messages : list NatsMessage) (to : text) : Subscriber.t :=
  {| Subscriber.inner := Ready <$> filter (λ m, subject m = to) messages;
     Subscriber.final_message_header_key := Some FINAL_MESSAGE_HEADER_KEY;
     Subscriber.check_for_reply_mailbox := false |}.

End client.
End VeritechClient.
