(* ===== verification/FunctionRun.v ===== *)
(** * A function from request to result

    The servers and clients of [CycloneServer], [CycloneClient] and [Veritech] put
    together: what a function writes and returns reaches the caller, credentials
    redacted, and every request for a resolver function is answered, unless the cyclone
    server is waited for in vain. *)

From S2P Require Import Prelude Redaction CycloneSecrets CycloneMessages CycloneServer CycloneClient Veritech.
From Stdlib Require Import NArith Strings.String.
From stdpp Require Import base tactics sets list.

Abbreviation text := (list N) (only parsing).

Section run.
Context {Su : Type} {MJ : MessageJson Su} {MO : MessageJsonOk Su}.

(** ** The server *)

Definition texts_of (msgs : list (Message.t Su)) (ts : list text) : Prop :=
  Forall2 (λ m t, serialize_to_string m = Some t) msgs ts.

(** Everything outside works. *)
Record works {L} (w : World L) : Prop := {
  works_start : ws_start w = Sent;
  works_spawn : child_spawn w = true;
  works_stdin : child_stdin w = true;
  works_stderr : child_stderr w = true;
  works_stdout : child_stdout w = true;
  works_stdin_send : stdin_send w = Sent;
  works_stdin_close : stdin_close w = Sent;
  works_ends : stdout_ends w = true;
  works_send i : ws_send w i = Answered true;
  works_finish : ws_finish w = Sent;
  works_close : ws_close w = Answered true;
}.

Section server.
Context {R L : Type} {K : SealedBox} {J : JsonPointer} `{RQ : !CycloneRequest R} {RJ : RequestJson R}.
Context {C : LangServerSuccess L Su}.

(** The messages of a run. *)
Definition translates (fuel : nat) (credentials : list text)
    (ms : list (N * result unit (LangServerMessage L))) (msgs : list (Message.t Su)) : Prop :=
  Forall2 (λ nm msg, Server.translate fuel credentials (nm.1) (nm.2) = Some (Ok msg)) ms msgs.

Lemma process_all fuel (w : World L) credentials ms msgs ts : stdout_ends w = true →
  (∀ i, ws_send w i = Answered true) → translates fuel credentials ms msgs → texts_of msgs ts → ∀ i sent,
  Server.process fuel w credentials i ms sent = Some (sent ++ ts, Answered (Ok tt)).
Proof using Type.
  intros He Hw Ht. revert ts. induction Ht as [|[now m] msg ms msgs Hm _ IH]; intros ts Hts i sent.
  - apply Forall2_nil_inv_l in Hts as ->. cbn. by rewrite app_nil_r, He.
  - apply Forall2_cons_inv_l in Hts as (t & ts' & Ht & Hts & ->). cbn [Server.process]. unfold Server.forward.
    cbn in Hm. rewrite Hm. cbn [mbind option_bind result_bind]. rewrite Ht. cbn [ok_or]. rewrite Hw, (IH ts' Hts).
    by rewrite <-(assoc_L (++)).
Qed.

Lemma handle_socket_works explain fuel (w : World L) (request : R) credentials v msgs ts : works w →
  Server.read_request w = Answered (Ok request) → list_secrets fuel request = Some (Ok credentials) →
  decrypt_request fuel request = Some (Ok v) → translates fuel credentials (stdout w) msgs →
  texts_of (Message.Start :: msgs ++ [Message.Finish]) ts →
  Server.handle_socket explain fuel w = Some (ts, Answered true).
Proof using Type.
  intros [] Hr Hl Hd Ht Hts. apply Forall2_cons_inv_l in Hts as (t1 & ts' & H1 & Hts & ->).
  apply Forall2_app_inv_l in Hts as (ts2 & ts3 & H2 & H3 & ->).
  apply Forall2_cons_inv_l in H3 as (t3 & ts4 & H3 & H4 & ->). apply Forall2_nil_inv_l in H4 as ->.
  unfold Server.handle_socket, Server.start, Server.send_message, Server.run_child,
    Server.child_send_function_request, Server.finish, Server.send_message.
  rewrite H1, works_start0. cbn [send_with_timeout mbind option_bind result_bind].
  rewrite Hr. cbn [mbind option_bind result_bind]. rewrite Hl. cbn [mbind option_bind result_bind].
  rewrite works_spawn0, works_stdin0, Hd. cbn [negb mbind option_bind result_bind].
  rewrite works_stdin_send0, works_stdin_close0, works_stderr0, works_stdout0.
  cbn [negb send_with_timeout mbind option_bind result_bind].
  rewrite (process_all fuel w credentials _ msgs ts2) by done. cbn [mbind option_bind].
  by rewrite H3, works_finish0, works_close0.
Qed.

End server.

(** ** The client *)

(** A websocket without the times when there is nothing to read. *)
Definition settled (s : WebSocketStream) : list (result unit WebSocketMessage) :=
  polls s ≫= λ p, match p with Ready m => [m] | Pending => [] end.

(** An item of the progress, and the result that is saved. *)
Definition item_of (saved : option (FunctionResult Su)) (m : result unit WebSocketMessage) :
    option (result (CycloneClient.ExecutionError Su) ProgressMessage) * option (FunctionResult Su) :=
  match m with
  | Ok (Text t) =>
      match deserialize_from_str t with
      | None => (Some (Err CycloneClient.JSONDeserialize), saved)
      | Some Message.Heartbeat => (Some (Ok Heartbeat), saved)
      | Some (Message.OutputStream o) => (Some (Ok (Output o)), saved)
      | Some (Message.Result r) => (Some (Ok Heartbeat), Some r)
      | Some Message.Finish =>
          (match saved with Some _ => None | None => Some (Err FinishBeforeResult) end, saved)
      | Some unexpected => (Some (Err (UnexpectedMessage unexpected)), saved)
      end
  | Ok unexpected => (Some (Err (CycloneClient.UnexpectedMessageType unexpected)), saved)
  | Err _ => (Some (Err WSReadIO), saved)
  end.

Lemma poll_item saved m ps c :
  Client.poll_next {| Client.stream := {| polls := Ready m :: ps; closes := c |}; Client.saved := saved |} =
    (Ready (fst (item_of saved m)),
     {| Client.stream := {| polls := ps; closes := c |}; Client.saved := snd (item_of saved m) |}).
Proof using Type.
  unfold Client.poll_next, item_of. cbn.
  destruct m as [[t|b| | |]|e]; try done. destruct (deserialize_from_str t) as [[]|]; try done.
  by destruct saved.
Qed.

(** With more than [k] steps a computation gives [a]; with fewer, nothing else. *)
Definition yields {A} (f : nat → option A) (k : nat) (a : A) : Prop :=
  (∀ fuel, k < fuel → f fuel = Some a) ∧ ∀ fuel, f fuel = None ∨ f fuel = Some a.

#[global] Instance yields_proper {A} : Proper (pointwise_relation nat eq ==> eq ==> eq ==> iff) (@yields A).
Proof using Type. intros f g Hfg k _ <- a _ <-. unfold yields. by setoid_rewrite Hfg. Qed.

(** A step, and the rest with one step less. *)
Lemma yields_step {A B} (f : nat → option A) k a (g : nat → A → option B) k' b : yields f k a →
  yields (λ fuel, g fuel a) k' b → k' < k →
  yields (λ fuel, match fuel with O => None | S fuel' => f fuel ≫= g fuel' end) k b.
Proof using Type.
  intros [Hf1 Hf2] [Hg1 Hg2] Hk. split; intros [|fuel]; [lia| |by left|].
  - intros Hf. rewrite (Hf1 (S fuel)) by done. apply Hg1. lia.
  - destruct (Hf2 (S fuel)) as [->| ->]; [by left|apply Hg2].
Qed.

Lemma yields_end {A B} (f : nat → option A) k a (g : nat → A → option B) b : yields f k a →
  (∀ fuel, g fuel a = Some b) →
  yields (λ fuel, match fuel with O => None | S fuel' => f fuel ≫= g fuel' end) k b.
Proof using Type.
  intros [Hf1 Hf2] Hg. split; intros [|fuel]; [lia| |by left|].
  - intros Hf. rewrite (Hf1 (S fuel)) by done. apply Hg.
  - destruct (Hf2 (S fuel)) as [->| ->]; [by left|right; apply Hg].
Qed.

Lemma never_step {A B} (f : nat → option A) k a (g : nat → A → option B) fuel : yields f k a →
  (∀ fuel, g fuel a = None) → match fuel with O => None | S fuel' => f fuel ≫= g fuel' end = None.
Proof using Type. intros [_ Hf] Hg. destruct fuel as [|fuel]; [done|]. destruct (Hf (S fuel)) as [->| ->]; [done|apply Hg]. Qed.

(** The next item is that of the next message; a closed websocket gives an error, and
    one from which nothing comes any more gives none. *)
Lemma next_progress_item s saved :
  let next fuel := Client.next_progress fuel {| Client.stream := s; Client.saved := saved |} in
  match settled s with
  | [] =>
      if closes s
      then ∃ e, Client.saved e = saved ∧ settled (Client.stream e) = [] ∧ closes (Client.stream e) = true ∧
             yields next (length (polls s)) (Some (Err WSClosedBeforeFinish), e)
      else ∀ fuel, next fuel = None
  | m :: ms => ∃ s', length (polls s') < length (polls s) ∧ settled s' = ms ∧ closes s' = closes s ∧
      yields next (length (polls s))
        (fst (item_of saved m), {| Client.stream := s'; Client.saved := snd (item_of saved m) |})
  end.
Proof using Type.
  assert (∀ e a k, yields (λ fuel, Client.next_progress fuel e) k a → ∀ e', Client.poll_next e' = (Pending, e) →
    yields (λ fuel, Client.next_progress (Su := Su) fuel e') (S k) a) as Hlater.
  { intros e a k [H1 H2] e' He. split; (intros [|fuel]; [auto with lia|]); cbn [Client.next_progress]; rewrite He;
      [intros; apply H1; lia|apply H2]. }
  assert (∀ e a k e', Client.poll_next e' = (Ready a, e) →
    yields (λ fuel, Client.next_progress (Su := Su) fuel e') k (a, e)) as Hnow.
  { intros e a k e' He. split; (intros [|fuel]; [auto with lia|]); cbn [Client.next_progress]; rewrite He; auto. }
  destruct s as [ps c]. cbn zeta. cbn [polls closes]. induction ps as [|[|m] ps IH].
  - cbn. destruct c; [|intros fuel; by induction fuel].
    exists {| Client.stream := {| polls := []; closes := true |}; Client.saved := saved |}.
    split_and!; [done..|by apply Hnow].
  - change (settled {| polls := Pending :: ps; closes := c |}) with (settled {| polls := ps; closes := c |}).
    destruct (settled _) as [|m ms].
    + destruct c; [|intros [|fuel]; [done|apply IH]]. destruct IH as (e & ? & ? & ? & IH). exists e.
      split_and!; [done..|]. by eapply Hlater; [exact IH|].
    + destruct IH as (s' & Hl & Hs & Hc & IH). exists s'. split_and!; [cbn; lia|done|done|].
      by eapply Hlater; [exact IH|].
  - exists {| polls := ps; closes := c |}. split_and!; [cbn; lia|done|done|]. apply Hnow, poll_item.
Qed.

(** ** Publishing *)

Section publishing.
Context {OJ : PayloadJson OutputStream} {RJ : PayloadJson (FunctionResult Su)}.

(** Every message is published. *)
Abbreviation always := (λ _ : nat, true).

Definition output_message (mailbox t : text) : NatsMessage :=
  {| subject := reply_mailbox_for_output mailbox; headers := []; data := t; reply := None |}.
Definition final_message (mailbox : text) : NatsMessage :=
  {| subject := reply_mailbox_for_output mailbox; headers := [FINAL_MESSAGE_HEADER_KEY]; data := []; reply := None |}.
Definition result_message (mailbox t : text) : NatsMessage :=
  {| subject := reply_mailbox_for_result mailbox; headers := []; data := t; reply := None |}.

Definition publish_all (ms : list NatsMessage) (n : Nats) : Nats :=
  {| attempts := length ms + attempts n; published := published n ++ ms |}.

Lemma publish_all_cons m ms n :
  publish_all ms (publish_all [m] n) = publish_all (m :: ms) n.
Proof using Type. unfold publish_all. cbn. f_equal; [lia|]. by rewrite <-(assoc_L (++)). Qed.

(** Publishing, a step at a time. *)
Definition published_item (mailbox : text) (n : Nats) (fuel : nat)
    (item : option (result (CycloneClient.ExecutionError Su) ProgressMessage) * Client.ExecutionStarted (Su := Su)) :
    option (Nats * result (VeritechServer.ServerError (Su := Su)) (Client.ExecutionStarted (Su := Su))) :=
  match item with
  | (Some (Ok (Output output)), progress) =>
      match VeritechServer.publish_output always mailbox output n with
      | (n, Ok _) => VeritechServer.publish_progress always fuel mailbox progress n
      | (n, Err e) => Some (n, Err (VeritechServer.Publisher e))
      end
  | (Some (Ok Heartbeat), progress) => VeritechServer.publish_progress always fuel mailbox progress n
  | (_, progress) => Some (n, Ok progress)
  end.

Lemma publish_progress_step mailbox e n fuel :
  VeritechServer.publish_progress always fuel mailbox e n =
  match fuel with O => None | S fuel' => Client.next_progress fuel e ≫= published_item mailbox n fuel' end.
Proof using Type.
  destruct fuel; [done|]. cbn [VeritechServer.publish_progress].
  destruct (Client.next_progress _ _) as [[[[[]|]|] e']|]; done.
Qed.

(** Publishing the progress ends, and only outputs are published; or nothing comes any
    more from the websocket, and it does not end. *)
Lemma publish_progress_ends mailbox k : ∀ s saved n, length (polls s) = k →
  let publish fuel :=
    VeritechServer.publish_progress always fuel mailbox {| Client.stream := s; Client.saved := saved |} n in
  (∃ ts r, yields publish k (publish_all (output_message mailbox <$> ts) n, r) ∧
     ∀ e, r = Ok e → closes (Client.stream e) = closes s) ∨
  (closes s = false ∧ ∀ fuel, publish fuel = None).
Proof using Type.
  assert (∀ n, publish_all [] n = n) as Hnil.
  { intros [a p]. unfold publish_all. cbn. by rewrite app_nil_r. }
  induction k as [k IH] using (well_founded_induction lt_wf). intros s saved n Hk. cbn zeta.
  setoid_rewrite publish_progress_step.
  pose proof (next_progress_item s saved) as Hnext. cbn zeta in Hnext. rewrite Hk in Hnext.
  destruct (settled s) as [|m ms].
  { destruct (closes s) eqn:Hc; [|right; split; [done|]; by intros [|fuel]; [done|rewrite Hnext]].
    destruct Hnext as (e & _ & _ & He & Hnext). left. exists [], (Ok e). split; [|naive_solver].
    rewrite fmap_nil, Hnil. by eapply yields_end; [exact Hnext|]. }
  destruct Hnext as (s' & Hl & _ & Hc & Hnext). rewrite <-Hc.
  destruct (item_of saved m) as [[[[|o]|e]|] saved']; cbn [fst snd] in Hnext.
  3,4: left; exists [], (Ok {| Client.stream := s'; Client.saved := saved' |}); split; [|by intros ? [= <-]];
    rewrite fmap_nil, Hnil; by eapply yields_end; [exact Hnext|].
  - destruct (IH (length (polls s')) ltac:(lia) s' saved' n eq_refl) as [(ts & r & Hr & He)|[Hcl Hn]]; [left|right].
    + exists ts, r. split; [|done]. eapply yields_step; [exact Hnext|exact Hr|lia].
    + split; [done|]. intros fuel. by apply (never_step _ _ _ _ fuel Hnext).
  - destruct (to_json o) as [t|] eqn:Ht.
    2: { left. exists [], (Err (VeritechServer.Publisher PublisherJSONSerialize)). split; [|done].
         rewrite fmap_nil, Hnil. eapply yields_end; [exact Hnext|]. intros fuel. cbn.
         unfold VeritechServer.publish_output. by rewrite Ht. }
    assert (∀ fuel, published_item mailbox n fuel (Some (Ok (Output o)), {| Client.stream := s'; Client.saved := saved' |}) =
      VeritechServer.publish_progress always fuel mailbox {| Client.stream := s'; Client.saved := saved' |}
        (publish_all [output_message mailbox t] n)) as Hstep.
    { intros fuel. cbn. unfold VeritechServer.publish_output. by rewrite Ht. }
    destruct (IH (length (polls s')) ltac:(lia) s' saved' (publish_all [output_message mailbox t] n) eq_refl)
      as [(ts & r & Hr & He)|[Hcl Hn]]; [left|right].
    + exists (t :: ts), r. split; [|done]. rewrite fmap_cons, <-publish_all_cons.
      eapply yields_step; [exact Hnext| |exact (ltac:(lia) : length (polls s') < k)].
      destruct Hr as [H1 H2]. split; intros fuel; rewrite Hstep; auto.
    + split; [done|]. intros fuel. apply (never_step _ _ _ _ fuel Hnext). intros f. by rewrite Hstep.
Qed.

(** *** What is read again *)

(** The messages of a reply mailbox that nobody wrote to before. *)
Definition unused (mailbox : text) (n : Nats) : Prop :=
  Forall (λ m, subject m ≠ reply_mailbox_for_output mailbox ∧ subject m ≠ reply_mailbox_for_result mailbox)
    (published n).

(** All a run publishes. *)
Definition answer (mailbox : text) (outputs : list text) (r : text) : list NatsMessage :=
  (output_message mailbox <$> outputs) ++ [final_message mailbox; result_message mailbox r].

Lemma mailboxes_differ mailbox : reply_mailbox_for_output mailbox ≠ reply_mailbox_for_result mailbox.
Proof using Type. unfold reply_mailbox_for_output, reply_mailbox_for_result. intros H%app_inv_head. done. Qed.

Lemma result_inbox mailbox n outputs r : unused mailbox n →
  VeritechClient.subscribe (published (publish_all (answer mailbox outputs r) n)) (reply_mailbox_for_result mailbox) =
    {| Subscriber.inner := [Ready (result_message mailbox r)];
       Subscriber.final_message_header_key := Some FINAL_MESSAGE_HEADER_KEY;
       Subscriber.check_for_reply_mailbox := false |}.
Proof using Type.
  intros Hu. unfold VeritechClient.subscribe, publish_all, answer. cbn [published]. do 2 f_equal.
  rewrite !filter_app, (filter_none _ (published n)), (filter_none _ (_ <$> _)).
  - rewrite filter_cons_False by apply mailboxes_differ. by rewrite filter_cons_True.
  - apply Forall_fmap, Forall_true. intros t. apply mailboxes_differ.
  - eapply Forall_impl; [exact Hu|]. by intros m [].
Qed.

Lemma output_inbox mailbox n outputs r : unused mailbox n →
  VeritechClient.subscribe (published (publish_all (answer mailbox outputs r) n)) (reply_mailbox_for_output mailbox) =
    {| Subscriber.inner := Ready <$> ((output_message mailbox <$> outputs) ++ [final_message mailbox]);
       Subscriber.final_message_header_key := Some FINAL_MESSAGE_HEADER_KEY;
       Subscriber.check_for_reply_mailbox := false |}.
Proof using Type.
  intros Hu. unfold VeritechClient.subscribe, publish_all, answer. cbn [published]. do 2 f_equal.
  rewrite !filter_app, (filter_none _ (published n)), (filter_all _ (_ <$> _)).
  - rewrite filter_cons_True by done. rewrite filter_cons_False; [done|]. intros H. symmetry in H. by apply mailboxes_differ in H.
  - apply Forall_fmap, Forall_true. done.
  - eapply Forall_impl; [exact Hu|]. by intros m [].
Qed.

(** The caller reads the result. *)
Lemma result_arrives {RO : PayloadJsonOk (FunctionResult Su)} mailbox n outputs r t : unused mailbox n →
  to_json r = Some t → ∃ item inbox,
    Subscriber.next 1 (VeritechClient.subscribe (published (publish_all (answer mailbox outputs t) n))
      (reply_mailbox_for_result mailbox)) = Some (item, inbox) ∧
    VeritechClient.execute_request (Ok tt) (Ok tt) (VeritechClient.SelectedResult item) = Ok r.
Proof using Type.
  intros Hu Ht. rewrite result_inbox by done. cbn [Subscriber.next].
  unfold Subscriber.poll_next. cbn [Subscriber.inner]. unfold Subscriber.is_final. cbn.
  rewrite (payload_roundtrip _ _ Ht). eauto.
Qed.

(** The caller reads the output, to its end. *)
Lemma outputs_arrive {OO : PayloadJsonOk OutputStream} mailbox n outputs ts r : unused mailbox n →
  Forall2 (λ o t, to_json o = Some t) outputs ts → ∃ fuel, ∀ more,
    VeritechClient.forward_output_task (fuel + more)
      (VeritechClient.subscribe (published (publish_all (answer mailbox ts r) n)) (reply_mailbox_for_output mailbox)) =
    Some outputs.
Proof using Type.
  intros Hu Hts. rewrite output_inbox by done. exists (S (length outputs)). intros more.
  induction Hts as [|o t outputs ts Ht _ IH].
  - cbn [VeritechClient.forward_output_task length plus Subscriber.next]. unfold Subscriber.poll_next.
    cbn [Subscriber.inner fmap list_fmap app]. unfold Subscriber.is_final. cbn [Subscriber.final_message_header_key].
    by rewrite bool_decide_true by apply list_elem_of_here.
  - cbn [length plus]. cbn [VeritechClient.forward_output_task Subscriber.next]. unfold Subscriber.poll_next.
    cbn [Subscriber.inner fmap list_fmap app]. unfold Subscriber.is_final. cbn [Subscriber.final_message_header_key].
    rewrite bool_decide_false by apply not_elem_of_nil.
    cbn [Subscriber.check_for_reply_mailbox data output_message]. rewrite (payload_roundtrip _ _ Ht).
    cbn [mbind option_bind].
    transitivity (outputs0 ← Some outputs; Some (o :: outputs0)); [|done]. f_equal. exact IH.
Qed.

(** *** What a run publishes *)

(** Something is waited for that never comes: the pool, the connection, the sending
    of the request, or the websocket. *)
Definition in_vain (x : VeritechServer.Execute) : bool :=
  match VeritechServer.pool x, VeritechServer.connected x, VeritechServer.request_sent x with
  | Answered _, Answered _, Answered _ => negb (closes (VeritechServer.websocket x))
  | _, _, _ => true
  end.

Lemma next_message_shorter s :
  match next_message s with
  | Never => closes s = false
  | Answered (_, s') => length (polls s') ≤ length (polls s) ∧ closes s' = closes s
  end.
Proof using Type.
  destruct s as [ps c]. unfold next_message. cbn. induction ps as [|[] ps IH]; cbn; [by destruct c| |split; [lia|done]].
  match goal with |- match ?a with _ => _ end => destruct a as [|[m s]] end; [done|]. destruct IH. split; [lia|done].
Qed.

Lemma begin_shorter x :
  match VeritechServer.begin (Su := Su) x with
  | Never => in_vain x = true
  | Answered (Ok e) => length (polls (Client.stream e)) ≤ length (polls (VeritechServer.websocket x)) ∧
      closes (Client.stream e) = closes (VeritechServer.websocket x)
  | Answered (Err _) => True
  end.
Proof using Type.
  unfold VeritechServer.begin, Client.start, in_vain.
  destruct (VeritechServer.pool x) as [|[]]; [done| |done]. destruct (VeritechServer.connected x) as [|[]]; [done| |done].
  pose proof (next_message_shorter (VeritechServer.websocket x)) as Hl. destruct (next_message _) as [|[m s]].
  - rewrite Hl. by destruct (VeritechServer.request_sent x).
  - repeat case_match; by simplify_eq/=.
Qed.

Lemma finish_waits e : VeritechServer.execution_finish (Su := Su) e = Never → closes (Client.stream e) = false.
Proof using Type.
  unfold VeritechServer.execution_finish, Client.finish. destruct (Client.saved e); [|done].
  pose proof (next_message_shorter (Client.stream e)) as Hl. destruct (next_message _) as [|[m s]]; [done|].
  repeat case_match; by simplify_eq/=.
Qed.

Lemma in_vain_websocket x : closes (VeritechServer.websocket x) = false → in_vain x = true.
Proof using Type. unfold in_vain. intros ->. by repeat case_match. Qed.

(** Output, the final message and a result. *)
Lemma finalize_publishes mailbox n : VeritechServer.finalize_output always mailbox n =
  (publish_all [final_message mailbox] n, Ok tt).
Proof using Type. done. Qed.

Lemma result_publishes mailbox r t n : to_json r = Some t → VeritechServer.publish_result (Su := Su) always mailbox r n =
  (publish_all [result_message mailbox t] n, Ok tt).
Proof using Type. intros Ht. unfold VeritechServer.publish_result. by rewrite Ht. Qed.

Lemma answer_published mailbox ts t n :
  publish_all [result_message mailbox t]
    (publish_all [final_message mailbox] (publish_all (output_message mailbox <$> ts) n)) =
  publish_all (answer mailbox ts t) n.
Proof using Type.
  unfold publish_all, answer. cbn. f_equal; [rewrite length_app; cbn; lia|]. by rewrite <-!(assoc_L (++)).
Qed.

(** How the task of a resolver function ends. *)
Lemma resolver_task_publishes explain now fuel id mailbox x n ts fr r t :
  VeritechServer.resolver_function_request always fuel mailbox x n =
    Some (publish_all (output_message mailbox <$> ts) n, fr) →
  r = match fr with Ok fr => fr | Err err => VeritechServer.server_failure id (explain err) now end →
  to_json r = Some t →
  VeritechServer.resolver_function_request_task always explain now fuel id (Some mailbox) x n =
    Some (publish_all (answer mailbox ts t) n).
Proof using Type.
  intros Hx -> Ht. unfold VeritechServer.resolver_function_request_task. rewrite Hx. cbn [mbind option_bind].
  rewrite finalize_publishes. rewrite (result_publishes _ _ t) by done. by rewrite answer_published.
Qed.

(** The progress of a request that has begun is published to its end, or it waits in
    vain. *)
Lemma progress_ends mailbox x n e : VeritechServer.begin x = Answered (Ok e) →
  (∃ ts r, yields (λ fuel, VeritechServer.publish_progress (Su := Su) always fuel mailbox e n)
      (length (polls (VeritechServer.websocket x))) (publish_all (output_message mailbox <$> ts) n, r) ∧
     ∀ e', r = Ok e' → VeritechServer.execution_finish e' = Never → in_vain x = true) ∨
  (in_vain x = true ∧ ∀ fuel, VeritechServer.publish_progress always fuel mailbox e n = None).
Proof using Type.
  intros Hb. pose proof (begin_shorter x) as Hx. rewrite Hb in Hx. destruct e as [s saved], Hx as [Hl Hc]. cbn in Hl, Hc.
  destruct (publish_progress_ends mailbox _ s saved n eq_refl) as [(ts & r & [H1 H2] & He)|[Hcl Hn]].
  - left. exists ts, r. split; [split; [|done]; intros fuel Hf; apply H1; lia|].
    intros e' -> Hw%finish_waits. apply in_vain_websocket. rewrite <-Hc, <-(He e' eq_refl). done.
  - right. split; [apply in_vain_websocket; congruence|done].
Qed.

(** The run of a resolver function publishes output and ends, or it waits in vain. *)
Lemma resolver_request_ends mailbox x n :
  (∃ ts fr, ∀ fuel, length (polls (VeritechServer.websocket x)) < fuel →
     VeritechServer.resolver_function_request always fuel mailbox x n =
       Some (publish_all (output_message mailbox <$> ts) n, fr)) ∨
  (in_vain x = true ∧ ∀ fuel, VeritechServer.resolver_function_request (Su := Su) always fuel mailbox x n = None).
Proof using Type.
  unfold VeritechServer.resolver_function_request. pose proof (begin_shorter x) as Hb.
  destruct (VeritechServer.begin x) as [|[e|e]] eqn:Hx; [by right| |].
  - destruct (progress_ends mailbox x n e Hx) as [(ts & r & [H1 H2] & He)|[Hv Hn]].
    2: { right. split; [done|]. intros fuel. by rewrite Hn. }
    destruct r as [e'|e']; [destruct (VeritechServer.execution_finish e') as [|r] eqn:Hfin|].
    + right. split; [by eapply He|]. intros fuel. destruct (H2 fuel) as [->| ->]; [done|]. cbn. by rewrite Hfin.
    + left. exists ts, r. intros fuel Hf. rewrite H1 by done. cbn. by rewrite Hfin.
    + left. exists ts, (Err e'). intros fuel Hf. by rewrite H1.
  - left. exists [], (Err e). intros fuel _. destruct n as [a p]. unfold publish_all. cbn. by rewrite app_nil_r.
Qed.

(** The output of messages, and their last result. *)
Definition outputs_of (msgs : list (Message.t Su)) : list OutputStream :=
  omap (λ m, match m with Message.OutputStream o => Some o | _ => None end) msgs.
Fixpoint result_of (saved : option (FunctionResult Su)) (msgs : list (Message.t Su)) : option (FunctionResult Su) :=
  match msgs with
  | [] => saved
  | Message.Result r :: msgs => result_of (Some r) msgs
  | _ :: msgs => result_of saved msgs
  end.

(** Messages of a run between its start and its end. *)
Definition running (m : Message.t Su) : Prop :=
  match m with Message.Fail _ | Message.Finish | Message.Start => False | _ => True end.

(** What the server sends up to the finish is published, and the result kept. *)
Lemma publish_progress_messages mailbox msgs : ∀ outs ts fuel s saved n rest,
  Forall running msgs → texts_of (msgs ++ [Message.Finish]) ts →
  Forall2 (λ o t, to_json o = Some t) (outputs_of msgs) outs →
  settled s = (Ok ∘ Text <$> ts) ++ rest → length (polls s) < fuel → ∃ e,
    VeritechServer.publish_progress always fuel mailbox {| Client.stream := s; Client.saved := saved |} n =
      Some (publish_all (output_message mailbox <$> outs) n, Ok e) ∧
    Client.saved e = result_of saved msgs ∧ settled (Client.stream e) = rest.
Proof using MO.
  induction msgs as [|m msgs IH]; intros outs ts [|fuel] s saved n rest Hrun Hts Houts Hs Hf; try lia;
    apply Forall2_cons_inv_l in Hts as (t & ts' & Ht & Hts & ->); cbn in Ht, Hs;
    pose proof (message_roundtrip _ _ Ht) as Hread;
    pose proof (next_progress_item s saved) as Hnext; cbn zeta in Hnext; rewrite Hs in Hnext;
    destruct Hnext as (s' & Hl & Hs' & _ & Hn & _); cbn [VeritechServer.publish_progress]; rewrite Hn by done;
    unfold item_of; rewrite Hread.
  - apply Forall2_nil_inv_l in Hts as ->. apply Forall2_nil_inv_l in Houts as ->.
    exists {| Client.stream := s'; Client.saved := saved |}. split; [|done]. unfold publish_all. destruct n as [a p].
    cbn. rewrite app_nil_r. by destruct saved.
  - apply Forall_cons in Hrun as [Hm Hrun]. destruct m as [| | |o|r|]; try done; cbn [mbind option_bind fst snd].
    + destruct (IH outs ts' fuel s' saved n rest) as (e & He & ?); [done..|lia|]. by exists e.
    + apply Forall2_cons_inv_l in Houts as (j & outs' & Hj & Houts & ->).
      unfold VeritechServer.publish_output. rewrite Hj.
      destruct (IH outs' ts' fuel s' saved (publish_all [output_message mailbox j] n) rest) as (e & He & ?);
        [done..|lia|]. exists e. rewrite fmap_cons, <-publish_all_cons. split; [exact He|done].
    + destruct (IH outs ts' fuel s' (Some r) n rest) as (e & He & ?); [done..|lia|]. by exists e.
Qed.

(** Waiting for a message that comes. *)
Lemma next_message_settled s m ms : settled s = m :: ms → ∃ s',
  next_message s = Answered (Some m, s') ∧ settled s' = ms ∧ length (polls s') ≤ length (polls s).
Proof using Type.
  destruct s as [ps c]. unfold settled, next_message. cbn. induction ps as [|[|m'] ps IH]; cbn; [done| |].
  - intros (s' & ? & ? & ?)%IH. exists s'. split_and!; [done|done|lia].
  - intros [= -> <-]. eexists. split_and!; [done|done|cbn; lia].
Qed.

(** The result of a websocket that is closed after the finish. *)
Lemma finish_closed (e : Client.ExecutionStarted (Su := Su)) : settled (Client.stream e) = [Ok Close] →
  VeritechServer.execution_finish e =
    Answered match Client.saved e with Some r => Ok r | None => Err (VeritechServer.Execution ClosingWithoutResult) end.
Proof using Type.
  intros (s' & Hs & _)%next_message_settled. unfold VeritechServer.execution_finish, Client.finish.
  destruct (Client.saved e); [|done]. by rewrite Hs.
Qed.

(** The websocket of a server that has started. *)
Lemma begin_started x t ts rest : VeritechServer.pool x = Answered true → VeritechServer.connected x = Answered true →
  VeritechServer.request x = Some t → VeritechServer.request_sent x = Answered true →
  texts_of [Message.Start] ts → settled (VeritechServer.websocket x) = (Ok ∘ Text <$> ts) ++ rest → ∃ s,
    VeritechServer.begin x = Answered (Ok {| Client.stream := s; Client.saved := None |}) ∧ settled s = rest ∧
    length (polls s) ≤ length (polls (VeritechServer.websocket x)).
Proof using MO.
  intros Hp Hc Hr Hq Hts Hs. apply Forall2_cons_inv_l in Hts as (t0 & ts' & Ht & Hts & ->).
  apply Forall2_nil_inv_l in Hts as ->. cbn in Hs. apply next_message_settled in Hs as (s & Hm & Hrest & Hl).
  unfold VeritechServer.begin, Client.start. rewrite Hp, Hc, Hm, (message_roundtrip _ _ Ht), Hr, Hq. eauto.
Qed.

(** *** The other kinds of functions *)

Lemma outputs_no_result mailbox n ts : filter (λ m, subject m = reply_mailbox_for_result mailbox)
  (published (publish_all (output_message mailbox <$> ts) n)) =
  filter (λ m, subject m = reply_mailbox_for_result mailbox) (published n).
Proof using Type.
  cbn. rewrite filter_app, (filter_none _ (_ <$> _)); [by rewrite app_nil_r|].
  apply Forall_fmap, Forall_true. intros t. apply mailboxes_differ.
Qed.

Lemma final_no_result mailbox n : filter (λ m, subject m = reply_mailbox_for_result mailbox)
  (published (publish_all [final_message mailbox] n)) =
  filter (λ m, subject m = reply_mailbox_for_result mailbox) (published n).
Proof using Type.
  cbn. rewrite filter_app, filter_cons_False by apply mailboxes_differ. by rewrite app_nil_r.
Qed.

End publishing.

End run.

(** ** From the language server to the caller *)

Section theorems.
Context {L Su : Type} {C : LangServerSuccess L Su} {MJ : MessageJson Su} {MO : MessageJsonOk Su}.
Context {R : Type} {K : SealedBox} {J : JsonPointer} `{RQ : !CycloneRequest R} {RJ : RequestJson R}.
Context {OJ : PayloadJson OutputStream} {FJ : PayloadJson (FunctionResult Su)}.
Context {OO : PayloadJsonOk OutputStream} {FO : PayloadJsonOk (FunctionResult Su)}.

Abbreviation always := (λ _ : nat, true).

Lemma translates_running fuel credentials ms (msgs : list (Message.t Su)) :
  translates fuel credentials ms msgs → Forall running msgs.
Proof using Type.
  induction 1 as [|[now m] msg ms msgs Hm _ IH]; constructor; [|done]. unfold Server.translate in Hm. cbn in Hm.
  destruct m as [[o|r]|]; [by injection Hm as <-| |done]. apply bind_Some in Hm as (r' & _ & Hr).
  destruct r'; by simplify_eq/=.
Qed.

Lemma translates_clean fuel credentials ms (msgs : list (Message.t Su)) : Forall redactable credentials →
  translates fuel credentials ms msgs → Forall (λ o, clean credentials (message o)) (outputs_of msgs).
Proof using Type.
  intros Hr. induction 1 as [|[now m] msg ms msgs Hm _ IH]; [constructor|]. unfold Server.translate in Hm. cbn in Hm.
  destruct m as [[o|r]|]; [| |done].
  - injection Hm as <-. constructor; [by apply redact_safe|done].
  - apply bind_Some in Hm as (r' & _ & Hr'). destruct r'; by simplify_eq/=.
Qed.

(** C15: A request for a resolver function that has a reply mailbox is answered, or it
    is waited for in vain, for there is no timeout. If messages can be published and
    results written as JSON, either the task ends, whatever the pool and the websocket of
    the cyclone server do, and the caller that waits for a message in the result mailbox
    reads a result; or the task never ends, and then the pool, the connection or the
    sending of the request never answers, or the websocket is not closed after its last
    message. The websocket gives any finite number of messages before it is closed or
    stays open for ever. *)
Theorem resolver_requests_are_answered explain now fuel id mailbox x n :
  (∀ r : FunctionResult Su, ∃ t, to_json r = Some t) →
  length (polls (VeritechServer.websocket x)) < fuel → unused mailbox n →
  let task fuel :=
    VeritechServer.resolver_function_request_task always explain now fuel id (Some mailbox) x n in
  (∃ n' item inbox r, task fuel = Some n' ∧
    Subscriber.next 1 (VeritechClient.subscribe (published n') (reply_mailbox_for_result mailbox)) =
      Some (item, inbox) ∧
    VeritechClient.execute_request (Ok tt) (Ok tt) (VeritechClient.SelectedResult item) = Ok r) ∨
  (in_vain x = true ∧ ∀ fuel, task fuel = None).
Proof using FO.
  intros Hj Hf Hu. destruct (resolver_request_ends mailbox x n) as [(ts & fr & Hr)|[Hv Hn]]; [left|right].
  - destruct (Hj match fr with Ok fr => fr | Err err => VeritechServer.server_failure id (explain err) now end) as [t Ht].
    destruct (result_arrives mailbox n ts _ t Hu Ht) as (item & inbox & Hitem & Hresult).
    eexists _, item, inbox, _. split_and!; [|exact Hitem|exact Hresult]. by eapply resolver_task_publishes; [apply Hr| |].
  - split; [done|]. intros f. unfold VeritechServer.resolver_function_request_task. by rewrite Hn.
Qed.

(** C37: A request for a function of another kind ends, unless the cyclone server is
    waited for in vain, and a result is published exactly when it ends without an error:
    a request whose execution fails publishes nothing in the result mailbox, where its
    caller waits. *)
Theorem other_requests_may_stay_unanswered fuel mailbox x n :
  length (polls (VeritechServer.websocket x)) < fuel →
  (∃ n' r, VeritechServer.function_request (Su := Su) always fuel (Some mailbox) x n = Some (n', r) ∧
    match r with
    | Ok _ => ∃ ts fr t, to_json fr = Some t ∧ n' = publish_all (answer mailbox ts t) n
    | Err _ => filter (λ m, subject m = reply_mailbox_for_result mailbox) (published n') =
               filter (λ m, subject m = reply_mailbox_for_result mailbox) (published n)
    end) ∨
  (in_vain x = true ∧ ∀ fuel, VeritechServer.function_request (Su := Su) always fuel (Some mailbox) x n = None).
Proof using Type.
  intros Hf. unfold VeritechServer.function_request. pose proof (begin_shorter x) as Hb.
  destruct (VeritechServer.begin x) as [|[e|e]] eqn:Hx; [by right| |left; by eexists n, _].
  destruct (progress_ends mailbox x n e Hx) as [(ts & r & [H1 H2] & He)|[Hv Hn]].
  2: { right. split; [done|]. intros f. by rewrite Hn. }
  destruct r as [e'|e'].
  2: { left. rewrite H1 by done. eexists _, _. split; [done|apply outputs_no_result]. }
  destruct (VeritechServer.execution_finish e') as [|[fr|err]] eqn:Hfin.
  - right. split; [by eapply He|]. intros f. destruct (H2 f) as [->| ->]; [done|]. cbn [mbind option_bind].
    by rewrite finalize_publishes, Hfin.
  - left. rewrite H1 by done. cbn [mbind option_bind]. rewrite finalize_publishes, Hfin.
    destruct (to_json fr) as [t|] eqn:Ht.
    + rewrite (result_publishes _ _ t) by done. rewrite answer_published. eexists _, (Ok tt). split; [done|]. eauto.
    + unfold VeritechServer.publish_result. rewrite Ht. eexists _, (Err _). split; [done|].
      rewrite final_no_result. apply outputs_no_result.
  - left. rewrite H1 by done. cbn [mbind option_bind]. rewrite finalize_publishes, Hfin.
    eexists _, (Err _). split; [done|]. rewrite final_no_result. apply outputs_no_result.
Qed.

(** C6: What a function writes and returns reaches its caller. When everything
    between them works, the cyclone server sends the messages of the language server
    between a start and a finish and closes the websocket; the veritech server that
    reads them publishes them; and the caller gets all the output of the function in
    its order, no line with a credential, and then the last result it returned, or a
    failure when it returned none. *)
Theorem function_output_and_result_arrive explain explain' now fuel (w : World L) request_text (request : R)
    credentials v (msgs : list (Message.t Su)) id mailbox x n :
  works w → ws_next w = Answered (Some (Ok (Text request_text))) → request_from_str request_text = Some request →
  list_secrets fuel request = Some (Ok credentials) → decrypt_request fuel request = Some (Ok v) →
  translates fuel credentials (stdout w) msgs →
  (∀ m : Message.t Su, ∃ t, serialize_to_string m = Some t) → (∀ o : OutputStream, ∃ t, to_json o = Some t) →
  (∀ r : FunctionResult Su, ∃ t, to_json r = Some t) →
  VeritechServer.pool x = Answered true → VeritechServer.connected x = Answered true →
  VeritechServer.request x = Some request_text → VeritechServer.request_sent x = Answered true →
  length (polls (VeritechServer.websocket x)) < fuel → unused mailbox n →
  ∃ sent, Server.handle_socket explain fuel w = Some (sent, Answered true) ∧
  (settled (VeritechServer.websocket x) = (Ok ∘ Text <$> sent) ++ [Ok Close] → ∃ n',
    VeritechServer.resolver_function_request_task always explain' now fuel id (Some mailbox) x n = Some n' ∧
    (∃ k, ∀ more, VeritechClient.forward_output_task (k + more)
        (VeritechClient.subscribe (published n') (reply_mailbox_for_output mailbox)) = Some (outputs_of msgs)) ∧
    (Forall redactable credentials → Forall (λ o, clean credentials (message o)) (outputs_of msgs)) ∧
    ∃ item inbox,
      Subscriber.next 1 (VeritechClient.subscribe (published n') (reply_mailbox_for_result mailbox)) =
        Some (item, inbox) ∧
      VeritechClient.execute_request (Ok tt) (Ok tt) (VeritechClient.SelectedResult item) =
        Ok (default (VeritechServer.server_failure id (explain' (VeritechServer.Execution ClosingWithoutResult)) now)
             (result_of None msgs))).
Proof using MO OO FO.
  intros Hw Hnext Hread Hl Hd Ht Hm Ho Hr Hp Hc Hq Hsent Hf Hu.
  destruct (choose_all (λ m t, serialize_to_string m = Some t) [Message.Start] (λ m _, Hm m)) as [ts1 Hts1].
  destruct (choose_all (λ m t, serialize_to_string m = Some t) (msgs ++ [Message.Finish]) (λ m _, Hm m)) as [ts2 Hts2].
  destruct (choose_all (λ o t, to_json o = Some t) (outputs_of msgs) (λ o _, Ho o)) as [outs Houts].
  exists (ts1 ++ ts2). split.
  { eapply handle_socket_works; [done| |done..|].
    - unfold Server.read_request. by rewrite Hnext, Hread.
    - exact (Forall2_app Hts1 Hts2). }
  intros Hs. rewrite fmap_app, <-(assoc_L (++)) in Hs.
  destruct (begin_started x request_text ts1 _ Hp Hc Hq Hsent Hts1 Hs) as (s & Hb & Hsettled & Hlen).
  destruct (publish_progress_messages mailbox msgs outs ts2 fuel s None n [Ok Close]) as (e & He & Hsaved & Hclose);
    [by eapply translates_running|done..|lia|].
  set (r := default (VeritechServer.server_failure id (explain' (VeritechServer.Execution ClosingWithoutResult)) now)
              (result_of None msgs)).
  destruct (Hr r) as [t Hrt].
  exists (publish_all (answer mailbox outs t) n). split_and!; [| |intros; by eapply translates_clean|].
  - eapply resolver_task_publishes; [|reflexivity|].
    + unfold VeritechServer.resolver_function_request. rewrite Hb, He. cbn [mbind option_bind result_bind].
      by rewrite finish_closed, Hsaved.
    + rewrite <-Hrt. unfold r. by destruct (result_of None msgs).
  - destruct (outputs_arrive mailbox n _ outs t Hu Houts) as [k Hk]. by exists k.
  - by apply result_arrives.
Qed.

End theorems.
