(* ===== verification/FunctionSample.v ===== *)
(** * A run, concretely

    Messages as numbers, which behave as the classes on JSON say, and a function that
    writes and returns its password: the witnesses of the theorems on the servers. *)

From S2P Require Import Prelude Redaction CycloneSecrets CycloneSample CycloneMessages CycloneServer CycloneClient Veritech FunctionRun.
From Stdlib Require Import NArith Strings.String.
From stdpp Require Import base tactics sets list countable.

Abbreviation text := (list N) (only parsing).
Abbreviation L := LangServerValidationResultSuccess (only parsing).
Abbreviation Su := ValidationResultSuccess (only parsing).

(** ** Texts of values *)

Definition to_text {A} `{Countable A} (a : A) : text := [Npos (encode a)].
Definition from_text {A} `{Countable A} (t : text) : option A :=
  match t with [Npos p] => decode p | _ => None end.

Lemma text_roundtrip {A} `{Countable A} (a : A) : from_text (to_text a) = Some a.
Proof. apply decode_encode. Qed.

#[export] Instance output_stream_eq_dec : EqDecision OutputStream.
Proof. solve_decision. Defined.
#[export] Instance output_stream_countable : Countable OutputStream.
Proof.
  apply (inj_countable' (λ o, (stream o, execution_id o, level o, group o, message o, timestamp o))
    (λ '(s, e, l, g, m, t), Build_OutputStream s e l g m t)). by intros [].
Defined.

#[export] Instance failure_eq_dec : EqDecision FunctionResultFailure.
Proof. solve_decision. Defined.
#[export] Instance failure_countable : Countable FunctionResultFailure.
Proof.
  apply (inj_countable' (λ f, (failure_execution_id f, failure_kind f, failure_message f, failure_timestamp f))
    (λ '(e, k, m, t), Build_FunctionResultFailure e k m t)). by intros [].
Defined.

#[export] Instance validation_eq_dec : EqDecision Su.
Proof. solve_decision. Defined.
#[export] Instance validation_countable : Countable Su.
Proof.
  apply (inj_countable' (λ v, (vr_execution_id v, vr_valid v, vr_message v))
    (λ '(e, v, m), Build_ValidationResultSuccess e v m)). by intros [].
Defined.

#[export] Instance result_eq_dec : EqDecision (FunctionResult Su).
Proof. solve_decision. Defined.
#[export] Instance result_countable : Countable (FunctionResult Su).
Proof.
  apply (inj_countable' (λ r, match r with Failure f => inl f | Success s => inr s end)
    (λ r, match r with inl f => Failure f | inr s => Success s end)). by intros [].
Defined.

#[export] Instance message_eq_dec : EqDecision (Message.t Su).
Proof. solve_decision. Defined.
#[export] Instance message_countable : Countable (Message.t Su).
Proof.
  apply (inj_countable'
    (λ m, match m with
     | Message.Fail t => inl (inl t)
     | Message.OutputStream o => inl (inr o)
     | Message.Result r => inr (inl r)
     | Message.Finish => inr (inr 0)
     | Message.Heartbeat => inr (inr 1)
     | Message.Start => inr (inr 2)
     end)
    (λ c, match c with
     | inl (inl t) => Message.Fail t
     | inl (inr o) => Message.OutputStream o
     | inr (inl r) => Message.Result r
     | inr (inr 0) => Message.Finish
     | inr (inr 1) => Message.Heartbeat
     | inr (inr _) => Message.Start
     end)). by intros [].
Defined.

#[export] Instance sample_messages : MessageJson Su :=
  {| serialize_to_string m := Some (to_text m); deserialize_from_str := from_text |}.
#[export] Instance sample_messages_ok : MessageJsonOk Su.
Proof. intros m t [= <-]. apply text_roundtrip. Qed.

#[export] Instance sample_payload {A} `{Countable A} : PayloadJson A :=
  {| to_json a := Some (to_text a); from_json := from_text |}.
#[export] Instance sample_payload_ok {A} `{Countable A} : PayloadJsonOk A.
Proof. intros a t [= <-]. apply text_roundtrip. Qed.

#[export] Instance sample_requests : RequestJson ResolverFunctionRequest := λ _, Some sample_request.

(** ** A function that tells its password *)

Definition sample_stdout : list (N * result unit (LangServerMessage L)) :=
  [(7%N, Ok (LangOutput {| ls_execution_id := chars "1"; ls_stream := chars "stdout"; ls_level := chars "info";
                           ls_group := None; ls_message := chars "it is hunter2!" |}));
   (8%N, Ok (LangResult (LangSuccess {| lv_execution_id := chars "1"; lv_valid := true;
                                        lv_message := Some (chars "hunter2") |})))].

Definition sample_world : World L := {|
  ws_start := Sent; ws_next := Answered (Some (Ok (Text (chars "{}")))); child_spawn := true; child_stdin := true;
  child_stderr := true; child_stdout := true; stdin_send := Sent; stdin_close := Sent;
  stdout := sample_stdout; stdout_ends := true; ws_send := λ _, Answered true; ws_finish := Sent;
  ws_fail := Answered true; ws_close := Answered true; shutdown := Answered true |}.

Definition sample_output : OutputStream :=
  {| stream := chars "stdout"; execution_id := chars "1"; level := chars "info"; group := None;
     message := chars "it is [redacted]!"; timestamp := 7 |}.
Definition sample_result : FunctionResult Su :=
  Success {| vr_execution_id := chars "1"; vr_valid := true; vr_message := Some (chars "[redacted]") |}.

Definition sample_msgs : list (Message.t Su) := [Message.OutputStream sample_output; Message.Result sample_result].

Lemma sample_redactable : Forall redactable [chars "hunter2"].
Proof. constructor; [|constructor]. split_and!; by apply (bool_decide_unpack _); vm_compute. Qed.

Lemma sample_translates : translates 20 [chars "hunter2"] (stdout sample_world) sample_msgs.
Proof. repeat constructor. Qed.

(** The websocket of the server, with a pause. *)
Definition sample_sent : list text := to_text <$> Message.Start :: sample_msgs ++ [Message.Finish].

Definition sample_execute : VeritechServer.Execute := {|
  VeritechServer.pool := Answered true; VeritechServer.connected := Answered true;
  VeritechServer.websocket :=
    {| polls := Pending :: (Ready ∘ Ok ∘ Text <$> sample_sent) ++ [Ready (Ok Close)]; closes := true |};
  VeritechServer.request := Some (chars "{}"); VeritechServer.request_sent := Answered true |}.

Definition no_messages : Nats := {| attempts := 0; published := [] |}.

Lemma sample_handled : Server.handle_socket (R := ResolverFunctionRequest) (λ _, []) 20 sample_world =
  Some (sample_sent, Answered true).
Proof.
  apply (handle_socket_works _ _ _ sample_request [chars "hunter2"] (default Null
    (match decrypt_request 20 sample_request with Some (Ok v) => Some v | _ => None end)) sample_msgs).
  - by constructor.
  - done.
  - by vm_compute.
  - by vm_compute.
  - apply sample_translates.
  - by repeat constructor.
Qed.

(** ** Witnesses *)

(** What is sent for the sample holds no password. *)
Lemma sent_messages_are_redacted_witness : ∃ n, ∀ fuel, n ≤ fuel → ∃ sent closed,
  Server.handle_socket (R := ResolverFunctionRequest) (λ _, []) fuel sample_world = Some (sent, closed) ∧
  (list_secrets fuel sample_request = Some (Ok [chars "hunter2"]) → safe [chars "hunter2"] sent).
Proof.
  destruct (sent_messages_are_redacted (λ _, []) sample_world) as [n Hn].
  - intros request [= <-]. constructor; [apply sample_pointable|constructor].
  - exists n. intros fuel Hf. destruct (Hn fuel Hf) as (sent & closed & Hs & Hsafe). exists sent, closed.
    split; [exact Hs|]. intros Hl. eapply Hsafe; [reflexivity|exact Hl|apply sample_redactable].
Defined.

(** A websocket that fails at once is answered; one from which nothing comes is not. *)
Definition sample_failing (ws : WebSocketStream) : VeritechServer.Execute := {|
  VeritechServer.pool := Answered true; VeritechServer.connected := Answered true; VeritechServer.websocket := ws;
  VeritechServer.request := Some (chars "{}"); VeritechServer.request_sent := Answered true |}.

Lemma resolver_requests_are_answered_witness : ∃ n' item inbox r,
  VeritechServer.resolver_function_request_task (Su := Su) (λ _, true) (λ _, []) 9 20 (chars "1") (Some (chars "inbox"))
    (sample_failing {| polls := [Pending; Ready (Err tt)]; closes := true |}) no_messages = Some n' ∧
  Subscriber.next 1 (VeritechClient.subscribe (published n') (reply_mailbox_for_result (chars "inbox"))) =
    Some (item, inbox) ∧
  VeritechClient.execute_request (Su := Su) (Ok tt) (Ok tt) (VeritechClient.SelectedResult item) = Ok r.
Proof.
  destruct (resolver_requests_are_answered (Su := Su) (λ _, []) 9 20 (chars "1") (chars "inbox")
    (sample_failing {| polls := [Pending; Ready (Err tt)]; closes := true |}) no_messages) as [H|[H _]];
    [by eauto|cbn; lia|constructor|exact H|discriminate H].
Defined.

Lemma hanging_function_is_not_answered fuel :
  VeritechServer.resolver_function_request_task (Su := Su) (λ _, true) (λ _, []) 9 fuel (chars "1") (Some (chars "inbox"))
    (sample_failing {| polls := [Ready (Ok (Text (to_text (Message.Start : Message.t Su))))]; closes := false |})
    no_messages = None.
Proof.
  set (x := sample_failing _).
  assert (VeritechServer.begin (Su := Su) x =
    Answered (Ok {| Client.stream := {| polls := []; closes := false |}; Client.saved := None |})) as Hb by by vm_compute.
  unfold VeritechServer.resolver_function_request_task, VeritechServer.resolver_function_request. rewrite Hb.
  destruct fuel as [|fuel]; [done|]. cbn [VeritechServer.publish_progress].
  assert (∀ k, Client.next_progress (Su := Su) k
    {| Client.stream := {| polls := []; closes := false |}; Client.saved := None |} = None) as ->; [|done].
  by intros k; induction k.
Qed.

(** A validation on a pool that has no server ends in an error; nothing is published. *)
Definition sample_no_pool : VeritechServer.Execute := {|
  VeritechServer.pool := Answered false; VeritechServer.connected := Answered true;
  VeritechServer.websocket := {| polls := []; closes := true |};
  VeritechServer.request := None; VeritechServer.request_sent := Answered true |}.

Lemma other_requests_may_stay_unanswered_witness :
  (∃ n' r, VeritechServer.function_request (Su := Su) (λ _, true) 20 (Some (chars "inbox")) sample_no_pool no_messages =
     Some (n', r) ∧
   match r with
   | Ok _ => ∃ ts (fr : FunctionResult Su) t, to_json fr = Some t ∧ n' = publish_all (answer (chars "inbox") ts t) no_messages
   | Err _ => filter (λ m, subject m = reply_mailbox_for_result (chars "inbox")) (published n') =
              filter (λ m, subject m = reply_mailbox_for_result (chars "inbox")) (published no_messages)
   end) ∧
  VeritechServer.function_request_task (Su := Su) (λ _, true) 20 (Some (chars "inbox")) sample_no_pool no_messages =
    Some no_messages.
Proof.
  split; [|reflexivity].
  destruct (other_requests_may_stay_unanswered (Su := Su) 20 (chars "inbox") sample_no_pool no_messages) as [H|[H _]];
    [cbn; lia|exact H|discriminate H].
Defined.

(** The output and the result of the sample arrive, without the password. *)
Lemma function_output_and_result_arrive_witness : ∃ n',
  VeritechServer.resolver_function_request_task (Su := Su) (λ _, true) (λ _, []) 9 20 (chars "1") (Some (chars "inbox"))
    sample_execute no_messages = Some n' ∧
  (∃ k, ∀ more, VeritechClient.forward_output_task (k + more)
     (VeritechClient.subscribe (published n') (reply_mailbox_for_output (chars "inbox"))) = Some [sample_output]) ∧
  ∃ item inbox,
    Subscriber.next 1 (VeritechClient.subscribe (published n') (reply_mailbox_for_result (chars "inbox"))) =
      Some (item, inbox) ∧
    VeritechClient.execute_request (Ok tt) (Ok tt) (VeritechClient.SelectedResult item) = Ok sample_result.
Proof.
  destruct (function_output_and_result_arrive (R := ResolverFunctionRequest) (λ _, []) (λ _, []) 9 20 sample_world
    (chars "{}") sample_request [chars "hunter2"] (default Null
    (match decrypt_request 20 sample_request with Some (Ok v) => Some v | _ => None end)) sample_msgs (chars "1")
    (chars "inbox") sample_execute no_messages) as (sent & Hsent & Harrive);
    [by constructor|done|done|by vm_compute|by vm_compute|apply sample_translates|by eauto..|done|done|done|done| |constructor|].
  - cbn. lia.
  - rewrite sample_handled in Hsent. injection Hsent as <-. destruct Harrive as (n' & Hn & Hout & _ & Hr).
    + reflexivity.
    + by exists n'.
Defined.

(** ** What the code does not promise *)

(** When the output subscriber is closed before the final message, forwarding does not end: the error is
    read again and again. *)
Lemma forwarding_a_closed_output_does_not_end fuel messages mailbox : (∀ m, m ∈ messages → subject m ≠ mailbox) →
  VeritechClient.forward_output_task fuel (VeritechClient.subscribe messages mailbox) = None.
Proof.
  intros Hm. assert (VeritechClient.subscribe messages mailbox = VeritechClient.subscribe [] mailbox) as ->.
  { unfold VeritechClient.subscribe. do 2 f_equal. apply filter_none, Forall_forall. intros m ?%list_elem_of_In. by apply Hm. }
  induction fuel as [|fuel IH]; [done|]. cbn. exact IH.
Qed.

(** A credential that starts another one leaves the rest of the other. *)
Lemma redacting_a_prefix_first_leaves_the_rest :
  redact [chars "pass"; chars "password"] (chars "password") = chars "[redacted]word".
Proof. reflexivity. Qed.

(** The keys of objects are not redacted. *)
Lemma redacting_leaves_the_keys :
  redact_value 5 [chars "hunter2"] (Object [(chars "hunter2", Null)]) = Some (Object [(chars "hunter2", Null)]).
Proof. reflexivity. Qed.

(** A credential that is part of a status makes a result unreadable. *)
Lemma redacting_the_status_loses_the_result :
  Server.filter_result 20 (LangSuccess {| lv_execution_id := chars "1"; lv_valid := true; lv_message := None |} : LangServerResult L)
    [chars "success"] = Some (Err CycloneServer.JSONDeserialize).
Proof. reflexivity. Qed.
