(* ===== verification/Validations.v ===== *)
(** * Builtin functions and validations

    Model of [src/lib/dal/src/validation.rs] and of the functions that run in the dal
    itself ([src/lib/dal/src/func/backend/]: [array.rs], [boolean.rs], [diff.rs],
    [identity.rs], [integer.rs], [map.rs], [object.rs], [string.rs],
    [validation.rs]). Strings are sequences of characters and an [i64] is a [Z]. The
    text of an error is the inductive type of its parts. *)

From S2P Require Import Prelude Redaction.
From Stdlib Require Import NArith ZArith Strings.Ascii Strings.String.
From stdpp Require Import base tactics sets list.

Abbreviation text := (list N) (only parsing).

(** Numbers of [serde_json], and its equality of values. *)
Class SerdeValue := {
  as_i64 : text → option Z;
  number_of : Z → text;
  value_eqb : Value → Value → bool;
}.

Class SerdeValueOk (S : SerdeValue) :=
  as_i64_number z : (- 2 ^ 63 ≤ z < 2 ^ 63)%Z → as_i64 (number_of z) = Some z.

(** The digits of Unicode, which [\d] of the [regex] crate matches. *)
Class UnicodeDigits := { is_decimal_digit : N → bool }.

Class UnicodeDigitsOk (U : UnicodeDigits) :=
  ascii_digits c : (c < 128)%N → is_decimal_digit c = (48 <=? c)%N && (c <=? 57)%N.

(** ** Addresses

    [IpAddr::from_str] of the standard library. A parser takes characters from the
    front, or leaves them all. *)

Module IpAddr.

Definition parser (A : Type) : Type := text → option (A * text).

(** [char::to_digit]. *)
Definition to_digit (radix c : N) : option N :=
  let d := if (48 <=? c)%N && (c <=? 57)%N then Some (c - 48)%N
           else if (97 <=? c)%N && (c <=? 122)%N then Some (c - 87)%N
           else if (65 <=? c)%N && (c <=? 90)%N then Some (c - 55)%N else None in
  match d with Some d => if (d <? radix)%N then Some d else None | None => None end.

(** The digits at the front. *)
Fixpoint take_digits (radix : N) (s : text) : list N * text :=
  match s with
  | [] => ([], [])
  | c :: s' =>
      match to_digit radix c with
      | Some d => let '(ds, rest) := take_digits radix s' in (d :: ds, rest)
      | None => ([], s)
      end
  end.

Definition number (radix : N) (ds : list N) : N := foldl (λ n d, n * radix + d)%N 0%N ds.

(** [read_number] with a maximum of digits, for a number up to [bound]. *)
Definition read_number (radix : N) (max_digits : nat) (allow_zero_prefix : bool) (bound : N) : parser N := λ s,
  let '(ds, rest) := take_digits radix s in
  if bool_decide (max_digits < length ds) then None
  else match ds with
       | [] => None
       | d :: _ :: _ => if negb allow_zero_prefix && (d =? 0)%N then None
                        else if (number radix ds <=? bound)%N then Some (number radix ds, rest) else None
       | [d] => if (d <=? bound)%N then Some (d, rest) else None
       end.

Definition read_given_char (c : N) : parser unit := λ s,
  match s with x :: s => if (x =? c)%N then Some (tt, s) else None | [] => None end.

(** [read_separator]: the separator comes before all but the first. *)
Definition read_separator {A} (sep : N) (index : nat) (p : parser A) : parser A := λ s,
  match index with
  | O => p s
  | S _ => '(_, s) ← read_given_char sep s; p s
  end.

Definition dot : N := N_of_ascii "."%char.
Definition colon : N := N_of_ascii ":"%char.

Fixpoint read_octets (index more : nat) : parser (list N) := λ s,
  match more with
  | O => Some ([], s)
  | S more =>
      '(x, s) ← read_separator dot index (read_number 10 3 false 255) s;
      '(xs, s) ← read_octets (S index) more s;
      Some (x :: xs, s)
  end.

Definition read_ipv4_addr : parser (list N) := read_octets 0 4.

(** The number of groups that are read, and whether an IPv4 address ends them. *)
Fixpoint read_groups (index more : nat) (s : text) : nat * bool * text :=
  match more with
  | O => (0, false, s)
  | S more =>
      match (if bool_decide (0 < more) then read_separator colon index read_ipv4_addr s else None) with
      | Some (_, s) => (2, true, s)
      | None =>
          match read_separator colon index (read_number 16 4 true 65535) s with
          | Some (_, s) => let '(n, ipv4, s) := read_groups (S index) more s in (S n, ipv4, s)
          | None => (0, false, s)
          end
      end
  end.

Definition read_ipv6_addr : parser unit := λ s,
  let '(head, ipv4, s) := read_groups 0 8 s in
  if bool_decide (head = 8) then Some (tt, s)
  else if ipv4 then None
  else
    '(_, s) ← read_given_char colon s;
    '(_, s) ← read_given_char colon s;
    let '(_, _, s) := read_groups 0 (7 - head) s in
    Some (tt, s).

(** Whether the whole text is an address. *)
Definition from_str (s : text) : bool :=
  match read_ipv4_addr s with
  | Some (_, rest) => bool_decide (rest = [])
  | None => match read_ipv6_addr s with Some (_, rest) => bool_decide (rest = []) | None => false end
  end.

End IpAddr.

(** ** Functions *)

Inductive PropKind : Set := KindArray | KindBoolean | KindInteger | KindMap | KindObject | KindString.

#[export] Instance prop_kind_eq_dec : EqDecision PropKind.
Proof. solve_decision. Defined.

(** The errors of functions that run in the dal, and of those that do not. *)
Inductive FuncBackendError : Type :=
| DifferingArrayEntryPropKinds (expected found : PropKind)
| InvalidArrayEntryData (value : Value)
| SerdeJson
| ResultFailure
| DispatchFailed.

(** The unprocessed and the processed value. *)
Abbreviation Returned := (option Value * option Value)%type (only parsing).

Section backends.
Context {S : SerdeValue}.

Definition entry_kind (entry : Value) : option PropKind :=
  match entry with
  | Array _ => Some KindArray
  | Number n => match as_i64 n with Some _ => Some KindInteger | None => None end
  | Object _ => Some KindObject
  | Bool _ => Some KindBoolean
  | String_ _ => Some KindString
  | Null => None
  end.

Fixpoint check_entries (value : Value) (first_kind_found : option PropKind) (entries : list Value) :
    result FuncBackendError unit :=
  match entries with
  | [] => Ok tt
  | entry :: entries =>
      match entry_kind entry with
      | None => Err (InvalidArrayEntryData value)
      | Some kind =>
          match first_kind_found with
          | Some v => if decide (v ≠ kind) then Err (DifferingArrayEntryPropKinds v kind)
                      else check_entries value first_kind_found entries
          | None => check_entries value (Some kind) entries
          end
      end
  end.

Definition array_inline (args : list Value) : result FuncBackendError Returned :=
  _ ← check_entries (Array args) None args;
  Ok (Some (Array args), Some (Array [])).

Definition boolean_inline (args : bool) : result FuncBackendError Returned :=
  Ok (Some (Bool args), Some (Bool args)).

Definition diff_inline (first second : Value) : result FuncBackendError Returned :=
  let diff := Object [(chars "diff", Bool (negb (value_eqb first second))); (chars "newValue", second)] in
  Ok (Some diff, Some diff).

Definition identity_inline (args : option Value) : result FuncBackendError Returned :=
  Ok (Some (default Null args), Some (default Null args)).

Definition integer_inline (args : Z) : result FuncBackendError Returned :=
  Ok (Some (Number (number_of args)), Some (Number (number_of args))).

Definition map_inline (args : list (text * Value)) : result FuncBackendError Returned :=
  Ok (Some (Object args), Some (Object [])).

Definition object_inline (args : list (text * Value)) : result FuncBackendError Returned :=
  Ok (Some (Object args), Some (Object [])).

Definition string_inline (args : text) : result FuncBackendError Returned :=
  Ok (Some (String_ args), Some (String_ args)).

End backends.

(** ** Validations *)

Inductive ValidationErrorKind : Set :=
| IntegerNotInBetweenTwoIntegers
| InvalidHexString
| InvalidIpAddr
| JsValidation
| StringDoesNotEqual
| StringDoesNotHavePrefix
| StringNotInStringArray
| ValueMustBePresent.

(** The messages, by what they are made of. *)
Inductive Message : Type :=
| FieldIsRequired
| NotBetween (value lower_bound upper_bound : Z)
| InvalidAddress (value : text)
| NotHex (value : text)
| DoesNotMatch (value expected : text)
| NoPrefix (value expected : text)
| NotFound (value : text) (expected : option (list text))
| JsMessage (message : option text).

Record ValidationError := {
  message : Message;
  level : option text;
  kind : ValidationErrorKind;
  link : option text;
}.

Inductive ValidationConstructorError : Type :=
| InvalidValueKind (expected : text) (value : Value).

Inductive Validation : Type :=
| IntegerIsBetweenTwoIntegers (value : option Z) (lower_bound upper_bound : Z)
| IntegerIsNotEmpty (value : option Z)
| StringEquals (value : option text) (expected : text)
| StringHasPrefix (value : option text) (expected : text)
| StringInStringArray (value : option text) (expected : list text) (display_expected : bool)
| StringIsHexColor (value : option text)
| StringIsNotEmpty (value : option text)
| StringIsValidIpAddr (value : option text).

Module Validate.
Section validate.
Context {S : SerdeValue} {U : UnicodeDigits}.

Definition value_as_string (maybe_value : option Value) : result ValidationConstructorError (option text) :=
  match maybe_value with
  | Some (String_ s) => Ok (Some s)
  | Some value => Err (InvalidValueKind (chars "String") value)
  | None => Ok None
  end.

Definition value_as_i64 (maybe_value : option Value) : result ValidationConstructorError (option Z) :=
  match maybe_value with
  | Some value =>
      match (match value with Number n => as_i64 n | _ => None end) with
      | Some z => Ok (Some z)
      | None => Err (InvalidValueKind (chars "i64") value)
      end
  | None => Ok None
  end.

Definition update_value (self : Validation) (value : option Value) : result ValidationConstructorError Validation :=
  match self with
  | IntegerIsBetweenTwoIntegers _ lower_bound upper_bound =>
      value ← value_as_i64 value; Ok (IntegerIsBetweenTwoIntegers value lower_bound upper_bound)
  | IntegerIsNotEmpty _ => value ← value_as_i64 value; Ok (IntegerIsNotEmpty value)
  | StringEquals _ expected => value ← value_as_string value; Ok (StringEquals value expected)
  | StringHasPrefix _ expected => value ← value_as_string value; Ok (StringHasPrefix value expected)
  | StringInStringArray _ expected display_expected =>
      value ← value_as_string value; Ok (StringInStringArray value expected display_expected)
  | StringIsValidIpAddr _ => value ← value_as_string value; Ok (StringIsValidIpAddr value)
  | StringIsHexColor _ => value ← value_as_string value; Ok (StringIsHexColor value)
  | StringIsNotEmpty _ => value ← value_as_string value; Ok (StringIsNotEmpty value)
  end.

(** [^#[\dA-Fa-f]{6,8}$]. *)
Definition hex_char (c : N) : bool :=
  is_decimal_digit c || ((65 <=? c)%N && (c <=? 70)%N) || ((97 <=? c)%N && (c <=? 102)%N).

Definition is_match_hex_color (s : text) : bool :=
  match s with
  | c :: s => (c =? N_of_ascii "#"%char)%N && forallb hex_char s && bool_decide (6 ≤ length s ≤ 8)
  | [] => false
  end.

Definition error (kind : ValidationErrorKind) (message : Message) : ValidationError :=
  {| message := message; level := None; kind := kind; link := None |}.

Definition value_must_be_present_error : ValidationError := error ValueMustBePresent FieldIsRequired.

Definition maybe_validation_error (v : Validation) : option ValidationError :=
  match v with
  | IntegerIsBetweenTwoIntegers value lower_bound upper_bound =>
      match value with
      | Some value =>
          if ((lower_bound <? value) && (value <? upper_bound))%Z then None
          else Some (error IntegerNotInBetweenTwoIntegers (NotBetween value lower_bound upper_bound))
      | None => Some value_must_be_present_error
      end
  | IntegerIsNotEmpty value =>
      match value with Some _ => None | None => Some value_must_be_present_error end
  | StringIsNotEmpty value =>
      match value with
      | Some value => if bool_decide (value = []) then Some value_must_be_present_error else None
      | None => Some value_must_be_present_error
      end
  | StringIsValidIpAddr value =>
      match value with
      | Some value => if IpAddr.from_str value then None else Some (error InvalidIpAddr (InvalidAddress value))
      | None => Some value_must_be_present_error
      end
  | StringIsHexColor value =>
      match value with
      | Some value => if is_match_hex_color value then None else Some (error InvalidHexString (NotHex value))
      | None => None
      end
  | StringEquals value expected =>
      match value with
      | Some value =>
          if bool_decide (value = expected) then None
          else Some (error StringDoesNotEqual (DoesNotMatch value expected))
      | None => Some value_must_be_present_error
      end
  | StringHasPrefix value expected =>
      match value with
      | Some value =>
          if starts_with expected value then None
          else Some (error StringDoesNotHavePrefix (NoPrefix value expected))
      | None => Some value_must_be_present_error
      end
  | StringInStringArray value expected display_expected =>
      match value with
      | Some value =>
          if existsb (λ e, bool_decide (e = value)) expected then None
          else Some (error StringNotInStringArray (NotFound value (if display_expected : bool then Some expected else None)))
      | None => Some value_must_be_present_error
      end
  end.

(** The errors, in the array that is returned. *)
Definition validation_inline (v : Validation) : list ValidationError :=
  match maybe_validation_error v with Some e => [e] | None => [] end.

(** [ValidationResultSuccess::extract], and a failure that becomes an invalid result. *)
Definition js_extract (valid : bool) (message : option text) : option (list ValidationError) :=
  if valid then None else Some [error JsValidation (JsMessage message)].

End validate.
End Validate.

(** ** Dotted quads *)

Definition digits10 (n : N) : list N :=
  if (n <? 10)%N then [n]
  else if (n <? 100)%N then [(n / 10)%N; (n mod 10)%N]
  else [(n / 100)%N; ((n / 10) mod 10)%N; (n mod 10)%N].

(** The decimal text of a number below 1000. *)
Definition decimal (n : N) : text := (λ d, 48 + d)%N <$> digits10 n.

Definition no_digit (s : text) : Prop := match s with c :: _ => IpAddr.to_digit 10 c = None | [] => True end.

Lemma to_digit_10 c d : IpAddr.to_digit 10 c = Some d ↔ c = (48 + d)%N ∧ (d < 10)%N.
Proof.
  unfold IpAddr.to_digit.
  destruct (N.leb_spec 48 c), (N.leb_spec c 57); cbn [andb].
  2,3,4: destruct (N.leb_spec 97 c), (N.leb_spec c 122), (N.leb_spec 65 c), (N.leb_spec c 90); cbn [andb].
  all: repeat match goal with |- context [(?a <? ?b)%N] => destruct (N.ltb_spec a b) end; split; intros Hd;
    try done; try (injection Hd as <-); try lia; try (f_equal; lia).
Qed.

Lemma take_digits_10 ds rest : Forall (λ d, (d < 10)%N) ds → no_digit rest →
  IpAddr.take_digits 10 (((λ d, 48 + d)%N <$> ds) ++ rest) = (ds, rest).
Proof.
  intros Hds Hrest. induction Hds as [|d ds Hd _ IH]; cbn.
  - destruct rest as [|c rest]; [done|]. cbn in *. by rewrite Hrest.
  - rewrite (proj2 (to_digit_10 (48 + d) d)) by (split; [lia|done]). by rewrite IH.
Qed.

Lemma take_digits_split s : ∃ ds rest, IpAddr.take_digits 10 s = (ds, rest) ∧
  s = ((λ d, 48 + d)%N <$> ds) ++ rest ∧ Forall (λ d, (d < 10)%N) ds ∧ no_digit rest.
Proof.
  induction s as [|c s (ds & rest & Ht & Hs & Hds & Hr)]; cbn; [by exists [], []|].
  destruct (IpAddr.to_digit 10 c) as [d|] eqn:Hc.
  - apply to_digit_10 in Hc as [-> Hd]. exists (d :: ds), rest. rewrite Ht. split_and!; [done|by rewrite Hs|by constructor|done].
  - exists [], (c :: s). by split_and!.
Qed.

Lemma digits10_small n : (n < 1000)%N → Forall (λ d, (d < 10)%N) (digits10 n).
Proof.
  intros Hn. unfold digits10. repeat case_match; repeat constructor;
    repeat match goal with H : (_ <? _)%N = _ |- _ => first [apply N.ltb_lt in H | apply N.ltb_ge in H] end;
    try apply N.mod_lt; try done; apply N.Div0.div_lt_upper_bound; lia.
Qed.

(** The digits of a number, and the number of its digits. *)
Lemma digits10_number ds : Forall (λ d, (d < 10)%N) ds → ds ≠ [] → length ds ≤ 3 →
  (1 < length ds → head ds ≠ Some 0%N) → digits10 (IpAddr.number 10 ds) = ds ∧ (IpAddr.number 10 ds < 1000)%N.
Proof.
  intros Hds Hne Hl Hh. unfold IpAddr.number, digits10.
  destruct ds as [|d [|d2 [|d3 [|d4 ds]]]]; cbn in Hl; try lia; [done|..]; cbn in Hh; cbn [foldl];
    repeat match goal with H : Forall _ (_ :: _) |- _ => apply Forall_cons in H as [? ?] end.
  - rewrite N.mul_0_l, N.add_0_l. destruct (N.ltb_spec d 10); [split; [done|lia]|lia].
  - assert (d ≠ 0)%N by (intros ->; apply Hh; [lia|done]).
    destruct (N.ltb_spec ((0 * 10 + d) * 10 + d2) 10); [lia|].
    destruct (N.ltb_spec ((0 * 10 + d) * 10 + d2) 100); [|lia]. split; [|lia].
    f_equal; [|f_equal]; zify; Z.to_euclidean_division_equations; lia.
  - assert (d ≠ 0)%N by (intros ->; apply Hh; [lia|done]).
    destruct (N.ltb_spec (((0 * 10 + d) * 10 + d2) * 10 + d3) 10); [lia|].
    destruct (N.ltb_spec (((0 * 10 + d) * 10 + d2) * 10 + d3) 100); [lia|]. split; [|lia].
    f_equal; [|f_equal; [|f_equal]]; zify; Z.to_euclidean_division_equations; lia.
Qed.

Lemma number_digits10 n : (n < 1000)%N → IpAddr.number 10 (digits10 n) = n ∧ digits10 n ≠ [] ∧
  length (digits10 n) ≤ 3 ∧ (1 < length (digits10 n) → head (digits10 n) ≠ Some 0%N).
Proof.
  intros Hn. unfold IpAddr.number, digits10. destruct (N.ltb_spec n 10), (N.ltb_spec n 100); cbn [foldl length head].
  1,2: split_and!; [lia|done|lia|lia].
  1,2: split_and!; [|done|lia|intros _ [= Hd]]; zify; Z.to_euclidean_division_equations; lia.
Qed.

(** [read_number] on a text that starts with digits. *)
Lemma read_number_digits ds rest : Forall (λ d, (d < 10)%N) ds → no_digit rest →
  IpAddr.read_number 10 3 false 255 (((λ d, 48 + d)%N <$> ds) ++ rest) =
    if decide (ds ≠ [] ∧ length ds ≤ 3 ∧ (1 < length ds → head ds ≠ Some 0%N) ∧ (IpAddr.number 10 ds ≤ 255)%N)
    then Some (IpAddr.number 10 ds, rest) else None.
Proof.
  intros Hds Hrest. unfold IpAddr.read_number. rewrite take_digits_10 by done.
  case_bool_decide as Hl; [by rewrite decide_False by lia|].
  destruct ds as [|d [|d2 ds]].
  - by rewrite decide_False by naive_solver.
  - apply Forall_cons in Hds as [Hd _]. unfold IpAddr.number. cbn [foldl]. rewrite N.mul_0_l, N.add_0_l.
    destruct (N.leb_spec d 255); [|lia]. rewrite decide_True; [done|]. split_and!; [done|cbn; lia|cbn; lia|lia].
  - cbn [negb andb]. destruct (N.eqb_spec d 0) as [->|Hd0].
    { rewrite decide_False; [done|]. intros (_ & _ & Hh & _). apply Hh; [cbn; lia|done]. }
    destruct (N.leb_spec (IpAddr.number 10 (d :: d2 :: ds)) 255).
    + rewrite decide_True; [done|]. split_and!; [done|lia|cbn; congruence|done].
    + rewrite decide_False; [done|]. lia.
Qed.

(** Reading a number gives the one whose text is there. *)
Lemma read_octet s n rest : no_digit rest →
  IpAddr.read_number 10 3 false 255 s = Some (n, rest) ↔ (n ≤ 255)%N ∧ s = decimal n ++ rest.
Proof.
  intros Hrest. destruct (take_digits_split s) as (ds & r & _ & -> & Hds & Hr). unfold decimal.
  rewrite read_number_digits by done. split.
  - case_decide as Hd; [|done]. destruct Hd as (Hne & Hl & Hh & Hn). intros [= <- ->].
    destruct (digits10_number ds Hds Hne Hl Hh) as [-> _]. done.
  - intros [Hn Heq]. destruct (number_digits10 n) as (Hnum & Hne & Hl & Hh); [lia|].
    assert (ds = digits10 n ∧ r = rest) as [-> ->].
    { pose proof (take_digits_10 ds r Hds Hr) as H1. rewrite Heq in H1.
      rewrite take_digits_10 in H1 by (try apply digits10_small; done || lia). by injection H1 as <- <-. }
    rewrite decide_True; [by rewrite Hnum|]. rewrite Hnum. done.
Qed.

Lemma read_number_rest s n rest : IpAddr.read_number 10 3 false 255 s = Some (n, rest) → no_digit rest.
Proof.
  destruct (take_digits_split s) as (ds & r & _ & -> & Hds & Hr). rewrite read_number_digits by done.
  case_decide; [|done]. by intros [= _ <-].
Qed.

Lemma dot_no_digit s : no_digit (IpAddr.dot :: s).
Proof. done. Qed.

(** Numbers with dots between them; [index] is the number of the first. *)
Fixpoint dotted (index : nat) (xs : list N) : text :=
  match xs with
  | [] => []
  | x :: xs => match index with O => [] | S _ => [IpAddr.dot] end ++ decimal x ++ dotted (S index) xs
  end.

Lemma read_sep {A} c index (p : IpAddr.parser A) s r :
  IpAddr.read_separator c index p s = Some r ↔
    ∃ s', s = match index with O => [] | S _ => [c] end ++ s' ∧ p s' = Some r.
Proof.
  unfold IpAddr.read_separator, IpAddr.read_given_char. destruct index; [naive_solver|].
  destruct s as [|x s]; cbn [mbind option_bind]; [split; [done|by intros (? & ? & _)]|].
  destruct (N.eqb_spec x c) as [->|Hc]; cbn [mbind option_bind]; split.
  - intros Hp. by exists s.
  - by intros (s' & [= ->] & Hp).
  - done.
  - by intros (s' & [= -> _] & _).
Qed.

Lemma read_octets_iff more : ∀ index s xs rest, no_digit rest →
  IpAddr.read_octets index more s = Some (xs, rest) ↔
    length xs = more ∧ Forall (λ x, (x ≤ 255)%N) xs ∧ s = dotted index xs ++ rest.
Proof.
  induction more as [|more IH]; intros index s xs rest Hrest; cbn [IpAddr.read_octets].
  { split; [intros [= <- <-]; naive_solver|]. intros (Hl & _ & ->). by apply length_zero_iff_nil in Hl as ->. }
  split.
  - intros ([x s1] & (s0 & -> & Hx)%read_sep & ([ys s2] & Hys & [= <- <-])%bind_Some)%bind_Some.
    pose proof (read_number_rest _ _ _ Hx) as H1. apply read_octet in Hx as [Hx ->]; [|done].
    apply IH in Hys as (Hl & Hle & ->); [|done]. cbn [dotted length].
    split_and!; [by f_equal|by constructor|by rewrite <-!(assoc_L (++))].
  - intros (Hl & Hle & ->). destruct xs as [|x xs]; [done|]. apply Forall_cons in Hle as [Hx Hle].
    cbn [length] in Hl. injection Hl as Hl. cbn [dotted]. rewrite <-!(assoc_L (++)).
    rewrite (proj2 (read_sep _ index _ _ (x, dotted (S index) xs ++ rest))); cbn [mbind option_bind].
    + rewrite (proj2 (IH (S index) _ xs rest Hrest)) by done. done.
    + eexists. split; [done|]. apply read_octet; [|done]. destruct xs; [done|apply dot_no_digit].
Qed.

Lemma read_ipv4_iff s xs rest : no_digit rest → IpAddr.read_ipv4_addr s = Some (xs, rest) ↔
  length xs = 4 ∧ Forall (λ x, (x ≤ 255)%N) xs ∧ s = dotted 0 xs ++ rest.
Proof. apply read_octets_iff. Qed.

(** ** Arrays *)

Section accepts.
Context {S : SerdeValue} {U : UnicodeDigits}.

(** An array is accepted exactly if all its entries have one kind, and none is null. *)
Lemma array_accepts_iff args : is_ok (array_inline args) = true ↔
  ∃ k, Forall (λ v, entry_kind v = Some k) args.
Proof using Type.
  assert (∀ value k l, check_entries value (Some k) l = Ok tt ↔ Forall (λ v, entry_kind v = Some k) l) as Hsome.
  { intros value k l. induction l as [|v l IH]; cbn; [by rewrite Forall_nil|]. rewrite Forall_cons.
    destruct (entry_kind v) as [k'|]; [|naive_solver]. case_decide; naive_solver. }
  unfold array_inline. destruct args as [|v l]; cbn.
  - split; [|done]. intros _. exists KindArray. constructor.
  - destruct (entry_kind v) as [k|] eqn:Hk.
    + pose proof (Hsome (Array (v :: l)) k l) as Hl. destruct (check_entries _ _ l) as [[]|e]; cbn.
      * split; [|done]. intros _. exists k. constructor; [done|by apply Hl].
      * split; [done|]. intros (k' & [Hk' Hall]%Forall_cons). rewrite Hk in Hk'. injection Hk' as <-.
        by apply Hl in Hall.
    + split; [done|]. intros (k' & [Hk' _]%Forall_cons). congruence.
Qed.

End accepts.
