(* ===== verification/Addresses.v ===== *)
(** * What validations accept

    Theorems about [Validations]: the texts that are addresses, by a grammar that does not
    mention the parser, and what the validations ask of their values. *)

From S2P Require Import Prelude Redaction Validations.
From Stdlib Require Import NArith ZArith Strings.Ascii Strings.String.
From stdpp Require Import base tactics sets list.

(** ** The grammar of addresses *)

(** The texts of four numbers up to 255, without leading zeros, with dots between them. *)
Definition quad (s : text) : Prop := ∃ xs, length xs = 4 ∧ Forall (λ x, (x ≤ 255)%N) xs ∧ s = dotted 0 xs.

(** Up to four hexadecimal digits. *)
Definition group (s : text) : Prop := 1 ≤ length s ≤ 4 ∧ Forall (λ c, c ∈ chars "0123456789abcdefABCDEF") s.

(** Texts with colons between them. *)
Fixpoint with_colons (ss : list text) : text :=
  match ss with
  | [] => []
  | [s] => s
  | s :: ss => s ++ chars ":" ++ with_colons ss
  end.

(** Parts of an address: groups, and then perhaps a quad, which stands for two groups. *)
Inductive parts : nat → list text → Prop :=
| parts_groups gs : Forall group gs → parts (length gs) gs
| parts_quad gs q : Forall group gs → quad q → parts (2 + length gs) (gs ++ [q]).

(** An address has eight groups, or fewer with two colons for those that are missing. *)
Definition ipv6 (s : text) : Prop :=
  (∃ ss, parts 8 ss ∧ s = with_colons ss) ∨
  ∃ gs n ss, Forall group gs ∧ parts n ss ∧ length gs + n ≤ 7 ∧ s = with_colons gs ++ chars "::" ++ with_colons ss.

Definition address (s : text) : Prop := quad s ∨ ipv6 s.

(** ** Groups *)

Definition hex_digit (c : N) : Prop := c ∈ chars "0123456789abcdefABCDEF".

Lemma hex_digit_range c : hex_digit c ↔ (48 ≤ c ≤ 57 ∨ 97 ≤ c ≤ 102 ∨ 65 ≤ c ≤ 70)%N.
Proof.
  unfold hex_digit. change (chars "0123456789abcdefABCDEF") with
    [48; 49; 50; 51; 52; 53; 54; 55; 56; 57; 97; 98; 99; 100; 101; 102; 65; 66; 67; 68; 69; 70]%N.
  rewrite !elem_of_cons, elem_of_nil. lia.
Qed.

Lemma to_digit_16 c : match IpAddr.to_digit 16 c with Some d => hex_digit c ∧ (d < 16)%N | None => ¬ hex_digit c end.
Proof.
  pose proof (hex_digit_range c) as Hc. unfold IpAddr.to_digit.
  destruct (N.leb_spec 48 c), (N.leb_spec c 57), (N.leb_spec 97 c), (N.leb_spec c 122), (N.leb_spec 65 c), (N.leb_spec c 90);
    cbn [andb]; try lia; match goal with |- context [(?a <? ?b)%N] => destruct (N.ltb_spec a b) | _ => idtac end; rewrite ?Hc; lia.
Qed.

(** The text goes on with no digit. *)
Definition no_hex (s : text) : Prop := match s with c :: _ => ¬ hex_digit c | [] => True end.

Lemma take_hex g rest : Forall hex_digit g → no_hex rest → ∃ ds, IpAddr.take_digits 16 (g ++ rest) = (ds, rest) ∧
  length ds = length g ∧ Forall (λ d, (d < 16)%N) ds.
Proof.
  intros Hg Hr. induction Hg as [|c g Hc _ (ds & Ht & Hl & Hd)]; cbn.
  - exists []. split_and!; [|done|constructor]. destruct rest as [|c rest]; [done|]. cbn in *.
    pose proof (to_digit_16 c) as Hd. destruct (IpAddr.to_digit 16 c); [by destruct Hd|done].
  - pose proof (to_digit_16 c) as Hx. destruct (IpAddr.to_digit 16 c) as [d|]; [|done]. exists (d :: ds). rewrite Ht.
    split_and!; [done|cbn; by rewrite Hl|constructor; [apply Hx|done]].
Qed.

Lemma hex_prefix s : ∃ g rest, s = g ++ rest ∧ Forall hex_digit g ∧ no_hex rest.
Proof.
  induction s as [|c s (g & rest & -> & Hg & Hr)]; [by exists [], []|].
  pose proof (to_digit_16 c) as Hc. destruct (IpAddr.to_digit 16 c).
  - exists (c :: g), rest. split_and!; [done|constructor; [apply Hc|done]|done].
  - exists [], (c :: g ++ rest). by split_and!.
Qed.

Lemma number_16 ds : Forall (λ d, (d < 16)%N) ds → length ds ≤ 4 → (IpAddr.number 16 ds ≤ 65535)%N.
Proof.
  intros Hds Hl. unfold IpAddr.number. destruct ds as [|d1 [|d2 [|d3 [|d4 [|d5 ds]]]]]; cbn in Hl; try lia;
    repeat match goal with H : Forall _ (_ :: _) |- _ => apply Forall_cons in H as [? ?] end; cbn [foldl]; lia.
Qed.

(** Reading a number takes a group. *)
Lemma read_group g rest : Forall hex_digit g → no_hex rest →
  if decide (1 ≤ length g ≤ 4) then ∃ n, IpAddr.read_number 16 4 true 65535 (g ++ rest) = Some (n, rest)
  else IpAddr.read_number 16 4 true 65535 (g ++ rest) = None.
Proof.
  intros Hg Hr. destruct (take_hex g rest Hg Hr) as (ds & Ht & Hl & Hd). unfold IpAddr.read_number. rewrite Ht, <- Hl.
  case_decide as Hlen.
  - rewrite bool_decide_false by lia. pose proof (number_16 ds Hd ltac:(lia)) as Hn. destruct ds as [|d [|d2 ds]]; cbn [negb andb length] in *; [lia| |].
    + apply Forall_cons in Hd as [Hd _]. destruct (N.leb_spec d 255), (N.leb_spec d 65535); try lia; by eexists.
    + rewrite (proj2 (N.leb_le _ _) Hn). by eexists.
  - destruct ds as [|d ds]; cbn [length] in *; [by case_bool_decide|]. by rewrite bool_decide_true by lia.
Qed.

(** ** Quads *)

Lemma read_octets_rest more index s xs rest : IpAddr.read_octets index (S more) s = Some (xs, rest) → no_digit rest.
Proof.
  revert index s xs. induction more as [|more IH]; intros index s xs; cbn [IpAddr.read_octets].
  - intros ([x s1] & (s0 & _ & Hx%read_number_rest)%read_sep & ([ys s2] & [= <- <-] & [= _ <-])%bind_Some)%bind_Some. done.
  - intros ([x s1] & _ & ([ys s2] & Hys & [= _ <-])%bind_Some)%bind_Some. by eapply IH.
Qed.

Lemma read_quad s xs rest : IpAddr.read_ipv4_addr s = Some (xs, rest) → ∃ q, quad q ∧ s = q ++ rest.
Proof.
  intros H. pose proof (read_octets_rest 3 0 s xs rest H) as Hr. apply read_ipv4_iff in H as (Hl & Hle & ->); [|done].
  exists (dotted 0 xs). split; [by exists xs|done].
Qed.

Lemma quad_read q rest : quad q → no_digit rest → ∃ xs, IpAddr.read_ipv4_addr (q ++ rest) = Some (xs, rest).
Proof. intros (xs & Hl & Hle & ->) Hr. exists xs. by apply read_ipv4_iff. Qed.

(** The text is at its end, or goes on with a colon. *)
Definition colon_next (s : text) : Prop := match s with c :: _ => c = IpAddr.colon | [] => True end.

Lemma colon_next_no_digit s : colon_next s → no_digit s ∧ no_hex s.
Proof.
  destruct s as [|c s]; [done|]. intros ->. split; [done|]. cbn. rewrite hex_digit_range. unfold IpAddr.colon. cbn. lia.
Qed.

Lemma decimal_digits n c : (n ≤ 255)%N → c ∈ decimal n → (48 ≤ c ≤ 57)%N.
Proof.
  intros Hn (d & -> & Hd)%list_elem_of_fmap. pose proof (digits10_small n ltac:(lia)) as Hs. rewrite Forall_forall in Hs.
  specialize (Hs d Hd). cbn in Hs. lia.
Qed.

(** A quad is no group, nor a text that goes on with a colon after a group. *)
Lemma group_no_quad g rest : Forall hex_digit g → colon_next rest → IpAddr.read_ipv4_addr (g ++ rest) = None.
Proof.
  intros Hg Hr. destruct (IpAddr.read_ipv4_addr (g ++ rest)) as [[xs r]|] eqn:Hq; [exfalso|done].
  apply read_quad in Hq as (q & (ys & Hl & Hle & ->) & Heq). destruct ys as [|x [|y ys]]; [done|done|].
  apply Forall_cons in Hle as [Hx _]. cbn [dotted] in Heq. rewrite app_nil_l, <-!(assoc_L (++)) in Heq. cbn [app] in Heq.
  apply app_eq_inv in Heq as [(k & -> & Hk)|(k & Hk & Hk')].
  - destruct k as [|c k]; cbn in Hk; [|].
    + subst rest. discriminate Hr.
    + injection Hk as <- _. apply Forall_app in Hg as [_ [Hd _]%Forall_cons]. apply hex_digit_range in Hd. cbn in Hd. lia.
  - destruct k as [|c k]; cbn in Hk'.
    + subst rest. discriminate Hr.
    + subst rest. cbn in Hr. subst c. assert (Hin : IpAddr.colon ∈ decimal x) by (rewrite Hk; apply elem_of_app; right; left).
      apply decimal_digits in Hin; [|done]. unfold IpAddr.colon in Hin. cbn in Hin. lia.
Qed.

(** ** Parts *)

Definition sep (index : nat) : text := match index with O => [] | S _ => [IpAddr.colon] end.

Fixpoint colon_text (index : nat) (ss : list text) : text :=
  match ss with [] => [] | s :: ss => sep index ++ s ++ colon_text (S index) ss end.

Lemma colon_text_with_colons ss : colon_text 0 ss = with_colons ss.
Proof.
  assert (H : ∀ i s ss, colon_text (S i) (s :: ss) = IpAddr.colon :: with_colons (s :: ss)).
  { intros i s ss'. revert i s. induction ss' as [|s' ss' IH]; intros i s; [by cbn; rewrite app_nil_r|].
    change (colon_text (S i) (s :: s' :: ss')) with (IpAddr.colon :: s ++ colon_text (S (S i)) (s' :: ss')). by rewrite IH. }
  destruct ss as [|s [|s' ss]]; [done|by cbn; rewrite app_nil_r|].
  change (colon_text 0 (s :: s' :: ss)) with (s ++ colon_text 1 (s' :: ss)). by rewrite H.
Qed.

Lemma colon_text_next index ss rest : colon_next rest → colon_next (colon_text (S index) ss ++ rest).
Proof. by destruct ss. Qed.

(** The parts that are read are followed by the end or by two colons. *)
Definition stops (rest : text) : Prop := rest = [] ∨ ∃ s, rest = IpAddr.colon :: IpAddr.colon :: s.

Lemma stops_next rest : stops rest → colon_next rest.
Proof. by intros [->|[s ->]]. Qed.

Lemma stops_read {A} (p : IpAddr.parser A) index rest : stops rest → (∀ s, colon_next s → p s = None) →
  IpAddr.read_separator IpAddr.colon index p rest = None.
Proof.
  intros Hs Hp. destruct (IpAddr.read_separator IpAddr.colon index p rest) as [r|] eqn:Hr; [exfalso|done].
  apply read_sep in Hr as (s' & Heq & Hr). rewrite Hp in Hr; [done|]. destruct index; cbn in Heq; [subst; by apply stops_next|].
  destruct Hs as [->|[s ->]]; [done|]. by injection Heq as <-.
Qed.

Abbreviation last_quad q := (match q with Some x => [x] | None => [] end).
Abbreviation quad_size q := (match q with Some _ => 2 | None => 0 end).

Lemma group_next_none s : colon_next s → IpAddr.read_ipv4_addr s = None ∧ IpAddr.read_number 16 4 true 65535 s = None.
Proof.
  intros Hs. split; [exact (group_no_quad [] s (List.Forall_nil _) Hs)|].
  exact (read_group [] s (List.Forall_nil _) (proj2 (colon_next_no_digit s Hs))).
Qed.

Lemma read_groups_complete gs (q : option text) : ∀ index more rest, Forall group gs → (∀ x, q = Some x → quad x) → stops rest →
  length gs + quad_size q ≤ more →
  IpAddr.read_groups index more (colon_text index (gs ++ last_quad q) ++ rest) =
    (length gs + quad_size q, match q with Some _ => true | None => false end, rest).
Proof.
  induction gs as [|g gs IH]; intros index more rest Hgs Hq Hs Hle.
  - destruct q as [x|]; cbn [app length Nat.add] in *.
    + destruct more as [|[|more]]; [lia|lia|]. cbn [IpAddr.read_groups colon_text]. rewrite bool_decide_true, app_nil_r, <-(assoc_L (++)) by lia.
      destruct (quad_read x rest (Hq x eq_refl)) as [xs Hx]; [by apply colon_next_no_digit, stops_next|].
      by rewrite (proj2 (read_sep IpAddr.colon index _ _ (xs, rest))) by (by eexists).
    + destruct more as [|more]; [done|]. cbn [IpAddr.read_groups colon_text app].
      rewrite !(stops_read _ index rest Hs) by (intros s H; by apply group_next_none). by destruct (bool_decide _).
  - apply Forall_cons in Hgs as [[Hlen Hg] Hgs]. destruct more as [|more]; [cbn in Hle; lia|].
    cbn [app colon_text]. rewrite <-!(assoc_L (++)). set (tail := colon_text (S index) (gs ++ last_quad q) ++ rest).
    assert (Hn : colon_next tail) by by apply colon_text_next, stops_next. cbn [IpAddr.read_groups].
    assert (H4 : IpAddr.read_separator IpAddr.colon index IpAddr.read_ipv4_addr (sep index ++ g ++ tail) = None).
    { destruct (IpAddr.read_separator _ _ _ _) as [r|] eqn:Hr; [exfalso|done]. apply read_sep in Hr as (s' & Heq & Hr).
      apply app_inv_head in Heq as <-. by rewrite group_no_quad in Hr. }
    rewrite H4. pose proof (read_group g tail Hg (proj2 (colon_next_no_digit tail Hn))) as Hx. rewrite decide_True in Hx by done.
    destruct Hx as [n Hx]. rewrite (proj2 (read_sep IpAddr.colon index _ _ (n, tail))) by (by eexists).
    unfold tail. rewrite IH by (done || cbn in Hle; lia). by destruct (bool_decide _).
Qed.

Lemma read_groups_sound more : ∀ index s n v4 rest, IpAddr.read_groups index more s = (n, v4, rest) →
  ∃ gs (q : option text), Forall group gs ∧ (∀ x, q = Some x → quad x) ∧ v4 = match q with Some _ => true | None => false end ∧
    n = length gs + quad_size q ∧ n ≤ more ∧ s = colon_text index (gs ++ last_quad q) ++ rest.
Proof.
  induction more as [|more IH]; intros index s n v4 rest; cbn [IpAddr.read_groups].
  { intros [= <- <- <-]. exists [], None. by split_and!. }
  destruct (if bool_decide (0 < more) then _ else None) as [[xs s1]|] eqn:H4.
  - case_bool_decide as Hm; [|done]. intros [= <- <- <-]. apply read_sep in H4 as (s' & -> & (q & Hq & ->)%read_quad).
    exists [], (Some q). split_and!; [constructor|by intros x [= <-]|done|done|lia|]. cbn. by rewrite app_nil_r, <-(assoc_L (++)).
  - destruct (IpAddr.read_separator IpAddr.colon index (IpAddr.read_number 16 4 true 65535) s) as [[x s1]|] eqn:H6.
    + destruct (IpAddr.read_groups (S index) more s1) as [[n' v'] r'] eqn:Hr. intros [= <- <- <-].
      destruct (IH _ _ _ _ _ Hr) as (gs & q & Hgs & Hq & -> & -> & Hle & ->). apply read_sep in H6 as (s' & -> & H6).
      destruct (hex_prefix s') as (g & r & -> & Hg & Hno). pose proof (read_group g r Hg Hno) as Hx. case_decide as Hlen; [|congruence].
      destruct Hx as [y Hx]. rewrite Hx in H6. injection H6 as _ ->. exists (g :: gs), q.
      split_and!; [by constructor|done|done|done|lia|]. cbn. by rewrite <-!(assoc_L (++)).
    + intros [= <- <- <-]. exists [], None. split_and!; [constructor|done|done|done|lia|done].
Qed.

(** ** Addresses *)

Lemma parts_iff n ss : parts n ss ↔ ∃ gs (q : option text), Forall group gs ∧ (∀ x, q = Some x → quad x) ∧
  n = length gs + quad_size q ∧ ss = gs ++ last_quad q.
Proof.
  split.
  - destruct 1 as [gs Hgs|gs q Hgs Hq]; [exists gs, None|exists gs, (Some q)]; split_and!; try done; try lia.
    + by rewrite app_nil_r.
    + by intros x [= <-].
  - intros (gs & [q|] & Hgs & Hq & -> & ->).
    + rewrite Nat.add_comm. constructor; [done|by apply Hq].
    + rewrite Nat.add_0_r, app_nil_r. by constructor.
Qed.

Lemma read_ipv6_iff s : (∃ u, IpAddr.read_ipv6_addr s = Some (u, [])) ↔ ipv6 s.
Proof.
  unfold ipv6. setoid_rewrite <- colon_text_with_colons. setoid_rewrite parts_iff. unfold IpAddr.read_ipv6_addr. split.
  - intros [u Hu]. destruct (IpAddr.read_groups 0 8 s) as [[n v4] r] eqn:Hr.
    destruct (read_groups_sound _ _ _ _ _ _ Hr) as (gs & q & Hgs & Hq & -> & -> & Hle & ->).
    case_bool_decide as Hn.
    { injection Hu as _ ->. left. exists (gs ++ last_quad q). split; [by exists gs, q|by rewrite app_nil_r]. }
    right. destruct q as [q|]; [done|]. rewrite Nat.add_0_r, app_nil_r in *. unfold IpAddr.read_given_char in Hu.
    destruct r as [|c r]; [done|]. destruct (N.eqb_spec c IpAddr.colon) as [->|]; [|done]. cbn [mbind option_bind] in Hu.
    destruct r as [|c r]; [done|]. destruct (N.eqb_spec c IpAddr.colon) as [->|]; [|done]. cbn [mbind option_bind] in Hu.
    destruct (IpAddr.read_groups 0 (7 - length gs) r) as [[n v4] r'] eqn:Hr'. injection Hu as _ ->.
    destruct (read_groups_sound _ _ _ _ _ _ Hr') as (gs' & q' & Hgs' & Hq' & _ & -> & Hle' & ->).
    exists gs, (length gs' + quad_size q'), (gs' ++ last_quad q'). split_and!; [done|by exists gs', q'|lia|by rewrite app_nil_r].
  - intros [(ss & (gs & q & Hgs & Hq & Hn & ->) & ->)|(gs & n & ss & Hgs & (gs' & q & Hgs' & Hq & -> & ->) & Hn & ->)].
    + exists tt. pose proof (read_groups_complete gs q 0 8 [] Hgs Hq (or_introl eq_refl) ltac:(lia)) as Hr.
      rewrite app_nil_r in Hr. rewrite Hr. by rewrite bool_decide_true.
    + exists tt. pose proof (read_groups_complete gs None 0 8 (chars "::" ++ colon_text 0 (gs' ++ last_quad q)) Hgs ltac:(done)
        (or_intror (ex_intro _ _ eq_refl)) ltac:(cbn; lia)) as Hr. rewrite Nat.add_0_r, app_nil_r in Hr. rewrite Hr.
      rewrite bool_decide_false by lia. change (chars "::" ++ ?t) with (IpAddr.colon :: IpAddr.colon :: t).
      unfold IpAddr.read_given_char. rewrite N.eqb_refl. cbn [mbind option_bind]. rewrite N.eqb_refl. cbn [mbind option_bind].
      pose proof (read_groups_complete gs' q 0 (7 - length gs) [] Hgs' Hq (or_introl eq_refl) ltac:(lia)) as Hr'.
      rewrite app_nil_r in Hr'. by rewrite Hr'.
Qed.

(** An address of version 6 does not start with a quad. *)
Lemma ipv6_no_quad s : ipv6 s → IpAddr.read_ipv4_addr s = None.
Proof.
  assert (Hstart : ∀ ss rest, Forall group ss → colon_next rest → IpAddr.read_ipv4_addr (colon_text 0 ss ++ rest) = None).
  { intros ss rest Hss Hr. destruct ss as [|g ss]; [by apply group_next_none|]. apply Forall_cons in Hss as [[_ Hg] _].
    cbn [colon_text sep app]. rewrite <- (assoc_L (++)). by apply group_no_quad, colon_text_next. }
  intros [(ss & (gs & q & Hgs & Hq & Hn & ->)%parts_iff & ->)|(gs & n & ss & Hgs & _ & _ & ->)].
  - rewrite <- colon_text_with_colons. destruct gs as [|g gs]; [destruct q; done|]. apply Forall_cons in Hgs as [[_ Hg] _].
    cbn [app colon_text sep]. rewrite <- (app_nil_r (colon_text 1 _)). by apply group_no_quad, colon_text_next.
  - rewrite <- colon_text_with_colons. by apply Hstart.
Qed.

Lemma address_iff s : IpAddr.from_str s = true ↔ address s.
Proof.
  unfold IpAddr.from_str, address. split.
  - destruct (IpAddr.read_ipv4_addr s) as [[xs rest]|] eqn:H4.
    + intros ->%bool_decide_eq_true. left. apply read_quad in H4 as (q & Hq & ->). by rewrite app_nil_r.
    + destruct (IpAddr.read_ipv6_addr s) as [[u rest]|] eqn:H6; [|done]. intros ->%bool_decide_eq_true.
      right. apply read_ipv6_iff. by exists u.
  - intros [Hq|H6].
    + destruct (quad_read s [] Hq I) as [xs Hx]. rewrite app_nil_r in Hx. rewrite Hx. by apply bool_decide_eq_true.
    + rewrite ipv6_no_quad by done. apply read_ipv6_iff in H6 as [u ->]. by apply bool_decide_eq_true.
Qed.

(** ** What validations accept *)

Section accepts.
Context {S : SerdeValue} {U : UnicodeDigits}.

(** The digits of a color: those of Unicode, and letters up to F. *)
Definition color_digit (c : N) : Prop := is_decimal_digit c = true ∨ c ∈ chars "abcdefABCDEF".

(** What a validation asks of its value. *)
Definition satisfied (v : Validation) : Prop :=
  match v with
  | IntegerIsBetweenTwoIntegers value lower upper => ∃ z, value = Some z ∧ (lower < z < upper)%Z
  | IntegerIsNotEmpty value => is_Some value
  | StringEquals value expected => value = Some expected
  | StringHasPrefix value expected => ∃ rest, value = Some (expected ++ rest)
  | StringInStringArray value expected _ => ∃ s, value = Some s ∧ s ∈ expected
  | StringIsHexColor value =>
      ∀ s, value = Some s → ∃ ds, s = chars "#" ++ ds ∧ Forall color_digit ds ∧ 6 ≤ length ds ≤ 8
  | StringIsNotEmpty value => ∃ c s, value = Some (c :: s)
  | StringIsValidIpAddr value => ∃ s, value = Some s ∧ address s
  end.

(** The kind of its error. *)
Definition error_kind (v : Validation) : ValidationErrorKind :=
  match v with
  | IntegerIsBetweenTwoIntegers (Some _) _ _ => IntegerNotInBetweenTwoIntegers
  | StringEquals (Some _) _ => StringDoesNotEqual
  | StringHasPrefix (Some _) _ => StringDoesNotHavePrefix
  | StringInStringArray (Some _) _ _ => StringNotInStringArray
  | StringIsHexColor _ => InvalidHexString
  | StringIsValidIpAddr (Some _) => InvalidIpAddr
  | _ => ValueMustBePresent
  end.

Lemma color_digit_iff c : Validate.hex_char c = true ↔ color_digit c.
Proof using Type.
  unfold Validate.hex_char, color_digit. change (chars "abcdefABCDEF") with [97; 98; 99; 100; 101; 102; 65; 66; 67; 68; 69; 70]%N.
  rewrite !orb_true_iff, !andb_true_iff, !N.leb_le, !elem_of_cons, elem_of_nil. destruct (is_decimal_digit c); split; auto; intuition lia.
Qed.

Lemma hex_color_iff s : Validate.is_match_hex_color s = true ↔ ∃ ds, s = chars "#" ++ ds ∧ Forall color_digit ds ∧ 6 ≤ length ds ≤ 8.
Proof using Type.
  assert (∀ l, forallb Validate.hex_char l = true ↔ Forall color_digit l) as Hall.
  { induction l as [|c l IH]; cbn; [by rewrite Forall_nil|]. by rewrite andb_true_iff, Forall_cons, IH, color_digit_iff. }
  unfold Validate.is_match_hex_color. destruct s as [|c s]; [split; [done|by intros (ds & ? & _)]|].
  rewrite !andb_true_iff, bool_decide_eq_true, N.eqb_eq, Hall. cbn. naive_solver.
Qed.

(** C32: A builtin validation gives no error exactly if its value is what it asks for,
    and one error of its kind otherwise. A value must be present, except for a color;
    bounds are exclusive; a color has from six to eight digits, seven included, and they
    may be digits of any script; an address is a dotted quad of numbers up to 255 without
    leading zeros, or eight groups of hexadecimal digits, of which the last two may be a
    quad and some may be left out once. *)
Theorem validations_accept_exactly v :
  (Validate.validation_inline v = [] ↔ satisfied v) ∧
  (¬ satisfied v → ∃ e, Validate.validation_inline v = [e] ∧ kind e = error_kind v ∧ level e = None ∧ link e = None).
Proof using Type.
  assert ((∃ e, Validate.maybe_validation_error v = Some e ∧ kind e = error_kind v ∧ level e = None ∧ link e = None ∧
      ¬ satisfied v) ∨ (Validate.maybe_validation_error v = None ∧ satisfied v)) as Hv.
  2: { unfold Validate.validation_inline. destruct Hv as [(e & -> & ? & ? & ? & ?)|[-> ?]]; naive_solver. }
  destruct v as [o l u|o|o e|o e|o es d|o|o|o]; unfold Validate.maybe_validation_error, satisfied;
    (destruct o as [x|]; [|try (left; eexists; split_and!; [done..|]; naive_solver); right; naive_solver]).
  - destruct (Z.ltb_spec l x), (Z.ltb_spec x u); cbn [andb]; [right; split; [done|]; exists x; split; [done|lia]|left..];
      eexists; split_and!; try done; intros (z & [= <-] & ?); lia.
  - right. eauto.
  - case_bool_decide; [right; naive_solver|left]. eexists. split_and!; [done..|]. naive_solver.
  - destruct (starts_with e x) eqn:Hs; [right; split; [done|]|left].
    + apply starts_with_spec in Hs as [rest ->]. eauto.
    + eexists. split_and!; [done..|]. intros [rest [= ->]].
      rewrite (proj2 (starts_with_spec e (e ++ rest))) in Hs by eauto. done.
  - destruct (existsb (λ e, bool_decide (e = x)) es) eqn:Hs; [right; split; [done|]|left].
    + apply existsb_exists in Hs as (y & Hin & ->%bool_decide_eq_true). exists x. split; [done|by apply list_elem_of_In].
    + eexists. split_and!; [done..|]. intros (y & [= <-] & Hin%list_elem_of_In).
      apply not_true_iff_false in Hs. apply Hs, existsb_exists. exists x. by rewrite bool_decide_eq_true.
  - destruct (Validate.is_match_hex_color x) eqn:Hs; [right; split; [done|]|left].
    + intros s [= <-]. by apply hex_color_iff.
    + eexists. split_and!; [done..|]. intros Hx. rewrite (proj2 (hex_color_iff x)) in Hs by by apply Hx. done.
  - case_bool_decide as Hx; [left|right; split; [done|]].
    + eexists. split_and!; [done..|]. subst x. by intros (c & s & [=]).
    + destruct x as [|c s]; [done|]. eauto.
  - destruct (IpAddr.from_str x) eqn:Hs; [right; split; [done|]|left].
    + exists x. split; [done|]. by apply address_iff.
    + eexists. split_and!; [done..|]. intros (s & [= <-] & Ha%address_iff). congruence.
Qed.

End accepts.
