(* ===== verification/ValidationChecks.v ===== *)
(** * Checking the validations of a component

    Model of [src/lib/dal/src/component/validation.rs], of the execution of a
    function in [src/lib/dal/src/func/binding.rs], and of the reading of its results
    in [src/lib/dal/src/validation/resolver.rs]. The rows that are written are lists
    in the order of their ids; the queries, the JSON of arguments and the functions
    that veritech runs are parameters. *)

From S2P Require Import Prelude Redaction Validations.
From Stdlib Require Import NArith ZArith.
From stdpp Require Import base tactics sets gmap list.

Abbreviation Id := N (only parsing).

Inductive FuncBackendKind : Set :=
| BackendArray | BackendBoolean | BackendDiff | BackendIdentity | BackendInteger | JsAction | JsAttribute
| JsReconciliation | JsSchemaVariantDefinition | BackendJsValidation | BackendMap | BackendObject
| BackendString | BackendUnset | BackendValidation.

Module FuncBackendResponseType.

Inductive t : Set :=
| Action | Array | Boolean | CodeGeneration | Identity | Integer | Json | Map | Object | Qualification
| Reconciliation | SchemaVariantDefinition | String | Unset | Validation.

End FuncBackendResponseType.

Module ResolverFunctionResponseType.

Inductive t : Set :=
| Action | Array | Boolean | CodeGeneration | Identity | Integer | Json | Map | Object | Qualification
| String | Unset.

(** [None]: [InvalidResolverFunctionTypeError]. *)
Definition try_from (value : FuncBackendResponseType.t) : option t :=
  match value with
  | FuncBackendResponseType.Action => Some Action
  | FuncBackendResponseType.Array => Some Array
  | FuncBackendResponseType.Boolean => Some Boolean
  | FuncBackendResponseType.Integer => Some Integer
  | FuncBackendResponseType.Identity => Some Identity
  | FuncBackendResponseType.Map => Some Map
  | FuncBackendResponseType.Object => Some Object
  | FuncBackendResponseType.Qualification => Some Qualification
  | FuncBackendResponseType.CodeGeneration => Some CodeGeneration
  | FuncBackendResponseType.String => Some String
  | FuncBackendResponseType.Unset => Some Unset
  | FuncBackendResponseType.Json => Some Json
  | FuncBackendResponseType.Validation | FuncBackendResponseType.Reconciliation
  | FuncBackendResponseType.SchemaVariantDefinition => None
  end.

End ResolverFunctionResponseType.

(** The component that a function of an attribute gets: views of itself and of its
    parents. *)
Inductive ComponentKind : Set := Credential | Standard.

Record ComponentView := {
  view_kind : ComponentKind;
  view_properties : Value;
}.

Record ResolverFunctionComponent := {
  component_data : ComponentView;
  component_parents : list ComponentView;
}.

Record FuncBackendJsAttributeArgs := {
  args_component : ResolverFunctionComponent;
  args_response_type : ResolverFunctionResponseType.t;
}.

(** The derived JSON of the arguments of functions and of errors. *)
Class FuncArgsJson := {
  array_args : Value → option (list Value);
  boolean_args : Value → option bool;
  diff_args : Value → option (Value * Value);
  identity_args : Value → option (option Value);
  integer_args : Value → option Z;
  map_args : Value → option (list (list N * Value));
  object_args : Value → option (list (list N * Value));
  string_args : Value → option (list N);
  validation_args : Value → option Validation;
  validation_args_value : Validation → Value;
  js_validation_args_value : Value → Value;
  js_attribute_args_value : FuncBackendJsAttributeArgs → Value;
  errors_value : list ValidationError → Value;
  errors_of : Value → option (list ValidationError);
}.

Class FuncArgsJsonOk (J : FuncArgsJson) := {
  validation_args_roundtrip v : validation_args (validation_args_value v) = Some v;
  errors_roundtrip l : errors_of (errors_value l) = Some l;
  errors_not_null l : errors_value l ≠ Null;
}.

Inductive FuncBindingError : Type :=
| FuncBackend (e : FuncBackendError)
| InvalidResolverFunctionType (response_type : FuncBackendResponseType.t).

Inductive ComponentError : Type :=
| QueryFailed
| AttributeValueNotFoundForContext (prop_id : Id)
| MissingFuncById (func_id : Id)
| ArgsJson
| ValidationFailed (e : ValidationConstructorError)
| InvalidFuncBackendKindForValidations (kind : FuncBackendKind)
| FuncNotFound (func_id : Id)
| BindingFailed (e : FuncBindingError)
| NoSchemaVariant.

(** ** Rows *)

Record FuncBinding := {
  binding_func_id : Id;
  binding_args : Value;
  binding_kind : FuncBackendKind;
}.

Record ValidationPrototype := {
  prototype_id : Id;
  prototype_func_id : Id;
  prototype_args : Value;
  prototype_link : option (list N);
  prototype_prop_id : Id;
}.

(** An attribute value, and the return value it has. *)
Record AttributeValue := { attribute_value_id : Id; func_binding_return_value_id : Id }.

Record ValidationResolver := {
  validation_prototype_id : Id;
  resolver_attribute_value_id : Id;
  validation_func_id : Id;
  validation_func_binding_id : nat;
  attribute_value_func_binding_return_value_id : Id;
}.

(** Bindings with their processed values, and resolvers; the id of a row is its position. *)
Record Tables := {
  bindings : list (FuncBinding * option Value);
  resolvers : list ValidationResolver;
}.

(** What queries answer, and functions that veritech runs. *)
Record Db := {
  find_for_context : Id → result ComponentError (option AttributeValue);
  return_value : Id → result ComponentError (option (option Value));
  func_kind : Id → result ComponentError (option FuncBackendKind);
  backend_response_type : Id → FuncBackendResponseType.t;
  dispatch : FuncBackendKind → Id → Value → result FuncBackendError (option Value * option Value);
}.

Section checks.
Context {S : SerdeValue} {U : UnicodeDigits} {J : FuncArgsJson} (db : Db).

(** ** Running a function *)

Definition from_backend (r : result FuncBackendError (option Value * option Value)) :
    result FuncBindingError (option Value * option Value) :=
  match r with Ok x => Ok x | Err e => Err (FuncBackend e) end.

Definition with_args {A} (args : option A) (run : A → result FuncBackendError (option Value * option Value)) :
    result FuncBindingError (option Value * option Value) :=
  from_backend match args with Some a => run a | None => Err Validations.SerdeJson end.

(** The view of a function of an attribute has the arguments as its properties. *)
Definition js_attribute_args (response_type : ResolverFunctionResponseType.t) (args : Value) : FuncBackendJsAttributeArgs :=
  {| args_component := {| component_data := {| view_kind := Standard; view_properties := args |};
                          component_parents := [] |};
     args_response_type := response_type |}.

Definition execute_critical_section (b : FuncBinding) : result FuncBindingError (option Value * option Value) :=
  match binding_kind b with
  | BackendJsValidation | JsAction | JsReconciliation =>
      from_backend (dispatch db (binding_kind b) (binding_func_id b) (binding_args b))
  | JsAttribute =>
      let response_type := backend_response_type db (binding_func_id b) in
      match ResolverFunctionResponseType.try_from response_type with
      | None => Err (InvalidResolverFunctionType response_type)
      | Some response_type =>
          from_backend (dispatch db JsAttribute (binding_func_id b)
            (js_attribute_args_value (js_attribute_args response_type (binding_args b))))
      end
  | JsSchemaVariantDefinition =>
      from_backend (dispatch db JsSchemaVariantDefinition (binding_func_id b) Null)
  | BackendArray => with_args (array_args (binding_args b)) array_inline
  | BackendBoolean => with_args (boolean_args (binding_args b)) boolean_inline
  | BackendIdentity => with_args (identity_args (binding_args b)) identity_inline
  | BackendDiff => with_args (diff_args (binding_args b)) (λ '(first, second), diff_inline first second)
  | BackendInteger => with_args (integer_args (binding_args b)) integer_inline
  | BackendMap => with_args (map_args (binding_args b)) map_inline
  | BackendObject => with_args (object_args (binding_args b)) object_inline
  | BackendString => with_args (string_args (binding_args b)) string_inline
  | BackendUnset => Ok (None, None)
  | BackendValidation =>
      with_args (validation_args (binding_args b)) (λ v,
        let value := errors_value (Validate.validation_inline v) in Ok (Some value, Some value))
  end.

(** The binding that is made, by its id. *)
Definition create_and_execute (args : Value) (func_id : Id) (t : Tables) : result ComponentError nat * Tables :=
  match func_kind db func_id with
  | Err e => (Err e, t)
  | Ok None => (Err (FuncNotFound func_id), t)
  | Ok (Some kind) =>
      let b := {| binding_func_id := func_id; binding_args := args; binding_kind := kind |} in
      match execute_critical_section b with
      | Err e => (Err (BindingFailed e), {| bindings := bindings t ++ [(b, None)]; resolvers := resolvers t |})
      | Ok (_, processed) =>
          (Ok (length (bindings t)), {| bindings := bindings t ++ [(b, processed)]; resolvers := resolvers t |})
      end
  end.

(** ** Checking *)

(** The ids of the resolvers of a value and a function; the newest comes first. *)
Definition find_for_attribute_value_and_validation_func (t : Tables) (value_id func_id : Id) : list nat :=
  reverse (omap (λ '(i, r), if decide (resolver_attribute_value_id r = value_id ∧ validation_func_id r = func_id)
                            then Some i else None) (imap pair (resolvers t))).

Definition set_resolver (i : nat) (binding : nat) (return_value_id : Id) (t : Tables) : Tables :=
  {| bindings := bindings t;
     resolvers := alter (λ r,
       {| validation_prototype_id := validation_prototype_id r;
          resolver_attribute_value_id := resolver_attribute_value_id r;
          validation_func_id := validation_func_id r;
          validation_func_binding_id := binding;
          attribute_value_func_binding_return_value_id := return_value_id |}) i (resolvers t) |}.

(** The SQL function takes the function from the binding, and the return value from the value. *)
Definition new_resolver (prototype : Id) (value : AttributeValue) (binding : nat) (func_id : Id) (t : Tables) : Tables :=
  {| bindings := bindings t;
     resolvers := resolvers t ++ [
       {| validation_prototype_id := prototype; resolver_attribute_value_id := attribute_value_id value;
          validation_func_id := func_id; validation_func_binding_id := binding;
          attribute_value_func_binding_return_value_id := func_binding_return_value_id value |}] |}.

Abbreviation Cache := (gmap Id (option Value * AttributeValue)) (only parsing).

(** The value of a prop, from the cache or the database. *)
Definition cached_value (prop_id : Id) (value_cache : Cache) :
    result ComponentError (option Value * AttributeValue * Cache) :=
  match value_cache !! prop_id with
  | Some (value, attribute_value) => Ok (value, attribute_value, value_cache)
  | None =>
      attribute_value ← find_for_context db prop_id;
      attribute_value ← ok_or attribute_value (AttributeValueNotFoundForContext prop_id);
      value ← return_value db (func_binding_return_value_id attribute_value);
      let value := default None value in
      Ok (value, attribute_value, <[prop_id := (value, attribute_value)]> value_cache)
  end.

(** The arguments with the value put in. *)
Definition mutated_args (kind : FuncBackendKind) (p : ValidationPrototype) (maybe_value : option Value) :
    result ComponentError Value :=
  match kind with
  | BackendValidation =>
      v ← ok_or (validation_args (prototype_args p)) ArgsJson;
      match Validate.update_value v maybe_value with
      | Ok v => Ok (validation_args_value v)
      | Err e => Err (ValidationFailed e)
      end
  | BackendJsValidation => Ok (js_validation_args_value (default Null maybe_value))
  | kind => Err (InvalidFuncBackendKindForValidations kind)
  end.

Definition check_single_validation (p : ValidationPrototype) (value_cache : Cache) (t : Tables) :
    result ComponentError Cache * Tables :=
  match
    ('(maybe_value, attribute_value, value_cache) ← cached_value (prototype_prop_id p) value_cache;
     kind ← func_kind db (prototype_func_id p);
     kind ← ok_or kind (MissingFuncById (prototype_func_id p));
     args ← mutated_args kind p maybe_value;
     Ok (attribute_value, args, value_cache))
  with
  | Err e => (Err e, t)
  | Ok (attribute_value, args, value_cache) =>
      match create_and_execute args (prototype_func_id p) t with
      | (Err e, t) => (Err e, t)
      | (Ok binding, t) =>
          (Ok value_cache,
           match last (find_for_attribute_value_and_validation_func t (attribute_value_id attribute_value)
                         (prototype_func_id p)) with
           | Some existing => set_resolver existing binding (func_binding_return_value_id attribute_value) t
           | None => new_resolver (prototype_id p) attribute_value binding (prototype_func_id p) t
           end)
      end
  end.

Fixpoint check_loop (prototypes : list ValidationPrototype) (value_cache : Cache) (t : Tables) :
    result ComponentError unit * Tables :=
  match prototypes with
  | [] => (Ok tt, t)
  | p :: prototypes =>
      match check_single_validation p value_cache t with
      | (Err e, t) => (Err e, t)
      | (Ok value_cache, t) => check_loop prototypes value_cache t
      end
  end.

(** [prototypes] are those of the schema variant, if there is one. *)
Definition check_validations (prototypes : result ComponentError (option (list ValidationPrototype))) (t : Tables) :
    result ComponentError unit * Tables :=
  match prototypes with
  | Err e => (Err e, t)
  | Ok None => (Err NoSchemaVariant, t)
  | Ok (Some prototypes) => check_loop prototypes ∅ t
  end.

(** ** The status *)

(** A row of the query: a value of the component, the return value of a validation of
    it that is up to date, and the prototype. *)
Record StatusRow := {
  row_attribute_value_id : Id;
  row_value : option Value;
  row_prototype : option ValidationPrototype;
}.

(** A JSON null is read as no value. *)
Definition not_null (v : option Value) : option Value := match v with Some Null => None | _ => v end.

Definition binding_value (t : Tables) (r : ValidationResolver) : option Value :=
  (snd <$> bindings t !! validation_func_binding_id r) ≫= not_null.

Definition status_rows (values : list AttributeValue) (prototype : Id → option ValidationPrototype) (t : Tables) :
    list StatusRow :=
  values ≫= λ av,
    match filter (λ r, resolver_attribute_value_id r = attribute_value_id av ∧
                       attribute_value_func_binding_return_value_id r = func_binding_return_value_id av) (resolvers t) with
    | [] => [{| row_attribute_value_id := attribute_value_id av; row_value := None; row_prototype := None |}]
    | rs => (λ r, {| row_attribute_value_id := attribute_value_id av; row_value := binding_value t r;
                     row_prototype := prototype (validation_prototype_id r) |}) <$> rs
    end.

Definition with_link (l : option (list N)) (e : ValidationError) : ValidationError :=
  {| message := message e; level := level e; kind := kind e; link := l |}.

(** The errors of each value. *)
Fixpoint find_status (rows : list StatusRow) (status : gmap Id (list ValidationError)) :
    option (gmap Id (list ValidationError)) :=
  match rows with
  | [] => Some status
  | row :: rows =>
      let errors := default [] (status !! row_attribute_value_id row) in
      match row_value row with
      | Some value_json =>
          more ← errors_of value_json;
          find_status rows (<[row_attribute_value_id row :=
            errors ++ (with_link (row_prototype row ≫= prototype_link) <$> more)]> status)
      | None => find_status rows (<[row_attribute_value_id row := errors]> status)
      end
  end.

(** ** The last validation wins *)

Definition key (r : ValidationResolver) : Id * Id := (resolver_attribute_value_id r, validation_func_id r).

(** One resolver per value and function, and every resolver has its binding. *)
Record tables_ok (t : Tables) : Prop := {
  keys_unique : NoDup (key <$> resolvers t);
  bindings_exist r : r ∈ resolvers t → validation_func_binding_id r < length (bindings t);
}.

(** What the resolver of a value and a function says: the value its function returned, the return value of the
    attribute value that was checked, and the prototype. *)
Definition seen_of (t : Tables) (r : ValidationResolver) : option Value * Id * Id :=
  (binding_value t r, attribute_value_func_binding_return_value_id r, validation_prototype_id r).

Definition seen (t : Tables) : gmap (Id * Id) (option Value * Id * Id) :=
  list_to_map ((λ r, (key r, seen_of t r)) <$> resolvers t).

(** A check without tables: the value that is checked, and what its validation returns. *)
Definition outcome (p : ValidationPrototype) : result ComponentError (AttributeValue * option Value) :=
  av ← find_for_context db (prototype_prop_id p);
  av ← ok_or av (AttributeValueNotFoundForContext (prototype_prop_id p));
  value ← return_value db (func_binding_return_value_id av);
  kind ← func_kind db (prototype_func_id p);
  kind ← ok_or kind (MissingFuncById (prototype_func_id p));
  args ← mutated_args kind p (default None value);
  match execute_critical_section
    {| binding_func_id := prototype_func_id p; binding_args := args; binding_kind := kind |} with
  | Ok (_, processed) => Ok (av, processed)
  | Err e => Err (BindingFailed e)
  end.

(** It replaces what was seen; the prototype is kept. *)
Definition observe (p : ValidationPrototype) (m : gmap (Id * Id) (option Value * Id * Id)) :
    result ComponentError (gmap (Id * Id) (option Value * Id * Id)) :=
  '(av, processed) ← outcome p;
  let k := (attribute_value_id av, prototype_func_id p) in
  Ok (<[k := (not_null processed, func_binding_return_value_id av,
              match m !! k with Some (_, _, q) => q | None => prototype_id p end)]> m).

Fixpoint observe_all (ps : list ValidationPrototype) (m : gmap (Id * Id) (option Value * Id * Id)) :
    result ComponentError (gmap (Id * Id) (option Value * Id * Id)) :=
  match ps with
  | [] => Ok m
  | p :: ps => m ← observe p m; observe_all ps m
  end.

(** The cache has what the database has. *)
Definition cache_ok (c : gmap Id (option Value * AttributeValue)) : Prop :=
  ∀ prop_id value av, c !! prop_id = Some (value, av) →
    find_for_context db prop_id = Ok (Some av) ∧
    ∃ v, return_value db (func_binding_return_value_id av) = Ok v ∧ value = default None v.

Lemma cached_value_spec prop_id c : cache_ok c →
  match (av ← find_for_context db prop_id; av ← ok_or av (AttributeValueNotFoundForContext prop_id);
         value ← return_value db (func_binding_return_value_id av); Ok (default None value, av)) with
  | Ok (value, av) => ∃ c', cached_value prop_id c = Ok (value, av, c') ∧ cache_ok c'
  | Err e => cached_value prop_id c = Err e
  end.
Proof using Type.
  intros Hc. unfold cached_value. destruct (c !! prop_id) as [[value av]|] eqn:Hp.
  - destruct (Hc _ _ _ Hp) as (-> & v & Hv & ->). cbn [mbind result_bind ok_or]. rewrite Hv. cbn. eauto.
  - destruct (find_for_context db prop_id) as [[av|]|e] eqn:Hf; cbn [mbind result_bind ok_or]; [|done..].
    destruct (return_value db (func_binding_return_value_id av)) as [v|e] eqn:Hv; cbn [mbind result_bind]; [|done].
    eexists. split; [done|]. intros q value av' Hq. destruct (decide (q = prop_id)) as [->|Hne].
    + rewrite lookup_insert_eq in Hq. injection Hq as <- <-. eauto.
    + rewrite lookup_insert_ne in Hq by done. by apply Hc.
Qed.

(** Finding a resolver. *)
Lemma elem_of_found t k i : i ∈ find_for_attribute_value_and_validation_func t (fst k) (snd k) ↔
  ∃ r, resolvers t !! i = Some r ∧ key r = k.
Proof using Type.
  unfold find_for_attribute_value_and_validation_func. rewrite elem_of_reverse, list_elem_of_omap. destruct k as [v f].
  split.
  - intros ([j r] & Hj & Hi). apply elem_of_lookup_imap in Hj as (j' & r' & [= -> ->] & Hr). case_decide as Hk; [|done].
    injection Hi as <-. exists r'. split; [done|]. unfold key. destruct Hk. cbn in *. congruence.
  - intros (r & Hr & Hk). exists (i, r). split.
    + apply elem_of_lookup_imap. eauto.
    + unfold key in Hk. rewrite decide_True; [done|]. cbn. by injection Hk.
Qed.

Lemma found_unique t k i r : tables_ok t → resolvers t !! i = Some r → key r = k →
  last (find_for_attribute_value_and_validation_func t (fst k) (snd k)) = Some i.
Proof using Type.
  intros [Hnd _] Hr Hk. destruct (last _) as [j|] eqn:Hl.
  - apply last_Some_elem_of, elem_of_found in Hl as (r' & Hr' & Hk'). f_equal.
    apply (NoDup_lookup (key <$> resolvers t) j i k); [done|rewrite list_lookup_fmap, Hr'; cbn; by rewrite Hk'|].
    rewrite list_lookup_fmap, Hr. cbn. by rewrite Hk.
  - apply last_None in Hl. assert (i ∈ find_for_attribute_value_and_validation_func t (fst k) (snd k)) as Hin
      by (apply elem_of_found; eauto). rewrite Hl in Hin. set_solver.
Qed.

Lemma found_none t k : last (find_for_attribute_value_and_validation_func t (fst k) (snd k)) = None →
  k ∉ (key <$> resolvers t).
Proof using Type.
  intros Hl Hin. apply last_None in Hl. apply list_elem_of_fmap in Hin as (r & -> & [i Hr]%list_elem_of_lookup).
  assert (i ∈ find_for_attribute_value_and_validation_func t (fst (key r)) (snd (key r))) as Hin
    by (apply elem_of_found; eauto). rewrite Hl in Hin. set_solver.
Qed.

Lemma seen_lookup t k x : tables_ok t → seen t !! k = Some x ↔ ∃ r, r ∈ resolvers t ∧ key r = k ∧ seen_of t r = x.
Proof using Type.
  intros [Hnd _]. unfold seen. rewrite <-elem_of_list_to_map, list_elem_of_fmap.
  - split; [intros (r & [= -> ->] & Hr); eauto|]. intros (r & Hr & <- & <-). by exists r.
  - by rewrite <-list_fmap_compose.
Qed.

(** A binding more does not change what was seen. *)
Lemma binding_value_snoc bs b rs rs' r : validation_func_binding_id r < length bs →
  binding_value {| bindings := bs ++ [b]; resolvers := rs |} r = binding_value {| bindings := bs; resolvers := rs' |} r.
Proof using Type. intros Hr. unfold binding_value. cbn. by rewrite lookup_app_l. Qed.

(** The tables with one more binding. *)
Definition bound (t : Tables) (b : FuncBinding) (x : option Value) : Tables :=
  {| bindings := bindings t ++ [(b, x)]; resolvers := resolvers t |}.

(** Seeing tables by their rows. *)
Lemma seen_eq t m : tables_ok t →
  (∀ k x, m !! k = Some x ↔ ∃ r, r ∈ resolvers t ∧ key r = k ∧ seen_of t r = x) → seen t = m.
Proof using Type.
  intros Ht Hm. apply map_eq. intros k. apply option_eq. intros x. rewrite Hm. by apply seen_lookup.
Qed.

(** A resolver takes the place of those with its key. *)
Lemma replaced_seen t b x l1 old l2 r0 : tables_ok t → resolvers t = l1 ++ old ++ l2 →
  Forall (λ r, key r = key r0) old → (key r0 ∉ (key <$> l1)) → (key r0 ∉ (key <$> l2)) →
  validation_func_binding_id r0 = length (bindings t) →
  let t' := {| bindings := bindings t ++ [(b, x)]; resolvers := l1 ++ r0 :: l2 |} in
  tables_ok t' ∧ seen t' = <[key r0 := (not_null x, attribute_value_func_binding_return_value_id r0,
    validation_prototype_id r0)]> (seen t).
Proof using Type.
  intros Ht Hrs Hold H1 H2 Hr0 t'. pose proof Ht as [Hnd Hb]. rewrite Hrs in Hnd.
  assert (∀ r, r ∈ l1 ∨ r ∈ l2 → r ∈ resolvers t ∧ key r ≠ key r0) as Hother.
  { intros r Hr. rewrite Hrs. split; [set_solver|]. intros Hk. rewrite <-Hk in H1, H2.
    destruct Hr; [apply H1|apply H2]; by apply list_elem_of_fmap_2. }
  assert (tables_ok t') as Ht'.
  { split; cbn.
    - rewrite !fmap_app in Hnd. rewrite fmap_app, fmap_cons. apply NoDup_app in Hnd as (Hn1 & Hn12 & Hn2).
      apply NoDup_app in Hn2 as (_ & _ & Hn2). apply NoDup_app. split_and!; [done| |by apply NoDup_cons].
      intros k Hk [->|Hk']%elem_of_cons; [done|]. apply (Hn12 k Hk). apply elem_of_app. by right.
    - intros r. rewrite elem_of_app, elem_of_cons, length_app. cbn. intros Hr.
      assert (r = r0 ∨ r ∈ resolvers t) as [->|Hr']; [destruct Hr as [Hr|[Hr|Hr]]; [right|by left|right]; apply Hother; auto|lia|].
      specialize (Hb r Hr'). lia. }
  split; [done|]. apply seen_eq; [done|]. intros k y.
  assert (∀ r, r ∈ resolvers t → seen_of t' r = seen_of t r) as Hsame.
  { intros r Hr. unfold seen_of, binding_value, t'. cbn [bindings]. rewrite lookup_app_l by by apply Hb. done. }
  assert (seen_of t' r0 = (not_null x, attribute_value_func_binding_return_value_id r0, validation_prototype_id r0)) as Hnew.
  { unfold seen_of, binding_value, t'. cbn [bindings]. rewrite Hr0, lookup_app_r, Nat.sub_diag by lia. done. }
  change (resolvers t') with (l1 ++ r0 :: l2). setoid_rewrite elem_of_app. setoid_rewrite elem_of_cons.
  destruct (decide (k = key r0)) as [->|Hne].
  - rewrite lookup_insert_eq. split.
    + intros [= <-]. exists r0. auto.
    + intros (r & Hr & Hk & <-). destruct Hr as [Hr|[->|Hr]]; [|by rewrite Hnew|];
        exfalso; (destruct (Hother r) as [_ Hn]; [auto|by apply Hn]).
  - rewrite lookup_insert_ne by done. rewrite seen_lookup by done. split.
    + intros (r & Hr & Hk & Hs). exists r. rewrite Hsame by done. split_and!; [|done|done].
      rewrite Hrs, !elem_of_app in Hr. rewrite Forall_forall in Hold.
      destruct Hr as [Hr|[Hr%Hold|Hr]]; [by left|congruence|by right; right].
    + intros (r & Hr & Hk & Hs). destruct Hr as [Hr|[->|Hr]]; [|by congruence|];
        (destruct (Hother r) as [Hin _]; [auto|]); rewrite Hsame in Hs by done; eauto.
Qed.

(** What is written after a function has run. *)
Lemma resolver_written t b x p av : tables_ok t →
  let k := (attribute_value_id av, prototype_func_id p) in
  let t1 := {| bindings := bindings t ++ [(b, x)]; resolvers := resolvers t |} in
  let t' := match last (find_for_attribute_value_and_validation_func t1 (fst k) (snd k)) with
            | Some existing => set_resolver existing (length (bindings t)) (func_binding_return_value_id av) t1
            | None => new_resolver (prototype_id p) av (length (bindings t)) (prototype_func_id p) t1
            end in
  tables_ok t' ∧ seen t' = <[k := (not_null x, func_binding_return_value_id av,
    match seen t !! k with Some (_, _, q) => q | None => prototype_id p end)]> (seen t).
Proof using Type.
  intros Ht k t1. change (find_for_attribute_value_and_validation_func t1 (fst k) (snd k))
    with (find_for_attribute_value_and_validation_func t (fst k) (snd k)).
  destruct (last (find_for_attribute_value_and_validation_func t (fst k) (snd k))) as [i|] eqn:Hl.
  - apply last_Some_elem_of, elem_of_found in Hl as (r & Hr & Hk).
    assert (seen t !! k = Some (seen_of t r)) as ->.
    { apply seen_lookup; [done|]. exists r. split_and!; [by eapply list_elem_of_lookup_2|done|done]. }
    pose proof Ht as [Hnd _]. unfold set_resolver, t1. cbn [bindings resolvers].
    apply list_elem_of_split_length in Hr as (l1 & l2 & Hrs & ->). rewrite Hrs.
    rewrite alter_app_r_alt, Nat.sub_diag by lia. cbn [alter list_alter].
    rewrite Hrs, fmap_app, fmap_cons in Hnd. apply NoDup_app in Hnd as (_ & H12 & [H2 _]%NoDup_cons).
    set (r0 := {| validation_prototype_id := validation_prototype_id r |}).
    assert (key r0 = k) as Hk0 by done. rewrite <-Hk0.
    apply (replaced_seen t b x l1 [r] l2 r0); [done|done|by constructor| |by rewrite Hk0, <-Hk|done].
    rewrite Hk0, <-Hk. intros Hin. apply (H12 _ Hin). by left.
  - pose proof (found_none _ _ Hl) as Hk.
    assert (seen t !! k = None) as ->.
    { apply eq_None_not_Some. intros [x0 (r & Hr & Hkr & _)%seen_lookup]; [|done]. apply Hk. rewrite <-Hkr.
      by apply list_elem_of_fmap_2. }
    apply (replaced_seen t b x (resolvers t) [] []); [done|by rewrite !app_nil_r|constructor|done|by apply not_elem_of_nil|done].
Qed.

Lemma check_step p c t : cache_ok c → tables_ok t →
  match observe p (seen t) with
  | Ok m => ∃ c' t', check_single_validation p c t = (Ok c', t') ∧ cache_ok c' ∧ tables_ok t' ∧ seen t' = m
  | Err e => ∃ t', check_single_validation p c t = (Err e, t')
  end.
Proof using Type.
  intros Hc Ht. pose proof (cached_value_spec (prototype_prop_id p) c Hc) as Hv.
  unfold observe, outcome, check_single_validation.
  destruct (find_for_context db (prototype_prop_id p)) as [[av|]|e]; cbn [mbind result_bind ok_or] in Hv |- *;
    [|rewrite Hv; cbn; by eexists..].
  destruct (return_value db (func_binding_return_value_id av)) as [v|e]; cbn [mbind result_bind] in Hv |- *;
    [|rewrite Hv; cbn; by eexists]. destruct Hv as (c' & -> & Hc'). cbn [mbind result_bind].
  unfold create_and_execute.
  destruct (func_kind db (prototype_func_id p)) as [[kind|]|e] eqn:Hk; cbn [mbind result_bind ok_or]; [|by eexists..].
  destruct (mutated_args kind p (default None v)) as [args|e]; cbn [mbind result_bind]; [|by eexists].
  destruct (execute_critical_section _) as [[un x]|e]; cbn [mbind result_bind]; [|by eexists].
  eexists c', _. split; [done|]. split; [done|]. by apply resolver_written.
Qed.

Lemma check_loop_seen ps : ∀ c t, cache_ok c → tables_ok t →
  match observe_all ps (seen t) with
  | Ok m => ∃ t', check_loop ps c t = (Ok tt, t') ∧ tables_ok t' ∧ seen t' = m
  | Err e => ∃ t', check_loop ps c t = (Err e, t')
  end.
Proof using Type.
  induction ps as [|p ps IH]; intros c t Hc Ht; cbn [observe_all check_loop]; [by eexists|].
  pose proof (check_step p c t Hc Ht) as Hp. destruct (observe p (seen t)) as [m|e]; cbn [mbind result_bind].
  - destruct Hp as (c' & t' & -> & Hc' & Ht' & <-). by apply IH.
  - destruct Hp as [t' ->]. by eexists.
Qed.

(** The last verdict on a value by a function. *)
Definition verdict (k : Id * Id) (p : ValidationPrototype) : option (option Value * Id) :=
  match outcome p with
  | Ok (av, x) => if decide ((attribute_value_id av, prototype_func_id p) = k)
                  then Some (not_null x, func_binding_return_value_id av) else None
  | Err _ => None
  end.

Definition last_verdict (k : Id * Id) (ps : list ValidationPrototype) : option (option Value * Id) :=
  last (omap (verdict k) ps).

Lemma observe_all_last k ps : ∀ m m', observe_all ps m = Ok m' →
  fst <$> m' !! k = match last_verdict k ps with Some v => Some v | None => fst <$> m !! k end.
Proof using Type.
  induction ps as [|p ps IH]; intros m m'; cbn [observe_all]; [by intros [= ->]|].
  intros (m1 & Hm1 & Hm')%result_bind_ok. rewrite (IH m1 m' Hm'). unfold last_verdict. cbn [omap list_omap].
  unfold observe in Hm1. apply result_bind_ok in Hm1 as ([av x] & Ho & [= <-]).
  assert (verdict k p = if decide ((attribute_value_id av, prototype_func_id p) = k)
    then Some (not_null x, func_binding_return_value_id av) else None) as -> by (unfold verdict; by rewrite Ho). case_decide as Hk.
  - subst k. rewrite lookup_insert_eq. cbn. rewrite last_cons. by destruct (last _).
  - rewrite lookup_insert_ne by done. done.
Qed.

(** C21: Checking the validations of a component leaves one resolver for each value
    and each function, which holds the verdict of the last prototype with that
    function, on the current value, and the id of the first. When a query, the
    arguments of a prototype or a function fail, the check fails with that error. *)
Theorem checks_keep_the_last_verdict ps t : tables_ok t →
  match observe_all ps (seen t) with
  | Ok m => ∃ t', check_validations (Ok (Some ps)) t = (Ok tt, t') ∧ tables_ok t' ∧ seen t' = m ∧
      ∀ k, fst <$> seen t' !! k = match last_verdict k ps with Some v => Some v | None => fst <$> seen t !! k end
  | Err e => ∃ t', check_validations (Ok (Some ps)) t = (Err e, t')
  end.
Proof using Type.
  intros Ht. assert (cache_ok ∅) as Hc by (intros q v av Hq; set_solver).
  pose proof (check_loop_seen ps ∅ t Hc Ht) as Hl. destruct (observe_all ps (seen t)) as [m|e] eqn:Hm; [|done].
  destruct Hl as (t' & Hl & Ht' & Hs). exists t'. split_and!; [done|done|done|]. intros k. rewrite Hs.
  by apply observe_all_last.
Qed.

End checks.
