(* ===== verification/ValidationSample.v ===== *)
(** * Validations, concretely

    JSON as numbers, which behaves as the classes on JSON say, and two validations of
    one prop: the witnesses of the theorems on checks. *)

From S2P Require Import Prelude Redaction Validations ValidationChecks.
From Stdlib Require Import NArith ZArith Strings.String.
From stdpp Require Import base tactics sets gmap list countable.

Abbreviation text := (list N) (only parsing).

(** ** JSON *)

#[export] Instance sample_values : SerdeValue := {|
  as_i64 t := match t with [s; n] => Some (if bool_decide (s = 0%N) then Z.of_N n else - Z.of_N n)%Z | _ => None end;
  number_of z := [if bool_decide (0 ≤ z)%Z then 0%N else 1%N; Z.to_N (Z.abs z)];
  value_eqb _ _ := true;
|}.

#[export] Instance sample_values_ok : SerdeValueOk sample_values.
Proof.
  intros z _. unfold as_i64, number_of, sample_values. f_equal. case_bool_decide; case_bool_decide; done || lia.
Qed.

#[export] Instance sample_digits : UnicodeDigits := {| is_decimal_digit c := (48 <=? c)%N && (c <=? 57)%N |}.

#[export] Instance validation_eq_dec : EqDecision Validation.
Proof. solve_decision. Defined.
#[export] Instance validation_countable : Countable Validation.
Proof.
  apply (inj_countable'
    (λ v, match v with
     | IntegerIsBetweenTwoIntegers v l u => inl (inl (inl (v, l, u)))
     | IntegerIsNotEmpty v => inl (inl (inr v))
     | StringEquals v e => inl (inr (inl (v, e)))
     | StringHasPrefix v e => inl (inr (inr (v, e)))
     | StringInStringArray v e d => inr (inl (inl (v, e, d)))
     | StringIsHexColor v => inr (inl (inr v))
     | StringIsNotEmpty v => inr (inr (inl v))
     | StringIsValidIpAddr v => inr (inr (inr v))
     end)
    (λ c, match c with
     | inl (inl (inl (v, l, u))) => IntegerIsBetweenTwoIntegers v l u
     | inl (inl (inr v)) => IntegerIsNotEmpty v
     | inl (inr (inl (v, e))) => StringEquals v e
     | inl (inr (inr (v, e))) => StringHasPrefix v e
     | inr (inl (inl (v, e, d))) => StringInStringArray v e d
     | inr (inl (inr v)) => StringIsHexColor v
     | inr (inr (inl v)) => StringIsNotEmpty v
     | inr (inr (inr v)) => StringIsValidIpAddr v
     end)). by intros [].
Defined.

#[export] Instance error_kind_eq_dec : EqDecision ValidationErrorKind.
Proof. solve_decision. Defined.
#[export] Instance error_kind_countable : Countable ValidationErrorKind.
Proof.
  apply (inj_countable'
    (λ k, match k with
     | IntegerNotInBetweenTwoIntegers => 0 | InvalidHexString => 1 | InvalidIpAddr => 2 | JsValidation => 3
     | StringDoesNotEqual => 4 | StringDoesNotHavePrefix => 5 | StringNotInStringArray => 6 | ValueMustBePresent => 7
     end)
    (λ n, match n with
     | 0 => IntegerNotInBetweenTwoIntegers | 1 => InvalidHexString | 2 => InvalidIpAddr | 3 => JsValidation
     | 4 => StringDoesNotEqual | 5 => StringDoesNotHavePrefix | 6 => StringNotInStringArray | _ => ValueMustBePresent
     end)). by intros [].
Defined.

#[export] Instance message_eq_dec : EqDecision Message.
Proof. solve_decision. Defined.
#[export] Instance message_countable : Countable Message.
Proof.
  apply (inj_countable'
    (λ m, match m with
     | FieldIsRequired => inl (inl (inl tt))
     | NotBetween v l u => inl (inl (inr (v, l, u)))
     | InvalidAddress v => inl (inr (inl v))
     | NotHex v => inl (inr (inr v))
     | DoesNotMatch v e => inr (inl (inl (v, e)))
     | NoPrefix v e => inr (inl (inr (v, e)))
     | NotFound v e => inr (inr (inl (v, e)))
     | JsMessage m => inr (inr (inr m))
     end)
    (λ c, match c with
     | inl (inl (inl _)) => FieldIsRequired
     | inl (inl (inr (v, l, u))) => NotBetween v l u
     | inl (inr (inl v)) => InvalidAddress v
     | inl (inr (inr v)) => NotHex v
     | inr (inl (inl (v, e))) => DoesNotMatch v e
     | inr (inl (inr (v, e))) => NoPrefix v e
     | inr (inr (inl (v, e))) => NotFound v e
     | inr (inr (inr m)) => JsMessage m
     end)). by intros [].
Defined.

#[export] Instance error_eq_dec : EqDecision ValidationError.
Proof. solve_decision. Defined.
#[export] Instance error_countable : Countable ValidationError.
Proof.
  apply (inj_countable' (λ e, (message e, level e, kind e, link e))
    (λ '(m, l, k, n), Build_ValidationError m l k n)). by intros [].
Defined.

Definition to_value {A} `{Countable A} (a : A) : Value := Number [Npos (encode a)].
Definition from_value {A} `{Countable A} (v : Value) : option A :=
  match v with Number [Npos p] => decode p | _ => None end.

Lemma value_roundtrip {A} `{Countable A} (a : A) : from_value (to_value a) = Some a.
Proof. apply decode_encode. Qed.

#[export] Instance sample_args : FuncArgsJson := {|
  array_args _ := None; boolean_args _ := None; diff_args _ := None; identity_args _ := None;
  integer_args _ := None; map_args _ := None; object_args _ := None; string_args _ := None;
  validation_args := from_value; validation_args_value := to_value; js_validation_args_value v := v;
  js_attribute_args_value a := view_properties (component_data (args_component a));
  errors_value := to_value; errors_of := from_value |}.

#[export] Instance sample_args_ok : FuncArgsJsonOk sample_args.
Proof. split; [apply value_roundtrip|apply value_roundtrip|done]. Qed.

(** ** A prop with two validations *)

(** The value of prop 1 is the empty text; function 5 is the builtin validation. *)
Definition sample_db : Db := {|
  find_for_context _ := Ok (Some {| attribute_value_id := 2; func_binding_return_value_id := 3 |});
  return_value _ := Ok (Some (Some (String_ [])));
  func_kind _ := Ok (Some BackendValidation);
  backend_response_type _ := FuncBackendResponseType.Validation;
  dispatch _ _ _ := Err DispatchFailed |}.

Definition sample_prototype (id : N) (v : Validation) : ValidationPrototype :=
  {| prototype_id := id; prototype_func_id := 5; prototype_args := to_value v; prototype_link := None;
     prototype_prop_id := 1 |}.

Definition not_empty : ValidationPrototype := sample_prototype 10 (StringIsNotEmpty None).
Definition any_text : ValidationPrototype := sample_prototype 11 (StringHasPrefix None []).

Definition no_tables : Tables := {| bindings := []; resolvers := [] |}.

Lemma no_tables_ok : tables_ok no_tables.
Proof. split; [constructor|set_solver]. Qed.

(** ** Witnesses *)

Lemma checks_keep_the_last_verdict_witness :
  match observe_all sample_db [not_empty; any_text] (seen no_tables) with
  | Ok m => ∃ t', check_validations sample_db (Ok (Some [not_empty; any_text])) no_tables = (Ok tt, t') ∧
      tables_ok t' ∧ seen t' = m ∧
      ∀ k, fst <$> seen t' !! k = match last_verdict sample_db k [not_empty; any_text] with
                                  | Some v => Some v | None => fst <$> seen no_tables !! k end
  | Err e => ∃ t', check_validations sample_db (Ok (Some [not_empty; any_text])) no_tables = (Err e, t')
  end.
Proof. exact (checks_keep_the_last_verdict sample_db [not_empty; any_text] no_tables no_tables_ok). Defined.

(** A text that must not be empty is empty; after a second validation of its prop that holds, no error is shown. *)
Lemma second_validation_hides_the_first :
  let '(r, t) := check_validations sample_db (Ok (Some [not_empty; any_text])) no_tables in
  r = Ok tt ∧
  find_status (status_rows [{| attribute_value_id := 2; func_binding_return_value_id := 3 |}] (λ _, None) t) ∅ =
    Some {[2%N := []]}.
Proof. split; reflexivity. Qed.

(** In the other order it is shown. *)
Lemma first_validation_alone_is_shown :
  let '(r, t) := check_validations sample_db (Ok (Some [any_text; not_empty])) no_tables in
  r = Ok tt ∧
  find_status (status_rows [{| attribute_value_id := 2; func_binding_return_value_id := 3 |}] (λ _, None) t) ∅ =
    Some {[2%N := [Validate.value_must_be_present_error]]}.
Proof. split; reflexivity. Qed.

(** A color of seven digits is accepted. *)
Lemma seven_digits_are_a_color :
  Validate.validation_inline (StringIsHexColor (Some (chars "#1234567"))) = [].
Proof. reflexivity. Qed.
