(* ===== verification/ConfigSer.v ===== *)
(** * Default configuration as dotted keys

    Model of [src/lib/config-file/src/layered_load/ser.rs]: a configuration is
    serialized into a flat map from dotted keys to values, the layer of defaults of
    the [config] crate. [Data] is what [serde] hands to a serializer; an integer is a
    [Z] in its range, and a floating point number is its text. *)

From S2P Require Import Prelude Redaction.
From Stdlib Require Import NArith ZArith Strings.Ascii Strings.String.
From stdpp Require Import base tactics sets gmap list pretty.

Abbreviation text := (list N) (only parsing).

(** Values of the [config] crate. *)
Inductive ConfigValue : Type :=
| VNil
| VBoolean (b : bool)
| VI64 (z : Z)
| VFloat (f : text)
| VString (s : text)
| VArray (l : list ConfigValue).

(** The calls a [Serialize] makes, by their arguments. *)
Inductive Data : Type :=
| DBool (b : bool)
| DInt (z : Z)
| DU64 (n : N)
| DFloat (f : text)
| DChar (c : N)
| DStr (s : text)
| DBytes (b : list N)
| DNone
| DSome (d : Data)
| DUnit
| DUnitStruct
| DUnitVariant (variant : text)
| DNewtypeStruct (d : Data)
| DNewtypeVariant (d : Data)
| DSeq (l : list Data)
| DTuple (l : list Data)
| DTupleStruct (l : list Data)
| DTupleVariant (l : list Data)
| DMap (l : list (Data * Data))
| DStruct (l : list (text * Data))
| DStructVariant (l : list (text * Data)).

Inductive SerializerError : Type :=
| IntError
| KeyEmpty
| KeyMustBeAString
| NoArray.

Module Serializer.

Record t := {
  output : gmap text ConfigValue;
  key : text;
  array : option (list ConfigValue);
}.

Definition default : t := {| output := ∅; key := []; array := None |}.

Abbreviation R := (result (fault SerializerError) t) (only parsing).

Definition insert (value : ConfigValue) (s : t) : R :=
  match array s with
  | Some l => Ok {| output := output s; key := key s; array := Some (l ++ [value]) |}
  | None =>
      if bool_decide (key s = []) then Err (Fault KeyEmpty)
      else Ok {| output := <[key s := value]> (output s); key := key s; array := None |}
  end.

Definition dot : N := N_of_ascii "."%char.

Definition push_key (k : text) (s : t) : t :=
  {| output := output s; key := (if bool_decide (key s = []) then k else key s ++ dot :: k); array := array s |}.

(** [match self.key.rfind('.') { Some(at) => split_off(at), _ => clear() }]. *)
Fixpoint cut (k : text) : option text :=
  match k with
  | [] => None
  | c :: k => match cut k with
              | Some k => Some (c :: k)
              | None => if (c =? dot)%N then Some [] else None
              end
  end.

Definition pop_key (s : t) : t :=
  {| output := output s; key := match cut (key s) with Some k => k | None => [] end; array := array s |}.

(** [i64::try_from]. *)
Definition try_from (n : N) : option Z := if (n <? 2 ^ 63)%N then Some (Z.of_N n) else None.

(** [to_string]. *)
Definition int_text (z : Z) : text := chars (pretty z).

(** [MapKeySerializer]. *)
Definition serialize_key (k : Data) (s : t) : R :=
  match k with
  | DInt z => Ok (push_key (int_text z) s)
  | DU64 n => Ok (push_key (int_text (Z.of_N n)) s)
  | DFloat f => Ok (push_key f s)
  | DChar c => Ok (push_key [c] s)
  | DStr k => Ok (push_key k s)
  | _ => Err (Fault KeyMustBeAString)
  end.

Definition start_seq (s : t) : t := {| output := output s; key := key s; array := Some [] |}.

Definition end_seq (s : t) : R :=
  match array s with
  | Some l => Ok {| output := <[key s := VArray l]> (output s); key := key s; array := None |}
  | None => Err (Fault NoArray)
  end.

Definition serialize_bytes (b : list N) (s : t) : R :=
  s ← foldl (λ s byte, s ← s; insert (VI64 (Z.of_N byte)) s) (Ok (start_seq s)) b;
  end_seq s.

Fixpoint serialize (d : Data) (s : t) : R :=
  let elements := fix elements (l : list Data) (s : t) : R :=
    match l with
    | [] => Ok s
    | d :: l => s ← serialize d s; elements l s
    end in
  match d with
  | DBool b => insert (VBoolean b) s
  | DInt z => insert (VI64 z) s
  | DU64 n => match try_from n with Some z => insert (VI64 z) s | None => Err (Fault IntError) end
  | DFloat f => insert (VFloat f) s
  | DChar c => insert (VString [c]) s
  | DStr v => insert (VString v) s
  | DBytes b => serialize_bytes b s
  | DNone | DUnit | DUnitStruct => insert VNil s
  | DSome d | DNewtypeStruct d => serialize d s
  | DUnitVariant variant => insert (VString variant) s
  | DSeq l | DTuple l | DTupleStruct l => s ← elements l (start_seq s); end_seq s
  | DMap l =>
      (fix entries (l : list (Data * Data)) (s : t) : R :=
         match l with
         | [] => Ok s
         | (k, v) :: l => s ← serialize_key k s; s ← serialize v s; entries l (pop_key s)
         end) l s
  | DStruct l =>
      (fix fields (l : list (text * Data)) (s : t) : R :=
         match l with
         | [] => Ok s
         | (k, v) :: l => s ← serialize v (push_key k s); fields l (pop_key s)
         end) l s
  | DNewtypeVariant _ | DTupleVariant _ | DStructVariant _ => Err Panic
  end.

Definition to_hash_map (d : Data) : result (fault SerializerError) (gmap text ConfigValue) :=
  s ← serialize d default; Ok (output s).

End Serializer.

(** ** Configurations *)

(** A configuration: values, and tables of named ones. *)
Inductive Conf : Type :=
| Leaf (v : ConfigValue)
| Node (l : list (text * Conf)).

(** What is written as one value. *)
Fixpoint scalar (d : Data) : option ConfigValue :=
  match d with
  | DBool b => Some (VBoolean b)
  | DInt z => Some (VI64 z)
  | DU64 n => VI64 <$> Serializer.try_from n
  | DFloat f => Some (VFloat f)
  | DChar c => Some (VString [c])
  | DStr s => Some (VString s)
  | DNone | DUnit | DUnitStruct => Some VNil
  | DUnitVariant variant => Some (VString variant)
  | DSome d | DNewtypeStruct d => scalar d
  | _ => None
  end.

Definition key_text (k : Data) : option text :=
  match k with
  | DInt z => Some (Serializer.int_text z)
  | DU64 n => Some (Serializer.int_text (Z.of_N n))
  | DFloat f => Some f
  | DChar c => Some [c]
  | DStr k => Some k
  | _ => None
  end.

(** A configuration, if the data is one: tables of values and of arrays of values. *)
Fixpoint conf (d : Data) : option Conf :=
  match d with
  | DSome d | DNewtypeStruct d => conf d
  | DSeq l | DTuple l | DTupleStruct l => Leaf ∘ VArray <$> mapM scalar l
  | DBytes b => Some (Leaf (VArray ((λ byte, VI64 (Z.of_N byte)) <$> b)))
  | DMap l =>
      Node <$> (fix entries (l : list (Data * Data)) : option (list (text * Conf)) :=
        match l with
        | [] => Some []
        | (k, d) :: l => k ← key_text k; c ← conf d; l ← entries l; Some ((k, c) :: l)
        end) l
  | DStruct l =>
      Node <$> (fix fields (l : list (text * Data)) : option (list (text * Conf)) :=
        match l with
        | [] => Some []
        | (k, d) :: l => c ← conf d; l ← fields l; Some ((k, c) :: l)
        end) l
  | d => Leaf <$> scalar d
  end.

(** Names are different, not empty, and without dots. *)
Fixpoint named (c : Conf) : Prop :=
  match c with
  | Leaf _ => True
  | Node l => NoDup (fst <$> l) ∧
      (fix all (l : list (text * Conf)) : Prop :=
         match l with
         | [] => True
         | (n, c) :: l => n ≠ [] ∧ (Serializer.dot ∉ n) ∧ named c ∧ all l
         end) l
  end.

(** A value of a configuration, by the names that lead to it. *)
Inductive leaf : Conf → list text → ConfigValue → Prop :=
| leaf_here v : leaf (Leaf v) [] v
| leaf_below l n c path v : (n, c) ∈ l → leaf c path v → leaf (Node l) (n :: path) v.

(** Names with dots between them, after a key. *)
Definition push (k n : text) : text := if bool_decide (k = []) then n else k ++ Serializer.dot :: n.
Definition dotted (k : text) (path : list text) : text := foldl push k path.

Fixpoint entries (c : Conf) : list (list text * ConfigValue) :=
  match c with
  | Leaf v => [([], v)]
  | Node l =>
      (fix all (l : list (text * Conf)) : list (list text * ConfigValue) :=
         match l with
         | [] => []
         | (n, c) :: l => ((λ '(path, v), (n :: path, v)) <$> entries c) ++ all l
         end) l
  end.

Definition put_all (k : text) (es : list (list text * ConfigValue)) (m : gmap text ConfigValue) : gmap text ConfigValue :=
  foldl (λ m '(path, v), <[dotted k path := v]> m) m es.

(** ** Induction *)

Lemma Data_ind' (Q : Data → Prop) :
  (∀ d, match d with
        | DSome d | DNewtypeStruct d | DNewtypeVariant d => Q d
        | DSeq l | DTuple l | DTupleStruct l | DTupleVariant l => Forall Q l
        | DMap l => Forall (λ kv, Q kv.2) l
        | DStruct l | DStructVariant l => Forall (λ kv, Q kv.2) l
        | _ => True
        end → Q d) → ∀ d, Q d.
Proof.
  intros H. fix IH 1. intros d. apply H. destruct d; try exact I; try apply IH;
    induction l as [|x l IHl]; constructor; try (apply IH); apply IHl.
Qed.

Lemma Conf_ind' (Q : Conf → Prop) :
  (∀ c, match c with Leaf _ => True | Node l => Forall (λ nc, Q nc.2) l end → Q c) → ∀ c, Q c.
Proof.
  intros H. fix IH 1. intros c. apply H. destruct c as [v|l]; [exact I|].
  induction l as [|x l IHl]; constructor; [apply IH|apply IHl].
Qed.

Lemma named_node l : named (Node l) ↔
  NoDup (fst <$> l) ∧ Forall (λ nc, nc.1 ≠ [] ∧ (Serializer.dot ∉ nc.1) ∧ named nc.2) l.
Proof.
  cbn. f_equiv. induction l as [|[n c] l IH]; [by rewrite Forall_nil|]. rewrite Forall_cons, IH. cbn. tauto.
Qed.

Lemma entries_node l : entries (Node l) = l ≫= λ '(n, c), (λ '(path, v), (n :: path, v)) <$> entries c.
Proof. induction l as [|[n c] l IH]; [done|]. cbn [mbind list_bind]. rewrite <-IH. done. Qed.

Lemma put_all_app k es fs m : put_all k (es ++ fs) m = put_all k fs (put_all k es m).
Proof. apply foldl_app. Qed.

Lemma put_all_below k n es m :
  put_all k ((λ '(path, v), (n :: path, v)) <$> es) m = put_all (push k n) es m.
Proof.
  unfold put_all. revert m. induction es as [|[path v] es IH]; intros m; [done|]. cbn. apply IH.
Qed.

(** ** The serializer *)

Lemma cut_push k n : Serializer.dot ∉ n → match Serializer.cut (push k n) with Some k => k | None => [] end = k.
Proof.
  assert (∀ n, Serializer.dot ∉ n → Serializer.cut n = None) as Hnone.
  { induction n0 as [|c n0 IH]; intros Hn; cbn [Serializer.cut]; [done|]. rewrite IH by set_solver.
    destruct (N.eqb_spec c Serializer.dot) as [->|]; [set_solver|done]. }
  intros Hn. unfold push. case_bool_decide as Hk; [by subst k; rewrite Hnone|].
  assert (Serializer.cut (k ++ Serializer.dot :: n) = Some k) as ->; [|done]. clear Hk.
  induction k as [|c k IH]; cbn [app Serializer.cut]; [by rewrite Hnone|]. by rewrite IH.
Qed.

Lemma scalar_pushed d v : ∀ s l, scalar d = Some v → Serializer.array s = Some l →
  Serializer.serialize d s =
    Ok {| Serializer.output := Serializer.output s; Serializer.key := Serializer.key s; Serializer.array := Some (l ++ [v]) |}.
Proof.
  induction d using Data_ind'. intros s l Hd Hs.
  destruct d; cbn [scalar] in Hd; try done; cbn [Serializer.serialize]; try (by apply H);
    try (injection Hd as <-; unfold Serializer.insert; by rewrite Hs).
  destruct (Serializer.try_from n); [|done]. injection Hd as <-. unfold Serializer.insert. by rewrite Hs.
Qed.

Lemma scalar_inserted d v : ∀ s, scalar d = Some v → Serializer.array s = None → Serializer.key s ≠ [] →
  Serializer.serialize d s = Ok {| Serializer.output := <[Serializer.key s := v]> (Serializer.output s);
    Serializer.key := Serializer.key s; Serializer.array := None |}.
Proof.
  induction d using Data_ind'. intros s Hd Hs Hk.
  destruct d; cbn [scalar] in Hd; try done; cbn [Serializer.serialize]; try (by apply H);
    try (injection Hd as <-; unfold Serializer.insert; by rewrite Hs, bool_decide_false).
  destruct (Serializer.try_from n); [|done]. injection Hd as <-. unfold Serializer.insert. by rewrite Hs, bool_decide_false.
Qed.

Fixpoint elements (l : list Data) (s : Serializer.t) : result (fault SerializerError) Serializer.t :=
  match l with
  | [] => Ok s
  | d :: l => s ← Serializer.serialize d s; elements l s
  end.

Lemma elements_pushed l : ∀ vs s acc, mapM scalar l = Some vs → Serializer.array s = Some acc →
  elements l s = Ok {| Serializer.output := Serializer.output s; Serializer.key := Serializer.key s;
    Serializer.array := Some (acc ++ vs) |}.
Proof.
  induction l as [|d l IH]; intros vs s acc Hl Hs.
  - injection Hl as <-. destruct s. cbn in *. by rewrite Hs, app_nil_r.
  - apply mapM_Some in Hl. inversion_clear Hl as [|? v ? vs' Hd Hl']. apply mapM_Some in Hl'.
    cbn [elements]. rewrite (scalar_pushed d v s acc) by done. cbn [mbind result_bind].
    rewrite (IH vs' _ (acc ++ [v])) by done. cbn. by rewrite <-app_assoc.
Qed.

Lemma bytes_pushed b : ∀ s acc, Serializer.array s = Some acc →
  foldl (λ s byte, s ← s; Serializer.insert (VI64 (Z.of_N byte)) s) (Ok s) b =
    Ok {| Serializer.output := Serializer.output s; Serializer.key := Serializer.key s;
          Serializer.array := Some (acc ++ ((λ byte, VI64 (Z.of_N byte)) <$> b)) |}.
Proof.
  induction b as [|x b IH]; intros s acc Hs.
  - destruct s. cbn in *. by rewrite Hs, app_nil_r.
  - cbn [foldl mbind result_bind]. unfold Serializer.insert at 2. rewrite Hs.
    rewrite (IH _ (acc ++ [VI64 (Z.of_N x)])) by done. cbn. by rewrite <-app_assoc.
Qed.

(** The state after a table or a value was written. *)
Definition written (c : Conf) (s : Serializer.t) : Serializer.t :=
  {| Serializer.output := put_all (Serializer.key s) (entries c) (Serializer.output s);
     Serializer.key := Serializer.key s; Serializer.array := None |}.

Definition ready (c : Conf) (s : Serializer.t) : Prop :=
  Serializer.array s = None ∧ match c with Leaf _ => Serializer.key s ≠ [] | Node _ => True end.

(** A named value or table between the names before and after it. *)
Lemma pop_written n c s : Serializer.dot ∉ n → Serializer.array s = None →
  Serializer.pop_key (written c (Serializer.push_key n s)) =
    {| Serializer.output := put_all (Serializer.key s) ((λ '(path, v), (n :: path, v)) <$> entries c) (Serializer.output s);
       Serializer.key := Serializer.key s; Serializer.array := None |}.
Proof.
  intros Hn Hs. rewrite put_all_below. unfold Serializer.pop_key, written. cbn [Serializer.output Serializer.key Serializer.array Serializer.push_key].
  f_equal. apply (cut_push (Serializer.key s) n Hn).
Qed.

Lemma push_ready n c s : n ≠ [] → Serializer.array s = None → ready c (Serializer.push_key n s).
Proof.
  intros Hn Hs. split; [done|]. destruct c; [|done]. cbn [Serializer.push_key Serializer.key].
  case_bool_decide; [done|]. by destruct (Serializer.key s).
Qed.

Lemma serialize_key_text k n s : key_text k = Some n → Serializer.serialize_key k s = Ok (Serializer.push_key n s).
Proof. by destruct k; intros [= <-]. Qed.

Lemma written_cons n c l s :
  written (Node l) {| Serializer.output := put_all (Serializer.key s) ((λ '(path, v), (n :: path, v)) <$> entries c) (Serializer.output s);
    Serializer.key := Serializer.key s; Serializer.array := None |} = written (Node ((n, c) :: l)) s.
Proof. unfold written. cbn [Serializer.output Serializer.key]. f_equal. symmetry. apply put_all_app. Qed.

Lemma written_nil s : Serializer.array s = None → Ok s = @Ok (fault SerializerError) _ (written (Node []) s).
Proof. destruct s. cbn. by intros ->. Qed.

Lemma named_cons n c l : named (Node ((n, c) :: l)) →
  n ≠ [] ∧ (Serializer.dot ∉ n) ∧ named c ∧ named (Node l).
Proof.
  rewrite !named_node. cbn [fmap list_fmap fst snd]. rewrite NoDup_cons, Forall_cons. cbn. tauto.
Qed.

(** Data of a configuration is written below the current key. *)
Lemma serialize_written d : ∀ c s, conf d = Some c → named c → ready c s → Serializer.serialize d s = Ok (written c s).
Proof.
  induction d using Data_ind'. rename H into IH. intros c s Hd Hc [Hs Hk].
  assert (∀ v, scalar d = Some v → c = Leaf v → Serializer.serialize d s = Ok (written c s)) as Hscalar.
  { intros v Hv ->. by rewrite (scalar_inserted d v). }
  assert (∀ l vs, mapM scalar l = Some vs → c = Leaf (VArray vs) →
    (s ← elements l (Serializer.start_seq s); Serializer.end_seq s) = Ok (written c s)) as Hseq.
  { intros l vs Hl ->. by rewrite (elements_pushed l vs _ []). }
  destruct d; cbn [conf] in Hd; try (apply fmap_Some in Hd as (v & Hv & ->); by eapply Hscalar);
    try (apply fmap_Some in Hd as (v & Hv & ->); by eapply Hseq); try (by apply IH).
  - injection Hd as <-. cbn [Serializer.serialize]. unfold Serializer.serialize_bytes.
    by rewrite (bytes_pushed _ _ []).
  - apply fmap_Some in Hd as (cs & Hl & ->). clear Hk Hscalar Hseq.
    revert cs s Hl Hc Hs. induction l as [|[k d] l IHl]; intros cs s Hl Hc Hs.
    { injection Hl as <-. by apply written_nil. }
    apply Forall_cons in IH as [IH IH']. apply bind_Some in Hl as (n & Hn & (c & Hd & (cs' & Hl & [= <-])%bind_Some)%bind_Some).
    apply named_cons in Hc as (Hne & Hdot & Hc & Hcs).
    cbn [Serializer.serialize]. rewrite (serialize_key_text k n) by done. cbn [mbind result_bind].
    rewrite (IH c _ Hd Hc) by by apply push_ready. cbn [mbind result_bind]. rewrite pop_written, <-written_cons by done.
    by apply (IHl IH').
  - apply fmap_Some in Hd as (cs & Hl & ->). clear Hk Hscalar Hseq.
    revert cs s Hl Hc Hs. induction l as [|[n d] l IHl]; intros cs s Hl Hc Hs.
    { injection Hl as <-. by apply written_nil. }
    apply Forall_cons in IH as [IH IH']. apply bind_Some in Hl as (c & Hd & (cs' & Hl & [= <-])%bind_Some).
    apply named_cons in Hc as (Hne & Hdot & Hc & Hcs).
    cbn [Serializer.serialize]. rewrite (IH c _ Hd Hc) by by apply push_ready.
    cbn [mbind result_bind]. rewrite pop_written, <-written_cons by done. by apply (IHl IH').
Qed.

(** ** Dotted keys *)

Definition plain (n : text) : Prop := n ≠ [] ∧ Serializer.dot ∉ n.

Definition flat (path : list text) : text := path ≫= cons Serializer.dot.

Lemma dotted_flat k path : k ≠ [] → dotted k path = k ++ flat path.
Proof.
  revert k. induction path as [|n path IH]; intros k Hk; [symmetry; apply app_nil_r|].
  change (dotted k (n :: path)) with (dotted (push k n) path).
  unfold push. rewrite bool_decide_false by done. rewrite IH by by destruct k.
  change (flat (n :: path)) with ((Serializer.dot :: n) ++ flat path). by rewrite app_assoc.
Qed.

Lemma dotted_cons n path : n ≠ [] → dotted [] (n :: path) = n ++ flat path.
Proof. apply (dotted_flat n path). Qed.

Lemma flat_split n n' p p' : Serializer.dot ∉ n → Serializer.dot ∉ n' →
  n ++ flat p = n' ++ flat p' → n = n' ∧ flat p = flat p'.
Proof.
  assert (∀ c n p p', Serializer.dot ∉ c :: n → flat p ≠ (c :: n) ++ flat p') as Hflat.
  { intros c m [|x p0] p0' Hc; [done|]. change (flat (x :: p0)) with (Serializer.dot :: x ++ flat p0).
    intros Heq. apply Hc. replace c with Serializer.dot by (by injection Heq). by left. }
  revert n'. induction n as [|c n IH]; intros [|c' n'] Hn Hn' Heq; cbn in Heq.
  - done.
  - by apply Hflat in Heq.
  - symmetry in Heq. by apply Hflat in Heq.
  - injection Heq as -> Heq. destruct (IH n') as [-> ->]; [set_solver..|done|done].
Qed.

Lemma flat_inj p p' : Forall plain p → Forall plain p' → flat p = flat p' → p = p'.
Proof.
  revert p'. induction p as [|n p IH]; intros [|n' p'] Hp Hp' Heq; try done.
  apply Forall_cons in Hp as [[_ Hn] Hp], Hp' as [[_ Hn'] Hp']. injection Heq as Heq.
  apply flat_split in Heq as [-> Heq]; [|done..]. by rewrite (IH p').
Qed.

Lemma dotted_inj p p' : Forall plain p → Forall plain p' → dotted [] p = dotted [] p' → p = p'.
Proof.
  intros Hp Hp'. destruct p as [|n p], p' as [|n' p']; [done|..].
  - apply Forall_cons in Hp' as [[Hn' _] _]. rewrite dotted_cons by done. by destruct n'.
  - apply Forall_cons in Hp as [[Hn _] _]. rewrite dotted_cons by done. by destruct n.
  - apply Forall_cons in Hp as [[Hn Hdot] Hp], Hp' as [[Hn' Hdot'] Hp']. rewrite !dotted_cons by done.
    intros [-> Heq]%flat_split; [|done..]. by rewrite (flat_inj p p').
Qed.

(** ** The values of a configuration *)

Lemma entries_leaf c : ∀ path v, (path, v) ∈ entries c ↔ leaf c path v.
Proof.
  induction c as [c IH] using Conf_ind'. intros path v. destruct c as [w|l].
  - cbn. rewrite list_elem_of_singleton. split; [intros [= -> ->]; constructor|by inversion 1].
  - rewrite entries_node, list_elem_of_bind. split.
    + intros ([n c] & He & Hin). apply list_elem_of_fmap in He as ([p w] & [= -> ->] & He).
      econstructor; [done|]. rewrite Forall_forall in IH. by apply (IH (n, c)).
    + inversion_clear 1 as [|? n c p ? Hin Hl]. exists (n, c). split; [|done].
      apply list_elem_of_fmap. exists (p, v). split; [done|]. rewrite Forall_forall in IH. by apply (IH (n, c)).
Qed.

Lemma leaf_plain c path v : named c → leaf c path v → Forall plain path.
Proof.
  intros Hc. induction 1 as [|l n c path v Hin _ IH]; constructor;
    apply named_node in Hc as [_ Hl]; rewrite Forall_forall in Hl; destruct (Hl (n, c) Hin) as (? & ? & ?); [by split|auto].
Qed.

Lemma leaf_unique c path v w : named c → leaf c path v → leaf c path w → v = w.
Proof.
  intros Hc Hv. revert Hc w. induction Hv as [v|l n c path v Hin Hv IH]; intros Hc w Hw; inversion_clear Hw as [|? ? c' ? ? Hin' Hw']; [done|].
  apply named_node in Hc as [Hl Hall]. rewrite Forall_forall in Hall. destruct (Hall (n, c) Hin) as (_ & _ & Hc).
  assert (c = c') as <-; [|by apply IH].
  apply (elem_of_list_to_map_1 (M := gmap text) l n c Hl) in Hin.
  apply (elem_of_list_to_map_1 (M := gmap text) l n c' Hl) in Hin'. congruence.
Qed.

Lemma put_all_lookup es x v :
  (∀ p p' w w', (p, w) ∈ es → (p', w') ∈ es → dotted [] p = dotted [] p' → w = w') →
  put_all [] es ∅ !! x = Some v ↔ ∃ path, x = dotted [] path ∧ (path, v) ∈ es.
Proof.
  induction es as [|[p w] es IH] using rev_ind; intros Hes.
  { split; [done|]. intros (? & _ & []%not_elem_of_nil). }
  rewrite put_all_app. change (put_all [] [(p, w)] ?m) with (<[dotted [] p := w]> m).
  assert (∀ e, e ∈ es → e ∈ es ++ [(p, w)]) as Hl by (intros; apply elem_of_app; by left).
  assert ((p, w) ∈ es ++ [(p, w)]) as Hr by (apply elem_of_app; right; by left).
  destruct (decide (x = dotted [] p)) as [->|Hne].
  - rewrite lookup_insert_eq. split; [intros [= ->]; eauto|].
    intros (p' & Heq & Hin). f_equal. by apply (Hes p p').
  - rewrite lookup_insert_ne by done. rewrite IH by eauto 10. split; intros (p' & -> & Hin); exists p'; split; auto.
    apply elem_of_app in Hin as [|[= -> ->]%list_elem_of_singleton]; done.
Qed.

(** C35: a configuration of tables, whose names are different, not empty and free of
    dots, becomes the map with a key for each of its values and no other: the names
    that lead to the value, joined by dots. *)
Theorem defaults_are_flattened d l : conf d = Some (Node l) → named (Node l) →
  ∃ m, Serializer.to_hash_map d = Ok m ∧
    (∀ k v, m !! k = Some v ↔ ∃ path, k = dotted [] path ∧ leaf (Node l) path v) ∧
    ∀ path path', (∃ v, leaf (Node l) path v) → (∃ v, leaf (Node l) path' v) →
      dotted [] path = dotted [] path' → path = path'.
Proof.
  intros Hd Hl. exists (put_all [] (entries (Node l)) ∅). split_and!.
  - unfold Serializer.to_hash_map. by rewrite (serialize_written d (Node l)).
  - intros k v. rewrite put_all_lookup; [by setoid_rewrite entries_leaf|].
    intros p p' w w' Hw%entries_leaf Hw'%entries_leaf Heq.
    apply dotted_inj in Heq as ->; [|by eapply leaf_plain..]. by eapply leaf_unique.
  - intros p p' (v & Hv) (v' & Hv') Heq. apply dotted_inj in Heq; [done|by eapply leaf_plain..].
Qed.

(** ** Arrays of anything but values *)

Definition scalars (l : list Data) : Prop := ∃ vs, mapM scalar l = Some vs.

Lemma elements_app l l' s : elements (l ++ l') s = (s ← elements l s; elements l' s).
Proof.
  revert s. induction l as [|d l IH]; intros s; [done|]. cbn [app elements].
  destruct (Serializer.serialize d s); cbn [mbind result_bind]; [apply IH|done].
Qed.

Lemma elements_inserted l s : scalars l → Serializer.array s = None → Serializer.key s ≠ [] →
  ∃ m, elements l s = Ok {| Serializer.output := m; Serializer.key := Serializer.key s; Serializer.array := None |}.
Proof.
  intros (vs & Hl). revert vs s Hl. induction l as [|d l IH]; intros vs s Hl Hs Hk.
  - exists (Serializer.output s). destruct s. cbn in *. by rewrite Hs.
  - apply mapM_Some in Hl. inversion_clear Hl as [|? v ? vs' Hd Hl']. apply mapM_Some in Hl'.
    cbn [elements]. rewrite (scalar_inserted d v) by done. cbn [mbind result_bind].
    by apply (IH vs' {| Serializer.output := <[Serializer.key s := v]> (Serializer.output s);
      Serializer.key := Serializer.key s; Serializer.array := None |}).
Qed.

Lemma nested_array l s : scalars l → Serializer.serialize (DSeq l) s =
  Ok {| Serializer.output := <[Serializer.key s := VArray (default [] (mapM scalar l))]> (Serializer.output s);
        Serializer.key := Serializer.key s; Serializer.array := None |}.
Proof.
  intros (vs & Hl). change (Serializer.serialize (DSeq l) s) with (s ← elements l (Serializer.start_seq s); Serializer.end_seq s).
  by rewrite (elements_pushed l vs _ []), Hl.
Qed.

Lemma fields_pushed (fs : list (text * Data)) : ∀ vs s acc, mapM scalar (fs.*2) = Some vs →
  Forall (λ nd, Serializer.dot ∉ nd.1) fs → Serializer.array s = Some acc →
  Serializer.serialize (DStruct fs) s = Ok {| Serializer.output := Serializer.output s; Serializer.key := Serializer.key s;
    Serializer.array := Some (acc ++ vs) |}.
Proof.
  induction fs as [|[n d] fs IH]; intros vs s acc Hl Hfs Hs.
  - injection Hl as <-. destruct s. cbn in *. by rewrite Hs, app_nil_r.
  - cbn [fmap list_fmap snd] in Hl. apply mapM_Some in Hl. inversion_clear Hl as [|? v ? vs' Hd Hl']. apply mapM_Some in Hl'.
    apply Forall_cons in Hfs as [Hn Hfs]. cbn [Serializer.serialize]. rewrite (scalar_pushed d v _ acc) by done.
    cbn [mbind result_bind]. unfold Serializer.pop_key. cbn [Serializer.key Serializer.push_key Serializer.output Serializer.array].
    etransitivity; [apply (IH vs' _ (acc ++ [v])); done|]. cbn [Serializer.key Serializer.output].
    rewrite <-app_assoc. f_equal. f_equal. apply (cut_push (Serializer.key s) n Hn).
Qed.

(** An array holds values only. An array of values with an array of values
    among them is refused, with the error that there is no array; an array of one
    table of values is the array of its values, without their names. *)
Theorem arrays_hold_values s : Serializer.array s = None → Serializer.key s ≠ [] →
  (∀ l l1 l2, scalars l1 → scalars l → scalars l2 →
    Serializer.serialize (DSeq (l1 ++ DSeq l :: l2)) s = Err (Fault NoArray)) ∧
  (∀ fs, scalars (fs.*2) → Forall (λ nd : text * Data, Serializer.dot ∉ nd.1) fs →
    Serializer.serialize (DSeq [DStruct fs]) s = Serializer.serialize (DSeq (fs.*2)) s).
Proof.
  intros Hs Hk. split.
  - intros l l1 l2 (vs1 & H1) Hl H2.
    change (Serializer.serialize (DSeq ?l) s) with (s ← elements l (Serializer.start_seq s); Serializer.end_seq s).
    rewrite elements_app, (elements_pushed l1 vs1 _ []) by done. cbn [mbind result_bind elements].
    rewrite nested_array by done. cbn [mbind result_bind].
    destruct (elements_inserted l2 {| Serializer.output := <[Serializer.key s := VArray (default [] (mapM scalar l))]> (Serializer.output s);
      Serializer.key := Serializer.key s; Serializer.array := None |}) as (m & Hm); [done..|].
    cbn [Serializer.start_seq Serializer.key Serializer.output]. by rewrite Hm.
  - intros fs (vs & Hvs) Hfs. rewrite (nested_array (fs.*2)) by by exists vs.
    change (Serializer.serialize (DSeq ?l) s) with (s ← elements l (Serializer.start_seq s); Serializer.end_seq s).
    cbn [elements]. rewrite (fields_pushed fs vs _ []) by done. by rewrite Hvs.
Qed.

Ltac find_entry := repeat first [apply list_elem_of_here | apply list_elem_of_further].

Definition sample : Data :=
  DStruct [
    (chars "debug", DFloat (chars "0"));
    (chars "production", DSome (DStr (chars "false")));
    (chars "place", DStruct [
      (chars "number", DNewtypeStruct (DInt 1));
      (chars "telephone", DNone);
      (chars "reviews", DU64 3866);
      (chars "creator", DMap [
        (DStr (chars "name"), DStr (chars "Jane Smith"));
        (DStr (chars "username"), DStr (chars "jsmith"))])]);
    (chars "arr", DSeq [DStr (chars "1"); DStr (chars "2")])].

Lemma defaults_are_flattened_witness : ∃ m, Serializer.to_hash_map sample = Ok m ∧
  m !! chars "place.creator.name" = Some (VString (chars "Jane Smith")) ∧
  m !! chars "arr" = Some (VArray [VString (chars "1"); VString (chars "2")]).
Proof.
  destruct (conf sample) as [[|l]|] eqn:Hd; [vm_compute in Hd; discriminate| |vm_compute in Hd; discriminate].
  vm_compute in Hd. injection Hd as Hl.
  destruct (defaults_are_flattened sample l) as (m & Hm & Hv & _).
  - subst l. reflexivity.
  - subst l. cbn. repeat split; try done; apply (bool_decide_unpack _); vm_compute; exact I.
  - exists m. split; [done|]. split; apply Hv.
    + exists [chars "place"; chars "creator"; chars "name"]. split; [reflexivity|]. subst l.
      by repeat (econstructor; [find_entry|]); constructor.
    + exists [chars "arr"]. split; [reflexivity|]. subst l.
      by repeat (econstructor; [find_entry|]); constructor.
Defined.

Lemma one_default n d : Serializer.to_hash_map (DStruct [(n, d)]) =
  (s ← Serializer.serialize d (Serializer.push_key n Serializer.default); Ok (Serializer.output s)).
Proof. unfold Serializer.to_hash_map. cbn [Serializer.serialize]. by destruct Serializer.serialize. Qed.

Lemma arrays_hold_values_witness :
  Serializer.to_hash_map (DStruct [(chars "a", DSeq [DSeq [DInt 1]])]) = Err (Fault NoArray) ∧
  Serializer.to_hash_map (DStruct [(chars "a", DSeq [DStruct [(chars "x", DInt 1); (chars "y", DInt 2)]])]) =
    Serializer.to_hash_map (DStruct [(chars "a", DSeq [DInt 1; DInt 2])]).
Proof.
  destruct (arrays_hold_values (Serializer.push_key (chars "a") Serializer.default) eq_refl) as [Hnested Htable]; [done|].
  split.
  - rewrite one_default. change [DSeq [DInt 1]] with ([] ++ DSeq [DInt 1] :: []). rewrite Hnested; [done|by eexists..].
  - rewrite !one_default, (Htable [(chars "x", DInt 1); (chars "y", DInt 2)]); [done|by eexists|].
    repeat constructor; apply (bool_decide_unpack _); vm_compute; exact I.
Defined.

(** A map key with a dot in it: the key of what follows is wrong. *)
Example dotted_map_key :
  Serializer.to_hash_map (DStruct [(chars "m", DMap [(DStr (chars "a.b"), DInt 1); (DStr (chars "c"), DInt 2)])]) =
    Ok (<[chars "m.a.c" := VI64 2]> {[chars "m.a.b" := VI64 1]}).
Proof. reflexivity. Qed.
