(* ===== verification/ConfigFind.v ===== *)
(** * Layers of configuration

    Model of [src/lib/config-file/src]: [lib.rs] (file formats), [find.rs] (the search
    for a configuration file), [layered_load.rs] (the layers handed to the [config]
    crate) and of [StandardConfigFile::load] of [src/lib/si-settings/src/lib.rs]. The
    environment of the process and its files are a record; the [config] crate and
    [pathdiff] are arguments. All three file formats are compiled in. *)

From S2P Require Import Prelude Redaction ConfigSer.
From Stdlib Require Import NArith ZArith Strings.Ascii Strings.String.
From stdpp Require Import base tactics sets gmap list.

Abbreviation text := (list N) (only parsing).
Abbreviation path := (list N) (only parsing).

(** ** Formats *)

Inductive FileFormat : Type :=
| Custom (custom : text)
| Json
| Toml
| Yaml.

Inductive ConfigFileError : Type :=
| Builder
| Canonicalize (candidate : path)
| CurrentDirectory
| EnvNotFound (app_name env_var value : text)
| HomeDirectory
| RelativePath (target current_dir : path)
| UnknownFileFormat (extension : text).

Abbreviation R := (result ConfigFileError) (only parsing).

Definition as_str (f : FileFormat) : text :=
  match f with
  | Toml => chars "toml"
  | Json => chars "json"
  | Yaml => chars "yaml"
  | Custom custom => custom
  end.

Definition from_str (s : text) : R FileFormat :=
  if bool_decide (s = chars "toml") then Ok Toml
  else if bool_decide (s = chars "json") then Ok Json
  else if bool_decide (s = chars "yaml") || bool_decide (s = chars "yml") then Ok Yaml
  else Err (UnknownFileFormat s).

(** What can be given as file formats. *)
Inductive ToFileFormats : Type :=
| one_format (f : FileFormat)
| formats (l : list FileFormat)
| named_format (s : text).

Definition to_file_formats (f : ToFileFormats) : R (list FileFormat) :=
  match f with
  | one_format f => Ok [f]
  | formats l => Ok l
  | named_format s => f ← from_str s; Ok [f]
  end.

(** ** Paths *)

Definition slash : N := 47.
Definition dot : N := 46.

Definition is_absolute (p : path) : bool :=
  match p with c :: _ => bool_decide (c = slash) | [] => false end.

(** [Path::join]. *)
Definition join (base p : path) : path :=
  if is_absolute p then p
  else match last base with
       | None => p
       | Some c => if bool_decide (c = slash) then base ++ p else base ++ slash :: p
       end.

Fixpoint split_on (c : N) (s : text) : list text :=
  match s with
  | [] => [[]]
  | x :: s => if bool_decide (x = c) then [] :: split_on c s
              else match split_on c s with w :: ws => (x :: w) :: ws | [] => [[x]] end
  end.

(** [Path::file_name]: the last component, unless it leads up. *)
Definition file_name (p : path) : option text :=
  n ← last (filter (λ w, w ≠ [] ∧ w ≠ [dot]) (split_on slash p));
  if bool_decide (n = [dot; dot]) then None else Some n.

(** [Path::extension]: what follows the last dot, unless the name starts with it. *)
Definition extension (p : path) : option text :=
  n ← file_name p;
  match reverse (split_on dot n) with
  | ext :: (_ :: _ as before) => if bool_decide (before = [[]]) then None else Some ext
  | _ => None
  end.

(** ** The process *)

Record Process := {
  env_var_of : text → option text;
  current_dir : option path;
  config_dir : text → option path;
  is_file : path → bool;
  canonicalize : path → option path;
}.

Section Find.
Context (e : Process) (app_name : text).

Definition goal_file_name (f : FileFormat) : text := app_name ++ dot :: as_str f.

(** The first of some candidates that is a file; where a candidate is cannot be known
    before the ones ahead of it were no files. *)
Fixpoint first_file {A} (candidate : A → R (path * FileFormat)) (l : list A) : R (option (path * FileFormat)) :=
  match l with
  | [] => Ok None
  | a :: l => c ← candidate a; if is_file e c.1 then Ok (Some c) else first_file candidate l
  end.

Abbreviation goal := (text * FileFormat)%type (only parsing).

Definition in_current_dir (g : goal) : R (path * FileFormat) :=
  d ← ok_or (current_dir e) CurrentDirectory; Ok (join d g.1, g.2).

Definition in_user_dir (g : goal) : R (path * FileFormat) :=
  d ← ok_or (config_dir e app_name) HomeDirectory; Ok (join d g.1, g.2).

Definition in_root (g : goal * text) : R (path * FileFormat) :=
  let root_candidate := join (join g.2 app_name) g.1.1 in
  Ok (match env_var_of e (chars "FS_ROOT") with
      | Some fs_root => join fs_root root_candidate
      | None => root_candidate
      end, g.1.2).

Definition prefixes : list text := [chars "/usr/local/etc"; chars "/etc"].

(** The environment variable that is asked for, if it has a value. *)
Definition env_value (env_var : option text) : option (text * text) :=
  v ← env_var; value ← env_var_of e v; Some (v, value).

(** The file named by an environment variable. *)
Definition env_candidate (env_var value : text) : R (path * FileFormat) :=
  if is_file e value then
    ext ← ok_or (extension value) (UnknownFileFormat value);
    file_format ← from_str ext;
    Ok (value, file_format)
  else Err (EnvNotFound app_name env_var value).

Definition find_first_file_candidate (file_formats : ToFileFormats) (env_var : option text) :
    R (option (path * FileFormat)) :=
  fs ← to_file_formats file_formats;
  let goals := (λ f, (goal_file_name f, f)) <$> fs in
  match env_value env_var with
  | Some (v, value) => c ← env_candidate v value; Ok (Some c)
  | None =>
      found ← first_file in_current_dir goals;
      match found with
      | Some c => Ok (Some c)
      | None =>
          found ← first_file in_user_dir goals;
          match found with
          | Some c => Ok (Some c)
          | None => first_file in_root (goals ≫= λ g, (g,.) <$> prefixes)
          end
      end
  end.

Definition find (file_formats : ToFileFormats) (env_var : option text) : R (option (path * FileFormat)) :=
  found ← find_first_file_candidate file_formats env_var;
  match found with
  | None => Ok None
  | Some (candidate, file_format) =>
      target ← ok_or (canonicalize e candidate) (Canonicalize candidate);
      Ok (Some (target, file_format))
  end.

End Find.

(** ** Layers *)

(** Values set by the program. *)
Record ConfigMap := { inner : gmap text ConfigValue; empty : bool }.

Definition ConfigMap_default : ConfigMap := {| inner := ∅; empty := true |}.

Definition set (key : text) (value : ConfigValue) (m : ConfigMap) : ConfigMap :=
  {| inner := <[key := value]> (inner m); empty := false |}.

(** What the builder of the [config] crate was given, from the weakest to the
    strongest: defaults, a file with its format, variables of the environment with a
    prefix, overrides. *)
Record ConfigBuilder := {
  defaults : Data;
  file_source : option (path * FileFormat);
  env_source : option text;
  overrides : gmap text ConfigValue;
}.

(** [SerdeSource::collect]. *)
Definition collect (source : Data) : result (fault ConfigFileError) (gmap text ConfigValue) :=
  match Serializer.to_hash_map source with
  | Ok m => Ok m
  | Err (Fault _) => Err (Fault Builder)
  | Err Panic => Err Panic
  end.

Section Load.
Context {C : Type}.

(** The [config] crate: which keys it can parse, and the configuration it makes of the
    collected defaults and the other sources. [pathdiff::diff_paths]. *)
Context (key_parses : text → bool).
Context (build : gmap text ConfigValue → option (path * FileFormat) → option text → gmap text ConfigValue → option C).
Context (diff_paths : path → path → option path).
Context (e : Process).

Definition lift {A} (r : R A) : result (fault ConfigFileError) A :=
  match r with Ok a => Ok a | Err err => Err (Fault err) end.

(** The file as the [config] crate wants it. *)
Definition relative_file (target : path) (file_format : FileFormat) : R (path * FileFormat) :=
  current_dir ← ok_or (current_dir e) CurrentDirectory;
  relative_target ← ok_or (diff_paths target current_dir) (RelativePath target current_dir);
  match file_format with
  | Custom unknown => Err (UnknownFileFormat unknown)
  | f => Ok (relative_target, f)
  end.

Definition layered_load (default : Data) (app_name : text) (file_formats : ToFileFormats)
    (config_env_var env_config_prefix : option text) (set_func : ConfigMap → ConfigMap) :
    result (fault ConfigFileError) C :=
  found ← lift (find e app_name file_formats config_env_var);
  file ← match found with
         | None => Ok None
         | Some (target, file_format) => Some <$> lift (relative_file target file_format)
         end;
  let config_map := set_func ConfigMap_default in
  let config_hash := if empty config_map then ∅ else inner config_map in
  if forallb (λ kv, key_parses kv.1) (map_to_list config_hash) then
    let builder := {| defaults := default; file_source := file; env_source := env_config_prefix;
                      overrides := config_hash |} in
    m ← collect (defaults builder);
    match build m (file_source builder) (env_source builder) (overrides builder) with
    | Some config_file => Ok config_file
    | None => Err (Fault Builder)
    end
  else Err Panic.

Context (to_uppercase : text → text).

(** [StandardConfigFile::layered_load] of si-settings. *)
Definition standard_layered_load (default : Data) (app_name : text) (set_func : ConfigMap → ConfigMap) :
    result (fault ConfigFileError) C :=
  layered_load default app_name (named_format (chars "toml"))
    (Some (chars "SI_" ++ to_uppercase app_name ++ chars "_CONFIG"))
    (Some (chars "SI_" ++ to_uppercase app_name)) set_func.

End Load.

(** ** The search *)

(** The places where a file is looked for, in order. *)
Definition places (app_name cwd user : text) (fs : list FileFormat) : list (path * FileFormat) :=
  ((λ f, (join cwd (goal_file_name app_name f), f)) <$> fs) ++
  ((λ f, (join user (goal_file_name app_name f), f)) <$> fs) ++
  (fs ≫= λ f, (λ prefix, (join (join prefix app_name) (goal_file_name app_name f), f)) <$> prefixes).

Lemma join_absolute base p : is_absolute p = true → join base p = p.
Proof. unfold join. by intros ->. Qed.

Lemma join_stays_absolute base p : is_absolute base = true → is_absolute (join base p) = true.
Proof.
  intros Hb. unfold join. destruct (is_absolute p) eqn:Hp; [done|].
  destruct (last base) as [c|] eqn:Hl; [|by apply last_None in Hl; subst base].
  destruct base as [|b base]; [done|]. by case_bool_decide.
Qed.

Lemma in_root_fs_root e app_name g : g.2 ∈ prefixes →
  in_root e app_name g = Ok (join (join g.2 app_name) g.1.1, g.1.2).
Proof.
  intros Hg. unfold in_root. destruct (env_var_of e _) as [fs_root|]; [|done].
  rewrite (join_absolute fs_root); [done|]. do 2 apply join_stays_absolute.
  destruct g as [g prefix]. cbn [snd] in *. unfold prefixes in Hg.
  rewrite !elem_of_cons, elem_of_nil in Hg. destruct Hg as [->|[->|[]]]; reflexivity.
Qed.

Lemma first_file_known {A} e (f : A → path * FileFormat) candidate l :
  (∀ a, a ∈ l → candidate a = Ok (f a)) → first_file e candidate l = Ok (List.find (λ c, is_file e c.1) (f <$> l)).
Proof.
  induction l as [|a l IH]; intros Hl; [done|]. cbn [first_file]. rewrite Hl by by left. cbn.
  destruct (is_file e (f a).1); [done|]. apply IH. intros b Hb. apply Hl. by right.
Qed.

Lemma find_app {A} (p : A → bool) l l' :
  List.find p (l ++ l') = match List.find p l with Some a => Some a | None => List.find p l' end.
Proof. induction l as [|a l IH]; cbn; [done|]. by destruct (p a). Qed.

Lemma root_places e app_name fs :
  first_file e (in_root e app_name) (((λ f, (goal_file_name app_name f, f)) <$> fs) ≫= λ g, (g,.) <$> prefixes) =
    Ok (List.find (λ c, is_file e c.1)
      (fs ≫= λ f, (λ prefix, (join (join prefix app_name) (goal_file_name app_name f), f)) <$> prefixes)).
Proof.
  rewrite (first_file_known e (λ g, (join (join g.2 app_name) g.1.1, g.1.2))).
  - do 2 f_equal. induction fs as [|f fs IH]; [done|].
    cbn [fmap list_fmap mbind list_bind]. rewrite fmap_app. f_equal. apply IH.
  - intros g Hg. apply in_root_fs_root. apply list_elem_of_bind in Hg as (x & (prefix & -> & Hin)%list_elem_of_fmap & _). done.
Qed.

(** without a variable of the environment that names a file, what is found is the
    first file in the current directory, the directory of the user, [/usr/local/etc]
    and [/etc], with the formats in the given order in each; [FS_ROOT] is without
    effect on it. *)
Theorem first_place_is_found e app_name cwd user fs env_var :
  current_dir e = Some cwd → config_dir e app_name = Some user →
  env_value e env_var = None →
  find_first_file_candidate e app_name (formats fs) env_var =
    Ok (List.find (λ c, is_file e c.1) (places app_name cwd user fs)).
Proof.
  intros Hcwd Huser Henv. unfold find_first_file_candidate. cbn [to_file_formats]. cbn [mbind result_bind].
  rewrite Henv.
  rewrite (first_file_known e (λ g, (join cwd g.1, g.2)) (in_current_dir e)) by (intros g _; unfold in_current_dir; by rewrite Hcwd).
  rewrite (first_file_known e (λ g, (join user g.1, g.2)) (in_user_dir e app_name)) by (intros g _; unfold in_user_dir; by rewrite Huser).
  rewrite root_places, <-!list_fmap_compose. unfold places. rewrite !find_app. unfold compose. cbn [mbind result_bind fst snd].
  repeat match goal with |- context [List.find ?p ?l] => destruct (List.find p l) end; done.
Qed.

Lemma find_named e app_name file_formats v value found :
  env_var_of e v = Some value → find e app_name file_formats (Some v) = Ok found →
  ∃ target f, found = Some (target, f) ∧ is_file e value = true ∧ canonicalize e value = Some target ∧
    ∃ ext, extension value = Some ext ∧ from_str ext = Ok f.
Proof.
  intros Hv. unfold find, find_first_file_candidate, env_value. cbn [mbind option_bind]. rewrite Hv.
  destruct (to_file_formats file_formats) as [fs|]; cbn [mbind result_bind option_bind]; [|done].
  unfold env_candidate. destruct (is_file e value); [|done].
  destruct (extension value) as [ext|]; cbn [ok_or]; [|done]. cbn [mbind result_bind].
  destruct (from_str ext) as [f|] eqn:Hf; [|done]. cbn [mbind result_bind].
  destruct (canonicalize e value) as [target|]; [|done]. intros [= <-]. eauto 10.
Qed.

(** a configuration file that a variable of the environment names is used, or the
    load fails: it is never passed over for another file or for the defaults. *)
Theorem named_file_is_never_ignored {C} key_parses build diff_paths e default app_name file_formats v value prefix set_func (c : C) :
  env_var_of e v = Some value →
  layered_load key_parses build diff_paths e default app_name file_formats (Some v) prefix set_func = Ok c →
  ∃ target cwd relative f m overrides, is_file e value = true ∧ canonicalize e value = Some target ∧
    current_dir e = Some cwd ∧ diff_paths target cwd = Some relative ∧
    (∃ ext, extension value = Some ext ∧ from_str ext = Ok f) ∧
    collect default = Ok m ∧ build m (Some (relative, f)) prefix overrides = Some c.
Proof.
  intros Hv Hload. unfold layered_load in Hload.
  destruct (find e app_name file_formats (Some v)) as [found|] eqn:Hfind; [|done].
  apply (find_named _ _ _ _ value) in Hfind as (target & f & -> & Hfile & Htarget & ext & Hext & Hf); [|done].
  cbn [lift mbind result_bind] in Hload. unfold relative_file in Hload.
  destruct (current_dir e) as [cwd|]; [|done]. cbn [ok_or mbind result_bind] in Hload.
  destruct (diff_paths target cwd) as [relative|] eqn:Hrel; [|done]. cbn [ok_or mbind result_bind] in Hload.
  assert (∀ custom, f ≠ Custom custom) as Hf'.
  { intros custom ->. unfold from_str in Hf. repeat case_bool_decide; done. }
  exists target, cwd, relative, f.
  destruct f as [custom| | |]; [by destruct (Hf' custom)|..]; cbn [lift fmap result_fmap mbind result_bind defaults file_source env_source overrides] in Hload;
    (destruct (forallb _ _); [|done]); (destruct (collect default) as [m|]; [|done]); cbn in Hload;
    (destruct (build m _ prefix _) eqn:Hb; [|done]); injection Hload as <-; eauto 15.
Qed.

(** ** Examples *)

(** A process in [/app], with a file of the system and one that a variable names. *)
Definition sample_process : Process := {|
  env_var_of v := if bool_decide (v = chars "SI_SDF_CONFIG") then Some (chars "conf/my.toml")
                  else if bool_decide (v = chars "FS_ROOT") then Some (chars "/sandbox") else None;
  current_dir := Some (chars "/app");
  config_dir := λ _, Some (chars "/home/si/.config/sdf");
  is_file p := bool_decide (p = chars "/etc/sdf/sdf.toml") || bool_decide (p = chars "conf/my.toml");
  canonicalize p := Some (join (chars "/app") p);
|}.

(** The file of the system is found, although [FS_ROOT] says to look elsewhere. *)
Lemma first_place_is_found_witness :
  find_first_file_candidate sample_process (chars "sdf") (formats [Toml; Json]) None =
    Ok (Some (chars "/etc/sdf/sdf.toml", Toml)).
Proof.
  rewrite (first_place_is_found sample_process (chars "sdf") (chars "/app") (chars "/home/si/.config/sdf") [Toml; Json] None)
    by reflexivity.
  reflexivity.
Defined.

Definition sample_build (m : gmap text ConfigValue) (file : option (path * FileFormat)) (env : option text)
    (overrides : gmap text ConfigValue) : option (option (path * FileFormat)) := Some file.

Lemma named_file_is_never_ignored_witness :
  standard_layered_load (λ _, true) sample_build (λ target _, Some target) sample_process (λ _, chars "SDF")
    sample (chars "sdf") (set (chars "debug") VNil) = Ok (Some (chars "/app/conf/my.toml", Toml)) ∧
  ∃ m overrides, collect sample = Ok m ∧ sample_build m (Some (chars "/app/conf/my.toml", Toml)) (Some (chars "SI_SDF")) overrides =
    Some (Some (chars "/app/conf/my.toml", Toml)).
Proof.
  assert (standard_layered_load (λ _, true) sample_build (λ target _, Some target) sample_process (λ _, chars "SDF")
    sample (chars "sdf") (set (chars "debug") VNil) = Ok (Some (chars "/app/conf/my.toml", Toml))) as Hload by reflexivity.
  split; [exact Hload|]. unfold standard_layered_load in Hload.
  apply (named_file_is_never_ignored _ _ _ _ _ _ _ _ (chars "conf/my.toml")) in Hload; [|reflexivity].
  destruct Hload as (target & cwd & relative & f & m & overrides & _ & _ & _ & _ & _ & Hm & Hb).
  exists m, overrides. split; [exact Hm|reflexivity].
Defined.
