(* ===== verification/PropTree.v ===== *)
(** * Trees of props

    Model of [src/lib/dal/src/prop_tree.rs]: the rows of the props of all schema
    variants are put together to trees, from which types of TypeScript are printed.
    The rows come from a query; [J] is a value of the JSON crate. *)

From S2P Require Import Prelude AttributeContext AttributeView VariantDefinition.
From Stdlib Require Import NArith Strings.Ascii Strings.String.
From stdpp Require Import base tactics list sets strings.

Definition newline : string := String "010"%char "".

(** ** Data *)

Section Tree.
Context {J E : Type}.

(** The columns of [Prop] that are read. *)
Record PropRow := {
  id_of_prop : Id;
  kind_of_prop : PropKind.t;
  is_hidden : bool;
  widget_kind_of_prop : WidgetKind.t;
  widget_options_of_prop : option J;
  doc_link_of_prop : option string;
}.

(** A row of the query; reading the prop from its JSON can fail. *)
Record Row := {
  object : result E PropRow;
  row_parent_id : Id;
  row_root_id : Id;
  row_schema_variant_id : Id;
  row_visibility_change_set_pk : Id;
  row_internal_provider_id : option Id;
  row_path : string;
  row_name : string;
}.

(** A node less its children. *)
Record NodeData := {
  parent_id : Id;
  prop_id : Id;
  visibility_change_set_pk : Id;
  kind : PropKind.t;
  schema_variant_id : Id;
  internal_provider_id : option Id;
  path : string;
  name : string;
  hidden : bool;
  widget_kind : WidgetKind.t;
  widget_options : option J;
  doc_link : option string;
}.

Inductive PropTreeNode : Type :=
| PNode (data : NodeData) (children : list PropTreeNode).

Definition data_of (t : PropTreeNode) : NodeData := let 'PNode d _ := t in d.
Definition children_of (t : PropTreeNode) : list PropTreeNode := let 'PNode _ cs := t in cs.

Inductive PropTreeError : Type :=
| ArrayMissingElementProp (prop_id : Id)
| MapMissingElementProp (prop_id : Id)
| SchemaVariantNotFound (id : Id)
| MissingSchema (id : Id)
| Elsewhere (e : E).

Definition PropTree : Type := list PropTreeNode.

(** ** Putting rows together *)

Fixpoint insert_prop_into (root : PropTreeNode) (node : NodeData) : PropTreeNode :=
  let 'PNode d children := root in
  if bool_decide (parent_id node = prop_id d) then PNode d (children ++ [PNode node []])
  else PNode d ((λ child, insert_prop_into child node) <$> children).

Definition node_of (row : Row) (prop : PropRow) : NodeData := {|
  parent_id := row_parent_id row;
  prop_id := id_of_prop prop;
  kind := kind_of_prop prop;
  schema_variant_id := row_schema_variant_id row;
  internal_provider_id := row_internal_provider_id row;
  path := row_path row;
  name := row_name row;
  hidden := is_hidden prop;
  widget_kind := widget_kind_of_prop prop;
  widget_options := widget_options_of_prop prop;
  doc_link := doc_link_of_prop prop;
  visibility_change_set_pk := row_visibility_change_set_pk row;
|}.

(** What a row adds to the trees. *)
Definition place_node (root_props : PropTree) (root_id : Id) (node : NodeData) : PropTree :=
  if is_unset (parent_id node) then root_props ++ [PNode node []]
  else (λ root, if bool_decide (prop_id (data_of root) = root_id) then insert_prop_into root node else root) <$> root_props.

Definition filtered (schema_variant_id_filter : option (list Id)) (schema_variant_id : Id) : bool :=
  match schema_variant_id_filter with
  | Some ids => bool_decide (schema_variant_id ∈ ids)
  | None => true
  end.

Definition new_step (include_hidden : bool) (schema_variant_id_filter : option (list Id))
    (root_props : PropTree) (row : Row) : result PropTreeError PropTree :=
  match object row with
  | Err e => Err (Elsewhere e)
  | Ok prop =>
      if is_hidden prop && negb include_hidden then Ok root_props
      else if filtered schema_variant_id_filter (row_schema_variant_id row) then
        Ok (place_node root_props (row_root_id row) (node_of row prop))
      else Ok root_props
  end.

(** [PropTree::new], the rows being the answer of the query. *)
Definition new_tree (rows : result E (list Row)) (include_hidden : bool)
    (schema_variant_id_filter : option (list Id)) : result PropTreeError PropTree :=
  match rows with
  | Err e => Err (Elsewhere e)
  | Ok rows =>
      foldl (λ r row, root_props ← r; new_step include_hidden schema_variant_id_filter root_props row) (Ok []) rows
  end.

(** ** Types *)

Context (json_string : string → string).

Fixpoint ts_type (t : PropTreeNode) : result PropTreeError string :=
  let 'PNode d children := t in
  match kind d with
  | PropKind.Array =>
      match children with
      | [] => Err (ArrayMissingElementProp (prop_id d))
      | child :: _ => ty ← ts_type child; Ok (ty +:+ "[] | null | undefined")
      end
  | PropKind.Boolean => Ok "boolean | null | undefined"
  | PropKind.Integer => Ok "number | null | undefined"
  | PropKind.Object =>
      fields ← (fix fields (children : list PropTreeNode) : result PropTreeError string :=
        match children with
        | [] => Ok ""
        | child :: children =>
            ty ← ts_type child;
            rest ← fields children;
            Ok (json_string (name (data_of child)) +:+ ": " +:+ ty +:+ ";" +:+ newline +:+ rest)
        end) children;
      Ok ("{" +:+ newline +:+ fields +:+ "}")
  | PropKind.Map =>
      match children with
      | [] => Err (MapMissingElementProp (prop_id d))
      | child :: _ => ty ← ts_type child; Ok ("Record<string, " +:+ ty +:+ "> | null | undefined")
      end
  | PropKind.String_ => Ok "string | null | undefined"
  end.

(** The queries for the names of a schema variant and of its schema, and the
    conversion of names to Pascal case. *)
Context (variant_name : Id → result E (option string)) (schema_name : Id → result E (option string)).
Context (pascal : string → string).

Definition asked_or {A} (r : result E (option A)) (missing : PropTreeError) : result PropTreeError A :=
  match r with
  | Ok (Some a) => Ok a
  | Ok None => Err missing
  | Err e => Err (Elsewhere e)
  end.

Definition toplevel (root : PropTreeNode) : result PropTreeError (string * string) :=
  let v := schema_variant_id (data_of root) in
  variant ← asked_or (variant_name v) (SchemaVariantNotFound v);
  schema ← asked_or (schema_name v) (MissingSchema v);
  let type_name := pascal schema +:+ "_" +:+ pascal variant +:+ "_" +:+ pascal (name (data_of root)) in
  ty ← ts_type root;
  Ok (type_name, match kind (data_of root) with
                 | PropKind.Object => "interface " +:+ type_name +:+ " " +:+ ty
                 | _ => "type " +:+ type_name +:+ " = " +:+ ty +:+ ";"
                 end).

Fixpoint ts_types (root_props : PropTree) : result PropTreeError (list (string * string)) :=
  match root_props with
  | [] => Ok []
  | root :: roots => top ← toplevel root; tops ← ts_types roots; Ok (top :: tops)
  end.

End Tree.

Arguments PropRow : clear implicits.
Arguments Row : clear implicits.
Arguments NodeData : clear implicits.
Arguments PropTreeNode : clear implicits.
Arguments PropTreeError : clear implicits.
Arguments PropTree : clear implicits.

(** ** The trees are those of the rows *)

Section Correct.
Context {J E : Type}.

(** Induction on trees, with the children. *)
Lemma node_ind (Q : PropTreeNode J → Prop) :
  (∀ d cs, Forall Q cs → Q (PNode d cs)) → ∀ t, Q t.
Proof.
  intros H. fix IH 1. intros [d cs]. apply H. induction cs as [|c cs IHcs]; constructor; [apply IH|apply IHcs].
Qed.

(** The rows that are taken, as nodes with the roots they belong to. *)
Abbreviation entry := (Id * NodeData J)%type (only parsing).

Definition taken (include_hidden : bool) (schema_variant_id_filter : option (list Id)) (row : Row J E) : option entry :=
  match object row with
  | Err _ => None
  | Ok prop => if negb (is_hidden prop && negb include_hidden) && filtered schema_variant_id_filter (row_schema_variant_id row)
               then Some (row_root_id row, node_of row prop) else None
  end.

(** What the rows say is below a prop of a root. *)
Definition below (es : list entry) (root : Id) (p : Id) : list (NodeData J) :=
  snd <$> filter (λ e : entry, parent_id e.2 = p ∧ e.1 = root) es.

(** A tree whose nodes have exactly the children of the rows, in their order. *)
Inductive grown (es : list entry) (root : Id) : PropTreeNode J → Prop :=
| grown_node d cs : data_of <$> cs = below es root (prop_id d) → Forall (grown es root) cs →
    grown es root (PNode d cs).

Fixpoint ids (t : PropTreeNode J) : list Id :=
  let 'PNode d cs := t in prop_id d :: (cs ≫= ids).

(** Props have different ids, none of them the one that stands for none, and no prop
    comes before its parent. *)
Definition in_order (es : list entry) : Prop :=
  NoDup (prop_id ∘ snd <$> es) ∧ (NONE ∉ prop_id ∘ snd <$> es) ∧
  ∀ before e after, es = before ++ e :: after → ∀ e', e' ∈ before ++ [e] → parent_id e'.2 ≠ prop_id e.2.

(** No id comes again below itself. *)
Inductive descending : PropTreeNode J → Prop :=
| descending_node d cs : (prop_id d ∉ cs ≫= ids) → Forall descending cs → descending (PNode d cs).

Lemma below_snoc es e root p : below (es ++ [e]) root p =
  below es root p ++ (if decide (parent_id e.2 = p ∧ e.1 = root) then [e.2] else []).
Proof.
  unfold below. rewrite filter_app, fmap_app. f_equal. rewrite filter_cons. by case_decide.
Qed.

Lemma ids_child d cs c i : c ∈ cs → i ∈ ids c → i ∈ ids (PNode d cs).
Proof. intros Hc Hi. right. apply list_elem_of_bind. by exists c. Qed.

Lemma grown_other es e root t : (parent_id e.2 ∈ ids t → e.1 ≠ root) →
  grown es root t → grown (es ++ [e]) root t.
Proof.
  induction t as [d cs IH] using node_ind. intros Hi Hg. inversion_clear Hg as [? ? Hcs Hall].
  constructor.
  - rewrite below_snoc, decide_False, app_nil_r; [done|]. intros (Hp & Hr).
    apply Hi; [|done]. rewrite Hp. by left.
  - rewrite Forall_forall in *. intros c Hc. apply IH; [done| |by apply Hall].
    intros Hic. apply Hi. by apply (ids_child d cs c).
Qed.

Lemma grown_leaf es root n : (∀ e, e ∈ es → parent_id e.2 ≠ prop_id n) → grown es root (PNode n []).
Proof.
  intros Hn. constructor; [|constructor]. unfold below. rewrite filter_none; [done|].
  apply Forall_forall. intros e He (Hp & _). by apply (Hn e).
Qed.

Lemma insert_data (t : PropTreeNode J) n : data_of (insert_prop_into t n) = data_of t.
Proof. destruct t as [d cs]. cbn. by case_bool_decide. Qed.

Lemma insert_ids t n i : i ∈ ids (insert_prop_into t n) → i = prop_id n ∨ i ∈ ids t.
Proof.
  induction t as [d cs IH] using node_ind. cbn [insert_prop_into]. case_bool_decide; cbn [ids]; rewrite !elem_of_cons.
  - rewrite bind_app, elem_of_app. cbn. rewrite list_elem_of_singleton. tauto.
  - rewrite !list_elem_of_bind. intros [->|(c' & Hi & (c & -> & Hc)%list_elem_of_fmap)]; [by right; left|].
    rewrite Forall_forall in IH. destruct (IH c Hc Hi); [by left|]. right. right. by exists c.
Qed.

Lemma insert_descending t n : prop_id n ∉ ids t → descending t → descending (insert_prop_into t n).
Proof.
  induction t as [d cs IH] using node_ind. intros Hn Hd. inversion_clear Hd as [? ? Hid Hall].
  assert (prop_id d ≠ prop_id n) as Hne by (intros Heq; apply Hn; rewrite <-Heq; by left).
  cbn [insert_prop_into]. case_bool_decide; constructor.
  - rewrite bind_app, elem_of_app. cbn. rewrite list_elem_of_singleton. tauto.
  - apply Forall_app. split; [done|]. repeat constructor. apply not_elem_of_nil.
  - rewrite list_elem_of_bind. intros (c' & Hi & (c & -> & Hc)%list_elem_of_fmap).
    apply insert_ids in Hi as [|Hi]; [done|]. apply Hid, list_elem_of_bind. by exists c.
  - rewrite Forall_fmap, Forall_forall in *. intros c Hc. apply IH; [done| |by apply Hall].
    intros Hi. apply Hn. by apply (ids_child d cs c).
Qed.

Lemma insert_grown es root t n : descending t → (∀ e, e ∈ es ++ [(root, n)] → parent_id e.2 ≠ prop_id n) →
  grown es root t → grown (es ++ [(root, n)]) root (insert_prop_into t n).
Proof.
  intros Hd Hleaf. induction t as [d cs IH] using node_ind. intros Hg.
  inversion_clear Hd as [? ? Hid Hall]. inversion_clear Hg as [? ? Hcs Hcg]. rewrite Forall_forall in *.
  cbn [insert_prop_into]. case_bool_decide as Hp; constructor.
  - rewrite fmap_app, Hcs, below_snoc. by rewrite decide_True.
  - apply Forall_app. split; [|by apply Forall_singleton, grown_leaf].
    rewrite Forall_forall. intros c Hc. apply grown_other; [|by apply Hcg].
    cbn. rewrite Hp. intros Hi. destruct Hid. apply list_elem_of_bind. by exists c.
  - rewrite below_snoc, decide_False by (intros [? _]; done). rewrite app_nil_r, <-Hcs, <-list_fmap_compose.
    apply list_fmap_ext. intros i c _. apply insert_data.
  - rewrite Forall_fmap, Forall_forall. intros c Hc. apply IH; auto.
Qed.

(** The trees after some rows. *)
Definition trees_of (es : list entry) : PropTree J := foldl (λ t '(root, n), place_node t root n) [] es.

Record trees_ok (es : list entry) (ts : PropTree J) : Prop := {
  roots_ok : data_of <$> ts = snd <$> filter (λ e : entry, is_unset (parent_id e.2)) es;
  tree_grown t : t ∈ ts → grown es (prop_id (data_of t)) t;
  tree_descending t : t ∈ ts → descending t;
  tree_ids t i : t ∈ ts → i ∈ ids t → i ∈ prop_id ∘ snd <$> es;
}.

Lemma in_order_snoc es e : in_order (es ++ [e]) → in_order es ∧ (prop_id e.2 ∉ prop_id ∘ snd <$> es) ∧
  (∀ e', e' ∈ es ++ [e] → parent_id e'.2 ≠ prop_id e.2).
Proof.
  intros (Hnd & Hnone & Hord). rewrite fmap_app in *. apply NoDup_app in Hnd as (Hnd & Hdisj & _). split_and!; [split_and!|..].
  - done.
  - intros Hin. apply Hnone, elem_of_app. by left.
  - intros before x after -> e' He'. eapply (Hord before x (after ++ [e])); [|done]. by rewrite <-app_assoc.
  - intros Hin. apply (Hdisj _ Hin). by left.
  - intros e' He'. by apply (Hord es e []).
Qed.

Lemma not_parent es e : in_order es → e ∈ es → parent_id e.2 = NONE → ∀ t, (∀ i, i ∈ ids t → i ∈ prop_id ∘ snd <$> es) →
  parent_id e.2 ∉ ids t.
Proof. intros (_ & Hnone & _) _ -> t Ht Hi. by apply Hnone, Ht. Qed.

Lemma place_root es e ts : in_order (es ++ [e]) → is_unset (parent_id e.2) = true → trees_ok es ts →
  trees_ok (es ++ [e]) (ts ++ [PNode e.2 []]).
Proof.
  intros Hord Hroot [Hroots Hgrown Hdesc Hids].
  pose proof (in_order_snoc es e Hord) as (_ & Hfresh & Hleaf).
  split.
  - rewrite filter_app, !fmap_app, Hroots, filter_cons_True by by rewrite Hroot. done.
  - intros t [Ht| ->%list_elem_of_singleton]%elem_of_app; [|by apply grown_leaf].
    apply grown_other; [|by apply Hgrown]. intros Hi. exfalso.
    apply (not_parent (es ++ [e]) e Hord) in Hi; [done|set_solver|by apply bool_decide_eq_true in Hroot|].
    intros i Hi'. rewrite fmap_app, elem_of_app. left. by apply (Hids t).
  - intros t [Ht| ->%list_elem_of_singleton]%elem_of_app; [by apply Hdesc|]. constructor; [apply not_elem_of_nil|constructor].
  - intros t i [Ht| ->%list_elem_of_singleton]%elem_of_app Hi; rewrite fmap_app, elem_of_app; [left; by apply (Hids t)|].
    right. done.
Qed.

Lemma place_child es root n ts : in_order (es ++ [(root, n)]) → is_unset (parent_id n) = false → trees_ok es ts →
  trees_ok (es ++ [(root, n)])
    ((λ t, if bool_decide (prop_id (data_of t) = root) then insert_prop_into t n else t) <$> ts).
Proof.
  intros Hord Hroot [Hroots Hgrown Hdesc Hids].
  pose proof (in_order_snoc es (root, n) Hord) as (_ & Hfresh & Hleaf). cbn [snd] in *.
  split.
  - rewrite filter_app, fmap_app, filter_cons_False by (cbn [snd]; rewrite Hroot; by intros []). rewrite app_nil_r, <-Hroots, <-list_fmap_compose.
    apply list_fmap_ext. intros i t _. cbn. case_bool_decide; [apply insert_data|done].
  - intros t' (t & -> & Ht)%list_elem_of_fmap. specialize (Hgrown t Ht). case_bool_decide as Hr.
    + rewrite insert_data. subst root. apply insert_grown; auto.
    + apply grown_other; [|done]. cbn. intros _ Heq. by apply Hr.
  - intros t' (t & -> & Ht)%list_elem_of_fmap. case_bool_decide; [|auto]. apply insert_descending; [|auto].
    intros Hi. by apply Hfresh, (Hids t).
  - intros t' i (t & -> & Ht)%list_elem_of_fmap Hi. rewrite fmap_app, elem_of_app.
    assert (i = prop_id n ∨ i ∈ ids t) as [->|Hi'].
    { case_bool_decide; [by apply insert_ids|by right]. }
    + right. by left.
    + left. by apply (Hids t).
Qed.

Lemma trees_of_ok es : in_order es → trees_ok es (trees_of es).
Proof.
  induction es as [|[root n] es IH] using rev_ind; intros Hord.
  { split; cbn; try done; intros t; by rewrite elem_of_nil || intros ? ?%elem_of_nil. }
  unfold trees_of. rewrite foldl_app. cbn [foldl]. unfold place_node.
  pose proof (in_order_snoc _ _ Hord) as (Hes & _). specialize (IH Hes).
  destruct (is_unset (parent_id n)) eqn:Hroot; [by apply (place_root es (root, n))|by apply place_child].
Qed.

Lemma new_step_taken include_hidden filter_ids (row : Row J E) ts : is_ok (object row) →
  new_step include_hidden filter_ids ts row =
    Ok (match taken include_hidden filter_ids row with Some (root, n) => place_node ts root n | None => ts end).
Proof.
  unfold new_step, taken. destruct (object row) as [prop|e]; [|done]. intros _.
  destruct (is_hidden prop && negb include_hidden); [done|]. by destruct (filtered _ _).
Qed.

Lemma new_tree_taken include_hidden filter_ids (rows : list (Row J E)) :
  Forall (λ row, is_ok (object row)) rows →
  new_tree (Ok rows) include_hidden filter_ids = Ok (trees_of (omap (taken include_hidden filter_ids) rows)).
Proof.
  intros Hrows. unfold new_tree, trees_of. generalize (@nil (PropTreeNode J)) as ts.
  induction Hrows as [|row rows Hrow _ IH]; intros ts; [done|]. cbn [foldl omap list_omap mbind result_bind].
  rewrite new_step_taken by done. destruct (taken include_hidden filter_ids row) as [[root n]|]; apply IH.
Qed.

(** The props that hang together with a root by the rows. *)
Inductive linked (es : list entry) (root : Id) : Id → Prop :=
| linked_root : linked es root root
| linked_below p n : linked es root p → n ∈ below es root p → linked es root (prop_id n).

Lemma grown_below es root t p n : grown es root t → p ∈ ids t → n ∈ below es root p → prop_id n ∈ ids t.
Proof.
  induction t as [d cs IH] using node_ind. intros Hg Hp Hn. inversion_clear Hg as [? ? Hcs Hall].
  rewrite Forall_forall in *. apply elem_of_cons in Hp as [->|(c & Hp & Hc)%list_elem_of_bind].
  - rewrite <-Hcs in Hn. apply list_elem_of_fmap in Hn as (c & -> & Hc).
    apply (ids_child d cs c); [done|]. destruct c. by left.
  - apply (ids_child d cs c); auto.
Qed.

Lemma grown_linked es root t i : grown es root t → linked es root (prop_id (data_of t)) → i ∈ ids t → linked es root i.
Proof.
  induction t as [d cs IH] using node_ind. intros Hg Hd Hi. inversion_clear Hg as [? ? Hcs Hall].
  rewrite Forall_forall in *. apply elem_of_cons in Hi as [->|(c & Hi & Hc)%list_elem_of_bind]; [done|].
  apply (IH c); auto. apply (linked_below _ _ (prop_id d)); [done|]. rewrite <-Hcs. by apply list_elem_of_fmap_2.
Qed.

Lemma linked_ids es t i : grown es (prop_id (data_of t)) t → i ∈ ids t ↔ linked es (prop_id (data_of t)) i.
Proof.
  intros Hg. split; [apply grown_linked; [done|constructor]|].
  induction 1 as [|p n _ IH Hn]; [destruct t; by left|]. by apply (grown_below es (prop_id (data_of t)) t p).
Qed.

(** C26: if the rows give every prop after its parent and under an id of its own, the
    trees have a root for each prop without parent, in the order of the rows; below
    every node of a tree are exactly the props that the rows put there, in their order;
    and a tree has exactly the props that hang together with its root. A prop below one
    that is left out is left out. *)
Theorem trees_are_those_of_the_rows include_hidden filter_ids (rows : list (Row J E)) es :
  Forall (λ row, is_ok (object row)) rows → es = omap (taken include_hidden filter_ids) rows → in_order es →
  ∃ ts, new_tree (Ok rows) include_hidden filter_ids = Ok ts ∧
    data_of <$> ts = snd <$> filter (λ e, is_unset (parent_id e.2)) es ∧
    ∀ t, t ∈ ts → grown es (prop_id (data_of t)) t ∧
      ∀ i, i ∈ ids t ↔ linked es (prop_id (data_of t)) i.
Proof.
  intros Hrows -> Hord. exists (trees_of (omap (taken include_hidden filter_ids) rows)).
  destruct (trees_of_ok _ Hord) as [Hroots Hgrown _ _]. split_and!; [by apply new_tree_taken|done|].
  intros t Ht. split; [auto|]. intros i. apply linked_ids. auto.
Qed.

(** Such a tree is the only one of its root. *)
Lemma grown_unique es root t t' : grown es root t → grown es root t' → data_of t = data_of t' → t = t'.
Proof.
  revert t'. induction t as [d cs IH] using node_ind. intros [d' cs'] Hg Hg' Hd. cbn in Hd. subst d'. f_equal.
  inversion_clear Hg as [? ? Hcs Hall]. inversion_clear Hg' as [? ? Hcs' Hall']. rewrite <-Hcs' in Hcs. clear Hcs'.
  revert cs' Hcs Hall'. induction IH as [|c cs IHc _ IHcs]; intros [|c' cs'] Heq Hall'; try done.
  injection Heq as Hc Hcs. apply Forall_cons in Hall as [? ?], Hall' as [? ?]. f_equal; auto.
Qed.
End Correct.

(** ** What the printed types say *)

(** Types of TypeScript, as far as they are printed. A union is the list of its
    alternatives; an array of [A | B] needs parentheses, and is not among them. *)
Inductive Ty : Type :=
| Word (w : string)
| ArrayOf (t : Ty)
| RecordOf (u : list Ty)
| Interface (fields : list (string * list Ty)).

Section Types.
Context {J E : Type} (json_string : string → string).

Definition alternatives (l : list string) : string :=
  match l with
  | [] => ""
  | s :: l => foldl (λ text s, text +:+ " | " +:+ s) s l
  end.

Fixpoint print (t : Ty) : string :=
  match t with
  | Word w => w
  | ArrayOf t => print t +:+ "[]"
  | RecordOf u => "Record<string, " +:+ alternatives (print <$> u) +:+ ">"
  | Interface fields =>
      "{" +:+ newline +:+
      foldr (λ '(key, u) rest, json_string key +:+ ": " +:+ alternatives (print <$> u) +:+ ";" +:+ newline +:+ rest)
        "" fields +:+ "}"
  end.

Definition print_union (u : list Ty) : string := alternatives (print <$> u).

Definition optional : list Ty := [Word "null"; Word "undefined"].

(** [[]] behind a union belongs to its last alternative. *)
Definition array_last (u : list Ty) : list Ty :=
  match reverse u with
  | [] => []
  | t :: u => reverse (ArrayOf t :: u)
  end.

(** The type that is printed for a prop. *)
Fixpoint written (t : PropTreeNode J) : list Ty :=
  let 'PNode d cs := t in
  match kind d with
  | PropKind.Array => match cs with c :: _ => array_last (written c) ++ optional | [] => [] end
  | PropKind.Boolean => Word "boolean" :: optional
  | PropKind.Integer => Word "number" :: optional
  | PropKind.Object => [Interface ((λ c, (name (data_of c), written c)) <$> cs)]
  | PropKind.Map => match cs with c :: _ => RecordOf (written c) :: optional | [] => [] end
  | PropKind.String_ => Word "string" :: optional
  end.

(** Arrays and maps that are printed have the prop of their elements. *)
Fixpoint has_elements (t : PropTreeNode J) : Prop :=
  let 'PNode d cs := t in
  match kind d with
  | PropKind.Array | PropKind.Map => match cs with c :: _ => has_elements c | [] => False end
  | PropKind.Object => foldr (λ c rest, has_elements c ∧ rest) True cs
  | _ => True
  end.

Lemma alternatives_snoc l s : l ≠ [] → alternatives (l ++ [s]) = alternatives l +:+ " | " +:+ s.
Proof. destruct l as [|x l]; [done|]. intros _. cbn. by rewrite foldl_app. Qed.

Lemma append_assoc_r (a b c : string) : (a +:+ b) +:+ c = a +:+ b +:+ c.
Proof. induction a as [|x a IH]; [done|]. exact (f_equal (String x) IH). Qed.

Lemma print_optional u : u ≠ [] → print_union (u ++ optional) = print_union u +:+ " | null | undefined".
Proof.
  intros Hu. unfold print_union, optional.
  change [Word "null"; Word "undefined"] with ([Word "null"] ++ [Word "undefined"]).
  rewrite app_assoc, !fmap_app. change (print <$> [Word "null"]) with ["null"].
  change (print <$> [Word "undefined"]) with ["undefined"]. rewrite !alternatives_snoc.
  - by rewrite append_assoc_r.
  - by destruct u.
  - by destruct u.
Qed.

Lemma print_array u : u ≠ [] → print_union (array_last u) = print_union u +:+ "[]" ∧ array_last u ≠ [].
Proof.
  induction u as [|t u _] using rev_ind; [done|]. intros _. unfold array_last.
  rewrite reverse_snoc, reverse_cons, reverse_involutive.
  split; [|by destruct u]. unfold print_union. rewrite !fmap_app. destruct u as [|x u]; [done|].
  change (print <$> [ArrayOf t]) with [print t +:+ "[]"]. change (print <$> [t]) with [print t].
  rewrite !alternatives_snoc by done. by rewrite !append_assoc_r.
Qed.

Lemma written_some t : has_elements t → written t ≠ [].
Proof.
  destruct t as [d cs]. cbn. destruct (kind d); try done; destruct cs as [|c cs]; try done.
  intros _. by destruct (array_last _).
Qed.

(** the type of a prop is printed exactly if the arrays and maps in it have the prop
    of their elements. What is printed for an array of a union is the union with an
    array of its last alternative: for an array of strings, [string | null |
    undefined[] | null | undefined]. *)
Theorem printed_types t :
  (has_elements t → ts_type (E := E) json_string t = Ok (print_union (written t))) ∧
  (is_ok (ts_type (E := E) json_string t) → has_elements t).
Proof.
  induction t as [d cs IH] using node_ind. split.
  - intros Ht. cbn in Ht |- *. destruct (kind d); try done.
    + destruct cs as [|c cs]; [done|]. apply Forall_cons in IH as [[IH _] _]. rewrite IH by done.
      cbn. destruct (print_array (written c)) as [Hp Hne]; [by apply written_some|].
      rewrite print_optional, Hp by done. by rewrite append_assoc_r.
    + destruct cs as [|c cs]; [done|]. apply Forall_cons in IH as [[IH _] _]. rewrite IH by done.
      cbn. by rewrite !append_assoc_r.
    + match goal with |- context [?f cs ≫= _] => assert (f cs = Ok (foldr (λ '(key, u) rest,
        json_string key +:+ ": " +:+ alternatives (print <$> u) +:+ ";" +:+ newline +:+ rest) ""
        ((λ c, (name (data_of c), written c)) <$> cs))) as ->; [|done] end.
      induction cs as [|c cs IHcs]; [done|]. apply Forall_cons in IH as [[IH _] IH']. destruct Ht as [Hc Ht].
      rewrite IH by done. cbn [mbind result_bind]. rewrite IHcs by done. done.
  - intros Ht. cbn in Ht |- *. destruct (kind d); try done.
    + destruct cs as [|c cs]; [done|]. apply Forall_cons in IH as [[_ IH] _]. apply IH. by destruct (ts_type _ c).
    + destruct cs as [|c cs]; [done|]. apply Forall_cons in IH as [[_ IH] _]. apply IH. by destruct (ts_type _ c).
    + induction cs as [|c cs IHcs]; [done|]. apply Forall_cons in IH as [[_ IH] IH'].
      destruct (ts_type _ c) eqn:Hc; [|done]. split; [by apply IH|]. apply IHcs; [done|].
      match type of Ht with context [?f cs] => by destruct (f cs) end.
Qed.
End Types.

(** An array of strings. *)
Definition sample_node (id : Id) (k : PropKind.t) (n : string) (cs : list (PropTreeNode unit)) : PropTreeNode unit :=
  PNode {| parent_id := NONE; prop_id := id; visibility_change_set_pk := 0%N; kind := k; schema_variant_id := 1%N;
           internal_provider_id := None; path := "/"; name := n; hidden := false; widget_kind := WidgetKind.Text;
           widget_options := None; doc_link := None |} cs.

Lemma printed_types_witness :
  ts_type (E := unit) (λ s, s) (sample_node 1 PropKind.Array "names" [sample_node 2 PropKind.String_ "name" []]) =
    Ok "string | null | undefined[] | null | undefined".
Proof.
  rewrite (proj1 (printed_types (E := unit) (λ s, s) (sample_node 1 PropKind.Array "names" [sample_node 2 PropKind.String_ "name" []])) I).
  reflexivity.
Defined.

(** Rows of a root, a prop below it, one that is hidden with one below that, and a
    root of another schema variant. *)
Definition sample_row (id parent root variant : Id) (n : string) (h : bool) : Row unit unit := {|
  object := Ok {| id_of_prop := id; kind_of_prop := PropKind.Object; is_hidden := h; widget_kind_of_prop := WidgetKind.Header;
                  widget_options_of_prop := None; doc_link_of_prop := None |};
  row_parent_id := parent; row_root_id := root; row_schema_variant_id := variant; row_visibility_change_set_pk := 0%N;
  row_internal_provider_id := None; row_path := "/"; row_name := n |}.

Definition sample_rows : list (Row unit unit) :=
  [sample_row 1 NONE 1 10 "root" false; sample_row 2 1 1 10 "domain" false; sample_row 3 1 1 10 "secrets" true;
   sample_row 4 3 1 10 "key" false; sample_row 5 2 1 10 "name" false; sample_row 6 NONE 6 11 "root" false].

Lemma trees_are_those_of_the_rows_witness :
  ∃ ts, new_tree (Ok sample_rows) false (Some [10%N]) = Ok ts ∧ prop_id ∘ data_of <$> ts = [1%N] ∧
    ∀ t, t ∈ ts → 5%N ∈ ids t ∧ (4%N ∉ ids t).
Proof.
  destruct (trees_are_those_of_the_rows false (Some [10%N]) sample_rows (omap (taken false (Some [10%N])) sample_rows))
    as (ts & Hts & Hroots & Hts').
  - repeat constructor.
  - reflexivity.
  - split_and!; [apply (bool_decide_unpack _); vm_compute; exact I..|].
    intros before e after Heq e' He'. cbn in Heq.
    repeat (destruct before as [|? before];
      [injection Heq as <- <-; repeat (apply elem_of_cons in He' as [->|He']; [done|]); by apply elem_of_nil in He'
      |injection Heq as <- Heq]).
    by destruct before.
  - exists ts. split; [done|]. split.
    + rewrite list_fmap_compose, Hroots. reflexivity.
    + intros t Ht. destruct (Hts' t Ht) as [_ Hids]. rewrite !Hids. vm_compute in Hts. injection Hts as <-.
      apply list_elem_of_singleton in Ht as ->. rewrite <-!Hids.
      split; apply (bool_decide_unpack _); vm_compute; exact I.
Defined.
