(* ===== verification/PropertyEditor.v ===== *)
(** * The property editor

    Model of [src/lib/dal/src/property_editor]: the props of a schema variant, the
    values of a component and their validations, in the shape in which the frontend
    edits them. The rows of the queries, and their failures, are arguments. *)

From S2P Require Import Prelude Redaction Validations ValidationChecks AttributeContext IndexMap AttributeView VariantDefinition.
From Stdlib Require Import NArith Strings.String.
From stdpp Require Import base tactics sets gmap list strings sorting.

Abbreviation Id := N (only parsing).

Inductive PropertyEditorError (E : Type) : Type :=
| RootPropNotFound
| PropNotFound (id : Id)
| SchemaVariantNotFound (id : Id)
| Elsewhere (e : E).
Arguments RootPropNotFound {_}.
Arguments PropNotFound {_} _.
Arguments SchemaVariantNotFound {_} _.
Arguments Elsewhere {_} _.

Definition asked_for {E A} (r : result E A) : result (PropertyEditorError E) A :=
  match r with Ok a => Ok a | Err e => Err (Elsewhere e) end.

(** ** Props *)

Module Schema.

Module PropertyEditorPropKind.
Inductive t : Set := Array | Boolean | Integer | Map | Object | String_.

Definition from (k : PropKind.t) : t :=
  match k with
  | PropKind.Array => Array
  | PropKind.Boolean => Boolean
  | PropKind.Integer => Integer
  | PropKind.Object => Object
  | PropKind.String_ => String_
  | PropKind.Map => Map
  end.
End PropertyEditorPropKind.

(** [WidgetKind::from(&PropSpecWidgetKind)]. *)
Definition widget_kind_from (k : PkgSpec.PropSpecWidgetKind.t) : WidgetKind.t :=
  match k with
  | PkgSpec.PropSpecWidgetKind.Array => WidgetKind.Array
  | PkgSpec.PropSpecWidgetKind.Checkbox => WidgetKind.Checkbox
  | PkgSpec.PropSpecWidgetKind.Header => WidgetKind.Header
  | PkgSpec.PropSpecWidgetKind.Map => WidgetKind.Map
  | PkgSpec.PropSpecWidgetKind.Select => WidgetKind.Select
  | PkgSpec.PropSpecWidgetKind.Color => WidgetKind.Color
  | PkgSpec.PropSpecWidgetKind.Secret => WidgetKind.Secret
  | PkgSpec.PropSpecWidgetKind.Text => WidgetKind.Text
  | PkgSpec.PropSpecWidgetKind.TextArea => WidgetKind.TextArea
  | PkgSpec.PropSpecWidgetKind.ComboBox => WidgetKind.ComboBox
  end.

Section Schema.
Context {J E : Type}.

Inductive PropertyEditorPropWidgetKind : Type :=
| Array
| Checkbox
| Color
| ComboBox (options : option J)
| Header
| Map
| Secret (options : option J)
| Select (options : option J)
| Text
| TextArea.

Definition new_widget_kind (widget_kind : WidgetKind.t) (widget_options : option J) : PropertyEditorPropWidgetKind :=
  match widget_kind with
  | WidgetKind.Array => Array
  | WidgetKind.Checkbox => Checkbox
  | WidgetKind.Header => Header
  | WidgetKind.Map => Map
  | WidgetKind.Select => Select widget_options
  | WidgetKind.Color => Color
  | WidgetKind.Secret => Secret widget_options
  | WidgetKind.Text => Text
  | WidgetKind.TextArea => TextArea
  | WidgetKind.ComboBox => ComboBox widget_options
  end.

(** The columns of [Prop] that are read. *)
Record EditedProp := {
  prop_id : Id;
  prop_name : string;
  prop_kind : PropKind.t;
  prop_widget_kind : WidgetKind.t;
  prop_widget_options : option J;
  prop_doc_link : option string;
}.

Record PropertyEditorProp := {
  id : Id;
  name : string;
  kind : PropertyEditorPropKind.t;
  widget_kind : PropertyEditorPropWidgetKind;
  doc_link : option string;
}.

Definition new_prop (prop : EditedProp) : PropertyEditorProp := {|
  id := prop_id prop;
  name := prop_name prop;
  kind := PropertyEditorPropKind.from (prop_kind prop);
  widget_kind := new_widget_kind (prop_widget_kind prop) (prop_widget_options prop);
  doc_link := prop_doc_link prop;
|}.

Record PropertyEditorSchema := {
  root_prop_id : Id;
  props : gmap Id PropertyEditorProp;
  child_props : gmap Id (list Id);
}.

(** A row of the query: reading the prop can fail, and so can finding its ancestors. *)
Record SchemaRow := {
  row_object : result E EditedProp;
  row_json_pointer : result E string;
  row_child_prop_ids : option (list Id);
}.

Definition secret_definition : string := "/root/secret_definition".

(** The maps after a row. *)
Definition add_row (props : gmap Id PropertyEditorProp) (child_props : gmap Id (list Id)) (row : SchemaRow) :
    result E (gmap Id PropertyEditorProp * gmap Id (list Id)) :=
  prop ← row_object row;
  json_pointer ← row_json_pointer row;
  if String.prefix secret_definition json_pointer then Ok (props, child_props)
  else
    let property_editor_prop := new_prop prop in
    let child_props := match row_child_prop_ids row with
                       | Some child_prop_ids => <[id property_editor_prop := child_prop_ids]> child_props
                       | None => child_props
                       end in
    Ok (<[id property_editor_prop := property_editor_prop]> props, child_props).

Fixpoint add_rows (rows : list SchemaRow) (props : gmap Id PropertyEditorProp) (child_props : gmap Id (list Id)) :
    result E (gmap Id PropertyEditorProp * gmap Id (list Id)) :=
  match rows with
  | [] => Ok (props, child_props)
  | row :: rows => '(props, child_props) ← add_row props child_props row; add_rows rows props child_props
  end.

(** The schema variant is what [get_by_id] finds: its root prop, if it has one. *)
Definition for_schema_variant (schema_variant : result E (option (option Id))) (rows : result E (list SchemaRow))
    (schema_variant_id : Id) : result (PropertyEditorError E) PropertyEditorSchema :=
  variant ← asked_for schema_variant;
  match variant with
  | None => Err (SchemaVariantNotFound schema_variant_id)
  | Some maybe_root =>
      rows ← asked_for rows;
      '(props, child_props) ← asked_for (add_rows rows ∅ ∅);
      match maybe_root with
      | None => Err RootPropNotFound
      | Some root => Ok {| root_prop_id := root; props := props; child_props := child_props |}
      end
  end.

End Schema.
Arguments EditedProp : clear implicits.
Arguments PropertyEditorProp : clear implicits.
Arguments PropertyEditorPropWidgetKind : clear implicits.
Arguments PropertyEditorSchema : clear implicits.
Arguments SchemaRow : clear implicits.

End Schema.

(** ** Values *)

Module Values.
Section Values.
Context `{S : SerdeJson} {E : Type}.

Record PropertyEditorValue := {
  id : Id;
  prop_id : Id;
  key : option string;
  value : Value;
  is_from_external_source : bool;
}.

Record PropertyEditorValues := {
  root_value_id : Id;
  values : gmap Id PropertyEditorValue;
  child_values : gmap Id (list Id);
}.

Definition row_id (work : AttributeValuePayload) : Id := AttributeView.id (attribute_value work).

Definition editor_value (work : AttributeValuePayload) (is_from_external_source : bool) : PropertyEditorValue := {|
  id := row_id work;
  prop_id := prop_pk (prop work);
  key := AttributeView.key (attribute_value work);
  value := default Null (found_value work);
  is_from_external_source := is_from_external_source;
|}.

(** The maps and the root after a row. [sockets] are the connected sockets of a value. *)
Context (sockets : Id → result E (list Id)).

Abbreviation State := (option Id * gmap Id PropertyEditorValue * gmap Id (list Id))%type (only parsing).

Definition add_value (st : State) (work : AttributeValuePayload) : result E State :=
  let '(root_value_id, values, child_values) := st in
  sockets ← sockets (row_id work);
  let is_from_external_source := negb (bool_decide (sockets = [])) in
  let values := <[row_id work := editor_value work is_from_external_source]> values in
  match parent_attribute_value_id work with
  | Some parent_id =>
      Ok (root_value_id, values,
          <[parent_id := default [] (child_values !! parent_id) ++ [row_id work]]> child_values)
  | None => Ok (Some (row_id work), values, child_values)
  end.

Fixpoint add_values (work_queue : list AttributeValuePayload) (st : State) : result E State :=
  match work_queue with
  | [] => Ok st
  | work :: work_queue => st ← add_value st work; add_values work_queue st
  end.

Definition for_component (payload : result E (list AttributeValuePayload)) :
    result (PropertyEditorError E) PropertyEditorValues :=
  rows ← asked_for payload;
  '(root_value_id, values, child_values) ← asked_for (add_values (work_queue rows) (None, ∅, ∅));
  match root_value_id with
  | Some root_value_id =>
      Ok {| root_value_id := root_value_id; values := values; child_values := child_values |}
  | None => Err RootPropNotFound
  end.

(** [PropertyEditorValue::prop]. *)
Definition prop_of {P} (get_by_id : Id → result E (option P)) (v : PropertyEditorValue) : result (PropertyEditorError E) P :=
  found ← asked_for (get_by_id (prop_id v));
  match found with Some p => Ok p | None => Err (PropNotFound (prop_id v)) end.

End Values.
End Values.

(** ** Validations *)

Module Shown.

Record PropertyEditorValidationError := {
  message : Message;
  level : option (list N);
  kind : option (list N);
  link : option (list N);
}.

Record PropertyEditorValidation := {
  value_id : Id;
  valid : bool;
  errors : list PropertyEditorValidationError;
}.

(** [ValidationErrorKind::as_str]. *)
Definition kind_as_str (k : ValidationErrorKind) : list N :=
  chars match k with
        | IntegerNotInBetweenTwoIntegers => "IntegerNotInBetweenTwoIntegers"
        | InvalidHexString => "InvalidHexString"
        | InvalidIpAddr => "InvalidIpAddr"
        | StringDoesNotEqual => "StringDoesNotEqual"
        | StringDoesNotHavePrefix => "StringDoesNotHavePrefix"
        | StringNotInStringArray => "StringNotInStringArray"
        | ValueMustBePresent => "ValueMustBePresent"
        | JsValidation => "JsValidation"
        end.

Definition shown_error (err : ValidationError) : PropertyEditorValidationError := {|
  message := Validations.message err;
  level := Validations.level err;
  kind := Some (kind_as_str (Validations.kind err));
  link := Validations.link err;
|}.

(** The statuses in the order in which the hash map gives them. *)
Definition for_component (status : list (Id * list ValidationError)) : list PropertyEditorValidation :=
  (λ '(attribute_value_id, errs),
     {| value_id := attribute_value_id; valid := bool_decide (errs = []); errors := shown_error <$> errs |}) <$> status.

End Shown.
