(* ===== verification/EditorTheorems.v ===== *)
(** * What the property editor shows

    Theorems about [PropertyEditor]: the editor has every value of a component once,
    below its parent and in the order of its index map; the props of a schema variant
    less those of its secret definition. *)

From S2P Require Import Prelude AttributeContext IndexMap AttributeView ViewTree ViewForest ViewSample VariantDefinition PropertyEditor.
From Stdlib Require Import NArith Strings.String.
From stdpp Require Import base tactics sets gmap list strings sorting.

Abbreviation Id := N (only parsing).

(** ** Positions in a list *)

Definition position (l : list Id) (i : Id) : nat :=
  match list_find (λ j, j = i) l with Some (n, _) => n | None => 0 end.

Lemma position_lookup l n i : NoDup l → l !! n = Some i → position l i = n.
Proof.
  intros Hl Hn. unfold position.
  assert (list_find (λ j, j = i) l = Some (n, i)) as ->; [|done].
  apply list_find_Some. split_and!; [done..|]. intros j x Hj Hlt ->.
  assert (j = n) as -> by (by eapply NoDup_lookup). lia.
Qed.

Lemma position_inj l i j : NoDup l → i ∈ l → j ∈ l → position l i = position l j → i = j.
Proof.
  intros Hl (n & Hn)%list_elem_of_lookup (m & Hm)%list_elem_of_lookup.
  rewrite (position_lookup l n i), (position_lookup l m j) by done. congruence.
Qed.

Lemma positions_sorted l pre k : NoDup l → l = pre ++ k → StronglySorted (λ i j, position l i ≤ position l j) k.
Proof.
  intros Hl. revert pre. induction k as [|x k IH]; intros pre Heq; constructor.
  - apply (IH (pre ++ [x])). by rewrite <-app_assoc.
  - apply Forall_forall. intros y (n & Hy)%list_elem_of_lookup.
    rewrite (position_lookup l (length pre) x), (position_lookup l (length pre + S n) y); [lia|done| |done|].
    + rewrite Heq, lookup_app_r by lia. by replace (length pre + S n - length pre) with (S n) by lia.
    + rewrite Heq, lookup_app_r by lia. by replace (length pre - length pre) with 0 by lia.
Qed.

(** Among ids that a list has once, a selection that is sorted by position is in the
    order of the list. *)
Lemma sorted_selection l pre seg post k : NoDup l → l = pre ++ seg ++ post → NoDup k → (∀ i, i ∈ k → i ∈ seg) →
  StronglySorted (λ i j, position l i ≤ position l j) k → k = filter (λ i, i ∈ k) seg.
Proof.
  intros Hl Heq Hk Hseg Hsorted.
  assert (NoDup seg) as Hsnd by (rewrite Heq in Hl; by apply NoDup_app in Hl as (_ & _ & (Hl & _)%NoDup_app)).
  apply (StronglySorted_unique_strong (λ i j, position l i ≤ position l j)).
  - intros i j Hi [_ Hj]%list_elem_of_filter Hij Hji. apply (position_inj l); [done| | |lia].
    + rewrite Heq, !elem_of_app. right. left. by apply Hseg.
    + rewrite Heq, !elem_of_app. by right; left.
  - done.
  - apply StronglySorted_filter. apply (StronglySorted_app_1_l _ seg post). by apply (positions_sorted l pre).
  - apply NoDup_Permutation; [done|by apply NoDup_filter|]. intros i. rewrite list_elem_of_filter. naive_solver.
Qed.

(** ** Values *)

Section Values.
Context `{S : SerdeJson} {E : Type} (sockets : Id → result E (list Id)).

Abbreviation row := AttributeValuePayload (only parsing).
Abbreviation row_id := Values.row_id (only parsing).

(** The children of a value, by the rows. *)
Definition children_ids (rows : list row) (p : Id) : list Id :=
  row_id <$> filter (λ w, parent_attribute_value_id w = Some p) rows.

Definition connected (w : row) : bool :=
  match sockets (row_id w) with Ok l => negb (bool_decide (l = [])) | Err _ => false end.

Record editor_of (rows : list row) (root : option Id) (vals : gmap Id Values.PropertyEditorValue) (ch : gmap Id (list Id)) : Prop := {
  editor_root : root = last (row_id <$> filter (λ w, parent_attribute_value_id w = None) rows);
  editor_values i v : vals !! i = Some v ↔ ∃ w, w ∈ rows ∧ row_id w = i ∧ v = Values.editor_value w (connected w);
  editor_children p : default [] (ch !! p) = children_ids rows p;
}.

Lemma add_values_app l l' st :
  Values.add_values sockets (l ++ l') st = (st ← Values.add_values sockets l st; Values.add_values sockets l' st).
Proof.
  revert st. induction l as [|w l IH]; intros st; [done|]. cbn [app Values.add_values].
  destruct (Values.add_value sockets st w); cbn [mbind result_bind]; [apply IH|done].
Qed.

Lemma values_snoc (l : list row) w (vals : gmap Id Values.PropertyEditorValue) b i v : row_id w ∉ row_id <$> l →
  (∀ i v, vals !! i = Some v ↔ ∃ w, w ∈ l ∧ row_id w = i ∧ v = Values.editor_value w (connected w)) → b = connected w →
  <[row_id w := Values.editor_value w b]> vals !! i = Some v ↔
    ∃ x, x ∈ l ++ [w] ∧ row_id x = i ∧ v = Values.editor_value x (connected x).
Proof.
  intros Hw Hvals ->. setoid_rewrite elem_of_app. setoid_rewrite list_elem_of_singleton.
  destruct (decide (i = row_id w)) as [->|Hne].
  - rewrite lookup_insert_eq. split; [intros [= <-]; eauto|]. intros (x & [Hx| ->] & Hi & ->); [|done].
    destruct Hw. rewrite <-Hi. by apply list_elem_of_fmap_2.
  - rewrite lookup_insert_ne, Hvals by done. split; [intros (x & Hx & Hi & ->); eauto|].
    intros (x & [Hx| ->] & Hi & ->); [eauto|done].
Qed.

Lemma add_values_editor l : NoDup (row_id <$> l) → (∀ w, w ∈ l → is_ok (sockets (row_id w))) →
  ∃ root vals ch, Values.add_values sockets l (None, ∅, ∅) = Ok (root, vals, ch) ∧ editor_of l root vals ch.
Proof.
  induction l as [|w l IH] using rev_ind; intros Hnd Hs.
  { exists None, ∅, ∅. split; [done|]. split; [done| |done].
    intros i v. rewrite lookup_empty. split; [done|]. intros (w & []%not_elem_of_nil & _). }
  rewrite fmap_app in Hnd. apply NoDup_app in Hnd as (Hnd & Hdisj & _).
  destruct IH as (root & vals & ch & Hrun & [Hroot Hvals Hch]); [done|set_solver|].
  assert (row_id w ∉ row_id <$> l) as Hw by (intros Hin; apply (Hdisj _ Hin); by left).
  assert (is_ok (sockets (row_id w))) as Hsw by (apply Hs; set_solver).
  assert (∀ s, sockets (row_id w) = Ok s → negb (bool_decide (s = [])) = connected w) as Hc.
  { intros s Heq. unfold connected. by rewrite Heq. }
  rewrite add_values_app, Hrun. cbn [mbind result_bind Values.add_values]. unfold Values.add_value.
  destruct (sockets (row_id w)) as [s|] eqn:Heq; [|done]. cbn [mbind result_bind]. specialize (Hc s eq_refl).
  destruct (parent_attribute_value_id w) as [p|] eqn:Hp; cbn [mbind result_bind]; eexists _, _, _; split; try done; split.
  - by rewrite filter_app, filter_cons_False, app_nil_r by (by rewrite Hp).
  - intros i v. by apply values_snoc.
  - intros q. unfold children_ids. rewrite filter_app, fmap_app. destruct (decide (p = q)) as [->|Hne].
    + rewrite lookup_insert_eq, filter_cons_True by done. cbn. by rewrite Hch.
    + rewrite lookup_insert_ne, filter_cons_False, app_nil_r by (done || rewrite Hp; congruence). apply Hch.
  - rewrite filter_app, filter_cons_True, fmap_app by done. cbn. by rewrite last_snoc.
  - intros i v. by apply values_snoc.
  - intros q. unfold children_ids. rewrite filter_app, filter_cons_False, app_nil_r by (by rewrite Hp). apply Hch.
Qed.

Lemma StronglySorted_fmap {A B} (f : A → B) (R : B → B → Prop) l :
  StronglySorted (λ a b, R (f a) (f b)) l → StronglySorted R (f <$> l).
Proof using Type. induction 1 as [|a l _ IH Ha]; constructor; [done|]. by apply Forall_fmap. Qed.

Lemma children_queue rows p : children_ids (work_queue rows) p ≡ₚ children_ids rows p.
Proof using Type. unfold children_ids, work_queue. by rewrite stable_sort_perm. Qed.

Lemma children_sorted rows p : StronglySorted (λ i j, position (attribute_value_order rows) i ≤ position (attribute_value_order rows) j)
  (children_ids (work_queue rows) p).
Proof using Type. apply StronglySorted_fmap, StronglySorted_filter, stable_sort_by_nat. Qed.

Lemma children_in_order rows p m : NoDup (row_id <$> rows) → NoDup (attribute_value_order rows) →
  p ∈ rows → index_map (attribute_value p) = Some m → (∀ i, i ∈ children_ids rows (row_id p) → i ∈ IndexMap.order m) →
  children_ids (work_queue rows) (row_id p) = filter (λ i, i ∈ children_ids rows (row_id p)) (IndexMap.order m).
Proof using Type.
  intros Hids Horder (w1 & w2 & Hw)%list_elem_of_split Hm Hlisted.
  assert (attribute_value_order rows =
    attribute_value_order w1 ++ IndexMap.order m ++ attribute_value_order w2) as Heq.
  { unfold attribute_value_order. by rewrite Hw, bind_app, bind_cons, Hm. }
  rewrite (sorted_selection (attribute_value_order rows) _ _ _ (children_ids (work_queue rows) (row_id p)) Horder Heq).
  - apply list_filter_iff. intros i. by rewrite children_queue.
  - rewrite children_queue. unfold children_ids. eapply sublist_NoDup; [exact Hids|]. apply fmap_sublist, sublist_filter.
  - intros i. rewrite children_queue. apply Hlisted.
  - apply children_sorted.
Qed.

(** C27: the editor has every value of a component once, with what its row says and
    whether it comes from a socket; the root is the value without parent; below every
    value are its children, and where they are all listed in its index map they come
    in that order. *)
Theorem editor_shows_the_values rows r : NoDup (row_id <$> rows) → (∀ w, w ∈ rows → is_ok (sockets (row_id w))) →
  filter (λ w, parent_attribute_value_id w = None) rows = [r] →
  ∃ pev, Values.for_component sockets (Ok rows) = Ok pev ∧ Values.root_value_id pev = row_id r ∧
    (∀ i v, Values.values pev !! i = Some v ↔ ∃ w, w ∈ rows ∧ row_id w = i ∧ v = Values.editor_value w (connected w)) ∧
    (∀ p, default [] (Values.child_values pev !! p) ≡ₚ children_ids rows p) ∧
    (∀ p m, NoDup (attribute_value_order rows) → p ∈ rows → index_map (attribute_value p) = Some m →
      (∀ i, i ∈ children_ids rows (row_id p) → i ∈ IndexMap.order m) →
      default [] (Values.child_values pev !! row_id p) = filter (λ i, i ∈ children_ids rows (row_id p)) (IndexMap.order m)).
Proof using Type.
  intros Hids Hs Hr. assert (work_queue rows ≡ₚ rows) as Hq by apply stable_sort_perm.
  destruct (add_values_editor (work_queue rows)) as (root & vals & ch & Hrun & [Hroot Hvals Hch]).
  { by rewrite Hq. }
  { intros w. rewrite Hq. apply Hs. }
  assert (filter (λ w, parent_attribute_value_id w = None) (work_queue rows) = [r]) as Hr'.
  { apply Permutation_singleton_r. by rewrite Hq, Hr. }
  rewrite Hr' in Hroot. cbn in Hroot. subst root. unfold Values.for_component. cbn [asked_for mbind result_bind].
  rewrite Hrun. cbn [asked_for mbind result_bind]. eexists. split_and!; [done|done|..]; cbn.
  - intros i v. rewrite Hvals. by setoid_rewrite Hq.
  - intros p. rewrite Hch. apply children_queue.
  - intros p m Horder Hp Hm Hlisted. rewrite Hch. by apply children_in_order.
Qed.
End Values.

(** ** Props *)

Section Schema.
Context {J E : Type}.
Abbreviation srow := (Schema.SchemaRow J E) (only parsing).

(** The props of the rows that are shown: not of the secret definition. *)
Definition shown (row : srow) : option (Schema.EditedProp J * option (list Id)) :=
  match Schema.row_object row, Schema.row_json_pointer row with
  | Ok prop, Ok p => if String.prefix Schema.secret_definition p then None else Some (prop, Schema.row_child_prop_ids row)
  | _, _ => None
  end.

Definition readable (row : srow) : Prop := is_ok (Schema.row_object row) ∧ is_ok (Schema.row_json_pointer row).

Definition put_shown (m : gmap Id (Schema.PropertyEditorProp J) * gmap Id (list Id)) (s : Schema.EditedProp J * option (list Id)) :=
  (<[Schema.prop_id s.1 := Schema.new_prop s.1]> m.1,
   match s.2 with Some ids => <[Schema.prop_id s.1 := ids]> m.2 | None => m.2 end).

Lemma add_rows_shown rows m : Forall readable rows →
  Schema.add_rows rows m.1 m.2 = Ok (foldl put_shown m (omap shown rows)).
Proof.
  intros Hrows. revert m. induction Hrows as [|row rows [Ho Hp] _ IH]; intros [props ch]; [done|].
  cbn [Schema.add_rows omap list_omap fst snd]. unfold Schema.add_row, shown at 1.
  destruct (Schema.row_object row) as [prop|]; [|done]. destruct (Schema.row_json_pointer row) as [p|]; [|done].
  cbn [mbind result_bind]. destruct (String.prefix _ p); cbn [mbind result_bind]; [apply (IH (props, ch))|].
  apply (IH (put_shown (props, ch) (prop, Schema.row_child_prop_ids row))).
Qed.

Lemma put_shown_lookup ss : NoDup (Schema.prop_id ∘ fst <$> ss) →
  (∀ i p, (foldl put_shown (∅, ∅) ss).1 !! i = Some p ↔ ∃ s, s ∈ ss ∧ Schema.prop_id s.1 = i ∧ p = Schema.new_prop s.1) ∧
  (∀ i l, (foldl put_shown (∅, ∅) ss).2 !! i = Some l ↔ ∃ s, s ∈ ss ∧ Schema.prop_id s.1 = i ∧ s.2 = Some l).
Proof.
  induction ss as [|s ss IH] using rev_ind; intros Hnd.
  { split; intros i x; cbn; rewrite lookup_empty; (split; [done|]); intros (? & []%not_elem_of_nil & _). }
  rewrite fmap_app in Hnd. apply NoDup_app in Hnd as (Hnd & Hdisj & _). destruct (IH Hnd) as [Hp Hc]. clear IH.
  assert (∀ x, x ∈ ss → Schema.prop_id x.1 ≠ Schema.prop_id s.1) as Hne.
  { intros x Hx Heq. apply (Hdisj (Schema.prop_id s.1)); [|by left]. apply list_elem_of_fmap. by exists x. }
  rewrite foldl_app. cbn [foldl put_shown fst snd]. setoid_rewrite elem_of_app. setoid_rewrite list_elem_of_singleton. split.
  - intros i p. destruct (decide (i = Schema.prop_id s.1)) as [->|Hi].
    + rewrite lookup_insert_eq. split; [intros [= <-]; eauto|]. intros (x & [Hx| ->] & Heq & ->); [by apply Hne in Heq|done].
    + rewrite lookup_insert_ne, Hp by done. split; [intros (x & Hx & Heq & ->); eauto|].
      intros (x & [Hx| ->] & Heq & ->); [eauto|done].
  - intros i l. destruct (decide (i = Schema.prop_id s.1)) as [->|Hi].
    + destruct s as [prop [ids|]]; cbn [fst snd] in *.
      * rewrite lookup_insert_eq. split; [intros [= <-]; eauto 10|]. intros (x & [Hx| ->] & Heq & Hx'); [by apply Hne in Heq|done].
      * rewrite Hc. split; [intros (x & Hx & Heq & _); by apply Hne in Heq|]. intros (x & [Hx| ->] & Heq & Hx'); [by apply Hne in Heq|done].
    + assert (match s.2 with Some ids => <[Schema.prop_id s.1:=ids]> (foldl put_shown (∅, ∅) ss).2 | None => (foldl put_shown (∅, ∅) ss).2 end !! i =
        (foldl put_shown (∅, ∅) ss).2 !! i) as -> by (destruct (s.2); [by rewrite lookup_insert_ne|done]).
      rewrite Hc. split; [intros (x & Hx & Heq & Hl); eauto|]. intros (x & [Hx| ->] & Heq & Hx'); [eauto|done].
Qed.

(** The schema of the editor has the props of the schema variant less those of its
    secret definition, each with the children that the database lists. The children are
    not filtered: a prop that is left out is still listed below its parent. *)
Theorem schema_shows_the_props rows root i : Forall readable rows → NoDup (Schema.prop_id ∘ fst <$> omap shown rows) →
  ∃ pes, Schema.for_schema_variant (Ok (Some (Some root))) (Ok rows) i = Ok pes ∧ Schema.root_prop_id pes = root ∧
    (∀ i p, Schema.props pes !! i = Some p ↔
      ∃ row prop ids, row ∈ rows ∧ shown row = Some (prop, ids) ∧ Schema.prop_id prop = i ∧ p = Schema.new_prop prop) ∧
    (∀ i l, Schema.child_props pes !! i = Some l ↔
      ∃ row prop, row ∈ rows ∧ shown row = Some (prop, Some l) ∧ Schema.prop_id prop = i).
Proof.
  intros Hrows Hnd. destruct (put_shown_lookup _ Hnd) as [Hp Hc].
  unfold Schema.for_schema_variant. cbn [asked_for mbind result_bind].
  pose proof (add_rows_shown rows (∅, ∅) Hrows) as Hadd. cbn [fst snd] in Hadd. rewrite Hadd. cbn [asked_for mbind result_bind].
  destruct (foldl put_shown (∅, ∅) (omap shown rows)) as [props ch]. cbn [fst snd] in *. eexists. split_and!; [done|done|..]; cbn.
  - intros j p. rewrite Hp. split.
    + intros ([prop ids] & (row & Hrow & Hs)%list_elem_of_omap & Hj & ->). eauto 10.
    + intros (row & prop & ids & Hrow & Hs & Hj & ->). exists (prop, ids). split; [|done]. apply list_elem_of_omap. eauto.
  - intros j l. rewrite Hc. split.
    + intros ([prop ids] & (row & Hrow & Hs)%list_elem_of_omap & Hj & Hl). cbn in Hl. subst ids. eauto 10.
    + intros (row & prop & Hrow & Hs & Hj). exists (prop, Some l). split; [|done]. apply list_elem_of_omap. eauto.
Qed.
End Schema.

(** ** Examples *)

(** A component with a list, whose elements the database gives in another order. *)
Lemma editor_shows_the_values_witness :
  ∃ pev, Values.for_component (E := unit) (λ i, Ok (if bool_decide (i = 7%N) then [1%N] else [])) (Ok (sample_rows None)) = Ok pev ∧
    Values.root_value_id pev = 1%N ∧
    default [] (Values.child_values pev !! 2%N) = [5%N; 4%N] ∧
    Values.values pev !! 7%N = Some (Values.editor_value unset_row true).
Proof.
  destruct (editor_shows_the_values (E := unit) (λ i, Ok (if bool_decide (i = 7%N) then [1%N] else []))
    (sample_rows None) (root_row None)) as (pev & Hpev & Hroot & Hvals & _ & Horder).
  - apply (bool_decide_unpack _). vm_compute. exact I.
  - done.
  - reflexivity.
  - exists pev. split_and!; [done|done|..].
    + change 2%N with (Values.row_id list_row). rewrite (Horder list_row list_order).
      * reflexivity.
      * apply (bool_decide_unpack _). vm_compute. exact I.
      * do 6 right. by left.
      * reflexivity.
      * apply Forall_forall. apply (bool_decide_unpack _). vm_compute. exact I.
    + apply Hvals. exists unset_row. split_and!; [do 5 right; by left|reflexivity..].
Defined.

(** A schema variant with a secret definition: the prop is left out, and is still
    listed as a child of the root. *)
Definition editor_row (i : Id) (p : string) (children : option (list Id)) : Schema.SchemaRow unit unit := {|
  Schema.row_object := Ok {| Schema.prop_id := i; Schema.prop_name := p; Schema.prop_kind := PropKind.Object;
    Schema.prop_widget_kind := WidgetKind.Header; Schema.prop_widget_options := None; Schema.prop_doc_link := None |};
  Schema.row_json_pointer := Ok p;
  Schema.row_child_prop_ids := children |}.

Definition editor_rows : list (Schema.SchemaRow unit unit) :=
  [editor_row 1 "/root" (Some [2%N; 3%N]); editor_row 2 "/root/domain" None; editor_row 3 "/root/secret_definition" None].

Lemma schema_shows_the_props_witness :
  ∃ pes, Schema.for_schema_variant (Ok (Some (Some 1%N))) (Ok editor_rows) 9%N = Ok pes ∧
    Schema.child_props pes !! 1%N = Some [2%N; 3%N] ∧ is_Some (Schema.props pes !! 2%N) ∧ Schema.props pes !! 3%N = None.
Proof.
  destruct (schema_shows_the_props editor_rows 1%N 9%N) as (pes & Hpes & _ & Hprops & Hchildren).
  - repeat constructor.
  - apply (bool_decide_unpack _). vm_compute. exact I.
  - exists pes. split_and!; [done|..].
    + apply Hchildren. eexists _, _. split_and!; [by left|reflexivity..].
    + eexists. apply Hprops. eexists _, _, _. split_and!; [right; by left|reflexivity..].
    + destruct (Schema.props pes !! 3%N) as [p|] eqn:Hp; [|done]. exfalso. apply Hprops in Hp as (row & prop & ids & Hrow & Hs & Hi & _).
      unfold editor_rows in Hrow. rewrite !elem_of_cons, elem_of_nil in Hrow.
      destruct Hrow as [->|[->|[->|[]]]]; vm_compute in Hs; try discriminate; injection Hs as <- <-; discriminate.
Defined.
