(* ===== verification/Secrets.v ===== *)
(** * Secrets at rest

    Model of [src/lib/si-crypto/src/symmetric.rs] (the service that encrypts with a
    set of symmetric keys), [src/lib/dal/src/key_pair.rs] and
    [src/lib/dal/src/secret.rs] (the key pairs of workspaces and the secrets that
    were encrypted for them, in the tables of the database), with the texts of
    [serde_impls.rs]. A secret is sealed for the public key of a workspace by the
    frontend, and encrypted again with the active symmetric key; so is the secret key
    of the workspace. libsodium, blake3, base64 and the JSON crate are a class;
    timestamps and tenancies are left out. *)

From S2P Require Import Prelude Redaction.
From Stdlib Require Import NArith Strings.String.
From stdpp Require Import base tactics list.

Abbreviation Id := N (only parsing).
Abbreviation text := (list N) (only parsing).
Abbreviation bytes := (list N) (only parsing).

(** ** Libraries *)

(** Random choices ([gen_nonce], the ephemeral key of a sealed box) are arguments. *)
Class Sodium := {
  Digest : Type;
  Digest_eq_dec :: EqDecision Digest;
  digest : bytes → Digest;
  digest_to_string : Digest → text;
  digest_from_str : text → option Digest;
  secretbox_seal : bytes → bytes → bytes → bytes;
  secretbox_open : bytes → bytes → bytes → option bytes;
  sealedbox_seal : N → bytes → bytes → bytes;
  sealedbox_open : bytes → bytes → bytes → option bytes;
  public_of : bytes → bytes;
  base64_encode : bytes → text;
  base64_decode : text → option bytes;
  to_vec : Value → bytes;
  from_slice : bytes → option Value;
}.

Definition NONCEBYTES : nat := 24.
Definition PUBLICKEYBYTES : nat := 32.
Definition SECRETKEYBYTES : nat := 32.

(** What is sealed is opened with the same key and nonce, or with the secret key of the
    public key; texts are read back; a public key has its length. *)
Class SodiumOk (S : Sodium) : Prop := {
  secretbox_opens m nonce key : secretbox_open (secretbox_seal m nonce key) nonce key = Some m;
  sealedbox_opens seed m sk : length sk = SECRETKEYBYTES →
    sealedbox_open (sealedbox_seal seed m (public_of sk)) (public_of sk) sk = Some m;
  public_of_length sk : length (public_of sk) = PUBLICKEYBYTES;
  base64_round b : base64_decode (base64_encode b) = Some b;
  digest_round h : digest_from_str (digest_to_string h) = Some h;
  json_round v : from_slice (to_vec v) = Some v;
}.

(** [from_slice] of keys and nonces. *)
Definition of_length (n : nat) (b : bytes) : option bytes := if bool_decide (length b = n) then Some b else None.

(** ** The symmetric service *)

Inductive SymmetricCryptoError : Set :=
| SymDecryptionFailed
| KeyFile
| MissingKeyForHash.

Module SymmetricCryptoService.
Section Service.
Context `{S : Sodium}.

Record t := {
  keys : list (Digest * bytes);
  active_key_hash : Digest;
}.

(** [HashMap::insert] and [get]. *)
Definition insert_key (h : Digest) (key : bytes) (keys : list (Digest * bytes)) : list (Digest * bytes) :=
  (h, key) :: filter (λ e, e.1 ≠ h) keys.

Definition get_key (keys : list (Digest * bytes)) (h : Digest) : option bytes :=
  snd <$> find (λ e, bool_decide (e.1 = h)) keys.

Definition new (active_key : bytes) (extra_keys : list bytes) : t :=
  let active_key_hash := digest active_key in
  {| keys := foldl (λ keys key, insert_key (digest key) key keys) (insert_key active_key_hash active_key []) extra_keys;
     active_key_hash := active_key_hash |}.

(** [load] is [SymmetricKey::load]. *)
Definition from_config {P} (load : P → option bytes) (active_key : P) (extra_keys : list P) : result SymmetricCryptoError t :=
  active_key ← ok_or (load active_key) KeyFile;
  extra_keys ← foldl (λ r path, l ← r; key ← ok_or (load path) KeyFile; Ok (l ++ [key])) (Ok []) extra_keys;
  Ok (new active_key extra_keys).

Definition encrypt (s : t) (nonce message : bytes) : result (fault SymmetricCryptoError) (bytes * bytes * Digest) :=
  match get_key (keys s) (active_key_hash s) with
  | None => Err Panic
  | Some key => Ok (secretbox_seal message nonce key, nonce, active_key_hash s)
  end.

Definition decrypt (s : t) (ciphertext nonce : bytes) (key_hash : Digest) : result SymmetricCryptoError bytes :=
  key ← ok_or (get_key (keys s) key_hash) MissingKeyForHash;
  ok_or (secretbox_open ciphertext nonce key) SymDecryptionFailed.

End Service.
Arguments t _ : clear implicits.
End SymmetricCryptoService.

(** ** Key pairs *)

Inductive KeyPairError : Set :=
| InvalidSecretKeyBytes
| KeyPairSerdeJson
| KeyPairPg
| KeyPairSymmetricCrypto (e : SymmetricCryptoError).

Inductive SecretVersion : Set := V1.
Inductive SecretAlgorithm : Set := Sealedbox.

(** The rows, with the texts of their columns. *)
Record KeyPairRecord := {
  rec_pk : Id;
  rec_name : text;
  rec_workspace_pk : Id;
  rec_public_key : text;
  rec_secret_key_crypted : text;
  rec_secret_key_nonce : text;
  rec_secret_key_key_hash : text;
}.

Record SecretRecord := {
  sec_id : Id;
  sec_name : text;
  sec_definition : text;
  sec_description : option text;
  sec_crypted : text;
  sec_version : SecretVersion;
  sec_algorithm : SecretAlgorithm;
  sec_key_pair_pk : Id;
  sec_nonce : text;
  sec_key_hash : text;
}.

Record Database := {
  key_pairs : list KeyPairRecord;
  encrypted_secrets : list SecretRecord;
}.

Definition find_key_pair (db : Database) (pk : Id) : option KeyPairRecord :=
  find (λ r, bool_decide (rec_pk r = pk)) (key_pairs db).

Definition find_secret (db : Database) (id : Id) : option SecretRecord :=
  find (λ r, bool_decide (sec_id r = id)) (encrypted_secrets db).

Definition fault_map {E F A} (f : E → F) (r : result (fault E) A) : result (fault F) A :=
  match r with
  | Ok a => Ok a
  | Err (Fault e) => Err (Fault (f e))
  | Err Panic => Err Panic
  end.

Definition fallible {E F A} (f : E → F) (r : result E A) : result (fault F) A :=
  match r with Ok a => Ok a | Err e => Err (Fault (f e)) end.

(** [base64_bytes_serde::deserialize], [nonce_serde::deserialize]. *)
Definition nonce_deserialize `{S : Sodium} (s : text) : option bytes :=
  b ← base64_decode s; of_length NONCEBYTES b.

Definition public_key_deserialize `{S : Sodium} (s : text) : option bytes :=
  b ← base64_decode s; of_length PUBLICKEYBYTES b.

Module KeyPair.
Section KeyPair.
Context `{S : Sodium}.

Record t := {
  pk : Id;
  name : text;
  workspace_pk : Id;
  public_key : bytes;
  secret_key : bytes;
}.

Record KeyPairRow := {
  row_pk : Id;
  row_name : text;
  row_workspace_pk : Id;
  row_public_key : bytes;
  secret_key_nonce : bytes;
  secret_key_key_hash : Digest;
  secret_key_crypted : bytes;
}.

(** [serde_json::from_value]. *)
Definition row_of_record (r : KeyPairRecord) : option KeyPairRow :=
  public_key ← public_key_deserialize (rec_public_key r);
  nonce ← nonce_deserialize (rec_secret_key_nonce r);
  key_hash ← digest_from_str (rec_secret_key_key_hash r);
  crypted ← base64_decode (rec_secret_key_crypted r);
  Some {| row_pk := rec_pk r; row_name := rec_name r; row_workspace_pk := rec_workspace_pk r;
          row_public_key := public_key; secret_key_nonce := nonce; secret_key_key_hash := key_hash;
          secret_key_crypted := crypted |}.

Definition decrypt_into (row : KeyPairRow) (service : SymmetricCryptoService.t S) : result KeyPairError t :=
  match SymmetricCryptoService.decrypt service (secret_key_crypted row) (secret_key_nonce row) (secret_key_key_hash row) with
  | Err e => Err (KeyPairSymmetricCrypto e)
  | Ok secret_key_bytes =>
      secret_key ← ok_or (of_length SECRETKEYBYTES secret_key_bytes) InvalidSecretKeyBytes;
      Ok {| pk := row_pk row; name := row_name row; workspace_pk := row_workspace_pk row;
            public_key := row_public_key row; secret_key := secret_key |}
  end.

Definition of_record (service : SymmetricCryptoService.t S) (r : KeyPairRecord) : result KeyPairError t :=
  row ← ok_or (row_of_record r) KeyPairSerdeJson; decrypt_into row service.

(** The secret key and the nonce are what was generated. *)
Definition gen_keys (service : SymmetricCryptoService.t S) (secret_key nonce : bytes) :
    result (fault SymmetricCryptoError) (bytes * bytes * bytes * Digest) :=
  '(secret_key_crypted, nonce, key_hash) ← SymmetricCryptoService.encrypt service nonce secret_key;
  Ok (public_of secret_key, secret_key_crypted, nonce, key_hash).

(** [KeyPair::new]; [pk] is the key the database gives. *)
Definition new (service : SymmetricCryptoService.t S) (db : Database) (pk : Id) (name : text) (workspace_pk : Id)
    (secret_key nonce : bytes) : result (fault KeyPairError) (t * Database) :=
  '(public_key, crypted, nonce, key_hash) ← fault_map KeyPairSymmetricCrypto (gen_keys service secret_key nonce);
  let r := {| rec_pk := pk; rec_name := name; rec_workspace_pk := workspace_pk;
              rec_public_key := base64_encode public_key; rec_secret_key_crypted := base64_encode crypted;
              rec_secret_key_nonce := base64_encode nonce; rec_secret_key_key_hash := digest_to_string key_hash |} in
  object ← fallible id (of_record service r);
  Ok (object, {| key_pairs := key_pairs db ++ [r]; encrypted_secrets := encrypted_secrets db |}).

Definition get_by_pk (service : SymmetricCryptoService.t S) (db : Database) (pk : Id) : result KeyPairError t :=
  r ← ok_or (find_key_pair db pk) KeyPairPg; of_record service r.

End KeyPair.
End KeyPair.

(** ** Secrets *)

Inductive SecretError : Set :=
| DecryptionFailed
| DeserializeMessage
| SecretKeyPair (e : KeyPairError)
| SecretStandardModel
| SecretSymmetricCrypto (e : SymmetricCryptoError).

Record DecryptedSecret := {
  secret_name : text;
  secret_definition : text;
  secret_message : Value;
}.

Module EncryptedSecret.
Section EncryptedSecret.
Context `{S : Sodium}.

Record t := {
  id : Id;
  name : text;
  definition : text;
  description : option text;
  key_pair_pk : Id;
  nonce : bytes;
  key_hash : Digest;
  crypted : bytes;
  version : SecretVersion;
  algorithm : SecretAlgorithm;
}.

(** What is created, less its encryption ([Secret]), is the id of the row. *)
Definition new (service : SymmetricCryptoService.t S) (db : Database) (id : Id) (nonce : bytes) (name definition : text)
    (description : option text) (crypted : bytes) (key_pair_pk : Id) (version : SecretVersion)
    (algorithm : SecretAlgorithm) : result (fault SecretError) (Id * Database) :=
  '(double_crypted, nonce, key_hash) ← fault_map SecretSymmetricCrypto (SymmetricCryptoService.encrypt service nonce crypted);
  let r := {| sec_id := id; sec_name := name; sec_definition := definition; sec_description := description;
              sec_crypted := base64_encode double_crypted; sec_version := version; sec_algorithm := algorithm;
              sec_key_pair_pk := key_pair_pk; sec_nonce := base64_encode nonce;
              sec_key_hash := digest_to_string key_hash |} in
  Ok (id, {| key_pairs := key_pairs db; encrypted_secrets := encrypted_secrets db ++ [r] |}).

Definition of_record (r : SecretRecord) : option t :=
  nonce ← nonce_deserialize (sec_nonce r);
  key_hash ← digest_from_str (sec_key_hash r);
  crypted ← base64_decode (sec_crypted r);
  Some {| id := sec_id r; name := sec_name r; definition := sec_definition r; description := sec_description r;
          key_pair_pk := sec_key_pair_pk r; nonce := nonce; key_hash := key_hash; crypted := crypted;
          version := sec_version r; algorithm := sec_algorithm r |}.

Definition get_by_id (db : Database) (id : Id) : result SecretError (option t) :=
  match find_secret db id with
  | None => Ok None
  | Some r => s ← ok_or (of_record r) SecretStandardModel; Ok (Some s)
  end.

Definition into_decrypted (s : t) (pkey skey : bytes) (service : SymmetricCryptoService.t S) : result SecretError DecryptedSecret :=
  match version s, algorithm s with
  | V1, Sealedbox =>
      match SymmetricCryptoService.decrypt service (crypted s) (nonce s) (key_hash s) with
      | Err e => Err (SecretSymmetricCrypto e)
      | Ok symmetric_decrypted =>
          opened ← ok_or (sealedbox_open symmetric_decrypted pkey skey) DecryptionFailed;
          message ← ok_or (from_slice opened) DeserializeMessage;
          Ok {| secret_name := name s; secret_definition := definition s; secret_message := message |}
      end
  end.

Definition decrypt (service : SymmetricCryptoService.t S) (db : Database) (s : t) : result SecretError DecryptedSecret :=
  match KeyPair.get_by_pk service db (key_pair_pk s) with
  | Err e => Err (SecretKeyPair e)
  | Ok key_pair => into_decrypted s (KeyPair.public_key key_pair) (KeyPair.secret_key key_pair) service
  end.

End EncryptedSecret.
End EncryptedSecret.

(** ** Keys that are loaded *)

Section Keys.
Context `{S : Sodium}.
Import SymmetricCryptoService.

Lemma get_key_insert h k ks : get_key (insert_key h k ks) h = Some k.
Proof. unfold get_key, insert_key. cbn. by rewrite bool_decide_true. Qed.

Lemma get_key_insert_ne h h' k ks : h ≠ h' → get_key (insert_key h k ks) h' = get_key ks h'.
Proof.
  intros Hne. unfold get_key, insert_key. cbn. rewrite bool_decide_false by done.
  induction ks as [|[h0 k0] ks IH]; [done|]. rewrite filter_cons. cbn. case_decide as Hd; cbn.
  - by case_bool_decide.
  - rewrite IH. by rewrite bool_decide_false by congruence.
Qed.

(** Different keys among these have different hashes. *)
Definition collision_free (l : list bytes) : Prop := ∀ k k', k ∈ l → k' ∈ l → digest k = digest k' → k = k'.

Lemma get_key_extras es : ∀ ks h,
  (∀ k, k ∈ es → digest k = h → ∀ k', k' ∈ es → digest k' = h → k' = k) →
  get_key (foldl (λ keys key, insert_key (digest key) key keys) ks es) h =
    match find (λ k, bool_decide (digest k = h)) es with Some k => Some k | None => get_key ks h end.
Proof.
  induction es as [|e es IH]; intros ks h Hes; [done|]. cbn [foldl find].
  rewrite IH by (intros k Hk Hh k' Hk' Hh'; apply (Hes k); [by right|done|by right|done]). case_bool_decide as Hd.
  - subst h. rewrite get_key_insert. destruct (find _ es) as [k|] eqn:Hf; [|done].
    apply find_some in Hf as [Hin Hk%bool_decide_eq_true]. f_equal. apply Hes; [by left|done| |done].
    right. by apply list_elem_of_In.
  - by rewrite get_key_insert_ne.
Qed.

(** The keys that a service can decrypt with are those it was made with. *)
Lemma loaded a es l k : collision_free l → k ∈ l → (∀ x, x ∈ a :: es → x ∈ l) →
  get_key (keys (new a es)) (digest k) = if decide (k ∈ a :: es) then Some k else None.
Proof.
  intros Hl Hk Hsub. unfold new. cbn [keys]. rewrite get_key_extras.
  2: { intros x Hx Hxk y Hy Hyk. apply Hl; [apply Hsub; by right..|congruence]. }
  destruct (find _ es) as [x|] eqn:Hf.
  - apply find_some in Hf as [Hin%list_elem_of_In Hx%bool_decide_eq_true].
    assert (x = k) as -> by (apply Hl; [apply Hsub; by right|done..]). rewrite decide_True; [done|by right].
  - destruct (decide (digest a = digest k)) as [Heq|Hne].
    + assert (a = k) as -> by (apply Hl; [apply Hsub; by left|done..]).
      rewrite get_key_insert, decide_True; [done|by left].
    + rewrite get_key_insert_ne by done. rewrite decide_False; [done|]. intros [->|Hin]%elem_of_cons; [done|].
      apply list_elem_of_In, (find_none _ _ Hf), bool_decide_eq_false in Hin. done.
Qed.

(** A service encrypts with its active key. *)
Lemma encrypts a es l nonce m : collision_free l → (∀ x, x ∈ a :: es → x ∈ l) →
  encrypt (new a es) nonce m = Ok (secretbox_seal m nonce a, nonce, digest a).
Proof.
  intros Hl Hsub. unfold encrypt. change (active_key_hash (new a es)) with (digest a). rewrite (loaded a es l a Hl); [|apply Hsub; by left|done].
  rewrite decide_True by by left. done.
Qed.

Lemma decrypts {O : SodiumOk S} a es l nonce m k : collision_free l → k ∈ l → (∀ x, x ∈ a :: es → x ∈ l) →
  decrypt (new a es) (secretbox_seal m nonce k) nonce (digest k) =
    if decide (k ∈ a :: es) then Ok m else Err MissingKeyForHash.
Proof.
  intros Hl Hk Hsub. unfold decrypt. rewrite (loaded a es l k) by done. case_decide; [|done].
  cbn. by rewrite secretbox_opens.
Qed.
End Keys.

(** ** Secrets over time *)

Section Rotation.
Context `{S : Sodium} {O : SodiumOk S}.
Context (l : list bytes) (Hl : collision_free l).

(** A service that was made with some of these keys, the first of them active. *)
Definition service_of (ks : list bytes) (s : SymmetricCryptoService.t S) : Prop :=
  ∃ a es, ks = a :: es ∧ s = SymmetricCryptoService.new a es ∧ ∀ k, k ∈ ks → k ∈ l.

Definition key_pair_record (pk : Id) (name : text) (workspace : Id) (sk nonce key : bytes) : KeyPairRecord := {|
  rec_pk := pk; rec_name := name; rec_workspace_pk := workspace; rec_public_key := base64_encode (public_of sk);
  rec_secret_key_crypted := base64_encode (secretbox_seal sk nonce key);
  rec_secret_key_nonce := base64_encode nonce; rec_secret_key_key_hash := digest_to_string (digest key) |}.

Definition key_pair (pk : Id) (name : text) (workspace : Id) (sk : bytes) : KeyPair.t := {|
  KeyPair.pk := pk; KeyPair.name := name; KeyPair.workspace_pk := workspace;
  KeyPair.public_key := public_of sk; KeyPair.secret_key := sk |}.

Lemma of_length_ok n b : length b = n → of_length n b = Some b.
Proof using Type. intros Hb. unfold of_length. by rewrite bool_decide_true. Qed.

Lemma nonce_round nonce : length nonce = NONCEBYTES → nonce_deserialize (base64_encode nonce) = Some nonce.
Proof using O. intros Hn. unfold nonce_deserialize. rewrite base64_round. by apply of_length_ok. Qed.

(** A key pair is read by the services that have the key it was written with. *)
Lemma key_pair_read pk name w sk nonce key ks s : length sk = SECRETKEYBYTES → length nonce = NONCEBYTES →
  key ∈ l → service_of ks s →
  KeyPair.of_record s (key_pair_record pk name w sk nonce key) =
    if decide (key ∈ ks) then Ok (key_pair pk name w sk) else Err (KeyPairSymmetricCrypto MissingKeyForHash).
Proof using O Hl.
  intros Hsk Hn Hkey (a & es & -> & -> & Hks). unfold KeyPair.of_record, KeyPair.row_of_record, public_key_deserialize.
  cbn [key_pair_record rec_public_key rec_secret_key_crypted rec_secret_key_nonce rec_secret_key_key_hash].
  rewrite !base64_round, nonce_round, digest_round by done. cbn [mbind option_bind].
  rewrite of_length_ok by apply public_of_length. cbn.
  unfold KeyPair.decrypt_into. cbn [KeyPair.secret_key_crypted KeyPair.secret_key_nonce KeyPair.secret_key_key_hash].
  rewrite (decrypts a es l) by done. case_decide; [|done]. by rewrite of_length_ok.
Qed.

Lemma key_pair_new ks s db pk name w sk nonce : length sk = SECRETKEYBYTES → length nonce = NONCEBYTES → service_of ks s →
  ∃ a, head ks = Some a ∧ KeyPair.new s db pk name w sk nonce =
    Ok (key_pair pk name w sk, {| key_pairs := key_pairs db ++ [key_pair_record pk name w sk nonce a];
                                  encrypted_secrets := encrypted_secrets db |}).
Proof using O Hl.
  intros Hsk Hn Hs. pose proof Hs as (a & es & -> & Heq & Hks). exists a. split; [done|].
  unfold KeyPair.new, KeyPair.gen_keys. rewrite Heq, (encrypts a es l) by done. cbn [mbind result_bind fault_map].
  fold (key_pair_record pk name w sk nonce a). rewrite <-Heq, (key_pair_read _ _ _ _ _ _ (a :: es)); [|done..| |done].
  - rewrite decide_True by by left. done.
  - apply Hks. by left.
Qed.

Definition secret_record (id : Id) (nonce : bytes) (name definition : text) (description : option text)
    (crypted : bytes) (pk : Id) (key : bytes) : SecretRecord := {|
  sec_id := id; sec_name := name; sec_definition := definition; sec_description := description;
  sec_crypted := base64_encode (secretbox_seal crypted nonce key); sec_version := V1; sec_algorithm := Sealedbox;
  sec_key_pair_pk := pk; sec_nonce := base64_encode nonce; sec_key_hash := digest_to_string (digest key) |}.

Lemma secret_new ks s db id nonce name definition description crypted pk : service_of ks s →
  ∃ a, head ks = Some a ∧ EncryptedSecret.new s db id nonce name definition description crypted pk V1 Sealedbox =
    Ok (id, {| key_pairs := key_pairs db;
               encrypted_secrets := encrypted_secrets db ++ [secret_record id nonce name definition description crypted pk a] |}).
Proof using Hl.
  intros (a & es & -> & -> & Hks). exists a. split; [done|]. unfold EncryptedSecret.new.
  rewrite (encrypts a es l) by done. done.
Qed.

Definition encrypted_secret (id : Id) (nonce : bytes) (name definition : text) (description : option text)
    (crypted : bytes) (pk : Id) (key : bytes) : EncryptedSecret.t := {|
  EncryptedSecret.id := id; EncryptedSecret.name := name; EncryptedSecret.definition := definition;
  EncryptedSecret.description := description; EncryptedSecret.key_pair_pk := pk; EncryptedSecret.nonce := nonce;
  EncryptedSecret.key_hash := digest key; EncryptedSecret.crypted := secretbox_seal crypted nonce key;
  EncryptedSecret.version := V1; EncryptedSecret.algorithm := Sealedbox |}.

Lemma secret_read id nonce name definition description crypted pk key : length nonce = NONCEBYTES →
  EncryptedSecret.of_record (secret_record id nonce name definition description crypted pk key) =
    Some (encrypted_secret id nonce name definition description crypted pk key).
Proof using O.
  intros Hn. unfold EncryptedSecret.of_record.
  cbn [secret_record sec_nonce sec_key_hash sec_crypted]. rewrite nonce_round, digest_round, base64_round by done. done.
Qed.

Lemma secret_opened ks s id nonce name definition description v seed pk sk key :
  length sk = SECRETKEYBYTES → key ∈ l → service_of ks s →
  EncryptedSecret.into_decrypted
    (encrypted_secret id nonce name definition description (sealedbox_seal seed (to_vec v) (public_of sk)) pk key)
    (public_of sk) sk s =
    if decide (key ∈ ks) then Ok {| secret_name := name; secret_definition := definition; secret_message := v |}
    else Err (SecretSymmetricCrypto MissingKeyForHash).
Proof using O Hl.
  intros Hsk Hkey (a & es & -> & -> & Hks). unfold EncryptedSecret.into_decrypted.
  cbn [encrypted_secret EncryptedSecret.version EncryptedSecret.algorithm EncryptedSecret.crypted EncryptedSecret.nonce EncryptedSecret.key_hash].
  rewrite (decrypts a es l) by done. case_decide; [|done]. rewrite sealedbox_opens by done. cbn.
  by rewrite json_round.
Qed.

Lemma find_key_pair_snoc db r : find_key_pair db (rec_pk r) = None →
  find_key_pair {| key_pairs := key_pairs db ++ [r]; encrypted_secrets := encrypted_secrets db |} (rec_pk r) = Some r.
Proof using Type.
  unfold find_key_pair. cbn. induction (key_pairs db) as [|x xs IH]; cbn; [by rewrite bool_decide_true|].
  case_bool_decide; [done|apply IH].
Qed.

Lemma find_secret_snoc db r : find_secret db (sec_id r) = None →
  find_secret {| key_pairs := key_pairs db; encrypted_secrets := encrypted_secrets db ++ [r] |} (sec_id r) = Some r.
Proof using Type.
  unfold find_secret. cbn. induction (encrypted_secrets db) as [|x xs IH]; cbn; [by rewrite bool_decide_true|].
  case_bool_decide; [done|apply IH].
Qed.

(** C19: secrets over time. A workspace gets a key pair under one set of symmetric keys;
    a message is sealed for its public key and stored under another set; later the
    secret is decrypted under a third. If the third set has the keys that were active
    before, the message comes back; if it lacks one of them, decryption fails and says
    so. Whatever else happens to the tables in between makes no difference. *)
Theorem secrets_survive_key_rotation ks1 ks2 ks3 s1 s2 s3 db1 pk kp_name w sk nonce1 :
  service_of ks1 s1 → service_of ks2 s2 → service_of ks3 s3 →
  length sk = SECRETKEYBYTES → length nonce1 = NONCEBYTES → find_key_pair db1 pk = None →
  ∃ k1 k2 kp db1', head ks1 = Some k1 ∧ head ks2 = Some k2 ∧
    KeyPair.new s1 db1 pk kp_name w sk nonce1 = Ok (kp, db1') ∧ KeyPair.public_key kp = public_of sk ∧
    ∀ db2 id nonce2 name definition description seed v, length nonce2 = NONCEBYTES → find_secret db2 id = None →
    ∃ db2', EncryptedSecret.new s2 db2 id nonce2 name definition description
              (sealedbox_seal seed (to_vec v) (KeyPair.public_key kp)) pk V1 Sealedbox = Ok (id, db2') ∧
      ∀ db3, find_key_pair db3 pk = find_key_pair db1' pk → find_secret db3 id = find_secret db2' id →
      ∃ s, EncryptedSecret.get_by_id db3 id = Ok (Some s) ∧
        EncryptedSecret.decrypt s3 db3 s =
          if decide (k1 ∈ ks3) then
            if decide (k2 ∈ ks3) then Ok {| secret_name := name; secret_definition := definition; secret_message := v |}
            else Err (SecretSymmetricCrypto MissingKeyForHash)
          else Err (SecretKeyPair (KeyPairSymmetricCrypto MissingKeyForHash)).
Proof using O Hl.
  intros Hs1 Hs2 Hs3 Hsk Hn1 Hfresh.
  destruct (key_pair_new ks1 s1 db1 pk kp_name w sk nonce1) as (k1 & Hk1 & Hkp); [done..|].
  assert (∃ k2, head ks2 = Some k2) as (k2 & Hk2) by (destruct Hs2 as (a & es & -> & _); by exists a).
  assert (∀ ks s k, service_of ks s → head ks = Some k → k ∈ l) as Hin.
  { intros ks s k (a & es & -> & _ & Hks) [= ->]. apply Hks. by left. }
  eexists k1, k2, _, _. split_and!; [done|done|exact Hkp|done|].
  intros db2 id nonce2 name definition description seed v Hn2 Hsec. cbn [KeyPair.public_key key_pair].
  destruct (secret_new ks2 s2 db2 id nonce2 name definition description (sealedbox_seal seed (to_vec v) (public_of sk)) pk)
    as (k2' & Hk2' & Hnew); [done|]. assert (k2' = k2) as -> by congruence.
  eexists. split; [exact Hnew|]. intros db3 Hpair Hsecret.
  pose proof (find_key_pair_snoc db1 (key_pair_record pk kp_name w sk nonce1 k1) Hfresh) as Hpair'.
  cbn [rec_pk key_pair_record] in Hpair'. rewrite Hpair' in Hpair.
  pose proof (find_secret_snoc db2 (secret_record id nonce2 name definition description
    (sealedbox_seal seed (to_vec v) (public_of sk)) pk k2) Hsec) as Hsecret'.
  cbn [sec_id secret_record] in Hsecret'. rewrite Hsecret' in Hsecret.
  eexists. unfold EncryptedSecret.get_by_id. rewrite Hsecret, secret_read by done. split; [done|].
  unfold EncryptedSecret.decrypt, KeyPair.get_by_pk. cbn [encrypted_secret EncryptedSecret.key_pair_pk]. rewrite Hpair.
  cbn [ok_or mbind result_bind]. rewrite (key_pair_read _ _ _ _ _ _ ks3) by eauto. case_decide; [|done].
  by rewrite (secret_opened ks3) by eauto.
Qed.
End Rotation.
