(* ===== verification/SecretFlow.v ===== *)
(** * From stored secrets to functions

    Model of [ComponentView::reencrypt_secrets] in
    [src/lib/dal/src/component/view.rs] and [EncryptionKey::encrypt_and_encode] in
    [src/lib/cyclone-core/src/encryption_key.rs]: the ids of secrets in a credential
    component are replaced by the secrets, sealed for the cyclone server, which opens
    them as in [CycloneSecrets]. *)

From S2P Require Import Prelude Redaction Secrets CycloneSecrets CycloneSample.
From Stdlib Require Import NArith Strings.String.
From stdpp Require Import base tactics list.

Abbreviation Id := N (only parsing).
Abbreviation text := (list N) (only parsing).
Abbreviation bytes := (list N) (only parsing).

Inductive ComponentViewError : Type :=
| Secret (e : SecretError)
| SecretNotFound (id : Id)
| UlidDecode.

Section Flow.
Context `{S : Sodium}.

(** The key of the cyclone server. *)
Record EncryptionKey := { public_key : bytes }.

Definition encrypt_and_encode (key : EncryptionKey) (seed : N) (message : bytes) : text :=
  Secrets.base64_encode (sealedbox_seal seed message (public_key key)).

(** The derived [Serialize] of [DecryptedSecret]. *)
Definition secret_to_value (s : DecryptedSecret) : Value :=
  Object [(chars "name", String_ (secret_name s)); (chars "definition", String_ (secret_definition s));
          (chars "message", secret_message s)].

Definition marked (encoded : text) : Value :=
  Object [(chars "cycloneEncryptedDataMarker", Bool true); (chars "encryptedSecret", String_ encoded)].

(** [*value.pointer_mut("/message") = v]. *)
Definition set_message (value v : Value) : Value :=
  match value with
  | Object l => Object ((λ '(k, x), (k, if bool_decide (k = chars "message") then v else x)) <$> l)
  | _ => value
  end.

Context (service : SymmetricCryptoService.t S) (db : Database) (encryption_key : EncryptionKey).

(** [SecretId::from_str], and the random choice of the sealed box of each field. *)
Context (from_str : text → option Id) (seeds : text → N).

Definition reencrypt_field (key : text) (value : Value) : result ComponentViewError Value :=
  match value with
  | String_ raw_id =>
      id ← ok_or (from_str raw_id) UlidDecode;
      match EncryptedSecret.get_by_id db id with
      | Err e => Err (Secret e)
      | Ok None => Err (SecretNotFound id)
      | Ok (Some secret) =>
          match EncryptedSecret.decrypt service db secret with
          | Err e => Err (Secret e)
          | Ok decrypted_secret =>
              let encoded := encrypt_and_encode encryption_key (seeds key) (to_vec (secret_message decrypted_secret)) in
              Ok (set_message (secret_to_value decrypted_secret) (marked encoded))
          end
      end
  | _ => Ok value
  end.

Fixpoint reencrypt_fields (object : list (text * Value)) : result ComponentViewError (list (text * Value)) :=
  match object with
  | [] => Ok []
  | (key, value) :: object =>
      value ← reencrypt_field key value; object ← reencrypt_fields object; Ok ((key, value) :: object)
  end.

(** [get_mut("root")] with what is put there. *)
Definition set_key (key : text) (v : Value) (object : list (text * Value)) : list (text * Value) :=
  (λ '(k, x), (k, if bool_decide (k = key) then v else x)) <$> object.

Definition reencrypt_secrets (component : ComponentView) : result ComponentViewError ComponentView :=
  match kind component with
  | Standard => Ok component
  | Credential =>
      match properties component with
      | Object props =>
          match object_get (chars "root") props with
          | Some (Object object) =>
              object ← reencrypt_fields object;
              Ok {| kind := Credential; properties := Object (set_key (chars "root") (Object object) props) |}
          | _ => Ok component
          end
      | _ => Ok component
      end
  end.

End Flow.

(** The cyclone server with its secret key. *)
Definition cyclone_box `{S : Sodium} (sk : bytes) : SealedBox := {|
  CycloneSecrets.base64_decode := Secrets.base64_decode;
  CycloneSecrets.sealedbox_open c := Secrets.sealedbox_open c (public_of sk) sk;
  CycloneSecrets.from_slice := Secrets.from_slice;
|}.

(** ** The function gets the secrets *)

Section Correct.
Context `{S : Sodium} {O : SodiumOk S}.
Context (service : SymmetricCryptoService.t S) (db : Database) (from_str : text → option Id) (seeds : text → N).
Context (sk : bytes) (Hsk : length sk = SECRETKEYBYTES).
#[local] Instance box : SealedBox := cyclone_box sk.

Definition server_key : EncryptionKey := {| public_key := public_of sk |}.

(** The secret that a text stands for. *)
Definition secret_of (raw_id : text) (d : DecryptedSecret) : Prop :=
  ∃ id s, from_str raw_id = Some id ∧ EncryptedSecret.get_by_id db id = Ok (Some s) ∧
    EncryptedSecret.decrypt service db s = Ok d.

(** Fields as they are, and as the function sees them. *)
Inductive field_with_secret : text * Value → text * Value → Prop :=
| a_secret k raw_id d : secret_of raw_id d → field_with_secret (k, String_ raw_id) (k, secret_to_value d)
| no_secret k v : (∀ s, v ≠ String_ s) → decrypted v = Ok v → field_with_secret (k, v) (k, v).

Lemma marked_opens m seed : decrypted (marked (encrypt_and_encode server_key seed (to_vec m))) = Ok m.
Proof using O Hsk.
  generalize (eq_refl (encrypt_and_encode server_key seed (to_vec m))).
  generalize (encrypt_and_encode server_key seed (to_vec m)) at 2 3 as e. intros e He.
  transitivity (decoded ← decode_and_decrypt e; ok_or (CycloneSecrets.from_slice decoded) Serde); [reflexivity|].
  subst e. unfold decode_and_decrypt. cbn [CycloneSecrets.base64_decode CycloneSecrets.sealedbox_open CycloneSecrets.from_slice box cyclone_box].
  unfold encrypt_and_encode, server_key. cbn [public_key]. rewrite base64_round. cbn [ok_or mbind result_bind].
  rewrite sealedbox_opens by done. cbn [ok_or mbind result_bind]. by rewrite json_round.
Qed.

(** A field is made so that the server reads the secret. *)
Lemma field_opens k v k' v' : field_with_secret (k, v) (k', v') →
  k' = k ∧ ∃ sealed, reencrypt_field service db server_key from_str seeds k v = Ok sealed ∧ decrypted sealed = Ok v'.
Proof using O Hsk.
  intros Hf. inversion Hf as [? raw_id d (id & s & Hid & Hget & Hdec)|? ? Hv Hd]; subst; (split; [done|]).
  - eexists. cbn [reencrypt_field]. rewrite Hid. cbn [ok_or mbind result_bind]. rewrite Hget, Hdec. split; [reflexivity|].
    unfold secret_to_value at 1. cbn [set_message fmap list_fmap].
    change (decrypted (Object [(chars "name", String_ (secret_name d)); (chars "definition", String_ (secret_definition d));
      (chars "message", marked (encrypt_and_encode server_key (seeds k') (to_vec (secret_message d))))]) = Ok (secret_to_value d)).
    rewrite decrypted_container by done. cbn [children fmap list_fmap snd try_map_back].
    rewrite marked_opens. reflexivity.
  - exists v'. split; [|done]. destruct v'; try done. by destruct (Hv s).
Qed.

Lemma fields_open fields opened : Forall2 field_with_secret fields opened →
  ∃ sealed, reencrypt_fields service db server_key from_str seeds fields = Ok sealed ∧
    sealed.*1 = fields.*1 ∧ try_map_back decrypted sealed.*2 = Ok opened.*2 ∧ opened.*1 = fields.*1.
Proof using O Hsk.
  induction 1 as [|[k v] [k' v'] fields opened Hf _ (sealed & Hr & Hk & Hd & Hk')]; [by exists []|].
  apply field_opens in Hf as (-> & x & Hx & Hdx). exists ((k, x) :: sealed). cbn [reencrypt_fields]. rewrite Hx, Hr.
  cbn [mbind result_bind fmap list_fmap fst snd]. split_and!; [done|by rewrite Hk| |by rewrite Hk'].
  by rewrite try_map_back_cons, Hd, Hdx.
Qed.

Lemma decrypt_back_all xs ys : Forall2 (λ x y, decrypted x = Ok y) xs ys → try_map_back decrypted xs = Ok ys.
Proof using Type. induction 1 as [|x y xs ys Hx _ IH]; [done|]. by rewrite try_map_back_cons, IH, Hx. Qed.

Definition marker : text := chars "cycloneEncryptedDataMarker".

Lemma object_get_none key (l : list (text * Value)) : key ∉ l.*1 → object_get key l = None.
Proof using Type.
  unfold object_get. induction l as [|[k v] l IH]; intros Hk; [done|]. cbn in *. apply not_elem_of_cons in Hk as [Hne Hk].
  rewrite bool_decide_false by done. by apply IH.
Qed.

Lemma unmarked l : marker ∉ l.*1 → is_decrypted_secret l = false.
Proof using Type. intros Hm%object_get_none. unfold is_decrypted_secret. unfold marker in Hm. by rewrite Hm. Qed.

Lemma zip_keys (l : list (text * Value)) (ks : list text) (xs : list Value) : l.*1 = ks → l.*2 = xs → zip ks xs = l.
Proof using Type. intros <- <-. apply zip_fst_snd. Qed.

Lemma set_key_keys key v l : (set_key key v l).*1 = l.*1.
Proof using Type. unfold set_key. rewrite <-list_fmap_compose. by apply list_fmap_ext; intros i [k x]. Qed.

(** Values that neither have secrets nor keys that pointers cannot spell. *)
Definition harmless (v : Value) : Prop := decrypted v = Ok v ∧ pointable v.

Definition good_keys (l : list (text * Value)) : Prop := (marker ∉ l.*1) ∧ Forall plain l.*1 ∧ NoDup l.*1.

Lemma object_opens l l' : good_keys l → l'.*1 = l.*1 → Forall2 (λ x y, decrypted x = Ok y) l.*2 l'.*2 → decrypted (Object l) = Ok (Object l').
Proof using Type.
  intros (Hm & _) Hk Hv. rewrite decrypted_container; [|done|by apply unmarked].
  cbn [children]. rewrite (decrypt_back_all _ _ Hv). cbn. do 2 f_equal. by apply zip_keys.
Qed.

Lemma set_key_opens props v v' : decrypted v = Ok v' →
  Forall (λ kx, kx.1 ≠ chars "root" → harmless kx.2) props →
  Forall2 (λ x y, decrypted x = Ok y) (set_key (chars "root") v props).*2 (set_key (chars "root") v' props).*2.
Proof using Type.
  intros Hv. induction 1 as [|[k x] props Hx _ IH]; [constructor|]. cbn in *. constructor; [|done].
  case_bool_decide; [done|]. by apply Hx.
Qed.

Lemma good_keys_same l l' : l'.*1 = l.*1 → good_keys l → good_keys l'.
Proof using Type. unfold good_keys. by intros ->. Qed.

Lemma object_pointable l : good_keys l → Forall pointable l.*2 → pointable (Object l).
Proof using Type. intros (Hm & Hp & Hn) Hl. apply pointable_below; [|done]. split_and!; [by apply unmarked|done..]. Qed.

Lemma sealed_pointable d e : pointable (set_message (secret_to_value d) (marked e)).
Proof using Type.
  change (pointable (Object [(chars "name", String_ (secret_name d)); (chars "definition", String_ (secret_definition d));
      (chars "message", marked e)])).
  apply object_pointable.
  - split_and!; [|repeat constructor|]; apply (bool_decide_unpack _); vm_compute; exact I.
  - cbn. repeat (constructor; [by apply pointable_below; [|constructor]|]). constructor; [|constructor]. by apply pointable_secret.
Qed.

Lemma fields_pointable fields opened sealed : Forall2 field_with_secret fields opened →
  Forall (λ kx, (∀ s, kx.2 ≠ String_ s) → pointable kx.2) fields →
  reencrypt_fields service db server_key from_str seeds fields = Ok sealed → Forall pointable sealed.*2.
Proof using Type.
  intros Hf. revert sealed. induction Hf as [|[k v] [k' v'] fields opened Hf _ IH]; intros sealed Hp Hr.
  { injection Hr as <-. constructor. }
  apply Forall_cons in Hp as [Hv Hp]. cbn [reencrypt_fields] in Hr.
  apply result_bind_ok in Hr as (x & Hx & (rest & Hrest & [= <-])%result_bind_ok). constructor; [|by apply IH].
  cbn [snd] in *. inversion Hf as [? raw_id d (id & s & Hid & Hget & Hdec)|? ? Hne Hd]; subst.
  - cbn [reencrypt_field] in Hx. rewrite Hid in Hx. cbn [ok_or mbind result_bind] in Hx. rewrite Hget, Hdec in Hx.
    injection Hx as <-. apply sealed_pointable.
  - destruct v'; try (injection Hx as <-; by apply Hv). by destruct (Hne s).
Qed.

Lemma set_key_pointable props v : pointable v → Forall (λ kx, kx.1 ≠ chars "root" → harmless kx.2) props →
  Forall pointable (set_key (chars "root") v props).*2.
Proof using Type.
  intros Hv. induction 1 as [|[k x] props Hx _ IH]; [constructor|]. cbn in *. constructor; [|done].
  case_bool_decide; [done|]. by apply Hx.
Qed.

(** C20: the secrets of a credential reach the function. Where the root of a component
    has ids of secrets that the database can decrypt, and nothing that looks like a
    secret already, the component that is sent to the cyclone server has each of them
    sealed for the server, and what the server decrypts it to is the component with the
    secrets, names, definitions and messages, in the place of their ids. *)
Theorem stored_secrets_reach_the_function {J : JsonPointer} {JO : JsonPointerOk J} props fields opened :
  object_get (chars "root") props = Some (Object fields) → good_keys props → good_keys fields →
  Forall (λ kx, kx.1 ≠ chars "root" → harmless kx.2) props →
  Forall (λ kx, (∀ s, kx.2 ≠ String_ s) → pointable kx.2) fields → Forall2 field_with_secret fields opened →
  ∃ c n, reencrypt_secrets service db server_key from_str seeds {| kind := Credential; properties := Object props |} = Ok c ∧
    ∀ fuel, n ≤ fuel → component_decrypt_request fuel c =
      Some (Ok (component_to_value {| kind := Credential; properties := Object (set_key (chars "root") (Object opened) props) |})).
Proof using O Hsk.
  intros Hroot Hprops Hfields Hharmless Hpoint Hopened.
  destruct (fields_open fields opened Hopened) as (sealed & Hsealed & Hk & Hd & Hk').
  exists {| kind := Credential; properties := Object (set_key (chars "root") (Object sealed) props) |}.
  exists (1 + value_size (component_to_value {| kind := Credential; properties := Object (set_key (chars "root") (Object sealed) props) |})).
  split. { unfold reencrypt_secrets. cbn [kind properties]. by rewrite Hroot, Hsealed. }
  assert (decrypted (Object sealed) = Ok (Object opened)) as Hobj.
  { rewrite decrypted_container; [|done|apply unmarked; rewrite Hk; apply Hfields]. cbn [children]. rewrite Hd. cbn.
    do 2 f_equal. apply zip_keys; congruence. }
  assert (good_keys (set_key (chars "root") (Object sealed) props)) as Hgood.
  { eapply good_keys_same; [apply set_key_keys|done]. }
  intros fuel Hfuel. rewrite component_decrypts; [|..|lia].
  - unfold decrypted_component. cbn [kind properties].
    rewrite (object_opens _ (set_key (chars "root") (Object opened) props)); [done|done|by rewrite !set_key_keys|].
    by apply set_key_opens.
  - apply object_pointable; [done|]. apply set_key_pointable; [|done]. apply object_pointable.
    + by eapply good_keys_same.
    + by eapply fields_pointable.
Qed.
End Correct.
