(* ===== verification/SecretSample.v ===== *)
(** * Secrets, evaluated

    A box that only checks its keys, and the witnesses of [Secrets] and [SecretFlow]. *)

From S2P Require Import Prelude Redaction Secrets CycloneSecrets CycloneSample SecretFlow.
From Stdlib Require Import NArith Strings.String.
From stdpp Require Import base tactics list countable.

Abbreviation Id := N (only parsing).
Abbreviation bytes := (list N) (only parsing).

(** ** Bytes of JSON values *)

Fixpoint to_tree (v : Value) : gen_tree (list N) :=
  match v with
  | Null => GenNode 0 []
  | Bool b => GenNode (if b then 1 else 2) []
  | Number n => GenNode 3 [GenLeaf n]
  | String_ s => GenNode 4 [GenLeaf s]
  | Array l => GenNode 5 (to_tree <$> l)
  | Object l => GenNode 6 ((λ '(k, x), GenNode 7 [GenLeaf k; to_tree x]) <$> l)
  end.

Fixpoint of_tree (t : gen_tree (list N)) : option Value :=
  match t with
  | GenNode 0 [] => Some Null
  | GenNode 1 [] => Some (Bool true)
  | GenNode 2 [] => Some (Bool false)
  | GenNode 3 [GenLeaf n] => Some (Number n)
  | GenNode 4 [GenLeaf s] => Some (String_ s)
  | GenNode 5 l => Array <$> mapM of_tree l
  | GenNode 6 l =>
      Object <$> mapM (λ t, match t with
                            | GenNode 7 [GenLeaf k; x] => x ← of_tree x; Some (k, x)
                            | _ => None
                            end) l
  | _ => None
  end.

Lemma of_to_tree v : of_tree (to_tree v) = Some v.
Proof.
  induction v as [v IH] using Value_ind'. destruct v as [|[]|n|s|l|l]; try done.
  - cbn. assert (mapM of_tree (to_tree <$> l) = Some l) as ->; [|done].
    induction IH as [|x l Hx _ IHl]; [done|]. cbn. rewrite Hx. cbn in *. by rewrite IHl.
  - cbn. match goal with |- _ <$> ?m = _ => assert (m = Some l) as ->; [|done] end.
    induction IH as [|[k x] l Hx _ IHl]; [done|]. cbn in *. rewrite Hx. cbn. by rewrite IHl.
Qed.

Definition sample_to_vec (v : Value) : bytes := [Npos (encode (to_tree v))].

Definition sample_from_slice (b : bytes) : option Value :=
  match b with [Npos p] => t ← decode p; of_tree t | _ => None end.

(** ** Boxes *)

Definition padded (sk : bytes) : bytes := take 32 (sk ++ replicate 32 0%N).

Definition strip (p c : bytes) : option bytes :=
  if bool_decide (take (length p) c = p) then Some (drop (length p) c) else None.

Lemma strip_app p m : strip p (p ++ m) = Some m.
Proof. unfold strip. rewrite bool_decide_true by apply take_app_length. by rewrite drop_app_length. Qed.

Definition sample_sodium : Sodium := {|
  Digest := list N;
  digest b := b;
  digest_to_string h := h;
  digest_from_str := Some;
  secretbox_seal m nonce key := (nonce ++ key) ++ m;
  secretbox_open c nonce key := strip (nonce ++ key) c;
  sealedbox_seal seed m pk := seed :: pk ++ m;
  Secrets.sealedbox_open c pk sk :=
    match c with seed :: c => if bool_decide (pk = padded sk) then strip pk c else None | [] => None end;
  public_of := padded;
  base64_encode b := b;
  Secrets.base64_decode := Some;
  to_vec := sample_to_vec;
  Secrets.from_slice := sample_from_slice;
|}.

Lemma sample_sodium_ok : SodiumOk sample_sodium.
Proof.
  split; try done.
  - intros m nonce key. apply strip_app.
  - intros seed m sk _. cbn. rewrite bool_decide_true by done. apply strip_app.
  - intros sk. cbn. unfold padded. rewrite length_take, length_app, length_replicate. unfold PUBLICKEYBYTES. lia.
  - intros v. cbn. by rewrite decode_encode; cbn; rewrite of_to_tree.
Qed.

#[local] Existing Instances sample_sodium sample_sodium_ok.

(** ** Rotating keys *)

Definition key1 : bytes := [1%N].
Definition key2 : bytes := [2%N].
Definition key3 : bytes := [3%N].
Definition all_keys : list bytes := [key1; key2; key3].

Definition sample_sk : bytes := replicate 32 7%N.
Definition sample_nonce : bytes := replicate 24 9%N.
Definition empty_db : Database := {| key_pairs := []; encrypted_secrets := [] |}.

Lemma sample_keys : collision_free all_keys.
Proof. by intros k k'. Qed.

Lemma sample_service k ks : Forall (λ x, x ∈ all_keys) (k :: ks) →
  service_of all_keys (k :: ks) (SymmetricCryptoService.new k ks).
Proof. intros Hks. exists k, ks. split_and!; [done|done|]. intros x Hx. by eapply list.Forall_forall in Hks. Qed.

Ltac among := repeat constructor; apply (bool_decide_unpack _); vm_compute; exact I.

Definition ufo : Value := String_ (chars "ufo").

(** The tables after both writes, each under the keys of its time. *)
Definition db_with_pair : Database :=
  match KeyPair.new (SymmetricCryptoService.new key1 []) empty_db 5 (chars "k") 1 sample_sk sample_nonce with
  | Ok (_, db) => db | Err _ => empty_db end.

Definition db_with_secret : Database :=
  match EncryptedSecret.new (SymmetricCryptoService.new key2 [key1]) db_with_pair 8 sample_nonce (chars "n") (chars "d") None
    (sealedbox_seal 3 (to_vec ufo) (public_of sample_sk)) 5 V1 Sealedbox with
  | Ok (_, db) => db | Err _ => empty_db end.

Lemma secrets_survive_key_rotation_witness :
  ∃ s, EncryptedSecret.get_by_id db_with_secret 8 = Ok (Some s) ∧
    EncryptedSecret.decrypt (SymmetricCryptoService.new key3 [key1; key2]) db_with_secret s =
      Ok {| secret_name := chars "n"; secret_definition := chars "d"; secret_message := ufo |}.
Proof.
  destruct (secrets_survive_key_rotation all_keys sample_keys [key1] [key2; key1] [key3; key1; key2] _ _ _
    empty_db 5%N (chars "k") 1%N sample_sk sample_nonce
    (sample_service key1 [] ltac:(among)) (sample_service key2 [key1] ltac:(among))
    (sample_service key3 [key1; key2] ltac:(among))) as (k1 & k2 & kp & db1 & Hk1 & Hk2 & Hkp & Hpub & Hsecret); [reflexivity..|].
  injection Hk1 as <-. injection Hk2 as <-.
  destruct (Hsecret db_with_pair 8%N sample_nonce (chars "n") (chars "d") None 3%N ufo) as (db2 & Hnew & Hread); [reflexivity..|].
  rewrite Hpub in Hnew. 
  assert (db1 = db_with_pair) as -> by (unfold db_with_pair; by rewrite Hkp).
  assert (db2 = db_with_secret) as -> by (unfold db_with_secret; by rewrite Hnew).
  destruct (Hread db_with_secret) as (s & Hget & Hdec); [reflexivity..|]. exists s. split; [exact Hget|].
  rewrite Hdec. reflexivity.
Defined.

(** ** A credential with a secret *)

Definition sample_fields : list (list N * Value) :=
  [(chars "aws", String_ (chars "8")); (chars "si", Object [(chars "name", String_ (chars "creds"))])].

Definition parse_id (s : list N) : option Id := if bool_decide (s = chars "8") then Some 8%N else None.

Definition ufo_secret : DecryptedSecret :=
  {| secret_name := chars "n"; secret_definition := chars "d"; secret_message := ufo |}.

Definition late_service : SymmetricCryptoService.t sample_sodium := SymmetricCryptoService.new key3 [key1; key2].

Lemma leaf_pointable v : children v = [] → match v with Object _ => False | _ => True end → pointable v.
Proof. intros Hc Hv. apply pointable_below; [by destruct v|]. rewrite Hc. constructor. Qed.

Lemma stored_secrets_reach_the_function_witness :
  ∃ c n, reencrypt_secrets late_service db_with_secret (server_key sample_sk) parse_id (λ _, 4%N)
      {| kind := Credential; properties := Object [(chars "root", Object sample_fields)] |} = Ok c ∧
    ∀ fuel, n ≤ fuel → component_decrypt_request (K := cyclone_box sample_sk) fuel c =
      Some (Ok (component_to_value {| kind := Credential; properties := Object [(chars "root", Object
        [(chars "aws", secret_to_value ufo_secret); (chars "si", Object [(chars "name", String_ (chars "creds"))])])] |})).
Proof.
  apply (stored_secrets_reach_the_function late_service db_with_secret parse_id (λ _, 4%N) sample_sk eq_refl
    [(chars "root", Object sample_fields)] sample_fields).
  - reflexivity.
  - split_and!; [|repeat constructor|]; apply (bool_decide_unpack _); vm_compute; exact I.
  - split_and!; [|repeat constructor|]; apply (bool_decide_unpack _); vm_compute; exact I.
  - constructor; [|constructor]. intros Hne. by destruct Hne.
  - constructor; [intros Hs; by destruct (Hs (chars "8"))|]. constructor; [|constructor]. intros _.
    apply object_pointable; [split_and!; [|repeat constructor|]; apply (bool_decide_unpack _); vm_compute; exact I|].
    constructor; [by apply leaf_pointable|constructor].
  - constructor; [|constructor; [|constructor]].
    + apply a_secret. eexists 8%N, _. split_and!; reflexivity.
    + apply no_secret; [done|reflexivity].
Defined.
