(* ===== verification/Fixes.v ===== *)
(** * Running fixes

    Model of [src/lib/dal/src/fix.rs], [fix/batch.rs], [fix/resolver.rs], of the job
    that runs the fixes of a batch one after the other
    ([dal/src/job/definition/fix.rs]), of its execution ([JobConsumer::run_job] in
    [dal/src/job/consumer.rs], [execute_job] and [record_job_failure] in
    [pinga-server/src/server.rs]), and of the routes that submit and list batches
    ([sdf-server/src/server/service/fix]).

    A job works in a transaction: what it wrote since its last commit is lost when it
    fails. The queue of jobs is no part of it: it is shared by all the contexts of a
    process, and what is in it is sent by the next commit of any of them, also after a
    rollback ([dal/src/job/queue.rs], [Transactions::commit_into_conns] in
    [dal/src/context.rs]). Any statement and any commit can be refused, a commit also
    after the rows were written; what an action returns is not known. Times are the
    numbers of operations. Jobs of other kinds, such as those that update the values that
    depend on a resource, are not modelled; a blocking commit that fails because one of
    them failed is one of the ways in which a commit can end.

    What the code does is a [prog]: a tree of operations on the outside. [exec] runs a
    program alone; [FixTheorems] interleaves any number of them. *)

From S2P Require Import Prelude.
From Stdlib Require Import NArith Strings.Ascii Strings.String.
From stdpp Require Import base tactics list sets gmap strings.

Abbreviation Id := N (only parsing).

(** ** Data *)

Inductive FixCompletionStatus : Set := Error | Failure | Success | Unstarted.

#[global] Instance FixCompletionStatus_eq_dec : EqDecision FixCompletionStatus.
Proof. solve_decision. Defined.

Inductive ResourceStatus : Set := ResourceError | ResourceOk | ResourceWarning.

Inductive ActionKind : Set := Create | Delete | Other | Refresh.

Record ActionRunResult := {
  status : ResourceStatus;
  payload : option string;
  message : option string;
  logs : list string;
}.

Record Fix := {
  id : Id;
  component_id : Id;
  action_prototype_id : Id;
  action_kind : ActionKind;
  resource : option ActionRunResult;
  started_at : option nat;
  finished_at : option nat;
  completion_status : option FixCompletionStatus;
  completion_message : option string;
}.

Record FixBatch := {
  batch_id : Id;
  author : string;
  batch_created_at : nat;
  batch_started_at : option nat;
  batch_finished_at : option nat;
  batch_completion_status : option FixCompletionStatus;
}.

Record FixResolver := {
  resolver_action_prototype_id : Id;
  success : option bool;
  last_fix_id : Id;
}.

Record FixItem := {
  item_id : Id;
  item_action_prototype_id : Id;
  item_component_id : Id;
}.

Record FixesJob := {
  job_fixes : list FixItem;
  job_batch_id : Id;
  job_started : bool;
}.

Inductive WsEvent : Type :=
| FixReturn (id batch_id : Id) (action : ActionKind) (status : FixCompletionStatus) (output : list string)
| FixBatchReturn (id : Id) (status : FixCompletionStatus)
| ResourceRefreshed (component_id : Id).

Inductive FixError : Set :=
| AlreadyFinished
| AlreadyStarted
| BatchAlreadyFinished (fix_id batch_id : Id)
| BatchAlreadyStarted (fix_id batch_id : Id)
| EmptyCompletionStatus
| MissingFix (id : Id)
| FixMissingFixBatch (id : Id)
| NoFixesInBatch (id : Id)
| NotYetStarted.

Inductive JobConsumerError : Set :=
| ActionFailed (e : string)
| ActionPrototypeNotFound (id : Id)
| ComponentIsDestroyed (id : Id)
| ComponentNotFound (id : Id)
| MissingFixBatch (id : Id)
| FixFailed (e : FixError)
| Refused.

(** ** The outside *)

(** The rows, the events that were published, and what is kept of components: which
    are to be destroyed, and their resources. *)
Record Tables := {
  fixes : gmap Id Fix;
  batches : gmap Id FixBatch;
  belongs : gmap Id (list Id);
  resolvers : list FixResolver;
  needs_destroy : gset Id;
  resources : gmap Id ActionRunResult;
  events : list WsEvent;
  failures : list JobConsumerError;
}.

(** Operations: a statement of the transaction, at a time; the end of the transaction;
    the run of the action of a fix, or of a refresh; putting a job into the queue. *)
Inductive Op : Set → Type :=
| Stmt {A : Set} (f : nat → Tables → A * Tables) : Op A
| Commit (blocking : bool) : Op unit
| Rollback : Op unit
| Execute (fix_id : option Id) (prototype component : Id) : Op (result string (option ActionRunResult))
| Enqueue (job : FixesJob) : Op unit.

(** Programs; an operation can fail, which a program can handle. *)
Inductive prog (A : Type) : Type :=
| Ret (a : A)
| Fail (e : JobConsumerError)
| Do {X : Set} (o : Op X) (k : result JobConsumerError X → prog A).
Arguments Ret {A} _.
Arguments Fail {A} _.
Arguments Do {A X} _ _.

Fixpoint bind {A B} (f : A → prog B) (m : prog A) : prog B :=
  match m with
  | Ret a => f a
  | Fail e => Fail e
  | Do o k => Do o (λ r, bind f (k r))
  end.

#[export] Instance prog_ret : MRet prog := λ A a, Ret a.
#[export] Instance prog_bind : MBind prog := λ A B f m, bind f m.

Definition fail {A} (e : JobConsumerError) : prog A := Fail e.
Definition fix_error {A} (e : FixError) : prog A := fail (FixFailed e).

(** [match .. { Ok(..) => .., Err(..) => .. }]. *)
Fixpoint catch {A} (m : prog A) : prog (result JobConsumerError A) :=
  match m with
  | Ret a => Ret (Ok a)
  | Fail e => Ret (Err e)
  | Do o k => Do o (λ r, catch (k r))
  end.

Definition perform {X : Set} (o : Op X) : prog X := Do o (λ r, match r with Ok x => Ret x | Err e => Fail e end).

Definition stmt {A : Set} (f : nat → Tables → A * Tables) : prog A := perform (Stmt f).
Definition query {A : Set} (f : Tables → A) : prog A := stmt (λ _ t, (f t, t)).
Definition write (f : Tables → Tables) : prog unit := stmt (λ _ t, ((), f t)).
Definition commit : prog unit := perform (Commit false).
Definition blocking_commit : prog unit := perform (Commit true).
Definition enqueue_job (job : FixesJob) : prog unit := perform (Enqueue job).

(** ** Running a program *)

(** How a commit ends: PostgreSQL or the broker refuses it, or sending the jobs fails,
    or, if the commit waits for them, one of them. *)
Inductive Commitment : Set := Committed | RefusedByPg | RefusedByNats | JobsFailed.

(** The answers of the world, at the time of an operation: whether a statement is
    refused, and how a commit ends; the components, with whether they are destroyed, and
    the actions that are found; what running the action of a fix or of a refresh
    returns; how errors are written. *)
Record World := {
  refused : nat → bool;
  commits : nat → Commitment;
  component_destroyed : nat → Id → option bool;
  action_prototype : nat → Id → option ActionKind;
  refresh_action : nat → Id → option Id;
  run_action : Id → Id → Id → result string (option ActionRunResult);
  run_refresh : nat → Id → Id → result string (option ActionRunResult);
  explain : JobConsumerError → string;
}.

(** [queue] is the shared queue, [sent] are the jobs that were sent and not yet taken;
    [ran] are the fixes whose actions were run: what an action did stays done. *)
Record Store := {
  committed : Tables;
  working : Tables;
  queue : list FixesJob;
  sent : list FixesJob;
  tick : nat;
  ran : list Id;
}.

Definition with_events (f : list WsEvent → list WsEvent) (t : Tables) : Tables :=
  {| fixes := fixes t; batches := batches t; belongs := belongs t; resolvers := resolvers t;
     needs_destroy := needs_destroy t; resources := resources t; events := f (events t); failures := failures t |}.

Section Exec.
Context (w : World).

(** Rows are committed before messages are published and jobs are sent. *)
Definition exec_commit (blocking : bool) (s : Store) : result JobConsumerError unit * Store :=
  match commits w (tick s) with
  | Committed =>
      (Ok (), {| committed := working s; working := working s; queue := []; sent := sent s ++ queue s;
                 tick := S (tick s); ran := ran s |})
  | RefusedByPg =>
      (Err Refused, {| committed := committed s; working := committed s; queue := queue s; sent := sent s;
                       tick := S (tick s); ran := ran s |})
  | RefusedByNats =>
      let t := with_events (λ _, events (committed s)) (working s) in
      (Err Refused, {| committed := t; working := t; queue := queue s; sent := sent s; tick := S (tick s); ran := ran s |})
  | JobsFailed =>
      (if blocking then Err Refused else Ok (),
       {| committed := working s; working := working s; queue := [];
          sent := if blocking then sent s ++ queue s else sent s; tick := S (tick s); ran := ran s |})
  end.

Definition exec_op {X : Set} (o : Op X) (s : Store) : result JobConsumerError X * Store :=
  match o with
  | Stmt f =>
      if refused w (tick s)
      then (Err Refused, {| committed := committed s; working := working s; queue := queue s; sent := sent s;
                            tick := S (tick s); ran := ran s |})
      else let '(a, t) := f (tick s) (working s) in
           (Ok a, {| committed := committed s; working := t; queue := queue s; sent := sent s;
                     tick := S (tick s); ran := ran s |})
  | Commit blocking => exec_commit blocking s
  | Rollback =>
      (Ok (), {| committed := committed s; working := committed s; queue := queue s; sent := sent s;
                 tick := S (tick s); ran := ran s |})
  | Execute fix_id prototype component =>
      (Ok match fix_id with
          | Some i => run_action w i prototype component
          | None => run_refresh w (tick s) prototype component
          end,
       {| committed := committed s; working := working s; queue := queue s; sent := sent s;
          tick := S (tick s); ran := ran s ++ match fix_id with Some i => [i] | None => [] end |})
  | Enqueue job =>
      (Ok (), {| committed := committed s; working := working s; queue := queue s ++ [job]; sent := sent s;
                 tick := S (tick s); ran := ran s |})
  end.

Fixpoint exec {A} (m : prog A) (s : Store) : result JobConsumerError A * Store :=
  match m with
  | Ret a => (Ok a, s)
  | Fail e => (Err e, s)
  | Do o k => let '(r, s) := exec_op o s in exec (k r) s
  end.

End Exec.

Section Fixes.
Context (w : World).

Definition with_fixes (f : gmap Id Fix → gmap Id Fix) (t : Tables) : Tables :=
  {| fixes := f (fixes t); batches := batches t; belongs := belongs t; resolvers := resolvers t;
     needs_destroy := needs_destroy t; resources := resources t; events := events t; failures := failures t |}.

Definition with_batches (f : gmap Id FixBatch → gmap Id FixBatch) (t : Tables) : Tables :=
  {| fixes := fixes t; batches := f (batches t); belongs := belongs t; resolvers := resolvers t;
     needs_destroy := needs_destroy t; resources := resources t; events := events t; failures := failures t |}.

Definition with_belongs (f : gmap Id (list Id) → gmap Id (list Id)) (t : Tables) : Tables :=
  {| fixes := fixes t; batches := batches t; belongs := f (belongs t); resolvers := resolvers t;
     needs_destroy := needs_destroy t; resources := resources t; events := events t; failures := failures t |}.

Definition with_needs_destroy (f : gset Id → gset Id) (t : Tables) : Tables :=
  {| fixes := fixes t; batches := batches t; belongs := belongs t; resolvers := resolvers t;
     needs_destroy := f (needs_destroy t); resources := resources t; events := events t; failures := failures t |}.

Definition with_resources (f : gmap Id ActionRunResult → gmap Id ActionRunResult) (t : Tables) : Tables :=
  {| fixes := fixes t; batches := batches t; belongs := belongs t; resolvers := resolvers t;
     needs_destroy := needs_destroy t; resources := f (resources t); events := events t; failures := failures t |}.

Definition add_resolver (r : FixResolver) (t : Tables) : Tables :=
  {| fixes := fixes t; batches := batches t; belongs := belongs t; resolvers := resolvers t ++ [r];
     needs_destroy := needs_destroy t; resources := resources t; events := events t; failures := failures t |}.

Definition add_event (e : WsEvent) : Tables → Tables := with_events (λ es, es ++ [e]).

Definition add_failure (e : JobConsumerError) (t : Tables) : Tables :=
  {| fixes := fixes t; batches := batches t; belongs := belongs t; resolvers := resolvers t;
     needs_destroy := needs_destroy t; resources := resources t; events := events t; failures := failures t ++ [e] |}.

(** ** Fixes *)

(** A column of the row is set, and of the object in memory. *)
Definition set_fix (f : nat → Fix → Fix) (x : Fix) : prog Fix :=
  stmt (λ now t, (f now x, with_fixes (alter (f now) (id x)) t)).

Definition set_started_at (x : Fix) : prog Fix :=
  set_fix (λ now x, {| id := id x; component_id := component_id x; action_prototype_id := action_prototype_id x;
    action_kind := action_kind x; resource := resource x; started_at := Some now; finished_at := finished_at x;
    completion_status := completion_status x; completion_message := completion_message x |}) x.

Definition set_finished_at (x : Fix) : prog Fix :=
  set_fix (λ now x, {| id := id x; component_id := component_id x; action_prototype_id := action_prototype_id x;
    action_kind := action_kind x; resource := resource x; started_at := started_at x; finished_at := Some now;
    completion_status := completion_status x; completion_message := completion_message x |}) x.

Definition set_completion_status (c : option FixCompletionStatus) (x : Fix) : prog Fix :=
  set_fix (λ _ x, {| id := id x; component_id := component_id x; action_prototype_id := action_prototype_id x;
    action_kind := action_kind x; resource := resource x; started_at := started_at x; finished_at := finished_at x;
    completion_status := c; completion_message := completion_message x |}) x.

Definition set_completion_message (m : option string) (x : Fix) : prog Fix :=
  set_fix (λ _ x, {| id := id x; component_id := component_id x; action_prototype_id := action_prototype_id x;
    action_kind := action_kind x; resource := resource x; started_at := started_at x; finished_at := finished_at x;
    completion_status := completion_status x; completion_message := m |}) x.

Definition set_resource (r : option ActionRunResult) (x : Fix) : prog Fix :=
  set_fix (λ _ x, {| id := id x; component_id := component_id x; action_prototype_id := action_prototype_id x;
    action_kind := action_kind x; resource := r; started_at := started_at x; finished_at := finished_at x;
    completion_status := completion_status x; completion_message := completion_message x |}) x.

Definition stamp_started (x : Fix) : prog Fix :=
  match started_at x, finished_at x with
  | Some _, _ => fix_error AlreadyStarted
  | None, Some _ => fix_error AlreadyFinished
  | None, None => set_started_at x
  end.

Definition stamp_finished (completion_status : FixCompletionStatus) (completion_message : option string)
    (resource : option ActionRunResult) (x : Fix) : prog Fix :=
  match started_at x with
  | Some _ =>
      x ← set_finished_at x;
      x ← set_completion_status (Some completion_status) x;
      x ← match completion_message with Some m => set_completion_message (Some m) x | None => mret x end;
      set_resource resource x
  | None => fix_error NotYetStarted
  end.

(** [Component::set_resource], on head; the value is always said to have changed. *)
Definition component_set_resource (component : Id) (r : ActionRunResult) : prog bool :=
  _ ← write (with_resources <[component := r]>);
  mret true.

(** A component that was to be destroyed and has no resource any more. *)
Definition clear_needs_destroy (destroy : bool) (component : Id) (r : ActionRunResult) : prog unit :=
  match destroy, payload r with
  | true, None => write (with_needs_destroy (λ d, d ∖ {[component]}))
  | _, _ => mret ()
  end.

Definition announce_refresh (changed : bool) (component : Id) : prog unit :=
  if changed then write (add_event (ResourceRefreshed component)) else mret ().

(** What a function returned is kept with the component. *)
Definition keep_result (component : Id) (r : ActionRunResult) : prog unit :=
  found ← stmt (λ now t, (option_map (λ _, bool_decide (component ∈ needs_destroy t)) (component_destroyed w now component), t));
  match found with
  | None => fail (ComponentNotFound component)
  | Some destroy =>
      _ ← clear_needs_destroy destroy component r;
      changed ← component_set_resource component r;
      announce_refresh changed component
  end.

(** [ActionPrototype::run]: the view of the component is read, and the function is run,
    which is not undone; [fix_id] tells for which fix. *)
Definition run_prototype (fix_id : option Id) (prototype component : Id) : prog (option ActionRunResult) :=
  _ ← write (λ t, t);
  r ← perform (Execute fix_id prototype component);
  match r with
  | Err e => fail (ActionFailed e)
  | Ok None => mret None
  | Ok (Some run_result) => _ ← keep_result component run_result; mret (Some run_result)
  end.

(** [Fix::run]: the fix with its result. *)
Definition run_fix (prototype : Id) (x : Fix) : prog (Fix * option ActionRunResult) :=
  x ← stamp_started x;
  r ← catch (run_prototype (Some (id x)) prototype (component_id x));
  match r with
  | Ok (Some run_result) =>
      let completion_status := match status run_result with
                               | ResourceOk | ResourceWarning => Success
                               | ResourceError => Failure
                               end in
      x ← stamp_finished completion_status (message run_result) (Some run_result) x;
      mret (x, Some run_result)
  | Ok None =>
      x ← stamp_finished Error (Some "Fix did not return a value") None x;
      mret (x, None)
  | Err e =>
      x ← stamp_finished Error (Some (explain w e)) None x;
      mret (x, None)
  end.

(** ** Batches *)

Definition set_batch (f : nat → FixBatch → FixBatch) (b : FixBatch) : prog FixBatch :=
  stmt (λ now t, (f now b, with_batches (alter (f now) (batch_id b)) t)).

Definition batch_set_started_at : FixBatch → prog FixBatch :=
  set_batch (λ now b, {| batch_id := batch_id b; author := author b; batch_created_at := batch_created_at b;
    batch_started_at := Some now; batch_finished_at := batch_finished_at b;
    batch_completion_status := batch_completion_status b |}).

Definition batch_set_finished_at : FixBatch → prog FixBatch :=
  set_batch (λ now b, {| batch_id := batch_id b; author := author b; batch_created_at := batch_created_at b;
    batch_started_at := batch_started_at b; batch_finished_at := Some now;
    batch_completion_status := batch_completion_status b |}).

Definition batch_set_completion_status (c : FixCompletionStatus) : FixBatch → prog FixBatch :=
  set_batch (λ _ b, {| batch_id := batch_id b; author := author b; batch_created_at := batch_created_at b;
    batch_started_at := batch_started_at b; batch_finished_at := batch_finished_at b;
    batch_completion_status := Some c |}).

(** [FixBatch::fixes]. *)
Definition batch_fixes (b : FixBatch) : prog (list Fix) :=
  query (A := list Fix) (λ t, omap (λ i, fixes t !! i) (default [] (belongs t !! batch_id b))).

(** The loop over the fixes of a batch. *)
Fixpoint batch_status (xs : list Fix) (batch_completion_status : FixCompletionStatus) : result FixError FixCompletionStatus :=
  match xs with
  | [] => Ok batch_completion_status
  | x :: xs =>
      match completion_status x with
      | None => Err EmptyCompletionStatus
      | Some Success => batch_status xs batch_completion_status
      | Some Failure => batch_status xs Failure
      | Some (Error | Unstarted) => Ok Error
      end
  end.

Definition batch_stamp_finished (b : FixBatch) : prog FixCompletionStatus :=
  match batch_started_at b with
  | Some _ =>
      b ← batch_set_finished_at b;
      xs ← batch_fixes b;
      match batch_status xs Success with
      | Err e => fix_error e
      | Ok c => _ ← batch_set_completion_status c b; mret c
      end
  | None => fix_error NotYetStarted
  end.

Definition batch_stamp_started (b : FixBatch) : prog FixBatch :=
  match batch_started_at b, batch_finished_at b with
  | Some _, _ => fix_error AlreadyStarted
  | None, Some _ => fix_error AlreadyFinished
  | None, None =>
      xs ← batch_fixes b;
      match xs with
      | [] => fix_error (NoFixesInBatch (batch_id b))
      | _ => batch_set_started_at b
      end
  end.

Definition get_batch (i : Id) : prog FixBatch :=
  b ← query (λ t, batches t !! i);
  match b with Some b => mret b | None => fail (MissingFixBatch i) end.

(** ** The job *)

Definition finish_batch (i : Id) : prog unit :=
  b ← get_batch i;
  c ← batch_stamp_finished b;
  write (add_event (FixBatchReturn (batch_id b) c)).

Definition newline : ascii := "010"%char.

(** [str::split]. *)
Fixpoint split_lines (s : string) : list string :=
  match s with
  | EmptyString => [""]
  | String c s =>
      if Ascii.eqb c newline then "" :: split_lines s
      else match split_lines s with
           | l :: ls => String c l :: ls
           | [] => [String c ""]
           end
  end.

Definition upsert_resolver (prototype : Id) (success : option bool) (last_fix_id : Id) : prog unit :=
  write (add_resolver {| resolver_action_prototype_id := prototype; success := success; last_fix_id := last_fix_id |}).

(** [Component::act] with the action [Refresh]. *)
Definition refresh (component : Id) : prog unit :=
  action ← stmt (λ now t, (refresh_action w now component, t));
  match action with
  | Some prototype => _ ← run_prototype None prototype component; mret ()
  | None => mret ()
  end.

(** What is done for the first fix. *)
Definition run_item (batch : Id) (item : FixItem) : prog unit :=
  destroyed ← stmt (λ now t, (component_destroyed w now (item_component_id item), t));
  match destroyed with
  | None => fail (ComponentNotFound (item_component_id item))
  | Some true => fail (ComponentIsDestroyed (item_component_id item))
  | Some false =>
      action ← stmt (λ now t, (action_prototype w now (item_action_prototype_id item), t));
      match action with
      | None => fail (ActionPrototypeNotFound (item_action_prototype_id item))
      | Some kind =>
          x ← query (λ t, fixes t !! item_id item);
          match x with
          | None => fix_error (MissingFix (item_id item))
          | Some x =>
              '(x, resource) ← run_fix (item_action_prototype_id item) x;
              match completion_status x with
              | None => fix_error EmptyCompletionStatus
              | Some completion_status =>
                  _ ← upsert_resolver (item_action_prototype_id item) (Some (bool_decide (completion_status = Success))) (id x);
                  let output := match resource with Some r => logs r ≫= split_lines | None => [] end in
                  _ ← blocking_commit;
                  _ ← refresh (item_component_id item);
                  _ ← blocking_commit;
                  write (add_event (FixReturn (id x) batch kind completion_status output))
              end
          end
      end
  end.

(** [FixesJob::run]. *)
Definition run (job : FixesJob) : prog unit :=
  _ ← (if job_started job then mret ()
       else b ← get_batch (job_batch_id job); _ ← batch_stamp_started b; mret ());
  match job_fixes job with
  | [] => finish_batch (job_batch_id job)
  | item :: rest =>
      _ ← run_item (job_batch_id job) item;
      match rest with
      | [] => finish_batch (job_batch_id job)
      | _ => enqueue_job {| job_fixes := rest; job_batch_id := job_batch_id job; job_started := true |}
      end
  end.

(** [JobConsumer::run_job]. *)
Definition run_job (job : FixesJob) : prog unit := _ ← run job; commit.

(** [execute_job] with [record_job_failure], for a job that was taken. *)
Definition execute_job (job : FixesJob) : prog unit :=
  r ← catch (run_job job);
  match r with
  | Ok _ => mret ()
  | Err e =>
      _ ← perform Rollback;
      _ ← write (add_failure e);
      commit
  end.

(** A program runs in a transaction of its own; what it did not commit is lost. *)
Definition in_transaction {A} (m : prog A) (s : Store) : result JobConsumerError A * Store :=
  let open s := {| committed := committed s; working := committed s; queue := queue s; sent := sent s;
                   tick := tick s; ran := ran s |} in
  let '(r, s) := exec w m (open s) in (r, open s).

(** A server takes the first job that was sent. *)
Definition step (s : Store) : Store :=
  match sent s with
  | [] => s
  | job :: rest =>
      snd (in_transaction (execute_job job)
        {| committed := committed s; working := working s; queue := queue s; sent := rest; tick := tick s; ran := ran s |})
  end.

Fixpoint steps (n : nat) (s : Store) : Store :=
  match n with O => s | S n => steps n (step s) end.

(** ** Submitting a batch *)

(** [FixBatch::new] and [Fix::new]; the ids are those the database gives. *)
Definition new_batch (i : Id) (author : string) : prog FixBatch :=
  stmt (λ now t, let b := {| batch_id := i; author := author; batch_created_at := now; batch_started_at := None;
                             batch_finished_at := None; batch_completion_status := None |} in
                 (b, with_batches <[i := b]> t)).

Definition set_fix_batch (x : Fix) (b : Id) : prog unit :=
  found ← query (λ t, batches t !! b);
  match found with
  | None => fix_error (FixMissingFixBatch b)
  | Some batch =>
      match batch_started_at batch, batch_finished_at batch with
      | Some _, _ => fix_error (BatchAlreadyStarted (id x) b)
      | None, Some _ => fix_error (BatchAlreadyFinished (id x) b)
      | None, None => stmt (λ _ t, ((), with_belongs (λ m, <[b := default [] (m !! b) ++ [id x]]> m) t))
      end
  end.

Definition new_fix (i : Id) (b component prototype : Id) (kind : ActionKind) : prog Fix :=
  x ← stmt (λ _ t, let x := {| id := i; component_id := component; action_prototype_id := prototype; action_kind := kind;
                               resource := None; started_at := None; finished_at := None; completion_status := None;
                               completion_message := None |} in
                   (x, with_fixes <[i := x]> t));
  _ ← set_fix_batch x b;
  mret x.

(** A request for a fix, with the id and the kind that the database gives it. *)
Record FixRunRequest := {
  request_fix_id : Id;
  request_kind : ActionKind;
  request_component_id : Id;
  request_action_prototype_id : Id;
}.

Fixpoint new_fixes (b : Id) (requests : list FixRunRequest) : prog (list FixItem) :=
  match requests with
  | [] => mret []
  | r :: requests =>
      x ← new_fix (request_fix_id r) b (request_component_id r) (request_action_prototype_id r) (request_kind r);
      items ← new_fixes b requests;
      mret ({| item_id := id x; item_component_id := request_component_id r;
               item_action_prototype_id := request_action_prototype_id r |} :: items)
  end.

(** The route [fix/run], for a user. *)
Definition run_fixes (b : Id) (author : string) (requests : list FixRunRequest) : prog Id :=
  batch ← new_batch b author;
  items ← new_fixes (batch_id batch) requests;
  _ ← enqueue_job {| job_fixes := items; job_batch_id := batch_id batch; job_started := false |};
  _ ← commit;
  mret (batch_id batch).

(** ** Listing *)

Record FixHistoryView := {
  view_id : Id;
  view_status : FixCompletionStatus;
  view_action_kind : ActionKind;
  view_resource : option ActionRunResult;
  view_started_at : option nat;
  view_finished_at : option nat;
}.

(** [Fix::history_view], less the names of component, schema and function. *)
Definition history_view (batch_timed_out : bool) (x : Fix) : FixHistoryView :=
  let resource := match resource x with
                  | Some r => Some r
                  | None => if batch_timed_out then
                              Some {| status := ResourceError; payload := None; message := Some "Execution timed-out"; logs := [] |}
                            else None
                  end in
  {| view_id := id x;
     view_status := match resource with
                    | None => Unstarted
                    | Some _ => default Failure (completion_status x)
                    end;
     view_action_kind := action_kind x;
     view_resource := resource;
     view_started_at := started_at x;
     view_finished_at := finished_at x |}.

(** The status of a batch in the route [fix/list]; [age] is in nanoseconds. *)
Definition listed_status (age : N) (b : FixBatch) : FixCompletionStatus * bool :=
  match batch_completion_status b with
  | Some c => (c, false)
  | None => if (5 * 60 * 1000000000 <? age)%N then (Failure, true) else (Unstarted, false)
  end.

Definition list_batch (age : N) (b : FixBatch) (xs : list Fix) : FixCompletionStatus * list FixHistoryView :=
  let '(c, batch_timed_out) := listed_status age b in (c, history_view batch_timed_out <$> xs).

End Fixes.
