(* ===== verification/FixTheorems.v ===== *)
(** * What becomes of a batch of fixes

    Theorems about [Fixes] when any number of requests and jobs run at the same time,
    their operations interleaved in any order, and whatever the database, the broker and
    the functions do: the actions of a batch are run at most once each and in the order
    in which they were asked for. *)

From S2P Require Import Prelude Fixes.
From Stdlib Require Import NArith Strings.String.
From stdpp Require Import base tactics list sets gmap strings.

Abbreviation Id := N (only parsing).

(** ** Programs *)

Lemma exec_bind w {A B} (m : prog A) (f : A → prog B) s :
  exec w (m ≫= f) s = match exec w m s with (Ok a, s') => exec w (f a) s' | (Err e, s') => (Err e, s') end.
Proof.
  revert s. induction m as [a|e|X o k IH]; intros s; cbn; [done|done|]. destruct (exec_op w o s) as [r s']. apply IH.
Qed.

Lemma exec_catch w {A} (m : prog A) s :
  exec w (catch m) s = let '(r, s') := exec w m s in (Ok r, s').
Proof.
  revert s. induction m as [a|e|X o k IH]; intros s; cbn; [done|done|]. destruct (exec_op w o s) as [r s']. apply IH.
Qed.

Lemma exec_perform w {X : Set} (o : Op X) s : exec w (perform o) s = exec_op w o s.
Proof. cbn. by destruct (exec_op w o s) as [[x|e] s']. Qed.

(** From [P], [m] ends with [Q] of its result, or fails with [E] of its error. *)
Definition hoare (w : World) {A} (P : Store → Prop) (m : prog A) (Q : A → Store → Prop)
    (E : JobConsumerError → Store → Prop) : Prop :=
  ∀ s, P s → match exec w m s with (Ok a, s') => Q a s' | (Err e, s') => E e s' end.

Section hoare.
Context (w : World).

Lemma hoare_ret {A} (a : A) P Q E : (∀ s, P s → Q a s) → hoare w P (mret a) Q E.
Proof. intros H s Hs. by apply H. Qed.

Lemma hoare_bind {A B} (m : prog A) (f : A → prog B) P Q R E :
  hoare w P m Q E → (∀ a, hoare w (Q a) (f a) R E) → hoare w P (m ≫= f) R E.
Proof.
  intros Hm Hf s Hs. specialize (Hm s Hs). rewrite exec_bind. destruct (exec w m s) as [[a|e] s']; [by apply Hf|done].
Qed.

Lemma hoare_seq {A B} (m : prog A) (k : prog B) P Q R E :
  hoare w P m (λ _, Q) E → hoare w Q k R E → hoare w P (m ≫= λ _, k) R E.
Proof. intros Hm Hk. eapply hoare_bind; [exact Hm|done]. Qed.

Lemma hoare_fail {A} e P (Q : A → Store → Prop) E : (∀ s, P s → E e s) → hoare w P (fail e) Q E.
Proof. intros H s Hs. by apply H. Qed.

Lemma hoare_catch {A} (m : prog A) P (Q : result JobConsumerError A → Store → Prop) E :
  hoare w P m (λ a, Q (Ok a)) (λ e, Q (Err e)) → hoare w P (catch m) Q E.
Proof. intros H s Hs. specialize (H s Hs). rewrite exec_catch. by destruct (exec w m s) as [[a|e] s']. Qed.

Lemma hoare_weaken {A} (m : prog A) P Q E P' Q' E' : hoare w P m Q E → (∀ s, P' s → P s) → (∀ a s, Q a s → Q' a s) →
  (∀ e s, E e s → E' e s) → hoare w P' m Q' E'.
Proof. intros Hm HP HQ HE s Hs. specialize (Hm s (HP s Hs)). destruct (exec w m s) as [[a|e] s']; auto. Qed.

End hoare.

(** ** What a program may still do *)

(** Rows have their own ids. *)
Definition rows_ok (t : Tables) : Prop := map_Forall (λ i x, id x = i) (fixes t).

(** The fixes that a program may still run, and the jobs that it may then put into the
    queue. *)
Record Rights := { to_run : list FixItem; to_queue : list FixesJob }.

(** Whatever the outside answers, [m] keeps the rows, runs and queues no more than it
    may, and ends with [Q] of its result and of what it may still do. *)
Fixpoint may {A} (m : prog A) (Q : result JobConsumerError A → Rights → Prop) (r : Rights) : Prop :=
  match m with
  | Ret a => Q (Ok a) r
  | Fail e => Q (Err e) r
  | Do o k =>
      (∀ e, may (k (Err e)) Q r) ∧
      match o in Op X return (result JobConsumerError X → Rights → Prop) → Prop with
      | Stmt f => λ K, ∀ now t, rows_ok t → rows_ok (f now t).2 ∧ K (Ok (f now t).1) r
      | Commit _ | Rollback => λ K, K (Ok ()) r
      | Execute None _ _ => λ K, ∀ x, K (Ok x) r
      | Execute (Some i) _ _ => λ K, ∃ item, to_run r = [item] ∧ item_id item = i ∧
          ∀ x, K (Ok x) {| to_run := []; to_queue := to_queue r |}
      | Enqueue job => λ K, to_queue r = [job] ∧ K (Ok ()) {| to_run := []; to_queue := [] |}
      end (λ x r, may (k x) Q r)
  end.

Lemma may_mono {A} (m : prog A) (Q Q' : result JobConsumerError A → Rights → Prop) r :
  (∀ x r, Q x r → Q' x r) → may m Q r → may m Q' r.
Proof.
  intros HQ. revert r. induction m as [a|e|X o k IH]; intros r; cbn; [apply HQ|apply HQ|].
  intros [He Ho]. split; [auto|]. destruct o as [A' f|b| |[i|] p c|job]; [| | | | |]; try (by auto).
  - intros now t Ht. destruct (Ho now t Ht). auto.
  - destruct Ho as (item & H1 & H2 & H3). exists item. auto.
  - destruct Ho. auto.
Qed.

Lemma may_bind {A B} (m : prog A) (f : A → prog B) (Q : result JobConsumerError B → Rights → Prop) r :
  may m (λ x r, match x with Ok a => may (f a) Q r | Err e => Q (Err e) r end) r → may (m ≫= f) Q r.
Proof.
  revert r. induction m as [a|e|X o k IH]; intros r; [done|done|]. intros [He Ho]. split; [intros e; by apply IH|].
  destruct o as [A' g|b| |[i|] p c|job]; try (by apply IH).
  - intros now t Ht. destruct (Ho now t Ht) as [? Hk]. split; [done|]. by apply IH.
  - destruct Ho as (item & H1 & H2 & H3). exists item. split_and!; [done|done|]. intros x. apply IH, H3.
  - intros x. apply IH, Ho.
  - destruct Ho as [H1 H2]. split; [done|]. by apply IH.
Qed.

Lemma may_catch {A} (m : prog A) (Q : result JobConsumerError (result JobConsumerError A) → Rights → Prop) r :
  may m (λ x, Q (Ok x)) r → may (catch m) Q r.
Proof.
  revert r. induction m as [a|e|X o k IH]; intros r; [done|done|]. intros [He Ho]. split; [intros e; by apply IH|].
  destruct o as [A' g|b| |[i|] p c|job]; try (by apply IH).
  - intros now t Ht. destruct (Ho now t Ht) as [? Hk]. split; [done|]. by apply IH.
  - destruct Ho as (item & H1 & H2 & H3). exists item. split_and!; [done|done|]. intros x. apply IH, H3.
  - intros x. apply IH, Ho.
  - destruct Ho as [H1 H2]. split; [done|]. by apply IH.
Qed.

(** The usual case: nothing is run or queued, and [Q] holds of what is returned. *)
Definition plain {A} (m : prog A) (Q : A → Prop) : Prop :=
  ∀ r, may m (λ x r', r' = r ∧ ∀ a, x = Ok a → Q a) r.

Lemma plain_may {A} (m : prog A) (Q : A → Prop) (R : result JobConsumerError A → Rights → Prop) r :
  plain m Q → (∀ a, Q a → R (Ok a) r) → (∀ e, R (Err e) r) → may m R r.
Proof.
  intros Hm Ha He. eapply may_mono; [|apply Hm]. intros [a|e] r' [-> HQ]; [by apply Ha, HQ|apply He].
Qed.

Lemma plain_ret {A} (a : A) (Q : A → Prop) : Q a → plain (mret a) Q.
Proof. intros Ha r. split; [done|]. by intros ? [= <-]. Qed.

Lemma plain_fail {A} e (Q : A → Prop) : plain (fail e) Q.
Proof. intros r. by split. Qed.

Lemma plain_bind {A B} (m : prog A) (f : A → prog B) (P : A → Prop) Q :
  plain m P → (∀ a, P a → plain (f a) Q) → plain (m ≫= f) Q.
Proof. intros Hm Hf r. apply may_bind. eapply plain_may; [exact Hm|intros a Ha; by apply Hf|done]. Qed.

Lemma plain_seq {A B} (m : prog A) (k : prog B) Q : plain m (λ _, True) → plain k Q → plain (m ≫= λ _, k) Q.
Proof. intros Hm Hk. eapply plain_bind; [exact Hm|done]. Qed.

Lemma plain_weaken {A} (m : prog A) (P Q : A → Prop) : plain m P → (∀ a, P a → Q a) → plain m Q.
Proof. intros Hm HPQ r. eapply plain_may; [exact Hm| |done]. intros a Ha. split; [done|]. intros ? [= <-]. auto. Qed.

Lemma plain_stmt {A : Set} (f : nat → Tables → A * Tables) (Q : A → Prop) :
  (∀ now t, rows_ok t → rows_ok (f now t).2 ∧ Q (f now t).1) → plain (stmt f) Q.
Proof.
  intros Hf r. split; [by intros e|]. intros now t Ht. destruct (Hf now t Ht) as [H1 H2]. split; [done|].
  split; [done|]. by intros a [= <-].
Qed.

Lemma plain_query {A : Set} (f : Tables → A) (Q : A → Prop) : (∀ t, rows_ok t → Q (f t)) → plain (query f) Q.
Proof. intros Hf. apply plain_stmt. intros now t Ht. split; [done|by apply Hf]. Qed.

Lemma plain_write f : (∀ t, fixes (f t) = fixes t) → plain (write f) (λ _, True).
Proof. intros Hf. apply plain_stmt. intros now t Ht. unfold rows_ok. cbn. by rewrite Hf. Qed.

Lemma plain_commit b : plain (perform (Commit b)) (λ _, True).
Proof. intros r. split; [by intros e|]. by split. Qed.

Lemma plain_rollback : plain (perform Rollback) (λ _, True).
Proof. intros r. split; [by intros e|]. by split. Qed.

(** Changing a column keeps the id. *)
Lemma plain_set_fix f x : (∀ now x, id (f now x) = id x) → plain (set_fix f x) (λ x', id x' = id x).
Proof.
  intros Hf. apply plain_stmt. intros now t Ht. split; [|by cbn]. intros i y. cbn. rewrite lookup_alter.
  case_decide; [|apply Ht]. intros (z & Hz & ->)%fmap_Some. rewrite Hf. by apply Ht in Hz as ->.
Qed.

Lemma plain_set_batch f b : plain (set_batch f b) (λ _, True).
Proof. by apply plain_stmt. Qed.

(** ** The parts of a job *)

Section job.
Context (w : World).

Lemma plain_stamp_started x : plain (stamp_started x) (λ x', id x' = id x).
Proof.
  unfold stamp_started. destruct (started_at x), (finished_at x); try apply plain_fail. by apply plain_set_fix.
Qed.

Lemma plain_stamp_finished c m res x : plain (stamp_finished c m res x) (λ x', id x' = id x).
Proof.
  unfold stamp_finished. destruct (started_at x); [|apply plain_fail].
  eapply plain_bind; [by apply plain_set_fix|]. intros x1 H1.
  eapply plain_bind; [by apply plain_set_fix|]. intros x2 H2.
  apply (plain_bind _ _ (λ x3, id x3 = id x)).
  - destruct m; [|apply plain_ret; congruence].
    eapply plain_weaken; [by apply plain_set_fix|]. cbn. congruence.
  - intros x3 H3. eapply plain_weaken; [by apply plain_set_fix|]. cbn. congruence.
Qed.

(** What follows the run of a function. *)
Lemma plain_keep_result c r : plain (keep_result w c r) (λ _, True).
Proof.
  unfold keep_result. eapply plain_bind; [by apply (plain_stmt _ (λ _, True))|]. intros [destroy|] _; [|apply plain_fail].
  apply plain_seq; [unfold clear_needs_destroy; destruct destroy, (payload r); try (by apply plain_ret); by apply plain_write|].
  apply (plain_bind _ _ (λ _, True)); [apply plain_seq; [by apply plain_write|by apply plain_ret]|].
  intros [] _; [by apply plain_write|by apply plain_ret].
Qed.

Lemma plain_refresh c : plain (refresh w c) (λ _, True).
Proof.
  unfold refresh. eapply plain_bind; [by apply (plain_stmt _ (λ _, True))|]. intros [p|] _; [|by apply plain_ret].
  apply plain_seq; [|by apply plain_ret]. unfold run_prototype. apply plain_seq; [by apply plain_write|].
  apply (plain_bind _ _ (λ _, True)).
  - intros r. split; [by intros e|]. intros x. by split.
  - intros [[r|]|e] _; [|by apply plain_ret|apply plain_fail]. apply plain_seq; [apply plain_keep_result|by apply plain_ret].
Qed.

(** What is left of a run after its first fix, whether or not its action was run. *)
Definition after_run (jobs : list FixesJob) (r : Rights) : Prop :=
  to_queue r = jobs ∧ length (to_run r) ≤ 1.

Lemma may_run_prototype item p c jobs : may (run_prototype w (Some (item_id item)) p c)
  (λ _, after_run jobs) {| to_run := [item]; to_queue := jobs |}.
Proof.
  unfold run_prototype. apply may_bind. eapply plain_may; [by apply plain_write| |by split; cbn].
  intros _ _. apply may_bind. split; [by intros e; split; cbn|]. exists item. split_and!; [done|done|]. intros x.
  cbn [may]. destruct x as [[res|]|e].
  - eapply plain_may; [apply plain_seq; [apply plain_keep_result|by apply (plain_ret _ (λ _, True))]|intros; split; cbn; by auto with lia..].
  - split; cbn; auto with lia.
  - split; cbn; auto with lia.
Qed.

Lemma may_run_fix p x item jobs : id x = item_id item →
  may (run_fix w p x) (λ _, after_run jobs) {| to_run := [item]; to_queue := jobs |}.
Proof.
  intros Hx. unfold run_fix. apply may_bind. eapply plain_may; [apply plain_stamp_started| |by split; cbn].
  intros x1 Hx1. cbn beta in Hx1. rewrite Hx1, Hx. apply may_bind, may_catch.
  eapply may_mono; [|apply may_run_prototype]. intros res r Hr. cbn.
  destruct res as [[res|]|e]; apply may_bind;
    (eapply plain_may; [apply plain_stamp_finished|intros x2 _; exact Hr|intros e'; exact Hr]).
Qed.

Lemma may_run_item b item jobs : may (run_item w b item) (λ _, after_run jobs) {| to_run := [item]; to_queue := jobs |}.
Proof.
  assert (∀ A (m : prog A) f r, after_run jobs r → plain m (λ _, True) → (∀ a, may (f a) (λ _ : result _ unit, after_run jobs) r) →
    may (m ≫= f) (λ _, after_run jobs) r) as Hplain.
  { intros A m f r Hr Hm Hf. apply may_bind. eapply plain_may; [exact Hm|intros a _; apply Hf|by intros e]. }
  assert (after_run jobs {| to_run := [item]; to_queue := jobs |}) as H0 by by split; cbn.
  unfold run_item. apply Hplain; [done|by apply plain_stmt|]. intros [[]|]; [done| |done].
  apply Hplain; [done|by apply plain_stmt|]. intros [kind|]; [|done].
  apply may_bind. eapply plain_may; [apply (plain_query _ (λ y, ∀ x, y = Some x → id x = item_id item))| |done].
  { intros t Ht x Hx. by apply Ht in Hx. }
  intros [x|] Hx; [|done]. apply may_bind. eapply may_mono; [|by apply may_run_fix; apply Hx].
  intros [[x1 res]|e] r Hr; [|done]. cbn beta iota. destruct (completion_status x1); [|done].
  apply Hplain; [done|by apply plain_write|]. intros _. apply Hplain; [done|apply plain_commit|]. intros _.
  apply Hplain; [done|apply plain_refresh|]. intros _. apply Hplain; [done|apply plain_commit|]. intros _.
  eapply plain_may; [by apply plain_write|done|done].
Qed.

Lemma plain_get_batch i : plain (get_batch i) (λ _, True).
Proof.
  unfold get_batch. eapply plain_bind; [by apply (plain_query _ (λ _, True))|].
  intros [b|] _; [by apply plain_ret|apply plain_fail].
Qed.

Lemma plain_batch_fixes b : plain (batch_fixes b) (λ _, True).
Proof. by apply plain_query. Qed.

Lemma plain_start i : plain (b ← get_batch i; _ ← batch_stamp_started b; mret ()) (λ _, True).
Proof.
  eapply plain_bind; [apply plain_get_batch|]. intros b _. apply plain_seq; [|by apply plain_ret].
  unfold batch_stamp_started. destruct (batch_started_at b), (batch_finished_at b); try apply plain_fail.
  eapply plain_bind; [apply plain_batch_fixes|]. intros [|y xs] _; [apply plain_fail|apply plain_set_batch].
Qed.

Lemma plain_finish_batch i : plain (finish_batch i) (λ _, True).
Proof.
  unfold finish_batch. eapply plain_bind; [apply plain_get_batch|]. intros b _.
  apply (plain_bind _ _ (λ _, True)); [|intros; by apply plain_write].
  unfold batch_stamp_finished. destruct (batch_started_at b); [|apply plain_fail].
  eapply plain_bind; [apply plain_set_batch|]. intros b1 _. eapply plain_bind; [apply plain_batch_fixes|]. intros xs _.
  destruct (batch_status xs Success); [|apply plain_fail]. apply plain_seq; [apply plain_set_batch|by apply plain_ret].
Qed.

(** ** A job *)

(** The job that a job leaves behind. *)
Definition follow_up (job : FixesJob) : list FixesJob :=
  match tail (job_fixes job) with
  | [] => []
  | rest => [{| job_fixes := rest; job_batch_id := job_batch_id job; job_started := true |}]
  end.

Definition rights (job : FixesJob) : Rights := {| to_run := take 1 (job_fixes job); to_queue := follow_up job |}.

Lemma may_run job : may (run w job) (λ _ _, True) (rights job).
Proof.
  assert (∀ A (m : prog A) r, plain m (λ _, True) → may m (λ _ _, True) r) as Hplain.
  { intros A m r Hm. by eapply plain_may; [exact Hm|..]. }
  unfold run. apply may_bind. eapply plain_may;
    [destruct (job_started job); [by apply (plain_ret _ (λ _, True))|apply plain_start]| |done].
  intros _ _. unfold rights, follow_up. destruct (job_fixes job) as [|item rest];
    [apply Hplain, plain_finish_batch|].
  cbn [take tail]. rewrite take_0. apply may_bind. eapply may_mono; [|apply may_run_item].
  intros [[]|e] r [Hq Hl]; [|done]. destruct rest as [|item' rest]; [apply Hplain, plain_finish_batch|].
  split; [done|]. split; [exact Hq|done].
Qed.

Lemma may_execute_job job : may (execute_job w job) (λ _ _, True) (rights job).
Proof.
  unfold execute_job. apply may_bind, may_catch. unfold run_job. apply may_bind.
  eapply may_mono; [|apply may_run].
  assert (∀ e r, may (A := unit) (_ ← perform Rollback; _ ← write (add_failure e); commit) (λ _ _, True) r) as Hfail.
  { intros e r. eapply plain_may; [|done|done]. apply plain_seq; [apply plain_rollback|].
    apply plain_seq; [by apply plain_write|apply plain_commit]. }
  intros [[]|e] r _; [|apply Hfail]. eapply plain_may; [apply (plain_commit false)|done|]. intros e. apply Hfail.
Qed.

(** ** Submitting a batch *)

Definition item_of (x : FixRunRequest) : FixItem :=
  {| item_id := request_fix_id x; item_component_id := request_component_id x;
     item_action_prototype_id := request_action_prototype_id x |}.

Definition job_of (b : Id) (requests : list FixRunRequest) : FixesJob :=
  {| job_fixes := item_of <$> requests; job_batch_id := b; job_started := false |}.

Lemma plain_set_fix_batch x b : plain (set_fix_batch x b) (λ _, True).
Proof.
  unfold set_fix_batch. eapply plain_bind; [by apply (plain_query _ (λ _, True))|].
  intros [batch|] _; [|apply plain_fail].
  destruct (batch_started_at batch), (batch_finished_at batch); try apply plain_fail. by apply plain_stmt.
Qed.

Lemma plain_new_fix i b c p k : plain (new_fix i b c p k) (λ x, id x = i).
Proof.
  unfold new_fix. eapply plain_bind; [apply (plain_stmt _ (λ x, id x = i))|].
  { intros now t Ht. split; [|done]. by apply map_Forall_insert_2. }
  intros x Hx. apply plain_seq; [apply plain_set_fix_batch|]. by apply plain_ret.
Qed.

Lemma plain_new_fixes b requests : plain (new_fixes b requests) (λ items, items = item_of <$> requests).
Proof.
  induction requests as [|x requests IH]; [by apply plain_ret|]. cbn [new_fixes].
  eapply plain_bind; [apply plain_new_fix|]. intros y Hy. eapply plain_bind; [exact IH|]. intros items ->.
  apply plain_ret. cbn beta in Hy. by rewrite Hy.
Qed.

Lemma may_run_fixes b a requests :
  may (run_fixes b a requests) (λ _ _, True) {| to_run := []; to_queue := [job_of b requests] |}.
Proof.
  unfold run_fixes. apply may_bind. eapply plain_may; [by apply (plain_stmt _ (λ x, batch_id x = b))| |done].
  intros batch Hb. cbn beta in Hb. subst b. apply may_bind. eapply plain_may; [apply plain_new_fixes| |done].
  intros items ->. apply may_bind. split; [done|]. split; [done|]. apply may_bind.
  by eapply plain_may; [apply (plain_commit false)|..].
Qed.

End job.

(** ** Requests and jobs at the same time *)

(** The next operation of a program: the fixes that it runs, the jobs that it puts into
    the queue, and the program that is left. It may fail without effect; a statement is
    answered as for some tables at some time, which may have changed in any way since the
    last one; a function returns anything. *)
Definition advances {A} (m : prog A) (run : list Id) (queued : list FixesJob) (m' : prog A) : Prop :=
  match m with
  | Do o k =>
      (run = [] ∧ queued = [] ∧ ∃ e, m' = k (Err e)) ∨
      match o in Op X return (result JobConsumerError X → prog A) → Prop with
      | Stmt f => λ k, run = [] ∧ queued = [] ∧ ∃ now t, rows_ok t ∧ m' = k (Ok (f now t).1)
      | Commit _ | Rollback => λ k, run = [] ∧ queued = [] ∧ m' = k (Ok ())
      | Execute fix_id _ _ => λ k, run = (match fix_id with Some i => [i] | None => [] end) ∧ queued = [] ∧
          ∃ x, m' = k (Ok x)
      | Enqueue job => λ k, run = [] ∧ queued = [job] ∧ m' = k (Ok ())
      end k
  | _ => False
  end.

(** The requests and jobs that are under way, the jobs that were put into the queue and
    that no server has taken yet, and the fixes whose actions were run. *)
Record System := {
  threads : list (prog unit);
  waiting : list FixesJob;
  acted : list Id;
}.

(** A job that is in the queue may be sent at any time, as any commit sends all of them,
    and then be taken by a server; it is taken at most once, and may get lost. Requests
    and jobs end, or are ended with their process. *)
Inductive transition (w : World) : System → System → Prop :=
| advance ts1 m ts2 ws ac run queued m' : advances m run queued m' →
    transition w {| threads := ts1 ++ m :: ts2; waiting := ws; acted := ac |}
      {| threads := ts1 ++ m' :: ts2; waiting := ws ++ queued; acted := ac ++ run |}
| take_job ts ws1 job ws2 ac :
    transition w {| threads := ts; waiting := ws1 ++ job :: ws2; acted := ac |}
      {| threads := ts ++ [execute_job w job]; waiting := ws1 ++ ws2; acted := ac |}
| lose_job ts ws1 job ws2 ac :
    transition w {| threads := ts; waiting := ws1 ++ job :: ws2; acted := ac |}
      {| threads := ts; waiting := ws1 ++ ws2; acted := ac |}
| end_thread ts1 m ts2 ws ac :
    transition w {| threads := ts1 ++ m :: ts2; waiting := ws; acted := ac |}
      {| threads := ts1 ++ ts2; waiting := ws; acted := ac |}.

Definition ids (requests : list FixRunRequest) : list Id := request_fix_id <$> requests.

(** The database gives new ids. *)
Definition fresh (subs : list (list FixRunRequest)) (requests : list FixRunRequest) : Prop :=
  NoDup (ids requests) ∧ ∀ R i, R ∈ subs → i ∈ ids requests → i ∉ ids R.

(** [reachable w subs s]: the requests [subs] were made, whether they were accepted or
    not, and any number of operations was done since. *)
Inductive reachable (w : World) : list (list FixRunRequest) → System → Prop :=
| reach_init : reachable w [] {| threads := []; waiting := []; acted := [] |}
| reach_submit subs s b author requests : reachable w subs s → fresh subs requests →
    reachable w (subs ++ [requests])
      {| threads := threads s ++ [_ ← run_fixes b author requests; mret ()]; waiting := waiting s; acted := acted s |}
| reach_transition subs s s' : reachable w subs s → transition w s s' → reachable w subs s'.

(** ** The order is kept *)




















(** ** One program at a time *)

Definition rows_stored (s : Store) : Prop := rows_ok (committed s) ∧ rows_ok (working s).

(** The system in which a store is. *)
Definition system_of (ts : list (prog unit)) (s : Store) : System :=
  {| threads := ts; waiting := sent s ++ queue s; acted := ran s |}.

Lemma lose_all w ts l1 l2 ac : rtc (transition w) {| threads := ts; waiting := l1 ++ l2; acted := ac |}
  {| threads := ts; waiting := l1; acted := ac |}.
Proof.
  induction l2 as [|job l2 IH]; [by rewrite app_nil_r|]. eapply rtc_l; [apply lose_job|exact IH].
Qed.

Lemma advance_last w ts m m' s s' run queued : advances m run queued m' →
  sent s' ++ queue s' = (sent s ++ queue s) ++ queued → ran s' = ran s ++ run →
  rtc (transition w) (system_of (ts ++ [m]) s) (system_of (ts ++ [m']) s').
Proof. intros Hm Hq Hr. unfold system_of. rewrite Hq, Hr. apply rtc_once. by apply (advance w ts m []). Qed.

Lemma commit_transitions w ts b k s : rows_stored s →
  rtc (transition w) (system_of (ts ++ [Do (Commit b) k]) s)
    (system_of (ts ++ [k (exec_commit w b s).1]) (exec_commit w b s).2) ∧ rows_stored (exec_commit w b s).2.
Proof.
  intros [Hc Hw]. unfold exec_commit. destruct (commits w (tick s)); cbn [fst snd].
  - split; [|done]. eapply (advance_last _ _ _ _ _ _ [] []); [right; split_and!; done| |by rewrite app_nil_r].
    cbn. by rewrite !app_nil_r.
  - split; [|done]. eapply (advance_last _ _ _ _ _ _ [] []); [left; eauto|by rewrite app_nil_r..].
  - split; [|done]. eapply (advance_last _ _ _ _ _ _ [] []); [left; eauto|by rewrite app_nil_r..].
  - split; [|done]. destruct b.
    + eapply (advance_last _ _ _ _ _ _ [] []); [left; eauto| |by rewrite app_nil_r]. cbn. by rewrite !app_nil_r.
    + etrans; [apply (lose_all w _ (sent s) (queue s))|]. apply rtc_once. unfold system_of. cbn.
      pose proof (advance w ts (Do (Commit false) k) [] (sent s) (ran s) [] [] (k (Ok ()))) as Ht.
      rewrite (app_nil_r (ran s)) in Ht. apply Ht. right. by split_and!.
Qed.

(** A program that is run alone is run in the system. *)
Lemma exec_transitions w ts (m : prog unit) : ∀ s r, may m (λ _ _, True) r → rows_stored s →
  ∃ m', rtc (transition w) (system_of (ts ++ [m]) s) (system_of (ts ++ [m']) (exec w m s).2) ∧
    rows_stored (exec w m s).2.
Proof.
  induction m as [a|e|X o k IH]; intros s r Hm Hs; [by eexists|by eexists|]. destruct Hm as [He Ho].
  cbn [exec]. destruct o as [A f|b| |[i|] p c|job].
  - cbn [exec_op]. destruct (refused w (tick s)).
    + match goal with |- context [exec w (k _) ?s1] => destruct (IH (Err Refused) s1 r (He _) Hs) as (m' & Ht & Hr) end.
      exists m'. split; [|done]. etrans; [|exact Ht]. eapply (advance_last _ _ _ _ _ _ [] []); [left; eauto|by rewrite app_nil_r..].
    + destruct (Ho (tick s) (working s) (proj2 Hs)) as [Hrows Hk]. destruct (f (tick s) (working s)) as [a t] eqn:Hf. cbn in Hk.
      match goal with |- context [exec w (k _) ?s1] => destruct (IH (Ok a) s1 r Hk) as (m' & Ht & Hr) end.
      { split; [apply Hs|done]. }
      exists m'. split; [|done]. etrans; [|exact Ht]. eapply (advance_last _ _ _ _ _ _ [] []); [right|by rewrite app_nil_r..].
      split_and!; [done|done|]. exists (tick s), (working s). rewrite Hf. split; [apply Hs|done].
  - destruct (commit_transitions w ts b k s Hs) as [H1 H2]. cbn [exec_op].
    destruct (exec_commit w b s) as [x s1]. cbn in H1, H2. destruct (IH x s1 r) as (m' & Ht & Hr); [|done|].
    { destruct x as [[]|e]; [exact Ho|apply He]. }
    exists m'. split; [|done]. by etrans.
  - cbn [exec_op]. match goal with |- context [exec w (k _) ?s1] => destruct (IH (Ok ()) s1 r Ho) as (m' & Ht & Hr) end.
    { split; apply Hs. }
    exists m'. split; [|done]. etrans; [|exact Ht].
    eapply (advance_last _ _ _ _ _ _ [] []); [right; by split_and!|by rewrite app_nil_r..].
  - destruct Ho as (item & _ & _ & Ho). cbn [exec_op].
    match goal with |- context [exec w (k (Ok ?x)) ?s1] => destruct (IH (Ok x) s1 _ (Ho _) Hs) as (m' & Ht & Hr) end.
    exists m'. split; [|done]. etrans; [|exact Ht].
    eapply (advance_last _ _ _ _ _ _ [i] []); [right; split_and!; eauto|cbn; by rewrite ?app_nil_r|cbn; by rewrite ?app_nil_r].
  - cbn [exec_op]. match goal with |- context [exec w (k (Ok ?x)) ?s1] => destruct (IH (Ok x) s1 r (Ho _) Hs) as (m' & Ht & Hr) end.
    exists m'. split; [|done]. etrans; [|exact Ht].
    eapply (advance_last _ _ _ _ _ _ [] []); [right; split_and!; eauto|cbn; by rewrite ?app_nil_r|cbn; by rewrite ?app_nil_r].
  - destruct Ho as [_ Ho]. cbn [exec_op].
    match goal with |- context [exec w (k _) ?s1] => destruct (IH (Ok ()) s1 _ Ho Hs) as (m' & Ht & Hr) end.
    exists m'. split; [|done]. etrans; [|exact Ht].
    eapply (advance_last _ _ _ _ _ _ [] [job]); [right; by split_and!|cbn; by rewrite (assoc_L (++))|by rewrite app_nil_r].
Qed.

Lemma transitions_reachable w subs s s' : rtc (transition w) s s' → reachable w subs s → reachable w subs s'.
Proof. induction 1 as [|s s1 s2 Ht _ IH]; [done|]. intros Hr. by eapply IH, reach_transition. Qed.

(** A thread runs in a transaction of its own, and ends. *)
Lemma alone_reachable w subs (m : prog unit) s r : may m (λ _ _, True) r → rows_ok (committed s) →
  reachable w subs (system_of [m] s) →
  reachable w subs (system_of [] (in_transaction w m s).2) ∧ rows_ok (committed (in_transaction w m s).2).
Proof.
  intros Hm Hs Hr. unfold in_transaction.
  set (s0 := {| committed := committed s; working := committed s; queue := queue s; sent := sent s; tick := tick s; ran := ran s |}).
  destruct (exec_transitions w [] m s0 r Hm) as (m' & Ht & Hrows); [by split|].
  destruct (exec w m s0) as [x s1]. cbn in Ht, Hrows |- *. split; [|apply Hrows].
  eapply transitions_reachable; [|exact Hr]. etrans; [exact Ht|]. apply rtc_once. apply (end_thread w [] m' []).
Qed.

(** Jobs that are taken one at a time are runs of the system. *)
Lemma step_reachable w subs s : rows_ok (committed s) → reachable w subs (system_of [] s) →
  reachable w subs (system_of [] (step w s)) ∧ rows_ok (committed (step w s)).
Proof.
  intros Hs Hr. unfold step. destruct (sent s) as [|job rest] eqn:Hsent; [done|].
  eapply alone_reachable; [apply may_execute_job|done|]. eapply reach_transition; [exact Hr|].
  unfold system_of. rewrite Hsent. apply (take_job w [] [] job).
Qed.

Lemma submit_reachable w subs s b author requests : fresh subs requests → rows_ok (committed s) →
  reachable w subs (system_of [] s) →
  reachable w (subs ++ [requests]) (system_of [] (in_transaction w (run_fixes b author requests) s).2) ∧
  rows_ok (committed (in_transaction w (run_fixes b author requests) s).2).
Proof.
  intros Hf Hs Hr. pose proof (reach_submit w subs _ b author requests Hr Hf) as Hsub. cbn in Hsub.
  assert (may (run_fixes b author requests ≫= λ _, mret ()) (λ _ _, True)
    {| to_run := []; to_queue := [job_of b requests] |}) as Hm.
  { apply may_bind. eapply may_mono; [|apply may_run_fixes]. by intros []. }
  destruct (alone_reachable w (subs ++ [requests]) _ s _ Hm Hs Hsub) as [H1 H2].
  assert ((in_transaction w (run_fixes b author requests ≫= λ _, mret ()) s).2 =
    (in_transaction w (run_fixes b author requests) s).2) as Heq.
  { unfold in_transaction. rewrite exec_bind. by destruct (exec w _ _) as [[] ?]. }
  by rewrite Heq in H1, H2.
Qed.

