(* ===== verification/FixOutcome.v ===== *)
(** * How a batch of fixes ends

    Theorems about [Fixes] when the database refuses nothing: every fix of a batch is
    run, and the batch ends with the worst of their outcomes; a fix whose component was
    destroyed ends the run of its batch, which is never finished. *)

From S2P Require Import Prelude Fixes FixTheorems.
From Stdlib Require Import NArith Strings.String.
From stdpp Require Import base tactics list sets gmap strings.

Abbreviation Id := N (only parsing).

(** ** What a run is meant to do *)

(** The outcome of an action, its result and its message. *)
Definition outcome (r : result string (option ActionRunResult)) : FixCompletionStatus :=
  match r with
  | Ok (Some x) => match status x with ResourceError => Failure | _ => Success end
  | _ => Error
  end.

Definition result_of (r : result string (option ActionRunResult)) : option ActionRunResult :=
  match r with Ok (Some x) => Some x | _ => None end.

(** Errors before failures before successes. *)
Definition worst (l : list FixCompletionStatus) : FixCompletionStatus :=
  if decide (Error ∈ l) then Error else if decide (Failure ∈ l) then Failure else Success.


Section Outcome.
Context (w : World) (kind : Id → ActionKind).

(** Nothing is refused, the actions are there, and refreshes do not fail. *)
Record obliging : Prop := {
  nothing_refused : ∀ now, refused w now = false;
  all_committed : ∀ now, commits w now = Committed;
  actions_found : ∀ now p, action_prototype w now p = Some (kind p);
  always_refreshed : ∀ now p c, ∃ r, run_refresh w now p c = Ok r;
}.

Definition action_result (x : FixRunRequest) : result string (option ActionRunResult) :=
  run_action w (request_fix_id x) (request_action_prototype_id x) (request_component_id x).

Definition status_of (x : FixRunRequest) : FixCompletionStatus := outcome (action_result x).

Definition output_of (x : FixRunRequest) : list string :=
  match result_of (action_result x) with Some r => logs r ≫= split_lines | None => [] end.

(** The message of an action that ended with an error is that of the error. *)
Definition message_of (r : result string (option ActionRunResult)) : option string :=
  match r with
  | Ok (Some x) => message x
  | Ok None => Some "Fix did not return a value"
  | Err e => Some (explain w (ActionFailed e))
  end.

(** *** What is kept of a result *)

Definition kept (c : Id) (r : option ActionRunResult) (m : gmap Id ActionRunResult) : gmap Id ActionRunResult :=
  match r with Some r => <[c := r]> m | None => m end.

(** A component without a payload is no longer to be destroyed. *)
Definition spared (c : Id) (r : option ActionRunResult) (d : gset Id) : gset Id :=
  match r with
  | Some r => match payload r with None => d ∖ {[c]} | Some _ => d end
  | None => d
  end.

Definition heard (c : Id) (r : option ActionRunResult) : list WsEvent :=
  match r with Some _ => [ResourceRefreshed c] | None => [] end.

(** A fix that has been run, with what the refresh after it returned. *)
Abbreviation Done := (FixRunRequest * option ActionRunResult)%type.

Definition results (z : Done) : list (option ActionRunResult) := [result_of (action_result z.1); z.2].

Definition resources_after (pre : list Done) (m : gmap Id ActionRunResult) : gmap Id ActionRunResult :=
  foldl (λ m z, foldl (λ m r, kept (request_component_id z.1) r m) m (results z)) m pre.

Definition spared_after (pre : list Done) (d : gset Id) : gset Id :=
  foldl (λ d z, foldl (λ d r, spared (request_component_id z.1) r d) d (results z)) d pre.

Definition returned (b : Id) (x : FixRunRequest) : WsEvent :=
  FixReturn (request_fix_id x) b (kind (request_action_prototype_id x)) (status_of x) (output_of x).

(** What the frontend is told of a fix. *)
Definition told (b : Id) (z : Done) : list WsEvent :=
  (results z ≫= heard (request_component_id z.1)) ++ [returned b z.1].

Definition is_fix (x : FixRunRequest) (y : Fix) : Prop :=
  id y = request_fix_id x ∧ component_id y = request_component_id x.

Definition pending (x : FixRunRequest) (y : Fix) : Prop :=
  is_fix x y ∧ started_at y = None ∧ finished_at y = None ∧ resource y = None ∧ completion_status y = None ∧
  completion_message y = None.

Definition running (x : FixRunRequest) (y : Fix) : Prop :=
  is_fix x y ∧ is_Some (started_at y) ∧ completion_message y = None.

Definition settled (x : FixRunRequest) (y : Fix) : Prop :=
  is_fix x y ∧ is_Some (started_at y) ∧ is_Some (finished_at y) ∧ completion_status y = Some (status_of x) ∧
  resource y = result_of (action_result x) ∧ completion_message y = message_of (action_result x).

(** ** Runs without refusals *)

(** Between two operations: the rows that are committed and those of the transaction,
    the queue, the jobs that were sent, and what was run. *)
Definition at_ (c t : Tables) (q st : list FixesJob) (r : list Id) (s : Store) : Prop :=
  committed s = c ∧ working s = t ∧ queue s = q ∧ sent s = st ∧ ran s = r.

Definition never (_ : JobConsumerError) (_ : Store) : Prop := False.

Lemma hoare_ex {A B} (m : prog A) (P : B → Store → Prop) Q E : (∀ b, hoare w (P b) m Q E) → hoare w (λ s, ∃ b, P b s) m Q E.
Proof. intros H s [b Hb]. by apply (H b). Qed.

Lemma hoare_and {A} (m : prog A) (X : Prop) P Q E : (X → hoare w P m Q E) → hoare w (λ s, X ∧ P s) m Q E.
Proof. intros H s [HX Hs]. by apply H. Qed.

Hypothesis Hw : obliging.

Lemma ok_stmt {A : Set} (f : nat → Tables → A * Tables) c t q st r E :
  hoare w (at_ c t q st r) (stmt f) (λ a s, ∃ now, a = (f now t).1 ∧ at_ c (f now t).2 q st r s) E.
Proof.
  intros s (Hc & Ht & Hq & Hst & Hr). unfold stmt. rewrite exec_perform. cbn [exec_op]. rewrite (nothing_refused Hw), Ht.
  destruct (f (tick s) t) as [a t'] eqn:He. exists (tick s). rewrite He. by split_and!.
Qed.

Lemma ok_write f c t q st r E : hoare w (at_ c t q st r) (write f) (λ _, at_ c (f t) q st r) E.
Proof. eapply hoare_weaken; [apply (ok_stmt _ c t q st r E)|done| |done]. by intros a s (now & _ & ?). Qed.

Lemma ok_query {A : Set} (f : Tables → A) c t q st r E :
  hoare w (at_ c t q st r) (query f) (λ a s, a = f t ∧ at_ c t q st r s) E.
Proof. eapply hoare_weaken; [apply (ok_stmt _ c t q st r E)|done| |done]. by intros a s (now & ? & ?). Qed.

Lemma ok_commit b c t q st r E : hoare w (at_ c t q st r) (perform (Commit b)) (λ _, at_ t t [] (st ++ q) r) E.
Proof.
  intros s (Hc & Ht & Hq & Hst & Hr). rewrite exec_perform. cbn [exec_op]. unfold exec_commit. rewrite (all_committed Hw).
  split_and!; cbn; congruence.
Qed.

Lemma ok_enqueue job c t q st r E : hoare w (at_ c t q st r) (enqueue_job job) (λ _, at_ c t (q ++ [job]) st r) E.
Proof. intros s (Hc & Ht & Hq & Hst & Hr). unfold enqueue_job. rewrite exec_perform. split_and!; cbn; congruence. Qed.

(** ** An action *)

(** A component that is there. *)
Definition present (c : Id) : Prop := ∀ now, component_destroyed w now c = Some false.

Definition keep (c : Id) (r : option ActionRunResult) (t : Tables) : Tables :=
  with_events (λ es, es ++ heard c r) (with_resources (kept c r) (with_needs_destroy (spared c r) t)).

Lemma keep_none c t : keep c None t = t.
Proof. destruct t. unfold keep, with_events, with_resources, with_needs_destroy. cbn. by rewrite app_nil_r. Qed.

Lemma ok_keep_result i res c t q st r E : present i →
  hoare w (at_ c t q st r) (keep_result w i res) (λ _, at_ c (keep i (Some res) t) q st r) E.
Proof.
  intros Hi. unfold keep_result. eapply hoare_bind; [apply ok_stmt|]. intros found. apply hoare_ex. intros now.
  apply hoare_and. cbn [fst snd]. rewrite Hi. intros ->. cbn [option_map].
  eapply (hoare_seq _ _ _ _ (at_ c (with_needs_destroy (spared i (Some res)) t) q st r)).
  - unfold clear_needs_destroy. case_bool_decide as Hd; destruct (payload res) as [p|] eqn:Hp; cbn [spared].
    1,3,4: apply hoare_ret; intros s Hs; replace (with_needs_destroy _ t) with t; [done|];
      clear Hs; destruct t; unfold with_needs_destroy; cbn in *; rewrite ?Hp; f_equal; try done.
    + set_solver.
    + eapply hoare_weaken; [apply (ok_write _ c t q st r E)|done| |done]. intros a s Hs.
      replace (with_needs_destroy (spared i (Some res)) t) with (with_needs_destroy (λ d, d ∖ {[i]}) t); [done|].
      unfold with_needs_destroy, spared. by rewrite Hp.
  - apply (hoare_bind _ _ _ _ (λ changed s, changed = true ∧
      at_ c (with_resources <[i:=res]> (with_needs_destroy (spared i (Some res)) t)) q st r s)).
    + unfold component_set_resource. eapply hoare_seq; [apply ok_write|]. by apply hoare_ret.
    + intros changed. apply hoare_and. intros ->. by eapply hoare_weaken; [apply ok_write|..].
Qed.

(** What a function returned, if it returned at all. *)
Lemma ok_run_prototype fix_id p i c t q st r : present i →
  hoare w (at_ c t q st r) (run_prototype w fix_id p i)
    (λ a s, (∃ now, match fix_id with Some x => run_action w x p i | None => run_refresh w now p i end = Ok a) ∧
       at_ c (keep i a t) q st (r ++ match fix_id with Some x => [x] | None => [] end) s)
    (λ e s, (∃ now m, match fix_id with Some x => run_action w x p i | None => run_refresh w now p i end = Err m ∧
         e = ActionFailed m) ∧
       at_ c t q st (r ++ match fix_id with Some x => [x] | None => [] end) s).
Proof.
  intros Hi. unfold run_prototype. eapply hoare_seq; [apply ok_write|].
  eapply (hoare_bind _ _ _ _ (λ x s, (∃ now, match fix_id with Some x => run_action w x p i | None => run_refresh w now p i end = x) ∧
    at_ c t q st (r ++ match fix_id with Some x => [x] | None => [] end) s)).
  { intros s (Hc & Ht & Hq & Hst & Hr). rewrite exec_perform. cbn [exec_op]. split; [by exists (tick s)|].
    split_and!; cbn; congruence. }
  intros x. apply hoare_and. intros [now Hx]. destruct x as [[res|]|m].
  - eapply hoare_seq; [by apply ok_keep_result|]. apply hoare_ret. eauto.
  - apply hoare_ret. intros s Hs. rewrite keep_none. eauto.
  - apply hoare_fail. eauto.
Qed.

Lemma ok_refresh i c t q st r : present i → hoare w (at_ c t q st r) (refresh w i)
  (λ _ s, ∃ f, at_ c (keep i f t) q st r s) never.
Proof.
  intros Hi. unfold refresh. eapply hoare_bind; [apply ok_stmt|]. intros action. apply hoare_ex. intros now.
  apply hoare_and. cbn [fst snd]. intros ->. destruct (refresh_action w now i) as [p|].
  - eapply hoare_bind; [|intros f; apply hoare_ret; intros s Hs; exists f; exact Hs].
    eapply hoare_weaken; [by apply (ok_run_prototype None p)|done| |].
    + intros f s [_ Hs]. by rewrite app_nil_r in Hs.
    + intros e s [(now' & m & Hm & _) _]. destruct (always_refreshed Hw now' p i) as [f Hf]. congruence.
  - apply hoare_ret. intros s Hs. exists None. by rewrite keep_none.
Qed.

(** ** A fix *)

Definition put_fix (y : Fix) : Tables → Tables := with_fixes <[id y := y]>.

Lemma put_fix_id y t : fixes t !! id y = Some y → put_fix y t = t.
Proof. intros H. unfold put_fix, with_fixes. rewrite insert_id by done. by destruct t. Qed.

(** The row and the object stay the same. *)
Lemma ok_set_fix f y c t q st r : (∀ now, id (f now y) = id y) →
  hoare w (at_ c (put_fix y t) q st r) (set_fix f y)
    (λ y' s, (∃ now, y' = f now y) ∧ at_ c (put_fix y' t) q st r s) never.
Proof.
  intros Hf. eapply hoare_weaken; [apply (ok_stmt _ c (put_fix y t) q st r never)|done| |done].
  intros a s (now & -> & Hs). cbn in *. split; [by exists now|]. unfold put_fix, with_fixes in *. cbn in *. rewrite Hf.
  by rewrite alter_insert_eq in Hs.
Qed.

Lemma ok_stamp_started x y c t q st r : pending x y →
  hoare w (at_ c (put_fix y t) q st r) (stamp_started y) (λ y' s, running x y' ∧ at_ c (put_fix y' t) q st r s) never.
Proof.
  intros ((Hi & Hc) & H1 & H2 & _ & _ & H3). unfold stamp_started. rewrite H1, H2.
  eapply hoare_weaken; [by apply ok_set_fix|done| |done]. intros y' s [[now ->] Hs]. split; [|done].
  split_and!; cbn; [|done|done]. by split.
Qed.

Lemma ok_stamp_finished o m res y c t q st r : is_Some (started_at y) → completion_message y = None →
  hoare w (at_ c (put_fix y t) q st r) (stamp_finished o m res y)
    (λ y' s, (id y' = id y ∧ component_id y' = component_id y ∧ is_Some (started_at y') ∧ is_Some (finished_at y') ∧
              completion_status y' = Some o ∧ resource y' = res ∧ completion_message y' = m) ∧
             at_ c (put_fix y' t) q st r s) never.
Proof.
  intros Hst Hm. unfold stamp_finished. destruct (started_at y) eqn:Hn; [|by destruct Hst]. rewrite <- Hn in Hst.
  eapply hoare_bind; [by apply ok_set_fix|]. intros y1. apply hoare_and. intros [now1 ->].
  eapply hoare_bind; [by apply ok_set_fix|]. intros y2. apply hoare_and. intros [now2 ->].
  eapply (hoare_bind _ _ _ _ (λ y3 s, (id y3 = id y ∧ component_id y3 = component_id y ∧ is_Some (started_at y3) ∧
    is_Some (finished_at y3) ∧ completion_status y3 = Some o ∧ completion_message y3 = m) ∧ at_ c (put_fix y3 t) q st r s)).
  - destruct m as [m|]; [|apply hoare_ret; intros s Hs; split_and!; try done; by eexists].
    eapply hoare_weaken; [by apply ok_set_fix|done| |done]. intros y3 s [[now3 ->] Hs]. split_and!; try done; by eexists.
  - intros y3. apply hoare_and. intros (Hi & Hc & H1 & H2 & H3 & H4).
    eapply hoare_weaken; [by apply ok_set_fix|done| |done]. intros y4 s [[now4 ->] Hs]. by split_and!.
Qed.

Lemma ok_run_fix x y c t q st r : present (request_component_id x) → pending x y →
  hoare w (at_ c (put_fix y t) q st r) (run_fix w (request_action_prototype_id x) y)
    (λ z s, (settled x z.1 ∧ z.2 = result_of (action_result x)) ∧
       at_ c (put_fix z.1 (keep (request_component_id x) (result_of (action_result x)) t)) q st (r ++ [request_fix_id x]) s)
    never.
Proof.
  intros Hx Hy. unfold run_fix. eapply hoare_bind; [by apply (ok_stamp_started x)|].
  intros y1. apply hoare_and. intros ((Hi & Hc) & Hs & Hm). rewrite Hi, Hc.
  set (t' := keep (request_component_id x) (result_of (action_result x)) t).
  eapply (hoare_bind _ _ _ _ (λ a s, match a with
    | Ok o => action_result x = Ok o
    | Err e => ∃ m, action_result x = Err m ∧ e = ActionFailed m
    end ∧ at_ c (put_fix y1 t') q st (r ++ [request_fix_id x]) s)).
  { apply hoare_catch. eapply hoare_weaken; [by apply (ok_run_prototype (Some _))|done|..]; cbn beta iota.
    - intros o s [[_ Ho] Hat]. split; [done|]. unfold t', action_result. rewrite Ho. by destruct o.
    - intros e s [(_ & m & Ho & ->) Hat]. split; [eauto|]. unfold t', action_result. rewrite Ho. cbn [result_of].
      by rewrite keep_none. }
  intros res. apply hoare_and. intros Hres.
  assert (Hend : ∀ o m z, o = status_of x → m = message_of (action_result x) → z = result_of (action_result x) →
    hoare w (at_ c (put_fix y1 t') q st (r ++ [request_fix_id x])) (y2 ← stamp_finished o m z y1; mret (y2, z))
      (λ z s, (settled x z.1 ∧ z.2 = result_of (action_result x)) ∧
         at_ c (put_fix z.1 t') q st (r ++ [request_fix_id x]) s) never).
  { intros o m z -> -> ->. eapply hoare_bind; [by apply ok_stamp_finished|]. intros y2. apply hoare_and.
    intros (E1 & E2 & H1 & H2 & H3 & H4 & H5). apply hoare_ret.
    intros s Hat. cbn. split; [|done]. split; [|done]. split_and!; try done. split; congruence. }
  unfold status_of in Hend. clearbody t'. destruct res as [[a|]|e].
  3: destruct Hres as (m & Hres & ->). all: rewrite Hres in *; by apply Hend.
Qed.

Definition resolver_of (x : FixRunRequest) : FixResolver :=
  {| resolver_action_prototype_id := request_action_prototype_id x; success := Some (bool_decide (status_of x = Success));
     last_fix_id := request_fix_id x |}.

(** The component of a request is there. *)
Definition alive (x : FixRunRequest) : Prop := present (request_component_id x).

(** The tables after a fix. *)
Definition fixed (b : Id) (z : Done) (y : Fix) (t : Tables) : Tables :=
  add_event (returned b z.1) (keep (request_component_id z.1) z.2 (add_resolver (resolver_of z.1)
    (put_fix y (keep (request_component_id z.1) (result_of (action_result z.1)) t)))).

Lemma ok_run_item b x y c t st r : alive x → fixes t !! request_fix_id x = Some y → pending x y →
  hoare w (at_ c t [] st r) (run_item w b (item_of x))
    (λ _ s, ∃ f y' c', settled x y' ∧ at_ c' (fixed b (x, f) y' t) [] st (r ++ [request_fix_id x]) s) never.
Proof.
  intros Ha Ht Hy. unfold run_item. cbn [item_of item_id item_component_id item_action_prototype_id].
  eapply hoare_bind; [apply ok_stmt|]. intros d. apply hoare_ex. intros now1. apply hoare_and. cbn [fst snd]. rewrite Ha. intros ->.
  eapply hoare_bind; [apply ok_stmt|]. intros k. apply hoare_ex. intros now2. apply hoare_and. cbn [fst snd].
  rewrite (actions_found Hw). intros ->.
  eapply hoare_bind; [apply ok_query|]. intros z. apply hoare_and. rewrite Ht. intros ->.
  assert (Hid : id y = request_fix_id x) by apply Hy. rewrite <- Hid in Ht.
  rewrite <- (put_fix_id y t Ht) at 1. eapply hoare_bind; [by apply ok_run_fix|].
  intros [y' res]. apply hoare_and. cbn [fst snd]. intros [Hs ->].
  pose proof Hs as ((Hi & _) & _ & _ & Hc & _). rewrite Hc, Hi.
  eapply hoare_seq; [apply ok_write|]. eapply hoare_seq; [apply ok_commit|]. rewrite app_nil_r.
  eapply hoare_seq; [by apply ok_refresh|]. apply hoare_ex. intros f. eapply hoare_seq; [apply ok_commit|]. rewrite app_nil_r.
  eapply hoare_weaken; [apply ok_write|done| |done].
  intros a s Hat. exists f, y'. eexists. split; [exact Hs|exact Hat].
Qed.

(** ** A batch *)

(** The tables, when the fixes [pre] of the batch have been run, and [post] have not;
    [t0] are the tables before. *)
Record stage (t0 : Tables) (b : Id) (pre : list Done) (post : list FixRunRequest) (B : FixBatch → Prop)
    (ev : list WsEvent) (t : Tables) : Prop := {
  stage_settled : ∀ x, x ∈ pre.*1 → ∃ y, fixes t !! request_fix_id x = Some y ∧ settled x y;
  stage_pending : ∀ x, x ∈ post → ∃ y, fixes t !! request_fix_id x = Some y ∧ pending x y;
  stage_others : ∀ i, i ∉ request_fix_id <$> pre.*1 ++ post → fixes t !! i = fixes t0 !! i;
  stage_belongs : default [] (belongs t !! b) = request_fix_id <$> pre.*1 ++ post;
  stage_other_belongs : ∀ b', b' ≠ b → belongs t !! b' = belongs t0 !! b';
  stage_batch : ∃ bt, batches t !! b = Some bt ∧ batch_id bt = b ∧ B bt;
  stage_other_batches : ∀ b', b' ≠ b → batches t !! b' = batches t0 !! b';
  stage_resolvers : resolvers t = resolvers t0 ++ (resolver_of <$> pre.*1);
  stage_resources : resources t = resources_after pre (resources t0);
  stage_needs_destroy : needs_destroy t = spared_after pre (needs_destroy t0);
  stage_events : events t = events t0 ++ (pre ≫= told b) ++ ev;
  stage_failures : failures t = failures t0;
}.

Definition open_batch (started : bool) (bt : FixBatch) : Prop :=
  (if started then is_Some (batch_started_at bt) else batch_started_at bt = None) ∧
  batch_finished_at bt = None ∧ batch_completion_status bt = None.

(** A fix more has been run. *)
Lemma stage_next t0 b pre z post B t y : NoDup (request_fix_id <$> pre.*1 ++ z.1 :: post) →
  stage t0 b pre (z.1 :: post) B [] t → settled z.1 y → stage t0 b (pre ++ [z]) post B [] (fixed b z y t).
Proof.
  destruct z as [x f]. cbn [fst]. intros Hnd [H1 H2 H3 H4 H5 H6 H7 H8 H9 H10 H11 H12] Hy.
  assert (Hid : id y = request_fix_id x) by apply Hy.
  assert (Hne : ∀ z, z ∈ pre.*1 ∨ z ∈ post → request_fix_id x ≠ request_fix_id z).
  { rewrite fmap_app, fmap_cons in Hnd. apply NoDup_app in Hnd as (_ & Hd & Hn). apply NoDup_cons in Hn as [Hn _].
    intros z [Hz|Hz] He; [apply (Hd (request_fix_id z)); [by apply list_elem_of_fmap_2|rewrite He; left]|].
    apply Hn. rewrite He. by apply list_elem_of_fmap_2. }
  split; cbn; rewrite ?fmap_app; cbn; rewrite ?Hid; try done.
  - intros z [Hz|Hz%list_elem_of_singleton]%elem_of_app; [|subst; exists y; by rewrite lookup_insert_eq].
    rewrite lookup_insert_ne by eauto. by apply H1.
  - intros z Hz. rewrite lookup_insert_ne by eauto. apply H2. by right.
  - intros i. rewrite <-(assoc_L (++)). cbn. intros Hi. rewrite lookup_insert_ne; [apply H3; by rewrite fmap_app|].
    intros <-. apply Hi, elem_of_app. right. left.
  - rewrite H4, fmap_app. cbn. by rewrite <-(assoc_L (++)).
  - by rewrite H8, <-(assoc_L (++)).
  - unfold resources_after. rewrite foldl_app, H9. done.
  - unfold spared_after. rewrite foldl_app, H10. done.
  - rewrite H11, bind_app. cbn. unfold told. cbn. by rewrite !app_nil_r, <-!(assoc_L (++)).
Qed.

(** Only the row of the batch changes. *)
Lemma stage_set_batch t0 b pre post B B' ev t f bt : stage t0 b pre post B ev t → batches t !! b = Some bt →
  batch_id (f bt) = b → B' (f bt) → stage t0 b pre post B' ev (with_batches (alter f b) t).
Proof.
  intros [H1 H2 H3 H4 H5 H6 H7 H8 H9 H10 H11 H12] Hb Hid HB. split; cbn; try done.
  - exists (f bt). by rewrite lookup_alter_eq, Hb.
  - intros b' Hne. rewrite lookup_alter_ne by done. by apply H7.
Qed.

Lemma stage_event t0 b pre post B ev e t : stage t0 b pre post B ev t → stage t0 b pre post B (ev ++ [e]) (add_event e t).
Proof.
  intros [H1 H2 H3 H4 H5 H6 H7 H8 H9 H10 H11 H12]. split; cbn; try done. by rewrite H11, <- !app_assoc.
Qed.

(** The fixes of a batch are found. *)
Lemma found_fixes (R : FixRunRequest → Fix → Prop) (m : gmap Id Fix) xs :
  (∀ x, x ∈ xs → ∃ y, m !! request_fix_id x = Some y ∧ R x y) →
  Forall2 R xs (omap (λ i, m !! i) (request_fix_id <$> xs)).
Proof.
  induction xs as [|x xs IH]; intros H; [constructor|]. destruct (H x ltac:(left)) as (y & Hy & HR). cbn. rewrite Hy.
  constructor; [done|]. apply IH. intros z Hz. apply H. by right.
Qed.

Lemma ok_get_batch b bt c t q st r : batches t !! b = Some bt →
  hoare w (at_ c t q st r) (get_batch b) (λ a s, a = bt ∧ at_ c t q st r s) never.
Proof.
  intros Hb. unfold get_batch. eapply hoare_bind; [apply ok_query|]. intros o. apply hoare_and. rewrite Hb. intros ->. by apply hoare_ret.
Qed.

Lemma ok_batch_fixes bt ids c t q st r : default [] (belongs t !! batch_id bt) = ids →
  hoare w (at_ c t q st r) (batch_fixes bt) (λ a s, a = omap (λ i, fixes t !! i) ids ∧ at_ c t q st r s) never.
Proof.
  intros Hb. eapply hoare_weaken; [apply (ok_query _ c t q st r never)|done| |done]. intros a s [-> Hs]. by rewrite <- Hb.
Qed.

Lemma ok_set_batch f bt c t q st r : hoare w (at_ c t q st r) (set_batch f bt)
  (λ bt' s, ∃ now, bt' = f now bt ∧ at_ c (with_batches (alter (f now) (batch_id bt)) t) q st r s) never.
Proof. apply ok_stmt. Qed.

Lemma ok_start t0 b pre x post c t q st r : stage t0 b pre (x :: post) (open_batch false) [] t →
  hoare w (at_ c t q st r) (bt ← get_batch b; _ ← batch_stamp_started bt; mret ())
    (λ _ s, ∃ t', stage t0 b pre (x :: post) (open_batch true) [] t' ∧ at_ c t' q st r s) never.
Proof.
  intros Hst. destruct (stage_batch _ _ _ _ _ _ _ Hst) as (bt & Hb & Hid & H1 & H2 & H3).
  eapply hoare_bind; [by apply ok_get_batch|]. intros a. apply hoare_and. intros ->.
  apply (hoare_seq _ _ _ _ (λ s, ∃ t', stage t0 b pre (x :: post) (open_batch true) [] t' ∧ at_ c t' q st r s));
    [|by apply hoare_ret].
  unfold batch_stamp_started. rewrite H1, H2.
  eapply hoare_bind; [eapply ok_batch_fixes; rewrite Hid; by apply (stage_belongs _ _ _ _ _ _ _ Hst)|].
  intros ys. apply hoare_and. intros ->.
  assert (Hne : x ∈ pre.*1 ++ x :: post) by (apply elem_of_app; right; left).
  assert (Hall : Forall2 (λ _ _, True) (pre.*1 ++ x :: post) (omap (λ i, fixes t !! i) (request_fix_id <$> pre.*1 ++ x :: post))).
  { apply found_fixes. intros z [Hz|Hz]%elem_of_app.
    - destruct (stage_settled _ _ _ _ _ _ _ Hst z Hz) as (y & ? & _). by exists y.
    - destruct (stage_pending _ _ _ _ _ _ _ Hst z Hz) as (y & ? & _). by exists y. }
  destruct (omap _ _) as [|y ys]; [inversion Hall as [Hnil|]; rewrite <- Hnil in Hne; by apply elem_of_nil in Hne|].
  eapply hoare_weaken; [apply ok_set_batch|done| |done]. intros bt' s (now & -> & Hs). eexists. split; [|exact Hs].
  rewrite Hid. eapply stage_set_batch; [exact Hst|exact Hb|done|]. split_and!; cbn; [by eexists|done|done].
Qed.

(** The loop of [stamp_finished] finds the worst status. *)
Lemma batch_status_worst ys cs acc : Forall2 (λ y c, completion_status y = Some c) ys cs → Unstarted ∉ cs →
  acc = Success ∨ acc = Failure → batch_status ys acc = Ok (worst (acc :: cs)).
Proof.
  intros H. revert acc. induction H as [|y c ys cs Hy _ IH]; intros acc Hu Hacc; cbn.
  { destruct Hacc as [-> | ->]; done. }
  apply not_elem_of_cons in Hu as [Hc Hu]. rewrite Hy.
  destruct c; [|rewrite (IH Failure) by auto|rewrite (IH acc) by auto|done]; f_equal; unfold worst.
  - rewrite decide_True by (right; left). done.
  - destruct Hacc as [-> | ->]; repeat case_decide; try done; exfalso;
      rewrite ?elem_of_cons in *; naive_solver.
  - destruct Hacc as [-> | ->]; repeat case_decide; try done; exfalso;
      rewrite ?elem_of_cons in *; naive_solver.
Qed.

Lemma worst_success cs : worst (Success :: cs) = worst cs.
Proof. unfold worst. repeat case_decide; try done; exfalso; rewrite ?elem_of_cons in *; naive_solver. Qed.

Lemma outcome_started r : outcome r ≠ Unstarted.
Proof. destruct r as [[a|]|e]; cbn; [|done|done]. by destruct (status a). Qed.

Definition closed_batch (c : FixCompletionStatus) (bt : FixBatch) : Prop :=
  is_Some (batch_started_at bt) ∧ is_Some (batch_finished_at bt) ∧ batch_completion_status bt = Some c.

Definition verdict (xs : list FixRunRequest) : FixCompletionStatus := worst (status_of <$> xs).

Definition ended t0 b zs := stage t0 b zs [] (closed_batch (verdict zs.*1)) [FixBatchReturn b (verdict zs.*1)].

Lemma found_status t0 b zs B ev t : stage t0 b zs [] B ev t →
  batch_status (omap (λ i, fixes t !! i) (request_fix_id <$> zs.*1)) Success = Ok (verdict zs.*1).
Proof.
  intros Hst. unfold verdict. rewrite <- worst_success. apply batch_status_worst; [| |by left].
  - apply Forall2_fmap_r, Forall2_flip. eapply Forall2_impl; [apply (found_fixes settled); apply (stage_settled _ _ _ _ _ _ _ Hst)|].
    intros x y Hy. apply Hy.
  - intros (x & Hx & _)%list_elem_of_fmap. by apply (outcome_started (action_result x)).
Qed.

Lemma ok_finish_batch t0 b zs c t q st r : stage t0 b zs [] (open_batch true) [] t →
  hoare w (at_ c t q st r) (finish_batch b) (λ _ s, ∃ t', ended t0 b zs t' ∧ at_ c t' q st r s) never.
Proof.
  intros Hst. destruct (stage_batch _ _ _ _ _ _ _ Hst) as (bt & Hb & Hid & H1 & H2 & H3).
  unfold finish_batch. eapply hoare_bind; [by apply ok_get_batch|]. intros a. apply hoare_and. intros ->.
  eapply (hoare_bind _ _ _ _ (λ o s, o = verdict zs.*1 ∧ ∃ t',
    stage t0 b zs [] (closed_batch (verdict zs.*1)) [] t' ∧ at_ c t' q st r s)).
  - unfold batch_stamp_finished. destruct (batch_started_at bt) eqn:Hs; [|by destruct H1].
    eapply hoare_bind; [apply ok_set_batch|]. intros bt1. apply hoare_ex. intros now1. apply hoare_and. intros ->.
    pose proof (stage_belongs _ _ _ _ _ _ _ Hst) as Hbel. rewrite app_nil_r, <- Hid in Hbel.
    eapply hoare_bind; [eapply ok_batch_fixes; exact Hbel|].
    intros ys. apply hoare_and. intros ->. cbn [with_batches fixes]. rewrite (found_status _ _ _ _ _ _ Hst).
    eapply hoare_bind; [apply ok_set_batch|]. intros bt2. apply hoare_ex. intros now2. apply hoare_and. intros ->.
    apply hoare_ret. intros s Hat. split; [done|]. eexists. split; [|exact Hat]. cbn. rewrite Hid.
    eapply stage_set_batch; [eapply (stage_set_batch _ _ _ _ _ (λ b', is_Some (batch_started_at b') ∧ is_Some (batch_finished_at b')));
      [exact Hst|exact Hb|done|]| | |].
    + split; cbn; [rewrite Hs|]; by eexists.
    + cbn. by rewrite lookup_alter_eq, Hb.
    + done.
    + split_and!; cbn; [rewrite Hs; by eexists|by eexists|done].
  - intros o. apply hoare_and. intros ->. apply hoare_ex. intros t'. apply hoare_and. intros Hst'.
    eapply hoare_weaken; [apply ok_write|done| |done].
    intros a s Hat. eexists. split; [|exact Hat]. rewrite Hid. by apply (stage_event _ _ _ _ _ []).
Qed.

(** ** The jobs of a batch *)

Definition job_at (b : Id) (started : bool) (xs : list FixRunRequest) : FixesJob :=
  {| job_fixes := item_of <$> xs; job_batch_id := b; job_started := started |}.

Lemma ok_run t0 b started pre x post c t st r : NoDup (request_fix_id <$> pre.*1 ++ x :: post) → alive x →
  stage t0 b pre (x :: post) (open_batch started) [] t →
  hoare w (at_ c t [] st r) (run w (job_at b started (x :: post)))
    (λ _ s, ∃ f c' t', match post with
                       | [] => ended t0 b (pre ++ [(x, f)]) t' ∧ at_ c' t' [] st (r ++ [request_fix_id x]) s
                       | _ => stage t0 b (pre ++ [(x, f)]) post (open_batch true) [] t' ∧
                              at_ c' t' [job_at b true post] st (r ++ [request_fix_id x]) s
                       end) never.
Proof.
  intros Hnd Ha Hst. unfold run.
  apply (hoare_seq _ _ _ _ (λ s, ∃ t', stage t0 b pre (x :: post) (open_batch true) [] t' ∧ at_ c t' [] st r s)).
  { cbn [job_at job_started job_batch_id]. destruct started; [apply hoare_ret; intros s Hs; by exists t|by apply ok_start]. }
  apply hoare_ex. intros t1. apply hoare_and. intros Hst1.
  destruct (stage_pending _ _ _ _ _ _ _ Hst1 x ltac:(left)) as (y & Hy & Hp).
  cbn [job_at job_fixes job_batch_id fmap list_fmap].
  eapply hoare_seq; [by apply (ok_run_item b x y)|]. apply hoare_ex. intros f. apply hoare_ex. intros y'.
  apply hoare_ex. intros c1. apply hoare_and. intros Hy'.
  pose proof (stage_next t0 b pre (x, f) post _ _ _ Hnd Hst1 Hy') as Hst2. destruct post as [|x' post].
  - eapply hoare_weaken; [by apply ok_finish_batch|done| |done]. intros a s (t' & He & Hat). by exists f, c1, t'.
  - eapply hoare_weaken; [apply ok_enqueue|done| |done]. intros a s Hat. exists f, c1. eexists. split; [exact Hst2|exact Hat].
Qed.

(** Between two jobs. *)
Definition standing t0 b pre post (r : list Id) (s : Store) : Prop :=
  queue s = [] ∧ ran s = r ++ (request_fix_id <$> pre.*1) ∧
  match post with
  | [] => ended t0 b pre (committed s) ∧ sent s = []
  | _ => ∃ started, stage t0 b pre post (open_batch started) [] (committed s) ∧ sent s = [job_at b started post]
  end.

(** A job without an error is committed. *)
Lemma executed job c t r (Q : Tables → list FixesJob → list Id → Prop) :
  hoare w (at_ c t [] [] r) (run w job) (λ _ s, ∃ c' t' q r', Q t' q r' ∧ at_ c' t' q [] r' s) never →
  hoare w (at_ c t [] [] r) (execute_job w job) (λ _ s, ∃ t' st r', Q t' st r' ∧ at_ t' t' [] st r' s) never.
Proof.
  intros Hrun. unfold execute_job. eapply (hoare_bind _ _ _ _ (λ x s, x = Ok () ∧ ∃ t' st r', Q t' st r' ∧ at_ t' t' [] st r' s)).
  - apply hoare_catch. unfold run_job. eapply hoare_bind; [|intros []].
    + eapply hoare_weaken; [exact Hrun|done|intros a s Hs; exact Hs|by intros e s []].
    + apply hoare_ex. intros c'. apply hoare_ex. intros t'. apply hoare_ex. intros q. apply hoare_ex. intros r'. apply hoare_and. intros HQ.
      eapply hoare_weaken; [apply (ok_commit false c' t' q [] r' never)|done| |done]. intros [] s Hs. split; [done|]. by exists t', q, r'.
  - intros x. apply hoare_and. intros ->. by apply hoare_ret.
Qed.

Lemma standing_step t0 b pre x post r s : NoDup (request_fix_id <$> pre.*1 ++ x :: post) → alive x →
  standing t0 b pre (x :: post) r s → ∃ f, standing t0 b (pre ++ [(x, f)]) post r (step w s).
Proof.
  intros Hnd Ha (Hq & Hr & started & Hst & Hsent). unfold step. rewrite Hsent. unfold in_transaction.
  set (s1 := {| committed := _; working := _; queue := _; sent := _; tick := _; ran := _ |}).
  pose proof (executed (job_at b started (x :: post)) (committed s) (committed s) (ran s) (λ t' q r', ∃ f,
    match post with
    | [] => ended t0 b (pre ++ [(x, f)]) t' ∧ q = [] ∧ r' = ran s ++ [request_fix_id x]
    | _ => stage t0 b (pre ++ [(x, f)]) post (open_batch true) [] t' ∧ q = [job_at b true post] ∧
           r' = ran s ++ [request_fix_id x]
    end)) as H. specialize (H ltac:(eapply hoare_weaken; [exact (ok_run t0 b started pre x post (committed s) _ [] (ran s) Hnd Ha Hst)|done| |done];
      intros _ s' (f & c' & t' & H'); destruct post; destruct H' as [? ?]; eexists c', t', _, _; (split; [|eassumption]); eauto)).
  specialize (H s1 ltac:(by split_and!)).
  destruct (exec w (execute_job w (job_at b started (x :: post))) s1) as [[[]|e] s2]; [|done].
  destruct H as (t' & st & r' & (f & Hf) & Hc & Ht & Hq' & Hst' & Hr'). exists f. unfold standing. cbn [fst snd committed queue sent ran].
  rewrite Hc, Hq', Hst', Hr'. split; [done|].
  destruct post as [|x' post]; destruct Hf as (? & -> & ->); 
    (split; [by rewrite Hr, !fmap_app, <-(assoc_L (++))|]); [done|by exists true].
Qed.

Lemma standing_steps t0 b pre post r : ∀ zs s, NoDup (request_fix_id <$> zs.*1 ++ pre ++ post) → Forall alive pre →
  standing t0 b zs (pre ++ post) r s →
  ∃ zs', zs'.*1 = pre ∧ standing t0 b (zs ++ zs') post r (steps w (length pre) s).
Proof.
  induction pre as [|x pre IH]; intros zs s Hnd Ha Hs; cbn; [exists []; by rewrite app_nil_r|].
  apply Forall_cons in Ha as [Hx Ha]. destruct (standing_step t0 b zs x (pre ++ post) r s Hnd Hx Hs) as [f Hf].
  destruct (IH (zs ++ [(x, f)]) (step w s)) as (zs' & Hzs & Hst); [by rewrite (fmap_app fst), <-(assoc_L (++))|done|done|].
  exists ((x, f) :: zs'). cbn. rewrite Hzs. split; [done|]. by rewrite <-(assoc_L (++)) in Hst.
Qed.

(** A job for a component that was destroyed. *)
Lemma destroyed_step t0 b pre x post r s :
  (∀ now, component_destroyed w now (request_component_id x) = Some true) → standing t0 b pre (x :: post) r s →
  committed (step w s) = add_failure (ComponentIsDestroyed (request_component_id x)) (committed s) ∧
  queue (step w s) = [] ∧ sent (step w s) = [] ∧ ran (step w s) = ran s.
Proof.
  intros Hd (Hq & Hr & started & Hst & Hsent). unfold step. rewrite Hsent. unfold in_transaction.
  set (s1 := {| committed := _; working := _; queue := _; sent := _; tick := _; ran := _ |}).
  set (e := ComponentIsDestroyed (request_component_id x)).
  assert (hoare w (at_ (committed s) (committed s) [] [] (ran s)) (run w (job_at b started (x :: post))) (λ _ _, False)
    (λ e' s', e' = e ∧ ∃ t', at_ (committed s) t' [] [] (ran s) s')) as Hrun.
  { unfold run. apply (hoare_seq _ _ _ _ (λ s', ∃ t', at_ (committed s) t' [] [] (ran s) s')).
    - cbn [job_at job_started job_batch_id]. destruct started; [apply hoare_ret; eauto|].
      eapply hoare_weaken; [by apply (ok_start t0 b pre x post (committed s) (committed s) [] [] (ran s))|done| |done].
      intros a s' (t' & _ & ?). eauto.
    - apply hoare_ex. intros t'. cbn [job_at job_fixes job_batch_id fmap list_fmap].
      eapply (hoare_seq _ _ _ _ (λ _, False)); [|by intros s' []]. unfold run_item.
      eapply hoare_bind; [apply ok_stmt|]. intros d. apply hoare_ex. intros now. apply hoare_and.
      cbn [fst snd item_of item_component_id]. rewrite Hd. intros ->. apply hoare_fail. eauto. }
  assert (hoare w (at_ (committed s) (committed s) [] [] (ran s)) (execute_job w (job_at b started (x :: post)))
    (λ _, at_ (add_failure e (committed s)) (add_failure e (committed s)) [] [] (ran s)) never) as Hexec.
  { unfold execute_job. eapply (hoare_bind _ _ _ _ (λ r' s', r' = Err e ∧ ∃ t', at_ (committed s) t' [] [] (ran s) s')).
    - apply hoare_catch. unfold run_job. eapply (hoare_bind _ _ _ _ (λ _ _, False)); [|by intros a s' []].
      eapply hoare_weaken; [exact Hrun|done|done|]. by intros e' s' [-> ?].
    - intros r'. apply hoare_and. intros ->. apply hoare_ex. intros t'.
      eapply (hoare_seq _ _ _ _ (at_ (committed s) (committed s) [] [] (ran s))).
      { intros s' (H1 & H2 & H3 & H4 & H5). rewrite exec_perform. by split_and!. }
      eapply hoare_seq; [apply ok_write|]. apply (ok_commit false). }
  specialize (Hexec s1 ltac:(by split_and!)). destruct (exec w _ s1) as [[[]|e'] s2]; [|done].
  destruct Hexec as (H1 & H2 & H3 & H4 & H5). by split_and!.
Qed.

(** ** Submitting the batch *)

Lemma stage_new_fix t0 b xs x B t y : NoDup (request_fix_id <$> xs ++ [x]) → stage t0 b [] xs B [] t → pending x y →
  stage t0 b [] (xs ++ [x]) B [] (with_belongs (λ m, <[b := default [] (m !! b) ++ [id y]]> m) (put_fix y t)).
Proof.
  intros Hnd [H1 H2 H3 H4 H5 H6 H7 H8 H9 H10 H11 H12] Hy. assert (Hid : id y = request_fix_id x) by apply Hy.
  rewrite fmap_app in Hnd. apply NoDup_app in Hnd as (_ & Hd & _).
  split; cbn; rewrite ?Hid; try done; try (by intros ? ?%elem_of_nil).
  - intros z [Hz|Hz%list_elem_of_singleton]%elem_of_app; [|subst; exists y; by rewrite lookup_insert_eq].
    rewrite lookup_insert_ne; [by apply H2|]. intros He. apply (Hd (request_fix_id z)); [by apply list_elem_of_fmap_2|].
    rewrite <- He. left.
  - intros i. rewrite fmap_app. intros Hi. rewrite lookup_insert_ne; [apply H3; intros ?; apply Hi, elem_of_app; by left|].
    intros <-. apply Hi, elem_of_app. right. left.
  - rewrite lookup_insert_eq. cbn. cbn in H4. by rewrite H4, fmap_app.
  - intros b' Hb'. rewrite lookup_insert_ne by done. by apply H5.
Qed.

Lemma ok_new_fix t0 b xs x c t q st r : NoDup (request_fix_id <$> xs ++ [x]) → stage t0 b [] xs (open_batch false) [] t →
  hoare w (at_ c t q st r) (new_fix (request_fix_id x) b (request_component_id x) (request_action_prototype_id x) (request_kind x))
    (λ y s, id y = request_fix_id x ∧ ∃ t', stage t0 b [] (xs ++ [x]) (open_batch false) [] t' ∧ at_ c t' q st r s) never.
Proof.
  intros Hnd Hst. unfold new_fix. eapply hoare_bind; [apply ok_stmt|]. intros y. apply hoare_ex. intros now. apply hoare_and.
  cbn [fst snd]. intros Hy. assert (Hid : id y = request_fix_id x) by (by subst y). rewrite <- Hy.
  replace (with_fixes (λ m, <[request_fix_id x := y]> m) t) with (put_fix y t) by (unfold put_fix; by rewrite Hid).
  assert (Hp : pending x y) by (by subst y). clear Hy.
  destruct (stage_batch _ _ _ _ _ _ _ Hst) as (bt & Hb & _ & H1 & H2 & _).
  unfold set_fix_batch. apply (hoare_seq _ _ _ _ (at_ c (with_belongs (λ m, <[b := default [] (m !! b) ++ [id y]]> m) (put_fix y t)) q st r)).
  - eapply hoare_bind; [apply ok_query|]. intros a. apply hoare_and. cbn [put_fix with_fixes batches]. rewrite Hb. intros ->.
    rewrite H1, H2. apply (ok_write (with_belongs _)).
  - apply hoare_ret. intros s Hat. split; [done|]. eexists. split; [|exact Hat]. by apply stage_new_fix.
Qed.

Lemma ok_new_fixes t0 b requests c q st r : ∀ xs t, NoDup (request_fix_id <$> xs ++ requests) →
  stage t0 b [] xs (open_batch false) [] t →
  hoare w (at_ c t q st r) (new_fixes b requests)
    (λ items s, items = item_of <$> requests ∧ ∃ t', stage t0 b [] (xs ++ requests) (open_batch false) [] t' ∧ at_ c t' q st r s) never.
Proof.
  induction requests as [|x requests IH]; intros xs t Hnd Hst; cbn [new_fixes].
  { apply hoare_ret. intros s Hs. split; [done|]. exists t. by rewrite app_nil_r. }
  assert (Hx : NoDup (request_fix_id <$> xs ++ [x])).
  { replace (xs ++ x :: requests) with ((xs ++ [x]) ++ requests) in Hnd by (by rewrite <- app_assoc).
    rewrite fmap_app in Hnd. by apply NoDup_app in Hnd as (? & _). }
  eapply hoare_bind; [by apply (ok_new_fix t0)|]. intros y. apply hoare_and. intros Hy.
  apply hoare_ex. intros t1. apply hoare_and. intros Hst1.
  eapply hoare_bind; [apply (IH (xs ++ [x])); [by rewrite <- app_assoc|done]|]. intros items. apply hoare_and. intros ->.
  apply hoare_ret. intros s (t' & Hst' & Hat). split; [by rewrite Hy|]. exists t'. by rewrite <- app_assoc in Hst'.
Qed.

Lemma submitted b a requests s : requests ≠ [] → NoDup (request_fix_id <$> requests) → queue s = [] → sent s = [] →
  belongs (committed s) !! b = None →
  ∃ s', in_transaction w (run_fixes b a requests) s = (Ok b, s') ∧ standing (committed s) b [] requests (ran s) s'.
Proof.
  intros Hne Hnd Hq Hsent Hb.
  assert (H : hoare w (at_ (committed s) (committed s) [] [] (ran s)) (run_fixes b a requests)
    (λ i s', i = b ∧ standing (committed s) b [] requests (ran s) s') never).
  { unfold run_fixes. eapply hoare_bind; [apply ok_stmt|]. intros bt. apply hoare_ex. intros now. apply hoare_and. cbn [fst snd]. intros ->.
    cbn [batch_id]. eapply hoare_bind; [apply (ok_new_fixes (committed s) b requests _ _ _ _ [])|].
    - done.
    - split; cbn; try done; try (by intros ? ?%elem_of_nil).
      + by rewrite Hb.
      + eexists. by rewrite lookup_insert_eq.
      + intros b' Hb'. by rewrite lookup_insert_ne.
      + by rewrite app_nil_r.
      + by rewrite app_nil_r.
    - intros items. apply hoare_and. intros ->. apply hoare_ex. intros t'. apply hoare_and. intros Hst.
      eapply hoare_seq; [apply ok_enqueue|]. eapply hoare_seq; [apply (ok_commit false)|]. apply hoare_ret.
      intros s' (H1 & H2 & H3 & H4 & H5). split; [done|]. unfold standing. rewrite H1, H3, H4, H5. cbn. rewrite app_nil_r.
      split_and!; [done|done|]. destruct requests as [|x requests]; [done|]. by exists false. }
  unfold in_transaction. specialize (H {| committed := committed s; working := committed s; queue := queue s;
    sent := sent s; tick := tick s; ran := ran s |} ltac:(by split_and!)).
  destruct (exec w (run_fixes b a requests) _) as [[i|e] s']; [|done]. destruct H as [-> H].
  eexists. split; [done|]. exact H.
Qed.
End Outcome.

(** ** The end of a batch *)

Lemma steps_add w m n s : steps w (m + n) s = steps w n (steps w m s).
Proof. revert s. induction m as [|m IH]; intros s; [done|]. cbn. apply IH. Qed.

Lemma steps_idle w n s : sent s = [] → steps w n s = s.
Proof.
  intros Hq. induction n as [|n IH]; [done|]. cbn. replace (step w s) with s; [done|]. unfold step. by rewrite Hq.
Qed.


Lemma shown_pending x y : pending x y →
  view_status (history_view false y) = Unstarted ∧ view_status (history_view true y) = Failure.
Proof. intros (_ & _ & _ & Hr & Hc & _). unfold history_view. cbn. rewrite Hr, Hc. done. Qed.


(** C36: a fix whose component was destroyed ends the run of its batch: the fixes before
    it were run, it and those behind it never are, the failure of the job is recorded,
    and the batch is never finished; it is listed as not started, with all its fixes
    that were not run, and from five minutes on as failed. *)
Theorem destroyed_component_strands_the_batch w kind b a pre x post s :
  obliging w kind → Forall (alive w) pre → (∀ now, component_destroyed w now (request_component_id x) = Some true) →
  NoDup (request_fix_id <$> pre ++ x :: post) → queue s = [] → sent s = [] → belongs (committed s) !! b = None →
  ∃ s1, in_transaction w (run_fixes b a (pre ++ x :: post)) s = (Ok b, s1) ∧
    ∀ n, length pre < n → let s2 := steps w n s1 in
      ran s2 = ran s ++ (request_fix_id <$> pre) ∧ queue s2 = [] ∧ sent s2 = [] ∧
      failures (committed s2) = failures (committed s) ++ [ComponentIsDestroyed (request_component_id x)] ∧
      (∃ bt, batches (committed s2) !! b = Some bt ∧ batch_finished_at bt = None ∧
         ∀ age, listed_status age bt = if (300000000000 <? age)%N then (Failure, true) else (Unstarted, false)) ∧
      ∀ z, z ∈ x :: post → ∃ y, fixes (committed s2) !! request_fix_id z = Some y ∧ started_at y = None ∧
        view_status (history_view false y) = Unstarted ∧ view_status (history_view true y) = Failure.
Proof.
  intros Hw Ha Hd Hnd Hq Hsent Hb.
  destruct (submitted w kind Hw b a (pre ++ x :: post) s ltac:(by destruct pre) Hnd Hq Hsent Hb) as (s1 & Hs1 & Hst).
  exists s1. split; [done|]. intros n Hn.
  destruct (standing_steps w kind Hw _ b pre (x :: post) _ [] s1 Hnd Ha Hst) as (zs & Hzs & Hmid). cbn [app] in Hmid.
  set (s2 := steps w (length pre) s1) in *. destruct (destroyed_step w kind Hw _ b zs x post _ s2 Hd Hmid) as (Hc & Hq3 & Hs3 & Hr).
  replace n with (length pre + (1 + (n - length pre - 1))) by lia. rewrite steps_add. fold s2. rewrite (steps_add w 1).
  rewrite steps_idle by done. cbn [steps]. cbn zeta. rewrite Hc, Hr.
  destruct Hmid as (_ & Hran & started & Hstage & _).
  destruct Hstage as [H1 H2 H3 H4 H5 (bt & Hbt & _ & _ & Hf & Hcs) H7 H8 H9 H10 H11 H12].
  split_and!; [by rewrite Hran, Hzs|done|done|cbn; by rewrite H12| |].
  - exists bt. split_and!; [done|done|]. intros age. unfold listed_status. by rewrite Hcs.
  - intros z Hz. destruct (H2 z Hz) as (y & Hy & Hp). exists y. split_and!; [done|apply Hp|by apply (shown_pending z)..].
Qed.
