(* ===== verification/FixSample.v ===== *)
(** * Examples of batches of fixes

    Witnesses of the theorems of [FixTheorems] and [FixOutcome]: three fixes that end
    with a success, a failure and an error; a batch with a destroyed component; a
    commit or a statement that is refused in the middle of a run. *)

From S2P Require Import Prelude Fixes FixTheorems FixOutcome.
From Stdlib Require Import NArith Strings.String.
From stdpp Require Import base tactics list sets gmap strings.

Definition sample_result (c : ResourceStatus) (l : list string) : ActionRunResult :=
  {| status := c; payload := None; message := None; logs := l |}.

(** Component 30 was destroyed; [refused_at] is the operation that is refused. Component
    10 can be refreshed. *)
Definition sample_world (refused_at : option nat) : World :=
  {| refused := λ now, bool_decide (refused_at = Some now);
     commits := λ now, if bool_decide (refused_at = Some now) then RefusedByNats else Committed;
     component_destroyed := λ _ c, Some (c =? 30)%N;
     action_prototype := λ _ _, Some Create;
     refresh_action := λ _ c, if (c =? 10)%N then Some 6%N else None;
     run_action := λ i _ _,
       if (i =? 1)%N then Ok (Some (sample_result ResourceOk ["created"]))
       else if (i =? 2)%N then Ok (Some (sample_result ResourceError []))
       else Err "no function";
     run_refresh := λ _ _ _, Ok (Some (sample_result ResourceWarning []));
     explain := λ e, match e with ActionFailed m => m | _ => "" end |}.

Definition no_tables : Tables :=
  {| fixes := ∅; batches := ∅; belongs := ∅; resolvers := []; needs_destroy := {[ 20%N ]}; resources := ∅; events := [];
     failures := [] |}.

Definition empty_store : Store :=
  {| committed := no_tables; working := no_tables; queue := []; sent := []; tick := 0; ran := [] |}.

Definition request (i c : N) : FixRunRequest :=
  {| request_fix_id := i; request_kind := Create; request_component_id := c; request_action_prototype_id := 5%N |}.

Definition sample_requests : list FixRunRequest := [request 1 10; request 2 20; request 3 40].

Lemma sample_obliging : obliging (sample_world None) (λ _, Create).
Proof. split; try done. by eexists. Qed.

Lemma NoDup_sample (l : list N) : bool_decide (NoDup l) = true → NoDup l.
Proof. apply bool_decide_eq_true_1. Qed.


(** Witness of [destroyed_component_strands_the_batch]: the second of three components
    was destroyed. *)
Lemma destroyed_component_strands_the_batch_witness :
  ∃ s1, in_transaction (sample_world None) (run_fixes 9 "ann" [request 1 10; request 2 30; request 3 40]) empty_store = (Ok 9%N, s1) ∧
    let s2 := steps (sample_world None) 2 s1 in
    ran s2 = [1%N] ∧ queue s2 = [] ∧ sent s2 = [] ∧ failures (committed s2) = [ComponentIsDestroyed 30] ∧
    ∃ bt, batches (committed s2) !! 9%N = Some bt ∧ batch_finished_at bt = None ∧ listed_status 10 bt = (Unstarted, false).
Proof.
  destruct (destroyed_component_strands_the_batch (sample_world None) (λ _, Create) 9 "ann" [request 1 10] (request 2 30)
    [request 3 40] empty_store) as (s1 & Hs1 & H);
    [exact sample_obliging|repeat constructor; done|done|apply NoDup_sample; reflexivity|done|done|done|].
  exists s1. split; [exact Hs1|]. destruct (H 2 ltac:(cbn; lia)) as (Hr & Hq & Hs & Hf & (bt & Hb & Hn & Hl) & _).
  cbn zeta. rewrite Hr, Hq, Hs, Hf. do 4 (split; [done|]). exists bt. do 2 (split; [done|]). apply (Hl 10%N).
Defined.

(** What is written for the components: resources, the component that was to be
    destroyed, and the events. *)
Example components_after :
  let s := steps (sample_world None) 3 (in_transaction (sample_world None) (run_fixes 9 "ann" sample_requests) empty_store).2 in
  needs_destroy (committed s) = ∅ ∧
  status <$> resources (committed s) !! 10%N = Some ResourceWarning ∧
  status <$> resources (committed s) !! 20%N = Some ResourceError ∧
  resources (committed s) !! 40%N = None ∧
  events (committed s) = [ResourceRefreshed 10; ResourceRefreshed 10; FixReturn 1 9 Create Success ["created"];
    ResourceRefreshed 20; FixReturn 2 9 Create Failure []; FixReturn 3 9 Create Error []; FixBatchReturn 9 Error].
Proof. split_and!; reflexivity. Qed.

(** The batch is submitted, and three jobs are taken; an operation is refused. *)
Definition shaken (n : nat) : World := sample_world (Some n).

Definition submitted_store (w : World) : Store := (in_transaction w (run_fixes 9 "ann" sample_requests) empty_store).2.

Definition shaken_store (n : nat) : Store := steps (shaken n) 3 (submitted_store (shaken n)).




(** A fix can be left out, and those behind it be run: here the statement before the
    second action is refused, which ends the fix with an error. *)
Example refused_view_skips_an_action : ran (shaken_store 43) = [1; 3]%N ∧ failures (committed (shaken_store 43)) = [].
Proof. split; reflexivity. Qed.

(** A commit of a request that the broker refuses leaves its job in the queue, although
    the request is answered with an error; the next commit of any context sends it. *)
Example refused_request_stays_queued :
  let x := in_transaction (shaken 11) (run_fixes 9 "ann" sample_requests) empty_store in
  x.1 = Err Refused ∧ job_fixes <$> queue x.2 = [item_of <$> sample_requests] ∧ sent x.2 = [].
Proof. split_and!; reflexivity. Qed.

(** A request without fixes leaves a batch that never starts. *)
Example empty_batch_never_starts :
  let s := steps (sample_world None) 1 (in_transaction (sample_world None) (run_fixes 9 "ann" []) empty_store).2 in
  queue s = [] ∧ sent s = [] ∧ failures (committed s) = [FixFailed (NoFixesInBatch 9)] ∧
  batch_started_at <$> batches (committed s) !! 9%N = Some None.
Proof. split_and!; reflexivity. Qed.
