(* ===== verification/StandardModel.v ===== *)
(** * The standard model

    Model of [src/lib/dal/src/standard_model.rs] with the functions of the database
    that it calls ([migrations/U0002__tenancy.sql], [U0003__visibility.sql] and
    [U0004__standard_model.sql]). Every object has a row in head, a row in each change
    set that touches it, or both; what a context shows of a table is a view of the rows
    that are in its tenancy and visible to it.

    A table is a map from the columns of its unique index (id, workspace and change
    set) to its rows; all rows have a workspace. What else the migrations demand of the
    rows of a table is in its [Constraints]. Keys that the database makes and the time of
    a statement are arguments. A statement that raises an exception gives an error, and
    its transaction is lost. *)

From S2P Require Import Prelude DalContext.
From Stdlib Require Import NArith Strings.String.
From stdpp Require Import base tactics list gmap strings.

(** ** Data *)

Inductive Value : Set :=
| Null
| Text (s : string)
| Ident (n : N)
| Bool (b : bool)
| Timestamp (n : N).

#[global] Instance Value_eq_dec : EqDecision Value.
Proof. solve_decision. Defined.

(** The columns besides those of the index, of visibility and of time; a column that is
    not there is null. *)
Record Row := {
  row_pk : N;
  row_deleted_at : option N;
  row_created_at : N;
  row_updated_at : N;
  row_columns : gmap string Value;
}.

(** Id, workspace and change set. *)
Record Key := {
  key_id : N;
  key_workspace : N;
  key_change_set : N;
}.

#[global] Instance Key_eq_dec : EqDecision Key.
Proof. solve_decision. Defined.

#[global] Program Instance Key_countable : Countable Key :=
  inj_countable' (λ k, (key_id k, key_workspace k, key_change_set k))
    (λ x, {| key_id := x.1.1; key_workspace := x.1.2; key_change_set := x.2 |}) _.
Next Obligation. by intros []. Qed.

Abbreviation Table := (gmap Key Row).

Inductive TableType : Set := Model | BelongsTo | ManyToMany.

Inductive StandardModelError : Set :=
| ModelMissing (id : N)
| Raised
| UniqueViolation
| CheckViolation
| BadValue
| NoRow.

Definition column (c : string) (r : Row) : Value := default Null (row_columns r !! c).

Definition with_updated_at (now : N) (r : Row) : Row :=
  {| row_pk := row_pk r; row_deleted_at := row_deleted_at r; row_created_at := row_created_at r; row_updated_at := now;
     row_columns := row_columns r |}.

Definition with_deleted_at (d : option N) (r : Row) : Row :=
  {| row_pk := row_pk r; row_deleted_at := d; row_created_at := row_created_at r; row_updated_at := row_updated_at r;
     row_columns := row_columns r |}.

Definition deleted_at_column : string := "visibility_deleted_at".

(** A unique index besides that of ids. All of them have the workspace and the change set
    among their columns; a row has no entry if it is not in the condition of the index, or
    a column is null. *)
Abbreviation Index := (Row → option (list Value)).

(** What a table demands: the columns that can be set, with the values of their types and
    nulls where they are allowed; the [CHECK] of a row that is written; and the indexes. *)
Record Constraints := {
  accepts : string → Value → bool;
  valid : Row → bool;
  unique : list Index;
}.

(** A column is set. The columns of the index of ids and of time are not set by anyone. *)
Definition set_column (con : Constraints) (c : string) (v : Value) (r : Row) : result StandardModelError Row :=
  if decide (c = deleted_at_column) then
    match v with
    | Null => Ok (with_deleted_at None r)
    | Timestamp n => Ok (with_deleted_at (Some n) r)
    | _ => Err BadValue
    end
  else if accepts con c v then
    Ok {| row_pk := row_pk r; row_deleted_at := row_deleted_at r; row_created_at := row_created_at r;
          row_updated_at := row_updated_at r; row_columns := <[c := v]> (row_columns r) |}
  else Err BadValue.

(** ** Tenancy and visibility *)

Section Context_.
Context (tenancy : option N) (visibility : Visibility.t).

Definition in_tenancy (workspace : N) : bool := bool_decide (tenancy = Some workspace).

Definition is_visible (change_set : N) (deleted_at : option N) : bool :=
  (Visibility.is_deleted visibility || bool_decide (deleted_at = None)) &&
  (bool_decide (change_set = Visibility.NONE) || bool_decide (change_set = Visibility.change_set_pk visibility)).

Definition in_tenancy_and_visible (e : Key * Row) : bool :=
  in_tenancy (key_workspace e.1) && is_visible (key_change_set e.1) (row_deleted_at e.2).

(** The order of rows: id, change set descending, time of deletion descending with nulls
    first. *)
Definition deleted_le (a b : option N) : bool :=
  match a, b with
  | None, _ => true
  | Some _, None => false
  | Some a, Some b => (b <=? a)%N
  end.

Definition row_le (group : Key * Row → N) (a b : Key * Row) : bool :=
  (group a <? group b)%N ||
  ((group a =? group b)%N &&
   ((key_change_set b.1 <? key_change_set a.1)%N ||
    ((key_change_set b.1 =? key_change_set a.1)%N && deleted_le (row_deleted_at a.2) (row_deleted_at b.2)))).

(** [SELECT DISTINCT ON]: the first row of each group of a sorted list. *)
Fixpoint distinct_on (group : Key * Row → N) (last : option N) (l : list (Key * Row)) : list (Key * Row) :=
  match l with
  | [] => []
  | a :: l =>
      if decide (last = Some (group a)) then distinct_on group last l
      else a :: distinct_on group (Some (group a)) l
  end.

(** The join of the view of models: a row of head is left out if it is deleted in the
    change set of the context. *)
Definition deleted_in_change_set (t : Table) (e : Key * Row) : bool :=
  bool_decide (Visibility.change_set_pk visibility ≠ Visibility.NONE) && bool_decide (key_change_set e.1 = Visibility.NONE) &&
  existsb (λ c, bool_decide (key_id c.1 = key_id e.1) &&
                bool_decide (key_change_set c.1 = Visibility.change_set_pk visibility) &&
                bool_decide (is_Some (row_deleted_at c.2))) (map_to_list t).

Definition select_distinct (group : Key * Row → N) (p : Key * Row → bool) (t : Table) : list (Key * Row) :=
  distinct_on group None (stable_sort (row_le group) (filter (λ e, p e = true) (map_to_list t))).

(** The view [<table>_v1] of a model. *)
Definition model_view (t : Table) : list (Key * Row) :=
  select_distinct (λ e, key_id e.1) (λ e, in_tenancy_and_visible e && negb (deleted_in_change_set t e)) t.

Definition object_id (r : Row) : N := match column "object_id" r with Ident n => n | _ => 0%N end.

(** The views [<table>_v1] of associations: of the objects that belong to another, and
    of pairs. *)
Definition belongs_to_view (t : Table) : list (Key * Row) :=
  select_distinct (λ e, object_id e.2) in_tenancy_and_visible t.

Definition many_to_many_view (t : Table) : list (Key * Row) :=
  select_distinct (λ e, key_id e.1) in_tenancy_and_visible t.

Definition view (ty : TableType) : Table → list (Key * Row) :=
  match ty with Model => model_view | BelongsTo => belongs_to_view | ManyToMany => many_to_many_view end.

(** ** Reading *)

(** [query_opt] of [get_by_id_v1]. *)
Definition get_by_id (ty : TableType) (t : Table) (i : N) : option (Key * Row) :=
  head (filter (λ e, key_id e.1 = i) (view ty t)).

Definition list_models (ty : TableType) (t : Table) : list (Key * Row) := view ty t.

(** [ORDER BY id, visibility_change_set_pk DESC]. *)
Definition by_id : list (Key * Row) → list (Key * Row) := stable_sort (row_le (λ e, key_id e.1)).

Definition find_by_attr (ty : TableType) (t : Table) (c : string) (v : Value) : list (Key * Row) :=
  by_id (filter (λ e, column c e.2 = v ∧ v ≠ Null) (view ty t)).

Definition find_by_attr_null (ty : TableType) (t : Table) (c : string) : list (Key * Row) :=
  by_id (filter (λ e, column c e.2 = Null) (view ty t)).

Definition find_by_attr_in (ty : TableType) (t : Table) (c : string) (vs : list Value) : list (Key * Row) :=
  by_id (filter (λ e, (column c e.2 ∈ vs) ∧ column c e.2 ≠ Null) (view ty t)).

Definition find_by_attr_not_in (ty : TableType) (t : Table) (c : string) (vs : list Value) : list (Key * Row) :=
  by_id (filter (λ e, (column c e.2 ∉ vs) ∧ column c e.2 ≠ Null) (view ty t)).
End Context_.

Definition get_by_pk (t : Table) (pk : N) : result StandardModelError (Key * Row) :=
  match head (filter (λ e, row_pk e.2 = pk) (map_to_list t)) with
  | Some e => Ok e
  | None => Err NoRow
  end.

(** ** Writing *)

(** Columns, by their types and whether they are not null. *)
Definition is_ident (v : Value) : bool := match v with Ident _ => true | _ => false end.
Definition is_text (v : Value) : bool := match v with Text _ => true | _ => false end.
Definition is_bool (v : Value) : bool := match v with Bool _ => true | _ => false end.
Definition or_null (p : Value → bool) (v : Value) : bool := match v with Null => true | _ => p v end.

(** A table that demands no more than the types of its columns. *)
Definition plain (columns : list (string * (Value → bool))) : Constraints := {|
  accepts c v := existsb (λ p, bool_decide (p.1 = c) && p.2 v) columns;
  valid _ := true;
  unique := [];
|}.

(** The tables that the migrations make for associations: their columns, the ids that
    [check_id_in_table_v1] finds, and their index. *)
Definition ident (c : string) (r : Row) : N := match column c r with Ident n => n | _ => 0%N end.

Definition belongs_to_table (objects owners : N → bool) : Constraints := {|
  accepts c v := bool_decide (c = "object_id" ∨ c = "belongs_to_id") && is_ident v;
  valid r := objects (ident "object_id" r) && owners (ident "belongs_to_id" r);
  unique := [λ r, Some [column "object_id" r]];
|}.

Definition many_to_many_table (lefts rights : N → bool) : Constraints := {|
  accepts c v := bool_decide (c = "left_object_id" ∨ c = "right_object_id") && is_ident v;
  valid r := lefts (ident "left_object_id" r) && rights (ident "right_object_id" r);
  unique := [λ r, if decide (row_deleted_at r = None) then Some [column "left_object_id" r; column "right_object_id" r] else None];
|}.

Definition check_id_in_table (t : Table) (i : N) : bool := existsb (λ e, bool_decide (key_id e.1 = i)) (map_to_list t).

(** Two rows of a workspace and a change set that have the same entry in an index. *)
Definition same_entry (f : Index) (a b : Row) : bool :=
  match f a, f b with Some x, Some y => bool_decide (x = y) | _, _ => false end.

Definition clash (con : Constraints) (a b : Key * Row) : bool :=
  bool_decide (a.1 ≠ b.1) && bool_decide (key_workspace a.1 = key_workspace b.1) &&
  bool_decide (key_change_set a.1 = key_change_set b.1) && existsb (λ f, same_entry f a.2 b.2) (unique con).

(** A row is put in its place, unless a constraint forbids it. *)
Definition put (con : Constraints) (k : Key) (r : Row) (t : Table) : result StandardModelError Table :=
  if negb (valid con r) then Err CheckViolation
  else if existsb (clash con (k, r)) (map_to_list t) then Err UniqueViolation
  else Ok (<[k := r]> t).

(** [INSERT]. *)
Definition insert_row (con : Constraints) (k : Key) (r : Row) (t : Table) : result StandardModelError Table :=
  match t !! k with
  | Some _ => Err UniqueViolation
  | None => put con k r t
  end.

Section Writes.
Context (tenancy : option N) (visibility : Visibility.t).

(** The functions that create an object, with the values of all its columns; a context
    without a workspace creates nothing here. *)
Definition create (con : Constraints) (now pk i : N) (columns : gmap string Value) (t : Table) :
    result StandardModelError (Key * Row * Table) :=
  match tenancy with
  | None => Err Raised
  | Some workspace =>
      let k := {| key_id := i; key_workspace := workspace; key_change_set := Visibility.change_set_pk visibility |} in
      let r := {| row_pk := pk; row_deleted_at := Visibility.deleted_at visibility; row_created_at := now;
                  row_updated_at := now; row_columns := columns |} in
      if forallb (λ p, accepts con p.1 p.2) (map_to_list columns) then t' ← insert_row con k r t; Ok (k, r, t')
      else Err BadValue
  end.

(** Whether [UPDATE] takes a row, and whether the row of head is copied. *)
Definition updatable (r : Row) : bool :=
  Visibility.is_deleted visibility || bool_decide (row_deleted_at r = None).

Definition copied (r : Row) : bool :=
  if Visibility.is_deleted visibility then bool_decide (row_deleted_at r ≠ None) else bool_decide (row_deleted_at r = None).

(** [update_by_id_v1]: the time of the update. *)
Definition update_by_id (con : Constraints) (now pk : N) (c : string) (i : N) (v : Value) (t : Table) :
    result StandardModelError (N * Table) :=
  match tenancy with
  | None => Err Raised
  | Some workspace =>
      let change_set := Visibility.change_set_pk visibility in
      let k := {| key_id := i; key_workspace := workspace; key_change_set := change_set |} in
      let found := t !! k in
      match found ≫= (λ r, if updatable r then Some r else None) with
      | Some r =>
          r ← set_column con c v r;
          t ← put con k (with_updated_at now r) t;
          Ok (now, t)
      | None =>
          if decide (change_set = Visibility.NONE) then Err Raised
          else
            match t !! {| key_id := i; key_workspace := workspace; key_change_set := Visibility.NONE |} with
            | Some h =>
                if copied h then
                  h ← set_column con c v h;
                  match found with
                  | Some r =>
                      if valid con h && valid con r then Ok (now, <[k := with_updated_at now r]> t) else Err CheckViolation
                  | None =>
                      t ← put con k {| row_pk := pk; row_deleted_at := row_deleted_at h; row_created_at := now;
                                      row_updated_at := now; row_columns := row_columns h |} t;
                      Ok (now, t)
                  end
                else Err Raised
            | None => Err Raised
            end
      end
  end.

Definition delete_by_id (con : Constraints) (now pk i : N) (t : Table) : result StandardModelError (N * Table) :=
  update_by_id con now pk deleted_at_column i (Timestamp now) t.

(** Rows found by their key of the table, whatever their change set. *)
Definition change_by_pk (con : Constraints) (now pk : N) (d : option N) (t : Table) : result StandardModelError (N * Table) :=
  match filter (λ e, row_pk e.2 = pk ∧ in_tenancy tenancy (key_workspace e.1) = true) (map_to_list t) with
  | [] => Err (ModelMissing pk)
  | (k, r) :: _ => t ← put con k (with_updated_at now (with_deleted_at d r)) t; Ok (now, t)
  end.

Definition delete_by_pk (con : Constraints) (now pk : N) : Table → result StandardModelError (N * Table) :=
  change_by_pk con now pk (Some now).

Definition undelete (con : Constraints) (now pk : N) : Table → result StandardModelError (N * Table) :=
  change_by_pk con now pk None.
End Writes.

Definition hard_delete (pk : N) (t : Table) : result StandardModelError (Row * Table) :=
  match filter (λ e, row_pk e.2 = pk) (map_to_list t) with
  | [] => Err NoRow
  | (k, r) :: _ => Ok (r, delete k t)
  end.

(** [StandardModel::exists_in_head]. *)
Definition exists_in_head (tenancy : option N) (ty : TableType) (t : Table) (i : N) : bool :=
  bool_decide (is_Some (get_by_id tenancy {| Visibility.change_set_pk := Visibility.NONE; Visibility.deleted_at := None |} ty t i)).
