(* ===== verification/ModelViews.v ===== *)
(** * What contexts show of the standard model

    Theorems about [StandardModel]: the view of a model is head with the rows of the
    change set on top, writes in a change set are seen by those who read in it, and by
    nobody else. *)

From S2P Require Import Prelude DalContext StandardModel.
From Stdlib Require Import NArith Sorting.Sorted.
From stdpp Require Import base tactics list gmap strings.

(** ** Views *)

(** Sorted lists without repetitions are determined by their elements. *)
Lemma strictly_sorted_eq {A} (group : A → N) l l' : StronglySorted (λ a b, group a < group b)%N l → StronglySorted (λ a b, group a < group b)%N l' →
  (∀ x, x ∈ l ↔ x ∈ l') → l = l'.
Proof.
  intros Hs. revert l'. induction Hs as [|a l Hs IH Ha]; intros l' Hs' He.
  - destruct l' as [|b l']; [done|]. destruct (not_elem_of_nil b). apply He. left.
  - destruct Hs' as [|b l' Hs' Hb]; [by destruct (not_elem_of_nil a); apply He; left|].
    rewrite list.Forall_forall in Ha, Hb. assert (a = b) as <-.
    { destruct (proj1 (elem_of_cons _ _ _) (proj1 (He a) ltac:(left))) as [?|Ha']; [done|].
      destruct (proj1 (elem_of_cons _ _ _) (proj2 (He b) ltac:(left))) as [?|Hb']; [done|].
      specialize (Hb _ Ha'). specialize (Ha _ Hb'). lia. }
    f_equal. apply IH; [done|]. intros x. split; intros Hx.
    + destruct (proj1 (elem_of_cons _ _ _) (proj1 (He x) ltac:(by right))) as [->|?]; [|done]. specialize (Ha _ Hx). lia.
    + destruct (proj1 (elem_of_cons _ _ _) (proj2 (He x) ltac:(by right))) as [->|?]; [|done]. specialize (Hb _ Hx). lia.
Qed.

Section Select.
Context (group : Key * Row → N).

Lemma deleted_le_refl a : deleted_le a a = true.
Proof. destruct a as [a|]; [|done]. apply N.leb_refl. Qed.

Lemma deleted_le_trans a b c : deleted_le a b = true → deleted_le b c = true → deleted_le a c = true.
Proof. destruct a, b, c; cbn; rewrite ?N.leb_le; try done. lia. Qed.

Lemma deleted_le_total a b : deleted_le a b = true ∨ deleted_le b a = true.
Proof. destruct a, b; cbn; rewrite ?N.leb_le; auto. lia. Qed.

Definition row_lt_eq (a b : Key * Row) : Prop :=
  (group a < group b)%N ∨ (group a = group b ∧
    ((key_change_set b.1 < key_change_set a.1)%N ∨
     (key_change_set b.1 = key_change_set a.1 ∧ deleted_le (row_deleted_at a.2) (row_deleted_at b.2) = true))).

Lemma row_le_spec a b : row_le group a b = true ↔ row_lt_eq a b.
Proof. unfold row_le, row_lt_eq. rewrite !orb_true_iff, !andb_true_iff, !orb_true_iff, !andb_true_iff, !N.ltb_lt, !N.eqb_eq. done. Qed.

Lemma row_lt_eq_total a b : row_lt_eq a b ∨ row_lt_eq b a.
Proof.
  unfold row_lt_eq. pose proof (deleted_le_total (row_deleted_at a.2) (row_deleted_at b.2)) as H.
  destruct (N.lt_trichotomy (group a) (group b)) as [?|[?|?]];
    destruct (N.lt_trichotomy (key_change_set a.1) (key_change_set b.1)) as [?|[?|?]]; intuition lia.
Qed.

#[export] Instance row_lt_eq_trans : Transitive row_lt_eq.
Proof.
  intros a b c. unfold row_lt_eq. intros [H1|[H1 H1']] [H2|[H2 H2']]; [left; lia|left; lia|left; lia|right].
  split; [lia|]. destruct H1' as [?|[? ?]], H2' as [?|[? ?]]; [left; lia|left; lia|left; lia|right].
  split; [lia|]. by eapply deleted_le_trans.
Qed.

Lemma row_sort_sorted l : StronglySorted row_lt_eq (stable_sort (row_le group) l).
Proof.
  apply stable_sort_sorted; [apply _| |apply row_lt_eq_total].
  intros a b. destruct (row_le group a b) eqn:H; constructor; rewrite <- row_le_spec, H; done.
Qed.

(** The rows that are selected are the least of their groups. *)
Lemma elem_of_distinct_on l last x : StronglySorted row_lt_eq l →
  (∀ y z, y ∈ l → z ∈ l → row_lt_eq y z → row_lt_eq z y → y = z) →
  (∀ v y, last = Some v → y ∈ l → (v ≤ group y)%N) →
  x ∈ distinct_on group last l ↔ x ∈ l ∧ last ≠ Some (group x) ∧ ∀ y, y ∈ l → group y = group x → row_lt_eq x y.
Proof.
  revert last. induction l as [|a l IH]; intros last Hs Ha Hl; cbn [distinct_on].
  { rewrite !elem_of_nil. naive_solver. }
  apply StronglySorted_inv in Hs as [Hs Hlt]. rewrite list.Forall_forall in Hlt.
  assert (Hg : ∀ y, y ∈ l → (group a ≤ group y)%N) by (intros y Hy; destruct (Hlt y Hy) as [?|[? ?]]; lia).
  assert (Ha' : ∀ y z, y ∈ l → z ∈ l → row_lt_eq y z → row_lt_eq z y → y = z).
  { intros y z Hy Hz. apply Ha; by right. }
  case_decide as Hd.
  - rewrite IH; [|done|done|intros v y Hv Hy; rewrite Hd in Hv; injection Hv as <-; by apply Hg].
    rewrite elem_of_cons. split.
    + intros (Hx & Hne & Hle). split_and!; [by right|done|]. intros y [->|Hy]%elem_of_cons Heq; [|by apply Hle].
      rewrite Hd in Hne. congruence.
    + intros ([->|Hx] & Hne & Hle); [done|]. split_and!; [done|done|]. intros y Hy. apply Hle. by right.
  - rewrite elem_of_cons, IH; [|done|done|intros v y [= <-] Hy; by apply Hg]. rewrite elem_of_cons. split.
    + intros [->|(Hx & Hne & Hle)].
      * split_and!; [by left|done|]. intros y [->|Hy]%elem_of_cons _; [|by apply Hlt].
        right. split; [done|]. right. split; [done|apply deleted_le_refl].
      * split_and!; [by right| |].
        -- intros ->. specialize (Hl _ a eq_refl ltac:(left)). specialize (Hg x Hx). apply Hne. f_equal. lia.
        -- intros y [->|Hy]%elem_of_cons Heq; [|by apply Hle]. congruence.
    + intros ([->|Hx] & Hne & Hle); [by left|]. destruct (decide (group a = group x)) as [Heq|Hne'].
      * left. apply Ha; [by right|left|apply Hle; [left|done]|by apply Hlt].
      * right. split_and!; [done|congruence|]. intros y Hy. apply Hle. by right.
Qed.

Lemma distinct_on_sorted l last : StronglySorted row_lt_eq l → (∀ v y, last = Some v → y ∈ l → (v ≤ group y)%N) →
  StronglySorted (λ a b, group a < group b)%N (distinct_on group last l) ∧
  ∀ v y, last = Some v → y ∈ distinct_on group last l → (v < group y)%N.
Proof.
  revert last. induction l as [|a l IH]; intros last Hs Hl; cbn [distinct_on].
  { split; [constructor|]. intros v y _ ?%elem_of_nil. done. }
  apply StronglySorted_inv in Hs as [Hs Hlt]. rewrite list.Forall_forall in Hlt.
  assert (Hg : ∀ y, y ∈ l → (group a ≤ group y)%N) by (intros y Hy; destruct (Hlt y Hy) as [?|[? ?]]; lia).
  case_decide as Hd.
  - apply IH; [done|]. intros v y Hv Hy. apply Hl; [done|by right].
  - destruct (IH (Some (group a)) Hs) as [IH1 IH2]; [intros v y [= <-]; apply Hg|]. split.
    + constructor; [done|]. apply list.Forall_forall. intros y Hy. by apply IH2.
    + intros v y Hv [->|Hy]%elem_of_cons.
      * specialize (Hl v a Hv ltac:(left)). assert (v ≠ group a) by congruence. lia.
      * specialize (IH2 _ y eq_refl Hy). specialize (Hl v a Hv ltac:(left)). lia.
Qed.

(** [p] selects rows of which no two are equal in the order. *)
Definition separated (p : Key * Row → bool) (t : Table) : Prop :=
  ∀ a b, t !! a.1 = Some a.2 → t !! b.1 = Some b.2 → p a = true → p b = true →
    group a = group b → key_change_set a.1 = key_change_set b.1 → a = b.

Lemma elem_of_selected p (t : Table) x :
  x ∈ stable_sort (row_le group) (filter (λ e, p e = true) (map_to_list t)) ↔ t !! x.1 = Some x.2 ∧ p x = true.
Proof.
  rewrite stable_sort_perm, list_elem_of_filter. destruct x as [k r].
  pose proof (elem_of_map_to_list (t : gmap Key Row) k r). cbn. tauto.
Qed.

Lemma elem_of_select_distinct p (t : Table) x : separated p t →
  x ∈ select_distinct group p t ↔ t !! x.1 = Some x.2 ∧ p x = true ∧
    ∀ y, t !! y.1 = Some y.2 → p y = true → group y = group x → (key_change_set y.1 ≤ key_change_set x.1)%N.
Proof.
  intros Hsep. unfold select_distinct. rewrite elem_of_distinct_on; [|apply row_sort_sorted| |done].
  - rewrite elem_of_selected. split.
    + intros ([Hx Hp] & _ & Hle). split_and!; [done|done|]. intros y Hy Hpy Heq.
      destruct (Hle y ltac:(by apply elem_of_selected) Heq) as [?|[? [?|[? _]]]]; lia.
    + intros (Hx & Hp & Hle). split_and!; [done|done|done|]. intros y [Hy Hpy]%elem_of_selected Heq. right. split; [done|].
      specialize (Hle y Hy Hpy Heq). destruct (decide (key_change_set y.1 = key_change_set x.1)) as [He|?]; [|left; lia].
      right. split; [done|]. rewrite (Hsep x y); auto using deleted_le_refl.
  - intros y z [Hy Hpy]%elem_of_selected [Hz Hpz]%elem_of_selected H1 H2. apply Hsep; try done;
      unfold row_lt_eq in *; intuition lia.
Qed.

Lemma select_distinct_sorted p (t : Table) : StronglySorted (λ a b, group a < group b)%N (select_distinct group p t).
Proof. apply distinct_on_sorted; [apply row_sort_sorted|done]. Qed.
End Select.

(** ** Head below the change set *)

Section Overlay.
(** The workspace that a change set belongs to. *)
Context (owner : N → N).

Definition owned (t : Table) : Prop :=
  ∀ k r, t !! k = Some r → key_change_set k ≠ Visibility.NONE → key_workspace k = owner (key_change_set k).

(** A context reads change sets of its workspace. *)
Definition at_home (tenancy : option N) (v : Visibility.t) : Prop :=
  ∀ workspace, tenancy = Some workspace → Visibility.change_set_pk v ≠ Visibility.NONE →
    workspace = owner (Visibility.change_set_pk v).

(** Deleted rows are shown to those who ask for them. *)
Definition shows (v : Visibility.t) (r : Row) : bool :=
  Visibility.is_deleted v || bool_decide (row_deleted_at r = None).

(** What a context is meant to show of an object: its row in the change set if there is
    one, its row in head otherwise. *)
Definition overlay (tenancy : option N) (v : Visibility.t) (t : Table) (i : N) : option (Key * Row) :=
  match tenancy with
  | None => None
  | Some workspace =>
      let key cs := {| key_id := i; key_workspace := workspace; key_change_set := cs |} in
      let k := if decide (Visibility.change_set_pk v = Visibility.NONE) then key Visibility.NONE
               else match t !! key (Visibility.change_set_pk v) with
                    | Some _ => key (Visibility.change_set_pk v)
                    | None => key Visibility.NONE
                    end in
      match t !! k with
      | Some r => if shows v r then Some (k, r) else None
      | None => None
      end
  end.

Context (tenancy : option N) (v : Visibility.t) (t : Table).
Abbreviation CS := (Visibility.change_set_pk v).

Definition in_model_view (e : Key * Row) : bool :=
  in_tenancy_and_visible tenancy v e && negb (deleted_in_change_set v t e).

Lemma deleted_in_change_set_spec e : deleted_in_change_set v t e = true ↔
  CS ≠ Visibility.NONE ∧ key_change_set e.1 = Visibility.NONE ∧
  ∃ k r, t !! k = Some r ∧ key_id k = key_id e.1 ∧ key_change_set k = CS ∧ is_Some (row_deleted_at r).
Proof.
  unfold deleted_in_change_set. rewrite !andb_true_iff, !bool_decide_eq_true, existsb_exists. split.
  - intros [[H1 H2] ([k r] & Hin & H3)]. rewrite !andb_true_iff, !bool_decide_eq_true in H3. destruct H3 as [[H3 H4] H5].
    split_and!; [done|done|]. exists k, r. split_and!; [|done..]. apply (elem_of_map_to_list (t : gmap Key Row)). by apply list_elem_of_In.
  - intros (H1 & H2 & k & r & H3 & H4 & H5 & H6). split_and!; [done|done|]. exists (k, r).
    split; [by apply list_elem_of_In, (elem_of_map_to_list (t : gmap Key Row))|].
    rewrite !andb_true_iff, !bool_decide_eq_true. done.
Qed.

Lemma in_model_view_spec e : in_model_view e = true ↔
  tenancy = Some (key_workspace e.1) ∧ shows v e.2 = true ∧ (key_change_set e.1 = Visibility.NONE ∨ key_change_set e.1 = CS) ∧
  deleted_in_change_set v t e = false.
Proof.
  unfold in_model_view, in_tenancy_and_visible, in_tenancy, is_visible. fold (shows v e.2).
  rewrite !andb_true_iff, orb_true_iff, negb_true_iff, !bool_decide_eq_true. tauto.
Qed.

Lemma model_view_separated : separated (λ e, key_id e.1) in_model_view t.
Proof.
  intros [[i w c] r] [[i' w' c'] r'] Ha Hb Hpa Hpb Hg Hc. cbn in *.
  apply in_model_view_spec in Hpa as (Hw & _). apply in_model_view_spec in Hpb as (Hw' & _). cbn in *.
  assert (w = w') as -> by congruence. subst. congruence.
Qed.

Lemma elem_of_model_view x : x ∈ model_view tenancy v t ↔ t !! x.1 = Some x.2 ∧ in_model_view x = true ∧
  ∀ y, t !! y.1 = Some y.2 → in_model_view y = true → key_id y.1 = key_id x.1 → (key_change_set y.1 ≤ key_change_set x.1)%N.
Proof. apply (elem_of_select_distinct (λ e, key_id e.1)), model_view_separated. Qed.

Hypothesis Hown : owned t.
Hypothesis Hhome : at_home tenancy v.

(** A row of the change set is never left out, unless it is deleted. *)
Lemma change_set_row_in_view k r : t !! k = Some r → tenancy = Some (key_workspace k) → CS ≠ Visibility.NONE →
  key_change_set k = CS → shows v r = true → in_model_view (k, r) = true.
Proof.
  intros Hk Hw Hcs He Hs. apply in_model_view_spec. cbn. split_and!; [done|done|by right|].
  apply not_true_is_false. intros (_ & H & _)%deleted_in_change_set_spec. cbn in H. congruence.
Qed.

(** A row of head is left out if there is a row in the change set that is deleted. *)
Lemma head_row_in_view k r : t !! k = Some r → tenancy = Some (key_workspace k) → key_change_set k = Visibility.NONE →
  shows v r = true →
  (CS = Visibility.NONE ∨ t !! {| key_id := key_id k; key_workspace := key_workspace k; key_change_set := CS |} = None) →
  in_model_view (k, r) = true.
Proof.
  intros Hk Hw He Hs Hno. apply in_model_view_spec. cbn. split_and!; [done|done|by left|].
  apply not_true_is_false. intros (Hne & _ & [i w c] & r' & Hr' & Hi & Hc & _)%deleted_in_change_set_spec. cbn in *.
  destruct Hno as [?|Hno]; [done|]. pose proof (Hown _ _ Hr') as Ho. cbn in Ho. subst c i.
  rewrite (Hhome _ Hw Hne), <- (Ho Hne), Hr' in Hno. done.
Qed.

Lemma model_view_overlay x : x ∈ model_view tenancy v t ↔ overlay tenancy v t (key_id x.1) = Some x.
Proof.
  rewrite elem_of_model_view. destruct x as [[i w c] r]. cbn [fst snd key_id key_change_set]. unfold overlay. split.
  - intros (Hx & (Hw & Hs & Hc & Hd)%in_model_view_spec & Hmax). cbn in *. rewrite Hw. cbn zeta. case_decide as Hcs.
    + assert (c = Visibility.NONE) as -> by (destruct Hc; congruence). by rewrite Hx, Hs.
    + destruct Hc as [-> | ->]; [|by rewrite Hx, Hx, Hs].
      destruct (t !! {| key_id := i; key_workspace := w; key_change_set := CS |}) as [r'|] eqn:Hr'; [|by rewrite Hx, Hs].
      exfalso. destruct (shows v r') eqn:Hs'.
      * pose proof (change_set_row_in_view _ _ Hr' Hw Hcs eq_refl Hs') as Hp.
        specialize (Hmax (_, _) Hr' Hp eq_refl). cbn in Hmax. unfold Visibility.NONE in *. lia.
      * apply not_true_iff_false in Hd. apply Hd, deleted_in_change_set_spec. cbn. split_and!; [done|done|].
        eexists _, r'. split_and!; [exact Hr'|done|done|]. unfold shows in Hs'. apply orb_false_iff in Hs' as [_ Hs'].
        apply bool_decide_eq_false in Hs'. by apply not_eq_None_Some.
  - destruct (decide (is_Some tenancy)) as [[w' Hw]|Hw%eq_None_not_Some]; rewrite Hw; [|done]. cbn zeta. case_decide as Hcs.
    + destruct (t !! {| key_id := i; key_workspace := w'; key_change_set := Visibility.NONE |}) as [r'|] eqn:Hr'; [|done].
      destruct (shows v r') eqn:Hs'; [|done]. intros [= <- <- <-].
      split_and!; [done|apply head_row_in_view; [done..|by left]|].
      intros y _ (_ & _ & Hc & _)%in_model_view_spec _. destruct Hc; rewrite ?Hcs in *; lia.
    + destruct (t !! {| key_id := i; key_workspace := w'; key_change_set := CS |}) as [r'|] eqn:Hr'.
      * rewrite Hr'. destruct (shows v r') eqn:Hs'; [|done]. intros [= <- <- <-].
        split_and!; [done|by apply change_set_row_in_view|].
        intros y _ (_ & _ & Hc & _)%in_model_view_spec _. destruct Hc; unfold Visibility.NONE in *; lia.
      * destruct (t !! {| key_id := i; key_workspace := w'; key_change_set := Visibility.NONE |}) as [r''|] eqn:Hr''; [|done].
        destruct (shows v r'') eqn:Hs'; [|done]. intros [= <- <- <-].
        split_and!; [done|apply head_row_in_view; [done..|by right]|].
        intros [[iy wy cy] ry] Hy (Hwy & _ & Hc & _)%in_model_view_spec Hi. cbn in *. subst iy. rewrite Hw in Hwy. injection Hwy as <-.
        destruct Hc as [->| ->]; [done|]. congruence.
Qed.

Lemma get_by_id_overlay i : get_by_id tenancy v Model t i = overlay tenancy v t i.
Proof.
  unfold get_by_id. cbn [view].
  pose proof (select_distinct_sorted (λ e, key_id e.1) (λ e, in_tenancy_and_visible tenancy v e && negb (deleted_in_change_set v t e)) t) as Hs.
  fold (model_view tenancy v t) in Hs.
  destruct (filter (λ e, key_id e.1 = i) (model_view tenancy v t)) as [|x l] eqn:Hf; cbn.
  - destruct (overlay tenancy v t i) as [x|] eqn:Ho; [|done]. exfalso.
    assert (Hi : key_id x.1 = i).
    { unfold overlay in Ho. destruct tenancy; [|done]. cbn zeta in Ho. destruct (t !! _); [|done]. destruct (shows _ _); [|done].
      injection Ho as <-. cbn. case_decide; [done|]. by destruct (t !! _). }
    rewrite <- Hi in Ho. apply model_view_overlay in Ho. apply (not_elem_of_nil x). rewrite <- Hf. by apply list_elem_of_filter.
  - assert (Hx : x ∈ filter (λ e, key_id e.1 = i) (model_view tenancy v t)) by (rewrite Hf; left).
    apply list_elem_of_filter in Hx as [<- Hx]. symmetry. by apply model_view_overlay.
Qed.
End Overlay.

(** Two tables look the same to a context if they show the same objects. *)
Lemma model_view_ext owner tenancy v t t' : owned owner t → owned owner t' → at_home owner tenancy v →
  (∀ i, overlay tenancy v t' i = overlay tenancy v t i) → model_view tenancy v t' = model_view tenancy v t.
Proof.
  intros Ho Ho' Hh He. eapply (strictly_sorted_eq (λ e, key_id e.1)); [apply select_distinct_sorted..|].
  intros x. by rewrite !(model_view_overlay owner), He.
Qed.

(** ** Writes *)

(** What a context writes by the ids of objects. *)
Inductive write (con : Constraints) (tenancy : option N) (v : Visibility.t) : Table → Table → Prop :=
| write_create now pk i columns t e t' : create tenancy v con now pk i columns t = Ok (e, t') → write con tenancy v t t'
| write_update now pk c i value t n t' : update_by_id tenancy v con now pk c i value t = Ok (n, t') → write con tenancy v t t'
| write_delete now pk i t n t' : delete_by_id tenancy v con now pk i t = Ok (n, t') → write con tenancy v t t'.

Lemma put_ok con k r t t' : put con k r t = Ok t' → t' = <[k := r]> t.
Proof. unfold put. destruct (negb _); [done|]. destruct (existsb _ _); [done|]. by intros [= <-]. Qed.

(** The row breaks a constraint of the table. *)
Definition refused (con : Constraints) (t : Table) (k : Key) (r : Row) : Prop :=
  valid con r = false ∨ ∃ k' r', t !! k' = Some r' ∧ clash con (k, r) (k', r') = true.

Lemma put_or_refused con k r t : put con k r t = Ok (<[k := r]> t) ∨ (∃ e, put con k r t = Err e) ∧ refused con t k r.
Proof.
  unfold put, refused. destruct (valid con r); cbn; [|by eauto]. destruct (existsb _ _) eqn:He; [|by left].
  right. split; [by eexists|]. right. apply existsb_exists in He as ([k' r'] & Hin%list_elem_of_In%elem_of_map_to_list & Hc). eauto.
Qed.

Lemma put_not_refused con k r t : ¬ refused con t k r → put con k r t = Ok (<[k := r]> t).
Proof. intros H. by destruct (put_or_refused con k r t) as [?|[_ ?]]. Qed.

(** A table that demands nothing of rows. *)
Definition lenient (con : Constraints) : Prop := (∀ r, valid con r = true) ∧ unique con = [].

Lemma put_model con k r t : lenient con → put con k r t = Ok (<[k := r]> t).
Proof.
  intros [Hv Hu]. apply put_not_refused. intros [Hr|(k' & r' & _ & Hc)]; [by rewrite Hv in Hr|].
  unfold clash in Hc. by rewrite Hu, andb_false_r in Hc.
Qed.

(** A row of the context's workspace and change set is changed. *)
Definition own_key (tenancy : option N) (v : Visibility.t) (k : Key) : Prop :=
  tenancy = Some (key_workspace k) ∧ key_change_set k = Visibility.change_set_pk v.

Lemma create_changes tenancy v con now pk i columns t e t' : create tenancy v con now pk i columns t = Ok (e, t') →
  own_key tenancy v e.1 ∧ t !! e.1 = None ∧ t' = <[e.1 := e.2]> t.
Proof.
  unfold create. destruct tenancy as [w|]; [|done]. unfold insert_row. cbn zeta. destruct (forallb _ _); [|done].
  destruct (t !! _) eqn:Hk; [done|].
  unfold mbind, result_bind. destruct (put _ _ _ _) as [t1|] eqn:Hp; [|done]. intros [= <- <-].
  by apply put_ok in Hp.
Qed.

Lemma update_changes tenancy v con now pk c i value t n t' : update_by_id tenancy v con now pk c i value t = Ok (n, t') →
  ∃ k r, own_key tenancy v k ∧ key_id k = i ∧ t' = <[k := r]> t.
Proof.
  unfold update_by_id. destruct tenancy as [w|]; [|done]. cbn zeta.
  set (k := {| key_id := i; key_workspace := w; key_change_set := Visibility.change_set_pk v |}).
  assert (Hk : own_key (Some w) v k ∧ key_id k = i) by done. destruct Hk as [Hk Hi].
  destruct ((t !! k) ≫= (λ r, if updatable v r then Some r else None)) as [r|].
  - intros (r' & _ & (t1 & Hp%put_ok & [= <- <-])%result_bind_ok)%result_bind_ok. eauto.
  - case_decide; [done|]. destruct (t !! {| key_id := i; key_workspace := w; key_change_set := Visibility.NONE |}) as [h|]; [|done].
    destruct (copied v h); [|done]. intros (r' & _ & Hr)%result_bind_ok. destruct (t !! k) as [r|].
    + destruct (valid con r' && valid con r); [|done]. injection Hr as <- <-. eauto.
    + apply result_bind_ok in Hr as (t1 & Hp%put_ok & [= <- <-]). eauto.
Qed.

Lemma write_changes con tenancy v t t' : write con tenancy v t t' → ∃ k r, own_key tenancy v k ∧ t' = <[k := r]> t.
Proof.
  destruct 1 as [now pk i columns t e t' H|now pk c i value t n t' H|now pk i t n t' H].
  - apply create_changes in H as (? & _ & ?). eauto.
  - apply update_changes in H as (k & r & ? & _ & ?). eauto.
  - apply update_changes in H as (k & r & ? & _ & ?). eauto.
Qed.

Lemma owned_insert owner tenancy v t k r : owned owner t → at_home owner tenancy v → own_key tenancy v k → owned owner (<[k := r]> t).
Proof.
  intros Ho Hh [Hw Hc] k' r'. rewrite lookup_insert. case_decide as Hk; [|apply Ho]. subst k'. intros _ Hne.
  rewrite Hc in *. by apply Hh.
Qed.

Lemma write_owned owner con tenancy v t t' : owned owner t → at_home owner tenancy v → write con tenancy v t t' → owned owner t'.
Proof. intros Ho Hh (k & r & Hk & ->)%write_changes. by eapply owned_insert. Qed.

(** The rows of other change sets and of head are not read here. *)
Lemma overlay_insert_other tenancy v tenancy' v' t k r i : own_key tenancy v k → Visibility.change_set_pk v ≠ Visibility.NONE →
  Visibility.change_set_pk v' ≠ Visibility.change_set_pk v → overlay tenancy' v' (<[k := r]> t) i = overlay tenancy' v' t i.
Proof.
  intros [_ Hc] Hne Hne'. unfold overlay. destruct tenancy' as [w|]; [|done]. cbn zeta.
  assert (H : ∀ cs, cs ≠ Visibility.change_set_pk v →
    (<[k := r]> t : Table) !! {| key_id := i; key_workspace := w; key_change_set := cs |} =
    t !! {| key_id := i; key_workspace := w; key_change_set := cs |}).
  { intros cs Hcs. apply lookup_insert_ne. intros ->. cbn in Hc. congruence. }
  case_decide as Hd; [by rewrite H|]. rewrite (H _ Hne'). destruct (t !! _); rewrite ?H by done; done.
Qed.

(** C4: whatever a context creates, updates and deletes in its change set, every context
    of another change set or of head lists the same objects as before. *)
Theorem writes_stay_in_their_change_set owner con tenancy v tenancy' v' t t' :
  owned owner t → at_home owner tenancy v → at_home owner tenancy' v' →
  Visibility.change_set_pk v ≠ Visibility.NONE → Visibility.change_set_pk v' ≠ Visibility.change_set_pk v →
  rtc (write con tenancy v) t t' → list_models tenancy' v' Model t' = list_models tenancy' v' Model t.
Proof.
  intros Ho Hh Hh' Hne Hne' Hw. unfold list_models. cbn [view]. induction Hw as [|t t1 t' H1 _ IH]; [done|].
  pose proof (write_owned _ _ _ _ _ _ Ho Hh H1) as Ho1. rewrite (IH Ho1). apply write_changes in H1 as (k & r & Hk & ->).
  apply (model_view_ext owner); [done..|]. intros i. by eapply overlay_insert_other.
Qed.

(** ** Reading what was written *)

Section ReadBack.
Context (owner : N → N) (workspace : N) (v : Visibility.t).
Hypothesis Hlive : Visibility.deleted_at v = None.
Hypothesis Hhome : at_home owner (Some workspace) v.

Definition key_of (i : N) : Key :=
  {| key_id := i; key_workspace := workspace; key_change_set := Visibility.change_set_pk v |}.

Lemma overlay_own t i r : overlay (Some workspace) v (<[key_of i := r]> t) i = if shows v r then Some (key_of i, r) else None.
Proof.
  unfold overlay, key_of. cbn zeta. case_decide as Hd; [rewrite Hd|]; by rewrite !lookup_insert_eq.
Qed.

Lemma overlay_insert_else t i j r v' : i ≠ j → overlay (Some workspace) v' (<[key_of i := r]> t) j = overlay (Some workspace) v' t j.
Proof.
  intros Hne. unfold overlay. cbn zeta.
  assert (H : ∀ cs, (<[key_of i := r]> t : Table) !! {| key_id := j; key_workspace := workspace; key_change_set := cs |} =
    t !! {| key_id := j; key_workspace := workspace; key_change_set := cs |}).
  { intros cs. apply lookup_insert_ne. intros [=]. congruence. }
  case_decide; rewrite !H; [done|]. destruct (t !! _); by rewrite H.
Qed.

Lemma shows_live r : shows v r = bool_decide (row_deleted_at r = None).
Proof. unfold shows, Visibility.is_deleted. by rewrite Hlive. Qed.

(** What can be read can be updated, unless the new row is refused. *)
Lemma put_bind con now k r t :
  (t' ← put con k r t; Ok (now, t')) = Ok (now, <[k := r]> t) ∨
  (∃ e, (t' ← put con k r t; Ok (now, t')) = @Err StandardModelError (N * Table) e) ∧ refused con t k r.
Proof. destruct (put_or_refused con k r t) as [->|[[e ->] Hr]]; [by left|]. right. split; [by exists e|done]. Qed.

Lemma update_shown con now pk c value t i k r : overlay (Some workspace) v t i = Some (k, r) →
  ∃ written : Row → Row, (∀ r', row_columns (written r') = row_columns r' ∧ row_deleted_at (written r') = row_deleted_at r') ∧
    update_by_id (Some workspace) v con now pk c i value t =
      (r' ← set_column con c value r; t' ← put con (key_of i) (written r') t; Ok (now, t')).
Proof.
  intros Ho. unfold overlay in Ho. cbn zeta in Ho. unfold update_by_id. cbn zeta. fold (key_of i) in Ho |- *.
  assert (Hu : ∀ r, updatable v r = shows v r) by done.
  assert (Hcp : ∀ r, copied v r = shows v r) by (intros x; unfold copied, shows, Visibility.is_deleted; by rewrite Hlive).
  case_decide as Hd.
  - rewrite <- Hd in Ho. fold (key_of i) in Ho. destruct (t !! key_of i) as [x|]; [|done].
    destruct (shows v x) eqn:Hs; [|done]. injection Ho as _ ->. exists (with_updated_at now). split; [done|].
    cbn [mbind option_bind]. by rewrite Hu, Hs.
  - destruct (t !! key_of i) as [x|] eqn:Hx.
    + rewrite Hx in Ho. destruct (shows v x) eqn:Hs; [|done]. injection Ho as _ ->. exists (with_updated_at now). split; [done|].
      cbn [mbind option_bind]. by rewrite Hu, Hs.
    + cbn [mbind option_bind]. destruct (t !! {| key_id := i; key_workspace := workspace; key_change_set := Visibility.NONE |}) as [h|]; [|done].
      destruct (shows v h) eqn:Hs; [|done]. injection Ho as _ ->.
      exists (λ r', {| row_pk := pk; row_deleted_at := row_deleted_at r'; row_created_at := now; row_updated_at := now; row_columns := row_columns r' |}).
      split; [done|]. by rewrite Hcp, Hs.
Qed.

Lemma update_visible con now pk c value t i k r r' : overlay (Some workspace) v t i = Some (k, r) → set_column con c value r = Ok r' →
  ∃ r'', row_columns r'' = row_columns r' ∧ row_deleted_at r'' = row_deleted_at r' ∧
    (update_by_id (Some workspace) v con now pk c i value t = Ok (now, <[key_of i := r'']> t) ∨
     (∃ e, update_by_id (Some workspace) v con now pk c i value t = Err e) ∧ refused con t (key_of i) r'').
Proof.
  intros Ho Hc. destruct (update_shown con now pk c value t i k r Ho) as (written & Hw & ->). rewrite Hc.
  destruct (Hw r') as [H1 H2]. exists (written r'). split_and!; [done|done|]. apply put_bind.
Qed.

Lemma owned_own t i r : owned owner t → owned owner (<[key_of i := r]> t).
Proof. intros Ho. by apply (owned_insert _ (Some workspace) v). Qed.

Lemma at_home_deleted now : at_home owner (Some workspace) (Visibility.to_deleted now v).
Proof. exact Hhome. Qed.

(** The context shows the row, and the other objects as before. *)
Lemma get_after_insert t i r : owned owner t → row_deleted_at r = None →
  get_by_id (Some workspace) v Model (<[key_of i := r]> t) i = Some (key_of i, r) ∧
  ∀ j, j ≠ i → get_by_id (Some workspace) v Model (<[key_of i := r]> t) j = get_by_id (Some workspace) v Model t j.
Proof.
  intros Ho Hr. split.
  - rewrite (get_by_id_overlay owner) by (done || by apply owned_own). by rewrite overlay_own, shows_live, Hr.
  - intros j Hj. rewrite !(get_by_id_overlay owner) by (done || by apply owned_own). by apply overlay_insert_else.
Qed.

Lemma get_after_delete now t i r n : owned owner t → row_deleted_at r = Some n →
  get_by_id (Some workspace) v Model (<[key_of i := r]> t) i = None ∧
  get_by_id (Some workspace) (Visibility.to_deleted now v) Model (<[key_of i := r]> t) i = Some (key_of i, r) ∧
  ∀ j, j ≠ i → get_by_id (Some workspace) v Model (<[key_of i := r]> t) j = get_by_id (Some workspace) v Model t j.
Proof.
  intros Ho Hr. split_and!.
  - rewrite (get_by_id_overlay owner) by (done || by apply owned_own). by rewrite overlay_own, shows_live, Hr.
  - rewrite (get_by_id_overlay owner) by (done || by apply owned_own || apply at_home_deleted).
    unfold overlay, key_of. cbn. case_decide as Hd; [rewrite Hd|]; by rewrite !lookup_insert_eq.
  - intros j Hj. rewrite !(get_by_id_overlay owner) by (done || by apply owned_own). by apply overlay_insert_else.
Qed.

Lemma overlay_live t i k r : overlay (Some workspace) v t i = Some (k, r) → row_deleted_at r = None.
Proof.
  unfold overlay. cbn zeta. destruct (t !! _) as [x|]; [|done]. rewrite shows_live. case_bool_decide; [|done]. by intros [= _ <-].
Qed.

Lemma set_accepted con c value r : c ≠ deleted_at_column → accepts con c value = true →
  set_column con c value r = Ok {| row_pk := row_pk r; row_deleted_at := row_deleted_at r; row_created_at := row_created_at r;
    row_updated_at := row_updated_at r; row_columns := <[c := value]> (row_columns r) |}.
Proof. intros Hc Ha. unfold set_column. by rewrite decide_False, Ha. Qed.

Lemma set_bad con c value r : c ≠ deleted_at_column → accepts con c value = false → set_column con c value r = Err BadValue.
Proof. intros Hc Ha. unfold set_column. by rewrite decide_False, Ha. Qed.

Lemma update_bad_value con now pk c value t i k r : overlay (Some workspace) v t i = Some (k, r) → c ≠ deleted_at_column →
  accepts con c value = false → update_by_id (Some workspace) v con now pk c i value t = Err BadValue.
Proof.
  intros Ho Hc Ha. destruct (update_shown con now pk c value t i k r Ho) as (written & _ & ->). by rewrite set_bad.
Qed.

Lemma forallb_accepts con (columns : gmap string Value) : (∀ c value, columns !! c = Some value → accepts con c value = true) →
  forallb (λ p, accepts con p.1 p.2) (map_to_list columns) = true.
Proof. intros H. apply forallb_forall. intros [c x] Hin%list_elem_of_In%elem_of_map_to_list. by apply H. Qed.
End ReadBack.

(** C23: in head and in every change set, an object that is created with values that its
    columns take can be read; an object that can be read can be updated, and is then read
    with the new value and else as before; it can be deleted, and is then read only by
    those who ask for deleted objects. Other objects are not changed. All this unless the
    row that is written breaks a constraint of its table, a check or a unique index. A
    value that its column does not take is refused. *)
Theorem writes_are_read_back owner con workspace v now pk t i :
  owned owner t → at_home owner (Some workspace) v → Visibility.deleted_at v = None →
  let get := get_by_id (Some workspace) v Model in
  (∀ columns, t !! key_of workspace v i = None → (∀ c value, columns !! c = Some value → accepts con c value = true) →
     ∃ r, row_columns r = columns ∧
       let w := create (Some workspace) v con now pk i columns t in
       (∃ t', w = Ok (key_of workspace v i, r, t') ∧ get t' i = Some (key_of workspace v i, r) ∧ ∀ j, j ≠ i → get t' j = get t j) ∨
       (∃ e, w = Err e) ∧ refused con t (key_of workspace v i) r) ∧
  (∀ k r, get t i = Some (k, r) →
     (∀ c value, c ≠ deleted_at_column →
        let w := update_by_id (Some workspace) v con now pk c i value t in
        if accepts con c value then
          ∃ r', row_columns r' = <[c := value]> (row_columns r) ∧
            ((∃ t', w = Ok (now, t') ∧ get t' i = Some (key_of workspace v i, r') ∧ ∀ j, j ≠ i → get t' j = get t j) ∨
             (∃ e, w = Err e) ∧ refused con t (key_of workspace v i) r')
        else w = Err BadValue) ∧
     (∃ r', row_columns r' = row_columns r ∧
        let w := delete_by_id (Some workspace) v con now pk i t in
        (∃ t', w = Ok (now, t') ∧ get t' i = None ∧
           get_by_id (Some workspace) (Visibility.to_deleted now v) Model t' i = Some (key_of workspace v i, r') ∧
           ∀ j, j ≠ i → get t' j = get t j) ∨
        (∃ e, w = Err e) ∧ refused con t (key_of workspace v i) r')).
Proof.
  intros Ho Hh Hl get. split.
  - intros columns Hk Hcols. unfold create, insert_row. cbn zeta. fold (key_of workspace v i). rewrite Hk, (forallb_accepts con columns Hcols).
    set (r := {| row_pk := _; row_deleted_at := _; row_created_at := _; row_updated_at := _; row_columns := _ |}). exists r.
    split; [done|]. destruct (put_or_refused con (key_of workspace v i) r t) as [->|[[e ->] Hr]]; [left|right; split; [by exists e|done]].
    destruct (get_after_insert owner workspace v Hl Hh t i r Ho Hl) as [H1 H2]. by eexists.
  - intros k r Hg. unfold get in Hg. rewrite (get_by_id_overlay owner) in Hg by done.
    pose proof (overlay_live workspace v Hl _ _ _ _ Hg) as Hr. split.
    + intros c value Hc. destruct (accepts con c value) eqn:Hacc; [|by apply (update_bad_value workspace v Hl con now pk c value t i k r)].
      destruct (update_visible workspace v Hl con now pk c value t i k r _ Hg (set_accepted con c value r Hc Hacc)) as (r' & Hcol & Hdel & Hw).
      cbn in Hcol, Hdel. exists r'. split; [done|]. destruct Hw as [Hw|Hw]; [left|by right]. rewrite Hr in Hdel.
      destruct (get_after_insert owner workspace v Hl Hh t i r' Ho Hdel) as [H1 H2]. by eexists.
    + destruct (update_visible workspace v Hl con now pk deleted_at_column (Timestamp now) t i k r _ Hg eq_refl) as (r' & Hcol & Hdel & Hw).
      cbn in Hcol, Hdel. exists r'. split; [done|]. destruct Hw as [Hw|Hw]; [left|by right].
      destruct (get_after_delete owner workspace v Hl Hh now t i r' now Ho Hdel) as (H1 & H2 & H3). by eexists.
Qed.

(** C11: a context shows of a model what it has in its change set, and what is in head of
    the objects that the change set does not touch; deleted objects are shown only to
    those who ask for them, and one that is deleted in the change set does not show its
    row of head. Objects are listed once each, by their ids. *)
Theorem views_are_overlays owner tenancy v t : owned owner t → at_home owner tenancy v →
  (∀ i, get_by_id tenancy v Model t i = overlay tenancy v t i) ∧
  StronglySorted (λ a b, key_id a.1 < key_id b.1)%N (list_models tenancy v Model t) ∧
  ∀ x, x ∈ list_models tenancy v Model t ↔ overlay tenancy v t (key_id x.1) = Some x.
Proof.
  intros Ho Hh. split_and!.
  - intros i. by apply (get_by_id_overlay owner).
  - apply (select_distinct_sorted (λ e, key_id e.1)).
  - intros x. by apply (model_view_overlay owner).
Qed.
