(* ===== verification/ChangeSets.v ===== *)
(** * Change sets

    Model of [src/lib/dal/src/change_set.rs] with [change_set_apply_v1] of
    [migrations/U0022__change_sets.sql], over the tables of [StandardModel]. Applying a
    change set copies its rows to head. *)

From S2P Require Import Prelude DalContext StandardModel ModelViews.
From Stdlib Require Import NArith Strings.String Sorting.Sorted.
From stdpp Require Import base tactics list gmap strings.

(** ** Data *)

Inductive ChangeSetStatus : Set := Abandoned | Applied | Closed | Failed | Open.

#[global] Instance ChangeSetStatus_eq_dec : EqDecision ChangeSetStatus.
Proof. solve_decision. Defined.

Record ChangeSet := {
  pk : N;
  name : string;
  note : option string;
  status : ChangeSetStatus;
  workspace : option N;
  updated_at : N;
}.

(** The tables of the standard models with their types and constraints, and the table of
    change sets. The ids that the constraints of associations ask for are those of other
    tables, to which applying adds none. *)
Record Db := {
  models : gmap string (TableType * Constraints * Table);
  change_sets : gmap N ChangeSet;
}.

(** ** Operations *)

Section Operations.
Context (tenancy : option N) (now : N).

(** The key is made by the database. *)
Definition new (made : N) (name : string) (note : option string) (db : Db) : ChangeSet * Db :=
  let c := {| pk := made; name := name; note := note; status := Open; workspace := tenancy; updated_at := now |} in
  (c, {| models := models db; change_sets := <[made := c]> (change_sets db) |}).

Definition of_tenancy (c : ChangeSet) : bool :=
  match workspace c with Some w => in_tenancy tenancy w | None => false end.

Definition list_open (db : Db) : list ChangeSet :=
  filter (λ c, status c = Open ∧ of_tenancy c = true) (map_to_list (change_sets db)).*2.

Definition get_by_pk (i : N) (db : Db) : option ChangeSet :=
  c ← change_sets db !! i; if of_tenancy c then Some c else None.

Section Table_.
Context (change_set : N) (con : Constraints) (made : Key → N).

(** The rows that are copied. *)
Definition in_change_set (e : Key * Row) : Prop :=
  key_change_set e.1 = change_set ∧ in_tenancy tenancy (key_workspace e.1) = true.

#[export] Instance in_change_set_dec e : Decision (in_change_set e).
Proof. unfold in_change_set. apply _. Defined.

(** First the rows of head are deleted whose objects are deleted in the change set. *)
Definition deleted_by (t : Table) (k : Key) (r : Row) : bool :=
  bool_decide (key_change_set k = Visibility.NONE) && bool_decide (row_deleted_at r = None) &&
  in_tenancy tenancy (key_workspace k) &&
  existsb (λ e, bool_decide (key_id e.1 = key_id k) && bool_decide (in_change_set e) &&
                bool_decide (row_deleted_at e.2 ≠ None)) (map_to_list t).

Definition marked (t : Table) : list (Key * Row) :=
  (λ e, (e.1, with_updated_at now (with_deleted_at (Some now) e.2))) <$> filter (λ e, deleted_by t e.1 e.2 = true) (map_to_list t).

(** The rows of a statement are written one after the other. *)
Fixpoint put_all (es : list (Key * Row)) (t : Table) : result StandardModelError Table :=
  match es with
  | [] => Ok t
  | (k, r) :: es => t ← put con k r t; put_all es t
  end.

Definition mark_deleted (t : Table) : result StandardModelError Table := put_all (marked t) t.

Definition head_key (k : Key) : Key :=
  {| key_id := key_id k; key_workspace := key_workspace k; key_change_set := Visibility.NONE |}.

(** Then the rows of the change set are inserted into head, or update the rows there. *)
Definition published (e : Key * Row) (old : option Row) : Row :=
  {| row_pk := match old with Some r => row_pk r | None => made (head_key e.1) end;
     row_deleted_at := row_deleted_at e.2;
     row_created_at := match old with Some r => row_created_at r | None => now end;
     row_updated_at := now;
     row_columns := row_columns e.2 |}.

Definition publications (t : Table) : list (Key * Row) :=
  (λ e, (head_key e.1, published e (t !! head_key e.1))) <$> filter in_change_set (map_to_list t).

Definition publish (t : Table) : result StandardModelError Table := put_all (publications t) t.

Definition apply_table (t : Table) : result StandardModelError Table := t ← mark_deleted t; publish t.
End Table_.

(** The loop over the standard models. *)
Fixpoint apply_tables (change_set : N) (made : string → Key → N) (l : list (string * (TableType * Constraints * Table)))
    (db : gmap string (TableType * Constraints * Table)) : result StandardModelError (gmap string (TableType * Constraints * Table)) :=
  match l with
  | [] => Ok db
  | (n, (ty, con, t)) :: l =>
      t ← apply_table change_set con (made n) t;
      apply_tables change_set made l (<[n := (ty, con, t)]> db)
  end.

Definition with_status (s : ChangeSetStatus) (c : ChangeSet) : ChangeSet :=
  {| pk := pk c; name := name c; note := note c; status := s; workspace := workspace c; updated_at := now |}.
End Operations.

(** [ChangeSet::apply]: the change set, the visibility of the context, and the tables.
    The rows are those of the tenancy of the change set; its status is not looked at. *)
Definition apply (now : N) (made : string → Key → N) (c : ChangeSet) (db : Db) :
    result StandardModelError (ChangeSet * Visibility.t * Db) :=
  match change_sets db !! pk c with
  | None => Err NoRow
  | Some row =>
      tables ← apply_tables (workspace c) now (pk c) made (map_to_list (models db)) (models db);
      Ok (with_status now Applied c, Visibility.new_head now false,
          {| models := tables; change_sets := <[pk c := with_status now Applied row]> (change_sets db) |})
  end.

(** ** What applying does to a table *)

(** What is in a row, less its key and its times. *)
Definition content (r : Row) : option N * gmap string Value := (row_deleted_at r, row_columns r).

(** The rows break no constraint, in the table and next to each other. *)
Definition fits (con : Constraints) (es : list (Key * Row)) (t : Table) : Prop :=
  ∀ k r, (k, r) ∈ es → valid con r = true ∧
    (∀ k' r', t !! k' = Some r' → clash con (k, r) (k', r') = false) ∧
    ∀ k' r', (k', r') ∈ es → clash con (k, r) (k', r') = false.

Section PutAll.
Context (con : Constraints).

Lemma put_all_ok es t t' : NoDup es.*1 → put_all con es t = Ok t' →
  (∀ k r, (k, r) ∈ es → t' !! k = Some r) ∧ ∀ k, k ∉ es.*1 → t' !! k = t !! k.
Proof.
  revert t. induction es as [|[k r] es IH]; intros t Hnd; cbn [put_all].
  { intros [= <-]. split; [by intros k r ?%elem_of_nil|done]. }
  cbn in Hnd. apply NoDup_cons in Hnd as [Hk Hnd]. intros (t1 & ->%put_ok & Ht)%result_bind_ok.
  destruct (IH _ Hnd Ht) as [H1 H2]. split.
  - intros k' r' [[= -> ->]|Hin]%elem_of_cons; [|by apply H1]. by rewrite H2, lookup_insert_eq.
  - intros k' Hk'. cbn in Hk'. apply not_elem_of_cons in Hk' as [Hne Hk']. by rewrite H2, lookup_insert_ne.
Qed.

Lemma put_all_total es t : NoDup es.*1 → fits con es t → ∃ t', put_all con es t = Ok t'.
Proof.
  revert t. induction es as [|[k r] es IH]; intros t Hnd Hf; cbn [put_all]; [by eexists|].
  cbn in Hnd. apply NoDup_cons in Hnd as [Hk Hnd]. destruct (Hf k r ltac:(left)) as (Hv & Ht & _).
  rewrite put_not_refused; [cbn [mbind result_bind]; apply IH; [done|]|].
  - intros k1 r1 Hin. destruct (Hf k1 r1 ltac:(by right)) as (Hv1 & Ht1 & He1). split_and!; [done| |].
    + intros k2 r2. rewrite lookup_insert. case_decide as Hd; [|apply Ht1]. intros [= <-]. subst k2. apply He1. left.
    + intros k2 r2 Hin2. apply He1. by right.
  - intros [Hr|(k' & r' & Hk' & Hc)]; [congruence|]. by rewrite (Ht k' r' Hk') in Hc.
Qed.
End PutAll.

Lemma fits_lenient con es t : lenient con → fits con es t.
Proof.
  intros [Hv Hu] k r _. assert (Hc : ∀ x, clash con (k, r) x = false) by (intros x; unfold clash; by rewrite Hu, andb_false_r).
  split_and!; [done|by intros|by intros].
Qed.

(** No row that applying writes breaks a constraint of its table. *)
Definition applicable (tenancy : option N) (now cs : N) (con : Constraints) (made : Key → N) (t : Table) : Prop :=
  fits con (marked tenancy now cs t) t ∧
  ∀ t1, mark_deleted tenancy now cs con t = Ok t1 → fits con (publications tenancy now cs made t1) t1.

Section ApplyTable.
Context (w now cs : N) (con : Constraints) (made : Key → N).
Hypothesis Hcs : cs ≠ Visibility.NONE.
Abbreviation key i c := {| key_id := i; key_workspace := w; key_change_set := c |}.

Lemma marked_NoDup t : NoDup (marked (Some w) now cs t).*1.
Proof.
  unfold marked. rewrite <- list_fmap_compose. change (NoDup (fst <$> filter (λ e, deleted_by (Some w) cs t e.1 e.2 = true) (map_to_list t))).
  apply NoDup_fmap_2_strong; [|apply NoDup_filter, NoDup_map_to_list].
  intros [k r] [k' r'] [_ Hx%elem_of_map_to_list]%list_elem_of_filter [_ Hy%elem_of_map_to_list]%list_elem_of_filter. cbn. intros <-. congruence.
Qed.

Lemma mark_deleted_lookup t t1 k : mark_deleted (Some w) now cs con t = Ok t1 → t1 !! k =
  (λ r, if deleted_by (Some w) cs t k r then with_updated_at now (with_deleted_at (Some now) r) else r) <$> t !! k.
Proof.
  intros [H1 H2]%put_all_ok; [|apply marked_NoDup]. destruct (t !! k) as [r|] eqn:Hr; cbn.
  - destruct (deleted_by (Some w) cs t k r) eqn:Hd.
    + apply H1. apply list_elem_of_fmap. exists (k, r). split; [done|]. by apply list_elem_of_filter; rewrite elem_of_map_to_list.
    + rewrite H2; [done|]. unfold marked. rewrite <- list_fmap_compose.
      intros ([k' r'] & -> & [Hd' Hk'%elem_of_map_to_list]%list_elem_of_filter)%list_elem_of_fmap. cbn in *. congruence.
  - rewrite H2; [done|]. unfold marked. rewrite <- list_fmap_compose.
    intros ([k' r'] & -> & [_ Hk'%elem_of_map_to_list]%list_elem_of_filter)%list_elem_of_fmap. cbn in *. congruence.
Qed.

(** Rows of change sets are not marked. *)
Lemma mark_deleted_change_set t t1 k : mark_deleted (Some w) now cs con t = Ok t1 → key_change_set k ≠ Visibility.NONE → t1 !! k = t !! k.
Proof.
  intros Ht Hk. rewrite (mark_deleted_lookup t t1 k Ht). destruct (t !! k) as [r|]; [|done]. cbn. unfold deleted_by.
  by rewrite (bool_decide_eq_false_2 _ Hk).
Qed.

(** Rows of head that are marked are overwritten. *)
Lemma mark_deleted_untouched t t1 k : mark_deleted (Some w) now cs con t = Ok t1 → t !! key (key_id k) cs = None → t1 !! k = t !! k.
Proof.
  intros Ht Hno. rewrite (mark_deleted_lookup t t1 k Ht). destruct (t !! k) as [r|]; [|done]. cbn.
  destruct (deleted_by (Some w) cs t k r) eqn:Hd; [|done]. exfalso. unfold deleted_by in Hd.
  apply andb_true_iff in Hd as [_ Hd]. apply existsb_exists in Hd as ([[i w' c] r'] & Hin & Hd).
  rewrite !andb_true_iff, !bool_decide_eq_true in Hd. destruct Hd as [[Hi [Hc Hw]] _]. cbn in *.
  apply list_elem_of_In, elem_of_map_to_list in Hin. unfold in_tenancy in Hw. rewrite bool_decide_eq_true in Hw.
  injection Hw as <-. subst. congruence.
Qed.

Lemma in_change_set_rows t e : e ∈ filter (in_change_set (Some w) cs) (map_to_list t) ↔
  ∃ i r, e = (key i cs, r) ∧ t !! key i cs = Some r.
Proof.
  rewrite list_elem_of_filter. destruct e as [[i w' c] r]. rewrite elem_of_map_to_list. unfold in_change_set, in_tenancy. cbn.
  rewrite bool_decide_eq_true. split.
  - intros [[-> [= ->]] Hr]. by exists i, r.
  - intros (i' & r' & He & Hr). injection He as -> -> -> ->. done.
Qed.

Lemma publications_NoDup t : NoDup (publications (Some w) now cs made t).*1.
Proof.
  unfold publications. rewrite <- list_fmap_compose. apply NoDup_fmap_2_strong; [|apply NoDup_filter, NoDup_map_to_list].
  intros x y (i & r & -> & Hx)%in_change_set_rows (j & r' & -> & Hy)%in_change_set_rows. cbn. intros [= ->]. congruence.
Qed.

(** The rows after applying: in head those of the change set, and the others as before. *)
Lemma apply_table_ok t t' : apply_table (Some w) now cs con made t = Ok t' →
  (∀ i r, t !! key i cs = Some r → content <$> t' !! key i Visibility.NONE = Some (content r)) ∧
  (∀ k, (key_workspace k ≠ w ∨ key_change_set k ≠ Visibility.NONE ∨ t !! key (key_id k) cs = None) → t' !! k = t !! k).
Proof.
  intros (t1 & Ht1 & [H1 H2]%put_all_ok)%result_bind_ok; [|apply publications_NoDup].
  assert (Hrow : ∀ i, t1 !! key i cs = t !! key i cs) by (intros i; by apply mark_deleted_change_set). split.
  - intros i r Hr. rewrite (H1 (key i Visibility.NONE) (published now made (key i cs, r) (t1 !! key i Visibility.NONE))); [done|].
    apply list_elem_of_fmap. exists (key i cs, r). split; [done|]. apply in_change_set_rows. exists i, r. by rewrite Hrow.
  - intros k Hk. rewrite H2.
    + destruct Hk as [Hk|[Hk|Hk]]; [|by apply mark_deleted_change_set|by apply mark_deleted_untouched].
      rewrite (mark_deleted_lookup t t1 k Ht1). destruct (t !! k) as [r|]; [|done]. cbn. unfold deleted_by, in_tenancy.
      rewrite (bool_decide_eq_false_2 (Some w = _)) by congruence. by rewrite andb_false_r.
    + unfold publications. rewrite <- list_fmap_compose.
      intros (e & -> & (i & r & -> & Hr)%in_change_set_rows)%list_elem_of_fmap. cbn in Hk. rewrite Hrow in Hr.
      destruct Hk as [?|[?|?]]; [done|done|congruence].
Qed.

Lemma apply_table_total t : applicable (Some w) now cs con made t → ∃ t', apply_table (Some w) now cs con made t = Ok t'.
Proof.
  intros [Hm Hp]. destruct (put_all_total con _ t (marked_NoDup t) Hm) as [t1 Ht1].
  unfold apply_table, mark_deleted. rewrite Ht1. cbn [mbind result_bind].
  apply put_all_total; [apply publications_NoDup|by apply Hp].
Qed.
End ApplyTable.

(** ** What is shown after applying *)

(** The ids and contents that a context lists. *)
Definition shown (tenancy : option N) (v : Visibility.t) (t : Table) : list (N * (option N * gmap string Value)) :=
  (λ e, (key_id e.1, content e.2)) <$> list_models tenancy v Model t.

Definition visibility_of (cs : N) (d : option N) : Visibility.t :=
  {| Visibility.change_set_pk := cs; Visibility.deleted_at := d |}.

Lemma overlay_id tenancy v t i x : overlay tenancy v t i = Some x → key_id x.1 = i.
Proof.
  unfold overlay. destruct tenancy as [w|]; [|done]. cbn zeta. destruct (t !! _) as [r|]; [|done].
  destruct (shows v r); [|done]. intros [= <-]. cbn. case_decide; [done|]. by destruct (t !! _).
Qed.

Lemma elem_of_listed owner tenancy v t p : owned owner t → at_home owner tenancy v →
  p ∈ shown tenancy v t ↔ (λ e, content e.2) <$> overlay tenancy v t p.1 = Some p.2.
Proof.
  intros Ho Hh. unfold shown, list_models. cbn [view]. rewrite list_elem_of_fmap, fmap_Some. destruct p as [i c]. cbn. split.
  - intros (e & [= -> ->] & He). rewrite (model_view_overlay owner) in He by done. by exists e.
  - intros (e & He & ->). pose proof (overlay_id _ _ _ _ _ He) as <-. exists e. split; [done|].
    by rewrite (model_view_overlay owner).
Qed.

Lemma shown_sorted tenancy v t : StronglySorted (λ a b, a.1 < b.1)%N (shown tenancy v t).
Proof.
  unfold shown, list_models. cbn [view]. pose proof (select_distinct_sorted (λ e, key_id e.1)
    (λ e, in_tenancy_and_visible tenancy v e && negb (deleted_in_change_set v t e)) t) as H. fold (model_view tenancy v t) in H.
  induction H as [|e l _ IH He]; constructor; [done|]. cbn. by apply Forall_fmap.
Qed.

Lemma shown_ext owner tenancy v t tenancy' v' t' : owned owner t → owned owner t' → at_home owner tenancy v →
  at_home owner tenancy' v' →
  (∀ i, (λ e, content e.2) <$> overlay tenancy v t i = (λ e, content e.2) <$> overlay tenancy' v' t' i) →
  shown tenancy v t = shown tenancy' v' t'.
Proof.
  intros Ho Ho' Hh Hh' He. apply (strictly_sorted_eq fst); [apply shown_sorted..|].
  intros p. by rewrite !(elem_of_listed owner), He.
Qed.

Lemma at_home_head owner tenancy d : at_home owner tenancy (visibility_of Visibility.NONE d).
Proof. by intros w _ H. Qed.

(** The overlay of head after applying is that of the change set before. *)
Lemma applied_overlay w cs d t t' : cs ≠ Visibility.NONE →
  (∀ i r, t !! {| key_id := i; key_workspace := w; key_change_set := cs |} = Some r →
     content <$> t' !! {| key_id := i; key_workspace := w; key_change_set := Visibility.NONE |} = Some (content r)) →
  (∀ k, (key_workspace k ≠ w ∨ key_change_set k ≠ Visibility.NONE ∨
         t !! {| key_id := key_id k; key_workspace := w; key_change_set := cs |} = None) → t' !! k = t !! k) →
  ∀ i, (λ e, content e.2) <$> overlay (Some w) (visibility_of Visibility.NONE d) t' i =
       (λ e, content e.2) <$> overlay (Some w) (visibility_of cs d) t i.
Proof.
  intros Hcs H1 H2 i. unfold overlay. cbn zeta.
  change (Visibility.change_set_pk (visibility_of Visibility.NONE d)) with Visibility.NONE.
  change (Visibility.change_set_pk (visibility_of cs d)) with cs. rewrite decide_True, decide_False by done.
  assert (Hsh : ∀ r r', content r = content r' →
    shows (visibility_of Visibility.NONE d) r = shows (visibility_of cs d) r').
  { intros r r' [= He _]. unfold shows, Visibility.is_deleted. cbn. by rewrite He. }
  destruct (t !! {| key_id := i; key_workspace := w; key_change_set := cs |}) as [r|] eqn:Hr.
  - rewrite Hr. destruct (proj1 (fmap_Some _ _ _) (H1 i r Hr)) as (r' & -> & Hc). rewrite (Hsh r' r) by done.
    destruct (shows _ r); [|done]. cbn. by rewrite Hc.
  - rewrite H2 by (cbn; auto).
    destruct (t !! {| key_id := i; key_workspace := w; key_change_set := Visibility.NONE |}) as [h|]; [|done].
    rewrite (Hsh h h) by done. by destruct (shows _ h).
Qed.

Lemma apply_tables_ok tenancy now cs made l db db' : NoDup l.*1 → apply_tables tenancy now cs made l db = Ok db' →
  (∀ n ty con t, (n, (ty, con, t)) ∈ l → ∃ t', apply_table tenancy now cs con (made n) t = Ok t' ∧ db' !! n = Some (ty, con, t')) ∧
  ∀ n, n ∉ l.*1 → db' !! n = db !! n.
Proof.
  revert db. induction l as [|[n [[ty con] t]] l IH]; intros db Hnd; cbn [apply_tables].
  { intros [= <-]. split; [by intros n ty con t ?%elem_of_nil|done]. }
  cbn in Hnd. apply NoDup_cons in Hnd as [Hn Hnd]. intros (t' & Ht & Hl)%result_bind_ok.
  destruct (IH _ Hnd Hl) as [H1 H2]. split.
  - intros n' ty' con' u [[= -> -> -> ->]|Hin]%elem_of_cons; [|by apply H1]. exists t'. split; [done|]. by rewrite H2, lookup_insert_eq.
  - intros n' Hn'. cbn in Hn'. apply not_elem_of_cons in Hn' as [Hne Hn']. rewrite H2 by done. by rewrite lookup_insert_ne.
Qed.

Lemma apply_tables_total w now cs made l db :
  (∀ n ty con t, (n, (ty, con, t)) ∈ l → applicable (Some w) now cs con (made n) t) →
  ∃ db', apply_tables (Some w) now cs made l db = Ok db'.
Proof.
  revert db. induction l as [|[n [[ty con] t]] l IH]; intros db Hl; cbn [apply_tables]; [by eexists|].
  destruct (apply_table_total w now cs con (made n) t) as (t' & ->); [apply (Hl n ty con t); left|]. cbn [mbind result_bind].
  apply IH. intros n' ty' con' u Hin. apply (Hl n' ty' con' u). by right.
Qed.

(** C3: applying a change set makes it applied and the context one of head; in every
    table of a model, head then shows exactly what the change set showed before, with
    and without deleted objects, and the rows of change sets are not touched. Applying
    succeeds if none of the rows that it writes to head breaks a constraint of its table,
    a check or a unique index, next to the rows of head and to the others that it
    writes. *)
Theorem applying_publishes_the_change_set owner now made c db w :
  change_sets db !! pk c = Some c → workspace c = Some w → pk c ≠ Visibility.NONE → owner (pk c) = w →
  ((∀ n ty con t, models db !! n = Some (ty, con, t) → applicable (Some w) now (pk c) con (made n) t) →
   ∃ c' v db', apply now made c db = Ok (c', v, db')) ∧
  ∀ c' v db', apply now made c db = Ok (c', v, db') →
    Visibility.is_head v = true ∧ status <$> change_sets db' !! pk c = Some Applied ∧
    ∀ n con t, models db !! n = Some (Model, con, t) → owned owner t → ∃ t', models db' !! n = Some (Model, con, t') ∧ owned owner t' ∧
      (∀ d, shown (Some w) (visibility_of Visibility.NONE d) t' = shown (Some w) (visibility_of (pk c) d) t) ∧
      ∀ k, key_change_set k ≠ Visibility.NONE → t' !! k = t !! k.
Proof.
  intros Hc Hw Hne Hown. unfold apply. rewrite Hc, Hw. split.
  - intros Hm. destruct (apply_tables_total w now (pk c) made (map_to_list (models db)) (models db)) as (db' & ->).
    + intros n ty con t Hin%elem_of_map_to_list. by eapply Hm.
    + cbn. by eexists _, _, _.
  - intros c' v db' (tables & Ht & [= <- <- <-])%result_bind_ok. split_and!; [done|cbn; by rewrite lookup_insert_eq|].
    intros n con t Hn Hot. destruct (apply_tables_ok _ _ _ _ _ _ _ (NoDup_fst_map_to_list _) Ht) as [H1 _].
    destruct (H1 n Model con t ltac:(by apply elem_of_map_to_list)) as (t' & Hap & Hn').
    destruct (apply_table_ok w now (pk c) con (made n) Hne t t' Hap) as [Hrow Helse].
    assert (Hcsrow : ∀ k, key_change_set k ≠ Visibility.NONE → t' !! k = t !! k) by (intros k Hk; apply Helse; auto).
    assert (Ho' : owned owner t') by (intros k r Hk Hkc; rewrite Hcsrow in Hk by done; by eapply Hot).
    exists t'. split_and!; [done|done| |done]. intros d. apply (shown_ext owner); [done|done|apply at_home_head| |].
    + intros w' [= <-] _. by rewrite <- Hown.
    + by apply applied_overlay.
Qed.
