(* ===== verification/Associations.v ===== *)
(** * Associations of the standard model

    Model of the functions of [src/lib/dal/src/standard_model.rs] for objects that
    belong to another and for pairs of objects, with the functions of
    [migrations/U0004__standard_model.sql] that they call. An association is a row of a
    table of its own, with an id and a visibility. *)

From S2P Require Import Prelude DalContext StandardModel ModelViews.
From Stdlib Require Import NArith Strings.String Sorting.Sorted.
From stdpp Require Import base tactics list gmap strings.

Section Associations.
Context (tenancy : option N) (visibility : Visibility.t) (con : Constraints).

Definition belongs_to_id (r : Row) : N := match column "belongs_to_id" r with Ident n => n | _ => 0%N end.

(** ** Objects that belong to another *)

(** The objects that are found through an association, by an inner join with their view. *)
Definition joined (ids : list N) (objects : Table) : list (Key * Row) :=
  ids ≫= λ i, filter (λ e, key_id e.1 = i) (model_view tenancy visibility objects).

Definition belongs_to (t owners : Table) (o : N) : option (Key * Row) :=
  head (joined (belongs_to_id ∘ snd <$> find_by_attr tenancy visibility BelongsTo t "object_id" (Ident o)) owners).

Definition has_many (t objects : Table) (b : N) : list (Key * Row) :=
  joined (object_id ∘ snd <$> find_by_attr tenancy visibility BelongsTo t "belongs_to_id" (Ident b)) objects.

(** The association of an object, as [SELECT .. INTO] finds it. *)
Definition association (t : Table) (o : N) : option N :=
  (λ e, key_id e.1) <$> head (find_by_attr tenancy visibility BelongsTo t "object_id" (Ident o)).

(** [made] are the keys that the database makes. *)
Definition set_belongs_to (now : N) (made : N * N) (o b : N) (t : Table) : result StandardModelError Table :=
  match association t o with
  | Some i => p ← update_by_id tenancy visibility con now made.1 "belongs_to_id" i (Ident b) t; Ok p.2
  | None =>
      p ← create tenancy visibility con now made.1 made.2 {["object_id" := Ident o; "belongs_to_id" := Ident b]} t; Ok p.2
  end.

Definition unset_belongs_to (now made o : N) (t : Table) : result StandardModelError Table :=
  match association t o with
  | Some i => p ← update_by_id tenancy visibility con now made deleted_at_column i (Timestamp now) t; Ok p.2
  | None => Ok t
  end.

Definition hard_unset_belongs_to_in_change_set (o : N) (t : Table) : Table :=
  filter (λ e, ¬ (column "object_id" e.2 = Ident o ∧ key_change_set e.1 = Visibility.change_set_pk visibility ∧
                  in_tenancy tenancy (key_workspace e.1) = true)) t.

(** The ids are those of [array_agg(DISTINCT id)], in their order; the loop returns in its
    first round. *)
Definition unset_all_belongs_to (now made b : N) (t : Table) : result StandardModelError Table :=
  match (λ e, key_id e.1) <$> find_by_attr tenancy visibility BelongsTo t "belongs_to_id" (Ident b) with
  | [] => Ok t
  | i :: _ => p ← update_by_id tenancy visibility con now made deleted_at_column i (Timestamp now) t; Ok p.2
  end.

Definition hard_unset_all_belongs_to_in_change_set (b : N) (t : Table) : Table :=
  filter (λ e, ¬ (column "belongs_to_id" e.2 = Ident b ∧ key_change_set e.1 = Visibility.change_set_pk visibility ∧
                  in_tenancy tenancy (key_workspace e.1) = true)) t.

(** ** Pairs *)

(** By the left or by the right object. *)
Definition many_to_many (t lefts rights : Table) (left right : option N) : result StandardModelError (list (Key * Row)) :=
  match left, right with
  | Some l, _ => Ok (joined (ident "right_object_id" ∘ snd <$> find_by_attr tenancy visibility ManyToMany t "left_object_id" (Ident l)) rights)
  | None, Some r => Ok (joined (ident "left_object_id" ∘ snd <$> find_by_attr tenancy visibility ManyToMany t "right_object_id" (Ident r)) lefts)
  | None, None => Err Raised
  end.

Definition associate_many_to_many (now : N) (made : N * N) (l r : N) (t : Table) : result StandardModelError Table :=
  p ← create tenancy visibility con now made.1 made.2 {["left_object_id" := Ident l; "right_object_id" := Ident r]} t; Ok p.2.

Definition disassociate_many_to_many (now made l r : N) (t : Table) : result StandardModelError Table :=
  match head (filter (λ e, column "left_object_id" e.2 = Ident l ∧ column "right_object_id" e.2 = Ident r)
                (many_to_many_view tenancy visibility t)) with
  | Some e => p ← update_by_id tenancy visibility con now made deleted_at_column (key_id e.1) (Timestamp now) t; Ok p.2
  | None => Ok t
  end.

(** One association is found, and one is deleted. *)
Definition disassociate_all_many_to_many (now made l : N) (t : Table) : result StandardModelError Table :=
  match head (find_by_attr tenancy visibility ManyToMany t "left_object_id" (Ident l)) with
  | Some e => p ← update_by_id tenancy visibility con now made deleted_at_column (key_id e.1) (Timestamp now) t; Ok p.2
  | None => Ok t
  end.
End Associations.

(** ** Found associations *)

(** The unique indexes of a table of associations, and that the rows of an association
    are of one object. *)
Record indexed (t : Table) : Prop := {
  typed : ∀ k r, t !! k = Some r → ∃ o, column "object_id" r = Ident o;
  single : ∀ k r k' r', t !! k = Some r → t !! k' = Some r' → key_workspace k = key_workspace k' →
    key_change_set k = key_change_set k' → column "object_id" r = column "object_id" r' → k = k';
  coherent : ∀ k r k' r', t !! k = Some r → t !! k' = Some r' → key_id k = key_id k' → key_workspace k = key_workspace k' →
    column "object_id" r = column "object_id" r';
}.

Lemma updatable_live v r : row_deleted_at r = None → updatable v r = true.
Proof. intros H. unfold updatable. rewrite H. by rewrite (bool_decide_eq_true_2 (None = None)), orb_true_r. Qed.

Lemma copied_live v r : Visibility.deleted_at v = None → row_deleted_at r = None → copied v r = true.
Proof. intros Hl H. unfold copied, Visibility.is_deleted. rewrite Hl, H. by apply bool_decide_eq_true. Qed.

Section Found.
Context (w : N) (v : Visibility.t).
Hypothesis Hlive : Visibility.deleted_at v = None.
Abbreviation CS := (Visibility.change_set_pk v).
Abbreviation key i c := {| key_id := i; key_workspace := w; key_change_set := c |}.

(** What is shown as the association of an object. *)
Definition found (t : Table) (o : N) : option (Key * Row) :=
  head (find_by_attr (Some w) v BelongsTo t "object_id" (Ident o)).

Lemma visible_spec e : in_tenancy_and_visible (Some w) v e = true ↔
  key_workspace e.1 = w ∧ row_deleted_at e.2 = None ∧ (key_change_set e.1 = Visibility.NONE ∨ key_change_set e.1 = CS).
Proof.
  unfold in_tenancy_and_visible, in_tenancy, is_visible, Visibility.is_deleted. rewrite Hlive.
  rewrite !andb_true_iff, !orb_true_iff, !bool_decide_eq_true. split.
  - intros ([= ->] & [[[? ?]|?] ?]); done.
  - intros (-> & ? & ?). auto.
Qed.

Lemma associations_separated t : indexed t → separated (λ e, object_id e.2) (in_tenancy_and_visible (Some w) v) t.
Proof.
  intros [Ht Hs _] [k r] [k' r'] Hk Hk' (Hw & _)%visible_spec (Hw' & _)%visible_spec Ho Hc. cbn in *.
  destruct (Ht k r Hk) as [o Heo]. destruct (Ht k' r' Hk') as [o' Heo'].
  assert (k = k') as <-; [|congruence]. apply (Hs k r k' r'); [done|done|congruence|done|].
  unfold object_id in Ho. rewrite Heo, Heo' in Ho. congruence.
Qed.

Lemma sorted_inj {A} (group : A → N) l x y : StronglySorted (λ a b, group a < group b)%N l → x ∈ l → y ∈ l → group x = group y → x = y.
Proof.
  induction 1 as [|a l _ IH Ha]; [by intros ?%elem_of_nil|]. rewrite list.Forall_forall in Ha.
  intros [->|Hx]%elem_of_cons [->|Hy]%elem_of_cons He; [done| | |auto].
  - specialize (Ha _ Hy). lia.
  - specialize (Ha _ Hx). lia.
Qed.

(** The row of the change set if it is live, else the row of head if it is. *)
Lemma found_spec t o k r : indexed t → found t o = Some (k, r) ↔
  t !! k = Some r ∧ key_workspace k = w ∧ row_deleted_at r = None ∧ (key_change_set k = Visibility.NONE ∨ key_change_set k = CS) ∧
  column "object_id" r = Ident o ∧
  ∀ k' r', t !! k' = Some r' → key_workspace k' = w → row_deleted_at r' = None → key_change_set k' = CS →
    column "object_id" r' = Ident o → (CS ≤ key_change_set k)%N.
Proof.
  intros Hi. unfold found.
  assert (Hel : ∀ e, e ∈ find_by_attr (Some w) v BelongsTo t "object_id" (Ident o) ↔
    e ∈ belongs_to_view (Some w) v t ∧ column "object_id" e.2 = Ident o).
  { intros e. unfold find_by_attr, by_id. rewrite stable_sort_perm, list_elem_of_filter. cbn. naive_solver. }
  assert (Hhead : head (find_by_attr (Some w) v BelongsTo t "object_id" (Ident o)) = Some (k, r) ↔
    (k, r) ∈ belongs_to_view (Some w) v t ∧ column "object_id" r = Ident o).
  { rewrite <- (Hel (k, r)). destruct (find_by_attr _ _ _ _ _ _) as [|e l] eqn:Hf; cbn; [by rewrite elem_of_nil|]. split.
    - intros [= ->]. left.
    - intros Hin. f_equal. assert (He : e ∈ e :: l) by left. apply Hel in Hin as [Hin Ho], He as [He Ho'].
      eapply (sorted_inj (λ e, object_id e.2)); [apply select_distinct_sorted|exact He|exact Hin|].
      cbn in *. unfold object_id. by rewrite Ho, Ho'. }
  rewrite Hhead. unfold belongs_to_view. rewrite (elem_of_select_distinct _ _ _ _ (associations_separated t Hi)), visible_spec. cbn. split.
  - intros ((Hk & (Hw & Hd & Hc) & Hmax) & Ho). split_and!; try done. intros k' r' Hk' Hw' Hd' Hc' Ho'.
    rewrite <- Hc'. apply (Hmax (k', r')); [done|apply visible_spec; by auto|]. cbn. unfold object_id. by rewrite Ho, Ho'.
  - intros (Hk & Hw & Hd & Hc & Ho & Hmax). split_and!; try done. intros [k' r'] Hk' (Hw' & Hd' & Hc')%visible_spec Hg. cbn in *.
    destruct Hc' as [->|Hc']; [unfold Visibility.NONE; lia|]. rewrite Hc'. apply (Hmax k' r'); try done.
    destruct (typed t Hi k' r' Hk') as [o' Heo']. unfold object_id in Hg. rewrite Ho, Heo' in Hg. congruence.
Qed.

(** No other row of the change set [c] is of the object. *)
Definition alone (t : Table) (k : Key) (o : N) : Prop :=
  ∀ k' r', t !! k' = Some r' → k' ≠ k → key_workspace k' = key_workspace k → key_change_set k' = key_change_set k →
    column "object_id" r' ≠ Ident o.

Lemma put_alone objects owners t k r o : column "object_id" r = Ident o → valid (belongs_to_table objects owners) r = true → alone t k o →
  put (belongs_to_table objects owners) k r t = Ok (<[k := r]> t).
Proof.
  intros Ho Hv Ha. apply put_not_refused. intros [Hv'|(k' & r' & Hk' & Hc)]; [congruence|].
  unfold clash in Hc. cbn in Hc. rewrite orb_false_r, !andb_true_iff, !bool_decide_eq_true in Hc. destruct Hc as [[[Hne Hw] Hcs] Hco].
  apply (Ha k' r' Hk'); [done..|]. congruence.
Qed.

(** The checks of a row. *)
Lemma valid_association objects owners r o b : column "object_id" r = Ident o → column "belongs_to_id" r = Ident b →
  valid (belongs_to_table objects owners) r = objects o && owners b.
Proof. intros Ho Hb. cbn. unfold ident. by rewrite Ho, Hb. Qed.

Lemma put_association objects owners t k r o b : column "object_id" r = Ident o → column "belongs_to_id" r = Ident b → alone t k o →
  put (belongs_to_table objects owners) k r t = if objects o && owners b then Ok (<[k := r]> t) else Err CheckViolation.
Proof.
  intros Ho Hb Ha. pose proof (valid_association objects owners r o b Ho Hb) as Hv. destruct (objects o && owners b).
  - by apply (put_alone _ _ _ _ _ o).
  - unfold put. by rewrite Hv.
Qed.

Lemma indexed_insert t k r o : indexed t → column "object_id" r = Ident o → alone t k o →
  (∀ k' r', t !! k' = Some r' → key_id k' = key_id k → key_workspace k' = key_workspace k → column "object_id" r' = Ident o) →
  indexed (<[k := r]> t).
Proof.
  intros [Ht Hs Hc] Ho Ha Hco. split.
  - intros k' r'. rewrite lookup_insert. case_decide; [|apply Ht]. intros [= <-]. eauto.
  - intros k1 r1 k2 r2. rewrite !lookup_insert. repeat case_decide; subst; try done.
    + intros [= <-] H2 Hw Hcs He. exfalso. apply (Ha k2 r2 H2); congruence.
    + intros H1 [= <-] Hw Hcs He. exfalso. apply (Ha k1 r1 H1); congruence.
    + apply Hs.
  - intros k1 r1 k2 r2. rewrite !lookup_insert. repeat case_decide; subst; try done.
    + by intros [= <-] [= <-].
    + intros [= <-] H2 Hi Hw. rewrite Ho. symmetry. by apply (Hco k2 r2 H2).
    + intros H1 [= <-] Hi Hw. rewrite Ho. by apply (Hco k1 r1 H1).
    + apply Hc.
Qed.

Lemma column_deleted d r : column "object_id" (with_deleted_at d r) = column "object_id" r.
Proof. done. Qed.

(** In a change set, a row that is deleted there does not hide the row of head. *)
Lemma found_below_deleted t o i h r : indexed t → CS ≠ Visibility.NONE → t !! key i Visibility.NONE = Some h → row_deleted_at h = None →
  column "object_id" h = Ident o → row_deleted_at r ≠ None → alone t (key i CS) o → column "object_id" r = Ident o →
  indexed (<[key i CS := r]> t) ∧ found (<[key i CS := r]> t) o = Some (key i Visibility.NONE, h).
Proof.
  intros Hi Hcs Hh Hd Ho Hr Ha Hor.
  assert (Hi' : indexed (<[key i CS := r]> t)).
  { apply (indexed_insert _ _ _ o); [done|done|done|]. intros k' r' Hk' Hid Hw. cbn in *.
    rewrite (coherent t Hi k' r' (key i Visibility.NONE) h) by done. done. }
  split; [done|]. apply found_spec; [done|]. split_and!; [|done|done|by left|done|].
  - rewrite lookup_insert_ne; [done|]. by intros [= He].
  - intros k' r' Hk' Hw Hd' Hc Hok. exfalso. rewrite lookup_insert in Hk'. case_decide as Hk; [congruence|].
    apply (Ha k' r'); [done|congruence|done|done|done].
Qed.
(** A live row of the change set is put for the object. *)
Lemma found_insert t k r o : indexed t → key_workspace k = w → key_change_set k = CS → row_deleted_at r = None →
  column "object_id" r = Ident o → alone t k o →
  (∀ k' r', t !! k' = Some r' → key_id k' = key_id k → key_workspace k' = key_workspace k → column "object_id" r' = Ident o) →
  indexed (<[k := r]> t) ∧ found (<[k := r]> t) o = Some (k, r) ∧ ∀ o', o' ≠ o → found (<[k := r]> t) o' = found t o'.
Proof.
  intros Hi Hw Hc Hd Ho Ha Hco. pose proof (indexed_insert t k r o Hi Ho Ha Hco) as Hi'. split_and!; [done| |].
  - apply found_spec; [done|]. rewrite lookup_insert_eq. split_and!; try done; [by right|]. intros. rewrite Hc. lia.
  - intros o' Hne. apply option_eq. intros [k1 r1]. rewrite !found_spec by done.
    assert (Hrow : ∀ k' r', column "object_id" r' = Ident o' → <[k := r]> t !! k' = Some r' ↔ t !! k' = Some r').
    { intros k' r' Ho'. rewrite lookup_insert. case_decide as Hk; [|done]. subst k'. split; [congruence|].
      intros Hr'. exfalso. pose proof (Hco k r' Hr' eq_refl eq_refl). congruence. }
    split; intros (H1 & H2 & H3 & H4 & H5 & H6); split_and!; try done; try (by apply Hrow); intros k' r' Hk' Hw' Hd' Hc' Ho'.
    + by apply (H6 k' r'); [apply Hrow|..].
    + by apply (H6 k' r'); [apply Hrow|..].
Qed.
End Found.

(** C25: an object belongs to another in head. Unsetting the association in a change set
    succeeds, and so does setting another one afterwards, to any object that there is; but
    the change set goes on showing the association of head. *)
Theorem unset_association_is_still_found objects owners w v now made made' t o b i h :
  indexed t → Visibility.deleted_at v = None → Visibility.change_set_pk v ≠ Visibility.NONE →
  found w v t o = Some ({| key_id := i; key_workspace := w; key_change_set := Visibility.NONE |}, h) →
  objects o = true → owners (belongs_to_id h) = true → owners b = true →
  (∀ k r, t !! k = Some r → key_workspace k = w → key_change_set k = Visibility.change_set_pk v → column "object_id" r ≠ Ident o) →
  let con := belongs_to_table objects owners in
  ∃ t1 t2, unset_belongs_to (Some w) v con now made o t = Ok t1 ∧ set_belongs_to (Some w) v con now made' o b t1 = Ok t2 ∧
    found w v t1 o = found w v t o ∧ found w v t2 o = found w v t o.
Proof.
  intros Hi Hl Hcs Hf Hobj Hown Hb Hno con. pose proof Hf as (Hh & _ & Hd & _ & Ho & _)%found_spec; [|done..].
  set (k := {| key_id := i; key_workspace := w; key_change_set := Visibility.change_set_pk v |}).
  assert (Hv : ∀ r, row_columns r = row_columns h → valid con r = true).
  { intros r Hr. cbn. unfold ident, column. rewrite Hr. fold (column "object_id" h). by rewrite Ho, Hobj. }
  assert (Hk : t !! k = None).
  { destruct (t !! k) as [r|] eqn:Hr; [|done]. exfalso. apply (Hno k r Hr); [done|done|].
    rewrite (coherent t Hi k r _ h Hr Hh) by done. done. }
  assert (Ha : alone t k o) by (intros k' r' Hk' _ Hw Hc; by eapply Hno).
  set (r1 := {| row_pk := made; row_deleted_at := Some now; row_created_at := now; row_updated_at := now; row_columns := row_columns h |}).
  destruct (found_below_deleted w v Hl t o i h r1) as [Hi1 Hf1]; try done. fold k in Hi1, Hf1.
  destruct (found_below_deleted w v Hl (<[k := r1]> t) o i h (with_updated_at now r1)) as [Hi2 Hf2]; try done.
  { rewrite lookup_insert_ne; [done|]. intros [= He]. by destruct Hcs. }
  { intros k' r' Hk' Hne. fold k in Hne. rewrite lookup_insert_ne in Hk' by done. by apply Ha. }
  fold k in Hi2, Hf2. exists (<[k := r1]> t), (<[k := with_updated_at now r1]> (<[k := r1]> t)).
  assert (Has : ∀ t', found w v t' o = Some ({| key_id := i; key_workspace := w; key_change_set := Visibility.NONE |}, h) →
    association (Some w) v t' o = Some i).
  { intros t' Ht'. unfold association. unfold found in Ht'. by rewrite Ht'. }
  pose proof (copied_live v h Hl Hd) as Hcp.
  split_and!; [| |by rewrite Hf|by rewrite Hf].
  - unfold unset_belongs_to. rewrite (Has t Hf). unfold update_by_id. cbn zeta. fold k. rewrite Hk. cbn [mbind option_bind].
    rewrite decide_False by done. rewrite Hh, Hcp. unfold set_column. rewrite decide_True by done. cbn [mbind result_bind].
    unfold con. rewrite (put_alone objects owners t k _ o) by (done || by apply Hv). done.
  - unfold set_belongs_to. rewrite (Has _ Hf1). unfold update_by_id. cbn zeta. fold k. rewrite lookup_insert_eq. cbn [mbind option_bind].
    unfold updatable, Visibility.is_deleted. rewrite Hl. cbn [bool_decide orb]. rewrite decide_False by done.
    rewrite lookup_insert_ne by (intros [= He]; by destruct Hcs). rewrite Hh, Hcp, set_accepted by done. cbn [mbind result_bind].
    rewrite (Hv r1 eq_refl), andb_true_r. set (h' := {| row_pk := _; row_deleted_at := _; row_created_at := _; row_updated_at := _; row_columns := _ |}).
    replace (valid con h') with (objects o && owners b); [by rewrite Hobj, Hb|]. symmetry. apply valid_association.
    + unfold h', column. cbn. by rewrite lookup_insert_ne.
    + unfold h', column. cbn. by rewrite lookup_insert_eq.
Qed.

(** The rows of the object in the change set are live. *)
Definition none_unset (w : N) (v : Visibility.t) (t : Table) (o : N) : Prop :=
  ∀ k r, t !! k = Some r → key_workspace k = w → key_change_set k = Visibility.change_set_pk v →
    column "object_id" r = Ident o → row_deleted_at r = None.

(** The columns of an association take ids. *)
Definition accepts_association (con : Constraints) : Prop :=
  ∀ x, accepts con "object_id" (Ident x) = true ∧ accepts con "belongs_to_id" (Ident x) = true.

Lemma set_found_in_change_set con w v now made t o b k r : indexed t → accepts_association con → Visibility.deleted_at v = None →
  found w v t o = Some (k, r) → key_change_set k = Visibility.change_set_pk v →
  ∃ r', set_belongs_to (Some w) v con now made o b t = put con k r' t ∧ row_deleted_at r' = None ∧
    column "object_id" r' = Ident o ∧ column "belongs_to_id" r' = Ident b ∧ alone t k o.
Proof.
  intros Hi Hacc Hl Hf Hc. pose proof Hf as (Hk & Hw & Hd & _ & Ho & _)%found_spec; [|done..].
  assert (Ha : alone t k o).
  { intros k' r' Hk' Hne Hw' Hc' Ho'. apply Hne. apply (single t Hi k' r' k r); congruence. }
  set (r' := with_updated_at now {| row_pk := row_pk r; row_deleted_at := row_deleted_at r; row_created_at := row_created_at r;
    row_updated_at := row_updated_at r; row_columns := <["belongs_to_id" := Ident b]> (row_columns r) |}).
  assert (Ho' : column "object_id" r' = Ident o) by (unfold column; cbn; by rewrite lookup_insert_ne).
  exists r'. split_and!; [|done|done|unfold column; cbn; by rewrite lookup_insert_eq|done].
  unfold set_belongs_to, association. unfold found in Hf. rewrite Hf. cbn [fmap option_fmap option_map fst]. unfold update_by_id. cbn zeta.
  replace {| key_id := key_id k; key_workspace := w; key_change_set := Visibility.change_set_pk v |} with k
    by (destruct k; cbn in *; by subst).
  rewrite Hk. cbn [mbind option_bind]. rewrite (updatable_live v r Hd).
  rewrite set_accepted by (done || apply Hacc). cbn [mbind result_bind]. fold r'. by destruct (put con k r' t).
Qed.

Lemma set_found_in_head con w v now made t o b i h : indexed t → accepts_association con → Visibility.deleted_at v = None → Visibility.change_set_pk v ≠ Visibility.NONE →
  none_unset w v t o → found w v t o = Some ({| key_id := i; key_workspace := w; key_change_set := Visibility.NONE |}, h) →
  let k := {| key_id := i; key_workspace := w; key_change_set := Visibility.change_set_pk v |} in
  ∃ r', set_belongs_to (Some w) v con now made o b t = put con k r' t ∧ row_deleted_at r' = None ∧
    column "object_id" r' = Ident o ∧ column "belongs_to_id" r' = Ident b ∧ alone t k o.
Proof.
  intros Hi Hacc Hl Hcs Hn Hf k. pose proof Hf as (Hh & _ & Hd & _ & Ho & Hmax)%found_spec; [|done..].
  assert (Hno : ∀ k' r', t !! k' = Some r' → key_workspace k' = w → key_change_set k' = Visibility.change_set_pk v →
    column "object_id" r' ≠ Ident o).
  { intros k' r' Hk' Hw' Hc' Ho'. specialize (Hmax k' r' Hk' Hw' (Hn _ _ Hk' Hw' Hc' Ho') Hc' Ho').
    cbn in Hmax. unfold Visibility.NONE in *. lia. }
  assert (Hk : t !! k = None).
  { destruct (t !! k) as [r|] eqn:Hr; [|done]. exfalso. apply (Hno k r Hr); [done|done|].
    rewrite (coherent t Hi k r _ h Hr Hh) by done. done. }
  assert (Ha : alone t k o) by (intros k' r' Hk' _ Hw Hc; by apply (Hno k' r')).
  set (r' := {| row_pk := made.1; row_deleted_at := None; row_created_at := now; row_updated_at := now;
    row_columns := <["belongs_to_id" := Ident b]> (row_columns h) |}).
  assert (Ho' : column "object_id" r' = Ident o) by (unfold column; cbn; by rewrite lookup_insert_ne).
  exists r'. split_and!; [|done|done|unfold column; cbn; by rewrite lookup_insert_eq|done].
  unfold set_belongs_to, association. unfold found in Hf. rewrite Hf. cbn [fmap option_fmap option_map fst key_id]. unfold update_by_id. cbn zeta.
  fold k. rewrite Hk. cbn [mbind option_bind]. rewrite decide_False, Hh by done.
  rewrite (copied_live v h Hl Hd). rewrite set_accepted by (done || apply Hacc).
  cbn [mbind result_bind row_deleted_at row_columns]. rewrite Hd. fold r'. by destruct (put con k r' t).
Qed.

Lemma set_not_found con w v now made t o b : indexed t → accepts_association con → Visibility.deleted_at v = None → none_unset w v t o →
  (∀ k r, t !! k = Some r → key_id k ≠ made.2) → found w v t o = None →
  let k := {| key_id := made.2; key_workspace := w; key_change_set := Visibility.change_set_pk v |} in
  ∃ r', set_belongs_to (Some w) v con now made o b t = put con k r' t ∧ row_deleted_at r' = None ∧
    column "object_id" r' = Ident o ∧ column "belongs_to_id" r' = Ident b ∧ alone t k o.
Proof.
  intros Hi Hacc Hl Hn Hfresh Hf k. set (r' := {| row_pk := made.1; row_deleted_at := None; row_created_at := now; row_updated_at := now;
    row_columns := {["object_id" := Ident o; "belongs_to_id" := Ident b]} |}).
  assert (Ha : alone t k o).
  { intros k' r1 Hk' _ Hw' Hc' Ho'. cbn in *.
    assert (Hx : found w v t o = Some (k', r1)); [|congruence].
    apply found_spec; [done|done|]. split_and!; [done|done|by apply (Hn k' r1)|by right|done|]. intros. rewrite Hc'. lia. }
  assert (Hk : t !! k = None) by (destruct (t !! k) as [x|] eqn:Hx; [by destruct (Hfresh _ _ Hx)|done]).
  exists r'. split_and!; [|done|done|done|done].
  unfold set_belongs_to, association. unfold found in Hf. rewrite Hf. cbn [fmap option_fmap option_map].
  unfold create, insert_row. cbn zeta. fold k. rewrite forallb_accepts.
  2: { intros c x [[<- <-]|[_ [<- <-]%lookup_singleton_Some]]%lookup_insert_Some; apply Hacc. }
  rewrite Hk, Hl. fold r'. by destruct (put con k r' t).
Qed.

(** C24: setting what an object belongs to, if the association was not unset in the same
    change set, is refused when there is no such object or none to which it could belong.
    Else it succeeds: the association is found, in head or in the change set, the
    associations of other objects are as before, and the indexes hold. *)
Theorem set_association_is_found objects owners w v now made t o b :
  indexed t → Visibility.deleted_at v = None → none_unset w v t o → (∀ k r, t !! k = Some r → key_id k ≠ made.2) →
  let set := set_belongs_to (Some w) v (belongs_to_table objects owners) now made o b t in
  if objects o && owners b then
    ∃ t' k r, set = Ok t' ∧ indexed t' ∧ found w v t' o = Some (k, r) ∧
      column "belongs_to_id" r = Ident b ∧ key_change_set k = Visibility.change_set_pk v ∧
      ∀ o', o' ≠ o → found w v t' o' = found w v t o'
  else set = Err CheckViolation.
Proof.
  intros Hi Hl Hn Hfresh set. set (con := belongs_to_table objects owners). assert (Hacc : accepts_association con) by done.
  assert (Hset : ∃ k r, set = put con k r t ∧ row_deleted_at r = None ∧
    column "object_id" r = Ident o ∧ column "belongs_to_id" r = Ident b ∧ alone t k o ∧ key_workspace k = w ∧
    key_change_set k = Visibility.change_set_pk v ∧
    ∀ k' r', t !! k' = Some r' → key_id k' = key_id k → key_workspace k' = key_workspace k → column "object_id" r' = Ident o).
  { destruct (found w v t o) as [[k0 r0]|] eqn:Hf.
    - pose proof Hf as (Hk0 & Hw0 & _ & Hc0 & Ho0 & _)%found_spec; [|done..].
      assert (Hco : ∀ k' r', t !! k' = Some r' → key_id k' = key_id k0 → key_workspace k' = key_workspace k0 → column "object_id" r' = Ident o).
      { intros k' r' Hk' Hid Hw'. by rewrite (coherent t Hi k' r' k0 r0). }
      destruct (decide (key_change_set k0 = Visibility.change_set_pk v)) as [Hc|Hc].
      + destruct (set_found_in_change_set con w v now made t o b k0 r0) as (r' & ? & ? & ? & ? & ?); try done. by exists k0, r'.
      + destruct Hc0 as [Hc0|]; [|done]. destruct k0 as [i w' c]. cbn in *. subst.
        destruct (set_found_in_head con w v now made t o b i r0) as (r' & ? & ? & ? & ? & ?); try done. by eexists _, r'.
    - destruct (set_not_found con w v now made t o b) as (r' & ? & ? & ? & ? & ?); try done. eexists _, r'. split_and!; try done.
      intros k' r1 Hk' Hid. by destruct (Hfresh k' r1 Hk'). }
  destruct Hset as (k & r & -> & Hd & Ho & Hb & Ha & Hw & Hc & Hco). unfold con. rewrite (put_association _ _ _ _ _ o b) by done.
  destruct (objects o && owners b); [|done].
  destruct (found_insert w v Hl t k r o) as (H1 & H2 & H3); try done. by exists (<[k := r]> t), k, r.
Qed.
