(* ===== verification/ModelSample.v ===== *)
(** * Examples of change sets and associations

    Witnesses of the theorems of [ModelViews], [ChangeSets] and [Associations], and runs
    that show what change sets and associations do not do. Workspace 1 has the change
    sets 7 and 8. *)

From S2P Require Import Prelude DalContext StandardModel ModelViews ChangeSets Associations.
From Stdlib Require Import NArith Strings.String Sorting.Sorted.
From stdpp Require Import base tactics list gmap strings.

Definition row (k : N) (d : option N) (columns : gmap string Value) : Row :=
  {| row_pk := k; row_deleted_at := d; row_created_at := 1; row_updated_at := 1; row_columns := columns |}.

Definition at_key (i cs : N) : Key := {| key_id := i; key_workspace := 1; key_change_set := cs |}.

Definition named (s : string) : gmap string Value := {["name" := Text s]}.

(** Object 10 is changed in change set 7, object 11 is deleted there, object 12 is not
    touched, and object 13 is new. *)
Definition sample_table : Table :=
  {[ at_key 10 0 := row 100 None (named "a"); at_key 10 7 := row 101 None (named "b");
     at_key 11 0 := row 102 None (named "c"); at_key 11 7 := row 103 (Some 2%N) (named "c");
     at_key 12 0 := row 104 None (named "d"); at_key 13 7 := row 105 None (named "e") ]}.

Definition sample_owner (_ : N) : N := 1.

Definition names_table : Constraints := plain [("name", is_text)]%string.

(** A table whose rows are all of workspace 1. *)
Lemma owned_check (t : Table) : forallb (λ e, bool_decide (key_workspace e.1 = 1%N)) (map_to_list t) = true → owned sample_owner t.
Proof.
  intros H k r Hk _. rewrite forallb_forall in H. specialize (H (k, r) ltac:(by apply list_elem_of_In, elem_of_map_to_list)).
  by apply bool_decide_eq_true in H.
Qed.

Lemma sample_owned : owned sample_owner sample_table.
Proof. apply owned_check. reflexivity. Qed.

Lemma sample_home v : at_home sample_owner (Some 1%N) v.
Proof. by intros w [= <-] _. Qed.

Definition in7 : Visibility.t := visibility_of 7 None.

(** Witness of [views_are_overlays]: the change set lists 10, 12 and 13. *)
Lemma views_are_overlays_witness :
  (λ e, (key_id e.1, key_change_set e.1)) <$> list_models (Some 1%N) in7 Model sample_table = [(10, 7); (12, 0); (13, 7)]%N ∧
  (∀ i, get_by_id (Some 1%N) in7 Model sample_table i = overlay (Some 1%N) in7 sample_table i).
Proof.
  split; [reflexivity|].
  apply (views_are_overlays sample_owner (Some 1%N) in7 sample_table sample_owned (sample_home in7)).
Defined.

(** Object 12 is renamed in change set 7. *)
Definition renamed : result StandardModelError (N * Table) :=
  update_by_id (Some 1%N) in7 names_table 5 200 "name" 12 (Text "f") sample_table.

Definition table_of (r : result StandardModelError (N * Table)) : Table := match r with Ok (_, t) => t | Err _ => ∅ end.

(** Witness of [writes_stay_in_their_change_set]: head and change set 8 do not see it. *)
Lemma writes_stay_in_their_change_set_witness :
  (λ e, column "name" e.2) <$> get_by_id (Some 1%N) in7 Model (table_of renamed) 12 = Some (Text "f") ∧
  list_models (Some 1%N) (visibility_of 8 None) Model (table_of renamed) = list_models (Some 1%N) (visibility_of 8 None) Model sample_table.
Proof.
  split; [reflexivity|].
  apply (writes_stay_in_their_change_set sample_owner names_table (Some 1%N) in7 (Some 1%N) (visibility_of 8 None) sample_table (table_of renamed)
    sample_owned (sample_home in7) (sample_home _)); [done|done|].
  apply rtc_once. apply (write_update _ _ _ 5 200 "name" 12 (Text "f") _ 5%N). reflexivity.
Defined.

(** Witness of [writes_are_read_back], for object 12. *)
Lemma writes_are_read_back_witness :
  ∃ r' t', update_by_id (Some 1%N) in7 names_table 5 200 "name" 12 (Text "f") sample_table = Ok (5%N, t') ∧
    get_by_id (Some 1%N) in7 Model t' 12 = Some (at_key 12 7, r') ∧ row_columns r' = <["name" := Text "f"]> (named "d").
Proof.
  destruct (writes_are_read_back sample_owner names_table 1 in7 5 200 sample_table 12 sample_owned (sample_home in7) eq_refl) as [_ H].
  destruct (H (at_key 12 0) (row 104 None (named "d")) ltac:(reflexivity)) as [Hu _].
  destruct (Hu "name"%string (Text "f") ltac:(done)) as (r' & H1 & H2). exists r'.
  destruct H2 as [(t' & H2 & H3 & _)|[[e He] _]]; [|exfalso; discriminate He].
  exists t'. split; [exact H2|]. split; [exact H3|exact H1].
Defined.

(** Change set 7 is open. *)
Definition open7 : ChangeSet :=
  {| pk := 7; name := "seven"; note := None; status := Open; workspace := Some 1%N; updated_at := 1 |}.

Definition sample_db : Db := {| models := {["components" := (Model, names_table, sample_table)]}; change_sets := {[7%N := open7]} |}.

(** Witness of [applying_publishes_the_change_set]: head then lists 10, 12 and 13. *)
Lemma applying_publishes_the_change_set_witness :
  fst <$> shown (Some 1%N) in7 sample_table = [10; 12; 13]%N ∧
  ∃ c' v db', ChangeSets.apply 9 (λ _, key_id) open7 sample_db = Ok (c', v, db') ∧ status <$> change_sets db' !! 7%N = Some Applied ∧
    ∃ t', models db' !! "components"%string = Some (Model, names_table, t') ∧
      shown (Some 1%N) (visibility_of Visibility.NONE None) t' = shown (Some 1%N) in7 sample_table.
Proof.
  split; [reflexivity|].
  destruct (applying_publishes_the_change_set sample_owner 9 (λ _, key_id) open7 sample_db 1) as [Htotal Happly];
    [reflexivity|reflexivity|done|done|].
  destruct Htotal as (c' & v & db' & Ha).
  { intros n ty con t H.
    change (({["components"%string := (Model, names_table, sample_table)]} : gmap string (TableType * Constraints * Table)) !! n = Some (ty, con, t)) in H.
    apply lookup_singleton_Some in H as [_ [= <- <- <-]]. split; [by apply fits_lenient|]. intros t1 _. by apply fits_lenient. }
  exists c', v, db'. split; [exact Ha|]. destruct (Happly c' v db' Ha) as (_ & Hs & Ht). split; [exact Hs|].
  destruct (Ht "components"%string names_table sample_table ltac:(reflexivity) sample_owned) as (t' & Hn & _ & Hshown & _).
  exists t'. split; [exact Hn|]. apply (Hshown None).
Defined.

(** ** What change sets do not do *)

Definition head_name (i : N) (t : Table) : option Value :=
  (λ e, column "name" e.2) <$> get_by_id (Some 1%N) (visibility_of Visibility.NONE None) Model t i.

Definition applied_to (cs : N) (t : Table) : Table :=
  match apply_table (Some 1%N) 9 cs names_table key_id t with Ok t => t | Err _ => ∅ end.

(** A change set that was applied can be applied again, and undoes what was changed in
    head since. *)
Example applying_again_undoes_later_changes :
  let t1 := applied_to 7 sample_table in
  let t2 := table_of (update_by_id (Some 1%N) (visibility_of Visibility.NONE None) names_table 20 300 "name" 10 (Text "z") t1) in
  head_name 10 t1 = Some (Text "b") ∧ head_name 10 t2 = Some (Text "z") ∧ head_name 10 (applied_to 7 t2) = Some (Text "b").
Proof. split_and!; reflexivity. Qed.

(** ** Associations *)

Definition parents (o b : N) : gmap string Value := {["object_id" := Ident o; "belongs_to_id" := Ident b]}.

(** Objects 20 and 21 belong to 30 in head. *)
Definition sample_associations : Table :=
  {[ at_key 40 0 := row 400 None (parents 20 30); at_key 41 0 := row 401 None (parents 21 30) ]}.

(** There are objects 20 to 22, and 30 and 31 to which they can belong. *)
Definition sample_con : Constraints := belongs_to_table (λ o, (20 <=? o)%N && (o <=? 22)%N) (λ b, (30 <=? b)%N && (b <=? 31)%N).

(** The conditions on tables of associations, checked. *)
Definition pair_ok (a b : Key * Row) : bool :=
  bool_decide (a.1 = b.1) ||
  negb (bool_decide (key_workspace a.1 = key_workspace b.1)) ||
  (negb (bool_decide (key_change_set a.1 = key_change_set b.1) && bool_decide (column "object_id" a.2 = column "object_id" b.2)) &&
   negb (bool_decide (key_id a.1 = key_id b.1) && bool_decide (column "object_id" a.2 ≠ column "object_id" b.2))).

Definition typed_ok (e : Key * Row) : bool := match column "object_id" e.2 with Ident _ => true | _ => false end.

Lemma indexed_check (t : Table) :
  forallb (λ a, typed_ok a && forallb (pair_ok a) (map_to_list t)) (map_to_list t) = true → indexed t.
Proof.
  intros H. rewrite forallb_forall in H.
  assert (Hok : ∀ k r, t !! k = Some r → typed_ok (k, r) = true ∧ ∀ k' r', t !! k' = Some r' → pair_ok (k, r) (k', r') = true).
  { intros k r Hk. specialize (H (k, r) ltac:(by apply list_elem_of_In, elem_of_map_to_list)). apply andb_true_iff in H as [Ht Hp].
    split; [done|]. intros k' r' Hk'. rewrite forallb_forall in Hp. apply Hp. by apply list_elem_of_In, elem_of_map_to_list. }
  assert (Hpair : ∀ k r k' r', t !! k = Some r → t !! k' = Some r' → key_workspace k = key_workspace k' → k ≠ k' →
    ¬ (key_change_set k = key_change_set k' ∧ column "object_id" r = column "object_id" r') ∧
    ¬ (key_id k = key_id k' ∧ column "object_id" r ≠ column "object_id" r')).
  { intros k r k' r' Hk Hk' Hw Hne. pose proof (proj2 (Hok k r Hk) k' r' Hk') as Hp. unfold pair_ok in Hp. cbn in Hp.
    rewrite !orb_true_iff, andb_true_iff, !negb_true_iff, !andb_false_iff, !bool_decide_eq_true, !bool_decide_eq_false in Hp. tauto. }
  split.
  - intros k r Hk. pose proof (proj1 (Hok k r Hk)) as Ht. unfold typed_ok in Ht. cbn in Ht.
    destruct (column "object_id" r); try done. by eexists.
  - intros k r k' r' Hk Hk' Hw Hc Ho. destruct (decide (k = k')) as [|Hne]; [done|]. destruct (Hpair k r k' r' Hk Hk' Hw Hne). tauto.
  - intros k r k' r' Hk Hk' Hi Hw. destruct (decide (k = k')) as [<-|Hne]; [congruence|].
    destruct (Hpair k r k' r' Hk Hk' Hw Hne) as [_ H2]. destruct (decide (column "object_id" r = column "object_id" r')); tauto.
Qed.

Lemma sample_indexed : indexed sample_associations.
Proof. apply indexed_check. reflexivity. Qed.

Lemma sample_rows k r : sample_associations !! k = Some r → key_change_set k = Visibility.NONE ∧ row_deleted_at r = None ∧
  (key_id k = 40%N ∨ key_id k = 41%N).
Proof.
  unfold sample_associations. intros [[<- <-]|[_ [<- <-]%lookup_singleton_Some]]%lookup_insert_Some; auto.
Qed.

(** Witness of [unset_association_is_still_found]: object 20 is still found to belong to
    30 after it was given to 31. *)
Lemma unset_association_is_still_found_witness :
  ∃ t1 t2, unset_belongs_to (Some 1%N) in7 sample_con 5 500 20 sample_associations = Ok t1 ∧
    set_belongs_to (Some 1%N) in7 sample_con 5 (501, 502)%N 20 31 t1 = Ok t2 ∧
    found 1 in7 t1 20 = Some (at_key 40 0, row 400 None (parents 20 30)) ∧
    found 1 in7 t2 20 = Some (at_key 40 0, row 400 None (parents 20 30)).
Proof.
  destruct (unset_association_is_still_found (λ o, (20 <=? o)%N && (o <=? 22)%N) (λ b, (30 <=? b)%N && (b <=? 31)%N) 1 in7 5 500 (501, 502)%N sample_associations 20 31 40 (row 400 None (parents 20 30)))
    as (t1 & t2 & H1 & H2 & H3 & H4); [exact sample_indexed|done|done|reflexivity|reflexivity|reflexivity|reflexivity| |].
  - intros k r (Hc & _)%sample_rows _ Hc'. rewrite Hc in Hc'. discriminate Hc'.
  - exists t1, t2. split; [exact H1|]. split; [exact H2|]. rewrite H3, H4. split; reflexivity.
Defined.

(** Witness of [set_association_is_found]: without unsetting it first, the association is
    changed. *)
Lemma set_association_is_found_witness :
  ∃ t' k r, set_belongs_to (Some 1%N) in7 sample_con 5 (501, 502)%N 20 31 sample_associations = Ok t' ∧ found 1 in7 t' 20 = Some (k, r) ∧
    column "belongs_to_id" r = Ident 31 ∧ found 1 in7 t' 21 = Some (at_key 41 0, row 401 None (parents 21 30)).
Proof.
  destruct (set_association_is_found (λ o, (20 <=? o)%N && (o <=? 22)%N) (λ b, (30 <=? b)%N && (b <=? 31)%N) 1 in7 5 (501, 502)%N sample_associations 20 31) as (t' & k & r & H1 & _ & H2 & H3 & _ & H4).
  - exact sample_indexed.
  - done.
  - intros k r (Hc & _)%sample_rows _ Hc'. rewrite Hc in Hc'. discriminate Hc'.
  - intros k r (_ & _ & Hi)%sample_rows. cbn. intros He. rewrite He in Hi. destruct Hi; discriminate.
  - exists t', k, r. split; [exact H1|]. split; [exact H2|]. split; [exact H3|]. rewrite (H4 21%N) by done. reflexivity.
Defined.

(** An association that was made and unset in a change set cannot be made again. *)
Example set_after_unset_fails :
  (t ← set_belongs_to (Some 1%N) in7 sample_con 5 (501, 502)%N 22 30 sample_associations;
   t ← unset_belongs_to (Some 1%N) in7 sample_con 6 503 22 t;
   set_belongs_to (Some 1%N) in7 sample_con 7 (504, 505)%N 22 31 t) = Err UniqueViolation.
Proof. vm_compute. reflexivity. Qed.

(** Of several objects that belong to another, only one is unset. *)
Example unset_all_unsets_one :
  (t ← unset_all_belongs_to (Some 1%N) (visibility_of Visibility.NONE None) sample_con 5 500 30 sample_associations;
   Ok ((λ e, key_id e.1) <$> find_by_attr (Some 1%N) (visibility_of Visibility.NONE None) BelongsTo t "belongs_to_id" (Ident 30)))
  = Ok [41%N].
Proof. vm_compute. reflexivity. Qed.

(** Two change sets that each say what an object belongs to: the second one cannot be
    applied. *)
Example second_association_is_refused :
  (t ← set_belongs_to (Some 1%N) in7 sample_con 5 (501, 502)%N 22 30 sample_associations;
   t ← set_belongs_to (Some 1%N) (visibility_of 8 None) sample_con 6 (503, 504)%N 22 31 t;
   t ← apply_table (Some 1%N) 9 7 sample_con key_id t;
   apply_table (Some 1%N) 9 8 sample_con key_id t) = Err UniqueViolation.
Proof. vm_compute. reflexivity. Qed.

(** Packages have a unique index of their hashes. *)
Definition pkgs_table : Constraints :=
  {| accepts c v := bool_decide (c = "root_hash" ∨ c = "name")%string && is_text v; valid _ := true; unique := [λ r, Some [column "root_hash" r]] |}.

(** Two change sets that each install the same package: the second one cannot be applied. *)
Example second_installation_is_refused :
  (p ← create (Some 1%N) in7 pkgs_table 5 500 50 {["root_hash" := Text "h"]} ∅;
   p ← create (Some 1%N) (visibility_of 8 None) pkgs_table 6 501 51 {["root_hash" := Text "h"]} p.2;
   t ← apply_table (Some 1%N) 9 7 pkgs_table key_id p.2;
   apply_table (Some 1%N) 9 8 pkgs_table key_id t) = Err UniqueViolation.
Proof. vm_compute. reflexivity. Qed.
