(* ===== verification/Components.v ===== *)
(** * Deleting and restoring components

    Model of [Component::delete_and_propagate] and [Component::restore_and_propagate]
    ([src/lib/dal/src/component.rs]) with the functions of
    [migrations/U0963__component_delete.sql], over the tables of [StandardModel]. A
    component is deleted with its node, their association and its edges; restoring takes
    the rows of the change set away, so that those of head are shown again.

    The functions of the database are stable: their queries see the tables as they were
    when they were called. *)

From S2P Require Import Prelude DalContext StandardModel ModelViews Associations.
From Stdlib Require Import NArith Strings.String Sorting.Sorted.
From stdpp Require Import base tactics list gmap strings.

(** ** Data *)

Inductive ComponentType : Set := AggregationFrame | Component | ConfigurationFrame.

#[global] Instance ComponentType_eq_dec : EqDecision ComponentType.
Proof. solve_decision. Defined.

Inductive ComponentError : Set :=
| ComponentProtected (id : N)
| FrameHasAttachedComponents
| InsideDeletedFrame (id parent : N)
| NodeNotFoundForComponent (id : N)
| NotFound (id : N)
| Socket
| StandardModelFailed (e : StandardModelError).

(** The tables that are written. *)
Record Diagram := {
  edges : Table;
  nodes : Table;
  components : Table;
  node_belongs_to_component : Table;
}.

(** Their columns, by the migrations; they have no checks, and no unique index besides that
    of ids. *)
Definition edges_table : Constraints := plain
  [("kind", is_text); ("head_node_id", is_ident); ("head_object_kind", is_text); ("head_object_id", is_ident); ("head_socket_id", is_ident);
   ("tail_node_id", is_ident); ("tail_object_kind", is_text); ("tail_object_id", is_ident); ("tail_socket_id", is_ident);
   ("creation_user_pk", or_null is_ident); ("deletion_user_pk", or_null is_ident); ("deleted_implicitly", is_bool)]%string.

Definition nodes_table : Constraints := plain
  [("kind", is_text); ("x", is_text); ("y", is_text); ("width", or_null is_text); ("height", or_null is_text)]%string.

Definition components_table : Constraints := plain
  [("kind", is_text); ("creation_user_pk", or_null is_ident); ("deletion_user_pk", or_null is_ident); ("needs_destroy", is_bool)]%string.

(** What other parts of the dal answer: the type of a component, whether it is protected
    and has a resource; the sockets of frames, towards the inside and towards the frame a
    component is in; the attribute values of a component behind a socket. *)
Record World := {
  get_type : N → ComponentType;
  get_protected : N → bool;
  has_resource : N → bool;
  frame_input : N → option N;
  frame_output : N → option N;
  socket_values : N → Value → list N;
}.

Section Components.
Context (w : World) (tenancy : option N) (v : Visibility.t) (now : N) (actor : option N) (made : string → N → N).

Definition model {A} (r : result StandardModelError A) : result ComponentError A :=
  match r with Ok a => Ok a | Err e => Err (StandardModelFailed e) end.

(** ** Deleting *)

Fixpoint for_each (f : N → Table → result StandardModelError Table) (l : list N) (t : Table) : result StandardModelError Table :=
  match l with
  | [] => Ok t
  | i :: l => t ← f i t; for_each f l t
  end.

(** An edge is deleted, because its component is. *)
Definition delete_implicitly (i : N) (t : Table) : result StandardModelError Table :=
  p ← delete_by_id tenancy v edges_table now (made "edges" i) i t;
  p ← update_by_id tenancy (Visibility.to_deleted p.1 v) edges_table now (made "edges" i) "deleted_implicitly" i (Bool true) p.2;
  Ok p.2.

Definition delete_row (con : Constraints) (table : string) (i : N) (t : Table) : result StandardModelError Table :=
  p ← delete_by_id tenancy v con now (made table i) i t; Ok p.2.

(** The user that deletes the component, if it is one. *)
Definition user (actor : option N) : Value := match actor with Some pk => Ident pk | None => Null end.

Definition delete_component (c : N) (t : Table) : result StandardModelError Table :=
  p ← delete_by_id tenancy v components_table now (made "components" c) c t;
  let deleted := Visibility.to_deleted p.1 v in
  p ← update_by_id tenancy deleted components_table now (made "components" c) "needs_destroy" c (Bool (has_resource w c)) p.2;
  p ← update_by_id tenancy deleted components_table now (made "components" c) "deletion_user_pk" c (user actor) p.2;
  Ok p.2.

Definition edges_from (v : Visibility.t) (c : N) (t : Table) : list (Key * Row) :=
  filter (λ e, column "tail_object_id" e.2 = Ident c) (model_view tenancy v t).

Definition edges_to (v : Visibility.t) (c : N) (t : Table) : list (Key * Row) :=
  filter (λ e, column "head_object_id" e.2 = Ident c) (model_view tenancy v t).

Definition nodes_of (v : Visibility.t) (c : N) (t : Table) : list (Key * Row) :=
  filter (λ e, column "belongs_to_id" e.2 = Ident c) (belongs_to_view tenancy v t).

Definition id_of (e : Key * Row) : N := key_id e.1.

(** The values behind the heads of edges. *)
Definition values_at_heads (es : list (Key * Row)) : list N :=
  es ≫= λ e, socket_values w (ident "head_object_id" e.2) (column "head_socket_id" e.2).

(** [component_delete_and_propagate_v1]: the values to update, and the tables. *)
Definition delete_and_propagate_v1 (c : N) (d : Diagram) : result StandardModelError (list N * Diagram) :=
  let outgoing := edges_from v c (edges d) in
  es ← for_each delete_implicitly (id_of <$> outgoing) (edges d);
  es ← for_each delete_implicitly (id_of <$> edges_to v c (edges d)) es;
  let associations := nodes_of v c (node_belongs_to_component d) in
  ns ← for_each (delete_row nodes_table "nodes") (object_id ∘ snd <$> associations) (nodes d);
  let con := belongs_to_table (check_id_in_table ns) (check_id_in_table (components d)) in
  nb ← for_each (delete_row con "node_belongs_to_component") (id_of <$> associations) (node_belongs_to_component d);
  cs ← delete_component c (components d);
  Ok (values_at_heads outgoing, {| edges := es; nodes := ns; components := cs; node_belongs_to_component := nb |}).

(** The edges by which components are in a frame. *)
Definition frame_has_children (c : N) (d : Diagram) : result ComponentError bool :=
  match has_many tenancy v (node_belongs_to_component d) (nodes d) c with
  | [] => Err (NodeNotFoundForComponent c)
  | _ =>
      match frame_input w c with
      | None => Err Socket
      | Some s => Ok (existsb (λ e, bool_decide (column "head_socket_id" e.2 = Ident s))
                        (filter (λ e, column "head_object_id" e.2 = Ident c ∨ column "tail_object_id" e.2 = Ident c)
                           (model_view tenancy v (edges d))))
      end
  end.

(** [Component::delete_and_propagate]: the values that the job updates, and the tables.
    The time of deletion among the values of the component is not modelled. *)
Definition delete_and_propagate (c : N) (d : Diagram) : result ComponentError (list N * Diagram) :=
  attached ← (if decide (get_type w c = Component) then Ok false else frame_has_children c d);
  if (attached : bool) then Err FrameHasAttachedComponents
  else if get_protected w c then Err (ComponentProtected c)
  else model (delete_and_propagate_v1 c d).

(** ** Restoring *)

(** [hard_delete_by_pk_v1]. *)
Definition drop_rows (rows : list (Key * Row)) (t : Table) : Table :=
  filter (λ e, row_pk e.2 ∉ row_pk ∘ snd <$> rows) t.

(** Rows that are deleted in the change set. *)
Definition deleted_here (e : Key * Row) : Prop :=
  row_deleted_at e.2 ≠ None ∧ key_change_set e.1 = Visibility.change_set_pk v.

#[export] Instance deleted_here_dec e : Decision (deleted_here e).
Proof. unfold deleted_here. apply _. Defined.

(** [component_restore_and_propagate_v1]. *)
Definition restore_and_propagate_v1 (c : N) (d : Diagram) : list N * Diagram :=
  let all := Visibility.to_deleted now v in
  let outgoing := filter deleted_here (edges_from all c (edges d)) in
  let incoming := filter deleted_here (edges_to all c (edges d)) in
  let associations := filter deleted_here (nodes_of all c (node_belongs_to_component d)) in
  let ns := filter (λ e, deleted_here e ∧ key_id e.1 ∈ object_id ∘ snd <$> associations) (model_view tenancy all (nodes d)) in
  let cs := filter (λ e, deleted_here e ∧ key_id e.1 = c) (model_view tenancy all (components d)) in
  (values_at_heads outgoing ++ (incoming ≫= λ e, socket_values w c (column "head_socket_id" e.2)),
   {| edges := drop_rows incoming (drop_rows outgoing (edges d));
      nodes := drop_rows ns (nodes d);
      components := drop_rows cs (components d);
      node_belongs_to_component := drop_rows associations (node_belongs_to_component d) |}).

(** The frame of which the edge to the component was deleted with one of them. *)
Definition deleted_parent (c : N) (d : Diagram) : option N :=
  s ← frame_output w c;
  (λ e, ident "head_object_id" e.2) <$>
    head (filter (λ e, column "tail_object_id" e.2 = Ident c ∧ column "tail_socket_id" e.2 = Ident s ∧
                       row_deleted_at e.2 ≠ None ∧ column "deleted_implicitly" e.2 = Bool true)
            (list_models tenancy (Visibility.to_deleted now v) Model (edges d))).

(** [Component::restore_and_propagate]: the component, the values that the job updates,
    and the tables. *)
Definition restore_and_propagate (c : N) (d : Diagram) : result ComponentError (option (Key * Row) * list N * Diagram) :=
  let all := Visibility.to_deleted now v in
  match get_by_id tenancy all Model (components d) c with
  | None => Err (NotFound c)
  | Some _ =>
      _ ← match deleted_parent c d with
          | None => Ok ()
          | Some p =>
              match get_by_id tenancy all Model (components d) p with
              | None => Err (NotFound p)
              | Some parent => if decide (row_deleted_at parent.2 = None) then Ok () else Err (InsideDeletedFrame c p)
              end
          end;
      let '(values, d) := restore_and_propagate_v1 c d in
      Ok (get_by_id tenancy v Model (components d) c, values, d)
  end.
End Components.
