(* ===== verification/ComponentTheorems.v ===== *)
(** * Restoring undoes deleting

    Theorems about [Components]: a component of head that is deleted in a change set is
    hidden there with its node and its edges, and restoring it leaves the tables as they
    were before. *)

From S2P Require Import Prelude DalContext StandardModel ModelViews Associations Components.
From Stdlib Require Import NArith Strings.String Sorting.Sorted.
From stdpp Require Import base tactics list gmap strings.

Lemma overlay_key W v' t i k r : overlay (Some W) v' t i = Some (k, r) →
  key_workspace k = W ∧ (key_change_set k = Visibility.NONE ∨ key_change_set k = Visibility.change_set_pk v') ∧ t !! k = Some r.
Proof. unfold overlay. cbn zeta. intros H. repeat case_match; simplify_eq; cbn; auto. Qed.

Section Retire.
Context (W now : N) (v : Visibility.t).
Hypothesis Hlive : Visibility.deleted_at v = None.
Abbreviation CS := (Visibility.change_set_pk v).
Hypothesis Hcs : CS ≠ Visibility.NONE.
Abbreviation key i c := {| key_id := i; key_workspace := W; key_change_set := c |}.

(** ** Rows that are deleted in the change set *)

(** An object that is live in head, and not touched by the change set. *)
Definition only_in_head (t : Table) (i : N) : Prop :=
  t !! key i CS = None ∧ ∃ h, t !! key i Visibility.NONE = Some h ∧ row_deleted_at h = None.

Definition copy_deleted (pk : N) (h : Row) : Row :=
  {| row_pk := pk; row_deleted_at := Some now; row_created_at := now; row_updated_at := now; row_columns := row_columns h |}.

Lemma delete_head con pk t i h : t !! key i CS = None → t !! key i Visibility.NONE = Some h → row_deleted_at h = None →
  put con (key i CS) (copy_deleted pk h) t = Ok (<[key i CS := copy_deleted pk h]> t) →
  delete_by_id (Some W) v con now pk i t = Ok (now, <[key i CS := copy_deleted pk h]> t).
Proof.
  intros Hn Hh Hd Hput. unfold delete_by_id, update_by_id. cbn zeta. rewrite Hn. cbn [mbind option_bind].
  rewrite decide_False, Hh, (copied_live v h Hlive Hd) by done. unfold set_column. rewrite decide_True by done.
  cbn [mbind result_bind]. change (row_deleted_at (with_deleted_at (Some now) h)) with (Some now).
  change (row_columns (with_deleted_at (Some now) h)) with (row_columns h). fold (copy_deleted pk h). by rewrite Hput.
Qed.

Definition with_column (c : string) (x : Value) (r : Row) : Row :=
  {| row_pk := row_pk r; row_deleted_at := row_deleted_at r; row_created_at := row_created_at r; row_updated_at := now;
     row_columns := <[c := x]> (row_columns r) |}.

Lemma update_deleted con pk n c x t i r : lenient con → accepts con c x = true → t !! key i CS = Some r → c ≠ deleted_at_column →
  update_by_id (Some W) (Visibility.to_deleted n v) con now pk c i x t = Ok (now, <[key i CS := with_column c x r]> t).
Proof.
  intros Hcon Hacc Hr Hc. unfold update_by_id. cbn zeta. change (Visibility.change_set_pk (Visibility.to_deleted n v)) with CS.
  rewrite Hr. cbn [mbind option_bind]. change (updatable (Visibility.to_deleted n v) r) with true. cbv iota. rewrite set_accepted by done.
  cbn [mbind result_bind]. by rewrite put_model.
Qed.

(** The rows of the objects of [l] are deleted in the change set, with the columns that
    they have in head but for those of the deletion. *)
Definition retired (mk : N → N) (l : list N) (t t' : Table) : Prop :=
  (∀ i, i ∈ l → ∃ h r, t !! key i Visibility.NONE = Some h ∧ t' !! key i CS = Some r ∧ row_pk r = mk i ∧
     row_deleted_at r = Some now ∧
     ∀ c, c ∉ ["deleted_implicitly"; "needs_destroy"; "deletion_user_pk"]%string → column c r = column c h) ∧
  ∀ k, (∀ i, i ∈ l → k ≠ key i CS) → t' !! k = t !! k.

(** An operation that deletes an object of head. *)
Definition retires (mk : N → N) (f : N → Table → result StandardModelError Table) (i : N) (t : Table) : Prop :=
  ∃ t', f i t = Ok t' ∧ retired mk [i] t t'.

Lemma retired_insert mk i t h r : t !! key i Visibility.NONE = Some h → row_pk r = mk i → row_deleted_at r = Some now →
  (∀ c, c ∉ ["deleted_implicitly"; "needs_destroy"; "deletion_user_pk"]%string → column c r = column c h) →
  retired mk [i] t (<[key i CS := r]> t).
Proof.
  intros Hh Hpk Hd Hc. split.
  - intros j ->%list_elem_of_singleton. exists h, r. by rewrite lookup_insert_eq.
  - intros k Hk. rewrite lookup_insert_ne; [done|]. intros <-. by apply (Hk i); [left|].
Qed.

Lemma column_insert_ne c c' x (r r' : Row) : row_columns r' = <[c' := x]> (row_columns r) → c ≠ c' → column c r' = column c r.
Proof. intros He Hne. unfold column. by rewrite He, lookup_insert_ne. Qed.

Lemma retired_app mk l l' t t1 t2 : retired mk l t t1 → retired mk l' t1 t2 → (∀ i, i ∈ l → i ∉ l') → retired mk (l ++ l') t t2.
Proof.
  intros [H1 H1'] [H2 H2'] Hd. split.
  - intros i [Hi|Hi]%elem_of_app.
    + destruct (H1 i Hi) as (h & r & Hh & Hr & ?). exists h, r. split; [done|]. split; [|done].
      rewrite H2'; [done|]. intros j Hj [= ->]. by apply (Hd j).
    + destruct (H2 i Hi) as (h & r & Hh & ?). exists h, r. split; [|done].
      rewrite H1' in Hh; [done|]. intros j _ [= _ He]. by destruct Hcs.
  - intros k Hk. rewrite H2', H1'; [done|..]; intros i Hi; apply Hk, elem_of_app; auto.
Qed.

Lemma only_in_head_retired mk l t t' i : retired mk l t t' → only_in_head t i → i ∉ l → only_in_head t' i.
Proof.
  intros [_ H] [Hn (h & Hh & Hd)] Hi. split; [|exists h; split; [|done]].
  - rewrite H; [done|]. intros j Hj [= ->]. done.
  - rewrite H; [done|]. intros j _ [= _ He]. by destruct Hcs.
Qed.

Lemma for_each_retires mk f l t : NoDup l → (∀ i, i ∈ l → only_in_head t i) →
  (∀ i t, i ∈ l → only_in_head t i → retires mk f i t) → ∃ t', for_each f l t = Ok t' ∧ retired mk l t t'.
Proof.
  intros Hnd. revert t. induction Hnd as [|i l Hi _ IH]; intros t Ho Hf; cbn [for_each].
  { exists t. split; [done|]. split; [by intros i ?%elem_of_nil|done]. }
  destruct (Hf i t ltac:(left) (Ho i ltac:(left))) as (t1 & Hf1 & Hr1). rewrite Hf1. cbn [mbind result_bind].
  destruct (IH t1) as (t2 & Hf2 & Hr2).
  - intros j Hj. apply (only_in_head_retired mk [i] t t1); [done|apply Ho; by right|].
    intros ->%list_elem_of_singleton. done.
  - intros j t0 Hj. apply Hf. by right.
  - exists t2. split; [done|]. apply (retired_app mk [i] l t t1 t2); [done|done|]. by intros j ->%list_elem_of_singleton.
Qed.

(** ** The operations that delete *)

Section Operations.
Context (w : World) (actor : option N) (made : string → N → N).

Ltac excluded := intros Hex; repeat (rewrite not_elem_of_cons in Hex; destruct Hex as [? Hex]).

Lemma delete_implicitly_retires i t : only_in_head t i → retires (made "edges") (delete_implicitly (Some W) v now made) i t.
Proof.
  intros [Hn (h & Hh & Hd)]. unfold retires, delete_implicitly.
  rewrite (delete_head edges_table _ t i h Hn Hh Hd) by by apply put_model. cbn [mbind result_bind fst snd].
  rewrite (update_deleted edges_table _ _ _ _ _ i (copy_deleted (made "edges" i) h)) by (done || apply lookup_insert_eq). cbn [mbind result_bind snd].
  rewrite insert_insert_eq. eexists. split; [done|]. eapply retired_insert; [exact Hh|done|done|].
  intros c. excluded. by apply (column_insert_ne c "deleted_implicitly" (Bool true) (copy_deleted (made "edges" i) h)).
Qed.

Lemma delete_model_retires table i t : only_in_head t i → retires (made table) (delete_row (Some W) v now made nodes_table table) i t.
Proof.
  intros [Hn (h & Hh & Hd)]. unfold retires, delete_row. rewrite (delete_head nodes_table _ t i h Hn Hh Hd) by by apply put_model.
  eexists. split; [done|]. by eapply retired_insert.
Qed.

Lemma delete_association_retires objects owners table i t o h : valid (belongs_to_table objects owners) h = true → t !! key i CS = None → t !! key i Visibility.NONE = Some h → row_deleted_at h = None →
  column "object_id" h = Ident o → alone t (key i CS) o →
  retires (made table) (delete_row (Some W) v now made (belongs_to_table objects owners) table) i t.
Proof.
  intros Hv Hn Hh Hd Ho Ha. unfold retires, delete_row. rewrite (delete_head (belongs_to_table objects owners) _ t i h Hn Hh Hd) by (by eapply put_alone).
  eexists. split; [done|]. by eapply retired_insert.
Qed.

Lemma delete_component_retires i t : only_in_head t i →
  retires (made "components") (delete_component w (Some W) v now actor made) i t.
Proof.
  intros [Hn (h & Hh & Hd)]. unfold retires, delete_component.
  rewrite (delete_head components_table _ t i h Hn Hh Hd) by by apply put_model. cbn [mbind result_bind fst snd]. cbn zeta.
  rewrite (update_deleted components_table _ _ _ _ _ i (copy_deleted (made "components" i) h)) by (done || apply lookup_insert_eq). cbn [mbind result_bind snd].
  rewrite (update_deleted components_table _ _ _ _ _ i (with_column "needs_destroy" (Bool (has_resource w i)) (copy_deleted (made "components" i) h)))
    by (done || apply lookup_insert_eq || by destruct actor). cbn [mbind result_bind snd]. rewrite !insert_insert_eq.
  eexists. split; [done|]. eapply retired_insert; [exact Hh|done|done|]. intros c. excluded.
  erewrite column_insert_ne; [|reflexivity|done].
  by apply (column_insert_ne c "needs_destroy" (Bool (has_resource w i)) (copy_deleted (made "components" i) h)).
Qed.
End Operations.

(** An object that has a row. *)
Lemma check_id_found t k r : t !! k = Some r → check_id_in_table t (key_id k) = true.
Proof.
  intros Hk. unfold check_id_in_table. apply existsb_exists. exists (k, r). split; [by apply list_elem_of_In, elem_of_map_to_list|].
  by apply bool_decide_eq_true.
Qed.

(** ** Taking the rows away again *)

Lemma drop_rows_app R1 R2 t : drop_rows R2 (drop_rows R1 t) = drop_rows (R1 ++ R2) t.
Proof.
  unfold drop_rows. rewrite map_filter_filter. apply map_filter_ext. intros k r _. rewrite fmap_app, not_elem_of_app. cbn. tauto.
Qed.

Lemma drop_retired mk l t t' R : retired mk l t t' → (∀ i, i ∈ l → t !! key i CS = None) →
  (∀ k r i, t !! k = Some r → i ∈ l → row_pk r ≠ mk i) →
  (∀ p, p ∈ row_pk ∘ snd <$> R ↔ ∃ i, i ∈ l ∧ p = mk i) → drop_rows R t' = t.
Proof.
  intros [H1 H2] Hn Hfresh HR. unfold drop_rows. apply map_eq. intros k.
  destruct (decide (Exists (λ i, k = key i CS) l)) as [(i & Hi & ->)%Exists_exists|Hk%not_Exists_Forall]; [| |apply _].
  - rewrite Hn by done. apply map_lookup_filter_None_2. right. intros r Hr. cbn.
    destruct (H1 i Hi) as (h & r' & _ & Hr' & Hpk & _). assert (r = r') as -> by congruence.
    intros Hnot. apply Hnot, HR. by exists i.
  - rewrite list.Forall_forall in Hk. specialize (H2 k Hk). destruct (t !! k) as [r|] eqn:Hr.
    + apply map_lookup_filter_Some_2; [by rewrite H2|]. cbn. intros (i & Hi & He)%HR. by apply (Hfresh k r i).
    + apply map_lookup_filter_None_2. by left.
Qed.

(** The rows of the objects are those that are found deleted in the change set. *)
Lemma retired_pks mk l t t' (R : list (Key * Row)) : retired mk l t t' →
  (∀ e, e ∈ R ↔ (∃ i, i ∈ l ∧ e.1 = key i CS) ∧ t' !! e.1 = Some e.2) →
  ∀ p, p ∈ row_pk ∘ snd <$> R ↔ ∃ i, i ∈ l ∧ p = mk i.
Proof.
  intros [H1 _] HR p. rewrite list_elem_of_fmap. split.
  - intros ([k r] & -> & [(i & Hi & Hk) Hr]%HR). cbn in *. subst k. exists i. split; [done|].
    destruct (H1 i Hi) as (h & r' & _ & Hr' & Hpk & _). congruence.
  - intros (i & Hi & ->). destruct (H1 i Hi) as (h & r & _ & Hr & Hpk & _). exists (key i CS, r). split; [done|].
    apply HR. split; [by exists i|done].
Qed.

Lemma retired_owned owner mk l t t' : owned owner t → at_home owner (Some W) v → retired mk l t t' → owned owner t'.
Proof.
  intros Ho Hh [_ H2] k r Hk Hne.
  destruct (decide (Exists (λ i, k = key i CS) l)) as [(i & Hi & ->)%Exists_exists|Hx%not_Exists_Forall]; [| |apply _].
  - cbn. by apply Hh.
  - rewrite list.Forall_forall in Hx. rewrite (H2 k Hx) in Hk. by eapply Ho.
Qed.

(** What those who see deleted rows see of the change set. *)
Lemma shows_all n r : shows (Visibility.to_deleted n v) r = true.
Proof. done. Qed.

Lemma elem_of_all_view owner n t e : owned owner t → at_home owner (Some W) v → key_change_set e.1 = CS →
  e ∈ model_view (Some W) (Visibility.to_deleted n v) t ↔ key_workspace e.1 = W ∧ t !! e.1 = Some e.2.
Proof.
  intros Ho Hh Hc. rewrite (model_view_overlay owner) by done. destruct e as [[i w' c] r].
  cbn [fst snd key_id key_workspace key_change_set] in *. subst c. unfold overlay. cbn zeta.
  change (Visibility.change_set_pk (Visibility.to_deleted n v)) with CS. rewrite decide_False by done. split.
  - destruct (t !! key i CS) as [r'|] eqn:Hr.
    + rewrite Hr, shows_all. intros [= <- <-]. done.
    + destruct (t !! key i Visibility.NONE); [|done]. rewrite shows_all. intros [= _ He _]. by destruct Hcs.
  - intros [-> Hr]. by rewrite Hr, Hr, shows_all.
Qed.

Lemma retired_overlay mk l t t' v' i : retired mk l t t' → i ∉ l → overlay (Some W) v' t' i = overlay (Some W) v' t i.
Proof.
  intros [_ H2] Hi. assert (He : ∀ c, t' !! key i c = t !! key i c).
  { intros c. apply H2. intros j Hj [= -> _]. done. }
  unfold overlay. cbn zeta. rewrite He.
  destruct (decide _); [by rewrite He|]. destruct (t !! key i (Visibility.change_set_pk v')) as [r|] eqn:Hr; by rewrite He, ?Hr.
Qed.

(** The view without the objects that are deleted. *)
Lemma retired_view owner mk l t t' : owned owner t → at_home owner (Some W) v → retired mk l t t' →
  model_view (Some W) v t' = filter (λ e, key_id e.1 ∉ l) (model_view (Some W) v t).
Proof.
  intros Ho Hh Hr. apply (strictly_sorted_eq (λ e, key_id e.1)).
  - apply select_distinct_sorted.
  - apply StronglySorted_filter, select_distinct_sorted.
  - intros e. rewrite list_elem_of_filter, (model_view_overlay owner _ _ t'), (model_view_overlay owner _ _ t) by (done || by eapply retired_owned).
    destruct (decide (key_id e.1 ∈ l)) as [Hi|Hi].
    + destruct Hr as [H1 _]. destruct (H1 _ Hi) as (h & r & _ & Hr & _ & Hd & _). unfold overlay at 1. cbn zeta.
      rewrite decide_False, Hr, Hr, shows_live by done. rewrite Hd. cbn. naive_solver.
    + rewrite (retired_overlay mk l t t' v) by done. naive_solver.
Qed.
End Retire.

(** ** Restoring undoes deleting *)

Section Restore.
Context (owner : N → N) (w : World) (W now later : N) (v : Visibility.t) (actor : option N) (made : string → N → N).
Context (d : Diagram) (c i o : N) (ra : Row).
Hypothesis Hlive : Visibility.deleted_at v = None.
Abbreviation CS := (Visibility.change_set_pk v).
Hypothesis Hcs : CS ≠ Visibility.NONE.
Hypothesis Hhome : at_home owner (Some W) v.
Abbreviation key i c := {| key_id := i; key_workspace := W; key_change_set := c |}.
Abbreviation all := (Visibility.to_deleted later v).

(** The keys that the database makes are new. *)
Definition new_keys (mk : N → N) (t : Table) : Prop := ∀ k r j, t !! k = Some r → row_pk r ≠ mk j.

(** A component of head with its node [o], and its edges: the change set has not touched
    them, no edge leads from the component to itself, and what its edges lead to is
    live. *)
Record untouched : Prop := {
  owned_edges : owned owner (edges d);
  owned_nodes : owned owner (nodes d);
  owned_components : owned owner (components d);
  indexed_nodes : indexed (node_belongs_to_component d);
  the_component : only_in_head W v (components d) c;
  the_node : only_in_head W v (nodes d) o;
  the_association : nodes_of (Some W) v c (node_belongs_to_component d) = [(key i Visibility.NONE, ra)];
  of_the_node : column "object_id" ra = Ident o;
  no_association : ∀ k r, node_belongs_to_component d !! k = Some r → key_workspace k = W → key_change_set k = CS →
    column "object_id" r ≠ Ident o ∧ column "belongs_to_id" r ≠ Ident c;
  no_edges : ∀ k r, edges d !! k = Some r → key_workspace k = W → key_change_set k = CS →
    column "tail_object_id" r ≠ Ident c ∧ column "head_object_id" r ≠ Ident c;
  peers : ∀ k r, edges d !! k = Some r → key_workspace k = W → key_change_set k = Visibility.NONE →
    column "tail_object_id" r = Ident c → row_deleted_at r = None ∧ ident "head_object_id" r ≠ c ∧
    ∃ e, get_by_id (Some W) all Model (components d) (ident "head_object_id" r) = Some e ∧ row_deleted_at e.2 = None;
  new_edges : new_keys (made "edges") (edges d);
  new_nodes : new_keys (made "nodes") (nodes d);
  new_components : new_keys (made "components") (components d);
  new_associations : new_keys (made "node_belongs_to_component") (node_belongs_to_component d);
}.

Hypothesis Hu : untouched.

(** The edges of the component are of head. *)
Lemma visible_edge e : e ∈ model_view (Some W) v (edges d) →
  column "tail_object_id" e.2 = Ident c ∨ column "head_object_id" e.2 = Ident c →
  e.1 = key (key_id e.1) Visibility.NONE ∧ edges d !! e.1 = Some e.2 ∧ only_in_head W v (edges d) (key_id e.1).
Proof.
  intros He Hc. rewrite (model_view_overlay owner) in He by (done || apply Hu). destruct e as [[j w' cs] r].
  cbn [fst snd key_id] in *. unfold overlay in He. cbn zeta in He. rewrite decide_False in He by done.
  destruct (edges d !! key j CS) as [r'|] eqn:Hr.
  - rewrite Hr in He. destruct (shows v r'); [|done]. injection He as <- <- <-.
    destruct (no_edges Hu _ _ Hr eq_refl eq_refl). by destruct Hc.
  - destruct (edges d !! key j Visibility.NONE) as [h|] eqn:Hh; [|done]. rewrite shows_live in He by done.
    case_bool_decide as Hd; [|done]. injection He as <- <- <-. split_and!; [done|done|]. split; [done|]. by exists h.
Qed.

Definition outgoing : list (Key * Row) := edges_from (Some W) v c (edges d).
Definition incoming : list (Key * Row) := edges_to (Some W) v c (edges d).
Definition edge_ids : list N := (id_of <$> outgoing) ++ (id_of <$> incoming).

Lemma edge_ids_spec j : j ∈ edge_ids ↔ ∃ h, (key j Visibility.NONE, h) ∈ model_view (Some W) v (edges d) ∧
  (column "tail_object_id" h = Ident c ∨ column "head_object_id" h = Ident c).
Proof.
  unfold edge_ids, outgoing, incoming, edges_from, edges_to, id_of. rewrite elem_of_app, !list_elem_of_fmap. split.
  - intros [([k h] & -> & [Hc He]%list_elem_of_filter)|([k h] & -> & [Hc He]%list_elem_of_filter)]; exists h;
      destruct (visible_edge (k, h) He) as (Hk & _); auto; cbn in *; rewrite <- Hk; auto.
  - intros (h & He & [Hc|Hc]); [left|right]; exists (key j Visibility.NONE, h); (split; [done|by apply list_elem_of_filter]).
Qed.

Lemma view_ids_NoDup (P : Key * Row → Prop) `{!∀ e, Decision (P e)} t : NoDup (id_of <$> filter P (model_view (Some W) v t)).
Proof.
  pose proof (StronglySorted_filter _ P _ (select_distinct_sorted (λ e, key_id e.1)
    (λ e, in_tenancy_and_visible (Some W) v e && negb (deleted_in_change_set v t e)) t)) as Hs.
  fold (model_view (Some W) v t) in Hs. induction Hs as [|e l _ IH He]; cbn; constructor; [|done].
  intros (x & Hx & Hin)%list_elem_of_fmap. rewrite list.Forall_forall in He. specialize (He x Hin). unfold id_of in Hx. lia.
Qed.

Lemma edge_ids_NoDup : NoDup edge_ids.
Proof.
  unfold edge_ids. apply NoDup_app. split_and!; [apply view_ids_NoDup| |apply view_ids_NoDup].
  intros j (x & -> & [Ht Hx]%list_elem_of_filter)%list_elem_of_fmap (y & Hj & [Hh Hy]%list_elem_of_filter)%list_elem_of_fmap.
  destruct (visible_edge x Hx (or_introl Ht)) as (Hkx & Hrx & _). destruct (visible_edge y Hy (or_intror Hh)) as (Hky & Hry & _).
  unfold id_of in Hj. rewrite Hky, <- Hj, <- Hkx, Hrx in Hry. injection Hry as Hr. rewrite <- Hr in Hh.
  rewrite Hkx in Hrx. destruct (peers Hu _ _ Hrx eq_refl eq_refl Ht) as (_ & Hne & _). apply Hne. unfold ident. by rewrite Hh.
Qed.

Lemma edge_ids_only j : j ∈ edge_ids → only_in_head W v (edges d) j.
Proof. intros (h & He & Hc)%edge_ids_spec. by apply (visible_edge _ He Hc). Qed.

Lemma for_each_app f l l' t : for_each f (l ++ l') t = (t ← for_each f l t; for_each f l' t).
Proof. revert t. induction l as [|j l IH]; intros t; [done|]. cbn. destruct (f j t); [|done]. cbn. apply IH. Qed.

(** ** The tables after deleting *)

Record deleted_tables (d1 : Diagram) : Prop := {
  edges_retired : retired W now v (made "edges") edge_ids (edges d) (edges d1);
  nodes_retired : retired W now v (made "nodes") [o] (nodes d) (nodes d1);
  components_retired : retired W now v (made "components") [c] (components d) (components d1);
  associations_retired : retired W now v (made "node_belongs_to_component") [i] (node_belongs_to_component d) (node_belongs_to_component d1);
}.

(** The association of the node is found in head. *)
Lemma association_row : node_belongs_to_component d !! key i CS = None ∧
  node_belongs_to_component d !! key i Visibility.NONE = Some ra ∧ row_deleted_at ra = None ∧ column "belongs_to_id" ra = Ident c ∧
  alone (node_belongs_to_component d) (key i CS) o.
Proof.
  assert (Hin : (key i Visibility.NONE, ra) ∈ nodes_of (Some W) v c (node_belongs_to_component d)).
  { rewrite (the_association Hu). left. }
  apply list_elem_of_filter in Hin as [Hb Hin]. cbn in Hb. unfold belongs_to_view in Hin.
  rewrite (elem_of_select_distinct _ _ _ _ (associations_separated W v Hlive _ (indexed_nodes Hu))) in Hin.
  destruct Hin as (Hr & (_ & Hd & _)%(visible_spec W v Hlive) & _). cbn in Hr, Hd.
  assert (Ha : alone (node_belongs_to_component d) (key i CS) o).
  { intros k r Hk _ Hw Hc. by apply (no_association Hu k r Hk). }
  split_and!; try done. destruct (node_belongs_to_component d !! key i CS) as [r|] eqn:Hr'; [|done]. exfalso.
  apply (proj1 (no_association Hu _ _ Hr' eq_refl eq_refl)). rewrite <- (of_the_node Hu). by apply (coherent _ (indexed_nodes Hu) _ _ _ _ Hr' Hr).
Qed.

(** Deleting the node leaves its association valid. *)
Lemma association_valid ns : retired W now v (made "nodes") [o] (nodes d) ns →
  valid (belongs_to_table (check_id_in_table ns) (check_id_in_table (components d))) ra = true.
Proof.
  intros [H1 _]. destruct association_row as (_ & _ & _ & Hb & _).
  rewrite (valid_association _ _ ra o c (of_the_node Hu) Hb). destruct (H1 o ltac:(left)) as (_ & r & _ & Hr & _).
  destruct (the_component Hu) as [_ (h & Hh & _)]. apply andb_true_iff. split; [exact (check_id_found _ _ _ Hr)|exact (check_id_found _ _ _ Hh)].
Qed.

Lemma delete_tables : ∃ values d1, delete_and_propagate_v1 w (Some W) v now actor made c d = Ok (values, d1) ∧ deleted_tables d1.
Proof.
  unfold delete_and_propagate_v1. cbn zeta.
  destruct (for_each_retires W now v Hcs (made "edges") (delete_implicitly (Some W) v now made) edge_ids (edges d)) as (es & He & Hre);
    [apply edge_ids_NoDup|apply edge_ids_only|intros; by apply delete_implicitly_retires|].
  unfold edge_ids, outgoing, incoming in He. rewrite for_each_app in He. apply result_bind_ok in He as (es1 & -> & He).
  cbn [mbind result_bind]. rewrite He. cbn [mbind result_bind].
  destruct association_row as (Hn & Hr & Hd & _ & Ha). rewrite (the_association Hu). cbn [fmap list_fmap compose snd id_of fst key_id for_each].
  replace (object_id ra) with o by (unfold object_id; by rewrite (of_the_node Hu)).
  destruct (delete_model_retires W now v Hlive Hcs made "nodes" o (nodes d) (the_node Hu)) as (ns & -> & Hrn). cbn [mbind result_bind].
  destruct (delete_association_retires W now v Hlive Hcs made _ _ "node_belongs_to_component" i (node_belongs_to_component d) o ra
    (association_valid ns Hrn) Hn Hr Hd
    (of_the_node Hu) Ha) as (nb & -> & Hrb). cbn [mbind result_bind].
  destruct (delete_component_retires W now v Hlive Hcs w actor made c (components d) (the_component Hu)) as (cs & -> & Hrc). cbn [mbind result_bind].
  eexists _, _. split; [done|]. by split.
Qed.

(** ** What is found deleted in the change set *)

Section Deleted.
Context (d1 : Diagram) (Hd1 : deleted_tables d1).

Lemma retired_or_old mk l t t' k r : retired W now v mk l t t' → t' !! k = Some r →
  (∃ j, j ∈ l ∧ k = key j CS) ∨ t !! k = Some r.
Proof.
  intros [_ H2] Hk. destruct (decide (Exists (λ j, k = key j CS) l)) as [(j & Hj & Hkj)%Exists_exists|Hx%not_Exists_Forall]; [| |apply _].
  - left. by exists j.
  - right. rewrite list.Forall_forall in Hx. by rewrite <- (H2 k Hx).
Qed.

Lemma edges_owned1 : owned owner (edges d1).
Proof. exact (retired_owned _ _ _ _ _ _ _ _ (owned_edges Hu) Hhome (edges_retired _ Hd1)). Qed.

Lemma nodes_owned1 : owned owner (nodes d1).
Proof. exact (retired_owned _ _ _ _ _ _ _ _ (owned_nodes Hu) Hhome (nodes_retired _ Hd1)). Qed.

Lemma components_owned1 : owned owner (components d1).
Proof. exact (retired_owned _ _ _ _ _ _ _ _ (owned_components Hu) Hhome (components_retired _ Hd1)). Qed.

(** The columns of an edge in the change set are those of head. *)
Lemma edge_row j : j ∈ edge_ids → ∃ h r, edges d !! key j Visibility.NONE = Some h ∧ edges d1 !! key j CS = Some r ∧
  row_deleted_at r = Some now ∧ column "tail_object_id" r = column "tail_object_id" h ∧
  column "head_object_id" r = column "head_object_id" h ∧
  (column "tail_object_id" h = Ident c ∨ column "head_object_id" h = Ident c).
Proof.
  intros Hj. destruct (proj1 (edges_retired _ Hd1) j Hj) as (h & r & Hh & Hr & _ & Hd & Hcol). exists h, r.
  apply edge_ids_spec in Hj as (h' & He & Hc). destruct (visible_edge _ He Hc) as (_ & Hh' & _). cbn in Hh'.
  assert (h' = h) as -> by congruence. split_and!; [done|done|done|apply Hcol; set_solver|apply Hcol; set_solver|done].
Qed.

Lemma dropped_edges e :
  e ∈ filter (deleted_here v) (edges_from (Some W) all c (edges d1)) ++ filter (deleted_here v) (edges_to (Some W) all c (edges d1)) ↔
  (∃ j, j ∈ edge_ids ∧ e.1 = key j CS) ∧ edges d1 !! e.1 = Some e.2.
Proof.
  unfold edges_from, edges_to. rewrite elem_of_app, !list_elem_of_filter.
  assert (Hall : key_change_set e.1 = CS → e ∈ model_view (Some W) all (edges d1) ↔ key_workspace e.1 = W ∧ edges d1 !! e.1 = Some e.2).
  { intros. apply (elem_of_all_view _ _ Hcs owner); [apply edges_owned1|done|done]. }
  assert (Hto : deleted_here v e → e ∈ model_view (Some W) all (edges d1) →
    column "tail_object_id" e.2 = Ident c ∨ column "head_object_id" e.2 = Ident c →
    (∃ j, j ∈ edge_ids ∧ e.1 = key j CS) ∧ edges d1 !! e.1 = Some e.2).
  { intros [_ Hc] Hv He. apply (Hall Hc) in Hv as [Hw Hv]. split; [|done].
    destruct (retired_or_old _ _ _ _ _ _ (edges_retired _ Hd1) Hv) as [?|Hold]; [done|].
    destruct (no_edges Hu _ _ Hold Hw Hc). by destruct He. }
  split.
  - intros [(Hdel & Hc & Hv)|(Hdel & Hc & Hv)]; apply Hto; auto.
  - intros [(j & Hj & Hk) Hr]. destruct (edge_row j Hj) as (h & r & _ & Hr' & Hd & Ht & Hh & Hc). rewrite <- Hk, Hr in Hr'. injection Hr' as <-.
    assert (Hdel : deleted_here v e) by (split; [by rewrite Hd|by rewrite Hk]).
    assert (Hv : e ∈ model_view (Some W) all (edges d1)) by (apply Hall; [by rewrite Hk|]; split; [by rewrite Hk|done]).
    destruct Hc as [Hc|Hc]; [left|right]; (split_and!; [done|congruence|done]).
Qed.

(** The association. *)
Lemma associations_separated_all t : indexed t → separated (λ e, object_id e.2) (in_tenancy_and_visible (Some W) all) t.
Proof.
  intros [Ht Hs _] [k r] [k' r'] Hk Hk' Hp Hp' Ho Hc. cbn in *.
  unfold in_tenancy_and_visible, in_tenancy in Hp, Hp'. apply andb_true_iff in Hp as [Hw _], Hp' as [Hw' _].
  apply bool_decide_eq_true in Hw, Hw'. cbn in Hw, Hw'. destruct (Ht k r Hk) as [x Hx]. destruct (Ht k' r' Hk') as [x' Hx'].
  assert (k = k') as <-; [|congruence]. apply (Hs k r k' r'); [done|done|congruence|done|].
  unfold object_id in Ho. rewrite Hx, Hx' in Ho. congruence.
Qed.

Lemma association_row1 : ∃ r, node_belongs_to_component d1 = <[key i CS := r]> (node_belongs_to_component d) ∧
  row_deleted_at r = Some now ∧ column "object_id" r = Ident o ∧ column "belongs_to_id" r = Ident c.
Proof.
  destruct association_row as (Hn & Hr & Hd & Hb & _). destruct (associations_retired _ Hd1) as [H1 H2].
  destruct (H1 i ltac:(left)) as (h & r & Hh & Hr' & _ & Hdel & Hcol). assert (h = ra) as -> by congruence. exists r. split_and!.
  - apply map_eq. intros k. rewrite lookup_insert. case_decide as Hk; [by rewrite <- Hk|]. apply H2.
    intros j ->%list_elem_of_singleton Hkj. by apply Hk.
  - done.
  - rewrite Hcol by set_solver. apply Hu.
  - by rewrite Hcol by set_solver.
Qed.

Lemma associations_indexed1 : indexed (node_belongs_to_component d1).
Proof.
  destruct association_row1 as (r & -> & _ & Ho & _). destruct association_row as (_ & Hr & _ & _ & Ha).
  apply (indexed_insert _ _ _ o); [apply Hu|done|done|]. intros k r' Hk Hid Hw.
  rewrite (coherent _ (indexed_nodes Hu) k r' _ ra Hk Hr) by done. apply Hu.
Qed.

Lemma dropped_associations e : e ∈ filter (deleted_here v) (nodes_of (Some W) all c (node_belongs_to_component d1)) ↔
  (∃ j, j ∈ [i] ∧ e.1 = key j CS) ∧ node_belongs_to_component d1 !! e.1 = Some e.2.
Proof.
  unfold nodes_of, belongs_to_view. rewrite !list_elem_of_filter.
  rewrite (elem_of_select_distinct _ _ _ _ (associations_separated_all _ associations_indexed1)). split.
  - intros ([_ Hc] & Hb & Hr & Hp & _). split; [|done].
    destruct (retired_or_old _ _ _ _ _ _ (associations_retired _ Hd1) Hr) as [?|Hold]; [done|].
    unfold in_tenancy_and_visible, in_tenancy in Hp. apply andb_true_iff in Hp as [Hw%bool_decide_eq_true _]. injection Hw as Hw.
    by destruct (no_association Hu _ _ Hold (eq_sym Hw) Hc) as [_ ?].
  - intros [(j & ->%list_elem_of_singleton & Hk) Hr]. destruct association_row1 as (r & Ht & Hd & Ho & Hb).
    assert (Her : e.2 = r). { rewrite Hk, Ht, lookup_insert_eq in Hr. by injection Hr as <-. }
    rewrite Her in *. split_and!; [split; [by rewrite Her, Hd|by rewrite Hk]|done|by rewrite Hr| |].
    + unfold in_tenancy_and_visible, in_tenancy, is_visible. rewrite Hk. cbn.
      rewrite andb_true_iff, orb_true_iff, !bool_decide_eq_true. by auto.
    + intros y _ Hp _. unfold in_tenancy_and_visible, is_visible in Hp. rewrite !andb_true_iff, !orb_true_iff, !bool_decide_eq_true in Hp.
      rewrite Hk. cbn. destruct Hp as [_ [_ [->| ->]]]; [unfold Visibility.NONE|]; cbn; lia.
Qed.

(** The node. *)
Lemma dropped_nodes e :
  e ∈ filter (λ e, deleted_here v e ∧ key_id e.1 ∈ object_id ∘ snd <$> filter (deleted_here v) (nodes_of (Some W) all c (node_belongs_to_component d1)))
        (model_view (Some W) all (nodes d1)) ↔
  (∃ j, j ∈ [o] ∧ e.1 = key j CS) ∧ nodes d1 !! e.1 = Some e.2.
Proof.
  rewrite list_elem_of_filter.
  assert (Ho : ∀ x, x ∈ object_id ∘ snd <$> filter (deleted_here v) (nodes_of (Some W) all c (node_belongs_to_component d1)) ↔ x = o).
  { destruct association_row1 as (r & Ht & _ & Hob & _). intros x. rewrite list_elem_of_fmap. split.
    - intros (y & -> & [(j & ->%list_elem_of_singleton & Hk) Hr]%dropped_associations). rewrite Hk, Ht, lookup_insert_eq in Hr.
      injection Hr as Hr. unfold compose, object_id. by rewrite <- Hr, Hob.
    - intros ->. exists (key i CS, r). split; [cbn; unfold object_id; by rewrite Hob|]. apply dropped_associations.
      split; [by exists i; split; [left|]|]. cbn. by rewrite Ht, lookup_insert_eq. }
  rewrite Ho. split.
  - intros [[[_ Hc] Hid] Hv]. apply (elem_of_all_view _ _ Hcs owner) in Hv as [Hw Hv]; [|apply nodes_owned1|done|done]. split; [|done].
    exists o. split; [left|]. destruct e as [[j w' cs] r]. cbn in *. by subst.
  - intros [(j & ->%list_elem_of_singleton & Hk) Hr]. destruct (proj1 (nodes_retired _ Hd1) o ltac:(left)) as (h & r & _ & Hr' & _ & Hd & _).
    rewrite <- Hk, Hr in Hr'. injection Hr' as <-. split_and!; [split; [by rewrite Hd|by rewrite Hk]|by rewrite Hk|].
    apply (elem_of_all_view _ _ Hcs owner); [apply nodes_owned1|done|by rewrite Hk|]. split; [by rewrite Hk|done].
Qed.

(** The component. *)
Lemma dropped_components e :
  e ∈ filter (λ e, deleted_here v e ∧ key_id e.1 = c) (model_view (Some W) all (components d1)) ↔
  (∃ j, j ∈ [c] ∧ e.1 = key j CS) ∧ components d1 !! e.1 = Some e.2.
Proof.
  rewrite list_elem_of_filter. split.
  - intros [[[_ Hc] Hid] Hv]. apply (elem_of_all_view _ _ Hcs owner) in Hv as [Hw Hv]; [|apply components_owned1|done|done]. split; [|done].
    exists c. split; [left|]. destruct e as [[j w' cs] r]. cbn in *. by subst.
  - intros [(j & ->%list_elem_of_singleton & Hk) Hr]. destruct (proj1 (components_retired _ Hd1) c ltac:(left)) as (h & r & _ & Hr' & _ & Hd & _).
    rewrite <- Hk, Hr in Hr'. injection Hr' as <-. split_and!; [split; [by rewrite Hd|by rewrite Hk]|by rewrite Hk|].
    apply (elem_of_all_view _ _ Hcs owner); [apply components_owned1|done|by rewrite Hk|]. split; [by rewrite Hk|done].
Qed.

Lemma restored_tables : (restore_and_propagate_v1 w (Some W) v later c d1).2 = d.
Proof.
  unfold restore_and_propagate_v1. cbn zeta. cbn [snd]. rewrite drop_rows_app. destruct association_row as (Hn & _).
  rewrite (drop_retired _ _ _ _ _ _ _ _ (edges_retired _ Hd1)); [|by intros j [? _]%edge_ids_only|intros k r j Hk _; by apply (new_edges Hu k)|
    apply (retired_pks _ _ _ _ _ _ _ _ (edges_retired _ Hd1) dropped_edges)].
  rewrite (drop_retired _ _ _ _ _ _ _ _ (nodes_retired _ Hd1)); [|intros j ->%list_elem_of_singleton; apply (the_node Hu)|
    intros k r j Hk _; by apply (new_nodes Hu k)|apply (retired_pks _ _ _ _ _ _ _ _ (nodes_retired _ Hd1) dropped_nodes)].
  rewrite (drop_retired _ _ _ _ _ _ _ _ (components_retired _ Hd1)); [|intros j ->%list_elem_of_singleton; apply (the_component Hu)|
    intros k r j Hk _; by apply (new_components Hu k)|apply (retired_pks _ _ _ _ _ _ _ _ (components_retired _ Hd1) dropped_components)].
  rewrite (drop_retired _ _ _ _ _ _ _ _ (associations_retired _ Hd1)); [|by intros j ->%list_elem_of_singleton|
    intros k r j Hk _; by apply (new_associations Hu k)|apply (retired_pks _ _ _ _ _ _ _ _ (associations_retired _ Hd1) dropped_associations)].
  by destruct d.
Qed.

(** ** What is shown in between *)

Lemma filter_ext {A} (P Q : A → Prop) `{∀ x, Decision (P x), ∀ x, Decision (Q x)} l :
  Forall (λ x, P x ↔ Q x) l → filter P l = filter Q l.
Proof.
  induction 1 as [|x l Hx _ IH]; [done|]. rewrite !filter_cons, IH. by repeat case_decide; naive_solver.
Qed.

Lemma same_id e x : e ∈ model_view (Some W) v (edges d) → x ∈ model_view (Some W) v (edges d) → key_id e.1 = id_of x → e = x.
Proof. apply (sorted_inj (λ e, key_id e.1)). apply select_distinct_sorted. Qed.

Lemma edge_hidden e : e ∈ model_view (Some W) v (edges d) →
  key_id e.1 ∉ edge_ids ↔ column "tail_object_id" e.2 ≠ Ident c ∧ column "head_object_id" e.2 ≠ Ident c.
Proof.
  intros He. unfold edge_ids, outgoing, incoming, edges_from, edges_to. rewrite not_elem_of_app, !list_elem_of_fmap. split.
  - intros [Ho Hi]. split; intros Hc; [apply Ho|apply Hi]; exists e; (split; [done|by apply list_elem_of_filter]).
  - intros [Ht Hh]. split; intros (x & Hx & [Hc Hin]%list_elem_of_filter).
    + rewrite <- (same_id e x) in Hc; auto.
    + rewrite <- (same_id e x) in Hc; auto.
Qed.

Lemma shown_edges : model_view (Some W) v (edges d1) =
  filter (λ e, column "tail_object_id" e.2 ≠ Ident c ∧ column "head_object_id" e.2 ≠ Ident c) (model_view (Some W) v (edges d)).
Proof.
  rewrite (retired_view W now v Hlive Hcs owner _ _ _ _ (owned_edges Hu) Hhome (edges_retired _ Hd1)).
  apply filter_ext. rewrite list.Forall_forall. exact edge_hidden.
Qed.

(** ** The guard of restoring *)

Lemma found_deleted : ∃ e, get_by_id (Some W) all Model (components d1) c = Some e.
Proof.
  rewrite (get_by_id_overlay owner) by (done || apply components_owned1).
  destruct (proj1 (components_retired _ Hd1) c ltac:(left)) as (h & r & _ & Hr & _). unfold overlay. cbn zeta.
  change (Visibility.change_set_pk all) with CS. rewrite decide_False, Hr, Hr, shows_all by done. by eexists.
Qed.

(** The frame is live, when the component was in one. *)
Lemma parent_is_live p : deleted_parent w (Some W) v later c d1 = Some p →
  ∃ e, get_by_id (Some W) all Model (components d1) p = Some e ∧ row_deleted_at e.2 = None.
Proof.
  unfold deleted_parent. destruct (frame_output w c) as [s|]; [|done]. cbn [mbind option_bind].
  intros ([k r] & [(Ht & _ & Hdel & _) Hv]%head_Some_elem_of%list_elem_of_filter & ->)%fmap_Some. cbn [fst snd] in *.
  change (list_models _ _ _ _) with (model_view (Some W) all (edges d1)) in Hv.
  assert (Hp : ∃ h, edges d !! key (key_id k) Visibility.NONE = Some h ∧ column "tail_object_id" h = Ident c ∧
    ident "head_object_id" r = ident "head_object_id" h).
  { rewrite (model_view_overlay owner) in Hv by (done || apply edges_owned1). apply overlay_key in Hv as (Hw & Hcs' & Hr).
    destruct (retired_or_old _ _ _ _ _ _ (edges_retired _ Hd1) Hr) as [(j & Hj & ->)|Hold].
    - destruct (edge_row j Hj) as (h & r' & Hh & Hr' & _ & Ht' & Hh' & _). assert (r' = r) as -> by congruence.
      exists h. split_and!; [done|congruence|]. unfold ident. by rewrite Hh'.
    - exfalso. destruct Hcs' as [Hn|Hc]; [|by destruct (no_edges Hu _ _ Hold Hw Hc)].
      by destruct (peers Hu _ _ Hold Hw Hn Ht) as (? & _). }
  destruct Hp as (h & Hh & Hth & ->). destruct (peers Hu _ _ Hh eq_refl eq_refl Hth) as (_ & Hne & e & He & Hd).
  exists e. split; [|done]. rewrite (get_by_id_overlay owner) in * by (done || apply components_owned1 || apply Hu).
  rewrite (retired_overlay _ _ _ _ _ _ _ _ _ (components_retired _ Hd1)); [done|]. by intros ?%list_elem_of_singleton.
Qed.
End Deleted.
End Restore.

(** C10: A component of head that a change set has not touched, that is not protected and
    is no frame with components in it, is deleted in the change set: what is shown of the
    components, the nodes and the edges is what was shown before, less the component, its
    node and the edges from and to it. Restoring it then finds it, and leaves the tables
    exactly as they were before it was deleted. *)
Theorem restore_undoes_delete owner w W now later v actor made d c i o ra :
  Visibility.deleted_at v = None → Visibility.change_set_pk v ≠ Visibility.NONE → at_home owner (Some W) v →
  untouched owner W later v made d c i o ra →
  get_type w c = Component ∨ frame_has_children w (Some W) v c d = Ok false → get_protected w c = false →
  ∃ values d1, delete_and_propagate w (Some W) v now actor made c d = Ok (values, d1) ∧
    model_view (Some W) v (components d1) = filter (λ e, key_id e.1 ≠ c) (model_view (Some W) v (components d)) ∧
    model_view (Some W) v (nodes d1) = filter (λ e, key_id e.1 ≠ o) (model_view (Some W) v (nodes d)) ∧
    model_view (Some W) v (edges d1) =
      filter (λ e, column "tail_object_id" e.2 ≠ Ident c ∧ column "head_object_id" e.2 ≠ Ident c) (model_view (Some W) v (edges d)) ∧
    ∃ e values', get_by_id (Some W) v Model (components d) c = Some e ∧
      restore_and_propagate w (Some W) v later c d1 = Ok (Some e, values', d).
Proof.
  intros Hlive Hcs Hhome Hu Hty Hp.
  destruct (delete_tables owner w W now later v actor made d c i o ra Hlive Hcs Hhome Hu) as (values & d1 & Hdel & Hd1).
  exists values, d1. split_and!.
  - unfold delete_and_propagate. rewrite Hp. destruct (decide (get_type w c = Component)); cbn [mbind result_bind]; [by rewrite Hdel|].
    destruct Hty as [?| ->]; [done|]. cbn [mbind result_bind]. by rewrite Hdel.
  - rewrite (retired_view W now v Hlive Hcs owner _ _ _ _ (owned_components _ _ _ _ _ _ _ _ _ _ Hu) Hhome (components_retired _ _ _ _ _ _ _ _ _ Hd1)).
    apply list_filter_iff. intros x. by rewrite list_elem_of_singleton.
  - rewrite (retired_view W now v Hlive Hcs owner _ _ _ _ (owned_nodes _ _ _ _ _ _ _ _ _ _ Hu) Hhome (nodes_retired _ _ _ _ _ _ _ _ _ Hd1)).
    apply list_filter_iff. intros x. by rewrite list_elem_of_singleton.
  - by eapply shown_edges.
  - destruct (the_component _ _ _ _ _ _ _ _ _ _ Hu) as [Hn (h & Hh & Hl)].
    assert (Hc : ∃ e, get_by_id (Some W) v Model (components d) c = Some e).
    { rewrite (get_by_id_overlay owner) by (done || apply Hu). unfold overlay. cbn zeta.
      rewrite decide_False, Hn, Hh, shows_live, Hl by done. by eexists. }
    destruct Hc as [e He]. exists e. unfold restore_and_propagate. cbn zeta.
    destruct (found_deleted owner W now later v made d c i o ra Hcs Hhome Hu d1 Hd1) as [e1 ->].
    pose proof (parent_is_live owner w W now later v made d c i o ra Hlive Hcs Hhome Hu d1 Hd1) as Hparent.
    pose proof (restored_tables owner w W now later v made d c i o ra Hlive Hcs Hhome Hu d1 Hd1) as Hr.
    destruct (restore_and_propagate_v1 w (Some W) v later c d1) as [values' d2] eqn:Hv. cbn in Hr. subst d2. exists values'. split; [done|].
    destruct (deleted_parent w (Some W) v later c d1) as [p|]; cbn [mbind result_bind]; [|by rewrite He].
    destruct (Hparent p eq_refl) as (e2 & -> & Hd). rewrite decide_True by done. cbn [mbind result_bind]. by rewrite He.
Qed.
