(* ===== verification/ComponentSample.v ===== *)
(** * Examples of deleting and restoring components

    The witness of [ComponentTheorems], and runs that show what restoring does not keep.
    Component 50 has node 60; an edge leads from it to component 51, and one from
    component 52 to it. *)

From S2P Require Import Prelude DalContext StandardModel ModelViews Associations ModelSample Components ComponentTheorems.
From Stdlib Require Import NArith Strings.String Sorting.Sorted.
From stdpp Require Import base tactics list gmap strings.

Definition edge_between (tail socket head_ socket' : N) : gmap string Value :=
  {["tail_object_id" := Ident tail; "tail_socket_id" := Ident socket;
    "head_object_id" := Ident head_; "head_socket_id" := Ident socket']}.

Definition outgoing_edge : Row := row 380 None (edge_between 50 5 51 6).
Definition incoming_edge : Row := row 381 None (edge_between 52 7 50 8).

Definition sample_diagram : Diagram := {|
  edges := {[ at_key 80 0 := outgoing_edge; at_key 81 0 := incoming_edge ]};
  nodes := {[ at_key 60 0 := row 360 None ∅ ]};
  components := {[ at_key 50 0 := row 350 None ∅; at_key 51 0 := row 351 None ∅; at_key 52 0 := row 352 None ∅ ]};
  node_belongs_to_component := {[ at_key 70 0 := row 370 None (parents 60 50) ]};
|}.

(** Socket 5 leads to the frame that the component is in. *)
Definition sample_world : World := {|
  get_type _ := Component;
  get_protected _ := false;
  has_resource _ := true;
  frame_input _ := None;
  frame_output _ := Some 5%N;
  socket_values c _ := [c];
|}.

Definition sample_made (_ : string) (i : N) : N := 900 + i.

(** A table whose rows are of head, with keys below those that are made. *)
Definition of_head (t : Table) : bool :=
  forallb (λ e, bool_decide (key_change_set e.1 = 0%N) && (row_pk e.2 <? 900)%N) (map_to_list t).

Lemma of_head_spec t k r : of_head t = true → t !! k = Some r → key_change_set k = 0%N ∧ (row_pk r < 900)%N.
Proof.
  intros H Hk. unfold of_head in H. rewrite forallb_forall in H. specialize (H (k, r) ltac:(by apply list_elem_of_In, elem_of_map_to_list)).
  apply andb_true_iff in H as [H1%bool_decide_eq_true H2%N.ltb_lt]. done.
Qed.

Lemma of_head_new n t : of_head t = true → new_keys (sample_made n) t.
Proof. intros H k r j Hk. destruct (of_head_spec t k r H Hk). unfold sample_made. lia. Qed.

Lemma sample_edges k r : edges sample_diagram !! k = Some r → r = outgoing_edge ∨ r = incoming_edge.
Proof. cbn [edges sample_diagram]. intros [[_ <-]|[_ [_ <-]%lookup_singleton_Some]]%lookup_insert_Some; auto. Qed.

Lemma sample_untouched : untouched sample_owner 1 9 in7 sample_made sample_diagram 50 70 60 (row 370 None (parents 60 50)).
Proof.
  split; try (apply owned_check; reflexivity); try (apply of_head_new; reflexivity).
  - apply indexed_check. reflexivity.
  - split; [reflexivity|]. eexists. split; reflexivity.
  - split; [reflexivity|]. eexists. split; reflexivity.
  - reflexivity.
  - reflexivity.
  - intros k r Hk _ Hc. destruct (of_head_spec _ _ _ (eq_refl : of_head (node_belongs_to_component sample_diagram) = true) Hk) as [H0 _]. rewrite H0 in Hc. discriminate Hc.
  - intros k r Hk _ Hc. destruct (of_head_spec _ _ _ (eq_refl : of_head (edges sample_diagram) = true) Hk) as [H0 _]. rewrite H0 in Hc. discriminate Hc.
  - intros k r Hk _ _ Ht. destruct (sample_edges k r Hk) as [-> | ->]; [|discriminate Ht].
    split; [reflexivity|]. split; [discriminate|]. eexists. split; reflexivity.
Qed.

(** Witness of [restore_undoes_delete]. *)
Lemma restore_undoes_delete_witness :
  id_of <$> model_view (Some 1%N) in7 (edges sample_diagram) = [80; 81]%N ∧
  ∃ values d1 e values',
    delete_and_propagate sample_world (Some 1%N) in7 8 None sample_made 50 sample_diagram = Ok (values, d1) ∧
    id_of <$> model_view (Some 1%N) in7 (components d1) = [51; 52]%N ∧
    model_view (Some 1%N) in7 (edges d1) = [] ∧
    restore_and_propagate sample_world (Some 1%N) in7 9 50 d1 = Ok (Some e, values', sample_diagram).
Proof.
  split; [reflexivity|].
  destruct (restore_undoes_delete sample_owner sample_world 1 8 9 in7 None sample_made sample_diagram 50 70 60 _ eq_refl ltac:(done)
    (sample_home in7) sample_untouched (or_introl eq_refl) eq_refl) as (values & d1 & H1 & H2 & _ & H3 & e & values' & _ & H4).
  exists values, d1, e, values'. split; [exact H1|]. rewrite H2, H3. split_and!; [reflexivity|reflexivity|exact H4].
Defined.

(** ** What restoring does not keep *)

Definition edge_ids_shown (d : Diagram) : list N := id_of <$> model_view (Some 1%N) in7 (edges d).

Definition with_edges (t : Table) (d : Diagram) : Diagram :=
  {| edges := t; nodes := nodes d; components := components d; node_belongs_to_component := node_belongs_to_component d |}.

Definition with_components (t : Table) (d : Diagram) : Diagram :=
  {| edges := edges d; nodes := nodes d; components := t; node_belongs_to_component := node_belongs_to_component d |}.

Definition delete_and_restore (c : N) (d : Diagram) : result ComponentError (option (Key * Row) * list N * Diagram) :=
  p ← delete_and_propagate sample_world (Some 1%N) in7 8 None sample_made c d;
  restore_and_propagate sample_world (Some 1%N) in7 9 c p.2.

(** An edge that was deleted by itself, before its component was, is shown again. *)
Example restoring_brings_deleted_edges_back :
  let d := with_edges (table_of (delete_by_id (Some 1%N) in7 edges_table 5 500 80 (edges sample_diagram))) sample_diagram in
  edge_ids_shown d = [81]%N ∧
  (λ p, edge_ids_shown p.2) <$> (match delete_and_restore 50 d with Ok p => Some p | Err _ => None end) = Some [80; 81]%N.
Proof. vm_compute. split; reflexivity. Qed.

(** A component that was created in the change set is not restored: its row is taken
    away, and there is none in head. *)
Example restoring_new_component_removes_it :
  let d := with_components {[at_key 53 7 := row 353 None ∅]} sample_diagram in
  get_by_id (Some 1%N) in7 Model (components d) 53 = Some (at_key 53 7, row 353 None ∅) ∧
  (λ p, (p.1.1, get_by_id (Some 1%N) (Visibility.to_deleted 9 in7) Model (components p.2) 53)) <$>
    (match delete_and_restore 53 d with Ok p => Some p | Err _ => None end) = Some (None, None).
Proof. vm_compute. split; reflexivity. Qed.
